(* ===== verification/_CoqProject ===== *)
-Q . S2P
Prelude.v
GoTime.v
GoFloat.v
GoSort.v
GoBytes.v
GoText.v
GoJson.v
GoFmt.v
Breaker.v
Pgtype.v
Delta.v
Cardinality.v
Ash.v
StateM.v
AlertTypes.v
PgIds.v
AlertEval.v
AlertEngine.v
AlertNotify.v
Topology.v
Buffer.v
Pusher.v
Redact.v
Wire.v
Store.v
PipelineRows.v
Pipeline.v
Inventory.v
Command.v
CommandServer.v
Ingest.v
Intake.v
Session.v
Staleness.v
SlotSpells.v
CommandAgent.v
ExplainGuard.v
AdvisorTypes.v
Advisor.v
RulesBase.v
RulesConfig.v
RulesQuery.v
LockChain.v
RulesRelation.v
RulesCatalog.v
RulesObject.v
SnapshotLoad.v
Rules.v
AdvisorPass.v
Identity.v
Host.v
AgentConfig.v
Conn.v
Scheduler.v
Executors.v
ScheduleSet.v
AgentRun.v
