(* ===== verification/Prelude.v ===== *)
(** * pglens: a verification library

    pglens watches PostgreSQL fleets. An agent next to the databases runs checks, samples
    sessions and pushes envelopes of results to a server; the server turns counters into
    rates, follows the topology, stores everything, evaluates alert rules and advisor rules,
    and queues commands that agents fetch and run. This library models the parts with logic
    of their own and proves what makes them correct. Paths below are under src/internal
    unless they start with cmd/.

    ** Files

    - [Prelude] (this file): machine integers, automation, lemmas on lists and maps.
      [GoTime], [GoFloat], [GoSort], [GoBytes], [GoText], [GoJson], [GoFmt] and [StateM] are
      what the code uses of the language and its library: instants and saturating durations,
      IEEE binary64, [sort.Slice], little-endian integers and CRC-32C, byte strings and UTF-8,
      JSON values, the verbs of [fmt] and the shortest text of a float, a state monad.
    - [Pgtype], [PgIds] (pgtype): roles, tiers, versions, series keys, canonical labels, and
      identifiers with the laws of their text. [Wire] (wire): the envelope and its parts.
    - [Breaker] (agent/breaker.go), [Scheduler] (agent/scheduler.go): a breaker, and the
      scheduler's goroutines, channels and wait groups as a labelled transition system.
    - [Delta] (delta/engine.go): baselines, rates, resets, batches.
    - [Cardinality] (cardinality): the top-N selector with hysteresis, the per-push budget.
    - [Ash] (ash, cmd/pglens-agent/ash.go): session sampling and its windows.
    - [Buffer] (agent/buffer), [Pusher] (agent/pusher.go): the disk queue byte by byte and the
      delivery of envelopes; [Pusher.DurableQueue] is the interface between the two.
    - [Store] (store/write.go), [PipelineRows], [Pipeline] (server/pipeline.go), [Inventory]
      (server/inventory.go), [Ingest] (server/ingest.go): a push on the server, from the body's
      bytes through checks and rows to the transaction and what is announced after it.
      [Intake] holds the theorems over sequences of pushes.
    - [Staleness], [SlotSpells] (server/staleness.go, store/liveness.go): the leader's pass over
      instances, clusters and replication slots; a slot's history as the reference for what is
      reported.
    - [Session] (server/session.go): browser sessions, the login limiter and the handlers.
    - [AlertTypes], [AlertEval], [AlertEngine], [AlertNotify] (alert): rules, keys and
      silences, the evaluator, a pass of the engine, the notifier.
    - [Topology] (topology): roles, failover, split brain, and taking an observation back.
    - [Redact] (redact): what shows a credential.
    - [Command], [CommandServer], [CommandAgent] (command, server/commands.go,
      agent/command.go): kinds and gates, the server's queue, the agent's dispatcher, and the
      two run against each other.
    - [ExplainGuard] (agent/explain_guard.go): which statements may be planned or executed.
      [Executors] (agent/exec_*.go): explaining a statement, cancelling and terminating a
      session, measuring a relation, each as its conversation with the server.
    - [AdvisorTypes], [Advisor] (advisor, server/api_findings.go): findings, the registry,
      a pass over the fleet, the findings table and its mutes. [SnapshotLoad]
      (advisor/snapshot.go): what the rules read, from the answers of its queries.
      [RulesBase], [RulesConfig], [RulesQuery], [LockChain], [RulesRelation], [RulesCatalog],
      [RulesObject] (advisor/rules_*.go, xmin.go): every rule with its evidence and texts;
      [Rules] is the registry they make, [AdvisorPass] the pass with these rules and snapshots.
    - [Identity] (identity): the identity file and the fingerprint of a connection string.
      [Host] (host): cgroup limits and a sample of the host. [AgentConfig] (agent/config.go,
      server/config.go): what is accepted, with durations and sizes byte by byte.
    - [Conn] (agent/conn.go): the databases of a target, their pools and what is remembered of
      the server. [ScheduleSet] (cmd/pglens-agent/schedule.go, check/check.go, check/registry.go):
      gates, rebuilds and the schedulers of [Scheduler] they make. [AgentRun]
      (cmd/pglens-agent/run.go): the push cycle; it relates the schedule to [Conn].

    ** How the code is represented

    A value of a struct is a [Record] with the source's fields, an operation a function from
    the state to its result and the new state; where many calls thread state it is written
    in the state monad of [StateM]. What the code compares by pointer carries the address it
    was allocated at ([Delta], [Topology]). Where a theorem speaks of a
    Go panic it is [None] or a flag of the model; elsewhere, as in the rules modelled through
    [RulesBase.answers], panics are not modelled. Everything that is decided outside (the clock, the file system,
    the network, a check's answer, how a database statement ends, including an error after
    it took effect) is an argument: a script of answers, an environment record, a label of
    the transition system, or an interface ([EngineEnv], [NotifyEnv], [ServerEnv], [StaleEnv],
    [JsonCodec], [DurableQueue], [Codec]) with its laws as a class. Code of other packages is
    an interface too: [UrlParse], [PgxConfig], [PgxIdentifier], [TimeParse], [Regexp],
    [UnicodeLower] and its like, [Digest], [FileCodec], [SnapshotCodec], [UuidText]. The order
    of a range over a map is [RangeOrder], of which only that it is a permutation is used. Concurrency is a sequence
    of atomic steps in any order. SQL statements are functions on tables as maps and lists; a
    transaction works on a copy that replaces the tables when it commits.

    ** What the theorems show

    - Nothing is lost silently: the disk buffer refines a queue, short reads of a segment apart
      (the code takes one for the end of the file, and an example shows the loss), and recovers
      from torn files; every envelope, sampled row, counter baseline and command is accounted for
      ([Buffer], [Pusher], [Ash], [Delta], [CommandServer]).
    - A push: an envelope that cannot be stored leaves no trace in the engines, and one that is
      stored is observed; the store stays well formed over any sequence of pushes; every push
      has one answer, a revoked agent's changes nothing, the limit on the body is exact, and
      no stored text shows a credential ([Pipeline], [Inventory], [Ingest], [Intake]).
    - Liveness of the fleet: a transition is recorded exactly as stored, only the leader
      writes, and a slot's spell is reported once, or again
      after a commit whose answer was lost ([Staleness], [SlotSpells]).
    - Alerts: the engine's episodes and the alert table agree over any run, but for the keys
      whose write was answered by an error, whichever other engines led in between; a
      notification follows only on a stored transition that no silence covers, a rule fires exactly when due, deliveries are
      bounded ([AlertEngine], [AlertEval], [AlertNotify]).
    - Commands: the audit trail is exact, a claim is exclusive, results need the claim's
      token, an accepted request comes back with its executor's result; EXPLAIN ANALYZE runs
      only what the guard can show harmless, guarded by its timeouts and rolled back; only the
      session that was verified is signalled ([Executors]).
    - Sessions: the gate opens exactly for a session that was granted and is neither revoked
      nor over, guesses are slow and the limiter's table is bounded ([Session]).
    - Advisor: a finding is closed only on evidence, a pass is exact for every instance it
      could evaluate, mutes hold; scheduler: no overlapping scrapes, bounded workers, results
      in order, shutdown always possible.
    - Rules: registering them cannot panic, every finding conforms to its rule, the two rules
      that slice index definitions panic exactly on what they cannot slice, long lock waits are traced to their root; what
      a section holds after each way its query can end is exact, and a section that is refused
      outright closes no finding ([Rules], [LockChain], [SnapshotLoad],
      [AdvisorPass]).
    - The agent's own state: identifiers are stable over restarts and failed writes,
      fingerprints ignore secrets, the tightest cgroup limit governs, samples are in range, the
      configurations that pass validation are characterised test by test ([Identity], [Host],
      [AgentConfig]).
    - The agent's collection: one scheduler runs and it has what the gates ask for, a swap of
      busy databases rebuilds nothing, no database that a pattern excludes is opened and no
      pool in use is closed, a target's cluster is decided once, a push cycle reports every
      live target with all its results and keeps the skips of the others, while rebuilds add
      and drop skips at the same time ([ScheduleSet],
      [Conn], [AgentRun]).
    - Topology: no nil dereference, alarms are sound, undo restores the engine.

    ** Bounds and fuel

    Loops that are not structural take fuel that is shown to be enough or that is a bound of
    the input: the walk over a segment file (its length), the search for the next record
    (segments and records left, [Buffer.next_returns]), removing segments (their number),
    the scanner of statements (the text's length, [ExplainGuard.scanner_terminates]), the
    turns of a poll (61, [CommandServer.poll_returns]), reading a body (its bytes),
    trimming the login table (its size), the walk along lock chains (a session is queued once),
    the way up from a cgroup (its components, [Host.governing_dir_exact]), the parts of a
    duration (its bytes), evicting pools (their number, [Conn.evict_spec]). A script of network answers that runs
    out means that the attempt is still waiting; theorems that claim an outcome assume a
    script that decides it. Integers keep their width where the code can wrap.

    ** Not modelled

    HTTP routing and JSON text, SQL text and schema, the web interface, the programs' start and
    their goroutines' wiring, the sessions and the shared pool of agent/conn.go, the scrapes of
    the checks (check/*: SQL and the mapping of its rows to metrics), notification channels
    (HTTP, mail), the read handlers of the API and the metrics endpoint (SQL in, JSON out), the
    goroutines that tick the server's evaluators. These are calls of the database or the network around what is modelled; what
    they answer is an argument where a component depends on it. *)
From Stdlib Require Export ZArith Lia Ascii.
From stdpp Require Export sorting.
From stdpp Require Export base numbers strings list sets gmap.

#[global] Open Scope Z_scope.
#[global] Set Default Goal Selector "!".

(** ** Machine integers

    Go's [int] and [int64] are 64-bit two's complement, [uint32] and [uint64]
    are unsigned. A value is a [Z]; [wrap64], [uwrap64] and [uwrap32] write out
    the wrap-around where an operation of the source could leave the range. *)

Definition min_int64 : Z := - 2 ^ 63.
Definition max_int64 : Z := 2 ^ 63 - 1.
Definition wrap64 (z : Z) : Z := (z + 2 ^ 63) `mod` 2 ^ 64 - 2 ^ 63.
Definition uwrap64 (z : Z) : Z := z `mod` 2 ^ 64.
Definition uwrap32 (z : Z) : Z := z `mod` 2 ^ 32.
Definition is_int64 (z : Z) : Prop := min_int64 ≤ z ≤ max_int64.
Definition is_uint64 (z : Z) : Prop := 0 ≤ z < 2 ^ 64.
Definition is_uint32 (z : Z) : Prop := 0 ≤ z < 2 ^ 32.

(** ** Automation

    [pglens] collects the lemmas that close the common side conditions: ranges
    of machine integers, membership, facts on sums. The components add their own
    invariant-preservation lemmas to it. *)
Create HintDb pglens.
Create Rewrite HintDb pglens.

(** Case split on every [if decide _] and boolean test of the goal. *)
Ltac split_ifs :=
  repeat match goal with
    | |- context [if decide ?P then _ else _] => destruct (decide P)
    | |- context [if ?b then _ else _] => destruct b eqn:?
    end.

(** Turn the boolean comparisons of the hypotheses into propositions. *)
Ltac zbool :=
  repeat match goal with
    | H : (_ <? _) = true |- _ => apply Z.ltb_lt in H
    | H : (_ <? _) = false |- _ => apply Z.ltb_ge in H
    | H : (_ <=? _) = true |- _ => apply Z.leb_le in H
    | H : (_ <=? _) = false |- _ => apply Z.leb_gt in H
    | H : (_ =? _) = true |- _ => apply Z.eqb_eq in H
    | H : (_ =? _) = false |- _ => apply Z.eqb_neq in H
    | H : negb _ = true |- _ => apply negb_true_iff in H
    | H : negb _ = false |- _ => apply negb_false_iff in H
    | H : _ && _ = true |- _ => apply andb_true_iff in H; destruct H
    | H : _ || _ = false |- _ => apply orb_false_iff in H; destruct H
    end.

Lemma wrap64_id z : is_int64 z → wrap64 z = z.
Proof.
  unfold is_int64, min_int64, max_int64, wrap64. intros H.
  rewrite Z.mod_small; lia.
Qed.

Lemma wrap64_range z : is_int64 (wrap64 z).
Proof.
  unfold is_int64, min_int64, max_int64, wrap64.
  pose proof (Z.mod_pos_bound (z + 2 ^ 63) (2 ^ 64) ltac:(lia)). lia.
Qed.

Lemma uwrap64_id z : is_uint64 z → uwrap64 z = z.
Proof. unfold is_uint64, uwrap64. intros. by apply Z.mod_small. Qed.

Lemma uwrap64_range z : is_uint64 (uwrap64 z).
Proof. apply Z.mod_pos_bound. lia. Qed.

Lemma uwrap32_id z : is_uint32 z → uwrap32 z = z.
Proof. unfold is_uint32, uwrap32. intros. by apply Z.mod_small. Qed.

Lemma uwrap32_range z : is_uint32 (uwrap32 z).
Proof. apply Z.mod_pos_bound. lia. Qed.

#[export] Hint Resolve wrap64_range uwrap64_range uwrap32_range : pglens.
#[export] Hint Rewrite wrap64_id uwrap64_id uwrap32_id using (unfold is_int64, min_int64, max_int64, is_uint64, is_uint32; lia) : pglens.

(** ** Sums of integer-valued lists *)

Fixpoint zsum (l : list Z) : Z :=
  match l with
  | [] => 0
  | x :: l => x + zsum l
  end.

Lemma zsum_app l1 l2 : zsum (l1 ++ l2) = zsum l1 + zsum l2.
Proof. induction l1 as [|x l1 IH]; simpl; lia. Qed.

Lemma zsum_nonneg l : Forall (λ x, 0 ≤ x) l → 0 ≤ zsum l.
Proof. induction 1; simpl; lia. Qed.

#[export] Instance zsum_perm : Proper ((≡ₚ) ==> (=)) zsum.
Proof. intros l1 l2 H. induction H; simpl; lia. Qed.

#[export] Hint Resolve zsum_nonneg : pglens.

(** ** Ranging over a map

    [for k, v := range src { ... dst[k] ... }] where the body only reads and writes
    the entry [k] of [dst]. The order of the range is unspecified in Go; the lookup
    lemma shows that it does not matter. *)
Section range.
Context `{Countable K} {V W : Type}.

Definition range_alter (f : K → V → option W → option W) (dst : gmap K W) (src : gmap K V) : gmap K W :=
  map_fold (λ k v acc, partial_alter (f k v) k acc) dst src.

Lemma lookup_range_alter f (dst : gmap K W) (src : gmap K V) k :
  range_alter f dst src !! k =
    match src !! k with Some v => f k v (dst !! k) | None => dst !! k end.
Proof.
  unfold range_alter. revert k.
  apply (map_fold_weak_ind (λ (acc : gmap K W) (m : gmap K V), ∀ k, acc !! k =
    match m !! k with Some v => f k v (dst !! k) | None => dst !! k end)).
  { intros k. by rewrite lookup_empty. }
  intros i v m acc Hi IH k. destruct (decide (i = k)) as [<-|Hne].
  - rewrite lookup_partial_alter_eq, lookup_insert_eq, IH, Hi. done.
  - rewrite lookup_partial_alter_ne, lookup_insert_ne by done. apply IH.
Qed.

(** [for k, v := range m { if P { delete(m, k); n++ } }]: what stays, and how
    many entries go. *)
Lemma size_filter_complement (P : K * V → Prop) `{!∀ x, Decision (P x)} (m : gmap K V) :
  (size (filter P m) + size (filter (λ x, ¬ P x) m))%nat = size m.
Proof.
  rewrite <- (map_filter_union_complement P m) at 3.
  rewrite map_size_disj_union by apply map_disjoint_filter_complement. done.
Qed.
End range.

(** ** Sizes of finite sets *)
Lemma size_union_le `{Countable A} (X Y : gset A) : (size (X ∪ Y) ≤ size X + size Y)%nat.
Proof.
  rewrite size_union_alt. assert (size (Y ∖ X) ≤ size Y)%nat by (apply subseteq_size; set_solver). lia.
Qed.

Lemma size_list_to_set_le `{Countable A} (l : list A) : (size (list_to_set l : gset A) ≤ length l)%nat.
Proof.
  induction l as [|x l IH]; cbn; [by rewrite size_empty|].
  etrans; [apply size_union_le|]. rewrite size_singleton. lia.
Qed.

(** ** Collecting part of a list *)
Lemma NoDup_omap_inj {A B} (f : A → option B) (l : list A) :
  (∀ x y b, x ∈ l → y ∈ l → f x = Some b → f y = Some b → x = y) → NoDup l → NoDup (omap f l).
Proof.
  intros Hinj Hnd. induction Hnd as [|x l Hx Hnd IH]; cbn; [constructor|].
  assert (NoDup (omap f l)) as Hl by (apply IH; intros y z b Hy Hz; apply Hinj; by right).
  destruct (f x) as [b|] eqn:E; [|done]. constructor; [|done].
  intros (y & Hy & Ey)%list_elem_of_omap. apply Hx.
  assert (x = y) as ->; [|done]. apply (Hinj x y b); [by left|by right|done|done].
Qed.

Lemma Forall_filter {A} (P Q : A → Prop) `{!∀ x, Decision (Q x)} (l : list A) : Forall P l → Forall P (filter Q l).
Proof. rewrite !Forall_forall. intros Hall x [_ Hx]%list_elem_of_filter. by apply Hall. Qed.

Lemma list_elem_of_concat {A} (x : A) (ls : list (list A)) : x ∈ concat ls ↔ ∃ l, x ∈ l ∧ l ∈ ls.
Proof.
  rewrite list_elem_of_In, in_concat. setoid_rewrite list_elem_of_In. naive_solver.
Qed.

Lemma filter_none {A} (P : A → Prop) `{!∀ x, Decision (P x)} (l : list A) : (∀ x, x ∈ l → ¬ P x) → filter P l = [].
Proof.
  induction l as [|x l IH]; intros Hl; [done|]. rewrite filter_cons_False by (apply Hl; left). apply IH. intros y Hy. apply Hl. by right.
Qed.

Lemma NoDup_fmap_inj_on {A B} (f : A → B) (l : list A) (x y : A) : NoDup (f <$> l) → x ∈ l → y ∈ l → f x = f y → x = y.
Proof.
  induction l as [|z l IH]; cbn; [by intros _ ?%elem_of_nil|]. intros [Hz Hn]%NoDup_cons Hx Hy E.
  apply elem_of_cons in Hx as [->|Hx], Hy as [->|Hy]; [done| | |by apply IH].
  - destruct Hz. rewrite E. by apply list_elem_of_fmap_2.
  - destruct Hz. rewrite <- E. by apply list_elem_of_fmap_2.
Qed.

Lemma filter_congr {A} (P Q : A → Prop) `{!∀ x, Decision (P x), !∀ x, Decision (Q x)} (l : list A) :
  (∀ x, x ∈ l → P x ↔ Q x) → filter P l = filter Q l.
Proof.
  induction l as [|x l IH]; intros Hl; [done|]. rewrite !filter_cons, IH by (intros y Hy; apply Hl; by right).
  destruct (Hl x ltac:(left)). repeat case_decide; naive_solver.
Qed.

Lemma filter_list_fmap {A B} (f : A → B) (P : B → Prop) `{!∀ x, Decision (P x)} (l : list A) :
  filter P (f <$> l) = f <$> filter (λ x, P (f x)) l.
Proof.
  induction l as [|x l IH]; [done|]. rewrite fmap_cons, !filter_cons, IH. by destruct (decide (P (f x))).
Qed.

(** ** The order of a range over a map

    [visit] is the order in which a range loop meets the entries of a map. *)
Class RangeOrder := visit : ∀ {K V : Type} `{Countable K}, gmap K V → list (K * V).

(** Every entry, once, in some order. *)
Class RangeOrderLaws `{RangeOrder} : Prop := {
  visit_perm {K V : Type} `{Countable K} (m : gmap K V) : visit m ≡ₚ map_to_list m;
}.
