(* ===== verification/GoTime.v ===== *)
(** * Instants and durations of Go's [time] package

    A [Time] is an instant in nanoseconds since Go's zero time (year 1, UTC), so
    [IsZero] is equality with 0. Location and monotonic reading, which do not take
    part in the comparisons below, are left out. A [Duration] is an [int64] of
    nanoseconds; [Sub] saturates at its ends, as [time.Time.Sub] does: the code
    relies on that where it subtracts a zero time from the current one. *)
From S2P Require Import Prelude.

Definition Time : Type := Z.
Definition Duration : Type := Z.

Definition Nanosecond : Duration := 1.
Definition Microsecond : Duration := 1000 * Nanosecond.
Definition Millisecond : Duration := 1000 * Microsecond.
Definition Second : Duration := 1000 * Millisecond.
Definition Minute : Duration := 60 * Second.
Definition Hour : Duration := 60 * Minute.

Definition zero_time : Time := 0.
Definition IsZero (t : Time) : bool := t =? 0.
Definition After (t u : Time) : bool := u <? t.
Definition Before (t u : Time) : bool := t <? u.
Definition Equal (t u : Time) : bool := t =? u.
Definition Add (t : Time) (d : Duration) : Time := t + d.

(** [t.Sub(u)]: the difference, saturated to the range of a [Duration]. *)
Definition Sub (t u : Time) : Duration := Z.max min_int64 (Z.min max_int64 (t - u)).

(** [t.Truncate(d)] for a positive [d]: rounds down since the zero time. *)
Definition Truncate (t : Time) (d : Duration) : Time := t - t `mod` d.

Lemma Sub_range t u : is_int64 (Sub t u).
Proof. unfold Sub, is_int64, min_int64, max_int64. lia. Qed.

Lemma Sub_exact t u : is_int64 (t - u) → Sub t u = t - u.
Proof. unfold Sub, is_int64, min_int64, max_int64. lia. Qed.

(** Below the saturation bound the test [t.Sub(u) >= d] is the exact one. *)
Lemma Sub_ge t u d : 0 < d ≤ max_int64 → (d ≤ Sub t u ↔ d ≤ t - u).
Proof. unfold Sub, min_int64, max_int64. lia. Qed.

Lemma Sub_lt t u d : 0 < d ≤ max_int64 → (Sub t u < d ↔ t - u < d).
Proof. unfold Sub, min_int64, max_int64. lia. Qed.

Lemma Sub_gt t u d : 0 ≤ d < max_int64 → (d < Sub t u ↔ d < t - u).
Proof. unfold Sub, min_int64, max_int64. lia. Qed.

Lemma Sub_diag t : Sub t t = 0.
Proof. unfold Sub, min_int64, max_int64. lia. Qed.

Lemma Truncate_le t d : 0 < d → Truncate t d ≤ t < Truncate t d + d.
Proof. intros. unfold Truncate. pose proof (Z.mod_pos_bound t d). lia. Qed.

Lemma Truncate_idem t d : 0 < d → Truncate (Truncate t d) d = Truncate t d.
Proof.
  intros Hd. unfold Truncate. rewrite (Zminus_mod t), Z.mod_mod, Z.sub_diag by lia.
  rewrite Z.mod_0_l by lia. lia.
Qed.

#[export] Hint Resolve Sub_range : pglens.

Ltac time_unfold :=
  unfold After, Before, Equal, IsZero, Add, zero_time, Hour, Minute, Second, Millisecond,
    Microsecond, Nanosecond in *.
