(* ===== verification/GoFloat.v ===== *)
(** * IEEE-754 binary64, Go's [float64]

    The values are the Standard Library's [spec_float] (signed zeros, infinities,
    one NaN, finite sign/mantissa/exponent) and the operations its bit-exact
    software implementation at precision 53 and maximal exponent 1024, so a
    comparison with a NaN is false and an overflow is an infinity, as in Go.
    The order lemmas go through [rank], the sign-exponent-mantissa triple that
    the comparison orders lexicographically. *)
From S2P Require Import Prelude GoTime.
From Stdlib Require Import SpecFloat.

Definition float64 : Type := spec_float.

#[export] Instance float64_eq_dec : EqDecision float64.
Proof. unfold float64. solve_decision. Defined.

Definition prec : Z := 53.
Definition emax : Z := 1024.

Definition fadd : float64 → float64 → float64 := SFadd prec emax.
Definition fsub : float64 → float64 → float64 := SFsub prec emax.
Definition fmul : float64 → float64 → float64 := SFmul prec emax.
Definition fdiv : float64 → float64 → float64 := SFdiv prec emax.
Definition flt (x y : float64) : bool := SFltb x y.
Definition fle (x y : float64) : bool := SFleb x y.
Definition feq (x y : float64) : bool := SFeqb x y.
Definition fzero : float64 := S754_zero false.
Definition fnan : float64 := S754_nan.

(** [float64(z)] of an integer: rounding to nearest, ties to even. *)
Definition float_of_int (z : Z) : float64 := binary_normalize prec emax z 0 false.

(** [Duration.Seconds]. *)
Definition Seconds (d : Duration) : float64 :=
  fadd (float_of_int (Z.quot d Second)) (fdiv (float_of_int (Z.rem d Second)) (float_of_int 1000000000)).

(** The integer part of a finite float, towards zero. *)
Definition integer_part (x : float64) : option Z :=
  match x with
  | S754_zero _ => Some 0
  | S754_finite s m e =>
      let n := if 0 <=? e then Z.pos m * 2 ^ e else Z.pos m / 2 ^ (- e) in Some (if s then - n else n)
  | _ => None
  end.

(** [int64(x)]: the language leaves open what a value out of range becomes. *)
Class FloatOverflow := float_overflow : float64 → Z.
Definition to_int64 `{FloatOverflow} (x : float64) : Z :=
  match integer_part x with
  | Some n => if bool_decide (min_int64 ≤ n ≤ max_int64) then n else wrap64 (float_overflow x)
  | None => wrap64 (float_overflow x)
  end.

Definition fabs (x : float64) : float64 := SFabs x.

Definition is_nan (x : float64) : bool := match x with S754_nan => true | _ => false end.
Definition is_finite (x : float64) : bool := match x with S754_nan | S754_infinity _ => false | _ => true end.
Definition valid_float (x : float64) : Prop := valid_binary prec emax x = true.

(** The sign bit; NaN counts as unsigned. *)
Definition fsign (x : float64) : bool :=
  match x with
  | S754_zero s | S754_infinity s | S754_finite s _ _ => s
  | S754_nan => false
  end.

(** ** The order of the comparisons *)

Definition rank (x : float64) : Z * Z * Z :=
  match x with
  | S754_infinity true => (-2, 0, 0)
  | S754_finite true m e => (-1, - e, - Z.pos m)
  | S754_zero _ => (0, 0, 0)
  | S754_finite false m e => (1, e, Z.pos m)
  | S754_infinity false => (2, 0, 0)
  | S754_nan => (0, 0, 0)
  end.

Definition lex_compare (a b : Z * Z * Z) : comparison :=
  match a.1.1 ?= b.1.1 with
  | Eq => match a.1.2 ?= b.1.2 with Eq => a.2 ?= b.2 | c => c end
  | c => c
  end.

Lemma SFcompare_rank x y :
  is_nan x = false → is_nan y = false →
  SFcompare x y = Some (lex_compare (rank x) (rank y)).
Proof.
  destruct x as [[]|[]| |[] m1 e1], y as [[]|[]| |[] m2 e2]; try done; intros _ _;
    unfold lex_compare, rank; cbn [SFcompare fst snd]; f_equal; cbn [Z.compare].
  cbn [Z.opp Z.compare]. unfold Pos.compare.
  destruct (Z.compare_spec e1 e2), (Z.compare_spec (- e1) (- e2)); try lia; done.
Qed.

Lemma lex_compare_spec a b :
  match lex_compare a b with
  | Eq => a = b
  | Lt => a.1.1 < b.1.1 ∨ a.1.1 = b.1.1 ∧ (a.1.2 < b.1.2 ∨ a.1.2 = b.1.2 ∧ a.2 < b.2)
  | Gt => b.1.1 < a.1.1 ∨ a.1.1 = b.1.1 ∧ (b.1.2 < a.1.2 ∨ a.1.2 = b.1.2 ∧ b.2 < a.2)
  end.
Proof.
  destruct a as [[a1 a2] a3], b as [[b1 b2] b3]. unfold lex_compare. cbn.
  destruct (Z.compare_spec a1 b1); [|lia..].
  destruct (Z.compare_spec a2 b2); [|lia..].
  destruct (Z.compare_spec a3 b3); [congruence|lia..].
Qed.

Definition lex_lt (a b : Z * Z * Z) : Prop :=
  a.1.1 < b.1.1 ∨ a.1.1 = b.1.1 ∧ (a.1.2 < b.1.2 ∨ a.1.2 = b.1.2 ∧ a.2 < b.2).

Lemma flt_rank x y : flt x y = true ↔ is_nan x = false ∧ is_nan y = false ∧ lex_lt (rank x) (rank y).
Proof.
  unfold flt, SFltb. destruct (is_nan x) eqn:Ex; [by destruct x; cbn in *; intuition|].
  destruct (is_nan y) eqn:Ey; [by destruct x, y; cbn in *; intuition|].
  rewrite SFcompare_rank by done. pose proof (lex_compare_spec (rank x) (rank y)) as H.
  unfold lex_lt. destruct (lex_compare _ _); [rewrite H|..]; intuition (congruence || lia).
Qed.

Lemma feq_rank x y : feq x y = true ↔ is_nan x = false ∧ is_nan y = false ∧ rank x = rank y.
Proof.
  unfold feq, SFeqb. destruct (is_nan x) eqn:Ex; [by destruct x; cbn in *; intuition|].
  destruct (is_nan y) eqn:Ey; [by destruct x, y; cbn in *; intuition|].
  rewrite SFcompare_rank by done. pose proof (lex_compare_spec (rank x) (rank y)) as H.
  destruct (lex_compare _ _); [naive_solver|..]; split; try done;
    intros (_ & _ & E); rewrite E in H; lia.
Qed.

Lemma flt_irrefl x : flt x x = false.
Proof.
  destruct (flt x x) eqn:E; [|done]. apply flt_rank in E as (_ & _ & H). unfold lex_lt in H. lia.
Qed.

Lemma flt_trans x y z : flt x y = true → flt y z = true → flt x z = true.
Proof. rewrite !flt_rank. unfold lex_lt. intuition lia. Qed.

Lemma flt_asym x y : flt x y = true → flt y x = false.
Proof.
  intros H. destruct (flt y x) eqn:E; [|done]. pose proof (flt_trans _ _ _ H E) as F.
  by rewrite flt_irrefl in F.
Qed.

Lemma feq_refl x : is_nan x = false → feq x x = true.
Proof. intros. by apply feq_rank. Qed.

Lemma feq_sym x y : feq x y = feq y x.
Proof. apply eq_bool_prop_intro. rewrite !Is_true_true, !feq_rank. naive_solver. Qed.

Lemma feq_trans x y z : feq x y = true → feq y z = true → feq x z = true.
Proof. rewrite !feq_rank. naive_solver congruence. Qed.

Lemma feq_flt_l x y z : feq x y = true → flt x z = flt y z.
Proof.
  rewrite feq_rank. intros (? & ? & E). apply eq_bool_prop_intro.
  rewrite !Is_true_true, !flt_rank, E. naive_solver.
Qed.

Lemma feq_flt_r x y z : feq x y = true → flt z x = flt z y.
Proof.
  rewrite feq_rank. intros (? & ? & E). apply eq_bool_prop_intro.
  rewrite !Is_true_true, !flt_rank, E. naive_solver.
Qed.

(** Two floats of which neither is a NaN are comparable. *)
Lemma float_trichotomy x y :
  is_nan x = false → is_nan y = false → flt x y = true ∨ feq x y = true ∨ flt y x = true.
Proof.
  intros Hx Hy. rewrite !flt_rank, feq_rank. unfold lex_lt.
  destruct (rank x) as [[a1 a2] a3], (rank y) as [[b1 b2] b3]. cbn.
  destruct (Z.lt_trichotomy a1 b1) as [?|[->|?]]; [intuition lia| |intuition lia].
  destruct (Z.lt_trichotomy a2 b2) as [?|[->|?]]; [intuition lia| |intuition lia].
  destruct (Z.lt_trichotomy a3 b3) as [?|[->|?]]; intuition lia.
Qed.

Lemma nan_flt_l x y : is_nan x = true → flt x y = false.
Proof. by destruct x. Qed.

Lemma nan_flt_r x y : is_nan y = true → flt x y = false.
Proof. by destruct y, x. Qed.

#[export] Hint Resolve flt_irrefl flt_trans flt_asym feq_refl : pglens.

(** ** Signs of differences, quotients and durations *)

(** Neither a negative number nor negative infinity; NaN and both zeros qualify. *)
Definition not_negative (x : float64) : bool :=
  match x with S754_infinity true | S754_finite true _ _ => false | _ => true end.

Lemma not_negative_flt x : not_negative x = true → flt x fzero = false.
Proof. by destruct x as [|[]| |[]]. Qed.

Lemma digits2_pos_bounds m : 2 ^ (Z.pos (digits2_pos m) - 1) ≤ Z.pos m < 2 ^ Z.pos (digits2_pos m).
Proof.
  induction m as [m IH|m IH|]; cbn [digits2_pos]; [| |done];
    rewrite Pos2Z.inj_succ; set (d := Z.pos (digits2_pos m)) in *;
    replace (Z.succ d - 1) with (Z.succ (d - 1)) by lia;
    rewrite !Z.pow_succ_r by lia; lia.
Qed.

Lemma iter_xO_mul m d : Z.pos (Pos.iter xO m d) = Z.pos m * 2 ^ Z.pos d.
Proof.
  induction d as [|d IH] using Pos.peano_ind; [cbn; lia|].
  rewrite Pos.iter_succ, Pos2Z.inj_succ, Z.pow_succ_r by lia. lia.
Qed.

Lemma shl_align_mul m e e' :
  e' ≤ e → Z.pos (fst (shl_align m e e')) = Z.pos m * 2 ^ (e - e').
Proof.
  intros He. unfold shl_align. destruct (e' - e) as [|d|d] eqn:E; cbn [fst]; [|lia|].
  - replace (e - e') with 0 by lia. lia.
  - rewrite iter_xO_mul. do 2 f_equal. lia.
Qed.

(** A larger exponent of a canonical float means a larger magnitude. *)
Lemma canonical_exponent_lt s1 m1 e1 s2 m2 e2 :
  valid_float (S754_finite s1 m1 e1) → valid_float (S754_finite s2 m2 e2) → e1 < e2 →
  Z.pos m1 < Z.pos m2 * 2 ^ (e2 - e1).
Proof.
  unfold valid_float, valid_binary, bounded, canonical_mantissa, fexp, emin, prec, emax.
  intros H1 H2 He. zbool.
  pose proof (digits2_pos_bounds m1) as [_ B1]. pose proof (digits2_pos_bounds m2) as [B2 _].
  set (d1 := Z.pos (digits2_pos m1)) in *. set (d2 := Z.pos (digits2_pos m2)) in *.
  assert (d1 ≤ 53) by lia. assert (d2 = 53) as -> by lia.
  assert (2 ^ d1 ≤ 2 ^ 53) by (apply Z.pow_le_mono_r; lia).
  assert (2 ^ 1 ≤ 2 ^ (e2 - e1)) by (apply Z.pow_le_mono_r; lia).
  change (53 - 1) with 52 in B2. lia.
Qed.

Lemma binary_round_not_negative m e l : not_negative (binary_round_aux prec emax false m e l) = true.
Proof.
  unfold binary_round_aux. destruct (shr_fexp _ _ m e l) as [mrs1 e1].
  destruct (shr_fexp _ _ _ e1 _) as [mrs2 e2]. destruct (shr_m mrs2); [done| |done].
  by destruct (e2 <=? emax - prec).
Qed.

Lemma binary_round_sign m e l : fsign (binary_round_aux prec emax false m e l) = false.
Proof.
  unfold binary_round_aux. destruct (shr_fexp _ _ m e l) as [mrs1 e1].
  destruct (shr_fexp _ _ _ e1 _) as [mrs2 e2]. destruct (shr_m mrs2); [done| |done].
  by destruct (e2 <=? emax - prec).
Qed.

Lemma binary_normalize_sign z e : 0 ≤ z → fsign (binary_normalize prec emax z e false) = false.
Proof.
  intros Hz. destruct z as [|m|m]; [done| |lia]. cbn. unfold binary_round.
  destruct (shl_align m e _). apply binary_round_sign.
Qed.

Lemma sign_not_negative x : fsign x = false → not_negative x = true.
Proof. by destruct x as [[]|[]| |[]]. Qed.

(** [x - y] is not negative unless [x < y]. *)
Lemma fsub_not_negative x y :
  valid_float x → valid_float y → flt x y = false → not_negative (fsub x y) = true.
Proof.
  intros Vx Vy H.
  destruct x as [[]|[]| |sx mx ex], y as [[]|[]| |sy my ey];
    try (by destruct sx); try (by destruct sy); try done.
  unfold fsub, SFsub. apply sign_not_negative, binary_normalize_sign.
  rewrite !shl_align_mul by lia.
  assert (SFltb (S754_finite sx mx ex) (S754_finite sy my ey) = false) as H' by exact H.
  pose proof (canonical_exponent_lt sx mx ex sy my ey Vx Vy) as Lxy.
  pose proof (canonical_exponent_lt sy my ey sx mx ex Vy Vx) as Lyx.
  unfold SFltb, SFcompare in H'. unfold cond_Zopp.
  pose proof (Z.pow_pos_nonneg 2 (ex - Z.min ex ey)). pose proof (Z.pow_pos_nonneg 2 (ey - Z.min ex ey)).
  destruct sx, sy; [|done|lia|]; destruct (Z.compare_spec ex ey) as [->|E|E]; try done;
    rewrite ?Z.min_id, ?Z.min_l, ?Z.min_r, ?Z.sub_diag by lia;
    change (Pos.compare_cont Eq mx my) with (Pos.compare mx my) in H';
    destruct (Pos.compare_spec mx my); try done; try (subst; lia);
    rewrite ?Z.min_l, ?Z.min_r, ?Z.sub_diag in * by lia; lia.
Qed.

Lemma fdiv_not_negative x y :
  not_negative x = true → fsign y = false → not_negative (fdiv x y) = true.
Proof.
  destruct x as [[]|[]| |[] mx ex], y as [[]|[]| |[] my ey]; try done. intros _ _.
  unfold fdiv, SFdiv. destruct (SFdiv_core_binary _ _ _ _ _ _) as [[m e] l].
  apply binary_round_not_negative.
Qed.

Lemma fdiv_sign x y : fsign x = false → fsign y = false → fsign (fdiv x y) = false.
Proof.
  destruct x as [[]|[]| |[] mx ex], y as [[]|[]| |[] my ey]; try done. intros _ _.
  unfold fdiv, SFdiv. destruct (SFdiv_core_binary _ _ _ _ _ _) as [[m e] l].
  apply binary_round_sign.
Qed.

Lemma fadd_sign x y : fsign x = false → fsign y = false → fsign (fadd x y) = false.
Proof.
  destruct x as [[]|[]| |[] mx ex], y as [[]|[]| |[] my ey]; try done. intros _ _.
  unfold fadd, SFadd. apply binary_normalize_sign. cbn [cond_Zopp]. lia.
Qed.

Lemma float_of_int_sign z : 0 ≤ z → fsign (float_of_int z) = false.
Proof. apply binary_normalize_sign. Qed.

Lemma Seconds_sign d : 0 ≤ d → fsign (Seconds d) = false.
Proof.
  intros Hd. unfold Seconds. apply fadd_sign; [|apply fdiv_sign]; apply float_of_int_sign; try lia.
  - apply Z.quot_pos; time_unfold; lia.
  - apply Z.rem_nonneg; time_unfold; lia.
Qed.
