(* ===== verification/GoSort.v ===== *)
(** * [sort.Slice] and [sort.Strings]

    [sort_slice less] sorts by insertion. Go's algorithm is another one and is not
    stable, but what the code relies on is the documented contract: the result is
    a permutation of the input in which no later element is less than an earlier
    one. [sort_slice_unique] shows that for a strict total order that contract has
    one solution, so the choice of algorithm cannot be observed there. *)
From S2P Require Import Prelude.

Section sort_slice.
Context {A : Type} (less : A → A → bool).

Fixpoint insert_by (x : A) (l : list A) : list A :=
  match l with
  | [] => [x]
  | y :: l' => if less x y then x :: l else y :: insert_by x l'
  end.

Definition sort_slice (l : list A) : list A := foldr insert_by [] l.

(** [x] may stand before [y]: [y] is not less than [x]. *)
Definition not_after (x y : A) : Prop := less y x = false.

Lemma insert_by_perm x l : insert_by x l ≡ₚ x :: l.
Proof.
  induction l as [|y l IH]; simpl; [done|]. destruct (less x y); [done|].
  by rewrite IH, Permutation_swap.
Qed.

Lemma sort_slice_perm l : sort_slice l ≡ₚ l.
Proof. induction l as [|x l IH]; simpl; [done|]. by rewrite insert_by_perm, IH. Qed.

Lemma sort_slice_length l : length (sort_slice l) = length l.
Proof. by rewrite sort_slice_perm. Qed.

Lemma elem_of_sort_slice x l : x ∈ sort_slice l ↔ x ∈ l.
Proof. by rewrite sort_slice_perm. Qed.

(** A strict weak order on the elements that [P] selects: what [sort.Slice]
    asks of its argument. [P] excludes NaN keys where the order is by a float. *)
Class StrictWeakOrder (P : A → Prop) : Prop := {
  less_asym x y : P x → P y → less x y = true → less y x = false;
  not_after_trans x y z : P x → P y → P z → not_after x y → not_after y z → not_after x z;
}.

Context (P : A → Prop) `{!StrictWeakOrder P}.

Lemma insert_by_sorted x l :
  P x → Forall P l → StronglySorted not_after l → StronglySorted not_after (insert_by x l).
Proof using All.
  intros Hx Hl Hs. induction Hs as [|y l Hs IH Hy]; simpl.
  { repeat constructor. }
  apply Forall_cons in Hl as [Py Pl].
  destruct (less x y) eqn:E.
  - assert (not_after x y) as Hxy by (by apply less_asym).
    constructor; [by constructor|]. constructor; [done|].
    rewrite Forall_forall in Hy, Pl |- *. intros z Hz.
    apply (not_after_trans x y z); auto.
  - constructor; [by apply IH|]. rewrite insert_by_perm. by constructor.
Qed.

Lemma sort_slice_sorted l : Forall P l → StronglySorted not_after (sort_slice l).
Proof using All.
  induction 1 as [|x l Hx Hl IH]; simpl; [constructor|].
  apply insert_by_sorted; [done| |done]. by rewrite sort_slice_perm.
Qed.

(** Elements that are pairwise ordered one way only have one sorted arrangement. *)
Lemma sort_slice_unique l l' :
  Forall P l → (∀ x y, x ∈ l → y ∈ l → not_after x y → not_after y x → x = y) →
  l' ≡ₚ l → StronglySorted not_after l' → l' = sort_slice l.
Proof using All.
  intros HP Hanti Hperm Hs.
  pose proof (sort_slice_sorted l HP) as Hs'.
  pose proof (sort_slice_perm l) as Hp'.
  assert (l' ≡ₚ sort_slice l) as Hpp by (by rewrite Hp').
  assert (∀ x y, x ∈ l' → y ∈ l' → not_after x y → not_after y x → x = y) as Hanti'.
  { intros x y Hx Hy. apply Hanti; by rewrite <- Hperm. }
  clear Hanti Hperm HP Hp'. revert Hpp Hs'. generalize (sort_slice l) as k. clear l.
  induction Hs as [|x l' Hs IH Hx]; intros k Hpp Hk.
  { by apply Permutation_nil_l in Hpp. }
  destruct k as [|y k]; [by apply Permutation_nil_r in Hpp|].
  assert (x = y) as <-.
  { assert (x ∈ y :: k) as Hxk by (rewrite <- Hpp; constructor).
    assert (y ∈ x :: l') as Hyl by (rewrite Hpp; constructor).
    apply elem_of_cons in Hxk as [?|Hxk]; [done|].
    apply elem_of_cons in Hyl as [?|Hyl]; [done|].
    rewrite Forall_forall in Hx. inversion Hk as [|?? _ Hyk]; subst.
    rewrite Forall_forall in Hyk. apply Hanti'; [constructor|by constructor|by apply Hx|by apply Hyk]. }
  f_equal. apply IH; [intros; apply Hanti'; by try constructor|by apply Permutation_cons_inv in Hpp|by inversion Hk].
Qed.
End sort_slice.

(** ** Byte-wise order of Go strings *)

Definition string_lt (s t : string) : bool := String.ltb s t.

Lemma string_lt_compare s t : string_lt s t = true ↔ String.compare s t = Lt.
Proof. unfold string_lt, String.ltb. by destruct (String.compare s t). Qed.

Lemma string_lt_irrefl s : string_lt s s = false.
Proof.
  unfold string_lt, String.ltb. assert (String.compare s s = Eq) as ->; [|done].
  induction s as [|a s IH]; simpl; [done|]. unfold Ascii.compare. by rewrite N.compare_refl.
Qed.

Lemma string_lt_trans s t u : string_lt s t = true → string_lt t u = true → string_lt s u = true.
Proof.
  rewrite !string_lt_compare. revert t u.
  induction s as [|a s IH]; intros [|b t] [|c u]; simpl; try done.
  unfold Ascii.compare.
  destruct (N.compare_spec (Ascii.N_of_ascii a) (Ascii.N_of_ascii b)) as [E1|E1|E1]; try done;
    destruct (N.compare_spec (Ascii.N_of_ascii b) (Ascii.N_of_ascii c)) as [E2|E2|E2]; try done;
    destruct (N.compare_spec (Ascii.N_of_ascii a) (Ascii.N_of_ascii c)); try done; try lia; eauto.
Qed.

Lemma string_lt_asym s t : string_lt s t = true → string_lt t s = false.
Proof.
  intros H. destruct (string_lt t s) eqn:E; [|done].
  pose proof (string_lt_trans _ _ _ H E) as F. by rewrite string_lt_irrefl in F.
Qed.

Lemma string_trichotomy s t : string_lt s t = true ∨ s = t ∨ string_lt t s = true.
Proof.
  rewrite !string_lt_compare, (String.compare_antisym t s).
  destruct (String.compare s t) eqn:E; [|by auto..].
  apply String.compare_eq_iff in E. auto.
Qed.

(** [sort.Strings]. *)
Definition sort_strings (l : list string) : list string := sort_slice string_lt l.

#[export] Instance string_lt_swo : StrictWeakOrder string_lt (λ _, True).
Proof.
  split; [intros; by apply string_lt_asym|].
  unfold not_after. intros x y z _ _ _ H1 H2.
  destruct (string_lt z x) eqn:E; [|done].
  destruct (string_trichotomy x y) as [H|[->|H]]; [|congruence|congruence].
  pose proof (string_lt_trans _ _ _ E H). congruence.
Qed.

Lemma string_not_after_antisym x y : not_after string_lt x y → not_after string_lt y x → x = y.
Proof. unfold not_after. intros. destruct (string_trichotomy x y) as [?|[?|?]]; congruence. Qed.

#[export] Hint Resolve string_lt_irrefl string_lt_trans string_lt_asym : pglens.

(** ** Orders built field by field

    Most [less] functions of the source compare one field, and the next one only
    on a tie. [lex_by] is that pattern; [TotalUpTo less eqv] says that [less] is a
    strict order that decides every pair but those [eqv] relates. *)
Class TotalUpTo {A} (less : A → A → bool) (eqv : A → A → Prop) : Prop := {
  tot_equiv :: Equivalence eqv;
  tot_irrefl x y : eqv x y → less x y = false;
  tot_trans x y z : less x y = true → less y z = true → less x z = true;
  tot_cases x y : less x y = true ∨ eqv x y ∨ less y x = true;
}.

Definition lex_by {A B} `{EqDecision B} (f : A → B) (lt : B → B → bool) (rest : A → A → bool) (a b : A) : bool :=
  if decide (f a = f b) then rest a b else lt (f a) (f b).

#[export] Instance total_never {A} : TotalUpTo (λ _ _ : A, false) (λ _ _, True).
Proof. split; [by split|done|done|by auto]. Qed.

#[export] Instance string_lt_total : TotalUpTo string_lt (=).
Proof.
  split; [apply _|intros ?? ->; apply string_lt_irrefl|apply string_lt_trans|apply string_trichotomy].
Qed.

#[export] Instance Z_ltb_total : TotalUpTo Z.ltb (=).
Proof.
  split; [apply _|intros ?? ->; apply Z.ltb_irrefl| |]; intros *; rewrite ?Z.ltb_lt; lia.
Qed.

#[export] Instance Z_gtb_total : TotalUpTo Z.gtb (=).
Proof.
  split; [apply _|intros ?? ->; rewrite Z.gtb_ltb; apply Z.ltb_irrefl| |]; intros *;
    rewrite ?Z.gtb_ltb, ?Z.ltb_lt; lia.
Qed.

#[export] Instance bool_lt_total : TotalUpTo (λ a b : bool, negb a && b) (=).
Proof. split; [apply _|by intros [] ? <-|by intros [] [] []|intros [] []; auto]. Qed.

#[export] Instance lex_by_total {A B} `{EqDecision B} (f : A → B) lt rest eqv :
  TotalUpTo lt (=) → TotalUpTo rest eqv →
  TotalUpTo (lex_by f lt rest) (λ a b, f a = f b ∧ eqv a b).
Proof.
  intros Hlt Hrest. split.
  - split; [done| |].
    + intros x y [? ?]. by split.
    + intros x y z [-> ?] [-> ?]. split; [done|by etrans].
  - unfold lex_by. intros x y [E H]. rewrite decide_True by done. by apply (tot_irrefl (less:=rest)).
  - unfold lex_by. intros x y z. repeat case_decide; try congruence.
    + apply (tot_trans (less:=rest)).
    + intros Hxy Hyz. pose proof (tot_trans (less:=lt) _ _ _ Hxy Hyz) as Hxz.
      by rewrite (tot_irrefl (less:=lt)) in Hxz.
    + apply (tot_trans (less:=lt)).
  - unfold lex_by. intros x y. case_decide as E.
    + rewrite decide_True by done. destruct (tot_cases (less:=rest) x y) as [?|[?|?]]; auto.
    + rewrite decide_False by done. destruct (tot_cases (less:=lt) (f x) (f y)) as [?|[?|?]]; auto.
Qed.

(** A field-by-field order is one [sort.Slice] can use. *)
#[export] Instance total_swo {A} (less : A → A → bool) eqv :
  TotalUpTo less eqv → StrictWeakOrder less (λ _, True).
Proof.
  intros Ht. assert (∀ x y, less x y = true → less y x = false) as Hasym.
  { intros x y H. destruct (less y x) eqn:E; [|done].
    pose proof (tot_trans _ _ _ H E) as F. by rewrite tot_irrefl in F. }
  split; [auto|]. unfold not_after. intros x y z _ _ _ H1 H2. destruct (less z x) eqn:E; [|done].
  destruct (tot_cases x y) as [H|[H|H]]; [| |congruence].
  { pose proof (tot_trans _ _ _ E H). congruence. }
  destruct (tot_cases z y) as [H'|[H'|H']]; [congruence| |].
  - rewrite (tot_irrefl z x) in E; [done|]. by etrans.
  - pose proof (tot_trans _ _ _ H' E). congruence.
Qed.

Lemma total_not_after_antisym {A} (less : A → A → bool) eqv `{!TotalUpTo less eqv} x y :
  not_after less x y → not_after less y x → eqv x y.
Proof. unfold not_after. intros. destruct (tot_cases x y) as [?|[?|?]]; [congruence|done|congruence]. Qed.

Lemma TotalUpTo_iff {A} (less : A → A → bool) eqv eqv' :
  TotalUpTo less eqv → (∀ x y, eqv x y ↔ eqv' x y) → TotalUpTo less eqv'.
Proof.
  intros [[Hr Hs Ht] Hi Htr Hc] Hiff. split; [split|..].
  - intros x. apply Hiff, Hr.
  - intros x y ?. apply Hiff, Hs. by apply Hiff.
  - intros x y z ??. apply Hiff. eapply Ht; by apply Hiff.
  - intros x y ?. apply Hi. by apply Hiff.
  - exact Htr.
  - intros x y. rewrite <- Hiff. apply Hc.
Qed.
