(* ===== verification/GoBytes.v ===== *)
(** * Bytes, little-endian integers and CRC-32C

    Go's [byte] is [Byte.byte]. [binary.LittleEndian] and [crc32.Checksum] with the
    Castagnoli table are written out; the proofs use only that decoding inverts
    encoding. *)
From Stdlib Require Export Strings.Byte.
From S2P Require Import Prelude.

#[export] Instance byte_eq_dec : EqDecision byte := Byte.byte_eq_dec.

Definition Z_of_byte (b : byte) : Z := Z.of_N (Byte.to_N b).
Definition byte_of_Z (z : Z) : byte := default x00 (Byte.of_N (Z.to_N (z `mod` 256))).

(** The [n] low bytes of [z], least significant first. *)
Fixpoint le_encode (n : nat) (z : Z) : list byte :=
  match n with
  | O => []
  | S n => byte_of_Z z :: le_encode n (z / 256)
  end.

Fixpoint le_decode (bs : list byte) : Z :=
  match bs with
  | [] => 0
  | b :: bs => Z_of_byte b + 256 * le_decode bs
  end.

Definition PutUint32 (z : Z) : list byte := le_encode 4 z.
Definition PutUint64 (z : Z) : list byte := le_encode 8 z.
Definition Uint32 (bs : list byte) : Z := le_decode (take 4 bs).
Definition Uint64 (bs : list byte) : Z := le_decode (take 8 bs).

(** ** CRC-32C, bit by bit *)

Definition castagnoli : Z := 2197175160. (* 0x82f63b78, the reflected polynomial *)

Fixpoint crc_bits (n : nat) (crc : Z) : Z :=
  match n with
  | O => crc
  | S n => crc_bits n (if Z.testbit crc 0 then Z.lxor (Z.shiftr crc 1) castagnoli else Z.shiftr crc 1)
  end.

Definition crc_byte (crc : Z) (b : byte) : Z := crc_bits 8 (Z.lxor crc (Z_of_byte b)).

Definition crc32c (data : list byte) : Z := uwrap32 (Z.lxor (foldl crc_byte (2 ^ 32 - 1) data) (2 ^ 32 - 1)).

Lemma Z_of_byte_range b : 0 ≤ Z_of_byte b < 256.
Proof.
  unfold Z_of_byte. split; [lia|]. pose proof (Byte.to_N_bounded b). lia.
Qed.

Lemma Z_of_byte_of_Z z : Z_of_byte (byte_of_Z z) = z `mod` 256.
Proof.
  unfold byte_of_Z, Z_of_byte. pose proof (Z.mod_pos_bound z 256 ltac:(lia)) as Hz.
  destruct (Byte.of_N (Z.to_N (z `mod` 256))) as [b|] eqn:E.
  - cbn. apply Byte.to_of_N in E. rewrite E. lia.
  - apply Byte.of_N_None_iff in E. lia.
Qed.

Lemma le_encode_length n z : length (le_encode n z) = n.
Proof. revert z. induction n as [|n IH]; intros z; cbn; [done|]. by rewrite IH. Qed.

Lemma le_decode_encode n z : 0 ≤ z < 256 ^ Z.of_nat n → le_decode (le_encode n z) = z.
Proof.
  revert z. induction n as [|n IH]; intros z Hz; cbn [le_encode le_decode]; [cbn in Hz; lia|].
  rewrite Z_of_byte_of_Z, IH.
  - pose proof (Z.div_mod z 256). lia.
  - rewrite Nat2Z.inj_succ, Z.pow_succ_r in Hz by lia. split; [apply Z.div_pos; lia|]. apply Z.div_lt_upper_bound; lia.
Qed.

Lemma le_decode_range bs : 0 ≤ le_decode bs < 256 ^ Z.of_nat (length bs).
Proof.
  induction bs as [|b bs IH]; cbn [le_decode length]; [cbn; lia|].
  pose proof (Z_of_byte_range b). rewrite Nat2Z.inj_succ, Z.pow_succ_r by lia. lia.
Qed.

Lemma Uint32_PutUint32 z rest : 0 ≤ z < 2 ^ 32 → Uint32 (PutUint32 z ++ rest) = z.
Proof.
  intros Hz. unfold Uint32, PutUint32. rewrite take_app_length' by (by rewrite le_encode_length).
  apply le_decode_encode. cbn. lia.
Qed.

Lemma Uint64_PutUint64 z rest : 0 ≤ z < 2 ^ 64 → Uint64 (PutUint64 z ++ rest) = z.
Proof.
  intros Hz. unfold Uint64, PutUint64. rewrite take_app_length' by (by rewrite le_encode_length).
  apply le_decode_encode. cbn. lia.
Qed.

Lemma Uint32_range bs : 0 ≤ Uint32 bs < 2 ^ 32.
Proof.
  unfold Uint32. pose proof (le_decode_range (take 4 bs)) as H. split; [lia|].
  eapply Z.lt_le_trans; [apply H|]. change (2 ^ 32) with (256 ^ 4). apply Z.pow_le_mono_r; [lia|].
  rewrite length_take. lia.
Qed.

Lemma crc32c_range data : 0 ≤ crc32c data < 2 ^ 32.
Proof. apply uwrap32_range. Qed.

(** The check value of CRC-32C: the checksum of the nine digits "123456789". *)
Example crc32c_check : crc32c [x31; x32; x33; x34; x35; x36; x37; x38; x39] = 3808858755. (* 0xe3069283 *)
Proof. vm_compute. reflexivity. Qed.
