(* ===== verification/GoText.v ===== *)
(** * Go strings as byte sequences, and UTF-8

    A Go [string] is an immutable sequence of bytes, [text]. A literal of the source
    is written as a Rocq string and read through [str]. [strings.Contains] and
    [strings.HasPrefix] are executable; [contains_spec] is what they decide.
    [append_rune] is [utf8.AppendRune]. *)
From S2P Require Import Prelude GoBytes.

Definition text : Type := list byte.
Definition str (s : string) : text := String.list_byte_of_string s.
Coercion str : String.string >-> text.

#[export] Instance byte_countable : Countable byte.
Proof. apply (inj_countable Byte.to_N Byte.of_N), Byte.of_to_N. Defined.

#[export] Instance text_eq_dec : EqDecision text := list_eq_dec.
#[export] Instance text_countable : Countable text := list_countable.

Fixpoint has_prefix (p t : text) : bool :=
  match p, t with
  | [], _ => true
  | _, [] => false
  | c :: p, d :: t => bool_decide (c = d) && has_prefix p t
  end.

Fixpoint contains (sub t : text) : bool :=
  has_prefix sub t || match t with [] => false | _ :: t => contains sub t end.

(** [c] lies between the bytes of two ASCII characters. *)
Definition between (lo hi c : byte) : bool := (Z_of_byte lo <=? Z_of_byte c) && (Z_of_byte c <=? Z_of_byte hi).

Definition is_lower (c : byte) : bool := between "a"%byte "z"%byte c.
Definition is_upper (c : byte) : bool := between "A"%byte "Z"%byte c.
Definition is_digit (c : byte) : bool := between "0"%byte "9"%byte c.
Definition lower_byte (c : byte) : byte := if is_upper c then byte_of_Z (Z_of_byte c + 32) else c.

(** ** UTF-8 *)

Definition wrap32 (z : Z) : Z := (z + 2 ^ 31) `mod` 2 ^ 32 - 2 ^ 31.
Definition MaxRune : Z := 1114111. (* 0x10FFFF *)
Definition surrogate (r : Z) : bool := (55296 <=? r) && (r <=? 57343). (* 0xD800..0xDFFF *)
Definition ValidRune (r : Z) : bool := (0 <=? r) && (r <=? MaxRune) && negb (surrogate r).

Definition cont_byte (r : Z) : byte := byte_of_Z (128 + r `mod` 64).

Definition append_rune (r : Z) : text :=
  let i := uwrap32 r in
  if i <=? 127 then [byte_of_Z i]
  else if i <=? 2047 then [byte_of_Z (192 + i / 64); cont_byte i]
  else if (MaxRune <? i) || surrogate i then [xef; xbf; xbd]
  else if i <=? 65535 then [byte_of_Z (224 + i / 4096); cont_byte (i / 64); cont_byte i]
  else [byte_of_Z (240 + i / 262144); cont_byte (i / 4096); cont_byte (i / 64); cont_byte i].

Definition RuneStart (c : byte) : bool := negb (Z.land (Z_of_byte c) 192 =? 128).

(** ** White space *)

(** The runes of [unicode.IsSpace], by their UTF-8 bytes: tab to carriage return and
    space; U+0085, U+00A0; U+1680, U+2000..U+200A, U+2028, U+2029, U+202F, U+205F, U+3000. *)
Definition space1 (c : byte) : bool := between x09 x0d c || bool_decide (c = x20).
Definition space2 (c d : byte) : bool := bool_decide (c = xc2) && (bool_decide (d = x85) || bool_decide (d = xa0)).
Definition space3 (c d e : byte) : bool :=
  (bool_decide (c = xe1) && bool_decide (d = x9a) && bool_decide (e = x80)) ||
  (bool_decide (c = xe2) && bool_decide (d = x80) &&
     (between x80 x8a e || bool_decide (e = xa8) || bool_decide (e = xa9) || bool_decide (e = xaf))) ||
  (bool_decide (c = xe2) && bool_decide (d = x81) && bool_decide (e = x9f)) ||
  (bool_decide (c = xe3) && bool_decide (d = x80) && bool_decide (e = x80)).

(** Whether [strings.TrimSpace] leaves nothing of a text. *)
Fixpoint all_space (t : text) : bool :=
  match t with
  | [] => true
  | c :: t =>
      if space1 c then all_space t
      else match t with
      | [] => false
      | d :: t =>
          if space2 c d then all_space t
          else match t with
          | [] => false
          | e :: t => space3 c d e && all_space t
          end
      end
  end.

(** [strings.TrimSpace]: white space off the front, then off the end, where a text is read
    backwards and so are the bytes of a rune. *)
Fixpoint trim_front (t : text) : text :=
  match t with
  | [] => []
  | c :: t1 =>
      if space1 c then trim_front t1
      else match t1 with
      | [] => t
      | d :: t2 =>
          if space2 c d then trim_front t2
          else match t2 with
          | [] => t
          | e :: t3 => if space3 c d e then trim_front t3 else t
          end
      end
  end.
Fixpoint trim_back (t : text) : text :=
  match t with
  | [] => []
  | c :: t1 =>
      if space1 c then trim_back t1
      else match t1 with
      | [] => t
      | d :: t2 =>
          if space2 d c then trim_back t2
          else match t2 with
          | [] => t
          | e :: t3 => if space3 e d c then trim_back t3 else t
          end
      end
  end.
Definition TrimSpace (t : text) : text := reverse (trim_back (reverse (trim_front t))).

(** ** Lemmas *)

(** [strings.ToLower]: ASCII letters, and what [unicode_lower] makes of a text with a
    byte above 127. *)
Definition is_ascii (t : text) : bool := forallb (λ c, Z_of_byte c <? 128) t.
Definition ToLower (unicode_lower : text → text) (t : text) : text := if is_ascii t then lower_byte <$> t else unicode_lower t.

(** The value of decimal digits behind [v]. *)
Fixpoint parse_digits (s : text) (v : Z) : option Z :=
  match s with
  | [] => Some v
  | c :: s => if is_digit c then parse_digits s (v * 10 + (Z_of_byte c - 48)) else None
  end.

(** [strconv.ParseUint(s, 10, 64)]. *)
Definition ParseUint (s : text) : option Z :=
  match s with
  | [] => None
  | _ => v ← parse_digits s 0; if bool_decide (v < 2 ^ 64) then Some v else None
  end.

(** [strconv.ParseInt(s, 10, 64)], which [strconv.Atoi] is on 64 bits. *)
Definition ParseInt (s : text) : option Z :=
  let '(sign, digits) :=
    match s with
    | c :: s' => if bool_decide (c = "-"%byte) then (-1, s') else if bool_decide (c = "+"%byte) then (1, s') else (1, s)
    | [] => (1, s)
    end in
  match digits with
  | [] => None
  | _ => v ← parse_digits digits 0; if bool_decide (min_int64 ≤ sign * v ≤ max_int64) then Some (sign * v) else None
  end.

Lemma bool_decide_refl {A} `{EqDecision A} (x : A) : bool_decide (x = x) = true.
Proof. by apply bool_decide_eq_true. Qed.

#[export] Instance Z_of_byte_inj : Inj (=) (=) Z_of_byte.
Proof.
  intros b c H. unfold Z_of_byte in H. assert (Byte.to_N b = Byte.to_N c) as E by lia.
  pose proof (Byte.of_to_N b) as Hb. rewrite E, Byte.of_to_N in Hb. congruence.
Qed.

Lemma has_prefix_spec p t : has_prefix p t = true ↔ ∃ r, t = p ++ r.
Proof.
  revert t. induction p as [|c p IH]; intros t; cbn; [split; [by exists t|done]|].
  destruct t as [|d t]; [split; [done|by intros (r & ?)]|].
  rewrite andb_true_iff, bool_decide_eq_true, IH. split.
  - intros (-> & r & ->). by exists r.
  - intros (r & [= -> ->]). eauto.
Qed.

Lemma contains_spec sub t : contains sub t = true ↔ ∃ a b, t = a ++ sub ++ b.
Proof.
  induction t as [|c t IH]; cbn [contains]; rewrite orb_true_iff, has_prefix_spec.
  - split; [intros [(r & E)|[=]]; by exists [], r|]. intros (a & b & E). left.
    destruct a; [by exists b|done].
  - rewrite IH. split.
    + intros [(r & ->)|(a & b & ->)]; [by exists [], r|by exists (c :: a), b].
    + intros ([|a0 a] & b & E); [left; by exists b|right]. injection E as -> ->. eauto.
Qed.

Lemma contains_app_mid sub a b c : contains sub b = true → contains sub (a ++ b ++ c) = true.
Proof.
  rewrite !contains_spec. intros (x & y & ->). exists (a ++ x), (y ++ c). by rewrite <- !(assoc_L (++)).
Qed.

Lemma between_spec lo hi c : between lo hi c = true ↔ Z_of_byte lo ≤ Z_of_byte c ≤ Z_of_byte hi.
Proof. unfold between. rewrite andb_true_iff, !Z.leb_le. done. Qed.

(** A decidable fact of every byte is checked by running through them. *)
Ltac by_bytes := intros c; destruct c; vm_compute; (done || (intros; done)).

Lemma lower_byte_idem c : lower_byte (lower_byte c) = lower_byte c.
Proof. revert c. by_bytes. Qed.

Lemma append_rune_ascii r : 0 ≤ r < 128 → append_rune r = [byte_of_Z r].
Proof.
  intros Hr. unfold append_rune, uwrap32. rewrite Z.mod_small by lia.
  by replace (r <=? 127) with true by (symmetry; apply Z.leb_le; lia).
Qed.

(** ** The operations on Rocq strings *)

(** Lowering a text with a byte above 127 needs the tables of Unicode. *)
Class UnicodeLower := unicode_lower : text → text.

(** [strings.ToLower], [strings.HasPrefix], [strings.TrimPrefix] and [strings.Contains]. *)
Definition to_lower `{UnicodeLower} (s : string) : string := String.string_of_list_byte (ToLower unicode_lower (str s)).
Definition HasPrefix (s p : string) : bool := has_prefix (str p) (str s).
Definition TrimPrefix (s p : string) : string :=
  if HasPrefix s p then String.string_of_list_byte (drop (length (str p)) (str s)) else s.
Definition Contains (s sub : string) : bool := contains (str sub) (str s).

(** [labels[k]], with the empty string for an absent key. *)
Definition label (labels : gmap string string) (k : string) : string := default "" (labels !! k).
