(* ===== verification/GoJson.v ===== *)
(** * JSON values

    [json] is a decoded document with its numbers as they are written; [any] is what the
    values of a [map[string]any] that the code builds hold. *)
From S2P Require Import Prelude GoFloat GoBytes GoText.

(** A decoded JSON document; an object's list has each key once, in the order of the keys. *)
Inductive json :=
  | JNull
  | JBool (b : bool)
  | JNumber (t : text)
  | JString (t : text)
  | JArray (l : list json)
  | JObject (l : list (text * json)).

Fixpoint text_lt (s t : text) : bool :=
  match s, t with
  | [], [] => false
  | [], _ => true
  | _, [] => false
  | a :: s, b :: t => (Z_of_byte a <? Z_of_byte b) || ((Z_of_byte a =? Z_of_byte b) && text_lt s t)
  end.

(** [typed[key].(string)]. *)
Definition string_at (key : text) (l : list (text * json)) : option text :=
  match find (λ p, bool_decide (p.1 = key)) l with Some (_, JString t) => Some t | _ => None end.

(** Induction over documents. *)
Section json_ind.
Context (P : json → Prop).
Hypothesis (Hnull : P JNull) (Hbool : ∀ b, P (JBool b)) (Hnumber : ∀ t, P (JNumber t)) (Hstring : ∀ t, P (JString t)).
Hypothesis Harray : ∀ l, Forall P l → P (JArray l).
Hypothesis Hobject : ∀ l, Forall (λ p, P p.2) l → P (JObject l).

Fixpoint json_induction (v : json) : P v :=
  match v with
  | JNull => Hnull
  | JBool b => Hbool b
  | JNumber t => Hnumber t
  | JString t => Hstring t
  | JArray l => Harray l ((fix go l : Forall P l := match l with [] => Forall_nil_2 _ | v :: l => Forall_cons_2 _ _ _ (json_induction v) (go l) end) l)
  | JObject l => Hobject l ((fix go l : Forall (λ p : text * json, P p.2) l :=
      match l with [] => Forall_nil_2 _ | p :: l => Forall_cons_2 _ _ _ (json_induction p.2) (go l) end) l)
  end.
End json_ind.

(** A document whose texts satisfy [ok] and whose objects have their keys in order. *)
Fixpoint json_wf (ok : text → Prop) (v : json) : Prop :=
  match v with
  | JString t => ok t
  | JArray l => fold_right (λ v acc, json_wf ok v ∧ acc) True l
  | JObject l => StronglySorted (λ s t, text_lt s t = true) (List.map fst l) ∧ fold_right (λ p acc, (ok p.1 ∧ json_wf ok p.2) ∧ acc) True l
  | _ => True
  end.

(** What the values of [map[string]any] hold. *)
Inductive any :=
| ANil
| ABool (b : bool)
| AInt (z : Z)
| AFloat (x : float64)
| AString (s : string)
| AList (l : list any)
| AMap (m : list (string * any)).

(** [encoding/json], with [None] for an error: whether a text is JSON, the first value of a
    text with its numbers kept, the value of a text with its numbers read as floats, and
    the text of a value. *)
Class JsonCodec := {
  json_Valid : text → bool;
  json_Decode : text → option json;
  json_Unmarshal : text → option json;
  json_Marshal : json → option text;
}.

(** What the code relies on: what is decoded is well formed for some notion of a good text
    that holds of ASCII texts, and the text of a well-formed value decodes to it. *)
Class JsonLaws `{JsonCodec} := {
  good_text : text → Prop;
  good_text_ascii t : is_ascii t = true → good_text t;
  Decode_wf t v : json_Decode t = Some v → json_wf good_text v;
  Decode_Marshal v t : json_wf good_text v → json_Marshal v = Some t → json_Decode t = Some v;
  Decode_braces : json_Decode (str "{}") = Some (JObject []);
}.
