(* ===== verification/GoFmt.v ===== *)
(** * Numbers, dates and strings as text (strconv, fmt, strings, time)

    What the advisor rules use to read labels and settings and to word their findings.
    A float is formatted and parsed exactly: its value is a ratio of integers, rounded half
    to even. [Sprintf] knows the verbs the rules use; an argument that does not fit its verb
    is marked as Go marks it. The tables of Unicode (printable runes, case folding outside
    ASCII) and the parsing of dates are parameters. *)
From stdpp Require Import pretty.
From S2P Require Import Prelude GoTime GoFloat GoBytes GoText GoJson.
Import SpecFloat.

Definition of_text (t : text) : string := String.string_of_list_byte t.
Definition byte_string (z : Z) : string := of_text [byte_of_Z z].
Definition dq : string := byte_string 34. (* the double quote *)

(** ** Decimal text of integers *)

Fixpoint zeros (n : nat) : string := match n with O => "" | S n => String "0" (zeros n) end.
Definition pad_zeros (width : nat) (s : string) : string := zeros (width - String.length s) +:+ s.

(** An integer [z] read as [z / 10^n]. *)
Definition point (z : Z) (n : nat) : string :=
  let s := pad_zeros (S n) (pretty z) in
  let k := (String.length s - n)%nat in
  if bool_decide (n = 0%nat) then s else String.substring 0 k s +:+ "." +:+ String.substring k n s.

(** ** Floats as ratios *)

(** [n / d] rounded half to even. *)
Definition float_of_ratio (neg : bool) (n d : positive) : float64 :=
  let '(q, e, l) := SFdiv_core_binary prec emax (Zpos n) 0 (Zpos d) 0 in binary_round_aux prec emax neg q e l.

(** [m * 10^e] as a float. *)
Definition float_of_decimal (neg : bool) (m : N) (e : Z) : float64 :=
  match m with
  | N0 => S754_zero neg
  | Npos m => if 0 <=? e then float_of_ratio neg (m * Z.to_pos (10 ^ e)) 1 else float_of_ratio neg m (Z.to_pos (10 ^ (- e)))
  end.

Definition round_half_even (n d : Z) : Z :=
  let q := n / d in
  let r := n - q * d in
  if 2 * r <? d then q else if d <? 2 * r then q + 1 else if Z.even q then q else q + 1.

(** [m * 2^e * 10^s] as a ratio. *)
Definition scaled (m : positive) (e s : Z) : Z * Z :=
  (Zpos m * 2 ^ Z.max 0 e * 10 ^ Z.max 0 s, 2 ^ Z.max 0 (- e) * 10 ^ Z.max 0 (- s)).

Definition minus (neg : bool) : string := if neg then "-" else "".

(** [strconv.FormatFloat(x, 'f', n, 64)] with [n >= 0], and the verb [%.nf]. *)
Definition FormatFixed (x : float64) (n : nat) : string :=
  match x with
  | S754_nan => "NaN"
  | S754_infinity neg => if neg then "-Inf" else "+Inf"
  | S754_zero neg => minus neg +:+ point 0 n
  | S754_finite neg m e => let '(a, b) := scaled m e (Z.of_nat n) in minus neg +:+ point (round_half_even a b) n
  end.

(** *** The shortest decimal that reads back *)

Fixpoint tens (fuel : nat) (a b : Z) : Z :=
  match fuel with
  | O => 0
  | S fuel => if b <=? 10 * a then 0 else - 1 + tens fuel (10 * a) b
  end.

(** The exponent [p] with [10^(p-1) <= a/b < 10^p]. *)
Definition decimal_point (a b : Z) : Z :=
  if b <=? a then Z.of_nat (String.length (pretty (a / b))) else tens 400 a b.

(** With [n] digits: the nearest of the two neighbours if both read back, else the one that does. *)
Definition digits_that_read_back (neg : bool) (m : positive) (e p : Z) (n : nat) : option Z :=
  let s := Z.of_nat n - p in
  let '(a, b) := scaled m e s in
  let reads d := bool_decide (float_of_decimal neg (Z.to_N d) (- s) = S754_finite neg m e) in
  let lo := a / b in
  match reads lo, reads (lo + 1) with
  | true, true => Some (round_half_even a b)
  | true, false => Some lo
  | false, true => Some (lo + 1)
  | false, false => None
  end.

Fixpoint shortest_from (neg : bool) (m : positive) (e p : Z) (n fuel : nat) : Z * nat :=
  match digits_that_read_back neg m e p n, fuel with
  | Some d, _ => (d, n)
  | None, O => (0, n)
  | None, S fuel => shortest_from neg m e p (S n) fuel
  end.

Fixpoint strip_zeros (fuel : nat) (d : Z) : Z :=
  match fuel with O => d | S fuel => if d `mod` 10 =? 0 then strip_zeros fuel (d / 10) else d end.

(** The digits, and where the point is: [0.d1d2... * 10^p]. *)
Definition shortest (neg : bool) (m : positive) (e : Z) : string * Z :=
  let '(a, b) := scaled m e 0 in
  let p := decimal_point a b in
  let '(d, n) := shortest_from neg m e p 1 16 in
  let p := p + Z.of_nat (String.length (pretty d)) - Z.of_nat n in (* a carry to the next power of ten *)
  (pretty (strip_zeros 17 d), p).

(** [%e] of digits and point. *)
Definition exponent_form (digits : string) (p : Z) : string :=
  let x := p - 1 in
  String.substring 0 1 digits +:+ (if bool_decide (String.length digits = 1%nat) then "" else "." +:+ String.substring 1 (String.length digits) digits) +:+
  "e" +:+ (if x <? 0 then "-" else "+") +:+ pad_zeros 2 (pretty (Z.abs x)).

(** [%f] of digits and point. *)
Definition plain_form (digits : string) (p : Z) : string :=
  let n := String.length digits in
  if p <=? 0 then "0." +:+ zeros (Z.to_nat (- p)) +:+ digits
  else if Z.of_nat n <=? p then digits +:+ zeros (Z.to_nat p - n)
  else String.substring 0 (Z.to_nat p) digits +:+ "." +:+ String.substring (Z.to_nat p) n digits.

Definition format_shortest (form : string → Z → string) (x : float64) : string :=
  match x with
  | S754_nan => "NaN"
  | S754_infinity neg => if neg then "-Inf" else "+Inf"
  | S754_zero neg => minus neg +:+ "0"
  | S754_finite neg m e => let '(digits, p) := shortest neg m e in minus neg +:+ form digits p
  end.

(** [strconv.FormatFloat(x, 'f', -1, 64)]. *)
Definition FormatPlain (x : float64) : string := format_shortest plain_form x.

(** [strconv.FormatFloat(x, 'g', -1, 64)]: the verb [%v]. *)
Definition FormatGeneral (x : float64) : string :=
  format_shortest (λ digits p, if (p - 1 <? -4) || (6 <=? p - 1) then exponent_form digits p else plain_form digits p) x.

(** ** [strconv.ParseFloat(s, 64)] *)

Definition hex_digit (c : byte) : option Z :=
  let c := lower_byte c in
  if is_digit c then Some (Z_of_byte c - 48)
  else if between "a"%byte "f"%byte c then Some (Z_of_byte c - 87) else None.

Definition digit_in (base : Z) (c : byte) : option Z := v ← hex_digit c; if v <? base then Some v else None.

(** The digits of a mantissa: what was read, whether there was a digit, whether there was a
    point, how many digits follow it, and the rest. *)
Fixpoint read_mantissa (base : Z) (t : text) (m : N) (saw dot : bool) (frac : Z) : N * bool * Z * text :=
  match t with
  | [] => (m, saw, frac, [])
  | c :: t' =>
      if bool_decide (c = "_"%byte) then read_mantissa base t' m saw dot frac
      else if bool_decide (c = "."%byte) then (if dot then (m, saw, frac, t) else read_mantissa base t' m saw true frac)
      else match digit_in base c with
      | Some v => read_mantissa base t' (m * Z.to_N base + Z.to_N v) true dot (if dot then frac + 1 else frac)
      | None => (m, saw, frac, t)
      end
  end.

Fixpoint read_exponent (t : text) (e : Z) : Z * text :=
  match t with
  | [] => (e, [])
  | c :: t' =>
      if bool_decide (c = "_"%byte) then read_exponent t' e
      else if is_digit c then read_exponent t' (if e <? 10000 then e * 10 + (Z_of_byte c - 48) else e)
      else (e, t)
  end.

Inductive seen := SStart | SDigit | SUnderscore | SOther.
#[export] Instance seen_eq_dec : EqDecision seen.
Proof. solve_decision. Defined.

Fixpoint underscores_from (hex : bool) (last : seen) (t : text) : bool :=
  match t with
  | [] => negb (bool_decide (last = SUnderscore))
  | c :: t =>
      if is_digit c || (hex && between "a"%byte "f"%byte (lower_byte c)) then underscores_from hex SDigit t
      else if bool_decide (c = "_"%byte) then bool_decide (last = SDigit) && underscores_from hex SUnderscore t
      else negb (bool_decide (last = SUnderscore)) && underscores_from hex SOther t
  end.

Definition underscoreOK (t : text) : bool :=
  let t := match t with c :: t' => if bool_decide (c = "-"%byte) || bool_decide (c = "+"%byte) then t' else t | [] => t end in
  match t with
  | z :: x :: t' =>
      if bool_decide (z = "0"%byte) && bool_decide (lower_byte x ∈ ["b"%byte; "o"%byte; "x"%byte])
      then underscores_from (bool_decide (lower_byte x = "x"%byte)) SDigit t'
      else underscores_from false SStart t
  | _ => underscores_from false SStart t
  end.

Definition take_sign (t : text) : option bool * text :=
  match t with
  | c :: t' => if bool_decide (c = "+"%byte) then (Some false, t') else if bool_decide (c = "-"%byte) then (Some true, t') else (None, t)
  | [] => (None, t)
  end.

Definition special_float (s : text) : option float64 :=
  let '(sign, t) := take_sign s in
  let t := lower_byte <$> t in
  if bool_decide (t = str "inf") || bool_decide (t = str "infinity") then Some (S754_infinity (default false sign))
  else if bool_decide (sign = None) && bool_decide (t = str "nan") then Some S754_nan
  else None.

(** The sign, the base, the mantissa and the exponent of a number. *)
Definition read_float (s : text) : option (bool * Z * N * Z) :=
  let '(sign, t) := take_sign s in
  let hex := match t with z :: x :: _ :: _ => bool_decide (z = "0"%byte) && bool_decide (lower_byte x = "x"%byte) | _ => false end in
  let base := if hex then 16 else 10 in
  let '(m, saw, frac, t) := read_mantissa base (if hex then drop 2 t else t) 0 false false 0 in
  if negb saw then None
  else
    let exp := if hex then "p"%byte else "e"%byte in
    '(e, t) ← match t with
      | c :: t' =>
          if bool_decide (lower_byte c = exp) then
            let '(esign, t') := take_sign t' in
            match t' with
            | d :: _ => if is_digit d then (let '(e, t) := read_exponent t' 0 in Some (if default false esign then - e else e, t)) else None
            | [] => None
            end
          else if hex then None else Some (0, t)
      | [] => if hex then None else Some (0, t)
      end;
    if bool_decide (t = []) && (negb (bool_decide ("_"%byte ∈ s)) || underscoreOK s) then Some (default false sign, base, m, if hex then e - 4 * frac else e - frac)
    else None.

(** The value, and whether there is no error: an error of syntax gives zero, one of range
    an infinity. *)
Definition ParseFloat (s : string) : float64 * bool :=
  match special_float (str s) with
  | Some x => (x, true)
  | None =>
      match read_float (str s) with
      | None => (fzero, false)
      | Some (neg, base, m, e) =>
          let x := match m with
            | N0 => S754_zero neg
            | Npos p => if base =? 16 then (if 0 <=? e then float_of_ratio neg (p * Z.to_pos (2 ^ e)) 1 else float_of_ratio neg p (Z.to_pos (2 ^ (- e))))
                        else float_of_decimal neg m e
            end in
          (x, is_finite x)
      end
  end.

(** [strconv.Atoi] and [strconv.ParseInt(s, 10, 64)]: an error of range gives the nearest end. *)
Definition Atoi (s : string) : Z :=
  match ParseInt (str s) with
  | Some v => v
  | None =>
      let '(sign, t) := take_sign (str s) in
      if bool_decide (t ≠ []) && forallb is_digit t then (if default false sign then min_int64 else max_int64) else 0
  end.

(** ** [strconv.Quote] *)

Class UnicodePrint := unicode_print : Z → bool.

(** [utf8.DecodeRune]: the rune and its width; a byte that starts none is U+FFFD of width 1. *)
Definition RuneError : Z := 65533.
Definition continuation (lo hi : Z) (c : byte) : bool := (lo <=? Z_of_byte c) && (Z_of_byte c <=? hi).
Definition DecodeRune (t : text) : Z * nat :=
  match t with
  | [] => (RuneError, 0%nat)
  | c :: t =>
      let b := Z_of_byte c in
      if b <? 128 then (b, 1%nat)
      else if (194 <=? b) && (b <=? 223) then
        match t with
        | d :: _ => if continuation 128 191 d then ((b - 192) * 64 + (Z_of_byte d - 128), 2%nat) else (RuneError, 1%nat)
        | _ => (RuneError, 1%nat)
        end
      else if (224 <=? b) && (b <=? 239) then
        match t with
        | d :: e :: _ =>
            if continuation (if b =? 224 then 160 else 128) (if b =? 237 then 159 else 191) d && continuation 128 191 e
            then ((b - 224) * 4096 + (Z_of_byte d - 128) * 64 + (Z_of_byte e - 128), 3%nat) else (RuneError, 1%nat)
        | _ => (RuneError, 1%nat)
        end
      else if (240 <=? b) && (b <=? 244) then
        match t with
        | d :: e :: f :: _ =>
            if continuation (if b =? 240 then 144 else 128) (if b =? 244 then 143 else 191) d && continuation 128 191 e && continuation 128 191 f
            then ((b - 240) * 262144 + (Z_of_byte d - 128) * 4096 + (Z_of_byte e - 128) * 64 + (Z_of_byte f - 128), 4%nat) else (RuneError, 1%nat)
        | _ => (RuneError, 1%nat)
        end
      else (RuneError, 1%nat)
  end.

Definition hex_char (z : Z) : string := String.substring (Z.to_nat z) 1 "0123456789abcdef".
Fixpoint hex_text (width : nat) (z : Z) : string :=
  match width with O => "" | S width => hex_text width (z / 16) +:+ hex_char (z `mod` 16) end.

Definition escape_rune `{UnicodePrint} (r : Z) : string :=
  if (r =? 34) || (r =? 92) then "\" +:+ byte_string r
  else if (if r <? 128 then (32 <=? r) && (r <=? 126) else unicode_print r) then of_text (append_rune r)
  else if r =? 7 then "\a" else if r =? 8 then "\b" else if r =? 12 then "\f" else if r =? 10 then "\n"
  else if r =? 13 then "\r" else if r =? 9 then "\t" else if r =? 11 then "\v"
  else if (r <? 32) || (r =? 127) then "\x" +:+ hex_text 2 r
  else if r <? 65536 then "\u" +:+ hex_text 4 r
  else "\U" +:+ hex_text 8 r.

Fixpoint quote_body `{UnicodePrint} (fuel : nat) (t : text) : string :=
  match fuel, t with
  | S fuel, c :: t' =>
      let '(r, width) := DecodeRune t in
      (if (r =? RuneError) && bool_decide (width = 1%nat) && (128 <=? Z_of_byte c) then "\x" +:+ hex_text 2 (Z_of_byte c) else escape_rune r) +:+ quote_body fuel (drop width t)
  | _, _ => ""
  end.

Definition Quote `{UnicodePrint} (s : string) : string := dq +:+ quote_body (String.length s) (str s) +:+ dq.

(** ** [fmt.Sprintf] *)

Fixpoint Join (sep : string) (l : list string) : string :=
  match l with [] => "" | [x] => x | x :: l => x +:+ sep +:+ Join sep l end.

(** The verb [%v]; a map's list has its keys in order. *)
Fixpoint Sprint (v : any) : string :=
  match v with
  | ANil => "<nil>"
  | ABool b => if b then "true" else "false"
  | AInt z => pretty z
  | AFloat x => FormatGeneral x
  | AString s => s
  | AList l => "[" +:+ Join " " (List.map Sprint l) +:+ "]"
  | AMap m => "map[" +:+ Join " " (List.map (λ p, p.1 +:+ ":" +:+ Sprint p.2) m) +:+ "]"
  end.

Definition digit_value (c : ascii) : nat := N.to_nat (N_of_ascii c - 48).
Definition bad_verb (verb : string) (v : any) : string := "%!" +:+ verb +:+ "(" +:+ Sprint v +:+ ")".
Definition missing_arg (verb : string) : string := "%!" +:+ verb +:+ "(MISSING)".

Fixpoint Sprintf `{UnicodePrint} (f : string) (args : list any) : string :=
  match f with
  | "" => ""
  | String "%" (String "%" f) => "%" +:+ Sprintf f args
  | String "%" (String "s" f) =>
      match args with AString s :: args => s +:+ Sprintf f args | v :: args => bad_verb "s" v +:+ Sprintf f args | [] => missing_arg "s" +:+ Sprintf f [] end
  | String "%" (String "v" f) =>
      match args with v :: args => Sprint v +:+ Sprintf f args | [] => missing_arg "v" +:+ Sprintf f [] end
  | String "%" (String "d" f) =>
      match args with AInt z :: args => pretty z +:+ Sprintf f args | v :: args => bad_verb "d" v +:+ Sprintf f args | [] => missing_arg "d" +:+ Sprintf f [] end
  | String "%" (String "q" f) =>
      match args with AString s :: args => Quote s +:+ Sprintf f args | v :: args => bad_verb "q" v +:+ Sprintf f args | [] => missing_arg "q" +:+ Sprintf f [] end
  | String "%" (String "c" f) =>
      match args with AInt z :: args => of_text (append_rune z) +:+ Sprintf f args | v :: args => bad_verb "c" v +:+ Sprintf f args | [] => missing_arg "c" +:+ Sprintf f [] end
  | String "%" (String "." (String n (String "f" f))) =>
      match args with AFloat x :: args => FormatFixed x (digit_value n) +:+ Sprintf f args | v :: args => bad_verb "f" v +:+ Sprintf f args | [] => missing_arg "f" +:+ Sprintf f [] end
  | String c f => String c (Sprintf f args)
  end.

(** ** Durations and dates *)

(** [time.Duration.Hours] and [Minutes]. *)
Definition Hours (d : Duration) : float64 :=
  fadd (float_of_int (Z.quot d Hour)) (fdiv (float_of_int (Z.rem d Hour)) (float_of_int Hour)).
Definition Minutes (d : Duration) : float64 :=
  fadd (float_of_int (Z.quot d Minute)) (fdiv (float_of_int (Z.rem d Minute)) (float_of_int Minute)).

(** [d.Round(m)] for a positive [m]: halves go away from zero, and the ends saturate. *)
Definition Round (d m : Duration) : Duration :=
  let r := Z.rem d m in
  if d <? 0 then (if - r + - r <? m then d - r else Z.max min_int64 (d - r - m))
  else if r + r <? m then d - r else Z.min max_int64 (d + m - r).

(** The digits of [v / 10^n] without trailing zeros. *)
Definition fraction (v : Z) (n : nat) : string :=
  let z := strip_zeros n (v `mod` 10 ^ Z.of_nat n) in
  if z =? 0 then "" else
    let s := pad_zeros n (pretty (v `mod` 10 ^ Z.of_nat n)) in
    "." +:+ String.substring 0 (n - (String.length (pretty (v `mod` 10 ^ Z.of_nat n)) - String.length (pretty z))) s.

(** [time.Duration.String]. *)
Definition Duration_String (d : Duration) : string :=
  let u := Z.abs d in
  let sign := minus (d <? 0) in
  if u =? 0 then "0s"
  else if u <? Microsecond then sign +:+ pretty u +:+ "ns"
  else if u <? Millisecond then sign +:+ pretty (u / Microsecond) +:+ fraction u 3 +:+ "µs"
  else if u <? Second then sign +:+ pretty (u / Millisecond) +:+ fraction u 6 +:+ "ms"
  else
    let s := u / Second in
    let tail := pretty (s `mod` 60) +:+ fraction u 9 +:+ "s" in
    if s <? 60 then sign +:+ tail
    else if s <? 3600 then sign +:+ pretty (s / 60) +:+ "m" +:+ tail
    else sign +:+ pretty (s / 3600) +:+ "h" +:+ pretty ((s / 60) `mod` 60) +:+ "m" +:+ tail.

(** The date of an instant in UTC: year, month, day. *)
Definition leap (y : Z) : bool := (y `mod` 4 =? 0) && (negb (y `mod` 100 =? 0) || (y `mod` 400 =? 0)).
Fixpoint month_of (lengths : list Z) (m d : Z) : Z * Z :=
  match lengths with [] => (m, d + 1) | n :: ns => if d <? n then (m, d + 1) else month_of ns (m + 1) (d - n) end.
Definition civil (t : Time) : Z * Z * Z :=
  let days := t / (24 * Hour) in
  let n400 := days / 146097 in let r := days `mod` 146097 in
  let n100 := Z.min 3 (r / 36524) in let r := r - n100 * 36524 in
  let n4 := r / 1461 in let r := r `mod` 1461 in
  let n1 := Z.min 3 (r / 365) in let r := r - n1 * 365 in
  let y := 400 * n400 + 100 * n100 + 4 * n4 + n1 + 1 in
  let '(m, d) := month_of [31; (if leap y then 29 else 28); 31; 30; 31; 30; 31; 31; 30; 31; 30] 1 r in
  (y, m, d).

Definition two (z : Z) : string := pad_zeros 2 (pretty z).
Definition date_text (t : Time) : string := let '(y, m, d) := civil t in pad_zeros 4 (pretty y) +:+ "-" +:+ two m +:+ "-" +:+ two d.

(** [t.UTC().Format] with the layouts "2006-01-02", "2006-01-02 15:04 MST" and [time.RFC3339]. *)
Definition hour_minute (t : Time) : string := two ((t / Hour) `mod` 24) +:+ ":" +:+ two ((t / Minute) `mod` 60).
Definition format_date (t : Time) : string := date_text t.
Definition format_minute (t : Time) : string := date_text t +:+ " " +:+ hour_minute t +:+ " UTC".
Definition format_RFC3339 (t : Time) : string := date_text t +:+ "T" +:+ hour_minute t +:+ ":" +:+ two ((t / Second) `mod` 60) +:+ "Z".

(** [time.Parse] with [time.RFC3339], which also takes a fraction of a second. *)
Class TimeParse := parse_RFC3339 : string → option Time.

(** ** Strings *)

(** [strings.EqualFold] and [strings.Fields], [Index], [LastIndex], [Split] and [Cut]. *)
Class UnicodeFold := unicode_fold : text → text → bool.
Definition EqualFold `{UnicodeFold} (s t : string) : bool :=
  if is_ascii (str s) && is_ascii (str t) then bool_decide (lower_byte <$> str s = lower_byte <$> str t) else unicode_fold (str s) (str t).

Fixpoint index_from (sub t : text) (i : nat) : option nat :=
  if has_prefix sub t then Some i else match t with [] => None | _ :: t => index_from sub t (S i) end.
Definition Index (sub t : text) : option nat := index_from sub t 0.

Fixpoint last_index_from (sub t : text) (i : nat) (best : option nat) : option nat :=
  let best := if has_prefix sub t then Some i else best in
  match t with [] => best | _ :: t => last_index_from sub t (S i) best end.
Definition LastIndex (sub t : text) : option nat := last_index_from sub t 0 None.

(** At one separator byte. *)
Fixpoint Split (s : string) (sep : ascii) : list string :=
  match s with
  | "" => [""]
  | String c s =>
      if decide (c = sep) then "" :: Split s sep
      else match Split s sep with x :: l => String c x :: l | [] => [String c ""] end
  end.

Fixpoint Cut (s : string) (sep : ascii) : string * string * bool :=
  match s with
  | "" => ("", "", false)
  | String c s => if decide (c = sep) then ("", s, true) else let '(a, b, ok) := Cut s sep in (String c a, b, ok)
  end.

(** How many bytes of white space a text starts with: those of one rune. *)
Definition space_width (t : text) : nat :=
  match t with
  | c :: d :: e :: _ => if space1 c then 1 else if space2 c d then 2 else if space3 c d e then 3 else 0
  | [c; d] => if space1 c then 1 else if space2 c d then 2 else 0
  | [c] => if space1 c then 1 else 0
  | [] => 0
  end.

Fixpoint fields_from (fuel : nat) (word : text) (t : text) : list text :=
  let flush rest := match word with [] => rest | _ => word :: rest end in
  match fuel, t with
  | S fuel, c :: t' =>
      match space_width t with
      | O => fields_from fuel (word ++ [c]) t'
      | n => flush (fields_from fuel [] (drop n t))
      end
  | _, _ => flush []
  end.
Definition Fields (t : text) : list text := fields_from (length t) [] t.

Module Tests.
#[local] Instance print_all : UnicodePrint := λ _, true.
Definition fl (s : string) : float64 := (ParseFloat s).1.

Example fixed : Sprintf "%s is %.2f, above %.0f%%" [AString "x"; AFloat (fl "1.005"); AFloat (fl "2.5")] = "x is 1.00, above 2%".
Proof. vm_compute. reflexivity. Qed.
Example general : map (λ s, FormatGeneral (fl s)) ["2000123"; "150000"; "0.1"; "1e21"; "5e-324"; "123456.789"; "0.00001"] =
  ["2.000123e+06"; "150000"; "0.1"; "1e+21"; "5e-324"; "123456.789"; "1e-05"].
Proof. vm_compute. reflexivity. Qed.
Example plain : map (λ s, FormatPlain (fl s)) ["16777216"; "0.001"; "1e21"; "0x1p-2"; "1_0.5"; "9007199254740993"] =
  ["16777216"; "0.001"; "1000000000000000000000"; "0.25"; "10.5"; "9007199254740992"].
Proof. vm_compute. reflexivity. Qed.
Example refused : map (λ s, (ParseFloat s).2) [""; "1e"; "1__0"; "x"; "0x1"; "1e400"; " 1"; "1.2.3"; "inf"; "+nan"] =
  [false; false; false; false; false; false; false; false; true; false].
Proof. vm_compute. reflexivity. Qed.
Example quoted : Sprintf "%q" [AString ("a\" +:+ dq +:+ byte_string 10 +:+ "é" +:+ byte_string 255)] = dq +:+ "a\\\" +:+ dq +:+ "\né\xff" +:+ dq.
Proof. vm_compute. reflexivity. Qed.
Example dated : format_RFC3339 (63839664000 * Second + 3661 * Second) = "2024-01-01T01:01:01Z" ∧ format_date (63844761600 * Second) = "2024-02-29".
Proof. split; vm_compute; reflexivity. Qed.
Example durations : map Duration_String [Hour + 5 * Minute; 1500 * Millisecond; 2 * Minute; - (90 * Second); 1500] = ["1h5m0s"; "1.5s"; "2m0s"; "-1m30s"; "1.5µs"].
Proof. vm_compute. reflexivity. Qed.
Example words : Fields (str "  btree (a) ") = [str "btree"; str "(a)"] ∧ LastIndex (str "ab") (str "abxab") = Some 3%nat ∧ Split "a;b;" ";" = ["a"; "b"; ""].
Proof. split_and!; vm_compute; reflexivity. Qed.
End Tests.
