(* ===== verification/Breaker.v ===== *)
(** * The circuit breaker of a scheduled entry (internal/agent/breaker.go)

    [Breaker] is the state of one breaker; the clock reading that [RecordFailure]
    and [Allow] take is an argument. [run] feeds a breaker a history of scrape
    outcomes. The theorems give the double-until-capped loop of the backoff in
    closed form and describe the breaker after any history by the number of
    failures since the last success. *)
From S2P Require Import Prelude GoTime.

Record Breaker := mkBreaker {
  failures : Z;
  state : Z; (* 0 = closed, 1 = open *)
  openedAt : Time;
  backoffAttempts : Z;
}.

Definition NewBreaker : Breaker := mkBreaker 0 0 zero_time 0.

(** The body of the loop of [calculateBackoff]: at most [n] doublings, none once
    the cap is reached. The product wraps, as [time.Duration] does. *)
Fixpoint double_until (n : nat) (cap backoff : Duration) : Duration :=
  match n with
  | O => backoff
  | S n => if backoff <? cap then double_until n cap (wrap64 (backoff * 2)) else backoff
  end.

Definition calculateBackoff (attempt : Z) : Duration :=
  let cap := 15 * Minute in
  let backoff := double_until (Z.to_nat attempt) cap Minute in
  if cap <? backoff then cap else backoff.

Definition Allow (b : Breaker) (now : Time) : bool :=
  if b.(state) =? 0 then true
  else calculateBackoff b.(backoffAttempts) <=? Sub now b.(openedAt).

Definition RecordSuccess (b : Breaker) : Breaker :=
  if b.(state) =? 1 then mkBreaker 0 0 b.(openedAt) 0
  else mkBreaker 0 b.(state) b.(openedAt) b.(backoffAttempts).

Definition RecordFailure (b : Breaker) (now : Time) : Breaker :=
  let failures' := wrap64 (b.(failures) + 1) in
  if b.(state) =? 1 then mkBreaker failures' 1 now (wrap64 (b.(backoffAttempts) + 1))
  else if 3 <=? failures' then mkBreaker failures' 1 now 0
  else mkBreaker failures' b.(state) b.(openedAt) b.(backoffAttempts).

Definition State (b : Breaker) : bool := b.(state) =? 1.

(** A scrape that succeeded, or failed at a clock reading. *)
Inductive outcome := Succeeded | Failed (at_ : Time).

Definition record (b : Breaker) (o : outcome) : Breaker :=
  match o with
  | Succeeded => RecordSuccess b
  | Failed t => RecordFailure b t
  end.

Definition run (b : Breaker) (os : list outcome) : Breaker := foldl record b os.

(** The abstract view: how many failures since the last success, and when the
    last of them was. *)
Fixpoint trailing (os : list outcome) (n : Z) (last : Time) : Z * Time :=
  match os with
  | [] => (n, last)
  | Succeeded :: os => trailing os 0 last
  | Failed t :: os => trailing os (n + 1) t
  end.

(** ** The backoff ladder *)

Lemma double_until_spec n cap b :
  0 < b → 0 < cap ≤ 2 ^ 61 → b < 2 * cap →
  Z.min cap (double_until n cap b) = Z.min cap (b * 2 ^ Z.of_nat n).
Proof.
  revert b. induction n as [|n IH]; intros b Hb Hcap Hb2.
  { simpl. lia. }
  rewrite Nat2Z.inj_succ, Z.pow_succ_r by lia. simpl.
  destruct (b <? cap) eqn:E; zbool.
  - rewrite wrap64_id by (unfold is_int64, min_int64, max_int64; lia).
    rewrite IH by lia. f_equal. lia.
  - assert (1 ≤ 2 ^ Z.of_nat n) by (pose proof (Z.pow_pos_nonneg 2 (Z.of_nat n)); lia). nia.
Qed.

(** The backoff of any attempt count, in closed form. *)
Lemma calculateBackoff_eq attempt :
  calculateBackoff attempt = Z.min (15 * Minute) (Minute * 2 ^ Z.max 0 attempt).
Proof.
  unfold calculateBackoff.
  pose proof (double_until_spec (Z.to_nat attempt) (15 * Minute) Minute) as H.
  rewrite <- (Z2Nat.id (Z.max 0 attempt)) by lia.
  replace (Z.to_nat (Z.max 0 attempt)) with (Z.to_nat attempt) by lia.
  rewrite <- H by (time_unfold; lia).
  destruct (15 * Minute <? _) eqn:E; zbool; lia.
Qed.

(** ** Any history *)

(** What [n] failures since the last success, the last at [last], make of a
    breaker. *)
Definition breaker_inv (b : Breaker) (n : Z) (last : Time) : Prop :=
  b.(failures) = n ∧ 0 ≤ n ∧
  (n < 3 → b.(state) = 0) ∧
  (3 ≤ n → b.(state) = 1 ∧ b.(backoffAttempts) = n - 3 ∧ b.(openedAt) = last).

Lemma RecordSuccess_inv b n last : breaker_inv b n last → breaker_inv (RecordSuccess b) 0 last.
Proof.
  intros (Hf & Hn & H0 & H1). unfold RecordSuccess.
  destruct (b.(state) =? 1) eqn:E; zbool; split_and!; cbn; lia.
Qed.

Lemma RecordFailure_inv b n last t :
  n < max_int64 → breaker_inv b n last → breaker_inv (RecordFailure b t) (n + 1) t.
Proof.
  intros Hmax (Hf & Hn & H0 & H1). unfold RecordFailure. rewrite Hf.
  rewrite wrap64_id by (unfold is_int64, min_int64, max_int64 in *; lia).
  destruct (Z.lt_ge_cases n 3) as [Hlt|Hge].
  - rewrite (H0 Hlt). cbn. destruct (3 <=? n + 1) eqn:E; zbool; split_and!; cbn; lia.
  - destruct (H1 Hge) as (-> & -> & _). cbn.
    rewrite wrap64_id by (unfold is_int64, min_int64, max_int64 in *; lia).
    split_and!; cbn; lia.
Qed.

Lemma run_inv os : ∀ b n last,
  n + Z.of_nat (length os) ≤ max_int64 → breaker_inv b n last →
  breaker_inv (run b os) (trailing os n last).1 (trailing os n last).2.
Proof.
  induction os as [|[|t] os IH]; intros b n last Hlen Hb; simpl in *; [done| |].
  - apply IH; [|by eapply RecordSuccess_inv]. destruct Hb as (_ & ? & _). lia.
  - apply IH; [lia|]. eapply RecordFailure_inv; [|done]. lia.
Qed.

(** after any history of scrape outcomes the breaker is open exactly when the
    last three or more outcomes were failures; while it is closed every scrape is
    allowed, and after [n >= 3] failures in a row, the last at [last], a scrape is
    allowed exactly when the backoff of that step of the ladder (1, 2, 4, 8, then
    15 minutes) has elapsed since [last]. *)
Theorem breaker_allow_after_history os now :
  Z.of_nat (length os) ≤ max_int64 →
  let '(n, last) := trailing os 0 zero_time in
  State (run NewBreaker os) = (3 <=? n) ∧
  Allow (run NewBreaker os) now =
    ((n <? 3) || (Z.min (15 * Minute) (Minute * 2 ^ (n - 3)) <=? Sub now last)).
Proof.
  intros Hlen. destruct (trailing os 0 zero_time) as [n last] eqn:E.
  pose proof (run_inv os NewBreaker 0 zero_time) as H. rewrite E in H. cbn in H.
  destruct H as (_ & Hn & H0 & H1); [lia|split_and!; cbn; lia|].
  unfold State, Allow. destruct (Z.lt_ge_cases n 3) as [Hlt|Hge].
  - rewrite (H0 Hlt). cbn. split; [symmetry; by apply Z.leb_gt|].
    by rewrite (proj2 (Z.ltb_lt n 3) Hlt).
  - destruct (H1 Hge) as (-> & -> & ->). cbn. split; [symmetry; by apply Z.leb_le|].
    rewrite calculateBackoff_eq, (proj2 (Z.ltb_ge n 3) Hge), Z.max_r by lia. done.
Qed.

Definition example_history : list outcome :=
  [Failed (1 * Second); Succeeded; Failed (2 * Second); Failed (3 * Second); Failed (4 * Second); Failed (70 * Second)].

(** Four failures in a row: the second step of the ladder, two minutes. *)
Lemma breaker_allow_after_history_witness :
  Allow (run NewBreaker example_history) (189 * Second) = false ∧
  Allow (run NewBreaker example_history) (190 * Second) = true.
Proof.
  assert (Z.of_nat (length example_history) ≤ max_int64) as H by (vm_compute; discriminate).
  split.
  - apply (breaker_allow_after_history example_history (189 * Second) H).
  - apply (breaker_allow_after_history example_history (190 * Second) H).
Defined.

(** whatever the attempt count, the doubling loop ends within the range of a
    [Duration] and the backoff stays between one and fifteen minutes, doubling with
    each attempt until it is capped; so an open breaker always lets a scrape through
    fifteen minutes after it last failed. *)
Theorem breaker_backoff_bounded attempt :
  Minute ≤ calculateBackoff attempt ≤ 15 * Minute ∧
  (0 ≤ attempt → calculateBackoff (attempt + 1) = Z.min (15 * Minute) (2 * calculateBackoff attempt)) ∧
  (∀ b now, 15 * Minute ≤ Sub now b.(openedAt) → Allow b now = true).
Proof.
  assert (∀ a, Minute ≤ calculateBackoff a ≤ 15 * Minute) as Hb.
  { intros a. rewrite calculateBackoff_eq.
    pose proof (Z.pow_pos_nonneg 2 (Z.max 0 a)). time_unfold. nia. }
  split_and!; [by apply Hb|by apply Hb| |].
  - intros Ha. rewrite !calculateBackoff_eq, !Z.max_r, Z.pow_add_r by lia.
    pose proof (Z.pow_pos_nonneg 2 attempt). time_unfold. lia.
  - intros b now H. unfold Allow. destruct (_ =? 0); [done|].
    apply Z.leb_le. pose proof (Hb b.(backoffAttempts)). lia.
Qed.

Lemma breaker_backoff_bounded_witness :
  calculateBackoff 3 = 8 * Minute ∧ calculateBackoff 4 = 15 * Minute ∧
  Allow (run NewBreaker example_history) (970 * Second) = true.
Proof.
  split_and!.
  - reflexivity.
  - destruct (breaker_backoff_bounded 3) as (_ & H & _).
    change 4 with (3 + 1). rewrite (H ltac:(lia)). reflexivity.
  - destruct (breaker_backoff_bounded 3) as (_ & _ & H). apply H. vm_compute. discriminate.
Defined.
