(* ===== verification/Pgtype.v ===== *)
(** * Core value types (internal/pgtype)

    Roles, permission tiers, server versions, series keys, and the canonical form
    of a label set with its escaping. Strings are Go's byte strings. A [UUID] (the
    [16]byte array of the uuid package) is its 128-bit value. *)
From S2P Require Import Prelude GoSort.

Definition UUID : Type := Z.
Definition uuid_Nil : UUID := 0.
Definition InstanceID : Type := UUID.
Definition AgentID : Type := UUID.
Definition ClusterID : Type := Z. (* uint64 *)

(** ** Roles, tiers, versions (role.go, version.go) *)

(** [Role] is a string type; [RoleNone] is its zero value [""]. *)
Inductive Role := RoleNone | RolePrimary | RoleStandby | RoleUnknown.

#[export] Instance Role_eq_dec : EqDecision Role.
Proof. solve_decision. Defined.

Definition RoleFromRecovery (inRecovery : bool) : Role :=
  if inRecovery then RoleStandby else RolePrimary.

Definition TierReadOnly : Z := 0.
Definition TierExplain : Z := 1.
Definition TierSignal : Z := 2.
Definition TierExtension : Z := 3.

Definition PermTier_String (t : Z) : string :=
  if t =? TierReadOnly then "T0"
  else if t =? TierExplain then "T1"
  else if t =? TierSignal then "T2"
  else if t =? TierExtension then "T3"
  else "Tier" +:+ pretty.pretty t.

Definition ParsePermTier (s : string) : option Z :=
  if decide (s = "T0") then Some TierReadOnly
  else if decide (s = "T1") then Some TierExplain
  else if decide (s = "T2") then Some TierSignal
  else if decide (s = "T3") then Some TierExtension
  else None.

Definition Major (v : Z) : Z := Z.quot v 10000.
Definition Minor (v : Z) : Z := Z.rem v 100.
Definition Supported (v : Z) : bool := (15 <=? Major v) && (Major v <? 20).

(** ** Series keys (metric.go) *)

Record SeriesKey := mkSeriesKey {
  Metric : string;
  Instance : UUID;
  Database : string;
  Labels : string;
}.

#[export] Instance SeriesKey_eq_dec : EqDecision SeriesKey.
Proof. solve_decision. Defined.

#[export] Instance SeriesKey_countable : Countable SeriesKey.
Proof.
  apply (inj_countable' (λ k, (Metric k, Instance k, Database k, Labels k))
    (λ '(m, i, d, l), mkSeriesKey m i d l)). by intros [].
Defined.

(** ** Canonical labels (metric.go) *)

Definition ESC : ascii := "030"%char. (* \x1e *)
Definition US : ascii := "031"%char. (* \x1f *)

(** [strings.NewReplacer] with one-byte patterns: a map over the bytes. *)
Fixpoint replace_bytes (f : ascii → string) (s : string) : string :=
  match s with
  | "" => ""
  | String c s => f c +:+ replace_bytes f s
  end.

Definition labelValueByte (c : ascii) : string :=
  if decide (c = ESC) then String ESC "0"
  else if decide (c = US) then String ESC "1"
  else String c "".

Definition labelKeyByte (c : ascii) : string :=
  if decide (c = ESC) then String ESC "0"
  else if decide (c = US) then String ESC "1"
  else if decide (c = "="%char) then String ESC "2"
  else String c "".

Definition labelValueEscaper : string → string := replace_bytes labelValueByte.
Definition labelKeyEscaper : string → string := replace_bytes labelKeyByte.

(** The replacer reads left to right and takes the two-byte patterns first. *)
Fixpoint UnescapeLabel (s : string) : string :=
  match s with
  | String c ((String d s') as rest) =>
      if decide (c = ESC ∧ d = "0"%char) then String ESC (UnescapeLabel s')
      else if decide (c = ESC ∧ d = "1"%char) then String US (UnescapeLabel s')
      else if decide (c = ESC ∧ d = "2"%char) then String "=" (UnescapeLabel s')
      else String c (UnescapeLabel rest)
  | s => s
  end.

(** The loop of [CanonicalLabels] over the sorted keys; [i] is its index. *)
Fixpoint write_labels (l : gmap string string) (i : nat) (keys : list string) : string :=
  match keys with
  | [] => ""
  | k :: keys =>
      (match i with O => "" | S _ => String US "" end) +:+
      labelKeyEscaper k +:+ "=" +:+ labelValueEscaper (default "" (l !! k)) +:+
      write_labels l (S i) keys
  end.

Definition CanonicalLabels (l : gmap string string) : string :=
  if decide (size l = 0%nat) then ""
  else write_labels l 0 (sort_strings (map_to_list l).*1).

(** ** Escaping is reversible *)

Lemma string_app_nil (s : string) : "" +:+ s = s.
Proof. done. Qed.

Lemma string_app_cons c s t : String c s +:+ t = String c (s +:+ t).
Proof. done. Qed.

Lemma string_app_empty (s : string) : s +:+ "" = s.
Proof. induction s as [|c s IH]; [done|]. by rewrite string_app_cons, IH. Qed.

Lemma string_app_assoc (s t u : string) : (s +:+ t) +:+ u = s +:+ (t +:+ u).
Proof. induction s as [|c s IH]; [done|]. by rewrite !string_app_cons, IH. Qed.

Lemma UnescapeLabel_plain c s : c ≠ ESC → UnescapeLabel (String c s) = String c (UnescapeLabel s).
Proof.
  intros Hc. destruct s as [|d s]; [done|]. cbn [UnescapeLabel].
  rewrite !decide_False by naive_solver. done.
Qed.

Lemma UnescapeLabel_value_byte c s :
  UnescapeLabel (labelValueByte c +:+ s) = String c (UnescapeLabel s).
Proof.
  unfold labelValueByte. repeat case_decide; subst; [done..|]. by apply UnescapeLabel_plain.
Qed.

Lemma UnescapeLabel_key_byte c s :
  UnescapeLabel (labelKeyByte c +:+ s) = String c (UnescapeLabel s).
Proof.
  unfold labelKeyByte. repeat case_decide; subst; [done..|]. by apply UnescapeLabel_plain.
Qed.

Lemma UnescapeLabel_value s : UnescapeLabel (labelValueEscaper s) = s.
Proof.
  induction s as [|c s IH]; [done|]. unfold labelValueEscaper in *. cbn [replace_bytes].
  by rewrite UnescapeLabel_value_byte, IH.
Qed.

Lemma UnescapeLabel_key s : UnescapeLabel (labelKeyEscaper s) = s.
Proof.
  induction s as [|c s IH]; [done|]. unfold labelKeyEscaper in *. cbn [replace_bytes].
  by rewrite UnescapeLabel_key_byte, IH.
Qed.

#[export] Instance labelValueEscaper_inj : Inj (=) (=) labelValueEscaper.
Proof. intros s t E. by rewrite <- (UnescapeLabel_value s), E, UnescapeLabel_value. Qed.

#[export] Instance labelKeyEscaper_inj : Inj (=) (=) labelKeyEscaper.
Proof. intros s t E. by rewrite <- (UnescapeLabel_key s), E, UnescapeLabel_key. Qed.

(** ** Reading a canonical string back is unambiguous *)

Fixpoint no_byte (c : ascii) (s : string) : Prop :=
  match s with
  | "" => True
  | String d s => d ≠ c ∧ no_byte c s
  end.

Lemma no_byte_app c s t : no_byte c s → no_byte c t → no_byte c (s +:+ t).
Proof. induction s as [|d s IH]; [done|]. rewrite string_app_cons. cbn. naive_solver. Qed.

Lemma no_byte_replace c f s : (∀ d, no_byte c (f d)) → no_byte c (replace_bytes f s).
Proof. intros Hf. induction s as [|d s IH]; cbn; [done|]. by apply no_byte_app. Qed.

Lemma labelKeyByte_clean d : no_byte "="%char (labelKeyByte d) ∧ no_byte US (labelKeyByte d).
Proof. unfold labelKeyByte. repeat case_decide; subst; cbn; naive_solver. Qed.

Lemma labelValueByte_clean d : no_byte US (labelValueByte d).
Proof. unfold labelValueByte. repeat case_decide; subst; cbn; naive_solver. Qed.

(** A text without [c] is delimited by what follows, when that starts with [c]. *)
Lemma split_at_byte c a b x y :
  no_byte c a → no_byte c b → a +:+ String c x = b +:+ String c y → a = b ∧ x = y.
Proof.
  revert b. induction a as [|d a IH]; intros [|e b] Ha Hb E;
    rewrite ?string_app_cons, ?string_app_nil in E; cbn in *; simplify_eq.
  - done.
  - by destruct Hb as [[] _].
  - by destruct Ha as [[] _].
  - destruct Ha, Hb. by destruct (IH b) as [-> ->].
Qed.

(** What is left after a part: nothing, or the separator. *)
Definition tail_ok (c : ascii) (t : string) : Prop := t = "" ∨ ∃ u, t = String c u.

Lemma split_at_tail c a b s t :
  no_byte c a → no_byte c b → tail_ok c s → tail_ok c t → a +:+ s = b +:+ t → a = b ∧ s = t.
Proof.
  intros Ha Hb [->|[u ->]] [->|[v ->]] E.
  - by rewrite !string_app_empty in E.
  - rewrite string_app_empty in E. subst a. exfalso. revert Ha. clear.
    induction b as [|d b IH]; rewrite ?string_app_cons, ?string_app_nil; cbn; naive_solver.
  - rewrite string_app_empty in E. subst b. exfalso. revert Hb. clear.
    induction a as [|d b IH]; rewrite ?string_app_cons, ?string_app_nil; cbn; naive_solver.
  - apply split_at_byte in E as [-> ->]; done.
Qed.

Lemma write_labels_tail l i keys : tail_ok US (write_labels l (S i) keys).
Proof. destruct keys; cbn; [by left|]. right. by eexists. Qed.

Lemma write_labels_inj l1 l2 i ks1 ks2 :
  write_labels l1 i ks1 = write_labels l2 i ks2 →
  ks1 = ks2 ∧ ∀ k, k ∈ ks1 → default "" (l1 !! k) = default "" (l2 !! k).
Proof.
  revert i ks2. induction ks1 as [|k1 ks1 IH]; intros i [|k2 ks2]; cbn [write_labels].
  - intros _. split; [done|]. by intros k ?%elem_of_nil.
  - intros E. exfalso. destruct i, (labelKeyEscaper k2); discriminate.
  - intros E. exfalso. destruct i, (labelKeyEscaper k1); discriminate.
  - intros E. apply (inj _) in E. rewrite !string_app_cons in E. cbn in E.
    apply split_at_byte in E as [Ek E]; [|by apply no_byte_replace, labelKeyByte_clean..].
    apply (inj labelKeyEscaper) in Ek as <-.
    rewrite !string_app_nil in E. apply (split_at_tail US) in E as [Ev E];
      [|first [apply no_byte_replace, labelValueByte_clean|apply write_labels_tail]..].
    apply (inj labelValueEscaper) in Ev. apply IH in E as [<- Hv].
    split; [done|]. intros k [->|Hk]%elem_of_cons; auto.
Qed.

Lemma canonical_keys_elem (l : gmap string string) k :
  k ∈ sort_strings (map_to_list l).*1 ↔ is_Some (l !! k).
Proof.
  unfold sort_strings. rewrite elem_of_sort_slice, list_elem_of_fmap. split.
  - intros ([k' v] & -> & ?%elem_of_map_to_list). by eexists.
  - intros [v Hv]. exists (k, v). by rewrite elem_of_map_to_list.
Qed.

Lemma CanonicalLabels_empty_iff l : CanonicalLabels l = "" ↔ l = ∅.
Proof.
  unfold CanonicalLabels. rewrite <- map_size_empty_iff. split; [|intros; by rewrite decide_True].
  case_decide as Hs; [done|]. intros E. exfalso.
  destruct (map_choose l) as (k & v & Hk); [by rewrite <- map_size_empty_iff|].
  change "" with (write_labels l 0 []) in E. apply write_labels_inj in E as [E _].
  assert (k ∈ sort_strings (map_to_list l).*1) as H by (by apply canonical_keys_elem).
  rewrite E in H. by apply elem_of_nil in H.
Qed.

(** two label sets have the same canonical string only if they are the same
    set, so no two series or alert episodes that differ in a label share a key;
    whatever bytes the keys and values hold, separators and escape bytes included. *)
Theorem canonical_labels_injective (l1 l2 : gmap string string) :
  CanonicalLabels l1 = CanonicalLabels l2 → l1 = l2.
Proof.
  destruct (decide (l1 = ∅)) as [->|H1].
  { rewrite (proj2 (CanonicalLabels_empty_iff ∅) eq_refl). intros E. symmetry.
    by apply CanonicalLabels_empty_iff. }
  destruct (decide (l2 = ∅)) as [->|H2].
  { rewrite (proj2 (CanonicalLabels_empty_iff ∅) eq_refl). apply CanonicalLabels_empty_iff. }
  unfold CanonicalLabels. rewrite !decide_False by (by rewrite map_size_empty_iff).
  intros [Ek Hv]%write_labels_inj. apply map_eq. intros k.
  pose proof (canonical_keys_elem l1 k) as I1. pose proof (canonical_keys_elem l2 k) as I2.
  rewrite <- Ek in I2. destruct (l1 !! k) as [v1|] eqn:E1, (l2 !! k) as [v2|] eqn:E2.
  - specialize (Hv k). rewrite E1, E2 in Hv. f_equal. apply Hv. by apply I1.
  - destruct (proj1 I2) as [? [=]]. by apply I1.
  - destruct (proj1 I1) as [? [=]]. by apply I2.
  - done.
Qed.

Definition tricky_labels : gmap string string :=
  {[ String "=" "k" := String US "v"; "b" := String ESC "1" ]}.

Lemma canonical_labels_injective_witness :
  tricky_labels = list_to_map [("b", String ESC "1"); (String "=" "k", String US "v")].
Proof. apply canonical_labels_injective. vm_compute. reflexivity. Defined.

(** [UnescapeLabel] takes back the key and the value that [CanonicalLabels]
    wrote, for every key and value. *)
Theorem unescape_label_roundtrip k v :
  UnescapeLabel (labelKeyEscaper k) = k ∧ UnescapeLabel (labelValueEscaper v) = v.
Proof. split; [apply UnescapeLabel_key|apply UnescapeLabel_value]. Qed.
