(* ===== verification/Delta.v ===== *)
(** * From cumulative counters to rates (internal/delta/engine.go)

    [observe] is the rule table of the engine over a map of baselines; [Engine]
    applies it to the shared map and [Batch] to a staged overlay that [Commit]
    folds back. A baseline holds a pointer to its stats-reset time: [Commit]
    compares baselines with Go's [==], which compares those pointers, so a
    pointer is modelled with its address and [copyStatsReset] allocates the next
    one. *)
From S2P Require Import Prelude GoTime GoFloat Pgtype.

(** A [*time.Time]: where it points and what it points to. *)
Record time_ptr := mkPtr { addr : Z; pointee : Time }.

Record Observation := mkObservation {
  o_Key : SeriesKey;
  o_TS : Time;
  o_Value : float64;
  o_StatsReset : option Time;
}.

Record Point := mkPoint {
  p_Key : SeriesKey;
  p_TS : Time;
  p_Rate : float64;
  p_Seconds : float64;
}.

Inductive ResetReason := ResetStatsChanged | ResetCounterWentBackwards.

Record ResetEvent := mkResetEvent {
  r_Key : SeriesKey;
  r_TS : Time;
  r_Reason : ResetReason;
}.

Record state := mkState {
  ts : Time;
  value : float64;
  statsReset : option time_ptr;
}.

Abbreviation baselines := (gmap SeriesKey state).

Record Engine := mkEngine {
  prev : baselines;
  maxGap : Duration;
  heap : Z; (* the next free address *)
}.

Definition New (optMaxGap : Duration) : Engine :=
  mkEngine ∅ (if optMaxGap =? 0 then 10 * Minute else optMaxGap) 0.

(** [copyStatsReset]: a fresh pointer to the same instant, or nil. *)
Definition copyStatsReset (heap : Z) (t : option Time) : option time_ptr * Z :=
  match t with
  | None => (None, heap)
  | Some t => (Some (mkPtr heap t), heap + 1)
  end.

(** The state an observation becomes when a rule makes it the baseline. *)
Definition rebase (b : baselines) (heap : Z) (o : Observation) : baselines * Z :=
  let '(cp, heap') := copyStatsReset heap o.(o_StatsReset) in
  (<[o.(o_Key) := mkState o.(o_TS) o.(o_Value) cp]> b, heap').

Definition stats_reset_changed (o : Observation) (p : state) : bool :=
  match o.(o_StatsReset), p.(statsReset) with
  | Some t, Some q => negb (Equal t q.(pointee))
  | _, _ => false
  end.

Definition observe (b : baselines) (maxGap : Duration) (heap : Z) (o : Observation) :
    option Point * option ResetEvent * (baselines * Z) :=
  match b !! o.(o_Key) with
  | None => (None, None, rebase b heap o)
  | Some p =>
      if negb (After o.(o_TS) p.(ts)) then
        if maxGap <? Sub p.(ts) o.(o_TS) then (None, None, rebase b heap o)
        else (None, None, (b, heap))
      else if stats_reset_changed o p then
        (None, Some (mkResetEvent o.(o_Key) o.(o_TS) ResetStatsChanged), rebase b heap o)
      else if flt o.(o_Value) p.(value) then
        (None, Some (mkResetEvent o.(o_Key) o.(o_TS) ResetCounterWentBackwards), rebase b heap o)
      else if maxGap <? Sub o.(o_TS) p.(ts) then (None, None, rebase b heap o)
      else
        let dt := Seconds (Sub o.(o_TS) p.(ts)) in
        let rate := fdiv (fsub o.(o_Value) p.(value)) dt in
        (Some (mkPoint o.(o_Key) o.(o_TS) rate dt), None, rebase b heap o)
  end.

Definition Observe (e : Engine) (o : Observation) : option Point * option ResetEvent * Engine :=
  let '(pt, rs, (b, h)) := observe e.(prev) e.(maxGap) e.(heap) o in
  (pt, rs, mkEngine b e.(maxGap) h).

(** ** Batches *)

(** [readBaseline]: [None] is [ok = false]. *)
Record Batch := mkBatch {
  staged : baselines;
  read : gmap SeriesKey (option state);
}.

Definition Begin : Batch := mkBatch ∅ ∅.

Definition read_through (e : Engine) (bt : Batch) (k : SeriesKey) : Batch :=
  match bt.(read) !! k with
  | Some _ => bt
  | None =>
      let s := e.(prev) !! k in
      mkBatch (match s with Some s => <[k := s]> bt.(staged) | None => bt.(staged) end)
        (<[k := s]> bt.(read))
  end.

(** [Batch.Observe] moves only the batch, and the allocator. *)
Definition batch_Observe (e : Engine) (bt : Batch) (o : Observation) :
    option Point * option ResetEvent * (Engine * Batch) :=
  let bt := read_through e bt o.(o_Key) in
  let '(pt, rs, (b, h)) := observe bt.(staged) e.(maxGap) e.(heap) o in
  (pt, rs, (mkEngine e.(prev) e.(maxGap) h, mkBatch b bt.(read))).

(** Go's [==] on [state]: float equality on the value, address equality on the
    pointer. *)
Definition state_eqb (a b : state) : bool :=
  Equal a.(ts) b.(ts) && feq a.(value) b.(value) &&
  bool_decide (addr <$> a.(statsReset) = addr <$> b.(statsReset)).

(** The decision of [Commit] for one staged key. *)
Definition commit_entry (bt : Batch) (k : SeriesKey) (s : state) (cur : option state) : option state :=
  match cur with
  | Some c =>
      if negb (After s.(ts) c.(ts)) then
        match default None (bt.(read) !! k) with
        | Some r => if state_eqb r c then Some s else cur
        | None => cur
        end
      else Some s
  | None => Some s
  end.

Definition Commit (e : Engine) (bt : Batch) : Engine :=
  mkEngine (range_alter (commit_entry bt) e.(prev) bt.(staged)) e.(maxGap) e.(heap).

Definition Evict (e : Engine) (before : Time) : nat * Engine :=
  (size (filter (λ ks, Before ks.2.(ts) before = true) e.(prev)),
   mkEngine (filter (λ ks, ¬ Before ks.2.(ts) before = true) e.(prev)) e.(maxGap) e.(heap)).

(** A whole envelope, observed directly or through a batch. *)
Fixpoint Observe_all (e : Engine) (os : list Observation) :
    list (option Point * option ResetEvent) * Engine :=
  match os with
  | [] => ([], e)
  | o :: os =>
      let '(pt, rs, e) := Observe e o in
      let '(out, e) := Observe_all e os in ((pt, rs) :: out, e)
  end.

Fixpoint batch_Observe_all (e : Engine) (bt : Batch) (os : list Observation) :
    list (option Point * option ResetEvent) * (Engine * Batch) :=
  match os with
  | [] => ([], (e, bt))
  | o :: os =>
      let '(pt, rs, (e, bt)) := batch_Observe e bt o in
      let '(out, r) := batch_Observe_all e bt os in ((pt, rs) :: out, r)
  end.

(** ** The rule table reads and writes one key *)

(** The rules as a function of the baseline of the observed key alone: the outputs
    and the new baseline, [None] when it stays. *)
Definition observe1 (p : option state) (maxGap : Duration) (heap : Z) (o : Observation) :
    option Point * option ResetEvent * (option state * Z) :=
  let '(cp, heap') := copyStatsReset heap o.(o_StatsReset) in
  let s := mkState o.(o_TS) o.(o_Value) cp in
  match p with
  | None => (None, None, (Some s, heap'))
  | Some p =>
      if negb (After o.(o_TS) p.(ts)) then
        if maxGap <? Sub p.(ts) o.(o_TS) then (None, None, (Some s, heap'))
        else (None, None, (None, heap))
      else if stats_reset_changed o p then
        (None, Some (mkResetEvent o.(o_Key) o.(o_TS) ResetStatsChanged), (Some s, heap'))
      else if flt o.(o_Value) p.(value) then
        (None, Some (mkResetEvent o.(o_Key) o.(o_TS) ResetCounterWentBackwards), (Some s, heap'))
      else if maxGap <? Sub o.(o_TS) p.(ts) then (None, None, (Some s, heap'))
      else
        let dt := Seconds (Sub o.(o_TS) p.(ts)) in
        (Some (mkPoint o.(o_Key) o.(o_TS) (fdiv (fsub o.(o_Value) p.(value)) dt) dt), None, (Some s, heap'))
  end.

Definition put (k : SeriesKey) (u : option state) (b : baselines) : baselines :=
  match u with Some s => <[k := s]> b | None => b end.

Lemma lookup_put k u b : put k u b !! k = match u with Some s => Some s | None => b !! k end.
Proof. destruct u; cbn; [apply lookup_insert_eq|done]. Qed.

Lemma lookup_put_ne k k' u b : k ≠ k' → put k u b !! k' = b !! k'.
Proof. intros. destruct u; cbn; [by apply lookup_insert_ne|done]. Qed.

Lemma observe_factor b g h o :
  observe b g h o =
    let '(pt, rs, (u, h')) := observe1 (b !! o.(o_Key)) g h o in
    (pt, rs, (put o.(o_Key) u b, h')).
Proof.
  unfold observe, observe1, rebase. destruct (copyStatsReset h (o_StatsReset o)) as [cp h'].
  destruct (b !! o_Key o); [|done]. by split_ifs.
Qed.

(** what one observation does. It becomes the baseline of its series in every
    case but one: a duplicate or a sample at most [maxGap] late leaves the baseline
    and yields nothing. A reset is reported exactly for a later sample whose stats
    reset changed or whose value fell; a rate exactly for a later sample with
    neither, at most [maxGap] after the baseline; never both. *)
Theorem observe_rules b g h o :
  let '(pt, rs, (b', _)) := observe b g h o in
  (b' = (rebase b h o).1 ∨
   b' = b ∧ ∃ p, b !! o.(o_Key) = Some p ∧ o.(o_TS) ≤ p.(ts) ∧ Sub p.(ts) o.(o_TS) ≤ g ∧ pt = None ∧ rs = None) ∧
  (is_Some rs ↔ ∃ p, b !! o.(o_Key) = Some p ∧ p.(ts) < o.(o_TS) ∧
     (stats_reset_changed o p = true ∨ flt o.(o_Value) p.(value) = true)) ∧
  (is_Some pt ↔ ∃ p, b !! o.(o_Key) = Some p ∧ p.(ts) < o.(o_TS) ∧ Sub o.(o_TS) p.(ts) ≤ g ∧
     stats_reset_changed o p = false ∧ flt o.(o_Value) p.(value) = false) ∧
  (is_Some pt → rs = None).
Proof.
  unfold observe. destruct (b !! o_Key o) as [p|] eqn:Hp.
  2: { destruct (rebase b h o). split_and!; [by left|naive_solver..]. }
  unfold After.
  destruct (ts p <? o_TS o) eqn:Et; cbn [negb]; zbool.
  2: { destruct (g <? Sub (ts p) (o_TS o)) eqn:Eg; zbool.
       - destruct (rebase b h o). split_and!; [by left| | |done];
           (split; [by intros []|intros (? & [= <-] & ? & _); lia]).
       - split_and!; [right; naive_solver| | |done];
           (split; [by intros []|intros (? & [= <-] & ? & _); lia]). }
  destruct (stats_reset_changed o p) eqn:Er; [|destruct (flt (o_Value o) (value p)) eqn:Ef;
    [|destruct (g <? Sub (o_TS o) (ts p)) eqn:Eg; zbool]];
    destruct (rebase b h o); (split; [by left|]).
  - split_and!; [naive_solver| |by intros []]. split; [by intros []|]. intros (? & [= <-] & ?). intuition congruence.
  - split_and!; [naive_solver| |by intros []]. split; [by intros []|]. intros (? & [= <-] & ?). intuition congruence.
  - split_and!; [| |by intros []]; (split; [by intros []|]); intros (? & [= <-] & ?); intuition (congruence || lia).
  - split_and!; [|naive_solver|done]. split; [by intros []|]. intros (? & [= <-] & ?). intuition congruence.
Qed.

(** a rate is never negative and is measured over a non-negative time: a
    counter that fell yields a reset instead. Holds for every IEEE value of the
    counters, infinities and NaN included. *)
Theorem observe_rate_not_negative b g h o pt rs r :
  valid_float o.(o_Value) →
  map_Forall (λ _ s, valid_float s.(value)) b →
  observe b g h o = (Some pt, rs, r) →
  flt pt.(p_Rate) fzero = false ∧ flt pt.(p_Seconds) fzero = false.
Proof.
  intros Vo Vb. unfold observe. destruct (b !! o_Key o) as [p|] eqn:Hp; [|done].
  destruct (negb _) eqn:Et; [by destruct (_ <? _)|]. zbool. unfold After in Et. zbool.
  destruct (stats_reset_changed o p); [done|].
  destruct (flt (o_Value o) (value p)) eqn:Ef; [done|].
  destruct (_ <? _); [done|]. intros [= <- _ _]. cbn.
  assert (fsign (Seconds (Sub (o_TS o) (ts p))) = false) as Hs.
  { apply Seconds_sign. unfold Sub, min_int64, max_int64. lia. }
  split; apply not_negative_flt; [|by apply sign_not_negative].
  apply fdiv_not_negative; [|done]. apply fsub_not_negative; [done| |done].
  by apply (Vb (o_Key o)).
Qed.

Definition sample_key : SeriesKey := mkSeriesKey "pg_stat_database_xact_commit" 7 "app" "".
Definition sample_at (t : Time) (v : Z) : Observation := mkObservation sample_key t (float_of_int v) None.

Definition sample_baseline : baselines := {[ sample_key := mkState Second (float_of_int 10) None ]}.

Definition sample_rate : option Point :=
  (observe sample_baseline (10 * Minute) 0 (sample_at (3 * Second) 14)).1.1.

(** Four commits in two seconds: a rate of 2 per second. *)
Lemma observe_rate_not_negative_witness :
  ∃ pt, sample_rate = Some pt ∧ pt.(p_Rate) = float_of_int 2 ∧ flt pt.(p_Rate) fzero = false.
Proof.
  eexists. split; [vm_compute; reflexivity|]. split; [vm_compute; reflexivity|].
  eapply (observe_rate_not_negative sample_baseline (10 * Minute) 0 (sample_at (3 * Second) 14) _
    (observe sample_baseline (10 * Minute) 0 (sample_at (3 * Second) 14)).1.2
    (observe sample_baseline (10 * Minute) 0 (sample_at (3 * Second) 14)).2).
  - reflexivity.
  - apply map_Forall_singleton. reflexivity.
  - rewrite (surjective_pairing (observe _ _ _ _)) at 1. f_equal.
Defined.

(** ** A batch is an engine seen through an overlay *)

Record batch_rel (direct e : Engine) (bt : Batch) : Prop := {
  rel_gap : direct.(maxGap) = e.(maxGap);
  rel_heap : direct.(heap) = e.(heap);
  rel_lookup k : direct.(prev) !! k =
    match bt.(read) !! k with Some _ => bt.(staged) !! k | None => e.(prev) !! k end;
  rel_read k r : bt.(read) !! k = Some r → r = e.(prev) !! k;
  rel_staged k s : bt.(staged) !! k = Some s → is_Some (bt.(read) !! k);
  rel_kept k s : bt.(read) !! k = Some (Some s) → is_Some (bt.(staged) !! k);
}.

Lemma batch_rel_begin e : batch_rel e e Begin.
Proof. split; try done; intros k; cbn; by rewrite lookup_empty. Qed.

Lemma batch_rel_read d e bt k :
  batch_rel d e bt →
  batch_rel d e (read_through e bt k) ∧ is_Some ((read_through e bt k).(read) !! k).
Proof.
  intros [Hg Hh Hl Hr Hs Hk]. unfold read_through.
  destruct (bt.(read) !! k) as [r|] eqn:E; [split; [by split|by eexists]|].
  assert (bt.(staged) !! k = None) as Es.
  { destruct (bt.(staged) !! k) eqn:F; [|done]. apply Hs in F as [? F]. congruence. }
  split; [|cbn; rewrite lookup_insert_eq; by eexists].
  split; cbn [staged read]; try done.
  - intros j. rewrite Hl. destruct (decide (k = j)) as [<-|Hne].
    + rewrite lookup_insert_eq, E. destruct (e.(prev) !! k); [by rewrite lookup_insert_eq|done].
    + rewrite lookup_insert_ne by done. destruct (e.(prev) !! k); [|done]. by rewrite lookup_insert_ne.
  - intros j r. destruct (decide (k = j)) as [<-|Hne].
    + rewrite lookup_insert_eq. by intros [= <-].
    + rewrite lookup_insert_ne by done. apply Hr.
  - intros j s Hj. destruct (decide (k = j)) as [<-|Hne]; [rewrite lookup_insert_eq; by eexists|].
    rewrite lookup_insert_ne by done. apply (Hs j s).
    destruct (e.(prev) !! k); [by rewrite lookup_insert_ne in Hj|done].
  - intros j s Hj. destruct (decide (k = j)) as [<-|Hne].
    + rewrite lookup_insert_eq in Hj. injection Hj as ->. rewrite lookup_insert_eq. by eexists.
    + rewrite lookup_insert_ne in Hj by done. destruct (e.(prev) !! k); [rewrite lookup_insert_ne by done|];
        by apply (Hk j s).
Qed.

Lemma batch_rel_put d e bt k u h :
  batch_rel d e bt → is_Some (bt.(read) !! k) →
  batch_rel (mkEngine (put k u d.(prev)) d.(maxGap) h) (mkEngine e.(prev) e.(maxGap) h)
    (mkBatch (put k u bt.(staged)) bt.(read)).
Proof.
  intros [Hg Hh Hl Hr Hs Hk] [r Hrk]. split; cbn; try done.
  - intros j. destruct (decide (k = j)) as [<-|Hne].
    + by rewrite Hrk, !lookup_put, Hl, Hrk.
    + rewrite !lookup_put_ne by done. apply Hl.
  - intros j s Hj. destruct (decide (k = j)) as [<-|Hne]; [by eexists|].
    rewrite lookup_put_ne in Hj by done. by apply (Hs j s).
  - intros j s Hj. destruct (decide (k = j)) as [<-|Hne].
    + rewrite lookup_put. destruct u; [by eexists|]. by apply (Hk k s).
    + rewrite lookup_put_ne by done. by apply (Hk j s).
Qed.

Lemma batch_Observe_rel d e bt o :
  batch_rel d e bt →
  ∃ pt rs d' e' bt', Observe d o = (pt, rs, d') ∧ batch_Observe e bt o = (pt, rs, (e', bt')) ∧
    batch_rel d' e' bt' ∧ e'.(prev) = e.(prev).
Proof.
  intros H. destruct (batch_rel_read d e bt (o_Key o) H) as [H' [r Hr]].
  unfold Observe, batch_Observe. rewrite !observe_factor.
  assert (d.(prev) !! o_Key o = (read_through e bt (o_Key o)).(staged) !! o_Key o) as ->.
  { by rewrite (rel_lookup _ _ _ H'), Hr. }
  rewrite (rel_gap _ _ _ H), (rel_heap _ _ _ H).
  destruct (observe1 _ _ _ o) as [[pt rs] [u h]]. do 5 eexists. split_and!; [done..| |done].
  rewrite <- (rel_gap _ _ _ H) at 1. apply batch_rel_put; [done|by eexists].
Qed.

Lemma batch_Observe_all_rel os : ∀ d e bt,
  batch_rel d e bt →
  ∃ out d' e' bt', Observe_all d os = (out, d') ∧ batch_Observe_all e bt os = (out, (e', bt')) ∧
    batch_rel d' e' bt' ∧ e'.(prev) = e.(prev).
Proof.
  induction os as [|o os IH]; intros d e bt H; cbn.
  { by do 4 eexists. }
  destruct (batch_Observe_rel d e bt o H) as (pt & rs & d1 & e1 & bt1 & -> & -> & H1 & E1).
  destruct (IH d1 e1 bt1 H1) as (out & d2 & e2 & bt2 & -> & -> & H2 & E2).
  do 4 eexists. split_and!; [done..|]. congruence.
Qed.

Lemma state_eqb_refl s : is_nan s.(value) = false → state_eqb s s = true.
Proof.
  intros. unfold state_eqb. rewrite feq_refl, bool_decide_true by done.
  unfold Equal. by rewrite Z.eqb_refl.
Qed.

Lemma Commit_rel d e bt :
  batch_rel d e bt → map_Forall (λ _ s, is_nan s.(value) = false) e.(prev) → Commit e bt = d.
Proof.
  intros H Hnan. destruct H as [Hg Hh Hl Hr Hs Hk], d as [dp dg dh]. cbn in *. subst.
  unfold Commit. f_equal. apply map_eq. intros k. rewrite lookup_range_alter, Hl.
  destruct (bt.(staged) !! k) as [s|] eqn:Es; [|destruct (bt.(read) !! k) as [r|] eqn:Er].
  - destruct (Hs k s Es) as [r Er]. rewrite Er. unfold commit_entry. rewrite Er. cbn.
    rewrite (Hr k r Er). destruct (e.(prev) !! k) as [c|] eqn:Ec; [|done].
    rewrite state_eqb_refl by (by apply (Hnan k)). by destruct (negb _).
  - rewrite <- (Hr k r Er). destruct r as [c|]; [|done]. destruct (Hk k c Er) as [? ?]. congruence.
  - done.
Qed.

(** C23: observing an envelope through a batch and committing it, with nothing in
    between, is observing it directly: the same points and resets in the same
    order, and the same engine afterwards. The stored counters must be numbers:
    a NaN baseline differs from itself, and [Commit] would keep it. *)
Theorem batch_commit_refines e os :
  map_Forall (λ _ s, is_nan s.(value) = false) e.(prev) →
  let '(out, (e', bt)) := batch_Observe_all e Begin os in
  Observe_all e os = (out, Commit e' bt) ∧ e'.(prev) = e.(prev).
Proof.
  intros Hnan.
  destruct (batch_Observe_all_rel os e e Begin (batch_rel_begin e)) as (out & d & e' & bt & -> & -> & H & E).
  split; [|done]. f_equal. symmetry. apply Commit_rel; [done|]. by rewrite E.
Qed.

Definition sample_engine : Engine := mkEngine sample_baseline (10 * Minute) 0.
Definition sample_envelope : list Observation :=
  [sample_at (3 * Second) 14; sample_at (5 * Second) 2; sample_at (5 * Second) 2].

Lemma sample_baseline_numbers : map_Forall (λ _ s, is_nan s.(value) = false) sample_baseline.
Proof. apply map_Forall_singleton. reflexivity. Qed.

(** A rate, then a reset, then a duplicate that yields nothing. *)
Lemma batch_commit_refines_witness :
  ∃ e' bt, Observe_all sample_engine sample_envelope =
    ((batch_Observe_all sample_engine Begin sample_envelope).1, Commit e' bt) ∧
    ((λ r : option Point * option ResetEvent, (bool_decide (is_Some r.1), r_Reason <$> r.2)) <$>
      (batch_Observe_all sample_engine Begin sample_envelope).1) =
      [(true, None); (false, Some ResetCounterWentBackwards); (false, None)].
Proof.
  pose proof (batch_commit_refines sample_engine sample_envelope sample_baseline_numbers) as H.
  destruct (batch_Observe_all sample_engine Begin sample_envelope) as [out [e' bt]] eqn:E.
  destruct H as [H _]. exists e', bt. split; [exact H|].
  change out with (out, (e', bt)).1. rewrite <- E. vm_compute. reflexivity.
Defined.

(** committing a batch never drops a baseline, and never moves one back in time
    unless the engine still holds exactly the baseline the batch read: then the move
    is the batch's own rebasing after a clock step. *)
Theorem commit_never_steps_back e bt k c :
  e.(prev) !! k = Some c →
  ∃ c', (Commit e bt).(prev) !! k = Some c' ∧
    (c' = c ∨ bt.(staged) !! k = Some c') ∧
    (c.(ts) ≤ c'.(ts) ∨ ∃ r, bt.(read) !! k = Some (Some r) ∧ state_eqb r c = true).
Proof.
  intros Hc. cbn. rewrite lookup_range_alter, Hc.
  destruct (bt.(staged) !! k) as [s|]; [|exists c; split_and!; [done|by left|left; lia]].
  unfold commit_entry, After. destruct (c.(ts) <? s.(ts)) eqn:E; cbn; zbool.
  { exists s. split_and!; [done|by right|left; lia]. }
  destruct (bt.(read) !! k) as [[r|]|]; cbn;
    [destruct (state_eqb r c) eqn:Er| |];
    [exists s|exists c..]; split_and!; try done; try (by left); try (by right); try (left; lia).
  right. by exists r.
Qed.

Definition stepped_batch : Batch :=
  (batch_Observe_all sample_engine Begin [sample_at (-1000 * Second) 3]).2.2.

(** A clock step: the baseline moves back because the engine still holds it. *)
Lemma commit_never_steps_back_witness :
  ∃ c', (Commit sample_engine stepped_batch).(prev) !! sample_key = Some c' ∧ c'.(ts) = -1000 * Second.
Proof.
  destruct (commit_never_steps_back sample_engine stepped_batch sample_key (mkState Second (float_of_int 10) None))
    as (c' & H & _ & _); [reflexivity|].
  exists c'. split; [exact H|]. vm_compute in H. injection H as <-. reflexivity.
Defined.

(** ** Attempts of one envelope that overlap *)

(** Baselines that differ at most in where their stats-reset time is stored. *)
#[export] Instance state_equiv : Equiv state := λ a b,
  a.(ts) = b.(ts) ∧ a.(value) = b.(value) ∧ pointee <$> a.(statsReset) = pointee <$> b.(statsReset).

#[export] Instance state_equivalence : Equivalence (≡@{state}).
Proof.
  split; unfold equiv, state_equiv.
  - done.
  - intros ?? (? & ? & ?). done.
  - intros ??? (? & ? & ?) (? & ? & ?). split_and!; congruence.
Qed.

Lemma stats_reset_changed_equiv o p q : p ≡ q → stats_reset_changed o p = stats_reset_changed o q.
Proof.
  intros (_ & _ & H). unfold stats_reset_changed.
  destruct (o_StatsReset o); [|done]. destruct p.(statsReset), q.(statsReset); simplify_eq/=; congruence.
Qed.

Lemma observe1_equiv p q g h h' o :
  p ≡ q →
  (observe1 p g h o).1 = (observe1 q g h' o).1 ∧ (observe1 p g h o).2.1 ≡ (observe1 q g h' o).2.1.
Proof.
  intros H. unfold observe1, copyStatsReset.
  assert (∀ a b, Some (mkState (o_TS o) (o_Value o) (match o_StatsReset o with Some t => Some (mkPtr a t) | None => None end))
    ≡ Some (mkState (o_TS o) (o_Value o) (match o_StatsReset o with Some t => Some (mkPtr b t) | None => None end))) as Hs.
  { intros a b. constructor. split_and!; cbn; [done..|]. by destruct (o_StatsReset o). }
  destruct H as [p q H|].
  2: { destruct (o_StatsReset o); split; cbn; [done|apply Hs|done|done]. }
  rewrite (stats_reset_changed_equiv o p q H). destruct H as (-> & -> & _).
  specialize (Hs h h'). destruct (o_StatsReset o); split_ifs; done.
Qed.

Lemma put_equiv k u v (b1 b2 : baselines) : u ≡ v → b1 ≡ b2 → put k u b1 ≡ put k v b2.
Proof. intros [??H|] Hb; cbn; [by apply insert_proper|done]. Qed.

Lemma Observe_all_equiv os : ∀ d1 d2,
  d1.(prev) ≡ d2.(prev) → d1.(maxGap) = d2.(maxGap) →
  (Observe_all d1 os).1 = (Observe_all d2 os).1 ∧ (Observe_all d1 os).2.(prev) ≡ (Observe_all d2 os).2.(prev).
Proof.
  induction os as [|o os IH]; intros d1 d2 Hp Hg; cbn; [done|].
  unfold Observe. rewrite !observe_factor, Hg.
  destruct (observe1_equiv (d1.(prev) !! o_Key o) (d2.(prev) !! o_Key o) d2.(maxGap) d1.(heap) d2.(heap) o (Hp _))
    as [E1 E2].
  destruct (observe1 (d1.(prev) !! _) _ _ o) as [[pt rs] [u h]], (observe1 (d2.(prev) !! _) _ _ o) as [[pt2 rs2] [u2 h2]].
  cbn in E1, E2. simplify_eq.
  destruct (IH (mkEngine (put (o_Key o) u d1.(prev)) d2.(maxGap) h) (mkEngine (put (o_Key o) u2 d2.(prev)) d2.(maxGap) h2))
    as [E3 E4]; [by apply put_equiv|done|].
  destruct (Observe_all _ os), (Observe_all (mkEngine (put _ u2 _) _ _) os). cbn in *. by subst.
Qed.

(** when a client gives up on a slow push and sends the envelope again, both
    attempts read the same baselines and report the same points and resets, and the
    second commit changes no baseline but the storage of its stats-reset time. *)
Theorem overlapping_attempts_agree e os :
  map_Forall (λ _ s, is_nan s.(value) = false) e.(prev) →
  let '(outA, (eA, btA)) := batch_Observe_all e Begin os in
  let '(outB, (eB, btB)) := batch_Observe_all eA Begin os in
  outA = outB ∧ (Commit (Commit eB btA) btB).(prev) ≡ (Commit eB btA).(prev).
Proof.
  intros Hnan.
  destruct (batch_Observe_all_rel os e e Begin (batch_rel_begin e)) as (outA & dA & eA & btA & EA & -> & RA & PA).
  destruct (batch_Observe_all_rel os eA eA Begin (batch_rel_begin eA)) as (outB & dB & eB & btB & EB & -> & RB & PB).
  assert (e.(maxGap) = eA.(maxGap)) as Hg.
  { rewrite <- (rel_gap _ _ _ RA). clear -EA. revert e outA EA.
    induction os as [|o os IH]; intros e outA; cbn; [by intros [= _ <-]|].
    unfold Observe. destruct (observe _ _ _ o) as [[pt rs] [b h]].
    destruct (Observe_all _ os) as [out d] eqn:E. intros [= <- <-]. by apply IH in E. }
  destruct (Observe_all_equiv os e eA) as [Eout Ed]; [by rewrite PA|done|].
  rewrite EA, EB in Eout, Ed. cbn in Eout, Ed. split; [done|].
  assert ((Commit eB btA).(prev) = dA.(prev)) as HA.
  { rewrite <- (Commit_rel _ _ _ RA) by (by rewrite PA). cbn. by rewrite PB. }
  intros k. cbn [Commit prev]. rewrite lookup_range_alter.
  change (range_alter (commit_entry btA) (prev eB) (staged btA)) with (Commit eB btA).(prev). rewrite HA.
  destruct (btB.(staged) !! k) as [s|] eqn:Es; [|done].
  destruct (rel_staged _ _ _ RB k s Es) as [r Er].
  assert (dB.(prev) !! k = Some s) as HB by (by rewrite (rel_lookup _ _ _ RB), Er).
  specialize (Ed k). rewrite HB in Ed. unfold commit_entry.
  destruct (dA.(prev) !! k) as [c|]; [|inversion Ed].
  assert (Some s ≡ Some c) by done.
  split_ifs; [|done]. by repeat case_match.
Qed.

Lemma overlapping_attempts_agree_witness :
  (batch_Observe_all sample_engine Begin sample_envelope).1 =
  (batch_Observe_all (batch_Observe_all sample_engine Begin sample_envelope).2.1 Begin sample_envelope).1.
Proof.
  pose proof (overlapping_attempts_agree sample_engine sample_envelope sample_baseline_numbers) as H.
  destruct (batch_Observe_all sample_engine Begin sample_envelope) as [outA [eA btA]].
  cbn [fst snd]. destruct (batch_Observe_all eA Begin sample_envelope) as [outB [eB btB]].
  exact (proj1 H).
Defined.

(** ** Batches of different instances committed one after the other *)

(** Two engines agree on a series. *)
Definition agree (k : SeriesKey) (e e' : Engine) : Prop := e.(prev) !! k ≡ e'.(prev) !! k ∧ e.(maxGap) = e'.(maxGap).

Lemma Observe_other k e o : o.(o_Key) ≠ k → (Observe e o).2.(prev) !! k = e.(prev) !! k ∧ (Observe e o).2.(maxGap) = e.(maxGap).
Proof.
  intros Hk. unfold Observe. rewrite observe_factor. destruct (observe1 _ _ _ _) as [[pt rs] [u h]]. cbn. split; [by apply lookup_put_ne|done].
Qed.

Lemma Observe_agree k e e' o : o.(o_Key) = k → agree k e e' → agree k (Observe e o).2 (Observe e' o).2.
Proof.
  intros <- [Hp Hg]. unfold Observe. rewrite !observe_factor, Hg.
  destruct (observe1_equiv (e.(prev) !! o_Key o) (e'.(prev) !! o_Key o) e'.(maxGap) e.(heap) e'.(heap) o Hp) as [_ E].
  destruct (observe1 (e.(prev) !! _) _ _ o) as [[pt rs] [u h]], (observe1 (e'.(prev) !! _) _ _ o) as [[pt' rs'] [u' h']]. cbn in *.
  split; [|done]. cbn. rewrite !lookup_put. destruct E as [? ? E|]; [by constructor|done].
Qed.

Lemma Observe_all_snd e o os : (Observe_all e (o :: os)).2 = (Observe_all (Observe e o).2 os).2.
Proof. cbn. destruct (Observe e o) as [[pt rs] e1]. cbn. by destruct (Observe_all e1 os). Qed.

(** A series depends on its own observations alone. *)
Lemma Observe_all_key k os : ∀ e e', agree k e e' → agree k (Observe_all e os).2 (Observe_all e' (filter (λ o, o.(o_Key) = k) os)).2.
Proof.
  induction os as [|o os IH]; intros e e' Ha; [done|]. rewrite filter_cons, Observe_all_snd. case_decide as Hk.
  - rewrite Observe_all_snd. by apply IH, Observe_agree.
  - apply IH. destruct Ha as [Hp Hg]. destruct (Observe_other k e o Hk) as [E1 E2]. split; [by rewrite E1|by rewrite E2].
Qed.

Lemma batch_staged k os : ∀ e bt s, (batch_Observe_all e bt os).2.2.(staged) !! k = Some s →
  is_Some (bt.(staged) !! k) ∨ k ∈ o_Key <$> os.
Proof.
  induction os as [|o os IH]; intros e bt s; [by left; eexists|]. cbn. unfold batch_Observe. rewrite observe_factor.
  destruct (observe1 _ _ _ _) as [[pt rs] [u h]].
  destruct (batch_Observe_all _ _ os) as [out [e' bt']] eqn:E. cbn. intros Hs.
  assert (s' : (batch_Observe_all (mkEngine e.(prev) e.(maxGap) h) (mkBatch (put (o_Key o) u (read_through e bt (o_Key o)).(staged))
    (read_through e bt (o_Key o)).(read)) os).2.2.(staged) !! k = Some s) by (by rewrite E).
  rewrite elem_of_cons. apply IH in s' as [[x Hx]|Hin]; [|tauto]. destruct (decide (o_Key o = k)) as [Hk|Hk]; [by right; left|left].
  cbn in Hx. rewrite lookup_put_ne in Hx by done. unfold read_through in Hx. destruct (bt.(read) !! o_Key o); [by eexists|].
  cbn in Hx. destruct (e.(prev) !! o_Key o); [rewrite lookup_insert_ne in Hx by done|]; by eexists.
Qed.

Lemma Commit_other e bt k : bt.(staged) !! k = None → (Commit e bt).(prev) !! k = e.(prev) !! k.
Proof. intros Hk. cbn. by rewrite lookup_range_alter, Hk. Qed.

Lemma Commit_key d e bt x k :
  batch_rel d e bt → x.(prev) !! k = e.(prev) !! k → (∀ s, e.(prev) !! k = Some s → is_nan s.(value) = false) →
  (Commit x bt).(prev) !! k = d.(prev) !! k.
Proof.
  intros [Hg Hh Hl Hr Hs Hk] Hx Hnan. cbn. rewrite lookup_range_alter, Hl, Hx.
  destruct (bt.(staged) !! k) as [s|] eqn:Es; [|destruct (bt.(read) !! k) as [r|] eqn:Er; [|done]].
  - destruct (Hs k s Es) as [r Er]. rewrite Er. unfold commit_entry. rewrite Er. cbn.
    rewrite (Hr k r Er). destruct (e.(prev) !! k) as [c|]; [|done]. rewrite state_eqb_refl by (by apply Hnan). by destruct (negb _).
  - rewrite <- (Hr k r Er). destruct r as [c|]; [|done]. destruct (Hk k c Er) as [? ?]. congruence.
Qed.

(** A batch over the baselines [b]. *)
Definition batch_over (b : baselines) (g : Duration) (os : list Observation) (bt : Batch) : Prop :=
  ∃ e, e.(prev) = b ∧ e.(maxGap) = g ∧ (batch_Observe_all e Begin os).2.2 = bt.

Lemma commits_other k (l : list (list Observation * Batch)) b g : ∀ e, Forall (λ x, batch_over b g x.1 x.2 ∧ k ∉ o_Key <$> x.1) l →
  (foldl Commit e l.*2).(prev) !! k = e.(prev) !! k.
Proof.
  induction l as [|[os bt] l IH]; intros e Hl; [done|]. apply Forall_cons in Hl as [[(e0 & _ & _ & Hb) Hk] Hl]. cbn in *.
  rewrite IH by done. apply Commit_other. destruct (bt.(staged) !! k) as [s|] eqn:Es; [|done]. rewrite <- Hb in Es.
  apply batch_staged in Es as [[x Hx]|?]; [|done]. cbn in Hx. by rewrite lookup_empty in Hx.
Qed.

(** Batches of different instances, all taken over the same baselines, committed one
    after the other: every series ends as if all their observations had been made
    directly. *)
Lemma commits_observe b g k (l : list (UUID * (list Observation * Batch))) : ∀ e,
  NoDup l.*1 → Forall (λ x, batch_over b g x.2.1 x.2.2 ∧ Forall (λ o, o.(o_Key).(Instance) = x.1) x.2.1) l →
  map_Forall (λ _ s, is_nan s.(value) = false) b → e.(prev) !! k = b !! k →
  (foldl Commit e l.*2.*2).(prev) !! k ≡ (Observe_all (mkEngine b g 0) (concat l.*2.*1)).2.(prev) !! k.
Proof.
  intros e Hnd Hl Hnan He.
  destruct (Observe_all_key k (concat l.*2.*1) (mkEngine b g 0) (mkEngine b g 0)) as [-> _]; [done|].
  revert e Hnd Hl He. induction l as [|[id [os bt]] l IH]; intros e Hnd Hl He; [cbn; by rewrite He|].
  apply NoDup_cons in Hnd as [Hid Hnd]. apply Forall_cons in Hl as [[Hb Hos] Hl]. cbn in *. rewrite filter_app.
  destruct (decide (k.(Instance) = id)) as [Hk|Hk].
  - assert (∀ x, x ∈ l → k ∉ o_Key <$> x.2.1) as Hothers.
    { intros x Hx Hin. apply list_elem_of_fmap in Hin as (o & -> & Ho). rewrite Forall_forall in Hl. destruct (Hl x Hx) as [_ Hox].
      rewrite Forall_forall in Hox. rewrite (Hox o Ho) in Hk. apply Hid. rewrite <- Hk. by apply list_elem_of_fmap_2. }
    assert (filter (λ o, o.(o_Key) = k) (concat l.*2.*1) = []) as ->.
    { apply filter_none. intros o Ho Hok. apply list_elem_of_concat in Ho as (os' & Ho & Hin).
      apply list_elem_of_fmap in Hin as (y & -> & Hy). apply list_elem_of_fmap in Hy as (x & -> & Hx).
      apply (Hothers x Hx). rewrite <- Hok. by apply list_elem_of_fmap_2. }
    rewrite app_nil_r, (commits_other k l.*2 b g).
    2: { apply Forall_fmap, Forall_forall. intros x Hx. cbn. split; [|by apply Hothers]. rewrite Forall_forall in Hl. by apply Hl. }
    destruct Hb as (e0 & Hp & Hg & Hb). destruct (batch_Observe_all_rel os e0 e0 Begin (batch_rel_begin e0)) as (out & d & e1 & bt1 & Hd & Hb1 & Hrel & Hp1).
    rewrite Hb1 in Hb. cbn in Hb. subst bt1. rewrite (Commit_key d e1 bt e k Hrel); [|congruence|rewrite Hp1, Hp; by apply Hnan].
    change d with (out, d).2. rewrite <- Hd. destruct (Observe_all_key k os e0 (mkEngine b g 0)) as [-> _]; [split; cbn; by rewrite ?Hp, ?Hg|]. done.
  - assert (k ∉ o_Key <$> os) as Hno.
    { intros Hin. apply list_elem_of_fmap in Hin as (o & -> & Ho). rewrite Forall_forall in Hos. by apply Hk, Hos. }
    assert (filter (λ o, o.(o_Key) = k) os = []) as ->.
    { apply filter_none. intros o Ho Hok. apply Hno. rewrite <- Hok. by apply list_elem_of_fmap_2. }
    cbn. apply IH; [done..|]. rewrite <- He. change (Commit e bt) with (foldl Commit e [(os, bt)].*2).
    apply (commits_other k [(os, bt)] b g). by apply Forall_singleton.
Qed.

(** eviction removes exactly the series last seen before the cutoff, counts
    them, and leaves every other baseline as it was. *)
Theorem evict_exact e before k :
  let '(n, e') := Evict e before in
  (size e'.(prev) + n)%nat = size e.(prev) ∧
  e'.(prev) !! k =
    match e.(prev) !! k with
    | Some s => if s.(ts) <? before then None else Some s
    | None => None
    end.
Proof.
  cbn. split.
  { rewrite Nat.add_comm. apply size_filter_complement. }
  rewrite map_lookup_filter. destruct (e.(prev) !! k) as [s|]; cbn; [|done].
  unfold Before. destruct (s.(ts) <? before); by case_guard.
Qed.
