(* ===== verification/Cardinality.v ===== *)
(** * Choosing which series to report (internal/cardinality)

    [Selector] keeps the top candidates of a cycle and, for a while, those that
    were on top before; [Budget] caps the series of one push. A Go slice
    expression that is out of range panics: [Select] returns [None] there. *)
From S2P Require Import Prelude GoFloat GoSort.

Record Candidate := mkCandidate {
  Key : string;
  Primary : float64;
  Secondary : float64;
}.

Record Options := mkOptions {
  TopN : Z;
  Hysteresis : Z;
  MaxKeys : Z;
}.

Definition defaults (o : Options) : Options :=
  let topN := if o.(TopN) =? 0 then 50 else o.(TopN) in
  let hysteresis := if o.(Hysteresis) =? 0 then 5 else o.(Hysteresis) in
  let maxKeys := if o.(MaxKeys) =? 0 then Z.max 200 (wrap64 (2 * topN)) else o.(MaxKeys) in
  mkOptions topN hysteresis maxKeys.

Record Selector := mkSelector {
  opts : Options;
  lastSeen : gmap string Z; (* uint64 cycles *)
}.

Definition NewSelector (o : Options) : Selector := mkSelector (defaults o) ∅.

(** The [less] functions of the three sorts. *)
Definition less_primary (a b : Candidate) : bool :=
  if negb (feq a.(Primary) b.(Primary)) then flt b.(Primary) a.(Primary)
  else string_lt a.(Key) b.(Key).

Definition less_secondary (a b : Candidate) : bool :=
  if negb (feq a.(Secondary) b.(Secondary)) then flt b.(Secondary) a.(Secondary)
  else string_lt a.(Key) b.(Key).

Definition sortByRank (cs : list Candidate) : list Candidate := sort_slice less_primary cs.

(** [make(map[string]Candidate)], filled in order: the last one with a key stays. *)
Definition byKey (input : list Candidate) : gmap string Candidate :=
  foldl (λ m c, <[c.(Key) := c]> m) ∅ input.

Definition zeroCandidate : Candidate := mkCandidate "" fzero fzero.
Definition at_key (m : gmap string Candidate) (k : string) : Candidate := default zeroCandidate (m !! k).

(** Step 1. *)
Definition freshSet (s : Selector) (input : list Candidate) : gset string :=
  list_to_set (Key <$> take (Z.to_nat s.(opts).(TopN)) (sort_slice less_primary input)) ∪
  list_to_set (Key <$> take (Z.to_nat s.(opts).(TopN)) (sort_slice less_secondary input)).

Definition hysteresisThreshold (s : Selector) (cycle : Z) : Z :=
  let h := uwrap64 s.(opts).(Hysteresis) in
  if h <? cycle then cycle - h else 0.

(** Step 2. *)
Definition retains (s : Selector) (cycle : Z) (fresh : gset string) (c : Candidate) : Prop :=
  c.(Key) ∉ fresh ∧
  match s.(lastSeen) !! c.(Key) with
  | Some last => hysteresisThreshold s cycle ≤ last
  | None => False
  end.

#[export] Instance retains_dec s cycle fresh c : Decision (retains s cycle fresh c).
Proof. unfold retains. destruct (_ !! _); apply _. Defined.

Definition retainedSet (s : Selector) (cycle : Z) (fresh : gset string) (input : list Candidate) : gset string :=
  list_to_set (Key <$> filter (retains s cycle fresh) input).

(** Step 3: the candidates of a set of keys, in rank order. *)
Definition ranked (m : gmap string Candidate) (keys : gset string) : list Candidate :=
  sortByRank (at_key m <$> elements keys).

(** [l[:n]]. *)
Definition slice_to {A} (l : list A) (n : Z) : option (list A) :=
  if (0 <=? n) && (n <=? Z.of_nat (length l)) then Some (take (Z.to_nat n) l) else None.

Definition Select (s : Selector) (cycle : Z) (input : list Candidate) :
    option (list Candidate * bool * Selector) :=
  match input with
  | [] => Some ([], false, s)
  | _ =>
      let m := byKey input in
      let fresh := freshSet s input in
      let freshList := ranked m fresh in
      let retainedList := ranked m (retainedSet s cycle fresh input) in
      let nf := Z.of_nat (length freshList) in
      let nr := Z.of_nat (length retainedList) in
      let cap := s.(opts).(MaxKeys) in
      let s' := mkSelector s.(opts) (gset_to_gmap cycle fresh ∪ s.(lastSeen)) in
      if cap <? nf + nr then
        if cap <? nf then
          l ← slice_to freshList cap; Some (sortByRank l, true, s')
        else
          l ← slice_to retainedList (cap - nf); Some (sortByRank (freshList ++ l), true, s')
      else Some (sortByRank (freshList ++ retainedList), false, s')
  end.

Definition Forget (s : Selector) (cycle : Z) : nat * Selector :=
  let h := uwrap64 s.(opts).(Hysteresis) in
  if h <? cycle then
    let threshold := cycle - h in
    (size (filter (λ kl, kl.2 < threshold) s.(lastSeen)),
     mkSelector s.(opts) (filter (λ kl, ¬ kl.2 < threshold) s.(lastSeen)))
  else (0%nat, s).

(** ** Budget (budget.go) *)

Definition NewBudget (max : Z) : Z := if max =? 0 then 20000 else max.

Definition Admit (max used n : Z) : Z * bool :=
  if n =? 0 then (0, false)
  else if max <=? used then (0, true)
  else
    let remaining := wrap64 (max - used) in
    if n <=? remaining then (n, false) else (remaining, true).

(** ** Facts on the sets and lists of one cycle *)

Lemma byKey_snoc l c : byKey (l ++ [c]) = <[c.(Key) := c]> (byKey l).
Proof. unfold byKey. by rewrite foldl_app. Qed.

Lemma byKey_Some l k c : byKey l !! k = Some c → c ∈ l ∧ c.(Key) = k.
Proof.
  induction l as [|x l IH] using rev_ind; [done|]. rewrite byKey_snoc, lookup_insert.
  case_decide; [intros [= <-]|intros []%IH]; set_solver.
Qed.

Lemma byKey_is_Some l c : c ∈ l → is_Some (byKey l !! c.(Key)).
Proof.
  induction l as [|x l IH] using rev_ind; [by intros ?%elem_of_nil|].
  rewrite byKey_snoc, lookup_insert, elem_of_app, list_elem_of_singleton.
  intros [H| ->]; case_decide; [by eexists|by apply IH|by eexists|done].
Qed.

Definition keys_of (l : list Candidate) : gset string := list_to_set (Key <$> l).

Lemma elem_of_keys_of k l : k ∈ keys_of l ↔ ∃ c, c ∈ l ∧ c.(Key) = k.
Proof. unfold keys_of. rewrite elem_of_list_to_set, list_elem_of_fmap. naive_solver. Qed.

Lemma at_key_elem input k : k ∈ keys_of input → at_key (byKey input) k ∈ input ∧ Key (at_key (byKey input) k) = k.
Proof.
  rewrite elem_of_keys_of. intros (c & Hc & <-). unfold at_key.
  destruct (byKey_is_Some _ _ Hc) as [d Hd]. rewrite Hd. by apply byKey_Some.
Qed.

Lemma freshSet_sub s input : freshSet s input ⊆ keys_of input.
Proof.
  intros k. unfold freshSet, keys_of.
  rewrite elem_of_union, !elem_of_list_to_set, !list_elem_of_fmap.
  intros [(c & -> & Hc%elem_of_take)|(c & -> & Hc%elem_of_take)];
    destruct Hc as (i & Hi%list_elem_of_lookup_2 & _); exists c; split; [done| |done|];
    by apply elem_of_sort_slice in Hi.
Qed.

Lemma elem_of_retainedSet s cycle fresh input k :
  k ∈ retainedSet s cycle fresh input ↔
    k ∉ fresh ∧ k ∈ keys_of input ∧ ∃ last, s.(lastSeen) !! k = Some last ∧ hysteresisThreshold s cycle ≤ last.
Proof.
  unfold retainedSet. rewrite elem_of_list_to_set, list_elem_of_fmap, elem_of_keys_of. split.
  - intros (c & -> & [[Hf Hl] Hc]%list_elem_of_filter). destruct (lastSeen s !! Key c) as [last|]; [|done]. eauto 10.
  - intros (Hf & (c & Hc & <-) & last & Hl & Hle). exists c. split; [done|].
    apply list_elem_of_filter. split; [|done]. split; [done|]. by rewrite Hl.
Qed.

Lemma retainedSet_sub s cycle fresh input : retainedSet s cycle fresh input ⊆ keys_of input.
Proof. intros k. rewrite elem_of_retainedSet. tauto. Qed.

Lemma retainedSet_disj s cycle fresh input : fresh ## retainedSet s cycle fresh input.
Proof. intros k Hf. rewrite elem_of_retainedSet. tauto. Qed.

Lemma ranked_keys input keys :
  keys ⊆ keys_of input → Key <$> ranked (byKey input) keys ≡ₚ elements keys.
Proof.
  intros Hsub. unfold ranked, sortByRank. rewrite sort_slice_perm, <- list_fmap_compose.
  replace (Key ∘ at_key (byKey input) <$> elements keys) with (elements keys); [done|].
  rewrite <- (list_fmap_id (elements keys)) at 1. apply list_fmap_ext. intros i k Hk%list_elem_of_lookup_2.
  symmetry. apply at_key_elem, Hsub. by apply elem_of_elements.
Qed.

Lemma ranked_length m keys : length (ranked m keys) = size keys.
Proof. unfold ranked, sortByRank. by rewrite sort_slice_length, length_fmap. Qed.

Lemma ranked_elem input keys c :
  keys ⊆ keys_of input → c ∈ ranked (byKey input) keys → c ∈ input ∧ c.(Key) ∈ keys.
Proof.
  unfold ranked, sortByRank. rewrite elem_of_sort_slice, list_elem_of_fmap.
  intros Hsub (k & -> & Hk%elem_of_elements). destruct (at_key_elem input k) as [? E]; [auto|].
  by rewrite E.
Qed.

Lemma size_freshSet s input : Z.of_nat (size (freshSet s input)) ≤ 2 * Z.max 0 s.(opts).(TopN).
Proof.
  assert (∀ l : list Candidate, (size (list_to_set (C:=gset string) (Key <$> take (Z.to_nat s.(opts).(TopN)) l))
    ≤ Z.to_nat s.(opts).(TopN))%nat) as H.
  { intros l. etrans; [apply size_list_to_set_le|]. rewrite length_fmap, length_take. lia. }
  unfold freshSet.
  etrans; [apply inj_le, size_union_le|]. pose proof (H (sort_slice less_primary input)).
  pose proof (H (sort_slice less_secondary input)). lia.
Qed.

(** ** One cycle in a single equation *)

(** The candidates [Select] reports, whatever the branch: fresh first, history
    in the room that is left. *)
Definition cut (cap : Z) (fresh retained : list Candidate) : list Candidate :=
  take (Z.to_nat cap) fresh ++ take (Z.to_nat (cap - Z.of_nat (length fresh))) retained.

Definition fresh_list s input := ranked (byKey input) (freshSet s input).
Definition retained_list s cycle input :=
  ranked (byKey input) (retainedSet s cycle (freshSet s input) input).
Definition seen_after s cycle input : Selector :=
  mkSelector s.(opts) (gset_to_gmap cycle (freshSet s input) ∪ s.(lastSeen)).

Lemma slice_to_take {A} (l : list A) n : 0 ≤ n ≤ Z.of_nat (length l) → slice_to l n = Some (take (Z.to_nat n) l).
Proof. unfold slice_to. intros. case_match; [done|]. lia. Qed.

Lemma freshSet_nil s : freshSet s [] = ∅.
Proof. unfold freshSet. cbn. rewrite !take_nil. set_solver. Qed.

Lemma Select_eq s cycle input :
  0 ≤ s.(opts).(MaxKeys) →
  Select s cycle input =
    Some (sortByRank (cut s.(opts).(MaxKeys) (fresh_list s input) (retained_list s cycle input)),
          s.(opts).(MaxKeys) <? Z.of_nat (length (fresh_list s input) + length (retained_list s cycle input)),
          seen_after s cycle input).
Proof.
  intros Hcap. destruct s as [o ls]. destruct input as [|c0 input]; simpl in Hcap.
  - unfold fresh_list, retained_list, seen_after, retainedSet. rewrite freshSet_nil. simpl.
    unfold ranked, cut. rewrite elements_empty. cbn.
    rewrite !take_nil, gset_to_gmap_empty, (left_id_L ∅ (∪)). simpl.
    assert ((MaxKeys o <? Z.of_nat 0) = false) as -> by (apply Z.ltb_ge; lia). done.
  - remember (c0 :: input) as l eqn:El. unfold Select. rewrite El at 1. cbv zeta.
    change (ranked (byKey l) (freshSet (mkSelector o ls) l)) with (fresh_list (mkSelector o ls) l).
    change (ranked (byKey l) (retainedSet (mkSelector o ls) cycle (freshSet (mkSelector o ls) l) l))
      with (retained_list (mkSelector o ls) cycle l).
    generalize (fresh_list (mkSelector o ls) l) (retained_list (mkSelector o ls) cycle l).
    intros fl rl. unfold cut, seen_after. simpl opts. rewrite Nat2Z.inj_add.
    destruct (_ <? _) eqn:E1; [destruct (MaxKeys o <? Z.of_nat (length fl)) eqn:E2|]; zbool.
    + rewrite slice_to_take by lia. cbn. assert (Z.to_nat (MaxKeys o - Z.of_nat (length fl)) = O) as -> by lia. by rewrite take_0, app_nil_r.
    + rewrite slice_to_take by lia. cbn. by rewrite (take_ge fl) by lia.
    + by rewrite !take_ge by lia.
Qed.

Section cycle.
Context (s : Selector) (cycle : Z) (input : list Candidate) (Hcap : 0 ≤ s.(opts).(MaxKeys)).
Let cap := s.(opts).(MaxKeys).
Let fresh := freshSet s input.
Let retained := retainedSet s cycle fresh input.
Let kept := cut cap (fresh_list s input) (retained_list s cycle input).

Lemma fresh_list_keys : Key <$> fresh_list s input ≡ₚ elements fresh.
Proof. apply ranked_keys, freshSet_sub. Qed.
Lemma retained_list_keys : Key <$> retained_list s cycle input ≡ₚ elements retained.
Proof. apply ranked_keys, retainedSet_sub. Qed.

Lemma all_keys_NoDup : NoDup (Key <$> (fresh_list s input ++ retained_list s cycle input)).
Proof.
  rewrite fmap_app, fresh_list_keys, retained_list_keys. apply NoDup_app. split; [apply NoDup_elements|].
  split; [|apply NoDup_elements]. intros k Hk%elem_of_elements Hr%elem_of_elements.
  by apply (retainedSet_disj s cycle fresh input k).
Qed.

Lemma cut_sublist : kept `sublist_of` fresh_list s input ++ retained_list s cycle input.
Proof. apply sublist_app; apply sublist_take. Qed.

Lemma cut_NoDup : NoDup (Key <$> kept).
Proof. eapply sublist_NoDup; [apply all_keys_NoDup|]. apply fmap_sublist, cut_sublist. Qed.

Lemma cut_length : length kept = (Z.to_nat cap `min` (size fresh + size retained))%nat.
Proof using Hcap.
  unfold kept, cut, fresh_list, retained_list. rewrite length_app, !length_take, !ranked_length.
  unfold cap, fresh, retained, fresh in *. lia.
Qed.

Lemma cut_sound c : c ∈ kept → c ∈ input ∧ (c.(Key) ∈ fresh ∨ c.(Key) ∈ retained).
Proof.
  intros Hc. assert (c ∈ fresh_list s input ++ retained_list s cycle input) as H
    by (eapply elem_of_sublist; [exact Hc|apply cut_sublist]).
  apply elem_of_app in H as [H|H]; apply ranked_elem in H; auto using freshSet_sub, retainedSet_sub;
    set_solver.
Qed.

Lemma cut_fresh_complete k : Z.of_nat (size fresh) ≤ cap → k ∈ fresh → k ∈ Key <$> kept.
Proof.
  intros Hle Hk. unfold kept, cut. rewrite fmap_app, elem_of_app. left.
  rewrite take_ge by (unfold fresh_list; rewrite ranked_length; fold fresh; lia).
  rewrite fresh_list_keys. by apply elem_of_elements.
Qed.

Lemma cut_complete k :
  Z.of_nat (size fresh + size retained) ≤ cap → k ∈ fresh ∨ k ∈ retained → k ∈ Key <$> kept.
Proof.
  intros Hle Hk. unfold kept, cut. rewrite fmap_app, elem_of_app.
  rewrite !take_ge by (unfold fresh_list, retained_list; rewrite ?ranked_length; unfold fresh, retained, cap, fresh in *; lia).
  rewrite fresh_list_keys, retained_list_keys, !elem_of_elements. done.
Qed.
End cycle.

(** ** The rank orders are strict weak orders away from NaN *)

Lemma by_float_then_key_swo (f : Candidate → float64) (less : Candidate → Candidate → bool) :
  (∀ a b, less a b = if negb (feq (f a) (f b)) then flt (f b) (f a) else string_lt (Key a) (Key b)) →
  StrictWeakOrder less (λ c, is_nan (f c) = false).
Proof.
  intros Hless. split.
  - intros x y _ _. rewrite !Hless, (feq_sym (f y)). destruct (feq (f x) (f y)); simpl.
    + apply string_lt_asym.
    + apply flt_asym.
  - unfold not_after. intros x y z Nx Ny Nz. rewrite !Hless.
    destruct (feq (f y) (f x)) eqn:E1, (feq (f z) (f y)) eqn:E2; simpl; intros H1 H2.
    + assert (feq (f z) (f x) = true) as -> by (by eapply feq_trans). simpl.
      by apply (@not_after_trans _ string_lt (λ _, True) _ (Key x) (Key y) (Key z)).
    + assert (feq (f z) (f x) = false) as ->.
      { destruct (feq (f z) (f x)) eqn:E; [|done]. rewrite feq_sym in E1. by rewrite (feq_trans _ _ _ E E1) in E2. }
      simpl. by rewrite <- (feq_flt_l _ _ (f z) E1).
    + assert (feq (f z) (f x) = false) as ->.
      { destruct (feq (f z) (f x)) eqn:E; [|done]. rewrite feq_sym in E2. by rewrite (feq_trans _ _ _ E2 E) in E1. }
      simpl. by rewrite (feq_flt_r _ _ (f x) E2).
    + destruct (float_trichotomy (f y) (f x)) as [H|[H|H]]; [done|done| |congruence|congruence].
      destruct (float_trichotomy (f z) (f y)) as [H'|[H'|H']]; [done|done| |congruence|congruence].
      pose proof (flt_trans _ _ _ H' H) as H3. rewrite (flt_asym _ _ H3).
      destruct (feq (f z) (f x)) eqn:E; [|done]. by rewrite (feq_flt_l _ _ _ E), flt_irrefl in H3.
Qed.

Definition no_nan (c : Candidate) : Prop := is_nan c.(Primary) = false ∧ is_nan c.(Secondary) = false.

#[export] Instance less_primary_swo : StrictWeakOrder less_primary (λ c, is_nan c.(Primary) = false).
Proof. by apply (by_float_then_key_swo Primary). Qed.
#[export] Instance less_secondary_swo : StrictWeakOrder less_secondary (λ c, is_nan c.(Secondary) = false).
Proof. by apply (by_float_then_key_swo Secondary). Qed.

Lemma less_tie_key (f : Candidate → float64) (less : Candidate → Candidate → bool) a b :
  (∀ a b, less a b = if negb (feq (f a) (f b)) then flt (f b) (f a) else string_lt (Key a) (Key b)) →
  is_nan (f a) = false → is_nan (f b) = false →
  not_after less a b → not_after less b a → a.(Key) = b.(Key).
Proof.
  intros Hless Na Nb. unfold not_after. rewrite !Hless, (feq_sym (f b)).
  destruct (feq (f a) (f b)) eqn:E; simpl; intros H1 H2.
  - by apply string_not_after_antisym.
  - destruct (float_trichotomy (f a) (f b)) as [?|[?|?]]; congruence.
Qed.

(** ** The input as a set: its order does not matter *)

Lemma NoDup_key_inj input c d :
  NoDup (Key <$> input) → c ∈ input → d ∈ input → c.(Key) = d.(Key) → c = d.
Proof.
  intros Hnd (i & Hi)%list_elem_of_lookup (j & Hj)%list_elem_of_lookup E.
  assert (i = j) as ->; [|congruence].
  eapply NoDup_lookup; [exact Hnd|by rewrite list_lookup_fmap, Hi|].
  rewrite list_lookup_fmap, Hj. simpl. by rewrite E.
Qed.

Lemma byKey_NoDup_lookup input c : NoDup (Key <$> input) → c ∈ input → byKey input !! c.(Key) = Some c.
Proof.
  intros Hnd Hc. destruct (byKey_is_Some _ _ Hc) as [d Hd]. rewrite Hd.
  apply byKey_Some in Hd as [Hd E]. f_equal. by eapply NoDup_key_inj.
Qed.

Lemma byKey_perm input input' : NoDup (Key <$> input) → input ≡ₚ input' → byKey input = byKey input'.
Proof.
  intros Hnd Hp. assert (NoDup (Key <$> input')) as Hnd' by (by rewrite <- Hp).
  apply map_eq. intros k. apply option_eq. intros c. split; intros H; pose proof H as [Hc <-]%byKey_Some.
  - apply byKey_NoDup_lookup; [done|]. by rewrite <- Hp.
  - apply byKey_NoDup_lookup; [done|]. by rewrite Hp.
Qed.

Lemma sort_by_float_perm (f : Candidate → float64) (less : Candidate → Candidate → bool) input input' :
  (∀ a b, less a b = if negb (feq (f a) (f b)) then flt (f b) (f a) else string_lt (Key a) (Key b)) →
  Forall (λ c, is_nan (f c) = false) input → NoDup (Key <$> input) → input' ≡ₚ input →
  sort_slice less input' = sort_slice less input.
Proof.
  intros Hless Hnan Hnd Hp. pose proof (by_float_then_key_swo f less Hless).
  apply (sort_slice_unique less (λ c, is_nan (f c) = false)); [done| |by rewrite sort_slice_perm|].
  - rewrite Forall_forall in Hnan. intros x y Hx Hy H1 H2. eapply NoDup_key_inj; [done..|].
    eapply (less_tie_key f less); auto.
  - apply (sort_slice_sorted less (λ c, is_nan (f c) = false)). by rewrite Hp.
Qed.

Lemma freshSet_perm s input input' :
  Forall no_nan input → NoDup (Key <$> input) → input' ≡ₚ input → freshSet s input' = freshSet s input.
Proof.
  intros Hnan Hnd Hp. unfold freshSet.
  rewrite (sort_by_float_perm Primary less_primary input input'), (sort_by_float_perm Secondary less_secondary input input');
    try done; (eapply Forall_impl; [exact Hnan|]); by intros c [? ?].
Qed.

Lemma retainedSet_perm s cycle fresh input input' :
  input' ≡ₚ input → retainedSet s cycle fresh input' = retainedSet s cycle fresh input.
Proof.
  intros Hp. apply set_eq. intros k. rewrite !elem_of_retainedSet, !elem_of_keys_of. by setoid_rewrite Hp.
Qed.

(** ** Several cycles *)

(** A selector that went through a history of cycles (cycle number and input). *)
Definition Select_all (s : Selector) (history : list (Z * list Candidate)) : option Selector :=
  foldl (λ acc ci, s ← acc; snd <$> Select s ci.1 ci.2) (Some s) history.

(** The last cycle of a history in which [k] was among the fresh keys. *)
Definition last_fresh (o : Options) (history : list (Z * list Candidate)) (k : string) : option Z :=
  foldl (λ acc ci, if decide (k ∈ freshSet (mkSelector o ∅) ci.2) then Some ci.1 else acc) None history.

Lemma Select_all_lastSeen o history :
  0 ≤ o.(MaxKeys) →
  ∃ s, Select_all (mkSelector o ∅) history = Some s ∧ s.(opts) = o ∧
       ∀ k, s.(lastSeen) !! k = last_fresh o history k.
Proof.
  intros Hcap. induction history as [|[cyc input] history IH] using rev_ind.
  { eexists. split; [done|]. split; [done|]. intros k. apply lookup_empty. }
  destruct IH as (s & Hs & Ho & Hl). unfold Select_all, last_fresh in *.
  rewrite foldl_app, Hs. cbn. rewrite Select_eq by (by rewrite Ho). cbn.
  eexists. split; [done|]. cbn. split; [done|]. intros k. rewrite foldl_app. cbn.
  rewrite lookup_union, lookup_gset_to_gmap.
  assert (freshSet s input = freshSet (mkSelector o ∅) input) as -> by (unfold freshSet; by rewrite Ho).
  destruct (decide (k ∈ freshSet _ input)).
  - rewrite option_guard_True by done. by destruct (lastSeen s !! k).
  - rewrite option_guard_False, <- Hl by done. by destruct (lastSeen s !! k).
Qed.

(** ** Properties *)

(** One cycle of the selector, for a cap that is not negative. It does not
    panic; it reports at most [MaxKeys] candidates of the input, no key twice,
    each fresh or within its hysteresis window; it says it truncated exactly when
    the two sets together exceed the cap, and otherwise reports all of both; the
    fresh keys are all reported whenever they alone fit; the report is in rank
    order when no key is a NaN; and only the fresh keys are marked as seen. *)
Theorem select_contract s cycle input :
  0 ≤ s.(opts).(MaxKeys) →
  let fresh := freshSet s input in
  let retained := retainedSet s cycle fresh input in
  ∃ kept truncated s',
    Select s cycle input = Some (kept, truncated, s') ∧
    Z.of_nat (length kept) ≤ s.(opts).(MaxKeys) ∧
    NoDup (Key <$> kept) ∧
    (∀ c, c ∈ kept → c ∈ input ∧ (c.(Key) ∈ fresh ∨ c.(Key) ∈ retained)) ∧
    (truncated = true ↔ s.(opts).(MaxKeys) < Z.of_nat (size fresh + size retained)) ∧
    (truncated = false → ∀ k, k ∈ fresh ∨ k ∈ retained → k ∈ Key <$> kept) ∧
    (truncated = true → Z.of_nat (length kept) = s.(opts).(MaxKeys)) ∧
    (Z.of_nat (size fresh) ≤ s.(opts).(MaxKeys) → ∀ k, k ∈ fresh → k ∈ Key <$> kept) ∧
    (Forall no_nan input → StronglySorted (not_after less_primary) kept) ∧
    (∀ k, s'.(lastSeen) !! k = if decide (k ∈ fresh) then Some cycle else s.(lastSeen) !! k).
Proof.
  intros Hcap fresh retained. rewrite Select_eq by done. do 3 eexists. split; [done|].
  unfold sortByRank. rewrite sort_slice_length, cut_length by done.
  split_and!.
  - lia.
  - rewrite sort_slice_perm. apply cut_NoDup.
  - intros c. rewrite elem_of_sort_slice. by apply cut_sound.
  - unfold fresh_list, retained_list. rewrite !ranked_length. apply Z.ltb_lt.
  - unfold fresh_list at 1, retained_list at 1. rewrite !ranked_length. intros Ht%Z.ltb_ge k Hk.
    rewrite sort_slice_perm. by apply cut_complete.
  - unfold fresh_list, retained_list. rewrite !ranked_length. intros Ht%Z.ltb_lt. lia.
  - intros Hle k Hk. rewrite sort_slice_perm. by apply cut_fresh_complete.
  - rewrite Forall_forall. intros Hnan. apply (sort_slice_sorted _ (λ c, is_nan c.(Primary) = false)).
    apply Forall_forall. intros c [Hc _]%cut_sound; [|done]. by apply (Hnan c Hc).
  - intros k. cbn. rewrite lookup_union, lookup_gset_to_gmap. fold fresh. case_decide.
    + rewrite option_guard_True by done. by destruct (lastSeen s !! k).
    + rewrite option_guard_False by done. by destruct (lastSeen s !! k).
Qed.

Definition example_candidates : list Candidate :=
  [mkCandidate "a" (float_of_int 3) (float_of_int 0); mkCandidate "b" (float_of_int 2) (float_of_int 9);
   mkCandidate "c" (float_of_int 1) (float_of_int 1)].

Lemma select_contract_witness :
  let s := NewSelector (mkOptions 1 0 1) in
  ∃ kept truncated s', Select s 3 example_candidates = Some (kept, truncated, s') ∧
    Z.of_nat (length kept) ≤ 1 ∧ truncated = true.
Proof.
  intros s. destruct (select_contract s 3 example_candidates ltac:(done)) as (kept & tr & s' & E & Hle & _ & _ & Htr & _).
  exists kept, tr, s'. split; [exact E|]. split; [exact Hle|]. apply Htr. vm_compute. reflexivity.
Defined.

(** With [MaxKeys] left at its default every key the configured top-N asks for
    is reported, in every cycle and for every history: the default cap is never
    below the two rankings together. *)
Theorem default_cap_keeps_fresh o cycle input seen :
  o.(MaxKeys) = 0 → is_int64 (2 * o.(TopN)) →
  let s := mkSelector (defaults o) seen in
  ∃ kept truncated s', Select s cycle input = Some (kept, truncated, s') ∧
    freshSet s input ⊆ keys_of kept ∧ Z.of_nat (length kept) ≤ Z.max 200 (2 * o.(TopN)).
Proof.
  intros Hm Hint s.
  assert (s.(opts).(MaxKeys) = Z.max 200 (2 * s.(opts).(TopN))) as Hcap.
  { subst s. unfold defaults. rewrite Hm. simpl. f_equal. apply wrap64_id. case_match; [|done].
    unfold is_int64, min_int64, max_int64. lia. }
  assert (s.(opts).(MaxKeys) = Z.max 200 (2 * o.(TopN))) as Hcap'.
  { rewrite Hcap. subst s. unfold defaults. simpl. case_match; zbool; lia. }
  pose proof (size_freshSet s input). clearbody s.
  rewrite Select_eq by lia. do 3 eexists. split; [done|]. unfold sortByRank.
  rewrite sort_slice_length, cut_length by lia. split; [|lia].
  intros k Hk. unfold keys_of. rewrite sort_slice_perm, elem_of_list_to_set. apply cut_fresh_complete; [lia|done].
Qed.

Lemma default_cap_keeps_fresh_witness :
  let s := mkSelector (defaults (mkOptions 0 0 0)) ∅ in
  ∃ kept truncated s', Select s 1 example_candidates = Some (kept, truncated, s') ∧
    freshSet s example_candidates ⊆ keys_of kept ∧ Z.of_nat (length kept) ≤ 200.
Proof. apply (default_cap_keeps_fresh (mkOptions 0 0 0)); [reflexivity|unfold is_int64, min_int64, max_int64; simpl; lia]. Defined.

(** The report does not depend on the order in which the candidates arrive:
    for distinct keys and no NaN every permutation of the input gives the same
    list, the same flag and the same next state. *)
Theorem select_order_independent s cycle input input' :
  0 ≤ s.(opts).(MaxKeys) → Forall no_nan input → NoDup (Key <$> input) → input' ≡ₚ input →
  Select s cycle input' = Select s cycle input.
Proof.
  intros Hcap Hnan Hnd Hp. rewrite !Select_eq by done.
  unfold fresh_list, retained_list, seen_after.
  rewrite (freshSet_perm s input input'), (retainedSet_perm s cycle _ input input'), (byKey_perm input input') by done.
  done.
Qed.

Lemma select_order_independent_witness :
  Select (NewSelector (mkOptions 1 0 1)) 3 (reverse example_candidates) = Select (NewSelector (mkOptions 1 0 1)) 3 example_candidates.
Proof.
  apply select_order_independent.
  - vm_compute. discriminate.
  - repeat constructor.
  - apply (bool_decide_unpack _). vm_compute. exact I.
  - apply reverse_Permutation.
Defined.

(** Hysteresis over a whole history: after any sequence of cycles, a candidate
    outside the top-N of the present cycle is a retention candidate exactly when the
    last cycle that had it in the top-N lies within the window. Being retained does
    not renew the window. *)
Theorem retention_by_last_fresh o history cycle input k :
  0 ≤ o.(MaxKeys) →
  ∃ s, Select_all (mkSelector o ∅) history = Some s ∧
    (k ∈ retainedSet s cycle (freshSet s input) input ↔
      k ∉ freshSet s input ∧ k ∈ keys_of input ∧
      ∃ last, last_fresh o history k = Some last ∧ hysteresisThreshold (mkSelector o ∅) cycle ≤ last).
Proof.
  intros Hcap. destruct (Select_all_lastSeen o history Hcap) as (s & Hs & Ho & Hl).
  exists s. split; [done|]. rewrite elem_of_retainedSet, Hl. unfold hysteresisThreshold. by rewrite Ho.
Qed.

Lemma retention_by_last_fresh_witness :
  ∃ s, Select_all (mkSelector (mkOptions 1 2 5) ∅) [(1, example_candidates)] = Some s ∧
    ("a" ∈ retainedSet s 3 (freshSet s (drop 1 example_candidates)) (drop 1 example_candidates) ↔ False).
Proof.
  destruct (retention_by_last_fresh (mkOptions 1 2 5) [(1, example_candidates)] 3 (drop 1 example_candidates) "a" ltac:(done))
    as (s & E & H).
  exists s. split; [exact E|]. rewrite H. split; [|done]. intros (_ & Hk & _). revert Hk.
  apply (bool_decide_unpack (_ ∉ _)). vm_compute. exact I.
Defined.

(** [Forget] is only housekeeping: dropping the retention state at some cycle
    does not change what any later cycle reports, and what is left is exactly what
    was seen within the window. *)
Theorem forget_invisible s cycle cycle' input :
  0 ≤ s.(opts).(MaxKeys) → cycle ≤ cycle' →
  let '(removed, s') := Forget s cycle in
  fst <$> Select s' cycle' input = fst <$> Select s cycle' input ∧
  (removed + size s'.(lastSeen))%nat = size s.(lastSeen).
Proof.
  intros Hcap Hle. unfold Forget. destruct (_ <? cycle) eqn:E; [|by split].
  set (s' := mkSelector _ _). split; [|apply size_filter_complement].
  rewrite !Select_eq by done.
  assert (retained_list s' cycle' input = retained_list s cycle' input) as Hr; [|cbn; by rewrite Hr].
  unfold retained_list. f_equal. apply set_eq. intros k. rewrite !elem_of_retainedSet.
  change (freshSet s' input) with (freshSet s input).
  change (hysteresisThreshold s' cycle') with (hysteresisThreshold s cycle').
  assert (cycle - uwrap64 (Hysteresis (opts s)) ≤ hysteresisThreshold s cycle') as Hth.
  { unfold hysteresisThreshold. case_match; zbool; lia. }
  cbn. setoid_rewrite map_lookup_filter_Some. cbn. naive_solver lia.
Qed.

Lemma forget_invisible_witness :
  let s := mkSelector (mkOptions 1 2 5) {["z" := 1]} in
  let '(removed, s') := Forget s 9 in
  fst <$> Select s' 9 example_candidates = fst <$> Select s 9 example_candidates ∧
  (removed + size s'.(lastSeen))%nat = size s.(lastSeen).
Proof. apply (forget_invisible (mkSelector (mkOptions 1 2 5) {["z" := 1]}) 9 9 example_candidates); [done|lia]. Defined.

(** The per-push budget: what is admitted never takes the total past the
    budget, is all of [n] when it fits, and the flag says exactly that something
    was refused. *)
Theorem admit_within_budget max used n :
  is_int64 max → 0 ≤ used ≤ max_int64 → 0 ≤ n ≤ max_int64 →
  let b := NewBudget max in
  let '(admitted, truncated) := Admit b used n in
  0 ≤ admitted ≤ n ∧ used + admitted ≤ Z.max used b ∧
  (truncated = true ↔ admitted < n) ∧ (admitted < n → used + admitted = Z.max used b).
Proof.
  intros Hmax Hu Hn b. assert (is_int64 b) as Hb.
  { subst b. unfold NewBudget. case_match; [|done]. unfold is_int64, min_int64, max_int64. lia. }
  clearbody b. unfold Admit.
  destruct (n =? 0) eqn:E0; [zbool; split_and!; lia|].
  destruct (b <=? used) eqn:E1; zbool; [split_and!; lia|].
  rewrite wrap64_id by (unfold is_int64, min_int64, max_int64 in *; lia).
  destruct (n <=? b - used) eqn:E2; zbool; split_and!; lia.
Qed.

Lemma admit_within_budget_witness :
  let '(admitted, truncated) := Admit (NewBudget 10) 8 5 in
  0 ≤ admitted ≤ 5 ∧ 8 + admitted ≤ 10 ∧ (truncated = true ↔ admitted < 5) ∧ (admitted < 5 → 8 + admitted = 10).
Proof.
  apply (admit_within_budget 10 8 5); [unfold is_int64, min_int64, max_int64; lia|unfold max_int64; lia..].
Defined.
