(* ===== verification/Ash.v ===== *)
(** * Active session history (internal/ash, cmd/pglens-agent/ash.go)

    The sampler reads the active sessions once a second, the aggregator folds the
    rows into windows of at most [maxKeys] buckets, and the agent's flush loop
    closes a window every ten seconds. Sampler and flush loop run concurrently and
    meet only under the locks of [Aggregator] and [ashTicks]: an execution is a
    sequence of the atomic [action]s below, in any order. Every clock reading is
    an argument. The database connection is not modelled: a query is the list of
    what its rows scan to, and the error it ends with. *)
From stdpp Require Import pretty.
From S2P Require Import Prelude GoTime GoFloat GoSort.

(** An [error] value is its message; [None] is [nil]. *)
Definition error : Type := string.

Record Key := mkKey {
  Datname : string;
  WaitEventType : string;
  WaitEvent : string;
  State : string;
  QueryID : Z;
  HasQueryID : bool;
}.

#[export] Instance Key_eq_dec : EqDecision Key.
Proof. solve_decision. Defined.
#[export] Instance Key_countable : Countable Key.
Proof.
  apply (inj_countable' (λ k, (Datname k, WaitEventType k, WaitEvent k, State k, QueryID k, HasQueryID k))
    (λ '(d, t, e, s, q, h), mkKey d t e s q h)). by intros [].
Defined.

Definition otherKey : Key := mkKey "" "other" "other" "other" 0 false.

Record Bucket := mkBucket { bKey : Key; Samples : Z }.

Record Window := mkWindow {
  Start : Time;
  End_ : Time;
  Ticks : Z;
  FailedTicks : Z;
  Buckets : list Bucket;
  Truncated : bool;
}.

Record Aggregator := mkAggregator {
  window : Duration;
  maxKeys : Z;
  start : Time;
  started : bool;
  counts : gmap Key Z;
  ticks : Z;
  failed : Z;
}.

Definition New (window : Duration) (maxKeys : Z) : Aggregator :=
  mkAggregator window (if maxKeys <? 1 then 1 else maxKeys) zero_time false ∅ 0 0.

Definition ensureStarted (now : Time) (a : Aggregator) : Aggregator :=
  if a.(started) then a
  else mkAggregator a.(window) a.(maxKeys) now true a.(counts) a.(ticks) a.(failed).

Definition key_of (datname state wet we : string) (queryID : option Z) : Key :=
  match queryID with
  | Some q => mkKey datname wet we state q true
  | None => mkKey datname wet we state 0 false
  end.

Definition Add (now : Time) (datname state wet we : string) (queryID : option Z) (a : Aggregator) : Aggregator :=
  let k := key_of datname state wet we queryID in
  let a := ensureStarted now a in
  mkAggregator a.(window) a.(maxKeys) a.(start) a.(started)
    (<[k := wrap64 (default 0 (a.(counts) !! k) + 1)]> a.(counts)) a.(ticks) a.(failed).

Definition TickFailed (now : Time) (a : Aggregator) : Aggregator :=
  let a := ensureStarted now a in
  mkAggregator a.(window) a.(maxKeys) a.(start) a.(started) a.(counts) a.(ticks) (wrap64 (a.(failed) + 1)).

Definition TickSucceeded (now : Time) (a : Aggregator) : Aggregator :=
  let a := ensureStarted now a in
  mkAggregator a.(window) a.(maxKeys) a.(start) a.(started) a.(counts) (wrap64 (a.(ticks) + 1)) a.(failed).

(** Field by field; a key without a query id comes first. *)
Definition keyLess : Key → Key → bool :=
  lex_by Datname string_lt (lex_by WaitEventType string_lt (lex_by WaitEvent string_lt
    (lex_by State string_lt (lex_by HasQueryID (λ a b, negb a && b) (lex_by QueryID Z.ltb (λ _ _, false)))))).

Definition bucketLess (x y : Bucket) : bool :=
  lex_by Samples Z.gtb (λ x y, keyLess x.(bKey) y.(bKey)) x y.

Definition sortBuckets (b : list Bucket) : list Bucket := sort_slice bucketLess b.

(** [range_order] is the order in which Go ranges over the map. *)
Definition capConserved (range_order : list (Key * Z)) (maxKeys : Z) : list Bucket * bool :=
  match range_order with
  | [] => ([], false)
  | _ =>
      let buckets := (λ kn, mkBucket kn.1 kn.2) <$> range_order in
      if Z.of_nat (length buckets) <=? maxKeys then (sortBuckets buckets, false)
      else
        let buckets := sortBuckets buckets in
        let keep := Z.to_nat (Z.max 0 (maxKeys - 1)) in
        let kept := take keep buckets in
        let overflow := drop keep buckets in
        let otherTotal := foldl (λ t b, wrap64 (t + b.(Samples))) 0 overflow in
        (kept ++ (if 0 <? otherTotal then [mkBucket otherKey otherTotal] else []), true)
  end.

Definition Flush (now : Time) (a : Aggregator) : Window * Aggregator :=
  let start := if a.(started) then a.(start) else now in
  let '(buckets, truncated) := capConserved (map_to_list a.(counts)) a.(maxKeys) in
  (mkWindow start now a.(ticks) a.(failed) buckets truncated,
   mkAggregator a.(window) a.(maxKeys) now true ∅ 0 0).

(** ** The sampler *)

Record SampleRow := mkSampleRow {
  rDatname : string;
  rState : string;
  rWaitEventType : string;
  rWaitEvent : string;
  rQueryID : option Z;
}.

(** What a query gives: an error at once, or rows, each of which scans or fails
    to, and the error the cursor ends with. *)
Inductive query_result :=
| QueryErr (e : error)
| QueryRows (rows : list (error + SampleRow)) (err : option error).

(** The loop of [rows.Next]/[rows.Scan] up to the first row that does not scan. *)
Fixpoint scan_rows (rows : list (error + SampleRow)) (batch : list SampleRow) : error + list SampleRow :=
  match rows with
  | [] => inr batch
  | inl e :: _ => inl e
  | inr r :: rows => scan_rows rows (batch ++ [r])
  end.

(** [S] is the state the callback changes. *)
Definition doSample {S} (q : query_result) (onSample : option (SampleRow → S → S)) (st : S) : option error * S :=
  match q with
  | QueryErr e => (Some e, st)
  | QueryRows rows err =>
      match scan_rows rows [] with
      | inl e => (Some e, st)
      | inr batch =>
          match err with
          | Some e => (Some e, st)
          | None =>
              (None, match onSample with
                     | Some f => foldl (λ st r, f r st) st batch
                     | None => st
                     end)
          end
      end
  end.

(** A run of the loop owns the context and the ticker it was started with; both
    are named by the number of the run. [cancelled] are the contexts [Stop]
    cancelled. *)
Record Sampler := mkSampler {
  interval : Duration;
  running : bool;
  cancel : option nat;
  ticker : option nat;
  next_run : nat;
  cancelled : gset nat;
  ticksMissed : Z;
  sLastErr : option error;
}.

Definition NewSampler : Sampler := mkSampler (1 * Second) false None None 0 ∅ 0 None.

Definition SetInterval (d : Duration) (s : Sampler) : Sampler :=
  if d <=? 0 then s
  else mkSampler d s.(running) s.(cancel) s.(ticker) s.(next_run) s.(cancelled) s.(ticksMissed) s.(sLastErr).

(** [None] is the error "sampler already running". *)
Definition Sampler_Start (s : Sampler) : option Sampler :=
  if s.(running) then None
  else Some (mkSampler s.(interval) true (Some s.(next_run)) (Some s.(next_run)) (S s.(next_run))
               s.(cancelled) s.(ticksMissed) s.(sLastErr)).

Definition Sampler_Stop (s : Sampler) : Sampler :=
  match s.(cancel) with
  | None => s
  | Some r => mkSampler s.(interval) false None None s.(next_run) ({[r]} ∪ s.(cancelled)) s.(ticksMissed) s.(sLastErr)
  end.

(** One tick of the loop of run [r], whose context is still live: sample, note the
    outcome, and then call back. *)
Definition run_tick {St} (q : query_result) (onSample : option (SampleRow → St → St))
    (onTick : option (bool → option error → St → St)) (s : Sampler) (st : St) : Sampler * St :=
  let '(err, st) := doSample q onSample st in
  let missed := match err with Some _ => wrap64 (s.(ticksMissed) + 1) | None => s.(ticksMissed) end in
  let s := mkSampler s.(interval) s.(running) s.(cancel) s.(ticker) s.(next_run) s.(cancelled) missed err in
  (s, match onTick with
      | Some f => f (bool_decide (err = None)) s.(sLastErr) st
      | None => st
      end).

(** ** The agent's wiring *)

Record ashTicks := mkAshTicks { agg : Aggregator; tLastErr : option error }.

Definition tick (now : Time) (success : bool) (err : option error) (t : ashTicks) : ashTicks :=
  if success then mkAshTicks (TickSucceeded now t.(agg)) t.(tLastErr)
  else mkAshTicks (TickFailed now t.(agg)) err.

Definition flush (now : Time) (t : ashTicks) : Window * option error * ashTicks :=
  let '(w, a) := Flush now t.(agg) in
  (w, t.(tLastErr), mkAshTicks a None).

(** The callbacks [startASH] registers. *)
Definition onSample (now : Time) (r : SampleRow) (t : ashTicks) : ashTicks :=
  mkAshTicks (Add now r.(rDatname) r.(rState) r.(rWaitEventType) r.(rWaitEvent) r.(rQueryID) t.(agg)) t.(tLastErr).

Definition onTick (now : Time) (success : bool) (samplerErr : option error) (t : ashTicks) : ashTicks :=
  tick now success (if success then None else samplerErr) t.

Inductive action :=
| ARow (now : Time) (r : SampleRow)
| ATick (now : Time) (success : bool) (err : option error)
| AFlush (now : Time).

Definition step (t : ashTicks) (a : action) : ashTicks * list (Window * option error) :=
  match a with
  | ARow now r => (onSample now r t, [])
  | ATick now ok err => (tick now ok err t, [])
  | AFlush now => let '(w, err, t) := flush now t in (t, [(w, err)])
  end.

Fixpoint run (t : ashTicks) (acts : list action) : ashTicks * list (Window * option error) :=
  match acts with
  | [] => (t, [])
  | a :: acts =>
      let '(t, ws) := step t a in
      let '(t, ws') := run t acts in
      (t, ws ++ ws')
  end.

(** ** What a window becomes on the wire *)

Record Metric := mkMetric { mName : string; mValue : float64; mKind : string; mLabels : gmap string string }.
Record Result := mkResult { rCheck : string; rTS : Time; rMetrics : list Metric; rError : string }.

Definition ashWindow : Duration := 10 * Second.
Definition ashMaxKeys : Z := 100.

Definition ashWindowToMetrics (w : Window) : list Metric :=
  let window_labels : gmap string string :=
    {["window_seconds" := pretty (ashWindow / Second); "window_ticks" := pretty w.(Ticks)]} in
  match w.(Buckets) with
  | [] => if w.(Ticks) =? 0 then [] else [mkMetric "ash_samples" fzero "gauge" window_labels]
  | bs =>
      (λ b,
        let labels := <["datname" := b.(bKey).(Datname)]> (<["wait_event_type" := b.(bKey).(WaitEventType)]>
          (<["wait_event" := b.(bKey).(WaitEvent)]> (<["state" := b.(bKey).(State)]> window_labels))) in
        let labels := if b.(bKey).(HasQueryID) then <["queryid" := pretty b.(bKey).(QueryID)]> labels else labels in
        mkMetric "ash_samples" (float_of_int b.(Samples)) "gauge" labels) <$> bs
  end.

Definition ashWindowResult (w : Window) (now : Time) (lastErr : option error) : option Result :=
  match ashWindowToMetrics w with
  | (_ :: _) as metrics => Some (mkResult "ash" now metrics "")
  | [] =>
      if w.(FailedTicks) =? 0 then None
      else
        let msg := ("ash: none of the " ++ pretty w.(FailedTicks) ++ " sampling ticks in the window succeeded")%string in
        Some (mkResult "ash" now [] (match lastErr with Some e => msg ++ ": " ++ e | None => msg end)%string)
  end.

(** ** The bucket order *)

#[export] Instance bKey_order_total : TotalUpTo (λ x y : Bucket, keyLess x.(bKey) y.(bKey)) (λ x y, x.(bKey) = y.(bKey)).
Proof.
  assert (TotalUpTo keyLess (=)) as [].
  { eapply TotalUpTo_iff; [unfold keyLess; apply _|]. intros [] []; cbn. naive_solver. }
  split; [split; congruence|auto|eauto|auto].
Qed.

#[export] Instance bucketLess_total : TotalUpTo bucketLess (λ x y, x.(Samples) = y.(Samples) ∧ x.(bKey) = y.(bKey)).
Proof. unfold bucketLess. apply _. Qed.

Lemma bucketLess_antisym x y : not_after bucketLess x y → not_after bucketLess y x → x = y.
Proof.
  intros H1 H2. destruct (total_not_after_antisym bucketLess _ x y H1 H2) as [? ?].
  destruct x, y; simpl in *; congruence.
Qed.

(** The order in which the map is ranged over cannot be observed. *)
Lemma sortBuckets_perm l l' : l ≡ₚ l' → sortBuckets l = sortBuckets l'.
Proof.
  intros Hp. apply (sort_slice_unique _ (λ _, True)).
  - by apply Forall_true.
  - intros x y _ _. apply bucketLess_antisym.
  - unfold sortBuckets. by rewrite sort_slice_perm.
  - apply (sort_slice_sorted _ (λ _, True)). by apply Forall_true.
Qed.

Lemma capConserved_perm l l' n : l ≡ₚ l' → capConserved l n = capConserved l' n.
Proof.
  intros Hp. unfold capConserved. destruct l as [|x l], l' as [|y l']; [done|..].
  - by apply Permutation_nil_l in Hp.
  - by apply Permutation_nil_r in Hp.
  - rewrite (sortBuckets_perm _ _ (fmap_Permutation (λ kn, mkBucket kn.1 kn.2) _ _ Hp)).
    by rewrite !length_fmap, (Permutation_length Hp).
Qed.

(** ** Totals *)

Definition samples (bs : list Bucket) : Z := zsum (Samples <$> bs).
Definition total (m : gmap Key Z) : Z := zsum (map_to_list m).*2.
Definition positive (m : gmap Key Z) : Prop := map_Forall (λ _ n, 0 < n) m.

Lemma samples_app l l' : samples (l ++ l') = samples l + samples l'.
Proof. unfold samples. by rewrite fmap_app, zsum_app. Qed.

#[export] Instance samples_perm : Proper ((≡ₚ) ==> (=)) samples.
Proof. intros l l' Hp. unfold samples. by rewrite Hp. Qed.

Lemma total_insert m k n : total (<[k := n]> m) = total m - default 0 (m !! k) + n.
Proof.
  unfold total. destruct (m !! k) as [x|] eqn:E; cbn.
  - rewrite <- (map_to_list_delete m k x E), <- (map_to_list_delete (<[k:=n]> m) k n) by apply lookup_insert_eq.
    rewrite delete_insert_eq. cbn. lia.
  - rewrite map_to_list_insert by done. cbn. lia.
Qed.

Lemma total_nonneg m : positive m → 0 ≤ total m.
Proof.
  intros Hm. apply zsum_nonneg, Forall_forall. intros n ([k n'] & -> & Hk)%list_elem_of_fmap.
  apply elem_of_map_to_list in Hk. apply Hm in Hk. cbn. lia.
Qed.

Lemma total_ge m k n : positive m → m !! k = Some n → n ≤ total m.
Proof.
  intros Hm Hk. assert (positive (delete k m)) as Hd by (by apply map_Forall_delete).
  apply total_nonneg in Hd. revert Hd. unfold total.
  rewrite <- (map_to_list_delete m k n Hk). cbn. lia.
Qed.

Lemma samples_of_counts m : samples ((λ kn, mkBucket kn.1 kn.2) <$> map_to_list m) = total m.
Proof. unfold samples, total. by rewrite <- list_fmap_compose. Qed.

Lemma fold_samples bs t :
  Forall (λ b, 0 ≤ b.(Samples)) bs → 0 ≤ t → t + samples bs ≤ max_int64 →
  foldl (λ t b, wrap64 (t + b.(Samples))) t bs = t + samples bs.
Proof.
  intros Hb. revert t. unfold samples. induction Hb as [|b bs Hb1 Hb IH]; intros t Ht Hle; cbn in *; [lia|].
  assert (0 ≤ zsum (Samples <$> bs)) by (apply zsum_nonneg, Forall_fmap; done).
  rewrite wrap64_id by (unfold is_int64, min_int64; lia). rewrite IH; lia.
Qed.

Lemma capConserved_unfold l maxKeys :
  0 ≤ maxKeys →
  capConserved l maxKeys =
    let buckets := (λ kn, mkBucket kn.1 kn.2) <$> l in
    let keep := Z.to_nat (Z.max 0 (maxKeys - 1)) in
    let otherTotal := foldl (λ t b, wrap64 (t + b.(Samples))) 0 (drop keep (sortBuckets buckets)) in
    if Z.of_nat (length buckets) <=? maxKeys then (sortBuckets buckets, false)
    else (take keep (sortBuckets buckets) ++ (if 0 <? otherTotal then [mkBucket otherKey otherTotal] else []), true).
Proof.
  intros H. destruct l; [|done]. cbn.
  by assert ((Z.of_nat 0 <=? maxKeys) = true) as -> by (apply Z.leb_le; lia).
Qed.

Section cap.
Context (m : gmap Key Z) (maxKeys : Z).
Context (Hpos : positive m) (Htot : total m ≤ max_int64) (Hmax : 1 ≤ maxKeys).
Let all := sortBuckets ((λ kn, mkBucket kn.1 kn.2) <$> map_to_list m).
Let keep := Z.to_nat (maxKeys - 1).

Lemma all_elem b : b ∈ all ↔ m !! b.(bKey) = Some b.(Samples).
Proof using.
  unfold all, sortBuckets. rewrite elem_of_sort_slice, list_elem_of_fmap. split.
  - intros ([k n] & -> & Hk). by apply elem_of_map_to_list.
  - destruct b as [k n]. intros H. exists (k, n). split; [done|]. by apply elem_of_map_to_list.
Qed.

Lemma all_positive : Forall (λ b, 0 < b.(Samples)) all.
Proof using Hpos. apply Forall_forall. intros b Hb%all_elem. by apply Hpos in Hb. Qed.

Lemma all_samples : samples all = total m.
Proof using. unfold all, sortBuckets. by rewrite sort_slice_perm, samples_of_counts. Qed.

Lemma all_length : length all = size m.
Proof using. unfold all, sortBuckets. by rewrite sort_slice_length, length_fmap, length_map_to_list. Qed.

Lemma rest_samples : Z.of_nat (size m) > maxKeys → 0 < samples (drop keep all) ≤ max_int64.
Proof using All.
  intros Hlen. pose proof all_positive as Hp. pose proof all_samples as Hs. pose proof all_length as Hl.
  rewrite <- (take_drop keep all), samples_app in Hs. rewrite <- (take_drop keep all) in Hp.
  apply Forall_app in Hp as [Hp1 Hp2].
  assert (0 ≤ samples (take keep all)).
  { apply zsum_nonneg, Forall_fmap. eapply Forall_impl; [exact Hp1|]. cbn. lia. }
  split; [|lia]. destruct (drop keep all) as [|b bs] eqn:E.
  { apply (f_equal length) in E. rewrite length_drop in E. cbn in E. lia. }
  apply Forall_cons in Hp2 as [? Hp2]. unfold samples. cbn.
  assert (0 ≤ zsum (Samples <$> bs)); [|lia].
  apply zsum_nonneg, Forall_fmap. eapply Forall_impl; [exact Hp2|]. cbn. lia.
Qed.

Lemma capConserved_eq :
  capConserved (map_to_list m) maxKeys =
    if Z.of_nat (size m) <=? maxKeys then (all, false)
    else (take keep all ++ [mkBucket otherKey (samples (drop keep all))], true).
Proof using All.
  rewrite capConserved_unfold by lia. cbv zeta. rewrite length_fmap, length_map_to_list. fold all.
  destruct (_ <=? _) eqn:El; [done|]. apply Z.leb_gt in El.
  replace (Z.max 0 (maxKeys - 1)) with (maxKeys - 1) by lia. fold keep.
  pose proof (rest_samples ltac:(lia)) as Hr.
  rewrite fold_samples; [|apply Forall_drop|lia|lia].
  - by rewrite (proj2 (Z.ltb_lt _ _)) by lia.
  - eapply Forall_impl; [exact all_positive|]. cbn. lia.
Qed.
End cap.

(** ** Traces of atomic actions *)

Definition row_key (r : SampleRow) : Key := key_of r.(rDatname) r.(rState) r.(rWaitEventType) r.(rWaitEvent) r.(rQueryID).

Definition rows_of (acts : list action) : list SampleRow :=
  omap (λ a, match a with ARow _ r => Some r | _ => None end) acts.
Definition ticks_of (ok : bool) (acts : list action) : Z :=
  Z.of_nat (length (omap (λ a, match a with ATick _ b _ => if Bool.eqb b ok then Some () else None | _ => None end) acts)).
Definition is_flush (a : action) : bool := match a with AFlush _ => true | _ => false end.

(** The number of sampled rows with key [k]. *)
Definition row_count (k : Key) (rows : list SampleRow) : Z :=
  Z.of_nat (length (filter (λ r, row_key r = k) rows)).

Definition seed (wd : Duration) (mk : Z) : ashTicks := mkAshTicks (New wd mk) None.

(** Each window starts where the one before it ended. *)
Fixpoint contiguous (from : option Time) (ws : list Window) : Prop :=
  match ws with
  | [] => True
  | w :: ws => (match from with Some s => w.(Start) = s | None => True end) ∧ contiguous (Some w.(End_)) ws
  end.

Definition started_at (a : Aggregator) : option Time := if a.(started) then Some a.(start) else None.

(** The state of the aggregator as long as fewer than [max_int64] things happened:
    no counter has wrapped. [n] bounds what is still to come. *)
Record agg_ok (n : nat) (t : ashTicks) : Prop := {
  ok_pos : positive t.(agg).(counts);
  ok_total : total t.(agg).(counts) + Z.of_nat n ≤ max_int64;
  ok_ticks : 0 ≤ t.(agg).(ticks) ∧ t.(agg).(ticks) + Z.of_nat n ≤ max_int64;
  ok_failed : 0 ≤ t.(agg).(failed) ∧ t.(agg).(failed) + Z.of_nat n ≤ max_int64;
  ok_max : 1 ≤ t.(agg).(maxKeys);
  ok_err : t.(agg).(failed) = 0 → t.(tLastErr) = None;
}.

Lemma total_empty : total ∅ = 0.
Proof. unfold total. by rewrite map_to_list_empty. Qed.

Lemma seed_ok wd mk n : Z.of_nat n ≤ max_int64 → agg_ok n (seed wd mk).
Proof.
  intros Hn. split; cbn; try (rewrite ?total_empty; lia); [apply map_Forall_empty| |done].
  destruct (mk <? 1) eqn:E; zbool; lia.
Qed.

Lemma ensureStarted_fields now a :
  let a' := ensureStarted now a in
  counts a' = counts a ∧ ticks a' = ticks a ∧ failed a' = failed a ∧ maxKeys a' = maxKeys a ∧
  started a' = true ∧ (∀ s, started_at a = Some s → start a' = s).
Proof.
  unfold ensureStarted, started_at. destruct (started a) eqn:E; cbn; split_and!; try done; congruence.
Qed.

Lemma Add_counts n now t r :
  agg_ok (S n) t →
  let m := t.(agg).(counts) in let m' := (onSample now r t).(agg).(counts) in
  (∀ k, m' !! k = if decide (row_key r = k) then Some (default 0 (m !! k) + 1) else m !! k) ∧
  positive m' ∧ total m' = total m + 1.
Proof.
  intros [Hp Ht _ _ _ _]. unfold onSample, Add. destruct (ensureStarted_fields now (agg t)) as (E & _). cbn.
  rewrite E. fold (row_key r).
  assert (0 ≤ default 0 (counts (agg t) !! row_key r) ≤ total (counts (agg t))) as Hd.
  { destruct (counts (agg t) !! row_key r) as [x|] eqn:El; cbn; [|split; [done|by apply total_nonneg]].
    pose proof (total_ge _ _ _ Hp El). apply Hp in El. lia. }
  rewrite wrap64_id by (unfold is_int64, min_int64; lia). split_and!.
  - intros k. rewrite lookup_insert. case_decide; [by subst|done].
  - apply map_Forall_insert_2; [lia|done].
  - rewrite total_insert. lia.
Qed.

Lemma step_ok n t a :
  agg_ok (S n) t →
  let '(t', ws) := step t a in
  agg_ok n t' ∧ t'.(agg).(maxKeys) = t.(agg).(maxKeys) ∧
  (zsum (samples ∘ Buckets <$> ws.*1) + total t'.(agg).(counts) = total t.(agg).(counts) + Z.of_nat (length (rows_of [a]))) ∧
  (zsum (Ticks <$> ws.*1) + t'.(agg).(ticks) = t.(agg).(ticks) + ticks_of true [a]) ∧
  (zsum (FailedTicks <$> ws.*1) + t'.(agg).(failed) = t.(agg).(failed) + ticks_of false [a]) ∧
  Forall (λ we, Z.of_nat (length we.1.(Buckets)) ≤ t.(agg).(maxKeys) ∧ (we.1.(FailedTicks) = 0 → we.2 = None)) ws ∧
  (∀ rest, contiguous (started_at t'.(agg)) rest → contiguous (started_at t.(agg)) (ws.*1 ++ rest)).
Proof.
  intros Hok. assert (∀ now rest, contiguous (Some (start (ensureStarted now (agg t)))) rest → contiguous (started_at (agg t)) rest) as Hcont.
  { intros now [|w rest]; [done|]. destruct (ensureStarted_fields now (agg t)) as (_ & _ & _ & _ & _ & Hs).
    destruct (started_at (agg t)) eqn:E; [|by intros []]. by rewrite (Hs _ eq_refl). }
  destruct a as [now r|now b err|now]; cbn.
  - destruct (Add_counts n now t r Hok) as (_ & Hp & Ht). destruct Hok.
    destruct (ensureStarted_fields now (agg t)) as (Ec & Et & Ef & Em & Es & _).
    unfold ticks_of. cbn. split_and!; try (rewrite ?Et, ?Ef, ?Em; lia); try done.
    + split; cbn; rewrite ?Et, ?Ef, ?Em; try lia; try done. cbn in Ht. rewrite Ht. lia.
    + intros rest Hr. apply (Hcont now). revert Hr. unfold started_at at 1. cbn. by rewrite Es.
  - destruct Hok. destruct (ensureStarted_fields now (agg t)) as (Ec & Et & Ef & Em & Es & _).
    assert (wrap64 (ticks (agg t) + 1) = ticks (agg t) + 1) as Wt by (apply wrap64_id; unfold is_int64, min_int64; lia).
    assert (wrap64 (failed (agg t) + 1) = failed (agg t) + 1) as Wf by (apply wrap64_id; unfold is_int64, min_int64; lia).
    destruct b; unfold ticks_of; cbn; rewrite ?Et, ?Ef, ?Em, ?Ec, ?Wt, ?Wf;
      (split_and!; try lia; try done;
       [split; cbn; rewrite ?Et, ?Ef, ?Em, ?Ec, ?Wt, ?Wf; try lia; done
       |intros rest Hr; apply (Hcont now); revert Hr; unfold started_at at 1; cbn; by rewrite Es]).
  - unfold flush, Flush. destruct Hok. cbn.
    rewrite capConserved_eq by (done || lia).
    set (all := sortBuckets _). set (keep := Z.to_nat _).
    assert (samples all = total (counts (agg t))) as Hs by apply all_samples.
    pose proof (all_length (counts (agg t))) as Hl. fold all in Hl.
    destruct (_ <=? _) eqn:El; zbool; cbn; unfold ticks_of; cbn; rewrite total_empty; split_and!; try lia;
      try (by split; cbn; rewrite ?total_empty; try lia; try apply map_Forall_empty); try (apply Forall_singleton; cbn; split; [|auto]); try lia.
    + fold (samples all). lia.
    + intros rest Hr. unfold started_at. destruct (started (agg t)); done.
    + match goal with |- context [zsum (Samples <$> ?l)] => fold (samples l) end. rewrite samples_app.
      rewrite <- (take_drop keep all), samples_app in Hs. unfold samples at 2. cbn. lia.
    + rewrite length_app, length_take. cbn. lia.
    + intros rest Hr. unfold started_at. destruct (started (agg t)); done.
Qed.

Lemma rows_of_app l l' : rows_of (l ++ l') = rows_of l ++ rows_of l'.
Proof. apply omap_app. Qed.

Lemma ticks_of_app b l l' : ticks_of b (l ++ l') = ticks_of b l + ticks_of b l'.
Proof. unfold ticks_of. rewrite omap_app, length_app. lia. Qed.

Lemma run_ok acts t :
  agg_ok (length acts) t →
  let '(t', ws) := run t acts in
  agg_ok 0 t' ∧
  (zsum (samples ∘ Buckets <$> ws.*1) + total t'.(agg).(counts) = total t.(agg).(counts) + Z.of_nat (length (rows_of acts))) ∧
  (zsum (Ticks <$> ws.*1) + t'.(agg).(ticks) = t.(agg).(ticks) + ticks_of true acts) ∧
  (zsum (FailedTicks <$> ws.*1) + t'.(agg).(failed) = t.(agg).(failed) + ticks_of false acts) ∧
  Forall (λ we, Z.of_nat (length we.1.(Buckets)) ≤ t.(agg).(maxKeys) ∧ (we.1.(FailedTicks) = 0 → we.2 = None)) ws ∧
  contiguous (started_at t.(agg)) ws.*1.
Proof.
  revert t. induction acts as [|a acts IH]; intros t Hok.
  { cbn. unfold ticks_of. cbn. split_and!; try lia; try done. }
  cbn [run]. pose proof (step_ok (length acts) t a Hok) as Hstep. destruct (step t a) as [t1 ws1].
  destruct Hstep as (Hok1 & Hm & H1 & H2 & H3 & H4 & H5).
  specialize (IH t1 Hok1). destruct (run t1 acts) as [t2 ws2]. destruct IH as (Hok2 & I1 & I2 & I3 & I4 & I5).
  change (a :: acts) with ([a] ++ acts). rewrite rows_of_app, length_app, !ticks_of_app, !fmap_app, !zsum_app.
  split_and!; try lia; try done.
  - apply Forall_app. split; [done|]. by rewrite Hm in I4.
  - by apply H5.
Qed.

(** The counters of a stretch without a flush. *)
Lemma run_counts acts t :
  agg_ok (length acts) t → forallb (negb ∘ is_flush) acts = true →
  let '(t', ws) := run t acts in
  ws = [] ∧ t'.(agg).(maxKeys) = t.(agg).(maxKeys) ∧
  ∀ k, default 0 (t'.(agg).(counts) !! k) = default 0 (t.(agg).(counts) !! k) + row_count k (rows_of acts).
Proof.
  revert t. induction acts as [|a acts IH]; intros t Hok Hf.
  { cbn. unfold row_count. cbn. split_and!; try done. intros. lia. }
  cbn in Hf. apply andb_true_iff in Hf as [Hfa Hf]. cbn [run]. rewrite (rows_of_app [a] acts : rows_of (a :: acts) = _).
  pose proof (step_ok (length acts) t a Hok) as Hstep.
  assert (∀ k, default 0 ((step t a).1.(agg).(counts) !! k) = default 0 (t.(agg).(counts) !! k) + row_count k (rows_of [a])) as Hc.
  { intros k. destruct a as [now r|now b err|now]; [| |done]; cbn.
    - destruct (Add_counts _ now t r Hok) as (Hl & _). cbn in Hl. rewrite Hl.
      unfold row_count. cbn. repeat case_decide; cbn; lia.
    - destruct (ensureStarted_fields now (agg t)) as (Ec & _). unfold row_count. cbn.
      destruct b; cbn; rewrite Ec; lia. }
  assert ((step t a).2 = []) as Hnil by (by destruct a).
  destruct (step t a) as [t1 ws1]. cbn [fst snd] in *. subst ws1. destruct Hstep as (Hok1 & Hm & _).
  specialize (IH t1 Hok1 Hf). destruct (run t1 acts) as [t2 ws2]. destruct IH as (-> & Hm2 & IH).
  split_and!; [done|congruence|]. intros k. rewrite IH, Hc. unfold row_count. rewrite filter_app, length_app. lia.
Qed.

Lemma all_sorted m : StronglySorted (not_after bucketLess) (sortBuckets ((λ kn, mkBucket kn.1 kn.2) <$> map_to_list m)).
Proof. apply (sort_slice_sorted _ (λ _, True)). by apply Forall_true. Qed.

Lemma not_after_samples x y : not_after bucketLess x y → y.(Samples) ≤ x.(Samples).
Proof. unfold not_after, bucketLess, lex_by. case_decide as E; [lia|]. rewrite Z.gtb_ltb. lia. Qed.

Lemma StronglySorted_app_le {A} (R : A → A → Prop) l l' x y :
  StronglySorted R (l ++ l') → x ∈ l → y ∈ l' → R x y.
Proof.
  induction l as [|z l IH]; [by intros ? ?%elem_of_nil|]. cbn. intros [Hs Hf]%StronglySorted_inv Hx Hy.
  apply elem_of_cons in Hx as [->|Hx]; [|auto]. rewrite Forall_forall in Hf. apply Hf, elem_of_app. by right.
Qed.

(** The counters after a stretch of actions, key by key. *)
Definition sampled_keys (acts : list action) : gset Key := list_to_set (row_key <$> rows_of acts).

Lemma elem_of_sampled_keys acts k : k ∈ sampled_keys acts ↔ 0 < row_count k (rows_of acts).
Proof.
  unfold sampled_keys, row_count. rewrite elem_of_list_to_set, list_elem_of_fmap. split.
  - intros (r & -> & Hr).
    assert (r ∈ filter (λ r', row_key r' = row_key r) (rows_of acts)) as Hr' by (by apply list_elem_of_filter).
    destruct (filter _ _); [by apply elem_of_nil in Hr'|cbn; lia].
  - destruct (filter _ _) as [|r l] eqn:E; [cbn; lia|]. intros _. exists r.
    assert (r ∈ filter (λ r', row_key r' = k) (rows_of acts)) as Hr by (rewrite E; constructor).
    apply list_elem_of_filter in Hr as [? ?]. done.
Qed.

Lemma counts_after wd mk acts :
  Z.of_nat (length acts) ≤ max_int64 → forallb (negb ∘ is_flush) acts = true →
  let a := (run (seed wd mk) acts).1.(agg) in
  positive a.(counts) ∧ total a.(counts) = Z.of_nat (length (rows_of acts)) ∧ total a.(counts) ≤ max_int64 ∧
  a.(maxKeys) = Z.max 1 mk ∧
  (∀ k n, a.(counts) !! k = Some n ↔ k ∈ sampled_keys acts ∧ n = row_count k (rows_of acts)) ∧
  size a.(counts) = size (sampled_keys acts).
Proof.
  intros Hlen Hf. pose proof (seed_ok wd mk _ Hlen) as Hseed.
  pose proof (run_ok acts _ Hseed) as Hok. pose proof (run_counts acts _ Hseed Hf) as Hc.
  destruct (run (seed wd mk) acts) as [t ws]. cbv zeta. cbn [fst snd] in *.
  destruct Hok as (Hok & Htot & _). destruct Hc as (-> & Hm & Hc). destruct Hok as [Hp Ht _ _ Hmax _].
  unfold seed, New in Hm, Htot, Hc. cbn in Hm, Htot. rewrite total_empty in Htot.
  assert (∀ k n, counts (agg t) !! k = Some n ↔ k ∈ sampled_keys acts ∧ n = row_count k (rows_of acts)) as Hl.
  { intros k n. rewrite elem_of_sampled_keys. specialize (Hc k). cbn in Hc. rewrite lookup_empty in Hc. cbn in Hc.
    destruct (counts (agg t) !! k) as [x|] eqn:E; cbn in Hc; [|split; [done|lia]].
    rewrite Z.add_0_l in Hc. subst x. apply Hp in E. naive_solver. }
  split_and!; try done; try lia.
  - destruct (mk <? 1) eqn:E; zbool; lia.
  - rewrite <- size_dom. f_equal. apply set_eq. intros k. rewrite elem_of_dom. unfold is_Some. setoid_rewrite Hl. naive_solver.
Qed.

(** ** Properties *)

(** C27: Conservation over any interleaving of samples, ticks and flushes: every
    sampled row, every successful and every failed tick is counted in exactly one
    window or still pending; no window has more than [maxKeys] buckets; each window
    starts where the one before it ended; and a window without a failed tick
    carries no error. *)
Theorem ash_conservation wd mk acts :
  Z.of_nat (length acts) ≤ max_int64 →
  let '(t, ws) := run (seed wd mk) acts in
  zsum (samples ∘ Buckets <$> ws.*1) + total t.(agg).(counts) = Z.of_nat (length (rows_of acts)) ∧
  zsum (Ticks <$> ws.*1) + t.(agg).(ticks) = ticks_of true acts ∧
  zsum (FailedTicks <$> ws.*1) + t.(agg).(failed) = ticks_of false acts ∧
  Forall (λ we, Z.of_nat (length we.1.(Buckets)) ≤ Z.max 1 mk ∧ (we.1.(FailedTicks) = 0 → we.2 = None)) ws ∧
  contiguous None ws.*1.
Proof.
  intros Hlen. pose proof (run_ok acts (seed wd mk) (seed_ok wd mk _ Hlen)) as H.
  destruct (run (seed wd mk) acts) as [t ws]. destruct H as (_ & H1 & H2 & H3 & H4 & H5).
  unfold seed, New in *. cbn in *. rewrite total_empty in H1. split_and!; try done.
  eapply Forall_impl; [exact H4|]. intros we [Hl He]. split; [|done]. destruct (mk <? 1) eqn:E; zbool; lia.
Qed.

Lemma ash_conservation_witness :
  let acts := [ARow 5 (mkSampleRow "d" "active" "CPU" "CPU" None); ATick 6 true None; AFlush 10; ATick 16 false (Some "timeout"); AFlush 20] in
  let '(t, ws) := run (seed ashWindow ashMaxKeys) acts in
  zsum (samples ∘ Buckets <$> ws.*1) + total t.(agg).(counts) = 1.
Proof.
  intros acts. pose proof (ash_conservation ashWindow ashMaxKeys acts ltac:(vm_compute; discriminate)) as H.
  destruct (run _ acts) as [t ws]. apply H.
Defined.

(** What one window says about the keys sampled since it was opened. Up to
    [maxKeys] distinct keys: one bucket per sampled key with its exact row count.
    Beyond that: exact buckets for [maxKeys - 1] keys, none of which was seen less
    often than any key left out, and one bucket "other" for all the rest. *)
Theorem window_exact wd mk acts now :
  Z.of_nat (length acts) ≤ max_int64 → forallb (negb ∘ is_flush) acts = true →
  let rows := rows_of acts in
  let keys := sampled_keys acts in
  let w := (Flush now (run (seed wd mk) acts).1.(agg)).1 in
  (w.(Truncated) = true ↔ Z.max 1 mk < Z.of_nat (size keys)) ∧
  (w.(Truncated) = false → ∀ k n, mkBucket k n ∈ w.(Buckets) ↔ (k ∈ keys ∧ n = row_count k rows)) ∧
  (w.(Truncated) = true → ∃ kept, w.(Buckets) = kept ++ [mkBucket otherKey (Z.of_nat (length rows) - samples kept)] ∧
     Z.of_nat (length kept) = Z.max 1 mk - 1 ∧ NoDup (bKey <$> kept) ∧
     Forall (λ b, b.(bKey) ∈ keys ∧ b.(Samples) = row_count b.(bKey) rows) kept ∧
     ∀ b k, b ∈ kept → k ∈ keys → k ∉ bKey <$> kept → row_count k rows ≤ b.(Samples)).
Proof.
  intros Hlen Hf rows keys.
  destruct (counts_after wd mk acts Hlen Hf) as (Hp & Htot & Ht & Hmk & Hl & Hsize).
  destruct (run (seed wd mk) acts) as [t ws]. cbn [fst snd] in *. fold rows in Htot, Hl. fold keys in Hl, Hsize.
  unfold Flush. rewrite capConserved_eq by (done || lia). rewrite Hmk, Hsize.
  set (all := sortBuckets _). set (keep := Z.to_nat _).
  assert (∀ b, b ∈ all ↔ counts (agg t) !! bKey b = Some (Samples b)) as Hall by (intros; apply all_elem).
  pose proof (all_sorted (counts (agg t))) as Hsort. fold all in Hsort.
  assert (samples all = Z.of_nat (length rows)) as Hsum by (unfold all; rewrite all_samples; lia).
  assert (NoDup (bKey <$> all)) as Hnd.
  { unfold all, sortBuckets. rewrite sort_slice_perm, <- list_fmap_compose. apply NoDup_fst_map_to_list. }
  pose proof (all_length (counts (agg t))) as Hlen'. fold all in Hlen'. rewrite Hsize in Hlen'.
  destruct (_ <=? _) eqn:El; zbool; cbn; (split_and!; [split; [done || lia|lia || done]| |]); try done.
  - intros _ k n. rewrite Hall. cbn. apply Hl.
  - intros _. exists (take keep all). rewrite <- (take_drop keep all) in Hall, Hsort, Hsum, Hnd.
    rewrite samples_app in Hsum. rewrite fmap_app in Hnd. apply NoDup_app in Hnd as (Hnd & _ & _). split_and!.
    + repeat f_equal. lia.
    + rewrite length_take. lia.
    + done.
    + apply Forall_forall. intros b Hb. apply Hl, Hall, elem_of_app. by left.
    + intros b k Hb Hk Hk'.
      assert (mkBucket k (row_count k rows) ∈ take keep all ++ drop keep all) as Hr by (by apply Hall, Hl).
      apply elem_of_app in Hr as [Hr|Hr].
      * destruct Hk'. apply list_elem_of_fmap. by eexists (mkBucket _ _).
      * pose proof (StronglySorted_app_le _ _ _ _ _ Hsort Hb Hr) as Hle. by apply not_after_samples in Hle.
Qed.

Lemma window_exact_witness :
  let acts := [ARow 5 (mkSampleRow "d" "active" "CPU" "CPU" None); ATick 6 true None] in
  (Flush 10 (run (seed ashWindow ashMaxKeys) acts).1.(agg)).1.(Truncated) = false.
Proof.
  intros acts. destruct (window_exact ashWindow ashMaxKeys acts 10 ltac:(vm_compute; discriminate) eq_refl) as (Ht & _).
  apply not_true_is_false. rewrite Ht. vm_compute. discriminate.
Defined.

Lemma scan_rows_clean rows batch : scan_rows (inr <$> rows) batch = inr (batch ++ rows).
Proof.
  revert batch. induction rows as [|r rows IH]; intros batch; cbn; [by rewrite app_nil_r|].
  by rewrite IH, <- (assoc_L (++)).
Qed.

Lemma scan_rows_inv rows batch out : scan_rows rows batch = inr out → ∃ rs, rows = inr <$> rs ∧ out = batch ++ rs.
Proof.
  revert batch. induction rows as [|[e|r] rows IH]; intros batch; cbn; [|done|].
  - intros [= <-]. exists []. by rewrite app_nil_r.
  - intros (rs & -> & ->)%IH. exists (r :: rs). by rewrite <- (assoc_L (++)).
Qed.

Lemma run_app t l l' :
  run t (l ++ l') = let '(t1, ws1) := run t l in let '(t2, ws2) := run t1 l' in (t2, ws1 ++ ws2).
Proof.
  revert t. induction l as [|a l IH]; intros t; cbn; [by destruct (run t l')|].
  destruct (step t a) as [t1 ws1]. rewrite IH. destruct (run t1 l) as [t2 ws2], (run t2 l') as [t3 ws3].
  by rewrite (assoc_L (++)).
Qed.

Lemma run_rows now rows t :
  run t (ARow now <$> rows) = (foldl (λ st r, onSample now r st) t rows, []).
Proof. revert t. induction rows as [|r rows IH]; intros t; cbn; [done|]. by rewrite IH. Qed.

(** A sampling tick is all or nothing: when the query, every row and the end of
    the cursor are clean, all its rows and one successful tick are counted;
    otherwise no row is counted, only one failed tick, with the tick's own error. *)
Theorem tick_all_or_nothing now q s t :
  let '(s', t') := run_tick q (Some (onSample now)) (Some (onTick now)) s t in
  (∃ rows, q = QueryRows (inr <$> rows) None ∧
     (t', []) = run t ((ARow now <$> rows) ++ [ATick now true None]) ∧
     s'.(sLastErr) = None ∧ s'.(ticksMissed) = s.(ticksMissed)) ∨
  (∃ e, (∀ rows, q ≠ QueryRows (inr <$> rows) None) ∧
     (t', []) = run t [ATick now false (Some e)] ∧
     s'.(sLastErr) = Some e ∧ s'.(ticksMissed) = wrap64 (s.(ticksMissed) + 1)).
Proof.
  unfold run_tick, doSample. destruct q as [e|rows err].
  { right. exists e. by split_and!. }
  destruct (scan_rows rows []) as [e|batch] eqn:E.
  { right. exists e. split_and!; try done. intros rs [= -> _]. by rewrite scan_rows_clean in E. }
  destruct err as [e|].
  { right. exists e. by split_and!. }
  apply scan_rows_inv in E as (rs & -> & ->). left. exists rs. split_and!; try done.
  by rewrite run_app, run_rows.
Qed.

(** What a closed window puts on the wire: nothing at all only when not one
    tick was attempted; an error result exactly when ticks were attempted and none
    succeeded; otherwise one metric per bucket, or a single zero for an idle
    window, so that an idle instance cannot be told as a missing one. *)
Theorem window_result_cases w now lastErr :
  0 ≤ w.(Ticks) → 0 ≤ w.(FailedTicks) → (w.(Ticks) = 0 → w.(Buckets) = []) →
  match ashWindowResult w now lastErr with
  | None => w.(Ticks) = 0 ∧ w.(FailedTicks) = 0
  | Some r =>
      0 < w.(Ticks) + w.(FailedTicks) ∧ r.(rCheck) = "ash" ∧
      (r.(rError) ≠ "" ↔ w.(Ticks) = 0) ∧
      (0 < w.(Ticks) → length r.(rMetrics) = (1 `max` length w.(Buckets))%nat ∧
         ∀ m, m ∈ r.(rMetrics) → m.(mLabels) !! "window_ticks" = Some (pretty w.(Ticks))) ∧
      (w.(Ticks) = 0 → r.(rMetrics) = [])
  end.
Proof.
  intros Ht Hf Hb. unfold ashWindowResult, ashWindowToMetrics.
  destruct (Buckets w) as [|b bs] eqn:Eb.
  - destruct (Ticks w =? 0) eqn:E0; zbool.
    + destruct (FailedTicks w =? 0) eqn:E1; zbool; [done|]. cbn. split_and!; try done; try lia.
      split; [done|]. intros _. by destruct lastErr.
    + cbn. split_and!; try done; try lia; try (split; [done|lia]). intros _. split; [done|].
      intros m ->%list_elem_of_singleton. done.
  - assert (Ticks w ≠ 0) by (intros E; by specialize (Hb E)). cbn.
    split_and!; try done; try lia; try (split; [done|lia]). intros _. split; [by rewrite length_fmap|].
    intros m Hm. apply elem_of_cons in Hm as [->|(b' & -> & _)%list_elem_of_fmap]; cbn.
    + destruct (HasQueryID (bKey b)); by simplify_map_eq.
    + destruct (HasQueryID (bKey b')); by simplify_map_eq.
Qed.

Lemma window_result_cases_witness :
  match ashWindowResult (mkWindow 0 10 0 3 [] false) 10 (Some "timeout") with
  | None => False
  | Some r => r.(rMetrics) = []
  end.
Proof.
  exact (proj2 (proj2 (proj2 (proj2 (window_result_cases (mkWindow 0 10 0 3 [] false) 10 (Some "timeout")
    ltac:(discriminate) ltac:(discriminate) ltac:(reflexivity))))) eq_refl).
Defined.

(** ** Start and Stop *)

Inductive sampler_op := OpStart | OpStop | OpInterval (d : Duration).

Definition apply_op (s : Sampler) (op : sampler_op) : Sampler :=
  match op with
  | OpStart => default s (Sampler_Start s)
  | OpStop => Sampler_Stop s
  | OpInterval d => SetInterval d s
  end.

(** The runs whose loop may still sample: started and not cancelled. *)
Definition live (s : Sampler) (r : nat) : Prop := (r < s.(next_run))%nat ∧ r ∉ s.(cancelled).

Record sampler_ok (s : Sampler) : Prop := {
  so_running : s.(running) = true ↔ is_Some s.(cancel);
  so_ticker : s.(ticker) = s.(cancel);
  so_live r : live s r ↔ s.(cancel) = Some r;
  so_fresh r : r ∈ s.(cancelled) → (r < s.(next_run))%nat;
  so_interval : 0 < s.(interval);
}.

Lemma apply_op_ok s op : sampler_ok s → sampler_ok (apply_op s op).
Proof.
  intros Hs. pose proof Hs as [H1 H2 H3 H4 H5]. destruct op as [| |d]; cbn.
  - unfold Sampler_Start. destruct (running s) eqn:Er; cbn; [done|].
    assert (cancel s = None) as Ec.
    { destruct (cancel s) eqn:E; [|done]. destruct H1 as [_ H1]. by specialize (H1 ltac:(eauto)). }
    split; cbn; try done.
    + unfold live in *. cbn. intros r. rewrite Ec in H3. split.
      * intros [Hr Hn]. f_equal. destruct (decide (r = next_run s)); [done|]. destruct (H3 r) as [H3' _]. by discriminate H3'; split; [lia|].
      * intros [= <-]. split; [lia|]. intros Hc%H4. lia.
    + intros r Hr%H4. lia.
  - unfold Sampler_Stop. destruct (cancel s) as [r|] eqn:Ec; [|done].
    split; cbn; try done.
    + unfold live in *. cbn. intros r'. split; [|done]. intros [Hr Hn]. exfalso.
      assert (Some r = Some r') as [= ->]; [|set_solver]. apply H3. set_solver.
    + intros r' [->%elem_of_singleton|Hr]%elem_of_union; [|by apply H4].
      apply (H3 r). done.
  - unfold SetInterval. destruct (d <=? 0) eqn:E; zbool; [done|]. split; try done.
Qed.

Lemma sampler_ops_ok ops : sampler_ok (foldl apply_op NewSampler ops).
Proof.
  induction ops as [|op ops IH] using rev_ind.
  - split; cbn; try done. intros r. unfold live. cbn. split; [lia|done].
  - rewrite foldl_app. cbn. by apply apply_op_ok.
Qed.

(** The sampler's life cycle under any sequence of [Start], [Stop] and
    [SetInterval]: at most one run can sample at a time, [Start] succeeds exactly
    when none can, so a stopped sampler can be restarted, [Stop] leaves none, and
    the ticker period stays positive. *)
Theorem sampler_one_live_run ops :
  let s := foldl apply_op NewSampler ops in
  (∀ r r', live s r → live s r' → r = r') ∧
  (is_Some (Sampler_Start s) ↔ ∀ r, ¬ live s r) ∧
  (∀ r, ¬ live (Sampler_Stop s) r) ∧
  0 < s.(interval).
Proof.
  intros s. pose proof (sampler_ops_ok ops) as Hs. fold s in Hs. pose proof Hs as [H1 H2 H3 H4 H5]. split_and!; [..|done].
  - intros r r'. rewrite !H3. congruence.
  - setoid_rewrite H3. unfold Sampler_Start. destruct (running s) eqn:E.
    + destruct (proj1 H1 eq_refl) as [r Er]. split; [by intros []|]. intros Hn. by destruct (Hn r).
    + split; [|by eauto]. intros _ r Hr. destruct H1 as [_ H1]. rewrite Hr in H1. by specialize (H1 ltac:(eauto)).
  - pose proof (apply_op_ok s OpStop Hs) as [_ _ H3' _ _]. cbn in H3'. intros r. rewrite H3'.
    unfold Sampler_Stop. by destruct (cancel s) eqn:E; rewrite ?E.
Qed.
