(* ===== verification/StateM.v ===== *)
(** * A state monad

    Code that threads state through many calls is written in [ST S]: a computation
    takes the state to a result and a new state. [keeps I m] says that [m]
    preserves [I]; [peel_step] takes a computation apart into its calls. *)
From S2P Require Import Prelude.

Definition ST (S A : Type) : Type := S → A * S.

#[export] Instance ST_ret S : MRet (ST S) := λ A a s, (a, s).
#[export] Instance ST_bind S : MBind (ST S) := λ A B f m s, let '(a, s) := m s in f a s.

Definition get {S} : ST S S := λ s, (s, s).
Definition modify {S} (f : S → S) : ST S unit := λ s, ((), f s).

Section keeps.
Context {S : Type}.

Definition keeps {A} (I : S → Prop) (m : ST S A) : Prop := ∀ s, I s → I (m s).2.

Lemma keeps_ret {A} I (a : A) : keeps I (mret a).
Proof. by intros s Hs. Qed.

Lemma keeps_bind {A B} I (m : ST S A) (f : A → ST S B) : keeps I m → (∀ a, keeps I (f a)) → keeps I (m ≫= f).
Proof.
  intros Hm Hf s Hs. unfold mbind, ST_bind. specialize (Hm s Hs). destruct (m s) as [a s']. by apply Hf.
Qed.

Lemma keeps_get_state I : keeps I get.
Proof. by intros s Hs. Qed.

Lemma keeps_modify I f : (∀ s, I s → I (f s)) → keeps I (modify f).
Proof. intros Hf s Hs. by apply Hf. Qed.

Lemma bind_run {A B} (m : ST S A) (f : A → ST S B) s : (m ≫= f) s = f (m s).1 (m s).2.
Proof. unfold mbind, ST_bind. by destruct (m s). Qed.
End keeps.

#[export] Hint Resolve keeps_ret keeps_bind keeps_get_state : pglens.

Ltac peel_step :=
  first
    [ apply keeps_ret
    | apply keeps_get_state
    | apply keeps_bind; [|intros ?]
    | match goal with
      | |- keeps _ (match ?x with _ => _ end) => destruct x
      | |- keeps _ (if ?x then _ else _) => destruct x
      end ].

(** ** With errors

    A computation that may end with an error, in the state it has reached. *)
Definition EST (S E A : Type) : Type := S → (E + A) * S.

#[export] Instance EST_ret S E : MRet (EST S E) := λ A a s, (inr a, s).
#[export] Instance EST_bind S E : MBind (EST S E) := λ A B f m s,
  match m s with (inl e, s) => (inl e, s) | (inr a, s) => f a s end.

Definition raise {S E A} (e : E) : EST S E A := λ s, (inl e, s).
Definition gets {S E A} (f : S → A) : EST S E A := λ s, (inr (f s), s).
Definition puts {S E} (f : S → S) : EST S E unit := λ s, (inr (), f s).

(** A loop over a list that threads an accumulator. *)
Fixpoint fold_in {S E A B} (f : A → B → EST S E A) (a : A) (l : list B) : EST S E A :=
  match l with
  | [] => mret a
  | b :: l => a ← f a b; fold_in f a l
  end.

Lemma bind_ok {S E A B} (m : EST S E A) (f : A → EST S E B) s a s' : m s = (inr a, s') → (m ≫= f) s = f a s'.
Proof. intros H. unfold mbind, EST_bind. by rewrite H. Qed.

Lemma bind_fail {S E A B} (m : EST S E A) (f : A → EST S E B) s e s' : m s = (inl e, s') → (m ≫= f) s = (inl e, s').
Proof. intros H. unfold mbind, EST_bind. by rewrite H. Qed.

Section moves.
Context {S E : Type} (R : S → S → Prop) `{!PreOrder R}.

(** Every run of [m] moves the state along [R]. *)
Definition moves {A} (m : EST S E A) : Prop := ∀ s, R s (m s).2.

Lemma moves_ret {A} (a : A) : moves (mret a).
Proof using PreOrder0. intros s. reflexivity. Qed.

Lemma moves_raise {A} (e : E) : moves (raise e : EST S E A).
Proof using PreOrder0. intros s. reflexivity. Qed.

Lemma moves_gets {A} (f : S → A) : moves (gets f : EST S E A).
Proof using PreOrder0. intros s. reflexivity. Qed.

Lemma moves_puts (f : S → S) : (∀ s, R s (f s)) → moves (puts f : EST S E unit).
Proof using Type. intros Hf s. apply Hf. Qed.

Lemma moves_bind {A B} (m : EST S E A) (f : A → EST S E B) : moves m → (∀ a, moves (f a)) → moves (m ≫= f).
Proof using PreOrder0.
  intros Hm Hf s. unfold mbind, EST_bind. specialize (Hm s). destruct (m s) as [[e|a] s']; [done|]. etrans; [exact Hm|apply Hf].
Qed.

Lemma moves_fold {A B} (f : A → B → EST S E A) a l : (∀ a b, moves (f a b)) → moves (fold_in f a l).
Proof using PreOrder0.
  intros Hf. revert a. induction l as [|b l IH]; intros a; cbn; [apply moves_ret|]. apply moves_bind; [apply Hf|apply IH].
Qed.
End moves.

Ltac peel_moves :=
  match goal with
  | |- moves ?R _ =>
      first
        [ apply (moves_ret R)
        | apply (moves_raise R)
        | apply (moves_gets R)
        | apply (moves_bind R); [|intros ?]
        | apply (moves_fold R); intros ??
        | match goal with
          | |- moves _ (match ?x with _ => _ end) => destruct x
          | |- moves _ (let '(_, _) := ?x in _) => destruct x
          end ]
  end.

Section sat.
Context {S E : Type} (P : S → Prop).

(** From a state with [P], [m] ends in one with [P], and a result of it satisfies [Q]. *)
Definition sat {A} (m : EST S E A) (Q : A → Prop) : Prop := ∀ s, P s → P (m s).2 ∧ ∀ a, (m s).1 = inr a → Q a.

Lemma sat_ret {A} (a : A) (Q : A → Prop) : Q a → sat (mret a) Q.
Proof. intros Ha s Hs. split; [done|]. by intros b [= <-]. Qed.

Lemma sat_raise {A} (e : E) (Q : A → Prop) : sat (raise e) Q.
Proof. intros s Hs. by split. Qed.

Lemma sat_gets {A} (f : S → A) : sat (gets f : EST S E A) (λ _, True).
Proof. intros s Hs. by split. Qed.

Lemma sat_puts (f : S → S) : (∀ s, P s → P (f s)) → sat (puts f : EST S E unit) (λ _, True).
Proof. intros Hf s Hs. split; [by apply Hf|done]. Qed.

Lemma sat_bind {A B} (m : EST S E A) (f : A → EST S E B) Q R : sat m Q → (∀ a, Q a → sat (f a) R) → sat (m ≫= f) R.
Proof.
  intros Hm Hf s Hs. unfold mbind, EST_bind. destruct (Hm s Hs) as [H1 H2]. destruct (m s) as [[e|a] s']; cbn in *; [by split|].
  apply Hf; [by apply H2|done].
Qed.

Lemma sat_fold {A B} (f : A → B → EST S E A) (Q : A → Prop) a l : Q a → (∀ a b, Q a → sat (f a b) Q) → sat (fold_in f a l) Q.
Proof.
  intros Ha Hf. revert a Ha. induction l as [|b l IH]; intros a Ha; cbn; [by apply sat_ret|]. eapply sat_bind; [by apply Hf|]. intros. by apply IH.
Qed.

Lemma sat_weaken {A} (m : EST S E A) (Q R : A → Prop) : sat m Q → (∀ a, Q a → R a) → sat m R.
Proof. intros Hm HQ s Hs. destruct (Hm s Hs). split; [done|]. naive_solver. Qed.
End sat.

(** Runs the first computation of a sequence that ended well in [H]. *)
Ltac step_bind H x w E :=
  match type of H with
  | (?m ≫= ?f) ?s = _ =>
      destruct (m s) as [[?e|x] w] eqn:E; [by rewrite (bind_fail _ _ _ _ _ E) in H|]; rewrite (bind_ok _ _ _ _ _ E) in H
  end.
