(* ===== verification/AlertTypes.v ===== *)
(** * Alert rules, samples, alerts, keys and silences (internal/alert: types.go,
    key.go, silence.go, builtin.go)

    The string-typed enumerations of the source ([Severity], [Scope], [State],
    [Comparator]) are strings here too: a stored rule can hold any text, and
    [Rule_Validate] is what rejects the unknown ones. A pointer to a value that
    nobody writes through is an [option]. *)
From stdpp Require Import pretty.
From S2P Require Import Prelude GoTime GoFloat Pgtype.

(** The text of a UUID (github.com/google/uuid) and Go's regular expressions are
    interfaces: nothing below depends on how they work. *)
Class UuidText := uuid_String : UUID → string.

Class Regexp := {
  regexp : Type;
  Compile : string → option regexp;
  MatchString : regexp → string → bool;
}.

Definition SeverityCritical : string := "critical".
Definition SeverityWarning : string := "warning".
Definition SeverityInfo : string := "info".
Definition ScopeInstance : string := "instance".
Definition ScopeCluster : string := "cluster".
Definition ScopeDatabase : string := "database".
Definition StatePending : string := "pending".
Definition StateFiring : string := "firing".
Definition StateResolved : string := "resolved".
Definition GT : string := "gt".
Definition GE : string := "ge".
Definition LT : string := "lt".
Definition LE : string := "le".
Definition EQ : string := "eq".
Definition NE : string := "ne".

Record Rule := mkRule {
  rID : string;
  rTier : Z;
  rEnabled : bool;
  rSeverity : string;
  rScope : string;
  rMetric : string;
  rComparator : string;
  rThreshold : float64;
  rFor : Duration;
  rEventType : string;
  rSummary : string;
}.

(** The errors of [Validate], by what they say. *)
Inductive rule_error :=
| RuleIDEmpty
| UnknownSeverity (s : string)
| UnknownScope (s : string)
| NeitherMetricNorEvent
| BothMetricAndEvent
| UnknownComparator (c : string)
| NegativeFor.

(** [None] is a nil error. *)
Definition Rule_Validate (r : Rule) : option rule_error :=
  if decide (r.(rID) = "") then Some RuleIDEmpty
  else if decide (r.(rSeverity) ≠ SeverityCritical ∧ r.(rSeverity) ≠ SeverityWarning ∧ r.(rSeverity) ≠ SeverityInfo)
  then Some (UnknownSeverity r.(rSeverity))
  else if decide (r.(rScope) ≠ ScopeInstance ∧ r.(rScope) ≠ ScopeCluster ∧ r.(rScope) ≠ ScopeDatabase)
  then Some (UnknownScope r.(rScope))
  else if decide (r.(rMetric) = "" ∧ r.(rEventType) = "") then Some NeitherMetricNorEvent
  else if decide (r.(rMetric) ≠ "" ∧ r.(rEventType) ≠ "") then Some BothMetricAndEvent
  else if decide (r.(rMetric) ≠ "" ∧ r.(rComparator) ≠ GT ∧ r.(rComparator) ≠ GE ∧ r.(rComparator) ≠ LT ∧
                  r.(rComparator) ≠ LE ∧ r.(rComparator) ≠ EQ ∧ r.(rComparator) ≠ NE)
  then Some (UnknownComparator r.(rComparator))
  else if r.(rFor) <? 0 then Some NegativeFor
  else None.

Record Sample := mkSample {
  sClusterID : option Z;
  sInstanceID : option UUID;
  sDatname : string;
  sLabels : gmap string string;
  sValue : float64;
  sTS : Time;
  sInapplicable : bool;
}.

Record Alert := mkAlert {
  aKey : string;
  aRuleID : string;
  aSeverity : string;
  aState : string;
  aClusterID : option Z;
  aInstanceID : option UUID;
  aDatname : string;
  aLabels : gmap string string;
  aValue : float64;
  aSummary : string;
  aStartedAt : Time;
  aLastEvalAt : Time;
  aResolvedAt : option Time;
  aSuppressed : bool;
}.

#[export] Instance Alert_eq_dec : EqDecision Alert.
Proof. solve_decision. Defined.

Definition set_aState (s : string) (a : Alert) : Alert :=
  mkAlert a.(aKey) a.(aRuleID) a.(aSeverity) s a.(aClusterID) a.(aInstanceID) a.(aDatname) a.(aLabels)
    a.(aValue) a.(aSummary) a.(aStartedAt) a.(aLastEvalAt) a.(aResolvedAt) a.(aSuppressed).
Definition set_aEval (now : Time) (v : float64) (a : Alert) : Alert :=
  mkAlert a.(aKey) a.(aRuleID) a.(aSeverity) a.(aState) a.(aClusterID) a.(aInstanceID) a.(aDatname) a.(aLabels)
    v a.(aSummary) a.(aStartedAt) now a.(aResolvedAt) a.(aSuppressed).
Definition set_aResolved (now : Time) (a : Alert) : Alert :=
  mkAlert a.(aKey) a.(aRuleID) a.(aSeverity) StateResolved a.(aClusterID) a.(aInstanceID) a.(aDatname) a.(aLabels)
    a.(aValue) a.(aSummary) a.(aStartedAt) now (Some now) a.(aSuppressed).
Definition set_aSuppressed (b : bool) (a : Alert) : Alert :=
  mkAlert a.(aKey) a.(aRuleID) a.(aSeverity) a.(aState) a.(aClusterID) a.(aInstanceID) a.(aDatname) a.(aLabels)
    a.(aValue) a.(aSummary) a.(aStartedAt) a.(aLastEvalAt) a.(aResolvedAt) b.

(** ** Keys (key.go) *)

(** [uuidText] tests its argument, an interface, against [nil]. A nil [*uuid.UUID]
    in an interface is not that [nil], so the text printed for it is "<nil>". *)
Definition uuidText `{UuidText} (v : option UUID) : string :=
  match v with
  | None => "<nil>"
  | Some u => uuid_String u
  end.

Definition Key `{UuidText} (r : Rule) (s : Sample) : string :=
  let subject :=
    if decide (r.(rScope) = ScopeCluster) then
      match s.(sClusterID) with Some c => pretty c | None => "" end
    else if decide (r.(rScope) = ScopeDatabase) then (uuidText s.(sInstanceID) ++ ":" ++ s.(sDatname))%string
    else if decide (s.(sDatname) ≠ "") then (uuidText s.(sInstanceID) ++ ":" ++ s.(sDatname))%string
    else uuidText s.(sInstanceID) in
  (r.(rID) ++ "/" ++ subject ++ "/" ++ CanonicalLabels s.(sLabels))%string.

(** The start of an episode at the precision the table keeps ([startOf] in
    notifier.go; [DedupID] rounds the same way). *)
Definition startOf (a : Alert) : Time := Truncate a.(aStartedAt) Microsecond.

(** ** Silences (silence.go) *)

Record Matcher := mkMatcher {
  mtName : string;
  mtValue : string;
  mtIsRegex : bool;
  mtNegate : bool;
}.

Record Silence := mkSilence {
  siID : UUID;
  siMatchers : list Matcher;
  siReason : string;
  siStartsAt : Time;
  siEndsAt : Time;
}.

Definition anchored `{Regexp} (v : string) : option regexp :=
  match Compile v with
  | None => None
  | Some _ => Compile ("^(?:" ++ v ++ ")$")
  end.

Definition matcher_valid `{Regexp} (m : Matcher) : bool :=
  negb (bool_decide (m.(mtName) = "")) && (negb m.(mtIsRegex) || bool_decide (is_Some (anchored m.(mtValue)))).

(** [true] is a nil error. *)
Definition Silence_Validate `{Regexp} (s : Silence) : bool :=
  match s.(siMatchers) with
  | [] => false
  | ms => negb (Before s.(siEndsAt) s.(siStartsAt)) && forallb matcher_valid ms
  end.

Definition Active (s : Silence) (now : Time) : bool :=
  negb (Before now s.(siStartsAt)) && Before now s.(siEndsAt).

Definition reserved `{UuidText} (k : string) (a : Alert) : string :=
  if decide (k = "rule_id") then a.(aRuleID)
  else if decide (k = "severity") then a.(aSeverity)
  else if decide (k = "cluster_id") then match a.(aClusterID) with Some c => pretty c | None => "" end
  else if decide (k = "instance_id") then match a.(aInstanceID) with Some u => uuid_String u | None => "" end
  else if decide (k = "datname") then a.(aDatname)
  else "".

Definition matcher_value `{UuidText} (m : Matcher) (a : Alert) : string :=
  let v := reserved m.(mtName) a in
  if decide (v = "") then default "" (a.(aLabels) !! m.(mtName)) else v.

Definition matcher_ok `{UuidText, Regexp} (m : Matcher) (a : Alert) : bool :=
  let v := matcher_value m a in
  let ok :=
    if m.(mtIsRegex) then match anchored m.(mtValue) with Some re => MatchString re v | None => false end
    else bool_decide (v = m.(mtValue)) in
  if m.(mtNegate) then negb ok else ok.

Definition Matches `{UuidText, Regexp} (s : Silence) (a : Alert) : bool :=
  match s.(siMatchers) with
  | [] => false
  | ms => forallb (λ m, matcher_ok m a) ms
  end.

Fixpoint FirstMatch `{UuidText, Regexp} (ss : list Silence) (a : Alert) (now : Time) : option Silence :=
  match ss with
  | [] => None
  | s :: ss => if Active s now && Matches s a then Some s else FirstMatch ss a now
  end.

(** ** The built-in rules (builtin.go) *)

Definition builtin_metric (id sev scope metric cmp : string) (th : Z) (for_ : Duration) (summary : string) : Rule :=
  mkRule id 0 true sev scope metric cmp (float_of_int th) for_ "" summary.
Definition builtin_event (id sev scope event summary : string) : Rule :=
  mkRule id 0 true sev scope "" "" fzero 0 event summary.

Definition Builtin : list Rule :=
  [ builtin_metric "agent_down" SeverityCritical ScopeInstance "up" LT 1 (90 * Second) "No payload received from the agent";
    builtin_event "instance_unreachable" SeverityCritical ScopeInstance "instance_unreachable" "The server has received no report from the instance agent within the staleness window; agent_down is raised with it";
    builtin_metric "check_failing" SeverityWarning ScopeInstance "pglens_check_error_rate" GT 0 (5 * Minute) "A check has been failing for over five minutes";
    builtin_event "no_primary_in_cluster" SeverityCritical ScopeCluster "no_primary_in_cluster" "No instance in the cluster reports the primary role";
    builtin_metric "agent_buffer_full" SeverityWarning ScopeInstance "pglens_samples_dropped_rate" GT 0 Minute "The agent is dropping samples";
    builtin_metric "clock_skew" SeverityWarning ScopeInstance "pglens_agent_clock_skew_seconds" GT 30 Minute "Agent clock skew above 30 seconds";
    builtin_metric "cardinality_budget_exceeded" SeverityWarning ScopeInstance "pglens_cardinality_truncated_rate" GT 0 (5 * Minute) "Series are being truncated by the cardinality budget";
    builtin_event "failover_detected" SeverityCritical ScopeCluster "failover_detected" "A failover was observed";
    builtin_event "split_brain_detected" SeverityCritical ScopeCluster "split_brain_detected" "More than one primary in the cluster";
    builtin_event "slot_inactive" SeverityWarning ScopeInstance "slot_inactive" "A replication slot has been inactive and is retaining WAL";
    builtin_event "slot_lost" SeverityCritical ScopeInstance "slot_lost" "A replication slot has lost WAL its consumer still needed; a physical standby must be rebuilt, a logical slot recreated and its subscriber resynchronised" ].

(** ** Facts on silences *)

Lemma FirstMatch_Some `{UuidText, Regexp} ss a now s :
  FirstMatch ss a now = Some s → s ∈ ss ∧ Active s now = true ∧ Matches s a = true.
Proof.
  induction ss as [|s' ss IH]; [done|]. cbn. destruct (Active s' now && Matches s' a) eqn:E.
  - intros [= <-]. apply andb_true_iff in E. rewrite elem_of_cons. naive_solver.
  - intros (? & ? & ?)%IH. rewrite elem_of_cons. naive_solver.
Qed.

Lemma FirstMatch_None `{UuidText, Regexp} ss a now :
  FirstMatch ss a now = None ↔ ∀ s, s ∈ ss → Active s now = true → Matches s a = false.
Proof.
  induction ss as [|s' ss IH]; [split; [by intros _ s ?%elem_of_nil|done]|]. cbn.
  setoid_rewrite elem_of_cons. destruct (Active s' now) eqn:Ea, (Matches s' a) eqn:Em; cbn; split;
    try naive_solver; try congruence. intros Hall. specialize (Hall s' (or_introl eq_refl) Ea). congruence.
Qed.

(** The identity of the built-in rules: valid, and no two share an id. *)
Lemma Builtin_valid : Forall (λ r, Rule_Validate r = None) Builtin.
Proof. repeat (constructor; [reflexivity|]). constructor. Qed.

Lemma Builtin_ids_NoDup : NoDup (rID <$> Builtin).
Proof. apply (bool_decide_unpack _). vm_compute. exact I. Qed.

(** ** Two corners *)

(** A sample without an instance has the text of a nil pointer in its key, not the
    empty text. *)
Lemma uuidText_nil `{UuidText} r s : r.(rScope) = ScopeDatabase → s.(sInstanceID) = None →
  Key r s = (r.(rID) ++ "/" ++ ("<nil>" ++ ":" ++ s.(sDatname)) ++ "/" ++ CanonicalLabels s.(sLabels))%string.
Proof. intros Hr Hs. unfold Key. by rewrite Hr, Hs. Qed.

(** A silence whose one matcher is a negated expression that does not compile
    matches every alert. *)
Lemma broken_regex_negated `{UuidText, Regexp} u name v reason start finish a :
  Compile v = None → Matches (mkSilence u [mkMatcher name v true true] reason start finish) a = true.
Proof. intros Hv. unfold Matches, matcher_ok, anchored. cbn. by rewrite Hv. Qed.
