(* ===== verification/PgIds.v ===== *)
(** * Identifiers (internal/pgtype/id.go, internal/store/clusterid.go, SeriesID of
    internal/store/write.go)

    A cluster identifier is an unsigned 64-bit number: a decimal string on the wire, the
    bigint with the same bits in the store. A series is stored under the FNV-1a hash of
    its canonical key. Parsing a UUID is github.com/google/uuid's: [uuid_Parse]. *)
From stdpp Require Import pretty.
From S2P Require Import Prelude GoBytes GoText Pgtype AlertTypes.

Class UuidParse := uuid_Parse : string → option UUID.

(** The text of a UUID (github.com/google/uuid) has no slash and tells two UUIDs apart. *)
Class UuidTextLaws `{UuidText} : Prop := {
  uuid_String_inj :: Inj (=) (=) uuid_String;
  uuid_String_slash u : no_byte "/"%char (uuid_String u);
  uuid_String_not_empty u : uuid_String u ≠ "";
}.

(** A text with these laws: the bits of the number. *)
Module UuidBits.
Fixpoint pos_text (p : positive) : string :=
  match p with xH => "1" | xO p => String "0" (pos_text p) | xI p => String "1" (pos_text p) end.
#[local] Instance uuid_bits : UuidText := λ u,
  match u with Z0 => "z" | Zpos p => String "p" (pos_text p) | Zneg p => String "n" (pos_text p) end.

Lemma pos_text_slash p : no_byte "/"%char (pos_text p).
Proof. induction p; cbn; auto. Qed.

Lemma pos_text_not_empty p : pos_text p ≠ "".
Proof. by destruct p. Qed.

#[local] Instance pos_text_inj : Inj (=) (=) pos_text.
Proof.
  intros p. induction p as [p IH|p IH|]; intros [q|q|] E; cbn in E; simplify_eq; try (by f_equal; apply IH); try done.
  - by destruct (pos_text_not_empty p).
  - by destruct (pos_text_not_empty q).
Qed.

#[local] Instance uuid_bits_laws : UuidTextLaws.
Proof.
  split.
  - intros [|p|p] [|q|q] E; unfold uuid_String, uuid_bits in E; try done; injection E as E; by apply (inj pos_text) in E as ->.
  - intros [|p|p]; cbn; split; try done; apply pos_text_slash.
  - by intros [].
Qed.
End UuidBits.

Definition IDSourceSystemIdentifier : string := "system_identifier".
Definition IDSourceManual : string := "manual".

(** [strconv.FormatUint(c, 10)]. *)
Definition ClusterID_String (c : ClusterID) : string := pretty (Z.to_N c).

Definition ParseClusterID (s : string) : option ClusterID := ParseUint (str s).

(** ** FNV-1a *)

Definition fnv_offset : Z := 14695981039346656037.
Definition fnv_prime : Z := 1099511628211.

Definition fnv_byte (h : Z) (c : byte) : Z := uwrap64 (Z.lxor h (Z_of_byte c) * fnv_prime).
Definition fnv_write (h : Z) (data : text) : Z := foldl fnv_byte h data.

Definition ManualClusterID (name : string) : ClusterID := fnv_write fnv_offset (str name).

(** ** The store's forms *)

Definition ToDB (id : ClusterID) : Z := wrap64 id.
Definition FromDB (v : Z) : ClusterID := uwrap64 v.

Definition SeriesID `{UuidText} (k : SeriesKey) : Z :=
  let h := fnv_write fnv_offset (str k.(Metric)) in
  let h := fnv_write h [x1f] in
  let h := fnv_write h (str (uuid_String k.(Instance))) in
  let h := fnv_write h [x1f] in
  let h := fnv_write h (str k.(Database)) in
  let h := fnv_write h [x1f] in
  let h := fnv_write h (str k.(Labels)) in
  wrap64 h.

(** ** Round trips *)

Lemma str_app s t : str (s +:+ t) = str s ++ str t.
Proof.
  induction s as [|c s IH]; [done|]. change (str (String c s +:+ t)) with (Ascii.byte_of_ascii c :: str (s +:+ t)).
  by rewrite IH.
Qed.

#[export] Instance str_inj : Inj (=) (=) str.
Proof. intros s t H. rewrite <- (String.string_of_list_byte_of_string s), <- (String.string_of_list_byte_of_string t). by f_equal. Qed.

Lemma parse_digits_app s t v : parse_digits (s ++ t) v = parse_digits s v ≫= parse_digits t.
Proof. revert v. induction s as [|c s IH]; intros v; [done|]. cbn. destruct (is_digit c); [apply IH|done]. Qed.

Lemma digit_char x : (x < 10)%N →
  is_digit (Ascii.byte_of_ascii (pretty_N_char x)) = true ∧ Z_of_byte (Ascii.byte_of_ascii (pretty_N_char x)) - 48 = Z.of_N x.
Proof.
  intros Hx. assert (x = 0 ∨ x = 1 ∨ x = 2 ∨ x = 3 ∨ x = 4 ∨ x = 5 ∨ x = 6 ∨ x = 7 ∨ x = 8 ∨ x = 9)%N as Hd by lia.
  destruct_or! Hd; subst x; by vm_compute.
Qed.

(** Parsing what [pretty_N_go] writes before [s] reads the number, then [s]. *)
Lemma parse_pretty x : ∀ s v, ∃ k, 0 ≤ k ∧ parse_digits (str (pretty_N_go x s)) v = parse_digits (str s) (v * 10 ^ k + Z.of_N x).
Proof.
  induction (N.lt_wf_0 x) as [x _ IH]; intros s v. assert (x = 0 ∨ 0 < x)%N as [->|Hx] by lia.
  { exists 0. split; [lia|]. rewrite pretty_N_go_0. f_equal. lia. }
  rewrite pretty_N_go_step by done. destruct (IH (x `div` 10)%N (N.div_lt x 10 Hx eq_refl) (String (pretty_N_char (x `mod` 10)) s) v) as (k & Hk & ->).
  exists (k + 1). split; [lia|].
  change (str (String ?a s)) with (Ascii.byte_of_ascii a :: str s). cbn [parse_digits].
  destruct (digit_char (x `mod` 10)%N) as [-> ->]; [apply N.mod_lt; lia|].
  f_equal. rewrite Z.pow_add_r, N2Z.inj_div, N2Z.inj_mod by lia. pose proof (Z.div_mod (Z.of_N x) (Z.of_N 10)). lia.
Qed.

Lemma pretty_not_empty (x : N) : str (pretty x) ≠ [].
Proof.
  unfold pretty, pretty_N. case_decide; [done|]. rewrite pretty_N_go_step by lia.
  assert (∀ y s, s ≠ [] → str (pretty_N_go y (String.string_of_list_byte s)) ≠ []) as Hne; [|].
  { intros y. induction (N.lt_wf_0 y) as [y _ IH]; intros s Hs. assert (y = 0 ∨ 0 < y)%N as [->|Hy] by lia.
    - rewrite pretty_N_go_0. unfold str. by rewrite String.list_byte_of_string_of_list_byte.
    - rewrite pretty_N_go_step by done.
      specialize (IH (y `div` 10)%N (N.div_lt y 10 Hy eq_refl) (str (String (pretty_N_char (y `mod` 10)) (String.string_of_list_byte s)))).
      unfold str in IH at 1. rewrite String.string_of_list_byte_of_string in IH. by apply IH. }
  specialize (Hne (x `div` 10)%N (str (String (pretty_N_char (x `mod` 10)) "")) ltac:(done)).
  unfold str in Hne at 2. by rewrite String.string_of_list_byte_of_string in Hne.
Qed.

Lemma ParseUint_pretty (x : N) : Z.of_N x < 2 ^ 64 → ParseUint (str (pretty x)) = Some (Z.of_N x).
Proof.
  intros Hx. pose proof (pretty_not_empty x) as Hne. unfold ParseUint. destruct (str (pretty x)) as [|c s] eqn:E; [done|].
  rewrite <- E. clear Hne E. assert (parse_digits (str (pretty x)) 0 = Some (Z.of_N x)) as ->.
  { unfold pretty, pretty_N. case_decide as Hz; [by subst|]. destruct (parse_pretty x "" 0) as (k & _ & ->). done. }
  cbn. by rewrite bool_decide_eq_true_2.
Qed.

(** A cluster identifier survives both of its travels: written in decimal on the wire and
    parsed again, and stored as the bigint with its bits and read back. Different
    clusters are stored under different numbers, and every number is a bigint. *)
Theorem cluster_id_round_trip c : is_uint64 c →
  ParseClusterID (ClusterID_String c) = Some c ∧ FromDB (ToDB c) = c ∧ is_int64 (ToDB c) ∧
  ∀ c', is_uint64 c' → ToDB c' = ToDB c → c' = c.
Proof.
  intros Hc. assert (∀ c, is_uint64 c → FromDB (ToDB c) = c) as Hdb.
  { intros x Hx. unfold FromDB, ToDB, uwrap64, wrap64, is_uint64 in *. destruct (decide (x < 2 ^ 63)).
    - rewrite (Z.mod_small (x + 2 ^ 63)) by lia. rewrite Z.mod_small; lia.
    - replace (x + 2 ^ 63) with (x - 2 ^ 63 + 1 * 2 ^ 64) by lia. rewrite Z.mod_add, (Z.mod_small (x - 2 ^ 63)) by lia.
      replace (x - 2 ^ 63 - 2 ^ 63) with (x + -1 * 2 ^ 64) by lia. rewrite Z.mod_add by lia. rewrite Z.mod_small; lia. }
  split_and!; [|by apply Hdb|apply wrap64_range|].
  - unfold ParseClusterID, ClusterID_String, is_uint64 in *. rewrite ParseUint_pretty by lia. f_equal. lia.
  - intros c' Hc' E. rewrite <- (Hdb c Hc), <- (Hdb c' Hc'). by rewrite E.
Qed.

(** What parses is a 64-bit number. *)
Lemma ParseClusterID_range s c : ParseClusterID s = Some c → is_uint64 c.
Proof.
  unfold ParseClusterID, ParseUint, is_uint64. destruct (str s) as [|b t] eqn:E; [done|]. rewrite <- E. clear E.
  assert (∀ t v c, 0 ≤ v → parse_digits t v = Some c → 0 ≤ c) as Hpos.
  { intros u. induction u as [|d u IH]; intros v w Hv; cbn; [by intros [= <-]|]. destruct (is_digit d) eqn:Ed; [|done].
    apply IH. apply between_spec in Ed. change (Z_of_byte "0") with 48 in Ed. lia. }
  destruct (parse_digits (str s) 0) as [v|] eqn:Ev; [|done]. cbn. case_bool_decide; [|done]. intros [= <-].
  split; [by eapply Hpos in Ev|done].
Qed.

(** The identifier of a cluster started in March 2023, with the top bit set. *)
Lemma cluster_id_round_trip_witness :
  ParseClusterID "16447264113275437219" = Some 16447264113275437219 ∧ ToDB 16447264113275437219 = -1999479960434114397.
Proof.
  split; [|vm_compute; reflexivity].
  destruct (cluster_id_round_trip 16447264113275437219) as (H & _); [split; [discriminate|reflexivity]|].
  exact H.
Defined.
