(* ===== verification/AlertEval.v ===== *)
(** * The alert evaluator (internal/alert/eval.go)

    The state machine of every alert key: absent, pending, firing. The operations
    are the methods of [Evaluator], each atomic under its mutex; [op] and [apply]
    put them in an arbitrary sequence, the undo functions of [Checkpoint]
    included. *)
From S2P Require Import Prelude GoTime GoFloat GoSort Pgtype AlertTypes.

Definition Compare (v : float64) (c : string) (threshold : float64) : bool :=
  if decide (c = GT) then flt threshold v
  else if decide (c = GE) then fle threshold v
  else if decide (c = LT) then flt v threshold
  else if decide (c = LE) then fle v threshold
  else if decide (c = EQ) then feq v threshold
  else if decide (c = NE) then negb (feq v threshold)
  else false.

Inductive Transition :=
| TransitionNone | TransitionOpened | TransitionFired | TransitionResolved | TransitionCancelled.

#[export] Instance Transition_eq_dec : EqDecision Transition.
Proof. solve_decision. Defined.

Record evalState := mkEvalState {
  first : Time;
  seen : Time;
  firing : bool;
  alert : Alert;
}.

(** The [states] map of an [Evaluator]. *)
Notation Evaluator := (gmap string evalState).

Definition NewEvaluator : Evaluator := ∅.

Definition Restore (a : Alert) (now : Time) (e : Evaluator) : Evaluator :=
  if decide (a.(aState) ≠ StatePending ∧ a.(aState) ≠ StateFiring) then e
  else <[a.(aKey) := mkEvalState a.(aStartedAt) now (bool_decide (a.(aState) = StateFiring)) a]> e.

Definition Reset (e : Evaluator) : Evaluator := ∅.

Definition endLocked (key : string) (now : Time) (e : Evaluator) : option Alert * Transition * Evaluator :=
  match e !! key with
  | None => (None, TransitionNone, e)
  | Some st =>
      if st.(firing) then (Some (set_aResolved now st.(alert)), TransitionResolved, delete key e)
      else (None, TransitionCancelled, delete key e)
  end.

Definition trueCond (r : Rule) (s : Sample) : bool :=
  negb s.(sInapplicable) && (negb (bool_decide (r.(rEventType) = "")) || Compare s.(sValue) r.(rComparator) r.(rThreshold)).

Definition Step `{UuidText} (r : Rule) (s : Sample) (now : Time) (e : Evaluator) : option Alert * Transition * Evaluator :=
  let k := Key r s in
  if negb (trueCond r s) then endLocked k now e
  else
    match e !! k with
    | None =>
        let fst := if IsZero s.(sTS) then now else s.(sTS) in
        let a := mkAlert k r.(rID) r.(rSeverity) StatePending s.(sClusterID) s.(sInstanceID) s.(sDatname)
                   s.(sLabels) s.(sValue) r.(rSummary) fst now None false in
        if r.(rFor) =? 0 then
          let a := set_aState StateFiring a in
          (Some a, TransitionFired, <[k := mkEvalState fst now true a]> e)
        else (Some a, TransitionOpened, <[k := mkEvalState fst now false a]> e)
    | Some st =>
        let a := set_aEval now s.(sValue) st.(alert) in
        if negb st.(firing) && (r.(rFor) <=? Sub now st.(first)) then
          let a := set_aState StateFiring a in
          (Some a, TransitionFired, <[k := mkEvalState st.(first) now true a]> e)
        else (Some a, TransitionNone, <[k := mkEvalState st.(first) now st.(firing) a]> e)
    end.

Definition End_ (key : string) (now : Time) (e : Evaluator) : option Alert * Transition * Evaluator :=
  endLocked key now e.

(** [Checkpoint] reads the entry; the function it returns puts it back. *)
Definition Checkpoint (key : string) (e : Evaluator) : option evalState := e !! key.
Definition undo (key : string) (prev : option evalState) (e : Evaluator) : Evaluator :=
  match prev with
  | Some p => <[key := p]> e
  | None => delete key e
  end.

Definition Firing (e : Evaluator) : list Alert :=
  omap (λ kst, if kst.2.(firing) then Some kst.2.(alert) else None) (map_to_list e).

Definition alert_key_lt (a b : Alert) : bool := string_lt a.(aKey) b.(aKey).

#[export] Instance alert_key_lt_total : TotalUpTo alert_key_lt (λ a b, aKey a = aKey b).
Proof.
  split; [split; congruence|intros ?? E; unfold alert_key_lt; rewrite E; apply string_lt_irrefl|..];
    unfold alert_key_lt; intros *; [apply string_lt_trans|apply string_trichotomy].
Qed.

Definition Unsampled (include : string → bool) (cutoff : Time) (e : Evaluator) : list Alert :=
  sort_slice alert_key_lt
    (omap (λ kst, if include kst.2.(alert).(aRuleID) && Before kst.2.(seen) cutoff then Some kst.2.(alert) else None)
       (map_to_list e)).

Definition forgettable (before : Time) (kst : string * evalState) : Prop :=
  kst.2.(firing) = false ∧ Before kst.2.(seen) before = true.

#[export] Instance forgettable_dec before kst : Decision (forgettable before kst).
Proof. unfold forgettable. apply _. Defined.

Definition Forget (before : Time) (e : Evaluator) : nat * Evaluator :=
  (size (filter (forgettable before) e), filter (λ kst, ¬ forgettable before kst) e).

(** ** Sequences of operations *)

Inductive op :=
| OpStep (r : Rule) (s : Sample) (now : Time)
| OpEnd (key : string) (now : Time)
| OpForget (before : Time)
| OpRestore (a : Alert) (now : Time)
| OpReset
| OpStepUndone (r : Rule) (s : Sample) (now : Time) (* [Step], and its checkpoint put back *)
| OpEndUndone (key : string) (now : Time).

(** The operations that return a transition, with the key it is about. *)
Definition apply `{UuidText} (e : Evaluator) (o : op) : Evaluator * list (string * Transition) :=
  match o with
  | OpStep r s now => let '(_, t, e') := Step r s now e in (e', [(Key r s, t)])
  | OpEnd k now => let '(_, t, e') := End_ k now e in (e', [(k, t)])
  | OpForget before => ((Forget before e).2, [])
  | OpRestore a now => (Restore a now e, [])
  | OpReset => (Reset e, [])
  | OpStepUndone r s now => (undo (Key r s) (Checkpoint (Key r s) e) (Step r s now e).2, [])
  | OpEndUndone k now => (undo k (Checkpoint k e) (End_ k now e).2, [])
  end.

Fixpoint apply_all `{UuidText} (e : Evaluator) (os : list op) : Evaluator * list (string * Transition) :=
  match os with
  | [] => (e, [])
  | o :: os =>
      let '(e, ts) := apply e o in
      let '(e, ts') := apply_all e os in
      (e, ts ++ ts')
  end.

(** ** The invariant of an entry *)

Record entry_ok (k : string) (st : evalState) : Prop := {
  eok_key : st.(alert).(aKey) = k;
  eok_state : st.(alert).(aState) = if st.(firing) then StateFiring else StatePending;
  eok_first : st.(alert).(aStartedAt) = st.(first);
}.

Definition eval_ok (e : Evaluator) : Prop := map_Forall entry_ok e.

Section eval.
Context `{UuidText}.

Lemma eval_ok_delete k e : eval_ok e → eval_ok (delete k e).
Proof. apply map_Forall_delete. Qed.

Lemma endLocked_ok k now e : eval_ok e → eval_ok (endLocked k now e).2.
Proof. intros He. unfold endLocked. destruct (e !! k) as [st|]; [|done]. destruct (firing st); by apply eval_ok_delete. Qed.

Lemma Step_ok r s now e : eval_ok e → eval_ok (Step r s now e).2.
Proof.
  intros He. unfold Step. destruct (trueCond r s); cbn; [|by apply endLocked_ok].
  destruct (e !! Key r s) as [st|] eqn:Est.
  - destruct (He _ _ Est) as [Hk Hst Hf].
    destruct (negb (firing st) && (rFor r <=? Sub now (first st))); apply map_Forall_insert_2; try done; by split.
  - destruct (rFor r =? 0); apply map_Forall_insert_2; try done; by split.
Qed.

Lemma Restore_ok a now e : eval_ok e → eval_ok (Restore a now e).
Proof.
  intros He. unfold Restore. case_decide as Hs; [done|]. apply map_Forall_insert_2; [|done]. split; cbn; try done.
  case_bool_decide; [done|]. destruct (decide (aState a = StatePending)); [done|tauto].
Qed.

Lemma Forget_ok before e : eval_ok e → eval_ok (Forget before e).2.
Proof. intros He k st [Hk _]%map_lookup_filter_Some. by apply He. Qed.

Lemma undo_ok k e e' : eval_ok e → eval_ok e' → eval_ok (undo k (Checkpoint k e) e').
Proof.
  intros He He'. unfold undo, Checkpoint. destruct (e !! k) as [st|] eqn:E; [|by apply eval_ok_delete].
  apply map_Forall_insert_2; [by apply He|done].
Qed.

Lemma apply_ok o e : eval_ok e → eval_ok (apply e o).1.
Proof.
  intros He. destruct o as [r s now|k now|before|a now| |r s now|k now]; cbn.
  - pose proof (Step_ok r s now e He). by destruct (Step r s now e) as [[??]?].
  - pose proof (endLocked_ok k now e He). unfold End_. by destruct (endLocked k now e) as [[??]?].
  - by apply Forget_ok.
  - by apply Restore_ok.
  - apply map_Forall_empty.
  - apply undo_ok; [done|by apply Step_ok].
  - apply undo_ok; [done|by apply endLocked_ok].
Qed.

Lemma apply_all_ok os e : eval_ok e → eval_ok (apply_all e os).1.
Proof.
  revert e. induction os as [|o os IH]; intros e He; cbn; [done|].
  pose proof (apply_ok o e He) as Ho. destruct (apply e o) as [e1 ts]. specialize (IH e1 Ho).
  by destruct (apply_all e1 os).
Qed.

(** ** What one operation does to other keys, and to its own *)

Lemma endLocked_other k k' now e : k' ≠ k → (endLocked k now e).2 !! k' = e !! k'.
Proof.
  intros Hne. unfold endLocked. destruct (e !! k) as [st|]; [|done].
  destruct (firing st); cbn; by rewrite lookup_delete_ne.
Qed.

Lemma Step_other r s now e k : k ≠ Key r s → (Step r s now e).2 !! k = e !! k.
Proof.
  intros Hne. unfold Step. destruct (trueCond r s); cbn; [|by apply endLocked_other].
  destruct (e !! Key r s) as [st|]; [destruct (_ && _)|destruct (_ =? _)]; cbn; by rewrite lookup_insert_ne.
Qed.

Lemma undo_restores k e e' : (∀ k', k' ≠ k → e' !! k' = e !! k') → undo k (Checkpoint k e) e' = e.
Proof.
  intros Hother. apply map_eq. intros k'. unfold undo, Checkpoint.
  destruct (decide (k' = k)) as [->|Hne].
  - destruct (e !! k) eqn:E; [by rewrite lookup_insert_eq|by rewrite lookup_delete_eq].
  - destruct (e !! k) eqn:E; [rewrite lookup_insert_ne by done|rewrite lookup_delete_ne by done]; by apply Hother.
Qed.

Lemma undo_Step r s now e : undo (Key r s) (Checkpoint (Key r s) e) (Step r s now e).2 = e.
Proof. apply undo_restores. intros k' Hk. by apply Step_other. Qed.

Lemma undo_End k now e : undo k (Checkpoint k e) (End_ k now e).2 = e.
Proof. apply undo_restores. intros k' Hk. by apply endLocked_other. Qed.

Definition firing_at (e : Evaluator) (k : string) : bool :=
  match e !! k with Some st => st.(firing) | None => false end.

(** The status of the key before and after an operation that reports on it. *)
Lemma endLocked_firing k now e :
  let '(_, t, e') := endLocked k now e in
  firing_at e' k = false ∧ t ≠ TransitionFired ∧ (t = TransitionResolved ↔ firing_at e k = true).
Proof.
  unfold endLocked, firing_at. destruct (e !! k) as [st|] eqn:E; [|by rewrite E].
  destruct (firing st) eqn:F; by rewrite lookup_delete_eq.
Qed.

Lemma Step_firing r s now e :
  let '(_, t, e') := Step r s now e in let k := Key r s in
  (t = TransitionFired ↔ firing_at e k = false ∧ firing_at e' k = true) ∧
  (t = TransitionResolved ↔ firing_at e k = true ∧ firing_at e' k = false).
Proof.
  unfold Step. destruct (trueCond r s); cbn.
  - unfold firing_at. destruct (e !! Key r s) as [st|] eqn:Est.
    + destruct (firing st) eqn:F, (rFor r <=? Sub now (first st)); cbn; rewrite lookup_insert_eq; cbn; rewrite ?F; naive_solver.
    + destruct (rFor r =? 0); rewrite lookup_insert_eq; cbn; naive_solver.
  - pose proof (endLocked_firing (Key r s) now e) as Hend. destruct (endLocked _ now e) as [[? t] e'].
    destruct Hend as (-> & Hf & Hr). rewrite Hr. naive_solver.
Qed.
End eval.

#[export] Hint Resolve eval_ok_delete endLocked_ok Step_ok Restore_ok Forget_ok undo_ok apply_ok : pglens.

(** ** Traces *)

Definition keeps_history (o : op) : bool :=
  match o with OpRestore _ _ | OpReset => false | _ => true end.

Definition count_transition (t : Transition) (k : string) (ts : list (string * Transition)) : Z :=
  Z.of_nat (length (filter (λ kt, kt = (k, t)) ts)).

Lemma count_transition_app t k ts ts' :
  count_transition t k (ts ++ ts') = count_transition t k ts + count_transition t k ts'.
Proof. unfold count_transition. rewrite filter_app, length_app. lia. Qed.

Section traces.
Context `{UuidText}.

Lemma Forget_firing before e k : firing_at (Forget before e).2 k = firing_at e k.
Proof.
  unfold firing_at, Forget. cbn. destruct (filter _ e !! k) as [st|] eqn:E.
  - apply map_lookup_filter_Some in E as [-> _]. done.
  - apply map_lookup_filter_None in E as [->|E]; [done|].
    destruct (e !! k) as [st|] eqn:Ek; [|done]. destruct (firing st) eqn:F; [|done].
    exfalso. apply (E st eq_refl). intros [Hf _]. cbn in Hf. congruence.
Qed.

Lemma apply_balance e o k :
  keeps_history o = true →
  let '(e', ts) := apply e o in
  count_transition TransitionFired k ts - count_transition TransitionResolved k ts =
    Z.b2z (firing_at e' k) - Z.b2z (firing_at e k).
Proof.
  intros Hh. destruct o as [r s now|k0 now|before|a now| |r s now|k0 now]; try done; cbn.
  - pose proof (Step_firing r s now e) as Hf. pose proof (Step_other r s now e k) as Ho.
    destruct (Step r s now e) as [[a t] e']. cbn in Ho. unfold count_transition. cbn.
    destruct (decide (k = Key r s)) as [->|Hne].
    + destruct Hf as [Hf Hr]. destruct t, (firing_at e (Key r s)), (firing_at e' (Key r s)); cbn;
        repeat case_decide; cbn; simplify_eq; try lia; naive_solver.
    + unfold firing_at. rewrite Ho by done. repeat case_decide; cbn; simplify_eq; lia.
  - unfold End_. pose proof (endLocked_firing k0 now e) as Hf. pose proof (endLocked_other k0 k now e) as Ho.
    destruct (endLocked k0 now e) as [[a t] e']. cbn in Ho. unfold count_transition. cbn.
    destruct (decide (k = k0)) as [->|Hne].
    + destruct Hf as (Hf & Hn & Hr). rewrite Hf. destruct t, (firing_at e k0); cbn;
        repeat case_decide; cbn; simplify_eq; try lia; naive_solver.
    + unfold firing_at. rewrite Ho by done. repeat case_decide; cbn; simplify_eq; lia.
  - unfold count_transition. cbn. pose proof (Forget_firing before e k) as Hf. cbn in Hf. rewrite Hf. lia.
  - rewrite undo_Step. unfold count_transition. cbn. lia.
  - rewrite undo_End. unfold count_transition. cbn. lia.
Qed.

(** The transitions of a run of samples of one rule. *)
Fixpoint steps (r : Rule) (e : Evaluator) (ss : list (Sample * Time)) : Evaluator * list (option Alert * Transition) :=
  match ss with
  | [] => (e, [])
  | (s, now) :: ss =>
      let '(a, t, e) := Step r s now e in
      let '(e, ts) := steps r e ss in
      (e, (a, t) :: ts)
  end.

(** [TransitionFired] at the first time [due] selects, nothing before and after. *)
Fixpoint mark_first (due : Time → bool) (times : list Time) : list Transition :=
  match times with
  | [] => []
  | t :: times => if due t then TransitionFired :: (const TransitionNone <$> times) else TransitionNone :: mark_first due times
  end.

Lemma steps_firing r e ss k st :
  Forall (λ sn, Key r sn.1 = k ∧ trueCond r sn.1 = true) ss → e !! k = Some st → st.(firing) = true →
  (steps r e ss).2.*2 = const TransitionNone <$> ss.*2.
Proof.
  intros Hss. revert e st. induction Hss as [|[s now] ss [Hk Hc] Hss IH]; intros e st He Hf; [done|].
  cbn in *. unfold Step. rewrite Hc, Hk, He, Hf. cbn.
  destruct (steps r _ ss) as [e' ts] eqn:E. cbn. f_equal.
  specialize (IH (<[k := mkEvalState (first st) now true (set_aEval now (sValue s) (alert st))]> e) _
    ltac:(apply lookup_insert_eq) eq_refl). by rewrite E in IH.
Qed.

Lemma steps_pending r e ss k st :
  Forall (λ sn, Key r sn.1 = k ∧ trueCond r sn.1 = true) ss → e !! k = Some st → st.(firing) = false →
  (steps r e ss).2.*2 = mark_first (λ now, r.(rFor) <=? Sub now st.(first)) ss.*2.
Proof.
  intros Hss. revert e st. induction Hss as [|[s now] ss [Hk Hc] Hss IH]; intros e st He Hf; [done|].
  cbn in *. unfold Step. rewrite Hc, Hk, He, Hf. cbn. destruct (rFor r <=? Sub now (first st)).
  - pose proof (steps_firing r (<[k := mkEvalState (first st) now true (set_aState StateFiring (set_aEval now (sValue s) (alert st)))]> e)
      ss k _ Hss ltac:(apply lookup_insert_eq) eq_refl) as Hs.
    destruct (steps r _ ss) as [e' ts]. cbn in *. by rewrite Hs.
  - specialize (IH (<[k := mkEvalState (first st) now false (set_aEval now (sValue s) (alert st))]> e) _
      ltac:(apply lookup_insert_eq) eq_refl). cbn in IH.
    destruct (steps r _ ss) as [e' ts]. cbn in *. by rewrite IH.
Qed.

(** ** Properties *)

(** After any sequence of operations, undone ones included, every entry is
    consistent: it is filed under its alert's key, its alert says firing exactly
    when the entry does and pending otherwise, and the alert started when the
    entry's timer did. *)
Theorem evaluator_invariant os : eval_ok (apply_all NewEvaluator os).1.
Proof. apply apply_all_ok, map_Forall_empty. Qed.

(** Fired and resolved alternate. Over any sequence of operations, the number
    of times a key fired exceeds the number of times it resolved by one exactly
    when it is firing at the end (and by minus one when it only was so before):
    no episode fires twice, none resolves that did not fire. *)
Theorem fired_resolved_alternate os e k :
  forallb keeps_history os = true →
  let '(e', ts) := apply_all e os in
  count_transition TransitionFired k ts - count_transition TransitionResolved k ts =
    Z.b2z (firing_at e' k) - Z.b2z (firing_at e k).
Proof.
  revert e. induction os as [|o os IH]; intros e Hh; cbn.
  { unfold count_transition. cbn. lia. }
  cbn in Hh. apply andb_true_iff in Hh as [Ho Hh]. pose proof (apply_balance e o k Ho) as H1.
  destruct (apply e o) as [e1 ts1]. specialize (IH e1 Hh). destruct (apply_all e1 os) as [e2 ts2].
  rewrite !count_transition_app. lia.
Qed.

(** C28: The [For] timer. A rule whose condition holds at every one of a run of
    samples of a new key opens an episode at the first (or fires at once if [For]
    is zero) and fires at the first later pass at which [For] has elapsed since the
    first sample's own timestamp; never before, never twice. *)
Theorem fires_exactly_when_due r e s now rest :
  e !! Key r s = None →
  Forall (λ sn, Key r sn.1 = Key r s ∧ trueCond r sn.1 = true) ((s, now) :: rest) →
  let start := if IsZero s.(sTS) then now else s.(sTS) in
  (steps r e ((s, now) :: rest)).2.*2 =
    if r.(rFor) =? 0 then TransitionFired :: (const TransitionNone <$> rest.*2)
    else TransitionOpened :: mark_first (λ t, r.(rFor) <=? Sub t start) rest.*2.
Proof.
  intros He [[_ Hc] Hrest]%Forall_cons start. cbn in Hc. cbn [steps]. unfold Step. rewrite Hc, He. cbn.
  fold start. destruct (rFor r =? 0) eqn:Ef.
  - set (e1 := insert _ _ e). pose proof (steps_firing r e1 rest (Key r s) _ Hrest ltac:(apply lookup_insert_eq) eq_refl) as Hs.
    destruct (steps r e1 rest) as [e' ts]. cbn in *. by rewrite Hs.
  - set (e1 := insert _ _ e). pose proof (steps_pending r e1 rest (Key r s) _ Hrest ltac:(apply lookup_insert_eq) eq_refl) as Hs.
    destruct (steps r e1 rest) as [e' ts]. cbn in *. by rewrite Hs.
Qed.

(** [Unsampled] returns, in key order and without duplicates, exactly the
    episodes of the selected rules last sampled before the cutoff; [Forget] removes
    exactly the pending entries last seen before its cutoff, never a firing one,
    and counts them. *)
Theorem unsampled_and_forget_exact include cutoff before e :
  eval_ok e →
  (∀ a, a ∈ Unsampled include cutoff e ↔
     ∃ st, e !! a.(aKey) = Some st ∧ st.(alert) = a ∧ include a.(aRuleID) = true ∧ st.(seen) < cutoff) ∧
  NoDup (Unsampled include cutoff e) ∧
  StronglySorted (not_after alert_key_lt) (Unsampled include cutoff e) ∧
  (∀ k st, (Forget before e).2 !! k = Some st ↔ e !! k = Some st ∧ ¬ (st.(firing) = false ∧ st.(seen) < before)) ∧
  ((Forget before e).1 + size (Forget before e).2)%nat = size e.
Proof.
  intros He. split_and!.
  - intros a. unfold Unsampled. rewrite elem_of_sort_slice, list_elem_of_omap. split.
    + intros ([k st] & Hk & Ha). apply elem_of_map_to_list in Hk. cbn in Ha. destruct (_ && _) eqn:E; [|done].
      injection Ha as <-. destruct (He _ _ Hk) as [-> _ _]. zbool. exists st. split_and!; try done. unfold Before in *. lia.
    + intros (st & Hk & Ha & Hi & Hs). exists (aKey a, st). split; [by apply elem_of_map_to_list|]. cbn.
      rewrite Ha, Hi. unfold Before. by rewrite (proj2 (Z.ltb_lt _ _) Hs).
  - unfold Unsampled. rewrite sort_slice_perm. apply NoDup_omap_inj; [|apply NoDup_map_to_list].
    intros [k1 st1] [k2 st2] a Hk1 Hk2 H1 H2.
    apply elem_of_map_to_list in Hk1, Hk2. cbn in *. destruct (_ && _) in H1; [|done]. destruct (_ && _) in H2; [|done].
    injection H1 as Ha1. injection H2 as Ha2. destruct (He _ _ Hk1) as [E1 _ _], (He _ _ Hk2) as [E2 _ _]. congruence.
  - apply (sort_slice_sorted _ (λ _, True)). by apply Forall_true.
  - intros k st. unfold Forget. cbn. rewrite map_lookup_filter_Some. unfold forgettable, Before. cbn. by rewrite Z.ltb_lt.
  - unfold Forget. cbn. apply size_filter_complement.
Qed.
End traces.

(** ** A concrete rule and its samples *)

Module Example_.
#[local] Instance uuid_decimal : UuidText := λ u, pretty.pretty u.

Definition slow : Rule := mkRule "slow" 1 true SeverityWarning ScopeInstance "m" GT (float_of_int 10) Minute "" "slow".
Definition sample (v : Z) (t : Time) : Sample := mkSample None (Some 7) "" ∅ (float_of_int v) t false.
Definition high (t : Z) : Sample * Time := (sample 20 (t * Second), t * Second).

Lemma fires_exactly_when_due_witness :
  (steps slow ∅ [high 100; high 130; high 160; high 190]).2.*2 =
    [TransitionOpened; TransitionNone; TransitionFired; TransitionNone].
Proof.
  etransitivity; [apply fires_exactly_when_due|vm_compute; reflexivity].
  - reflexivity.
  - repeat (constructor; [vm_compute; split; reflexivity|]). constructor.
Defined.

Lemma fired_resolved_alternate_witness :
  let os := [OpStep slow (sample 20 Second) Second; OpStep slow (sample 20 (99 * Second)) (99 * Second); OpForget (999 * Second)] in
  let '(e', ts) := apply_all ∅ os in
  count_transition TransitionFired (Key slow (sample 0 0)) ts - count_transition TransitionResolved (Key slow (sample 0 0)) ts =
    Z.b2z (firing_at e' (Key slow (sample 0 0))) - Z.b2z (firing_at ∅ (Key slow (sample 0 0))).
Proof. apply (fired_resolved_alternate _ ∅ (Key slow (sample 0 0))). reflexivity. Defined.

Lemma unsampled_and_forget_exact_witness :
  NoDup (Unsampled (λ _, true) Second (apply_all NewEvaluator [OpStep slow (sample 20 0) 5]).1).
Proof.
  apply (unsampled_and_forget_exact (λ _, true) Second Second). apply map_Forall_insert_2; [by split|apply map_Forall_empty].
Defined.
End Example_.
