(* ===== verification/AlertEngine.v ===== *)
(** * The alert engine (internal/alert/engine.go)

    One pass of the engine ([Tick]): leadership, restoring the open episodes,
    loading rules and silences, evaluating every rule on the samples of its
    sources, closing what was not sampled, purging, retrying. The database, the
    sources and the notifier are an interface ([EngineEnv]) over a world [W]; an
    operation of the interface takes the world to its result and a new world. The
    calls that matter are also recorded in a log.

    The engine is written in a state monad over [mach]: its own state, the world
    and the log. The store's contract ([StoreLaws]) is the one of pgStore's
    statements on the alerts table. *)
From S2P Require Import Prelude StateM GoTime GoFloat GoSort Pgtype AlertTypes AlertEval.

Definition error : Type := string.

(** [errors.Join] of what a pass collected; [nil] is the empty list. *)
Inductive tick_error :=
| ErrAcquire (e : error) | ErrTryLock (e : error) | ErrRestore (e : error) | ErrRules (e : error)
| ErrSilences (e : error) | ErrSample (ruleID : string) (e : error) | ErrPersist (key : string) (e : error)
| ErrNotify (key : string) (e : error) | ErrRefresh (key : string) (e : error)
| ErrCleared (ruleID : string) (e : error) | ErrPurge (e : error) | ErrRetry (e : error) | ErrCtx (e : error).

Definition defaultEngineInterval : Duration := 30 * Second.
Definition historyRetention : Duration := 90 * 24 * Hour.
Definition purgeInterval : Duration := Hour.
Definition metricGrace : Duration := 10 * Minute.

Definition spellEvents (t : string) : bool :=
  bool_decide (t ∈ ["instance_unreachable"; "no_primary_in_cluster"; "slot_inactive"; "slot_lost"]).

(** [lookback] of source_sql.go. *)
Definition lookback (interval : Duration) : Duration :=
  let interval := if interval <=? 0 then defaultEngineInterval else interval in
  let d := wrap64 (2 * interval) in
  if 2 * Minute <? d then d else 2 * Minute.

Definition endGrace (r : Rule) (interval : Duration) : Duration :=
  if spellEvents r.(rEventType) then lookback interval
  else if decide (r.(rEventType) ≠ "") then 0
  else metricGrace.

(** ** The interface to the rest of the system *)

Record Source (W : Type) := mkSource {
  Kind : string;
  Samples : Rule → Time → W → (error + list Sample) * W;
  Cleared : option (Rule → list Alert → W → (error + list Alert) * W); (* when it is a Clearer *)
}.
Arguments mkSource {W}. Arguments Kind {W}. Arguments Samples {W}. Arguments Cleared {W}.

Inductive lock_reply := LockErr (e : error) | LockNoRows | LockReply (locked : bool).

Class EngineEnv (W : Type) := {
  env_ctxErr : W → option error;
  env_noPool : bool;
  env_connClosed : W → bool;
  env_Ping : W → bool * W;
  env_Acquire : W → option error * W;
  env_TryLock : W → lock_reply * W;
  env_hasStore : bool;
  env_Active : W → (error + list Alert) * W;
  env_Rules : W → (error + list Rule) * W;
  env_Silences : Time → W → (error + list Silence) * W;
  env_Upsert : Alert → W → option error * W;
  env_Purge : option (Time → W → option error * W); (* when the store is a purger *)
  env_Notify : option (Alert → W → option error * W); (* when there is a notifier *)
  env_Retry : option (W → option error * W); (* when it is a retrier *)
  env_Settle : option (list Alert → W → W); (* when it is a settler *)
  env_sources : list (Source W);
}.

Record Engine := mkEngine {
  interval : Duration;
  eval : Evaluator;
  has_conn : bool;
  hasLock : bool;
  stateLoaded : bool;
  purgedAt : Time;
}.

Definition newEngine (interval : Duration) : Engine := mkEngine interval NewEvaluator false false false zero_time.

Definition NewEngineWithInterval (interval : Duration) : Engine :=
  newEngine (if interval <=? 0 then defaultEngineInterval else interval).

(** The calls a run makes: the write of a transition, the rewrite of an episode that goes on,
    a notification, the silences a pass works with, the samples of a rule, a purge. *)
Inductive call :=
| CUpsert (a : Alert) (ok : bool)
| CRefresh (a : Alert) (ok : bool)
| CNotify (a : Alert)
| CSilences (now : Time) (silences : list Silence)
| CSamples (ruleID : string)
| CPurge (before : Time).

(** ** The monad *)

Record mach (W : Type) := mkMach { eng : Engine; world : W; log : list call }.
Arguments mkMach {W}. Arguments eng {W}. Arguments world {W}. Arguments log {W}.

Notation M W := (ST (mach W)).

Section engine.
Context {W : Type} `{EngineEnv W} `{UuidText} `{Regexp}.

Definition get_eng : M W Engine := λ s, (s.(eng), s).
Definition set_eval (f : Evaluator → Evaluator) : M W unit := λ s,
  ((), mkMach (mkEngine s.(eng).(interval) (f s.(eng).(eval)) s.(eng).(has_conn) s.(eng).(hasLock) s.(eng).(stateLoaded) s.(eng).(purgedAt)) s.(world) s.(log)).
Definition set_lock (conn lock : bool) : M W unit := λ s,
  ((), mkMach (mkEngine s.(eng).(interval) s.(eng).(eval) conn lock s.(eng).(stateLoaded) s.(eng).(purgedAt)) s.(world) s.(log)).
Definition set_loaded (b : bool) : M W unit := λ s,
  ((), mkMach (mkEngine s.(eng).(interval) s.(eng).(eval) s.(eng).(has_conn) s.(eng).(hasLock) b s.(eng).(purgedAt)) s.(world) s.(log)).
Definition set_purgedAt (t : Time) : M W unit := λ s,
  ((), mkMach (mkEngine s.(eng).(interval) s.(eng).(eval) s.(eng).(has_conn) s.(eng).(hasLock) s.(eng).(stateLoaded) t) s.(world) s.(log)).
Definition record_call (c : call) : M W unit := λ s, ((), mkMach s.(eng) s.(world) (s.(log) ++ [c])).
Definition ask {A} (f : W → A) : M W A := λ s, (f s.(world), s).
Definition call_env {A} (f : W → A * W) : M W A := λ s, let '(a, w) := f s.(world) in (a, mkMach s.(eng) w s.(log)).
Definition run_step (r : Rule) (s : Sample) (now : Time) : M W (option Alert * Transition) := λ m,
  let '(a, t, e) := Step r s now m.(eng).(eval) in ((a, t), (set_eval (const e) m).2).
Definition run_end (k : string) (now : Time) : M W (option Alert * Transition) := λ m,
  let '(a, t, e) := End_ k now m.(eng).(eval) in ((a, t), (set_eval (const e) m).2).
Definition checkpoint (k : string) : M W (option evalState) := λ m, (Checkpoint k m.(eng).(eval), m).

(** ** Leadership *)

Definition releaseLeaderConn : M W unit := set_lock false false.

(** Ask for the advisory lock on the connection the engine holds. *)
Definition try_lock : M W (option tick_error) :=
  r ← call_env env_TryLock;
  match r with
  | LockErr e => releaseLeaderConn;; mret (Some (ErrTryLock e))
  | LockNoRows => set_lock true false;; mret None
  | LockReply locked =>
      set_lock true locked;;
      (if locked : bool then set_eval Reset;; set_loaded false else mret ());;
      mret None
  end.

Definition ensureLeader : M W (option tick_error) :=
  if env_noPool then e ← get_eng; set_lock e.(has_conn) true;; mret None
  else
    e ← get_eng;
    closed ← ask env_connClosed;
    (if e.(has_conn) && closed then releaseLeaderConn else mret ());;
    e ← get_eng;
    alive ← (if e.(hasLock) && e.(has_conn) then
               ok ← call_env env_Ping;
               (if ok : bool then mret true else releaseLeaderConn;; mret false)
             else mret false);
    if alive : bool then mret None
    else
      e ← get_eng;
      if e.(has_conn) then try_lock
      else
        err ← call_env env_Acquire;
        match err with
        | Some e => mret (Some (ErrAcquire e))
        | None => e ← get_eng; set_lock true e.(hasLock);; try_lock
        end.

(** ** Publishing *)

Definition refresh (a : Alert) : M W (list tick_error) :=
  if env_hasStore then
    r ← call_env (env_Upsert a);
    record_call (CRefresh a (bool_decide (r = None)));;
    mret (match r with Some e => [ErrRefresh a.(aKey) e] | None => [] end)
  else mret [].

Definition notify (a : Alert) : M W (list tick_error) :=
  match env_Notify with
  | Some f =>
      if a.(aSuppressed) then mret []
      else
        record_call (CNotify a);;
        r ← call_env (f a);
        mret (match r with Some e => [ErrNotify a.(aKey) e] | None => [] end)
  | None => mret []
  end.

Definition publish (a : Alert) (silences : list Silence) (now : Time) (key : string) (prev : option evalState) : M W (list tick_error) :=
  let a := set_aSuppressed (bool_decide (is_Some (FirstMatch silences a now))) a in
  if env_hasStore then
    r ← call_env (env_Upsert a);
    record_call (CUpsert a (bool_decide (r = None)));;
    match r with
    | Some e => set_eval (undo key prev);; mret [ErrPersist a.(aKey) e]
    | None => notify a
    end
  else notify a.

(** ** Evaluating a rule *)

(** [inl] leaves [Tick] with these errors, [inr] goes on. *)
Definition one_sample (rule : Rule) (silences : list Silence) (now : Time) (s : Sample) : M W (list tick_error + list tick_error) :=
  prev ← checkpoint (Key rule s);
  at_ ← run_step rule s now;
  match at_ with
  | (Some a, TransitionNone) =>
      if decide (a.(aState) = StateFiring) then errs ← refresh a; mret (inr errs) else mret (inr [])
  | (Some a, TransitionFired) | (Some a, TransitionResolved) =>
      errs ← publish a silences now (Key rule s) prev;
      c ← ask env_ctxErr;
      match c with
      | Some e => mret (inl (errs ++ [ErrCtx e]))
      | None => mret (inr errs)
      end
  | _ => mret (inr [])
  end.

Fixpoint sample_loop (rule : Rule) (silences : list Silence) (now : Time) (samples : list Sample)
    (errs : list tick_error) : M W (list tick_error + list tick_error) :=
  match samples with
  | [] => mret (inr errs)
  | s :: samples =>
      r ← one_sample rule silences now s;
      match r with
      | inl es => mret (inl (errs ++ es))
      | inr es => sample_loop rule silences now samples (errs ++ es)
      end
  end.

Definition wrong_kind (rule : Rule) (s : Source W) : bool :=
  (negb (bool_decide (rule.(rEventType) = "")) && negb (bool_decide (s.(Kind) = "event"))) ||
  (bool_decide (rule.(rEventType) = "") && negb (bool_decide (s.(Kind) = "metric"))).

(** The sources of one rule; [observed] counts those that answered. *)
Fixpoint source_loop (rule : Rule) (silences : list Silence) (now : Time) (sources : list (Source W))
    (errs : list tick_error) (observed : nat) (failed : bool) : M W (list tick_error + list tick_error * nat * bool) :=
  match sources with
  | [] => mret (inr (errs, observed, failed))
  | src :: sources =>
      if wrong_kind rule src then source_loop rule silences now sources errs observed failed
      else
        record_call (CSamples rule.(rID));;
        r ← call_env (src.(Samples) rule now);
        match r with
        | inl e =>
            let errs := errs ++ [ErrSample rule.(rID) e] in
            c ← ask env_ctxErr;
            match c with
            | Some _ => mret (inl errs)
            | None => source_loop rule silences now sources errs observed true
            end
        | inr samples =>
            r ← sample_loop rule silences now samples errs;
            match r with
            | inl errs => mret (inl errs)
            | inr errs => source_loop rule silences now sources errs (S observed) failed
            end
        end
  end.

(** ** Closing what a pass did not confirm *)

Fixpoint clearedBy (sources : list (Source W)) (rule : Rule) (episodes : list Alert) : M W (error + list Alert) :=
  match sources with
  | [] => mret (inr [])
  | s :: sources =>
      match s.(Cleared) with
      | Some f => if decide (s.(Kind) = "event") then call_env (f rule episodes) else clearedBy sources rule episodes
      | None => clearedBy sources rule episodes
      end
  end.

(** The body of the loop over the closing episodes. *)
Definition close_one (silences : list Silence) (now : Time) (a : Alert) : M W (list tick_error) :=
  prev ← checkpoint a.(aKey);
  rt ← run_end a.(aKey) now;
  match rt with
  | (Some resolved, TransitionResolved) => publish resolved silences now a.(aKey) prev
  | _ => mret []
  end.

Fixpoint close_loop (silences : list Silence) (now : Time) (closing : list Alert) (errs : list tick_error) : M W (list tick_error) :=
  match closing with
  | [] => mret errs
  | a :: closing =>
      es ← close_one silences now a;
      close_loop silences now closing (errs ++ es)
  end.

Definition endUnsampled (rule : option Rule) (silences : list Silence) (now : Time) (unsampled : list Alert) : M W (list tick_error) :=
  match unsampled with
  | [] => mret []
  | _ =>
      match rule with
      | Some r =>
          if spellEvents r.(rEventType) then
            c ← clearedBy env_sources r unsampled;
            match c with
            | inl e => mret [ErrCleared r.(rID) e]
            | inr cleared => close_loop silences now cleared []
            end
          else close_loop silences now unsampled []
      | None => close_loop silences now unsampled []
      end
  end.

(** Only a rule that all its sources answered may close its unsampled episodes. *)
Definition end_rule (rule : Rule) (silences : list Silence) (now : Time) (observed : nat) (failed : bool) : M W (list tick_error) :=
  if (0 <? Z.of_nat observed) && negb failed then
    e ← get_eng;
    endUnsampled (Some rule) silences now
      (Unsampled (λ id, bool_decide (id = rule.(rID))) (Add now (- endGrace rule e.(interval))) e.(eval))
  else mret [].

Fixpoint rule_loop (silences : list Silence) (now : Time) (rules : list Rule) (errs : list tick_error) :
    M W (list tick_error + list tick_error) :=
  match rules with
  | [] => mret (inr errs)
  | rule :: rules =>
      r ← source_loop rule silences now env_sources errs 0 false;
      match r with
      | inl errs => mret (inl errs)
      | inr (errs, observed, failed) =>
          es ← end_rule rule silences now observed failed;
          rule_loop silences now rules (errs ++ es)
      end
  end.

Definition purgeHistory (now : Time) : M W (list tick_error) :=
  match env_Purge with
  | None => mret []
  | Some purge =>
      e ← get_eng;
      if IsZero e.(purgedAt) || (purgeInterval <=? Sub now e.(purgedAt)) then
        set_purgedAt now;;
        record_call (CPurge (Add now (- historyRetention)));;
        r ← call_env (purge (Add now (- historyRetention)));
        mret (match r with Some e => [ErrPurge e] | None => [] end)
      else mret []
  end.

Definition restore_active (now : Time) : M W (option tick_error) :=
  e ← get_eng;
  if e.(stateLoaded) then mret None
  else if env_hasStore then
    r ← call_env env_Active;
    match r with
    | inl e => mret (Some (ErrRestore e))
    | inr active => set_eval (λ ev, foldl (λ ev a, Restore a now ev) ev active);; set_loaded true;; mret None
    end
  else set_loaded true;; mret None.

(** The rules of a pass: the built-in ones, and the enabled stored ones that do
    not take a built-in id. *)
Definition pass_rules (stored : list Rule) : list Rule :=
  Builtin ++ filter (λ r, r.(rEnabled) = true ∧ r.(rID) ∉ rID <$> Builtin) stored.

Definition evaluate_pass (now : Time) (rules : list Rule) (silences : list Silence) : M W (list tick_error) :=
  r ← rule_loop silences now rules [];
  match r with
  | inl errs => mret errs
  | inr errs =>
      e ← get_eng;
      es1 ← endUnsampled None silences now
              (Unsampled (λ id, negb (bool_decide (id ∈ rID <$> rules))) now e.(eval));
      set_eval (λ ev, (Forget (Add now (- Hour)) ev).2);;
      es2 ← purgeHistory now;
      es3 ← (match env_Retry with
             | None => mret []
             | Some retry =>
                 e ← get_eng;
                 (match env_Settle with
                  | Some settle => call_env (λ w, ((), settle (Firing e.(eval)) w))
                  | None => mret ()
                  end);;
                 r ← call_env retry;
                 mret (match r with Some e => [ErrRetry e] | None => [] end)
             end);
      mret (errs ++ es1 ++ es2 ++ es3)
  end.

Definition Tick (now : Time) : M W (list tick_error) :=
  lerr ← ensureLeader;
  match lerr with
  | Some e => mret [e]
  | None =>
      e ← get_eng;
      if negb e.(hasLock) then mret []
      else
        rerr ← restore_active now;
        match rerr with
        | Some e => mret [e]
        | None =>
            rs ← (if env_hasStore then call_env env_Rules else mret (inr []));
            match rs with
            | inl e => mret [ErrRules e]
            | inr stored =>
                ss ← (if env_hasStore then call_env (env_Silences now) else mret (inr []));
                match ss with
                | inl e => mret [ErrSilences e]
                | inr silences => record_call (CSilences now silences);; evaluate_pass now (pass_rules stored) silences
                end
            end
        end
  end.
End engine.

(** ** Reasoning about passes

    A pass is put together from a few building blocks; [pass_inv] lists what each has to preserve, and
    [evaluate_pass_keeps] is the induction over rules, sources and samples, done
    once. [good f] is what is assumed of a call of the interface that a pass makes,
    [lock_good] of the calls that settle leadership. *)
Lemma keeps_get {W} (I : mach W → Prop) : keeps I get_eng.
Proof. by intros s Hs. Qed.

Lemma keeps_ask {W A} (I : mach W → Prop) (f : W → A) : keeps I (ask f).
Proof. by intros s Hs. Qed.

#[export] Hint Resolve keeps_get keeps_ask : pglens.

(** Peel a monadic computation, leaving its calls. *)
Ltac peel := repeat first [apply keeps_get | apply keeps_ask | peel_step].

Section scheme.
Context {W : Type} `{EngineEnv W} `{UuidText} `{Regexp}.
Context (good : ∀ A, (W → A * W) → Prop).

Record env_good : Prop := {
  eg_Active : good _ env_Active;
  eg_Rules : good _ env_Rules;
  eg_Silences now : good _ (env_Silences now);
  eg_Purge f t : env_Purge = Some f → good _ (f t);
  eg_Notify f a : env_Notify = Some f → good _ (f a);
  eg_Retry f : env_Retry = Some f → good _ f;
  eg_Settle f l : env_Settle = Some f → good _ (λ w, ((), f l w));
  eg_Samples src r now : src ∈ env_sources → good _ (src.(Samples) r now);
  eg_Cleared src f r l : src ∈ env_sources → src.(Cleared) = Some f → good _ (f r l);
}.

Context (now : Time) (sil : list Silence).

Record pass_inv (I : mach W → Prop) : Prop := {
  pi_call A (f : W → A * W) : good A f → keeps I (call_env f);
  pi_sample r s : keeps I (one_sample r sil now s);
  pi_close a : keeps I (close_one sil now a);
  pi_samples id : keeps I (record_call (CSamples id));
  pi_purge t : keeps I (record_call (CPurge t));
  pi_purgedAt t : keeps I (set_purgedAt t);
  pi_forget t : keeps I (set_eval (λ ev, (Forget t ev).2));
}.

Context (Hgood : env_good) (I : mach W → Prop) (HI : pass_inv I).

Lemma sample_loop_keeps r ss errs : keeps I (sample_loop r sil now ss errs).
Proof using HI.
  revert errs. induction ss as [|s ss IH]; intros errs; cbn; [apply keeps_ret|].
  apply keeps_bind; [by apply HI|]. intros [es|es]; [apply keeps_ret|apply IH].
Qed.

Lemma source_loop_keeps r srcs errs n b :
  (∀ src, src ∈ srcs → src ∈ env_sources) → keeps I (source_loop r sil now srcs errs n b).
Proof using HI Hgood.
  revert errs n b. induction srcs as [|src srcs IH]; intros errs n b Hin; cbn; [apply keeps_ret|].
  assert (∀ src', src' ∈ srcs → src' ∈ env_sources) as Hin' by (intros; apply Hin; by right).
  destruct (wrong_kind r src); [by apply IH|].
  apply keeps_bind; [by apply HI|]. intros _.
  apply keeps_bind; [apply HI, Hgood, Hin; by left|]. intros [e|samples].
  - apply keeps_bind; [apply keeps_ask|]. intros [c|]; [apply keeps_ret|by apply IH].
  - apply keeps_bind; [apply sample_loop_keeps|]. intros [es|es]; [apply keeps_ret|by apply IH].
Qed.

Lemma close_loop_keeps l errs : keeps I (close_loop sil now l errs).
Proof using HI.
  revert errs. induction l as [|a l IH]; intros errs; cbn; [apply keeps_ret|].
  apply keeps_bind; [by apply HI|]. intros es. apply IH.
Qed.

Lemma clearedBy_keeps srcs r l : (∀ src, src ∈ srcs → src ∈ env_sources) → keeps I (clearedBy srcs r l).
Proof using HI Hgood.
  induction srcs as [|src srcs IH]; intros Hin; cbn; [apply keeps_ret|].
  assert (keeps I (clearedBy srcs r l)) as Hrest by (apply IH; intros; apply Hin; by right).
  destruct (Cleared src) as [f|] eqn:E; [|done]. case_decide; [|done].
  apply HI. eapply (eg_Cleared Hgood); [|done]. apply Hin. by left.
Qed.

Lemma endUnsampled_keeps r l : keeps I (endUnsampled r sil now l).
Proof using HI Hgood.
  unfold endUnsampled. destruct l as [|a l]; [apply keeps_ret|].
  destruct r as [r|]; [|apply close_loop_keeps]. destruct (spellEvents _); [|apply close_loop_keeps].
  apply keeps_bind; [by apply clearedBy_keeps|]. intros [e|cl]; [apply keeps_ret|apply close_loop_keeps].
Qed.

Lemma rule_loop_keeps rules errs : keeps I (rule_loop sil now rules errs).
Proof using HI Hgood.
  revert errs. induction rules as [|r rules IH]; intros errs; cbn; [apply keeps_ret|].
  apply keeps_bind; [by apply source_loop_keeps|]. intros [es|[[es n] b]]; [apply keeps_ret|].
  apply keeps_bind; [|intros es'; apply IH]. unfold end_rule. destruct (_ && _); [|apply keeps_ret].
  apply keeps_bind; [apply keeps_get|]. intros e. apply endUnsampled_keeps.
Qed.

Lemma purgeHistory_keeps : keeps I (purgeHistory now).
Proof using HI Hgood.
  unfold purgeHistory. destruct env_Purge as [f|] eqn:E; [|apply keeps_ret]. peel; try by apply HI.
  apply HI. by eapply (eg_Purge Hgood).
Qed.

Lemma evaluate_pass_keeps rules : keeps I (evaluate_pass now rules sil).
Proof using HI Hgood.
  unfold evaluate_pass. apply keeps_bind; [apply rule_loop_keeps|]. intros [es|es]; [apply keeps_ret|].
  apply keeps_bind; [apply keeps_get|]. intros e.
  apply keeps_bind; [apply endUnsampled_keeps|]. intros es1.
  apply keeps_bind; [by apply HI|]. intros _.
  apply keeps_bind; [apply purgeHistory_keeps|]. intros es2.
  apply keeps_bind; [|intros es3; apply keeps_ret].
  destruct env_Retry as [f|] eqn:Er; [|apply keeps_ret].
  apply keeps_bind; [apply keeps_get|]. intros e'.
  apply keeps_bind; [|intros _; apply keeps_bind; [|intros ?; apply keeps_ret]].
  - destruct env_Settle as [g|] eqn:Es; [|apply keeps_ret]. apply HI. by apply (eg_Settle Hgood).
  - apply HI. by apply (eg_Retry Hgood).
Qed.
End scheme.

Section leader.
Context {W : Type} `{EngineEnv W} `{UuidText} `{Regexp}.
Context (I : mach W → Prop).
Context (Icall : ∀ A (f : W → A * W), keeps I (call_env f)).
Context (Ilock : ∀ b1 b2, keeps I (set_lock b1 b2)).
Context (Iterm : keeps I (set_eval Reset;; set_loaded false)).

Lemma try_lock_keeps : keeps I try_lock.
Proof using All.
  unfold try_lock. apply keeps_bind; [apply Icall|]. intros [e| |[]]; [peel; apply Ilock..| |peel; apply Ilock].
  apply keeps_bind; [apply Ilock|]. intros _. apply keeps_bind; [exact Iterm|]. intros _. apply keeps_ret.
Qed.

#[local] Opaque try_lock.

Lemma ensureLeader_keeps : keeps I ensureLeader.
Proof using All.
  unfold ensureLeader. destruct env_noPool; [peel; apply Ilock|].
  peel; try apply Ilock; try apply try_lock_keeps; apply Icall.
Qed.
End leader.

(** ** Nothing is notified that is not on record *)

(** The silences the latest pass of a log works with, with its instant. *)
Definition pass_silences (l : list call) : option (Time * list Silence) :=
  last (omap (λ c, match c with CSilences now sil => Some (now, sil) | _ => None end) l).

Lemma pass_silences_snoc l c :
  pass_silences (l ++ [c]) = match c with CSilences now sil => Some (now, sil) | _ => pass_silences l end.
Proof. unfold pass_silences. rewrite omap_app. destruct c; cbn; by rewrite ?app_nil_r, ?last_snoc. Qed.

(** A call that no notification goes with. *)
Definition quiet (c : call) : bool := match c with CNotify _ | CUpsert _ true => false | _ => true end.

Section persist.
Context {W : Type} `{EngineEnv W} `{UuidText} `{Regexp}.

(** Whether a silence of the pass in progress covers an alert. *)
Definition silenced (l : list call) (a : Alert) : Prop :=
  ∃ now sil z, pass_silences l = Some (now, sil) ∧ z ∈ sil ∧ Active z now = true ∧ Matches z a = true.

(** The logs the engine writes: a transition that is on record is notified at once, unless a
    silence of its pass covers it or there is no notifier. *)
Inductive good_log : list call → Prop :=
| good_nil : good_log []
| good_quiet l c : good_log l → quiet c = true → good_log (l ++ [c])
| good_silenced l a : good_log l → silenced l a → good_log (l ++ [CUpsert a true])
| good_unheard l a : good_log l → env_Notify (W:=W) = None → good_log (l ++ [CUpsert a true])
| good_notified l a : good_log l → is_Some (pass_silences l) → ¬ silenced l a → good_log (l ++ [CUpsert a true; CNotify a]).

Lemma split_snoc {A} (l : list A) c l1 x l2 : l ++ [c] = l1 ++ x :: l2 →
  (l = l1 ∧ x = c ∧ l2 = []) ∨ ∃ l2', l2 = l2' ++ [c] ∧ l = l1 ++ x :: l2'.
Proof.
  destruct l2 as [|y l2 _] using rev_ind; intros E.
  - apply app_inj_tail in E as [-> ->]. by left.
  - rewrite app_comm_cons, (assoc_L (++)) in E. apply app_inj_tail in E as [-> ->]. right. by exists l2.
Qed.

(** A notification stands right after the write of that alert, which nothing silenced. *)
Lemma good_log_notified l : good_log l → ∀ l1 a l2, l = l1 ++ CNotify a :: l2 →
  ∃ l0, l1 = l0 ++ [CUpsert a true] ∧ is_Some (pass_silences l0) ∧ ¬ silenced l0 a.
Proof.
  induction 1 as [|l c _ IH Hc|l b _ IH _|l b _ IH _|l b _ IH Hp Hn]; intros l1 a l2 E.
  - by destruct l1.
  - apply split_snoc in E as [(-> & <- & _)|(l2' & _ & E)]; [done|by eapply IH].
  - apply split_snoc in E as [(_ & ? & _)|(l2' & _ & E)]; [done|by eapply IH].
  - apply split_snoc in E as [(_ & ? & _)|(l2' & _ & E)]; [done|by eapply IH].
  - change [CUpsert b true; CNotify b] with ([CUpsert b true] ++ [CNotify b]) in E. rewrite (assoc_L (++)) in E.
    apply split_snoc in E as [(<- & [= ->] & _)|(l2' & _ & E)]; [by exists l|].
    apply split_snoc in E as [(_ & ? & _)|(l2'' & _ & E)]; [done|by eapply IH].
Qed.

(** A recorded transition that nothing silences is notified at once. *)
Lemma good_log_recorded l : is_Some (env_Notify (W:=W)) → good_log l → ∀ l1 a l2, l = l1 ++ CUpsert a true :: l2 →
  silenced l1 a ∨ ∃ l3, l2 = CNotify a :: l3.
Proof.
  intros Hnot. induction 1 as [|l c _ IH Hc|l b _ IH Hs|l b _ IH Hn|l b _ IH Hp Hn]; intros l1 a l2 E.
  - by destruct l1.
  - apply split_snoc in E as [(-> & <- & _)|(l2' & -> & E)]; [done|]. destruct (IH _ _ _ E) as [?|[l3 ->]]; [by left|right]. by eexists.
  - apply split_snoc in E as [(<- & [= ->] & _)|(l2' & -> & E)]; [by left|]. destruct (IH _ _ _ E) as [?|[l3 ->]]; [by left|right]. by eexists.
  - rewrite Hn in Hnot. by destruct Hnot.
  - change [CUpsert b true; CNotify b] with ([CUpsert b true] ++ [CNotify b]) in E. rewrite (assoc_L (++)) in E.
    apply split_snoc in E as [(_ & ? & _)|(l2' & -> & E)]; [done|].
    apply split_snoc in E as [(<- & [= ->] & ->)|(l2'' & -> & E)]; [right; by eexists|].
    destruct (IH _ _ _ E) as [?|[l3 ->]]; [by left|right]. by eexists.
Qed.

Context (Hstore : env_hasStore (W:=W) = true).

Let J (s : mach W) : Prop := good_log s.(log).

(** What holds within a pass. *)
Let I (now : Time) (sil : list Silence) (s : mach W) : Prop := J s ∧ pass_silences s.(log) = Some (now, sil).

Lemma call_keeps_log {A} (P : list call → Prop) (f : W → A * W) : keeps (λ s, P s.(log)) (call_env f).
Proof. intros s Hs. unfold call_env. by destruct (f (world s)). Qed.

Section pass.
Context (now : Time) (sil : list Silence).

Lemma record_keeps_I c : quiet c = true → match c with CSilences _ _ => False | _ => True end → keeps (I now sil) (record_call c).
Proof. intros Hc Hs s [Hl Hp]. split; [by constructor|]. cbn. rewrite pass_silences_snoc. by destruct c. Qed.

Lemma call_keeps_I {A} (f : W → A * W) : keeps (I now sil) (call_env f).
Proof. apply (call_keeps_log (λ l, good_log l ∧ pass_silences l = Some (now, sil))). Qed.

Lemma refresh_keeps_I a : keeps (I now sil) (refresh a).
Proof using Hstore. unfold refresh. rewrite Hstore. peel; [apply call_keeps_I|by apply record_keeps_I]. Qed.

Lemma silenced_iff l a b : pass_silences l = Some (now, sil) →
  silenced l (set_aSuppressed b a) ↔ is_Some (FirstMatch sil a now).
Proof.
  intros Hp. split.
  - intros (now' & sil' & z & E & Hz & Ha & Hm). rewrite Hp in E. injection E as <- <-.
    destruct (FirstMatch sil a now) eqn:Ef; [done|]. change (Matches z a = true) in Hm. by rewrite (proj1 (FirstMatch_None _ _ _) Ef z Hz Ha) in Hm.
  - intros [z (Hz & Ha & Hm)%FirstMatch_Some]. by exists now, sil, z.
Qed.

Lemma publish_keeps_I a k prev : keeps (I now sil) (publish a sil now k prev).
Proof using Hstore.
  intros s [Hl Hp]. unfold publish. rewrite Hstore. set (b := bool_decide _). set (a' := set_aSuppressed b a).
  unfold mbind, ST_bind, call_env. destruct (env_Upsert a' (world s)) as [[e|] w]; unfold record_call; cbn [eng world log].
  { split; cbn; [by constructor|by rewrite pass_silences_snoc]. }
  unfold notify. change (aSuppressed a') with b.
  assert (pass_silences (log s ++ [CUpsert a' true]) = Some (now, sil)) as Hp1 by (by rewrite pass_silences_snoc).
  destruct env_Notify as [f|] eqn:En; [|split; [by apply good_unheard|done]]. destruct b eqn:Eb.
  { split; [|done]. apply good_silenced; [done|]. apply silenced_iff; [done|]. by apply bool_decide_eq_true in Eb. }
  unfold mbind, ST_bind, record_call, call_env. cbn [eng world log]. destruct (f a' w) as [r w']. cbn. split; cbn [log].
  - rewrite <- (assoc_L (++)). apply good_notified; [done|by rewrite Hp|]. unfold a'. rewrite (silenced_iff _ a false Hp). by apply bool_decide_eq_false in Eb.
  - by rewrite pass_silences_snoc.
Qed.

Lemma log_pass : pass_inv (λ A f, True) now sil (I now sil).
Proof using Hstore.
  split.
  - intros A f _. apply call_keeps_I.
  - intros r smp. unfold one_sample. apply keeps_bind; [by intros s Hs|]. intros prev.
    apply keeps_bind; [intros s Hs; unfold run_step; by destruct (Step _ _ _ _) as [[??]?]|].
    intros [[a|] []]; peel; try apply refresh_keeps_I; try apply publish_keeps_I.
  - intros a. unfold close_one. apply keeps_bind; [by intros s Hs|]. intros prev.
    apply keeps_bind; [intros s Hs; unfold run_end; by destruct (End_ _ _ _) as [[??]?]|].
    intros [[r|] []]; peel; apply publish_keeps_I.
  - intros id. by apply record_keeps_I.
  - intros t. by apply record_keeps_I.
  - intros t. by intros s Hs.
  - intros t. by intros s Hs.
Qed.
End pass.

#[local] Opaque evaluate_pass.

Lemma Tick_keeps_log now : keeps J (Tick now).
Proof using Hstore.
  assert (∀ A (f : W → A * W), keeps J (call_env f)) as Hcall by (intros A f; apply (call_keeps_log good_log)).
  assert (∀ f, keeps J (set_eval f)) as Hev by (by intros f s Hs).
  assert (∀ b, keeps J (set_loaded b)) as Hld by (by intros f s Hs).
  assert (∀ rules sil, keeps J (record_call (CSilences now sil);; evaluate_pass now rules sil)) as Hpass.
  { intros rules sil s Hs. assert (I now sil (record_call (CSilences now sil) s).2) as Hi.
    { split; [by constructor|]. cbn. by rewrite pass_silences_snoc. }
    rewrite bind_run. by apply (evaluate_pass_keeps (λ A f, True) now sil ltac:(done) _ (log_pass now sil)). }
  unfold Tick. apply keeps_bind.
  { apply ensureLeader_keeps; [exact Hcall|by intros b1 b2 s Hs|]. apply keeps_bind; [apply Hev|intros _; apply Hld]. }
  intros [e|]; [apply keeps_ret|]. apply keeps_bind; [apply keeps_get|]. intros e. destruct (negb (hasLock e)); [apply keeps_ret|].
  apply keeps_bind; [unfold restore_active; peel; first [apply Hcall|apply Hev|apply Hld]|]. intros [r|]; [apply keeps_ret|].
  rewrite Hstore. apply keeps_bind; [apply Hcall|]. intros [r|stored]; [apply keeps_ret|].
  apply keeps_bind; [apply Hcall|]. intros [r|sil]; [apply keeps_ret|apply Hpass].
Qed.
End persist.

(** ** The alerts table

    [table] is the content of the alerts table that this engine's store works on,
    one row per key and start (at the precision of the column). [lost] is the keys
    of which a write has ever taken effect though its writer got an error (the
    answer was lost, or the deadline passed). [StoreLaws] says what pgStore's
    statements do to the table, that nothing else a pass calls touches the open
    rows, and what other engines may do while this one does not hold the lock:
    anything, as long as only a key in [lost] gets a second open row. *)
Notation alert_table := (gmap (string * Time) Alert).

Definition open_row (T : alert_table) (ks : string * Time) : Prop :=
  ∃ row, T !! ks = Some row ∧ row.(aState) ≠ StateResolved.

(** Every row is filed under its own key and start and is firing or resolved, and
    no key outside [L] has two open rows. *)
Record table_ok (L : gset string) (T : alert_table) : Prop := {
  tok_row ks row : T !! ks = Some row → ks = (row.(aKey), startOf row);
  tok_state ks row : T !! ks = Some row → row.(aState) = StateFiring ∨ row.(aState) = StateResolved;
  tok_unique k s s' : k ∉ L → open_row T (k, s) → open_row T (k, s') → s = s';
}.

(** The statement of [Upsert]. *)
Definition writes (a : Alert) (T T' : alert_table) : Prop :=
  ∃ row, T' = <[(a.(aKey), startOf a) := row]> T ∧
         row.(aKey) = a.(aKey) ∧ row.(aState) = a.(aState) ∧ startOf row = startOf a.

Section laws.
Context {W : Type} (table : W → alert_table) (lost : W → gset string).

(** The open rows are as they were, and no other row was written. *)
Definition undisturbed (w w' : W) : Prop :=
  (∀ ks, open_row (table w') ks ↔ open_row (table w) ks) ∧
  (∀ ks row, table w' !! ks = Some row → table w !! ks = Some row) ∧ lost w ⊆ lost w'.

(** Other engines may have written. *)
Definition elsewhere (w w' : W) : Prop := table_ok (lost w) (table w) → table_ok (lost w') (table w').
End laws.

Class StoreLaws (W : Type) `{EngineEnv W} := {
  table : W → alert_table;
  lost : W → gset string;
  law_hasStore : env_hasStore (W:=W) = true;
  law_Upsert_ok a w w' : env_Upsert a w = (None, w') → writes a (table w) (table w') ∧ lost w' = lost w;
  law_Upsert_err a w w' e : env_Upsert a w = (Some e, w') →
    (table w' = table w ∧ lost w' = lost w) ∨ (writes a (table w) (table w') ∧ lost w' = {[a.(aKey)]} ∪ lost w);
  law_Active w l w' : env_Active w = (inr l, w') →
    table w' = table w ∧ ∀ a, a ∈ l ↔ ∃ ks, table w !! ks = Some a ∧ a.(aState) ≠ StateResolved;
  law_others : env_good (λ A (f : W → A * W), ∀ w, undisturbed table lost w (f w).2);
  law_Ping w w' : env_Ping w = (true, w') → undisturbed table lost w w';
  law_Ping_lost w w' : env_Ping w = (false, w') → elsewhere table lost w w';
  law_Acquire w : elsewhere table lost w (env_Acquire w).2;
  law_TryLock w : elsewhere table lost w (env_TryLock w).2;
}.

(** The firing episodes of the evaluator are the open rows of the table, for the keys
    outside [L]. *)
Definition in_sync (L : gset string) (e : Evaluator) (T : alert_table) : Prop :=
  ∀ k s, k ∉ L → open_row T (k, s) ↔ ∃ st, e !! k = Some st ∧ st.(firing) = true ∧ startOf st.(alert) = s.

Definition fire_start (e : Evaluator) (k : string) : option Time :=
  match e !! k with
  | Some st => if st.(firing) then Some (startOf st.(alert)) else None
  | None => None
  end.

Lemma fire_start_Some e k s :
  fire_start e k = Some s ↔ ∃ st, e !! k = Some st ∧ st.(firing) = true ∧ startOf st.(alert) = s.
Proof.
  unfold fire_start. destruct (e !! k) as [st|]; [destruct (firing st) eqn:F|]; split.
  - intros [= <-]. eauto.
  - by intros (st' & [= <-] & _ & <-).
  - done.
  - intros (st' & [= <-] & ? & _). congruence.
  - done.
  - by intros (? & ? & _).
Qed.

Lemma in_sync_alt L e T : in_sync L e T ↔ ∀ k s, k ∉ L → open_row T (k, s) ↔ fire_start e k = Some s.
Proof. unfold in_sync. by setoid_rewrite fire_start_Some. Qed.

Lemma open_row_insert T ks row ks' :
  open_row (<[ks := row]> T) ks' ↔ if decide (ks = ks') then row.(aState) ≠ StateResolved else open_row T ks'.
Proof.
  unfold open_row. case_decide as E.
  - subst. rewrite lookup_insert_eq. naive_solver.
  - by rewrite lookup_insert_ne.
Qed.

Lemma table_ok_mono L L' T : L ⊆ L' → table_ok L T → table_ok L' T.
Proof. intros HL [H1 H2 H3]. split; [done..|]. intros k s s' Hk. apply H3. set_solver. Qed.

Lemma in_sync_mono L L' e T : L ⊆ L' → in_sync L e T → in_sync L' e T.
Proof. intros HL Hs k s Hk. apply Hs. set_solver. Qed.

Lemma table_ok_insert L T k s row :
  table_ok L T → row.(aKey) = k → startOf row = s → row.(aState) = StateFiring ∨ row.(aState) = StateResolved →
  (k ∉ L → row.(aState) ≠ StateResolved → ∀ s', open_row T (k, s') → s' = s) →
  table_ok L (<[(k, s) := row]> T).
Proof.
  intros [H1 H2 H3] Hk Hs Hst Hu. split.
  - intros ks row'. rewrite lookup_insert. case_decide as E; [|apply H1]. subst. by intros [= <-].
  - intros ks row'. rewrite lookup_insert. case_decide as E; [|apply H2]. by intros [= <-].
  - intros k' s1 s2 Hl. rewrite !open_row_insert. repeat case_decide; simplify_eq; try done.
    + intros Hr Ho. symmetry. by apply Hu.
    + intros Ho Hr. by apply Hu.
    + by apply H3.
Qed.

(** What a step does to the firing status of the keys, in one lemma per transition. *)
Section fire_start.
Context `{UuidText}.

Lemma startOf_set_aEval now v a : startOf (set_aEval now v a) = startOf a.
Proof. done. Qed.

Lemma Step_fire_start r s now e :
  eval_ok e →
  let '(a, t, e') := Step r s now e in let k := Key r s in
  (∀ k', k' ≠ k → fire_start e' k' = fire_start e k') ∧
  match a, t with
  | Some a, TransitionFired => fire_start e k = None ∧ fire_start e' k = Some (startOf a) ∧ aKey a = k ∧ aState a = StateFiring
  | Some a, TransitionResolved => fire_start e k = Some (startOf a) ∧ fire_start e' k = None ∧ aKey a = k ∧ aState a = StateResolved
  | Some a, TransitionNone => fire_start e' k = fire_start e k ∧ (aState a = StateFiring → fire_start e k = Some (startOf a) ∧ aKey a = k)
  | _, _ => fire_start e' k = fire_start e k
  end.
Proof.
  intros He. pose proof (Step_other r s now e) as Ho. unfold Step, fire_start in *.
  destruct (trueCond r s); cbn in *.
  - destruct (e !! Key r s) as [st|] eqn:Est.
    + destruct (He _ _ Est) as [Hk Hst Hf]. destruct (firing st) eqn:F; cbn in *.
      * split; [intros k' Hk'; by rewrite Ho|]. rewrite lookup_insert_eq. cbn. by rewrite Hk.
      * destruct (rFor r <=? Sub now (first st)); cbn in *; (split; [intros k' Hk'; by rewrite Ho|]);
          rewrite lookup_insert_eq; cbn; [by repeat split|]. by rewrite Hst.
    + destruct (rFor r =? 0); cbn in *; (split; [intros k' Hk'; by rewrite Ho|]); rewrite lookup_insert_eq; cbn; by repeat split.
  - unfold endLocked in *. destruct (e !! Key r s) as [st|] eqn:Est.
    + destruct (He _ _ Est) as [Hk Hst Hf]. destruct (firing st) eqn:F; cbn in *;
        (split; [intros k' Hk'; by rewrite Ho|]); rewrite lookup_delete_eq; by repeat split.
    + split; [done|]. by rewrite Est.
Qed.

Lemma End_fire_start k now e :
  eval_ok e →
  let '(a, t, e') := End_ k now e in
  (∀ k', k' ≠ k → fire_start e' k' = fire_start e k') ∧
  match a, t with
  | Some a, TransitionResolved => fire_start e k = Some (startOf a) ∧ fire_start e' k = None ∧ aKey a = k ∧ aState a = StateResolved
  | _, _ => fire_start e' k = fire_start e k
  end.
Proof.
  intros He. pose proof (λ k', endLocked_other k k' now e) as Ho. unfold End_, endLocked, fire_start in *.
  destruct (e !! k) as [st|] eqn:Est; [|by rewrite Est].
  destruct (He _ _ Est) as [Hk Hst Hf]. destruct (firing st) eqn:F; cbn in *;
    (split; [intros k' Hk'; by rewrite Ho|]); rewrite lookup_delete_eq; by repeat split.
Qed.
End fire_start.

Section sync.
Context {W : Type} `{EngineEnv W} `{UuidText} `{Regexp} `{!StoreLaws W}.

Notation Lost s := (lost s.(world)).
Notation Table s := (table s.(world)).

(** Whether the engine takes itself for the leader. *)
Definition leading (s : mach W) : Prop := s.(eng).(hasLock) = true ∨ env_noPool (W:=W) = true.

(** The lock is held on a connection. *)
Definition lock_ok (s : mach W) : Prop := s.(eng).(hasLock) = true → s.(eng).(has_conn) = true ∨ env_noPool (W:=W) = true.

(** What holds whoever leads: the evaluator and the table are consistent, and the evaluator
    is empty until the table has been read in this term. *)
Record consistent (s : mach W) : Prop := {
  co_eval : eval_ok s.(eng).(eval);
  co_table : table_ok (Lost s) (Table s);
  co_unread : s.(eng).(stateLoaded) = false → s.(eng).(eval) = ∅;
}.

(** What holds between two passes: while the engine leads and once it has read the table in
    this term, the two are in sync. *)
Record synced (s : mach W) : Prop := {
  sy_consistent : consistent s;
  sy_lock : lock_ok s;
  sy_sync : leading s → s.(eng).(stateLoaded) = true → in_sync (Lost s) s.(eng).(eval) (Table s);
}.

(** What holds within a pass. *)
Record synced_loaded (s : mach W) : Prop := {
  sl_eval : eval_ok s.(eng).(eval);
  sl_table : table_ok (Lost s) (Table s);
  sl_sync : in_sync (Lost s) s.(eng).(eval) (Table s);
  sl_loaded : s.(eng).(stateLoaded) = true;
  sl_lock : lock_ok s;
}.

Lemma synced_of_loaded s : synced_loaded s → synced s.
Proof. intros [He HT Hs Hl Hk]. split; [split| |]; try done. by rewrite Hl. Qed.

Notation harmless := (λ A (f : W → A * W), ∀ w, undisturbed table lost w (f w).2).

Lemma undisturbed_table w w' : undisturbed table lost w w' → table_ok (lost w) (table w) → table_ok (lost w') (table w').
Proof.
  intros (Ho & Hr & HL) [T1 T2 T3]. apply (table_ok_mono (lost w)); [done|]. split; [eauto..|]. intros k s s' Hk. rewrite !Ho. by apply T3.
Qed.

Lemma undisturbed_sync e w w' : undisturbed table lost w w' → in_sync (lost w) e (table w) → in_sync (lost w') e (table w').
Proof. intros (Ho & _ & HL) Hs k t Hk. rewrite Ho. apply Hs. set_solver. Qed.

(** A state whose table is as it was. *)
Lemma undisturbed_synced s w : undisturbed table lost s.(world) w → synced s → synced (mkMach s.(eng) w s.(log)).
Proof.
  intros Hu [[He HT He0] Hk Hs]. split; [split| |]; try done; cbn.
  - by eapply undisturbed_table.
  - intros Hle Hl. eapply undisturbed_sync; [exact Hu|]. by apply Hs.
Qed.

Lemma harmless_synced A f : harmless A f → keeps synced (call_env f).
Proof.
  intros Hf s Hs. unfold call_env. specialize (Hf (world s)). destruct (f (world s)) as [a w]. by apply undisturbed_synced.
Qed.

Lemma harmless_synced_loaded A f : harmless A f → keeps synced_loaded (call_env f).
Proof.
  intros Hf s [He HT Hs Hl Hk]. unfold call_env. specialize (Hf (world s)). destruct (f (world s)) as [a w]. cbn in *.
  split; try done; cbn; [by eapply undisturbed_table|by eapply undisturbed_sync].
Qed.

(** Writing the row of an alert, with an evaluator that already is at the new state. *)
Lemma upsert_in_sync L e' T T' a k :
  table_ok L T → a.(aKey) = k → writes a T T' →
  a.(aState) = StateFiring ∨ a.(aState) = StateResolved →
  (k ∉ L → ∀ s, open_row T (k, s) → s = startOf a) →
  (∀ k' s, k' ≠ k → k' ∉ L → open_row T (k', s) ↔ fire_start e' k' = Some s) →
  (k ∉ L → fire_start e' k = (if decide (a.(aState) = StateFiring) then Some (startOf a) else None)) →
  table_ok L T' ∧ in_sync L e' T'.
Proof.
  intros HT Hk (row & -> & Hrk & Hrs & Hrt) Hst Hu Hother Hfire. rewrite Hk in *. split.
  - apply table_ok_insert; [done|done|done|by rewrite Hrs|]. intros Hl _ s'. by apply Hu.
  - apply in_sync_alt. intros k' s Hl. rewrite open_row_insert. destruct (decide ((k, startOf a) = (k', s))) as [E|E].
    + injection E as <- <-. rewrite Hfire, Hrs by done. destruct Hst as [-> | ->]; by case_decide.
    + destruct (decide (k' = k)) as [->|Hne]; [|by apply Hother]. split.
      * intros ->%Hu; done.
      * rewrite Hfire by done. case_decide; [|done]. intros [= <-]. done.
Qed.

(** A write that took effect without an answer: its key is in doubt, the others are not. *)
Lemma lost_in_sync L e T T' a :
  table_ok L T → in_sync L e T → writes a T T' → a.(aState) = StateFiring ∨ a.(aState) = StateResolved →
  table_ok ({[a.(aKey)]} ∪ L) T' ∧ in_sync ({[a.(aKey)]} ∪ L) e T'.
Proof.
  intros HT Hs Hw Hst. rewrite in_sync_alt in Hs. apply (upsert_in_sync _ e T T' a (aKey a)); try done.
  - eapply table_ok_mono; [|done]. set_solver.
  - set_solver.
  - intros k' s _ Hk. apply Hs. set_solver.
  - set_solver.
Qed.

Lemma notify_synced a : keeps synced_loaded (notify a).
Proof.
  unfold notify. destruct env_Notify as [f|] eqn:E; [|apply keeps_ret]. destruct (aSuppressed a); [apply keeps_ret|].
  apply keeps_bind; [by intros s [????]|]. intros _. apply keeps_bind; [|intros r; apply keeps_ret].
  apply harmless_synced_loaded. by apply (eg_Notify _ law_others).
Qed.

(** [publish] of a transition that took the evaluator from [e] to its present
    state: a written row keeps the two in sync, a failed write puts [e] back. *)
Lemma publish_synced a sil now k prev s e :
  s.(eng).(stateLoaded) = true → lock_ok s → eval_ok s.(eng).(eval) → table_ok (Lost s) (Table s) →
  undo k prev s.(eng).(eval) = e → eval_ok e → in_sync (Lost s) e (Table s) →
  a.(aKey) = k → a.(aState) = StateFiring ∨ a.(aState) = StateResolved →
  (∀ k', k' ≠ k → fire_start s.(eng).(eval) k' = fire_start e k') →
  (∀ t, fire_start e k = Some t → t = startOf a) →
  fire_start s.(eng).(eval) k = (if decide (a.(aState) = StateFiring) then Some (startOf a) else None) →
  synced_loaded (publish a sil now k prev s).2.
Proof.
  intros Hl Hlk He' HT Hundo He Hsync Hk Hst Hother Hprev Hfire.
  unfold publish. rewrite law_hasStore. set (a' := set_aSuppressed _ a).
  unfold mbind at 1, ST_bind, call_env. destruct (env_Upsert a' (world s)) as [[err|] w] eqn:Eu.
  - unfold mbind, ST_bind, record_call, set_eval.
    assert (table_ok (lost w) (table w) ∧ in_sync (lost w) e (table w)) as [HT' Hs'].
    { apply law_Upsert_err in Eu as [[-> ->]|[Hw ->]]; [done|]. by apply (lost_in_sync (Lost s) e (Table s) _ a'). }
    split; cbn; rewrite ?Hundo; done.
  - apply law_Upsert_ok in Eu as [Hw HL]. rewrite in_sync_alt in Hsync.
    assert (table_ok (lost w) (table w) ∧ in_sync (lost w) (eval (eng s)) (table w)) as [HT' Hs'].
    { rewrite HL. apply (upsert_in_sync _ _ (Table s) _ a' k); try done.
      - intros Hk' t. rewrite Hsync by done. apply Hprev.
      - intros k' t Hne Hk'. rewrite Hsync, Hother by done. done. }
    unfold mbind, ST_bind, record_call. cbn. apply notify_synced. by split.
Qed.

Lemma same_firing_synced s e' :
  synced_loaded s → eval_ok e' → (∀ k, fire_start e' k = fire_start s.(eng).(eval) k) →
  synced_loaded (set_eval (const e') s).2.
Proof.
  intros [He HT Hs Hl Hk] He' Hf. split; try done. cbn. rewrite in_sync_alt in *. intros k t Hkl. by rewrite Hs, Hf.
Qed.

Lemma refresh_synced a s :
  synced_loaded s → a.(aState) = StateFiring → fire_start s.(eng).(eval) a.(aKey) = Some (startOf a) →
  synced_loaded (refresh a s).2.
Proof.
  intros [He HT Hs Hl Hk] Hst Hf. unfold refresh. rewrite law_hasStore. unfold mbind, ST_bind, call_env.
  destruct (env_Upsert a (world s)) as [[err|] w] eqn:Eu; unfold record_call; cbn.
  - assert (table_ok (lost w) (table w) ∧ in_sync (lost w) (eval (eng s)) (table w)) as [HT' Hs'].
    { apply law_Upsert_err in Eu as [[-> ->]|[Hw ->]]; [done|]. apply (lost_in_sync (Lost s) _ (Table s) _ a); try done. by left. }
    by split.
  - apply law_Upsert_ok in Eu as [Hw HL]. rewrite in_sync_alt in Hs.
    assert (table_ok (lost w) (table w) ∧ in_sync (lost w) (eval (eng s)) (table w)) as [HT' Hs'].
    { rewrite HL. apply (upsert_in_sync _ _ (Table s) _ a (aKey a)); try done; [by left|..].
      - intros Hkl t. rewrite Hs, Hf by done. by intros [= ->].
      - intros k' t _ Hkl. by apply Hs.
      - rewrite Hst. by case_decide. }
    by split.
Qed.

Lemma one_sample_synced r sil now smp : keeps synced_loaded (one_sample r sil now smp).
Proof.
  intros s Hsl. pose proof Hsl as [He HT Hs Hl Hlk].
  unfold one_sample, mbind at 1, ST_bind at 1, checkpoint, mbind at 1, ST_bind at 1, run_step.
  pose proof (Step_fire_start r smp now (eval (eng s)) He) as Hf. pose proof (Step_ok r smp now _ He) as He'.
  pose proof (undo_Step r smp now (eval (eng s))) as Hu.
  destruct (Step r smp now (eval (eng s))) as [[a t] e'] eqn:Estep. cbn in He', Hu.
  destruct Hf as [Hother Hf].
  assert (fire_start e' (Key r smp) = fire_start (eval (eng s)) (Key r smp) → synced_loaded (set_eval (const e') s).2) as Hsame.
  { intros E. apply same_firing_synced; [done|done|]. intros k. destruct (decide (k = Key r smp)) as [->|]; auto. }
  assert (∀ a0 prev', prev' = Checkpoint (Key r smp) (eval (eng s)) → aKey a0 = Key r smp →
    (aState a0 = StateFiring ∨ aState a0 = StateResolved) →
    (∀ t0, fire_start (eval (eng s)) (Key r smp) = Some t0 → t0 = startOf a0) →
    fire_start e' (Key r smp) = (if decide (aState a0 = StateFiring) then Some (startOf a0) else None) →
    synced_loaded (publish a0 sil now (Key r smp) prev' (set_eval (const e') s).2).2) as Hpub.
  { intros a0 prev' -> Hk Hst Hprev Hfire. eapply publish_synced; done. }
  destruct a as [a|]; destruct t; cbn; try by apply Hsame.
  - destruct Hf as [Hsm Hrf]. case_decide as Est; [|by apply Hsame].
    destruct (Hrf Est) as [Hfs Hk]. unfold mbind, ST_bind.
    pose proof (refresh_synced a (set_eval (const e') s).2 (Hsame Hsm) Est ltac:(cbn; by rewrite Hk, Hsm)) as Hr.
    by destruct (refresh a _).
  - destruct Hf as (Hf0 & Hf1 & Hk & Hst). unfold mbind, ST_bind.
    specialize (Hpub a _ eq_refl Hk (or_introl Hst) ltac:(rewrite Hf0; done) ltac:(rewrite Hf1, Hst; by case_decide)).
    destruct (publish a sil now _ _ _) as [es s1]. cbn. by destruct (env_ctxErr (world s1)).
  - destruct Hf as (Hf0 & Hf1 & Hk & Hst). unfold mbind, ST_bind.
    specialize (Hpub a _ eq_refl Hk (or_intror Hst) ltac:(rewrite Hf0; congruence) ltac:(rewrite Hf1, Hst; by case_decide)).
    destruct (publish a sil now _ _ _) as [es s1]. cbn. by destruct (env_ctxErr (world s1)).
Qed.
Lemma close_one_synced sil now a : keeps synced_loaded (close_one sil now a).
Proof.
  intros s Hsl. pose proof Hsl as [He HT Hs Hl Hlk].
  unfold close_one, mbind at 1, ST_bind at 1, checkpoint, mbind at 1, ST_bind at 1, run_end.
  pose proof (End_fire_start (aKey a) now (eval (eng s)) He) as Hf. pose proof (endLocked_ok (aKey a) now _ He) as He'.
  pose proof (undo_End (aKey a) now (eval (eng s))) as Hu. unfold End_ in *.
  destruct (endLocked (aKey a) now (eval (eng s))) as [[r t] e']. cbn in He', Hu. destruct Hf as [Hother Hf].
  assert (fire_start e' (aKey a) = fire_start (eval (eng s)) (aKey a) → synced_loaded (set_eval (const e') s).2) as Hsame.
  { intros E. apply same_firing_synced; [done|done|]. intros k. destruct (decide (k = aKey a)) as [->|]; auto. }
  destruct r as [r|]; destruct t; cbn; try by apply Hsame.
  destruct Hf as (Hf0 & Hf1 & Hk & Hst). eapply publish_synced; try done.
  - by right.
  - intros t. cbn. rewrite Hf0. congruence.
  - cbn. rewrite Hf1, Hst. by case_decide.
Qed.

Lemma synced_pass now sil : pass_inv harmless now sil synced_loaded.
Proof.
  split; try (by intros; intros s [????]).
  - apply harmless_synced_loaded.
  - intros r smp. apply one_sample_synced.
  - intros a. apply close_one_synced.
  - intros t s Hs. apply (same_firing_synced s (Forget t (eval (eng s))).2 Hs); [apply Forget_ok, Hs|].
    intros k. unfold fire_start. pose proof (Forget_firing t (eval (eng s)) k) as Hf. unfold firing_at in Hf.
    destruct ((Forget t (eval (eng s))).2 !! k) as [st|] eqn:E.
    + apply map_lookup_filter_Some in E as [-> _]. done.
    + destruct (eval (eng s) !! k) as [st|]; [|done]. by rewrite <- Hf.
Qed.

(** Restoring the open rows into an empty evaluator. *)
Lemma Restore_all_lookup l now k :
  (∀ a, a ∈ l → a.(aState) = StateFiring) → (∀ a b, a ∈ l → b ∈ l → a.(aKey) = k → b.(aKey) = k → a = b) →
  ∀ t, fire_start (foldl (λ ev a, Restore a now ev) ∅ l) k = Some t ↔ ∃ a, a ∈ l ∧ a.(aKey) = k ∧ startOf a = t.
Proof.
  intros Hst Hu t. induction l as [|a l IH] using rev_ind.
  { split; [done|]. by intros (a & ?%elem_of_nil & _). }
  rewrite foldl_app. cbn. assert (aState a = StateFiring) as Ha by (apply Hst; set_solver).
  unfold Restore at 1. rewrite Ha, decide_False by (intros [_ F]; by apply F). unfold fire_start at 1.
  destruct (decide (aKey a = k)) as [Hk|Hne].
  - rewrite Hk, lookup_insert_eq. cbn. split.
    + intros [= <-]. exists a. set_solver.
    + intros (b & Hb & Hbk & <-). f_equal. f_equal. apply Hu; [set_solver|done..].
  - rewrite lookup_insert_ne by done. fold (fire_start (foldl (λ ev a, Restore a now ev) ∅ l) k).
    rewrite IH; [|intros b Hb; apply Hst; set_solver|intros b c Hb Hc; apply Hu; set_solver].
    split; intros (b & Hb & Hbk & Ht); exists b; (split; [|done]); [set_solver|].
    apply elem_of_app in Hb as [?| ->%list_elem_of_singleton]; [done|congruence].
Qed.

Lemma Restore_all_ok l now e : eval_ok e → eval_ok (foldl (λ ev a, Restore a now ev) e l).
Proof. revert e. induction l as [|a l IH]; intros e He; cbn; [done|]. by apply IH, Restore_ok. Qed.

Lemma restore_synced now s : synced s → leading s →
  synced (restore_active now s).2 ∧ ((restore_active now s).1 = None → synced_loaded (restore_active now s).2).
Proof.
  intros Hsy Hle. pose proof Hsy as [[He HT He0] Hlk Hs]. unfold restore_active, mbind, ST_bind, get_eng. destruct (stateLoaded (eng s)) eqn:El.
  { cbn. split; [done|]. intros _. split; try done. by apply Hs. }
  rewrite law_hasStore. pose proof (eg_Active _ law_others (world s)) as Hu. unfold call_env.
  destruct (env_Active (world s)) as [[err|l] w] eqn:Ea; cbn in *.
  { split; [|done]. by apply undisturbed_synced. }
  destruct (law_Active _ _ _ Ea) as [Ht Hl].
  assert (synced_loaded (mkMach (mkEngine (interval (eng s)) (foldl (λ ev a, Restore a now ev) (eval (eng s)) l) (has_conn (eng s)) (hasLock (eng s)) true (purgedAt (eng s))) w (log s))) as Hok;
    [|split; [by apply synced_of_loaded|done]].
  pose proof (undisturbed_table _ _ Hu HT) as HT'. rewrite (He0 eq_refl). split; cbn; try done; [apply Restore_all_ok, map_Forall_empty|].
  apply in_sync_alt. intros k t Hk. pose proof HT' as [T1 T2 T3]. rewrite Ht in T1, T2, T3. rewrite Ht, Restore_all_lookup.
  - split.
    + intros (row & Hrow & Hopen). pose proof (T1 _ _ Hrow) as [= -> ->]. exists row. split; [|done]. apply Hl. eauto.
    + intros (a & Ha & <- & <-). apply Hl in Ha as (ks & Hks & Hopen). pose proof (T1 _ _ Hks) as ->. by exists a.
  - intros a (ks & Hks & Hopen)%Hl. by destruct (T2 _ _ Hks).
  - intros a b (ks & Hks & Ho)%Hl (ks' & Hks' & Ho')%Hl Hka Hkb.
    pose proof (T1 _ _ Hks) as ->. pose proof (T1 _ _ Hks') as ->. rewrite Hka in Hks. rewrite Hkb in Hks'.
    assert (startOf a = startOf b) as E by (eapply (T3 k); [done|by exists a|by exists b]). rewrite E in Hks. congruence.
Qed.

(** While the lock is sought other engines may write: the two need not be in sync until the
    lock is granted, and then the evaluator starts afresh. *)
Lemma elsewhere_consistent s w : elsewhere table lost s.(world) w → consistent s → consistent (mkMach s.(eng) w s.(log)).
Proof. intros Hw [He HT He0]. split; try done. by apply Hw. Qed.

Lemma try_lock_synced s : env_noPool (W:=W) = false → consistent s → synced (try_lock s).2.
Proof.
  intros Hp Hc. unfold try_lock, releaseLeaderConn, mbind, ST_bind, call_env. pose proof (law_TryLock (world s)) as Hw.
  destruct (env_TryLock (world s)) as [r w]. apply (elsewhere_consistent s w) in Hc as [He HT He0]; [|done].
  assert (∀ b, synced (set_lock b false (mkMach (eng s) w (log s))).2) as Hno.
  { intros b. split; [by split|by intros [=]|]. intros [[=]|Hn]. by rewrite Hp in Hn. }
  destruct r as [e| |[]]; cbn; try apply Hno.
  split; [split| |]; cbn; try done. by left.
Qed.

#[local] Opaque try_lock.

Lemma ensureLeader_synced : keeps synced ensureLeader.
Proof.
  intros s Hsy. unfold ensureLeader. destruct env_noPool eqn:Hp.
  { destruct Hsy as [[He HT He0] Hlk Hs]. split; [by split|by right|]. intros _. apply Hs. by right. }
  assert (∀ s, consistent s → s.(eng).(hasLock) = false → synced ((
      e ← get_eng; if e.(has_conn) then try_lock
      else err ← call_env env_Acquire;
        match err with Some e => mret (Some (ErrAcquire e)) | None => e ← get_eng; set_lock true e.(hasLock);; try_lock end) s).2) as Hseek.
  { clear s Hsy. intros s Hc Hh. unfold mbind, ST_bind, get_eng. destruct (has_conn (eng s)); [by apply try_lock_synced|].
    unfold call_env. pose proof (law_Acquire (world s)) as Hw. destruct (env_Acquire (world s)) as [[err|] w]; cbn.
    - apply (elsewhere_consistent s w) in Hc; [|done]. split; [done|by unfold lock_ok; cbn; rewrite Hh|].
      unfold leading. cbn. rewrite Hh, Hp. by intros [|].
    - apply try_lock_synced; [done|]. apply (elsewhere_consistent s w) in Hc as [He HT He0]; [by split|done]. }
  assert (∀ s, synced s → synced ((
      e ← get_eng;
      alive ← (if e.(hasLock) && e.(has_conn) then
                 ok ← call_env env_Ping; (if ok : bool then mret true else releaseLeaderConn;; mret false)
               else mret false);
      if alive : bool then mret None
      else
        e ← get_eng;
        if e.(has_conn) then try_lock
        else err ← call_env env_Acquire;
          match err with Some e => mret (Some (ErrAcquire e)) | None => e ← get_eng; set_lock true e.(hasLock);; try_lock end) s).2) as Hping.
  { clear s Hsy. intros s Hsy. pose proof Hsy as [Hc Hlk _]. rewrite bind_run. cbn [get_eng fst snd]. rewrite bind_run.
    destruct (hasLock (eng s) && has_conn (eng s)) eqn:Eh.
    - destruct (env_Ping (world s)) as [ok w] eqn:Ep. set (s1 := mkMach (eng s) w (log s)).
      match goal with |- context [(?p : M W bool) s] => assert (p s = (ok, if ok then s1 else (releaseLeaderConn s1).2)) as -> end.
      { unfold mbind, ST_bind, call_env. rewrite Ep. by destruct ok. }
      destruct ok; cbn [fst snd].
      + apply law_Ping in Ep. by apply undisturbed_synced.
      + apply law_Ping_lost in Ep. apply Hseek; [|done]. apply (elsewhere_consistent s w) in Hc as [He HT He0]; [by split|done].
    - cbn [fst snd mret ST_ret]. apply Hseek; [done|]. destruct (hasLock (eng s)) eqn:Ehl; [|done]. destruct (Hlk Ehl) as [E|E]; [by rewrite E in Eh|congruence]. }
  unfold mbind at 1, ST_bind at 1, get_eng at 1. unfold mbind at 1, ST_bind at 1, ask at 1.
  destruct (has_conn (eng s) && env_connClosed (world s)); apply Hping; [|done].
  destruct Hsy as [[He HT He0] _ _]. split; [by split|done|]. unfold leading. cbn. rewrite Hp. by intros [|].
Qed.

#[local] Opaque evaluate_pass.

Lemma Tick_keeps_synced now : keeps synced (Tick now).
Proof.
  unfold Tick. apply keeps_bind; [apply ensureLeader_synced|]. intros [e|]; [apply keeps_ret|].
  intros s Hs. rewrite bind_run. cbn [get_eng fst snd]. destruct (hasLock (eng s)) eqn:Eh; cbn [negb]; [|done].
  unfold mbind at 1, ST_bind at 1. destruct (restore_synced now s Hs (or_introl Eh)) as [Hs1 Hl1].
  destruct (restore_active now s) as [[err|] s1]; cbn in *; [done|]. specialize (Hl1 eq_refl). rewrite law_hasStore.
  match goal with |- synced (?m s1).2 => assert (keeps synced_loaded m) as Hk; [|exact (synced_of_loaded _ (Hk s1 Hl1))] end.
  apply keeps_bind; [apply harmless_synced_loaded, law_others|]. intros [err|stored]; [apply keeps_ret|].
  apply keeps_bind; [apply harmless_synced_loaded, law_others|]. intros [err|sil]; [apply keeps_ret|].
  apply keeps_bind; [by intros s2 [????]|]. intros _.
  eapply evaluate_pass_keeps; [apply law_others|apply synced_pass].
Qed.
End sync.

(** ** Every rule gets its turn *)

Section growth.
Context {W : Type} `{EngineEnv W} `{UuidText} `{Regexp}.

(** The log only grows. *)
Definition logged (c : call) (s : mach W) : Prop := c ∈ s.(log).

Lemma record_logged c c' : keeps (logged c) (record_call c').
Proof. intros s Hs. apply elem_of_app. by left. Qed.

Lemma publish_logged c a sil now k prev : keeps (logged c) (publish a sil now k prev).
Proof.
  assert (∀ A (f : W → A * W), keeps (logged c) (call_env f)) as Hc by (intros A f s Hs; unfold call_env; by destruct (f (world s))).
  unfold publish, notify. peel; first [apply Hc|apply record_logged|by intros s Hs].
Qed.

Lemma logged_pass now sil c : pass_inv (λ A f, True) now sil (logged c).
Proof.
  assert (∀ A (f : W → A * W), keeps (logged c) (call_env f)) as Hc by (intros A f s Hs; unfold call_env; by destruct (f (world s))).
  split; try (by intros; intros s Hs); try (intros; apply record_logged).
  - auto.
  - intros r smp. unfold one_sample. apply keeps_bind; [by intros s Hs|]. intros prev.
    apply keeps_bind; [intros s Hs; unfold run_step; by destruct (Step _ _ _ _) as [[??]?]|].
    intros [[a|] []]; unfold refresh; peel; first [apply publish_logged|apply Hc|apply record_logged].
  - intros a. unfold close_one. apply keeps_bind; [by intros s Hs|]. intros prev.
    apply keeps_bind; [intros s Hs; unfold run_end; by destruct (End_ _ _ _) as [[??]?]|].
    intros [[r|] []]; peel; apply publish_logged.
Qed.

Context (Hctx : ∀ w : W, env_ctxErr w = None).

Lemma one_sample_goes_on r sil now smp s : ∃ es, (one_sample r sil now smp s).1 = inr es.
Proof using Hctx.
  unfold one_sample, mbind, ST_bind, checkpoint, run_step, ask. destruct (Step _ _ _ _) as [[[a|] []] e]; cbn; eauto.
  - case_decide; [|eauto]. destruct (refresh a _) as [es s1]. cbn. eauto.
  - destruct (publish a _ _ _ _ _) as [es s1]. rewrite Hctx. cbn. eauto.
  - destruct (publish a _ _ _ _ _) as [es s1]. rewrite Hctx. cbn. eauto.
Qed.

Lemma sample_loop_goes_on r sil now ss errs s : ∃ es, (sample_loop r sil now ss errs s).1 = inr es.
Proof using Hctx.
  revert errs s. induction ss as [|smp ss IH]; intros errs s; cbn; [eauto|]. unfold mbind, ST_bind.
  destruct (one_sample_goes_on r sil now smp s) as [es E]. destruct (one_sample r sil now smp s) as [x s1]. cbn in E. subst x. apply IH.
Qed.

Lemma source_loop_goes_on r sil now srcs errs n b s : ∃ x, (source_loop r sil now srcs errs n b s).1 = inr x.
Proof using Hctx.
  revert errs n b s. induction srcs as [|src srcs IH]; intros errs n b s; cbn; [eauto|].
  destruct (wrong_kind r src); [apply IH|]. unfold mbind, ST_bind, record_call, call_env, ask.
  destruct (Samples src r now _) as [[e|l] w]; cbn; [rewrite Hctx; apply IH|].
  match goal with |- context [sample_loop r sil now l errs ?s'] =>
    destruct (sample_loop_goes_on r sil now l errs s') as [es E]; destruct (sample_loop r sil now l errs s') as [x s1] end.
  cbn in E. subst x. apply IH.
Qed.

Lemma source_loop_samples r sil now srcs errs n b s :
  (∃ src, src ∈ srcs ∧ wrong_kind r src = false) → (∀ src, src ∈ srcs → src ∈ env_sources) →
  logged (CSamples r.(rID)) (source_loop r sil now srcs errs n b s).2.
Proof using Hctx.
  revert errs n b s. induction srcs as [|src srcs IH]; intros errs n b s (src0 & Hin & Hkind) Hsub; [by apply elem_of_nil in Hin|].
  cbn. destruct (wrong_kind r src) eqn:Ek.
  { apply IH; [|set_solver]. exists src0. split; [|done]. apply elem_of_cons in Hin as [->|]; [congruence|done]. }
  match goal with |- logged _ (?m s).2 => assert (∀ s', logged (CSamples (rID r)) s' → logged (CSamples (rID r)) ((λ (_ : ()), (
     x ← call_env (Samples src r now); match x with
     | inl e => c ← ask env_ctxErr; match c with Some _ => mret (inl (errs ++ [ErrSample (rID r) e])) | None => source_loop r sil now srcs (errs ++ [ErrSample (rID r) e]) n true end
     | inr samples => r0 ← sample_loop r sil now samples errs; match r0 with inl errs0 => mret (inl errs0) | inr errs0 => source_loop r sil now srcs errs0 (S n) b end
     end)) () s').2) as Hrest end.
  { intros s' Hs'. pose proof (logged_pass now sil (CSamples (rID r))) as HI.
    apply (keeps_bind (logged (CSamples (rID r)))); [by apply HI| |done]. intros [e|l].
    - apply keeps_bind; [apply keeps_ask|]. intros [c|]; [apply keeps_ret|].
      eapply (source_loop_keeps (λ A f, True) now sil); [done|exact HI|set_solver].
    - apply keeps_bind; [eapply sample_loop_keeps; exact HI|]. intros [es|es]; [apply keeps_ret|].
      eapply (source_loop_keeps (λ A f, True) now sil); [done|exact HI|set_solver]. }
  apply Hrest. apply elem_of_app. right. by apply list_elem_of_singleton.
Qed.

Lemma rule_loop_samples sil now rules errs s :
  (∃ x, (rule_loop sil now rules errs s).1 = inr x) ∧
  ∀ r, r ∈ rules → (∃ src, src ∈ env_sources ∧ wrong_kind r src = false) →
    logged (CSamples r.(rID)) (rule_loop sil now rules errs s).2.
Proof using Hctx.
  revert errs s. induction rules as [|r0 rules IH]; intros errs s; cbn.
  { split; [eauto|]. by intros r ?%elem_of_nil. }
  unfold mbind at 1 3, ST_bind at 1 3. pose proof (source_loop_samples r0 sil now env_sources errs 0 false s) as Hs.
  destruct (source_loop_goes_on r0 sil now env_sources errs 0 false s) as [[[es n] b] E].
  destruct (source_loop r0 sil now env_sources errs 0 false s) as [x s1]. cbn in E, Hs. subst x.
  assert (∀ c, keeps (logged c) (end_rule r0 sil now n b)) as Hm.
  { intros c. unfold end_rule. peel. eapply (endUnsampled_keeps (λ A f, True)); [done|apply logged_pass]. }
  unfold mbind, ST_bind. pose proof (λ c : call, Hm c s1) as Hm1. destruct (end_rule r0 sil now n b s1) as [es' s2]. cbn in Hm1.
  destruct (IH (es ++ es') s2) as [IH1 IH2]. split; [done|]. intros r Hr Hsrc.
  apply elem_of_cons in Hr as [->|Hr]; [|by apply IH2].
  eapply (rule_loop_keeps (λ A f, True)); [done|apply logged_pass|]. apply Hm1, Hs; [done|auto].
Qed.
End growth.

(** ** Properties *)

(** A run of passes. *)
Definition run_ticks {W} `{EngineEnv W} `{UuidText} `{Regexp} (s : mach W) (times : list Time) : mach W :=
  foldl (λ s now, (Tick now s).2) s times.

Lemma run_ticks_keeps {W} `{EngineEnv W} `{UuidText} `{Regexp} (I : mach W → Prop) s times :
  (∀ now, keeps I (Tick now)) → I s → I (run_ticks s times).
Proof. intros HI. revert s. induction times as [|t times IH]; intros s Hs; cbn; [done|]. by apply IH, HI. Qed.

(** C16: Record before page, and silences are honoured. An engine with a store, over any
    number of passes and whatever the store, the sources and the notifier answer: every
    notification follows immediately on the successful write of that same alert, and no
    silence that the store returned for its pass, active at the pass's instant, matches the
    alert. Conversely, when there is a notifier, every transition whose write succeeded is
    notified right after the write, unless such a silence covers it. The log records the
    calls in order, the silences each pass read among them. *)
Theorem notified_only_after_persisted {W} `{EngineEnv W} `{UuidText} `{Regexp} (e : Engine) (w : W) times :
  env_hasStore (W:=W) = true →
  let l := (run_ticks (mkMach e w []) times).(log) in
  (∀ l1 a l2, l = l1 ++ CNotify a :: l2 → ∃ l0, l1 = l0 ++ [CUpsert a true] ∧ is_Some (pass_silences l0) ∧ ¬ silenced l0 a) ∧
  (is_Some (env_Notify (W:=W)) → ∀ l1 a l2, l = l1 ++ CUpsert a true :: l2 → silenced l1 a ∨ ∃ l3, l2 = CNotify a :: l3).
Proof.
  intros Hst l. assert (good_log (W:=W) l) as Hl; [|split; [by apply (good_log_notified l)|by intros Hn; apply good_log_recorded]].
  apply (run_ticks_keeps (λ s, good_log s.(log))); [|apply good_nil]. intros now. by apply Tick_keeps_log.
Qed.

(** C15: The evaluator and the alerts table agree. From a new engine and a table with at most
    one open row per key, over any number of passes with failing and successful writes, lost
    and regained leadership and failed restores: whenever the engine holds the lock and has
    read the table in that term, the firing episodes in memory are exactly the open rows of
    the table, for every key but those of which a write has taken effect, here or in another
    engine, though its writer got an error. So a transition that was not written has been
    undone, and a new term starts from the table, whatever other engines did to it. Assumed
    of the store ([StoreLaws]): while this engine holds the lock, only its own writes touch
    the open rows (a purge deletes resolved ones); while it does not, other engines may
    change the table in any way that leaves, of a key not in doubt, at most one open row; an
    [Upsert] that returns an error has had no effect or its whole effect. *)
Theorem ticks_keep_table_in_sync {W} `{EngineEnv W} `{UuidText} `{Regexp} `{!StoreLaws W} i (w : W) times :
  table_ok (lost w) (table w) →
  let s := run_ticks (mkMach (newEngine i) w []) times in
  eval_ok s.(eng).(eval) ∧ table_ok (lost s.(world)) (table s.(world)) ∧
  (s.(eng).(hasLock) = true → s.(eng).(stateLoaded) = true → in_sync (lost s.(world)) s.(eng).(eval) (table s.(world))).
Proof.
  intros HT s. destruct (run_ticks_keeps synced (mkMach (newEngine i) w []) times) as [[He HT' _] _ Hs].
  - intros now. apply Tick_keeps_synced.
  - split; [split|done|done]; try done.
  - split_and!; try done. intros Hh. apply Hs. by left.
Qed.

(** One broken rule cannot silence the others: unless the pass's own deadline
    expires, every rule of the pass that some source serves is sampled, whatever
    errors the sources, the store and the notifier return before it. *)
Theorem every_rule_is_sampled {W} `{EngineEnv W} `{UuidText} `{Regexp} now rules sil (s : mach W) r :
  (∀ w : W, env_ctxErr w = None) → r ∈ rules → (∃ src : Source W, src ∈ env_sources ∧ wrong_kind r src = false) →
  CSamples r.(rID) ∈ (evaluate_pass now rules sil s).2.(log).
Proof.
  intros Hctx Hr Hsrc. destruct (rule_loop_samples Hctx sil now rules [] s) as [[x Hx] Hl].
  specialize (Hl r Hr Hsrc). unfold evaluate_pass. unfold mbind at 1, ST_bind at 1.
  destruct (rule_loop sil now rules [] s) as [y s1]. cbn in Hx, Hl. subst y.
  pose proof (logged_pass now sil (CSamples (rID r))) as HI.
  match goal with |- CSamples _ ∈ log (?m s1).2 => assert (keeps (logged (CSamples (rID r))) m) as Hk; [|by apply Hk] end.
  apply keeps_bind; [apply keeps_get|]. intros e.
  apply keeps_bind; [eapply (endUnsampled_keeps (λ A f, True)); done|]. intros es1.
  apply keeps_bind; [by apply HI|]. intros _.
  apply keeps_bind; [eapply (purgeHistory_keeps (λ A f, True)); done|]. intros es2.
  peel; by apply HI.
Qed.

(** ** A small world: a table, and a store that fails when told to *)

Module Example_.
(** What becomes of a write. *)
Inductive fault := Fine | Down | AnswerLost.

Record small := mkSmall { rows : alert_table; doubt : gset string; faults : list fault; quiet_zone : list Silence }.

Definition small_upsert (a : Alert) (w : small) : option error * small :=
  let row := <[(a.(aKey), startOf a) := a]> w.(rows) in
  match w.(faults) with
  | Down :: fs => (Some "down", mkSmall w.(rows) w.(doubt) fs w.(quiet_zone))
  | AnswerLost :: fs => (Some "deadline", mkSmall row ({[a.(aKey)]} ∪ w.(doubt)) fs w.(quiet_zone))
  | fs => (None, mkSmall row w.(doubt) (tail fs) w.(quiet_zone))
  end.

Definition is_open (a : Alert) : bool := negb (bool_decide (a.(aState) = StateResolved)).

Definition down_sample (now : Time) : Sample := mkSample None (Some 7) "" ∅ fzero now false.

Definition small_source : Source small :=
  mkSource "metric" (λ r now w, (inr (if decide (r.(rID) = "agent_down") then [down_sample now] else []), w)) None.

#[export] Instance small_env : EngineEnv small := {|
  env_ctxErr := λ _, None; env_noPool := false; env_connClosed := λ _, false;
  env_Ping := λ w, (true, w); env_Acquire := λ w, (None, w); env_TryLock := λ w, (LockReply true, w);
  env_hasStore := true;
  env_Active := λ w, (inr (filter (λ a, is_open a = true) (map_to_list w.(rows)).*2), w);
  env_Rules := λ w, (inr [], w); env_Silences := λ _ w, (inr w.(quiet_zone), w);
  env_Upsert := small_upsert; env_Purge := None; env_Notify := Some (λ _ w, (None, w));
  env_Retry := None; env_Settle := None; env_sources := [small_source];
|}.

#[export] Instance small_laws : StoreLaws small.
Proof.
  refine (Build_StoreLaws small small_env rows doubt eq_refl _ _ _ _ _ _ _ _).
  - intros a w w'. cbn. unfold small_upsert. destruct (faults w) as [|[] fs]; intros [= <-]; (split; [by exists a|done]).
  - intros a w w' e. cbn. unfold small_upsert. destruct (faults w) as [|[] fs]; intros [= <- <-]; [by left|right]. split; [by exists a|done].
  - intros w l w' [= <- <-]. split; [done|]. intros a. rewrite list_elem_of_filter, list_elem_of_fmap. unfold is_open.
    rewrite negb_true_iff, bool_decide_eq_false. split.
    + intros [Ha ([ks b] & -> & Hk%elem_of_map_to_list)]. eauto.
    + intros (ks & Hk & Ha). split; [done|]. exists (ks, a). split; [done|]. by apply elem_of_map_to_list.
  - assert (∀ A (g : small → A) w, undisturbed rows doubt w ((λ w, (g w, w)) w).2) as Hid by (intros; by split_and!).
    split; cbn; try (intros; by apply (Hid unit (λ _, ()))); try by intros.
    + intros f a [= <-] w. apply (Hid unit (λ _, ())).
    + intros src r now ->%list_elem_of_singleton w. apply (Hid unit (λ _, ())).
    + by intros src f r l ->%list_elem_of_singleton.
  - intros w w' [= <-]. by split_and!.
  - by intros w w' [= <-].
  - intros w. unfold elsewhere. done.
  - intros w. unfold elsewhere. done.
Defined.

#[local] Instance uuid_decimal : UuidText := λ u, pretty.pretty u.
#[local] Instance no_regexp : Regexp := {| regexp := unit; Compile := λ _, None; MatchString := λ _ _, false |}.

(** The third pass fires; its write fails, and the fourth makes it good. *)
Definition small_run : mach small :=
  run_ticks (mkMach (newEngine (30 * Second)) (mkSmall ∅ ∅ [Down] []) []) [1000 * Second; 1030 * Second; 1095 * Second; 1125 * Second].

Definition fired_alerts (l : list call) : list (string * bool) :=
  omap (λ c, match c with CUpsert a ok => Some (a.(aState), ok) | CNotify a => Some ("notified", true) | _ => None end) l.

Lemma small_run_log : fired_alerts small_run.(log) = [("firing", false); ("firing", true); ("notified", true)].
Proof. vm_compute. reflexivity. Qed.

(** A silence on that rule: the alert goes on record and nobody is paged. *)
Definition hush : Silence := mkSilence 1 [mkMatcher "rule_id" "agent_down" false false] "maintenance" 0 (2000 * Second).

Lemma hushed_run_log :
  fired_alerts (run_ticks (mkMach (newEngine (30 * Second)) (mkSmall ∅ ∅ [] [hush]) []) [1000 * Second; 1095 * Second]).(log) = [("firing", true)].
Proof. vm_compute. reflexivity. Qed.

Lemma notified_only_after_persisted_witness :
  existsb (λ c, match c with CNotify _ => true | _ => false end) small_run.(log) = true ∧
  Forall (λ i, match small_run.(log) !! i with Some (CNotify a) => ¬ silenced (take i small_run.(log)) a | _ => True end) (seq 0 (length small_run.(log))).
Proof.
  split; [vm_compute; reflexivity|].
  assert (∀ l1 a l2, small_run.(log) = l1 ++ CNotify a :: l2 → ¬ silenced l1 a) as Hn.
  { unfold small_run. intros l1 a l2 E (now & sil & z & Hp & Hz). apply notified_only_after_persisted in E as (l0 & -> & _ & Hs); [|reflexivity].
    apply Hs. exists now, sil, z. by rewrite pass_silences_snoc in Hp. }
  generalize dependent small_run.(log). intros l Hn. apply Forall_forall. intros i _.
  destruct (l !! i) as [c|] eqn:E; [|exact I]. destruct c as [| |a| | |]; try exact I. apply take_drop_middle in E. by apply (Hn _ _ _ (eq_sym E)).
Defined.

Lemma empty_table_ok : table_ok ∅ ∅.
Proof.
  split; [by intros ? ? ?%lookup_empty_Some|by intros ? ? ?%lookup_empty_Some|].
  intros k s s' _ (row & Hrow & _). by apply lookup_empty_Some in Hrow.
Qed.

(** The write of the third pass takes effect without an answer: its key is in doubt. *)
Definition lost_run : mach small :=
  run_ticks (mkMach (newEngine (30 * Second)) (mkSmall ∅ ∅ [AnswerLost] []) []) [1000 * Second; 1030 * Second; 1095 * Second; 1125 * Second].

Lemma ticks_keep_table_in_sync_witness :
  in_sync ∅ small_run.(eng).(eval) (table small_run.(world)) ∧ size (lost small_run.(world)) = 0%nat ∧ size (lost lost_run.(world)) = 1%nat ∧
  in_sync (lost lost_run.(world)) lost_run.(eng).(eval) (table lost_run.(world)).
Proof.
  split_and!; [|vm_compute; reflexivity..|].
  - replace ∅ with (lost small_run.(world)) by (apply (bool_decide_eq_true_1 _); vm_compute; reflexivity).
    apply (ticks_keep_table_in_sync (30 * Second) (mkSmall ∅ ∅ [Down] [])); [exact empty_table_ok|vm_compute; reflexivity..].
  - apply (ticks_keep_table_in_sync (30 * Second) (mkSmall ∅ ∅ [AnswerLost] [])); [exact empty_table_ok|vm_compute; reflexivity..].
Defined.

Lemma every_rule_is_sampled_witness :
  CSamples "clock_skew" ∈ (evaluate_pass (1000 * Second) Builtin [] (mkMach (newEngine Minute) (mkSmall ∅ ∅ [] []) [])).2.(log).
Proof.
  apply (every_rule_is_sampled _ _ _ _ (builtin_metric "clock_skew" SeverityWarning ScopeInstance "pglens_agent_clock_skew_seconds" GT 30 Minute "Agent clock skew above 30 seconds")).
  - reflexivity.
  - apply list_elem_of_lookup. exists 5%nat. reflexivity.
  - exists small_source. split; [apply list_elem_of_singleton; reflexivity|reflexivity].
Defined.
End Example_.
