(* ===== verification/AlertNotify.v ===== *)
(** * Notifications (internal/alert: notifier.go, key.go; internal/alert/notify)

    The channel notifier claims a delivery in the store, sends it, and keeps the
    failed ones for later passes. Store, channels and the deadline of the pass are
    an interface ([NotifyEnv]) over a world [W]; every send is logged. The log lines
    and the wording of the errors are left out. *)
From stdpp Require Import pretty.
From S2P Require Import Prelude StateM GoTime GoFloat Pgtype AlertTypes.

Definition error : Type := string.

(** ** The text of an instant

    [Format] with the layout "2006-01-02T15:04:05.999999999Z07:00" of a UTC time:
    the proleptic Gregorian date of the day number, and the fraction of the second
    without trailing zeros. *)
Definition digit (n : Z) : string := String (ascii_of_nat (Z.to_nat (48 + n `mod` 10))) "".
Definition pad2 (n : Z) : string := (digit (n / 10) ++ digit n)%string.
Definition pad4 (n : Z) : string := (digit (n / 1000) ++ digit (n / 100) ++ digit (n / 10) ++ digit n)%string.

Definition civil (days : Z) : Z * Z * Z :=
  let z := days + 306 in
  let era := z / 146097 in
  let doe := z `mod` 146097 in
  let yoe := (doe - doe / 1460 + doe / 36524 - doe / 146096) / 365 in
  let doy := doe - (365 * yoe + yoe / 4 - yoe / 100) in
  let mp := (5 * doy + 2) / 153 in
  let d := doy - (153 * mp + 2) / 5 + 1 in
  let m := if mp <? 10 then mp + 3 else mp - 9 in
  (yoe + era * 400 + (if m <=? 2 then 1 else 0), m, d).

(** The [n] leading digits of a fraction of nine digits, trailing zeros cut. *)
Fixpoint fraction (n : nat) (ns : Z) : string :=
  match n with
  | O => ""
  | S n => if ns =? 0 then "" else (digit (ns / 10 ^ 8) ++ fraction n ((ns * 10) `mod` 10 ^ 9))%string
  end.

Definition Format (t : Time) : string :=
  let day := 24 * Hour in
  let '(y, mo, d) := civil (t / day) in
  let tod := t `mod` day in
  let ns := tod `mod` Second in
  let frac := if ns =? 0 then "" else ("." ++ fraction 9 ns)%string in
  (pad4 y ++ "-" ++ pad2 mo ++ "-" ++ pad2 d ++ "T" ++
   pad2 (tod / Hour) ++ ":" ++ pad2 ((tod / Minute) `mod` 60) ++ ":" ++ pad2 ((tod / Second) `mod` 60) ++
   frac ++ "Z")%string.

Definition DedupID (a : Alert) : string := (a.(aKey) ++ "/" ++ Format (Truncate a.(aStartedAt) Microsecond))%string.

(** ** Data *)

Definition maxNotifyAttempts : Z := 5.

Record Message := mkMessage {
  mgDedupID : string; mgRuleID : string; mgSeverity : string; mgPhase : string; mgCluster : string;
  mgInstance : string; mgDatabase : string; mgSummary : string; mgValue : float64; mgAt : Time;
  mgLabels : gmap string string;
}.

Definition zeroMessage : Message := mkMessage "" "" "" "" "" "" "" "" fzero zero_time ∅.

Record pendingDelivery := mkPending {
  dedupID : string;
  channel : string; (* the channel, by its name *)
  phase : string;
  message : Message; (* the zero message until it is built *)
  unclaimed : bool;
  d_alert : Alert;
  attempts : Z;
  failedIn : Z;
}.

(** The part of [channelNotifier] that changes, and the process-wide counter. *)
Record notifier := mkNotifier {
  passes : Z;
  pending : list pendingDelivery;
  undelivered : Z;
}.

Definition NewChannelNotifier : notifier := mkNotifier 0 [] 0.

Definition newMessage `{UuidText} (a : Alert) (phase : string) : Message :=
  mkMessage (DedupID a) a.(aRuleID) a.(aSeverity) phase
    (match a.(aClusterID) with Some c => pretty c | None => "" end)
    (match a.(aInstanceID) with Some u => uuid_String u | None => "" end)
    a.(aDatname) a.(aSummary) a.(aValue) a.(aLastEvalAt) a.(aLabels).

(** ** The interface *)

Class NotifyEnv (W : Type) := {
  ne_channels : list string;
  ne_ctxErr : W → option error;
  ne_Claim : string → string → string → Alert → W → (error + bool) * W;
  ne_Mark : string → string → string → bool → Z → option error → W → option error * W;
  ne_Send : string → Message → W → option error * W;
}.

Inductive notify_error :=
| NErr (e : error)
| NChannel (channel : string) (e : error)
| NUndelivered (channel phase dedupID : string).

(** One entry per [Send]: the delivery as it was when it was sent. *)
Record nmach (W : Type) := mkN { nt : notifier; nworld : W; sends : list pendingDelivery }.
Arguments mkN {W}. Arguments nt {W}. Arguments nworld {W}. Arguments sends {W}.

Section notifier.
Context {W : Type} `{NotifyEnv W} `{UuidText}.

Definition n_call {A} (f : W → A * W) : ST (nmach W) A := λ s,
  let '(a, w) := f s.(nworld) in (a, mkN s.(nt) w s.(sends)).
Definition n_ctxErr : ST (nmach W) (option error) := λ s, (ne_ctxErr s.(nworld), s).
Definition n_set (f : notifier → notifier) : ST (nmach W) unit := λ s, ((), mkN (f s.(nt)) s.(nworld) s.(sends)).
Definition n_log (d : pendingDelivery) : ST (nmach W) unit := λ s, ((), mkN s.(nt) s.(nworld) (s.(sends) ++ [d])).

Definition set_pending (f : list pendingDelivery → list pendingDelivery) (n : notifier) : notifier :=
  mkNotifier n.(passes) (f n.(pending)) n.(undelivered).
Definition set_attempts (n : Z) (d : pendingDelivery) : pendingDelivery :=
  mkPending d.(dedupID) d.(channel) d.(phase) d.(message) d.(unclaimed) d.(d_alert) n d.(failedIn).
Definition set_failedIn (n : Z) (d : pendingDelivery) : pendingDelivery :=
  mkPending d.(dedupID) d.(channel) d.(phase) d.(message) d.(unclaimed) d.(d_alert) d.(attempts) n.
Definition set_unclaimed (b : bool) (m : Message) (d : pendingDelivery) : pendingDelivery :=
  mkPending d.(dedupID) d.(channel) d.(phase) m b d.(d_alert) d.(attempts) d.(failedIn).

Definition dropPending (drop : pendingDelivery → bool) : ST (nmach W) unit :=
  n_set (set_pending (filter (λ d, drop d = false))).

(** [claim] also gives back the delivery, whose attempts it may have counted. *)
Definition claim (d : pendingDelivery) : ST (nmach W) ((error + bool) * pendingDelivery) :=
  c ← n_ctxErr;
  match c with
  | Some e => mret (inl e, d)
  | None =>
      r ← n_call (ne_Claim d.(dedupID) d.(channel) d.(phase) d.(d_alert));
      match r with
      | inl e => mret (inl e, set_attempts (d.(attempts) + 1) d)
      | inr won => mret (inr won, d)
      end
  end.

Definition keep (d : pendingDelivery) : ST (nmach W) unit :=
  if maxNotifyAttempts <=? d.(attempts) then mret ()
  else n_set (λ n, set_pending (λ l, l ++ [set_failedIn n.(passes) d]) n).

Definition giveUp (d : pendingDelivery) : ST (nmach W) notify_error :=
  n_set (λ n, mkNotifier n.(passes) n.(pending) (wrap64 (n.(undelivered) + 1)));;
  mret (NUndelivered d.(channel) d.(phase) d.(dedupID)).

Definition keepUnclaimed (d : pendingDelivery) : ST (nmach W) (list notify_error) :=
  if d.(attempts) <? maxNotifyAttempts then keep d;; mret []
  else e ← giveUp d; mret [e].

Definition deliver (d : pendingDelivery) : ST (nmach W) (list notify_error) :=
  c ← n_ctxErr;
  match c with
  | Some e => keep d;; mret [NChannel d.(channel) e]
  | None =>
      n_log d;;
      sendErr ← n_call (ne_Send d.(channel) d.(message));
      let d := set_attempts (d.(attempts) + 1) d in
      markErr ← n_call (ne_Mark d.(dedupID) d.(channel) d.(phase) (bool_decide (sendErr = None)) d.(attempts) sendErr);
      match sendErr with
      | Some e => keep d;; mret [NChannel d.(channel) e]
      | None => mret (match markErr with Some e => [NErr e] | None => [] end)
      end
  end.

Definition phase_of (a : Alert) : string := if decide (a.(aState) = StateResolved) then "resolve" else "fire".

(** One channel of [Notify]. *)
Definition notify_channel (a : Alert) (ch : string) : ST (nmach W) (list notify_error) :=
  let d := mkPending (DedupID a) ch (phase_of a) zeroMessage false a 0 0 in
  rd ← claim d;
  match rd with
  | (inl e, d) => es ← keepUnclaimed (set_unclaimed true zeroMessage d); mret (NErr e :: es)
  | (inr false, _) => mret []
  | (inr true, d) => deliver (set_unclaimed false (newMessage a (phase_of a)) d)
  end.

Fixpoint notify_channels (a : Alert) (chs : list string) (errs : list notify_error) : ST (nmach W) (list notify_error) :=
  match chs with
  | [] => mret errs
  | ch :: chs => es ← notify_channel a ch; notify_channels a chs (errs ++ es)
  end.

Definition Notify (a : Alert) : ST (nmach W) (list notify_error) :=
  dropPending (λ d, bool_decide (d.(d_alert).(aKey) = a.(aKey)));;
  notify_channels a ne_channels [].

(** One due delivery of [Retry]. *)
Definition retry_one (d : pendingDelivery) : ST (nmach W) (list notify_error) :=
  if d.(unclaimed) then
    rd ← claim d;
    match rd with
    | (inl e, d) => es ← keepUnclaimed d; mret (NErr e :: es)
    | (inr false, d) => e ← giveUp d; mret [e]
    | (inr true, d) => deliver (set_unclaimed false (newMessage d.(d_alert) d.(phase)) d)
    end
  else deliver d.

Fixpoint retry_all (due : list pendingDelivery) (errs : list notify_error) : ST (nmach W) (list notify_error) :=
  match due with
  | [] => mret errs
  | d :: due => es ← retry_one d; retry_all due (errs ++ es)
  end.

Definition Retry : ST (nmach W) (list notify_error) :=
  s ← get;
  let due := filter (λ d, d.(failedIn) < s.(nt).(passes)) s.(nt).(pending) in
  n_set (set_pending (filter (λ d, ¬ d.(failedIn) < s.(nt).(passes))));;
  errs ← retry_all due [];
  n_set (λ n, mkNotifier (wrap64 (n.(passes) + 1)) n.(pending) n.(undelivered));;
  mret errs.

(** The loop over the firing episodes of a delivery's alert. *)
Fixpoint settle_drops (d : pendingDelivery) (episodes : list Alert) (owed : bool) : bool :=
  match episodes with
  | [] => bool_decide (d.(phase) = "fire") && negb owed
  | a :: episodes =>
      if After (startOf a) (startOf d.(d_alert)) then true
      else settle_drops d episodes (owed || Equal (startOf a) (startOf d.(d_alert)))
  end.

Definition Settle (firing : list Alert) : ST (nmach W) unit :=
  s ← get;
  match s.(nt).(pending) with
  | [] => mret ()
  | _ => dropPending (λ d, settle_drops d (filter (λ a, a.(aKey) = d.(d_alert).(aKey)) firing) false)
  end.
End notifier.

Example Format_date : Format ((719162 + 19782) * 24 * Hour + 12 * Hour + 34 * Minute + 56 * Second + 500 * Millisecond) = "2024-02-29T12:34:56.5Z".
Proof. reflexivity. Qed.

(** ** Sequences of operations *)

Inductive nop := NNotify (a : Alert) | NRetry | NSettle (firing : list Alert).

Definition apply_nop {W} `{NotifyEnv W} `{UuidText} (s : nmach W) (o : nop) : nmach W :=
  match o with
  | NNotify a => (Notify a s).2
  | NRetry => (Retry s).2
  | NSettle l => (Settle l s).2
  end.

Definition run_nops {W} `{NotifyEnv W} `{UuidText} (s : nmach W) (os : list nop) : nmach W := foldl apply_nop s os.

(** ** Which alerts a pass can send *)

Section alerts.
Context {W : Type} `{NotifyEnv W} `{UuidText}.
Context (Q : Alert → Prop) (l0 : list pendingDelivery).

(** Everything pending, and everything sent since [l0], is about an alert of [Q]. *)
Definition only (s : nmach W) : Prop :=
  Forall (Q ∘ d_alert) s.(nt).(pending) ∧ ∃ l1, s.(sends) = l0 ++ l1 ∧ Forall (Q ∘ d_alert) l1.

Lemma call_only {A} (f : W → A * W) : keeps only (n_call f).
Proof. intros s Hs. unfold n_call. by destruct (f (nworld s)). Qed.

Lemma keep_only d : Q d.(d_alert) → keeps only (keep d).
Proof.
  intros Hd. unfold keep. destruct (_ <=? _); [apply keeps_ret|]. intros s [Hp Hs]. split; [|done]. cbn.
  apply Forall_app. split; [done|]. by apply Forall_singleton.
Qed.

Lemma giveUp_only d : keeps only (giveUp d).
Proof. unfold giveUp. apply keeps_bind; [by intros s Hs|]. intros _. apply keeps_ret. Qed.

Lemma keepUnclaimed_only d : Q d.(d_alert) → keeps only (keepUnclaimed d).
Proof.
  intros Hd. unfold keepUnclaimed. destruct (_ <? _); (apply keeps_bind; [|intros ?; apply keeps_ret]);
    [by apply keep_only|apply giveUp_only].
Qed.

Lemma deliver_only d : Q d.(d_alert) → keeps only (deliver d).
Proof.
  intros Hd. unfold deliver. apply keeps_bind; [by intros s Hs|]. intros [e|].
  { apply keeps_bind; [by apply keep_only|]. intros _. apply keeps_ret. }
  apply keeps_bind.
  { intros s [Hp (l1 & Hl & Hq)]. split; [done|]. exists (l1 ++ [d]). cbn. rewrite Hl, (assoc_L (++)). split; [done|].
    apply Forall_app. split; [done|]. by apply Forall_singleton. }
  intros _. apply keeps_bind; [apply call_only|]. intros sendErr. apply keeps_bind; [apply call_only|]. intros markErr.
  destruct sendErr as [e|]; [|apply keeps_ret]. apply keeps_bind; [by apply keep_only|]. intros _. apply keeps_ret.
Qed.

Lemma claim_alert d s : (claim d s).1.2.(d_alert) = d.(d_alert).
Proof.
  unfold claim, mbind, ST_bind, n_ctxErr, n_call. destruct (ne_ctxErr (nworld s)); [done|].
  destruct (ne_Claim _ _ _ _ _) as [[e|won] w]; done.
Qed.

Lemma claim_only d : keeps only (claim d).
Proof.
  unfold claim. apply keeps_bind; [by intros s Hs|]. intros [e|]; [apply keeps_ret|].
  apply keeps_bind; [apply call_only|]. intros [e|won]; apply keeps_ret.
Qed.

(** A computation that first claims. *)
Lemma claim_then_only {B} d (f : (error + bool) * pendingDelivery → ST (nmach W) B) :
  (∀ r d', d'.(d_alert) = d.(d_alert) → keeps only (f (r, d'))) → keeps only (rd ← claim d; f rd).
Proof.
  intros Hf s Hs. rewrite bind_run. pose proof (claim_only d s Hs) as Hs'. pose proof (claim_alert d s) as Ha.
  destruct (claim d s) as [[r d'] s']. by apply Hf.
Qed.

Lemma notify_channel_only a ch : Q a → keeps only (notify_channel a ch).
Proof.
  intros Ha. unfold notify_channel. apply claim_then_only. intros [e|[]] d' Hd'.
  - apply keeps_bind; [|intros ?; apply keeps_ret]. apply keepUnclaimed_only. cbn. by rewrite Hd'.
  - apply deliver_only. cbn. by rewrite Hd'.
  - apply keeps_ret.
Qed.

Lemma retry_one_only d : Q d.(d_alert) → keeps only (retry_one d).
Proof.
  intros Hd. unfold retry_one. destruct (unclaimed d); [|by apply deliver_only].
  apply claim_then_only. intros [e|[]] d' Hd'.
  - apply keeps_bind; [|intros ?; apply keeps_ret]. apply keepUnclaimed_only. by rewrite Hd'.
  - apply deliver_only. cbn. by rewrite Hd'.
  - apply keeps_bind; [apply giveUp_only|]. intros ?. apply keeps_ret.
Qed.

Lemma notify_channels_only a chs errs : Q a → keeps only (notify_channels a chs errs).
Proof.
  intros Ha. revert errs. induction chs as [|ch chs IH]; intros errs; cbn; [apply keeps_ret|].
  apply keeps_bind; [by apply notify_channel_only|]. intros es. apply IH.
Qed.

Lemma retry_all_only due errs : Forall (Q ∘ d_alert) due → keeps only (retry_all due errs).
Proof.
  intros Hd. revert errs. induction Hd as [|d due Hd Hdue IH]; intros errs; cbn; [apply keeps_ret|].
  apply keeps_bind; [by apply retry_one_only|]. intros es. apply IH.
Qed.

Lemma Retry_only : keeps only Retry.
Proof.
  intros s [Hp Hs]. unfold Retry. rewrite bind_run. cbn [get fst snd]. rewrite bind_run.
  apply keeps_bind; [|intros errs; apply keeps_bind; [by intros s' Hs'|intros _; apply keeps_ret]|].
  - apply retry_all_only. by apply Forall_filter.
  - split; [|done]. cbn. by apply Forall_filter.
Qed.

Lemma dropPending_only f : keeps only (dropPending f).
Proof. intros s [Hp Hs]. split; [|done]. cbn. by apply Forall_filter. Qed.

Lemma Settle_only l : keeps only (Settle l).
Proof.
  intros s Hs. unfold Settle. rewrite bind_run. cbn [get fst snd]. destruct (pending (nt s)); [done|].
  by apply dropPending_only.
Qed.
End alerts.

(** The last transition notified for a key. *)
Definition last_notified (os : list nop) (k : string) : option Alert :=
  foldl (λ acc o, match o with NNotify a => if decide (a.(aKey) = k) then Some a else acc | _ => acc end) None os.

Definition is_latest (os : list nop) (a : Alert) : Prop := last_notified os a.(aKey) = Some a.

Section latest.
Context {W : Type} `{NotifyEnv W} `{UuidText}.

(** One more operation: what is pending after it, and what it sent. *)
Lemma step_latest os o (s : nmach W) :
  Forall (is_latest os ∘ d_alert) s.(nt).(pending) →
  only (is_latest (os ++ [o])) s.(sends) (apply_nop s o).
Proof.
  intros Hp. assert (∀ a, is_latest os a → (∀ b, o = NNotify b → aKey b ≠ aKey a) → is_latest (os ++ [o]) a) as Hother.
  { intros a Ha Hne. unfold is_latest, last_notified in *. rewrite foldl_app. cbn. destruct o as [b| |l]; try done.
    by rewrite decide_False by (by apply Hne). }
  assert (∀ P : Prop, P → ∃ l1, sends s = sends s ++ l1 ∧ Forall (is_latest (os ++ [o]) ∘ d_alert) l1) as Hnil.
  { intros. exists []. by rewrite app_nil_r. }
  destruct o as [a| |l]; cbn.
  - unfold Notify. rewrite bind_run. apply notify_channels_only.
    + unfold is_latest, last_notified. rewrite foldl_app. cbn. by rewrite decide_True.
    + split; [|by eapply Hnil]. cbn. rewrite Forall_forall in Hp |- *. intros d [Hd Hin]%list_elem_of_filter.
      apply bool_decide_eq_false in Hd. apply Hother; [by apply Hp|]. by intros b [= <-].
  - apply Retry_only. split; [|by eapply Hnil]. eapply Forall_impl; [exact Hp|]. intros d Hd. by apply Hother.
  - apply Settle_only. split; [|by eapply Hnil]. eapply Forall_impl; [exact Hp|]. intros d Hd. by apply Hother.
Qed.

Lemma run_latest os (s : nmach W) :
  s.(nt).(pending) = [] → Forall (is_latest os ∘ d_alert) (run_nops s os).(nt).(pending).
Proof.
  intros Hs. induction os as [|o os IH] using rev_ind; [by cbn; rewrite Hs|].
  unfold run_nops. rewrite foldl_app. by apply (step_latest os o).
Qed.
End latest.

(** ** How often a delivery is sent *)

Definition delivery_id : Type := string * string * string.
Definition id_of (d : pendingDelivery) : delivery_id := (d.(dedupID), d.(channel), d.(phase)).

(** The unique index of the notifications table: a claim is won only if the row was
    not there, and then it is. A claim that fails may have been written or not. *)
Class ClaimLaws (W : Type) `{NotifyEnv W} := {
  claims : W → gset delivery_id;
  cl_won i c p a w w' : ne_Claim i c p a w = (inr true, w') → (i, c, p) ∉ claims w ∧ claims w' = {[(i, c, p)]} ∪ claims w;
  cl_lost i c p a w w' : ne_Claim i c p a w = (inr false, w') → claims w' = claims w;
  cl_err i c p a w w' e : ne_Claim i c p a w = (inl e, w') → claims w ⊆ claims w';
  cl_Send c m w : claims (ne_Send c m w).2 = claims w;
  cl_Mark i c p ok n e w : claims (ne_Mark i c p ok n e w).2 = claims w;
}.

Definition sent (x : delivery_id) (l : list pendingDelivery) : Z := Z.of_nat (length (filter (λ d, id_of d = x) l)).

Definition claimed_ids (l : list pendingDelivery) : list delivery_id := id_of <$> filter (λ d, unclaimed d = false) l.

#[global] Arguments claimed_ids : simpl never.
#[global] Arguments sent : simpl never.

(** The invariant, with [q] the deliveries a pass has taken off the queue. *)
Record sends_ok {W} `{ClaimLaws W} (q : list pendingDelivery) (s : nmach W) : Prop := {
  sk_attempts : Forall (λ d, 0 ≤ d.(attempts) < maxNotifyAttempts) (q ++ s.(nt).(pending));
  sk_nodup : NoDup (claimed_ids (q ++ s.(nt).(pending)));
  sk_claimed x : x ∈ claimed_ids (q ++ s.(nt).(pending)) → x ∈ claims s.(nworld);
  sk_sent d : d ∈ q ++ s.(nt).(pending) → d.(unclaimed) = false → sent (id_of d) s.(sends) ≤ d.(attempts);
  sk_unsent x : x ∉ claims s.(nworld) → sent x s.(sends) = 0;
  sk_bound x : sent x s.(sends) ≤ maxNotifyAttempts;
}.

Lemma sent_snoc x l d : sent x (l ++ [d]) = sent x l + if decide (id_of d = x) then 1 else 0.
Proof. unfold sent. rewrite filter_app, length_app. cbn. case_decide; cbn; lia. Qed.

Lemma claimed_ids_cons d l :
  claimed_ids (d :: l) = if d.(unclaimed) then claimed_ids l else id_of d :: claimed_ids l.
Proof. unfold claimed_ids. rewrite filter_cons. destruct (unclaimed d); case_decide; done. Qed.

Lemma claimed_ids_app l l' : claimed_ids (l ++ l') = claimed_ids l ++ claimed_ids l'.
Proof. unfold claimed_ids. by rewrite filter_app, fmap_app. Qed.

#[export] Instance claimed_ids_perm : Proper ((≡ₚ) ==> (≡ₚ)) claimed_ids.
Proof. intros l l' Hp. unfold claimed_ids. by rewrite Hp. Qed.

Section bounded.
Context {W : Type} `{NotifyEnv W} `{UuidText} `{!ClaimLaws W}.
Implicit Type s : nmach W.

(** Dropping deliveries, and putting them in another order. *)
Lemma sends_ok_sub q q' s n' :
  sends_ok q s → q' ++ n'.(pending) ⊆+ q ++ s.(nt).(pending) → sends_ok q' (mkN n' s.(nworld) s.(sends)).
Proof.
  intros [H1 H2 H3 H4 H5 H6] Hsub.
  assert (claimed_ids (q' ++ pending n') ⊆+ claimed_ids (q ++ pending (nt s))) as Hc.
  { destruct (submseteq_Permutation _ _ Hsub) as [k Hk]. rewrite Hk, (claimed_ids_app _ k).
    by apply submseteq_inserts_r. }
  split; cbn; try done.
  - rewrite Forall_forall in H1 |- *. intros d Hd. apply H1. by eapply elem_of_submseteq.
  - destruct (submseteq_Permutation _ _ Hc) as [k Hk]. rewrite Hk in H2. by apply NoDup_app in H2 as [? _].
  - intros x Hx. apply H3. by eapply elem_of_submseteq.
  - intros d Hd. apply H4. by eapply elem_of_submseteq.
Qed.

Lemma keep_sends_ok q d s : sends_ok (d :: q) s → sends_ok q (keep d s).2.
Proof.
  intros Hok. unfold keep. destruct (_ <=? _) eqn:E; cbn.
  - destruct s as [n w l]. apply (sends_ok_sub (d :: q) q (mkN n w l) n Hok). by apply submseteq_cons.
  - destruct Hok as [H1 H2 H3 H4 H5 H6].
    assert (q ++ pending (nt s) ++ [set_failedIn (passes (nt s)) d] ≡ₚ set_failedIn (passes (nt s)) d :: q ++ pending (nt s)) as Hp by solve_Permutation.
    cbn in H1, H2, H3, H4. split; cbn; try done.
    + rewrite Hp. apply Forall_cons in H1 as [Hd0 H1]. by constructor.
    + rewrite Hp. revert H2. rewrite !claimed_ids_cons. done.
    + intros x. rewrite Hp, claimed_ids_cons. intros Hx. apply H3. by rewrite claimed_ids_cons.
    + intros d'. rewrite Hp. intros [->|Hd']%elem_of_cons; [apply (H4 d); by left|apply H4; by right].
Qed.

(** A claim that fails may add rows, nothing else. *)
Lemma sends_ok_claims q n w w' l :
  sends_ok (W:=W) q (mkN n w l) → claims w ⊆ claims w' → sends_ok q (mkN n w' l).
Proof. intros [H1 H2 H3 H4 H5 H6] Hsub. split; cbn in *; try done; set_solver. Qed.

Lemma sends_ok_unclaimed q d s :
  d.(unclaimed) = true → 0 ≤ d.(attempts) < maxNotifyAttempts → sends_ok q s → sends_ok (d :: q) s.
Proof.
  intros Hu Ha [H1 H2 H3 H4 H5 H6]. split; cbn; try done.
  - by constructor.
  - by rewrite claimed_ids_cons, Hu.
  - intros x. rewrite claimed_ids_cons, Hu. apply H3.
  - intros d' [->|Hd']%elem_of_cons; [congruence|]. by apply H4.
Qed.

Lemma sends_ok_tail q d s : sends_ok (d :: q) s → sends_ok q s.
Proof. destruct s as [n w l]. intros Hok. apply (sends_ok_sub (d :: q) q (mkN n w l) n Hok). by apply submseteq_cons. Qed.

Lemma keepUnclaimed_sends_ok q d s :
  d.(unclaimed) = true → 0 ≤ d.(attempts) → sends_ok q s → sends_ok q (keepUnclaimed d s).2.
Proof.
  intros Hu Ha Hok. unfold keepUnclaimed. destruct (_ <? _) eqn:E; zbool; rewrite bind_run.
  - apply keep_sends_ok, sends_ok_unclaimed; done.
  - destruct s as [n w l]. apply (sends_ok_sub q q (mkN n w l)); done.
Qed.

Lemma claim_sends_ok q d s :
  0 ≤ d.(attempts) < maxNotifyAttempts → sends_ok q s →
  let '((r, d'), s') := claim d s in
  sends_ok q s' ∧
  match r with
  | inl _ => d' = d ∨ d' = set_attempts (d.(attempts) + 1) d
  | inr won => d' = d ∧ (won = true → ∀ m, sends_ok (set_unclaimed false m d :: q) s')
  end.
Proof.
  intros Ha Hok. unfold claim, mbind, ST_bind, n_ctxErr, n_call. destruct (ne_ctxErr (nworld s)) as [e|]; [split; [done|by left]|].
  destruct s as [n w l]. cbn. destruct (ne_Claim _ _ _ _ w) as [[e|[]] w'] eqn:E; cbn.
  - split; [|auto]. eapply sends_ok_claims; [done|]. by eapply cl_err.
  - destruct (cl_won _ _ _ _ _ _ E) as [Hnew Hw]. assert (sends_ok q (mkN n w' l)) as Hok'.
    { eapply sends_ok_claims; [done|]. set_solver. }
    split; [done|]. split; [done|]. intros _ m. destruct Hok as [H1 H2 H3 H4 H5 H6], Hok' as [H1' H2' H3' H4' H5' H6']. cbn in *.
    split; cbn; try done.
    + by constructor.
    + rewrite claimed_ids_cons. constructor; [|done]. intros Hx%H3. done.
    + intros x. rewrite claimed_ids_cons. cbn. intros [->|Hx]%elem_of_cons; [rewrite Hw; set_solver|by apply H3'].
    + intros d' [->|Hd']%elem_of_cons Hu; [|by apply H4]. change (id_of (set_unclaimed false m d)) with (id_of d).
      rewrite H5 by done. cbn. lia.
  - split; [|done]. eapply sends_ok_claims; [done|]. by rewrite (cl_lost _ _ _ _ _ _ E).
Qed.

(** One send of a claimed delivery. *)
Lemma deliver_sends_ok q d s : d.(unclaimed) = false → sends_ok (d :: q) s → sends_ok q (deliver d s).2.
Proof.
  intros Hu Hok. unfold deliver. rewrite bind_run. cbn [n_ctxErr fst snd].
  destruct (ne_ctxErr (nworld s)) as [e|]; [rewrite bind_run; by apply keep_sends_ok|].
  rewrite !bind_run. unfold n_log, n_call. cbn.
  pose proof (cl_Send (channel d) (message d) (nworld s)) as Hs.
  destruct (ne_Send _ _ (nworld s)) as [sendErr w1]. cbn in *.
  pose proof (cl_Mark (dedupID d) (channel d) (phase d) (bool_decide (sendErr = None)) (attempts d + 1) sendErr w1) as Hm.
  destruct (ne_Mark _ _ _ _ _ _ w1) as [markErr w2]. cbn in *. rewrite Hs in Hm. clear Hs.
  destruct Hok as [H1 H2 H3 H4 H5 H6]. cbn in H1, H2, H3, H4.
  apply Forall_cons in H1 as [Ha H1]. rewrite claimed_ids_cons, Hu in H2, H3. apply NoDup_cons in H2 as [Hn H2].
  pose proof (H4 d (list_elem_of_here _ _) Hu) as Hd.
  assert (∀ d', d' ∈ q ++ pending (nt s) → unclaimed d' = false → id_of d' ≠ id_of d) as Hne.
  { intros d' Hd' Hu' E. apply Hn. rewrite <- E. unfold claimed_ids. apply list_elem_of_fmap. exists d'. split; [done|].
    by apply list_elem_of_filter. }
  assert (sends_ok q (mkN (nt s) w2 (sends s ++ [d]))) as Hbase.
  { split; cbn; try done.
    - intros x Hx. rewrite Hm. apply H3. by right.
    - intros d' Hd' Hu'. rewrite sent_snoc, decide_False by (intros E; by apply (Hne d')). specialize (H4 d'). rewrite Z.add_0_r. apply H4; [by right|done].
    - intros x. rewrite Hm. intros Hx. rewrite sent_snoc, decide_False; [rewrite H5 by done; lia|].
      intros <-. apply Hx, H3. by left.
    - intros x. rewrite sent_snoc. case_decide as E; [subst; unfold maxNotifyAttempts in *; lia|]. specialize (H6 x). lia. }
  destruct sendErr as [e|]; [|exact Hbase]. rewrite bind_run.
  destruct (decide (attempts d + 1 < maxNotifyAttempts)) as [Hlt|Hge].
  2:{ unfold keep. cbn. by rewrite (proj2 (Z.leb_le _ _)) by lia. }
  apply keep_sends_ok. destruct Hbase as [B1 B2 B3 B4 B5 B6]. cbn in *. split; cbn; try done.
  - constructor; [cbn; lia|done].
  - rewrite claimed_ids_cons. cbn. rewrite Hu. by constructor.
  - intros x. rewrite claimed_ids_cons. cbn. rewrite Hu, Hm. intros [->|Hx]%elem_of_cons; apply H3; [by left|by right].
  - intros d' [->|Hd']%elem_of_cons Hu'; [|by apply B4]. cbn. rewrite sent_snoc, decide_True by done. unfold id_of in *. cbn. lia.
Qed.

Lemma notify_channel_sends_ok q a ch s : sends_ok q s → sends_ok q (notify_channel a ch s).2.
Proof.
  intros Hok. unfold notify_channel. rewrite bind_run. set (d := mkPending _ _ _ _ _ _ _ _).
  pose proof (claim_sends_ok q d s ltac:(done) Hok) as Hc. destruct (claim d s) as [[r d'] s']. destruct Hc as [Hok' Hr]. cbn [fst snd].
  destruct r as [e|[]].
  - rewrite bind_run. apply keepUnclaimed_sends_ok; try done. by destruct Hr as [->| ->].
  - destruct Hr as [-> Hr]. apply deliver_sends_ok; [done|by apply Hr].
  - done.
Qed.

Lemma retry_one_sends_ok q d s : sends_ok (d :: q) s → sends_ok q (retry_one d s).2.
Proof.
  intros Hok. unfold retry_one. destruct (unclaimed d) eqn:Hu; [|by apply deliver_sends_ok].
  assert (0 ≤ attempts d < maxNotifyAttempts) as Ha by (destruct Hok as [H1 _ _ _ _ _]; by apply Forall_cons in H1 as [? _]).
  rewrite bind_run. pose proof (claim_sends_ok q d s Ha (sends_ok_tail _ _ _ Hok)) as Hc.
  destruct (claim d s) as [[r d'] s']. destruct Hc as [Hok' Hr]. cbn [fst snd]. destruct r as [e|[]].
  - rewrite bind_run. apply keepUnclaimed_sends_ok; try done; destruct Hr as [->| ->]; cbn; try done; lia.
  - destruct Hr as [-> Hr]. apply deliver_sends_ok; [done|by apply Hr].
  - rewrite bind_run. destruct s' as [n w l]. apply (sends_ok_sub q q (mkN n w l)); done.
Qed.

Lemma notify_channels_sends_ok a chs errs s : sends_ok [] s → sends_ok [] (notify_channels a chs errs s).2.
Proof.
  revert errs s. induction chs as [|ch chs IH]; intros errs s Hok; cbn; [done|]. rewrite bind_run.
  apply IH. by apply notify_channel_sends_ok.
Qed.

Lemma retry_all_sends_ok due errs s : sends_ok due s → sends_ok [] (retry_all due errs s).2.
Proof.
  revert errs s. induction due as [|d due IH]; intros errs s Hok; cbn; [done|]. rewrite bind_run.
  apply IH. by apply retry_one_sends_ok.
Qed.

Lemma apply_nop_sends_ok s o : sends_ok [] s → sends_ok [] (apply_nop s o).
Proof.
  intros Hok. assert (∀ f, sends_ok [] (dropPending f s).2) as Hdrop.
  { intros f. destruct s as [n w l]. apply (sends_ok_sub [] [] (mkN n w l)); [done|]. apply sublist_submseteq, sublist_filter. }
  destruct o as [a| |l]; cbn.
  - unfold Notify. rewrite bind_run. by apply notify_channels_sends_ok.
  - unfold Retry. rewrite bind_run. cbn [get fst snd]. rewrite !bind_run.
    set (due := filter _ (pending (nt s))). set (s1 := (n_set _ s).2).
    assert (sends_ok due s1) as H1.
    { destruct s as [n w l]. apply (sends_ok_sub [] due (mkN n w l)); [done|]. cbn.
      pose proof (filter_app_complement (λ d, failedIn d < passes n) (pending n)) as Hp. unfold due. cbn. by rewrite <- Hp at 3. }
    pose proof (retry_all_sends_ok due [] s1 H1) as H2. destruct (retry_all due [] s1) as [errs [n w l]].
    by apply (sends_ok_sub [] [] (mkN n w l)).
  - unfold Settle. rewrite bind_run. cbn [get fst snd]. destruct (pending (nt s)) eqn:E; [done|]. apply Hdrop.
Qed.
End bounded.

Lemma settle_drops_spec d episodes owed :
  settle_drops d episodes owed = true ↔
    (∃ a, a ∈ episodes ∧ startOf d.(d_alert) < startOf a) ∨
    (d.(phase) = "fire" ∧ owed = false ∧ ∀ a, a ∈ episodes → startOf a ≠ startOf d.(d_alert)).
Proof.
  revert owed. induction episodes as [|a l IH]; intros owed; cbn.
  - rewrite andb_true_iff, bool_decide_eq_true, negb_true_iff. split.
    + intros [? ?]. right. split_and!; try done. by intros a ?%elem_of_nil.
    + intros [(a & ?%elem_of_nil & _)|(? & ? & _)]; done.
  - setoid_rewrite elem_of_cons. unfold After, Equal. destruct (_ <? _) eqn:E; zbool.
    + split; [|done]. intros _. left. eauto.
    + rewrite IH. destruct (startOf a =? startOf (d_alert d)) eqn:E2; zbool.
      * rewrite orb_true_r. split; [naive_solver|]. intros [(b & [->|?] & ?)|(? & ? & Hall)]; [lia|naive_solver|].
        destruct (Hall a); auto.
      * rewrite orb_false_r. split; [naive_solver|]. intros [(b & [->|?] & ?)|(? & ? & Hall)]; [lia|naive_solver|]. right. naive_solver.
Qed.

(** ** Properties *)

(** C26: A delivery (an episode's transition on one channel) is sent at most
    [maxNotifyAttempts] times, over any sequence of notifications, passes and
    settlements, with failing claims, sends and lost replies, provided that the
    store grants a claim only once. No queued delivery has used up its attempts. *)
Theorem sends_bounded {W} `{NotifyEnv W} `{UuidText} `{!ClaimLaws W} (w : W) os x :
  let s := run_nops (mkN NewChannelNotifier w []) os in
  sent x s.(sends) ≤ maxNotifyAttempts ∧ Forall (λ d, 0 ≤ d.(attempts) < maxNotifyAttempts) s.(nt).(pending).
Proof.
  intros s. assert (sends_ok [] s) as [H1 _ _ _ _ H6]; [|done]. subst s. unfold run_nops.
  assert (sends_ok [] (mkN NewChannelNotifier w [])) as Hok.
  { split; cbn; [apply Forall_nil_2|constructor|by intros ? ?%elem_of_nil|by intros ? ?%elem_of_nil|done|done]. }
  revert Hok. generalize (mkN NewChannelNotifier w []) as s. induction os as [|o os IH]; intros s Hok; cbn; [done|].
  by apply IH, apply_nop_sends_ok.
Qed.

(** No channel is sent a transition its alert has left: every message sent by
    any operation carries the alert last notified for its key, so a FIRING that was
    refused is never sent after the RESOLVED that followed it. *)
Theorem only_latest_is_sent {W} `{NotifyEnv W} `{UuidText} (w : W) os o :
  let s := run_nops (mkN NewChannelNotifier w []) os in
  let s' := apply_nop s o in
  ∃ new, s'.(sends) = s.(sends) ++ new ∧
    ∀ d, d ∈ new ++ s'.(nt).(pending) → last_notified (os ++ [o]) d.(d_alert).(aKey) = Some d.(d_alert).
Proof.
  intros s s'. pose proof (run_latest os (mkN NewChannelNotifier w []) eq_refl) as Hp.
  destruct (step_latest os o s Hp) as [Hp' (new & Hs & Hn)]. exists new. split; [done|].
  rewrite Forall_forall in Hp', Hn. intros d [Hd|Hd]%elem_of_app; [by apply Hn|by apply Hp'].
Qed.

(** [Settle] keeps exactly the deliveries still owed: those that no firing
    episode of their alert has overtaken and, for a FIRING, whose own episode is
    still firing; it touches nothing else. *)
Theorem settle_exact {W} `{NotifyEnv W} `{UuidText} (s : nmach W) firing :
  let s' := (Settle firing s).2 in
  s'.(sends) = s.(sends) ∧ s'.(nt).(passes) = s.(nt).(passes) ∧
  ∀ d, d ∈ s'.(nt).(pending) ↔
    d ∈ s.(nt).(pending) ∧
    (∀ a, a ∈ firing → a.(aKey) = d.(d_alert).(aKey) → startOf a ≤ startOf d.(d_alert)) ∧
    (d.(phase) = "fire" → ∃ a, a ∈ firing ∧ a.(aKey) = d.(d_alert).(aKey) ∧ startOf a = startOf d.(d_alert)).
Proof.
  cbv zeta. unfold Settle. rewrite bind_run. cbn [get fst snd]. destruct (pending (nt s)) as [|d0 l] eqn:Ep.
  { cbn. rewrite Ep. split_and!; try done. intros d. split; [by intros ?%elem_of_nil|by intros [?%elem_of_nil _]]. }
  cbn. rewrite Ep. split_and!; try done. intros d. rewrite list_elem_of_filter.
  assert (∀ P P' : Prop, (P ↔ P') → ((P ∧ d ∈ d0 :: l) ↔ (d ∈ d0 :: l ∧ P'))) as Hcong by tauto. apply Hcong.
  rewrite <- not_true_iff_false, settle_drops_spec. setoid_rewrite list_elem_of_filter. split.
  - intros Hn. split.
    + intros a Ha Hk. destruct (decide (startOf a ≤ startOf (d_alert d))); [done|]. destruct Hn. left. exists a. split; [done|lia].
    + intros Hf. destruct (decide (Exists (λ a, aKey a = aKey (d_alert d) ∧ startOf a = startOf (d_alert d)) firing)) as [He|He].
      * apply Exists_exists in He as (a & Ha & Hk & Hs). eauto.
      * destruct Hn. right. split_and!; try done. intros a [Hk Ha] E. apply He, Exists_exists. eauto.
  - intros [H1 H2] [(a & [Hk Ha] & Hlt)|(Hf & _ & Hall)].
    + specialize (H1 a Ha Hk). lia.
    + destruct (H2 Hf) as (a & Ha & Hk & E). by apply (Hall a).
Qed.

(** ** A store that remembers its claims, and a channel that is down *)

Module Example_.
#[local] Instance uuid_decimal : UuidText := λ u, pretty u.

#[export] Instance down_env : NotifyEnv (gset delivery_id) := {|
  ne_channels := ["webhook"]; ne_ctxErr := λ _, None;
  ne_Claim := λ i c p _ w, if decide ((i, c, p) ∈ w) then (inr false, w) else (inr true, {[(i, c, p)]} ∪ w);
  ne_Mark := λ _ _ _ _ _ _ w, (None, w); ne_Send := λ _ _ w, (Some "refused", w);
|}.

#[export] Instance down_laws : ClaimLaws (gset delivery_id).
Proof.
  refine (Build_ClaimLaws _ _ id _ _ _ _ _); cbn; try done; intros; case_decide; by simplify_eq.
Defined.

Definition page : Alert :=
  mkAlert "slow/7/" "slow" SeverityWarning StateFiring None (Some 7) "" ∅ (float_of_int 20) "slow" Hour Hour None false.

Definition down_run (n : nat) : nmach (gset delivery_id) :=
  run_nops (mkN NewChannelNotifier ∅ []) (NNotify page :: replicate n NRetry).

(** Refused for ever, it is sent five times and then left. *)
Lemma down_run_sends : length (sends (down_run 12)) = 5%nat ∧ pending (nt (down_run 12)) = [].
Proof. split; vm_compute; reflexivity. Qed.

Lemma sends_bounded_witness : sent (DedupID page, "webhook", "fire") (down_run 12).(sends) ≤ maxNotifyAttempts.
Proof. apply (sends_bounded ∅ (NNotify page :: replicate 12 NRetry)). Defined.
End Example_.
