(* ===== verification/Topology.v ===== *)
(** * The topology engine (internal/topology)

    Instances report their role; the engine keeps the last state of each, an index
    of instances per cluster, and per cluster the last primary, failover and split
    brain. [ApplyUndoable] returns a function that takes the observation back; it
    compares pointers to tell whether the state is still its own, so instance
    states and last-primary records carry the address they were allocated at.
    Reading the state of an indexed instance that is not tracked is a nil
    dereference: [apply] is [None] there. *)
From S2P Require Import Prelude GoTime GoFloat Pgtype AlertTypes.

Record Edge := mkEdge {
  From : InstanceID;
  To : InstanceID;
  Type_ : string;
  SyncState : string;
  Confidence : string;
}.

#[export] Instance Edge_eq_dec : EqDecision Edge.
Proof. solve_decision. Defined.

Record Observation := mkObservation {
  oInstanceID : InstanceID;
  oClusterID : ClusterID;
  oRole : Role;
  oPriorRole : Role;
  oTimestamp : Time;
  oEdges : list Edge;
}.

#[export] Instance Observation_eq_dec : EqDecision Observation.
Proof. solve_decision. Defined.

Definition zeroObservation : Observation := mkObservation uuid_Nil 0 RoleNone RoleNone zero_time [].

Definition knownRole (r : Role) : bool :=
  match r with RoleNone | RoleUnknown => false | _ => true end.

(** The events, with what their payload holds. *)
Inductive EventType :=
| EventFailoverDetected (old_primary new_primary : InstanceID)
| EventRoleChange (old_role : option Role) (new_role : Role)
| EventSplitBrainDetected (primary_count : Z)
| EventOrphanStandby (duration_seconds : float64).

Record Event := mkEvent {
  eType : EventType;
  eTimestamp : Time;
  eInstanceID : InstanceID; (* the nil UUID for a split brain *)
  eClusterID : ClusterID;
}.

Record instanceState := mkInst {
  role : Role;
  clusterID : ClusterID;
  timestamp : Time;
  lastObs : Observation;
  quietCycles : Z;
  orphanAt : Time;
  orphanSeenAt : Time;
  orphanSeenSent : Time;
  orphanedAt : Time;
  edgeSeenAt : gmap string Time;
}.

#[export] Instance instanceState_eq_dec : EqDecision instanceState.
Proof. solve_decision. Defined.

Definition zeroInstance : instanceState :=
  mkInst RoleNone 0 zero_time zeroObservation 0 zero_time zero_time zero_time zero_time ∅.

Record lastPrimaryInfo := mkLastPrimary { lpInstanceID : InstanceID; lpTimestamp : Time }.

#[export] Instance lastPrimaryInfo_eq_dec : EqDecision lastPrimaryInfo.
Proof. solve_decision. Defined.

(** A pointer: the address, and what is stored there. *)
Notation ptr A := (Z * A)%type.

Record Engine := mkEngine {
  instances : gmap InstanceID (ptr instanceState);
  clusterInstances : gmap ClusterID (gset InstanceID);
  lastPrimary : gmap ClusterID (ptr lastPrimaryInfo);
  lastFailoverTime : gmap ClusterID Time;
  lastSplitBrain : gmap ClusterID Time;
  heap : Z; (* the next free address *)
}.

Definition failoverWindow : Duration := 120 * Second.
Definition orphanWindow : Duration := 60 * Second.
Definition splitBrainWindow : Duration := 60 * Second.

Definition NewEngine : Engine := mkEngine ∅ ∅ ∅ ∅ ∅ 1.

(** The members of a cluster; a missing inner map reads as empty. *)
Definition members (e : Engine) (c : ClusterID) : gset InstanceID := default ∅ (e.(clusterInstances) !! c).

(** ** Apply *)

Definition is_repeat (obs : Observation) (inst : instanceState) : bool :=
  negb (IsZero obs.(oTimestamp)) && Equal obs.(oTimestamp) inst.(lastObs).(oTimestamp) &&
  bool_decide (obs.(oRole) = inst.(lastObs).(oRole)) &&
  bool_decide (obs.(oClusterID) = inst.(lastObs).(oClusterID)) &&
  bool_decide (obs.(oEdges) = inst.(lastObs).(oEdges)).

(** A primary of the cluster other than [id] was seen within the failover window. *)
Definition recent_other_primary (e : Engine) (c : ClusterID) (id : InstanceID) (now : Time) : option InstanceID :=
  match e.(lastPrimary) !! c with
  | Some (_, lp) =>
      if (Sub now lp.(lpTimestamp) <? failoverWindow) && negb (bool_decide (lp.(lpInstanceID) = id))
      then Some lp.(lpInstanceID) else None
  | None => None
  end.

(** The role part of [apply]: the events, and whether the failover time is set. *)
Definition role_change (e : Engine) (obs : Observation) (old : Role) (now : Time) : list Event * bool :=
  let ev t := mkEvent t now obs.(oInstanceID) obs.(oClusterID) in
  if decide (old = obs.(oRole)) then ([], false)
  else if decide (obs.(oRole) = RolePrimary ∧ old = RoleStandby) then
    match recent_other_primary e obs.(oClusterID) obs.(oInstanceID) now with
    | Some p => ([ev (EventFailoverDetected p obs.(oInstanceID))], true)
    | None => ([ev (EventRoleChange None obs.(oRole))], false)
    end
  else if decide (old ≠ RoleNone) then
    ([ev (EventRoleChange (Some old) obs.(oRole))],
     bool_decide (old = RoleUnknown ∧ obs.(oRole) = RolePrimary ∧
       is_Some (recent_other_primary e obs.(oClusterID) obs.(oInstanceID) now)))
  else if knownRole obs.(oPriorRole) then
    (if decide (obs.(oPriorRole) ≠ obs.(oRole)) then [ev (EventRoleChange (Some obs.(oPriorRole)) obs.(oRole))] else [], false)
  else ([ev (EventRoleChange None obs.(oRole))], false).

Definition orphanGapEnds (inst : instanceState) (now sent : Time) : bool :=
  if (inst.(quietCycles) <? 2) || (Sub now inst.(orphanSeenAt) <? orphanWindow) then false
  else if negb (IsZero sent) && negb (IsZero inst.(orphanSeenSent)) && (Sub sent inst.(orphanSeenSent) <? orphanWindow)
  then false
  else true.

Definition set_orphan (at_ emitted : Time) (i : instanceState) : instanceState :=
  mkInst i.(role) i.(clusterID) i.(timestamp) i.(lastObs) i.(quietCycles) at_ i.(orphanSeenAt) i.(orphanSeenSent) emitted i.(edgeSeenAt).
Definition set_quiet (n : Z) (i : instanceState) : instanceState :=
  mkInst i.(role) i.(clusterID) i.(timestamp) i.(lastObs) n i.(orphanAt) i.(orphanSeenAt) i.(orphanSeenSent) i.(orphanedAt) i.(edgeSeenAt).
Definition set_seen (seen sent : Time) (i : instanceState) : instanceState :=
  mkInst i.(role) i.(clusterID) i.(timestamp) i.(lastObs) i.(quietCycles) i.(orphanAt) seen sent i.(orphanedAt) i.(edgeSeenAt).
Definition set_edge (k : string) (t : Time) (i : instanceState) : instanceState :=
  mkInst i.(role) i.(clusterID) i.(timestamp) i.(lastObs) i.(quietCycles) i.(orphanAt) i.(orphanSeenAt) i.(orphanSeenSent) i.(orphanedAt) (<[k := t]> i.(edgeSeenAt)).

(** One observation without orphan evidence. *)
Definition quiet_cycle (now sent : Time) (i : instanceState) : instanceState :=
  let i := set_quiet (wrap64 (i.(quietCycles) + 1)) i in
  if orphanGapEnds i now sent then set_orphan zero_time zero_time i else i.

Section apply.
Context `{UuidText}.

(** The loop over the edges of a standby. *)
Definition see_edges (now : Time) (edges : list Edge) (i : instanceState) : bool * instanceState :=
  foldl (λ acc edge,
    if decide (edge.(Confidence) = "high")
    then (true, set_orphan zero_time zero_time (set_edge (uuid_String edge.(To)) now acc.2))
    else acc) (false, i) edges.

(** The edge part of [apply]. *)
Definition process_edges (obs : Observation) (now : Time) (i : instanceState) : list Event * instanceState :=
  match obs.(oRole) with
  | RoleStandby =>
      let '(resolved, i) := see_edges now obs.(oEdges) i in
      if negb resolved && negb (bool_decide (obs.(oEdges) = [])) then
        let i := set_quiet 0 i in
        let i := if IsZero i.(orphanAt) then set_orphan now i.(orphanedAt) i else i in
        let i := set_seen now obs.(oTimestamp) i in
        if (orphanWindow <=? Sub now i.(orphanAt)) && (orphanWindow <=? Sub now i.(orphanedAt)) then
          ([mkEvent (EventOrphanStandby (Seconds (Sub now i.(orphanAt)))) now obs.(oInstanceID) obs.(oClusterID)],
           set_orphan i.(orphanAt) now i)
        else ([], i)
      else ([], quiet_cycle now obs.(oTimestamp) i)
  | RoleUnknown => ([], quiet_cycle now obs.(oTimestamp) i)
  | RolePrimary => ([], set_orphan zero_time zero_time i)
  | RoleNone => ([], i)
  end.

(** [None] when an indexed instance has no state. *)
Definition counts_as_primary (e : Engine) (c : ClusterID) (now : Time) (id : InstanceID) : option bool :=
  let lastFailover := default zero_time (e.(lastFailoverTime) !! c) in
  match e.(instances) !! id with
  | None => None
  | Some (_, inst) =>
      Some (bool_decide (inst.(role) = RolePrimary) &&
            ((Sub now inst.(timestamp) <? failoverWindow) && negb (Before inst.(timestamp) lastFailover)))
  end.

Fixpoint count_primaries (e : Engine) (c : ClusterID) (now : Time) (ids : list InstanceID) : option (list InstanceID) :=
  match ids with
  | [] => Some []
  | id :: ids =>
      b ← counts_as_primary e c now id;
      l ← count_primaries e c now ids;
      Some (if b : bool then id :: l else l)
  end.

Definition set_splitBrain (m : gmap ClusterID Time) (e : Engine) : Engine :=
  mkEngine e.(instances) e.(clusterInstances) e.(lastPrimary) e.(lastFailoverTime) m e.(heap).

(** A split brain of the cluster was reported within the window. *)
Definition throttled (e : Engine) (c : ClusterID) (now : Time) : bool :=
  match e.(lastSplitBrain) !! c with
  | Some last => Sub now last <? splitBrainWindow
  | None => false
  end.

Definition detectSplitBrain (e : Engine) (c : ClusterID) (now : Time) : option (list Event * Engine) :=
  let lastFailover := default zero_time (e.(lastFailoverTime) !! c) in
  primaries ← count_primaries e c now (elements (members e c));
  let n := Z.of_nat (length primaries) in
  if 2 <=? n then
    if IsZero lastFailover || (30 * Second <? Sub now lastFailover) then
      if throttled e c now then Some ([], e)
      else Some ([mkEvent (EventSplitBrainDetected n) now uuid_Nil c], set_splitBrain (<[c := now]> e.(lastSplitBrain)) e)
    else Some ([], e)
  else Some ([], set_splitBrain (delete c e.(lastSplitBrain)) e).

(** [e.clusterInstances[c][id] = struct{}{}], and removing an instance. *)
Definition index_add (c : ClusterID) (id : InstanceID) (m : gmap ClusterID (gset InstanceID)) : gmap ClusterID (gset InstanceID) :=
  <[c := {[id]} ∪ default ∅ (m !! c)]> m.
Definition index_remove (c : ClusterID) (id : InstanceID) (m : gmap ClusterID (gset InstanceID)) : gmap ClusterID (gset InstanceID) :=
  alter (λ s, s ∖ {[id]}) c m.

(** The state of the instance after the role part: everything but its edges. *)
Definition touch (obs : Observation) (now : Time) (inst : instanceState) : instanceState :=
  mkInst obs.(oRole) obs.(oClusterID) now obs inst.(quietCycles) inst.(orphanAt) inst.(orphanSeenAt)
    inst.(orphanSeenSent) inst.(orphanedAt) inst.(edgeSeenAt).

Definition apply (e : Engine) (obs : Observation) (now : Time) : option (list Event * Engine) :=
  let id := obs.(oInstanceID) in
  let c := obs.(oClusterID) in
  let '(addr, inst, heap) :=
    match e.(instances) !! id with
    | Some (addr, inst) => (addr, inst, e.(heap))
    | None => (e.(heap), zeroInstance, e.(heap) + 1)
    end in
  if is_repeat obs inst then
    Some ([], mkEngine (<[id := (addr, inst)]> e.(instances)) e.(clusterInstances) e.(lastPrimary) e.(lastFailoverTime) e.(lastSplitBrain) heap)
  else
    let '(events, failover) := role_change e obs inst.(role) now in
    let index := if decide (inst.(clusterID) ≠ c) then index_remove inst.(clusterID) id e.(clusterInstances) else e.(clusterInstances) in
    let index := index_add c id index in
    let '(prim, heap) :=
      if decide (obs.(oRole) = RolePrimary) then (<[c := (heap, mkLastPrimary id now)]> e.(lastPrimary), heap + 1)
      else (e.(lastPrimary), heap) in
    let '(orphans, inst') := process_edges obs now (touch obs now inst) in
    let e' := mkEngine (<[id := (addr, inst')]> e.(instances)) index prim
                (if failover then <[c := now]> e.(lastFailoverTime) else e.(lastFailoverTime)) e.(lastSplitBrain) heap in
    '(splits, e') ← detectSplitBrain e' c now;
    Some (events ++ orphans ++ splits, e').
End apply.

(** ** Taking an observation back *)

Record topoMark := mkMark {
  m_inst : option (ptr instanceState);
  lastPrim : option (ptr lastPrimaryInfo);
  failover : option Time;
  splitBrain : option Time;
}.

Definition mark (e : Engine) (id : InstanceID) (c : ClusterID) : topoMark :=
  mkMark (e.(instances) !! id) (e.(lastPrimary) !! c) (e.(lastFailoverTime) !! c) (e.(lastSplitBrain) !! c).

Definition sameInstanceState (a b : instanceState) : bool :=
  bool_decide (a.(role) = b.(role)) && bool_decide (a.(clusterID) = b.(clusterID)) &&
  Equal a.(timestamp) b.(timestamp) && Equal a.(orphanAt) b.(orphanAt) && Equal a.(orphanedAt) b.(orphanedAt) &&
  (a.(quietCycles) =? b.(quietCycles)) && Equal a.(orphanSeenAt) b.(orphanSeenAt) && Equal a.(orphanSeenSent) b.(orphanSeenSent) &&
  bool_decide (a.(lastObs) = b.(lastObs)) && bool_decide (a.(edgeSeenAt) = b.(edgeSeenAt)).

Definition revertTime (m : gmap ClusterID Time) (c : ClusterID) (before written : option Time) : gmap ClusterID Time :=
  if decide (m !! c = written) then
    match before with Some t => <[c := t]> m | None => delete c m end
  else m.

(** Removing the instance from its cluster, and the cluster with its last member. *)
Definition index_leave (c : ClusterID) (id : InstanceID) (m : gmap ClusterID (gset InstanceID)) : gmap ClusterID (gset InstanceID) :=
  match m !! c with
  | None => m
  | Some s => if decide (s ∖ {[id]} = ∅) then delete c m else <[c := s ∖ {[id]}]> m
  end.

Definition revert (e : Engine) (id : InstanceID) (c : ClusterID) (before written : topoMark) : Engine :=
  let '(insts, index) :=
    match e.(instances) !! id, written.(m_inst) with
    | Some (addr, live), Some (waddr, wstate) =>
        if (addr =? waddr) && sameInstanceState live wstate then
          let index := index_leave wstate.(clusterID) id e.(clusterInstances) in
          match before.(m_inst) with
          | None => (delete id e.(instances), index)
          | Some (_, bstate) => (<[id := (addr, bstate)]> e.(instances), index_add bstate.(clusterID) id index)
          end
        else (e.(instances), e.(clusterInstances))
    | _, _ => (e.(instances), e.(clusterInstances))
    end in
  let prim :=
    if decide (fst <$> e.(lastPrimary) !! c = fst <$> written.(lastPrim)) then
      match before.(lastPrim) with Some p => <[c := p]> e.(lastPrimary) | None => delete c e.(lastPrimary) end
    else e.(lastPrimary) in
  mkEngine insts index prim (revertTime e.(lastFailoverTime) c before.(failover) written.(failover))
    (revertTime e.(lastSplitBrain) c before.(splitBrain) written.(splitBrain)) e.(heap).

(** The events, the engine, and the two marks the revert function closes over. *)
Definition ApplyUndoable `{UuidText} (e : Engine) (obs : Observation) (now : Time) :
    option (list Event * Engine * (topoMark * topoMark)) :=
  let before := mark e obs.(oInstanceID) obs.(oClusterID) in
  '(events, e') ← apply e obs now;
  Some (events, e', (before, mark e' obs.(oInstanceID) obs.(oClusterID))).

(** ** Evict *)

Definition Evict (e : Engine) (before : Time) : nat * Engine :=
  let old (x : InstanceID * ptr instanceState) := Before x.2.2.(timestamp) before = true in
  let kept := filter (λ x, ¬ old x) e.(instances) in
  let gone := filter old e.(instances) in
  let live : gset ClusterID := map_to_set (λ _ p, p.2.(clusterID)) kept in
  let prune (p : ptr instanceState) : ptr instanceState :=
    (p.1, mkInst p.2.(role) p.2.(clusterID) p.2.(timestamp) p.2.(lastObs) p.2.(quietCycles) p.2.(orphanAt)
            p.2.(orphanSeenAt) p.2.(orphanSeenSent) p.2.(orphanedAt) (filter (λ x, Before x.2 before = false) p.2.(edgeSeenAt))) in
  let index := map_fold (λ id p m, index_remove p.2.(clusterID) id m) e.(clusterInstances) gone in
  let only_live {A} (m : gmap ClusterID A) := filter (λ x, x.1 ∈ live) m in
  (size gone,
   mkEngine (prune <$> kept) (only_live index) (only_live e.(lastPrimary)) (only_live e.(lastFailoverTime))
     (only_live e.(lastSplitBrain)) e.(heap)).

Definition Len (e : Engine) : nat := size e.(instances).

(** ** The streaming provider (provider.go, streaming.go) *)

Record Provider := mkProvider { Name : string; Applies : Observation → bool; Edges : Observation → list Edge }.

Definition NewStreamingProvider : Provider := mkProvider "streaming" (λ _, true) (λ inst, inst.(oEdges)).

(** ** The cluster index *)

Definition indexed (m : gmap ClusterID (gset InstanceID)) (c : ClusterID) (id : InstanceID) : Prop := id ∈ default ∅ (m !! c).

Lemma indexed_add c id m c' id' : indexed (index_add c id m) c' id' ↔ (c' = c ∧ id' = id) ∨ indexed m c' id'.
Proof.
  unfold indexed, index_add. rewrite lookup_insert. case_decide; [subst|]; cbn; set_solver.
Qed.

Lemma indexed_remove c id m c' id' : indexed (index_remove c id m) c' id' ↔ indexed m c' id' ∧ ¬ (c' = c ∧ id' = id).
Proof.
  unfold indexed, index_remove. destruct (decide (c' = c)) as [->|].
  - rewrite lookup_alter_eq. destruct (m !! c); cbn; set_solver.
  - rewrite lookup_alter_ne by done. set_solver.
Qed.

Lemma indexed_leave c id m c' id' : indexed (index_leave c id m) c' id' ↔ indexed m c' id' ∧ ¬ (c' = c ∧ id' = id).
Proof.
  unfold indexed, index_leave. destruct (m !! c) as [s|] eqn:E.
  - destruct (decide (c' = c)) as [->|Hne].
    + rewrite E. cbn. case_decide as Hs; [rewrite lookup_delete_eq|rewrite lookup_insert_eq]; cbn; set_solver.
    + case_decide as Hs; [rewrite lookup_delete_ne by done|rewrite lookup_insert_ne by done]; set_solver.
  - split; [|tauto]. intros H. split; [done|]. intros [-> _]. rewrite E in H. set_solver.
Qed.

(** The index lists an instance under a cluster exactly when the instance is
    tracked and reports into that cluster. *)
Definition index_ok (e : Engine) : Prop :=
  ∀ c id, indexed e.(clusterInstances) c id ↔ ∃ a st, e.(instances) !! id = Some (a, st) ∧ st.(clusterID) = c.

Section lemmas.
Context `{UuidText}.

Definition same_core (i j : instanceState) : Prop :=
  i.(role) = j.(role) ∧ i.(clusterID) = j.(clusterID) ∧ i.(timestamp) = j.(timestamp) ∧ i.(lastObs) = j.(lastObs).

Lemma same_core_trans i j k : same_core i j → same_core j k → same_core i k.
Proof. unfold same_core. intuition congruence. Qed.

Lemma quiet_cycle_core now sent i : same_core (quiet_cycle now sent i) i.
Proof. unfold quiet_cycle. destruct (orphanGapEnds _ _ _); by repeat split. Qed.

Lemma see_edges_core now edges i : same_core (see_edges now edges i).2 i.
Proof.
  unfold see_edges. assert (∀ acc, same_core acc.2 i → same_core (foldl (λ acc edge,
    if decide (Confidence edge = "high") then (true, set_orphan zero_time zero_time (set_edge (uuid_String (To edge)) now acc.2)) else acc) acc edges).2 i) as Hl.
  { induction edges as [|ed edges IH]; intros acc Hacc; cbn; [done|]. apply IH. by case_decide. }
  by apply Hl.
Qed.

Lemma process_edges_core obs now i : same_core (process_edges obs now i).2 i.
Proof.
  unfold process_edges. destruct (oRole obs); [by repeat split|by repeat split| |apply quiet_cycle_core].
  pose proof (see_edges_core now (oEdges obs) i) as Hc. destruct (see_edges now (oEdges obs) i) as [b i']. cbn in Hc.
  destruct (_ && _); [|exact (same_core_trans _ _ _ (quiet_cycle_core now (oTimestamp obs) i') Hc)].
  cbv zeta. destruct (IsZero _); destruct ((_ <=? _) && _); exact Hc.
Qed.

Lemma count_primaries_total e c now ids :
  (∀ id, id ∈ ids → is_Some (e.(instances) !! id)) → is_Some (count_primaries e c now ids).
Proof.
  induction ids as [|id ids IH]; intros Hin; cbn; [eauto|].
  destruct (Hin id (list_elem_of_here _ _)) as [[a st] E]. unfold counts_as_primary. rewrite E. cbn.
  destruct IH as [l El]; [intros; apply Hin; by right|]. rewrite El. cbn. eauto.
Qed.

Lemma detectSplitBrain_total e c now : index_ok e → ∃ evs m, detectSplitBrain e c now = Some (evs, set_splitBrain m e).
Proof.
  intros Hok. unfold detectSplitBrain. destruct (count_primaries_total e c now (elements (members e c))) as [l ->].
  { intros id Hid%elem_of_elements. destruct (proj1 (Hok c id) Hid) as (a & st & E & _). eauto. }
  assert (e = set_splitBrain (lastSplitBrain e) e) as Hid by (by destruct e).
  cbn. repeat case_match; eauto; do 2 eexists; by rewrite Hid at 1.
Qed.

(** The engine after [apply], before the split-brain check. *)
Definition lookup_inst (e : Engine) (id : InstanceID) : Z * instanceState * Z :=
  match e.(instances) !! id with
  | Some (addr, inst) => (addr, inst, e.(heap))
  | None => (e.(heap), zeroInstance, e.(heap) + 1)
  end.

Definition updated (e : Engine) (obs : Observation) (now : Time) : Engine :=
  let id := obs.(oInstanceID) in
  let c := obs.(oClusterID) in
  let '(addr, inst, heap) := lookup_inst e id in
  let index := if decide (inst.(clusterID) ≠ c) then index_remove inst.(clusterID) id e.(clusterInstances) else e.(clusterInstances) in
  let '(prim, heap) :=
    if decide (obs.(oRole) = RolePrimary) then (<[c := (heap, mkLastPrimary id now)]> e.(lastPrimary), heap + 1)
    else (e.(lastPrimary), heap) in
  mkEngine (<[id := (addr, (process_edges obs now (touch obs now inst)).2)]> e.(instances)) (index_add c id index) prim
    (if (role_change e obs inst.(role) now).2 then <[c := now]> e.(lastFailoverTime) else e.(lastFailoverTime)) e.(lastSplitBrain) heap.

Lemma apply_eq e obs now :
  apply e obs now =
    let '(addr, inst, heap) := lookup_inst e obs.(oInstanceID) in
    if is_repeat obs inst then
      Some ([], mkEngine (<[obs.(oInstanceID) := (addr, inst)]> e.(instances)) e.(clusterInstances) e.(lastPrimary) e.(lastFailoverTime) e.(lastSplitBrain) heap)
    else
      '(splits, e') ← detectSplitBrain (updated e obs now) obs.(oClusterID) now;
      Some ((role_change e obs inst.(role) now).1 ++ (process_edges obs now (touch obs now inst)).1 ++ splits, e').
Proof.
  unfold apply, updated. fold (lookup_inst e (oInstanceID obs)). destruct (lookup_inst e (oInstanceID obs)) as [[addr inst] heap'].
  destruct (is_repeat obs inst); [done|]. destruct (role_change e obs (role inst) now) as [evs b].
  destruct (process_edges obs now (touch obs now inst)) as [orph inst']. by destruct (decide (oRole obs = RolePrimary)).
Qed.

Lemma zero_not_repeat obs : is_repeat obs zeroInstance = false.
Proof.
  unfold is_repeat, IsZero, Equal. cbn. unfold zero_time. by destruct (oTimestamp obs =? 0).
Qed.

Lemma updated_index e obs now : index_ok e → index_ok (updated e obs now).
Proof.
  intros Hok c id. unfold updated. destruct (lookup_inst e (oInstanceID obs)) as [[addr inst] hp] eqn:El.
  destruct (process_edges_core obs now (touch obs now inst)) as (_ & Hc & _). cbn in Hc.
  assert (∀ m, indexed (if decide (clusterID inst ≠ oClusterID obs) then index_remove (clusterID inst) (oInstanceID obs) m else m) c id ↔
    indexed m c id ∧ ¬ (clusterID inst ≠ oClusterID obs ∧ c = clusterID inst ∧ id = oInstanceID obs)) as Hrm.
  { intros m. case_decide; [rewrite indexed_remove|]; tauto. }
  assert (∀ a st, instances e !! oInstanceID obs = Some (a, st) → st = inst) as Hinst.
  { intros a st E. unfold lookup_inst in El. rewrite E in El. congruence. }
  destruct (if decide (oRole obs = RolePrimary) then _ else _) as [prim hp']. cbn.
  rewrite indexed_add, Hrm, (Hok c id). destruct (decide (id = oInstanceID obs)) as [->|Hne].
  - rewrite lookup_insert_eq. split.
    + intros [[-> _]|[(a & st & E & <-) Hn]]; [by do 2 eexists|]. apply Hinst in E as ->.
      do 2 eexists. split; [done|]. rewrite Hc. apply dec_stable. naive_solver.
    + intros (a & st & [= <- <-] & <-). left. by rewrite Hc.
  - rewrite lookup_insert_ne by done. naive_solver.
Qed.

Lemma apply_index e obs now : index_ok e → ∃ evs e', apply e obs now = Some (evs, e') ∧ index_ok e'.
Proof.
  intros Hok. rewrite apply_eq. destruct (lookup_inst e (oInstanceID obs)) as [[addr inst] hp] eqn:El.
  destruct (is_repeat obs inst) eqn:Er.
  - do 2 eexists. split; [done|]. unfold lookup_inst in El. destruct (instances e !! oInstanceID obs) as [[a st]|] eqn:E.
    + injection El as <- <- <-. intros c id. cbn. by rewrite insert_id by done.
    + injection El as <- <- <-. by rewrite zero_not_repeat in Er.
  - destruct (detectSplitBrain_total (updated e obs now) (oClusterID obs) now (updated_index e obs now Hok)) as (evs & m & ->).
    cbn. do 2 eexists. split; [done|]. apply (updated_index e obs now Hok).
Qed.

(** ** Reverting and evicting keep the index *)

Lemma sameInstanceState_eq a b : sameInstanceState a b = true ↔ a = b.
Proof.
  unfold sameInstanceState, Equal. rewrite !andb_true_iff, !Z.eqb_eq, !bool_decide_eq_true. split.
  - destruct a, b; cbn. intuition congruence.
  - intros ->. tauto.
Qed.

Lemma revert_index e id c before written : index_ok e → index_ok (revert e id c before written).
Proof.
  intros Hok. unfold revert. destruct (instances e !! id) as [[addr live]|] eqn:Ei; [|done].
  destruct (m_inst written) as [[waddr wst]|] eqn:Ew; [|done].
  destruct ((addr =? waddr) && sameInstanceState live wst) eqn:Es; [|done].
  apply andb_true_iff in Es as [_ ->%sameInstanceState_eq].
  destruct (m_inst before) as [[ba bst]|]; intros c' id'; cbn; rewrite ?indexed_add, indexed_leave, (Hok c' id');
    (destruct (decide (id' = id)) as [->|Hne]; [rewrite ?lookup_insert_eq, ?lookup_delete_eq|rewrite ?lookup_insert_ne, ?lookup_delete_ne by done]); naive_solver.
Qed.

Lemma indexed_fold_remove (gone : gmap InstanceID (ptr instanceState)) m c id :
  indexed (map_fold (λ id p m, index_remove p.2.(clusterID) id m) m gone) c id ↔
    indexed m c id ∧ ¬ ∃ p, gone !! id = Some p ∧ p.2.(clusterID) = c.
Proof.
  revert c id. apply (map_fold_weak_ind (λ acc (g : gmap InstanceID (ptr instanceState)), ∀ c id, indexed acc c id ↔
    indexed m c id ∧ ¬ ∃ p, g !! id = Some p ∧ p.2.(clusterID) = c)).
  { intros c id. setoid_rewrite lookup_empty. naive_solver. }
  intros i p g acc Hi IH c id. rewrite indexed_remove, IH. setoid_rewrite lookup_insert_Some. naive_solver.
Qed.

Lemma Evict_index e before : index_ok e → index_ok (Evict e before).2.
Proof.
  intros Hok c id. unfold Evict. cbn. set (kept := filter _ (instances e)). set (gone := filter _ (instances e)).
  set (live := map_to_set _ _ : gset ClusterID).
  assert (∀ m, indexed (filter (λ x, x.1 ∈ live) m) c id ↔ indexed m c id ∧ c ∈ live) as Hlive.
  { intros m. unfold indexed. destruct (decide (c ∈ live)).
    - destruct (m !! c) as [s|] eqn:E.
      + rewrite (proj2 (map_lookup_filter_Some _ m c s)) by done. tauto.
      + rewrite (proj2 (map_lookup_filter_None _ m c)) by auto. set_solver.
    - rewrite (proj2 (map_lookup_filter_None _ m c)); [set_solver|]. right. intros s _. done. }
  rewrite Hlive, indexed_fold_remove, (Hok c id). setoid_rewrite lookup_fmap. unfold live. rewrite elem_of_map_to_set.
  split.
  - intros [[(a & st & E & <-) Hg] _]. destruct (decide (Before (timestamp st) before = true)) as [Hold|Hold].
    + destruct Hg. exists (a, st). split; [|done]. by apply map_lookup_filter_Some.
    + assert (kept !! id = Some (a, st)) as -> by (by apply map_lookup_filter_Some). cbn. eauto.
  - intros (a & st & Hk & <-). destruct (kept !! id) as [[a' st']|] eqn:E; [|done]. cbn in Hk. simplify_eq.
    pose proof E as [Ei Hnew]%map_lookup_filter_Some. cbn in Hnew. split; [split|].
    + by exists a, st'.
    + intros (p & [Hp Hold]%map_lookup_filter_Some & _). rewrite Ei in Hp. by simplify_eq.
    + exists id, (a, st'). done.
Qed.
End lemmas.

(** ** What [apply] leaves alone *)

Section frame.
Context `{UuidText}.

Lemma detectSplitBrain_frame e c now evs e' :
  detectSplitBrain e c now = Some (evs, e') →
  ∃ m, e' = set_splitBrain m e ∧ ∀ c', c' ≠ c → m !! c' = e.(lastSplitBrain) !! c'.
Proof.
  unfold detectSplitBrain. destruct (count_primaries _ _ _ _) as [l|]; [|done]. cbn.
  assert (e = set_splitBrain (lastSplitBrain e) e) as Hid by (by destruct e).
  intros E. repeat case_match; simplify_eq; eexists; (split; [first [exact Hid|reflexivity]|]); intros c' Hc';
    by rewrite ?lookup_insert_ne, ?lookup_delete_ne.
Qed.

Record frame (e e' : Engine) (id : InstanceID) (c : ClusterID) : Prop := {
  fr_inst id' : id' ≠ id → e'.(instances) !! id' = e.(instances) !! id';
  fr_prim c' : c' ≠ c → e'.(lastPrimary) !! c' = e.(lastPrimary) !! c';
  fr_fail c' : c' ≠ c → e'.(lastFailoverTime) !! c' = e.(lastFailoverTime) !! c';
  fr_split c' : c' ≠ c → e'.(lastSplitBrain) !! c' = e.(lastSplitBrain) !! c';
}.

(** A repeat of the last observation changes nothing. *)
Lemma apply_repeat e obs now addr inst :
  e.(instances) !! obs.(oInstanceID) = Some (addr, inst) → is_repeat obs inst = true → apply e obs now = Some ([], e).
Proof.
  intros E Hr. rewrite apply_eq. unfold lookup_inst. rewrite E, Hr. destruct e. cbn in *. by rewrite insert_id.
Qed.

(** Any other observation goes through [updated] and the split-brain check. *)
Lemma apply_fresh e obs now evs e' :
  apply e obs now = Some (evs, e') → is_repeat obs (lookup_inst e obs.(oInstanceID)).1.2 = false →
  ∃ m splits, e' = set_splitBrain m (updated e obs now) ∧ (∀ c', c' ≠ obs.(oClusterID) → m !! c' = e.(lastSplitBrain) !! c') ∧
    detectSplitBrain (updated e obs now) obs.(oClusterID) now = Some (splits, e') ∧
    evs = (role_change e obs (lookup_inst e obs.(oInstanceID)).1.2.(role) now).1 ++
          (process_edges obs now (touch obs now (lookup_inst e obs.(oInstanceID)).1.2)).1 ++ splits.
Proof.
  rewrite apply_eq. destruct (lookup_inst e (oInstanceID obs)) as [[addr inst] hp] eqn:El. cbn. intros Ha Hr. rewrite Hr in Ha.
  destruct (detectSplitBrain (updated e obs now) (oClusterID obs) now) as [[splits e1]|] eqn:Ed; [|done]. cbn in Ha. simplify_eq.
  destruct (detectSplitBrain_frame _ _ _ _ _ Ed) as (m & -> & Hm). exists m, splits. split_and!; try done.
  intros c' Hc'. rewrite Hm by done. unfold updated. rewrite El. by destruct (if decide (oRole obs = RolePrimary) then _ else _).
Qed.

(** The fields of [updated]. *)
Lemma updated_fields e obs now :
  let '(addr, inst, hp) := lookup_inst e obs.(oInstanceID) in
  let e' := updated e obs now in
  e'.(instances) = <[obs.(oInstanceID) := (addr, (process_edges obs now (touch obs now inst)).2)]> e.(instances) ∧
  e'.(lastPrimary) = (if decide (obs.(oRole) = RolePrimary) then <[obs.(oClusterID) := (hp, mkLastPrimary obs.(oInstanceID) now)]> e.(lastPrimary) else e.(lastPrimary)) ∧
  e'.(lastFailoverTime) = (if (role_change e obs inst.(role) now).2 then <[obs.(oClusterID) := now]> e.(lastFailoverTime) else e.(lastFailoverTime)) ∧
  e'.(lastSplitBrain) = e.(lastSplitBrain).
Proof.
  unfold updated. destruct (lookup_inst e (oInstanceID obs)) as [[addr inst] hp].
  by destruct (decide (oRole obs = RolePrimary)).
Qed.

Lemma apply_frame e obs now evs e' : apply e obs now = Some (evs, e') → frame e e' obs.(oInstanceID) obs.(oClusterID).
Proof.
  intros Ha. destruct (is_repeat obs (lookup_inst e (oInstanceID obs)).1.2) eqn:Hr.
  - unfold lookup_inst in Hr. destruct (instances e !! oInstanceID obs) as [[a st]|] eqn:E; [|by rewrite zero_not_repeat in Hr].
    rewrite (apply_repeat e obs now a st E Hr) in Ha. simplify_eq. by split.
  - destruct (apply_fresh e obs now evs e' Ha Hr) as (m & sp & -> & Hm & _).
    pose proof (updated_fields e obs now) as Hu. destruct (lookup_inst e (oInstanceID obs)) as [[addr inst] hp].
    destruct Hu as (Hi & Hp & Hf & _). split; cbn.
    + intros id' Hne. by rewrite Hi, lookup_insert_ne.
    + intros c' Hne. rewrite Hp. case_decide; [by rewrite lookup_insert_ne|done].
    + intros c' Hne. rewrite Hf. destruct (role_change _ _ _ _).2; [by rewrite lookup_insert_ne|done].
    + exact Hm.
Qed.

(** The observed instance afterwards: its address, and the observation it holds. *)
Lemma apply_inst e obs now evs e' :
  apply e obs now = Some (evs, e') →
  ∃ st', e'.(instances) !! obs.(oInstanceID) = Some ((lookup_inst e obs.(oInstanceID)).1.1, st') ∧
    st'.(lastObs).(oTimestamp) = obs.(oTimestamp) ∧ st'.(lastObs).(oRole) = obs.(oRole) ∧
    st'.(lastObs).(oClusterID) = obs.(oClusterID) ∧ st'.(lastObs).(oEdges) = obs.(oEdges).
Proof.
  intros Ha. destruct (is_repeat obs (lookup_inst e (oInstanceID obs)).1.2) eqn:Hr.
  - unfold lookup_inst in *. destruct (instances e !! oInstanceID obs) as [[a st]|] eqn:E; [|by rewrite zero_not_repeat in Hr].
    cbn in *. rewrite (apply_repeat e obs now a st E Hr) in Ha. simplify_eq. exists st. split; [done|].
    unfold is_repeat, Equal in Hr. rewrite !andb_true_iff, !bool_decide_eq_true, Z.eqb_eq in Hr. naive_solver.
  - destruct (apply_fresh e obs now evs e' Ha Hr) as (m & sp & -> & Hm & _).
    pose proof (updated_fields e obs now) as Hu. destruct (lookup_inst e (oInstanceID obs)) as [[addr inst] hp].
    destruct Hu as (Hi & _). cbn. rewrite Hi, lookup_insert_eq. eexists. split; [done|].
    destruct (process_edges_core obs now (touch obs now inst)) as (_ & _ & _ & ->). done.
Qed.
End frame.

(** ** Engines that behave alike

    Two engines are equivalent when all their maps agree as the code reads them: a
    cluster without members may have an empty set or none, and where the next
    record is allocated does not matter. *)
#[export] Instance engine_equiv : Equiv Engine := λ e e',
  e.(instances) = e'.(instances) ∧ (∀ c, members e c = members e' c) ∧ e.(lastPrimary) = e'.(lastPrimary) ∧
  e.(lastFailoverTime) = e'.(lastFailoverTime) ∧ e.(lastSplitBrain) = e'.(lastSplitBrain).

#[export] Instance engine_equivalence : Equivalence (≡@{Engine}).
Proof.
  split.
  - by intros e.
  - intros e e' (H1 & H2 & H3 & H4 & H5). by repeat split.
  - intros e1 e2 e3 (H1 & H2 & H3 & H4 & H5) (G1 & G2 & G3 & G4 & G5). repeat split; try congruence.
Qed.

(** The index of an engine is determined by its instances. *)
Lemma index_ok_members e e' : index_ok e → index_ok e' → e.(instances) = e'.(instances) → ∀ c, members e c = members e' c.
Proof.
  intros H H' E c. apply set_eq. intros id. pose proof (H c id) as Hi. pose proof (H' c id) as Hi'. rewrite <- E in Hi'.
  unfold members, indexed in *. tauto.
Qed.

Lemma put_back {A} (m m' : gmap ClusterID A) c :
  (∀ c', c' ≠ c → m' !! c' = m !! c') → match m !! c with Some x => <[c := x]> m' | None => delete c m' end = m.
Proof.
  intros Hf. apply map_eq. intros c'. destruct (decide (c' = c)) as [->|Hne].
  - destruct (m !! c) eqn:E; [by rewrite lookup_insert_eq|by rewrite lookup_delete_eq].
  - destruct (m !! c) eqn:E; [rewrite lookup_insert_ne by done|rewrite lookup_delete_ne by done]; by apply Hf.
Qed.

#[export] Instance revert_proper id c before written : Proper ((≡) ==> (≡)) (λ e, revert e id c before written).
Proof.
  intros e e' (Hi & Hm & Hp & Hf & Hs).
  assert (∀ c' id', indexed e.(clusterInstances) c' id' ↔ indexed e'.(clusterInstances) c' id') as Hx.
  { intros c' id'. unfold indexed. specialize (Hm c'). unfold members in Hm. by rewrite Hm. }
  assert (∀ m m', (∀ c' id', indexed m c' id' ↔ indexed m' c' id') → ∀ c', default ∅ (m !! c') = (default ∅ (m' !! c') : gset InstanceID)) as Hset.
  { intros m m' Hmm c'. apply set_eq. intros id'. apply Hmm. }
  unfold revert. rewrite Hi, Hp, Hf, Hs.
  destruct (instances e' !! id) as [[addr live]|]; [destruct (m_inst written) as [[waddr wst]|]|]; [|by repeat split..].
  destruct (_ && _); [|by repeat split].
  destruct (m_inst before) as [[ba bst]|]; repeat split; try done; cbn [clusterInstances members];
    intros c'; unfold members; cbn; apply Hset; intros ? ?; by rewrite ?indexed_add, !indexed_leave, Hx.
Qed.

(** ** Sequences of operations *)

Inductive top_op :=
| TApply (obs : Observation) (now : Time)
| TUndoable (obs : Observation) (now : Time)
| TUndo (n : nat) (* the [n]th revert function handed out *)
| TEvict (before : Time).

(** The engine and the revert functions handed out so far. *)
Definition top_state : Type := Engine * list (InstanceID * ClusterID * topoMark * topoMark).

Definition top_step `{UuidText} (s : top_state) (o : top_op) : option top_state :=
  let '(e, undos) := s in
  match o with
  | TApply obs now => '(_, e') ← apply e obs now; Some (e', undos)
  | TUndoable obs now =>
      '(_, e', (b, w)) ← ApplyUndoable e obs now;
      Some (e', undos ++ [(obs.(oInstanceID), obs.(oClusterID), b, w)])
  | TUndo n =>
      match undos !! n with
      | Some (id, c, b, w) => Some (revert e id c b w, undos)
      | None => Some s
      end
  | TEvict before => Some ((Evict e before).2, undos)
  end.

Definition top_run `{UuidText} (os : list top_op) : option top_state :=
  foldl (λ s o, s ← s; top_step s o) (Some (NewEngine, [])) os.

Lemma NewEngine_index : index_ok NewEngine.
Proof.
  intros c id. unfold indexed. cbn. rewrite lookup_empty. cbn. split; [set_solver|]. by intros (a & st & E%lookup_empty_Some & _).
Qed.

Section events.
Context `{UuidText}.

Lemma count_primaries_sound e c now ids l :
  count_primaries e c now ids = Some l → NoDup ids →
  NoDup l ∧ ∀ id, id ∈ l → id ∈ ids ∧ counts_as_primary e c now id = Some true.
Proof.
  revert l. induction ids as [|id ids IH]; intros l; cbn.
  { intros [= <-] _. split; [constructor|]. by intros id ?%elem_of_nil. }
  destruct (counts_as_primary e c now id) as [b|] eqn:Eb; [|done]. cbn.
  destruct (count_primaries e c now ids) as [l'|]; [|done]. cbn. intros [= <-] [Hid Hnd]%NoDup_cons.
  destruct (IH l' eq_refl Hnd) as [Hl Hs]. destruct b.
  - split; [constructor; [intros Hin; by apply Hid, Hs|done]|]. intros id' [->|Hin]%elem_of_cons; [by split; [left|]|].
    destruct (Hs id' Hin). split; [by right|done].
  - split; [done|]. intros id' Hin. destruct (Hs id' Hin). split; [by right|done].
Qed.

(** A split-brain event comes with two recent primaries of the cluster. *)
Definition two_primaries (e : Engine) (c : ClusterID) (now : Time) : Prop :=
  ∃ id1 id2 a1 a2 st1 st2, id1 ≠ id2 ∧
    e.(instances) !! id1 = Some (a1, st1) ∧ e.(instances) !! id2 = Some (a2, st2) ∧
    st1.(role) = RolePrimary ∧ st2.(role) = RolePrimary ∧ st1.(clusterID) = c ∧ st2.(clusterID) = c ∧
    now - st1.(timestamp) < failoverWindow ∧ now - st2.(timestamp) < failoverWindow.

Lemma counts_as_primary_sound e c now id :
  counts_as_primary e c now id = Some true →
  ∃ a st, e.(instances) !! id = Some (a, st) ∧ st.(role) = RolePrimary ∧ now - st.(timestamp) < failoverWindow.
Proof.
  unfold counts_as_primary. destruct (instances e !! id) as [[a st]|]; [|done]. intros [= Hb]. zbool.
  exists a, st. split_and!; [done|by eapply bool_decide_eq_true|].
  match goal with H : Sub _ _ < _ |- _ => rewrite Sub_lt in H by (unfold failoverWindow, max_int64; time_unfold; lia); exact H end.
Qed.

Lemma two_primaries_counted e c now l :
  index_ok e → count_primaries e c now (elements (members e c)) = Some l → (2 ≤ length l)%nat → two_primaries e c now.
Proof.
  intros Hok El Hlen. apply count_primaries_sound in El as [Hnd Hs]; [|apply NoDup_elements].
  destruct l as [|id1 [|id2 l]]; cbn in Hlen; try lia. apply NoDup_cons in Hnd as [Hne _].
  destruct (Hs id1) as [Hm1%elem_of_elements Hc1]; [by left|]. destruct (Hs id2) as [Hm2%elem_of_elements Hc2]; [by right; left|].
  destruct (counts_as_primary_sound _ _ _ _ Hc1) as (a1 & st1 & Ei1 & Hr1 & Ht1).
  destruct (counts_as_primary_sound _ _ _ _ Hc2) as (a2 & st2 & Ei2 & Hr2 & Ht2).
  destruct (proj1 (Hok c id1) Hm1) as (? & ? & Ej1 & Hj1), (proj1 (Hok c id2) Hm2) as (? & ? & Ej2 & Hj2). simplify_eq.
  exists id1, id2, a1, a2, st1, st2. split_and!; try done. intros ->. apply Hne. by left.
Qed.

Lemma not_throttled e c now (last : Time) :
  throttled e c now = false → e.(lastSplitBrain) !! c = Some last → splitBrainWindow ≤ now - last.
Proof.
  unfold throttled. intros Ht E. rewrite E in Ht. apply Z.ltb_ge in Ht. rewrite Sub_ge in Ht; [done|].
  unfold splitBrainWindow, max_int64. time_unfold. lia.
Qed.

Lemma detectSplitBrain_sound e c now evs e' ev :
  index_ok e → detectSplitBrain e c now = Some (evs, e') → ev ∈ evs →
  ∃ n, ev = mkEvent (EventSplitBrainDetected n) now uuid_Nil c ∧ 2 ≤ n ∧ two_primaries e c now ∧
    e'.(lastSplitBrain) !! c = Some now ∧
    (∀ last : Time, e.(lastSplitBrain) !! c = Some last → splitBrainWindow ≤ now - last).
Proof.
  intros Hok. unfold detectSplitBrain. destruct (count_primaries _ _ _ _) as [l|] eqn:El; [|done]. cbn.
  destruct (2 <=? _) eqn:E2; [|by intros [= <- <-] ?%elem_of_nil]. zbool.
  destruct (_ || _); [|by intros [= <- <-] ?%elem_of_nil].
  destruct (throttled e c now) eqn:Et; [by intros [= <- <-] ?%elem_of_nil|].
  intros [= <- <-] ->%list_elem_of_singleton. eexists. split; [done|]. split; [done|]. split_and!.
  - eapply two_primaries_counted; [done|exact El|lia].
  - apply lookup_insert_eq.
  - intros last. by apply not_throttled.
Qed.

Lemma recent_other_primary_sound e c id now p :
  recent_other_primary e c id now = Some p →
  p ≠ id ∧ ∃ a t, e.(lastPrimary) !! c = Some (a, mkLastPrimary p t) ∧ now - t < failoverWindow.
Proof.
  unfold recent_other_primary. destruct (lastPrimary e !! c) as [[a [p' t]]|]; [|done]. cbn. destruct (_ && _) eqn:E; [|done].
  intros [= <-]. zbool. split; [by eapply bool_decide_eq_false|]. exists a, t. split; [done|].
  match goal with H : Sub _ _ < _ |- _ => rewrite Sub_lt in H by (unfold failoverWindow, max_int64; time_unfold; lia); exact H end.
Qed.
End events.

Lemma topology_index_ok_run `{UuidText} os : ∃ e undos, top_run os = Some (e, undos) ∧ index_ok e.
Proof.
  unfold top_run. induction os as [|o os (e & undos & Hrun & Hok)] using rev_ind.
  { do 2 eexists. split; [done|]. apply NewEngine_index. }
  rewrite foldl_app, Hrun. cbn. destruct o as [obs now|obs now|n|before]; cbn.
  - destruct (apply_index e obs now Hok) as (evs & e' & -> & Hok'). cbn. eauto.
  - unfold ApplyUndoable. destruct (apply_index e obs now Hok) as (evs & e' & -> & Hok'). cbn. eauto.
  - destruct (undos !! n) as [[[[id c] b] w]|]; [|eauto]. do 2 eexists. split; [done|]. by apply revert_index.
  - do 2 eexists. split; [done|]. by apply Evict_index.
Qed.

Lemma revert_back `{UuidText} e obs now evs e' b w :
  index_ok e → ApplyUndoable e obs now = Some (evs, e', (b, w)) →
  revert e' obs.(oInstanceID) obs.(oClusterID) b w ≡ e.
Proof.
  intros Hok. unfold ApplyUndoable. destruct (apply_index e obs now Hok) as (evs' & e1 & Ha & Hok'). rewrite Ha. cbn.
  intros [= <- <- <- <-]. destruct (apply_frame _ _ _ _ _ Ha) as [F1 F2 F3 F4].
  destruct (apply_inst _ _ _ _ _ Ha) as (st' & Ei & _).
  assert (instances (revert e1 (oInstanceID obs) (oClusterID obs) (mark e (oInstanceID obs) (oClusterID obs)) (mark e1 (oInstanceID obs) (oClusterID obs))) = instances e) as Hinst.
  { unfold lookup_inst in Ei. unfold revert, mark. cbn. rewrite Ei, Z.eqb_refl, (proj2 (sameInstanceState_eq st' st') eq_refl). cbn.
    destruct (instances e !! oInstanceID obs) as [[a st]|] eqn:E; cbn; apply map_eq; intros id'; destruct (decide (id' = oInstanceID obs)) as [->|Hne].
    - by rewrite lookup_insert_eq.
    - rewrite lookup_insert_ne by done. by apply F1.
    - by rewrite lookup_delete_eq.
    - rewrite lookup_delete_ne by done. by apply F1. }
  split; [done|]. split; [apply index_ok_members; [by apply revert_index|done|done]|].
  unfold revert, mark, revertTime. cbn. rewrite Ei. destruct (_ && _); destruct (instances e !! oInstanceID obs) as [[? ?]|]; cbn;
    rewrite !decide_True by done; split_and!; by apply put_back.
Qed.

(** ** Properties *)

(** The engine never dereferences a missing instance. Over any sequence of
    observations, undoable observations, reverts (in any order, however late, and
    repeatedly) and evictions, every operation returns, and the cluster index lists
    exactly the tracked instances, each under the cluster it reports into. *)
Theorem topology_never_panics `{UuidText} os : ∃ e undos, top_run os = Some (e, undos) ∧ index_ok e.
Proof. apply topology_index_ok_run. Qed.

(** C30: Taking an observation back at once restores the engine: the instance, the
    index, and the cluster's last primary, failover and split brain are what they
    were before it, whatever the observation changed. *)
Theorem revert_restores `{UuidText} e obs now evs e' b w :
  index_ok e → ApplyUndoable e obs now = Some (evs, e', (b, w)) →
  revert e' obs.(oInstanceID) obs.(oClusterID) b w ≡ e.
Proof. apply revert_back. Qed.

(** A revert never discards a later observation: when the instance has reported
    again since, with another sent time, taking the earlier observation back leaves
    every instance state and the index as they are. *)
Theorem revert_keeps_later `{UuidText} e obs now evs e1 b w obs' now' evs' e2 :
  index_ok e → ApplyUndoable e obs now = Some (evs, e1, (b, w)) →
  apply e1 obs' now' = Some (evs', e2) → obs'.(oInstanceID) = obs.(oInstanceID) → obs'.(oTimestamp) ≠ obs.(oTimestamp) →
  let e3 := revert e2 obs.(oInstanceID) obs.(oClusterID) b w in
  e3.(instances) = e2.(instances) ∧ e3.(clusterInstances) = e2.(clusterInstances).
Proof.
  intros Hok. unfold ApplyUndoable. destruct (apply_index e obs now Hok) as (evs0 & e0 & Ha & _). rewrite Ha. cbn.
  intros [= <- <- <- <-] Ha' Hid Hts. destruct (apply_inst _ _ _ _ _ Ha) as (st & Ei & Ht & _).
  destruct (apply_inst _ _ _ _ _ Ha') as (st' & Ei' & Ht' & _). rewrite Hid in Ei'.
  unfold revert, mark. cbn. rewrite Ei, Ei'. destruct (_ && sameInstanceState st' st) eqn:Es; [|done].
  apply andb_true_iff in Es as [_ ->%sameInstanceState_eq]. congruence.
Qed.

(** An envelope that arrives again is ignored: applying an observation with a
    sent time a second time, at any later moment, emits nothing and changes
    nothing. *)
Theorem repeat_is_ignored `{UuidText} e obs now now' evs e' :
  apply e obs now = Some (evs, e') → obs.(oTimestamp) ≠ zero_time → apply e' obs now' = Some ([], e').
Proof.
  intros Ha Hts. destruct (apply_inst _ _ _ _ _ Ha) as (st & Ei & Ht & Hr & Hc & He).
  eapply apply_repeat; [exact Ei|]. unfold is_repeat, IsZero, Equal. rewrite Ht, Hr, Hc, He, Z.eqb_refl, !bool_decide_true by done.
  rewrite !andb_true_r, negb_true_iff. by apply Z.eqb_neq.
Qed.

(** What the two alarming events rest on. A failover is reported only for a
    standby turned primary in a cluster whose last primary is another instance seen
    less than two minutes ago, and it is recorded as the cluster's last failover. A
    split brain is reported only with two distinct primaries of the cluster seen
    less than two minutes ago, and not within a minute of the one reported before. *)
Theorem alarms_are_sound `{UuidText} e obs now evs e' ev :
  index_ok e → apply e obs now = Some (evs, e') → ev ∈ evs →
  ev.(eTimestamp) = now ∧ ev.(eClusterID) = obs.(oClusterID) ∧
  match ev.(eType) with
  | EventFailoverDetected old new =>
      new = obs.(oInstanceID) ∧ old ≠ new ∧ obs.(oRole) = RolePrimary ∧
      (∃ a st, e.(instances) !! new = Some (a, st) ∧ st.(role) = RoleStandby) ∧
      (∃ a t, e.(lastPrimary) !! obs.(oClusterID) = Some (a, mkLastPrimary old t) ∧ now - t < failoverWindow) ∧
      e'.(lastFailoverTime) !! obs.(oClusterID) = Some now
  | EventSplitBrainDetected n =>
      2 ≤ n ∧ two_primaries e' obs.(oClusterID) now ∧ e'.(lastSplitBrain) !! obs.(oClusterID) = Some now ∧
      (∀ last : Time, e.(lastSplitBrain) !! obs.(oClusterID) = Some last → splitBrainWindow ≤ now - last)
  | EventOrphanStandby _ => obs.(oRole) = RoleStandby ∧ obs.(oEdges) ≠ []
  | EventRoleChange old new => new = obs.(oRole) ∧ old ≠ Some new
  end.
Proof.
  intros Hok Ha Hev. destruct (is_repeat obs (lookup_inst e (oInstanceID obs)).1.2) eqn:Hr.
  { unfold lookup_inst in Hr. destruct (instances e !! oInstanceID obs) as [[a st]|] eqn:E; [|by rewrite zero_not_repeat in Hr].
    rewrite (apply_repeat e obs now a st E Hr) in Ha. simplify_eq. by apply elem_of_nil in Hev. }
  destruct (apply_fresh e obs now evs e' Ha Hr) as (m & sp & He' & _ & Hd & ->).
  pose proof (updated_fields e obs now) as Hu. destruct (lookup_inst e (oInstanceID obs)) as [[addr inst] hp] eqn:El.
  destruct Hu as (_ & _ & Hf & Hs). cbn in Hr, Hev.
  rewrite !elem_of_app in Hev. destruct Hev as [Hev|[Hev|Hev]].
  - assert (e'.(lastFailoverTime) = (updated e obs now).(lastFailoverTime)) as Hlf by (by rewrite He').
    rewrite Hlf, Hf. clear Hlf Hf Hd He' Ha Hs. unfold role_change in *.
    destruct (decide (role inst = oRole obs)) as [|Hne]; [by apply elem_of_nil in Hev|].
    destruct (decide (oRole obs = RolePrimary ∧ role inst = RoleStandby)) as [[Hp Hst]|_].
    + destruct (recent_other_primary e (oClusterID obs) (oInstanceID obs) now) as [p|] eqn:Ep; cbn in *;
        apply list_elem_of_singleton in Hev as ->; cbn; [|by rewrite Hp].
      apply recent_other_primary_sound in Ep as [Hpne Hlp]. split_and!; try done; [|by rewrite lookup_insert_eq].
      unfold lookup_inst in El. destruct (instances e !! oInstanceID obs) as [[a st]|]; simplify_eq; by eauto.
    + destruct (decide (role inst ≠ RoleNone)); [apply list_elem_of_singleton in Hev as ->; cbn; split_and!; congruence|].
      destruct (knownRole (oPriorRole obs)); [case_decide; [|by apply elem_of_nil in Hev]|];
        apply list_elem_of_singleton in Hev as ->; cbn; split_and!; congruence.
  - unfold process_edges in Hev. destruct (oRole obs) eqn:Er; cbn in Hev; try by apply elem_of_nil in Hev.
    destruct (see_edges now (oEdges obs) (touch obs now inst)) as [rs i]. destruct (negb rs && _) eqn:Ec; [|by apply elem_of_nil in Hev].
    cbv zeta in Hev. zbool. destruct ((_ <=? _) && _); [|by apply elem_of_nil in Hev].
    apply list_elem_of_singleton in Hev as ->. cbn. split_and!; try done.
    by match goal with H : bool_decide _ = false |- _ => apply bool_decide_eq_false in H end.
  - destruct (detectSplitBrain_sound _ _ _ _ _ _ (updated_index e obs now Hok) Hd Hev) as (n & -> & Hn & H2 & Hl & Hthr).
    cbn. rewrite Hs in Hthr. split_and!; try done. by rewrite He'.
Qed.

(** [Evict] drops exactly the instances last observed before the cutoff and
    counts them, prunes the edges of the others, and keeps the cluster data of
    exactly the clusters that still have an instance. *)
Theorem evict_exact_topology e before :
  let '(removed, e') := Evict e before in
  (removed + Len e')%nat = Len e ∧
  (∀ id a st', e'.(instances) !! id = Some (a, st') ↔ ∃ st, e.(instances) !! id = Some (a, st) ∧ before ≤ st.(timestamp) ∧
     st' = mkInst st.(role) st.(clusterID) st.(timestamp) st.(lastObs) st.(quietCycles) st.(orphanAt) st.(orphanSeenAt)
             st.(orphanSeenSent) st.(orphanedAt) (filter (λ x, Before x.2 before = false) st.(edgeSeenAt))) ∧
  (∀ c, let live := ∃ id a st, e'.(instances) !! id = Some (a, st) ∧ st.(clusterID) = c in
     (∀ p, e'.(lastPrimary) !! c = Some p ↔ e.(lastPrimary) !! c = Some p ∧ live) ∧
     (∀ t : Time, e'.(lastFailoverTime) !! c = Some t ↔ e.(lastFailoverTime) !! c = Some t ∧ live) ∧
     (∀ t : Time, e'.(lastSplitBrain) !! c = Some t ↔ e.(lastSplitBrain) !! c = Some t ∧ live)).
Proof.
  unfold Evict, Len. cbn. set (kept := filter (λ x : InstanceID * ptr instanceState, Before (timestamp x.2.2) before ≠ true) (instances e)). set (live := map_to_set _ _ : gset ClusterID).
  split_and!.
  - rewrite map_size_fmap. apply size_filter_complement.
  - intros id a st'. rewrite lookup_fmap. split.
    + destruct (kept !! id) as [[a0 st]|] eqn:E; cbn; [|done]. intros [= <- <-].
      apply map_lookup_filter_Some in E as [E Hn]. exists st. split_and!; try done. cbn in Hn. unfold Before in Hn. lia.
    + intros (st & E & Ht & ->). assert (kept !! id = Some (a, st)) as ->; [|done].
      apply map_lookup_filter_Some. split; [done|]. cbn. unfold Before. lia.
  - intros c. match goal with |- (∀ p, _ ↔ _ ∧ ?l) ∧ _ => assert (c ∈ live ↔ l) as Hl end.
    { unfold live. rewrite elem_of_map_to_set. setoid_rewrite lookup_fmap. split.
      - intros (id & [a st] & E & <-). eexists id, a, _. rewrite E. done.
      - intros (id & a & st & E & <-). destruct (kept !! id) as [[a0 st0]|] eqn:E0; [|done]. cbn in E. simplify_eq. by exists id, (a, st0). }
    split_and!; intros x; rewrite map_lookup_filter_Some; cbn; by rewrite Hl.
Qed.

(** ** A promotion *)

Module Example_.
#[local] Instance uuid_decimal : UuidText := λ u, pretty.pretty u.

Definition report (id : InstanceID) (r : Role) (sent : Time) : Observation := mkObservation id 9 r RoleNone sent [].

(** Instance 1 is primary, instance 2 its standby. *)
Definition pair_engine : Engine :=
  default NewEngine (fst <$> top_run [TApply (report 1 RolePrimary Second) (100 * Second); TApply (report 2 RoleStandby Second) (100 * Second)]).

Definition promotion : Observation := report 2 RolePrimary (2 * Second).

Lemma pair_engine_index : index_ok pair_engine.
Proof.
  destruct (topology_index_ok_run [TApply (report 1 RolePrimary Second) (100 * Second); TApply (report 2 RoleStandby Second) (100 * Second)]) as (e & us & E & Hok).
  unfold pair_engine. by rewrite E.
Qed.

Lemma promotion_events : option_map (λ r, eType <$> r.1) (apply pair_engine promotion (110 * Second)) = Some [EventFailoverDetected 1 2].
Proof. vm_compute. reflexivity. Qed.

Definition promoted : Engine := default NewEngine (snd <$> apply pair_engine promotion (110 * Second)).

Lemma promoted_eq : apply pair_engine promotion (110 * Second) = Some ([mkEvent (EventFailoverDetected 1 2) (110 * Second) 2 9], promoted).
Proof. vm_compute. reflexivity. Qed.

Lemma revert_restores_witness :
  revert promoted 2 9 (mark pair_engine 2 9) (mark promoted 2 9) ≡ pair_engine.
Proof.
  apply (revert_restores pair_engine promotion (110 * Second) [mkEvent (EventFailoverDetected 1 2) (110 * Second) 2 9] promoted); [exact pair_engine_index|].
  unfold ApplyUndoable. rewrite promoted_eq. reflexivity.
Defined.

Definition later : Observation := report 2 RolePrimary (3 * Second).
Definition promoted2 : Engine := default NewEngine (snd <$> apply promoted later (125 * Second)).

Lemma promoted2_eq : apply promoted later (125 * Second) = Some ([], promoted2).
Proof. vm_compute. reflexivity. Qed.

Lemma revert_keeps_later_witness :
  (revert promoted2 2 9 (mark pair_engine 2 9) (mark promoted 2 9)).(instances) = promoted2.(instances).
Proof.
  apply (revert_keeps_later pair_engine promotion (110 * Second) [mkEvent (EventFailoverDetected 1 2) (110 * Second) 2 9] promoted
    (mark pair_engine 2 9) (mark promoted 2 9) later (125 * Second) [] promoted2).
  - exact pair_engine_index.
  - unfold ApplyUndoable. rewrite promoted_eq. reflexivity.
  - exact promoted2_eq.
  - reflexivity.
  - discriminate.
Defined.

Lemma repeat_is_ignored_witness : apply promoted promotion (999 * Second) = Some ([], promoted).
Proof. apply (repeat_is_ignored _ _ _ _ _ _ promoted_eq). discriminate. Defined.

Lemma alarms_are_sound_witness : promoted.(lastFailoverTime) !! 9 = Some (110 * Second).
Proof.
  pose proof (alarms_are_sound pair_engine promotion (110 * Second) _ promoted (mkEvent (EventFailoverDetected 1 2) (110 * Second) 2 9)
    pair_engine_index promoted_eq (list_elem_of_here _ _)) as (_ & _ & _ & _ & _ & _ & _ & H). exact H.
Defined.
End Example_.
