(* ===== verification/Buffer.v ===== *)
(** * The agent's disk buffer (internal/agent/buffer)

    An append-only queue of envelopes in segment files, read at least once. A
    segment carries the bytes of its file. What the file system decides (a create, a
    sync, a write or a truncate that fails, how much a failed write left behind, and
    which places of a segment file cannot be read) is an argument of the operation that
    asks for it; so is the clock, read once per operation. Removing the file of a dropped
    segment is best effort in the source and is not modelled. *)
From S2P Require Import Prelude GoTime GoBytes.

Record Segment := mkSegment {
  file : list byte;
  id : Z; (* uint32 *)
  createdAt : Time;
  lastWrite : Time;
  maxSize : Z;
  recordCount : Z;
  fileSize : Z;
}.

Definition MiB : Z := 1024 * 1024.

Definition computeCRC32C (data : list byte) : Z := crc32c data.

Definition segmentSize (maxSize : Z) : Z := if (0 <? maxSize) && (maxSize <? 8 * MiB) then maxSize else 8 * MiB.

(** The eight bytes at [off], if they are there: length and checksum. *)
Definition header_at (f : list byte) (off : Z) : option (Z * Z) :=
  if off + 8 <=? Z.of_nat (length f) then
    let h := take 8 (drop (Z.to_nat off) f) in Some (Uint32 (take 4 h), Uint32 (drop 4 h))
  else None.

(** ** Opening a segment *)

(** The walk over the length headers: the end of the last record with a payload
    and how many there are. Every step goes at least eight bytes forward. *)
Fixpoint walk (fuel : nat) (f : list byte) (offset end_ count : Z) : Z * Z :=
  match fuel with
  | O => (end_, count)
  | S fuel =>
      match header_at f offset with
      | None => (end_, count)
      | Some (len, _) =>
          let next := offset + 8 + len in
          if Z.of_nat (length f) <? next then (end_, count)
          else if 0 <? len then walk fuel f next next (count + 1)
          else walk fuel f next end_ count
      end
  end.

(** The segment and the number of bytes cut from its end. *)
Definition openSegment (f : list byte) (modTime : Time) (keep : Z) : Segment * Z :=
  let size := Z.of_nat (length f) in
  let start := Z.min keep size in
  let '(end_, count) := walk (length f) f start start 0 in
  (mkSegment (take (Z.to_nat end_) f) 0 modTime modTime 0 count end_, size - end_).

(** ** Appending to a segment *)

(** What the file system does with one append: is the size read and, if bytes are to
    be cut, cut; and does the write go through. A write that fails leaves [n] of
    its bytes (never all of them: a complete write is not an error), unless they can
    be cut off at once. *)
Record io := mkIO {
  io_stat_ok : bool;
  io_trunc_ok : bool;
  io_write : option (nat * bool); (* [None]: written; [Some (n, cut)]: failed *)
  io_enospc : bool; (* whether a failure is ENOSPC *)
  io_create_ok : bool;
  io_sync_ok : bool;
}.

Definition io_fine : io := mkIO true true None false true true.

Definition set_file (f : list byte) (n : Z) (size : Z) (s : Segment) : Segment :=
  mkSegment f s.(id) s.(createdAt) s.(lastWrite) s.(maxSize) n size.

Definition encode_record (data : list byte) : list byte :=
  PutUint32 (uwrap32 (Z.of_nat (length data))) ++ PutUint32 (computeCRC32C data) ++ data.

(** The segment after the append, and whether it succeeded. *)
Definition Segment_Append (o : io) (s : Segment) (data : list byte) : Segment * bool :=
  if negb o.(io_stat_ok) then (s, false)
  else if negb (Z.of_nat (length s.(file)) =? s.(fileSize)) && negb o.(io_trunc_ok) then (s, false)
  else
    let f := if Z.of_nat (length s.(file)) =? s.(fileSize) then s.(file)
             else take (Z.to_nat s.(fileSize)) s.(file) in
    let buf := encode_record data in
    match o.(io_write) with
    | Some (n, cut) => (set_file (if cut then take (Z.to_nat s.(fileSize)) f else f ++ take (Nat.min n (length buf - 1)) buf) s.(recordCount) s.(fileSize) s, false)
    | None => (set_file (f ++ buf) (s.(recordCount) + 1) (s.(fileSize) + Z.of_nat (length buf)) s, true)
    end.

Definition WouldRoll (s : Segment) (size : Z) : bool :=
  let maxSize := if s.(maxSize) <=? 0 then 8 * MiB else s.(maxSize) in
  maxSize <? s.(fileSize) + (size + 8).

Definition touch (t : Time) (s : Segment) : Segment :=
  mkSegment s.(file) s.(id) s.(createdAt) t s.(maxSize) s.(recordCount) s.(fileSize).

(** ** Reading a segment *)

(** A read of a file that fails: with fewer bytes than were asked for, or with all of
    them and an error other than the end of the file. *)
Inductive read_fault := ShortRead | FullReadError (err : string).
#[export] Instance read_fault_eq_dec : EqDecision read_fault.
Proof. solve_decision. Defined.

(** The reads that fail during an operation, by segment number and offset. No pass of
    an operation reads a place twice. *)
Class Reads := read_faults : gmap (Z * Z) read_fault.

Definition read_fault_at `{Reads} (s : Segment) (offset : Z) : option read_fault := read_faults !! (s.(id), offset).
Definition short_read `{Reads} (s : Segment) (offset : Z) : bool := bool_decide (read_fault_at s offset = Some ShortRead).
Definition full_read_error `{Reads} (s : Segment) (offset : Z) : option string :=
  match read_fault_at s offset with Some (FullReadError err) => Some err | _ => None end.

(** The record, if there is a sound one, and the next offset; the offset itself means
    that there is nothing (more) to read yet, and so does a read that came back short.
    [inl] is an error other than the end of the file. *)
Definition ReadAt `{Reads} (s : Segment) (offset : Z) : string + option (list byte) * Z :=
  if short_read s offset then inr (None, offset) else
  match header_at s.(file) offset with
  | None => inr (None, offset)
  | Some (len, crc) =>
      match full_read_error s offset with
      | Some err => inl err
      | None =>
          if len =? 0 then inr (None, offset + 8)
          else if (0 <? s.(fileSize)) && (s.(fileSize) - offset - 8 <? len) then inr (None, offset)
          else
            let data := take (Z.to_nat len) (drop (Z.to_nat (offset + 8)) s.(file)) in
            if short_read s (offset + 8) || (Z.of_nat (length data) <? len) then inr (None, offset)
            else
              match full_read_error s (offset + 8) with
              | Some err => inl err
              | None =>
                  if crc =? computeCRC32C data then inr (Some data, offset + uwrap32 (8 + len))
                  else inr (None, offset + uwrap32 (8 + len))
              end
      end
  end.

Fixpoint records_from `{Reads} (fuel : nat) (s : Segment) (offset n : Z) : Z :=
  match fuel with
  | O => n
  | S fuel =>
      if s.(fileSize) <? offset + 8 then n
      else if bool_decide (read_fault_at s offset ≠ None) then n
      else
        match header_at s.(file) offset with
        | None => n
        | Some (len, _) =>
            let next := offset + 8 + len in
            if s.(fileSize) <? next then n else records_from fuel s next (n + 1)
        end
  end.

Definition recordsFrom `{Reads} (s : Segment) (offset : Z) : Z := records_from (length s.(file)) s offset 0.

(** ** The buffer *)

Record Stats := mkStats {
  BytesUsed : Z;
  SamplesDropped : gmap string Z;
  CorruptRecords : Z;
  CutBytes : Z;
  BufferFull : bool;
  LastDropTime : option Time;
  LastCorruptTime : option Time;
}.

(** [stats.Segments] is always read as the number of segments. *)
Record Buffer := mkBuffer {
  MaxSize : Z;
  MaxAge : Duration;
  segments : list Segment;
  nextSegID : Z;
  nextReadSeg : nat;
  nextReadOff : Z;
  ackedSegID : Z;
  ackedOff : Z;
  stats : Stats;
  ackedFile : option (list byte); (* the content of .acked *)
}.

Definition set_segments (l : list Segment) (b : Buffer) : Buffer :=
  mkBuffer b.(MaxSize) b.(MaxAge) l b.(nextSegID) b.(nextReadSeg) b.(nextReadOff) b.(ackedSegID) b.(ackedOff) b.(stats) b.(ackedFile).
Definition set_cursor (i : nat) (off : Z) (b : Buffer) : Buffer :=
  mkBuffer b.(MaxSize) b.(MaxAge) b.(segments) b.(nextSegID) i off b.(ackedSegID) b.(ackedOff) b.(stats) b.(ackedFile).
Definition set_acked (i off : Z) (b : Buffer) : Buffer :=
  mkBuffer b.(MaxSize) b.(MaxAge) b.(segments) b.(nextSegID) b.(nextReadSeg) b.(nextReadOff) i off b.(stats) b.(ackedFile).
Definition set_stats (s : Stats) (b : Buffer) : Buffer :=
  mkBuffer b.(MaxSize) b.(MaxAge) b.(segments) b.(nextSegID) b.(nextReadSeg) b.(nextReadOff) b.(ackedSegID) b.(ackedOff) s b.(ackedFile).
Definition set_ackedFile (f : option (list byte)) (b : Buffer) : Buffer :=
  mkBuffer b.(MaxSize) b.(MaxAge) b.(segments) b.(nextSegID) b.(nextReadSeg) b.(nextReadOff) b.(ackedSegID) b.(ackedOff) b.(stats) f.
Definition set_nextSegID (n : Z) (b : Buffer) : Buffer :=
  mkBuffer b.(MaxSize) b.(MaxAge) b.(segments) n b.(nextReadSeg) b.(nextReadOff) b.(ackedSegID) b.(ackedOff) b.(stats) b.(ackedFile).
Definition set_bytes (n : Z) (s : Stats) : Stats :=
  mkStats n s.(SamplesDropped) s.(CorruptRecords) s.(CutBytes) s.(BufferFull) s.(LastDropTime) s.(LastCorruptTime).
Definition set_full (v : bool) (s : Stats) : Stats :=
  mkStats s.(BytesUsed) s.(SamplesDropped) s.(CorruptRecords) s.(CutBytes) v s.(LastDropTime) s.(LastCorruptTime).
Definition add_dropped (reason : string) (n : Z) (now : Time) (s : Stats) : Stats :=
  mkStats s.(BytesUsed) (<[reason := default 0 (s.(SamplesDropped) !! reason) + n]> s.(SamplesDropped)) s.(CorruptRecords)
    s.(CutBytes) s.(BufferFull) (Some now) s.(LastCorruptTime).
Definition add_corrupt (now : Time) (s : Stats) : Stats :=
  mkStats s.(BytesUsed) s.(SamplesDropped) (s.(CorruptRecords) + 1) s.(CutBytes) s.(BufferFull) s.(LastDropTime) (Some now).
Definition add_cut (n : Z) (now : Time) (s : Stats) : Stats :=
  mkStats s.(BytesUsed) s.(SamplesDropped) (s.(CorruptRecords) + 1) (s.(CutBytes) + n) s.(BufferFull) s.(LastDropTime) (Some now).

(** *** Retention *)

Definition unackedRecords `{Reads} (b : Buffer) (seg : Segment) : Z :=
  if seg.(id) <? b.(ackedSegID) then 0
  else if b.(ackedSegID) <? seg.(id) then seg.(recordCount)
  else recordsFrom seg b.(ackedOff).

Definition removeOldestSegment `{Reads} (reason : string) (now : Time) (b : Buffer) : Buffer :=
  match b.(segments) with
  | [] => b (* never called so *)
  | oldest :: rest =>
      let dropped := if decide (reason = "") then 0 else unackedRecords b oldest in
      let st := set_bytes (b.(stats).(BytesUsed) - oldest.(fileSize)) b.(stats) in
      let st := if 0 <? dropped then add_dropped reason dropped now st else st in
      let b' := set_stats st (set_segments rest b) in
      match b.(nextReadSeg) with
      | S i => set_cursor i b.(nextReadOff) b'
      | O => set_cursor 0 0 b'
      end
  end.

(** The retention loops remove one segment per turn. *)
Fixpoint remove_while `{Reads} (fuel : nat) (cond : Buffer → bool) (reason : string) (now : Time) (b : Buffer) : Buffer :=
  match fuel with
  | O => b
  | S fuel => if cond b then remove_while fuel cond reason now (removeOldestSegment reason now b) else b
  end.

Definition over_size (b : Buffer) : bool := (b.(MaxSize) <? b.(stats).(BytesUsed)) && negb (bool_decide (b.(segments) = [])).
Definition over_age (now : Time) (b : Buffer) : bool :=
  match b.(segments) with
  | [] => false
  | s :: _ => b.(MaxAge) <? Sub now s.(lastWrite)
  end.
Definition all_acked `{Reads} (b : Buffer) : bool :=
  match b.(segments) with
  | s :: _ :: _ => unackedRecords b s =? 0
  | _ => false
  end.

Definition enforceMaxSize `{Reads} (now : Time) (b : Buffer) : Buffer :=
  remove_while (length b.(segments)) over_size "size_limit" now b.
Definition enforceMaxAge `{Reads} (now : Time) (b : Buffer) : Buffer :=
  remove_while (length b.(segments)) (over_age now) "age_limit" now b.
Definition dropAckedSegments `{Reads} (now : Time) (b : Buffer) : Buffer :=
  remove_while (length b.(segments)) all_acked "" now b.

Definition segmentAgedOut (b : Buffer) (now : Time) (seg : Segment) : bool :=
  (0 <? seg.(recordCount)) && (Z.quot b.(MaxAge) 4 <=? Sub now seg.(createdAt)).

(** *** Append *)

Definition newSegment (now : Time) (b : Buffer) : Segment * Buffer :=
  (mkSegment [] b.(nextSegID) now now (segmentSize b.(MaxSize)) 0 0, set_nextSegID (uwrap32 (b.(nextSegID) + 1)) b).

Definition handleWriteError (o : io) (b : Buffer) : Buffer :=
  if o.(io_enospc) then set_stats (set_full true b.(stats)) b else b.

(** A new segment at the end, or the error of creating it. A failed create has used
    the segment's number. *)
Definition add_segment (o : io) (now : Time) (b : Buffer) : Buffer * bool :=
  let '(seg, b') := newSegment now b in
  if o.(io_create_ok) then (set_segments (b'.(segments) ++ [seg]) b', true)
  else (handleWriteError o b', false).

(** The first segment, created if there is none. *)
Definition ensure_segment (o : io) (now : Time) (b : Buffer) : Buffer * bool :=
  match b.(segments) with [] => add_segment o now b | _ => (b, true) end.

(** The active segment, rolled if it is full or old. *)
Definition roll (o : io) (now : Time) (b : Buffer) (size : Z) : Buffer * bool :=
  match last b.(segments) with
  | None => (b, true)
  | Some seg =>
      if WouldRoll seg size || segmentAgedOut b now seg then
        if o.(io_sync_ok) then add_segment o now b else (handleWriteError o b, false)
      else (b, true)
  end.

(** [false] is an error. *)
Definition Append `{Reads} (o : io) (now : Time) (env : list byte) (b : Buffer) : Buffer * bool :=
  match env with
  | [] => (b, false)
  | _ =>
      let size := Z.of_nat (length env) in
      let '(b, ok) := ensure_segment o now b in
      if negb ok then (b, false)
      else
        let '(b, ok) := roll o now b size in
        if negb ok then (b, false)
        else
          match last b.(segments) with
          | None => (b, false) (* never: a segment was added *)
          | Some seg =>
              let '(seg', ok) := Segment_Append o seg env in
              let with_last s := set_segments (removelast b.(segments) ++ [s]) b in
              if negb ok then (handleWriteError o (with_last seg'), false)
              else
                let b := with_last (touch now seg') in
                let b := set_stats (set_bytes (b.(stats).(BytesUsed) + size + 8) b.(stats)) b in
                let b := enforceMaxAge now (enforceMaxSize now b) in
                (set_stats (set_full false b.(stats)) b, true)
          end
  end.

(** *** Reading *)

Inductive next_result :=
| NextRecord (env : list byte) (ack_seg ack_off : Z) (* what the ack function will record *)
| NextEOF
| NextError (err : string) (* of a read that failed otherwise *)
| NextFuel. (* out of fuel *)

(** The two nested loops of [Next]: a turn reads once at the cursor. *)
Fixpoint next_scan `{Reads} (fuel : nat) (now : Time) (b : Buffer) : next_result * Buffer :=
  match fuel with
  | O => (NextFuel, b)
  | S fuel =>
      match b.(segments) !! b.(nextReadSeg) with
      | None => (NextEOF, b)
      | Some seg =>
          match ReadAt seg b.(nextReadOff) with
          | inl err => (NextError err, b)
          | inr (env, nextOff) =>
              if b.(nextReadOff) <? nextOff then
                match env with
                | Some data => (NextRecord data seg.(id) nextOff, set_cursor b.(nextReadSeg) nextOff b)
                | None => next_scan fuel now (set_stats (add_corrupt now b.(stats)) (set_cursor b.(nextReadSeg) nextOff b))
                end
              else if (b.(nextReadSeg) <? length b.(segments) - 1)%nat then next_scan fuel now (set_cursor (S b.(nextReadSeg)) 0 b)
              else (NextEOF, b)
          end
      end
  end.

Definition scan_fuel (b : Buffer) : nat := S (sum_list (map (λ s, S (length s.(file))) (drop b.(nextReadSeg) b.(segments)))).

Definition Next `{Reads} (now : Time) (b : Buffer) : next_result * Buffer := next_scan (scan_fuel b) now b.

Fixpoint find_after (segs : list Segment) (i : nat) (b : Buffer) : Buffer :=
  match segs with
  | [] => b
  | seg :: segs =>
      if seg.(id) <? b.(ackedSegID) then find_after segs (S i) b
      else if seg.(id) =? b.(ackedSegID) then set_cursor i b.(ackedOff) b
      else set_cursor i 0 b
  end.

Definition findSegmentAfterAcked (b : Buffer) : Buffer := find_after b.(segments) 0 b.

Definition Rewind (b : Buffer) : Buffer := findSegmentAfterAcked (set_cursor 0 0 b).

(** *** The checkpoint *)

Definition loadAckedPosition (data : option (list byte)) : option (Z * Z) :=
  match data with
  | None => None
  | Some data => if Z.of_nat (length data) <? 12 then None else Some (Uint32 (take 4 data), Uint64 (take 8 (drop 4 data)))
  end.

(** [ok] is whether the write and the rename succeed; a failure leaves the file. *)
Definition saveAckedPosition (ok : bool) (b : Buffer) : Buffer * bool :=
  if ok then (set_ackedFile (Some (PutUint32 b.(ackedSegID) ++ PutUint64 b.(ackedOff))) b, true) else (b, false).

(** The ack function of a record. *)
Definition ackFunc `{Reads} (ok : bool) (now : Time) (segID off : Z) (b : Buffer) : Buffer * bool :=
  saveAckedPosition ok (dropAckedSegments now (set_acked segID off b)).

(** Close closes every segment and saves the checkpoint, even when a close fails; the
    result is whether all of it succeeded. *)
Definition Close (close_ok save_ok : bool) (b : Buffer) : Buffer * bool :=
  let '(b, ok) := saveAckedPosition save_ok b in (b, close_ok && ok).

(** The statistics a caller gets: a copy, with the number of segments. *)
Definition Buffer_Stats (b : Buffer) : Stats * Z := (b.(stats), Z.of_nat (length b.(segments))).

(** *** Open *)

(** A segment file: the number in its name, its content, its modification time. *)
Definition seg_file : Type := Z * list byte * Time.

Definition load_segment (now : Time) (b : Buffer) (sf : seg_file) : Buffer :=
  let '(segID, f, modTime) := sf in
  let keep := if segID =? b.(ackedSegID) then b.(ackedOff) else 0 in
  let '(seg, cut) := openSegment f modTime keep in
  let seg := mkSegment seg.(file) segID seg.(createdAt) seg.(lastWrite) (segmentSize b.(MaxSize)) seg.(recordCount) seg.(fileSize) in
  let b := if b.(nextSegID) <=? segID then set_nextSegID (uwrap32 (segID + 1)) b else b in
  let b := if 0 <? cut then set_stats (add_cut cut now b.(stats)) b else b in
  set_segments (b.(segments) ++ [seg]) b.

Definition recalculateStats (b : Buffer) : Buffer :=
  set_stats (set_bytes (zsum (fileSize <$> b.(segments))) b.(stats)) b.

(** The checkpoint brought back onto the segments that exist. *)
Definition settle_checkpoint (b : Buffer) : Buffer :=
  match last b.(segments) with
  | None => set_acked 0 0 b
  | Some s =>
      if s.(id) <? b.(ackedSegID) then set_acked (match b.(segments) with s0 :: _ => s0.(id) | [] => 0 end) 0 b
      else b
  end.

(** The checkpoint is moved back to the end of its segment, or left. *)
Definition clamp_step (b : Buffer) (seg : Segment) : Buffer :=
  if (seg.(id) =? b.(ackedSegID)) && (seg.(fileSize) <? b.(ackedOff)) then set_acked b.(ackedSegID) seg.(fileSize) b else b.

Definition clamp_checkpoint (b : Buffer) : Buffer := foldl clamp_step b b.(segments).

(** Opening a directory whose segment files are [files] in name order and whose
    .acked holds [acked]. [load_ok]: no file failed to be opened, read or cut, which ends
    Open with an error. [save_ok] and [remove_ok]: whether a corrected checkpoint
    can be written and, if not, the stale one removed. The segments are read again when
    the acknowledged ones are dropped (the faults [drop_reads]) and by retention. *)
Definition Open (drop_reads retention_reads : Reads) (load_ok : bool) (MaxSize : Z) (MaxAge : Duration) (files : list seg_file) (acked : option (list byte))
    (save_ok remove_ok : bool) (now : Time) : option Buffer :=
  let MaxSize := if MaxSize =? 0 then 512 * MiB else MaxSize in
  let MaxAge := if MaxAge =? 0 then 6 * Hour else MaxAge in
  let checkpoint := loadAckedPosition acked in
  let '(seg0, off0) := default (0, 0) checkpoint in
  let b := mkBuffer MaxSize MaxAge [] 0 0 0 seg0 off0 (mkStats 0 ∅ 0 0 false None None) acked in
  if negb load_ok then None else
  let b := recalculateStats (foldl (load_segment now) b files) in
  let b := if bool_decide (is_Some checkpoint) && (b.(nextSegID) <=? b.(ackedSegID)) then set_nextSegID (uwrap32 (b.(ackedSegID) + 1)) b else b in
  let b := clamp_checkpoint (settle_checkpoint b) in
  let corrected := negb ((b.(ackedSegID) =? seg0) && (b.(ackedOff) =? off0)) in
  saved ← (if corrected then
             let '(b, ok) := saveAckedPosition save_ok b in
             if ok : bool then Some b
             else if remove_ok then Some (set_ackedFile None b) else None
           else Some b);
  Some (findSegmentAfterAcked (set_cursor 0 0
    (enforceMaxSize (H := retention_reads) now (enforceMaxAge (H := retention_reads) now (dropAckedSegments (H := drop_reads) now saved))))).

(** Every read succeeds. The lemmas below are about such operations unless they say
    otherwise. *)
Definition reads_fine : Reads := (∅ : gmap (Z * Z) read_fault).
#[local] Existing Instance reads_fine.

Lemma read_fault_fine s o : read_fault_at s o = None.
Proof. exact (lookup_empty (M := gmap (Z * Z)) _). Qed.

Definition no_short (R : Reads) : Prop := ∀ k : Z * Z, (read_faults (Reads := R)) !! k ≠ Some ShortRead.

Lemma reads_fine_no_short : no_short reads_fine.
Proof. intros k E. unfold read_faults, reads_fine in E. by rewrite (lookup_empty (M := gmap (Z * Z))) in E. Qed.

Lemma no_short_read (R : Reads) s o : no_short R → short_read s o = false.
Proof. intros HR. apply bool_decide_eq_false. apply HR. Qed.

Lemma no_faults s o (D : Decision (read_fault_at s o ≠ None)) : bool_decide (read_fault_at s o ≠ None) = false.
Proof. apply bool_decide_eq_false. rewrite read_fault_fine. tauto. Qed.

(** ** The content of a segment *)

(** A record the buffer takes: not empty, and its length and the next offset fit in
    32 bits. *)
Definition record_ok (r : list byte) : Prop := r ≠ [] ∧ Z.of_nat (length r) < 2 ^ 32 - 8.

Definition enc (rs : list (list byte)) : list byte := concat (encode_record <$> rs).

(** Where the record number [j] starts. *)
Definition off (rs : list (list byte)) (j : nat) : Z := Z.of_nat (length (enc (take j rs))).

(** Bytes that hold no record, whatever is done with them: fewer than a header, a
    header whose payload is not there, or zero headers before such bytes. *)
Inductive junk : list byte → Prop :=
| junk_short t : (length t < 8)%nat → junk t
| junk_torn t : Z.of_nat (length t) < 8 + Uint32 t → junk t
| junk_zero h t : length h = 8%nat → Uint32 h = 0 → junk t → junk (h ++ t).

Lemma length_encode_record r : length (encode_record r) = (8 + length r)%nat.
Proof. unfold encode_record, PutUint32. rewrite !length_app, !le_encode_length. lia. Qed.

Lemma enc_app rs1 rs2 : enc (rs1 ++ rs2) = enc rs1 ++ enc rs2.
Proof. unfold enc. by rewrite fmap_app, concat_app. Qed.

Lemma enc_cons r rs : enc (r :: rs) = encode_record r ++ enc rs.
Proof. done. Qed.

Lemma off_0 rs : off rs 0 = 0.
Proof. done. Qed.

Lemma off_nonneg rs j : 0 ≤ off rs j.
Proof. unfold off. lia. Qed.

Lemma off_S rs j r : rs !! j = Some r → off rs (S j) = off rs j + 8 + Z.of_nat (length r).
Proof.
  intros Hj. unfold off. rewrite (take_S_r _ _ _ Hj), enc_app, length_app, enc_cons, length_app, length_encode_record. cbn. lia.
Qed.

Lemma off_end rs : off rs (length rs) = Z.of_nat (length (enc rs)).
Proof. unfold off. by rewrite take_ge. Qed.

Lemma off_app rs rs' j : (j ≤ length rs)%nat → off (rs ++ rs') j = off rs j.
Proof. intros. unfold off. by rewrite take_app_le. Qed.

Lemma drop_off rs j : drop (Z.to_nat (off rs j)) (enc rs) = enc (drop j rs).
Proof.
  unfold off. rewrite Nat2Z.id. rewrite <- (take_drop j rs) at 2. rewrite enc_app. by rewrite drop_app_length.
Qed.

Lemma off_le_end rs j : (off rs j ≤ Z.of_nat (length (enc rs))).
Proof.
  unfold off. rewrite <- (take_drop j rs) at 2. rewrite enc_app, length_app. lia.
Qed.

(** A header in front of its payload. *)
Lemma header_of_record r rest : record_ok r →
  Uint32 (encode_record r ++ rest) = Z.of_nat (length r) ∧
  Uint32 (drop 4 (encode_record r ++ rest)) = crc32c r.
Proof.
  intros [_ Hr]. unfold encode_record. rewrite uwrap32_id by (unfold is_uint32; lia).
  rewrite <- !app_assoc. split.
  - apply Uint32_PutUint32. lia.
  - rewrite drop_app_length' by (unfold PutUint32; by rewrite le_encode_length).
    apply Uint32_PutUint32, crc32c_range.
Qed.

Lemma Uint32_take n bs : (4 ≤ n)%nat → Uint32 (take n bs) = Uint32 bs.
Proof. intros. unfold Uint32. by rewrite take_take, Nat.min_l. Qed.

Lemma header_at_drop f o : 0 ≤ o →
  header_at f o = if decide (8 ≤ length (drop (Z.to_nat o) f))%nat
                  then Some (Uint32 (drop (Z.to_nat o) f), Uint32 (drop 4 (drop (Z.to_nat o) f))) else None.
Proof.
  intros Ho. unfold header_at. rewrite length_drop.
  destruct (decide _) as [H|H].
  - rewrite (proj2 (Z.leb_le _ _)) by lia. do 2 f_equal.
    + by rewrite take_take, Uint32_take by lia.
    + unfold Uint32. rewrite !skipn_firstn_comm, firstn_firstn. done.
  - by rewrite (proj2 (Z.leb_gt _ _)) by lia.
Qed.

(** ** Segments the buffer wrote *)

(** What a write that failed may leave behind. *)
Definition torn (tail : list byte) : Prop :=
  ∃ r n, record_ok r ∧ tail = take n (encode_record r) ∧ (n < 8 + length r)%nat.

(** The file holds the records [rs], then at most the start of one more. *)
Definition seg_holds (s : Segment) (rs : list (list byte)) : Prop :=
  Forall record_ok rs ∧ s.(fileSize) = Z.of_nat (length (enc rs)) ∧
  ∃ tail, torn tail ∧ s.(file) = enc rs ++ tail.

Lemma torn_nil : torn [].
Proof. exists [x00], 0%nat. split; [|split; [done|lia]]. split; [done|]. cbn. lia. Qed.

(** Enough of a torn record to read its length. *)
Lemma torn_length tail : torn tail → (8 ≤ length tail)%nat →
  ∃ r, record_ok r ∧ Uint32 tail = Z.of_nat (length r) ∧ (length tail < 8 + length r)%nat.
Proof.
  intros (r & n & Hr & -> & Hn) Hl. exists r. split; [done|].
  rewrite length_take, length_encode_record in *. split; [|lia].
  rewrite Uint32_take by lia. rewrite <- (app_nil_r (encode_record r)). by apply header_of_record.
Qed.

Lemma torn_junk tail : torn tail → junk tail.
Proof.
  intros Ht. destruct (decide (length tail < 8)%nat) as [|Hl]; [by apply junk_short|].
  apply junk_torn. destruct (torn_length tail Ht) as (r & _ & -> & ?); lia.
Qed.

Lemma zeros_junk n : junk (replicate n x00).
Proof.
  induction n as [n IH] using lt_wf_ind. destruct (decide (n < 8)%nat) as [|Hn].
  - apply junk_short. by rewrite length_replicate.
  - replace n with (8 + (n - 8))%nat by lia. rewrite replicate_add. apply junk_zero; [done|done|]. apply IH. lia.
Qed.

Section reading.
Context (s : Segment) (rs : list (list byte)) (Hs : seg_holds s rs).

Lemma file_from j : (j ≤ length rs)%nat → ∃ tail, torn tail ∧ drop (Z.to_nat (off rs j)) s.(file) = enc (drop j rs) ++ tail.
Proof.
  intros Hj. destruct Hs as (_ & _ & tail & Ht & ->). exists tail. split; [done|].
  pose proof (off_le_end rs j). rewrite drop_app_le by lia. by rewrite drop_off.
Qed.

Lemma record_lookup j r : rs !! j = Some r → record_ok r ∧ drop j rs = r :: drop (S j) rs ∧ (j < length rs)%nat.
Proof.
  intros Hj. split; [|split].
  - eapply Forall_lookup_1; [apply Hs|done].
  - by apply drop_S.
  - by eapply lookup_lt_Some.
Qed.

Lemma header_at_record j r : rs !! j = Some r → header_at s.(file) (off rs j) = Some (Z.of_nat (length r), crc32c r).
Proof.
  intros Hj. destruct (record_lookup j r Hj) as (Hr & Hd & Hlt).
  destruct (file_from j) as (tail & Ht & E); [lia|].
  rewrite header_at_drop by apply off_nonneg. rewrite E, Hd, enc_cons, <- app_assoc.
  destruct (header_of_record r (enc (drop (S j) rs) ++ tail) Hr) as [-> ->].
  rewrite decide_True; [done|]. rewrite length_app, length_encode_record. lia.
Qed.

Lemma ReadAt_record_or (R : Reads) j r : no_short R → rs !! j = Some r →
  ReadAt s (off rs j) = inr (Some r, off rs (S j)) ∨ R ≠ reads_fine ∧ ∃ err, ReadAt s (off rs j) = inl err.
Proof.
  intros HR Hj. destruct (record_lookup j r Hj) as (Hr & Hd & Hlt).
  destruct (file_from j) as (tail & Ht & E); [lia|].
  assert (drop (Z.to_nat (off rs j + 8)) s.(file) = r ++ enc (drop (S j) rs) ++ tail) as Ed.
  { rewrite Z2Nat.inj_add by (pose proof (off_nonneg rs j); lia). rewrite <- drop_drop.
    rewrite E, Hd, enc_cons. unfold encode_record, PutUint32.
    rewrite <- !app_assoc, (app_assoc (le_encode 4 _)). rewrite drop_app_length'; [done|].
    rewrite length_app, !le_encode_length. done. }
  unfold ReadAt. rewrite !(no_short_read R), (header_at_record j r Hj), Ed, Nat2Z.id, take_app_length by done.
  destruct (full_read_error s (off rs j)) as [err|] eqn:E1; [right; split; [by intros ->|by exists err]|].
  destruct Hr as [Hne Hlen]. assert (0 < length r)%nat by (destruct r; [done|cbn; lia]).
  rewrite (proj2 (Z.eqb_neq _ 0)) by lia.
  pose proof (off_le_end rs (S j)) as Hle. rewrite (off_S _ _ _ Hj) in Hle |- *.
  destruct Hs as (_ & -> & _).
  rewrite (proj2 (Z.ltb_ge (_ - _ - _) _)), andb_false_r by lia.
  rewrite Z.ltb_irrefl, Z.eqb_refl. cbn [orb].
  destruct (full_read_error s (off rs j + 8)) as [err|] eqn:E2; [right; split; [by intros ->|by exists err]|]. left.
  rewrite uwrap32_id by (unfold is_uint32; lia). do 2 f_equal. lia.
Qed.

Lemma ReadAt_record j r : rs !! j = Some r → ReadAt s (off rs j) = inr (Some r, off rs (S j)).
Proof. intros Hj. by destruct (ReadAt_record_or reads_fine j r reads_fine_no_short Hj) as [?|[[] _]]. Qed.

Lemma ReadAt_end_or (R : Reads) : no_short R →
  ReadAt s (off rs (length rs)) = inr (None, off rs (length rs)) ∨ R ≠ reads_fine ∧ ∃ err, ReadAt s (off rs (length rs)) = inl err.
Proof.
  intros HR.
  destruct (file_from (length rs)) as (tail & Ht & E); [done|]. rewrite (drop_ge rs) in E by lia. cbn in E.
  unfold ReadAt. rewrite !(no_short_read R), header_at_drop, E by (done || apply off_nonneg).
  destruct (decide _) as [Hl|]; [|by left].
  destruct (full_read_error s (off rs (length rs))) as [err|] eqn:E1; [right; split; [by intros ->|by exists err]|]. left.
  destruct (torn_length tail Ht Hl) as (r & [Hr Hrl] & -> & Hlt).
  assert (0 < length r)%nat by (destruct r; [done|cbn; lia]).
  rewrite (proj2 (Z.eqb_neq _ 0)) by lia.
  destruct Hs as (_ & Hsz & _). rewrite off_end, <- Hsz.
  destruct (0 <? fileSize s) eqn:Hz; cbn [andb].
  { rewrite (proj2 (Z.ltb_lt _ _)) by lia. done. }
  rewrite (proj2 (Z.ltb_lt _ _)); [done|]. rewrite Hsz, <- off_end.
  rewrite Z2Nat.inj_add by (pose proof (off_nonneg rs (length rs)); lia). rewrite <- drop_drop, E.
  rewrite length_take, length_drop. lia.
Qed.

Lemma records_from_at fuel j n : (j ≤ length rs)%nat → (length rs - j < fuel)%nat →
  records_from fuel s (off rs j) n = n + Z.of_nat (length rs - j).
Proof.
  revert j n. induction fuel as [|fuel IH]; intros j n Hj Hf; [lia|]. cbn [records_from]. rewrite no_faults.
  destruct Hs as (_ & Hsz & _). destruct (rs !! j) as [r|] eqn:Er.
  - destruct (record_lookup j r Er) as (Hr & Hd & Hlt).
    pose proof (off_le_end rs (S j)) as Hle. rewrite (header_at_record j r Er).
    rewrite (off_S _ _ _ Er) in Hle.
    rewrite !(proj2 (Z.ltb_ge _ _)) by lia. rewrite <- (off_S _ _ _ Er), IH by lia. lia.
  - apply lookup_ge_None in Er. assert (j = length rs) as -> by lia.
    rewrite off_end, Hsz. rewrite (proj2 (Z.ltb_lt _ _)) by lia. lia.
Qed.
End reading.

Lemma length_enc_ge rs : (8 * length rs ≤ length (enc rs))%nat.
Proof.
  induction rs as [|r rs IH]; [done|]. rewrite enc_cons, length_app, length_encode_record. cbn [length]. lia.
Qed.

(** Every record from a boundary on is counted. *)
Lemma recordsFrom_at s rs j : seg_holds s rs → (j ≤ length rs)%nat → recordsFrom s (off rs j) = Z.of_nat (length rs - j).
Proof.
  intros Hs Hj. unfold recordsFrom. pose proof (length_enc_ge rs).
  destruct (decide (rs = [])) as [->|Hne].
  - destruct Hs as (_ & Hsz & _). destruct j; [|cbn in Hj; lia]. destruct (length (file s)); cbn [records_from]; [done|].
    by rewrite Hsz.
  - rewrite (records_from_at s rs Hs); [lia|done|].
    destruct Hs as (_ & _ & tail & _ & ->). rewrite length_app. destruct rs; [done|]. cbn in *. lia.
Qed.

(** ** Opening a segment: what is recovered *)

Lemma header_at_app p f : header_at (p ++ f) (Z.of_nat (length p)) =
  if decide (8 ≤ length f)%nat then Some (Uint32 f, Uint32 (drop 4 f)) else None.
Proof. rewrite header_at_drop by lia. by rewrite Nat2Z.id, drop_app_length. Qed.

Lemma walk_junk t : junk t → ∀ p fuel e c, (length t ≤ fuel)%nat → walk fuel (p ++ t) (Z.of_nat (length p)) e c = (e, c).
Proof.
  induction 1 as [t Ht|t Ht|h t Hh Hz Ht IH]; intros p fuel e c Hf; (destruct fuel as [|fuel]; [done|]); cbn [walk]; rewrite header_at_app.
  - rewrite decide_False by lia. done.
  - destruct (decide _); [|done]. rewrite length_app, (proj2 (Z.ltb_lt _ _)) by lia. done.
  - rewrite decide_True by (rewrite length_app; lia).
    assert (Uint32 (h ++ t) = 0) as ->. { unfold Uint32 in *. by rewrite take_app_le by lia. }
    rewrite !length_app in *. rewrite (proj2 (Z.ltb_ge _ _)) by lia. cbn [Z.ltb Z.compare].
    rewrite app_assoc. replace (Z.of_nat (length p) + 8 + 0) with (Z.of_nat (length (p ++ h))) by (rewrite length_app; lia).
    apply IH. lia.
Qed.

Lemma walk_records t rs : junk t → Forall record_ok rs → ∀ p fuel e c, (length (enc rs ++ t) ≤ fuel)%nat →
  walk fuel (p ++ enc rs ++ t) (Z.of_nat (length p)) e c =
    (match rs with [] => e | _ => Z.of_nat (length (p ++ enc rs)) end, c + Z.of_nat (length rs)).
Proof.
  intros Ht Hrs. induction Hrs as [|r rs Hr Hrs IH]; intros p fuel e c Hf.
  { cbn [enc concat fmap list_fmap app]. rewrite walk_junk by done. f_equal. cbn. lia. }
  rewrite enc_cons in *. rewrite <- !app_assoc in *. pose proof (length_encode_record r) as Hl.
  destruct fuel as [|fuel]; [rewrite length_app in Hf; lia|]. cbn [walk].
  rewrite header_at_app, decide_True by (rewrite length_app; lia).
  rewrite (proj1 (header_of_record r _ Hr)). rewrite !length_app in *.
  rewrite (proj2 (Z.ltb_ge _ _)) by lia.
  assert (0 < length r)%nat by (destruct Hr as [? _]; destruct r; [done|cbn; lia]).
  rewrite (proj2 (Z.ltb_lt 0 _)) by lia.
  rewrite (app_assoc p). replace (Z.of_nat (length p) + 8 + Z.of_nat (length r)) with (Z.of_nat (length (p ++ encode_record r))) by (rewrite length_app; lia).
  rewrite IH by (rewrite ?length_app; lia). f_equal; [|cbn [length]; lia].
  destruct rs; rewrite !length_app; cbn; lia.
Qed.

(** A segment file opened at a checkpoint: the records behind the checkpoint are
    found, and the junk behind them is cut. *)
Lemma openSegment_records p rs t m : junk t → Forall record_ok rs →
  openSegment (p ++ enc rs ++ t) m (Z.of_nat (length p)) =
    (mkSegment (p ++ enc rs) 0 m m 0 (Z.of_nat (length rs)) (Z.of_nat (length (p ++ enc rs))), Z.of_nat (length t)).
Proof.
  intros Ht Hrs. unfold openSegment. rewrite Z.min_l by (rewrite length_app; lia).
  rewrite (walk_records t rs Ht Hrs) by (rewrite !length_app; lia).
  assert (match rs with [] => Z.of_nat (length p) | _ => Z.of_nat (length (p ++ enc rs)) end = Z.of_nat (length (p ++ enc rs))) as ->.
  { destruct rs; [|done]. cbn. by rewrite app_nil_r. }
  rewrite Nat2Z.id, app_assoc, take_app_length. f_equal. rewrite !length_app. lia.
Qed.

(** A file cut at any byte holds a number of whole records and a torn one. *)
Lemma take_enc rs n : Forall record_ok rs → ∃ k tail, (k ≤ length rs)%nat ∧ torn tail ∧ take n (enc rs) = enc (take k rs) ++ tail ∧
  off rs k ≤ Z.of_nat n ∧ (∀ r, rs !! k = Some r → Z.of_nat n < off rs (S k)).
Proof.
  intros Hrs. revert n. induction Hrs as [|r rs Hr Hrs IH]; intros n.
  { exists 0%nat, []. split_and!; [done|apply torn_nil|by destruct n|rewrite off_0; lia|done]. }
  pose proof (length_encode_record r) as Hl. rewrite enc_cons.
  destruct (decide (n < 8 + length r)%nat) as [Hn|Hn].
  - exists 0%nat, (take n (encode_record r)). rewrite take_app_le by lia. split_and!; [lia|by exists r, n|done|rewrite off_0; lia|].
    intros r' [= <-]. rewrite (off_S _ _ r) by done. rewrite off_0. lia.
  - destruct (IH (n - (8 + length r))%nat) as (k & tail & Hk & Ht & E & Hle & Hlt).
    assert (∀ i, off (r :: rs) (S i) = 8 + Z.of_nat (length r) + off rs i) as Ho.
    { intros i. unfold off. cbn [take]. rewrite enc_cons, length_app. lia. }
    exists (S k), tail. cbn [length take]. split_and!; [lia|done| |rewrite Ho; lia|].
    + rewrite take_app_ge by lia. rewrite Hl, E, enc_cons, <- app_assoc. done.
    + intros r' Hr'. rewrite Ho. specialize (Hlt r' Hr'). lia.
Qed.

(** ** What a buffer holds *)

Fixpoint decode (fuel : nat) (f : list byte) : list (list byte) :=
  match fuel with
  | O => []
  | S fuel =>
      let n := Z.to_nat (Uint32 f) in
      if decide (length f < 8 + n)%nat then [] else take n (drop 8 f) :: decode fuel (drop (8 + n) f)
  end.

(** The records of a segment. *)
Definition records (s : Segment) : list (list byte) := decode (length s.(file)) (take (Z.to_nat s.(fileSize)) s.(file)).

Definition seg_ok (s : Segment) : Prop := seg_holds s (records s).

(** The records that start at [o] or later. *)
Fixpoint after (o : Z) (rs : list (list byte)) : list (list byte) :=
  match rs with
  | [] => []
  | r :: rest => if o <=? 0 then rs else after (o - (8 + Z.of_nat (length r))) rest
  end.

Definition boundary (o : Z) (rs : list (list byte)) : Prop := ∃ j, (j ≤ length rs)%nat ∧ o = off rs j.

(** A position is a segment number and an offset. The records behind it, per segment. *)
Definition unacked_of (p : Z * Z) (s : Segment) : list (list byte) :=
  if s.(id) <? p.1 then [] else if p.1 <? s.(id) then records s else after p.2 (records s).

Definition unacked_segs (p : Z * Z) (b : Buffer) : list (list (list byte)) := unacked_of p <$> b.(segments).
Definition acked_pos (b : Buffer) : Z * Z := (b.(ackedSegID), b.(ackedOff)).

(** The records the checkpoint has not passed, oldest first. *)
Definition unacked (b : Buffer) : list (list byte) := concat (unacked_segs (acked_pos b) b).

Fixpoint from_cursor (i : nat) (o : Z) (rss : list (list (list byte))) : list (list (list byte)) :=
  match rss, i with
  | [], _ => []
  | rs :: rss, O => after o rs :: rss
  | _ :: rss, S i => [] :: from_cursor i o rss
  end.

Definition unread_segs (b : Buffer) : list (list (list byte)) := from_cursor b.(nextReadSeg) b.(nextReadOff) (records <$> b.(segments)).

(** The records [Next] has yet to hand out, oldest first. *)
Definition unread (b : Buffer) : list (list byte) := concat (unread_segs b).

(** Every record counted as dropped. *)
Definition dropped_total (b : Buffer) : Z :=
  default 0 (b.(stats).(SamplesDropped) !! "size_limit") + default 0 (b.(stats).(SamplesDropped) !! "age_limit").

Lemma decode_enc rs fuel : Forall record_ok rs → (length (enc rs) ≤ fuel)%nat → decode fuel (enc rs) = rs.
Proof.
  intros Hrs. revert fuel. induction Hrs as [|r rs Hr Hrs IH]; intros fuel Hf; [by destruct fuel|].
  pose proof (length_encode_record r) as Hl. rewrite enc_cons in *. rewrite length_app in Hf.
  destruct fuel as [|fuel]; [lia|]. cbn [decode].
  rewrite (proj1 (header_of_record r _ Hr)), Nat2Z.id, decide_False by (rewrite length_app; lia).
  assert (drop 8 (encode_record r ++ enc rs) = r ++ enc rs) as E.
  { unfold encode_record, PutUint32. rewrite <- !app_assoc, (app_assoc (le_encode 4 _)).
    apply drop_app_length'. by rewrite length_app, !le_encode_length. }
  rewrite <- (drop_drop _ _ 8), E, take_app_length, drop_app_length. f_equal. apply IH. lia.
Qed.

Lemma records_holds s rs : seg_holds s rs → records s = rs.
Proof.
  intros (Hrs & Hsz & tail & _ & Hf). unfold records. rewrite Hsz, Hf, Nat2Z.id, take_app_length.
  apply decode_enc; [done|]. rewrite length_app. lia.
Qed.

Lemma seg_ok_holds s rs : seg_holds s rs → seg_ok s.
Proof. intros H. unfold seg_ok. by rewrite (records_holds s rs H). Qed.

Lemma after_0 rs : after 0 rs = rs.
Proof. by destruct rs. Qed.

Lemma after_off rs j : (j ≤ length rs)%nat → after (off rs j) rs = drop j rs.
Proof.
  revert j. induction rs as [|r rs IH]; intros [|j] Hj; [done|cbn in Hj; lia|apply after_0|].
  cbn [after]. assert (off (r :: rs) (S j) = 8 + Z.of_nat (length r) + off rs j) as ->.
  { unfold off. cbn [take]. rewrite enc_cons, length_app, length_encode_record. lia. }
  pose proof (off_nonneg rs j). rewrite (proj2 (Z.leb_gt _ _)) by lia.
  replace (8 + Z.of_nat (length r) + off rs j - (8 + Z.of_nat (length r))) with (off rs j) by lia.
  apply IH. cbn in Hj. lia.
Qed.

Lemma boundary_0 rs : boundary 0 rs.
Proof. exists 0%nat. split; [lia|done]. Qed.

Lemma boundary_app o rs rs' : boundary o rs → boundary o (rs ++ rs').
Proof. intros (j & Hj & ->). exists j. rewrite length_app, off_app by done. split; [lia|done]. Qed.

Lemma after_app o rs rs' : boundary o rs → after o (rs ++ rs') = after o rs ++ rs'.
Proof.
  intros (j & Hj & ->). rewrite <- (off_app rs rs') at 1 by done.
  rewrite !after_off by (rewrite ?length_app; lia). by apply drop_app_le.
Qed.

Lemma length_from_cursor i o rss : length (from_cursor i o rss) = length rss.
Proof. revert i. induction rss as [|rs rss IH]; intros [|i]; cbn; try done. by rewrite IH. Qed.

Lemma from_cursor_0 rss : from_cursor 0 0 rss = rss.
Proof. destruct rss as [|rs rss]; [done|]. cbn. by rewrite after_0. Qed.

Lemma from_cursor_lookup i o rss rs : rss !! i = Some rs →
  concat (from_cursor i o rss) = after o rs ++ concat (drop (S i) rss).
Proof. revert i. induction rss as [|x rss IH]; intros [|i]; cbn; intros; simplify_eq; [done|by apply IH]. Qed.

(** One record more in the last segment. *)
Definition grown (r : list byte) (l l' : list (list (list byte))) : Prop :=
  ∃ init x, l = init ++ [x] ∧ l' = init ++ [x ++ [r]].

Lemma grown_concat r l l' : grown r l l' → concat l' = concat l ++ [r].
Proof. intros (init & x & -> & ->). rewrite !concat_app. cbn. by rewrite !app_nil_r, app_assoc. Qed.

Lemma from_cursor_grown i o rss rs r : (i ≤ length rss)%nat → (i = length rss → boundary o rs) →
  grown r (from_cursor i o (rss ++ [rs])) (from_cursor i o (rss ++ [rs ++ [r]])).
Proof.
  revert i. induction rss as [|x rss IH]; intros [|i] Hi Hb; cbn in *.
  - exists [], (after o rs). by rewrite after_app by auto.
  - lia.
  - exists (after o x :: rss), rs. done.
  - destruct (IH i) as (init & y & -> & ->); [lia|intros ->; by apply Hb|]. by exists ([] :: init), y.
Qed.

Lemma from_cursor_snoc_nil i o rss : (i < length rss)%nat → from_cursor i o (rss ++ [[]]) = from_cursor i o rss ++ [[]].
Proof. revert i. induction rss as [|x rss IH]; intros [|i] Hi; cbn in *; try lia; [done|]. f_equal. apply IH. lia. Qed.

(** ** The invariant *)

(** A position the segments agree with: on a record boundary of its segment, and
    not behind the last segment. *)
Record pos_ok (p : Z * Z) (b : Buffer) : Prop := {
  pos_next : 0 ≤ p.1 < b.(nextSegID) ∨ (p.1 = b.(nextSegID) ∧ p.2 = 0);
  pos_last : ∀ s, last b.(segments) = Some s → p.1 ≤ s.(id);
  pos_boundary : ∀ s, s ∈ b.(segments) → s.(id) = p.1 → boundary p.2 (records s);
}.

Record inv (b : Buffer) : Prop := {
  inv_segs : Forall seg_ok b.(segments);
  inv_sorted : StronglySorted (λ s t, s.(id) < t.(id)) b.(segments);
  inv_ids : Forall (λ s, 0 ≤ s.(id) < b.(nextSegID)) b.(segments);
  inv_next : 0 ≤ b.(nextSegID) < 2 ^ 32;
  inv_bytes : b.(stats).(BytesUsed) = zsum (fileSize <$> b.(segments));
  inv_cursor : b.(segments) = [] ∧ b.(nextReadSeg) = 0%nat ∧ b.(nextReadOff) = 0 ∨
               ∃ s, b.(segments) !! b.(nextReadSeg) = Some s ∧ boundary b.(nextReadOff) (records s);
  inv_acked : pos_ok (acked_pos b) b;
  inv_counts : Forall (λ s, b.(ackedSegID) < s.(id) → s.(recordCount) = Z.of_nat (length (records s))) b.(segments);
}.

Lemma unackedRecords_exact b s : inv b → s ∈ b.(segments) → unackedRecords b s = Z.of_nat (length (unacked_of (acked_pos b) s)).
Proof.
  intros Hi Hs. unfold unackedRecords, unacked_of. cbn [fst snd acked_pos].
  destruct (id s <? ackedSegID b) eqn:E1; [done|]. destruct (ackedSegID b <? id s) eqn:E2; zbool.
  - exact (proj1 (Forall_forall _ _) (inv_counts _ Hi) s Hs E2).
  - destruct (pos_boundary _ _ (inv_acked _ Hi) s Hs) as (j & Hj & E); [cbn; lia|]. cbn in E. rewrite E.
    rewrite (recordsFrom_at s (records s)); [|exact (proj1 (Forall_forall _ _) (inv_segs _ Hi) s Hs)|done].
    by rewrite after_off, length_drop.
Qed.

(** ** Retention *)

(** [b'] is [b] without some of its oldest segments, their lost records counted. *)
Definition trimmed (b b' : Buffer) : Prop := ∃ k,
  (k ≤ length b.(segments))%nat ∧ b'.(segments) = drop k b.(segments) ∧ unread_segs b' = drop k (unread_segs b) ∧
  acked_pos b' = acked_pos b ∧ b'.(nextSegID) = b.(nextSegID) ∧ b'.(ackedFile) = b.(ackedFile) ∧
  b'.(MaxSize) = b.(MaxSize) ∧ b'.(MaxAge) = b.(MaxAge) ∧ b'.(stats).(CorruptRecords) = b.(stats).(CorruptRecords) ∧
  dropped_total b' + Z.of_nat (length (unacked b')) = dropped_total b + Z.of_nat (length (unacked b)).

Lemma trimmed_refl b : trimmed b b.
Proof. exists 0%nat. split_and!; try done. lia. Qed.

Lemma trimmed_trans b1 b2 b3 : trimmed b1 b2 → trimmed b2 b3 → trimmed b1 b3.
Proof.
  intros (k & Hk & Hs & Hu & Ha & Hn & Hf & HM & HA & HC & Hc) (k' & Hk' & Hs' & Hu' & Ha' & Hn' & Hf' & HM' & HA' & HC' & Hc').
  exists (k + k')%nat. rewrite Hs, length_drop in Hk'.
  split_and!; try congruence; [lia| |].
  - by rewrite Hs', Hs, drop_drop.
  - by rewrite Hu', Hu, drop_drop.
Qed.

Lemma trimmed_unacked_segs b b' p : trimmed b b' → ∃ k, unacked_segs p b' = drop k (unacked_segs p b) ∧ unread_segs b' = drop k (unread_segs b).
Proof. intros (k & _ & Hs & Hu & _). exists k. split; [|done]. unfold unacked_segs. by rewrite Hs, fmap_drop. Qed.

Lemma StronglySorted_drop {A} (R : A → A → Prop) l k : StronglySorted R l → StronglySorted R (drop k l).
Proof. intros H. revert k. induction H as [|x l Hl IH Hx]; intros [|k]; cbn; try constructor; auto. Qed.

Lemma pos_ok_drop p b k : pos_ok p b → pos_ok p (set_segments (drop k b.(segments)) b).
Proof.
  intros [H1 H2 H3]. split; cbn; [done| |].
  - intros s Hs. apply H2. apply last_Some in Hs as (l & Hs). apply last_Some.
    exists (take k (segments b) ++ l). by rewrite <- app_assoc, <- Hs, take_drop.
  - intros s Hs. apply H3. apply list_elem_of_lookup in Hs as (i & Hs). rewrite lookup_drop in Hs.
    by eapply list_elem_of_lookup_2.
Qed.

(** Positions depend on the segments and the next number only. *)
Lemma pos_ok_same p b b' : b'.(segments) = b.(segments) → b'.(nextSegID) = b.(nextSegID) → pos_ok p b → pos_ok p b'.
Proof. intros Hs Hn [H1 H2 H3]. split; rewrite ?Hs, ?Hn; auto. Qed.

Section remove.
Context (b : Buffer) (s : Segment) (rest : list Segment) (Hsegs : b.(segments) = s :: rest).

Lemma removeOldest_fields reason now : let b' := removeOldestSegment reason now b in
  b'.(segments) = rest ∧ acked_pos b' = acked_pos b ∧ b'.(nextSegID) = b.(nextSegID) ∧ b'.(ackedFile) = b.(ackedFile) ∧
  b'.(MaxSize) = b.(MaxSize) ∧ b'.(MaxAge) = b.(MaxAge) ∧ b'.(stats).(CorruptRecords) = b.(stats).(CorruptRecords) ∧
  b'.(stats).(BytesUsed) = b.(stats).(BytesUsed) - s.(fileSize).
Proof.
  unfold removeOldestSegment. rewrite Hsegs. destruct (nextReadSeg b); cbn; destruct (0 <? _); cbn; done.
Qed.

Lemma removeOldest_unread reason now : unread_segs (removeOldestSegment reason now b) = drop 1 (unread_segs b).
Proof.
  unfold unread_segs. destruct (removeOldest_fields reason now) as (-> & _). rewrite Hsegs.
  unfold removeOldestSegment. rewrite Hsegs. destruct (nextReadSeg b); [exact (from_cursor_0 _)|done].
Qed.

Lemma removeOldest_inv reason now : inv b → inv (removeOldestSegment reason now b).
Proof.
  intros Hi. destruct (removeOldest_fields reason now) as (Es & Ea & En & _ & _ & _ & _ & Eb).
  assert (rest = drop 1 (segments b)) as Er by (by rewrite Hsegs).
  destruct Hi as [H1 H2 H3 H4 H5 H6 H7 H8]. rewrite Hsegs in H1, H2, H3, H5, H8. apply Forall_cons in H1, H3, H8.
  split; rewrite ?Es, ?En, ?Eb; try tauto.
  - by inversion H2.
  - rewrite H5. cbn. lia.
  - clear Eb En Ea. unfold removeOldestSegment in *. rewrite Hsegs in *.
    destruct (nextReadSeg b) as [|i] eqn:Ei; cbn in *.
    + destruct rest as [|s' rest']; [by left|]. right. exists s'. split; [done|apply boundary_0].
    + right. destruct H6 as [(? & _)|(s' & Hl & Hb)]; [done|]. by exists s'.
  - rewrite Ea. eapply pos_ok_same; [..|apply (pos_ok_drop _ _ 1 H7)]; [by rewrite Es, Er|done].
  - unfold acked_pos in Ea. injection Ea as -> _. tauto.
Qed.

Lemma removeOldest_trimmed reason now : inv b → reason ∈ ["size_limit"; "age_limit"; ""] → (reason = "" → unackedRecords b s = 0) →
  trimmed b (removeOldestSegment reason now b).
Proof.
  intros Hi Hr H0. exists 1%nat. destruct (removeOldest_fields reason now) as (Es & Ea & En & Ef & EM & EA & EC & _).
  split_and!; try done.
  - rewrite Hsegs. cbn. lia.
  - by rewrite Es, Hsegs.
  - apply removeOldest_unread.
  - assert (length (unacked b) = length (unacked_of (acked_pos b) s) + length (unacked (removeOldestSegment reason now b)))%nat as ->.
    { unfold unacked, unacked_segs. rewrite Ea, Es, Hsegs. cbn. by rewrite length_app. }
    rewrite Nat2Z.inj_add, <- unackedRecords_exact by (try done; rewrite Hsegs; left).
    assert (dropped_total (removeOldestSegment reason now b) = dropped_total b + unackedRecords b s); [|lia].
    pose proof (unackedRecords_exact b s Hi ltac:(rewrite Hsegs; left)).
    unfold removeOldestSegment, dropped_total. rewrite Hsegs.
    destruct (decide (reason = "")) as [->|Hne].
    + rewrite (H0 eq_refl). destruct (nextReadSeg b); cbn; lia.
    + destruct (0 <? unackedRecords b s) eqn:E; zbool; [|destruct (nextReadSeg b); cbn; lia].
      apply list_elem_of_In in Hr. destruct Hr as [<-|[<-|[<-|[]]]]; [| |done];
        destruct (nextReadSeg b); cbn; rewrite lookup_insert_eq, lookup_insert_ne by done; cbn; lia.
Qed.
End remove.

Section remove_while.
Context (cond : Buffer → bool) (reason : string) (now : Time).
Context (Hcond : ∀ b, cond b = true → b.(segments) ≠ []).
Context (Hreason : reason ∈ ["size_limit"; "age_limit"; ""]).
Context (Hzero : reason = "" → ∀ b s rest, cond b = true → b.(segments) = s :: rest → unackedRecords b s = 0).

Lemma remove_while_trimmed fuel b : inv b → inv (remove_while fuel cond reason now b) ∧ trimmed b (remove_while fuel cond reason now b).
Proof.
  revert b. induction fuel as [|fuel IH]; intros b Hi; cbn; [by split; [|apply trimmed_refl]|].
  destruct (cond b) eqn:Ec; [|by split; [|apply trimmed_refl]].
  destruct (segments b) as [|s rest] eqn:Es; [by destruct (Hcond b Ec)|].
  destruct (IH (removeOldestSegment reason now b)) as [Hi' Ht]; [by eapply removeOldest_inv|].
  split; [done|]. eapply trimmed_trans; [|done]. apply (removeOldest_trimmed b s rest); [done|done|done|].
  intros ->. by eapply Hzero.
Qed.

Lemma remove_while_done fuel b : (length b.(segments) ≤ fuel)%nat → cond (remove_while fuel cond reason now b) = false.
Proof.
  revert b. induction fuel as [|fuel IH]; intros b Hf; cbn; (destruct (cond b) eqn:Ec; [|done]).
  - destruct (segments b) eqn:Es; [by destruct (Hcond b Ec)|cbn in Hf; lia].
  - apply IH. destruct (segments b) as [|s rest] eqn:Es; [by destruct (Hcond b Ec)|].
    destruct (removeOldest_fields b s rest Es reason now) as (-> & _). cbn in Hf. lia.
Qed.
End remove_while.

Lemma remove_while_stop fuel cond reason now b : cond b = false → remove_while fuel cond reason now b = b.
Proof. intros H. destruct fuel; cbn; by rewrite ?H. Qed.

Lemma over_size_nonempty b : over_size b = true → b.(segments) ≠ [].
Proof. unfold over_size. intros [_ H]%andb_prop E. by rewrite E in H. Qed.

Lemma over_age_nonempty now b : over_age now b = true → b.(segments) ≠ [].
Proof. unfold over_age. by destruct (segments b). Qed.

Lemma all_acked_nonempty b : all_acked b = true → b.(segments) ≠ [].
Proof. unfold all_acked. by destruct (segments b). Qed.

Lemma enforceMaxSize_trimmed now b : inv b → inv (enforceMaxSize now b) ∧ trimmed b (enforceMaxSize now b).
Proof. apply remove_while_trimmed; [apply over_size_nonempty|set_solver|done]. Qed.

Lemma enforceMaxAge_trimmed now b : inv b → inv (enforceMaxAge now b) ∧ trimmed b (enforceMaxAge now b).
Proof. apply remove_while_trimmed; [apply over_age_nonempty|set_solver|done]. Qed.

Lemma dropAcked_trimmed now b : inv b → inv (dropAckedSegments now b) ∧ trimmed b (dropAckedSegments now b).
Proof.
  apply remove_while_trimmed; [apply all_acked_nonempty|set_solver|].
  intros _ b' s rest Hc Es. unfold all_acked in Hc. rewrite Es in Hc. destruct rest; [done|]. by apply Z.eqb_eq.
Qed.

Lemma zsum_drop_le k l : Forall (λ x, 0 ≤ x) l → zsum (drop k l) ≤ zsum l.
Proof.
  intros Hl. rewrite <- (take_drop k l) at 2. rewrite zsum_app.
  pose proof (zsum_nonneg (take k l) ltac:(by apply Forall_take)). lia.
Qed.

Lemma inv_sizes b : inv b → Forall (λ x, 0 ≤ x) (fileSize <$> b.(segments)).
Proof.
  intros Hi. apply Forall_fmap. eapply Forall_impl; [apply inv_segs, Hi|]. intros s (_ & H & _). cbn. lia.
Qed.

(** Removing segments frees bytes. *)
Lemma trimmed_bytes b b' : inv b → inv b' → trimmed b b' → b'.(stats).(BytesUsed) ≤ b.(stats).(BytesUsed).
Proof.
  intros Hi Hi' (k & _ & Hs & _). rewrite (inv_bytes _ Hi), (inv_bytes _ Hi'), Hs, fmap_drop.
  by apply zsum_drop_le, inv_sizes.
Qed.

Lemma enforceMaxSize_bound now b : inv b → 0 ≤ b.(MaxSize) → (enforceMaxSize now b).(stats).(BytesUsed) ≤ b.(MaxSize).
Proof.
  intros Hi HM. destruct (enforceMaxSize_trimmed now b Hi) as [Hi' (k & _ & _ & _ & _ & _ & _ & EM & _)].
  assert (over_size (enforceMaxSize now b) = false) as Ho by (apply remove_while_done; [apply over_size_nonempty|done]).
  unfold over_size in Ho. rewrite EM in Ho. apply andb_false_iff in Ho as [Ho|Ho].
  - by apply Z.ltb_ge in Ho.
  - apply negb_false_iff, bool_decide_eq_true in Ho. rewrite (inv_bytes _ Hi'), Ho. done.
Qed.

(** ** Append *)

(** The segment grows at its end, or it is left as it was. *)
Lemma Segment_Append_ok o s env : seg_ok s → record_ok env →
  let s' := (Segment_Append o s env).1 in
  seg_ok s' ∧ s'.(id) = s.(id) ∧ s'.(lastWrite) = s.(lastWrite) ∧
  if (Segment_Append o s env).2
  then records s' = records s ++ [env] ∧ s'.(fileSize) = s.(fileSize) + Z.of_nat (length env) + 8 ∧ s'.(recordCount) = s.(recordCount) + 1
  else records s' = records s ∧ s'.(fileSize) = s.(fileSize) ∧ s'.(recordCount) = s.(recordCount).
Proof.
  intros Hs Henv. unfold Segment_Append. destruct (negb (io_stat_ok o)); [done|]. destruct (_ && negb (io_trunc_ok o)); [done|].
  destruct Hs as (Hrs & Hsz & tail & Ht & Hf).
  assert ((if Z.of_nat (length (file s)) =? fileSize s then file s else take (Z.to_nat (fileSize s)) (file s)) = enc (records s)) as ->.
  { rewrite Hsz, Nat2Z.id. destruct (_ =? _) eqn:E; [|by rewrite Hf, take_app_length].
    zbool. rewrite Hf, length_app in E. assert (tail = []) as -> by (destruct tail; [done|cbn in E; lia]). by rewrite Hf, app_nil_r. }
  pose proof (length_encode_record env) as Hl.
  assert (∀ f n, (∃ t, torn t ∧ f = enc (records s) ++ t) → seg_holds (set_file f n (fileSize s) s) (records s)) as Hsame by done.
  destruct (io_write o) as [[n cut]|]; cbn [fst snd].
  - assert (seg_holds (set_file (if cut then take (Z.to_nat (fileSize s)) (enc (records s))
      else enc (records s) ++ take (Nat.min n (length (encode_record env) - 1)) (encode_record env)) (recordCount s) (fileSize s) s) (records s)) as Hh.
    { apply Hsame. destruct cut.
      - exists []. split; [apply torn_nil|]. rewrite Hsz, Nat2Z.id, app_nil_r. by rewrite take_ge.
      - eexists. split; [|done]. eexists env, _. split; [done|]. split; [done|]. lia. }
    split_and!; [by eapply seg_ok_holds|done|done|by apply records_holds|done|done].
  - assert (seg_holds (set_file (enc (records s) ++ encode_record env) (recordCount s + 1)
      (fileSize s + Z.of_nat (length (encode_record env))) s) (records s ++ [env])) as Hh.
    { split; [by apply Forall_app; split; [|constructor]|]. rewrite enc_app. cbn [fileSize set_file file].
      assert (enc [env] = encode_record env) as -> by (cbn; by rewrite app_nil_r).
      split; [rewrite length_app; lia|]. exists []. split; [apply torn_nil|by rewrite app_nil_r]. }
    split_and!; [by eapply seg_ok_holds|done|done|by apply records_holds|cbn; lia|done].
Qed.

(** The reader is never behind the checkpoint. *)
Definition caught_up (b : Buffer) : Prop := Forall2 suffix (unread_segs b) (unacked_segs (acked_pos b) b).

Lemma caught_up_trimmed b b' : trimmed b b' → caught_up b → caught_up b'.
Proof.
  intros Ht H. destruct (trimmed_unacked_segs b b' (acked_pos b') Ht) as (k & Ea & Eu).
  destruct Ht as (_ & _ & _ & _ & Hp & _). unfold caught_up. rewrite Ea, Eu, Hp. by apply Forall2_drop.
Qed.

(** [b'] holds what [b] holds, perhaps with empty segments behind it. *)
Definition extended (b b' : Buffer) : Prop := ∃ k,
  unread_segs b' = unread_segs b ++ replicate k [] ∧
  (∀ p, pos_ok p b → pos_ok p b' ∧ unacked_segs p b' = unacked_segs p b ++ replicate k []) ∧
  b.(segments) `prefix_of` b'.(segments) ∧
  acked_pos b' = acked_pos b ∧ b'.(ackedFile) = b.(ackedFile) ∧ b'.(MaxSize) = b.(MaxSize) ∧ b'.(MaxAge) = b.(MaxAge) ∧
  dropped_total b' = dropped_total b ∧ b'.(stats).(BytesUsed) = b.(stats).(BytesUsed).

Lemma extended_refl b : extended b b.
Proof. exists 0%nat. split_and!; try done; [by rewrite app_nil_r|]. intros p Hp. by rewrite app_nil_r. Qed.

Lemma extended_trans b1 b2 b3 : extended b1 b2 → extended b2 b3 → extended b1 b3.
Proof.
  intros (k & Hu & Hp & Hs & Ha & Hf & HM & HA & HD & HB) (k' & Hu' & Hp' & Hs' & Ha' & Hf' & HM' & HA' & HD' & HB').
  exists (k + k')%nat. split_and!; try congruence.
  - by rewrite Hu', Hu, replicate_add, app_assoc.
  - intros p H1. destruct (Hp p H1) as [H2 E]. destruct (Hp' p H2) as [H3 E']. split; [done|]. by rewrite E', E, replicate_add, app_assoc.
  - by etrans.
Qed.

Lemma concat_replicate_nil {A} (l : list (list A)) k : concat (l ++ replicate k []) = concat l.
Proof. rewrite concat_app. induction k as [|k IH]; cbn; [by rewrite app_nil_r|done]. Qed.

Lemma extended_queues b b' : inv b → extended b b' → unread b' = unread b ∧ unacked b' = unacked b.
Proof.
  intros Hi (k & Hu & Hp & _ & Ha & _). unfold unread, unacked. destruct (Hp (acked_pos b)) as [_ E]; [by apply inv_acked|].
  by rewrite Ha, E, Hu, !concat_replicate_nil.
Qed.

(** Statistics that keep the byte count are outside the invariant. *)
Lemma inv_set_stats st b : st.(BytesUsed) = b.(stats).(BytesUsed) → inv b → inv (set_stats st b).
Proof.
  intros Hb [? ? ? ? ? ? H7 ?]. split; cbn; try done; [congruence|]. by eapply pos_ok_same; [..|apply H7].
Qed.

Lemma handleWriteError_ok o b : inv b → inv (handleWriteError o b) ∧ extended b (handleWriteError o b).
Proof.
  intros Hi. unfold handleWriteError. destruct (io_enospc o); [|by split; [|apply extended_refl]].
  split; [by apply inv_set_stats|]. exists 0%nat. split_and!; try done; [by rewrite app_nil_r|].
  intros p Hp. rewrite app_nil_r. split; [|done]. by eapply pos_ok_same; [..|apply Hp].
Qed.

Lemma pos_ok_next p b n : pos_ok p b → 0 ≤ b.(nextSegID) ≤ n → b.(nextSegID) < n ∨ n = b.(nextSegID) → pos_ok p (set_nextSegID n b).
Proof.
  intros [H1 H2 H3] Hn Hc. split; cbn; [|done|done]. destruct Hc as [Hc| ->]; [left|done]. destruct H1; lia.
Qed.

Lemma inv_next_id b : inv b → b.(nextSegID) + 1 < 2 ^ 32 → inv (set_nextSegID (uwrap32 (b.(nextSegID) + 1)) b).
Proof.
  intros Hi Hn. pose proof (inv_next _ Hi). rewrite uwrap32_id by (unfold is_uint32; lia).
  destruct Hi as [H1 H2 H3 H4 H5 H6 H7 H8]. split; cbn; try done.
  - eapply Forall_impl; [exact H3|]. cbn. intros s. lia.
  - lia.
  - apply pos_ok_next; [done|lia|lia].
Qed.

Definition empty_segment (now : Time) (b : Buffer) : Segment := mkSegment [] b.(nextSegID) now now (segmentSize b.(MaxSize)) 0 0.
#[global] Arguments empty_segment : simpl never.

Lemma empty_segment_id now b : (empty_segment now b).(id) = b.(nextSegID).
Proof. done. Qed.

Lemma empty_segment_holds now b : seg_holds (empty_segment now b) [].
Proof. split; [constructor|]. split; [done|]. exists []. split; [apply torn_nil|done]. Qed.

Lemma inv_add_empty now b : inv b → b.(nextSegID) + 1 < 2 ^ 32 →
  let b' := set_segments (b.(segments) ++ [empty_segment now b]) (set_nextSegID (b.(nextSegID) + 1) b) in
  inv b' ∧ extended b b'.
Proof.
  intros Hi Hn. pose proof (inv_next _ Hi) as Hnn. destruct Hi as [H1 H2 H3 H4 H5 H6 H7 H8].
  assert (records (empty_segment now b) = []) as Hrec by apply records_holds, empty_segment_holds.
  assert (∀ p, pos_ok p b → pos_ok p (set_segments (segments b ++ [empty_segment now b]) (set_nextSegID (nextSegID b + 1) b))) as Hpos.
  { intros p [P1 P2 P3]. split; cbn.
    - left. destruct P1; lia.
    - intros s. rewrite last_snoc. intros [= <-]. rewrite empty_segment_id. destruct P1; lia.
    - intros s [Hs|Hs]%elem_of_app; [by apply P3|]. apply list_elem_of_singleton in Hs as ->. rewrite empty_segment_id, Hrec.
      intros E. destruct P1 as [P1|[_ ->]]; [lia|apply boundary_0]. }
  split.
  - split; cbn [segments set_segments set_nextSegID nextSegID stats nextReadSeg nextReadOff ackedSegID].
    + apply Forall_app. split; [done|]. constructor; [|done]. by eapply seg_ok_holds, empty_segment_holds.
    + clear -H2 H3. induction H2 as [|x l Hl IH Hx]; cbn; [repeat constructor|]. apply Forall_cons in H3 as [Hx3 H3].
      constructor; [by apply IH|]. apply Forall_app. split; [done|]. constructor; [rewrite empty_segment_id; lia|done].
    + apply Forall_app. split; [eapply Forall_impl; [exact H3|]; cbn; intros s; lia|]. constructor; [rewrite empty_segment_id; lia|done].
    + lia.
    + rewrite H5, fmap_app, zsum_app. change (zsum (fileSize <$> [empty_segment now b])) with 0. lia.
    + right. destruct H6 as [(-> & -> & ->)|(s & Hs & Hb)].
      * exists (empty_segment now b). split; [done|apply boundary_0].
      * exists s. split; [|done]. by apply lookup_app_l_Some.
    + by apply Hpos.
    + apply Forall_app. split; [done|]. constructor; [|done]. rewrite Hrec. done.
  - exists 1%nat. split_and!; try done.
    + unfold unread_segs. cbn [segments set_segments nextReadSeg nextReadOff set_nextSegID]. rewrite fmap_app. cbn [fmap list_fmap]. rewrite Hrec.
      destruct H6 as [(-> & -> & ->)|(s & Hs & Hb)]; [done|]. apply from_cursor_snoc_nil. rewrite length_fmap. by eapply lookup_lt_Some.
    + intros p Hp. split; [by apply Hpos|]. unfold unacked_segs. cbn [segments set_segments set_nextSegID]. rewrite fmap_app. f_equal.
      cbn. unfold unacked_of. rewrite Hrec. cbn. by repeat case_match.
    + by eexists.
Qed.

Lemma add_segment_ok o now b : inv b → b.(nextSegID) + 1 < 2 ^ 32 →
  let b' := (add_segment o now b).1 in
  inv b' ∧ extended b b' ∧ b'.(nextSegID) = b.(nextSegID) + 1 ∧
  ((add_segment o now b).2 = true → b'.(segments) = b.(segments) ++ [empty_segment now b]) ∧
  (o.(io_create_ok) = true → (add_segment o now b).2 = true).
Proof.
  intros Hi Hn. pose proof (inv_next _ Hi) as Hnn. unfold add_segment. cbn [newSegment].
  rewrite uwrap32_id by (unfold is_uint32; lia).
  destruct (io_create_ok o); cbn [fst snd].
  - destruct (inv_add_empty now b Hi Hn) as [H1 H2]. split_and!; try done.
  - pose proof (inv_next_id b Hi Hn) as Hi'. rewrite uwrap32_id in Hi' by (unfold is_uint32; lia).
    destruct (handleWriteError_ok o _ Hi') as [H1 H2]. split_and!; try done.
    + eapply extended_trans; [|done]. exists 0%nat. split_and!; try done; [by rewrite app_nil_r|].
      intros p Hp. rewrite app_nil_r. split; [|done]. apply pos_ok_next; [done|lia|lia].
    + unfold handleWriteError. by destruct (io_enospc o).
Qed.

Section replace_last.
Context (b : Buffer) (l : list Segment) (s s' : Segment) (rs : list (list byte)) (st : Stats).
Context (Hi : inv b) (Hl : b.(segments) = l ++ [s]).
Context (Hs' : seg_ok s') (Hid : s'.(id) = s.(id)) (Hrec : records s' = records s ++ rs).
Context (Hcount : s'.(recordCount) = s.(recordCount) + Z.of_nat (length rs)).
Context (Hst : st.(BytesUsed) = b.(stats).(BytesUsed) + s'.(fileSize) - s.(fileSize)).

Let b' := set_stats st (set_segments (l ++ [s']) b).

Lemma replace_last_pos p : pos_ok p b → pos_ok p b'.
Proof.
  intros [P1 P2 P3]. split; cbn.
  - done.
  - intros t. rewrite last_snoc. intros [= <-]. rewrite Hid. apply P2. by rewrite Hl, last_snoc.
  - intros t [Ht|Ht]%elem_of_app.
    + apply P3. rewrite Hl. set_solver.
    + apply list_elem_of_singleton in Ht as ->. rewrite Hid, Hrec. intros E. apply boundary_app, P3; [|done]. rewrite Hl. set_solver.
Qed.

Lemma replace_last_inv : inv b'.
Proof.
  pose proof replace_last_pos as Hpos. destruct Hi as [H1 H2 H3 H4 H5 H6 H7 H8]. rewrite Hl in H1, H2, H3, H5, H8.
  apply Forall_app in H1 as [H1 _]. apply Forall_app in H3 as [H3 H3s]. apply Forall_app in H8 as [H8 H8s].
  apply Forall_cons in H3s as [H3s _]. apply Forall_cons in H8s as [H8s _].
  split; cbn [b' set_stats set_segments segments nextSegID stats nextReadSeg nextReadOff ackedSegID].
  - apply Forall_app. split; [done|by constructor].
  - clear -H2 Hid. induction l as [|x l' IH]; cbn in *; [repeat constructor|].
    inversion H2 as [|? ? H2' Hx]; subst. constructor; [by apply IH|]. apply Forall_app in Hx as [Hx Hx'].
    apply Forall_app. split; [done|]. apply Forall_cons in Hx' as [Hx' _]. constructor; [by rewrite Hid|done].
  - apply Forall_app. split; [done|]. constructor; [by rewrite Hid|done].
  - done.
  - rewrite Hst, H5, !fmap_app, !zsum_app. cbn [fmap list_fmap zsum]. lia.
  - destruct H6 as [(E & _)|(t & Ht & Hb)]; [rewrite Hl in E; by destruct l|]. right.
    rewrite Hl in Ht. apply lookup_app_Some in Ht as [Ht|[Hle Ht]].
    + exists t. split; [by apply lookup_app_l_Some|done].
    + apply list_lookup_singleton_Some in Ht as [Ht ->]. exists s'. split; [|rewrite Hrec; by apply boundary_app].
      rewrite lookup_app_r by done. by rewrite Ht.
  - by apply Hpos.
  - apply Forall_app. split; [done|]. constructor; [|done]. rewrite Hid, Hcount, Hrec, length_app. intros H. rewrite (H8s H). lia.
Qed.

Lemma replace_last_unacked p : pos_ok p b → ∀ r, rs = [r] → grown r (unacked_segs p b) (unacked_segs p b').
Proof.
  intros Hp r Hr. unfold unacked_segs. cbn [b' segments set_stats set_segments]. rewrite Hl, !fmap_app.
  eexists _, _. split; [done|]. f_equal. cbn. f_equal. unfold unacked_of. rewrite Hid, Hrec, Hr.
  pose proof (pos_last _ _ Hp s ltac:(by rewrite Hl, last_snoc)) as Hle.
  rewrite (proj2 (Z.ltb_ge _ _)) by lia. destruct (p.1 <? id s) eqn:E; [done|]. zbool.
  apply after_app, (pos_boundary _ _ Hp); [rewrite Hl; set_solver|lia].
Qed.

Lemma replace_last_unread r : rs = [r] → grown r (unread_segs b) (unread_segs b').
Proof.
  intros Hr. unfold unread_segs. cbn [b' segments set_stats set_segments nextReadSeg nextReadOff].
  rewrite Hl, !fmap_app. cbn [fmap list_fmap]. rewrite Hrec, Hr.
  destruct (inv_cursor _ Hi) as [(E & _)|(t & Ht & Hb)]; [rewrite Hl in E; by destruct l|].
  apply from_cursor_grown.
  - apply lookup_lt_Some in Ht. rewrite Hl, length_app in Ht. rewrite length_fmap. cbn in Ht. lia.
  - rewrite length_fmap. intros E. rewrite Hl, E, lookup_app_r, Nat.sub_diag in Ht by done. by injection Ht as ->.
Qed.

Lemma replace_last_same : rs = [] → (∀ p, unacked_segs p b' = unacked_segs p b) ∧ unread_segs b' = unread_segs b.
Proof.
  intros Hr. rewrite Hr, app_nil_r in Hrec. split.
  - intros p. unfold unacked_segs. cbn [b' segments set_stats set_segments]. rewrite Hl, !fmap_app. f_equal. cbn.
    unfold unacked_of. by rewrite Hid, Hrec.
  - unfold unread_segs. cbn [b' segments set_stats set_segments nextReadSeg nextReadOff]. rewrite Hl, !fmap_app. cbn [fmap list_fmap]. by rewrite Hrec.
Qed.
End replace_last.

(** Segments made for this append. *)
Definition made (now : Time) (b b' : Buffer) : Prop :=
  ∃ l, b'.(segments) = b.(segments) ++ l ∧ Forall (λ s, s.(lastWrite) = now) l.

Lemma ensure_segment_ok o now b : inv b → b.(nextSegID) + 1 < 2 ^ 32 →
  let b' := (ensure_segment o now b).1 in
  inv b' ∧ extended b b' ∧ b'.(nextSegID) ≤ b.(nextSegID) + 1 ∧
  ((ensure_segment o now b).2 = true → made now b b' ∧ b'.(segments) ≠ []) ∧
  (o.(io_create_ok) = true → (ensure_segment o now b).2 = true).
Proof.
  intros Hi Hn. unfold ensure_segment. destruct (segments b) as [|s l] eqn:E; cbn [fst snd].
  - destruct (add_segment_ok o now b Hi Hn) as (H1 & H2 & H3 & H4 & H5). split_and!; try done; [lia|].
    intros H. rewrite H4 by done. split; [|by destruct (segments b)]. eexists. split; [by apply H4|]. by constructor.
  - split_and!; try done; [apply extended_refl|lia|]. intros _. split; [|by rewrite E]. exists []. by rewrite app_nil_r.
Qed.

Lemma roll_ok o now b n : inv b → b.(nextSegID) + 1 < 2 ^ 32 → b.(segments) ≠ [] →
  let b' := (roll o now b n).1 in
  inv b' ∧ extended b b' ∧ ((roll o now b n).2 = true → made now b b' ∧ b'.(segments) ≠ []) ∧
  (o.(io_create_ok) = true → o.(io_sync_ok) = true → (roll o now b n).2 = true).
Proof.
  intros Hi Hn Hne. unfold roll. assert (made now b b ∧ segments b ≠ []) by (split; [exists []; by rewrite app_nil_r|done]).
  destruct (last (segments b)) as [seg|]; [|by split_and!; try apply extended_refl].
  destruct (_ || _); [|by split_and!; try apply extended_refl]. destruct (io_sync_ok o).
  - destruct (add_segment_ok o now b Hi Hn) as (H1 & H2 & H3 & H4 & H5). split_and!; try done; [|auto].
    intros E. rewrite H4 by done. split; [|by destruct (segments b)]. eexists. split; [by apply H4|]. by constructor.
  - destruct (handleWriteError_ok o b Hi). cbn [fst snd]. by split_and!.
Qed.

Lemma made_trans now b1 b2 b3 : made now b1 b2 → made now b2 b3 → made now b1 b3.
Proof. intros (l & E & Hl) (l' & E' & Hl'). exists (l ++ l'). rewrite E', E, app_assoc. split; [done|]. by apply Forall_app. Qed.

(** The buffer just before retention: the record is the last one of the last
    segment, which was written now. *)
Record pushed (now : Time) (env : list byte) (b b' : Buffer) : Prop := {
  pu_inv : inv b';
  pu_unread : unread b' = unread b ++ [env];
  pu_unacked : unacked b' = unacked b ++ [env];
  pu_pos : ∀ p, pos_ok p b → unacked_segs p b = unread_segs b → pos_ok p b' ∧ unacked_segs p b' = unread_segs b';
  pu_caught_up : caught_up b → caught_up b';
  pu_acked : acked_pos b' = acked_pos b;
  pu_file : b'.(ackedFile) = b.(ackedFile);
  pu_opts : b'.(MaxSize) = b.(MaxSize) ∧ b'.(MaxAge) = b.(MaxAge);
  pu_dropped : dropped_total b' = dropped_total b;
  pu_bytes : b'.(stats).(BytesUsed) = b.(stats).(BytesUsed) + Z.of_nat (length env) + 8;
  pu_head : ∀ s, head b'.(segments) = Some s → s.(lastWrite) = now ∨ head b.(segments) = Some s;
}.

(** The write path of [Append], with retention cut off. *)
Definition push (o : io) (now : Time) (env : list byte) (b : Buffer) : Buffer * bool :=
  let size := Z.of_nat (length env) in
  let '(b, ok) := ensure_segment o now b in
  if negb ok then (b, false)
  else
    let '(b, ok) := roll o now b size in
    if negb ok then (b, false)
    else
      match last b.(segments) with
      | None => (b, false)
      | Some seg =>
          let '(seg', ok) := Segment_Append o seg env in
          let with_last s := set_segments (removelast b.(segments) ++ [s]) b in
          if negb ok then (handleWriteError o (with_last seg'), false)
          else
            let b := with_last (touch now seg') in
            (set_stats (set_bytes (b.(stats).(BytesUsed) + size + 8) b.(stats)) b, true)
      end.

Lemma Append_push o now env b : env ≠ [] →
  Append o now env b = let '(b', ok) := push o now env b in
    if ok then let b' := enforceMaxAge now (enforceMaxSize now b') in (set_stats (set_full false b'.(stats)) b', true) else (b', false).
Proof.
  intros Hne. unfold Append, push. destruct env as [|e env]; [done|].
  destruct (ensure_segment o now b) as [b1 [|]]; cbn [negb]; [|done].
  destruct (roll o now b1 _) as [b2 [|]]; cbn [negb]; [|done]. destruct (last (segments b2)) as [seg|]; [|done].
  destruct (Segment_Append o seg (e :: env)) as [seg' [|]]; done.
Qed.

(** Nothing was added and nothing was lost. *)
Record kept (b b' : Buffer) : Prop := {
  ke_inv : inv b';
  ke_unread : unread b' = unread b;
  ke_unacked : unacked b' = unacked b;
  ke_pos : ∀ p, pos_ok p b → unacked_segs p b = unread_segs b → pos_ok p b' ∧ unacked_segs p b' = unread_segs b';
  ke_caught_up : caught_up b → caught_up b';
  ke_acked : acked_pos b' = acked_pos b;
  ke_file : b'.(ackedFile) = b.(ackedFile);
  ke_opts : b'.(MaxSize) = b.(MaxSize) ∧ b'.(MaxAge) = b.(MaxAge);
  ke_dropped : dropped_total b' = dropped_total b;
}.

Lemma extended_kept b b' : inv b → inv b' → extended b b' → kept b b'.
Proof.
  intros Hi Hi' He. destruct (extended_queues b b' Hi He) as [Hu Ha]. destruct He as (k & Eu & Ep & _ & E1 & E2 & E3 & E4 & E5 & _).
  split; try done.
  - intros p Hp E. destruct (Ep p Hp) as [Hp' ->]. split; [done|]. by rewrite Eu, E.
  - unfold caught_up. rewrite E1, Eu. destruct (Ep _ (inv_acked _ Hi)) as [_ ->]. intros H. apply Forall2_app; [done|].
    apply Forall2_replicate. done.
Qed.

Lemma grown_suffix r l1 l1' l2 l2' : grown r l1 l1' → grown r l2 l2' → Forall2 suffix l1 l2 → Forall2 suffix l1' l2'.
Proof.
  intros (i1 & x1 & -> & ->) (i2 & x2 & -> & ->) H.
  assert (length i1 = length i2) as Hl. { apply Forall2_length in H. rewrite !length_app in H. cbn in H. lia. }
  apply Forall2_app_inv in H as [H1 H2]; [|done]. apply Forall2_cons in H2 as [H2 _].
  apply Forall2_app; [done|]. constructor; [|done]. destruct H2 as [z ->]. exists z. by rewrite app_assoc.
Qed.

Lemma removelast_snoc {A} (l : list A) x : removelast (l ++ [x]) = l.
Proof. apply removelast_last. Qed.

(** The last segment, written to or not. *)
Lemma write_last_ok o now env b l seg : inv b → record_ok env → b.(segments) = l ++ [seg] →
  let '(seg', ok) := Segment_Append o seg env in
  if ok then pushed now env b (set_stats (set_bytes (b.(stats).(BytesUsed) + Z.of_nat (length env) + 8) b.(stats)) (set_segments (l ++ [touch now seg']) b))
  else kept b (handleWriteError o (set_segments (l ++ [seg']) b)).
Proof.
  intros Hi Henv El.
  assert (seg_ok seg) as Hseg. { apply (proj1 (Forall_forall _ _) (inv_segs _ Hi)). rewrite El. set_solver. }
  pose proof (Segment_Append_ok o seg env Hseg Henv) as Hs. destruct (Segment_Append o seg env) as [seg' [|]]; cbn [fst snd] in Hs.
  - destruct Hs as (Hok & Hid & _ & Hrec & Hsz & Hc).
    assert (seg_ok (touch now seg')) as Hok' by exact Hok. assert (records (touch now seg') = records seg ++ [env]) as Hrec' by exact Hrec.
    set (st := set_bytes (BytesUsed (stats b) + Z.of_nat (length env) + 8) (stats b)).
    assert (BytesUsed st = BytesUsed (stats b) + fileSize (touch now seg') - fileSize seg) as Hst by (cbn; lia).
    pose proof (replace_last_inv b l seg (touch now seg') [env] st Hi El Hok' Hid Hrec' Hc Hst) as Hinv.
    pose proof (replace_last_pos b l seg (touch now seg') [env] st Hi El Hok' Hid Hrec' Hc Hst) as Hpos.
    pose proof (λ p H, replace_last_unacked b l seg (touch now seg') [env] st Hi El Hok' Hid Hrec' Hc Hst p H env eq_refl) as Hua.
    pose proof (replace_last_unread b l seg (touch now seg') [env] st Hi El Hid Hrec' Hc Hst env eq_refl) as Hur.
    split; try done.
    + by apply grown_concat.
    + exact (grown_concat _ _ _ (Hua _ (inv_acked _ Hi))).
    + intros p Hp E. split; [by apply Hpos|].
      destruct (Hua p Hp) as (i & x & E1 & ->).
      destruct Hur as (i' & x' & E2 & ->).
      rewrite E1, E2 in E. apply app_inj_tail in E as [-> ->]. done.
    + exact (grown_suffix env _ _ _ _ Hur (Hua _ (inv_acked _ Hi))).
    + intros s. cbn [segments set_stats set_segments]. rewrite El. destruct l; cbn; [intros [= <-]; by left|by right].
  - destruct Hs as (Hok & Hid & _ & Hrec & Hsz & Hc). rewrite <- (app_nil_r (records seg)) in Hrec.
    assert (recordCount seg' = recordCount seg + Z.of_nat (@length (list byte) [])) as Hc' by (cbn; lia).
    pose proof (replace_last_inv b l seg seg' [] b.(stats) Hi El Hok Hid Hrec Hc' ltac:(lia)) as Hinv.
    destruct (replace_last_same b l seg seg' [] b.(stats) El Hid Hrec eq_refl) as [Hua Hur].
    pose proof (replace_last_pos b l seg seg' [] b.(stats) Hi El Hok Hid Hrec Hc' ltac:(lia)) as Hpos.
    change (set_stats (stats b) (set_segments (l ++ [seg']) b)) with (set_segments (l ++ [seg']) b) in *.
    destruct (handleWriteError_ok o _ Hinv) as [Hinv' He].
    destruct (extended_kept _ _ Hinv Hinv' He) as [? Eu Ea Ep Ec E1 E2 E3 E4].
    split; try done.
    + rewrite Eu. unfold unread. by rewrite Hur.
    + rewrite Ea. unfold unacked. by rewrite Hua.
    + intros p Hp E. apply Ep; [by apply Hpos|]. by rewrite Hua, Hur.
    + intros H. apply Ec. unfold caught_up. rewrite Hua, Hur. exact H.
Qed.

Lemma kept_trans b1 b2 b3 : kept b1 b2 → kept b2 b3 → kept b1 b3.
Proof.
  intros [? U1 A1 P1 C1 E1 F1 [M1 N1] D1] [I2 U2 A2 P2 C2 E2 F2 [M2 N2] D2]. split; try congruence; [|auto|split; congruence].
  intros p Hp E. destruct (P1 p Hp E). by apply P2.
Qed.

Lemma kept_pushed now env b1 b2 b3 : kept b1 b2 → b2.(stats).(BytesUsed) = b1.(stats).(BytesUsed) →
  (∀ s, head b2.(segments) = Some s → s.(lastWrite) = now ∨ head b1.(segments) = Some s) → pushed now env b2 b3 → pushed now env b1 b3.
Proof.
  intros [? U1 A1 P1 C1 E1 F1 [M1 N1] D1] B1 Hh [I2 U2 A2 P2 C2 E2 F2 [M2 N2] D2 B2 Hh2]. split; try congruence; [|auto|split; congruence|].
  - intros p Hp E. destruct (P1 p Hp E). by apply P2.
  - intros s Hs. destruct (Hh2 s Hs); auto.
Qed.

Lemma made_head now b b' : made now b b' → ∀ s, head b'.(segments) = Some s → s.(lastWrite) = now ∨ head b.(segments) = Some s.
Proof.
  intros (l & -> & Hl) s. destruct (segments b) as [|s0 l0]; cbn; [|by right]. destruct Hl; [done|]. intros [= <-]. by left.
Qed.

Lemma push_ok o now env b : inv b → record_ok env → b.(nextSegID) + 2 < 2 ^ 32 →
  if (push o now env b).2 then pushed now env b (push o now env b).1 else kept b (push o now env b).1.
Proof.
  intros Hi Henv Hn. unfold push.
  destruct (ensure_segment_ok o now b Hi) as (Hi1 & He1 & Hn1 & Hok1 & _); [lia|].
  destruct (ensure_segment o now b) as [b1 ok1]. cbn [fst snd] in *.
  pose proof (extended_kept b b1 Hi Hi1 He1) as Hk1. destruct ok1; cbn [negb]; [|done].
  destruct (Hok1 eq_refl) as [Hm1 Hne1].
  destruct (roll_ok o now b1 (Z.of_nat (length env)) Hi1) as (Hi2 & He2 & Hok2 & _); [lia|done|].
  destruct (roll o now b1 _) as [b2 ok2]. cbn [fst snd] in *.
  pose proof (kept_trans _ _ _ Hk1 (extended_kept b1 b2 Hi1 Hi2 He2)) as Hk2. destruct ok2; cbn [negb]; [|done].
  destruct (Hok2 eq_refl) as [Hm2 Hne2].
  destruct (last (segments b2)) as [seg|] eqn:El; [|by apply last_None in El].
  apply last_Some in El as (l & El).
  pose proof (write_last_ok o now env b2 l seg Hi2 Henv El) as Hw. rewrite El, removelast_snoc.
  destruct (Segment_Append o seg env) as [seg' [|]]; cbn [negb fst snd] in *; [|by eapply kept_trans].
  eapply (kept_pushed _ _ b b2); [done| | |exact Hw].
  - destruct He1 as (? & _ & _ & _ & _ & _ & _ & _ & _ & HB1). destruct He2 as (? & _ & _ & _ & _ & _ & _ & _ & _ & HB2). congruence.
  - apply made_head. by eapply made_trans.
Qed.

Lemma concat_take_drop {A} k (l : list (list A)) : concat l = concat (take k l) ++ concat (drop k l).
Proof. by rewrite <- concat_app, take_drop. Qed.

(** Trimming loses records from the front of the queues only, and counts them. *)
Lemma trimmed_queues b b' : trimmed b b' →
  (∃ lost, unacked b = lost ++ unacked b' ∧ dropped_total b' = dropped_total b + Z.of_nat (length lost)) ∧
  (∃ gone, unread b = gone ++ unread b').
Proof.
  intros Ht. destruct (trimmed_unacked_segs b b' (acked_pos b') Ht) as (k & Ea & Eu).
  destruct Ht as (_ & _ & _ & _ & Hp & _ & _ & _ & _ & _ & Hc).
  assert (unacked b = concat (take k (unacked_segs (acked_pos b) b)) ++ unacked b') as E.
  { unfold unacked. rewrite Ea, Hp. apply concat_take_drop. }
  split.
  - eexists. split; [exact E|]. rewrite E, length_app in Hc. lia.
  - eexists. unfold unread. rewrite Eu. apply concat_take_drop.
Qed.

Lemma retention_ok now b : inv b → let b' := enforceMaxAge now (enforceMaxSize now b) in inv b' ∧ trimmed b b' ∧
  (0 ≤ b.(MaxSize) → b'.(stats).(BytesUsed) ≤ b.(MaxSize)).
Proof.
  intros Hi. destruct (enforceMaxSize_trimmed now b Hi) as [Hi1 Ht1]. destruct (enforceMaxAge_trimmed now _ Hi1) as [Hi2 Ht2].
  split_and!; [done|by eapply trimmed_trans|]. intros HM. etrans; [by apply (trimmed_bytes _ _ Hi1 Hi2)|]. by apply enforceMaxSize_bound.
Qed.

Lemma retention_idle now b : b.(stats).(BytesUsed) ≤ b.(MaxSize) → (∀ s, head b.(segments) = Some s → Sub now s.(lastWrite) ≤ b.(MaxAge)) →
  enforceMaxAge now (enforceMaxSize now b) = b.
Proof.
  intros Hb Ha. assert (enforceMaxSize now b = b) as ->.
  { apply remove_while_stop. unfold over_size. by rewrite (proj2 (Z.ltb_ge _ _)). }
  apply remove_while_stop. unfold over_age. destruct (segments b) as [|s l]; [done|]. apply Z.ltb_ge. by apply Ha.
Qed.

Lemma set_full_same b v : inv b → kept b (set_stats (set_full v b.(stats)) b).
Proof.
  intros Hi. split; try done; [by apply inv_set_stats|]. intros p Hp E. split; [|done]. by eapply pos_ok_same; [..|apply Hp].
Qed.

(** ** Next *)

Lemma set_cursor_same b : set_cursor b.(nextReadSeg) b.(nextReadOff) b = b.
Proof. by destruct b. Qed.

Lemma inv_set_cursor i o s b : inv b → b.(segments) !! i = Some s → boundary o (records s) → inv (set_cursor i o b).
Proof.
  intros [H1 H2 H3 H4 H5 H6 H7 H8] Hs Ho. split; cbn; try done; [right; by exists s|]. by eapply pos_ok_same; [..|apply H7].
Qed.

Lemma from_cursor_next i o rss rs : rss !! i = Some rs → after o rs = [] → (S i < length rss)%nat → from_cursor i o rss = from_cursor (S i) 0 rss.
Proof.
  revert i. induction rss as [|x rss IH]; intros [|i] Hi Ha Hl; cbn in *; simplify_eq; [|f_equal; apply IH; [done..|lia]].
  rewrite Ha. f_equal. destruct rss as [|y rss]; [done|]. cbn. by rewrite after_0.
Qed.

Lemma Forall2_suffix_refl (l : list (list (list byte))) : Forall2 suffix l l.
Proof. induction l; constructor; [by exists []|done]. Qed.

Lemma from_cursor_suffix i o o' rss rs : rss !! i = Some rs → after o' rs `suffix_of` after o rs →
  Forall2 suffix (from_cursor i o' rss) (from_cursor i o rss).
Proof.
  revert i. induction rss as [|x rss IH]; intros [|i] Hi Hs; cbn in *; simplify_eq; constructor; auto using Forall2_suffix_refl.
Qed.

Lemma from_cursor_at i o rss rs : rss !! i = Some rs → from_cursor i o rss !! i = Some (after o rs).
Proof. revert i. induction rss as [|x rss IH]; intros [|i] Hi; cbn in *; simplify_eq; [done|by apply IH]. Qed.

(** The cursor is on a record, at the end of a segment, or there is no segment. *)
Lemma next_scan_spec (R : Reads) fuel now b : no_short R → inv b → (length b.(segments) - b.(nextReadSeg) < fuel)%nat →
  ∃ i o, (next_scan fuel now b).2 = set_cursor i o b ∧ inv (set_cursor i o b) ∧
  (R ≠ reads_fine ∧ (∃ err, (next_scan fuel now b).1 = NextError err) ∧ unread_segs (set_cursor i o b) = unread_segs b ∨
  match unread b with
  | [] => (next_scan fuel now b).1 = NextEOF ∧ unread_segs (set_cursor i o b) = unread_segs b
  | r :: rest => ∃ s, b.(segments) !! i = Some s ∧ (next_scan fuel now b).1 = NextRecord r s.(id) o ∧
                      unread (set_cursor i o b) = rest ∧ boundary o (records s) ∧
                      Forall2 suffix (unread_segs (set_cursor i o b)) (unread_segs b) ∧
                      unread_segs b !! i = Some (r :: after o (records s))
  end).
Proof.
  intros HR. revert b. induction fuel as [|fuel IH]; intros b Hi Hf; [lia|]. cbn [next_scan].
  destruct (inv_cursor _ Hi) as [(Es & Ei & Eo)|(s & Hs & j & Hj & Eo)].
  { exists (nextReadSeg b), (nextReadOff b). rewrite set_cursor_same. split; [by rewrite Es, Ei|]. split; [done|]. right.
    unfold unread, unread_segs. rewrite Es, Ei. cbn. done. }
  rewrite Hs. assert (seg_ok s) as Hok by (eapply Forall_lookup_1; [apply inv_segs, Hi|done]).
  assert ((records <$> segments b) !! nextReadSeg b = Some (records s)) as Hr by (by rewrite list_lookup_fmap, Hs).
  destruct (records s !! j) as [r|] eqn:Er.
  - pose proof (lookup_lt_Some _ _ _ Er) as Hlt. pose proof (off_S _ _ _ Er) as HS.
    rewrite Eo. destruct (ReadAt_record_or s (records s) Hok R j r HR Er) as [-> |(Hne & err & ->)].
    2: { exists (nextReadSeg b), (nextReadOff b). rewrite set_cursor_same. split; [done|]. split; [done|]. left. eauto. }
    rewrite (proj2 (Z.ltb_lt _ _)) by lia.
    assert (unread b = r :: after (off (records s) (S j)) (records s) ++ concat (drop (S (nextReadSeg b)) (records <$> segments b))) as ->.
    { unfold unread, unread_segs. rewrite (from_cursor_lookup _ _ _ _ Hr), Eo, !after_off by lia. by rewrite (drop_S _ _ _ Er). }
    eexists _, _. split; [done|]. assert (boundary (off (records s) (S j)) (records s)) as Hb by (by exists (S j)).
    split; [by eapply inv_set_cursor|]. right. exists s. split_and!; try done.
    + unfold unread, unread_segs. cbn. by apply from_cursor_lookup.
    + unfold unread_segs. cbn. eapply from_cursor_suffix; [done|]. rewrite Eo, !after_off by lia.
      rewrite (drop_S _ _ _ Er). by apply suffix_cons_r.
    + unfold unread_segs. rewrite (from_cursor_at _ _ _ _ Hr), Eo, !after_off by lia. by rewrite (drop_S _ _ _ Er).
  - apply lookup_ge_None in Er. assert (j = length (records s)) as -> by lia.
    assert (after (nextReadOff b) (records s) = []) as Hnil by (rewrite Eo, after_off, drop_ge; done).
    rewrite Eo. destruct (ReadAt_end_or s (records s) Hok R HR) as [-> |(Hne & err & ->)].
    2: { exists (nextReadSeg b), (nextReadOff b). rewrite set_cursor_same. split; [done|]. split; [done|]. left. eauto. }
    rewrite Z.ltb_irrefl.
    destruct (_ <? _)%nat eqn:El; [apply Nat.ltb_lt in El|apply Nat.ltb_ge in El].
    + destruct (lookup_lt_is_Some_2 (segments b) (S (nextReadSeg b))) as [s' Hs']; [lia|].
      assert (unread_segs (set_cursor (S (nextReadSeg b)) 0 b) = unread_segs b) as Hu.
      { unfold unread_segs. cbn [segments set_cursor nextReadSeg nextReadOff]. symmetry. eapply from_cursor_next; [done|done|]. rewrite length_fmap. lia. }
      destruct (IH (set_cursor (S (nextReadSeg b)) 0 b)) as (i & o & E & Hi' & Hm);
        [eapply inv_set_cursor; [done|exact Hs'|apply boundary_0]|cbn; lia|].
      unfold unread in Hm at 1. rewrite Hu in Hm. by exists i, o.
    + exists (nextReadSeg b), (nextReadOff b). rewrite set_cursor_same. split; [done|]. split; [done|]. right.
      assert (unread b = []) as ->; [|done]. unfold unread, unread_segs. rewrite (from_cursor_lookup _ _ _ _ Hr), Hnil.
      rewrite drop_ge; [done|]. rewrite length_fmap. lia.
Qed.

(** ** Positions and the cursor *)

Lemma unacked_of_gt p s : p.1 < s.(id) → unacked_of p s = records s.
Proof. intros H. unfold unacked_of. rewrite (proj2 (Z.ltb_ge _ _)), (proj2 (Z.ltb_lt _ _)) by lia. done. Qed.

Lemma unacked_of_lt p s : s.(id) < p.1 → unacked_of p s = [].
Proof. intros H. unfold unacked_of. by rewrite (proj2 (Z.ltb_lt _ _)). Qed.

Lemma unacked_of_eq p s : s.(id) = p.1 → unacked_of p s = after p.2 (records s).
Proof. intros H. unfold unacked_of. by rewrite H, !Z.ltb_irrefl. Qed.

Lemma unacked_of_all_gt p l : Forall (λ s, p.1 < s.(id)) l → unacked_of p <$> l = records <$> l.
Proof. induction 1 as [|s l Hs _ IH]; cbn; [done|]. by rewrite IH, unacked_of_gt. Qed.

(** A position in the segment of the cursor, at the offset of the cursor. *)
Lemma unacked_at_cursor segs i s o : StronglySorted (λ s t, s.(id) < t.(id)) segs → segs !! i = Some s →
  unacked_of (s.(id), o) <$> segs = from_cursor i o (records <$> segs).
Proof.
  intros Hsort. revert i. induction Hsort as [|x l Hl IH Hx]; intros [|i] Hi; cbn in *; simplify_eq.
  - rewrite unacked_of_eq by done. cbn. f_equal. apply unacked_of_all_gt. done.
  - rewrite unacked_of_lt; [f_equal; by apply IH|]. cbn. exact (proj1 (Forall_forall _ _) Hx s (list_elem_of_lookup_2 _ _ _ Hi)).
Qed.

Lemma find_after_spec segs b : StronglySorted (λ s t, s.(id) < t.(id)) segs →
  (∃ s, last segs = Some s ∧ b.(ackedSegID) ≤ s.(id)) → ∀ i,
  ∃ k o s, find_after segs i b = set_cursor (i + k) o b ∧ segs !! k = Some s ∧
    unacked_of (acked_pos b) <$> segs = from_cursor k o (records <$> segs) ∧ (o = 0 ∨ s.(id) = b.(ackedSegID) ∧ o = b.(ackedOff)).
Proof.
  intros Hsort. induction Hsort as [|x l Hl IH Hx]; intros (t & Ht & Hle) i; [done|]. cbn [find_after].
  destruct (id x <? ackedSegID b) eqn:E1; zbool.
  - destruct IH with (i := S i) as (k & o & s & Ef & Hk & Eu & Ho).
    { destruct l; [cbn in Ht; simplify_eq; lia|]. exists t. done. }
    exists (S k), o, s. split_and!; [|done| |done].
    + rewrite Ef. f_equal. lia.
    + cbn. rewrite unacked_of_lt by done. by rewrite Eu.
  - assert (Forall (λ s, ackedSegID b < id s) l) as Hgt by (eapply Forall_impl; [exact Hx|]; cbn; lia).
    destruct (id x =? ackedSegID b) eqn:E2; zbool.
    + exists 0%nat, (ackedOff b), x. rewrite Nat.add_0_r. split_and!; [done|done| |by right]. cbn.
      rewrite unacked_of_eq by done. cbn. f_equal. by apply unacked_of_all_gt.
    + exists 0%nat, 0, x. rewrite Nat.add_0_r. split_and!; [done|done| |by left]. cbn.
      rewrite unacked_of_gt, after_0 by (cbn; lia). f_equal. by apply unacked_of_all_gt.
Qed.

(** Reading starts just after the checkpoint. *)
Lemma findSegmentAfterAcked_spec b : inv b → b.(nextReadSeg) = 0%nat → b.(nextReadOff) = 0 →
  ∃ i o, findSegmentAfterAcked b = set_cursor i o b ∧ inv (set_cursor i o b) ∧ unread_segs (set_cursor i o b) = unacked_segs (acked_pos b) b.
Proof.
  intros Hi H0 Ho0. unfold findSegmentAfterAcked. destruct (segments b) as [|s0 l] eqn:Es.
  { exists 0%nat, 0. rewrite <- H0, <- Ho0 at 1 2. cbn. rewrite <- H0, <- Ho0, set_cursor_same.
    unfold unread_segs, unacked_segs. rewrite Es. split; [done|]. split; [done|]. by destruct (nextReadSeg b). }
  rewrite <- Es. destruct (find_after_spec (segments b) b (inv_sorted _ Hi)) with (i := 0%nat) as (k & o & s & E & Hk & Eu & Ho).
  { destruct (last (segments b)) as [t|] eqn:El; [|apply last_None in El; congruence]. exists t. split; [done|].
    by apply (pos_last _ _ (inv_acked _ Hi)). }
  exists k, o. split; [done|]. split; [|unfold unacked_segs; by rewrite Eu].
  eapply inv_set_cursor; [done|done|]. destruct Ho as [-> |[Hid ->]]; [apply boundary_0|].
  apply (pos_boundary _ _ (inv_acked _ Hi)); [by eapply list_elem_of_lookup_2|done].
Qed.

Lemma inv_cursor_start b : inv b → inv (set_cursor 0 0 b).
Proof.
  intros [H1 H2 H3 H4 H5 H6 H7 H8]. split; cbn; try done; [|by eapply pos_ok_same; [..|apply H7]].
  destruct (segments b) as [|s l]; [by left|right]. exists s. split; [done|apply boundary_0].
Qed.

(** After a rewind the reader is at the checkpoint. *)
Lemma Rewind_spec b : inv b → ∃ i o, Rewind b = set_cursor i o b ∧ inv (Rewind b) ∧ unread_segs (Rewind b) = unacked_segs (acked_pos b) b.
Proof.
  intros Hi. unfold Rewind. destruct (findSegmentAfterAcked_spec (set_cursor 0 0 b)) as (i & o & E & H1 & H2); [by apply inv_cursor_start|done|done|].
  exists i, o. rewrite E. done.
Qed.

(** ** Acknowledging *)

Lemma inv_set_acked p b : inv b → pos_ok p b → b.(ackedSegID) ≤ p.1 → inv (set_acked p.1 p.2 b).
Proof.
  intros [H1 H2 H3 H4 H5 H6 H7 H8] Hp Hle. split; cbn; try done.
  - replace (acked_pos (set_acked p.1 p.2 b)) with p by (by destruct p). by eapply pos_ok_same; [..|exact Hp].
  - eapply Forall_impl; [exact H8|]. cbn. intros s H ?. apply H. lia.
Qed.

Lemma remove_while_silent (R : Reads) fuel cond now b : (remove_while fuel cond "" now b).(stats).(SamplesDropped) = b.(stats).(SamplesDropped).
Proof.
  revert b. induction fuel as [|fuel IH]; intros b; cbn [remove_while]; [done|]. destruct (cond b); [|done]. rewrite IH.
  unfold removeOldestSegment. destruct (segments b); [done|]. rewrite decide_True by done. cbn. by destruct (nextReadSeg b).
Qed.

Lemma saveAckedPosition_kept ok b : inv b → let b' := (saveAckedPosition ok b).1 in
  inv b' ∧ unread_segs b' = unread_segs b ∧ unacked b' = unacked b ∧ acked_pos b' = acked_pos b ∧ segments b' = segments b ∧ nextSegID b' = nextSegID b ∧
  dropped_total b' = dropped_total b.
Proof.
  intros Hi. unfold saveAckedPosition. destruct ok; [|done]. cbn [fst]. split_and!; try done.
  destruct Hi as [? ? ? ? ? ? H7 ?]. split; cbn; try done. by eapply pos_ok_same; [..|apply H7].
Qed.

(** The ack of the record the reader has just passed. *)
Lemma ackFunc_spec ok now p b : inv b → pos_ok p b → b.(ackedSegID) ≤ p.1 → unacked_segs p b = unread_segs b →
  let b' := (ackFunc ok now p.1 p.2 b).1 in
  inv b' ∧ acked_pos b' = p ∧ unacked b' = unread b ∧ unread_segs b' = unacked_segs p b' ∧ dropped_total b' = dropped_total b ∧
  (ackFunc ok now p.1 p.2 b).2 = ok ∧ (ok = true → b'.(ackedFile) = Some (PutUint32 p.1 ++ PutUint64 p.2)).
Proof.
  intros Hi Hp Hle Htok. unfold ackFunc. pose proof (inv_set_acked p b Hi Hp Hle) as Hi1.
  assert (acked_pos (set_acked p.1 p.2 b) = p) as Ep by (by destruct p).
  destruct (dropAcked_trimmed now _ Hi1) as [Hi2 Ht2]. pose proof (trimmed_queues _ _ Ht2) as [(lost & Hlost & Hd) _].
  destruct (trimmed_unacked_segs _ _ p Ht2) as (k & Ea2 & Eu2).
  assert (dropped_total (dropAckedSegments now (set_acked p.1 p.2 b)) = dropped_total b) as Hd'.
  { unfold dropped_total, dropAckedSegments. by rewrite remove_while_silent. }
  change (dropped_total (set_acked p.1 p.2 b)) with (dropped_total b) in Hd.
  assert (lost = []) as -> by (destruct lost; [done|cbn [length] in Hd; lia]).
  assert (acked_pos (dropAckedSegments now (set_acked p.1 p.2 b)) = p) as Ep2.
  { destruct Ht2 as (_ & _ & _ & _ & E & _). by rewrite E. }
  destruct (saveAckedPosition_kept ok _ Hi2) as (Hi3 & Hu3 & Ha3 & Hp3 & Hs3 & _ & Hd3).
  split_and!; [done|by rewrite Hp3| | |by rewrite Hd3|by destruct ok|].
  - rewrite Ha3. rewrite app_nil_l in Hlost. rewrite <- Hlost. unfold unacked, unread. rewrite Ep. f_equal. exact Htok.
  - rewrite Hu3. unfold unacked_segs at 1. rewrite Hs3. change (unacked_of p <$> segments ?x) with (unacked_segs p x).
    rewrite Eu2, Ea2. f_equal. symmetry. exact Htok.
  - intros ->. cbn [saveAckedPosition fst ackedFile set_ackedFile].
    pose proof (f_equal fst Ep2) as E1. pose proof (f_equal snd Ep2) as E2. cbn [fst snd acked_pos] in E1, E2. by rewrite E1, E2.
Qed.

(** ** Open *)

(** A segment file as a crash may leave it: its records, then bytes that hold none. *)
Record img := mkImg { im_id : Z; im_records : list (list byte); im_tail : list byte; im_time : Time }.

Definition img_file (e : img) : seg_file := (e.(im_id), enc e.(im_records) ++ e.(im_tail), e.(im_time)).

(** A directory and the checkpoint [p] read from it: files in the order of their
    numbers, and the checkpoint on a record of its file or past the end of it. *)
Record dir_ok (p : Z * Z) (imgs : list img) : Prop := {
  dir_sorted : StronglySorted (λ e f, e.(im_id) < f.(im_id)) imgs;
  dir_ids : Forall (λ e, 0 ≤ e.(im_id) < 2 ^ 32 - 1) imgs;
  dir_records : Forall (λ e, Forall record_ok e.(im_records) ∧ junk e.(im_tail)) imgs;
  dir_point : 0 ≤ p.1 < 2 ^ 32 - 1;
  dir_boundary : Forall (λ e, e.(im_id) = p.1 →
    boundary p.2 e.(im_records) ∨ (e.(im_tail) = [] ∧ Z.of_nat (length (enc e.(im_records))) < p.2)) imgs;
}.

(** The records of the directory that the checkpoint has not passed. A checkpoint
    behind every file has passed nothing. *)
Definition img_unacked (p : Z * Z) (e : img) : list (list byte) :=
  if e.(im_id) <? p.1 then [] else if p.1 <? e.(im_id) then e.(im_records) else after p.2 e.(im_records).

Definition recoverable (p : Z * Z) (imgs : list img) : list (list byte) :=
  concat (if forallb (λ e, e.(im_id) <? p.1) imgs then im_records <$> imgs else img_unacked p <$> imgs).

(** A segment opened from a file. *)
Definition loaded (p : Z * Z) (s : Segment) (e : img) : Prop :=
  seg_holds s e.(im_records) ∧ s.(id) = e.(im_id) ∧ (e.(im_id) ≠ p.1 → s.(recordCount) = Z.of_nat (length e.(im_records))).

Lemma openSegment_min f m keep : Z.of_nat (length f) < keep → openSegment f m keep = openSegment f m (Z.of_nat (length f)).
Proof. intros H. unfold openSegment. by rewrite Z.min_r, Z.min_id by lia. Qed.

Lemma holds_enc rs s : Forall record_ok rs → s.(file) = enc rs → s.(fileSize) = Z.of_nat (length (enc rs)) → seg_holds s rs.
Proof. intros H1 H2 H3. split; [done|]. split; [done|]. exists []. split; [apply torn_nil|]. by rewrite H2, app_nil_r. Qed.

(** What opening a file finds, for each place the checkpoint may be at. *)
Lemma openSegment_img e m keep : Forall record_ok e.(im_records) → junk e.(im_tail) →
  boundary keep e.(im_records) ∨ (e.(im_tail) = [] ∧ Z.of_nat (length (enc e.(im_records))) < keep) →
  let s := (openSegment (enc e.(im_records) ++ e.(im_tail)) m keep).1 in
  s.(file) = enc e.(im_records) ∧ s.(fileSize) = Z.of_nat (length (enc e.(im_records))) ∧
  (keep = 0 → s.(recordCount) = Z.of_nat (length e.(im_records))).
Proof.
  intros Hr Hj [(j & Hle & ->)|[Ht Hlt]].
  - assert (enc (im_records e) ++ im_tail e = enc (take j (im_records e)) ++ enc (drop j (im_records e)) ++ im_tail e) as ->.
    { by rewrite app_assoc, <- enc_app, take_drop. }
    unfold off. rewrite openSegment_records; [|done|by apply Forall_drop]. cbn [fst file fileSize recordCount].
    rewrite <- enc_app, take_drop. split_and!; [done|done|]. intros E.
    assert (take j (im_records e) = []) as E'.
    { pose proof (length_enc_ge (take j (im_records e))). destruct (take j (im_records e)); [done|]. cbn [length] in *. lia. }
    rewrite <- (take_drop j (im_records e)) at 2. by rewrite E'.
  - rewrite Ht, app_nil_r. rewrite openSegment_min by done.
    pose proof (openSegment_records (enc (im_records e)) [] [] m) as E. rewrite app_nil_r in E. cbn in E.
    rewrite !app_nil_r in E. rewrite E; [|apply junk_short; cbn; lia|constructor]. cbn. split_and!; [done|done|lia].
Qed.

Lemma load_segment_spec p now e b : acked_pos b = p → Forall record_ok e.(im_records) → junk e.(im_tail) →
  (e.(im_id) = p.1 → boundary p.2 e.(im_records) ∨ (e.(im_tail) = [] ∧ Z.of_nat (length (enc e.(im_records))) < p.2)) →
  0 ≤ e.(im_id) < 2 ^ 32 - 1 →
  let b' := load_segment now b (img_file e) in
  ∃ s, loaded p s e ∧ b'.(segments) = b.(segments) ++ [s] ∧ acked_pos b' = p ∧ b'.(nextSegID) = Z.max b.(nextSegID) (e.(im_id) + 1) ∧
  b'.(nextReadSeg) = b.(nextReadSeg) ∧ b'.(nextReadOff) = b.(nextReadOff) ∧ b'.(stats).(SamplesDropped) = b.(stats).(SamplesDropped) ∧
  b'.(MaxSize) = b.(MaxSize) ∧ b'.(MaxAge) = b.(MaxAge) ∧ b'.(ackedFile) = b.(ackedFile).
Proof.
  intros Hp Hr Hj Hb Hid. unfold load_segment, img_file. cbn [fst snd].
  set (keep := if im_id e =? ackedSegID b then ackedOff b else 0).
  assert (boundary keep (im_records e) ∨ im_tail e = [] ∧ Z.of_nat (length (enc (im_records e))) < keep) as Hk.
  { unfold keep. destruct (im_id e =? ackedSegID b) eqn:E; zbool; [|left; apply boundary_0]. subst p. by apply Hb. }
  pose proof (openSegment_img e (im_time e) keep Hr Hj Hk) as (Hf & Hs & Hc).
  destruct (openSegment _ _ keep) as [s cut]. cbn [fst] in *.
  eexists (mkSegment (file s) (im_id e) (createdAt s) (lastWrite s) (segmentSize (MaxSize b)) (recordCount s) (fileSize s)). split.
  - split; [apply holds_enc; done|]. split; [done|]. intros Hne. apply Hc. unfold keep. subst p.
    by rewrite (proj2 (Z.eqb_neq _ _)).
  - cbn [set_segments]. destruct (nextSegID b <=? im_id e) eqn:En, (0 <? cut); cbn; zbool;
      rewrite ?uwrap32_id by (unfold is_uint32; lia); split_and!; try done; lia.
Qed.

(** What loading leaves alone. *)
Definition same_rest (b b' : Buffer) : Prop :=
  acked_pos b' = acked_pos b ∧ b'.(nextReadSeg) = b.(nextReadSeg) ∧ b'.(nextReadOff) = b.(nextReadOff) ∧
  b'.(stats).(SamplesDropped) = b.(stats).(SamplesDropped) ∧ b'.(MaxSize) = b.(MaxSize) ∧ b'.(MaxAge) = b.(MaxAge) ∧ b'.(ackedFile) = b.(ackedFile).

Lemma load_all p now imgs : ∀ b, acked_pos b = p →
  Forall (λ e, Forall record_ok e.(im_records) ∧ junk e.(im_tail)) imgs → Forall (λ e, 0 ≤ e.(im_id) < 2 ^ 32 - 1) imgs →
  Forall (λ e, e.(im_id) = p.1 → boundary p.2 e.(im_records) ∨ (e.(im_tail) = [] ∧ Z.of_nat (length (enc e.(im_records))) < p.2)) imgs →
  0 ≤ b.(nextSegID) < 2 ^ 32 →
  let b' := foldl (load_segment now) b (img_file <$> imgs) in
  ∃ segs, Forall2 (loaded p) segs imgs ∧ b'.(segments) = b.(segments) ++ segs ∧ same_rest b b' ∧
  b.(nextSegID) ≤ b'.(nextSegID) < 2 ^ 32 ∧ Forall (λ e, e.(im_id) < b'.(nextSegID)) imgs.
Proof.
  induction imgs as [|e imgs IH]; intros b Hp H1 H2 H3 Hn; cbn [fmap list_fmap foldl].
  { exists []. rewrite app_nil_r. split_and!; try done; first [by constructor | lia]. }
  apply Forall_cons in H1 as [[Hr Hj] H1]. apply Forall_cons in H2 as [Hid H2]. apply Forall_cons in H3 as [Hb H3].
  destruct (load_segment_spec p now e b Hp Hr Hj Hb Hid) as (s & Hs & Es & Ep & En & E1 & E2 & E3 & E4 & E5 & E6).
  destruct (IH (load_segment now b (img_file e)) Ep H1 H2 H3) as (segs & Hsegs & Es' & (R1 & R2 & R3 & R4 & R5 & R6 & R7) & Hn' & Hall); [lia|].
  exists (s :: segs). split_and!.
  - by constructor.
  - by rewrite Es', Es, <- app_assoc.
  - split_and!; congruence.
  - lia.
  - lia.
  - constructor; [lia|done].
Qed.

Lemma set_acked_same b : set_acked b.(ackedSegID) b.(ackedOff) b = b.
Proof. by destruct b. Qed.

Lemma clamp_idle segs b : Forall (λ s, s.(id) = b.(ackedSegID) → b.(ackedOff) ≤ s.(fileSize)) segs → foldl clamp_step b segs = b.
Proof.
  induction 1 as [|s segs Hs _ IH]; cbn; [done|]. assert (clamp_step b s = b) as ->; [|done].
  unfold clamp_step. destruct (id s =? ackedSegID b) eqn:E; [|done]. zbool. by rewrite (proj2 (Z.ltb_ge _ _)) by auto.
Qed.

Lemma clamp_spec segs b : StronglySorted (λ s t, s.(id) < t.(id)) segs →
  foldl clamp_step b segs = b ∧ Forall (λ s, s.(id) = b.(ackedSegID) → b.(ackedOff) ≤ s.(fileSize)) segs ∨
  ∃ s, s ∈ segs ∧ s.(id) = b.(ackedSegID) ∧ s.(fileSize) < b.(ackedOff) ∧ foldl clamp_step b segs = set_acked b.(ackedSegID) s.(fileSize) b.
Proof.
  induction 1 as [|x segs Hsegs IH Hx]; [left; by split|]. cbn [foldl].
  destruct (id x =? ackedSegID b) eqn:E; zbool.
  - assert (∀ o, Forall (λ s, id s = ackedSegID b → o ≤ fileSize s) segs) as Hno.
    { intros o. eapply Forall_impl; [exact Hx|]. cbn. lia. }
    unfold clamp_step at 2 4. rewrite (proj2 (Z.eqb_eq _ _) E). cbn [andb]. destruct (fileSize x <? ackedOff b) eqn:E2; zbool.
    + right. exists x. split_and!; [by left|done|done|]. apply clamp_idle. apply Hno.
    + left. split; [apply clamp_idle, Hno|]. by constructor.
  - assert (clamp_step b x = b) as ->. { unfold clamp_step. by rewrite (proj2 (Z.eqb_neq _ _) E). }
    destruct IH as [[E1 H1]|(s & Hs & H)]; [left|right].
    + split; [done|]. by constructor.
    + exists s. split; [by right|done].
Qed.

Lemma after_past rs o : Z.of_nat (length (enc rs)) < o → after o rs = [].
Proof.
  revert o. induction rs as [|r rs IH]; intros o Ho; [done|]. cbn [after].
  rewrite enc_cons, length_app, length_encode_record in Ho. rewrite (proj2 (Z.leb_gt _ _)) by lia. apply IH. lia.
Qed.

Section settle.
Context (p : Z * Z) (imgs : list img) (segs : list Segment) (Hdir : dir_ok p imgs) (Hload : Forall2 (loaded p) segs imgs).

Lemma loaded_ids : id <$> segs = im_id <$> imgs.
Proof. clear Hdir. revert Hload. induction 1 as [|s e l l' (_ & H & _) _ IH]; [done|]. by rewrite !fmap_cons, H, IH. Qed.

Lemma loaded_records : records <$> segs = im_records <$> imgs.
Proof. clear Hdir. revert Hload. induction 1 as [|s e l l' (H & _ & _) _ IH]; [done|]. by rewrite !fmap_cons, (records_holds _ _ H), IH. Qed.

Lemma loaded_unacked : unacked_of p <$> segs = img_unacked p <$> imgs.
Proof.
  clear Hdir. revert Hload. induction 1 as [|s e l l' (H & H' & _) _ IH]; [done|].
  rewrite !fmap_cons, IH. f_equal. unfold unacked_of, img_unacked. by rewrite H', (records_holds _ _ H).
Qed.

Lemma sorted_by_id {A} (f : A → Z) l : StronglySorted (λ x y, f x < f y) l ↔ StronglySorted Z.lt (f <$> l).
Proof.
  induction l as [|x l IH]; [split; constructor|]. rewrite fmap_cons. split; intros H; inversion H as [|? ? H1 H2]; subst.
  - constructor; [by apply IH|]. by apply Forall_fmap.
  - constructor; [by apply IH|]. exact (proj1 (Forall_fmap f _ l) H2).
Qed.

Lemma loaded_sorted : StronglySorted (λ s t, s.(id) < t.(id)) segs.
Proof. apply (sorted_by_id id). rewrite loaded_ids. apply (sorted_by_id im_id), Hdir. Qed.

Lemma loaded_ok : Forall seg_ok segs.
Proof. clear Hdir. revert Hload. induction 1 as [|s e l l' (H & _) _ IH]; constructor; [by eapply seg_ok_holds|done]. Qed.

Lemma loaded_elem s : s ∈ segs → ∃ e, e ∈ imgs ∧ loaded p s e.
Proof.
  intros (i & Hi)%list_elem_of_lookup. destruct (Forall2_lookup_l _ _ _ _ _ Hload Hi) as (e & He & H).
  exists e. split; [by eapply list_elem_of_lookup_2|done].
Qed.

Lemma last_above : (∃ s, last segs = Some s ∧ p.1 ≤ s.(id)) ∨ Forall (λ s, s.(id) < p.1) segs.
Proof.
  pose proof loaded_sorted as Hsort. destruct (last segs) as [s|] eqn:El; [|apply last_None in El as ->; by right].
  destruct (decide (p.1 ≤ id s)); [left; by exists s|right]. apply last_Some in El as (l & ->).
  apply Forall_app. split; [|constructor; [lia|done]]. clear -Hsort n.
  induction l as [|x l IH]; [constructor|]. cbn in Hsort. inversion Hsort as [|? ? H1 H2]; subst. constructor; [|by apply IH].
  apply Forall_app in H2 as [_ H2]. apply Forall_cons in H2 as [H2 _]. cbn in H2. lia.
Qed.
End settle.

Lemma sorted_unique l : StronglySorted (λ s t, s.(id) < t.(id)) l → ∀ s t, s ∈ l → t ∈ l → s.(id) = t.(id) → s = t.
Proof.
  induction 1 as [|x l Hl IH Hx]; intros s t Hs Ht E; [by apply not_elem_of_nil in Hs|].
  rewrite Forall_forall in Hx. apply elem_of_cons in Hs as [-> |Hs], Ht as [-> |Ht]; [done| | |by apply IH].
  - specialize (Hx t Ht). cbn in Hx. lia.
  - specialize (Hx s Hs). cbn in Hx. lia.
Qed.

Section settle_ok.
Context (p : Z * Z) (imgs : list img) (b : Buffer) (Hdir : dir_ok p imgs) (Hload : Forall2 (loaded p) b.(segments) imgs).
Context (Hp : acked_pos b = p) (Hc : b.(nextReadSeg) = 0%nat ∧ b.(nextReadOff) = 0).
Context (Hbytes : b.(stats).(BytesUsed) = zsum (fileSize <$> b.(segments))).
Context (Hids : Forall (λ s, s.(id) < b.(nextSegID)) b.(segments)) (Hnext : 0 ≤ b.(nextSegID) < 2 ^ 32).

Lemma loaded_nonneg s : s ∈ b.(segments) → 0 ≤ s.(id) < b.(nextSegID).
Proof.
  intros Hs. destruct (loaded_elem p imgs _ Hload s Hs) as (e & He & _ & Hid & _).
  pose proof (proj1 (Forall_forall _ _) (dir_ids _ _ Hdir) e He). pose proof (proj1 (Forall_forall _ _) Hids s Hs). cbn in *. lia.
Qed.

(** A checkpoint the segments agree with makes the invariant. *)
Lemma settled_inv q : pos_ok q b → (∀ s, s ∈ b.(segments) → q.1 < s.(id) → s.(id) ≠ p.1) → inv (set_acked q.1 q.2 b).
Proof.
  intros Hq Hne. split; cbn; try done.
  - by eapply loaded_ok.
  - by eapply loaded_sorted.
  - apply Forall_forall. apply loaded_nonneg.
  - destruct Hc as [-> ->]. destruct (segments b) as [|s l]; [by left|right]. exists s. split; [done|apply boundary_0].
  - replace (acked_pos (set_acked q.1 q.2 b)) with q by (by destruct q). by eapply pos_ok_same; [..|exact Hq].
  - apply Forall_forall. intros s Hs Hlt. destruct (loaded_elem p imgs _ Hload s Hs) as (e & _ & Hh & Hid & Hcount).
    rewrite (records_holds _ _ Hh). apply Hcount. rewrite <- Hid. by apply Hne.
Qed.

(** Every file is below the checkpoint: reading starts at the first of them. *)
Lemma settle_below : Forall (λ s, s.(id) < p.1) b.(segments) →
  ∃ q, clamp_checkpoint (settle_checkpoint b) = set_acked q.1 q.2 b ∧ pos_ok q b ∧ (∀ s, s ∈ b.(segments) → q.1 < s.(id) → s.(id) ≠ p.1) ∧
    unacked_of q <$> b.(segments) = records <$> b.(segments).
Proof.
  intros Hall. pose proof (loaded_sorted p imgs _ Hdir Hload) as Hsort. pose proof loaded_nonneg as Hnn.
  pose proof (loaded_elem p imgs _ Hload) as Helem. clear Hload.
  destruct (segments b) as [|s0 l] eqn:Es.
  { exists (0, 0). unfold settle_checkpoint, clamp_checkpoint. rewrite Es. cbn. rewrite Es.
    split_and!; [done| |intros s Hs; by apply not_elem_of_nil in Hs|done].
    split; cbn; rewrite ?Es; [|done|intros s Hs; by apply not_elem_of_nil in Hs].
    destruct (decide (nextSegID b = 0)); [right|left]; lia. }
  inversion Hsort as [|? ? Hsort' Hgt]; subst. pose proof (Hnn s0 ltac:(left)).
  exists (id s0, 0). split; [|split; [|split]].
  - destruct (last (segments b)) as [t|] eqn:El; [|apply last_None in El; congruence]. rewrite Es in El.
    assert (settle_checkpoint b = set_acked (id s0) 0 b) as ->.
    { unfold settle_checkpoint. rewrite Es, El. rewrite (proj2 (Z.ltb_lt _ _)); [done|].
      apply (proj1 (Forall_forall _ _) Hall). apply last_Some in El as (l' & ->). set_solver. }
    apply clamp_idle. cbn [segments set_acked]. rewrite Es. apply Forall_forall. intros s Hs _. cbn.
    destruct (Helem s) as (e & _ & (_ & -> & _) & _); [done|]. lia.
  - split; cbn.
    + left. lia.
    + intros t. rewrite Es. intros Ht. apply last_Some in Ht as ([|s1 l'] & Ht); cbn in Ht; simplify_eq; [lia|].
      apply Z.lt_le_incl. apply (proj1 (Forall_forall _ _) Hgt). set_solver.
    + intros t Ht Hid. apply boundary_0.
  - intros s Hs _. pose proof (proj1 (Forall_forall _ _) Hall s Hs). cbn in *. lia.
  - cbn. rewrite unacked_of_eq, after_0 by done. f_equal. by apply unacked_of_all_gt.
Qed.

(** The checkpoint is on a file, or between two. *)
Lemma settle_inside t : last b.(segments) = Some t → p.1 ≤ t.(id) →
  ∃ q, clamp_checkpoint (settle_checkpoint b) = set_acked q.1 q.2 b ∧ pos_ok q b ∧ (∀ s, s ∈ b.(segments) → q.1 < s.(id) → s.(id) ≠ p.1) ∧
    unacked_of q <$> b.(segments) = unacked_of p <$> b.(segments).
Proof.
  intros Hl Hle. pose proof (dir_point _ _ Hdir) as Hp0.
  assert (t ∈ b.(segments)) as Ht by (apply last_Some in Hl as (l & ->); set_solver).
  pose proof (loaded_nonneg t Ht). pose proof (f_equal fst Hp) as Hp1. pose proof (f_equal snd Hp) as Hp2. cbn [acked_pos fst snd] in Hp1, Hp2.
  assert (settle_checkpoint b = b) as ->.
  { unfold settle_checkpoint. rewrite Hl, Hp1. by rewrite (proj2 (Z.ltb_ge _ _)). }
  assert (∀ o, (∀ s, s ∈ b.(segments) → s.(id) = p.1 → boundary o (records s)) → pos_ok (p.1, o) b) as Hpos.
  { intros o Ho. split; cbn; [left; lia|intros s; rewrite Hl; by intros [= <-]|done]. }
  assert (∀ s, s ∈ b.(segments) → s.(id) = p.1 → boundary p.2 (records s) ∨ s.(fileSize) < p.2) as Hb.
  { intros s Hs Hid. destruct (loaded_elem p imgs _ Hload s Hs) as (e & He & Hh & Hid' & _).
    destruct (proj1 (Forall_forall _ _) (dir_boundary _ _ Hdir) e He) as [Hb|[_ Hb]]; [congruence| |].
    - left. by rewrite (records_holds _ _ Hh).
    - right. destruct Hh as (_ & -> & _). done. }
  pose proof (loaded_sorted p imgs _ Hdir Hload) as Hsort.
  destruct (clamp_spec (segments b) b Hsort) as [[E Hall]|(s & Hs & Hid & Hlt & E)]; rewrite ?Hp1, ?Hp2 in E; [rewrite Hp1, Hp2 in Hall|rewrite Hp1 in Hid; rewrite Hp2 in Hlt].
  - exists p. unfold clamp_checkpoint. rewrite E. split_and!; [by rewrite <- Hp1, <- Hp2, set_acked_same| |lia|done].
    destruct p as [p1 p2]. cbn [fst snd] in *. apply Hpos. intros s Hs Hid. destruct (Hb s Hs Hid); [done|].
    pose proof (proj1 (Forall_forall _ _) Hall s Hs Hid). cbn in *. lia.
  - assert (∀ s', s' ∈ segments b → id s' = p.1 → s' = s) as Huniq by (intros s' Hs' Hid'; by apply (sorted_unique _ Hsort); [..|congruence]).
    exists (p.1, fileSize s). unfold clamp_checkpoint. rewrite E. split_and!; [done| |cbn; lia|].
    + apply Hpos. intros s' Hs' Hid'. rewrite (Huniq s' Hs' Hid').
      destruct (loaded_elem p imgs _ Hload s Hs) as (e & _ & Hh & _). rewrite (records_holds _ _ Hh). destruct Hh as (_ & -> & _).
      exists (length (im_records e)). by rewrite off_end.
    + apply list_fmap_ext. intros i s' Hi. apply list_elem_of_lookup_2 in Hi. destruct (decide (id s' = p.1)) as [Hid'|]; [|unfold unacked_of; cbn; destruct (id s' <? p.1) eqn:?, (p.1 <? id s') eqn:?; zbool; try done; lia].
      rewrite !unacked_of_eq by done. rewrite (Huniq s' Hi Hid'). cbn [snd].
      destruct (loaded_elem p imgs _ Hload s Hs) as (e & _ & Hh & _). rewrite (records_holds _ _ Hh). destruct Hh as (_ & Hf & _).
      rewrite Hf in *. rewrite (after_past _ p.2) by done. by rewrite <- off_end, after_off, drop_all.
Qed.

Lemma settle_ok : ∃ q, clamp_checkpoint (settle_checkpoint b) = set_acked q.1 q.2 b ∧ inv (set_acked q.1 q.2 b) ∧
  unacked (set_acked q.1 q.2 b) = recoverable p imgs.
Proof.
  assert (∀ q, unacked (set_acked q.1 q.2 b) = concat (unacked_of q <$> segments b)) as Hu by (by intros []).
  destruct (last_above p imgs _ Hdir Hload) as [(t & Hl & Hle)|Hall].
  - destruct (settle_inside t Hl Hle) as (q & E & Hq & Hne & Hun). exists q. split_and!; [done|by apply settled_inv|].
    rewrite Hu, Hun, (loaded_unacked p imgs) by done. unfold recoverable. destruct (forallb _ imgs) eqn:Ef; [|done].
    assert (t ∈ segments b) as Ht by (apply last_Some in Hl as (l & ->); set_solver).
    destruct (loaded_elem p imgs _ Hload t Ht) as (e & He & _ & Hid & _).
    rewrite forallb_forall in Ef. specialize (Ef e (proj1 (list_elem_of_In _ _) He)). zbool. lia.
  - destruct (settle_below Hall) as (q & E & Hq & Hne & Hun). exists q. split_and!; [done|by apply settled_inv|].
    rewrite Hu, Hun, (loaded_records p imgs) by done. unfold recoverable. assert (forallb (λ e, im_id e <? p.1) imgs = true) as ->; [|done].
    apply forallb_forall. intros e He%list_elem_of_In. apply Z.ltb_lt.
    assert (im_id e ∈ id <$> segments b) as Hin by (rewrite (loaded_ids p imgs) by done; by apply list_elem_of_fmap_2).
    apply list_elem_of_fmap in Hin as (s & -> & Hs). exact (proj1 (Forall_forall _ _) Hall s Hs).
Qed.
End settle_ok.

Lemma Open_ok MS MA imgs acked save_ok remove_ok now p : p = default (0, 0) (loadAckedPosition acked) → dir_ok p imgs →
  save_ok || remove_ok = true → 0 ≤ MS →
  ∃ b lost, Open reads_fine reads_fine true MS MA (img_file <$> imgs) acked save_ok remove_ok now = Some b ∧ inv b ∧ unread_segs b = unacked_segs (acked_pos b) b ∧
    recoverable p imgs = lost ++ unacked b ∧ dropped_total b = Z.of_nat (length lost) ∧
    b.(stats).(BytesUsed) ≤ b.(MaxSize) ∧ b.(MaxSize) = (if MS =? 0 then 512 * MiB else MS) ∧ b.(MaxAge) = (if MA =? 0 then 6 * Hour else MA) ∧
    (imgs = [] → b.(segments) = []) ∧ (imgs = [] → acked = None → b.(nextSegID) = 0).
Proof.
  intros Ep Hdir Hok HMS. unfold Open.
  set (MS' := if MS =? 0 then 512 * MiB else MS). set (MA' := if MA =? 0 then 6 * Hour else MA).
  assert (0 ≤ MS') as HMS' by (unfold MS', MiB; destruct (MS =? 0); lia).
  destruct p as [p1 p2]. rewrite <- Ep.
  set (b0 := mkBuffer MS' MA' [] 0 0 0 p1 p2 (mkStats 0 ∅ 0 0 false None None) acked).
  destruct (load_all (p1, p2) now imgs b0) as (segs & Hload & Es & (R1 & R2 & R3 & R4 & R5 & R6 & R7) & Hn & Hall);
    [done|apply Hdir|apply Hdir|apply Hdir|cbn; lia|]. cbn [b0 segments app] in Es.
  set (b1 := foldl (load_segment now) b0 (img_file <$> imgs)) in *.
  set (b2 := if bool_decide (is_Some (loadAckedPosition acked)) && (nextSegID (recalculateStats b1) <=? ackedSegID (recalculateStats b1))
             then set_nextSegID (uwrap32 (ackedSegID (recalculateStats b1) + 1)) (recalculateStats b1) else recalculateStats b1).
  pose proof (dir_point _ _ Hdir) as Hp0. cbn in Hp0. pose proof (f_equal fst R1) as Ra. cbn in Ra.
  assert (b2.(segments) = segs ∧ acked_pos b2 = (p1, p2) ∧ b2.(nextReadSeg) = 0%nat ∧ b2.(nextReadOff) = 0 ∧
    b2.(stats).(BytesUsed) = zsum (fileSize <$> segs) ∧ b2.(stats).(SamplesDropped) = ∅ ∧ b2.(MaxSize) = MS' ∧ b2.(MaxAge) = MA' ∧
    nextSegID b1 ≤ nextSegID b2 < 2 ^ 32 ∧ (acked = None → nextSegID b2 = nextSegID b1)) as (S1 & S2 & S3 & S4 & S5 & S6 & S7 & S8 & S9 & S10).
  { unfold b2. cbn [recalculateStats set_stats nextSegID ackedSegID]. rewrite Ra, uwrap32_id by (unfold is_uint32; lia).
    destruct (bool_decide (is_Some (loadAckedPosition acked))) eqn:E1, (nextSegID b1 <=? p1) eqn:E2;
      cbn; zbool; rewrite ?Es; split_and!; try done; try lia. intros ->. done. }
  assert (Forall (λ s, id s < nextSegID b2) (segments b2)) as Hids.
  { rewrite S1. apply Forall_forall. intros s Hs. destruct (loaded_elem _ _ _ Hload s Hs) as (e & He & _ & -> & _).
    pose proof (proj1 (Forall_forall _ _) Hall e He). cbn in *. lia. }
  destruct (settle_ok (p1, p2) imgs b2 Hdir ltac:(by rewrite S1) S2 (conj S3 S4) ltac:(by rewrite S5, S1) Hids ltac:(cbn in Hn; lia))
    as (q & Eq & Hi3 & Hu3).
  fold b2. rewrite Eq.
  assert (∃ f, (if negb ((ackedSegID (set_acked q.1 q.2 b2) =? p1) && (ackedOff (set_acked q.1 q.2 b2) =? p2))
     then let '(b, ok) := saveAckedPosition save_ok (set_acked q.1 q.2 b2) in
          if ok : bool then Some b else if remove_ok then Some (set_ackedFile None b) else None
     else Some (set_acked q.1 q.2 b2)) = Some (set_ackedFile f (set_acked q.1 q.2 b2))) as (f & ->).
  { destruct (negb _); [|by exists (ackedFile b2)].
    unfold saveAckedPosition. destruct save_ok; [by eexists|]. cbn in Hok. rewrite Hok. by eexists. }
  cbn [mbind option_bind]. set (b4 := set_ackedFile f (set_acked q.1 q.2 b2)).
  assert (inv b4) as Hi4. { destruct Hi3 as [? ? ? ? ? ? H7 ?]. split; cbn; try done. by eapply pos_ok_same; [..|apply H7]. }
  destruct (dropAcked_trimmed now b4 Hi4) as [Hi5 Ht5]. destruct (enforceMaxAge_trimmed now _ Hi5) as [Hi6 Ht6].
  destruct (enforceMaxSize_trimmed now _ Hi6) as [Hi7 Ht7]. pose proof (trimmed_trans _ _ _ Ht5 Ht6) as Ht56. pose proof (trimmed_trans _ _ _ Ht56 Ht7) as Ht.
  destruct (trimmed_queues _ _ Ht) as [(lost & El & Ed) _].
  set (b7 := enforceMaxSize now (enforceMaxAge now (dropAckedSegments now b4))) in *.
  destruct (Rewind_spec b7 Hi7) as (i & o & Er & Hir & Hur). exists (Rewind b7), lost.
  split; [done|]. split; [done|]. rewrite Er in *.
  destruct Ht as (k & _ & T1 & _ & T2 & T3 & _ & T4 & T5 & _).
  split_and!.
  - exact Hur.
  - change (unacked (set_cursor i o b7)) with (unacked b7). rewrite <- El. symmetry. exact Hu3.
  - change (dropped_total (set_cursor i o b7)) with (dropped_total b7). rewrite Ed. unfold dropped_total. cbn [b4 set_ackedFile set_acked stats].
    rewrite S6, !lookup_empty. cbn. lia.
  - change (BytesUsed (stats (set_cursor i o b7))) with (BytesUsed (stats b7)). change (MaxSize (set_cursor i o b7)) with (MaxSize b7).
    destruct Ht56 as (? & _ & _ & _ & _ & _ & _ & T56 & _). cbn [b4 set_ackedFile set_acked MaxSize] in T4, T56. rewrite T4.
    rewrite <- T56. apply enforceMaxSize_bound; [done|]. rewrite T56, S7. done.
  - cbn [set_cursor MaxSize]. rewrite T4. exact S7.
  - cbn [set_cursor MaxAge]. rewrite T5. exact S8.
  - intros ->. cbn [set_cursor segments]. rewrite T1. cbn [b4 set_ackedFile set_acked segments]. rewrite S1.
    apply Forall2_nil_inv_r in Hload as ->. by rewrite drop_nil.
  - intros -> Hnone. cbn [set_cursor nextSegID]. rewrite T3. cbn [b4 set_ackedFile set_acked nextSegID]. by rewrite S10.
Qed.

(** ** The buffer as a queue *)

Inductive op :=
| OAppend (R : Reads) (o : io) (now : Time) (env : list byte)
| ONext (R : Reads) (now : Time)
| OAck (R : Reads) (ok : bool) (now : Time) (* of the record [Next] returned last, if it was not acked and not rewound *)
| ORewind.

Inductive output :=
| OutAppend (ok : bool)
| OutNext (r : option (list byte))
| OutError (err : string)
| OutNone.

(** The buffer and the ack function its user holds. *)
Definition client : Type := Buffer * option (Z * Z).

Definition client_step (c : client) (x : op) : client * output :=
  let '(b, tok) := c in
  match x with
  | OAppend R o now env => let '(b, ok) := Append (H := R) o now env b in ((b, tok), OutAppend ok)
  | ONext R now =>
      match Next (H := R) now b with
      | (NextRecord r sid o, b) => ((b, Some (sid, o)), OutNext (Some r))
      | (NextError err, b) => ((b, tok), OutError err)
      | (_, b) => ((b, tok), OutNext None)
      end
  | OAck R ok now =>
      match tok with
      | Some (sid, o) => (((ackFunc (H := R) ok now sid o b).1, None), OutNone)
      | None => (c, OutNone)
      end
  | ORewind => ((Rewind b, None), OutNone)
  end.

(** The specification: the records not yet acknowledged, and the end of that queue
    that is not handed out yet. Retention may take records off the front, and counts
    the unacknowledged ones. *)
Record queue := mkQueue { q_unacked : list (list byte); q_unread : list (list byte); q_token : bool; q_dropped : Z; q_accepted : Z; q_delivered : Z }.

Inductive q_step : queue → op → output → queue → Prop :=
| q_append q R o now env lost gone q' r' :
    q.(q_unacked) ++ [env] = lost ++ q' → q.(q_unread) ++ [env] = gone ++ r' →
    q_step q (OAppend R o now env) (OutAppend true)
      (mkQueue q' r' q.(q_token) (q.(q_dropped) + Z.of_nat (length lost)) (q.(q_accepted) + 1) q.(q_delivered))
| q_append_fails q R o now env : q_step q (OAppend R o now env) (OutAppend false) q
| q_next q R now r rest : q.(q_unread) = r :: rest →
    q_step q (ONext R now) (OutNext (Some r)) (mkQueue q.(q_unacked) rest true q.(q_dropped) q.(q_accepted) q.(q_delivered))
| q_next_none q R now : q.(q_unread) = [] → q_step q (ONext R now) (OutNext None) q
| q_next_error q R now err : R ≠ reads_fine → q_step q (ONext R now) (OutError err) q
| q_ack q R ok now : q.(q_token) = true →
    q_step q (OAck R ok now) OutNone
      (mkQueue q.(q_unread) q.(q_unread) false q.(q_dropped) q.(q_accepted)
         (q.(q_delivered) + Z.of_nat (length q.(q_unacked)) - Z.of_nat (length q.(q_unread))))
| q_ack_none q R ok now : q.(q_token) = false → q_step q (OAck R ok now) OutNone q
| q_rewind q : q_step q ORewind OutNone (mkQueue q.(q_unacked) q.(q_unacked) false q.(q_dropped) q.(q_accepted) q.(q_delivered)).

(** The part of the state that is the queue. *)
Record token_ok (b : Buffer) (p : Z * Z) : Prop := {
  tk_pos : pos_ok p b;
  tk_read : unacked_segs p b = unread_segs b;
  tk_forward : b.(ackedSegID) ≤ p.1;
}.

Record simulates (c : client) (q : queue) : Prop := {
  si_inv : inv c.1;
  si_caught_up : caught_up c.1;
  si_unacked : q.(q_unacked) = unacked c.1;
  si_unread : q.(q_unread) = unread c.1;
  si_dropped : q.(q_dropped) = dropped_total c.1;
  si_has_token : q.(q_token) = bool_decide (is_Some c.2);
  si_token : ∀ p, c.2 = Some p → token_ok c.1 p;
}.

Lemma suffix_concat l1 l2 : Forall2 suffix l1 l2 → (length (concat l1) ≤ length (@concat (list byte) l2))%nat.
Proof. induction 1 as [|x y l1 l2 [z ->] _ IH]; cbn; [done|]. rewrite !length_app. lia. Qed.

Lemma Forall2_suffix_trans l1 l2 l3 : Forall2 suffix l1 l2 → Forall2 suffix l2 l3 → Forall2 (@suffix (list byte)) l1 l3.
Proof.
  intros H. revert l3. induction H as [|x y l1 l2 Hxy _ IH]; intros l3 H3; inversion H3; subst; constructor; [|by apply IH].
  by etrans.
Qed.

Lemma trimmed_token b b' p : trimmed b b' → inv b' → token_ok b p → token_ok b' p.
Proof.
  intros Ht Hi' [Hp Hr Hf]. destruct (trimmed_unacked_segs b b' p Ht) as (k & Ea & Eu).
  destruct Ht as (k' & _ & Hs & _ & Ha & Hn & _). split.
  - eapply pos_ok_same; [..|apply (pos_ok_drop _ _ k' Hp)]; [done|done].
  - by rewrite Ea, Eu, Hr.
  - unfold acked_pos in Ha. injection Ha as -> _. done.
Qed.

Lemma trimmed_kept_token b b' p : kept b b' → token_ok b p → token_ok b' p.
Proof.
  intros Hk [Hp Hr Hf]. destruct (ke_pos _ _ Hk p Hp Hr). split; [done|done|].
  pose proof (ke_acked _ _ Hk) as Ha. unfold acked_pos in Ha. injection Ha as -> _. done.
Qed.

(** A successful append, retention included. *)
Lemma Append_ok_spec o now env b b' : inv b → record_ok env → b.(nextSegID) + 2 < 2 ^ 32 → Append o now env b = (b', true) →
  inv b' ∧ (caught_up b → caught_up b') ∧
  (∃ lost, unacked b ++ [env] = lost ++ unacked b' ∧ dropped_total b' = dropped_total b + Z.of_nat (length lost)) ∧
  (∃ gone, unread b ++ [env] = gone ++ unread b') ∧ (∀ p, token_ok b p → token_ok b' p) ∧
  b'.(MaxSize) = b.(MaxSize) ∧ b'.(MaxAge) = b.(MaxAge) ∧ (0 ≤ b.(MaxSize) → b'.(stats).(BytesUsed) ≤ b.(MaxSize)) ∧
  (b.(stats).(BytesUsed) + Z.of_nat (length env) + 8 ≤ b.(MaxSize) → over_age now b = false → 0 ≤ b.(MaxAge) →
   unacked b' = unacked b ++ [env] ∧ unread b' = unread b ++ [env]).
Proof.
  intros Hi Henv Hn. rewrite Append_push by apply Henv. pose proof (push_ok o now env b Hi Henv Hn) as Hpush.
  destruct (push o now env b) as [b1 [|]]; cbn [fst snd] in Hpush; [|done]. intros [= <-].
  destruct Hpush as [Hi1 Hu1 Ha1 Hp1 Hc1 He1 Hf1 [HM1 HA1] Hd1 Hb1 Hh1].
  destruct (retention_ok now b1 Hi1) as (Hi2 & Ht2 & Hb2). destruct (trimmed_queues _ _ Ht2) as [(lost & El & Ed) (gone & Eg)].
  pose proof (set_full_same _ false Hi2) as Hk.
  assert (∀ p, token_ok b p → token_ok b1 p) as Htok1.
  { intros p [Hp Hr Hfw]. destruct (Hp1 p Hp Hr). split; [done|done|]. unfold acked_pos in He1. by injection He1 as -> _. }
  split_and!.
  - apply Hk.
  - intros H. apply (ke_caught_up _ _ Hk). eapply caught_up_trimmed; [done|]. by apply Hc1.
  - exists lost. rewrite <- Ha1, (ke_unacked _ _ Hk), (ke_dropped _ _ Hk), <- Hd1. done.
  - exists gone. rewrite <- Hu1, (ke_unread _ _ Hk). done.
  - intros p Hp. eapply trimmed_kept_token; [exact Hk|]. eapply trimmed_token; [done|done|]. by apply Htok1.
  - destruct Ht2 as (? & _ & _ & _ & _ & _ & _ & E & _). cbn [set_stats MaxSize]. by rewrite E.
  - destruct Ht2 as (? & _ & _ & _ & _ & _ & _ & _ & E & _). cbn [set_stats MaxAge]. by rewrite E.
  - intros H. cbn [set_stats stats set_full BytesUsed]. rewrite <- HM1. apply Hb2. by rewrite HM1.
  - intros Hroom Hage HA. rewrite (ke_unacked _ _ Hk), (ke_unread _ _ Hk), retention_idle; [done|lia|].
    intros s Hs. destruct (Hh1 s Hs) as [-> |Hh]; [rewrite Sub_diag; lia|].
    unfold over_age in Hage. destruct (segments b); [done|]. injection Hh as ->. zbool. lia.
Qed.

Lemma Append_fail_spec o now env b b' : inv b → record_ok env → b.(nextSegID) + 2 < 2 ^ 32 → Append o now env b = (b', false) → kept b b'.
Proof.
  intros Hi Henv Hn. rewrite Append_push by apply Henv. pose proof (push_ok o now env b Hi Henv Hn) as Hpush.
  destruct (push o now env b) as [b1 [|]]; cbn [fst snd] in Hpush; [done|]. by intros [= <-].
Qed.

Lemma kept_step b b' tok q : kept b b' → simulates (b, tok) q → simulates (b', tok) q.
Proof.
  intros Hk [S1 S2 S3 S4 S5 S6 S7]. cbn in *. split; cbn.
  - apply Hk.
  - by apply Hk.
  - by rewrite (ke_unacked _ _ Hk).
  - by rewrite (ke_unread _ _ Hk).
  - by rewrite (ke_dropped _ _ Hk).
  - done.
  - intros p Hp. eapply trimmed_kept_token; eauto.
Qed.

Lemma sum_S_ge (l : list Segment) : (length l ≤ sum_list (map (λ s, S (length s.(file))) l))%nat.
Proof. induction l as [|s l IH]; cbn; lia. Qed.

Lemma scan_fuel_segments b : (length b.(segments) - b.(nextReadSeg) < scan_fuel b)%nat.
Proof. unfold scan_fuel. pose proof (sum_S_ge (drop (nextReadSeg b) (segments b))) as H. rewrite length_drop in H. lia. Qed.

Lemma sorted_last l t : StronglySorted (λ s t, s.(id) < t.(id)) l → last l = Some t → ∀ s, s ∈ l → s.(id) ≤ t.(id).
Proof.
  induction 1 as [|x l Hl IH Hx]; intros Ht s Hs; [done|].
  destruct l as [|y l]; [cbn in Ht; simplify_eq; apply list_elem_of_singleton in Hs as ->; lia|].
  rewrite last_cons_cons in Ht. apply elem_of_cons in Hs as [-> |Hs]; [|by apply IH].
  apply Z.lt_le_incl, (proj1 (Forall_forall _ _) Hx). apply last_Some in Ht as (l' & ->). set_solver.
Qed.

(** A position in a segment of the buffer. *)
Lemma pos_ok_at b s o : inv b → s ∈ b.(segments) → boundary o (records s) → pos_ok (s.(id), o) b.
Proof.
  intros Hi Hs Ho. split; cbn.
  - left. exact (proj1 (Forall_forall _ _) (inv_ids _ Hi) s Hs).
  - intros t Ht. by eapply sorted_last; [apply inv_sorted, Hi|..].
  - intros t Ht E. by rewrite (sorted_unique _ (inv_sorted _ Hi) t s Ht Hs E).
Qed.

(** A read came back with an error; nothing was passed over. *)
Definition next_fails (R : Reads) (now : Time) (b : Buffer) : Prop := R ≠ reads_fine ∧ ∃ err i o,
  Next (H := R) now b = (NextError err, set_cursor i o b) ∧ inv (set_cursor i o b) ∧ unread_segs (set_cursor i o b) = unread_segs b.

Lemma Next_record (R : Reads) now b r rest : no_short R → inv b → caught_up b → unread b = r :: rest → next_fails R now b ∨
  ∃ i p, Next now b = (NextRecord r p.1 p.2, set_cursor i p.2 b) ∧ inv (set_cursor i p.2 b) ∧ unread (set_cursor i p.2 b) = rest ∧
         caught_up (set_cursor i p.2 b) ∧ token_ok (set_cursor i p.2 b) p.
Proof.
  intros HR Hi Hc Hu. destruct (next_scan_spec R (scan_fuel b) now b HR Hi (scan_fuel_segments b)) as (i & o & E2 & Hi' & [(Hne & (err & E1) & Hs)|Hm]).
  { left. split; [done|]. exists err, i, o. split; [|done]. unfold Next. rewrite <- E1, <- E2. by destruct (next_scan _ _ _). }
  right. unfold Next. rewrite Hu in Hm. destruct Hm as (s & Hs & E1 & Hrest & Hb & Hsuf & Hat). exists i, (id s, o). cbn [fst snd].
  split; [rewrite <- E1, <- E2; by destruct (next_scan _ _ _)|]. split_and!; [done|done| |].
  - unfold caught_up. eapply Forall2_suffix_trans; [exact Hsuf|exact Hc].
  - split.
    + apply pos_ok_at; [done|by eapply list_elem_of_lookup_2|done].
    + apply unacked_at_cursor; [exact (inv_sorted _ Hi)|done].
    + cbn. destruct (Forall2_lookup_l _ _ _ _ _ Hc Hat) as (y & Hy & Hsy). unfold unacked_segs in Hy. rewrite list_lookup_fmap, Hs in Hy.
      injection Hy as <-. destruct (decide (ackedSegID b ≤ id s)); [done|].
      rewrite unacked_of_lt in Hsy by (cbn; lia). by apply suffix_nil_inv in Hsy.
Qed.

Lemma Next_none (R : Reads) now b : no_short R → inv b → unread b = [] → next_fails R now b ∨
  ∃ i o, Next now b = (NextEOF, set_cursor i o b) ∧ inv (set_cursor i o b) ∧ unread_segs (set_cursor i o b) = unread_segs b.
Proof.
  intros HR Hi Hu. destruct (next_scan_spec R (scan_fuel b) now b HR Hi (scan_fuel_segments b)) as (i & o & E2 & Hi' & [(Hne & (err & E1) & Hs)|Hm]).
  { left. split; [done|]. exists err, i, o. split; [|done]. unfold Next. rewrite <- E1, <- E2. by destruct (next_scan _ _ _). }
  right. unfold Next.
  rewrite Hu in Hm. destruct Hm as (E1 & Hsame). exists i, o. split; [rewrite <- E1, <- E2; by destruct (next_scan _ _ _)|done].
Qed.

(** Records of a size the format can hold, and no read that comes back short: [Next] may
    meet other errors, and the reads that count what a segment holds succeed. *)
Definition op_ok (x : op) : Prop :=
  match x with
  | OAppend R _ _ env => R = reads_fine ∧ record_ok env
  | ONext R _ => no_short R
  | OAck R _ _ => R = reads_fine
  | ORewind => True
  end.

Lemma next_fails_step (R : Reads) now b tok q : next_fails R now b → simulates (b, tok) q →
  ∃ q', q_step q (ONext R now) (client_step (b, tok) (ONext R now)).2 q' ∧ simulates (client_step (b, tok) (ONext R now)).1 q'.
Proof.
  intros (Hne & err & i & o & E & Hi & Hsame) [S1 S2 S3 S4 S5 S6 S7]. cbn [client_step]. rewrite E. cbn [fst snd] in *.
  exists q. split; [by constructor|]. split; cbn [fst snd]; auto.
  - unfold caught_up. by rewrite Hsame.
  - rewrite S4. unfold unread. by rewrite Hsame.
  - intros p Hp. destruct (S7 p Hp) as [T1 T2 T3]. split; [by eapply pos_ok_same; [..|exact T1]| |done]. by rewrite Hsame.
Qed.

Lemma client_step_simulates c q x : simulates c q → op_ok x → c.1.(nextSegID) + 2 < 2 ^ 32 →
  ∃ q', q_step q x (client_step c x).2 q' ∧ simulates (client_step c x).1 q'.
Proof.
  destruct c as [b tok]. intros Hsim Hx Hn. pose proof Hsim as [S1 S2 S3 S4 S5 S6 S7]. cbn [fst snd] in *.
  destruct x as [R o now env|R now|R ok now|]; cbn [client_step op_ok] in *; [destruct Hx as [-> Hx]| |subst R|].
  - destruct (Append o now env b) as [b' [|]] eqn:E; cbn [fst snd].
    + destruct (Append_ok_spec o now env b b' S1 Hx Hn E) as (Hi & Hc & (lost & El & Ed) & (gone & Eg) & Htok & _).
      eexists. split; [by apply (q_append q _ o now env lost gone (unacked b') (unread b')); rewrite ?S3, ?S4|].
      split; cbn; auto. lia.
    + exists q. split; [constructor|]. eapply kept_step; [|done]. by eapply Append_fail_spec.
  - destruct (unread b) as [|r rest] eqn:Hu.
    + destruct (Next_none R now b Hx S1 Hu) as [Hf|(i & o & -> & Hi & Hsame)]; [by eapply next_fails_step|]. exists q. split; [constructor; congruence|].
      split; cbn [fst snd]; auto.
      * unfold caught_up. by rewrite Hsame.
      * rewrite S4, <- Hu. unfold unread. by rewrite Hsame.
      * intros p Hp. destruct (S7 p Hp) as [T1 T2 T3]. split; [by eapply pos_ok_same; [..|exact T1]| |done]. by rewrite Hsame.
    + destruct (Next_record R now b r rest Hx S1 S2 Hu) as [Hf|(i & p & -> & Hi & Hrest & Hc & Ht)]; [by eapply next_fails_step|]. eexists. split; [by constructor|].
      cbn [fst snd]. split; cbn; auto. intros p' [= <-]. by destruct p.
  - destruct tok as [[sid o]|]; cbn [fst snd].
    + destruct (S7 _ eq_refl) as [T1 T2 T3].
      destruct (ackFunc_spec ok now (sid, o) b S1 T1 T3 T2) as (Hi & Hp & Hua & Hur & Hd & _). cbn [fst snd] in *.
      eexists. split; [by constructor|]. split; cbn; try done.
      * unfold caught_up. rewrite Hur, Hp. apply Forall2_suffix_refl.
      * by rewrite Hua.
      * rewrite S4, <- Hua. unfold unacked, unread. by rewrite Hur, Hp.
      * by rewrite Hd.
    + exists q. split; [by constructor|done].
  - destruct (Rewind_spec b S1) as (i & o & Er & Hi & Hu). eexists. split; [constructor|]. split; cbn [fst snd]; try done.
    + unfold caught_up. rewrite Hu, Er. apply Forall2_suffix_refl.
    + cbn [q_unacked]. by rewrite S3, Er.
    + cbn [q_unread]. unfold unread. rewrite Hu. exact S3.
    + cbn [q_dropped]. by rewrite S5, Er.
Qed.

(** Numbers of segments: at most two per append. *)
Lemma add_segment_next o now b : 0 ≤ b.(nextSegID) → 0 ≤ (add_segment o now b).1.(nextSegID) ≤ b.(nextSegID) + 1.
Proof.
  intros H. unfold add_segment, handleWriteError. cbn [newSegment].
  assert (0 ≤ uwrap32 (nextSegID b + 1) ≤ nextSegID b + 1).
  { unfold uwrap32. pose proof (Z.mod_pos_bound (nextSegID b + 1) (2 ^ 32) ltac:(lia)). pose proof (Z.mod_le (nextSegID b + 1) (2 ^ 32)). lia. }
  destruct (io_create_ok o), (io_enospc o); done.
Qed.

Lemma ensure_segment_next o now b : 0 ≤ b.(nextSegID) → 0 ≤ (ensure_segment o now b).1.(nextSegID) ≤ b.(nextSegID) + 1.
Proof. intros H. unfold ensure_segment. destruct (segments b); [by apply add_segment_next|cbn; lia]. Qed.

Lemma roll_next o now b n : 0 ≤ b.(nextSegID) → 0 ≤ (roll o now b n).1.(nextSegID) ≤ b.(nextSegID) + 1.
Proof.
  intros H. unfold roll. destruct (last (segments b)); [|cbn; lia]. destruct (_ || _); [|cbn; lia].
  destruct (io_sync_ok o); [by apply add_segment_next|]. unfold handleWriteError. destruct (io_enospc o); cbn; lia.
Qed.

Lemma push_next o now env b : 0 ≤ b.(nextSegID) → (push o now env b).1.(nextSegID) ≤ b.(nextSegID) + 2.
Proof.
  intros H. unfold push. pose proof (ensure_segment_next o now b H). destruct (ensure_segment o now b) as [b1 [|]]; cbn [negb fst] in *; [|lia].
  pose proof (roll_next o now b1 (Z.of_nat (length env)) ltac:(lia)). destruct (roll _ _ _ _) as [b2 [|]]; cbn [negb fst] in *; [|lia].
  destruct (last (segments b2)); [|cbn; lia]. destruct (Segment_Append o _ env) as [sg [|]]; cbn [negb fst]; [cbn; lia|].
  unfold handleWriteError. destruct (io_enospc o); cbn; lia.
Qed.

Lemma Append_next o now env b : inv b → record_ok env → b.(nextSegID) + 2 < 2 ^ 32 → (Append o now env b).1.(nextSegID) ≤ b.(nextSegID) + 2.
Proof.
  intros Hi Henv Hn. pose proof (inv_next _ Hi) as H0. pose proof (push_next o now env b ltac:(lia)) as H.
  rewrite Append_push by apply Henv. pose proof (push_ok o now env b Hi Henv Hn) as Hp.
  destruct (push o now env b) as [b1 [|]]; cbn [fst snd] in *; [|done].
  destruct (retention_ok now b1 (pu_inv _ _ _ _ Hp)) as (_ & (? & _ & _ & _ & _ & E & _) & _). cbn [set_stats nextSegID]. by rewrite E.
Qed.

Lemma client_step_next c q x : simulates c q → op_ok x → c.1.(nextSegID) + 2 < 2 ^ 32 →
  (client_step c x).1.1.(nextSegID) ≤ c.1.(nextSegID) + 2.
Proof.
  destruct c as [b tok]. intros [S1 S2 _ _ _ _ S7] Hx Hn. cbn [fst snd] in *.
  destruct x as [R o now env|R now|R ok now|]; cbn [client_step op_ok] in *; [destruct Hx as [-> Hx]| |subst R|].
  - pose proof (Append_next o now env b S1 Hx Hn). by destruct (Append o now env b).
  - destruct (unread b) as [|r rest] eqn:Hu.
    + destruct (Next_none R now b Hx S1 Hu) as [(_ & err & i & o & -> & _)|(i & o & -> & _)]; cbn; lia.
    + destruct (Next_record R now b r rest Hx S1 S2 Hu) as [(_ & err & i & o & -> & _)|(i & p & -> & _)]; cbn; lia.
  - destruct tok as [[sid o]|]; [|cbn; lia]. cbn [fst]. destruct (S7 _ eq_refl) as [T1 T2 T3]. unfold ackFunc.
    destruct (dropAcked_trimmed now _ (inv_set_acked (sid, o) b S1 T1 T3)) as [Hi (? & _ & _ & _ & _ & E & _)]. cbn [fst snd] in E.
    unfold saveAckedPosition. destruct ok; cbn [fst set_ackedFile nextSegID]; rewrite E; cbn; lia.
  - destruct (Rewind_spec b S1) as (i & o & -> & _). cbn. lia.
Qed.

Definition client_run (c : client) (xs : list op) : client * list output :=
  foldl (λ '(c, outs) x, let '(c, out) := client_step c x in (c, outs ++ [out])) (c, []) xs.

Inductive q_run : queue → list op → list output → queue → Prop :=
| q_done q : q_run q [] [] q
| q_more q xs outs q' x out q'' : q_run q xs outs q' → q_step q' x out q'' → q_run q (xs ++ [x]) (outs ++ [out]) q''.

Lemma client_run_snoc c xs x : client_run c (xs ++ [x]) =
  ((client_step (client_run c xs).1 x).1, (client_run c xs).2 ++ [(client_step (client_run c xs).1 x).2]).
Proof.
  unfold client_run. rewrite foldl_app. cbn [foldl]. destruct (foldl _ _ xs) as [c' outs]. cbn [fst snd]. by destruct (client_step c' x).
Qed.

Definition queue_of (b : Buffer) : queue := mkQueue (unacked b) (unread b) false (dropped_total b) 0 0.

Lemma run_simulates b xs : inv b → caught_up b → Forall op_ok xs → b.(nextSegID) + 2 * Z.of_nat (length xs) + 2 < 2 ^ 32 →
  ∃ q, q_run (queue_of b) xs (client_run (b, None) xs).2 q ∧ simulates (client_run (b, None) xs).1 q ∧
       (client_run (b, None) xs).1.1.(nextSegID) ≤ b.(nextSegID) + 2 * Z.of_nat (length xs).
Proof.
  intros Hi Hc. induction xs as [|x xs IH] using rev_ind; intros Hok Hn.
  { exists (queue_of b). split; [constructor|]. split; [by split|cbn; lia]. }
  apply Forall_app in Hok as [Hok Hx]. apply Forall_cons in Hx as [Hx _]. rewrite length_app in Hn. cbn [length] in Hn.
  destruct (IH Hok) as (q & Hq & Hs & Hid); [lia|]. rewrite client_run_snoc. cbn [fst snd]. rewrite length_app. cbn [length].
  destruct (client_step_simulates _ q x Hs Hx) as (q' & Hstep & Hs'); [lia|].
  pose proof (client_step_next _ q x Hs Hx ltac:(lia)). exists q'. split; [by econstructor|]. split; [done|]. lia.
Qed.

(** ** Next ends *)

(** A read that goes forward had a header to read. *)
Lemma ReadAt_forward (R : Reads) s o env o' : 0 ≤ o → ReadAt s o = inr (env, o') → o < o' → o + 8 ≤ Z.of_nat (length s.(file)).
Proof.
  intros Ho. unfold ReadAt, header_at. destruct (o + 8 <=? _) eqn:E; zbool; [done|].
  destruct (short_read s o); intros [= _ <-]; lia.
Qed.

Definition turns (b : Buffer) : nat :=
  match drop b.(nextReadSeg) b.(segments) with
  | [] => 1
  | s :: l => S (Z.to_nat (Z.of_nat (length s.(file)) - b.(nextReadOff))) + sum_list (map (λ s, S (length s.(file))) l)
  end.

Lemma next_scan_total (R : Reads) fuel now b : 0 ≤ b.(nextReadOff) → (turns b ≤ fuel)%nat → (next_scan fuel now b).1 ≠ NextFuel.
Proof.
  revert b. induction fuel as [|fuel IH]; intros b Ho Hf.
  { unfold turns in Hf. destruct (drop _ _); lia. }
  cbn [next_scan]. destruct (segments b !! nextReadSeg b) as [s|] eqn:Hs; [|done].
  unfold turns in Hf. rewrite (drop_S _ _ _ Hs) in Hf.
  destruct (ReadAt s (nextReadOff b)) as [err|[env o']] eqn:Er; [done|]. pose proof (ReadAt_forward R s _ env o' Ho Er) as Hfw.
  destruct (nextReadOff b <? o') eqn:E; zbool.
  - destruct env as [data|]; [done|]. apply IH; [cbn; lia|]. unfold turns. cbn [set_stats set_cursor nextReadSeg segments nextReadOff].
    rewrite (drop_S _ _ _ Hs). specialize (Hfw E). lia.
  - destruct (_ <? _)%nat eqn:El; [|done]. apply IH; [cbn; lia|]. unfold turns. cbn [set_cursor nextReadSeg segments nextReadOff].
    destruct (drop (S (nextReadSeg b)) (segments b)) as [|s' l] eqn:Ed; [apply Nat.ltb_lt in El; apply (f_equal length) in Ed; rewrite length_drop in Ed; cbn in Ed; lia|]. cbn in Hf. lia.
Qed.

(** [Next] returns, whatever bytes the segment files hold and whichever reads fail: after at most one
    turn per byte and segment it has a record or has found that there is none. *)
Theorem next_returns (R : Reads) now b : 0 ≤ b.(nextReadOff) → (Next now b).1 ≠ NextFuel.
Proof.
  intros Ho. apply next_scan_total; [done|]. unfold turns, scan_fuel. destruct (drop _ _) as [|s l]; [done|].
  change (sum_list (map ?f (s :: l))) with (f s + sum_list (map f l))%nat. cbv beta. lia.
Qed.

(** A segment file cut at any byte is opened to exactly the records that are
    whole before the cut. The bytes behind them are cut off and counted, and every
    recovered record reads back. *)
Theorem torn_file_recovers rs n m : Forall record_ok rs → ∃ k, (k ≤ length rs)%nat ∧ off rs k ≤ Z.of_nat n ∧
  (∀ r, rs !! k = Some r → Z.of_nat n < off rs (S k)) ∧
  let '(s, cut) := openSegment (take n (enc rs)) m 0 in
  records s = take k rs ∧ s.(recordCount) = Z.of_nat k ∧ cut = Z.of_nat (length (take n (enc rs))) - off rs k ∧
  ∀ j r, (j < k)%nat → rs !! j = Some r → ReadAt s (off rs j) = inr (Some r, off rs (S j)).
Proof.
  intros Hrs. destruct (take_enc rs n Hrs) as (k & tail & Hk & Ht & E & H1 & H2). exists k. split_and!; try done.
  pose proof (openSegment_records [] (take k rs) tail m (torn_junk _ Ht) ltac:(by apply Forall_take)) as Eo. cbn [app length] in Eo.
  rewrite E. change (Z.of_nat 0) with 0 in Eo. rewrite Eo. set (s := mkSegment _ _ _ _ _ _ _).
  assert (seg_holds s (take k rs)) as Hs by (apply holds_enc; [by apply Forall_take|done|done]). split_and!.
  - by apply records_holds.
  - cbn. rewrite length_take. lia.
  - rewrite length_app. unfold off. lia.
  - intros j r Hj Hr. rewrite (off_S _ _ _ Hr).
    assert (off rs j = off (take k rs) j) as Ej by (unfold off; by rewrite take_take, Nat.min_l by lia).
    assert (take k rs !! j = Some r) as Hr' by (by rewrite lookup_take_lt).
    rewrite Ej, <- (off_S _ _ _ Hr'). by apply ReadAt_record.
Qed.

(** C2: Opening a directory whose files hold whole records and then any torn or zeroed
    bytes, in the order of their numbers, with a checkpoint that lies at the end of a record
    of its segment, past the end of a segment without such bytes, or behind every file, all
    numbers below 2^32 - 1: when the files can be opened, read and cut, and a corrected
    checkpoint can be written or the old one removed, Open returns a buffer that offers again exactly the records the checkpoint has
    not passed, in order, less the ones retention removes at once, and those are counted as
    dropped. *)
Theorem reopen_recovers MS MA imgs acked save_ok remove_ok now : dir_ok (default (0, 0) (loadAckedPosition acked)) imgs →
  save_ok || remove_ok = true → 0 ≤ MS →
  ∃ b lost, Open reads_fine reads_fine true MS MA (img_file <$> imgs) acked save_ok remove_ok now = Some b ∧ inv b ∧ unread b = unacked b ∧
    recoverable (default (0, 0) (loadAckedPosition acked)) imgs = lost ++ unread b ∧ dropped_total b = Z.of_nat (length lost) ∧
    b.(stats).(BytesUsed) ≤ b.(MaxSize).
Proof.
  intros Hdir Hok HMS. destruct (Open_ok MS MA imgs acked save_ok remove_ok now _ eq_refl Hdir Hok HMS) as (b & lost & E & Hi & Hu & El & Ed & Hb & _).
  exists b, lost. assert (unread b = unacked b) as -> by (unfold unread, unacked; by rewrite Hu). done.
Qed.

(** Append. Without an I/O error it succeeds. A success adds the record at the
    end of both queues, leaves at most MaxSize bytes, removes records from the front
    only, counts the unacknowledged ones it removes, and removes none when there is
    room and nothing is too old. A failure changes neither queue. *)
Theorem append_contract o now env b : inv b → record_ok env → b.(nextSegID) + 2 < 2 ^ 32 → 0 ≤ b.(MaxSize) →
  let '(b', ok) := Append o now env b in
  inv b' ∧ (o = io_fine → ok = true) ∧
  if ok then
    (∃ lost, unacked b ++ [env] = lost ++ unacked b' ∧ dropped_total b' = dropped_total b + Z.of_nat (length lost)) ∧
    (∃ gone, unread b ++ [env] = gone ++ unread b') ∧ b'.(stats).(BytesUsed) ≤ b.(MaxSize) ∧
    (b.(stats).(BytesUsed) + Z.of_nat (length env) + 8 ≤ b.(MaxSize) → over_age now b = false → 0 ≤ b.(MaxAge) →
     unacked b' = unacked b ++ [env] ∧ unread b' = unread b ++ [env])
  else unacked b' = unacked b ∧ unread b' = unread b ∧ dropped_total b' = dropped_total b.
Proof.
  intros Hi Henv Hn HM. destruct (Append o now env b) as [b' ok] eqn:E.
  assert (o = io_fine → ok = true) as Hfine.
  { intros ->. rewrite Append_push in E by apply Henv. unfold push in E.
    destruct (ensure_segment_ok io_fine now b Hi) as (Hi1 & _ & Hn1 & Hok1 & Ht1); [lia|].
    destruct (ensure_segment io_fine now b) as [b1 ok1]. cbn [fst snd] in *. rewrite Ht1 in * by done. cbn [negb] in E.
    destruct (roll_ok io_fine now b1 (Z.of_nat (length env)) Hi1) as (Hi2 & _ & Hok2 & Ht2); [lia|by apply Hok1|].
    destruct (roll io_fine now b1 _) as [b2 ok2]. cbn [fst snd] in *. rewrite Ht2 in * by done. cbn [negb] in E.
    destruct (last (segments b2)) as [seg|] eqn:El; [|apply last_None in El; by destruct (Hok2 eq_refl)].
    unfold Segment_Append in E. cbn [io_fine io_stat_ok io_trunc_ok io_write negb] in E. rewrite andb_false_r in E. cbn in E. congruence. }
  destruct ok.
  - destruct (Append_ok_spec o now env b b' Hi Henv Hn E) as (H1 & _ & H2 & H3 & _ & _ & _ & H4 & H5). split_and!; auto.
  - pose proof (Append_fail_spec o now env b b' Hi Henv Hn E) as [? ? ? ? ? ? ? ? ?]. done.
Qed.

(** C1: The buffer refines a queue. Open a directory as in [reopen_recovers], with files
    that can be opened, read and cut. Over any sequence of appends of records that are not
    empty and below 2^32 - 8 bytes, of reads, of acks of the record read last and of
    rewinds, while the numbers of segments stay below 2^32, with any failing create, sync,
    stat, cut or write in the appends, any failing write of the checkpoint, and any read of
    [Next] that returns an error: what the buffer returns is what the queue returns. Reads
    hand out the appended records in order, an ack removes what was handed out, a rewind
    offers the unacknowledged records again, and only retention removes others, from the
    front, and counts them. Not covered: a read of a segment file that comes back short,
    which the code takes for the end of the file ([Example_.short_read_loses]). *)
Theorem buffer_refines_queue MS MA imgs acked save_ok remove_ok now xs : dir_ok (default (0, 0) (loadAckedPosition acked)) imgs →
  save_ok || remove_ok = true → 0 ≤ MS → Forall op_ok xs → (∀ b, Open reads_fine reads_fine true MS MA (img_file <$> imgs) acked save_ok remove_ok now = Some b →
  b.(nextSegID) + 2 * Z.of_nat (length xs) + 2 < 2 ^ 32) →
  ∃ b q, Open reads_fine reads_fine true MS MA (img_file <$> imgs) acked save_ok remove_ok now = Some b ∧
    q_run (queue_of b) xs (client_run (b, None) xs).2 q ∧
    q.(q_unacked) = unacked (client_run (b, None) xs).1.1 ∧ q.(q_unread) = unread (client_run (b, None) xs).1.1 ∧
    q.(q_dropped) = dropped_total (client_run (b, None) xs).1.1.
Proof.
  intros Hdir Hok HMS Hxs Hn. destruct (Open_ok MS MA imgs acked save_ok remove_ok now _ eq_refl Hdir Hok HMS) as (b & lost & E & Hi & Hu & _).
  assert (caught_up b) as Hc by (unfold caught_up; rewrite Hu; apply Forall2_suffix_refl).
  destruct (run_simulates b xs Hi Hc Hxs (Hn b E)) as (q & Hq & [_ _ S3 S4 S5 _ _] & _). exists b, q. done.
Qed.

Definition accepted (outs : list output) : Z := zsum ((λ o, match o with OutAppend true => 1 | _ => 0 end) <$> outs).

Lemma q_run_counts q xs outs q' : q_run q xs outs q' →
  q'.(q_accepted) = q.(q_accepted) + accepted outs ∧
  q'.(q_accepted) - q'.(q_delivered) - q'.(q_dropped) - Z.of_nat (length q'.(q_unacked)) =
  q.(q_accepted) - q.(q_delivered) - q.(q_dropped) - Z.of_nat (length q.(q_unacked)).
Proof.
  induction 1 as [q|q xs outs q' x out q'' _ [IH1 IH2] Hs]; [cbn; lia|].
  unfold accepted. rewrite fmap_app, zsum_app. fold (accepted outs).
  destruct Hs as [q' R o now env lost gone ua ur E1 E2|q'|q'|q'|q'|q'|q'|q']; cbn in *; try lia.
  apply (f_equal length) in E1. rewrite !length_app in E1. cbn in E1. lia.
Qed.

(** No record is lost unseen. After any history, the records accepted are the
    ones delivered (handed out and acknowledged), the ones still held, and the ones
    counted in SamplesDropped. *)
Theorem every_record_accounted b xs : inv b → caught_up b → Forall op_ok xs → b.(nextSegID) + 2 * Z.of_nat (length xs) + 2 < 2 ^ 32 →
  let '(c, outs) := client_run (b, None) xs in
  ∃ q, q_run (queue_of b) xs outs q ∧ q.(q_unacked) = unacked c.1 ∧
    Z.of_nat (length (unacked b)) + accepted outs =
    q.(q_delivered) + Z.of_nat (length (unacked c.1)) + (dropped_total c.1 - dropped_total b).
Proof.
  intros Hi Hc Hxs Hn. destruct (run_simulates b xs Hi Hc Hxs Hn) as (q & Hq & [_ _ S3 _ S5 _ _] & _).
  destruct (client_run (b, None) xs) as [c outs]. cbn [fst snd] in *. exists q. split; [done|]. split; [done|].
  destruct (q_run_counts _ _ _ _ Hq) as [H1 H2]. cbn in H1, H2. rewrite <- S3. lia.
Qed.

(** ** Examples *)
Module Example_.

Definition fresh : Buffer := mkBuffer 1000 Hour [] 0 0 0 0 0 (mkStats 0 ∅ 0 0 false None None) None.

Lemma fresh_inv : inv fresh.
Proof.
  split; cbn; [apply Forall_nil; done|apply SSorted_nil|apply Forall_nil; done|lia|done|by left| |apply Forall_nil; done]. split; cbn; [by right|done|]. intros s Hs. by apply not_elem_of_nil in Hs.
Qed.

Definition env1 : list byte := [x01; x02].
Definition env2 : list byte := [x03].

Lemma env1_ok : record_ok env1.
Proof. split; [done|]. cbn. lia. Qed.
Lemma env2_ok : record_ok env2.
Proof. split; [done|]. cbn. lia. Qed.

(** Two records and three bytes of a third; the checkpoint is behind the first. *)
Definition imgs : list img := [mkImg 0 [env1; env2] [x05; x00; x00] 0].
Definition checkpoint : option (list byte) := Some (PutUint32 0 ++ PutUint64 10).

Lemma imgs_dir : dir_ok (default (0, 0) (loadAckedPosition checkpoint)) imgs.
Proof.
  assert (default (0, 0) (loadAckedPosition checkpoint) = (0, 10)) as -> by (vm_compute; reflexivity). split.
  - repeat constructor.
  - repeat constructor; cbn; lia.
  - constructor; [|constructor]. split; [|apply junk_short; cbn; lia]. repeat constructor; cbn; (done || lia).
  - cbn. lia.
  - constructor; [|constructor]. intros _. left. exists 1%nat. split; [cbn; lia|]. vm_compute. reflexivity.
Qed.

Definition b_reopened : option Buffer := Open reads_fine reads_fine true 0 0 (img_file <$> imgs) checkpoint true true 0.

Lemma next_returns_witness : (Next 0 fresh).1 ≠ NextFuel.
Proof. apply (next_returns reads_fine 0 fresh). cbn. lia. Defined.

Lemma torn_file_recovers_witness : ∃ k, (k ≤ 2)%nat ∧ records (openSegment (take 15 (enc [env1; env2])) 0 0).1 = take k [env1; env2].
Proof.
  destruct (torn_file_recovers [env1; env2] 15 0) as (k & H1 & _ & _ & H2); [repeat constructor; cbn; (done || lia)|].
  exists k. split; [exact H1|]. destruct (openSegment (take 15 (enc [env1; env2])) 0 0) as [s cut]. cbn [fst]. apply H2.
Defined.

Lemma reopen_recovers_witness : ∃ b, b_reopened = Some b ∧ unread b = [env2].
Proof.
  destruct (reopen_recovers 0 0 imgs checkpoint true true 0 imgs_dir eq_refl ltac:(lia)) as (b & lost & E & _ & _ & Hl & Hd & _).
  exists b. split; [exact E|]. assert (Open reads_fine reads_fine true 0 0 (img_file <$> imgs) checkpoint true true 0 = b_reopened) as E' by reflexivity.
  rewrite E' in E. assert (dropped_total b = 0) as H0. { assert (dropped_total <$> b_reopened = Some 0) as Hz by (vm_compute; reflexivity). rewrite E in Hz. by injection Hz. }
  rewrite H0 in Hd. destruct lost; [|cbn in Hd; lia]. cbn [app] in Hl. rewrite <- Hl. vm_compute. reflexivity.
Defined.

Lemma append_contract_witness : unread (Append io_fine 0 env1 fresh).1 = [env1] ∧ (Append io_fine 0 env1 fresh).2 = true.
Proof.
  pose proof (append_contract io_fine 0 env1 fresh fresh_inv env1_ok ltac:(cbn; lia) ltac:(cbn; lia)) as H.
  destruct (Append io_fine 0 env1 fresh) as [b' ok]. destruct H as (_ & Hok & H). rewrite Hok in * by reflexivity. cbn [fst snd].
  split; [|reflexivity]. destruct H as (_ & _ & _ & H). apply H; [cbn; lia|reflexivity|vm_compute; discriminate].
Defined.

Definition history : list op := [OAppend reads_fine io_fine 0 env1; ONext reads_fine 0; OAppend reads_fine io_fine 0 env2; OAck reads_fine true 0; ONext reads_fine 0; ORewind; ONext reads_fine 0].

Lemma history_ok : Forall op_ok history.
Proof. repeat constructor; cbn; (done || lia || apply reads_fine_no_short). Qed.

Lemma buffer_refines_queue_witness : ∃ b q, b_reopened = Some b ∧ q_run (queue_of b) history (client_run (b, None) history).2 q.
Proof.
  destruct (buffer_refines_queue 0 0 imgs checkpoint true true 0 history imgs_dir eq_refl ltac:(lia) history_ok) as (b & q & E & Hq & _).
  - intros b E. assert (nextSegID <$> b_reopened = Some 1) as H by (vm_compute; reflexivity). unfold b_reopened in H. rewrite E in H.
    injection H as ->. cbn. lia.
  - exists b, q. split; [exact E|exact Hq].
Defined.

Lemma every_record_accounted_witness : ∃ q, q_run (queue_of fresh) history (client_run (fresh, None) history).2 q ∧ q.(q_delivered) = 1.
Proof.
  assert (caught_up fresh) as Hc by constructor.
  pose proof (every_record_accounted fresh history fresh_inv Hc history_ok ltac:(cbn; lia)) as H.
  assert (accepted (client_run (fresh, None) history).2 = 2) as E1 by (vm_compute; reflexivity).
  assert (length (unacked (client_run (fresh, None) history).1.1) = 1%nat) as E2 by (vm_compute; reflexivity).
  assert (dropped_total (client_run (fresh, None) history).1.1 = 0) as E3 by (vm_compute; reflexivity).
  destruct (client_run (fresh, None) history) as [c outs]. cbn [fst snd] in *. destruct H as (q & Hq & _ & H).
  exists q. split; [exact Hq|]. rewrite E1, E2, E3 in H. change (dropped_total fresh) with 0 in H. cbn in H. lia.
Defined.

Example history_outputs : (client_run (fresh, None) history).2 =
  [OutAppend true; OutNext (Some env1); OutAppend true; OutNone; OutNext (Some env2); OutNone; OutNext (Some env2)].
Proof. vm_compute. reflexivity. Qed.

(** Two segments. The read of the first one's header fails: the segment is passed over,
    and the ack of the second one's record removes it. Its record is neither delivered nor
    counted as dropped. *)
Definition short : Reads := ({[(0, 0) := ShortRead]} : gmap (Z * Z) read_fault).
Example short_read_loses :
  let '((b, _), outs) := client_run (fresh, None)
    [OAppend reads_fine io_fine 0 env1; OAppend reads_fine io_fine (20 * Minute) env2; ONext short 0; OAck reads_fine true 0; ORewind; ONext reads_fine 0] in
  outs = [OutAppend true; OutAppend true; OutNext (Some env2); OutNone; OutNone; OutNext None] ∧ dropped_total b = 0.
Proof. vm_compute. done. Qed.

(** Sixteen zero bytes hold no record, but [recordsFrom] counts two. *)
Example zero_headers_counted :
  let s := mkSegment (replicate 16 x00) 0 0 0 0 0 16 in
  recordsFrom s 0 = 2 ∧ ReadAt s 0 = inr (None, 8) ∧ ReadAt s 8 = inr (None, 16) ∧ (openSegment (replicate 16 x00) 0 0).1.(recordCount) = 0.
Proof. vm_compute. done. Qed.
End Example_.
