(* ===== verification/Pusher.v ===== *)
(** * The agent's pusher (internal/agent/pusher.go)

    Delivery of envelopes with retries, from an in-memory queue or from a durable
    one. The network is a script: one [attempt] says how the wait before it ended,
    whether the request could be built, and what came back. The durable queue is an
    interface, [DurableQueue], with the laws its clients rely on; the disk buffer is
    an instance of it. Encoding and decoding an envelope (encoding/json) is the
    interface [Codec]. *)
From S2P Require Import Prelude GoTime GoBytes GoFloat Buffer.

Definition maxPendingEnvelopes : Z := 1024.
Definition maxRetryAfter : Duration := 60 * Second.
Definition pushAttemptTimeout : Duration := 10 * Second.
Definition maxPushAttemptTimeout : Duration := 2 * Minute.

Inductive Health := HealthOK | HealthIncompatible | HealthRevoked | HealthUnauthorized | HealthUnreachable.
#[export] Instance Health_eq_dec : EqDecision Health.
Proof. solve_decision. Defined.

Definition error : Type := string.

(** The texts [lastError] is set to, by their parts. *)
Inductive last_error :=
| NoError
| PushFailed (err : error)
| PushTimedOut (timeout : Duration) (err : error)
| Body (body : string)
| PushReturned (status : Z) (body : string).

Class Codec (envelope : Type) := {
  Marshal : envelope → option (list byte);
  Unmarshal : list byte → option envelope;
}.

Record Pusher (envelope : Type) := mkPusher {
  health : Health;
  lastSuccessfulPush : option Time;
  clockSkew : Duration;
  lastError : last_error;
  stopped : bool;
  attemptTimeout : Duration;
  maxAttemptTimeout : Duration;
  pending : list envelope;
  nAcked : Z;
  nDropped : Z;
  lastDropTotal : Z;
  lastDropAt : Time;
}.
Arguments mkPusher {_}.
Arguments health {_}. Arguments lastSuccessfulPush {_}. Arguments clockSkew {_}. Arguments lastError {_}. Arguments stopped {_}.
Arguments attemptTimeout {_}. Arguments maxAttemptTimeout {_}. Arguments pending {_}. Arguments nAcked {_}. Arguments nDropped {_}.
Arguments lastDropTotal {_}. Arguments lastDropAt {_}.

Section pusher.
Context {envelope : Type}.
Local Notation P := (Pusher envelope).
Implicit Types p : P.

Definition NewPusher : P := mkPusher HealthOK None 0 NoError false pushAttemptTimeout maxPushAttemptTimeout [] 0 0 0 zero_time.

Definition set_health (h : Health) p : P :=
  mkPusher h p.(lastSuccessfulPush) p.(clockSkew) p.(lastError) p.(stopped) p.(attemptTimeout) p.(maxAttemptTimeout) p.(pending) p.(nAcked) p.(nDropped) p.(lastDropTotal) p.(lastDropAt).
Definition set_lastError (e : last_error) p : P :=
  mkPusher p.(health) p.(lastSuccessfulPush) p.(clockSkew) e p.(stopped) p.(attemptTimeout) p.(maxAttemptTimeout) p.(pending) p.(nAcked) p.(nDropped) p.(lastDropTotal) p.(lastDropAt).
Definition set_success (now : Time) (skew : option Duration) p : P :=
  mkPusher HealthOK (Some now) (default p.(clockSkew) skew) p.(lastError) p.(stopped) p.(attemptTimeout) p.(maxAttemptTimeout) p.(pending) p.(nAcked) p.(nDropped) p.(lastDropTotal) p.(lastDropAt).
Definition set_pending (l : list envelope) p : P :=
  mkPusher p.(health) p.(lastSuccessfulPush) p.(clockSkew) p.(lastError) p.(stopped) p.(attemptTimeout) p.(maxAttemptTimeout) l p.(nAcked) p.(nDropped) p.(lastDropTotal) p.(lastDropAt).
(** The two counters are atomic 64-bit integers. *)
Definition add_acked p : P :=
  mkPusher p.(health) p.(lastSuccessfulPush) p.(clockSkew) p.(lastError) p.(stopped) p.(attemptTimeout) p.(maxAttemptTimeout) p.(pending) (p.(nAcked) + 1) p.(nDropped) p.(lastDropTotal) p.(lastDropAt).
Definition add_nDropped (n : Z) p : P :=
  mkPusher p.(health) p.(lastSuccessfulPush) p.(clockSkew) p.(lastError) p.(stopped) p.(attemptTimeout) p.(maxAttemptTimeout) p.(pending) p.(nAcked) (p.(nDropped) + n) p.(lastDropTotal) p.(lastDropAt).
Definition set_drops (total : Z) (at_ : Time) p : P :=
  mkPusher p.(health) p.(lastSuccessfulPush) p.(clockSkew) p.(lastError) p.(stopped) p.(attemptTimeout) p.(maxAttemptTimeout) p.(pending) p.(nAcked) p.(nDropped) total at_.

Definition Stop p : P :=
  mkPusher p.(health) p.(lastSuccessfulPush) p.(clockSkew) p.(lastError) true p.(attemptTimeout) p.(maxAttemptTimeout) p.(pending) p.(nAcked) p.(nDropped) p.(lastDropTotal) p.(lastDropAt).

(** ** Waits *)

(** [math.Pow(2, n)] is exact, and infinite above 2^1023; the minimum with 60 is the
    same in the integers. [jitter] is what [rand.Int63n] returns. *)
Definition backoffDelay (attempt jitter : Z) : Duration :=
  if attempt <=? 0 then 0
  else
    let ceiling := Z.min (2 ^ attempt) 60 * Second in
    ceiling / 2 + jitter.

Fixpoint double_below (n : nat) (d limit : Duration) : Duration :=
  match n with
  | O => d
  | S n => if d <? limit then double_below n (2 * d) limit else d
  end.

Definition attemptTimeoutAfter p (stalls : nat) : Duration :=
  Z.min (double_below stalls p.(attemptTimeout) p.(maxAttemptTimeout)) p.(maxAttemptTimeout).

(** A Retry-After header: what [ParseInt] of the trimmed value and [http.ParseTime]
    of the value make of it. *)
Definition parseRetryAfter (secs : option Z) (at_ : option Time) (now : Time) : Duration :=
  match secs with
  | Some secs => if secs <=? 0 then 0 else if maxRetryAfter / Second <=? secs then maxRetryAfter else secs * Second
  | None =>
      match at_ with
      | Some t => if 0 <? Sub t now then Z.min (Sub t now) maxRetryAfter else 0
      | None => 0
      end
  end.

(** ** One envelope *)

(** [strings.Contains]. *)
Fixpoint contains (sub s : string) : bool :=
  String.prefix sub s || match s with EmptyString => false | String _ s => contains sub s end.

Inductive response :=
| NetError (sent timeout : bool) (err : error)
| Response (status : Z) (skew : option Duration) (body : string) (secs : option Z) (at_ : option Time).

Record attempt := mkAttempt {
  at_jitter : Z;
  at_sleep : option error; (* the context's error, if it ended during the wait *)
  at_build : option error; (* the request cannot be built *)
  at_response : response;
  at_now : Time;
}.

Inductive pushOutcome := pushConsumed | pushRetryLater.

(** What the network saw of one attempt: the wait before it and its own timeout. *)
Definition try_ : Type := Duration * Duration.

(** Whether a reply ends the loop, and the new state; [inr] is the wait to continue
    with. *)
Definition handle_status (status : Z) (skew : option Duration) (body : string) (retryAfter : Duration) (now : Time) p :
    (pushOutcome * P) + Duration :=
  if status =? 202 then inl (pushConsumed, add_acked (set_success now skew p))
  else if status =? 400 then inl (pushConsumed, add_nDropped 1 (set_lastError (Body body) (set_health HealthIncompatible p)))
  else if status =? 401 then
    inl (pushRetryLater, set_lastError (Body body) (set_health (if contains "revoked" body then HealthRevoked else HealthUnauthorized) p))
  else if status =? 413 then inl (pushConsumed, add_nDropped 1 p)
  else if (status =? 408) || (status =? 425) || (status =? 429) then inr retryAfter
  else if (status =? 404) || (status =? 405) then
    inl (pushRetryLater, set_lastError (PushReturned status body) (set_health HealthIncompatible p))
  else if 500 <=? status then inr retryAfter
  else inl (pushConsumed, set_lastError (PushReturned status body) (add_nDropped 1 p)).

(** A server that rejected the agent keeps its own state. *)
Definition note_unreachable (err : error) p : P :=
  if decide (p.(health) = HealthOK ∨ p.(health) = HealthUnreachable)
  then set_lastError (PushFailed err) (set_health HealthUnreachable p) else p.

(** The retry loop from attempt [n]. [None]: the script is over and the loop is not. *)
Fixpoint push_loop (script : list attempt) (n : Z) (wait : Duration) (stalls : nat) p :
    option (pushOutcome * option error) * P * list try_ :=
  match script with
  | [] => (None, p, [])
  | a :: script =>
      let delay := if 0 <? n then Z.max (backoffDelay n a.(at_jitter)) wait else 0 in
      match (if 0 <? n then a.(at_sleep) else None) with
      | Some e => (Some (pushRetryLater, Some e), p, [])
      | None =>
          let timeout := attemptTimeoutAfter p stalls in
          match a.(at_build) with
          | Some e => (Some (pushConsumed, Some e), add_nDropped 1 p, [])
          | None =>
              let '(r, p, tries) :=
                match a.(at_response) with
                | NetError sent tmo err =>
                    let p := note_unreachable err p in
                    if sent && tmo then
                      if p.(maxAttemptTimeout) <=? timeout
                      then (Some (pushConsumed, None), set_lastError (PushTimedOut timeout err) (add_nDropped 1 p), [])
                      else push_loop script (n + 1) 0 (S stalls) p
                    else push_loop script (n + 1) 0 stalls p
                | Response status skew body secs at_ =>
                    match handle_status status skew body (parseRetryAfter secs at_ a.(at_now)) a.(at_now) p with
                    | inl (out, p) => (Some (out, None), p, [])
                    | inr wait => push_loop script (n + 1) wait stalls p
                    end
                end in
              (r, p, (delay, timeout) :: tries)
          end
      end
  end.

Definition pushOne (script : list attempt) p : option (pushOutcome * option error) * P * list try_ := push_loop script 0 0 0 p.

(** ** The in-memory queue *)

Definition Queue_mem (env : envelope) p : P :=
  let p :=
    if maxPendingEnvelopes <=? Z.of_nat (length p.(pending)) then
      let drop_ := Z.of_nat (length p.(pending)) - maxPendingEnvelopes + 1 in
      add_nDropped drop_ (set_pending (drop (Z.to_nat drop_) p.(pending)) p)
    else p in
  set_pending (p.(pending) ++ [env]) p.

(** The head leaves the queue while it is sent, and goes back to its head if it is to
    be sent later. *)
Definition take_head p : option (envelope * P) :=
  match p.(pending) with
  | [] => None
  | env :: rest => Some (env, set_pending rest p)
  end.

Definition give_back (out : pushOutcome) (env : envelope) p : P :=
  match out with
  | pushRetryLater => set_pending (env :: p.(pending)) p
  | pushConsumed => p
  end.

(** How a push ends: with an error or none, or it is still at work when the script
    is over. *)
Inductive push_result := PushDone (err : option error) | PushBusy.

(** [Push] without a buffer: one script per envelope taken. *)
Fixpoint push_mem (scripts : list (list attempt)) p : push_result * P :=
  match take_head p with
  | None => (PushDone None, p)
  | Some (env, p) =>
      match scripts with
      | [] => (PushBusy, p)
      | script :: scripts =>
          match pushOne script p with
          | (None, p, _) => (PushBusy, p)
          | (Some (pushRetryLater, err), p, _) => (PushDone err, give_back pushRetryLater env p)
          | (Some (pushConsumed, Some err), p, _) => (PushDone (Some err), p)
          | (Some (pushConsumed, None), p, _) => push_mem scripts p
          end
      end
  end.

Definition Push_mem (scripts : list (list attempt)) p : push_result * P :=
  if p.(stopped) then (PushDone None, p) else push_mem scripts p.
End pusher.

(** ** The durable queue *)

(** A record and the function that acknowledges it, given whether the checkpoint can be
    saved; the end of the queue; or an error of reading it. *)
Inductive dq_result (Q : Type) :=
| DqRecord (data : list byte) (ack : Reads → bool → Time → Q → Q)
| DqEOF
| DqError (err : error).
Arguments DqRecord {_}. Arguments DqEOF {_}. Arguments DqError {_}.

(** What the pusher uses of its buffer. *)
Class DurableQueue (Q : Type) := {
  dq_Append : Reads → io → Time → list byte → Q → Q * bool;
  dq_Next : Reads → Time → Q → dq_result Q * Q;
  dq_Rewind : Q → Q;
  dq_SamplesDropped : Q → gmap string Z;
}.

(** What it promises while no read comes back short: the records not acknowledged, of
    which the unread ones are an end; reading, which may fail and then changes nothing,
    acknowledging at once, and rewinding. *)
Class DurableQueueLaws (Q : Type) `{DurableQueue Q} := {
  dq_ok : Q → Prop;
  dq_unacked : Q → list (list byte);
  dq_unread : Q → list (list byte);
  dq_next R now q : dq_ok q → no_short R → ∃ res q', dq_Next R now q = (res, q') ∧ dq_ok q' ∧
    dq_unacked q' = dq_unacked q ∧ dq_SamplesDropped q' = dq_SamplesDropped q ∧
    match res with
    | DqError _ => R ≠ reads_fine ∧ dq_unread q' = dq_unread q
    | DqEOF => dq_unread q = [] ∧ dq_unread q' = []
    | DqRecord r ack => dq_unread q = r :: dq_unread q' ∧
        ∀ ok now', dq_ok (ack reads_fine ok now' q') ∧ dq_unread (ack reads_fine ok now' q') = dq_unread q' ∧
          dq_unacked (ack reads_fine ok now' q') = dq_unread q' ∧
          dq_SamplesDropped (ack reads_fine ok now' q') = dq_SamplesDropped q
    end;
  dq_rewind q : dq_ok q → dq_ok (dq_Rewind q) ∧ dq_unread (dq_Rewind q) = dq_unacked q ∧
    dq_unacked (dq_Rewind q) = dq_unacked q ∧ dq_SamplesDropped (dq_Rewind q) = dq_SamplesDropped q;
}.

Section durable.
Context {Q : Type} `{DurableQueue Q} {envelope : Type} `{Codec envelope}.
Implicit Types p : Pusher envelope.

Definition Queue_buf (R : Reads) (o : io) (now : Time) (env : envelope) (c : Pusher envelope * Q) : Pusher envelope * Q :=
  let '(p, q) := c in
  match Marshal env with
  | None => (add_nDropped 1 p, q)
  | Some data =>
      let '(q, ok) := dq_Append R o now data q in
      if ok then (p, q) else (add_nDropped 1 p, q)
  end.

(** One turn of the drain: the time, the reads of [Next] that fail, the script of the
    envelope, the reads of the ack that fail and whether the ack reaches the disk. *)
Record turn := mkTurn { tu_now : Time; tu_next : Reads; tu_script : list attempt; tu_ack : Reads; tu_saved : bool }.

(** [None]: the turns are over and the drain is not. *)
Fixpoint pushFromBuffer (turns : list turn) (c : Pusher envelope * Q) : push_result * (Pusher envelope * Q) :=
  let '(p, q) := c in
  match turns with
  | [] => (PushBusy, c)
  | t :: turns =>
      match dq_Next t.(tu_next) t.(tu_now) q with
      | (DqEOF, q) => (PushDone None, (p, q))
      | (DqError err, q) => (PushDone (Some err), (p, q))
      | (DqRecord data ack, q) =>
          match Unmarshal data with
          | None => pushFromBuffer turns (add_nDropped 1 p, ack t.(tu_ack) t.(tu_saved) t.(tu_now) q)
          | Some env =>
              match pushOne t.(tu_script) p with
              | (None, p, _) => (PushBusy, (p, q))
              | (Some (pushRetryLater, err), p, _) => (PushDone err, (p, dq_Rewind q))
              | (Some (pushConsumed, Some err), p, _) => (PushDone (Some err), (p, ack t.(tu_ack) t.(tu_saved) t.(tu_now) q))
              | (Some (pushConsumed, None), p, _) => pushFromBuffer turns (p, ack t.(tu_ack) t.(tu_saved) t.(tu_now) q)
              end
          end
      end
  end.

Definition Push_buf (turns : list turn) (c : Pusher envelope * Q) : push_result * (Pusher envelope * Q) :=
  if c.1.(stopped) then (PushDone None, c) else pushFromBuffer turns c.

(** Every sample lost: here, and in the buffer. *)
Definition DroppedSamples p (q : Q) : Z := p.(nDropped) + map_fold (λ _ n t, t + n) 0 (dq_SamplesDropped q).

Definition SamplesDroppedRate (now : Time) p (q : Q) : float64 * Pusher envelope :=
  let total := DroppedSamples p q in
  let last := p.(lastDropTotal) in
  let lastAt := p.(lastDropAt) in
  let p := set_drops total now p in
  if IsZero lastAt then (fzero, p)
  else
    let elapsed := Seconds (Sub now lastAt) in
    if fle elapsed fzero || (total <=? last) then (fzero, p)
    else (fdiv (float_of_int (total - last)) elapsed, p).

(** The status code of /healthz. *)
Definition healthz_code p : Z :=
  if decide (p.(health) = HealthIncompatible ∨ p.(health) = HealthRevoked ∨ p.(health) = HealthUnauthorized) then 503 else 200.
End durable.

(** ** What one push changes *)
Section facts.
Context {envelope : Type}.
Implicit Types p : Pusher envelope.

(** Only the health, the last error, the skew and the counters may differ. *)
Definition same_rest p p' : Prop :=
  p'.(pending) = p.(pending) ∧ p'.(stopped) = p.(stopped) ∧ p'.(attemptTimeout) = p.(attemptTimeout) ∧
  p'.(maxAttemptTimeout) = p.(maxAttemptTimeout) ∧ p'.(lastDropTotal) = p.(lastDropTotal) ∧ p'.(lastDropAt) = p.(lastDropAt).

Definition counted p : Z := p.(nAcked) + p.(nDropped).

(** An envelope is counted when it is consumed, and only then. *)
Definition counts (r : option (pushOutcome * option error)) p p' : Prop :=
  match r with
  | Some (pushConsumed, _) => counted p' = counted p + 1 ∧ p.(nAcked) ≤ p'.(nAcked) ∧ p.(nDropped) ≤ p'.(nDropped)
  | _ => p'.(nAcked) = p.(nAcked) ∧ p'.(nDropped) = p.(nDropped)
  end.

Lemma handle_status_spec status skew body ra now p :
  match handle_status status skew body ra now p with
  | inl (out, p') => same_rest p p' ∧ counts (Some (out, None)) p p'
  | inr w => w = ra
  end.
Proof.
  unfold handle_status. repeat case_match; simplify_eq; try done; unfold same_rest, counts, counted; cbn; split_and!; try done; lia.
Qed.

Lemma counts_trans r p1 p2 p3 : p2.(nAcked) = p1.(nAcked) → p2.(nDropped) = p1.(nDropped) → counts r p2 p3 → counts r p1 p3.
Proof. unfold counts, counted. intros E1 E2. destruct r as [[[|] ?]|]; rewrite ?E1, ?E2; done. Qed.

Lemma same_rest_trans p1 p2 p3 : same_rest p1 p2 → same_rest p2 p3 → same_rest p1 p3.
Proof. unfold same_rest. intros (? & ? & ? & ? & ? & ?) (? & ? & ? & ? & ? & ?). split_and!; congruence. Qed.

Lemma note_unreachable_spec err p :
  same_rest p (note_unreachable err p) ∧ nAcked (note_unreachable err p) = nAcked p ∧ nDropped (note_unreachable err p) = nDropped p.
Proof. unfold note_unreachable. by destruct (decide _). Qed.

Lemma push_loop_spec script n wait stalls p :
  let '(r, p', _) := push_loop script n wait stalls p in same_rest p p' ∧ counts r p p'.
Proof.
  revert n wait stalls p. induction script as [|a script IH]; intros n wait stalls p; cbn [push_loop]; [done|].
  destruct (if 0 <? n then at_sleep a else None); [done|]. destruct (at_build a).
  { unfold same_rest, counts, counted. cbn. split_and!; try done; lia. }
  destruct (at_response a) as [sent tmo err|status skew body secs at_].
  - destruct (note_unreachable_spec err p) as (H1 & H2 & H3). set (p1 := note_unreachable err p) in *.
    destruct (sent && tmo); [destruct (_ <=? _)|].
    + split; [exact H1|]. unfold counts, counted. cbn. lia.
    + specialize (IH (n + 1) 0 (S stalls) p1). destruct (push_loop _ _ _ _ p1) as [[r p'] tries]. destruct IH. split; [by eapply same_rest_trans|by eapply counts_trans].
    + specialize (IH (n + 1) 0 stalls p1). destruct (push_loop _ _ _ _ p1) as [[r p'] tries]. destruct IH. split; [by eapply same_rest_trans|by eapply counts_trans].
  - pose proof (handle_status_spec status skew body (parseRetryAfter secs at_ (at_now a)) (at_now a) p) as Hs.
    destruct (handle_status _ _ _ _ _ p) as [[out p']|w]; [done|].
    specialize (IH (n + 1) w stalls p). by destruct (push_loop _ _ _ _ p) as [[r p'] tries].
Qed.

(** ** The in-memory queue: any interleaving of queueing and sending *)

Inductive mem_op :=
| MQueue (env : envelope)
| MTake (* the push takes the head *)
| MSend (script : list attempt). (* the whole of its [pushOne]; nothing if the script does not end it *)

Record mem := mkMem { m_p : Pusher envelope; m_inflight : list envelope; m_queued : list envelope; m_consumed : list envelope }.

Definition mem_step (m : mem) (o : mem_op) : mem :=
  match o, m.(m_inflight) with
  | MQueue env, _ => mkMem (Queue_mem env m.(m_p)) m.(m_inflight) (m.(m_queued) ++ [env]) m.(m_consumed)
  | MTake, [] =>
      match take_head m.(m_p) with
      | Some (env, p) => mkMem p [env] m.(m_queued) m.(m_consumed)
      | None => m
      end
  | MSend script, env :: _ =>
      match pushOne script m.(m_p) with
      | (Some (out, _), p, _) =>
          mkMem (give_back out env p) [] m.(m_queued)
            (match out with pushConsumed => m.(m_consumed) ++ [env] | pushRetryLater => m.(m_consumed) end)
      | (None, _, _) => m
      end
  | _, _ => m
  end.

Definition mem_run (os : list mem_op) : mem := foldl mem_step (mkMem NewPusher [] [] []) os.

Record mem_inv (m : mem) : Prop := {
  mi_order : m.(m_consumed) ++ m.(m_inflight) ++ m.(m_p).(pending) `sublist_of` m.(m_queued);
  mi_counts : Z.of_nat (length m.(m_queued)) =
    counted m.(m_p) + Z.of_nat (length m.(m_inflight)) + Z.of_nat (length m.(m_p).(pending));
  mi_inflight : (length m.(m_inflight) ≤ 1)%nat;
  mi_bound : Z.of_nat (length m.(m_p).(pending) + length m.(m_inflight)) ≤ maxPendingEnvelopes + 1;
}.

Lemma mem_step_queue m env : mem_inv m → mem_inv (mem_step m (MQueue env)).
Proof.
  intros [H1 H2 H3 H4]. destruct m as [p inf qd cons]. cbn in *. unfold maxPendingEnvelopes in *.
  assert (∃ k, (k ≤ length (pending p))%nat ∧ pending (Queue_mem env p) = drop k (pending p) ++ [env] ∧ counted (Queue_mem env p) = counted p + Z.of_nat k ∧
    (length (drop k (pending p)) ≤ 1023)%nat) as (k & Hk & Ep & Ec & Hlen).
  { unfold Queue_mem, maxPendingEnvelopes. destruct (1024 <=? _) eqn:E; zbool; cbn.
    - exists (Z.to_nat (Z.of_nat (length (pending p)) - 1024 + 1)). split; [lia|]. split; [done|]. split; [unfold counted; cbn; lia|].
      rewrite length_drop. lia.
    - exists 0%nat. split; [lia|]. split; [done|]. split; [unfold counted; cbn; lia|]. rewrite drop_0. lia. }
  split; cbn [mem_step m_p m_inflight m_queued m_consumed]; rewrite ?Ep.
  - rewrite !app_assoc. apply sublist_app; [|done]. etrans; [|exact H1]. rewrite <- app_assoc. repeat apply sublist_app; try done.
    apply sublist_drop.
  - rewrite Ec, !length_app, length_drop. cbn. lia.
  - done.
  - rewrite length_app. unfold maxPendingEnvelopes. cbn. lia.
Qed.

Lemma mem_step_take m : mem_inv m → mem_inv (mem_step m MTake).
Proof.
  intros Hm. pose proof Hm as [H1 H2 H3 H4]. destruct m as [p inf qd cons]. cbn in *. destruct inf; [|done].
  unfold take_head. destruct (pending p) as [|env rest] eqn:E; [done|]. rewrite ?E in *. unfold counted in *. split; unfold counted; cbn in *; try done; lia.
Qed.

Lemma mem_step_send m script : mem_inv m → mem_inv (mem_step m (MSend script)).
Proof.
  intros Hm. pose proof Hm as [H1 H2 H3 H4]. destruct m as [p inf qd cons]. cbn in *. destruct inf as [|env inf]; [done|].
  destruct inf; [|cbn in H3; lia]. pose proof (push_loop_spec script 0 0 0 p) as Hs. unfold pushOne.
  destruct (push_loop script 0 0 0 p) as [[r p'] tries]. destruct Hs as [(Ep & _) Hc]. destruct r as [[[|] err]|]; [| |done].
  - cbn in Hc. destruct Hc as (Hc & _). split; cbn; rewrite ?Ep, ?Hc.
    + by rewrite <- app_assoc.
    + unfold counted in *; cbn in *; lia.
    + lia.
    + cbn in H4. lia.
  - cbn in Hc. destruct Hc as (Hc & Hd). split; cbn; rewrite ?Ep.
    + done.
    + unfold counted in *. cbn in *. lia.
    + lia.
    + cbn in H4. lia.
Qed.

(** The in-memory queue over any interleaving of queueing and sending: envelopes
    are consumed in the order they were queued, every envelope is delivered, counted
    as dropped, in flight or still queued, and at most 1025 are held. *)
Theorem mem_queue_accounts os : let m := mem_run os in
  m.(m_consumed) ++ m.(m_inflight) ++ m.(m_p).(pending) `sublist_of` m.(m_queued) ∧
  Z.of_nat (length m.(m_queued)) =
    m.(m_p).(nAcked) + m.(m_p).(nDropped) + Z.of_nat (length m.(m_inflight)) + Z.of_nat (length m.(m_p).(pending)) ∧
  Z.of_nat (length m.(m_p).(pending) + length m.(m_inflight)) ≤ maxPendingEnvelopes + 1.
Proof.
  assert (mem_inv (mem_run os)) as [H1 H2 H3 H4]; [|done]. unfold mem_run. induction os as [|o os IH] using rev_ind.
  { split; cbn; try done; try lia. }
  rewrite foldl_app. cbn [foldl]. destruct o; auto using mem_step_queue, mem_step_take, mem_step_send.
Qed.
End facts.

(** ** Draining the durable queue *)
Section drain.
Context {Q : Type} `{DurableQueueLaws Q} {envelope : Type} `{Codec envelope}.
Implicit Types p : Pusher envelope.

(** A script that decides its envelope, whatever the pusher's state. *)
Definition decides (script : list attempt) : Prop := ∀ p, (pushOne script p).1.1 ≠ None.

(** No read of [Next] comes back short, and the reads of the acks succeed. *)
Definition turn_ok (t : turn) : Prop := no_short t.(tu_next) ∧ t.(tu_ack) = reads_fine.

(** What makes a turn take its record off the queue: it cannot be decoded, or its push is
    over. *)
Definition takes_off (t : turn) (r : list byte) : Prop :=
  match Unmarshal r with
  | None => True
  | Some _ => ∃ p err, (pushOne t.(tu_script) p).1.1 = Some (pushConsumed, err)
  end.

(** Why a drain stopped with [left] in the queue after the records [consumed]. *)
Inductive drain_end (turns : list turn) (consumed left : list (list byte)) (p' : Pusher envelope) : push_result → Prop :=
| end_empty : left = [] → drain_end turns consumed left p' (PushDone None)
| end_keep r rest t env p err tries : left = r :: rest → turns !! length consumed = Some t → Unmarshal r = Some env →
    pushOne t.(tu_script) p = (Some (pushRetryLater, err), p', tries) → drain_end turns consumed left p' (PushDone err)
| end_error before r t env p err tries : consumed = before ++ [r] → turns !! length before = Some t → Unmarshal r = Some env →
    pushOne t.(tu_script) p = (Some (pushConsumed, Some err), p', tries) → drain_end turns consumed left p' (PushDone (Some err))
| end_read t err : turns !! length consumed = Some t → t.(tu_next) ≠ reads_fine → drain_end turns consumed left p' (PushDone (Some err))
| end_busy r rest t p : left = r :: rest → turns !! length consumed = Some t → (pushOne t.(tu_script) p).1.1 = None →
    drain_end turns consumed left p' PushBusy.

Lemma drain_end_cons t turns r consumed left p' res : drain_end turns consumed left p' res → drain_end (t :: turns) (r :: consumed) left p' res.
Proof.
  intros [E|r' rest t' env p err tries E Ht Hu Hp|before r' t' env p err tries E Ht Hu Hp|t' err Ht Hne|r' rest t' p E Ht Hp].
  - by apply end_empty.
  - by eapply end_keep.
  - eapply (end_error _ _ _ _ (r :: before)); [by rewrite E|done..].
  - by eapply end_read.
  - by eapply end_busy.
Qed.

Definition drained (turns : list turn) p (q : Q) (out : push_result * (Pusher envelope * Q)) : Prop :=
  let '(res, (p', q')) := out in
  dq_ok q' ∧ same_rest p p' ∧ dq_SamplesDropped q' = dq_SamplesDropped q ∧
  (∃ consumed, dq_unacked q = consumed ++ dq_unacked q' ∧ counted p' = counted p + Z.of_nat (length consumed) ∧
     Forall2 takes_off (take (length consumed) turns) consumed ∧ drain_end turns consumed (dq_unacked q') p' res) ∧
  (res ≠ PushBusy → dq_unread q' = dq_unacked q') ∧
  (Forall (λ t, decides t.(tu_script)) turns → res ≠ PushBusy).

(** A turn that takes its record off, and the drain that goes on behind it. *)
Lemma drained_cons t turns p p1 (q q1 : Q) r out : same_rest p p1 → counted p1 = counted p + 1 →
  dq_SamplesDropped q1 = dq_SamplesDropped q → dq_unacked q = r :: dq_unacked q1 → takes_off t r →
  drained turns p1 q1 out → drained (t :: turns) p q out.
Proof.
  intros Hp Hc Hs Hu Ht. destruct out as [res [p' q']]. intros (I1 & I2 & I3 & (cs & I4 & I5 & I6 & I7) & I8 & I9).
  split_and!; [done|by eapply same_rest_trans|congruence| |done|intros Hd; apply Forall_cons in Hd as [_ Hd]; by apply I9].
  exists (r :: cs). rewrite Hu, I4. split; [done|]. split; [cbn [length]; lia|]. split; [by constructor|by apply drain_end_cons].
Qed.

End drain.

(** ** The disk buffer is a durable queue *)

#[export] Instance buffer_queue : DurableQueue Buffer := {|
  dq_Append R := Append (H := R);
  dq_Next R now b :=
    match Next (H := R) now b with
    | (NextRecord r sid off, b) => (DqRecord r (λ R ok now b, (ackFunc (H := R) ok now sid off b).1), b)
    | (NextError err, b) => (DqError err, b)
    | (_, b) => (DqEOF, b)
    end;
  dq_Rewind := Rewind;
  dq_SamplesDropped b := b.(stats).(SamplesDropped);
|}.

Lemma ack_SamplesDropped (R : Reads) ok now sid o b : (ackFunc ok now sid o b).1.(stats).(SamplesDropped) = b.(stats).(SamplesDropped).
Proof.
  unfold ackFunc, saveAckedPosition, dropAckedSegments. destruct ok; cbn [fst stats set_ackedFile]; by rewrite remove_while_silent.
Qed.

#[export] Program Instance buffer_queue_laws : DurableQueueLaws Buffer := {|
  dq_ok b := inv b ∧ caught_up b;
  dq_unacked := unacked;
  dq_unread := unread;
|}.
Next Obligation.
  cbn -[Next unread unacked Rewind caught_up ackFunc]. intros R now b [Hi Hc] HR.
  assert (next_fails R now b → ∃ err b', Next (H := R) now b = (NextError err, b') ∧ R ≠ reads_fine ∧ (inv b' ∧ caught_up b') ∧ unacked b' = unacked b ∧
    b'.(stats).(SamplesDropped) = b.(stats).(SamplesDropped) ∧ unread b' = unread b) as Hfail.
  { intros (Hne & err & i & o & E & Hi' & Hs). exists err, (set_cursor i o b). split_and!; try done.
    - unfold caught_up. by rewrite Hs.
    - unfold unread. by rewrite Hs. }
  destruct (unread b) as [|r rest] eqn:Hu.
  - destruct (Next_none R now b HR Hi Hu) as [(err & b' & -> & ? & ? & ? & ? & ?)%Hfail|(i & o & -> & Hi' & Hs)]; [by exists (DqError err), b'|].
    eexists _, _. split; [done|]. split_and!; try done.
    + unfold caught_up. by rewrite Hs.
    + unfold unread in *. by rewrite Hs.
  - destruct (Next_record R now b r rest HR Hi Hc Hu) as [(err & b' & -> & ? & ? & ? & ? & ?)%Hfail|(i & p & -> & Hi' & Hr & Hc' & [T1 T2 T3])]; [by exists (DqError err), b'|].
    eexists _, _. split; [done|]. split_and!; try done; [by rewrite Hr|]. intros ok now'.
    destruct (ackFunc_spec ok now' p _ Hi' T1 T3 T2) as (A1 & A2 & A3 & A4 & A5 & _).
    assert (unread (ackFunc (H := reads_fine) ok now' p.1 p.2 (set_cursor i p.2 b)).1 = unacked (ackFunc (H := reads_fine) ok now' p.1 p.2 (set_cursor i p.2 b)).1) as E.
    { unfold unread, unacked. by rewrite A4, A2. }
    split_and!; [done| | | |].
    + unfold caught_up. rewrite A4, A2. apply Forall2_suffix_refl.
    + by rewrite E, A3.
    + by rewrite A3.
    + by rewrite ack_SamplesDropped.
Qed.
Next Obligation.
  cbn -[Next unread unacked Rewind caught_up ackFunc]. intros b [Hi Hc]. destruct (Rewind_spec b Hi) as (i & o & E & Hi' & Hs).
  assert (unacked (Rewind b) = unacked b ∧ (Rewind b).(stats) = b.(stats) ∧ acked_pos (Rewind b) = acked_pos b ∧ segments (Rewind b) = segments b) as (E1 & E2 & E3 & E4).
  { by rewrite E. }
  split_and!; [done| | |done|by rewrite E2].
  - unfold caught_up, unacked_segs. rewrite Hs, E3, E4. apply Forall2_suffix_refl.
  - unfold unread. by rewrite Hs.
Qed.

(** ** Retries *)
Section retries.
Context {envelope : Type}.
Implicit Types p : Pusher envelope.

(** The server got the whole envelope and did not answer in time. *)
Definition stalled (a : attempt) : bool := match a.(at_response) with NetError true true _ => true | _ => false end.

Fixpoint stall_count (script : list attempt) : nat :=
  match script with
  | [] => 0
  | a :: script => (if stalled a then 1 else 0) + stall_count script
  end.

(** The server was not reached, or asked for a later retry. *)
Definition transient (a : attempt) : bool :=
  bool_decide (a.(at_sleep) = None) && bool_decide (a.(at_build) = None) &&
  match a.(at_response) with
  | NetError sent tmo _ => negb (sent && tmo)
  | Response status _ _ _ _ => (status =? 408) || (status =? 425) || (status =? 429) || (500 <=? status)
  end.

Definition default_timeouts p : Prop := p.(attemptTimeout) = pushAttemptTimeout ∧ p.(maxAttemptTimeout) = maxPushAttemptTimeout.

Lemma default_timeout_4 p : default_timeouts p → attemptTimeoutAfter p 4 = maxPushAttemptTimeout.
Proof. intros [E1 E2]. unfold attemptTimeoutAfter. rewrite E1, E2. reflexivity. Qed.

Lemma stalls_decide script n wait stalls p : default_timeouts p → (stalls ≤ 4)%nat →
  (5 ≤ stalls + stall_count script)%nat → (push_loop script n wait stalls p).1.1 ≠ None.
Proof.
  revert n wait stalls p. induction script as [|a script IH]; intros n wait stalls p Hd Hs Hc; [cbn in Hc; lia|]. cbn [push_loop].
  destruct (if 0 <? n then at_sleep a else None); [done|]. destruct (at_build a); [done|].
  cbn [stall_count] in Hc. unfold stalled in Hc. destruct (at_response a) as [sent tmo err|status skew body secs at_].
  - destruct (note_unreachable_spec err p) as ((_ & _ & E1 & E2 & _) & _). set (p1 := note_unreachable err p) in *.
    assert (default_timeouts p1) as Hd1 by (unfold default_timeouts; by rewrite E1, E2).
    destruct sent, tmo; cbn [andb]; try (specialize (IH (n + 1) 0 stalls p1 Hd1 Hs Hc);
      by destruct (push_loop _ _ _ _ p1) as [[r p'] tries]).
    destruct (maxAttemptTimeout p1 <=? attemptTimeoutAfter p stalls) eqn:E; [done|].
    destruct (decide (stalls = 4)%nat) as [-> |].
    { rewrite default_timeout_4 in E by done. destruct Hd1 as [_ E3]. rewrite E3 in E. done. }
    specialize (IH (n + 1) 0 (S stalls) p1 Hd1 ltac:(lia) ltac:(lia)). by destruct (push_loop _ _ _ _ p1) as [[r p'] tries].
  - destruct (handle_status _ _ _ _ _ p) as [[out p']|w]; [done|].
    specialize (IH (n + 1) w stalls p Hd Hs Hc). by destruct (push_loop _ _ _ _ p) as [[r p'] tries].
Qed.

Lemma transient_goes_on script n wait stalls p : Forall (λ a, transient a = true) script →
  (push_loop script n wait stalls p).1.1 = None.
Proof.
  intros Hs. revert n wait stalls p. induction Hs as [|a script Ha Hs IH]; intros n wait stalls p; [done|]. cbn [push_loop].
  unfold transient in Ha. apply andb_true_iff in Ha as [[Hsl Hb]%andb_true_iff Hr]. apply bool_decide_eq_true in Hsl, Hb. rewrite Hsl, Hb.
  assert ((if 0 <? n then None else None) = (None : option error)) as -> by (by destruct (0 <? n)).
  destruct (at_response a) as [sent tmo err|status skew body secs at_].
  - apply negb_true_iff in Hr. rewrite Hr. set (p1 := note_unreachable err p).
    specialize (IH (n + 1) 0 stalls p1). by destruct (push_loop _ _ _ _ p1) as [[r p'] tries].
  - assert (∃ w, handle_status status skew body (parseRetryAfter secs at_ (at_now a)) (at_now a) p = inr w) as (w & ->).
    { unfold handle_status. rewrite !orb_true_iff in Hr. repeat case_match; zbool; try (by eexists); exfalso; repeat destruct Hr as [Hr|Hr]; zbool; subst; try done; lia. }
    specialize (IH (n + 1) w stalls p). by destruct (push_loop _ _ _ _ p) as [[r p'] tries].
Qed.

(** No outage costs an envelope, and no stall holds the queue. While the server is
    not reached, or asks for a later retry, the push goes on and counts nothing; and an
    envelope the server received and did not answer five times is decided. *)
Theorem outage_and_stall p script :
  (Forall (λ a, transient a = true) script →
     (pushOne script p).1.1 = None ∧ (pushOne script p).1.2.(nAcked) = p.(nAcked) ∧ (pushOne script p).1.2.(nDropped) = p.(nDropped)) ∧
  (default_timeouts p → (5 ≤ stall_count script)%nat → (pushOne script p).1.1 ≠ None).
Proof.
  split.
  - intros Hs. pose proof (transient_goes_on script 0 0 0 p Hs) as E. pose proof (push_loop_spec script 0 0 0 p) as Hp. unfold pushOne.
    destruct (push_loop script 0 0 0 p) as [[r p'] tries]. cbn [fst snd] in *. subst r. destruct Hp as [_ [E1 E2]]. done.
  - intros Hd Hc. apply stalls_decide; [done|lia|done].
Qed.

(** *** Waits *)

Lemma parseRetryAfter_bounds secs at_ now : 0 ≤ parseRetryAfter secs at_ now ≤ maxRetryAfter.
Proof.
  unfold parseRetryAfter, maxRetryAfter, Second, Millisecond, Microsecond, Nanosecond. repeat case_match; zbool; try lia. change (_ `div` _) with 60 in *. lia.
Qed.

Lemma double_below_ge n d limit : 0 ≤ d → d ≤ double_below n d limit.
Proof. revert d. induction n as [|n IH]; intros d Hd; cbn; [lia|]. destruct (d <? limit); [|lia]. specialize (IH (2 * d)). lia. Qed.

Lemma handle_status_wait status skew body ra now p w : handle_status status skew body ra now p = inr w → w = ra.
Proof. intros E. pose proof (handle_status_spec status skew body ra now p) as H. by rewrite E in H. Qed.

Definition ceiling (n : Z) : Duration := Z.min (2 ^ n) 60 * Second.

Lemma push_loop_waits script : ∀ n wait stalls p, 0 ≤ n → 0 ≤ wait ≤ maxRetryAfter → 0 ≤ p.(attemptTimeout) ≤ p.(maxAttemptTimeout) →
  (∀ i a, script !! i = Some a → 0 ≤ a.(at_jitter) ≤ ceiling (n + Z.of_nat i) / 2) →
  ∀ i d t, (push_loop script n wait stalls p).2 !! i = Some (d, t) →
    (if decide (n + Z.of_nat i = 0) then d = 0 else ceiling (n + Z.of_nat i) / 2 ≤ d ≤ maxRetryAfter) ∧ p.(attemptTimeout) ≤ t ≤ p.(maxAttemptTimeout).
Proof.
  induction script as [|a script IH]; intros n wait stalls p Hn Hw Ht Hj i d t; cbn [push_loop]; [done|].
  destruct (if 0 <? n then at_sleep a else None); [done|]. destruct (at_build a); [done|].
  assert (∀ (r : option (pushOutcome * option error)) (p' : Pusher envelope) (tries : list try_), (∀ j d t, tries !! j = Some (d, t) →
      (if decide (n + 1 + Z.of_nat j = 0) then d = 0 else ceiling (n + 1 + Z.of_nat j) / 2 ≤ d ≤ maxRetryAfter) ∧ attemptTimeout p ≤ t ≤ maxAttemptTimeout p) →
    (r, p', ((if 0 <? n then Z.max (backoffDelay n (at_jitter a)) wait else 0, attemptTimeoutAfter p stalls) :: tries)).2 !! i = Some (d, t) →
    (if decide (n + Z.of_nat i = 0) then d = 0 else ceiling (n + Z.of_nat i) / 2 ≤ d ≤ maxRetryAfter) ∧ attemptTimeout p ≤ t ≤ maxAttemptTimeout p) as Hcons.
  { intros r p' tries Htries. destruct i as [|i]; cbn; [|intros Hi; replace (n + Z.of_nat (S i)) with (n + 1 + Z.of_nat i) by lia; by apply Htries].
    intros [= <- <-]. replace (n + Z.of_nat 0) with n by lia. split.
    - destruct (decide (n = 0)) as [-> |Hne]; [done|]. rewrite (proj2 (Z.ltb_lt 0 n)) by lia. specialize (Hj 0%nat a eq_refl).
      unfold backoffDelay. rewrite (proj2 (Z.leb_gt _ _)) by lia. fold (ceiling n). replace (n + Z.of_nat 0) with n in Hj by lia.
      assert (ceiling n ≤ maxRetryAfter) by (unfold ceiling, maxRetryAfter, Second, Millisecond, Microsecond, Nanosecond; lia).
      pose proof (Z.mul_div_le (ceiling n) 2 ltac:(lia)). lia.
    - unfold attemptTimeoutAfter. pose proof (double_below_ge stalls (attemptTimeout p) (maxAttemptTimeout p) ltac:(lia)). lia. }
  assert (∀ j a, script !! j = Some a → 0 ≤ at_jitter a ≤ ceiling (n + 1 + Z.of_nat j) / 2) as Hj'.
  { intros j b Hb. replace (n + 1 + Z.of_nat j) with (n + Z.of_nat (S j)) by lia. by apply Hj. }
  assert (0 ≤ 0 ≤ maxRetryAfter) as Hw0 by (unfold maxRetryAfter, Second, Millisecond, Microsecond, Nanosecond; lia).
  destruct (at_response a) as [sent tmo err|status skew body secs at_].
  - destruct (note_unreachable_spec err p) as ((_ & _ & E1 & E2 & _) & _). set (p1 := note_unreachable err p) in *.
    destruct (sent && tmo); [destruct (_ <=? _)|].
    + by apply Hcons.
    + pose proof (IH (n + 1) 0 (S stalls) p1 ltac:(lia) Hw0 ltac:(lia) Hj') as IH'. rewrite E1, E2 in IH'.
      destruct (push_loop _ _ _ _ p1) as [[r p'] tries]. by apply Hcons.
    + pose proof (IH (n + 1) 0 stalls p1 ltac:(lia) Hw0 ltac:(lia) Hj') as IH'. rewrite E1, E2 in IH'.
      destruct (push_loop _ _ _ _ p1) as [[r p'] tries]. by apply Hcons.
  - destruct (handle_status _ _ _ _ _ p) as [[out p']|w] eqn:Eh; [by apply Hcons|].
    apply handle_status_wait in Eh as ->.
    pose proof (IH (n + 1) _ stalls p ltac:(lia) (parseRetryAfter_bounds secs at_ (at_now a)) Ht Hj') as IH'.
    destruct (push_loop _ _ _ _ p) as [[r p'] tries]. by apply Hcons.
Qed.

(** The waits of a push. The first attempt is made at once; the wait before retry
    [i] is at least half of 2^i seconds (30 seconds from the sixth on) and at most a
    minute, whatever Retry-After asks for; the timeout of an attempt lies between ten
    seconds and two minutes. *)
Theorem push_waits_bounded p script i d t : default_timeouts p →
  (∀ i a, script !! i = Some a → 0 ≤ a.(at_jitter) ≤ ceiling (Z.of_nat i) / 2) →
  (pushOne script p).2 !! i = Some (d, t) →
  (if decide (i = 0%nat) then d = 0 else ceiling (Z.of_nat i) / 2 ≤ d ≤ maxRetryAfter) ∧ pushAttemptTimeout ≤ t ≤ maxPushAttemptTimeout.
Proof.
  intros [E1 E2] Hj Hi.
  assert (0 ≤ 0 ≤ maxRetryAfter ∧ 0 ≤ pushAttemptTimeout ≤ maxPushAttemptTimeout) as [Hw Ht].
  { unfold maxRetryAfter, pushAttemptTimeout, maxPushAttemptTimeout, Minute, Second, Millisecond, Microsecond, Nanosecond. lia. }
  destruct (push_loop_waits script 0 0 0 p ltac:(lia) Hw ltac:(by rewrite E1, E2) Hj i d t Hi) as [H1 H2]. rewrite E1, E2 in H2. split; [|done].
  destruct (decide (i = 0%nat)) as [-> |]; [by rewrite decide_True in H1|]. rewrite decide_False in H1 by lia. done.
Qed.
End retries.

(** ** Examples *)
Module Example_.

(** Envelopes are byte strings that encode themselves; an empty one cannot be read. *)
#[local] Instance bytes_codec : Codec (list byte) := {|
  Marshal := Some;
  Unmarshal data := match data with [] => None | _ => Some data end;
|}.

Definition reply (status : Z) : attempt := mkAttempt 0 None None (Response status None "" None None) 100.
Definition down : attempt := mkAttempt 0 None None (NetError false false "connection refused") 100.
Definition stall : attempt := mkAttempt 0 None None (NetError true true "deadline exceeded") 100.

Definition two_records : Buffer := (Append (H := reads_fine) io_fine 0 [x03] (Append (H := reads_fine) io_fine 0 [x01; x02] Buffer.Example_.fresh).1).1.

Lemma two_records_ok : dq_ok two_records ∧ dq_unread two_records = [[x01; x02]; [x03]] ∧ dq_unacked two_records = [[x01; x02]; [x03]].
Proof.
  assert (caught_up Buffer.Example_.fresh) as Hc by constructor.
  destruct (Append (H := reads_fine) io_fine 0 [x01; x02] Buffer.Example_.fresh) as [b1 ok1] eqn:E1. destruct (Append (H := reads_fine) io_fine 0 [x03] b1) as [b2 ok2] eqn:E2.
  assert (ok1 = true) as -> by (vm_compute in E1; by injection E1). assert (two_records = b2) as E by (unfold two_records; rewrite E1; cbn [fst]; by rewrite E2).
  destruct (Append_ok_spec io_fine 0 [x01; x02] Buffer.Example_.fresh b1 Buffer.Example_.fresh_inv ltac:(split; [done|cbn; lia]) ltac:(cbn; lia) E1) as (H1 & H2 & _).
  assert (b1 = (Append (H := reads_fine) io_fine 0 [x01; x02] Buffer.Example_.fresh).1) as Eb by (by rewrite E1).
  assert (nextSegID b1 = 1) as Hn by (rewrite Eb; vm_compute; reflexivity).
  assert (ok2 = true) as -> by (rewrite Eb in E2; vm_compute in E2; by injection E2).
  destruct (Append_ok_spec io_fine 0 [x03] b1 b2 H1 ltac:(split; [done|cbn; lia]) ltac:(rewrite Hn; lia) E2) as (H3 & H4 & _).
  split; [rewrite E; cbn; auto|]. split; vm_compute; reflexivity.
Qed.

(** The first record is taken, the second is refused with 401 and stays. *)
Definition drain_turns : list turn := [mkTurn 1 reads_fine [down; reply 202] reads_fine true; mkTurn 2 reads_fine [reply 401] reads_fine true; mkTurn 3 reads_fine [] reads_fine true].


Lemma push_waits_bounded_witness : ceiling 1 / 2 ≤ 1 * Second ≤ maxRetryAfter.
Proof.
  destruct (push_waits_bounded (NewPusher : Pusher (list byte)) [down; reply 202] 1 (1 * Second) pushAttemptTimeout) as [H _].
  - split; reflexivity.
  - intros [|[|i]] a Ha; cbn in Ha; [injection Ha as <-; vm_compute; split; discriminate..|discriminate].
  - vm_compute. reflexivity.
  - exact H.
Defined.

Lemma outage_and_stall_witness :
  (pushOne [down; reply 503; reply 429] (NewPusher : Pusher (list byte))).1.1 = None ∧
  (pushOne [stall; down; stall; stall; stall; stall] (NewPusher : Pusher (list byte))).1.1 ≠ None.
Proof.
  split.
  - apply (outage_and_stall (NewPusher : Pusher (list byte)) [down; reply 503; reply 429]). repeat constructor.
  - apply (outage_and_stall (NewPusher : Pusher (list byte)) [stall; down; stall; stall; stall; stall]); [split; reflexivity|cbn; lia].
Defined.

Example stalls_drop : (pushOne [stall; stall; stall; stall; stall] (NewPusher : Pusher (list byte))).1.1 = Some (pushConsumed, None).
Proof. vm_compute. reflexivity. Qed.

Example revoked : (pushOne [mkAttempt 0 None None (Response 401 None "agent revoked" None None) 0] (NewPusher : Pusher (list byte))).1.2.(health) = HealthRevoked.
Proof. vm_compute. reflexivity. Qed.
End Example_.
