(* ===== verification/Redact.v ===== *)
(** * Credential redaction (internal/redact)

    [MayHoldCredential] decides whether a text read from a monitored database may hold
    a credential, and [Identity] the form in which a free-text name is shipped. The
    decoders' loops move an index forward by what they read; here [skip] is the number
    of bytes the loop still passes over. *)
From S2P Require Import Prelude GoBytes GoText.

Definition Withheld : text := "[redacted]".

Definition credentialWords : list text := [str "password"; str "passwd"; str "secret"; str "uescape"].

(** The strings the expression [postgres(?:ql)?:/] matches. *)
Definition connectionURI : list text := [str "postgres:/"; str "postgresql:/"].

(** What [keepBytes] writes for one byte. *)
Definition keep_byte (uri : bool) (c : byte) : option byte :=
  if is_lower c || is_digit c then Some c
  else if is_upper c then Some (lower_byte c)
  else if uri && (bool_decide (c = ":"%byte) || bool_decide (c = "/"%byte)) then Some c
  else None.

Definition keepBytes (t : text) (uri : bool) : text := omap (keep_byte uri) t.

(** [hexValue], with [None] for -1. *)
Definition hexValue (c : byte) : option Z :=
  if is_digit c then Some (Z_of_byte c - 48)
  else if between "a"%byte "f"%byte c then Some (Z_of_byte c - 97 + 10)
  else if between "A"%byte "F"%byte c then Some (Z_of_byte c - 65 + 10)
  else None.

(** A digit of the base, with its value. *)
Definition digit_value (base : Z) (c : byte) : option Z :=
  match hexValue c with
  | Some d => if base <=? d then None else Some d
  | None => None
  end.

Fixpoint read_digits (limit : nat) (base : Z) (s : text) (value : Z) : Z * nat :=
  match limit, s with
  | S limit, c :: s =>
      match digit_value base c with
      | Some d => let '(v, n) := read_digits limit base s (value * base + d) in (v, S n)
      | None => (value, 0%nat)
      end
  | _, _ => (value, 0%nat)
  end.

Definition readDigits (s : text) (limit : nat) (base : Z) : Z * nat := read_digits limit base s 0.

Definition backslash : byte := "\"%byte.

Definition is_octal (c : byte) : bool := between "0"%byte "7"%byte c.

(** What follows a backslash, the byte [c] and the text [s] behind it: the bytes written
    and how many bytes after the backslash are read. *)
Definition escape_sequence (c : byte) (s : text) : text * nat :=
  if bool_decide (c ∈ str "bfnrt") then ([" "%byte], 1%nat)
  else if is_octal c then
    let '(v, n) := readDigits (c :: s) 3 8 in ([byte_of_Z v], n)
  else if bool_decide (c = "x"%byte) && match s with d :: _ => bool_decide (is_Some (hexValue d)) | [] => false end then
    let '(v, n) := readDigits s 2 16 in ([byte_of_Z v], S n)
  else if bool_decide (c = "u"%byte) || bool_decide (c = "U"%byte) then
    let width := if bool_decide (c = "U"%byte) then 8%nat else 4%nat in
    let '(v, n) := readDigits s width 16 in
    if bool_decide (n = width) then (append_rune (wrap32 v), S n) else ([c], 1%nat)
  else ([c], 1%nat).

(** The loop both decoders run: [seq] reads what follows a backslash. *)
Fixpoint decode_with (seq : byte → text → text * nat) (skip : nat) (t : text) : text :=
  match t with
  | [] => []
  | c :: s =>
      match skip with
      | S k => decode_with seq k s
      | O =>
          match s with
          | d :: s' =>
              if bool_decide (c = backslash) then
                let '(out, n) := seq d s' in out ++ decode_with seq n s
              else c :: decode_with seq 0 s
          | [] => [c]
          end
      end
  end.

Definition decodeEscapeString (t : text) : text := if bool_decide (backslash ∈ t) then decode_with escape_sequence 0 t else t.

Definition unicode_sequence (c : byte) (s : text) : text * nat :=
  let '(width, from, extra) := if bool_decide (c = "+"%byte) then (6%nat, s, 1%nat) else (4%nat, c :: s, 0%nat) in
  let '(v, n) := readDigits from width 16 in
  if bool_decide (n = width) && ValidRune (wrap32 v) then (append_rune (wrap32 v), (extra + n)%nat) else ([c], 1%nat).

Definition decodeUnicodeString (t : text) : text := if bool_decide (backslash ∈ t) then decode_with unicode_sequence 0 t else t.

(** One reading of the text in the loop of [MayHoldCredential]. *)
Definition reading_shows (t : text) : bool :=
  existsb (λ word, contains word (keepBytes t false)) credentialWords
  || existsb (λ uri, contains uri (keepBytes t true)) connectionURI.

Definition MayHoldCredential (query : text) : bool :=
  existsb reading_shows [query; decodeEscapeString query; decodeUnicodeString query].

(** ** Names (identity.go) *)

Definition IdentityMaxBytes : nat := 64.

(** The loop that moves the cut back to a character boundary. *)
Fixpoint cut_back (cut : nat) (s : text) : nat :=
  match cut with
  | O => O
  | S k => match s !! cut with Some c => if RuneStart c then cut else cut_back k s | None => cut end
  end.

Definition truncateUTF8 (s : text) (max : nat) : text :=
  if bool_decide (length s ≤ max)%nat then s else take (cut_back max s) s.

Definition Identity (name : text) : text :=
  if MayHoldCredential name then Withheld
  else
    let cut := truncateUTF8 name IdentityMaxBytes in
    if MayHoldCredential cut then Withheld else cut.

(** ** The readings, declared *)

(** The digits [ds] of a base are read where another digit does not follow, or where
    the limit is reached. *)
Definition all_digits (base : Z) (ds : text) : Prop := Forall (λ c, is_Some (digit_value base c)) ds.
Definition no_digit (base : Z) (s : text) : Prop := match s with c :: _ => digit_value base c = None | [] => True end.
Definition number (base : Z) (ds : text) : Z := foldl (λ v c, v * base + default 0 (digit_value base c)) 0 ds.

(** The escapes of an escape string: [escape_form e s out] when [e], behind a backslash
    and before [s], stands for [out]. *)
Inductive escape_form : text → text → text → Prop :=
  | form_blank c s : c ∈ str "bfnrt" → escape_form [c] s [" "%byte]
  | form_octal c ds s : all_digits 8 (c :: ds) → (length ds ≤ 2)%nat → (length ds = 2%nat ∨ no_digit 8 s) →
      escape_form (c :: ds) s [byte_of_Z (number 8 (c :: ds))]
  | form_hex ds s : all_digits 16 ds → (1 ≤ length ds ≤ 2)%nat → (length ds = 2%nat ∨ no_digit 16 s) →
      escape_form ("x"%byte :: ds) s [byte_of_Z (number 16 ds)]
  | form_u4 ds s : all_digits 16 ds → length ds = 4%nat → escape_form ("u"%byte :: ds) s (append_rune (number 16 ds))
  | form_u8 ds s : all_digits 16 ds → length ds = 8%nat →
      escape_form ("U"%byte :: ds) s (append_rune (wrap32 (number 16 ds)))
  | form_self c s : c ∉ str "bfnrt" → is_octal c = false → (c = "x"%byte → no_digit 16 s) →
      (c = "u"%byte → ¬ ∃ ds r, s = ds ++ r ∧ all_digits 16 ds ∧ length ds = 4%nat) →
      (c = "U"%byte → ¬ ∃ ds r, s = ds ++ r ∧ all_digits 16 ds ∧ length ds = 8%nat) →
      escape_form [c] s [c].

(** The escapes of a Unicode string. *)
Inductive unicode_form : text → text → text → Prop :=
  | form_4 ds s : all_digits 16 ds → length ds = 4%nat → ValidRune (number 16 ds) = true →
      unicode_form ds s (append_rune (number 16 ds))
  | form_6 ds s : all_digits 16 ds → length ds = 6%nat → ValidRune (number 16 ds) = true →
      unicode_form ("+"%byte :: ds) s (append_rune (number 16 ds))
  | form_char c s :
      (c ≠ "+"%byte → ∀ ds r, c :: s = ds ++ r → all_digits 16 ds → length ds = 4%nat → ValidRune (number 16 ds) = false) →
      (c = "+"%byte → ∀ ds r, s = ds ++ r → all_digits 16 ds → length ds = 6%nat → ValidRune (number 16 ds) = false) →
      unicode_form [c] s [c].

(** A text read with its escapes: every byte stands for itself, but a backslash with
    something behind it begins an escape. *)
Inductive reads (form : text → text → text → Prop) : text → text → Prop :=
  | reads_nil : reads form [] []
  | reads_byte c s m : c ≠ backslash ∨ s = [] → reads form s m → reads form (c :: s) (c :: m)
  | reads_escape e s out m : e ≠ [] → form e s out → reads form s m → reads form (backslash :: e ++ s) (out ++ m).

(** A word spelled in a text: its bytes in order, letters in either case, with bytes
    that are not kept anywhere between them. *)
Inductive spells (uri : bool) : text → text → Prop :=
  | spells_nil : spells uri [] []
  | spells_other c w s : keep_byte uri c = None → spells uri w s → spells uri w (c :: s)
  | spells_byte c w s : is_Some (keep_byte uri c) → spells uri w s → spells uri (lower_byte c :: w) (c :: s).

Definition shows_credential (r : text) : Prop :=
  ∃ a s b, r = a ++ s ++ b ∧
    ((∃ word, word ∈ credentialWords ∧ spells false word s) ∨ (∃ uri, uri ∈ connectionURI ∧ spells true uri s)).

(** ** Digits *)

Lemma digit_value_range base c d : digit_value base c = Some d → 0 ≤ d < base.
Proof.
  unfold digit_value, hexValue. intros H.
  destruct (is_digit c) eqn:E1; [|destruct (between "a" "f" c) eqn:E2; [|destruct (between "A" "F" c) eqn:E3]];
    simplify_eq; destruct (base <=? _) eqn:E; simplify_eq; zbool;
    repeat match goal with H : is_digit _ = true |- _ => unfold is_digit in H | H : between _ _ _ = true |- _ => apply between_spec in H end;
    split; [|done| |done| |done];
    match goal with H : Z_of_byte ?x ≤ _ ≤ _ |- _ => change (Z_of_byte x) with ltac:(let v := eval vm_compute in (Z_of_byte x) in exact v) in H end; lia.
Qed.

Lemma read_digits_app limit base ds s v : all_digits base ds → (length ds ≤ limit)%nat → (length ds = limit ∨ no_digit base s) →
  read_digits limit base (ds ++ s) v = (foldl (λ v c, v * base + default 0 (digit_value base c)) v ds, length ds).
Proof.
  intros Hds. revert limit v. induction Hds as [|c ds [d Hd] Hds IH]; intros limit v Hlen Hend; cbn in *.
  - destruct limit as [|limit]; [done|]. destruct Hend as [?|Hend]; [done|]. destruct s as [|c s]; [done|]. cbn in *.
    by rewrite Hend.
  - destruct limit as [|limit]; [lia|]. cbn. rewrite Hd, IH; [done|lia|]. destruct Hend; [left; lia|by right].
Qed.

Lemma readDigits_app limit base ds s : all_digits base ds → (length ds ≤ limit)%nat → (length ds = limit ∨ no_digit base s) →
  readDigits (ds ++ s) limit base = (number base ds, length ds).
Proof. apply read_digits_app. Qed.

(** Every text starts with the digits [readDigits] reads. *)
Lemma readDigits_split limit base s : ∃ ds r, s = ds ++ r ∧ all_digits base ds ∧ (length ds ≤ limit)%nat ∧
  (length ds = limit ∨ no_digit base r) ∧ readDigits s limit base = (number base ds, length ds).
Proof.
  assert (∃ ds r, s = ds ++ r ∧ all_digits base ds ∧ (length ds ≤ limit)%nat ∧ (length ds = limit ∨ no_digit base r)) as
    (ds & r & -> & Hds & Hlen & Hend).
  { revert s. induction limit as [|limit IH]; intros s; [exists [], s; repeat split; [constructor|done|by left]|].
    destruct s as [|c s]; [exists [], []; repeat split; [constructor|cbn; lia|by right]|].
    destruct (digit_value base c) as [d|] eqn:E; [|exists [], (c :: s); repeat split; [constructor|cbn; lia|by right]].
    destruct (IH s) as (ds & r & -> & Hds & Hlen & Hend). exists (c :: ds), r.
    repeat split; [by constructor|cbn; lia|destruct Hend; [left; cbn; lia|by right]]. }
  exists ds, r. repeat split; [done..|]. by apply readDigits_app.
Qed.

Lemma foldl_number_range base ds v k : 0 < base → all_digits base ds → 0 ≤ v < base ^ Z.of_nat k →
  0 ≤ foldl (λ v c, v * base + default 0 (digit_value base c)) v ds < base ^ Z.of_nat (k + length ds).
Proof.
  intros Hb Hds. revert v k. induction Hds as [|c ds [d Hd] Hds IH]; intros v k Hv; cbn [foldl length].
  - by rewrite Nat.add_0_r.
  - rewrite <- Nat.add_succ_comm. apply IH. rewrite Hd. cbn. apply digit_value_range in Hd.
    rewrite Nat2Z.inj_succ, Z.pow_succ_r by lia. nia.
Qed.

Lemma wrap32_number ds : all_digits 16 ds → (length ds ≤ 7)%nat → wrap32 (number 16 ds) = number 16 ds.
Proof.
  intros Hds Hlen. pose proof (foldl_number_range 16 ds 0 0 ltac:(lia) Hds ltac:(cbn; lia)) as Hr. fold (number 16 ds) in Hr.
  assert (16 ^ Z.of_nat (0 + length ds) ≤ 16 ^ 7) by (apply Z.pow_le_mono_r; lia).
  unfold wrap32. rewrite Z.mod_small; lia.
Qed.

(** ** The loop computes the declared reading *)

Section decoder.
Context (seq : byte → text → text * nat) (form : text → text → text → Prop).
Hypothesis form_seq : ∀ c e s out, form (c :: e) s out → seq c (e ++ s) = (out, length (c :: e)).
Hypothesis seq_form : ∀ c s, ∃ e r, s = e ++ r ∧ length (c :: e) = (seq c s).2 ∧ form (c :: e) r (seq c s).1.

Lemma decode_with_skip n t : decode_with seq n t = decode_with seq 0 (drop n t).
Proof using Type.
  revert n. induction t as [|c t IH]; intros [|n]; [done..|]. cbn [decode_with]. rewrite IH. done.
Qed.

Lemma decode_with_reads t m : reads form t m → decode_with seq 0 t = m.
Proof using form_seq.
  induction 1 as [|c s m Hc _ IH|e s out m He Hf _ IH]; [done| |].
  - destruct s as [|d s]; cbn [decode_with] in *; [by subst m|]. destruct Hc as [Hc|?]; [|done].
    rewrite bool_decide_eq_false_2 by done. by rewrite IH.
  - destruct e as [|c e]; [done|]. change ((c :: e) ++ s) with (c :: (e ++ s)). cbn [decode_with].
    rewrite bool_decide_eq_true_2 by done. rewrite (form_seq _ _ _ _ Hf).
    cbn [decode_with length]. by rewrite decode_with_skip, drop_app_length, IH.
Qed.

Lemma reads_decode_with t : reads form t (decode_with seq 0 t).
Proof using seq_form.
  remember (length t) as n eqn:En. revert t En. induction (lt_wf n) as [n _ IH]. intros [|c [|d s]] ->; cbn [decode_with].
  - constructor.
  - apply reads_byte; [by right|constructor].
  - case_bool_decide as Hc.
    + subst c. destruct (seq_form d s) as (e & r & -> & Hn & Hf). destruct (seq d (e ++ r)) as [out k]. cbn in Hn, Hf.
      change (d :: e ++ r) with ((d :: e) ++ r). apply reads_escape; [done|done|].
      rewrite <- Hn. cbn [decode_with length app]. rewrite decode_with_skip, drop_app_length.
      eapply IH; [|done]. cbn. rewrite length_app. lia.
    + apply reads_byte; [by left|]. eapply IH; [|done]. cbn. lia.
Qed.
End decoder.

(** ** Escape strings *)

Lemma octal_digit c : is_octal c = bool_decide (is_Some (digit_value 8 c)).
Proof. revert c. by_bytes. Qed.

Lemma hex_digit c : bool_decide (is_Some (hexValue c)) = bool_decide (is_Some (digit_value 16 c)).
Proof. revert c. by_bytes. Qed.

Lemma octal_not_blank c : is_octal c = true → c ∉ str "bfnrt".
Proof.
  intros Ho. apply (bool_decide_eq_false (c ∈ str "bfnrt")). revert Ho. revert c. by_bytes.
Qed.

(** A full-width run of digits is there exactly when [readDigits] reads as many. *)
Lemma readDigits_full limit base s : (readDigits s limit base).2 = limit ↔ ∃ ds r, s = ds ++ r ∧ all_digits base ds ∧ length ds = limit.
Proof.
  destruct (readDigits_split limit base s) as (ds & r & -> & Hd & Hlen & Hend & E). split.
  - rewrite E. intros Hl. by exists ds, r.
  - intros (ds' & r' & -> & Hd' & Hl'). rewrite readDigits_app; [done..|lia|by left].
Qed.

Lemma hex_guard s : match s with d :: _ => bool_decide (is_Some (hexValue d)) | [] => false end = false ↔ no_digit 16 s.
Proof.
  destruct s as [|d s]; cbn; [done|]. rewrite hex_digit, bool_decide_eq_false, <- eq_None_not_Some. done.
Qed.

Lemma escape_form_seq c e s out : escape_form (c :: e) s out → escape_sequence c (e ++ s) = (out, length (c :: e)).
Proof.
  unfold escape_sequence. inversion 1 as [? ? Hin|? ? ? Hd Hlen Hend|ds ? Hd Hlen Hend|ds ? Hd Hlen|ds ? Hd Hlen|? ? Hin Ho Hx Hu HU]; subst.
  - by rewrite bool_decide_eq_true_2.
  - assert (is_octal c = true) as Ho by (rewrite octal_digit; apply bool_decide_eq_true; by apply Forall_cons in Hd as [? _]).
    pose proof (octal_not_blank c Ho) as Hin. rewrite bool_decide_eq_false_2 by done. rewrite Ho.
    change (c :: e ++ s) with ((c :: e) ++ s). rewrite readDigits_app; [done..|cbn; lia|].
    destruct Hend; [left; cbn; lia|by right].
  - change (bool_decide ("x"%byte ∈ str "bfnrt")) with false. change (is_octal "x") with false. cbn -[readDigits].
    destruct e as [|d e]; [cbn in Hlen; lia|]. cbn [app].
    replace (bool_decide (is_Some (hexValue d))) with true by (symmetry; rewrite hex_digit; apply bool_decide_eq_true; by apply Forall_cons in Hd as [? _]).
    change (d :: e ++ s) with ((d :: e) ++ s). rewrite readDigits_app; [done..|lia|done].
  - change (bool_decide ("u"%byte ∈ str "bfnrt")) with false. change (is_octal "u") with false.
    change (bool_decide ("u"%byte = "x"%byte)) with false. change (bool_decide ("u"%byte = "u"%byte)) with true.
    change (bool_decide ("u"%byte = "U"%byte)) with false. cbn -[readDigits wrap32].
    rewrite readDigits_app by (done || lia || by left). rewrite Hlen. cbn -[wrap32]. by rewrite wrap32_number by (done || lia).
  - change (bool_decide ("U"%byte ∈ str "bfnrt")) with false. change (is_octal "U") with false.
    change (bool_decide ("U"%byte = "x"%byte)) with false. change (bool_decide ("U"%byte = "u"%byte)) with false.
    change (bool_decide ("U"%byte = "U"%byte)) with true. cbn -[readDigits wrap32].
    rewrite readDigits_app by (done || lia || by left). rewrite Hlen. done.
  - rewrite bool_decide_eq_false_2 by done. rewrite Ho. cbn [app].
    assert (bool_decide (c = "x"%byte) && match s with d :: _ => bool_decide (is_Some (hexValue d)) | [] => false end = false) as ->.
    { case_bool_decide as Ex; [|done]. by apply hex_guard, Hx. }
    case_bool_decide as E1; [|case_bool_decide as E2]; subst; cbn -[readDigits]; [| |done].
    + change (bool_decide ("u"%byte = "U"%byte)) with false. pose proof (Hu eq_refl) as Hno. rewrite <- readDigits_full in Hno; revert Hno. destruct (readDigits s 4 16) as [v n]; intros Hno; cbn in Hno |- *. by rewrite bool_decide_eq_false_2.
    + change (bool_decide ("U"%byte = "U"%byte)) with true. pose proof (HU eq_refl) as Hno. rewrite <- readDigits_full in Hno; revert Hno. destruct (readDigits s 8 16) as [v n]; intros Hno; cbn in Hno |- *. by rewrite bool_decide_eq_false_2.
Qed.

Lemma escape_seq_form c s : ∃ e r, s = e ++ r ∧ length (c :: e) = (escape_sequence c s).2 ∧ escape_form (c :: e) r (escape_sequence c s).1.
Proof.
  unfold escape_sequence. case_bool_decide as Hin; [exists [], s; repeat split; by constructor|].
  destruct (is_octal c) eqn:Ho.
  { destruct (readDigits_split 3 8 (c :: s)) as (ds & r & E & Hd & Hlen & Hend & ->).
    rewrite octal_digit in Ho. apply bool_decide_eq_true in Ho as [d Hc].
    destruct ds as [|c' ds]; [destruct Hend as [?|Hend]; [done|]; cbn in E; subst r; cbn in Hend; congruence|].
    injection E as <- ->. exists ds, r. repeat split. constructor; [done|cbn in Hlen; lia|].
    destruct Hend as [Hend|?]; [left; cbn in Hend; lia|by right]. }
  destruct (bool_decide (c = "x"%byte) && _) eqn:Hx.
  { apply andb_true_iff in Hx as [->%bool_decide_eq_true Hx]. destruct (readDigits_split 2 16 s) as (ds & r & -> & Hd & Hlen & Hend & ->).
    exists ds, r. repeat split. constructor; [done| |done]. destruct ds; [|cbn in *; lia]. destruct Hend as [?|Hend]; [done|].
    apply hex_guard in Hend. cbn in Hx. congruence. }
  assert (c = "x"%byte → no_digit 16 s) as Hx' by (intros ->; by apply hex_guard).
  destruct (bool_decide (c = "u"%byte) || bool_decide (c = "U"%byte)) eqn:Hu.
  2:{ apply orb_false_iff in Hu as [Hu%bool_decide_eq_false HU%bool_decide_eq_false]. exists [], s. repeat split. by constructor. }
  assert (∃ k, (c = "u"%byte ∧ k = 4 ∨ c = "U"%byte ∧ k = 8)%nat ∧ (if bool_decide (c = "U"%byte) then 8 else 4)%nat = k) as (k & Hk & ->).
  { apply orb_true_iff in Hu as [->%bool_decide_eq_true| ->%bool_decide_eq_true].
    - exists 4%nat. split; [by left|done].
    - exists 8%nat. split; [by right|done]. }
  destruct (readDigits_split k 16 s) as (ds & r & -> & Hd & Hlen & Hend & Er). rewrite Er. clear Hu Hx.
  case_bool_decide as El; cbn.
  - exists ds, r. repeat split. destruct Hk as [[-> ->]|[-> ->]]; [rewrite wrap32_number; [|done|lia]|]; by constructor.
  - exists [], (ds ++ r). repeat split. apply form_self; [done..| |]; intros Ec; rewrite <- readDigits_full; destruct Hk as [[? ->]|[? ->]]; try congruence; by rewrite Er.
Qed.

(** ** Unicode strings *)

Lemma unicode_form_seq c e s out : unicode_form (c :: e) s out → unicode_sequence c (e ++ s) = (out, length (c :: e)).
Proof.
  unfold unicode_sequence. inversion 1 as [? ? Hd Hlen Hv|? ? Hd Hlen Hv|? ? H4 H6]; subst.
  - assert (c ≠ "+"%byte) as Hc by (intros ->; apply Forall_cons in Hd as [[? [=]] _]).
    rewrite bool_decide_eq_false_2 by done. change (c :: e ++ s) with ((c :: e) ++ s).
    rewrite readDigits_app by (done || lia || by left). rewrite wrap32_number by (done || lia).
    by rewrite bool_decide_eq_true_2, Hv.
  - rewrite bool_decide_eq_true_2 by done.
    rewrite readDigits_app by (done || lia || by left). rewrite wrap32_number by (done || lia).
    by rewrite bool_decide_eq_true_2, Hv.
  - cbn [app]. assert (∀ k t, k = 4%nat ∨ k = 6%nat → (∀ ds r, t = ds ++ r → all_digits 16 ds → length ds = k → ValidRune (number 16 ds) = false) →
      bool_decide ((readDigits t k 16).2 = k) && ValidRune (wrap32 (readDigits t k 16).1) = false) as Hno.
    { intros k t Hk Ht. destruct (readDigits_split k 16 t) as (ds & r & -> & Hd & _ & _ & ->). cbn.
      case_bool_decide as El; [|done]. rewrite wrap32_number by (done || lia). by eapply Ht. }
    case_bool_decide as Hc.
    + specialize (Hno 6%nat s (or_intror eq_refl) (H6 Hc)). destruct (readDigits s 6 16) as [v n]. cbn [fst snd] in Hno. by rewrite Hno.
    + specialize (Hno 4%nat (c :: s) (or_introl eq_refl) (H4 Hc)). destruct (readDigits (c :: s) 4 16) as [v n]. cbn [fst snd] in Hno. by rewrite Hno.
Qed.

Lemma unicode_seq_form c s : ∃ e r, s = e ++ r ∧ length (c :: e) = (unicode_sequence c s).2 ∧ unicode_form (c :: e) r (unicode_sequence c s).1.
Proof.
  unfold unicode_sequence. destruct (decide (c = "+"%byte)) as [->|Hc].
  - rewrite bool_decide_eq_true_2 by done. destruct (readDigits_split 6 16 s) as (ds & r & -> & Hd & Hlen & Hend & ->).
    rewrite wrap32_number by (done || lia). destruct (bool_decide (length ds = 6%nat) && ValidRune (number 16 ds)) eqn:E; cbn.
    + apply andb_true_iff in E as [El%bool_decide_eq_true Ev]. exists ds, r. repeat split. by constructor.
    + exists [], (ds ++ r). repeat split. apply form_char; [done|]. intros _ ds' r' E' Hd' Hl'.
      assert (length ds = 6%nat) as Hl.
      { pose proof (proj2 (readDigits_full 6 16 (ds ++ r)) ltac:(eauto)) as Hf. by rewrite readDigits_app in Hf. }
      apply app_inj_1 in E' as [-> _]; [|congruence]. by rewrite bool_decide_eq_true_2 in E.
  - rewrite bool_decide_eq_false_2 by done. destruct (readDigits_split 4 16 (c :: s)) as (ds & r & E0 & Hd & Hlen & Hend & Er).
    rewrite Er. rewrite wrap32_number by (done || lia).
    destruct (bool_decide (length ds = 4%nat) && ValidRune (number 16 ds)) eqn:E; cbn.
    + apply andb_true_iff in E as [El%bool_decide_eq_true Ev]. destruct ds as [|c' ds]; [done|]. injection E0 as <- ->.
      exists ds, r. repeat split. by constructor.
    + exists [], s. repeat split. apply form_char; [|done]. intros _ ds' r' E' Hd' Hl'.
      assert (length ds = 4%nat) as Hl.
      { pose proof (proj2 (readDigits_full 4 16 (c :: s)) ltac:(eauto)) as Hf. by rewrite Er in Hf. }
      rewrite E0 in E'. apply app_inj_1 in E' as [-> _]; [|congruence]. by rewrite bool_decide_eq_true_2 in E.
Qed.

(** Without a backslash a text reads as itself. *)
Lemma decode_with_plain seq t : backslash ∉ t → decode_with seq 0 t = t.
Proof.
  induction t as [|c [|d s] IH]; intros Hb; [done..|].
  assert (decode_with seq 0 (d :: s) = d :: s) as E by (apply IH; intros Hin; apply Hb; by right). cbn [decode_with].
  rewrite bool_decide_eq_false_2 by (intros ->; apply Hb; left). f_equal. exact E.
Qed.

Lemma decodeEscapeString_eq t : decodeEscapeString t = decode_with escape_sequence 0 t.
Proof. unfold decodeEscapeString. case_bool_decide; [done|]. by rewrite decode_with_plain. Qed.

Lemma decodeUnicodeString_eq t : decodeUnicodeString t = decode_with unicode_sequence 0 t.
Proof. unfold decodeUnicodeString. case_bool_decide; [done|]. by rewrite decode_with_plain. Qed.

Lemma decodeEscapeString_reads t m : decodeEscapeString t = m ↔ reads escape_form t m.
Proof.
  rewrite decodeEscapeString_eq. split.
  - intros <-. apply reads_decode_with, escape_seq_form.
  - apply decode_with_reads, escape_form_seq.
Qed.

Lemma decodeUnicodeString_reads t m : decodeUnicodeString t = m ↔ reads unicode_form t m.
Proof.
  rewrite decodeUnicodeString_eq. split.
  - intros <-. apply reads_decode_with, unicode_seq_form.
  - apply decode_with_reads, unicode_form_seq.
Qed.

(** ** Spelled words *)

Lemma keep_byte_lower uri c d : keep_byte uri c = Some d → d = lower_byte c.
Proof. revert d. destruct uri; revert c; intros c; destruct c; vm_compute; congruence. Qed.

Lemma spells_keepBytes uri w s : spells uri w s ↔ keepBytes s uri = w.
Proof.
  split.
  - induction 1 as [|c w s Hc _ IH|c w s [d Hc] _ IH]; cbn; [done| |].
    + by rewrite Hc.
    + rewrite Hc. apply keep_byte_lower in Hc as ->. by rewrite <- IH.
  - intros <-. induction s as [|c s IH]; cbn; [constructor|]. destruct (keep_byte uri c) as [d|] eqn:E.
    + pose proof (keep_byte_lower _ _ _ E) as ->. constructor; [by eexists|done].
    + by constructor.
Qed.

Lemma omap_eq_app {A B} (f : A → option B) l x y : omap f l = x ++ y → ∃ l1 l2, l = l1 ++ l2 ∧ omap f l1 = x ∧ omap f l2 = y.
Proof.
  revert x. induction l as [|a l IH]; cbn; intros x E; [symmetry in E; apply app_eq_nil in E as [-> ->]; by exists [], []|].
  destruct (f a) as [b|] eqn:Ea.
  - destruct x as [|b' x]; [exists [], (a :: l); repeat split; cbn; by rewrite Ea|]. injection E as <- E.
    destruct (IH x E) as (l1 & l2 & -> & <- & <-). exists (a :: l1), l2. repeat split. cbn. by rewrite Ea.
  - destruct (IH x E) as (l1 & l2 & -> & <- & <-). exists (a :: l1), l2. repeat split. cbn. by rewrite Ea.
Qed.

Lemma contains_keepBytes uri w t : contains w (keepBytes t uri) = true ↔ ∃ a s b, t = a ++ s ++ b ∧ spells uri w s.
Proof.
  rewrite contains_spec. unfold keepBytes. split.
  - intros (x & y & E). apply omap_eq_app in E as (a & l & -> & <- & E). apply omap_eq_app in E as (s & b & -> & E & <-).
    exists a, s, b. split; [done|]. by apply spells_keepBytes.
  - intros (a & s & b & -> & Hs%spells_keepBytes). exists (keepBytes a uri), (keepBytes b uri).
    by rewrite !omap_app, <- Hs.
Qed.

Lemma reading_shows_spec r : reading_shows r = true ↔ shows_credential r.
Proof.
  unfold reading_shows, shows_credential. rewrite orb_true_iff, !existsb_exists. split.
  - intros [(w & Hw & (a & s & b & E & Hs)%contains_keepBytes)|(w & Hw & (a & s & b & E & Hs)%contains_keepBytes)];
      exists a, s, b; (split; [done|]); [left|right]; exists w; by rewrite list_elem_of_In.
  - intros (a & s & b & E & [(w & Hw%list_elem_of_In & Hs)|(w & Hw%list_elem_of_In & Hs)]); [left|right];
      exists w; (split; [done|]); apply contains_keepBytes; eauto.
Qed.

(** C25: A text is withheld exactly when it shows a credential in one of three readings:
    as written, as an escape string, or as a Unicode string, where the readings are those
    of the declared grammars of escapes and not of the decoders' loops. Showing one means
    that password, passwd, secret, uescape or the scheme of a connection URI is spelled
    somewhere, in any case and with any separating bytes between its letters. *)
Theorem credential_detected_iff query :
  MayHoldCredential query = true ↔
    ∃ r, (r = query ∨ reads escape_form query r ∨ reads unicode_form query r) ∧ shows_credential r.
Proof.
  unfold MayHoldCredential. cbn [existsb]. rewrite !orb_true_iff, !reading_shows_spec. split.
  - intros [?|[?|[?|[=]]]]; eexists; (split; [|done]); [by left|right; left|right; right];
      [by apply decodeEscapeString_reads|by apply decodeUnicodeString_reads].
  - intros (r & [->|[<-%decodeEscapeString_reads|<-%decodeUnicodeString_reads]] & Hr); tauto.
Qed.

(** ** Names *)

(** The prefix of [s] of [k] bytes ends on a character boundary. *)
Definition at_boundary (s : text) (k : nat) : Prop := k = 0%nat ∨ ∀ c, s !! k = Some c → RuneStart c = true.

Lemma cut_back_spec max s : (cut_back max s ≤ max)%nat ∧ at_boundary s (cut_back max s) ∧
  ∀ k, (cut_back max s < k ≤ max)%nat → ¬ at_boundary s k.
Proof.
  induction max as [|m (IH1 & IH2 & IH3)]; cbn [cut_back].
  - split; [lia|]. split; [by left|]. intros k Hk. lia.
  - destruct (s !! S m) as [c|] eqn:E; [destruct (RuneStart c) eqn:Ec|].
    + split; [lia|]. split; [|lia]. right. intros c' Hc'. congruence.
    + split; [lia|]. split; [done|]. intros k Hk. destruct (decide (k = S m)) as [->|]; [|apply IH3; lia].
      intros [?|Hb]; [lia|]. specialize (Hb c E). congruence.
    + split; [lia|]. split; [|lia]. right. intros c'. by rewrite E.
Qed.

(** The form in which a name is shipped: at most 64 bytes, without a sign of a
    credential, and shipping it again changes nothing. It is either the text that
    stands for a withheld name, which every name with a sign becomes, or the longest
    prefix of the name that fits and does not cut a character; a name without a sign
    that fits is shipped as it is. *)
Theorem identity_contract name :
  let out := Identity name in
  (length out ≤ IdentityMaxBytes)%nat ∧
  MayHoldCredential out = false ∧
  Identity out = out ∧
  (MayHoldCredential name = true → out = Withheld) ∧
  (out = Withheld ∨
   out = take (length out) name ∧ at_boundary name (length out) ∧
     ∀ k, (length out < k ≤ IdentityMaxBytes)%nat → (k ≤ length name)%nat → ¬ at_boundary name k) ∧
  (MayHoldCredential name = false → (length name ≤ IdentityMaxBytes)%nat → out = name).
Proof.
  cbn zeta. assert (∀ s, MayHoldCredential s = false → (length s ≤ IdentityMaxBytes)%nat → Identity s = s) as Hsmall.
  { intros s Hs Hl. unfold Identity, truncateUTF8. rewrite Hs, bool_decide_eq_true_2 by done. by rewrite Hs. }
  assert (MayHoldCredential Withheld = false) as HW by (vm_compute; reflexivity).
  assert (length Withheld ≤ IdentityMaxBytes)%nat as HL by (vm_compute; lia).
  destruct (MayHoldCredential name) eqn:En.
  { assert (Identity name = Withheld) as -> by (unfold Identity; by rewrite En). by split_and!; auto. }
  destruct (MayHoldCredential (truncateUTF8 name IdentityMaxBytes)) eqn:Ec.
  { assert (Identity name = Withheld) as -> by (unfold Identity; by rewrite En, Ec). split_and!; auto. intros _ Hl.
    unfold truncateUTF8 in Ec. rewrite bool_decide_eq_true_2 in Ec by done. congruence. }
  assert (Identity name = truncateUTF8 name IdentityMaxBytes) as -> by (unfold Identity; by rewrite En, Ec).
  destruct (cut_back_spec IdentityMaxBytes name) as (Hle & Hb & Hmax).
  unfold truncateUTF8 in *. case_bool_decide as Hl.
  - split_and!; auto; [done|]. right. rewrite firstn_all. split_and!; [done| |lia]. right. intros c Hc.
    apply lookup_lt_Some in Hc. lia.
  - assert (length (take (cut_back IdentityMaxBytes name) name) = cut_back IdentityMaxBytes name) as El by (rewrite length_take; lia).
    rewrite El. split_and!; [lia|done| |done| |lia].
    + apply Hsmall; [done|lia].
    + right. split_and!; [done..|]. intros k Hk _. by apply Hmax.
Qed.

(** ** Examples *)

(** A password built from pieces, one spelled with escapes, and a cast that is none. *)
Example split_word : MayHoldCredential "ALTER ROLE r 'pass' || 'Word' 'x'" = true.
Proof. vm_compute. reflexivity. Qed.

Example octal_word : MayHoldCredential "E'\160\141ss\x77\u006frd' " = true.
Proof. vm_compute. reflexivity. Qed.

Example cast_is_fine : MayHoldCredential "SELECT 'postgres'::text" = false.
Proof. vm_compute. reflexivity. Qed.

Example built_uri : MayHoldCredential "'postgresql:' || '//u:x@h/d'" = true.
Proof. vm_compute. reflexivity. Qed.
