(* ===== verification/Wire.v ===== *)
(** * The push protocol (internal/wire)

    An envelope is what an agent sends in one push: per instance its identity, its
    databases, the results of its checks and its replication edges. Label maps are finite
    maps, with the empty map for an absent one. [f_Labels] and [m_Labels] are read by key
    only or ranged over in an order that [Pipeline] takes as an argument. *)
From S2P Require Import Prelude GoTime GoFloat GoBytes GoText GoJson GoSort Pgtype.

Definition ProtocolVersionMin : Z := 1.
Definition ProtocolVersionCurrent : Z := 3.

Record WMetric := mkMetric {
  m_Name : string;
  m_Labels : gmap string string;
  m_Value : float64;
  m_Kind : string;
}.

Record WFact := mkWFact {
  f_Kind : string;
  f_Key : string;
  f_Labels : gmap string string;
  f_ValueText : string;
  f_ValueJSON : text;
}.

Record Result := mkResult {
  res_Check : string;
  res_TS : Time;
  res_Database : string;
  res_StatsReset : option Time;
  res_Truncated : bool;
  res_Partial : bool;
  res_Error : string;
  res_SkipReason : string;
  res_Metrics : list WMetric;
  res_Facts : list WFact;
  res_QueryTexts : gmap string text;
}.

Record WEdge := mkWEdge {
  we_From : string;
  we_To : string;
  we_Port : Z;
  we_Type : string;
  we_Confidence : string;
}.

Record WDatabase := mkWDatabase { db_Name : string; db_Monitored : bool; db_SkipReason : string }.

Record WInstance := mkWInstance {
  inst_InstanceID : string;
  inst_TargetName : string;
  inst_ClusterID : string;
  inst_ClusterIDSource : string;
  inst_Addr : string;
  inst_Port : Z;
  inst_PGVersion : Z;
  inst_Role : string;
  inst_PermTier : string;
  inst_Capabilities : list string;
  inst_Databases : list WDatabase;
  inst_Results : list Result;
  inst_TopologyEdges : list WEdge;
  inst_ASHEnabled : option bool;
}.

Record Envelope := mkEnvelope {
  env_ProtocolVersion : Z;
  env_AgentID : string;
  env_AgentVersion : string;
  env_SentAt : Time;
  env_Instances : list WInstance;
  env_TransmittedAt : Time;
}.

(** ** Fact kinds (factkinds.go) *)

Definition BloatSkippedTablesMetric : string := "pg_bloat_skipped_tables".
Definition BloatUnreadableFact : string := "bloat_unreadable".

Record FactKind := mkFactKind { fk_Check : string; fk_Replace : bool }.

Definition factKinds : gmap string FactKind := list_to_map
  [("index_def", mkFactKind "index_stats" true);
   ("setting", mkFactKind "settings" true);
   ("lock_tree", mkFactKind "locks" false);
   ("plan", mkFactKind "" false);
   ("check_skip", mkFactKind "" false);
   ("monitoring_role", mkFactKind "monitoring_role" true);
   ("trigger", mkFactKind "trigger_inventory" true);
   ("fk_unindexed", mkFactKind "fk_indexes" true);
   ("extension", mkFactKind "extensions" true);
   ("spatial_column", mkFactKind "postgis_columns" true);
   ("sequence", mkFactKind "sequences" true);
   ("partitioned_table", mkFactKind "partitions" true);
   ("function_tracking", mkFactKind "function_stats" true);
   ("security_definer_function", mkFactKind "function_security" true);
   ("subscription", mkFactKind "logical_replication" true);
   (BloatUnreadableFact, mkFactKind "bloat_estimate" false);
   ("xmin_horizon", mkFactKind "activity" true)].

Definition LookupFactKind (kind : string) : option FactKind := factKinds !! kind.

Definition ReplacedFactKinds (check : string) : list string :=
  sort_strings (map_to_list (filter (λ x, x.2.(fk_Replace) = true ∧ x.2.(fk_Check) = check) factKinds)).*1.

(** ** Facts *)

Definition nonempty (s : string) : bool := negb (bool_decide (s = "")).

Definition EmptySetting (f : WFact) : bool :=
  bool_decide (f.(f_Kind) = "setting") && bool_decide (f.(f_ValueText) = "") && bool_decide (f.(f_ValueJSON) = []).

Inductive fact_error := FactNoKind | FactNoKey | FactUnknownKind | FactNotOneValue | FactMalformed.

Definition Fact_Validate `{JsonCodec} (f : WFact) : option fact_error :=
  if bool_decide (f.(f_Kind) = "") then Some FactNoKind
  else if bool_decide (f.(f_Key) = "") then Some FactNoKey
  else match LookupFactKind f.(f_Kind) with
  | None => Some FactUnknownKind
  | Some _ =>
      let textSet := nonempty f.(f_ValueText) in
      let jsonSet := negb (bool_decide (f.(f_ValueJSON) = [])) in
      if EmptySetting f then None
      else if Bool.eqb textSet jsonSet then Some FactNotOneValue
      else if jsonSet && negb (json_Valid f.(f_ValueJSON)) then Some FactMalformed
      else None
  end.
