(* ===== verification/Store.v ===== *)
(** * The rows and tables of the store (internal/store/write.go)

    Each [Write] function of the source is the list of statements it sends, [apply_stmt]
    what a statement does to the tables. A table is a map from its unique key; the seven
    sample tables are one map whose keys name the table. The nullable columns of a sample
    row (pointer fields of the structs) are a map from the field's name, without an entry
    for nil. [db_now] is the database's [now()], one instant per transaction. *)
From S2P Require Import Prelude GoTime GoFloat GoBytes GoText GoJson Pgtype AlertTypes PgIds.

(** ** Rows *)

Record MetricRow := mkMetricRow {
  mr_TS : Time;
  mr_TenantID : string;
  mr_ClusterID : Z;
  mr_InstanceID : UUID;
  mr_Datname : string;
  mr_Metric : string;
  mr_Labels : gmap string string;
  mr_SeriesID : Z;
  mr_Value : float64;
}.

Inductive colval := VFloat (x : float64) | VInt (z : Z) | VBool (b : bool) | VText (s : string) | VTime (t : Time).
Abbreviation columns := (gmap string colval).

Record StatementRow := mkStatementRow {
  sr_TS : Time;
  sr_TenantID : string;
  sr_ClusterID : Z;
  sr_InstanceID : UUID;
  sr_Datname : string;
  sr_QueryID : Z;
  sr_cols : columns;
}.

Record ASHRow := mkASHRow {
  ar_TS : Time;
  ar_TenantID : string;
  ar_ClusterID : Z;
  ar_InstanceID : UUID;
  ar_Datname : string;
  ar_WaitEventType : string;
  ar_WaitEvent : string;
  ar_State : string;
  ar_QueryID : option Z;
  ar_Samples : Z;
  ar_WindowSeconds : Z;
  ar_WindowTicks : Z;
}.

Record ReplicationRow := mkReplicationRow {
  rr_TS : Time;
  rr_TenantID : string;
  rr_ClusterID : Z;
  rr_InstanceID : UUID;
  rr_UpstreamID : option UUID;
  rr_SlotName : string;
  rr_EdgeType : string;
  rr_Source : string;
  rr_cols : columns;
}.

Record TableStatRow := mkTableStatRow {
  tr_TS : Time;
  tr_TenantID : string;
  tr_ClusterID : Z;
  tr_InstanceID : UUID;
  tr_Datname : string;
  tr_Schemaname : string;
  tr_Relname : string;
  tr_cols : columns;
}.

Record IndexStatRow := mkIndexStatRow {
  ir_TS : Time;
  ir_TenantID : string;
  ir_ClusterID : Z;
  ir_InstanceID : UUID;
  ir_Datname : string;
  ir_Schemaname : string;
  ir_Relname : string;
  ir_IndexRelname : string;
  ir_cols : columns;
}.

Record BloatRow := mkBloatRow {
  br_TS : Time;
  br_TenantID : string;
  br_ClusterID : Z;
  br_InstanceID : UUID;
  br_Datname : string;
  br_Schemaname : string;
  br_Relname : string;
  br_IndexRelname : string;
  br_ObjectKind : string;
  br_Method : string;
  br_cols : columns;
}.

Record ObjectFactRow := mkObjectFactRow {
  of_TenantID : string;
  of_ClusterID : Z;
  of_InstanceID : UUID;
  of_Datname : string;
  of_Kind : string;
  of_Key : string;
  of_Labels : gmap string string;
  of_ValueText : option string;
  of_ValueJSON : option text;
  of_FirstSeen : Time;
  of_LastSeen : Time;
  of_ChangedAt : Time;
}.

Record LockSnapshotRow := mkLockSnapshotRow {
  ls_TenantID : string;
  ls_InstanceID : UUID;
  ls_ClusterID : Z;
  ls_TS : Time;
  ls_Tree : text;
}.

Record RelationKey := mkRelationKey { rk_Schema : string; rk_Relation : string; rk_Index : string }.

#[export] Instance RelationKey_eq_dec : EqDecision RelationKey.
Proof. solve_decision. Defined.

Record RelationStatsPrune := mkRelationPrune {
  rp_TableName : string;
  rp_TenantID : string;
  rp_InstanceID : UUID;
  rp_Datname : string;
  rp_Before : Time;
  rp_Present : list RelationKey;
}.

Record FactKey := mkFactKey { fk_Kind : string; fk_Key : string }.

#[export] Instance FactKey_eq_dec : EqDecision FactKey.
Proof. solve_decision. Defined.

Record ObjectFactPrune := mkFactPrune {
  fp_TenantID : string;
  fp_InstanceID : UUID;
  fp_Datname : string;
  fp_Kinds : list string;
  fp_Before : Time;
  fp_Present : list FactKey;
}.

Record TopologyEdgeRow := mkEdgeRow {
  te_TenantID : string;
  te_ClusterID : Z;
  te_FromInstance : UUID;
  te_ToInstance : UUID;
  te_EdgeType : string;
  te_SyncState : option string;
  te_Confidence : string;
}.

Record QueryTextRow := mkQueryTextRow {
  qt_TenantID : string;
  qt_ClusterID : Z;
  qt_Datname : string;
  qt_QueryID : Z;
  qt_PGMajor : Z;
  qt_QueryText : text;
  qt_LastSeen : Time;
}.

Record EventRow := mkEventRow {
  ev_TenantID : string;
  ev_TS : Time;
  ev_Type : string;
  ev_ClusterID : option Z;
  ev_InstanceID : option UUID;
  ev_Payload : list (string * any);
}.

(** ** Tables *)

Inductive sample :=
| SMetric (r : MetricRow)
| SStatement (r : StatementRow)
| SASH (r : ASHRow)
| SReplication (r : ReplicationRow)
| STable (r : TableStatRow)
| SIndex (r : IndexStatRow)
| SBloat (r : BloatRow).

(** The table and the columns of its unique index. *)
Definition sample_key : Type := string * list (string + Z).

(** The unique indexes of the sample tables (migrations 0002, 0007 and 0016). *)
Definition dedup (s : sample) : sample_key :=
  match s with
  | SMetric r => ("metrics", [inr r.(mr_SeriesID); inr r.(mr_TS)])
  | SStatement r => ("metrics_statements", [inr r.(sr_InstanceID); inl r.(sr_Datname); inr r.(sr_QueryID); inr r.(sr_TS)])
  | SASH r => ("metrics_ash", [inr r.(ar_InstanceID); inl r.(ar_Datname); inl r.(ar_WaitEventType); inl r.(ar_WaitEvent);
      inl r.(ar_State); inr (default 0 r.(ar_QueryID)); inr r.(ar_TS)])
  | SReplication r => ("metrics_replication", [inr r.(rr_InstanceID); inr (default uuid_Nil r.(rr_UpstreamID)); inl r.(rr_SlotName);
      inl r.(rr_Source); inr r.(rr_TS)])
  | STable r => ("metrics_tables", [inl r.(tr_TenantID); inr r.(tr_InstanceID); inl r.(tr_Datname); inl r.(tr_Schemaname);
      inl r.(tr_Relname); inr r.(tr_TS)])
  | SIndex r => ("metrics_indexes", [inl r.(ir_TenantID); inr r.(ir_InstanceID); inl r.(ir_Datname); inl r.(ir_Schemaname);
      inl r.(ir_IndexRelname); inr r.(ir_TS)])
  | SBloat r => ("metrics_bloat", [inl r.(br_TenantID); inr r.(br_InstanceID); inl r.(br_Datname); inl r.(br_Schemaname);
      inl r.(br_Relname); inl r.(br_IndexRelname); inl r.(br_Method); inr r.(br_TS)])
  end.

Record InstanceRow := mkInstanceRow {
  i_tenant : string;
  i_cluster : Z;
  i_agent : UUID;
  i_addr : string;
  i_port : Z;
  i_pg_version : Z;
  i_role : Role;
  i_perm_tier : string;
  i_target_name : string;
  i_last_seen : Time;
  i_ash_enabled : option bool;
}.

Record DatabaseRow := mkDatabaseRow { d_monitored : bool; d_skip_reason : option string; d_last_seen : Time }.
Record TextRow := mkTextRow { t_text : text; t_first_seen : Time; t_last_seen : Time }.

Definition fact_pk : Type := string * UUID * string * string * string.

Record DB := mkDB {
  agents : gmap UUID (option Time); (* revoked_at *)
  clusters : gmap (string * Z) string; (* id_source *)
  instances : gmap UUID InstanceRow;
  databases : gmap (UUID * string) DatabaseRow;
  events : list EventRow;
  topology_edges : gmap (string * Z * UUID * UUID) TopologyEdgeRow;
  query_texts : gmap (string * Z * string * Z * Z) TextRow;
  object_facts : gmap fact_pk ObjectFactRow;
  lock_snapshots : gmap (string * UUID) LockSnapshotRow;
  samples : gmap sample_key sample;
  temps : gmap string (list sample); (* the transaction's temporary tables *)
}.

Definition empty_store : DB := mkDB ∅ ∅ ∅ ∅ [] ∅ ∅ ∅ ∅ ∅ ∅.

(** An error of a database call: one the server answers with, by its SQLSTATE, or none. *)
Inductive db_err := PgError (code : string) | NoAnswer.

Inductive stmt :=
| InsertSample (s : sample)
| CreateTemp (table : string)
| CopyTemp (table : string) (rows : list sample)
| MoveTemp (table : string)
| DropTemp (table : string)
| DeleteRelations (p : RelationStatsPrune)
| UpsertText (r : QueryTextRow)
| InsertEvent (r : EventRow)
| UpsertFact (r : ObjectFactRow)
| DeleteFacts (p : ObjectFactPrune)
| DeleteSkip (tenant : string) (instance : UUID) (check : string)
| DeletePartial (tenant : string) (instance : UUID) (datname check : string)
| DeleteOldLock (r : LockSnapshotRow)
| UpsertLock (r : LockSnapshotRow)
| DeleteEdges (tenant : string) (cluster : Z) (from : UUID)
| InsertEdge (r : TopologyEdgeRow)
| SetRole (instance : UUID) (role : Role)
| TouchInstances (ids : list UUID)
| InsertCluster (tenant : string) (cluster : Z) (source : string)
| SetSource (tenant : string) (cluster : Z) (source : string)
| InsertAgent (agent : UUID)
| UpdateInstance (instance : UUID) (r : InstanceRow)
| InsertInstance (instance : UUID) (r : InstanceRow)
| UpsertDatabase (instance : UUID) (datname : string) (monitored : bool) (skip_reason : option string)
| DeleteDatabases (instance : UUID) (names : list string)
| InsertRepeatable (r : EventRow) (since : Time) (key attempted : string).

(** ** What a statement does *)

Definition set_agents x d := mkDB x d.(clusters) d.(instances) d.(databases) d.(events) d.(topology_edges) d.(query_texts) d.(object_facts) d.(lock_snapshots) d.(samples) d.(temps).
Definition set_clusters x d := mkDB d.(agents) x d.(instances) d.(databases) d.(events) d.(topology_edges) d.(query_texts) d.(object_facts) d.(lock_snapshots) d.(samples) d.(temps).
Definition set_instances x d := mkDB d.(agents) d.(clusters) x d.(databases) d.(events) d.(topology_edges) d.(query_texts) d.(object_facts) d.(lock_snapshots) d.(samples) d.(temps).
Definition set_databases x d := mkDB d.(agents) d.(clusters) d.(instances) x d.(events) d.(topology_edges) d.(query_texts) d.(object_facts) d.(lock_snapshots) d.(samples) d.(temps).
Definition set_events x d := mkDB d.(agents) d.(clusters) d.(instances) d.(databases) x d.(topology_edges) d.(query_texts) d.(object_facts) d.(lock_snapshots) d.(samples) d.(temps).
Definition set_edges x d := mkDB d.(agents) d.(clusters) d.(instances) d.(databases) d.(events) x d.(query_texts) d.(object_facts) d.(lock_snapshots) d.(samples) d.(temps).
Definition set_texts x d := mkDB d.(agents) d.(clusters) d.(instances) d.(databases) d.(events) d.(topology_edges) x d.(object_facts) d.(lock_snapshots) d.(samples) d.(temps).
Definition set_facts x d := mkDB d.(agents) d.(clusters) d.(instances) d.(databases) d.(events) d.(topology_edges) d.(query_texts) x d.(lock_snapshots) d.(samples) d.(temps).
Definition set_locks x d := mkDB d.(agents) d.(clusters) d.(instances) d.(databases) d.(events) d.(topology_edges) d.(query_texts) d.(object_facts) x d.(samples) d.(temps).
Definition set_samples x d := mkDB d.(agents) d.(clusters) d.(instances) d.(databases) d.(events) d.(topology_edges) d.(query_texts) d.(object_facts) d.(lock_snapshots) x d.(temps).
Definition set_temps x d := mkDB d.(agents) d.(clusters) d.(instances) d.(databases) d.(events) d.(topology_edges) d.(query_texts) d.(object_facts) d.(lock_snapshots) d.(samples) x.

(** [INSERT ... ON CONFLICT DO NOTHING]. *)
Definition insert_new `{Countable K} {V} (k : K) (v : V) (m : gmap K V) : gmap K V :=
  match m !! k with Some _ => m | None => <[k := v]> m end.

(** The CHECK constraints of a sample row. *)
Definition sample_ok (s : sample) : bool :=
  match s with
  | SBloat r => bool_decide (r.(br_ObjectKind) ∈ ["table"; "index"]) && bool_decide (r.(br_Method) ∈ ["estimate"; "pgstattuple"])
  | _ => true
  end.

Definition insert_sample (m : gmap sample_key sample) (s : sample) : gmap sample_key sample := insert_new (dedup s) s m.

Definition relationPruneWindow : Duration := 24 * Hour.

(** Whether a prune removes a sample. *)
Definition relation_gone (p : RelationStatsPrune) (s : sample) : bool :=
  let scoped (tenant : string) (instance : UUID) (datname : string) (ts : Time) :=
    bool_decide (tenant = p.(rp_TenantID)) && bool_decide (instance = p.(rp_InstanceID)) && bool_decide (datname = p.(rp_Datname)) &&
    Before ts p.(rp_Before) && negb (Before ts (Add p.(rp_Before) (- relationPruneWindow))) in
  match s with
  | STable r => bool_decide (p.(rp_TableName) = "metrics_tables") && scoped r.(tr_TenantID) r.(tr_InstanceID) r.(tr_Datname) r.(tr_TS) &&
      negb (existsb (λ k, bool_decide (k.(rk_Schema) = r.(tr_Schemaname)) && bool_decide (k.(rk_Relation) = r.(tr_Relname))) p.(rp_Present))
  | SIndex r => bool_decide (p.(rp_TableName) = "metrics_indexes") && scoped r.(ir_TenantID) r.(ir_InstanceID) r.(ir_Datname) r.(ir_TS) &&
      negb (existsb (λ k, bool_decide (k.(rk_Schema) = r.(ir_Schemaname)) && bool_decide (k.(rk_Index) = r.(ir_IndexRelname))) p.(rp_Present))
  | SBloat r => bool_decide (p.(rp_TableName) = "metrics_bloat") && scoped r.(br_TenantID) r.(br_InstanceID) r.(br_Datname) r.(br_TS) &&
      bool_decide (r.(br_Method) = "estimate") &&
      negb (existsb (λ k, bool_decide (k.(rk_Schema) = r.(br_Schemaname)) && bool_decide (k.(rk_Relation) = r.(br_Relname)) &&
        bool_decide (k.(rk_Index) = r.(br_IndexRelname))) p.(rp_Present))
  | _ => false
  end.

Definition fact_key (r : ObjectFactRow) : fact_pk := (r.(of_TenantID), r.(of_InstanceID), r.(of_Datname), r.(of_Kind), r.(of_Key)).

Definition fact_gone (p : ObjectFactPrune) (r : ObjectFactRow) : bool :=
  bool_decide (r.(of_TenantID) = p.(fp_TenantID)) && bool_decide (r.(of_InstanceID) = p.(fp_InstanceID)) &&
  bool_decide (r.(of_Datname) = p.(fp_Datname)) && bool_decide (r.(of_Kind) ∈ p.(fp_Kinds)) && Before r.(of_LastSeen) p.(fp_Before) &&
  negb (bool_decide (mkFactKey r.(of_Kind) r.(of_Key) ∈ p.(fp_Present))).

(** [payload->>key], for a key that holds a string. *)
Definition payload_text (key : string) (p : list (string * any)) : option string :=
  match find (λ kv, bool_decide (kv.1 = key)) p with Some (_, AString s) => Some s | _ => None end.

(** The fields an instance row takes over from a push; the cluster, the agent, the role
    and [last_seen] stay. *)
Definition refresh_instance (r old : InstanceRow) : InstanceRow :=
  mkInstanceRow old.(i_tenant) old.(i_cluster) old.(i_agent) r.(i_addr) r.(i_port) r.(i_pg_version) old.(i_role) r.(i_perm_tier)
    r.(i_target_name) old.(i_last_seen) r.(i_ash_enabled).

Definition set_role (role : Role) (r : InstanceRow) : InstanceRow :=
  mkInstanceRow r.(i_tenant) r.(i_cluster) r.(i_agent) r.(i_addr) r.(i_port) r.(i_pg_version) role r.(i_perm_tier) r.(i_target_name)
    r.(i_last_seen) r.(i_ash_enabled).
Definition set_last_seen (t : Time) (r : InstanceRow) : InstanceRow :=
  mkInstanceRow r.(i_tenant) r.(i_cluster) r.(i_agent) r.(i_addr) r.(i_port) r.(i_pg_version) r.(i_role) r.(i_perm_tier) r.(i_target_name)
    t r.(i_ash_enabled).

(** Equality of two [jsonb] values, given as texts. *)
Class Jsonb := jsonb_eq : text → text → bool.

Section apply.
Context `{Jsonb}.

Definition same_value (a b : ObjectFactRow) : bool :=
  bool_decide (a.(of_ValueText) = b.(of_ValueText)) &&
  match a.(of_ValueJSON), b.(of_ValueJSON) with Some x, Some y => jsonb_eq x y | None, None => true | _, _ => false end.

(** The upsert of a fact: [first_seen] is kept, [changed_at] moves with the value. *)
Definition upsert_fact (r : ObjectFactRow) (old : option ObjectFactRow) : ObjectFactRow :=
  match old with
  | None => r
  | Some o => mkObjectFactRow o.(of_TenantID) o.(of_ClusterID) o.(of_InstanceID) o.(of_Datname) o.(of_Kind) o.(of_Key) r.(of_Labels)
      r.(of_ValueText) r.(of_ValueJSON) o.(of_FirstSeen) r.(of_LastSeen) (if same_value o r then o.(of_ChangedAt) else r.(of_LastSeen))
  end.

Definition apply_stmt (db_now : Time) (s : stmt) (d : DB) : db_err + DB :=
  match s with
  | InsertSample x => if sample_ok x then inr (set_samples (insert_sample d.(samples) x) d) else inl (PgError "23514")
  | CreateTemp t => match d.(temps) !! t with Some _ => inl (PgError "42P07") | None => inr (set_temps (<[t := []]> d.(temps)) d) end
  | CopyTemp t rows => match d.(temps) !! t with Some l => inr (set_temps (<[t := l ++ rows]> d.(temps)) d) | None => inl (PgError "42P01") end
  | MoveTemp t => match d.(temps) !! t with Some l => if forallb sample_ok l then inr (set_samples (foldl insert_sample d.(samples) l) d) else inl (PgError "23514") | None => inl (PgError "42P01") end
  | DropTemp t => inr (set_temps (delete t d.(temps)) d)
  | DeleteRelations p => inr (set_samples (filter (λ x, relation_gone p x.2 = false) d.(samples)) d)
  | UpsertText r =>
      inr (set_texts (partial_alter (λ o, Some (match o with
        | Some t => mkTextRow t.(t_text) t.(t_first_seen) r.(qt_LastSeen)
        | None => mkTextRow r.(qt_QueryText) r.(qt_LastSeen) r.(qt_LastSeen) end))
        (r.(qt_TenantID), r.(qt_ClusterID), r.(qt_Datname), r.(qt_QueryID), r.(qt_PGMajor)) d.(query_texts)) d)
  | InsertEvent r => inr (set_events (d.(events) ++ [r]) d)
  | UpsertFact r => inr (set_facts (<[fact_key r := upsert_fact r (d.(object_facts) !! fact_key r)]> d.(object_facts)) d)
  | DeleteFacts p => inr (set_facts (filter (λ x, fact_gone p x.2 = false) d.(object_facts)) d)
  | DeleteSkip tenant id check =>
      inr (set_facts (filter (λ x, ¬ (x.2.(of_TenantID) = tenant ∧ x.2.(of_InstanceID) = id ∧ x.2.(of_Kind) = "check_skip" ∧ x.2.(of_Key) = check)) d.(object_facts)) d)
  | DeletePartial tenant id datname check =>
      inr (set_facts (filter (λ x, ¬ (x.2.(of_TenantID) = tenant ∧ x.2.(of_InstanceID) = id ∧ x.2.(of_Datname) = datname ∧
        x.2.(of_Kind) = "check_partial" ∧ x.2.(of_Key) = check)) d.(object_facts)) d)
  | DeleteOldLock r =>
      inr (set_locks (filter (λ x, ¬ (x.2.(ls_TenantID) = r.(ls_TenantID) ∧ x.2.(ls_InstanceID) = r.(ls_InstanceID) ∧
        x.2.(ls_TS) < r.(ls_TS) - 15 * Minute)) d.(lock_snapshots)) d)
  | UpsertLock r =>
      inr (set_locks (partial_alter (λ o, Some (match o with
        | Some old => if After r.(ls_TS) old.(ls_TS) then r else old
        | None => r end)) (r.(ls_TenantID), r.(ls_InstanceID)) d.(lock_snapshots)) d)
  | DeleteEdges tenant cluster from =>
      inr (set_edges (filter (λ x, ¬ (x.2.(te_TenantID) = tenant ∧ x.2.(te_ClusterID) = cluster ∧ x.2.(te_FromInstance) = from)) d.(topology_edges)) d)
  | InsertEdge r =>
      let k := (r.(te_TenantID), r.(te_ClusterID), r.(te_FromInstance), r.(te_ToInstance)) in
      if negb (bool_decide (r.(te_Confidence) ∈ ["high"; "low"])) then inl (PgError "23514")
      else match d.(topology_edges) !! k with
        | Some _ => inl (PgError "23505")
        | None => inr (set_edges (<[k := r]> d.(topology_edges)) d)
        end
  | SetRole id role => inr (set_instances (alter (set_role role) id d.(instances)) d)
  | TouchInstances ids => inr (set_instances (foldr (alter (set_last_seen db_now)) d.(instances) ids) d)
  | InsertCluster tenant cluster source =>
      if negb (bool_decide (source ∈ [IDSourceSystemIdentifier; IDSourceManual])) then inl (PgError "23514")
      else inr (set_clusters (insert_new (tenant, cluster) source d.(clusters)) d)
  | SetSource tenant cluster source =>
      if negb (bool_decide (source ∈ [IDSourceSystemIdentifier; IDSourceManual])) then inl (PgError "23514")
      else inr (set_clusters (alter (λ _, source) (tenant, cluster) d.(clusters)) d)
  | InsertAgent a => inr (set_agents (insert_new a None d.(agents)) d)
  | UpdateInstance id r => inr (set_instances (alter (refresh_instance r) id d.(instances)) d)
  | InsertInstance id r =>
      match d.(instances) !! id with
      | Some old => inr (set_instances (<[id := refresh_instance r old]> d.(instances)) d)
      | None =>
          match d.(agents) !! r.(i_agent), d.(clusters) !! (r.(i_tenant), r.(i_cluster)) with
          | Some _, Some _ => inr (set_instances (<[id := set_last_seen db_now r]> d.(instances)) d)
          | _, _ => inl (PgError "23503")
          end
      end
  | UpsertDatabase id datname monitored skip =>
      match d.(instances) !! id with
      | Some _ => inr (set_databases (<[(id, datname) := mkDatabaseRow monitored skip db_now]> d.(databases)) d)
      | None => inl (PgError "23503")
      end
  | DeleteDatabases id names => inr (set_databases (filter (λ x, ¬ (x.1.1 = id ∧ x.1.2 ∉ names)) d.(databases)) d)
  | InsertRepeatable r since key attempted =>
      if existsb (λ e, bool_decide (e.(ev_TenantID) = r.(ev_TenantID)) && bool_decide (e.(ev_ClusterID) = r.(ev_ClusterID)) &&
          bool_decide (e.(ev_Type) = r.(ev_Type)) && bool_decide (e.(ev_InstanceID) = r.(ev_InstanceID)) &&
          After e.(ev_TS) since && bool_decide (payload_text key e.(ev_Payload) = Some attempted)) d.(events)
      then inr d else inr (set_events (d.(events) ++ [r]) d)
  end.

Fixpoint run_stmts (db_now : Time) (l : list stmt) (d : DB) : db_err + DB :=
  match l with
  | [] => inr d
  | s :: l => match apply_stmt db_now s d with inl e => inl e | inr d => run_stmts db_now l d end
  end.
End apply.

(** ** The writers *)

Definition bulkRows : nat := 500.

(** [WriteMetrics], [WriteASH] and [writeTypedRows]: rows one by one, or a temporary
    table for many. *)
Definition writeTypedRows (table : string) (rows : list sample) : list stmt :=
  if (length rows <? bulkRows)%nat then InsertSample <$> rows
  else [CreateTemp ("tmp_" +:+ table); CopyTemp ("tmp_" +:+ table) rows; MoveTemp ("tmp_" +:+ table); DropTemp ("tmp_" +:+ table)].

Definition WriteMetrics (rows : list MetricRow) : list stmt :=
  match rows with [] => [] | _ => writeTypedRows "metrics" (SMetric <$> rows) end.
Definition WriteStatements (rows : list StatementRow) : list stmt :=
  match rows with [] => [] | _ => writeTypedRows "metrics_statements" (SStatement <$> rows) end.
Definition WriteASH (rows : list ASHRow) : list stmt :=
  match rows with [] => [] | _ => writeTypedRows "metrics_ash" (SASH <$> rows) end.

(** [ReplicationRow.args]: an absent edge type is streaming. *)
Definition replication_args (r : ReplicationRow) : ReplicationRow :=
  mkReplicationRow r.(rr_TS) r.(rr_TenantID) r.(rr_ClusterID) r.(rr_InstanceID) r.(rr_UpstreamID) r.(rr_SlotName)
    (if bool_decide (r.(rr_EdgeType) = "") then "streaming" else r.(rr_EdgeType)) r.(rr_Source) r.(rr_cols).

Definition WriteReplication (rows : list ReplicationRow) : list stmt :=
  match rows with [] => [] | _ => writeTypedRows "metrics_replication" (SReplication <$> (replication_args <$> rows)) end.

Definition WriteTableStats (rows : list TableStatRow) : list stmt := InsertSample ∘ STable <$> rows.
Definition WriteIndexStats (rows : list IndexStatRow) : list stmt := InsertSample ∘ SIndex <$> rows.
Definition WriteBloat (rows : list BloatRow) : list stmt := InsertSample ∘ SBloat <$> rows.
Definition WriteQueryTexts (rows : list QueryTextRow) : list stmt := UpsertText <$> rows.
Definition WriteEvents (rows : list EventRow) : list stmt := InsertEvent <$> rows.
Definition WriteObjectFacts (rows : list ObjectFactRow) : list stmt := UpsertFact <$> rows.
Definition WriteLockSnapshots (rows : list LockSnapshotRow) : list stmt := rows ≫= λ r, [DeleteOldLock r; UpsertLock r].
Definition WriteTopologyEdges (tenant : string) (cluster : Z) (from : UUID) (rows : list TopologyEdgeRow) : list stmt :=
  DeleteEdges tenant cluster from :: (InsertEdge <$> rows).

(** [None] for a table that is not a relation stats table. *)
Definition PruneRelationStats (p : RelationStatsPrune) : option (list stmt) :=
  if bool_decide (p.(rp_TableName) ∈ ["metrics_tables"; "metrics_indexes"; "metrics_bloat"]) then Some [DeleteRelations p] else None.
Definition PruneObjectFacts (p : ObjectFactPrune) : list stmt := [DeleteFacts p].
Definition DeleteCheckSkipFacts (tenant : string) (instance : UUID) (check : string) : list stmt := [DeleteSkip tenant instance check].
Definition DeleteCheckPartialFact (tenant : string) (instance : UUID) (datname check : string) : list stmt :=
  [DeletePartial tenant instance datname check].

(** ** Samples are written once *)

Lemma insert_new_lookup `{Countable K} {V} (k : K) (v : V) m k' :
  insert_new k v m !! k' = match m !! k' with Some x => Some x | None => if decide (k = k') then Some v else None end.
Proof.
  unfold insert_new. destruct (m !! k) as [x|] eqn:E.
  - destruct (m !! k') as [y|] eqn:E'; [done|]. case_decide; congruence.
  - rewrite lookup_insert. case_decide; [subst; by rewrite E|]. by destruct (m !! k').
Qed.

Lemma insert_samples_keep rows m k x : m !! k = Some x → foldl insert_sample m rows !! k = Some x.
Proof.
  revert m. induction rows as [|r rows IH]; intros m Hm; cbn; [done|]. apply IH. unfold insert_sample. by rewrite insert_new_lookup, Hm.
Qed.

Lemma insert_samples_all rows m r : r ∈ rows → is_Some (foldl insert_sample m rows !! dedup r).
Proof.
  revert m. induction rows as [|r' rows IH]; intros m Hr; [by apply elem_of_nil in Hr|]. cbn.
  apply elem_of_cons in Hr as [->|Hr]; [|by apply IH].
  assert (∃ x, insert_sample m r' !! dedup r' = Some x) as [x Hx].
  { unfold insert_sample. rewrite insert_new_lookup, decide_True by done. destruct (m !! dedup r'); eauto. }
  exists x. by apply insert_samples_keep.
Qed.

Lemma insert_samples_again rows m : (∀ r, r ∈ rows → is_Some (m !! dedup r)) → foldl insert_sample m rows = m.
Proof.
  induction rows as [|r rows IH]; intros Hall; cbn; [done|].
  assert (insert_sample m r = m) as ->.
  { unfold insert_sample, insert_new. destruct (Hall r (list_elem_of_here _ _)) as [x ->]. done. }
  apply IH. intros r' Hr'. apply Hall. by right.
Qed.

Lemma set_samples_twice x y d : set_samples x (set_samples y d) = set_samples x d.
Proof. done. Qed.

Lemma set_samples_same d : set_samples d.(samples) d = d.
Proof. by destruct d. Qed.

Lemma set_temps_same d : set_temps d.(temps) d = d.
Proof. by destruct d. Qed.

Section writers.
Context `{Jsonb}.

Lemma insert_each db_now rows d : Forall (λ r, sample_ok r = true) rows →
  run_stmts db_now (InsertSample <$> rows) d = inr (set_samples (foldl insert_sample d.(samples) rows) d).
Proof.
  intros Hok. revert d. induction Hok as [|r rows Hr Hok IH]; intros d.
  { change (run_stmts db_now (InsertSample <$> []) d) with (inr d : db_err + DB). change (foldl insert_sample (samples d) []) with (samples d).
    by rewrite set_samples_same. }
  rewrite fmap_cons. cbn [run_stmts apply_stmt]. rewrite Hr, IH. done.
Qed.

Lemma forallb_ok rows : Forall (λ r, sample_ok r = true) rows → forallb sample_ok rows = true.
Proof. induction 1 as [|r rows Hr _ IH]; [done|]. cbn. by rewrite Hr, IH. Qed.

Lemma insert_through db_now t rows d : d.(temps) !! t = None → Forall (λ r, sample_ok r = true) rows →
  run_stmts db_now [CreateTemp t; CopyTemp t rows; MoveTemp t; DropTemp t] d = inr (set_samples (foldl insert_sample d.(samples) rows) d).
Proof.
  intros Ht Hok. cbn [run_stmts apply_stmt]. rewrite Ht. cbn [temps set_temps]. rewrite lookup_insert_eq. cbn [temps set_temps].
  rewrite lookup_insert_eq, app_nil_l, forallb_ok by done. cbn [temps set_samples set_temps samples].
  f_equal. rewrite insert_insert_eq, delete_insert_id by done. by destruct d.
Qed.

Lemma writeTypedRows_run db_now table rows d : d.(temps) !! ("tmp_" +:+ table) = None → Forall (λ r, sample_ok r = true) rows →
  run_stmts db_now (writeTypedRows table rows) d = inr (set_samples (foldl insert_sample d.(samples) rows) d).
Proof. intros. unfold writeTypedRows. destruct (_ <? _)%nat; [by apply insert_each|by apply insert_through]. Qed.

(** Writing many rows through a temporary table is writing them one by one: the first row
    with a key is the one kept, rows already stored stay, and no temporary table is left. *)
Theorem bulk_path_equals_rows db_now table rows d :
  d.(temps) !! ("tmp_" +:+ table) = None → Forall (λ r, sample_ok r = true) rows →
  run_stmts db_now (writeTypedRows table rows) d = run_stmts db_now (InsertSample <$> rows) d.
Proof. intros. by rewrite writeTypedRows_run, insert_each. Qed.

(** Samples that arrive again change nothing: rows written a second time, whole or in
    part, in any order and mixed with others' rows, leave every stored sample as it is, and
    the second write of the same rows leaves the store equal to what it was. *)
Theorem resent_samples_ignored db_now table rows d d' again :
  d.(temps) !! ("tmp_" +:+ table) = None → Forall (λ r, sample_ok r = true) rows → again ⊆ rows →
  run_stmts db_now (writeTypedRows table rows) d = inr d' →
  run_stmts db_now (writeTypedRows table again) d' = inr d' ∧
  (∀ k x, d.(samples) !! k = Some x → d'.(samples) !! k = Some x) ∧ (∀ r, r ∈ rows → is_Some (d'.(samples) !! dedup r)).
Proof.
  intros Ht Hok Hsub. rewrite writeTypedRows_run by done. intros [= <-]. cbn [samples set_samples]. split_and!.
  - rewrite writeTypedRows_run; [|done|].
    + cbn [samples set_samples]. rewrite insert_samples_again; [done|]. intros r Hr. by apply insert_samples_all, Hsub.
    + apply Forall_forall. intros r Hr. rewrite Forall_forall in Hok. by apply Hok, Hsub.
  - intros k x. apply insert_samples_keep.
  - intros r. apply insert_samples_all.
Qed.

(** ** A complete result replaces its facts *)

Lemma upsert_facts_run db_now rows d : ∃ m, run_stmts db_now (WriteObjectFacts rows) d = inr (set_facts m d) ∧
  (∀ r, r ∈ rows → is_Some (m !! fact_key r)) ∧
  (∀ k o, d.(object_facts) !! k = Some o → ∃ o', m !! k = Some o' ∧ o'.(of_FirstSeen) = o.(of_FirstSeen) ∧
     (k ∉ fact_key <$> rows → o' = o)) ∧
  (∀ k, d.(object_facts) !! k = None → k ∉ fact_key <$> rows → m !! k = None).
Proof.
  revert d. induction rows as [|r rows IH]; intros d.
  { exists d.(object_facts). split_and!; [by destruct d|by intros ? ?%elem_of_nil|eauto|done]. }
  change (WriteObjectFacts (r :: rows)) with (UpsertFact r :: WriteObjectFacts rows). cbn [run_stmts apply_stmt].
  destruct (IH (set_facts (<[fact_key r := upsert_fact r (d.(object_facts) !! fact_key r)]> d.(object_facts)) d)) as (m & E & Hall & Hold & Hnew).
  exists m. split; [done|]. rewrite fmap_cons. cbn [object_facts set_facts] in *.
  split_and!.
  - intros x [->|Hx]%elem_of_cons; [|by apply Hall].
    destruct (Hold (fact_key r) (upsert_fact r (d.(object_facts) !! fact_key r))) as (o & Ho & _); [apply lookup_insert_eq|by eexists].
  - intros k o Ho. destruct (decide (fact_key r = k)) as [<-|Hne].
    + destruct (Hold _ _ (lookup_insert_eq _ _ _)) as (o' & Ho' & Hf & _). exists o'. split_and!; [done| |set_solver].
      rewrite Hf, Ho. done.
    + destruct (Hold k o) as (o' & Ho' & Hf & Hk); [by rewrite lookup_insert_ne|]. exists o'. split_and!; [done..|]. set_solver.
  - intros k Hk Hn. apply Hnew; [|set_solver]. rewrite lookup_insert_ne; set_solver.
Qed.

(** A fact the prune looks at. *)
Definition in_scope (p : ObjectFactPrune) (r : ObjectFactRow) : Prop :=
  r.(of_TenantID) = p.(fp_TenantID) ∧ r.(of_InstanceID) = p.(fp_InstanceID) ∧ r.(of_Datname) = p.(fp_Datname) ∧ r.(of_Kind) ∈ p.(fp_Kinds).

Lemma fact_gone_spec p r : fact_gone p r = true ↔
  in_scope p r ∧ r.(of_LastSeen) < p.(fp_Before) ∧ mkFactKey r.(of_Kind) r.(of_Key) ∉ p.(fp_Present).
Proof.
  unfold fact_gone, in_scope, Before. rewrite !andb_true_iff, !bool_decide_eq_true, negb_true_iff, bool_decide_eq_false, Z.ltb_lt. tauto.
Qed.

(** Writing the facts of a complete result and pruning after it leaves, of the kinds the
    check replaces in its database, the facts the result lists and those seen later, and no
    other. Every other fact stays as it is. A fact that stays keeps the time it was first
    seen, and only facts that were stored or are written are there. *)
Theorem complete_result_replaces db_now rows p d :
  ∃ d', run_stmts db_now (WriteObjectFacts rows ++ PruneObjectFacts p) d = inr d' ∧
  (∀ k r, d'.(object_facts) !! k = Some r → in_scope p r → mkFactKey r.(of_Kind) r.(of_Key) ∈ p.(fp_Present) ∨ p.(fp_Before) ≤ r.(of_LastSeen)) ∧
  (∀ k r, d.(object_facts) !! k = Some r → k ∉ fact_key <$> rows → (d'.(object_facts) !! k = Some r ↔ fact_gone p r = false)) ∧
  (∀ k r r', d.(object_facts) !! k = Some r → d'.(object_facts) !! k = Some r' → r'.(of_FirstSeen) = r.(of_FirstSeen)) ∧
  (∀ k, is_Some (d'.(object_facts) !! k) → is_Some (d.(object_facts) !! k) ∨ k ∈ fact_key <$> rows).
Proof.
  assert (∀ l l' d, run_stmts db_now (l ++ l') d = match run_stmts db_now l d with inl e => inl e | inr d => run_stmts db_now l' d end) as Happ.
  { intros l l'. induction l as [|s l IH]; intros x; [done|]. cbn. destruct (apply_stmt db_now s x); [done|]. apply IH. }
  destruct (upsert_facts_run db_now rows d) as (m & E & _ & Hold & Hnew).
  rewrite Happ, E. eexists. split; [reflexivity|]. cbn [object_facts set_facts]. split_and!.
  - intros k r [_ Hg]%map_lookup_filter_Some Hs. cbn in Hg.
    destruct (decide (mkFactKey r.(of_Kind) r.(of_Key) ∈ p.(fp_Present))); [by left|right].
    destruct (decide (r.(of_LastSeen) < p.(fp_Before))); [|lia].
    rewrite (proj2 (fact_gone_spec p r)) in Hg; [done|]. done.
  - intros k r Hr Hk. destruct (Hold k r Hr) as (o & Ho & _ & Hs). rewrite (Hs Hk) in Ho. rewrite map_lookup_filter_Some. naive_solver.
  - intros k r r' Hr [Hm _]%map_lookup_filter_Some. destruct (Hold k r Hr) as (o & Ho & Hf & _). naive_solver.
  - intros k [r [Hr _]%map_lookup_filter_Some]. destruct (d.(object_facts) !! k) eqn:Ek; [left; by eexists|right].
    apply dec_stable. intros Hn. rewrite (Hnew k Ek Hn) in Hr. done.
Qed.
End writers.

(** ** Six hundred samples of one series *)
Module Bulk.
#[local] Instance same_text : Jsonb := λ a b, bool_decide (a = b).

Definition sample_at (n : nat) : sample := SMetric (mkMetricRow (Z.of_nat n) "default" 42 5 "app" "pg_up" ∅ 77 fzero).
Definition many : list sample := sample_at <$> seq 0 600.

Lemma many_ok : Forall (λ r, sample_ok r = true) many.
Proof. apply Forall_fmap, Forall_forall. done. Qed.

Lemma bulk_path_equals_rows_witness :
  length (writeTypedRows "metrics" many) = 4%nat ∧
  run_stmts 0 (writeTypedRows "metrics" many) empty_store = run_stmts 0 (InsertSample <$> many) empty_store.
Proof. split; [vm_compute; reflexivity|]. apply (bulk_path_equals_rows 0 "metrics" many empty_store); [reflexivity|exact many_ok]. Defined.

Lemma resent_samples_ignored_witness :
  match run_stmts 0 (writeTypedRows "metrics" many) empty_store with
  | inr d => run_stmts 0 (writeTypedRows "metrics" many) d = inr d ∧ is_Some (d.(samples) !! dedup (sample_at 3))
  | inl _ => False
  end.
Proof.
  destruct (run_stmts 0 (writeTypedRows "metrics" many) empty_store) as [e|d] eqn:E.
  - rewrite writeTypedRows_run in E; [discriminate|reflexivity|exact many_ok].
  - destruct (resent_samples_ignored 0 "metrics" many empty_store d many eq_refl many_ok (reflexivity _) E) as (Hs & _ & Hr).
    split; [exact Hs|]. apply Hr. apply list_elem_of_fmap. exists 3%nat. split; [reflexivity|]. apply elem_of_seq. lia.
Defined.
End Bulk.
