(* ===== verification/PipelineRows.v ===== *)
(** * From a result's metrics to rows (the helpers of internal/server/pipeline.go)

    Where each metric is routed, how a value fills a column, which relations and facts a
    result vouches for, which statement texts are withheld, and the pipeline's own metrics.
    The columns a switch of the source fills are lists of the names it compares with and
    the fields it sets. [visit] is the order in which a range loop meets a map's entries. *)
From S2P Require Import Prelude GoTime GoFloat GoBytes GoText GoJson GoSort Pgtype AlertTypes PgIds Redact Wire Store.
From S2P Require Delta.

(** The elements without repetitions, in the order of their first occurrence. *)
Fixpoint keep_first `{EqDecision A} (seen : list A) (l : list A) : list A :=
  match l with
  | [] => []
  | x :: l => if bool_decide (x ∈ seen) then keep_first seen l else x :: keep_first (x :: seen) l
  end.

Definition uniqueStrings (values : list string) : list string := keep_first [] values.

(** ** Routing *)

Definition seriesDatname (r : Result) (m : WMetric) : string :=
  if nonempty r.(res_Database) then r.(res_Database) else label m.(m_Labels) "database".

Definition seriesStatsReset (r : Result) (m : WMetric) : option Time :=
  if bool_decide (r.(res_Database) = "") && nonempty (label m.(m_Labels) "database") then None else r.(res_StatsReset).

Definition destinationTable (check : string) : string :=
  if bool_decide (check = "stat_statements") then "metrics_statements"
  else if bool_decide (check = "ash") then "metrics_ash"
  else if HasPrefix check "replication" then "metrics_replication"
  else if bool_decide (check = "table_stats") then "metrics_tables"
  else if bool_decide (check = "index_stats") then "metrics_indexes"
  else if bool_decide (check = "bloat_estimate") then "metrics_bloat"
  else "metrics".

Definition metricDestination (check metric : string) : string :=
  if bool_decide (metric = BloatSkippedTablesMetric) then "metrics" else destinationTable check.

Definition replicationSource (check : string) : string :=
  if bool_decide (check = "replication_receiver") then "receiver"
  else if bool_decide (check = "replication_streaming") then "sender"
  else if bool_decide (check = "replication_slots") then "slot"
  else "".

(** The first of the labels that is set. *)
Fixpoint first_label (labels : gmap string string) (names : list string) : string :=
  match names with
  | [] => ""
  | n :: names => if nonempty (label labels n) then label labels n else first_label labels names
  end.

Definition replicationSlot (labels : gmap string string) : string :=
  first_label labels ["slot_name"; "slot"; "application_name"; "standby"].

(** The label a case-insensitive comparison finds: a name equal to "queryid" but for the
    case of its (ASCII) letters. *)
Definition fold_queryid (k : string) : bool := bool_decide (lower_byte <$> str k = str "queryid").

Section values.
Context `{FloatOverflow, UnicodeLower, RangeOrder, UuidText, JsonCodec}.

(** ** Columns *)

(** How a switch converts the metric's value for a field. *)
Inductive conv := CFloat | CInt | CBool | CAge.

Definition ageToTime (ts : Time) (ageSeconds : float64) : Time :=
  Truncate (Add ts (wrap64 (- to_int64 (fmul ageSeconds (float_of_int Second))))) Microsecond.

Definition convert (ts : Time) (value : float64) (c : conv) : colval :=
  match c with
  | CFloat => VFloat value
  | CInt => VInt (to_int64 value)
  | CBool => VBool (negb (feq value fzero))
  | CAge => VTime (ageToTime ts value)
  end.

Definition set_columns (ts : Time) (value : float64) (fields : list (string * conv)) (cols : columns) : columns :=
  foldl (λ c f, <[f.1 := convert ts value f.2]> c) cols fields.

(** The fields of the first entry whose condition holds. *)
Definition fields_of (cases : list ((string → bool) * list (string * conv))) (lower : string) : list (string * conv) :=
  match find (λ c, c.1 lower) cases with Some c => c.2 | None => [] end.

Definition is_ (name : string) (s : string) : bool := bool_decide (s = name).

Definition table_cases : list ((string → bool) * list (string * conv)) :=
  [(is_ "seq_scan", [("SeqScan", CFloat)]);
   (is_ "seq_tup_read", [("SeqTupRead", CFloat)]);
   (is_ "idx_scan", [("IdxScan", CFloat)]);
   (is_ "idx_tup_fetch", [("IdxTupFetch", CFloat)]);
   (is_ "n_tup_ins", [("NTupIns", CFloat)]);
   (is_ "n_tup_upd", [("NTupUpd", CFloat)]);
   (is_ "n_tup_del", [("NTupDel", CFloat)]);
   (is_ "n_tup_hot_upd", [("NTupHotUpd", CFloat)]);
   (is_ "autovacuum_count", [("AutovacuumCount", CFloat)]);
   (is_ "autoanalyze_count", [("AutoanalyzeCount", CFloat)]);
   (is_ "n_live_tup", [("NLiveTup", CInt)]);
   (is_ "n_dead_tup", [("NDeadTup", CInt)]);
   (is_ "n_mod_since_analyze", [("NModSinceAnalyze", CInt)]);
   (is_ "dead_tuple_ratio", [("DeadTupleRatio", CFloat)]);
   (is_ "last_vacuum_age_seconds", [("LastVacuumAgeSeconds", CFloat); ("LastVacuum", CAge)]);
   (is_ "last_autovacuum_age_seconds", [("LastAutovacuum", CAge)]);
   (is_ "last_analyze_age_seconds", [("LastAnalyze", CAge)]);
   (is_ "last_autoanalyze_age_seconds", [("LastAutoanalyze", CAge)]);
   (is_ "relpages", [("Relpages", CInt)]);
   (is_ "reltuples", [("RelTuples", CFloat)]);
   (is_ "relfrozenxid_age", [("RelfrozenXIDAge", CInt)]);
   (is_ "total_bytes", [("TotalBytes", CInt)]);
   (is_ "table_bytes", [("TableBytes", CInt)]);
   (is_ "toast_bytes", [("ToastBytes", CInt)])].

Definition applyTableMetric (row : TableStatRow) (name : string) (value : float64) : TableStatRow :=
  mkTableStatRow row.(tr_TS) row.(tr_TenantID) row.(tr_ClusterID) row.(tr_InstanceID) row.(tr_Datname) row.(tr_Schemaname) row.(tr_Relname)
    (set_columns row.(tr_TS) value (fields_of table_cases (to_lower name)) row.(tr_cols)).

Definition index_cases : list ((string → bool) * list (string * conv)) :=
  [(is_ "idx_scan", [("IdxScan", CFloat)]);
   (is_ "idx_tup_read", [("IdxTupRead", CFloat)]);
   (is_ "idx_tup_fetch", [("IdxTupFetch", CFloat)]);
   (is_ "idx_blks_read", [("IdxBlksRead", CFloat)]);
   (is_ "idx_blks_hit", [("IdxBlksHit", CFloat)]);
   (is_ "index_bytes", [("IndexBytes", CInt)]);
   (is_ "is_unique", [("IsUnique", CBool)]);
   (is_ "is_primary", [("IsPrimary", CBool)]);
   (is_ "is_valid", [("IsValid", CBool)])].

Definition applyIndexMetric (row : IndexStatRow) (name : string) (value : float64) (labels : gmap string string) : IndexStatRow :=
  let cols := set_columns row.(ir_TS) value (fields_of index_cases (to_lower name)) row.(ir_cols) in
  let cols := if is_ "def_hash" (to_lower name) && nonempty (label labels "def_hash")
    then <["DefHash" := VText (label labels "def_hash")]> cols else cols in
  mkIndexStatRow row.(ir_TS) row.(ir_TenantID) row.(ir_ClusterID) row.(ir_InstanceID) row.(ir_Datname) row.(ir_Schemaname)
    row.(ir_Relname) row.(ir_IndexRelname) cols.

Definition bloat_cases : list ((string → bool) * list (string * conv)) :=
  [(λ s, is_ "real_bytes" s || is_ "bloat_real_bytes" s, [("RealBytes", CInt)]);
   (λ s, is_ "expected_bytes" s || is_ "bloat_expected_bytes" s, [("ExpectedBytes", CInt)]);
   (λ s, is_ "bytes" s || is_ "bloat_bytes" s, [("BloatBytes", CInt)]);
   (λ s, is_ "ratio" s || is_ "bloat_ratio" s, [("BloatRatio", CFloat)])].

Definition applyBloatMetric (row : BloatRow) (name : string) (value : float64) : BloatRow :=
  mkBloatRow row.(br_TS) row.(br_TenantID) row.(br_ClusterID) row.(br_InstanceID) row.(br_Datname) row.(br_Schemaname) row.(br_Relname)
    row.(br_IndexRelname) row.(br_ObjectKind) row.(br_Method) (set_columns row.(br_TS) value (fields_of bloat_cases (to_lower name)) row.(br_cols)).

Definition has_ (sub : string) (s : string) : bool := Contains s sub.

Definition statement_cases : list ((string → bool) * list (string * conv)) :=
  [(has_ "temp_blks_written", [("TempBlksWrittenRate", CFloat)]);
   (has_ "shared_blks_hit", [("SharedBlksHitRate", CFloat)]);
   (has_ "shared_blks_read", [("SharedBlksReadRate", CFloat)]);
   (has_ "wal_bytes", [("WALBytesRate", CFloat)]);
   (λ s, has_ "exec_time" s || has_ "total_exec" s, [("ExecTimeRateMs", CFloat)]);
   (has_ "calls", [("CallsRate", CFloat)]);
   (λ s, has_ "rows" s && negb (has_ "blks" s), [("RowsRate", CFloat)])].

Definition applyStatementMetric (row : StatementRow) (name : string) (value : float64) : StatementRow :=
  mkStatementRow row.(sr_TS) row.(sr_TenantID) row.(sr_ClusterID) row.(sr_InstanceID) row.(sr_Datname) row.(sr_QueryID)
    (set_columns row.(sr_TS) value (fields_of statement_cases (to_lower name)) row.(sr_cols)).

(** A column that is set only while it is null. *)
Definition set_if_null (field value : string) (cols : columns) : columns :=
  match cols !! field with Some _ => cols | None => if nonempty value then <[field := VText value]> cols else cols end.

Definition replication_cases : list ((string → bool) * list (string * conv)) :=
  [(has_ "slot_active_pid", []);
   (has_ "slot_safe_wal_size", [("SlotSafeWALSizeBytes", CInt)]);
   (has_ "slot_active", [("SlotActive", CBool)]);
   (λ s, has_ "slot_retained" s || has_ "retained_bytes" s, [("SlotRetainedBytes", CInt)]);
   (has_ "write_lag_bytes", [("WriteLagBytes", CInt)]);
   (has_ "flush_lag_bytes", [("FlushLagBytes", CInt)]);
   (has_ "replay_lag_bytes", [("ReplayLagBytes", CInt)]);
   (λ s, has_ "write_lag" s && has_ "sec" s, [("WriteLagSec", CFloat)]);
   (λ s, has_ "flush_lag" s && has_ "sec" s, [("FlushLagSec", CFloat)]);
   (λ s, has_ "replay_lag" s && has_ "sec" s, [("ReplayLagSec", CFloat)])].

(** The label that names the synchronous state: "sync_mode" is its older name. *)
Definition sync_state (labels : gmap string string) (cols : columns) : columns :=
  match labels !! "sync_state" with
  | Some s => <["SyncState" := VText s]> cols
  | None => match labels !! "sync_mode" with Some s => <["SyncState" := VText s]> cols | None => cols end
  end.

Definition applyReplicationMetric (row : ReplicationRow) (name : string) (value : float64) (labels : gmap string string) : ReplicationRow :=
  let lower := to_lower name in
  let cols := row.(rr_cols) in
  let cols := if bool_decide (row.(rr_Source) = "slot") || has_ "slot_" lower then
      set_if_null "SlotType" (label labels "slot_type")
        (set_if_null "SlotWalStatus" (first_label labels ["slot_wal_status"; "wal_status"; "status"]) cols)
    else cols in
  let cols := if existsb (λ c, c.1 lower) replication_cases then set_columns row.(rr_TS) value (fields_of replication_cases lower) cols
    else if has_ "sync_state" lower then sync_state labels cols else cols in
  mkReplicationRow row.(rr_TS) row.(rr_TenantID) row.(rr_ClusterID) row.(rr_InstanceID) row.(rr_UpstreamID) row.(rr_SlotName)
    row.(rr_EdgeType) row.(rr_Source) cols.

(** ** Active sessions *)

(** A label, or the other one, read as a number when it is one. *)
Definition number_label (labels : gmap string string) (name other : string) (otherwise : Z) : Z :=
  match labels !! name with
  | Some v => default otherwise (ParseInt (str v))
  | None => match labels !! other with Some v => default otherwise (ParseInt (str v)) | None => otherwise end
  end.

Definition or_else (s otherwise : string) : string := if nonempty s then s else otherwise.

(** The query identifier of a sample: under its name, its other name, or its name in
    another case. *)
Definition ash_queryid (labels : gmap string string) : option Z :=
  let named :=
    if nonempty (label labels "queryid") then ParseInt (str (label labels "queryid"))
    else if nonempty (label labels "query_id") then ParseInt (str (label labels "query_id")) else None in
  match named with
  | Some q => Some q
  | None => head (omap (λ kv, if fold_queryid kv.1 && nonempty kv.2 then ParseInt (str kv.2) else None) (visit labels))
  end.

Definition buildASHRow (ts : Time) (tenantID : string) (clusterID : Z) (instanceID : UUID) (datname : string) (m : WMetric) : ASHRow :=
  let l := m.(m_Labels) in
  mkASHRow ts tenantID clusterID instanceID (or_else (label l "datname") datname) (or_else (label l "wait_event_type") "CPU")
    (or_else (label l "wait_event") "CPU") (or_else (label l "state") "active") (ash_queryid l) (to_int64 m.(m_Value))
    (number_label l "window_seconds" "window" 10) (number_label l "window_ticks" "ticks" 0).

(** ** What a result vouches for *)

Definition presentRelations (metrics : list WMetric) : list RelationKey :=
  keep_first [] (omap (λ m, if bool_decide (m.(m_Name) = BloatSkippedTablesMetric) then None
    else Some (mkRelationKey (label m.(m_Labels) "schemaname") (label m.(m_Labels) "relname") (label m.(m_Labels) "indexrelname"))) metrics).

Definition presentFacts (facts : list WFact) : list FactKey := (λ f, mkFactKey f.(f_Kind) f.(f_Key)) <$> facts.

Definition runningBasebackups (r : Result) : Z :=
  if nonempty r.(res_Error) || nonempty r.(res_SkipReason) then 0
  else match find (λ m, bool_decide (m.(m_Name) = "pg_basebackup_jobs_running") && bool_decide (m.(m_Labels) = ∅)) r.(res_Metrics) with
    | Some m => to_int64 m.(m_Value)
    | None => 0
    end.

(** ** Counter resets *)

Definition counterResetSample : nat := 10.

Record counterReset := mkReset {
  cr_datname : string;
  cr_ts : Time;
  cr_metric : string;
  cr_reason : string;
  cr_labels : gmap string string;
}.

Definition reason_text (r : Delta.ResetReason) : string :=
  match r with Delta.ResetStatsChanged => "stats_reset_changed" | Delta.ResetCounterWentBackwards => "counter_went_backwards" end.

Definition any_labels (l : gmap string string) : any := AMap ((λ kv, (kv.1, AString kv.2)) <$> visit l).

(** The event of one database, whose resets are [group]. *)
Definition reset_event (tenantID : string) (clusterID : Z) (instanceID : UUID) (datname : string) (first : counterReset) (group : list counterReset) : EventRow :=
  mkEventRow tenantID first.(cr_ts) "counter_reset_detected" (Some clusterID) (Some instanceID)
    [("metric", AString first.(cr_metric)); ("reason", AString first.(cr_reason)); ("labels", any_labels first.(cr_labels));
     ("count", AInt (Z.of_nat (length group))); ("database", AString datname);
     ("series", AList ((λ r, AMap [("metric", AString r.(cr_metric)); ("reason", AString r.(cr_reason)); ("labels", any_labels r.(cr_labels))])
        <$> take counterResetSample group))].

Definition counterResetEvents (resets : list counterReset) (tenantID : string) (clusterID : Z) (instanceID : UUID) : list EventRow :=
  omap (λ datname,
    let group := filter (λ r, r.(cr_datname) = datname) resets in
    match group with [] => None | first :: _ => Some (reset_event tenantID clusterID instanceID datname first group) end)
    (keep_first [] (cr_datname <$> resets)).

(** ** The pipeline's own metrics *)

Definition clockSkewSeconds (now sent : Time) : float64 := fabs (Seconds (Sub now sent)).

Definition countb {A} (p : A → bool) (l : list A) : Z := Z.of_nat (length (List.filter p l)).

Definition selfMetricRows (env : Envelope) (inst : WInstance) (tenantID : string) (clusterID : Z) (instanceID : UUID) (now : Time) : list MetricRow :=
  match inst.(inst_Results) with
  | [] => []
  | results =>
      let failed := countb (λ r, nonempty r.(res_Error)) results in
      let truncated := countb res_Truncated results in
      let ts := foldl (λ ts r, if After r.(res_TS) ts then r.(res_TS) else ts) zero_time results in
      let ts := if IsZero ts then env.(env_SentAt) else ts in
      let ts := if IsZero ts then now else ts in
      let total := float_of_int (Z.of_nat (length results)) in
      let sent := if IsZero env.(env_TransmittedAt) then env.(env_SentAt) else env.(env_TransmittedAt) in
      let values := [("pglens_check_error_rate", fdiv (float_of_int failed) total);
                     ("pglens_cardinality_truncated_rate", fdiv (float_of_int truncated) total)]
        ++ (if IsZero sent then [] else [("pglens_agent_clock_skew_seconds", clockSkewSeconds now sent)]) in
      (λ v, mkMetricRow ts tenantID clusterID instanceID "" v.1 ∅ (SeriesID (mkSeriesKey v.1 instanceID "" "")) v.2) <$> values
  end.

(** ** Withholding texts *)

(** The tree after the walk, and whether it replaced a text. *)
Fixpoint withholdQueries (v : json) : json * bool :=
  match v with
  | JObject l =>
      let r := List.map (λ p, match p.2 with
        | JString t => if bool_decide (p.1 = str "query") && MayHoldCredential t then ((p.1, JString Withheld), true) else (p, false)
        | _ => ((p.1, (withholdQueries p.2).1), (withholdQueries p.2).2)
        end) l in
      (JObject (List.map fst r), existsb snd r)
  | JArray l => let r := List.map withholdQueries l in (JArray (List.map fst r), existsb snd r)
  | _ => (v, false)
  end.

Definition withholdLockTreeQueries (raw : text) : text :=
  match json_Decode raw with
  | None => raw
  | Some tree =>
      let '(tree, changed) := withholdQueries tree in
      if changed then default (str "{}") (json_Marshal tree) else raw
  end.

(** [m[key] = v] on a decoded object. *)
Definition object_set (key : text) (v : json) (l : list (text * json)) : list (text * json) :=
  if existsb (λ p, bool_decide (p.1 = key)) l then (λ p, if bool_decide (p.1 = key) then (key, v) else p) <$> l else l ++ [(key, v)].

(** A value that is not an object is not kept; [null] is a nil map, which holds nothing. *)
Definition withholdXminIdentity (raw : text) : text :=
  let check holder :=
    let kind := default [] (string_at (str "holder_kind") holder) in
    let identity := default [] (string_at (str "identity") holder) in
    if negb (bool_decide (kind = str "standby")) && negb (bool_decide (kind = str "prepared")) then raw
    else if bool_decide (Identity identity = identity) then raw
    else default (str "{}") (json_Marshal (JObject (object_set (str "identity") (JString (Identity identity)) holder))) in
  match json_Unmarshal raw with
  | Some (JObject holder) => check holder
  | Some JNull => check []
  | _ => str "{}"
  end.
End values.

(** ** What withholding leaves *)

(** The texts under a "query" key, anywhere in a document. *)
Inductive query_in : json → text → Prop :=
| query_here l t : (str "query", JString t) ∈ l → query_in (JObject l) t
| query_object l k v t : (k, v) ∈ l → query_in v t → query_in (JObject l) t
| query_array l v t : v ∈ l → query_in v t → query_in (JArray l) t.

Definition no_credentials (v : json) : Prop := ∀ t, query_in v t → MayHoldCredential t = false.

Lemma Withheld_clean : MayHoldCredential Withheld = false.
Proof. vm_compute. reflexivity. Qed.

(** What [withholdQueries] makes of one entry of an object. *)
Definition withhold_entry (p : text * json) : text * json * bool :=
  match p.2 with
  | JString t => if bool_decide (p.1 = str "query") && MayHoldCredential t then ((p.1, JString Withheld), true) else (p, false)
  | _ => ((p.1, (withholdQueries p.2).1), (withholdQueries p.2).2)
  end.

Lemma withholdQueries_object l : withholdQueries (JObject l) = (JObject (List.map fst (List.map withhold_entry l)), existsb snd (List.map withhold_entry l)).
Proof. done. Qed.

Lemma withholdQueries_array l : withholdQueries (JArray l) = (JArray (List.map fst (List.map withholdQueries l)), existsb snd (List.map withholdQueries l)).
Proof. done. Qed.

Lemma query_in_string s t : ¬ query_in (JString s) t.
Proof. intros H. inversion H. Qed.

Lemma withhold_entry_clean p : no_credentials (withholdQueries p.2).1 →
  (∀ t, (withhold_entry p).1 = (str "query", JString t) → MayHoldCredential t = false) ∧ no_credentials (withhold_entry p).1.2.
Proof.
  intros Hp. unfold withhold_entry. destruct p as [k v]. destruct v as [| | |s|l|l]; cbn [fst snd] in *; try (split; [done|exact Hp]).
  destruct (bool_decide (k = str "query") && MayHoldCredential s) eqn:E; cbn [fst snd]; split; try (intros ? Hq; by apply query_in_string in Hq).
  - intros t [= _ <-]. apply Withheld_clean.
  - intros t [= -> ->]. rewrite bool_decide_eq_true_2 in E by done. exact E.
Qed.

Lemma withholdQueries_clean v : no_credentials (withholdQueries v).1.
Proof.
  induction v as [| | | |l IH|l IH] using json_induction; try (intros ? Hq; cbn in Hq; inversion Hq; fail).
  - rewrite withholdQueries_array. intros t Hq. inversion Hq as [| |l' v t' Hv Hin]; subst.
    rewrite List.map_map in Hv. apply list_elem_of_In, List.in_map_iff in Hv as (w & <- & Hw%list_elem_of_In).
    rewrite Forall_forall in IH. by apply (IH w Hw).
  - rewrite withholdQueries_object. intros t Hq. rewrite List.map_map in Hq.
    assert (∀ x, x ∈ List.map (λ p, (withhold_entry p).1) l → ∃ p, p ∈ l ∧ x = (withhold_entry p).1) as Hx.
    { intros x Hx. apply list_elem_of_In, List.in_map_iff in Hx as (p & <- & Hp%list_elem_of_In). by exists p. }
    rewrite Forall_forall in IH. inversion Hq as [l' t' Hv|l' k v t' Hv Hin|]; subst.
    + destruct (Hx _ Hv) as (p & Hp & E). destruct (withhold_entry_clean p) as [Hc _]; [by apply IH|]. by apply Hc.
    + destruct (Hx _ Hv) as (p & Hp & E). destruct (withhold_entry_clean p) as [_ Hc]; [by apply IH|]. apply Hc. by rewrite <- E.
Qed.

Lemma existsb_map_false {A B} (f : A → B * bool) l : existsb snd (List.map f l) = false → ∀ x, x ∈ l → (f x).2 = false.
Proof.
  intros H x Hx. destruct (f x).2 eqn:E; [|done]. rewrite <- H. symmetry. apply existsb_exists. exists (f x). split; [|done].
  by apply List.in_map, list_elem_of_In.
Qed.

(** A walk that replaces nothing gives the document back. *)
Lemma withholdQueries_same v : (withholdQueries v).2 = false → (withholdQueries v).1 = v.
Proof.
  induction v as [| | | |l IH|l IH] using json_induction; try done.
  - rewrite withholdQueries_array. cbn. intros H. f_equal. rewrite List.map_map. rewrite Forall_forall in IH.
    rewrite (List.map_ext_in _ (λ v, v)); [apply List.map_id|]. intros v Hv%list_elem_of_In. apply IH; [done|]. by apply (existsb_map_false _ _ H).
  - rewrite withholdQueries_object. cbn. intros H. f_equal. rewrite List.map_map. rewrite Forall_forall in IH.
    rewrite (List.map_ext_in _ (λ p, p)); [apply List.map_id|]. intros [k v] Hv%list_elem_of_In.
    pose proof (existsb_map_false _ _ H _ Hv) as Hs. specialize (IH (k, v) Hv). unfold withhold_entry in *. cbn in *.
    destruct v; cbn in *; try done; [by destruct (_ && _)|f_equal; by apply IH..].
Qed.

(** Withholding keeps a document well formed. *)
Lemma withholdQueries_wf (ok : text → Prop) v : ok Withheld → json_wf ok v → json_wf ok (withholdQueries v).1.
Proof.
  intros Hok. induction v as [| | | |l IH|l IH] using json_induction; try done.
  - rewrite withholdQueries_array. cbn. induction IH as [|v l Hv _ IHl]; cbn; [done|]. intros [H1 H2]. split; [by apply Hv|by apply IHl].
  - rewrite withholdQueries_object. cbn. rewrite !List.map_map. intros [Hs Hl]. split.
    + rewrite (List.map_ext_in _ fst); [done|]. intros [k v] _. unfold withhold_entry. cbn. destruct v; try done. by destruct (_ && _).
    + clear Hs. induction IH as [|[k v] l Hv _ IHl]; cbn in *; [done|]. destruct Hl as [[H1 H2] H3]. split; [|by apply IHl].
      unfold withhold_entry. cbn. destruct v; cbn in *; try (split; [done|by apply Hv]); try done. by destruct (_ && _).
Qed.

Section laws.
Context `{JsonCodec, !JsonLaws}.

(** What a stored lock tree shows. *)
Definition tree_clean (raw : text) : Prop := ∀ v, json_Decode raw = Some v → no_credentials v.

Lemma withholdLockTreeQueries_clean raw : tree_clean (withholdLockTreeQueries raw).
Proof.
  unfold withholdLockTreeQueries. destruct (json_Decode raw) as [tree|] eqn:E.
  2: { intros v Hv. congruence. }
  pose proof (withholdQueries_clean tree) as Hc. pose proof (withholdQueries_same tree) as Hs.
  pose proof (withholdQueries_wf good_text tree (good_text_ascii Withheld eq_refl) (Decode_wf _ _ E)) as Hw.
  destruct (withholdQueries tree) as [tree' changed]. cbn in *. destruct changed.
  - destruct (json_Marshal tree') as [out|] eqn:Em; cbn.
    + intros v Hv. rewrite (Decode_Marshal _ _ Hw Em) in Hv. by injection Hv as <-.
    + intros v Hv. rewrite Decode_braces in Hv. injection Hv as <-. intros t Hq.
      inversion Hq as [? ? Hin|? ? ? ? Hin _|]; subst; by apply elem_of_nil in Hin.
  - rewrite Hs in Hc by done. intros v Hv. rewrite E in Hv. by injection Hv as <-.
Qed.
End laws.
