(* ===== verification/Pipeline.v ===== *)
(** * Processing an envelope (internal/server/pipeline.go)

    [Process] turns the counters of an envelope into rates, routes its metrics to their
    tables and writes them in one transaction. The server's state is a record: the store as
    the transaction sees it, the delta and topology engines, the marks of counted results,
    the undo functions of the envelope in progress and the log of the counters it moved.
    Every call to the clock or the database takes the next number, and [ServerEnv] says
    what the calls answer: the clock may show anything, and any database call may fail with
    any error. Envelopes processed at the same time are not interleaved here; what
    concurrent attempts do to the delta engine is in [Delta]. *)
From stdpp Require Import pretty.
From S2P Require Import Prelude StateM GoTime GoFloat GoBytes GoText GoJson GoSort Pgtype AlertTypes PgIds Redact Wire Store PipelineRows.
From S2P Require Delta Topology.

(** What the outside answers to the [n]th call. *)
Class ServerEnv := {
  clock : nat → Time;
  db_clock : nat → Time;
  answer : nat → option db_err;
  commit_applied : nat → bool; (* a commit without an answer took effect *)
}.

Record checkCountKey := mkCountKey { ck_instance : UUID; ck_check : string; ck_database : string }.

#[export] Instance checkCountKey_eq_dec : EqDecision checkCountKey.
Proof. solve_decision. Defined.

#[export] Instance checkCountKey_countable : Countable checkCountKey.
Proof.
  refine (inj_countable' (λ k, (k.(ck_instance), k.(ck_check), k.(ck_database))) (λ '(i, c, d), mkCountKey i c d) _).
  by intros [].
Defined.

Record checkOutcome := mkOutcome { co_key : checkCountKey; co_ts : Time; co_failed : bool }.

(** The counters of the metrics endpoint that the pipeline moves. *)
Inductive effect :=
| CheckOK (instance : UUID) (check : string)
| CheckError (instance : UUID) (check : string)
| IngestRejected (reason : string)
| IngestEnvelopes (outcome : string)
| AgentClockSkew (seconds : float64)
| SeriesTotal (instance : UUID) (n : Z).

Definition undo : Type := InstanceID * ClusterID * Topology.topoMark * Topology.topoMark.

Record World := mkWorld {
  w_db : DB;
  w_calls : nat;
  w_tx_now : Time;
  w_delta : Delta.Engine;
  w_topo : Topology.Engine;
  w_undos : list undo;
  w_lastEvict : Time;
  w_counted : gmap checkCountKey Time;
  w_log : list effect;
}.

(** What ends a computation: a database error, another error, or a nil dereference. *)
Inductive failure := DbFailed (e : db_err) | GoFailed | Panicked.

Abbreviation PM := (EST World failure).

Definition set_db (d : DB) (w : World) : World :=
  mkWorld d w.(w_calls) w.(w_tx_now) w.(w_delta) w.(w_topo) w.(w_undos) w.(w_lastEvict) w.(w_counted) w.(w_log).
Definition next_call (w : World) : World :=
  mkWorld w.(w_db) (S w.(w_calls)) w.(w_tx_now) w.(w_delta) w.(w_topo) w.(w_undos) w.(w_lastEvict) w.(w_counted) w.(w_log).
Definition set_tx_now (t : Time) (w : World) : World :=
  mkWorld w.(w_db) w.(w_calls) t w.(w_delta) w.(w_topo) w.(w_undos) w.(w_lastEvict) w.(w_counted) w.(w_log).
Definition set_delta (e : Delta.Engine) (w : World) : World :=
  mkWorld w.(w_db) w.(w_calls) w.(w_tx_now) e w.(w_topo) w.(w_undos) w.(w_lastEvict) w.(w_counted) w.(w_log).
Definition set_topo (t : Topology.Engine) (us : list undo) (w : World) : World :=
  mkWorld w.(w_db) w.(w_calls) w.(w_tx_now) w.(w_delta) t us w.(w_lastEvict) w.(w_counted) w.(w_log).
Definition set_counted (t : Time) (m : gmap checkCountKey Time) (w : World) : World :=
  mkWorld w.(w_db) w.(w_calls) w.(w_tx_now) w.(w_delta) w.(w_topo) w.(w_undos) t m w.(w_log).
Definition add_log (l : list effect) (w : World) : World :=
  mkWorld w.(w_db) w.(w_calls) w.(w_tx_now) w.(w_delta) w.(w_topo) w.(w_undos) w.(w_lastEvict) w.(w_counted) (w.(w_log) ++ l).

Definition itoa (v : Z) : string := if v =? 0 then "0" else pretty v.

(** ** Rows of one instance *)

Record statementKey := mkStatementKey { sk_ts : Time; sk_datname : string; sk_queryid : Z }.
Abbreviation replicationKey := (Time * string * string * string)%type. (* ts, slot, datname, source *)
Abbreviation partialKey := (string * string)%type. (* check, datname *)
Abbreviation tableStatKey := (Time * string * string * string)%type. (* ts, datname, schema, relname *)
Abbreviation indexStatKey := (Time * string * string * string)%type. (* ts, datname, schema, indexrelname *)
Abbreviation bloatKey := (Time * string * string * string * string * string)%type. (* ts, datname, schema, relname, indexrelname, method *)

#[export] Instance statementKey_eq_dec : EqDecision statementKey.
Proof. solve_decision. Defined.

#[export] Instance statementKey_countable : Countable statementKey.
Proof.
  refine (inj_countable' (λ k, (k.(sk_ts), k.(sk_datname), k.(sk_queryid))) (λ '(t, d, q), mkStatementKey t d q) _).
  by intros [].
Defined.

Record partialObservation := mkPartial { po_ts : Time; po_partial : bool; po_truncated : bool }.

(** What the metrics of an instance have become so far. *)
Record Rows := mkRows {
  generic : list MetricRow;
  ashes : list ASHRow;
  stmtMap : gmap statementKey StatementRow;
  replMap : gmap replicationKey ReplicationRow;
  tableMap : gmap tableStatKey TableStatRow;
  indexMap : gmap indexStatKey IndexStatRow;
  bloatMap : gmap bloatKey BloatRow;
  series : gset SeriesKey;
  batch : Delta.Batch;
}.

Definition no_rows : Rows := mkRows [] [] ∅ ∅ ∅ ∅ ∅ ∅ Delta.Begin.

Definition add_generic (x : MetricRow) (r : Rows) : Rows :=
  mkRows (r.(generic) ++ [x]) r.(ashes) r.(stmtMap) r.(replMap) r.(tableMap) r.(indexMap) r.(bloatMap) r.(series) r.(batch).
Definition add_ash (x : ASHRow) (r : Rows) : Rows :=
  mkRows r.(generic) (r.(ashes) ++ [x]) r.(stmtMap) r.(replMap) r.(tableMap) r.(indexMap) r.(bloatMap) r.(series) r.(batch).
Definition put_stmt k x (r : Rows) : Rows :=
  mkRows r.(generic) r.(ashes) (<[k := x]> r.(stmtMap)) r.(replMap) r.(tableMap) r.(indexMap) r.(bloatMap) r.(series) r.(batch).
Definition put_repl k x (r : Rows) : Rows :=
  mkRows r.(generic) r.(ashes) r.(stmtMap) (<[k := x]> r.(replMap)) r.(tableMap) r.(indexMap) r.(bloatMap) r.(series) r.(batch).
Definition put_table k x (r : Rows) : Rows :=
  mkRows r.(generic) r.(ashes) r.(stmtMap) r.(replMap) (<[k := x]> r.(tableMap)) r.(indexMap) r.(bloatMap) r.(series) r.(batch).
Definition put_index k x (r : Rows) : Rows :=
  mkRows r.(generic) r.(ashes) r.(stmtMap) r.(replMap) r.(tableMap) (<[k := x]> r.(indexMap)) r.(bloatMap) r.(series) r.(batch).
Definition put_bloat k x (r : Rows) : Rows :=
  mkRows r.(generic) r.(ashes) r.(stmtMap) r.(replMap) r.(tableMap) r.(indexMap) (<[k := x]> r.(bloatMap)) r.(series) r.(batch).
Definition put_series k bt (r : Rows) : Rows :=
  mkRows r.(generic) r.(ashes) r.(stmtMap) r.(replMap) r.(tableMap) r.(indexMap) r.(bloatMap) ({[k]} ∪ r.(series)) bt.

Inductive inst_err := InvalidClusterID | InvalidInstanceID | UnknownMetricKind.

(** The instance a row is written for. *)
Record Who := mkWho { tenantID : string; cidDB : Z; instUUID : UUID; topoEdges : list Topology.Edge }.

(** Everything an instance has collected. *)
Record Inst := mkInst {
  ib_rows : Rows;
  ib_texts : list QueryTextRow;
  ib_events : list EventRow;
  ib_facts : list ObjectFactRow;
  ib_clear : list string;
  ib_partial : gmap partialKey partialObservation;
  ib_truncatedAt : gmap string Time;
  ib_lock : option LockSnapshotRow;
  ib_relationPrunes : list RelationStatsPrune;
  ib_factPrunes : list ObjectFactPrune;
  ib_outcomes : list checkOutcome;
}.

Definition new_inst (events : list EventRow) : Inst := mkInst no_rows [] events [] [] ∅ ∅ None [] [] [].

Definition ib_set_rows x i := mkInst x i.(ib_texts) i.(ib_events) i.(ib_facts) i.(ib_clear) i.(ib_partial) i.(ib_truncatedAt) i.(ib_lock) i.(ib_relationPrunes) i.(ib_factPrunes) i.(ib_outcomes).
Definition ib_add_texts l i := mkInst i.(ib_rows) (i.(ib_texts) ++ l) i.(ib_events) i.(ib_facts) i.(ib_clear) i.(ib_partial) i.(ib_truncatedAt) i.(ib_lock) i.(ib_relationPrunes) i.(ib_factPrunes) i.(ib_outcomes).
Definition ib_add_events l i := mkInst i.(ib_rows) i.(ib_texts) (i.(ib_events) ++ l) i.(ib_facts) i.(ib_clear) i.(ib_partial) i.(ib_truncatedAt) i.(ib_lock) i.(ib_relationPrunes) i.(ib_factPrunes) i.(ib_outcomes).
Definition ib_add_facts l i := mkInst i.(ib_rows) i.(ib_texts) i.(ib_events) (i.(ib_facts) ++ l) i.(ib_clear) i.(ib_partial) i.(ib_truncatedAt) i.(ib_lock) i.(ib_relationPrunes) i.(ib_factPrunes) i.(ib_outcomes).
Definition ib_add_clear c i := mkInst i.(ib_rows) i.(ib_texts) i.(ib_events) i.(ib_facts) (i.(ib_clear) ++ [c]) i.(ib_partial) i.(ib_truncatedAt) i.(ib_lock) i.(ib_relationPrunes) i.(ib_factPrunes) i.(ib_outcomes).
Definition ib_set_partial k x i := mkInst i.(ib_rows) i.(ib_texts) i.(ib_events) i.(ib_facts) i.(ib_clear) (<[k := x]> i.(ib_partial)) i.(ib_truncatedAt) i.(ib_lock) i.(ib_relationPrunes) i.(ib_factPrunes) i.(ib_outcomes).
Definition ib_set_truncated k x i := mkInst i.(ib_rows) i.(ib_texts) i.(ib_events) i.(ib_facts) i.(ib_clear) i.(ib_partial) (<[k := x]> i.(ib_truncatedAt)) i.(ib_lock) i.(ib_relationPrunes) i.(ib_factPrunes) i.(ib_outcomes).
Definition ib_set_lock x i := mkInst i.(ib_rows) i.(ib_texts) i.(ib_events) i.(ib_facts) i.(ib_clear) i.(ib_partial) i.(ib_truncatedAt) x i.(ib_relationPrunes) i.(ib_factPrunes) i.(ib_outcomes).
Definition ib_add_prunes l k i := mkInst i.(ib_rows) i.(ib_texts) i.(ib_events) i.(ib_facts) i.(ib_clear) i.(ib_partial) i.(ib_truncatedAt) i.(ib_lock) (i.(ib_relationPrunes) ++ l) (i.(ib_factPrunes) ++ k) i.(ib_outcomes).
Definition ib_add_outcomes l i := mkInst i.(ib_rows) i.(ib_texts) i.(ib_events) i.(ib_facts) i.(ib_clear) i.(ib_partial) i.(ib_truncatedAt) i.(ib_lock) i.(ib_relationPrunes) i.(ib_factPrunes) (i.(ib_outcomes) ++ l).

(** What the instances of an envelope say of addresses: by address and port, by target
    name, by cluster and address, the addresses two instances report, and the primaries. *)
Record AddrBook := mkBook {
  addrToInstance : gmap string UUID;
  targetNameToInstance : gmap string UUID;
  addrOnly : gmap string UUID;
  ambiguousAddr : gset string;
  clusterPrimaries : gmap ClusterID (UUID * Z);
}.

(** The buffers of the envelope. *)
Record Acc := mkAcc {
  genericRows : list MetricRow;
  statementRows : list StatementRow;
  ashRows : list ASHRow;
  replicationRows : list ReplicationRow;
  queryTextRows : list QueryTextRow;
  eventRows : list EventRow;
  objectFactRows : list ObjectFactRow;
  tableRows : list TableStatRow;
  indexRows : list IndexStatRow;
  bloatRows : list BloatRow;
  lockSnapshotRows : list LockSnapshotRow;
  relationPrunes : list RelationStatsPrune;
  factPrunes : list ObjectFactPrune;
  checkOutcomes : list checkOutcome;
  currentSeries : gmap UUID (gset SeriesKey);
  deltaBatches : list Delta.Batch;
  storedInstances : list UUID;
  storedRoles : gmap UUID Role;
  dbAddrCache : gmap string UUID;
  Accepted : Z;
  Rejected : Z;
  Errors : gmap string inst_err;
}.

Definition new_acc : Acc := mkAcc [] [] [] [] [] [] [] [] [] [] [] [] [] [] ∅ [] [] ∅ ∅ 0 0 ∅.

Definition set_cache (c : gmap string UUID) (a : Acc) : Acc :=
  mkAcc a.(genericRows) a.(statementRows) a.(ashRows) a.(replicationRows) a.(queryTextRows) a.(eventRows) a.(objectFactRows) a.(tableRows)
    a.(indexRows) a.(bloatRows) a.(lockSnapshotRows) a.(relationPrunes) a.(factPrunes) a.(checkOutcomes) a.(currentSeries) a.(deltaBatches)
    a.(storedInstances) a.(storedRoles) c a.(Accepted) a.(Rejected) a.(Errors).
Definition add_facts (l : list ObjectFactRow) (a : Acc) : Acc :=
  mkAcc a.(genericRows) a.(statementRows) a.(ashRows) a.(replicationRows) a.(queryTextRows) a.(eventRows) (a.(objectFactRows) ++ l) a.(tableRows)
    a.(indexRows) a.(bloatRows) a.(lockSnapshotRows) a.(relationPrunes) a.(factPrunes) a.(checkOutcomes) a.(currentSeries) a.(deltaBatches)
    a.(storedInstances) a.(storedRoles) a.(dbAddrCache) a.(Accepted) a.(Rejected) a.(Errors).
Definition reject (id : string) (e : inst_err) (a : Acc) : Acc :=
  mkAcc a.(genericRows) a.(statementRows) a.(ashRows) a.(replicationRows) a.(queryTextRows) a.(eventRows) a.(objectFactRows) a.(tableRows)
    a.(indexRows) a.(bloatRows) a.(lockSnapshotRows) a.(relationPrunes) a.(factPrunes) a.(checkOutcomes) a.(currentSeries) a.(deltaBatches)
    a.(storedInstances) a.(storedRoles) a.(dbAddrCache) a.(Accepted) (a.(Rejected) + 1) (<[id := e]> a.(Errors)).

Record PipelineResult := mkPipelineResult { pr_Accepted : Z; pr_Rejected : Z; pr_Errors : gmap string inst_err }.

Section process.
Context `{FloatOverflow, UnicodeLower, RangeOrder, UuidText, UuidParse, JsonCodec, Jsonb, ServerEnv}.

Definition series_key (who : Who) (r : Result) (m : WMetric) : SeriesKey :=
  mkSeriesKey m.(m_Name) who.(instUUID) (seriesDatname r m) (CanonicalLabels m.(m_Labels)).

Definition generic_row (who : Who) (r : Result) (m : WMetric) (value : float64) : MetricRow :=
  mkMetricRow r.(res_TS) who.(tenantID) who.(cidDB) who.(instUUID) (seriesDatname r m) m.(m_Name) m.(m_Labels)
    (SeriesID (series_key who r m)) value.

(** The query identifier of a statement metric, from the label or one that differs from its
    name in case only. *)
Definition statement_queryid (labels : gmap string string) : string :=
  let s := or_else (label labels "queryid") (label labels "query_id") in
  if nonempty s then s else default "" (snd <$> head (filter (λ kv, fold_queryid kv.1 = true) (visit labels))).

Definition store_statement (who : Who) (r : Result) (m : WMetric) (value sampleSeconds : float64) (rows : Rows) : Rows :=
  match ParseInt (str (statement_queryid m.(m_Labels))) with
  | None => rows
  | Some qid =>
      let sk := mkStatementKey r.(res_TS) r.(res_Database) qid in
      let row := default (mkStatementRow r.(res_TS) who.(tenantID) who.(cidDB) who.(instUUID) r.(res_Database) qid ∅) (rows.(stmtMap) !! sk) in
      let row := applyStatementMetric row m.(m_Name) value in
      let row := match row.(sr_cols) !! "SampleSeconds" with
        | None => if flt fzero sampleSeconds then mkStatementRow row.(sr_TS) row.(sr_TenantID) row.(sr_ClusterID) row.(sr_InstanceID)
            row.(sr_Datname) row.(sr_QueryID) (<["SampleSeconds" := VFloat sampleSeconds]> row.(sr_cols)) else row
        | Some _ => row
        end in
      put_stmt sk row rows
  end.

Definition new_replication (who : Who) (r : Result) (m : WMetric) : ReplicationRow :=
  let source := replicationSource r.(res_Check) in
  let upstream :=
    match m.(m_Labels) !! "upstream_id" with
    | Some s => uuid_Parse s
    | None => if bool_decide (source = "receiver") then Topology.To <$> head who.(topoEdges) else None
    end in
  mkReplicationRow r.(res_TS) who.(tenantID) who.(cidDB) who.(instUUID) upstream (replicationSlot m.(m_Labels)) "streaming" source
    (sync_state m.(m_Labels) ∅).

Definition store_metric (who : Who) (r : Result) (m : WMetric) (value sampleSeconds : float64) (rows : Rows) : Rows :=
  let l := m.(m_Labels) in
  let dest := metricDestination r.(res_Check) m.(m_Name) in
  if bool_decide (dest = "metrics") then add_generic (generic_row who r m value) rows
  else if bool_decide (dest = "metrics_statements") then store_statement who r m value sampleSeconds rows
  else if bool_decide (dest = "metrics_replication") then
    let rk := (r.(res_TS), replicationSlot l, r.(res_Database), replicationSource r.(res_Check)) in
    let row := default (new_replication who r m) (rows.(replMap) !! rk) in
    put_repl rk (applyReplicationMetric row m.(m_Name) value l) rows
  else if bool_decide (dest = "metrics_tables") then
    let key := (r.(res_TS), r.(res_Database), label l "schemaname", label l "relname") in
    let row := default (mkTableStatRow r.(res_TS) who.(tenantID) who.(cidDB) who.(instUUID) r.(res_Database)
      (label l "schemaname") (label l "relname") ∅) (rows.(tableMap) !! key) in
    put_table key (applyTableMetric row (TrimPrefix m.(m_Name) "pg_table_") value) rows
  else if bool_decide (dest = "metrics_indexes") then
    let key := (r.(res_TS), r.(res_Database), label l "schemaname", label l "indexrelname") in
    let row := default (mkIndexStatRow r.(res_TS) who.(tenantID) who.(cidDB) who.(instUUID) r.(res_Database)
      (label l "schemaname") (label l "relname") (label l "indexrelname") ∅) (rows.(indexMap) !! key) in
    put_index key (applyIndexMetric row (TrimPrefix m.(m_Name) "pg_index_") value l) rows
  else if bool_decide (dest = "metrics_bloat") then
    let key := (r.(res_TS), r.(res_Database), label l "schemaname", label l "relname", label l "indexrelname", label l "method") in
    let row := default (mkBloatRow r.(res_TS) who.(tenantID) who.(cidDB) who.(instUUID) r.(res_Database) (label l "schemaname")
      (label l "relname") (label l "indexrelname") (label l "object_kind") (label l "method") ∅) (rows.(bloatMap) !! key) in
    put_bloat key (applyBloatMetric row (TrimPrefix m.(m_Name) "pg_bloat_") value) rows
  else rows.

(** The loop over the metrics of a result. It stops at a metric of unknown kind; the
    counter resets it has seen are kept. *)
Fixpoint metrics_loop (who : Who) (r : Result) (ms : list WMetric) (e : Delta.Engine) (rows : Rows) (resets : list counterReset) :
    option inst_err * (Delta.Engine * Rows * list counterReset) :=
  match ms with
  | [] => (None, (e, rows, resets))
  | m :: ms =>
      let gauge := bool_decide (m.(m_Kind) = "gauge") in
      let counter := bool_decide (m.(m_Kind) = "counter") in
      if negb gauge && negb counter then (Some UnknownMetricKind, (e, rows, resets))
      else if bool_decide (metricDestination r.(res_Check) m.(m_Name) = "metrics_ash") then
        metrics_loop who r ms e (add_ash (buildASHRow r.(res_TS) who.(tenantID) who.(cidDB) who.(instUUID) r.(res_Database) m) rows) resets
      else if gauge then metrics_loop who r ms e (store_metric who r m m.(m_Value) fzero rows) resets
      else
        let key := series_key who r m in
        let '(pt, ev, (e, bt)) := Delta.batch_Observe e rows.(batch)
          (Delta.mkObservation key r.(res_TS) m.(m_Value) (seriesStatsReset r m)) in
        let rows := put_series key bt rows in
        match ev, pt with
        | Some ev, _ =>
            metrics_loop who r ms e rows (resets ++ [mkReset (seriesDatname r m) ev.(Delta.r_TS) m.(m_Name) (reason_text ev.(Delta.r_Reason)) m.(m_Labels)])
        | None, None => metrics_loop who r ms e rows resets
        | None, Some pt => metrics_loop who r ms e (store_metric who r m pt.(Delta.p_Rate) pt.(Delta.p_Seconds) rows) resets
        end
  end.
(** ** Calls *)

Definition call : PM nat := λ w, (inr w.(w_calls), next_call w).

Definition now : PM Time := n ← call; mret (clock n).

(** A query whose error is returned, and one whose error is ignored. *)
Definition query {A} (f : DB → A) : PM A :=
  n ← call;
  match answer n with
  | Some e => raise (DbFailed e)
  | None => gets (λ w, f w.(w_db))
  end.

Definition try_query {A} (f : DB → A) : PM (option A) :=
  n ← call;
  match answer n with
  | Some _ => mret None
  | None => gets (λ w, Some (f w.(w_db)))
  end.

Definition exec (s : stmt) : PM unit :=
  n ← call;
  match answer n with
  | Some e => raise (DbFailed e)
  | None =>
      r ← gets (λ w, apply_stmt w.(w_tx_now) s w.(w_db));
      match r with inl e => raise (DbFailed e) | inr d => puts (set_db d) end
  end.

Fixpoint exec_all (l : list stmt) : PM unit :=
  match l with
  | [] => mret ()
  | s :: l => exec s;; exec_all l
  end.

Definition log (l : list effect) : PM unit := puts (add_log l).

(** ** The results of an instance *)

(** The role of an instance as the store holds it; [storedRole] gives [RoleNone] for an
    unknown instance. *)
Definition normalizeRole (role : string) : Role :=
  if bool_decide (role = "primary") then RolePrimary else if bool_decide (role = "standby") then RoleStandby else RoleUnknown.

Definition storedRole (id : UUID) : PM Role := query (λ d, from_option i_role RoleNone (d.(instances) !! id)).

Definition truncationEventWindow : Duration := 10 * Minute.

(** A cardinality_truncated event of the check is stored with a time after [since]. *)
Definition truncation_recorded (who : Who) (check : string) (since : Time) (d : DB) : bool :=
  existsb (λ e, bool_decide (e.(ev_TenantID) = who.(tenantID)) && bool_decide (e.(ev_ClusterID) = Some who.(cidDB)) &&
    bool_decide (e.(ev_InstanceID) = Some who.(instUUID)) && bool_decide (e.(ev_Type) = "cardinality_truncated") &&
    bool_decide (payload_text "check" e.(ev_Payload) = Some check) && After e.(ev_TS) since) d.(events).

Definition truncationEventDue (who : Who) (check : string) (ts : Time) (written : gmap string Time) : PM bool :=
  if match written !! check with Some last => Sub ts last <? truncationEventWindow | None => false end then mret false
  else
    recent ← query (truncation_recorded who check (Add ts (- truncationEventWindow)));
    mret (negb recent).

Definition fact_row (who : Who) (datname kind key : string) (labels : gmap string string) (value : option string) (raw : option text) (ts : Time) : ObjectFactRow :=
  mkObjectFactRow who.(tenantID) who.(cidDB) who.(instUUID) datname kind key labels value raw ts ts ts.

(** The skip fact of a skipped result, or the mark that a result ended the skip. *)
Definition note_skip (who : Who) (r : Result) (i : Inst) : Inst :=
  if nonempty r.(res_SkipReason) then ib_add_facts [fact_row who "" "check_skip" r.(res_Check) ∅ (Some r.(res_SkipReason)) None r.(res_TS)] i
  else if bool_decide (r.(res_Error) = "") then ib_add_clear r.(res_Check) i else i.

Definition complete (r : Result) : bool :=
  bool_decide (r.(res_Error) = "") && bool_decide (r.(res_SkipReason) = "") && negb r.(res_Truncated) && negb r.(res_Partial).

Definition note_prunes (who : Who) (r : Result) (i : Inst) : Inst :=
  if complete r then
    let dest := destinationTable r.(res_Check) in
    let relations := if bool_decide (dest ∈ ["metrics_tables"; "metrics_indexes"; "metrics_bloat"])
      then [mkRelationPrune dest who.(tenantID) who.(instUUID) r.(res_Database) r.(res_TS) (presentRelations r.(res_Metrics))] else [] in
    let kinds := ReplacedFactKinds r.(res_Check) in
    let facts := match kinds with [] => [] | _ =>
      [mkFactPrune who.(tenantID) who.(instUUID) r.(res_Database) kinds r.(res_TS) (presentFacts r.(res_Facts))] end in
    ib_add_prunes relations facts i
  else i.

Definition note_partial (r : Result) (i : Inst) : Inst :=
  if bool_decide (r.(res_Error) = "") && bool_decide (r.(res_SkipReason) = "") then
    let pk := (r.(res_Check), r.(res_Database)) in
    if match i.(ib_partial) !! pk with Some latest => negb (Before r.(res_TS) latest.(po_ts)) | None => true end
    then ib_set_partial pk (mkPartial r.(res_TS) r.(res_Partial) r.(res_Truncated)) i else i
  else i.

Definition note_outcome (who : Who) (r : Result) (i : Inst) : Inst :=
  if nonempty r.(res_Error) || bool_decide (r.(res_SkipReason) = "") then
    ib_add_outcomes [mkOutcome (mkCountKey who.(instUUID) r.(res_Check) r.(res_Database)) r.(res_TS) (nonempty r.(res_Error))] i
  else i.

Definition note_truncation (who : Who) (r : Result) (i : Inst) : PM Inst :=
  if r.(res_Truncated) then
    due ← truncationEventDue who r.(res_Check) r.(res_TS) i.(ib_truncatedAt);
    if due : bool then
      mret (ib_add_events [mkEventRow who.(tenantID) r.(res_TS) "cardinality_truncated" (Some who.(cidDB)) (Some who.(instUUID))
        [("check", AString r.(res_Check)); ("database", AString r.(res_Database))]] (ib_set_truncated r.(res_Check) r.(res_TS) i))
    else mret i
  else mret i.

Definition note_fact (who : Who) (r : Result) (i : Inst) (f : WFact) : PM Inst :=
  match Fact_Validate f with
  | Some _ => log [IngestRejected "invalid_fact"];; mret i
  | None =>
      if bool_decide (f.(f_Kind) = "lock_tree") then
        mret (ib_set_lock (Some (mkLockSnapshotRow who.(tenantID) who.(instUUID) who.(cidDB) r.(res_TS) (withholdLockTreeQueries f.(f_ValueJSON)))) i)
      else if bool_decide (f.(f_Kind) = "plan") then mret i
      else
        let raw := if bool_decide (f.(f_Kind) = "xmin_horizon") then withholdXminIdentity f.(f_ValueJSON) else f.(f_ValueJSON) in
        let f' := mkWFact f.(f_Kind) f.(f_Key) f.(f_Labels) f.(f_ValueText) raw in
        let text := if nonempty f'.(f_ValueText) || EmptySetting f' then Some f'.(f_ValueText) else None in
        mret (ib_add_facts [fact_row who r.(res_Database) f.(f_Kind) f.(f_Key) f.(f_Labels) text
          (match raw with [] => None | _ => Some raw end) r.(res_TS)] i)
  end.

Definition note_backups (who : Who) (r : Result) (i : Inst) : Inst :=
  let jobs := runningBasebackups r in
  if 0 <? jobs then ib_add_facts [fact_row who "" "backup" "basebackup_running" ∅ (Some (itoa jobs)) None r.(res_TS)] i else i.

Definition text_row (who : Who) (inst : WInstance) (r : Result) (q : string * text) : option QueryTextRow :=
  qid ← ParseInt (str q.1);
  let pgMajor := if inst.(inst_PGVersion) =? 0 then 0 else Major inst.(inst_PGVersion) in
  Some (mkQueryTextRow who.(tenantID) who.(cidDB) r.(res_Database) qid pgMajor (if MayHoldCredential q.2 then Withheld else q.2) r.(res_TS)).

(** One result: what it says beside its metrics, then the metrics. *)
Definition process_result (who : Who) (inst : WInstance) (i : Inst) (r : Result) : PM (option inst_err * Inst) :=
  let i := note_outcome who r (note_partial r (note_prunes who r (note_skip who r i))) in
  i ← note_truncation who r i;
  i ← fold_in (note_fact who r) i r.(res_Facts);
  let i := ib_add_texts (omap (text_row who inst r) (visit r.(res_QueryTexts))) (note_backups who r i) in
  e ← gets w_delta;
  let '(err, (e, rows, resets)) := metrics_loop who r r.(res_Metrics) e i.(ib_rows) [] in
  puts (set_delta e);;
  mret (err, ib_add_events (counterResetEvents resets who.(tenantID) who.(cidDB) who.(instUUID)) (ib_set_rows rows i)).

(** The results in order, up to the first that is refused. *)
Fixpoint process_results (who : Who) (inst : WInstance) (i : Inst) (rs : list Result) : PM (option inst_err * Inst) :=
  match rs with
  | [] => mret (None, i)
  | r :: rs =>
      x ← process_result who inst i r;
      match x with
      | (Some e, i) => mret (Some e, i)
      | (None, i) => process_results who inst i rs
      end
  end.
(** ** Upstream addresses *)

Definition endpointKey (addr : string) (port : Z) : string := if 0 <? port then addr +:+ ":" +:+ itoa port else addr.
Definition clusterAddr (cluster : Z) (addr : string) : string := itoa cluster +:+ "/" +:+ addr.

Definition book_instance (b : AddrBook) (inst : WInstance) : AddrBook :=
  let id := uuid_Parse inst.(inst_InstanceID) in
  let cid := ParseClusterID inst.(inst_ClusterID) in
  let b := match id with
    | Some id =>
        if nonempty inst.(inst_Addr) then
          let byPort := if 0 <? inst.(inst_Port) then <[endpointKey inst.(inst_Addr) inst.(inst_Port) := id]> b.(addrToInstance) else b.(addrToInstance) in
          match cid with
          | Some cid =>
              let key := clusterAddr (ToDB cid) inst.(inst_Addr) in
              let two := match b.(addrOnly) !! key with Some prev => negb (bool_decide (prev = id)) | None => false end in
              mkBook byPort b.(targetNameToInstance) (<[key := id]> b.(addrOnly)) (if two then {[key]} ∪ b.(ambiguousAddr) else b.(ambiguousAddr)) b.(clusterPrimaries)
          | None => mkBook byPort b.(targetNameToInstance) b.(addrOnly) b.(ambiguousAddr) b.(clusterPrimaries)
          end
        else b
    | None => b
    end in
  let b := match id with
    | Some id => if nonempty inst.(inst_TargetName)
        then mkBook b.(addrToInstance) (<[inst.(inst_TargetName) := id]> b.(targetNameToInstance)) b.(addrOnly) b.(ambiguousAddr) b.(clusterPrimaries) else b
    | None => b
    end in
  match id, cid with
  | Some id, Some cid =>
      if bool_decide (inst.(inst_Role) = "primary") then
        mkBook b.(addrToInstance) b.(targetNameToInstance) b.(addrOnly) b.(ambiguousAddr)
          (<[cid := (id, from_option snd 0 (b.(clusterPrimaries) !! cid) + 1)]> b.(clusterPrimaries))
      else b
  | _, _ => b
  end.

Definition address_book (env : Envelope) : AddrBook := foldl book_instance (mkBook ∅ ∅ ∅ ∅ ∅) env.(env_Instances).

(** The instances a query selects, in the order the database returns them. *)
Definition select_instances (p : UUID → InstanceRow → bool) (limit : nat) (d : DB) : list UUID :=
  take limit (visit (filter (λ x, p x.1 x.2 = true) d.(instances))).*1.

(** The instance an address names, and the cache of the lookups. *)
Definition resolveAddr (b : AddrBook) (cidDB : Z) (addr : string) (port : Z) (cache : gmap string UUID) : PM (option UUID * gmap string UUID) :=
  match b.(targetNameToInstance) !! addr with
  | Some id => mret (Some id, cache)
  | None =>
  let key := endpointKey addr port in
  match b.(addrToInstance) !! key with
  | Some id => mret (Some id, cache)
  | None =>
  let ck := clusterAddr cidDB addr in
  if (port =? 0) && bool_decide (ck ∈ b.(ambiguousAddr)) then mret (None, cache)
  else
  match (if port =? 0 then b.(addrOnly) !! ck else None) with
  | Some id => mret (Some id, cache)
  | None =>
  let cacheKey := clusterAddr cidDB key in
  match cache !! cacheKey with
  | Some id => mret (Some id, cache)
  | None =>
  named ← (if nonempty addr then
    x ← try_query (select_instances (λ _ r, bool_decide (r.(i_cluster) = cidDB) && bool_decide (r.(i_target_name) = addr)) 1);
    mret (x ≫= head) else mret None);
  match named with
  | Some id => mret (Some id, <[cacheKey := id]> cache)
  | None =>
  found ← try_query (select_instances (λ _ r, bool_decide (r.(i_cluster) = cidDB) && bool_decide (r.(i_addr) = addr) &&
    (negb (0 <? port) || bool_decide (r.(i_port) = port))) 2);
  match found with
  | Some [id] => mret (Some id, <[cacheKey := id]> cache)
  | _ => mret (None, cache)
  end end end end end end.

(** The edges of a standby whose upstream is known. *)
Fixpoint resolve_edges (b : AddrBook) (inst : WInstance) (cid : ClusterID) (id : UUID) (edges : list WEdge) (cache : gmap string UUID) :
    PM (list Topology.Edge * gmap string UUID) :=
  match edges with
  | [] => mret ([], cache)
  | we :: edges =>
      if negb (bool_decide (inst.(inst_Role) = "standby")) then mret ([], cache)
      else if negb (bool_decide (we.(we_Confidence) = "high")) && negb (bool_decide (we.(we_Confidence) = "low")) then
        log [IngestRejected "invalid_edge"];; resolve_edges b inst cid id edges cache
      else
        x ← resolveAddr b (ToDB cid) we.(we_To) we.(we_Port) cache;
        let '(found, cache) := x in
        let to := match found, b.(clusterPrimaries) !! cid with
          | Some to, _ => Some to
          | None, Some (p, n) => if n =? 1 then Some p else None
          | None, None => None
          end in
        y ← resolve_edges b inst cid id edges cache;
        mret (match to with
          | Some to => (Topology.mkEdge id to we.(we_Type) "" we.(we_Confidence) :: y.1, y.2)
          | None => y
          end)
  end.

(** ** One instance *)

Definition event_type (t : Topology.EventType) : string :=
  match t with
  | Topology.EventFailoverDetected _ _ => "failover_detected"
  | Topology.EventRoleChange _ _ => "role_change"
  | Topology.EventSplitBrainDetected _ => "split_brain_detected"
  | Topology.EventOrphanStandby _ => "orphan_standby"
  end.

Definition role_text (r : Role) : string :=
  match r with RoleNone => "" | RolePrimary => "primary" | RoleStandby => "standby" | RoleUnknown => "unknown" end.

Definition topology_payload (t : Topology.EventType) : list (string * any) :=
  match t with
  | Topology.EventFailoverDetected old new => [("old_primary", AString (uuid_String old)); ("new_primary", AString (uuid_String new))]
  | Topology.EventRoleChange (Some old) new => [("old_role", AString (role_text old)); ("new_role", AString (role_text new))]
  | Topology.EventRoleChange None new => [("new_role", AString (role_text new))]
  | Topology.EventSplitBrainDetected n => [("primary_count", AInt n)]
  | Topology.EventOrphanStandby s => [("duration_seconds", AFloat s)]
  end.

(** A cluster-scoped event names no instance. *)
Definition topology_event (tenant : string) (cidDB : Z) (ev : Topology.Event) : EventRow :=
  mkEventRow tenant ev.(Topology.eTimestamp) (event_type ev.(Topology.eType)) (Some cidDB)
    (if bool_decide (ev.(Topology.eInstanceID) = uuid_Nil) then None else Some ev.(Topology.eInstanceID)) (topology_payload ev.(Topology.eType)).

Definition apply_topology (obs : Topology.Observation) : PM (list Topology.Event) :=
  t ← now;
  e ← gets w_topo;
  us ← gets w_undos;
  match Topology.ApplyUndoable e obs t with
  | None => raise Panicked
  | Some (evs, e', (before, written)) =>
      puts (set_topo e' (us ++ [(obs.(Topology.oInstanceID), obs.(Topology.oClusterID), before, written)]));;
      mret evs
  end.

Definition undo_one (u : undo) (e : Topology.Engine) : Topology.Engine :=
  let '(id, c, before, written) := u in Topology.revert e id c before written.

(** The undo functions from [mark] on, the last first. *)
Definition run_undos (mark : nat) (w : World) : World :=
  set_topo (foldr undo_one w.(w_topo) (drop mark w.(w_undos))) (take mark w.(w_undos)) w.

Definition partial_fact (who : Who) (pk : partialKey) (obs : partialObservation) : ObjectFactRow :=
  fact_row who pk.2 "check_partial" pk.1 ∅ (Some (if obs.(po_truncated) then "truncated" else "partial")) None obs.(po_ts).

(** A check whose newest result left something out keeps a fact; a complete one drops it. *)
Definition settle_partial (who : Who) (a : Acc) (x : partialKey * partialObservation) : PM Acc :=
  if negb x.2.(po_partial) && negb x.2.(po_truncated) then
    exec_all (DeleteCheckPartialFact who.(tenantID) who.(instUUID) x.1.2 x.1.1);; mret a
  else mret (add_facts [partial_fact who x.1 x.2] a).

(** The buffers of an accepted instance join those of the envelope. *)
Definition join (who : Who) (inst : WInstance) (role : Role) (i : Inst) (self : list MetricRow) (a : Acc) : Acc :=
  mkAcc (a.(genericRows) ++ i.(ib_rows).(generic) ++ self) (a.(statementRows) ++ (visit i.(ib_rows).(stmtMap)).*2)
    (a.(ashRows) ++ i.(ib_rows).(ashes)) (a.(replicationRows) ++ (visit i.(ib_rows).(replMap)).*2) (a.(queryTextRows) ++ i.(ib_texts))
    (a.(eventRows) ++ i.(ib_events)) (a.(objectFactRows) ++ i.(ib_facts)) (a.(tableRows) ++ (visit i.(ib_rows).(tableMap)).*2)
    (a.(indexRows) ++ (visit i.(ib_rows).(indexMap)).*2) (a.(bloatRows) ++ (visit i.(ib_rows).(bloatMap)).*2)
    (a.(lockSnapshotRows) ++ option_list i.(ib_lock)) (a.(relationPrunes) ++ i.(ib_relationPrunes)) (a.(factPrunes) ++ i.(ib_factPrunes))
    (a.(checkOutcomes) ++ i.(ib_outcomes))
    (match inst.(inst_Results) with [] => a.(currentSeries) | _ => <[who.(instUUID) := i.(ib_rows).(series)]> a.(currentSeries) end)
    (a.(deltaBatches) ++ [i.(ib_rows).(batch)]) (a.(storedInstances) ++ [who.(instUUID)]) (<[who.(instUUID) := role]> a.(storedRoles))
    a.(dbAddrCache) (a.(Accepted) + 1) a.(Rejected) a.(Errors).

Definition edge_row (who : Who) (e : Topology.Edge) : TopologyEdgeRow :=
  mkEdgeRow who.(tenantID) who.(cidDB) who.(instUUID) e.(Topology.To) e.(Topology.Type_) None e.(Topology.Confidence).

Definition defaultTenant : string := "default".

Definition process_instance (b : AddrBook) (env : Envelope) (a : Acc) (inst : WInstance) : PM Acc :=
  match ParseClusterID inst.(inst_ClusterID) with
  | None => mret (reject inst.(inst_InstanceID) InvalidClusterID a)
  | Some cid =>
  match uuid_Parse inst.(inst_InstanceID) with
  | None => mret (reject inst.(inst_InstanceID) InvalidInstanceID a)
  | Some id =>
      let role := normalizeRole inst.(inst_Role) in
      priorRole ← storedRole id;
      mark ← gets (λ w, length w.(w_undos));
      x ← resolve_edges b inst cid id inst.(inst_TopologyEdges) a.(dbAddrCache);
      let '(edges, cache) := x in
      let a := set_cache cache a in
      let who := mkWho defaultTenant (ToDB cid) id edges in
      evs ← apply_topology (Topology.mkObservation id cid role priorRole env.(env_SentAt) edges);
      y ← process_results who inst (new_inst (topology_event who.(tenantID) who.(cidDB) <$> evs)) inst.(inst_Results);
      match y with
      | (Some err, _) => puts (run_undos mark);; mret (reject inst.(inst_InstanceID) err a)
      | (None, i) =>
          exec_all (WriteTopologyEdges who.(tenantID) who.(cidDB) id (edge_row who <$> edges));;
          t ← now;
          let a := join who inst role i (selfMetricRows env inst who.(tenantID) who.(cidDB) id t) a in
          exec_all (uniqueStrings i.(ib_clear) ≫= DeleteCheckSkipFacts who.(tenantID) id);;
          fold_in (settle_partial who) a (visit i.(ib_partial))
      end
  end end.
(** ** The envelope *)

(** [PruneRelationStats], whose own error is not the database's. *)
Definition prune_relations (p : RelationStatsPrune) : PM unit :=
  match PruneRelationStats p with Some l => exec_all l | None => raise GoFailed end.

(** The writes at the end of the transaction, in their order. *)
Definition write_rows (a : Acc) : PM unit :=
  exec_all ((λ id, SetRole id (default RoleNone (a.(storedRoles) !! id))) <$> a.(storedInstances));;
  exec_all (match a.(storedInstances) with [] => [] | ids => [TouchInstances ids] end);;
  exec_all (WriteMetrics a.(genericRows));;
  exec_all (WriteStatements a.(statementRows));;
  exec_all (WriteASH a.(ashRows));;
  exec_all (WriteReplication a.(replicationRows));;
  exec_all (WriteQueryTexts a.(queryTextRows));;
  exec_all (WriteEvents a.(eventRows));;
  exec_all (WriteObjectFacts a.(objectFactRows));;
  exec_all (a.(factPrunes) ≫= PruneObjectFacts);;
  exec_all (WriteLockSnapshots a.(lockSnapshotRows));;
  fold_in (λ _, prune_relations) () a.(relationPrunes);;
  exec_all (WriteTableStats a.(tableRows));;
  exec_all (WriteIndexStats a.(indexRows));;
  exec_all (WriteBloat a.(bloatRows)).

(** [tx.Commit]: its error leaves open whether the writes took effect only when the server
    did not answer. [before] is the store as the transaction found it. *)
Definition commit (before : DB) : PM unit :=
  n ← call;
  match answer n with
  | None => mret ()
  | Some e =>
      let took := match e with NoAnswer => commit_applied n | PgError _ => false end in
      (if took then mret () else puts (set_db before));;
      raise (DbFailed e)
  end.

(** [maybeEvict]: every ten minutes, what was last seen more than an hour ago goes. *)
Definition stale_mark (now : Time) (ts : Time) : bool := Before ts (Add now (- Hour)) || After ts (Add now Hour).

Definition evict (now : Time) (w : World) : World :=
  if Sub now w.(w_lastEvict) <? 10 * Minute then w
  else
    let cutoff := Add now (- Hour) in
    set_counted now (filter (λ x, stale_mark now x.2 = false) w.(w_counted))
      (set_topo (Topology.Evict w.(w_topo) cutoff).2 w.(w_undos) (set_delta (Delta.Evict w.(w_delta) cutoff).2 w)).

Definition maybeEvict : PM unit := t ← now; puts (evict t).

(** One counted result. *)
Definition count_one (now : Time) (x : gmap checkCountKey Time * list effect) (o : checkOutcome) : gmap checkCountKey Time * list effect :=
  if match x.1 !! o.(co_key) with Some last => negb (After last now) && negb (After o.(co_ts) last) | None => false end then x
  else (<[o.(co_key) := o.(co_ts)]> x.1,
        x.2 ++ [(if o.(co_failed) then CheckError else CheckOK) o.(co_key).(ck_instance) o.(co_key).(ck_check)]).

Definition countChecks (outcomes : list checkOutcome) : PM unit :=
  t ← now;
  puts (λ w, let '(m, l) := foldl (count_one t) (w.(w_counted), []) outcomes in add_log l (set_counted w.(w_lastEvict) m w)).

(** A deferred function that runs when [m] ends with an error. *)
Definition on_error {A} (f : World → World) (m : PM A) : PM A :=
  λ w, match m w with (inl e, w') => (inl e, f w') | (inr a, w') => (inr a, w') end.

(** The statements of the transaction. *)
Definition body (env : Envelope) : PM Acc :=
  a ← fold_in (process_instance (address_book env) env) new_acc env.(env_Instances);
  write_rows a;;
  mret a.

(** A transaction: its statements, with a rollback when one fails, then the commit. *)
Definition in_transaction {A} (m : PM A) : PM A :=
  n ← call;
  match answer n with
  | Some e => raise (DbFailed e)
  | None =>
      puts (set_tx_now (db_clock n));;
      before ← gets w_db;
      a ← on_error (set_db before) m;
      commit before;;
      mret a
  end.

Definition transaction (env : Envelope) : PM Acc := in_transaction (body env).

(** What [Process] does after the commit. *)
Definition committed (a : Acc) : PM PipelineResult :=
  puts (λ w, set_topo w.(w_topo) [] (set_delta (foldl Delta.Commit w.(w_delta) a.(deltaBatches)) w));;
  countChecks a.(checkOutcomes);;
  log ((λ x, SeriesTotal x.1 (Z.of_nat (size x.2))) <$> visit a.(currentSeries));;
  mret (mkPipelineResult a.(Accepted) a.(Rejected) a.(Errors)).

(** [Process] with a pool: an envelope that does not commit takes its topology back. *)
Definition Process (env : Envelope) : PM PipelineResult :=
  maybeEvict;;
  puts (λ w, set_topo w.(w_topo) [] w);;
  a ← on_error (run_undos 0) (transaction env);
  committed a.

(** ** Without a store *)

Definition raw_observation (id : UUID) (r : Result) (m : WMetric) : Delta.Observation :=
  Delta.mkObservation (mkSeriesKey m.(m_Name) id (seriesDatname r m) (CanonicalLabels m.(m_Labels))) r.(res_TS) m.(m_Value) (seriesStatsReset r m).

(** The metrics of a result, observed at once. *)
Fixpoint metrics_nodb (id : UUID) (r : Result) (ms : list WMetric) (e : Delta.Engine) : option inst_err * Delta.Engine :=
  match ms with
  | [] => (None, e)
  | m :: ms =>
      let gauge := bool_decide (m.(m_Kind) = "gauge") in
      let counter := bool_decide (m.(m_Kind) = "counter") in
      if bool_decide (destinationTable r.(res_Check) = "metrics_ash") then
        if negb gauge && negb counter then (Some UnknownMetricKind, e) else metrics_nodb id r ms e
      else if gauge then metrics_nodb id r ms e
      else if counter then metrics_nodb id r ms (Delta.Observe e (raw_observation id r m)).2
      else (Some UnknownMetricKind, e)
  end.

(** A result is counted when it is met, also one of an instance that is then refused. *)
Fixpoint results_nodb (id : UUID) (rs : list Result) : PM (option inst_err) :=
  match rs with
  | [] => mret None
  | r :: rs =>
      log (if nonempty r.(res_Error) then [CheckError id r.(res_Check)]
           else if bool_decide (r.(res_SkipReason) = "") then [CheckOK id r.(res_Check)] else []);;
      e ← gets w_delta;
      let '(err, e) := metrics_nodb id r r.(res_Metrics) e in
      puts (set_delta e);;
      match err with Some err => mret (Some err) | None => results_nodb id rs end
  end.

Definition processInstanceNoDB (inst : WInstance) : PM (option inst_err) :=
  match ParseClusterID inst.(inst_ClusterID) with
  | None => mret (Some InvalidClusterID)
  | Some _ =>
  match uuid_Parse inst.(inst_InstanceID) with
  | None => mret (Some InvalidInstanceID)
  | Some id => results_nodb id inst.(inst_Results)
  end end.

Definition tally_nodb (res : PipelineResult) (inst : WInstance) : PM PipelineResult :=
  err ← processInstanceNoDB inst;
  mret (match err with
    | Some err => mkPipelineResult res.(pr_Accepted) (res.(pr_Rejected) + 1) (<[inst.(inst_InstanceID) := err]> res.(pr_Errors))
    | None => mkPipelineResult (res.(pr_Accepted) + 1) res.(pr_Rejected) res.(pr_Errors)
    end).

(** [Process] without a pool. *)
Definition ProcessNoDB (env : Envelope) : PM PipelineResult :=
  maybeEvict;;
  fold_in tally_nodb (mkPipelineResult 0 0 ∅) env.(env_Instances).
End process.

(** ** Reverting respects equivalence *)

#[local] Existing Instances Topology.engine_equiv Topology.engine_equivalence Delta.state_equiv Delta.state_equivalence.

Lemma undos_proper us e e' : e ≡ e' → foldr undo_one e us ≡ foldr undo_one e' us.
Proof.
  induction us as [|[[[id c] b] w] us IH]; intros He; cbn; [done|]. by apply (Topology.revert_proper id c b w), IH.
Qed.

(** ** What a step leaves alone *)

(** The counters of stored results and series that have been moved. *)
Definition is_count (x : effect) : bool := match x with IngestRejected _ => false | _ => true end.
Definition counts (w : World) : list effect := List.filter is_count w.(w_log).

(** The state an envelope may not lose. *)
Definition core (w : World) : Delta.baselines * Duration * Topology.Engine * list undo * Time * gmap checkCountKey Time * list effect :=
  (w.(w_delta).(Delta.prev), w.(w_delta).(Delta.maxGap), w.(w_topo), w.(w_undos), w.(w_lastEvict), w.(w_counted), counts w).

(** [m] leaves the core as it is, and does not dereference nil. *)
Definition calm {A} (m : PM A) : Prop := ∀ w, core (m w).2 = core w ∧ (m w).1 ≠ inl Panicked.

Lemma calm_ret {A} (a : A) : calm (mret a).
Proof. by intros w. Qed.

Lemma calm_raise {A} (e : failure) : e ≠ Panicked → calm (raise e : PM A).
Proof. intros He w. split; [done|]. cbn. congruence. Qed.

Lemma calm_gets {A} (f : World → A) : calm (gets f : PM A).
Proof. by intros w. Qed.

Lemma calm_puts (f : World → World) : (∀ w, core (f w) = core w) → calm (puts f).
Proof. intros Hf w. split; [apply Hf|done]. Qed.

Lemma calm_bind {A B} (m : PM A) (f : A → PM B) : calm m → (∀ a, calm (f a)) → calm (m ≫= f).
Proof.
  intros Hm Hf w. unfold mbind, EST_bind. destruct (Hm w) as [Hc Hp]. destruct (m w) as [[e|a] w']; cbn in *; [split; [done|congruence]|].
  destruct (Hf a w') as [Hc' Hp']. split; [congruence|done].
Qed.

Lemma calm_fold {A B} (f : A → B → PM A) a l : (∀ a b, calm (f a b)) → calm (fold_in f a l).
Proof. intros Hf. revert a. induction l as [|b l IH]; intros a; cbn; [apply calm_ret|]. apply calm_bind; [apply Hf|apply IH]. Qed.

Ltac calm_step :=
  first
    [ assumption
    | apply calm_ret
    | apply calm_raise; discriminate
    | apply calm_gets
    | apply calm_bind; [|intros ?]
    | apply calm_fold; intros ??
    | solve [apply calm_puts; intros ?; reflexivity]
    | match goal with
      | |- calm (match ?x with _ => _ end) => destruct x
      | |- calm (let '(_, _) := ?x in _) => destruct x
      end ].

Section calm.
Context `{FloatOverflow, UnicodeLower, RangeOrder, UuidText, UuidParse, JsonCodec, Jsonb, ServerEnv}.

Lemma calm_call : calm call.
Proof. by intros w. Qed.

Lemma calm_now : calm now.
Proof. unfold now. repeat calm_step; apply calm_call. Qed.

Lemma calm_query {A} (f : DB → A) : calm (query f).
Proof. unfold query. apply calm_bind; [apply calm_call|]. intros n. repeat calm_step. Qed.

Lemma calm_try_query {A} (f : DB → A) : calm (try_query f).
Proof. unfold try_query. apply calm_bind; [apply calm_call|]. intros n. repeat calm_step. Qed.

Lemma calm_exec s : calm (exec s).
Proof. unfold exec. apply calm_bind; [apply calm_call|]. intros n. repeat calm_step. Qed.

Lemma calm_exec_all l : calm (exec_all l).
Proof. induction l as [|s l IH]; cbn; [apply calm_ret|]. apply calm_bind; [apply calm_exec|by intros _]. Qed.

Lemma calm_log l : List.filter is_count l = [] → calm (log l).
Proof. intros Hl. apply calm_puts. intros w. unfold core, counts. cbn. by rewrite List.filter_app, Hl, app_nil_r. Qed.

Lemma metrics_loop_engine who r ms e rows resets :
  let '(_, (e', _, _)) := metrics_loop who r ms e rows resets in e'.(Delta.prev) = e.(Delta.prev) ∧ e'.(Delta.maxGap) = e.(Delta.maxGap).
Proof.
  revert e rows resets. induction ms as [|m ms IH]; intros e rows resets; cbn [metrics_loop]; [done|].
  destruct (_ && _); [done|]. case_bool_decide; [apply IH|]. case_bool_decide; [apply IH|].
  unfold Delta.batch_Observe. destruct (Delta.observe _ _ _ _) as [[pt ev] [b h]].
  assert (∀ rows resets, let '(_, (e', _, _)) := metrics_loop who r ms (Delta.mkEngine e.(Delta.prev) e.(Delta.maxGap) h) rows resets in
    e'.(Delta.prev) = e.(Delta.prev) ∧ e'.(Delta.maxGap) = e.(Delta.maxGap)) as Hgo by (intros rows' resets'; exact (IH (Delta.mkEngine e.(Delta.prev) e.(Delta.maxGap) h) rows' resets')).
  destruct ev as [ev|]; [apply Hgo|]. destruct pt; apply Hgo.
Qed.

Lemma calm_process_result who inst i r : calm (process_result who inst i r).
Proof.
  unfold process_result. apply calm_bind.
  { unfold note_truncation, truncationEventDue. repeat calm_step. all: try apply calm_query. }
  intros i'. apply calm_bind.
  { apply calm_fold. intros a f. unfold note_fact. repeat calm_step. by apply calm_log. }
  intros i''. intros w. unfold mbind, EST_bind, gets. cbv beta iota.
  match goal with |- context [metrics_loop ?a ?b ?c ?d ?e ?f] => pose proof (metrics_loop_engine a b c d e f) as He; destruct (metrics_loop a b c d e f) as [err [[e' rows] resets]] end.
  destruct He as [Hp Hg]. unfold puts, mret, EST_ret. cbn. split; [|done]. unfold core. cbn. by rewrite Hp, Hg.
Qed.

Lemma calm_process_results who inst rs : ∀ i, calm (process_results who inst i rs).
Proof.
  induction rs as [|r rs IH]; intros i; cbn; [apply calm_ret|]. apply calm_bind; [apply calm_process_result|].
  intros [[e|] i']; [apply calm_ret|apply IH].
Qed.

Lemma calm_resolveAddr b cid addr port cache : calm (resolveAddr b cid addr port cache).
Proof. unfold resolveAddr. repeat calm_step; apply calm_try_query. Qed.

Lemma calm_resolve_edges b inst cid id edges : ∀ cache, calm (resolve_edges b inst cid id edges cache).
Proof.
  induction edges as [|we edges IH]; intros cache; cbn; [apply calm_ret|]. destruct (negb _); [apply calm_ret|].
  destruct (_ && _); [apply calm_bind; [by apply calm_log|intros _; apply IH]|].
  apply calm_bind; [apply calm_resolveAddr|]. intros [found cache']. apply calm_bind; [apply IH|]. intros y. apply calm_ret.
Qed.

Lemma calm_settle_partial who a x : calm (settle_partial who a x).
Proof. unfold settle_partial. destruct (_ && _); [|apply calm_ret]. apply calm_bind; [apply calm_exec_all|intros _; apply calm_ret]. Qed.

Lemma calm_write_rows a : calm (write_rows a).
Proof.
  unfold write_rows. repeat first [apply calm_exec_all | apply calm_bind; [|intros ?]]. 
  apply calm_fold. intros _ p. unfold prune_relations. destruct (PruneRelationStats p); [apply calm_exec_all|by apply calm_raise].
Qed.

Lemma calm_commit d : calm (commit d).
Proof. unfold commit. apply calm_bind; [apply calm_call|]. intros n. destruct (answer n); [|apply calm_ret]. repeat calm_step. Qed.
End calm.

(** ** An envelope that fails leaves no trace *)

Record steady (w0 w : World) : Prop := {
  st_prev : w.(w_delta).(Delta.prev) = w0.(w_delta).(Delta.prev);
  st_gap : w.(w_delta).(Delta.maxGap) = w0.(w_delta).(Delta.maxGap);
  st_evict : w.(w_lastEvict) = w0.(w_lastEvict);
  st_counted : w.(w_counted) = w0.(w_counted);
  st_counts : counts w = counts w0;
  st_index : Topology.index_ok w.(w_topo);
  st_undo : foldr undo_one w.(w_topo) w.(w_undos) ≡ w0.(w_topo);
}.

Lemma steady_core w0 w w' : core w' = core w → steady w0 w → steady w0 w'.
Proof. unfold core. intros [= E1 E2 E3 E4 E5 E6 E7] []. split; by rewrite ?E1, ?E2, ?E3, ?E4, ?E5, ?E6, ?E7. Qed.

Section steady.
Context `{FloatOverflow, UnicodeLower, RangeOrder, UuidText, UuidParse, JsonCodec, Jsonb, ServerEnv}.

(** [m] keeps an envelope in progress revertible. *)
Definition steadily {A} (m : PM A) : Prop := ∀ w0 w, steady w0 w → steady w0 (m w).2 ∧ (m w).1 ≠ inl Panicked.

Lemma calm_steady {A} (m : PM A) : calm m → steadily m.
Proof. intros Hm w0 w Hw. destruct (Hm w) as [Hc Hp]. split; [by eapply steady_core|done]. Qed.

Lemma steadily_bind {A B} (m : PM A) (f : A → PM B) : steadily m → (∀ a, steadily (f a)) → steadily (m ≫= f).
Proof.
  intros Hm Hf w0 w Hw. unfold mbind, EST_bind. destruct (Hm w0 w Hw) as [Hs Hp].
  destruct (m w) as [[e|a] w']; cbn in *; [split; [done|congruence]|]. by apply Hf.
Qed.

Lemma steadily_fold {A B} (f : A → B → PM A) a l : (∀ a b, steadily (f a b)) → steadily (fold_in f a l).
Proof.
  intros Hf. revert a. induction l as [|b l IH]; intros a; cbn; [apply calm_steady, calm_ret|]. apply steadily_bind; [apply Hf|apply IH].
Qed.

(** An observation adds its own undo function and nothing else. *)
Lemma apply_topology_undo obs w : Topology.index_ok w.(w_topo) →
  ∃ evs w' u, apply_topology obs w = (inr evs, w') ∧ w'.(w_undos) = w.(w_undos) ++ [u] ∧ undo_one u w'.(w_topo) ≡ w.(w_topo) ∧
    Topology.index_ok w'.(w_topo) ∧ Topology.index_ok (undo_one u w'.(w_topo)) ∧
    w'.(w_delta) = w.(w_delta) ∧ w'.(w_lastEvict) = w.(w_lastEvict) ∧ w'.(w_counted) = w.(w_counted) ∧ counts w' = counts w.
Proof.
  intros Hok. unfold apply_topology, now, call, gets, mbind, EST_bind, mret, EST_ret. cbn.
  destruct (Topology.apply_index w.(w_topo) obs (clock w.(w_calls)) Hok) as (evs & e' & Ha & Hok').
  assert (Topology.ApplyUndoable w.(w_topo) obs (clock w.(w_calls)) = Some (evs, e',
    (Topology.mark w.(w_topo) obs.(Topology.oInstanceID) obs.(Topology.oClusterID), Topology.mark e' obs.(Topology.oInstanceID) obs.(Topology.oClusterID)))) as Hu.
  { unfold Topology.ApplyUndoable. by rewrite Ha. }
  rewrite Hu. unfold puts. do 3 eexists. split; [reflexivity|]. cbn. split_and!; try done.
  - exact (Topology.revert_back _ _ _ _ _ _ _ Hok Hu).
  - by apply Topology.revert_index.
Qed.

Lemma steady_apply w0 w w' u : steady w0 w → w'.(w_undos) = w.(w_undos) ++ [u] → undo_one u w'.(w_topo) ≡ w.(w_topo) →
  Topology.index_ok w'.(w_topo) → w'.(w_delta) = w.(w_delta) → w'.(w_lastEvict) = w.(w_lastEvict) → w'.(w_counted) = w.(w_counted) → counts w' = counts w → steady w0 w'.
Proof.
  intros [] Hu Hr Hi Hd He Hc Hl. split; rewrite ?Hd, ?He, ?Hc, ?Hl; [done..|]. rewrite Hu, foldr_app. cbn. etrans; [|done]. by apply undos_proper.
Qed.

(** After a calm step the rest runs from a state with the same core. *)
Lemma steadily_after {A B} (m : PM A) (f : A → PM B) w0 w : calm m → steady w0 w →
  (∀ a w', core w' = core w → steady w0 (f a w').2 ∧ (f a w').1 ≠ inl Panicked) →
  steady w0 ((m ≫= f) w).2 ∧ ((m ≫= f) w).1 ≠ inl Panicked.
Proof.
  intros Hm Hw Hf. unfold mbind, EST_bind. destruct (Hm w) as [Hc Hp]. destruct (m w) as [[e|a] w']; cbn in *; [|by apply Hf].
  split; [by eapply steady_core|congruence].
Qed.

Lemma process_instance_steady b env a inst : steadily (process_instance b env a inst).
Proof.
  intros w0 w Hw. unfold process_instance.
  destruct (ParseClusterID _) as [cid|]; [|by split]. destruct (uuid_Parse _) as [id|]; [|by split].
  apply steadily_after; [apply calm_query|done|]. intros prior w1 Hc1.
  assert (steady w0 w1) as Hw1 by (by eapply steady_core). clear w Hw Hc1.
  change (gets (λ w, length (w_undos w)) ≫= ?f) with (λ w, f (length (w_undos w)) w). cbv beta.
  apply steadily_after; [apply calm_resolve_edges|done|]. intros [edges cache] w2 Hc2.
  assert (steady w0 w2) as Hw2 by (by eapply steady_core).
  assert (w_undos w2 = w_undos w1) as Hun by (unfold core in Hc2; congruence). clear Hw1 Hc2.
  match goal with |- context [apply_topology ?o] => destruct (apply_topology_undo o w2 (st_index _ _ Hw2)) as
    (evs & w3 & u & Ha & Hu & Hr & Hi & Hi' & Hd & He & Hc & Hl) end.
  rewrite (bind_ok _ _ _ _ _ Ha). clear Ha.
  pose proof (steady_apply w0 w2 w3 u Hw2 Hu Hr Hi Hd He Hc Hl) as Hw3.
  apply steadily_after; [apply calm_process_results|done|]. intros [[err|] i] w4 Hc4.
  - split; [|done]. change (steady w0 (run_undos (length (w_undos w1)) w4)). unfold run_undos. unfold core in Hc4. injection Hc4 as E1 E2 E3 E4 E5 E6 E7. destruct Hw2 as [S1 S2 S3 S4 S5 S6 S7].
    rewrite E4, Hu, Hun, take_app_length, drop_app_length. cbn. rewrite E3. split; cbn; [congruence|congruence|congruence|congruence|etrans; [exact E7|congruence]|done|].
    etrans; [|exact S7]. rewrite Hun. by apply undos_proper.
  - assert (steady w0 w4) as Hw4 by (by eapply steady_core). clear Hw2 Hw3 Hc4. revert w0 w4 Hw4.
    match goal with |- ∀ w0 w4, steady w0 w4 → steady w0 (?m w4).2 ∧ _ => apply (calm_steady m) end.
    apply calm_bind; [apply calm_exec_all|intros _]. apply calm_bind; [apply calm_now|intros t].
    apply calm_bind; [apply calm_exec_all|intros _]. apply calm_fold. intros. apply calm_settle_partial.
Qed.

(** ** The envelope as a whole *)

(** The server before the envelope touches anything: after the eviction that is due. *)
Definition evicted (w : World) : World :=
  let w1 := evict (clock w.(w_calls)) (next_call w) in set_topo w1.(w_topo) [] w1.

Lemma evicted_recent w : (Sub (clock w.(w_calls)) w.(w_lastEvict) <? 10 * Minute) = true → (evicted w).(w_counted) = w.(w_counted).
Proof. intros Hr. unfold evicted, evict. cbn. by rewrite Hr. Qed.

Lemma Process_unfold env w : Process env w = (a ← on_error (run_undos 0) (transaction env); committed a) (evicted w).
Proof. done. Qed.

Lemma evicted_index w : Topology.index_ok w.(w_topo) → Topology.index_ok (evicted w).(w_topo).
Proof. intros Hw. unfold evicted, evict. cbn. destruct (_ <? _); [done|]. by apply Topology.Evict_index. Qed.

Lemma evicted_db w : (evicted w).(w_db) = w.(w_db).
Proof. unfold evicted, evict. by destruct (_ <? _). Qed.

Lemma steady_refl w : Topology.index_ok w.(w_topo) → w.(w_undos) = [] → steady w w.
Proof. intros Hi Hu. split; try done. by rewrite Hu. Qed.

Lemma body_steady env : steadily (body env).
Proof.
  apply steadily_bind; [apply steadily_fold; intros; apply process_instance_steady|]. intros a.
  apply calm_steady, calm_bind; [apply calm_write_rows|intros _; apply calm_ret].
Qed.

Lemma steady_set_db w0 w d : steady w0 w → steady w0 (set_db d w).
Proof. by apply steady_core. Qed.

(** The statements of an envelope went through, the commit got no answer, and it had taken
    effect. *)
Definition commit_lost (env : Envelope) (w : World) (e : failure) (d : DB) : Prop :=
  e = DbFailed NoAnswer ∧ ∃ a w2, body env (set_tx_now (db_clock w.(w_calls)) (next_call w)) = (inr a, w2) ∧
    answer w2.(w_calls) = Some NoAnswer ∧ commit_applied w2.(w_calls) = true ∧ d = w2.(w_db).

(** The store after the transaction: untouched when it failed, unless the answer of its
    commit was lost. *)
Lemma transaction_steady env w0 w : steady w0 w →
  match transaction env w with
  | (inl e, w') => steady w0 w' ∧ e ≠ Panicked ∧ (w'.(w_db) = w.(w_db) ∨ commit_lost env w e w'.(w_db))
  | (inr _, w') => steady w0 w'
  end.
Proof.
  intros Hw. unfold transaction, in_transaction. rewrite (bind_ok _ _ w (w_calls w) (next_call w) eq_refl).
  destruct (answer (w_calls w)) as [e|]; [cbn; split_and!; [by apply (steady_core _ w)|done|by left]|].
  rewrite (bind_ok (puts (set_tx_now (db_clock (w_calls w)))) _ (next_call w) () _ eq_refl).
  rewrite (bind_ok (gets w_db) _ (set_tx_now (db_clock (w_calls w)) (next_call w)) (w_db w) _ eq_refl).
  unfold commit_lost. set (w1 := set_tx_now _ _). assert (steady w0 w1) as Hw1 by (by apply (steady_core _ w)). clearbody w1.
  destruct (body_steady env w0 w1 Hw1) as [Hb Hp]. unfold on_error.
  destruct (body env w1) as [[e|a] w2] eqn:E; cbn in Hb, Hp.
  { rewrite (bind_fail _ _ _ e (set_db (w_db w) w2)) by (by rewrite E). split_and!; [by apply steady_set_db|congruence|by left]. }
  rewrite (bind_ok _ _ _ a w2) by (by rewrite E).
  destruct (calm_commit (w_db w) w2) as [Hc _]. unfold mbind, EST_bind.
  assert (match commit (w_db w) w2 with (inl e, w3) => e ≠ Panicked ∧ (w_db w3 = w_db w ∨ e = DbFailed NoAnswer ∧ answer w2.(w_calls) = Some NoAnswer ∧ commit_applied w2.(w_calls) = true ∧ w_db w3 = w_db w2) | _ => True end) as Hdb.
  { unfold commit, call, mbind, EST_bind. cbv beta iota. destruct (answer (w_calls w2)) as [[code|]|]; [| |done].
    - cbn. split; [done|by left].
    - destruct (commit_applied _); cbn; (split; [done|]); [by right|by left]. }
  destruct (commit (w_db w) w2) as [[e|[]] w3]; cbn in Hc |- *; [|by eapply steady_core].
  destruct Hdb as [Hne Hdb]. split_and!; [by eapply steady_core|done|]. destruct Hdb as [?|(? & ? & ? & ?)]; [by left|right]. split; [done|]. by exists a, w2.
Qed.

Lemma Process_failed env w e w' : Topology.index_ok w.(w_topo) → Process env w = (inl e, w') →
  ∃ w1, steady (evicted w) w1 ∧ w' = run_undos 0 w1 ∧ e ≠ Panicked ∧ (w1.(w_db) = w.(w_db) ∨ commit_lost env (evicted w) e w1.(w_db)).
Proof.
  intros Hi. rewrite Process_unfold.
  assert (steady (evicted w) (evicted w)) as Hs by (by apply steady_refl; [apply evicted_index|]).
  pose proof (transaction_steady env (evicted w) (evicted w) Hs) as Ht. rewrite evicted_db in Ht.
  unfold mbind, EST_bind, on_error. destruct (transaction env (evicted w)) as [[e'|a] w1].
  - intros [= <- <-]. exists w1. naive_solver.
  - unfold committed, countChecks, now, call, log, puts, mbind, EST_bind. cbn.
    destruct (foldl _ _ _); by destruct (visit _).
Qed.

(** C8: An envelope that is not stored leaves the server as the eviction that was due at its
    start left it. When [Process] returns an error, whichever database call failed, before
    its effect or after, it does not panic, and the counter baselines, the marks and counts
    of results and the topology (up to the equivalence of engines, undone instance by
    instance) are those of after the eviction. The store is unchanged too, but in one case:
    all statements went through and the commit took effect without its answer arriving; the
    store then holds what the statements wrote. *)
Theorem failed_envelope_leaves_no_trace env w e w' : Topology.index_ok w.(w_topo) → Process env w = (inl e, w') →
  e ≠ Panicked ∧ (w'.(w_db) = w.(w_db) ∨ commit_lost env (evicted w) e w'.(w_db)) ∧
  w'.(w_delta).(Delta.prev) = (evicted w).(w_delta).(Delta.prev) ∧ w'.(w_counted) = (evicted w).(w_counted) ∧
  counts w' = counts w ∧ w'.(w_topo) ≡ (evicted w).(w_topo) ∧ w'.(w_undos) = [].
Proof.
  intros Hi Hf. destruct (Process_failed env w e w' Hi Hf) as (w1 & Hs & -> & Hp & Hdb). destruct Hs. split_and!; try done.
  transitivity (counts (evicted w)); [done|]. unfold evicted, evict. by destruct (_ <? _).
Qed.
End steady.

(** ** The order of the calls *)

(** The calls only go on. *)
Definition later (w w' : World) : Prop := (w.(w_calls) ≤ w'.(w_calls))%nat.

#[export] Instance later_preorder : PreOrder later.
Proof. split; unfold later; [intros w; lia|intros w1 w2 w3; lia]. Qed.

Lemma later_call : moves later call.
Proof. intros w. unfold later. cbn. lia. Qed.

Ltac later_step := first [apply later_call | solve [apply moves_puts; intros ?; unfold later; cbn; lia] | peel_moves].

Section order.
Context `{FloatOverflow, UnicodeLower, RangeOrder, UuidText, UuidParse, JsonCodec, Jsonb, ServerEnv}.

Lemma later_exec_all l : moves later (exec_all l).
Proof. induction l as [|s l IH]; cbn; [apply (moves_ret later)|]. apply (moves_bind later); [|by intros _]. unfold exec. repeat later_step. Qed.

Lemma later_resolve_edges b inst cid id l : ∀ c, moves later (resolve_edges b inst cid id l c).
Proof.
  induction l as [|we l IH]; intros c; cbn; [apply (moves_ret later)|].
  destruct (negb _); [apply (moves_ret later)|]. destruct (_ && _); unfold log, resolveAddr, try_query; repeat first [apply IH | later_step].
Qed.

Lemma later_process_results who inst l : ∀ i, moves later (process_results who inst i l).
Proof.
  induction l as [|r l IH]; intros i; cbn; [apply (moves_ret later)|].
  apply (moves_bind later); [|intros [[]]; [apply (moves_ret later)|apply IH]].
  unfold process_result, note_truncation, truncationEventDue, query, note_fact, log. repeat later_step.
Qed.

Lemma later_process_instance b env a inst : moves later (process_instance b env a inst).
Proof.
  unfold process_instance, storedRole, query, apply_topology, now, settle_partial.
  repeat first [apply later_exec_all | apply later_resolve_edges | apply later_process_results | later_step].
Qed.

Lemma later_transaction env : moves later (transaction env).
Proof.
  unfold transaction, in_transaction. repeat first [apply later_exec_all | later_step].
  intros w. unfold on_error. assert (moves later (body env)) as Hb.
  { unfold body, write_rows, prune_relations. repeat first [apply later_process_instance | apply later_exec_all | later_step]. }
  specialize (Hb w). by destruct (body env w) as [[e|x] w'].
Qed.
End order.

(** ** What an accepted envelope observes

    The observations, outcomes and verdicts of an envelope as functions of the envelope. *)
Section observations.
Context `{FloatOverflow, UnicodeLower, RangeOrder, UuidText, UuidParse, JsonCodec, Jsonb, ServerEnv}.

(** The identity of an instance, when both of its identifiers parse. *)
Definition identity (inst : WInstance) : option (ClusterID * UUID) :=
  cid ← ParseClusterID inst.(inst_ClusterID); id ← uuid_Parse inst.(inst_InstanceID); Some (cid, id).

Definition known_kind (m : WMetric) : bool := bool_decide (m.(m_Kind) = "gauge") || bool_decide (m.(m_Kind) = "counter").

Definition results_ok (inst : WInstance) : bool := forallb (λ r, forallb known_kind r.(res_Metrics)) inst.(inst_Results).

(** The instance an envelope's entry is stored for. *)
Definition accepted (inst : WInstance) : option UUID :=
  x ← identity inst; if results_ok inst then Some x.2 else None.

(** What the counters of a result say to the delta engine. *)
Definition observation (id : UUID) (r : Result) (m : WMetric) : option Delta.Observation :=
  if bool_decide (metricDestination r.(res_Check) m.(m_Name) = "metrics_ash") then None
  else if bool_decide (m.(m_Kind) = "counter") then
    Some (Delta.mkObservation (mkSeriesKey m.(m_Name) id (seriesDatname r m) (CanonicalLabels m.(m_Labels))) r.(res_TS) m.(m_Value) (seriesStatsReset r m))
  else None.

Definition result_observations (id : UUID) (r : Result) : list Delta.Observation := omap (observation id r) r.(res_Metrics).
Definition instance_observations (inst : WInstance) : list Delta.Observation :=
  match accepted inst with Some id => inst.(inst_Results) ≫= result_observations id | None => [] end.

(** The results that count: those that ran, well or not. *)
Definition outcome (id : UUID) (r : Result) : option checkOutcome :=
  if nonempty r.(res_Error) || bool_decide (r.(res_SkipReason) = "")
  then Some (mkOutcome (mkCountKey id r.(res_Check) r.(res_Database)) r.(res_TS) (nonempty r.(res_Error))) else None.
Definition instance_outcomes (inst : WInstance) : list checkOutcome :=
  match accepted inst with Some id => omap (outcome id) inst.(inst_Results) | None => [] end.

Lemma metrics_loop_spec who r ms : ∀ e rows resets,
  let '(err, (e', rows', _)) := metrics_loop who r ms e rows resets in
  if forallb known_kind ms then err = None ∧ (Delta.batch_Observe_all e rows.(batch) (omap (observation who.(instUUID) r) ms)).2 = (e', rows'.(batch))
  else is_Some err.
Proof.
  assert (∀ m v s rows, (store_metric who r m v s rows).(batch) = rows.(batch)) as Hstore.
  { intros m v s rows. unfold store_metric, store_statement. repeat case_bool_decide; try done. by destruct (ParseInt _). }
  induction ms as [|m ms IH]; intros e rows resets; cbn [metrics_loop forallb omap list_omap]; [done|].
  unfold known_kind at 1, observation at 1.
  destruct (bool_decide (m_Kind m = "gauge")) eqn:Eg; destruct (bool_decide (m_Kind m = "counter")) eqn:Ec; cbn [negb andb orb].
  - apply bool_decide_eq_true in Eg, Ec. congruence.
  - destruct (bool_decide (metricDestination _ _ = "metrics_ash")); [specialize (IH e (add_ash (buildASHRow r.(res_TS) who.(tenantID) who.(cidDB) who.(instUUID) r.(res_Database) m) rows) resets)|
      specialize (IH e (store_metric who r m (m_Value m) fzero rows) resets)]; destruct (metrics_loop _ _ _ _ _ _) as [err [[e' rows'] rs]];
      [exact IH|]. by rewrite Hstore in IH.
  - destruct (bool_decide (metricDestination _ _ = "metrics_ash")); [exact (IH e (add_ash (buildASHRow r.(res_TS) who.(tenantID) who.(cidDB) who.(instUUID) r.(res_Database) m) rows) resets)|].
    cbn [Delta.batch_Observe_all]. unfold series_key.
    destruct (Delta.batch_Observe _ _ _) as [[pt ev] [e1 bt]].
    assert (∀ rows1 resets1, rows1.(batch) = bt → let '(err, (e', rows', _)) := metrics_loop who r ms e1 rows1 resets1 in
      if forallb known_kind ms then err = None ∧
        (let '(out, x) := Delta.batch_Observe_all e1 bt (omap (observation who.(instUUID) r) ms) in ((pt, ev) :: out, x)).2 = (e', rows'.(batch))
      else is_Some err) as Hgo.
    { intros rows1 resets1 <-. specialize (IH e1 rows1 resets1). destruct (metrics_loop _ _ _ _ _ _) as [err [[e' rows'] rs]].
      by destruct (Delta.batch_Observe_all _ _ _). }
    destruct ev as [ev|]; [by apply Hgo|]. destruct pt as [pt|]; apply Hgo; [by rewrite Hstore|done].
  - by eexists.
Qed.

Lemma note_fact_returns who r i f w i' w' : note_fact who r i f w = (inr i', w') →
  i'.(ib_rows) = i.(ib_rows) ∧ i'.(ib_outcomes) = i.(ib_outcomes) ∧ w'.(w_delta) = w.(w_delta).
Proof.
  unfold note_fact. destruct (Fact_Validate f); [unfold log, puts, mbind, EST_bind, mret, EST_ret; by intros [= <- <-]|].
  case_bool_decide; [by intros [= <- <-]|]. case_bool_decide; by intros [= <- <-].
Qed.

Lemma note_facts_return who r fs : ∀ i w i' w', fold_in (note_fact who r) i fs w = (inr i', w') →
  i'.(ib_rows) = i.(ib_rows) ∧ i'.(ib_outcomes) = i.(ib_outcomes) ∧ w'.(w_delta) = w.(w_delta).
Proof.
  induction fs as [|f fs IH]; intros i w i' w'; cbn; [by intros [= <- <-]|]. unfold mbind, EST_bind.
  destruct (note_fact who r i f w) as [[e|i1] w1] eqn:E; [done|]. intros Hf. apply note_fact_returns in E.
  apply IH in Hf. destruct E as (? & ? & ?), Hf as (? & ? & ?). split_and!; congruence.
Qed.

Lemma note_truncation_returns who r i w i' w' : note_truncation who r i w = (inr i', w') →
  i'.(ib_rows) = i.(ib_rows) ∧ i'.(ib_outcomes) = i.(ib_outcomes) ∧ w'.(w_delta) = w.(w_delta).
Proof.
  unfold note_truncation. destruct (res_Truncated r); [|by intros [= <- <-]].
  unfold truncationEventDue, query, call, gets, raise, mbind, EST_bind, mret, EST_ret.
  destruct (match ib_truncatedAt i !! _ with Some _ => _ | None => _ end); [by intros [= <- <-]|].
  cbv beta iota. destruct (answer _); [done|]. cbv beta iota. destruct (negb _); by intros [= <- <-].
Qed.

Lemma noted_first who r i : let i' := note_outcome who r (note_partial r (note_prunes who r (note_skip who r i))) in
  i'.(ib_rows) = i.(ib_rows) ∧ i'.(ib_outcomes) = i.(ib_outcomes) ++ option_list (outcome who.(instUUID) r).
Proof.
  assert ((note_skip who r i).(ib_rows) = i.(ib_rows) ∧ (note_skip who r i).(ib_outcomes) = i.(ib_outcomes)) as [<- <-].
  { unfold note_skip. by repeat case_match. }
  generalize (note_skip who r i). clear i. intros i.
  assert ((note_prunes who r i).(ib_rows) = i.(ib_rows) ∧ (note_prunes who r i).(ib_outcomes) = i.(ib_outcomes)) as [<- <-].
  { unfold note_prunes. by destruct (complete r). }
  generalize (note_prunes who r i). clear i. intros i.
  assert ((note_partial r i).(ib_rows) = i.(ib_rows) ∧ (note_partial r i).(ib_outcomes) = i.(ib_outcomes)) as [<- <-].
  { unfold note_partial. by repeat case_match. }
  generalize (note_partial r i). clear i. intros i. unfold note_outcome, outcome. destruct (_ || _); [done|]. cbn. by rewrite app_nil_r.
Qed.

Lemma process_result_spec who inst i r w err i' w' : process_result who inst i r w = (inr (err, i'), w') →
  i'.(ib_outcomes) = i.(ib_outcomes) ++ option_list (outcome who.(instUUID) r) ∧
  if forallb known_kind r.(res_Metrics) then err = None ∧
    (Delta.batch_Observe_all w.(w_delta) i.(ib_rows).(batch) (result_observations who.(instUUID) r)).2 = (w'.(w_delta), i'.(ib_rows).(batch))
  else is_Some err.
Proof.
  unfold process_result. destruct (noted_first who r i) as [Hr Ho]. revert Hr Ho.
  generalize (note_outcome who r (note_partial r (note_prunes who r (note_skip who r i)))). intros i0 Hr Ho. rewrite <- Hr, <- Ho. clear i Hr Ho.
  unfold mbind at 1, EST_bind at 1. destruct (note_truncation who r i0 w) as [[e|i1] w1] eqn:E1; [done|].
  apply note_truncation_returns in E1 as (<- & <- & <-).
  unfold mbind at 1, EST_bind at 1. destruct (fold_in _ i1 _ w1) as [[e|i2] w2] eqn:E2; [done|].
  apply note_facts_return in E2 as (<- & <- & <-).
  assert ((note_backups who r i2).(ib_rows) = i2.(ib_rows) ∧ (note_backups who r i2).(ib_outcomes) = i2.(ib_outcomes)) as [<- <-].
  { unfold note_backups. by destruct (_ <? _). }
  generalize (note_backups who r i2). clear i2. intros i2. unfold gets, puts, mbind, EST_bind, mret, EST_ret. cbn.
  pose proof (metrics_loop_spec who r (res_Metrics r) w2.(w_delta) i2.(ib_rows) []) as Hm.
  destruct (metrics_loop _ _ _ _ _ _) as [err' [[e' rows'] rs]]. cbn. intros [= <- <- <-]. split; [done|]. exact Hm.
Qed.

Lemma batch_Observe_all_app e bt os1 os2 :
  (Delta.batch_Observe_all e bt (os1 ++ os2)).2 =
    let '(e1, bt1) := (Delta.batch_Observe_all e bt os1).2 in (Delta.batch_Observe_all e1 bt1 os2).2.
Proof.
  revert e bt. induction os1 as [|o os1 IH]; intros e bt; cbn; [done|].
  destruct (Delta.batch_Observe e bt o) as [[pt rs] [e1 bt1]]. specialize (IH e1 bt1).
  destruct (Delta.batch_Observe_all e1 bt1 (os1 ++ os2)), (Delta.batch_Observe_all e1 bt1 os1). exact IH.
Qed.

Lemma process_results_spec who inst rs : ∀ i w err i' w', process_results who inst i rs w = (inr (err, i'), w') →
  if forallb (λ r, forallb known_kind r.(res_Metrics)) rs then err = None ∧
    i'.(ib_outcomes) = i.(ib_outcomes) ++ omap (outcome who.(instUUID)) rs ∧
    (Delta.batch_Observe_all w.(w_delta) i.(ib_rows).(batch) (rs ≫= result_observations who.(instUUID))).2 = (w'.(w_delta), i'.(ib_rows).(batch))
  else is_Some err.
Proof.
  induction rs as [|r rs IH]; intros i w err i' w'; cbn [process_results forallb].
  { intros [= <- <- <-]. split_and!; [done|by rewrite app_nil_r|done]. }
  unfold mbind at 1, EST_bind at 1. destruct (process_result who inst i r w) as [[e|[err1 i1]] w1] eqn:E1; [done|].
  apply process_result_spec in E1 as [Ho Hm]. destruct (forallb known_kind (res_Metrics r)); cbn [andb].
  - destruct Hm as [-> Hm]. intros E. apply IH in E. destruct (forallb _ rs); [|done]. destruct E as (-> & Ho' & Hm').
    split_and!; [done| |].
    + rewrite Ho', Ho, <- app_assoc. f_equal. cbn. by destruct (outcome _ r).
    + rewrite bind_cons, batch_Observe_all_app, Hm. exact Hm'.
  - destruct Hm as [e ->]. intros [= <- <- <-]. by eexists.
Qed.

(** The part of the buffers the later theorems are about. *)
Definition summary (a : Acc) := (a.(storedInstances), a.(deltaBatches), a.(checkOutcomes), a.(Accepted), a.(Rejected)).

Lemma settle_partials_summary who l : ∀ a w a' w', fold_in (settle_partial who) a l w = (inr a', w') → summary a' = summary a.
Proof.
  induction l as [|x l IH]; intros a w a' w'; cbn; [by intros [= <- <-]|]. unfold mbind at 1, EST_bind at 1.
  destruct (settle_partial who a x w) as [[e|a1] w1] eqn:E; [done|]. intros Hf. apply IH in Hf as ->.
  unfold settle_partial in E. destruct (_ && _); [|by injection E as <- _].
  unfold mbind, EST_bind in E. destruct (exec_all _ w) as [[e|[]] w2]; [done|]. by injection E as <- _.
Qed.

Lemma process_instance_spec b env a inst w a' w' : process_instance b env a inst w = (inr a', w') → Topology.index_ok w.(w_topo) →
  match accepted inst with
  | Some id => ∃ bt, summary a' = (a.(storedInstances) ++ [id], a.(deltaBatches) ++ [bt], a.(checkOutcomes) ++ instance_outcomes inst, a.(Accepted) + 1, a.(Rejected)) ∧
      Delta.batch_over w.(w_delta).(Delta.prev) w.(w_delta).(Delta.maxGap) (instance_observations inst) bt
  | None => summary a' = (a.(storedInstances), a.(deltaBatches), a.(checkOutcomes), a.(Accepted), a.(Rejected) + 1)
  end.
Proof.
  intros Hp Hi. unfold instance_outcomes, instance_observations, accepted, identity. unfold process_instance in Hp.
  destruct (ParseClusterID _) as [cid|]; cbn; [|by injection Hp as <- _]. destruct (uuid_Parse _) as [id|]; cbn; [|by injection Hp as <- _].
  unfold storedRole in Hp. step_bind Hp prior w1 E1. pose proof (proj1 (calm_query (λ d, from_option i_role RoleNone (instances d !! id)) w)) as Hc1.
  rewrite E1 in Hc1. cbn in Hc1. clear E1.
  rewrite (bind_ok (gets (λ w, length (w_undos w))) _ w1 (length (w_undos w1)) w1 eq_refl) in Hp.
  step_bind Hp x w2 E2. destruct x as [edges cache].
  pose proof (proj1 (calm_resolve_edges b inst cid id inst.(inst_TopologyEdges) a.(dbAddrCache) w1)) as Hc2. rewrite E2 in Hc2.
  cbn in Hc2. rewrite Hc1 in Hc2. unfold core in Hc2. injection Hc2 as P2 G2 T2 _ _ _ _. clear E2 Hc1.
  match type of Hp with context [apply_topology ?o] => destruct (apply_topology_undo o w2) as (evs & w3 & u & Ha & _ & _ & _ & _ & Hd & _) end; [by rewrite T2|].
  rewrite (bind_ok _ _ _ _ _ Ha) in Hp. clear Ha. set (who := mkWho _ _ _ _) in *.
  step_bind Hp x w4 E3. destruct x as [err i]. apply process_results_spec in E3. fold (results_ok inst) in E3.
  destruct (results_ok inst); cbn; [|destruct E3 as [e ->]; by injection Hp as <- _].
  destruct E3 as (-> & Ho & Hb). step_bind Hp x w5 E4.
  rewrite (bind_ok now _ w5 (clock w5.(w_calls)) (next_call w5) eq_refl) in Hp. step_bind Hp y w6 E5.
  apply settle_partials_summary in Hp. exists i.(ib_rows).(batch). split; [rewrite Hp; unfold summary; cbn; by rewrite Ho|].
  exists w3.(w_delta). cbn in Hb. rewrite Hd, P2, G2 in *. by rewrite Hb.
Qed.

(** The stored entries of an envelope, with their instances. *)
Definition stored (l : list WInstance) : list (UUID * WInstance) := omap (λ inst, (λ id, (id, inst)) <$> accepted inst) l.

Lemma stored_cons inst l : stored (inst :: l) = match accepted inst with Some id => (id, inst) :: stored l | None => stored l end.
Proof. unfold stored. cbn. by destruct (accepted inst). Qed.

Lemma stored_length l : (length (stored l) ≤ length l)%nat.
Proof. induction l as [|inst l IH]; [done|]. rewrite stored_cons. destruct (accepted inst); cbn; lia. Qed.

Lemma instances_spec b env w0 l : ∀ a w a' w', fold_in (process_instance b env) a l w = (inr a', w') → steady w0 w →
  ∃ bts, summary a' = (a.(storedInstances) ++ (stored l).*1, a.(deltaBatches) ++ bts, a.(checkOutcomes) ++ (l ≫= instance_outcomes),
      a.(Accepted) + Z.of_nat (length (stored l)), a.(Rejected) + Z.of_nat (length l - length (stored l))) ∧
    Forall2 (λ x bt, Delta.batch_over w0.(w_delta).(Delta.prev) w0.(w_delta).(Delta.maxGap) (instance_observations x.2) bt) (stored l) bts.
Proof.
  induction l as [|inst l IH]; intros a w a' w' Hf Hw; cbn [fold_in] in Hf.
  { injection Hf as <- <-. exists []. split; [unfold summary; cbn; by rewrite !app_nil_r, !Z.add_0_r|constructor]. }
  step_bind Hf a1 w1 E1. destruct (process_instance_steady b env a inst w0 w Hw) as [Hw1 _]. rewrite E1 in Hw1. cbn in Hw1.
  destruct (IH a1 w1 a' w' Hf Hw1) as (bts & Hs & Hall). apply process_instance_spec in E1; [|apply Hw].
  rewrite (st_prev _ _ Hw), (st_gap _ _ Hw) in E1. rewrite stored_cons, bind_cons, Hs. pose proof (stored_length l).
  assert (accepted inst = None → instance_outcomes inst = []) as Hno by (unfold instance_outcomes; by intros ->).
  destruct (accepted inst) as [id|] eqn:Ea.
  - destruct E1 as (bt & E1 & Hb). unfold summary in E1. injection E1 as -> -> -> -> ->. exists (bt :: bts). split; [|by constructor].
    rewrite <- !app_assoc. cbn [app fmap list_fmap length fst]. do 2 f_equal; lia.
  - unfold summary in E1. injection E1 as -> -> -> -> ->. exists bts. split; [|done]. rewrite Hno by done. cbn [app length]. f_equal; lia.
Qed.

Lemma observations_instance id inst : accepted inst = Some id → Forall (λ o, o.(Delta.o_Key).(Instance) = id) (instance_observations inst).
Proof.
  intros Ha. unfold instance_observations. rewrite Ha. apply Forall_forall. intros o Ho. apply list_elem_of_bind in Ho as (r & Ho & _).
  apply list_elem_of_omap in Ho as (m & _ & Hm). unfold observation in Hm. repeat case_bool_decide; by simplify_eq.
Qed.

Lemma stored_accepted l x : x ∈ stored l → accepted x.2 = Some x.1.
Proof. intros Hx. apply list_elem_of_omap in Hx as (inst & _ & E). destruct (accepted inst) eqn:Ea; [|done]. cbn in E. by simplify_eq. Qed.

Lemma stored_observations l : concat (instance_observations <$> (stored l).*2) = l ≫= instance_observations.
Proof.
  induction l as [|inst l IH]; [done|]. rewrite stored_cons, bind_cons. unfold instance_observations at 2.
  destruct (accepted inst) eqn:Ea; [|exact IH]. cbn. rewrite IH. unfold instance_observations at 1. by rewrite Ea.
Qed.

(** What [Process] does once the transaction is committed. *)
Definition after_commit (a : Acc) (w : World) : World :=
  let t := clock w.(w_calls) in
  let x := foldl (count_one t) (w.(w_counted), []) a.(checkOutcomes) in
  add_log ((λ x, SeriesTotal x.1 (Z.of_nat (size x.2))) <$> visit a.(currentSeries))
    (add_log x.2 (set_counted w.(w_lastEvict) x.1
      (next_call (set_topo w.(w_topo) [] (set_delta (foldl Delta.Commit w.(w_delta) a.(deltaBatches)) w))))).

Lemma committed_run a w : committed a w = (inr (mkPipelineResult a.(Accepted) a.(Rejected) a.(Errors)), after_commit a w).
Proof.
  unfold committed, countChecks, now, call, log, puts, after_commit, mbind, EST_bind, mret, EST_ret. cbn.
  by destruct (foldl (count_one _) _ _).
Qed.

(** A stored envelope: the transaction's summary and the server it leaves. *)
Lemma Process_stored env w res w' : Topology.index_ok w.(w_topo) → Process env w = (inr res, w') →
  ∃ a w1 bts, steady (evicted w) w1 ∧ (w.(w_calls) ≤ w1.(w_calls))%nat ∧ w' = after_commit a w1 ∧ res = mkPipelineResult a.(Accepted) a.(Rejected) a.(Errors) ∧
    summary a = ((stored env.(env_Instances)).*1, bts, env.(env_Instances) ≫= instance_outcomes,
      Z.of_nat (length (stored env.(env_Instances))), Z.of_nat (length env.(env_Instances) - length (stored env.(env_Instances)))) ∧
    Forall2 (λ x bt, Delta.batch_over (evicted w).(w_delta).(Delta.prev) (evicted w).(w_delta).(Delta.maxGap) (instance_observations x.2) bt)
      (stored env.(env_Instances)) bts.
Proof.
  intros Hi. rewrite Process_unfold. intros Hp. assert (steady (evicted w) (evicted w)) as Hs by (by apply steady_refl; [apply evicted_index|]).
  step_bind Hp a w1 E1. rewrite committed_run in Hp. injection Hp as <- <-. unfold on_error in E1. pose proof (later_transaction env (evicted w)) as Hl. unfold later in Hl.
  pose proof (transaction_steady env _ _ Hs) as Ht. destruct (transaction env (evicted w)) as [[e|a1] w2] eqn:Et; [done|]. injection E1 as <- <-.
  unfold transaction, in_transaction in Et. rewrite (bind_ok call _ (evicted w) (w_calls (evicted w)) (next_call (evicted w)) eq_refl) in Et.
  destruct (answer _); [done|]. set (w3 := set_tx_now (db_clock (w_calls (evicted w))) (next_call (evicted w))).
  rewrite (bind_ok (puts (set_tx_now (db_clock (w_calls (evicted w))))) _ (next_call (evicted w)) () w3 eq_refl) in Et.
  rewrite (bind_ok (gets w_db) _ w3 (w_db w3) w3 eq_refl) in Et. assert (steady (evicted w) w3) as Hs3 by (by apply (steady_core _ (evicted w))).
  step_bind Et a2 w4 Eb. unfold on_error in Eb. destruct (body env w3) as [[e|a3] w5] eqn:E5; [done|]. injection Eb as <- <-.
  step_bind Et x w6 Ec. injection Et as <- <-. unfold body in E5. step_bind E5 a w7 Ef.
  step_bind E5 y w8 Ew. injection E5 as <- <-.
  destruct (instances_spec _ _ _ _ _ _ _ _ Ef Hs3) as (bts & Hsum & Hall). exists a, w6, bts. split_and!; try done.
  etrans; [|exact Hl]. unfold evicted, evict. destruct (_ <? _); cbn; lia.
Qed.

(** C9: A stored envelope that names no accepted instance twice moves the counter
    baselines as direct observation does, as long as the baselines held before are numbers
    (a value read from JSON is one). After [Process] has committed, every series is where
    observing the counters of the accepted instances one after the other, from the engine
    the due eviction left, would have left it; the accepted instances are those whose
    identifiers parse and whose metrics are all gauges or counters, and the result counts
    them and the rejected ones. *)
Theorem stored_envelope_observed env w res w' : Topology.index_ok w.(w_topo) → Process env w = (inr res, w') →
  NoDup (stored env.(env_Instances)).*1 → map_Forall (λ _ s, is_nan s.(Delta.value) = false) (evicted w).(w_delta).(Delta.prev) →
  (∀ k, w'.(w_delta).(Delta.prev) !! k ≡ (Delta.Observe_all (evicted w).(w_delta) (env.(env_Instances) ≫= instance_observations)).2.(Delta.prev) !! k) ∧
  res.(pr_Accepted) = Z.of_nat (length (stored env.(env_Instances))) ∧
  res.(pr_Accepted) + res.(pr_Rejected) = Z.of_nat (length env.(env_Instances)) ∧ Topology.index_ok w'.(w_topo).
Proof.
  intros Hi Hp Hnd Hnan. destruct (Process_stored env w res w' Hi Hp) as (a & w1 & bts & Hs & _ & -> & -> & Hsum & Hall).
  unfold summary in Hsum. injection Hsum as E1 E2 E3 E4 E5. cbn. pose proof (stored_length env.(env_Instances)).
  split_and!; [|done|rewrite E4, E5; lia|apply Hs]. intros k. rewrite E2.
  set (b := Delta.prev (w_delta (evicted w))) in *. set (g := Delta.maxGap (w_delta (evicted w))) in *.
  set (l := stored env.(env_Instances)) in *. set (items := zip l.*1 (zip (instance_observations <$> l.*2) bts)).
  assert (length bts = length l) as Hlen by (symmetry; by eapply Forall2_length).
  assert (items.*1 = l.*1 ∧ items.*2.*1 = instance_observations <$> l.*2 ∧ items.*2.*2 = bts) as (I1 & I2 & I3).
  { unfold items. rewrite fst_zip, snd_zip, fst_zip, snd_zip by (rewrite ?length_zip, ?length_fmap; lia). done. }
  rewrite <- I3.
  rewrite (Delta.commits_observe b g k items); [|by rewrite I1| |done|by rewrite (st_prev _ _ Hs)].
  - rewrite I2. unfold l. rewrite (stored_observations env.(env_Instances)).
    destruct (Delta.Observe_all_key k (env_Instances env ≫= instance_observations) (Delta.mkEngine b g 0) (Delta.mkEngine b g 0)) as [-> _]; [done|].
    destruct (Delta.Observe_all_key k (env_Instances env ≫= instance_observations) (w_delta (evicted w)) (Delta.mkEngine b g 0)) as [-> _]; [done|]. done.
  - clear -Hall Hlen. unfold items. assert (∀ x, x ∈ l → accepted x.2 = Some x.1) as Ha by (intros; by eapply stored_accepted).
    clearbody l. clear items. induction Hall as [|x bt l bts Hb Hall IH]; cbn; [constructor|]. constructor.
    + cbn. split; [done|]. apply observations_instance, Ha. by left.
    + apply IH; [cbn in Hlen; lia|]. intros y Hy. apply Ha. by right.
Qed.

(** ** With and without a store *)

Lemma metrics_nodb_spec id r ms : ∀ e, (metrics_nodb id r ms e).1 = if forallb known_kind ms then None else Some UnknownMetricKind.
Proof.
  induction ms as [|m ms IH]; intros e; [done|]. cbn [metrics_nodb forallb]. unfold known_kind at 1.
  destruct (bool_decide (m_Kind m = "gauge")), (bool_decide (m_Kind m = "counter")); cbn [negb andb orb]; case_bool_decide; done || apply IH.
Qed.

Lemma results_nodb_spec id rs : ∀ w, ∃ w', results_nodb id rs w =
  (inr (if forallb (λ r, forallb known_kind r.(res_Metrics)) rs then None else Some UnknownMetricKind), w').
Proof.
  induction rs as [|r rs IH]; intros w; [by eexists|]. cbn [results_nodb forallb].
  unfold log, puts, gets, mbind, EST_bind. cbv beta iota.
  match goal with |- context [metrics_nodb ?a ?b ?c ?d] => pose proof (metrics_nodb_spec a b c d) as E; destruct (metrics_nodb a b c d) as [err e] end.
  cbn in E. destruct (forallb known_kind _); subst err; [apply IH|by eexists].
Qed.

Lemma processInstanceNoDB_spec inst w : ∃ w', processInstanceNoDB inst w = (inr (match accepted inst with
  | Some _ => None
  | None => Some (match identity inst with Some _ => UnknownMetricKind | None => if ParseClusterID inst.(inst_ClusterID) then InvalidInstanceID else InvalidClusterID end)
  end), w').
Proof.
  unfold processInstanceNoDB, accepted, identity, results_ok.
  destruct (ParseClusterID _) as [cid|]; [|by eexists]. destruct (uuid_Parse _) as [id|]; [|by eexists].
  destruct (results_nodb_spec id inst.(inst_Results) w) as (w' & E). exists w'. rewrite E. by destruct (forallb _ _).
Qed.

Lemma tally_spec l : ∀ res w, ∃ res' w', fold_in tally_nodb res l w = (inr res', w') ∧
  res'.(pr_Accepted) = res.(pr_Accepted) + Z.of_nat (length (stored l)) ∧
  res'.(pr_Rejected) = res.(pr_Rejected) + Z.of_nat (length l - length (stored l)).
Proof.
  induction l as [|inst l IH]; intros res w; [exists res, w; cbn; split_and!; [done|lia..]|]. cbn [fold_in].
  destruct (processInstanceNoDB_spec inst w) as (w1 & E).
  pose proof (stored_length l). rewrite stored_cons.
  assert (∀ x, processInstanceNoDB inst w = (inr x, w1) → tally_nodb res inst w = (inr (match x with
    | Some err => mkPipelineResult res.(pr_Accepted) (res.(pr_Rejected) + 1) (<[inst.(inst_InstanceID) := err]> res.(pr_Errors))
    | None => mkPipelineResult (res.(pr_Accepted) + 1) res.(pr_Rejected) res.(pr_Errors) end), w1)) as Ht.
  { intros x Hx. unfold tally_nodb. by rewrite (bind_ok _ _ _ _ _ Hx). }
  rewrite (bind_ok _ _ _ _ _ (Ht _ E)). clear Ht E. destruct (accepted inst) as [id|].
  - destruct (IH (mkPipelineResult (res.(pr_Accepted) + 1) res.(pr_Rejected) res.(pr_Errors)) w1) as (res' & w' & -> & E1 & E2).
    exists res', w'. cbn in *. split_and!; [done|lia..].
  - match goal with |- context [fold_in tally_nodb ?x l w1] => destruct (IH x w1) as (res' & w' & -> & E1 & E2) end.
    exists res', w'. cbn in *. split_and!; [done|lia..].
Qed.

(** A server without a store gives the verdicts of one that stores: it always answers, and
    it accepts and rejects as many instances of an envelope as the server whose
    transaction commits, whatever either of them processed before. *)
Theorem verdicts_without_store env w v : ∃ res w', ProcessNoDB env w = (inr res, w') ∧
  res.(pr_Accepted) + res.(pr_Rejected) = Z.of_nat (length env.(env_Instances)) ∧
  (Topology.index_ok v.(w_topo) → ∀ res2 v', Process env v = (inr res2, v') →
    res2.(pr_Accepted) = res.(pr_Accepted) ∧ res2.(pr_Rejected) = res.(pr_Rejected)).
Proof.
  unfold ProcessNoDB. assert (maybeEvict w = (inr (), evict (clock w.(w_calls)) (next_call w))) as Em by done.
  rewrite (bind_ok _ _ _ _ _ Em). clear Em.
  destruct (tally_spec env.(env_Instances) (mkPipelineResult 0 0 ∅) (evict (clock w.(w_calls)) (next_call w))) as (res & w' & -> & E1 & E2).
  exists res, w'. pose proof (stored_length env.(env_Instances)). cbn in E1, E2. split_and!; [done|lia|].
  intros Hi res2 v' Hp. destruct (Process_stored env v res2 v' Hi Hp) as (a & v1 & bts & _ & _ & _ & -> & Hsum & _).
  unfold summary in Hsum. injection Hsum as _ _ _ Ea Er. cbn. split; lia.
Qed.
End observations.

(** ** Each result is counted once *)

Section counting.
Context `{FloatOverflow, UnicodeLower, RangeOrder, UuidText, UuidParse, JsonCodec, Jsonb, ServerEnv}.

(** The mark of a result's check is at its time or after, and the clock has passed it. *)
Definition covered (now : Time) (m : gmap checkCountKey Time) (o : checkOutcome) : Prop :=
  ∃ t : Time, m !! o.(co_key) = Some t ∧ o.(co_ts) ≤ t ≤ now.

Lemma count_one_covers now x o : o.(co_ts) ≤ now → covered now (count_one now x o).1 o.
Proof.
  intros Ht. unfold count_one, covered, After. destruct (x.1 !! co_key o) as [last|] eqn:E.
  - destruct (negb _ && _) eqn:Eb; [|exists o.(co_ts); cbn; rewrite lookup_insert_eq; split; [done|lia]].
    zbool. exists last. split; [done|]. lia.
  - exists o.(co_ts). cbn. rewrite lookup_insert_eq. split; [done|lia].
Qed.

Lemma count_one_keeps now x o o' : o.(co_ts) ≤ now → covered now x.1 o' → covered now (count_one now x o).1 o'.
Proof.
  intros Ht (t & Ek & Hle). unfold count_one, covered, After. destruct (decide (o.(co_key) = o'.(co_key))) as [Hk|Hk].
  - rewrite Hk, Ek. destruct (negb _ && _) eqn:Eb; [by exists t|]. exists o.(co_ts). cbn. rewrite lookup_insert_eq. split; [done|].
    destruct (now <? t) eqn:E1; zbool; [lia|]. cbn in Eb. destruct (t <? co_ts o) eqn:E2; zbool; [lia|done].
  - exists t. split; [|done]. destruct (match x.1 !! co_key o with Some _ => _ | None => _ end); [done|]. cbn. by rewrite lookup_insert_ne.
Qed.

Lemma count_all_covers now os : ∀ x, Forall (λ o, o.(co_ts) ≤ now) os →
  (∀ o, o ∈ os ∨ covered now x.1 o → covered now (foldl (count_one now) x os).1 o).
Proof.
  induction os as [|o os IH]; intros x Hos o' Ho; cbn; [destruct Ho as [?%elem_of_nil|]; done|].
  apply Forall_cons in Hos as [Hts Hos]. apply IH; [done|]. destruct Ho as [[->|Ho]%elem_of_cons|Ho].
  - right. by apply count_one_covers.
  - by left.
  - right. by apply count_one_keeps.
Qed.

Lemma count_covered now now' os x : now ≤ now' → (∀ o, o ∈ os → covered now x.1 o) → foldl (count_one now') x os = x.
Proof.
  intros Hn. induction os as [|o os IH]; intros Hos; cbn; [done|].
  assert (count_one now' x o = x) as ->; [|apply IH; intros; apply Hos; by right].
  destruct (Hos o (list_elem_of_here _ _)) as (t & Ek & Hle). unfold count_one, After. rewrite Ek.
  destruct (negb _ && _) eqn:E; [done|]. exfalso. destruct (now' <? t) eqn:E1, (t <? co_ts o) eqn:E2; zbool; lia || done.
Qed.

(** The counters of check results, and the order of the clock. *)
Definition is_check (x : effect) : bool := match x with CheckOK _ _ | CheckError _ _ => true | _ => false end.
Definition check_counts (w : World) : list effect := List.filter is_check w.(w_log).

Lemma only_totals (l : list (UUID * gset SeriesKey)) : List.filter is_check ((λ x, SeriesTotal x.1 (Z.of_nat (size x.2))) <$> l) = [].
Proof. by induction l. Qed.

Lemma after_commit_counts a w : check_counts (after_commit a w) =
  check_counts w ++ List.filter is_check (foldl (count_one (clock w.(w_calls))) (w.(w_counted), []) a.(checkOutcomes)).2.
Proof. unfold check_counts, after_commit. cbn. by rewrite !List.filter_app, only_totals, app_nil_r. Qed.

Lemma check_counts_counts w : check_counts w = List.filter is_check (counts w).
Proof.
  unfold check_counts, counts. induction (w_log w) as [|x l IH]; [done|]. cbn. destruct x; cbn; by rewrite IH.
Qed.

(** The agent resends an envelope whose answer it did not get. When the clock does not go
    back, the results are not stamped ahead of it and no mark was evicted in between, the
    second time counts no result: the counters and the marks stay as the first time left
    them. *)
Theorem resent_results_not_counted env w res w1 res2 w2 :
  Topology.index_ok w.(w_topo) → (∀ n m, (n ≤ m)%nat → clock n ≤ clock m) →
  Forall (λ o, o.(co_ts) ≤ clock w.(w_calls)) (env.(env_Instances) ≫= instance_outcomes) →
  Process env w = (inr res, w1) → (evicted w1).(w_counted) = w1.(w_counted) → Process env w1 = (inr res2, w2) →
  check_counts w2 = check_counts w1 ∧ w2.(w_counted) = w1.(w_counted).
Proof.
  intros Hi Hclock Hos Hp Hev Hp2.
  destruct (Process_stored env w res w1 Hi Hp) as (a & x & bts & Hs & Hc & -> & _ & Hsum & _).
  destruct (Process_stored env (after_commit a x) res2 w2 (st_index _ _ Hs) Hp2) as (a' & y & bts' & Hs' & Hc' & -> & _ & Hsum' & _).
  unfold summary in Hsum, Hsum'. injection Hsum as _ _ Eo _ _. injection Hsum' as _ _ Eo' _ _.
  set (os := env.(env_Instances) ≫= instance_outcomes) in *. set (t := clock x.(w_calls)). set (t' := clock y.(w_calls)).
  assert (t ≤ t') as Ht by (apply Hclock; cbn in Hc'; lia).
  assert (foldl (count_one t') (w_counted y, []) os = (w_counted y, [])) as Hskip.
  { apply (count_covered t); [done|]. intros o Ho. cbn. rewrite (st_counted _ _ Hs'), Hev. cbn. rewrite Eo.
    apply count_all_covers; [|by left]. eapply Forall_impl; [exact Hos|]. intros o' Ho'. cbn in Ho'. cbn. etrans; [exact Ho'|]. by apply Hclock. }
  rewrite after_commit_counts, Eo'. fold t'. rewrite Hskip. split.
  - cbn. rewrite app_nil_r, check_counts_counts, (st_counts _ _ Hs'), <- check_counts_counts.
    unfold evicted, evict. by destruct (_ <? _).
  - cbn. rewrite Eo'. fold t'. rewrite Hskip. cbn. by rewrite (st_counted _ _ Hs'), Hev.
Qed.
End counting.

(** ** What a computation keeps of the store *)

Section keeps.
Context `{RangeOrder, Jsonb, ServerEnv}.
Context (P : DB → Prop).

(** [m] keeps [P]. *)
Abbreviation keeps_db := (sat (λ w : World, P w.(w_db))).

Lemma db_call : keeps_db call (λ _, True).
Proof. intros w Hw. by split. Qed.

Lemma db_now : keeps_db now (λ _, True).
Proof. intros w Hw. by split. Qed.

Lemma db_query {A} (f : DB → A) : keeps_db (query f) (λ _, True).
Proof. eapply sat_bind; [apply db_call|]. intros n _. destruct (answer n); [apply sat_raise|apply sat_gets]. Qed.

Lemma db_try_query {A} (f : DB → A) : keeps_db (try_query f) (λ _, True).
Proof. eapply sat_bind; [apply db_call|]. intros n _. destruct (answer n); [by apply sat_ret|apply sat_gets]. Qed.

Lemma db_log l : keeps_db (log l) (λ _, True).
Proof. by apply sat_puts. Qed.

Lemma db_exec s : (∀ t d d', P d → apply_stmt t s d = inr d' → P d') → keeps_db (exec s) (λ _, True).
Proof.
  intros Hs. eapply sat_bind; [apply db_call|]. intros n _. destruct (answer n); [apply sat_raise|].
  intros w Hw. unfold gets, mbind, EST_bind. destruct (apply_stmt _ _ _) as [e|d] eqn:E; cbn; [by split|]. split; [|done].
  by eapply Hs.
Qed.

Lemma db_exec_each l : Forall (λ s, ∀ t d d', P d → apply_stmt t s d = inr d' → P d') l → keeps_db (exec_all l) (λ _, True).
Proof. induction 1 as [|s l Hs _ IH]; cbn; [by apply sat_ret|]. eapply sat_bind; [by apply db_exec|by intros _ _]. Qed.

Lemma db_on_error {A} (f : World → World) (m : PM A) (Q : A → Prop) :
  (∀ w, P w.(w_db) → P (f w).(w_db)) → keeps_db m Q → keeps_db (on_error f m) Q.
Proof.
  intros Hf Hm w Hw. unfold on_error. destruct (Hm w Hw) as [Ha Hb]. destruct (m w) as [[e|a] w']; cbn in *; [|done].
  split; [by apply Hf|done].
Qed.

Lemma db_in_transaction {A} (m : PM A) (Q : A → Prop) : keeps_db m Q → keeps_db (in_transaction m) Q.
Proof.
  intros Hm. unfold in_transaction. eapply sat_bind; [apply db_call|]. intros n _. destruct (answer n); [apply sat_raise|].
  eapply sat_bind; [by apply sat_puts|]. intros _ _. eapply (sat_bind _ _ _ P); [intros x Hx; split; [done|]; by intros d [= <-]|].
  intros before Hb. eapply (sat_bind _ _ _ Q); [by apply db_on_error|].
  intros a Ha. eapply (sat_bind _ _ _ (λ _, True)); [|intros _ _; by apply sat_ret]. unfold commit. eapply sat_bind; [apply db_call|].
  intros k _. destruct (answer k) as [e|]; [|by apply sat_ret]. eapply (sat_bind _ _ _ (λ _, True)); [|intros; apply sat_raise].
  destruct (match e with NoAnswer => _ | PgError _ => _ end); [by apply sat_ret|by apply sat_puts].
Qed.

End keeps.

(** ** One push of a primary *)
Module Push.
#[local] Instance overflow : FloatOverflow := λ _, 0.
#[local] Instance lower : UnicodeLower := λ t, t.
#[local] Instance ranges : RangeOrder := λ K V _ _ m, map_to_list m.
#[local] Instance uuid_decimal : UuidText := λ u, pretty u.
#[local] Instance uuid_number : UuidParse := λ s, ParseInt (str s).
#[local] Instance same_text : Jsonb := λ a b, bool_decide (a = b).

(** The documents of a lock tree with one session, written as Q and the statement. *)
#[local] Instance sessions : JsonCodec := {|
  json_Valid := λ _, true;
  json_Decode := λ t, if bool_decide (t = str "{}") then Some (JObject []) else
    match t with x51 :: q => Some (JObject [(str "query", JString q)]) | _ => None end;
  json_Unmarshal := λ _, None;
  json_Marshal := λ v, match v with
    | JObject [] => Some (str "{}")
    | JObject [(k, JString q)] => if bool_decide (k = str "query") then Some (x51 :: q) else None
    | _ => None end;
|}.

#[local] Instance sessions_laws : JsonLaws.
Proof.
  refine {| good_text := λ _, True |}; [done| | |done].
  - intros t v. cbn. case_bool_decide; [intros [= <-]; by repeat constructor|]. destruct t as [|[] t]; try done.
    intros [= <-]. cbn. by repeat constructor.
  - intros v t _. cbn. destruct v as [| | | | |[|[k []] []]]; try done; [by intros [= <-]|]. case_bool_decide as Hk; [|done].
    intros [= <-]. by rewrite Hk.
Qed.

Definition noon : Time := 1000000 * Hour.

(** The clock moves a second per call; the calls of [fails] fail. *)
#[local] Instance server (fails : nat → option db_err) : ServerEnv := {|
  clock := λ n, noon + Z.of_nat n * Second;
  db_clock := λ n, noon + Z.of_nat n * Second;
  answer := fails;
  commit_applied := λ _, false;
|}.

Definition healthy : nat → option db_err := λ _, None.
Definition deadlock (n : nat) : option db_err := if (n =? 8)%nat then Some (PgError "40P01") else None.

Definition secret : text := str "ALTER ROLE app PASSWORD 'hunter2'".

Definition database_result : Result :=
  mkResult "stat_database" noon "app" None false false "" "" [mkMetric "pg_xact_commit" ∅ (float_of_int 500) "counter"]
    [mkWFact "lock_tree" "tree" ∅ "" (x51 :: secret)] {["77" := secret]}.

Definition primary : WInstance :=
  mkWInstance "5" "db1" "42" IDSourceSystemIdentifier "10.0.0.1" 5432 160004 "primary" "monitor" [] [] [database_result] [] None.

Definition push : Envelope := mkEnvelope 3 "1" "1.0" noon [primary] noon.

Definition idle : World := mkWorld empty_store 0 0 (Delta.New 0) Topology.NewEngine [] 0 ∅ [].

(** The server of [fails], and the server that has processed [push] [n] times. *)
Abbreviation serve fails := (Process (H6 := server fails) push).
Fixpoint after (n : nat) : World := match n with O => idle | S n => (serve healthy (after n)).2 end.

Lemma serve_stores n : (n < 3)%nat → ∃ res, serve healthy (after n) = (inr res, after (S n)).
Proof.
  intros Hn. cbn [after]. destruct (serve healthy (after n)) as [[e|res] w] eqn:E; [|by exists res].
  exfalso. assert ((serve healthy (after n)).1 = inl e) as Hf by (by rewrite E).
  destruct n as [|[|[|n]]]; [vm_compute in Hf; discriminate..|lia].
Qed.

Lemma failed_envelope_leaves_no_trace_witness :
  (serve deadlock idle).1 = inl (DbFailed (PgError "40P01")) ∧ (serve deadlock idle).2.(w_db) = empty_store.
Proof.
  destruct (serve deadlock idle) as [o w'] eqn:E.
  assert (o = inl (DbFailed (PgError "40P01"))) as -> by (change o with (o, w').1; rewrite <- E; vm_compute; reflexivity).
  split; [reflexivity|].
  destruct (failed_envelope_leaves_no_trace (H6 := server deadlock) push idle _ w' Topology.NewEngine_index E) as (_ & [Hdb|[Hne _]] & _); [|discriminate].
  exact Hdb.
Defined.

Lemma stored_envelope_observed_witness :
  ((serve healthy idle).2.(w_delta).(Delta.prev) !! mkSeriesKey "pg_xact_commit" 5 "app" "" : option Delta.state) ≡
    (Delta.Observe_all (evicted (H6 := server healthy) idle).(w_delta) (instance_observations primary)).2.(Delta.prev) !! mkSeriesKey "pg_xact_commit" 5 "app" "".
Proof.
  destruct (serve_stores 0) as (res & E); [lia|]. change (after 0) with idle in E. rewrite E.
  destruct (stored_envelope_observed (H6 := server healthy) push idle res (after 1) Topology.NewEngine_index E) as (Hk & _).
  - vm_compute. repeat constructor. apply not_elem_of_nil.
  - intros k s Hs. vm_compute in Hs. discriminate.
  - exact (Hk _).
Defined.

Lemma push_outcomes : push.(env_Instances) ≫= instance_outcomes = [mkOutcome (mkCountKey 5 "stat_database" "app") noon false].
Proof. vm_compute. reflexivity. Qed.

Lemma resent_results_not_counted_witness : check_counts (after 2) = [CheckOK 5 "stat_database"].
Proof.
  destruct (serve_stores 0) as (res & E); [lia|]. destruct (serve_stores 1) as (res2 & E2); [lia|].
  destruct (resent_results_not_counted (H6 := server healthy) push idle res (after 1) res2 (after 2) Topology.NewEngine_index) as [Hc _].
  - intros n m Hnm. change (noon + Z.of_nat n * Second ≤ noon + Z.of_nat m * Second). assert (0 ≤ Second) by discriminate. nia.
  - rewrite push_outcomes. apply Forall_singleton. change (noon ≤ noon + 0). lia.
  - exact E.
  - apply evicted_recent. vm_compute. reflexivity.
  - exact E2.
  - rewrite Hc. vm_compute. reflexivity.
Defined.

Lemma verdicts_without_store_witness :
  ∃ res res2, (ProcessNoDB (H6 := server healthy) push idle).1 = inr res ∧ serve healthy idle = (inr res2, after 1) ∧
    res2.(pr_Accepted) = res.(pr_Accepted).
Proof.
  destruct (serve_stores 0) as (res2 & E2); [lia|].
  destruct (verdicts_without_store (H6 := server healthy) push idle idle) as (res & w' & E & _ & Hv).
  exists res, res2. split_and!; [by rewrite E|exact E2|].
  apply (Hv Topology.NewEngine_index res2 (after 1) E2).
Defined.

End Push.
