(* ===== verification/Inventory.v ===== *)
(** * The inventory (internal/server/inventory.go)

    Before an envelope's samples are stored, each of its instances is registered in a
    transaction of its own: its cluster, the instance, its databases. A refusal is a value
    ([Some rejection]), since it commits what it wrote; any other error ends the computation
    and rolls the instance back. The calls, the store and the failures are those of
    [Pipeline]. The inventory without a pool, which tests use, is not modelled. *)
From S2P Require Import Prelude StateM GoTime GoFloat GoBytes GoText GoJson GoSort Pgtype AlertTypes PgIds Redact Wire Store PipelineRows Pipeline.

Inductive rejection :=
| BadClusterID
| BadInstanceID
| NilInstanceID
| ClusterIDChanged
| MissingAgentID.

(** Why an instance is refused: by the inventory, or by a constraint of the store. *)
Inductive refusal := ByInventory (r : rejection) | ByStore (code : string).

Record UpsertResult := mkUpsertResult { ur_Accepted : Z; ur_Rejected : Z; ur_Errors : gmap string refusal }.

(** [storeFailure], on an error that is not a refusal by the inventory: the code of a
    failure the instance is refused for is [inr]. *)
Definition storeFailure (f : failure) : failure + string :=
  match f with
  | DbFailed (PgError code) => if HasPrefix code "22" || HasPrefix code "23" then inr code else inl f
  | _ => inl f
  end.

(** The events a push may repeat. *)
Definition repeated_types : list string := ["cluster_id_changed"; "cluster_identity_conflict"].

Definition repeatedEventWindow : Duration := 24 * Hour.
Definition duplicateWindow : Duration := 5 * Minute.

Definition nullableString (s : string) : option string := if nonempty s then Some s else None.

Section inventory.
Context `{UuidText, UuidParse, RangeOrder, Jsonb, ServerEnv}.

Definition emitEvent (r : EventRow) : PM unit := exec (InsertEvent r).

Definition emitRepeatable (typ : string) (cluster : Z) (instance : UUID) (payload : list (string * any)) (attemptedKey attempted : string) : PM unit :=
  ts ← now;
  exec (InsertRepeatable (mkEventRow defaultTenant ts typ (Some cluster) (Some instance) payload) (Add ts (- repeatedEventWindow)) attemptedKey attempted).

Definition knownSource (source : string) : string :=
  if bool_decide (source = IDSourceSystemIdentifier) || bool_decide (source = IDSourceManual) then source else IDSourceManual.

Definition upsertCluster (cidDB : Z) (cidStr source : string) (instID : UUID) : PM unit :=
  let source := knownSource source in
  found ← query (λ d, d.(clusters) !! (defaultTenant, cidDB));
  match found with
  | None => exec (InsertCluster defaultTenant cidDB source)
  | Some existing =>
      if bool_decide (existing = IDSourceSystemIdentifier) && bool_decide (source = IDSourceManual) then
        emitRepeatable "cluster_identity_conflict" cidDB instID
          [("cluster_id", AString cidStr); ("existing_source", AString existing); ("attempted_source", AString source);
           ("instance_id", AString (uuid_String instID))] "attempted_source" source
      else if negb (bool_decide (existing = source)) && bool_decide (existing = IDSourceManual) && bool_decide (source = IDSourceSystemIdentifier)
      then exec (SetSource defaultTenant cidDB source)
      else mret ()
  end.

(** The instances of the address that were seen in the last five minutes. *)
Definition duplicates (cidDB : Z) (inst : WInstance) (newID : UUID) (now : Time) (d : DB) : list UUID :=
  (visit (filter (λ x, x.2.(i_tenant) = defaultTenant ∧ x.2.(i_cluster) = cidDB ∧ x.2.(i_addr) = inst.(inst_Addr) ∧ x.2.(i_port) = inst.(inst_Port) ∧
    x.1 ≠ newID ∧ now - duplicateWindow < x.2.(i_last_seen)) d.(instances))).*1.

Definition checkDuplicateInstance (cidDB : Z) (inst : WInstance) (newID : UUID) : PM unit :=
  t ← gets w_tx_now;
  ids ← query (duplicates cidDB inst newID t);
  match ids with
  | [] => mret ()
  | _ =>
      ts ← now;
      emitEvent (mkEventRow defaultTenant ts "duplicate_instance_suspected" (Some cidDB) (Some newID)
        [("new_instance_id", AString inst.(inst_InstanceID)); ("existing_instance_ids", AList (AString ∘ uuid_String <$> ids));
         ("addr", AString inst.(inst_Addr)); ("port", AInt inst.(inst_Port)); ("cluster_id", AString inst.(inst_ClusterID))])
  end.

(** The row a push gives an instance; [last_seen] is the statement's own [now()]. *)
Definition instance_row (cidDB : Z) (agentID : UUID) (inst : WInstance) : InstanceRow :=
  mkInstanceRow defaultTenant cidDB agentID inst.(inst_Addr) inst.(inst_Port) inst.(inst_PGVersion) RoleUnknown inst.(inst_PermTier)
    inst.(inst_TargetName) 0 inst.(inst_ASHEnabled).

Definition database_stmts (id : UUID) (dbs : list WDatabase) : list stmt :=
  ((λ db, UpsertDatabase id db.(db_Name) db.(db_Monitored) (nullableString db.(db_SkipReason))) <$> dbs) ++
  match dbs with [] => [] | _ => [DeleteDatabases id (db_Name <$> dbs)] end.

(** What follows the checks: the cluster, the instance and the databases. *)
Definition register (agentID : UUID) (inst : WInstance) (cid : ClusterID) (id : UUID) (known : bool) : PM unit :=
  let cidDB := ToDB cid in
  upsertCluster cidDB inst.(inst_ClusterID) inst.(inst_ClusterIDSource) id;;
  (if known then exec (UpdateInstance id (instance_row cidDB agentID inst))
   else
     checkDuplicateInstance cidDB inst id;;
     exec (InsertAgent agentID);;
     exec (InsertInstance id (instance_row cidDB agentID inst)));;
  exec_all (database_stmts id inst.(inst_Databases)).

Definition upsertOne (agentID : UUID) (inst : WInstance) : PM (option rejection) :=
  match ParseClusterID inst.(inst_ClusterID) with
  | None => mret (Some BadClusterID)
  | Some cid =>
  match uuid_Parse inst.(inst_InstanceID) with
  | None => mret (Some BadInstanceID)
  | Some id =>
      if bool_decide (id = uuid_Nil) then mret (Some NilInstanceID)
      else
        found ← query (λ d, i_cluster <$> d.(instances) !! id);
        match found with
        | Some existing =>
            if negb (existing =? ToDB cid) then
              emitRepeatable "cluster_id_changed" existing id
                [("instance_id", AString inst.(inst_InstanceID)); ("existing_cluster_id", AString (ClusterID_String (FromDB existing)));
                 ("attempted_cluster_id", AString inst.(inst_ClusterID))] "attempted_cluster_id" inst.(inst_ClusterID);;
              mret (Some ClusterIDChanged)
            else register agentID inst cid id true;; mret None
        | None =>
            if bool_decide (agentID = uuid_Nil) then mret (Some MissingAgentID)
            else register agentID inst cid id false;; mret None
        end
  end end.

Definition upsertInstance (agentID : UUID) (inst : WInstance) : PM (option rejection) := in_transaction (upsertOne agentID inst).

(** The error of a computation as a value. *)
Definition attempt {A} (m : PM A) : PM (failure + A) := λ w, let '(r, w') := m w in (inr r, w').

Definition refuse (inst : WInstance) (r : refusal) (res : UpsertResult) : UpsertResult :=
  mkUpsertResult res.(ur_Accepted) (res.(ur_Rejected) + 1) (<[inst.(inst_InstanceID) := r]> res.(ur_Errors)).

Definition upsert_step (agentID : UUID) (res : UpsertResult) (inst : WInstance) : PM UpsertResult :=
  r ← attempt (upsertInstance agentID inst);
  match r with
  | inr None => mret (mkUpsertResult (res.(ur_Accepted) + 1) res.(ur_Rejected) res.(ur_Errors))
  | inr (Some rej) => mret (refuse inst (ByInventory rej) res)
  | inl f =>
      match storeFailure f with
      | inl f => raise f
      | inr code => mret (refuse inst (ByStore code) res)
      end
  end.

(** The agent an envelope names; [uuid_Nil] for none. *)
Definition envelope_agent (env : Envelope) : UUID :=
  if nonempty env.(env_AgentID) then default uuid_Nil (uuid_Parse env.(env_AgentID)) else uuid_Nil.

Definition Upsert (env : Envelope) : PM UpsertResult :=
  fold_in (upsert_step (envelope_agent env)) (mkUpsertResult 0 0 ∅) env.(env_Instances).

(** ** Revocation *)

Definition agent_revoked (d : DB) (a : UUID) : bool := match d.(agents) !! a with Some (Some _) => true | _ => false end.

Definition IsRevoked (agentID : string) : PM bool :=
  if bool_decide (agentID = "") then mret false
  else match uuid_Parse agentID with
  | None => mret false
  | Some a => query (λ d, agent_revoked d a)
  end.

Definition owner_revoked (d : DB) (id : UUID) : bool :=
  match d.(instances) !! id with Some r => agent_revoked d r.(i_agent) | None => false end.

Definition OwnerRevoked (insts : list WInstance) : PM bool :=
  match omap (λ inst, uuid_Parse inst.(inst_InstanceID)) insts with
  | [] => mret false
  | ids => query (λ d, existsb (owner_revoked d) ids)
  end.
End inventory.

(** ** Running a computation that ends well *)

Section runs.
Context `{UuidText, UuidParse, RangeOrder, Jsonb, ServerEnv}.

Lemma exec_ok_inv s w x w' : exec s w = (inr x, w') → apply_stmt w.(w_tx_now) s w.(w_db) = inr w'.(w_db) ∧ w'.(w_tx_now) = w.(w_tx_now).
Proof.
  unfold exec. intros E. rewrite (bind_ok call _ w (w_calls w) (next_call w) eq_refl) in E. destruct (answer _); [done|].
  unfold gets, mbind, EST_bind in E. cbn in E. destruct (apply_stmt _ _ _) as [e|d]; [done|]. by injection E as _ <-.
Qed.

Lemma exec_all_inv l : ∀ w x w', exec_all l w = (inr x, w') → run_stmts w.(w_tx_now) l w.(w_db) = inr w'.(w_db) ∧ w'.(w_tx_now) = w.(w_tx_now).
Proof.
  induction l as [|s l IH]; intros w x w' E; cbn in E |- *; [by injection E as _ <-|].
  step_bind E y w1 E1. apply exec_ok_inv in E1 as [-> Et]. rewrite <- Et. apply IH in E as [Er Et']. split; [done|congruence].
Qed.

Lemma query_inv {A} (f : DB → A) w a w' : query f w = (inr a, w') → a = f w.(w_db) ∧ w'.(w_db) = w.(w_db) ∧ w'.(w_tx_now) = w.(w_tx_now).
Proof.
  unfold query. intros E. rewrite (bind_ok call _ w (w_calls w) (next_call w) eq_refl) in E. destruct (answer _); [done|].
  by injection E as <- <-.
Qed.

Lemma now_inv w t w' : now w = (inr t, w') → w'.(w_db) = w.(w_db) ∧ w'.(w_tx_now) = w.(w_tx_now).
Proof. intros E. by injection E as _ <-. Qed.

(** A transaction whose commit succeeds leaves what its statements left; one that fails
    leaves the store as it was, unless its commit got no answer. *)
Lemma in_transaction_inv {A} (m : PM A) w :
  match in_transaction m w with
  | (inr a, w') => ∃ w1 w2, w1.(w_db) = w.(w_db) ∧ m w1 = (inr a, w2) ∧ w'.(w_db) = w2.(w_db)
  | (inl e, w') => w'.(w_db) = w.(w_db) ∨ e = DbFailed NoAnswer
  end.
Proof.
  unfold in_transaction. rewrite (bind_ok call _ w (w_calls w) (next_call w) eq_refl). destruct (answer (w_calls w)); [by left|].
  rewrite (bind_ok (puts (set_tx_now (db_clock (w_calls w)))) _ (next_call w) () _ eq_refl).
  set (w1 := set_tx_now _ _). rewrite (bind_ok (gets w_db) _ w1 (w_db w) w1 eq_refl).
  destruct (m w1) as [[e|a] w2] eqn:Em.
  { rewrite (bind_fail _ _ _ e (set_db (w_db w) w2)) by (unfold on_error; by rewrite Em). by left. }
  rewrite (bind_ok _ _ _ a w2) by (unfold on_error; by rewrite Em).
  unfold commit. unfold mbind, EST_bind. cbn. destruct (answer (w_calls w2)) as [[code|]|]; cbn.
  - by left.
  - destruct (commit_applied _); by right.
  - exists w1, w2. done.
Qed.

(** What registering touches beside the instance: nothing but clusters, agents and events. *)
Lemma emitRepeatable_inv typ c id p k a w x w' : emitRepeatable typ c id p k a w = (inr x, w') →
  (∃ evs, w'.(w_db) = set_events (w.(w_db).(events) ++ evs) w.(w_db) ∧ (length evs ≤ 1)%nat ∧ Forall (λ e, e.(ev_Type) = typ ∧ e.(ev_InstanceID) = Some id) evs) ∧
  w'.(w_tx_now) = w.(w_tx_now).
Proof.
  unfold emitRepeatable. intros E. step_bind E ts w1 E1. apply now_inv in E1 as [Ed Et]. apply exec_ok_inv in E as [Ea Et']. rewrite Ed, Et in *.
  cbn in Ea. split; [|congruence]. destruct (existsb _ _); injection Ea as <-.
  - exists []. split; [|split; [cbn; lia|done]]. rewrite app_nil_r. by destruct (w_db w).
  - eexists [_]. split; [done|]. split; [cbn; lia|]. by apply Forall_singleton.
Qed.

Lemma upsertCluster_inv c cstr src id w x w' : upsertCluster c cstr src id w = (inr x, w') →
  w'.(w_db).(instances) = w.(w_db).(instances) ∧ w'.(w_db).(databases) = w.(w_db).(databases) ∧ w'.(w_db).(agents) = w.(w_db).(agents) ∧
  is_Some (w'.(w_db).(clusters) !! (defaultTenant, c)) ∧ w'.(w_tx_now) = w.(w_tx_now).
Proof.
  unfold upsertCluster. intros E. step_bind E found w1 E1. apply query_inv in E1 as (Hf & Ed & Et). destruct found as [existing|].
  - symmetry in Hf. rewrite <- Ed in Hf. destruct (_ && _).
    { apply emitRepeatable_inv in E as [(evs & -> & _) ->]. rewrite Ed in *. cbn. split_and!; by eauto. }
    destruct (_ && _).
    + apply exec_ok_inv in E as [Ea ->]. cbn in Ea. destruct (negb _) in Ea; [done|]. injection Ea as <-. rewrite Ed in *. cbn.
      split_and!; try done. rewrite lookup_alter_eq, Hf. by eexists.
    + injection E as _ <-. rewrite Ed in *. split_and!; by eauto.
  - apply exec_ok_inv in E as [Ea ->]. cbn in Ea. destruct (negb _) in Ea; [done|]. injection Ea as <-. rewrite Ed in *. cbn.
    split_and!; try done. unfold insert_new. destruct (_ !! _) eqn:E; [by eexists|]. rewrite lookup_insert_eq. by eexists.
Qed.

Lemma checkDuplicateInstance_inv c inst id w x w' : checkDuplicateInstance c inst id w = (inr x, w') →
  w'.(w_db).(instances) = w.(w_db).(instances) ∧ w'.(w_db).(databases) = w.(w_db).(databases) ∧
  w'.(w_db).(clusters) = w.(w_db).(clusters) ∧ w'.(w_tx_now) = w.(w_tx_now).
Proof.
  unfold checkDuplicateInstance. intros E. step_bind E t w0 E0. injection E0 as _ <-. step_bind E ids w1 E1.
  apply query_inv in E1 as (_ & Ed & Et). destruct ids as [|i ids]; [injection E as _ <-; by rewrite Ed|].
  step_bind E ts w2 E2. apply now_inv in E2 as [Ed2 Et2]. apply exec_ok_inv in E as [Ea Et3]. injection Ea as <-. rewrite Ed2, Ed. cbn.
  split_and!; try done. congruence.
Qed.

(** The databases of an instance after a list of them is reported. *)
Definition put_database (t : Time) (id : UUID) (m : gmap (UUID * string) DatabaseRow) (db : WDatabase) : gmap (UUID * string) DatabaseRow :=
  <[(id, db.(db_Name)) := mkDatabaseRow db.(db_Monitored) (nullableString db.(db_SkipReason)) t]> m.

Lemma put_databases_lookup t id dbs : ∀ m k,
  (is_Some (foldl (put_database t id) m dbs !! k) ↔ is_Some (m !! k) ∨ (k.1 = id ∧ k.2 ∈ db_Name <$> dbs)) ∧
  (k.1 ≠ id → foldl (put_database t id) m dbs !! k = m !! k).
Proof.
  induction dbs as [|db dbs IH]; intros m [i n]; cbn [foldl fmap list_fmap]; [set_solver|].
  destruct (IH (put_database t id m db) (i, n)) as [-> Hne]. unfold put_database in *. split.
  - destruct (decide ((id, db_Name db) = (i, n))) as [E|E].
    + injection E as -> <-. rewrite lookup_insert_eq. cbn. rewrite elem_of_cons. naive_solver.
    + rewrite lookup_insert_ne by done. cbn. rewrite elem_of_cons. naive_solver.
  - intros Hi. rewrite (Hne Hi). apply lookup_insert_ne. cbn in Hi. congruence.
Qed.

Lemma database_stmts_run t id dbs d d' : run_stmts t (database_stmts id dbs) d = inr d' →
  d'.(instances) = d.(instances) ∧ d'.(clusters) = d.(clusters) ∧ (∀ k, k.1 ≠ id → d'.(databases) !! k = d.(databases) !! k) ∧
  match dbs with
  | [] => d'.(databases) = d.(databases)
  | _ => ∀ name, is_Some (d'.(databases) !! (id, name)) ↔ name ∈ db_Name <$> dbs
  end.
Proof.
  assert (∀ l d, run_stmts t (((λ db, UpsertDatabase id db.(db_Name) db.(db_Monitored) (nullableString db.(db_SkipReason))) <$> dbs) ++ l) d = inr d' →
    run_stmts t l (set_databases (foldl (put_database t id) d.(databases) dbs) d) = inr d') as Hrun.
  { clear d. induction dbs as [|db dbs IH]; intros l d E; cbn in E |- *; [by destruct d|].
    destruct (instances d !! id) eqn:Ei; [|done]. apply IH in E. by destruct d. }
  intros E. apply Hrun in E. destruct dbs as [|db dbs]; cbn [run_stmts apply_stmt] in E.
  { injection E as <-. by destruct d. }
  injection E as <-. cbn [instances databases clusters set_databases]. split_and!; [done|done| |].
  - intros k Hk. destruct (put_databases_lookup t id (db :: dbs) d.(databases) k) as [_ Hl]. rewrite <- (Hl Hk).
    set (m := foldl _ _ _). destruct (m !! k) as [x|] eqn:Ek.
    + apply map_lookup_filter_Some. split; [done|]. cbn. tauto.
    + apply map_lookup_filter_None. by left.
  - intros name. destruct (put_databases_lookup t id (db :: dbs) d.(databases) (id, name)) as [Hl _]. set (m := foldl _ _ _) in *.
    split.
    + intros [x [_ Hx]%map_lookup_filter_Some]. cbn in Hx. apply dec_stable. tauto.
    + intros Hn. destruct (proj2 Hl) as [x Hx]; [by right|]. exists x. apply map_lookup_filter_Some. split; [done|]. cbn. tauto.
Qed.
End runs.

(** ** The contract of one instance *)

Section contract.
Context `{UuidText, UuidParse, RangeOrder, Jsonb, ServerEnv}.

(** What a stored row takes from a report. *)
Definition row_reports (inst : WInstance) (r : InstanceRow) : Prop :=
  r.(i_addr) = inst.(inst_Addr) ∧ r.(i_port) = inst.(inst_Port) ∧ r.(i_pg_version) = inst.(inst_PGVersion) ∧
  r.(i_perm_tier) = inst.(inst_PermTier) ∧ r.(i_target_name) = inst.(inst_TargetName) ∧ r.(i_ash_enabled) = inst.(inst_ASHEnabled).

(** An instance that is registered: where it is stored and what its registration left. *)
Record registered (agentID : UUID) (inst : WInstance) (d d' : DB) (cid : ClusterID) (id : UUID) (r : InstanceRow) : Prop := {
  rg_cluster : ParseClusterID inst.(inst_ClusterID) = Some cid;
  rg_id : uuid_Parse inst.(inst_InstanceID) = Some id;
  rg_nil : id ≠ uuid_Nil;
  rg_row : d'.(instances) !! id = Some r;
  rg_home : r.(i_cluster) = ToDB cid;
  rg_fields : row_reports inst r;
  rg_owner : match d.(instances) !! id with
    | Some old => old.(i_cluster) = r.(i_cluster) ∧ old.(i_agent) = r.(i_agent) ∧ old.(i_role) = r.(i_role) ∧ old.(i_last_seen) = r.(i_last_seen)
    | None => r.(i_agent) = agentID ∧ agentID ≠ uuid_Nil ∧ r.(i_role) = RoleUnknown ∧ is_Some (d'.(clusters) !! (defaultTenant, ToDB cid))
    end;
  rg_others : ∀ j, j ≠ id → d'.(instances) !! j = d.(instances) !! j;
  rg_databases : match inst.(inst_Databases) with
    | [] => d'.(databases) = d.(databases)
    | dbs => ∀ name, is_Some (d'.(databases) !! (id, name)) ↔ name ∈ db_Name <$> dbs
    end;
  rg_other_databases : ∀ k, k.1 ≠ id → d'.(databases) !! k = d.(databases) !! k;
}.

Lemma register_known agentID inst cid id old w x w' :
  ParseClusterID inst.(inst_ClusterID) = Some cid → uuid_Parse inst.(inst_InstanceID) = Some id → id ≠ uuid_Nil →
  w.(w_db).(instances) !! id = Some old → old.(i_cluster) = ToDB cid →
  register agentID inst cid id true w = (inr x, w') → ∃ r, registered agentID inst w.(w_db) w'.(w_db) cid id r.
Proof.
  intros Hc Hi Hn Hold Hhome E. unfold register in E. step_bind E u w1 E1. apply upsertCluster_inv in E1 as (I1 & D1 & _ & _ & T1).
  step_bind E v w2 E2. apply exec_ok_inv in E2 as [Ea _]. cbn in Ea. injection Ea as Ea. apply exec_all_inv in E as [Er _].
  apply database_stmts_run in Er as (I3 & _ & D3 & Hd). rewrite <- Ea in *. cbn in I3, D3, Hd.
  exists (refresh_instance (instance_row (ToDB cid) agentID inst) old). split; try done.
  - by rewrite I3, lookup_alter_eq, I1, Hold.
  - by rewrite Hold.
  - intros j Hj. by rewrite I3, lookup_alter_ne, I1.
  - destruct (inst_Databases inst); [by rewrite Hd, D1|exact Hd].
  - intros k Hk. rewrite D3 by done. by rewrite D1.
Qed.

Lemma register_new agentID inst cid id w x w' :
  ParseClusterID inst.(inst_ClusterID) = Some cid → uuid_Parse inst.(inst_InstanceID) = Some id → id ≠ uuid_Nil → agentID ≠ uuid_Nil →
  w.(w_db).(instances) !! id = None →
  register agentID inst cid id false w = (inr x, w') → ∃ r, registered agentID inst w.(w_db) w'.(w_db) cid id r.
Proof.
  intros Hc Hi Hn Ha Hnew E. unfold register in E. step_bind E u w1 E1. apply upsertCluster_inv in E1 as (I1 & D1 & _ & C1 & T1).
  step_bind E v w2 E2. step_bind E2 v1 w3 E3. apply checkDuplicateInstance_inv in E3 as (I3 & D3 & C3 & T3).
  step_bind E2 v2 w4 E4. apply exec_ok_inv in E4 as [Ea T4]. cbn in Ea. injection Ea as Ea. apply exec_ok_inv in E2 as [Eb T2]. cbn in Eb.
  rewrite <- Ea in Eb. cbn in Eb. rewrite I3, I1, Hnew in Eb.
  destruct (insert_new agentID None (agents (w_db w3)) !! agentID) in Eb; [|done].
  destruct (clusters (w_db w3) !! (defaultTenant, ToDB cid)) as [src|] eqn:Ec; [|done]. injection Eb as Eb.
  apply exec_all_inv in E as [Er _]. apply database_stmts_run in Er as (I5 & C5 & D5 & Hd). rewrite <- Eb in *. cbn in I5, C5, D5, Hd.
  eexists (set_last_seen _ (instance_row (ToDB cid) agentID inst)). split; try done.
  - rewrite I5, lookup_insert_eq. reflexivity.
  - rewrite Hnew. split_and!; try done. rewrite C5, Ec. by eexists.
  - intros j Hj. rewrite I5, lookup_insert_ne by done. reflexivity.
  - destruct (inst_Databases inst); [by rewrite Hd, D3, D1|exact Hd].
  - intros k Hk. rewrite D5 by done. by rewrite D3, D1.
Qed.

(** What [upsertInstance] does, by its outcome. *)
Definition upsert_spec (agentID : UUID) (inst : WInstance) (w : World) (out : (failure + option rejection) * World) : Prop :=
  match out with
  | (inr None, w') => ∃ cid id r, registered agentID inst w.(w_db) w'.(w_db) cid id r
  | (inr (Some rej), w') => ∃ evs, w'.(w_db) = set_events (w.(w_db).(events) ++ evs) w.(w_db) ∧ (length evs ≤ 1)%nat ∧
      Forall (λ e, rej = ClusterIDChanged ∧ e.(ev_Type) = "cluster_id_changed" ∧ Some <$> uuid_Parse inst.(inst_InstanceID) = Some e.(ev_InstanceID)) evs
  | (inl e, w') => w'.(w_db) = w.(w_db) ∨ e = DbFailed NoAnswer
  end.

Lemma upsertInstance_spec agentID inst w : upsert_spec agentID inst w (upsertInstance agentID inst w).
Proof.
  unfold upsert_spec, upsertInstance. pose proof (in_transaction_inv (upsertOne agentID inst) w) as Ht.
  destruct (in_transaction _ w) as [[e|r] w']; [done|]. destruct Ht as (w1 & w2 & E1 & Em & ->). rewrite <- E1. clear w w' E1.
  assert (w_db w1 = set_events (events (w_db w1) ++ []) (w_db w1)) as Esame by (rewrite app_nil_r; by destruct (w_db w1)).
  unfold upsertOne in Em.
  destruct (ParseClusterID _) as [cid|] eqn:Ec; [|injection Em as <- <-; exists []; split_and!; [done|cbn; lia|done]].
  destruct (uuid_Parse _) as [id|] eqn:Ei; [|injection Em as <- <-; exists []; split_and!; [done|cbn; lia|done]].
  case_bool_decide as Hn; [injection Em as <- <-; exists []; split_and!; [done|cbn; lia|done]|].
  step_bind Em found w3 E3. apply query_inv in E3 as (-> & Ed & Et). destruct (instances (w_db w1) !! id) as [old|] eqn:Eo; cbn in Em.
  - destruct (i_cluster old =? ToDB cid) eqn:Eq; cbn [negb] in Em.
    + step_bind Em x w4 E4. injection Em as <- <-. zbool. rewrite <- Ed in Eo |- *.
      destruct (register_known _ _ _ _ _ _ _ _ Ec Ei Hn Eo Eq E4) as [r Hr]. by exists cid, id, r.
    + step_bind Em x w4 E4. injection Em as <- <-. apply emitRepeatable_inv in E4 as [(evs & -> & Hl & Hev) _]. rewrite Ed.
      exists evs. split_and!; [done|done|]. eapply Forall_impl; [exact Hev|]. by intros e [-> ->].
  - case_bool_decide as Ha; [injection Em as <- <-; rewrite Ed; exists []; split_and!; [done|cbn; lia|done]|].
    step_bind Em x w4 E4. injection Em as <- <-. rewrite <- Ed in Eo |- *.
    destruct (register_new _ _ _ _ _ _ _ Ec Ei Hn Ha Eo E4) as [r Hr]. by exists cid, id, r.
Qed.

(** ** A store that answers *)

Section healthy.
Hypothesis healthy : ∀ n, answer n = None.

Lemma exec_ok s w d : apply_stmt w.(w_tx_now) s w.(w_db) = inr d → exec s w = (inr (), set_db d (next_call w)).
Proof. intros E. unfold exec, call, gets, puts, mbind, EST_bind. rewrite healthy. cbn. by rewrite E. Qed.

Lemma query_ok {A} (f : DB → A) w : query f w = (inr (f w.(w_db)), next_call w).
Proof. unfold query, call, gets, mbind, EST_bind. by rewrite healthy. Qed.

Lemma emitRepeatable_ok typ c id p k a w : ∃ w', emitRepeatable typ c id p k a w = (inr (), w').
Proof.
  unfold emitRepeatable. rewrite (bind_ok now _ w (clock w.(w_calls)) (next_call w) eq_refl). cbn.
  match goal with |- context [exec ?s ?w] => destruct (apply_stmt (w_tx_now w) s (w_db w)) as [e|d] eqn:E end.
  - cbn in E. by destruct (existsb _ _).
  - rewrite (exec_ok _ _ _ E). by eexists.
Qed.

Lemma knownSource_in source : bool_decide (knownSource source ∈ [IDSourceSystemIdentifier; IDSourceManual]) = true.
Proof. unfold knownSource. apply bool_decide_eq_true_2. repeat case_bool_decide; set_solver. Qed.

Lemma upsertCluster_ok c cstr src id w : ∃ w', upsertCluster c cstr src id w = (inr (), w').
Proof.
  unfold upsertCluster. rewrite (bind_ok _ _ _ _ _ (query_ok _ w)). destruct (clusters (w_db w) !! _) as [existing|].
  - destruct (_ && _); [apply emitRepeatable_ok|]. destruct (_ && _); [|by eexists]. eexists. apply exec_ok. cbn. by rewrite knownSource_in.
  - eexists. apply exec_ok. cbn. by rewrite knownSource_in.
Qed.

Lemma checkDuplicateInstance_ok c inst id w : ∃ w', checkDuplicateInstance c inst id w = (inr (), w').
Proof.
  unfold checkDuplicateInstance. rewrite (bind_ok (gets w_tx_now) _ w (w_tx_now w) w eq_refl), (bind_ok _ _ _ _ _ (query_ok _ w)).
  destruct (duplicates _ _ _ _ _); [by eexists|]. rewrite (bind_ok now _ (next_call w) (clock (w_calls (next_call w))) (next_call (next_call w)) eq_refl).
  eexists. by apply exec_ok.
Qed.

Lemma exec_all_ok (P : DB → Prop) l : (∀ t d, P d → Forall (λ s, ∃ d', apply_stmt t s d = inr d' ∧ P d') l) →
  ∀ w, P w.(w_db) → ∃ w', exec_all l w = (inr (), w').
Proof.
  induction l as [|s l IH]; intros Hl w Hw; cbn; [by eexists|].
  pose proof (Hl w.(w_tx_now) w.(w_db) Hw) as [(d' & E & Hd') _]%Forall_cons. rewrite (bind_ok _ _ _ _ _ (exec_ok s w d' E)).
  apply IH; [|done]. intros t d Hd. by apply (Forall_inv_tail (Hl t d Hd)).
Qed.

Lemma database_stmts_ok id dbs w : is_Some (w.(w_db).(instances) !! id) → ∃ w', exec_all (database_stmts id dbs) w = (inr (), w').
Proof.
  intros Hi. apply (exec_all_ok (λ d, is_Some (d.(instances) !! id))); [|done]. intros t d [r Hd]. unfold database_stmts. apply Forall_app. split.
  - apply Forall_fmap, Forall_forall. intros db _. cbn. rewrite Hd. eexists. split; [done|]. cbn. by eexists.
  - destruct dbs; [constructor|]. apply Forall_singleton. eexists. split; [done|]. cbn. by eexists.
Qed.

Lemma register_ok agentID inst cid id known w : (known = true → is_Some (w.(w_db).(instances) !! id)) → ∃ w', register agentID inst cid id known w = (inr (), w').
Proof.
  intros Hk. unfold register. destruct (upsertCluster_ok (ToDB cid) inst.(inst_ClusterID) inst.(inst_ClusterIDSource) id w) as [w1 E1].
  rewrite (bind_ok _ _ _ _ _ E1). apply upsertCluster_inv in E1 as (I1 & _ & _ & C1 & _). destruct known.
  - rewrite (bind_ok _ _ _ _ _ (exec_ok (UpdateInstance id (instance_row (ToDB cid) agentID inst)) w1 _ eq_refl)).
    apply database_stmts_ok. cbn. rewrite lookup_alter_eq, I1. destruct (Hk eq_refl) as [r ->]. by eexists.
  - destruct (checkDuplicateInstance_ok (ToDB cid) inst id w1) as [w2 E2].
    pose proof (checkDuplicateInstance_inv _ _ _ _ _ _ E2) as (I2 & _ & C2 & _).
    set (d3 := set_agents (insert_new agentID None w2.(w_db).(agents)) w2.(w_db)). set (w3 := set_db d3 (next_call w2)).
    assert (exec (InsertAgent agentID) w2 = (inr (), w3)) as E3 by (by apply exec_ok).
    assert (∃ d4, apply_stmt w3.(w_tx_now) (InsertInstance id (instance_row (ToDB cid) agentID inst)) d3 = inr d4 ∧ is_Some (d4.(instances) !! id)) as (d4 & E4 & I4).
    { cbn. destruct (instances (w_db w2) !! id) as [old|]; [eexists; split; [done|]; cbn; rewrite lookup_insert_eq; by eexists|].
      rewrite C2. destruct C1 as [src ->]. unfold insert_new. destruct (agents (w_db w2) !! agentID) eqn:Ea.
      - rewrite Ea. eexists. split; [done|]. cbn. rewrite lookup_insert_eq. by eexists.
      - rewrite lookup_insert_eq. eexists. split; [done|]. cbn. rewrite lookup_insert_eq. by eexists. }
    rewrite (bind_ok _ _ w1 () (set_db d4 (next_call w3))); [by apply database_stmts_ok|].
    rewrite (bind_ok _ _ _ _ _ E2), (bind_ok _ _ _ _ _ E3). by apply (exec_ok _ w3).
Qed.

Lemma in_transaction_ok {A} (m : PM A) a w : (∀ v, v.(w_db) = w.(w_db) → ∃ v', m v = (inr a, v')) → ∃ w', in_transaction m w = (inr a, w').
Proof.
  intros Hm. unfold in_transaction. rewrite (bind_ok call _ w (w_calls w) (next_call w) eq_refl), healthy.
  rewrite (bind_ok (puts (set_tx_now (db_clock (w_calls w)))) _ (next_call w) () _ eq_refl).
  set (w1 := set_tx_now _ _). rewrite (bind_ok (gets w_db) _ w1 (w_db w) w1 eq_refl). destruct (Hm w1 eq_refl) as [w2 E].
  rewrite (bind_ok _ _ _ a w2) by (unfold on_error; by rewrite E).
  unfold commit, call, mbind, EST_bind. rewrite healthy. by eexists.
Qed.

Lemma upsertInstance_accepts agentID inst cid id w :
  ParseClusterID inst.(inst_ClusterID) = Some cid → uuid_Parse inst.(inst_InstanceID) = Some id → id ≠ uuid_Nil →
  match w.(w_db).(instances) !! id with Some old => old.(i_cluster) = ToDB cid | None => agentID ≠ uuid_Nil end →
  ∃ w', upsertInstance agentID inst w = (inr None, w').
Proof.
  intros Hc Hi Hn Hk. apply in_transaction_ok. intros v Ev. rewrite <- Ev in Hk. unfold upsertOne. rewrite Hc, Hi.
  rewrite bool_decide_eq_false_2 by done. rewrite (bind_ok _ _ _ _ _ (query_ok _ v)).
  destruct (instances (w_db v) !! id) as [old|] eqn:Eo; cbn [fmap option_fmap option_map].
  - rewrite Hk, Z.eqb_refl. cbn [negb]. destruct (register_ok agentID inst cid id true (next_call v)) as [v' E]; [intros _; cbn; rewrite Eo; by eexists|].
    exists v'. by rewrite (bind_ok _ _ _ _ _ E).
  - rewrite bool_decide_eq_false_2 by done. destruct (register_ok agentID inst cid id false (next_call v)) as [v' E]; [done|].
    exists v'. by rewrite (bind_ok _ _ _ _ _ E).
Qed.
End healthy.

(** Registering one instance, on every outcome. Accepted, the instance is stored under the
    cluster the push names, which for a known instance is the cluster it had, with its
    owner, role and [last_seen] untouched; its databases are those reported, unless none
    are; no other instance changes. Refused, the store is as it was but for the event that
    reports a changed cluster. On any other error it is as it was, unless the commit got no
    answer. When the store answers, an instance whose identifiers parse is accepted if it
    is known under that cluster, or new and reported by an agent that has a name. *)
Theorem upsert_instance_contract agentID inst w :
  upsert_spec agentID inst w (upsertInstance agentID inst w) ∧
  ((∀ n, answer n = None) → ∀ cid id, ParseClusterID inst.(inst_ClusterID) = Some cid → uuid_Parse inst.(inst_InstanceID) = Some id → id ≠ uuid_Nil →
    match w.(w_db).(instances) !! id with Some old => old.(i_cluster) = ToDB cid | None => agentID ≠ uuid_Nil end →
    (upsertInstance agentID inst w).1 = inr None).
Proof.
  split; [apply upsertInstance_spec|]. intros Hh cid id Hc Hi Hn Hk.
  destruct (upsertInstance_accepts Hh agentID inst cid id w Hc Hi Hn Hk) as [w' ->]. done.
Qed.
End contract.

(** The first push of the example's primary. *)
Module Register.
#[local] Existing Instances Push.ranges Push.uuid_decimal Push.uuid_number Push.same_text.
#[local] Instance healthy_server : ServerEnv := Push.server Push.healthy.

Lemma upsert_instance_contract_witness :
  (upsertInstance 1 Push.primary Push.idle).1 = inr None ∧ upsert_spec 1 Push.primary Push.idle (upsertInstance 1 Push.primary Push.idle).
Proof.
  destruct (upsert_instance_contract 1 Push.primary Push.idle) as [Hs Ha]. split; [|exact Hs].
  apply (Ha (λ _, eq_refl) 42 5); [reflexivity|reflexivity|discriminate|vm_compute; discriminate].
Defined.
End Register.
