(* ===== verification/Command.v ===== *)
(** * Commands: kinds, arguments and gates (internal/command)

    What may be asked of an agent, which arguments each kind takes, and which
    permissions open it. A [Kind] is a string type of the source; the errors of
    [Validate] are an enumeration, one constructor per message. *)
From S2P Require Import Prelude GoTime GoBytes GoText Pgtype.

Definition Kind : Type := text.
Definition KindExplain : Kind := str "explain".
Definition KindCancel : Kind := str "cancel".
Definition KindTerminate : Kind := str "terminate".
Definition KindPgstattuple : Kind := str "pgstattuple".

#[export] Instance Kind_eq_dec : EqDecision Kind := text_eq_dec.
#[export] Instance Kind_countable : Countable Kind := text_countable.

Definition MaxResultBytes : Z := 8 * 2 ^ 20.

Record Args := mkArgs {
  QueryID : option Z;
  Datname : text;
  Analyze : bool;
  PID : option Z;
  Schema : text;
  Relation : text;
  BackendStart : option Time;
}.

#[export] Instance Args_eq_dec : EqDecision Args.
Proof. solve_decision. Defined.

Definition no_args : Args := mkArgs None [] false None [] [] None.

(** ** Decoding the query identifier *)

(** The raw [queryid] of a request: absent, [null], or a JSON value with what it decodes
    to as an [int64] and as a [string]. *)
Inductive raw_queryid :=
  | RawAbsent
  | RawNull
  | RawValue (as_int : option Z) (as_text : option text).

Inductive queryid_error := NotIntegerOrString | NotInt64.

(** [Args.UnmarshalJSON] on the decoded fields; [wire] holds all of them but the query
    identifier. *)
Definition UnmarshalJSON (raw : raw_queryid) (wire : Args) : Args + queryid_error :=
  let a q := mkArgs q wire.(Datname) wire.(Analyze) wire.(PID) wire.(Schema) wire.(Relation) wire.(BackendStart) in
  match raw with
  | RawAbsent | RawNull => inl (a None)
  | RawValue (Some q) _ => inl (a (Some q))
  | RawValue None None => inr NotIntegerOrString
  | RawValue None (Some t) => match ParseInt t with Some q => inl (a (Some q)) | None => inr NotInt64 end
  end.

(** ** Validation *)

Inductive args_error :=
  | UnknownKind | DatnameTooLong | DatnameNUL
  | ExplainRequiresQueryID | ExplainRejectsPID | ExplainRejectsRelation | ExplainRejectsBackendStart
  | SignalRequiresPID | SignalRejectsQueryID | SignalRejectsAnalyze | SignalRejectsUnrelated
  | PgstattupleRequiresRelation | PgstattupleRejectsUnrelated.

Definition knownKind (k : Kind) : bool :=
  bool_decide (k = KindExplain) || bool_decide (k = KindCancel) || bool_decide (k = KindTerminate) || bool_decide (k = KindPgstattuple).

Definition maxDatnameBytes : nat := 63.

Definition validateDatname (datname : text) : option args_error :=
  if bool_decide (maxDatnameBytes < length datname)%nat then Some DatnameTooLong
  else if bool_decide (x00 ∈ datname) then Some DatnameNUL
  else None.

Definition is_set {A} (o : option A) : bool := match o with Some _ => true | None => false end.
Definition non_empty (t : text) : bool := match t with [] => false | _ => true end.

Definition Validate (a : Args) (k : Kind) : option args_error :=
  if negb (knownKind k) then Some UnknownKind
  else
    match validateDatname a.(Datname) with
    | Some e => Some e
    | None =>
        if decide (k = KindExplain) then
          if negb (is_set a.(QueryID)) then Some ExplainRequiresQueryID
          else if is_set a.(PID) then Some ExplainRejectsPID
          else if non_empty a.(Schema) || non_empty a.(Relation) then Some ExplainRejectsRelation
          else if is_set a.(BackendStart) then Some ExplainRejectsBackendStart
          else None
        else if decide (k = KindCancel ∨ k = KindTerminate) then
          if negb (is_set a.(PID)) then Some SignalRequiresPID
          else if is_set a.(QueryID) then Some SignalRejectsQueryID
          else if a.(Analyze) then Some SignalRejectsAnalyze
          else if non_empty a.(Datname) || non_empty a.(Schema) || non_empty a.(Relation) then Some SignalRejectsUnrelated
          else None
        else if decide (k = KindPgstattuple) then
          if negb (non_empty a.(Schema)) || negb (non_empty a.(Relation)) then Some PgstattupleRequiresRelation
          else if is_set a.(QueryID) || is_set a.(PID) || a.(Analyze) || is_set a.(BackendStart) then Some PgstattupleRejectsUnrelated
          else None
        else None
    end.

(** ** Gates (gate.go) *)

Record Gates := mkGates {
  Tier : Z;
  AllowExplainAnalyze : bool;
  AllowSignal : bool;
}.

(** [Allowed], with the reason when it refuses. *)
Definition Allowed (k : Kind) (a : Args) (g : Gates) : option text :=
  if decide (k = KindExplain) then
    if g.(Tier) <? TierExplain then Some (str "permission tier T1 is required")
    else if a.(Analyze) && negb g.(AllowExplainAnalyze) then Some (str "EXPLAIN ANALYZE gate is closed")
    else None
  else if decide (k = KindCancel ∨ k = KindTerminate) then
    if g.(Tier) <? TierSignal then Some (str "permission tier T2 is required")
    else if negb g.(AllowSignal) then Some (str "signal gate is closed")
    else None
  else if decide (k = KindPgstattuple) then
    if g.(Tier) <? TierExplain then Some (str "permission tier T1 is required") else None
  else Some (str "unknown command kind").

(** ** What validation and the gates promise *)

(** The arguments each kind takes, and no others. *)
Inductive well_typed : Kind → Args → Prop :=
  | typed_explain q d an : (length d ≤ 63)%nat → x00 ∉ d → well_typed KindExplain (mkArgs (Some q) d an None [] [] None)
  | typed_signal k pid start : k = KindCancel ∨ k = KindTerminate → well_typed k (mkArgs None [] false (Some pid) [] [] start)
  | typed_pgstattuple d s r : (length d ≤ 63)%nat → x00 ∉ d → s ≠ [] → r ≠ [] → well_typed KindPgstattuple (mkArgs None d false None s r None).

Lemma knownKind_spec k : knownKind k = true ↔ k ∈ [KindExplain; KindCancel; KindTerminate; KindPgstattuple].
Proof. unfold knownKind. rewrite !orb_true_iff, !bool_decide_eq_true. set_solver. Qed.

Lemma validateDatname_spec d : validateDatname d = None ↔ (length d ≤ 63)%nat ∧ x00 ∉ d.
Proof.
  unfold validateDatname, maxDatnameBytes. case_bool_decide; [naive_solver lia|]. case_bool_decide; naive_solver lia.
Qed.

Lemma non_empty_false t : non_empty t = false ↔ t = [].
Proof. by destruct t. Qed.

(** [Validate] accepts exactly the well-typed commands. *)
Lemma validate_spec k a : Validate a k = None ↔ well_typed k a.
Proof.
  destruct a as [q d an pid s r st]. unfold Validate. cbn. split.
  - destruct (knownKind k) eqn:Hk; [cbn|done]. apply knownKind_spec in Hk.
    destruct (validateDatname d) as [e|] eqn:Ed; [done|]. apply validateDatname_spec in Ed as [Hl Hn].
    case_decide as Hx; [subst|case_decide as Hs; [|case_decide as Hp; [subst|set_solver]]].
    + destruct q, pid, st, s, r; try done. by constructor.
    + destruct q, pid, an, d, s, r; try done. by constructor.
    + destruct q, pid, an, st, s, r; try done. by constructor.
  - inversion 1 as [? ? ? Hl Hn|? ? ? Hk|? ? ? Hl Hn Hs Hr]; subst.
    + by rewrite (proj2 (validateDatname_spec d) (conj Hl Hn)).
    + by destruct Hk as [-> | ->].
    + rewrite (proj2 (validateDatname_spec d) (conj Hl Hn)). destruct s, r; done.
Qed.

(** A command is allowed only at its tier and behind its gate. *)
Lemma allowed_spec k a g : Allowed k a g = None ↔
  (k = KindExplain ∧ TierExplain ≤ g.(Tier) ∧ (a.(Analyze) = true → g.(AllowExplainAnalyze) = true)) ∨
  ((k = KindCancel ∨ k = KindTerminate) ∧ TierSignal ≤ g.(Tier) ∧ g.(AllowSignal) = true) ∨
  (k = KindPgstattuple ∧ TierExplain ≤ g.(Tier)).
Proof.
  unfold Allowed. case_decide as Hx; [subst|case_decide as Hs; [|case_decide as Hp; [subst|]]].
  - destruct (g.(Tier) <? TierExplain) eqn:E; zbool; [split; [done|]; intros [(_ & ? & _)|[([?|?] & _)|(? & _)]]; done || lia|].
    destruct (Analyze a), (AllowExplainAnalyze g); cbn; split; try done; try (intros; left; split_and!; done || lia);
      intros [(_ & _ & H)|[([?|?] & _)|(? & _)]]; try done; by specialize (H eq_refl).
  - assert (k ≠ KindPgstattuple) by (by destruct Hs as [-> | ->]).
    destruct (g.(Tier) <? TierSignal) eqn:E; zbool; [split; [done|]; intros [(? & _)|[(_ & ? & _)|(? & _)]]; done || lia|].
    destruct (AllowSignal g); cbn; split; try done; [intros _; right; left; split_and!; done || lia|].
    intros [(? & _)|[(_ & _ & ?)|(? & _)]]; done.
  - destruct (g.(Tier) <? TierExplain) eqn:E; zbool; split; try done; [|intros _; right; right; done].
    intros [(? & _)|[([?|?] & _)|(_ & ?)]]; done || lia.
  - split; [done|]. intros [(? & _)|[(? & _)|(? & _)]]; done.
Qed.

(** A larger tier and open gates allow no less. *)
Lemma allowed_mono k a g g' : Tier g ≤ Tier g' → (AllowExplainAnalyze g = true → AllowExplainAnalyze g' = true) →
  (AllowSignal g = true → AllowSignal g' = true) → Allowed k a g = None → Allowed k a g' = None.
Proof. intros Ht He Hs. rewrite !allowed_spec. naive_solver lia. Qed.

(** A command passes validation and the gates exactly when its kind is known, its own
    arguments are there and none of another kind is set, its database name is one that
    PostgreSQL can hold, and the target's tier and gates open it: T1 for explain and
    pgstattuple, with the analyze gate for an analyzing explain, T2 and the signal gate for
    cancel and terminate. *)
Theorem accepted_iff_typed_and_open k a g : Validate a k = None ∧ Allowed k a g = None ↔
  well_typed k a ∧
  ((k = KindExplain ∧ 1 ≤ g.(Tier) ∧ (a.(Analyze) = true → g.(AllowExplainAnalyze) = true)) ∨
   ((k = KindCancel ∨ k = KindTerminate) ∧ 2 ≤ g.(Tier) ∧ g.(AllowSignal) = true) ∨
   (k = KindPgstattuple ∧ 1 ≤ g.(Tier))).
Proof. by rewrite validate_spec, allowed_spec. Qed.
