(* ===== verification/CommandServer.v ===== *)
(** * The server's command queue (internal/server/commands.go)

    The tables the handlers read and write are a record of maps and lists; each handler is
    a function from a request, the environment of the call and the tables to a reply and
    the tables. The environment says what the clocks read and how each statement of the
    call ends: an error of a single statement or of a commit may come after the database
    applied it, which [applied] says. Statements run one at a time; a claim may find rows
    locked by others. JSON documents are decoded by parameters; encoding decoded
    arguments back cannot fail, since they hold only strings, integers and booleans. *)
From S2P Require Import Prelude GoTime GoFloat GoBytes GoText Pgtype Redact Command.

Definition defaultCommandTTL : Duration := 5 * Minute.
Definition commandWaitInterval : Duration := 500 * Millisecond.
Definition maxCommandWait : Duration := 30 * Second.
Definition commandTenant : text := "default".
Definition commandClaimLease : Duration := 2 * Minute.
Definition commandQueueLimit : Z := 20.

(** ** Tables *)

Inductive cstate := Pending | Claimed | Done | Failed | Expired.
#[export] Instance cstate_eq_dec : EqDecision cstate.
Proof. solve_decision. Defined.

Record command := mkCommand {
  c_tenant : text;
  c_agent : UUID;
  c_instance : UUID;
  c_cluster : Z;
  c_kind : Kind;
  c_args : Args;
  c_requested_by : text;
  c_created : Time;
  c_state : cstate;
  c_expires : Time;
  c_claimed : option Time;
  c_token : option UUID;
  c_finished : option Time;
  c_result : option text;
  c_error : option text;
}.

Record audit := mkAudit {
  a_tenant : text;
  a_command : UUID;
  a_instance : UUID;
  a_kind : Kind;
  a_args : Args;
  a_requested_by : text;
  a_outcome : text;
  a_detail : option text;
}.

Record instance_row := mkInstance { i_agent : UUID; i_cluster : Z; i_tenant : text }.

Record QueryPlanRow := mkPlan {
  p_tenant : text; p_instance : UUID; p_cluster : Z; p_datname : text; p_queryid : Z;
  p_hash : text; p_analyzed : bool; p_captured : Time; p_plan : text;
}.

Record BloatRow := mkBloat {
  b_ts : Time; b_tenant : text; b_cluster : Z; b_instance : UUID; b_datname : text; b_schema : text; b_rel : text;
  b_real : Z; b_expected : Z; b_bloat : Z; b_ratio : float64;
}.

Record DB := mkDB {
  commands : gmap UUID command;
  command_audit : list audit;
  instances : gmap UUID instance_row;
  agents : gmap UUID bool; (* revoked_at IS NOT NULL *)
  query_plans : list QueryPlanRow;
  metrics_bloat : list BloatRow;
}.

Definition set_commands (m : gmap UUID command) (db : DB) : DB :=
  mkDB m db.(command_audit) db.(instances) db.(agents) db.(query_plans) db.(metrics_bloat).
Definition add_audit (l : list audit) (db : DB) : DB :=
  mkDB db.(commands) (db.(command_audit) ++ l) db.(instances) db.(agents) db.(query_plans) db.(metrics_bloat).
Definition add_plan (l : list QueryPlanRow) (db : DB) : DB :=
  mkDB db.(commands) db.(command_audit) db.(instances) db.(agents) (db.(query_plans) ++ l) db.(metrics_bloat).
Definition add_bloat (l : list BloatRow) (db : DB) : DB :=
  mkDB db.(commands) db.(command_audit) db.(instances) db.(agents) db.(query_plans) (db.(metrics_bloat) ++ l).

(** How a statement ends. *)
Inductive exec := ExecOK | ExecErr (applied : bool).

(** One call: Go's and the database's clock, and how its statements end, by position. *)
Record call := mkCall {
  go_now : Time;
  db_now : Time;
  stmt : nat → exec;
}.

(** A call whose statements all succeed. *)
Definition calm (now : Time) : call := mkCall now now (λ _, ExecOK).

Definition fails (e : call) (i : nat) : bool := match e.(stmt) i with ExecOK => false | ExecErr _ => true end.

(** The tables after a statement that takes them from [old] to [new]. *)
Definition after (x : exec) (old new : DB) : DB := match x with ExecOK | ExecErr true => new | ExecErr false => old end.

(** A request body as [decodeJSON] reads it. *)
Inductive body (A : Type) := BodyTooLarge | BodyInvalid | Body (a : A).
Arguments BodyTooLarge {_}.
Arguments BodyInvalid {_}.
Arguments Body {_} _.

(** ** Authentication of agents (auth.go) *)

Section auth.
Context (sha256 : text → text).

Definition secretsEqual (got want : text) : bool := bool_decide (sha256 got = sha256 want).

(** [Auth.Validate]; [None] for a server without an [Auth]. *)
Definition auth_Validate (token : option text) (authorization : text) : bool :=
  match token with
  | None | Some [] => false
  | Some token =>
      let got := if bool_decide (7 < length authorization)%nat && bool_decide (take 7 authorization = str "Bearer ") then drop 7 authorization else [] in
      secretsEqual got token
  end.
End auth.

(** The requester named in the audit: the credential and the client's host. [digest] is
    the first four bytes, in hex, of the cookie's SHA-256. *)
Definition requesterOf (validated : bool) (cookie : option text) (digest : text → text) (host : option text) : text :=
  let who :=
    if validated then str "api-token"
    else match cookie with
         | Some ((_ :: _) as v) => str "ui-session" ++ str " " ++ digest v
         | _ => str "ui-session"
         end in
  match host with
  | Some ((_ :: _) as h) => who ++ str " from " ++ h
  | _ => who
  end.

(** [commandTTL] on the parsed value of PGLENS_COMMAND_TTL. *)
Definition commandTTL (parsed : option Duration) : Duration :=
  match parsed with Some d => if 0 <? d then d else defaultCommandTTL | None => defaultCommandTTL end.

(** [parseCommandWait]; the outer option is an absent value, the inner one a value that
    is not a duration. *)
Definition parseCommandWait (raw : option (option Duration)) : option Duration :=
  match raw with
  | None => Some 0
  | Some None => None
  | Some (Some d) => if d <? 0 then None else if maxCommandWait <? d then Some maxCommandWait else Some d
  end.

(** ** Expiry *)

Definition overdue (now : Time) (c : command) : bool :=
  bool_decide (c.(c_tenant) = commandTenant) && (bool_decide (c.(c_state) = Pending) || bool_decide (c.(c_state) = Claimed)) && (c.(c_expires) <=? now).

Definition expire (now : Time) (c : command) : command :=
  mkCommand c.(c_tenant) c.(c_agent) c.(c_instance) c.(c_cluster) c.(c_kind) c.(c_args) c.(c_requested_by) c.(c_created)
    Expired c.(c_expires) c.(c_claimed) c.(c_token) (Some now) c.(c_result) c.(c_error).

Definition expiry_audit (id : UUID) (c : command) : audit :=
  mkAudit c.(c_tenant) id c.(c_instance) c.(c_kind) c.(c_args) c.(c_requested_by) "expired"
    (Some match c.(c_claimed) with None => str "expired before the agent claimed it" | Some _ => str "claimed by the agent, no result before expiry" end).

(** The statement of [expireCommands]. *)
Definition expire_all (now : Time) (db : DB) : DB :=
  add_audit ((λ '(id, c), expiry_audit id c) <$> map_to_list (filter (λ p, overdue now p.2 = true) db.(commands)))
    (set_commands ((λ c, if overdue now c then expire now c else c) <$> db.(commands)) db).

Definition expireCommands (x : exec) (now : Time) (db : DB) : bool * DB :=
  (match x with ExecOK => false | ExecErr _ => true end, after x db (expire_all now db)).

(** ** Enqueue *)

Record enqueueRequest := mkEnqueue {
  rq_kind : Kind;
  rq_args : option (option Args); (* absent; not decodable; decoded *)
}.

Definition waiting (now : Time) (tenant : text) (agent : UUID) (c : command) : bool :=
  bool_decide (c.(c_tenant) = tenant) && bool_decide (c.(c_agent) = agent) && bool_decide (c.(c_state) = Pending) && (now <? c.(c_expires)).

Definition count_waiting (now : Time) (tenant : text) (agent : UUID) (db : DB) : Z :=
  Z.of_nat (size (filter (λ p, waiting now tenant agent p.2 = true) db.(commands))).

Definition new_command (i : instance_row) (instance : UUID) (k : Kind) (a : Args) (who : text) (created expires : Time) : command :=
  mkCommand i.(i_tenant) i.(i_agent) instance i.(i_cluster) k a who created Pending expires None None None None None.

Definition request_audit (id : UUID) (c : command) : audit :=
  mkAudit c.(c_tenant) id c.(c_instance) c.(c_kind) c.(c_args) c.(c_requested_by) "requested" None.

(** [enqueue]: the status, the new command's identifier, the tables. [fresh] is what
    [uuid.New] returns. *)
Definition enqueue (ttl : Duration) (e : call) (pool : bool) (instance : option UUID) (b : body enqueueRequest) (who : text) (fresh : UUID) (db : DB) :
    Z * option UUID * DB :=
  if negb pool then (503, None, db)
  else match instance with
  | None => (400, None, db)
  | Some instance =>
  match b with
  | BodyTooLarge => (413, None, db)
  | BodyInvalid => (400, None, db)
  | Body rq =>
  match (match rq.(rq_args) with None => Some no_args | Some a => a end) with
  | None => (400, None, db)
  | Some args =>
  match Validate args rq.(rq_kind) with
  | Some _ => (400, None, db)
  | None =>
  if fails e 0 then (500, None, db)
  else match db.(instances) !! instance with
  | None => (404, None, db)
  | Some i =>
  if fails e 1 then (500, None, db)
  else if commandQueueLimit <=? count_waiting e.(db_now) i.(i_tenant) i.(i_agent) db then (429, None, db)
  else match db.(commands) !! fresh with
  | Some _ => (500, None, db)
  | None =>
      let c := new_command i instance rq.(rq_kind) args who e.(db_now) (Add e.(go_now) ttl) in
      let db' := add_audit [request_audit fresh c] (set_commands (<[fresh := c]> db.(commands)) db) in
      match e.(stmt) 2 with
      | ExecOK => (202, Some fresh, db')
      | x => (500, None, after x db db')
      end
  end end end end end end.

(** ** Get *)

Definition get_command (e : call) (pool : bool) (id : option UUID) (db : DB) : Z * option (cstate * option text * option text) * DB :=
  if negb pool then (503, None, db)
  else match id with
  | None => (400, None, db)
  | Some id =>
      let '(err, db) := expireCommands (e.(stmt) 0) e.(db_now) db in
      if err then (500, None, db)
      else if fails e 1 then (500, None, db)
      else match db.(commands) !! id with
           | None => (404, None, db)
           | Some c => (200, Some (c.(c_state), c.(c_result), c.(c_error)), db)
           end
  end.

(** ** Claim and poll *)

Record pollResponse := mkPoll {
  po_command : UUID;
  po_kind : Kind;
  po_args : Args;
  po_instance : UUID;
  po_cluster : Z;
  po_token : UUID;
  po_expires : Time;
}.

(** [agentRevoked] on the row of [agents]; an agent that is not registered is not revoked. *)
Definition agentRevoked (agent : UUID) (db : DB) : bool := default false (db.(agents) !! agent).

(** The rows the claim's subquery may take. *)
Definition claimable (now : Time) (agent : UUID) (locked : UUID → bool) (db : DB) (p : UUID * command) : bool :=
  waiting now commandTenant agent p.2 && negb (agentRevoked agent db) && negb (locked p.1).

(** [ORDER BY created_at LIMIT 1]. *)
Fixpoint oldest (l : list (UUID * command)) : option (UUID * command) :=
  match l with
  | [] => None
  | p :: l =>
      match oldest l with
      | None => Some p
      | Some q => if q.2.(c_created) <? p.2.(c_created) then Some q else Some p
      end
  end.

Definition claim_row (now lease : Time) (token : UUID) (c : command) : command :=
  mkCommand c.(c_tenant) c.(c_agent) c.(c_instance) c.(c_cluster) c.(c_kind) c.(c_args) c.(c_requested_by) c.(c_created)
    Claimed (Z.max c.(c_expires) lease) (Some now) (Some token) c.(c_finished) c.(c_result) c.(c_error).

Inductive claim_result := ClaimError | ClaimNoRows | ClaimOK (p : pollResponse).

(** [claim]; [token] is what [gen_random_uuid] returns. Statement 0 is the expiry,
    statement 1 the update. *)
Definition claim (e : call) (locked : UUID → bool) (token : UUID) (agent : UUID) (db : DB) : claim_result * DB :=
  let '(err, db) := expireCommands (e.(stmt) 0) e.(db_now) db in
  if err then (ClaimError, db)
  else match oldest (map_to_list (filter (λ p, claimable e.(db_now) agent locked db p = true) db.(commands))) with
  | None => (if fails e 1 then ClaimError else ClaimNoRows, db)
  | Some (id, c) =>
      let c' := claim_row e.(db_now) (Add e.(go_now) commandClaimLease) token c in
      let db' := set_commands (<[id := c']> db.(commands)) db in
      match e.(stmt) 1 with
      | ExecOK => (ClaimOK (mkPoll id c'.(c_kind) c'.(c_args) c'.(c_instance) c'.(c_cluster) token c'.(c_expires)), db')
      | x => (ClaimError, after x db db')
      end
  end.

(** One turn of the loop of [poll]: the claim's call, and what the clock reads when the
    deadline is checked and whether the sleep that follows was cut short. *)
Record poll_turn := mkTurn {
  t_call : call;
  t_locked : UUID → bool;
  t_token : UUID;
  t_checked : Time;
  t_slept : bool;
}.

(** The loop; [None] when the turns given do not suffice. *)
Fixpoint poll_loop (turns : list poll_turn) (wait : Duration) (deadline : Time) (agent : UUID) (db : DB) : option (Z * option pollResponse) * DB :=
  match turns with
  | [] => (None, db)
  | t :: turns =>
      match claim t.(t_call) t.(t_locked) t.(t_token) agent db with
      | (ClaimOK p, db) => (Some (200, Some p), db)
      | (ClaimError, db) => (Some (500, None), db)
      | (ClaimNoRows, db) =>
          if (wait =? 0) || negb (Before t.(t_checked) deadline) then (Some (204, None), db)
          else if negb t.(t_slept) then (Some (204, None), db)
          else poll_loop turns wait deadline agent db
      end
  end.

Section handlers.
Context (sha256 : text → text) (uuid_parse : text → option UUID).

(** [authenticatedAgent]: the identity header of an authenticated agent. *)
Definition authenticatedAgent (token : option text) (authorization header legacy : text) : option text :=
  if auth_Validate sha256 token authorization then
    match (match header with [] => legacy | _ => header end) with [] => None | id => Some id end
  else None.

Definition poll (token : option text) (authorization header legacy requested : text) (raw : option (option Duration)) (pool : bool)
    (e : call) (turns : list poll_turn) (db : DB) : option (Z * option pollResponse) * DB :=
  match authenticatedAgent token authorization header legacy with
  | None => (Some (if auth_Validate sha256 token authorization then 403 else 401, None), db)
  | Some id =>
      if negb (bool_decide (id = requested)) then (Some (403, None), db)
      else match uuid_parse requested with
      | None => (Some (400, None), db)
      | Some agent =>
          match parseCommandWait raw with
          | None => (Some (400, None), db)
          | Some wait =>
              if negb pool then (Some (204, None), db)
              else if fails e 0 then (Some (500, None), db)
              else if agentRevoked agent db then (Some (401, None), db)
              else poll_loop turns wait (Add e.(go_now) wait) agent db
          end
      end
  end.

(** ** Results *)

Record resultRequest := mkResult {
  r_token : UUID;
  r_outcome : text;
  r_result : text; (* empty when absent *)
  r_error : text;
}.

Definition withheldResultText : text := "the plan is withheld because it may hold a credential".
Definition withheldErrorText : text := "the error text is withheld because it may hold a credential".

(** [validateResult]: true when the request is one. *)
Definition validateResult (r : resultRequest) : bool :=
  let ok := bool_decide (r.(r_outcome) = str "ok") in
  negb (r.(r_token) =? uuid_Nil)
  && (ok || bool_decide (r.(r_outcome) = str "error") || bool_decide (r.(r_outcome) = str "rejected"))
  && negb (ok && non_empty r.(r_error))
  && negb (negb ok && non_empty r.(r_result))
  && negb (negb ok && negb (non_empty r.(r_error))).

Definition nullable (t : text) : option text := match t with [] => None | _ => Some t end.

(** The withholding of what may hold a credential. *)
Definition withhold (r : resultRequest) : resultRequest :=
  if bool_decide (r.(r_outcome) = str "ok") && MayHoldCredential r.(r_result) then mkResult r.(r_token) "error" [] withheldResultText
  else if non_empty r.(r_error) && MayHoldCredential r.(r_error) then mkResult r.(r_token) r.(r_outcome) r.(r_result) withheldErrorText
  else r.

(** What the JSON result of an explain and of a pgstattuple decode to. *)
Record explain_payload := mkExplainPayload { ep_plan : text; ep_hash : text; ep_datname : text }.
Record tuple_payload := mkTuplePayload { tp_datname : text; tp_table_len : Z; tp_dead_len : Z; tp_free : Z }.
Context (decode_explain : text → option explain_payload) (decode_tuple : text → option tuple_payload).

(** [ON CONFLICT DO NOTHING] on the unique index of each table. *)
Definition same_plan (p q : QueryPlanRow) : bool :=
  bool_decide ((p.(p_tenant), p.(p_instance), p.(p_datname), p.(p_queryid), p.(p_hash), p.(p_analyzed)) =
               (q.(p_tenant), q.(p_instance), q.(p_datname), q.(p_queryid), q.(p_hash), q.(p_analyzed))).

Definition same_bloat (p q : BloatRow) : bool :=
  bool_decide ((p.(b_tenant), p.(b_instance), p.(b_datname), p.(b_schema), p.(b_rel), p.(b_ts)) =
               (q.(b_tenant), q.(b_instance), q.(b_datname), q.(b_schema), q.(b_rel), q.(b_ts))).

Definition WriteQueryPlan (p : QueryPlanRow) (db : DB) : DB :=
  if existsb (same_plan p) db.(query_plans) then db else add_plan [p] db.

Definition WriteBloat (b : BloatRow) (db : DB) : DB :=
  if existsb (same_bloat b) db.(metrics_bloat) then db else add_bloat [b] db.

Definition bloat_of (p : tuple_payload) : Z * Z * float64 :=
  let bloat := Z.max (wrap64 (p.(tp_dead_len) + p.(tp_free))) 0 in
  let expected := wrap64 (p.(tp_table_len) - bloat) in
  let ratio := if 0 <? p.(tp_table_len) then fdiv (float_of_int bloat) (float_of_int p.(tp_table_len)) else fzero in
  (bloat, expected, ratio).

(** [persistCommandArtifact]; [None] for an error. [err] is an error of the insert. *)
Definition persistCommandArtifact (err : bool) (c : command) (result : text) (capturedAt : Time) (db : DB) : option DB :=
  let args := c.(c_args) in
  if decide (c.(c_kind) = KindExplain) then
    match decode_explain result with
    | None => None
    | Some p =>
        match p.(ep_plan), p.(ep_hash), args.(QueryID) with
        | _ :: _, _ :: _, Some q =>
            let datname := match args.(Datname) with [] => p.(ep_datname) | d => d end in
            if err then None
            else Some (WriteQueryPlan (mkPlan c.(c_tenant) c.(c_instance) c.(c_cluster) datname q p.(ep_hash) args.(Analyze) capturedAt p.(ep_plan)) db)
        | _, _, _ => Some db
        end
    end
  else if decide (c.(c_kind) = KindPgstattuple) then
    match decode_tuple result with
    | None => None
    | Some p =>
        let '(bloat, expected, ratio) := bloat_of p in
        let datname := match args.(Datname) with [] => p.(tp_datname) | d => d end in
        if err then None
        else Some (WriteBloat (mkBloat capturedAt c.(c_tenant) c.(c_cluster) c.(c_instance) datname args.(Schema) args.(Relation) p.(tp_table_len) expected bloat ratio) db)
    end
  else Some db.

Definition finish (now : Time) (s : cstate) (r : resultRequest) (c : command) : command :=
  mkCommand c.(c_tenant) c.(c_agent) c.(c_instance) c.(c_cluster) c.(c_kind) c.(c_args) c.(c_requested_by) c.(c_created)
    s c.(c_expires) c.(c_claimed) c.(c_token) (Some now) (nullable r.(r_result)) (nullable r.(r_error)).

Definition result_audit (id : UUID) (c : command) (outcome error : text) : audit :=
  mkAudit c.(c_tenant) id c.(c_instance) c.(c_kind) c.(c_args) c.(c_requested_by) outcome (nullable error).

(** The claim the update of a result requires. *)
Definition held_by (token : UUID) (c : command) : bool := bool_decide (c.(c_state) = Claimed) && bool_decide (c.(c_token) = Some token).

(** The end of the transaction. *)
Definition commit (x : exec) (ok : Z) (old new : DB) : Z * DB :=
  match x with ExecOK => (ok, new) | x => (500, after x old new) end.

(** The transaction of [result] for a request that was decoded, validated and withheld.
    Statements: 0 begin, 1 the revocation lookup, 2 the update, 3 the read after an update
    of no row, 4 the artifact, 5 the audit, 6 the commit. *)
Definition result_tx (e : call) (id : UUID) (r : resultRequest) (db : DB) : Z * DB :=
  if fails e 0 then (500, db)
  else if fails e 1 then (500, db)
  else
    let row := db.(commands) !! id in
    if match row with Some c => agentRevoked c.(c_agent) db | None => false end then (401, db)
    else if fails e 2 then (500, db)
    else match row with
    | None => (409, db)
    | Some c =>
        if held_by r.(r_token) c then
          let ok := bool_decide (r.(r_outcome) = str "ok") in
          let db1 := set_commands (<[id := finish e.(db_now) (if ok then Done else Failed) r c]> db.(commands)) db in
          match (if ok then persistCommandArtifact (fails e 4) c r.(r_result) e.(go_now) db1 else Some db1) with
          | None => (500, db)
          | Some db2 =>
              if fails e 5 then (500, db)
              else commit (e.(stmt) 6) 204 db (add_audit [result_audit id c r.(r_outcome) r.(r_error)] db2)
          end
        else if negb (fails e 3) && bool_decide (c.(c_state) = Expired) then
          let outcome := if bool_decide (c.(c_token) = Some r.(r_token)) then r.(r_outcome) else str "rejected" in
          if fails e 5 then (500, db)
          else commit (e.(stmt) 6) 409 db (add_audit [result_audit id c outcome r.(r_error)] db)
        else (409, db)
    end.

(** [result]. *)
Definition post_result (token : option text) (authorization : text) (pool : bool) (id : option UUID) (b : body resultRequest) (e : call) (db : DB) : Z * DB :=
  if negb (auth_Validate sha256 token authorization) then (401, db)
  else if negb pool then (503, db)
  else match id with
  | None => (400, db)
  | Some id =>
      match b with
      | BodyTooLarge => (413, db)
      | BodyInvalid => (400, db)
      | Body r => if negb (validateResult r) then (400, db) else result_tx e id (withhold r) db
      end
  end.
End handlers.

(** ** Histories *)

#[local] Set Default Proof Using "Type".

Section histories.
Context (sha256 : text → text) (uuid_parse : text → option UUID).
Context (decode_explain : text → option explain_payload) (decode_tuple : text → option tuple_payload).

(** The handlers' calls, and what the rest of the server does to the tables they read. *)
Inductive op :=
  | OpEnqueue (ttl : Duration) (e : call) (pool : bool) (instance : option UUID) (b : body enqueueRequest) (who : text) (fresh : UUID)
  | OpGet (e : call) (pool : bool) (id : option UUID)
  | OpPoll (token : option text) (authorization header legacy requested : text) (raw : option (option Duration)) (pool : bool) (e : call) (turns : list poll_turn)
  | OpResult (token : option text) (authorization : text) (pool : bool) (id : option UUID) (b : body resultRequest) (e : call)
  | OpAgents (m : gmap UUID bool)
  | OpInstances (m : gmap UUID instance_row).

Definition set_agents (m : gmap UUID bool) (db : DB) : DB :=
  mkDB db.(commands) db.(command_audit) db.(instances) m db.(query_plans) db.(metrics_bloat).
Definition set_instances (m : gmap UUID instance_row) (db : DB) : DB :=
  mkDB db.(commands) db.(command_audit) m db.(agents) db.(query_plans) db.(metrics_bloat).

Definition step (o : op) (db : DB) : DB :=
  match o with
  | OpEnqueue ttl e pool i b who fresh => (enqueue ttl e pool i b who fresh db).2
  | OpGet e pool id => (get_command e pool id db).2
  | OpPoll tok au h l rq raw pool e turns => (poll sha256 uuid_parse tok au h l rq raw pool e turns db).2
  | OpResult tok au pool id b e => (post_result sha256 decode_explain decode_tuple tok au pool id b e db).2
  | OpAgents m => set_agents m db
  | OpInstances m => set_instances m db
  end.

Definition run (ops : list op) (db : DB) : DB := foldl (flip step) db ops.

Definition empty_db : DB := mkDB ∅ [] ∅ ∅ [] [].

(** *** The atomic changes *)

(** A result that passed validation and withholding. *)
Definition clean (r : resultRequest) : Prop :=
  r.(r_token) ≠ uuid_Nil ∧
  ((r.(r_outcome) = str "ok" ∧ r.(r_error) = []) ∨
   (r.(r_outcome) = str "error" ∨ r.(r_outcome) = str "rejected") ∧ r.(r_result) = [] ∧ r.(r_error) ≠ []) ∧
  MayHoldCredential r.(r_result) = false ∧ MayHoldCredential r.(r_error) = false.

(** What the handlers do to the commands and the audit, one change at a time. *)
Inductive move (db : DB) : DB → Prop :=
  | move_expire now : move db (expire_all now db)
  | move_claim id c now lease token : db.(commands) !! id = Some c → waiting now commandTenant c.(c_agent) c = true →
      agentRevoked c.(c_agent) db = false →
      move db (set_commands (<[id := claim_row now lease token c]> db.(commands)) db)
  | move_finish id c r now db' : db.(commands) !! id = Some c → held_by r.(r_token) c = true → agentRevoked c.(c_agent) db = false → clean r →
      db'.(commands) = <[id := finish now (if bool_decide (r.(r_outcome) = str "ok") then Done else Failed) r c]> db.(commands) →
      db'.(command_audit) = db.(command_audit) ++ [result_audit id c r.(r_outcome) r.(r_error)] →
      move db db'
  | move_late id c r outcome : db.(commands) !! id = Some c → c.(c_state) = Expired → clean r → outcome = r.(r_outcome) ∨ outcome = str "rejected" →
      move db (add_audit [result_audit id c outcome r.(r_error)] db)
  | move_other db' : db'.(commands) = db.(commands) → db'.(command_audit) = db.(command_audit) → move db db'.

(** A new command. *)
Inductive insert (now : Time) (db : DB) : DB → Prop :=
  | insert_new fresh c : db.(commands) !! fresh = None → well_typed c.(c_kind) c.(c_args) →
      (∃ i instance k a who expires, c = new_command i instance k a who now expires) →
      count_waiting now c.(c_tenant) c.(c_agent) db < commandQueueLimit →
      insert now db (add_audit [request_audit fresh c] (set_commands (<[fresh := c]> db.(commands)) db)).

Definition change (db db' : DB) : Prop := (∃ now, insert now db db') ∨ move db db'.

Lemma after_cases x old new : after x old new = old ∨ after x old new = new.
Proof. destruct x as [|[]]; auto. Qed.

Lemma expireCommands_moves x now db : rtc move db (expireCommands x now db).2.
Proof. cbn. destruct (after_cases x db (expire_all now db)) as [-> | ->]; [done|]. apply rtc_once, move_expire. Qed.

Lemma oldest_elem l p : oldest l = Some p → p ∈ l.
Proof.
  revert p. induction l as [|q l IH]; intros p; cbn; [done|].
  destruct (oldest l) as [q'|]; [|intros [= ->]; left].
  case_match; intros [= ->]; [right; auto|left].
Qed.

Lemma oldest_least l p q : oldest l = Some p → q ∈ l → p.2.(c_created) ≤ q.2.(c_created).
Proof.
  revert p. induction l as [|r l IH]; intros p; cbn; [done|].
  destruct (oldest l) as [q'|] eqn:E.
  - specialize (IH q' eq_refl). destruct (_ <? _) eqn:Ec; zbool; intros [= ->] [-> |Hq]%elem_of_cons; try lia; specialize (IH Hq); lia.
  - intros [= ->] [-> |Hq]%elem_of_cons; [lia|]. destruct l; [by apply elem_of_nil in Hq|]. cbn in E. by repeat case_match.
Qed.

Lemma oldest_none l : oldest l = None ↔ l = [].
Proof. destruct l; cbn; [done|]. repeat case_match; done. Qed.

(** What a claim takes. *)
Lemma claim_pick now agent locked db id c :
  oldest (map_to_list (filter (λ p, claimable now agent locked db p = true) db.(commands))) = Some (id, c) →
  db.(commands) !! id = Some c ∧ waiting now commandTenant agent c = true ∧ c.(c_agent) = agent ∧ agentRevoked agent db = false ∧ locked id = false ∧
  ∀ id' c', db.(commands) !! id' = Some c' → waiting now commandTenant agent c' = true → locked id' = false → c.(c_created) ≤ c'.(c_created).
Proof.
  intros E. pose proof (oldest_elem _ _ E) as Hin. apply elem_of_map_to_list, map_lookup_filter_Some in Hin as [Hc Hcl].
  unfold claimable in Hcl. cbn [fst snd] in Hcl. apply andb_true_iff in Hcl as [[Hw Hr%negb_true_iff]%andb_true_iff Hl%negb_true_iff].
  split_and!; try done.
  - unfold waiting in Hw. apply andb_true_iff in Hw as [[[_ Ha%bool_decide_eq_true]%andb_true_iff _]%andb_true_iff _]. done.
  - intros id' c' Hc' Hw' Hl'. apply (oldest_least _ _ (id', c') E). apply elem_of_map_to_list, map_lookup_filter_Some.
    split; [done|]. unfold claimable. cbn [fst snd]. by rewrite Hw', Hr, Hl'.
Qed.

(** *** Every call is a sequence of changes *)

Lemma claim_moves e locked token agent db : rtc move db (claim e locked token agent db).2.
Proof.
  unfold claim. pose proof (expireCommands_moves (stmt e 0) (db_now e) db) as Hx.
  destruct (expireCommands (stmt e 0) (db_now e) db) as [err db1]. cbn in Hx. destruct err; [done|].
  destruct (oldest _) as [[id c]|] eqn:Eo; [|by destruct (fails e 1)].
  apply claim_pick in Eo as (Hc & Hw & <- & Hr & _ & _).
  assert (∀ x, rtc move db (after x db1 (set_commands (<[id := claim_row (db_now e) (Add (go_now e) commandClaimLease) token c]> (commands db1)) db1))) as Hm.
  { intros x. destruct (after_cases x db1 (set_commands (<[id := claim_row (db_now e) (Add (go_now e) commandClaimLease) token c]> (commands db1)) db1)) as [-> | ->];
      [done|]. eapply rtc_r; [done|]. by eapply move_claim. }
  destruct (stmt e 1) as [|ap] eqn:Es; [apply (Hm ExecOK)|apply (Hm (ExecErr ap))].
Qed.

Lemma poll_loop_moves turns wait deadline agent db : rtc move db (poll_loop turns wait deadline agent db).2.
Proof.
  revert db. induction turns as [|t turns IH]; intros db; cbn [poll_loop]; [done|].
  pose proof (claim_moves (t_call t) (t_locked t) (t_token t) agent db) as Hm.
  destruct (claim _ _ _ _ db) as [[| |p] db1]; cbn in Hm |- *; [done| |done].
  destruct ((wait =? 0) || _); [done|]. destruct (t_slept t); cbn; [|done]. etrans; [done|apply IH].
Qed.

Lemma poll_moves token au h l rq raw pool e turns db : rtc move db (poll sha256 uuid_parse token au h l rq raw pool e turns db).2.
Proof.
  unfold poll. repeat (case_match; try done). apply poll_loop_moves.
Qed.

Lemma withheld_texts : MayHoldCredential [] = false ∧ MayHoldCredential withheldResultText = false ∧ MayHoldCredential withheldErrorText = false.
Proof. vm_compute. done. Qed.

#[local] Opaque MayHoldCredential.

Lemma withhold_clean r : validateResult r = true → clean (withhold r).
Proof.
  unfold validateResult, withhold. intros H.
  apply andb_true_iff in H as [H H5]. apply andb_true_iff in H as [H H4]. apply andb_true_iff in H as [H H3]. apply andb_true_iff in H as [H1 H2].
  apply negb_true_iff, Z.eqb_neq in H1. destruct r as [tok out res err]. unfold clean. cbn [r_token r_outcome r_result r_error] in *.
  case_bool_decide as Hok; cbn [andb orb negb] in *.
  - subst. apply negb_true_iff, non_empty_false in H3 as ->.
    destruct (MayHoldCredential res) eqn:Hres; cbn [r_token r_outcome r_result r_error non_empty andb];
      (split; [exact H1|]; split; [|by split; first [exact Hres|apply withheld_texts]]); [right; split_and!; [by left|done|done]|by left].
  - apply negb_true_iff, non_empty_false in H4 as ->. apply negb_true_iff, negb_false_iff in H5.
    apply orb_true_iff in H2. rewrite !bool_decide_eq_true in H2. rewrite H5. cbn [andb].
    assert (err ≠ []) as He by (intros ->; discriminate H5).
    destruct (MayHoldCredential err) eqn:Herr; cbn [r_token r_outcome r_result r_error];
      (split; [exact H1|]; split; [|by split; first [exact Herr|apply withheld_texts]]); right; (split; [exact H2|]; split; [done|]); [discriminate|exact He].
Qed.

Lemma persist_keeps err c result at_ db db' : persistCommandArtifact decode_explain decode_tuple err c result at_ db = Some db' →
  db'.(commands) = db.(commands) ∧ db'.(command_audit) = db.(command_audit) ∧ db'.(agents) = db.(agents) ∧ db'.(instances) = db.(instances).
Proof.
  unfold persistCommandArtifact, WriteQueryPlan, WriteBloat. intros H. repeat case_match; simplify_eq; done.
Qed.

Lemma commit_cases x ok old new : (commit x ok old new).2 = old ∨ (commit x ok old new).2 = new.
Proof. destruct x as [|[]]; cbn; auto. Qed.

Lemma result_tx_moves e id r db : clean r → rtc move db (result_tx decode_explain decode_tuple e id r db).2.
Proof.
  intros Hr. unfold result_tx. destruct (fails e 0); [done|]. destruct (fails e 1); [done|].
  destruct (commands db !! id) as [c|] eqn:Hc; [|by destruct (fails e 2)].
  destruct (agentRevoked (c_agent c) db) eqn:Hrev; [done|]. destruct (fails e 2); [done|].
  destruct (held_by (r_token r) c) eqn:Hheld.
  - set (ok := bool_decide (r_outcome r = str "ok")). set (db1 := set_commands _ db).
    assert (∀ db2, db2.(commands) = db1.(commands) → db2.(command_audit) = db1.(command_audit) →
      rtc move db (if fails e 5 then (500, db) else commit (stmt e 6) 204 db (add_audit [result_audit id c (r_outcome r) (r_error r)] db2)).2) as Hend.
    { intros db2 E1 E2. destruct (fails e 5); [done|]. destruct (commit_cases (stmt e 6) 204 db (add_audit [result_audit id c (r_outcome r) (r_error r)] db2)) as [-> | ->]; [done|].
      apply rtc_once, (move_finish db id c r (db_now e)); [done..|cbn; by rewrite E1|cbn; by rewrite E2]. }
    destruct ok eqn:Eok; [|by apply Hend].
    destruct (persistCommandArtifact _ _ _ _ _ _ db1) as [db2|] eqn:Ep; [|done]. apply persist_keeps in Ep as (E1 & E2 & _). by apply Hend.
  - destruct (negb (fails e 3) && bool_decide (c_state c = Expired)) eqn:Ex; [|done].
    apply andb_true_iff in Ex as [_ Ex%bool_decide_eq_true]. destruct (fails e 5); [done|].
    match goal with |- rtc _ _ (commit ?x ?ok ?old ?new).2 => destruct (commit_cases x ok old new) as [-> | ->] end; [done|].
    apply rtc_once. eapply move_late; [done..|]. case_bool_decide; auto.
Qed.

Lemma enqueue_insert ttl e pool i b who fresh db :
  (enqueue ttl e pool i b who fresh db).2 = db ∨ insert e.(db_now) db (enqueue ttl e pool i b who fresh db).2.
Proof.
  unfold enqueue. destruct pool; cbn; [|by left]. destruct i as [i|]; [|by left]. destruct b as [| |rq]; [by left..|].
  destruct (match rq.(rq_args) with None => Some no_args | Some a => a end) as [args|]; [|by left].
  destruct (Validate args (rq_kind rq)) eqn:Ev; [by left|]. apply validate_spec in Ev.
  destruct (fails e 0); [by left|]. destruct (instances db !! i) as [row|]; [|by left]. destruct (fails e 1); [by left|].
  destruct (_ <=? _) eqn:Eq; [by left|]. zbool. destruct (commands db !! fresh) eqn:Ef; [by left|].
  set (c := new_command _ _ _ _ _ _ _).
  assert (insert e.(db_now) db (add_audit [request_audit fresh c] (set_commands (<[fresh := c]> (commands db)) db))) as Hi.
  { apply insert_new; [done|done|unfold c; eauto 10|done]. }
  destruct (stmt e 2) as [|[]]; cbn; [by right|by right|by left].
Qed.

(** The database time of a request, where the operation is one. *)
Definition enqueued_at (o : op) : option Time := match o with OpEnqueue _ e _ _ _ _ _ => Some e.(db_now) | _ => None end.

Lemma step_moves o db : enqueued_at o = None → rtc move db (step o db).
Proof.
  destruct o; cbn [enqueued_at step]; intros Ho; [done| | | | |].
  - unfold get_command. destruct pool; [|done]. destruct id as [id|]; [|done]. cbn [negb].
    pose proof (expireCommands_moves (stmt e 0) (db_now e) db) as Hx.
    destruct (expireCommands _ _ db) as [err db1]. cbn in Hx. repeat (case_match; try done).
  - apply poll_moves.
  - unfold post_result. repeat (case_match; try done). apply result_tx_moves, withhold_clean. by apply negb_false_iff.
  - apply rtc_once. by apply move_other.
  - apply rtc_once. by apply move_other.
Qed.

Lemma step_changes o db : rtc change db (step o db).
Proof.
  destruct (enqueued_at o) as [t|] eqn:Eo.
  - destruct o; try done. cbn [step]. destruct (enqueue_insert ttl e pool instance b who fresh db) as [-> |H]; [done|]. apply rtc_once. left. eauto.
  - eapply rtc_subrel; [|by apply step_moves]. by right.
Qed.

Lemma run_changes ops db : rtc change db (run ops db).
Proof.
  revert db. induction ops as [|o ops IH]; intros db; cbn; [done|]. etrans; [apply step_changes|apply IH].
Qed.

(** *** The state of a command and its audit trail *)

Definition trail (id : UUID) (l : list audit) : list audit := filter (λ a, a.(a_command) = id) l.

(** The entry names the command it is about. *)
Definition describes (id : UUID) (c : command) (a : audit) : Prop :=
  a.(a_tenant) = c.(c_tenant) ∧ a.(a_command) = id ∧ a.(a_instance) = c.(c_instance) ∧ a.(a_kind) = c.(c_kind) ∧
  a.(a_args) = c.(c_args) ∧ a.(a_requested_by) = c.(c_requested_by).

(** The outcomes the trail of a command shows, by the command's state. *)
Definition outcomes_ok (s : cstate) (l : list text) : Prop :=
  match s with
  | Pending | Claimed => l = [str "requested"]
  | Done => l = [str "requested"; str "ok"]
  | Failed => ∃ o, o ∈ [str "error"; str "rejected"] ∧ l = [str "requested"; o]
  | Expired => ∃ late, Forall (λ o, o ∈ [str "ok"; str "error"; str "rejected"]) late ∧ l = str "requested" :: str "expired" :: late
  end.

(** A row's columns agree with its state, and hold no sign of a credential. *)
Definition row_ok (c : command) : Prop :=
  well_typed c.(c_kind) c.(c_args) ∧
  match c.(c_state) with
  | Pending => c.(c_claimed) = None ∧ c.(c_token) = None ∧ c.(c_finished) = None ∧ c.(c_result) = None ∧ c.(c_error) = None
  | Claimed => is_Some c.(c_claimed) ∧ is_Some c.(c_token) ∧ c.(c_finished) = None ∧ c.(c_result) = None ∧ c.(c_error) = None
  | Done => is_Some c.(c_claimed) ∧ is_Some c.(c_token) ∧ is_Some c.(c_finished) ∧ c.(c_error) = None ∧
      ∀ r, c.(c_result) = Some r → MayHoldCredential r = false
  | Failed => is_Some c.(c_claimed) ∧ is_Some c.(c_token) ∧ is_Some c.(c_finished) ∧ c.(c_result) = None ∧
      ∃ r, c.(c_error) = Some r ∧ MayHoldCredential r = false
  | Expired => is_Some c.(c_finished) ∧ c.(c_result) = None ∧ c.(c_error) = None
  end.

Definition command_ok (id : UUID) (o : option command) (t : list audit) : Prop :=
  match o with
  | None => t = []
  | Some c => row_ok c ∧ outcomes_ok c.(c_state) (a_outcome <$> t) ∧ Forall (describes id c) t
  end.

Definition queue_ok (db : DB) : Prop := ∀ id, command_ok id (db.(commands) !! id) (trail id db.(command_audit)).

Lemma trail_app id l1 l2 : trail id (l1 ++ l2) = trail id l1 ++ trail id l2.
Proof. apply filter_app. Qed.

Lemma trail_one id a : trail id [a] = if decide (a.(a_command) = id) then [a] else [].
Proof. done. Qed.

(** The entries of one key among those made for a map. *)
Lemma trail_map_to_list id (f : UUID → command → audit) (m : gmap UUID command) : (∀ i c, (f i c).(a_command) = i) →
  trail id ((λ '(i, c), f i c) <$> map_to_list m) = match m !! id with Some c => [f id c] | None => [] end.
Proof.
  intros Hf. unfold trail. rewrite filter_list_fmap.
  assert (filter (λ p : UUID * command, ((λ '(i, c), f i c) p).(a_command) = id) (map_to_list m) = match m !! id with Some c => [(id, c)] | None => [] end) as ->; [|by destruct (m !! id)].
  assert (∀ i c, (i, c) ∈ filter (λ p : UUID * command, ((λ '(i, c), f i c) p).(a_command) = id) (map_to_list m) ↔ i = id ∧ m !! id = Some c) as Hin.
  { intros i c. rewrite list_elem_of_filter, elem_of_map_to_list. cbn. rewrite Hf. naive_solver. }
  destruct (m !! id) as [c|] eqn:E.
  - apply Permutation_singleton_r, NoDup_Permutation; [apply NoDup_filter, NoDup_map_to_list|apply NoDup_singleton|].
    intros [i c']. rewrite Hin, list_elem_of_singleton. naive_solver.
  - destruct (filter _ _) as [|[i c] l] eqn:El; [done|]. exfalso. destruct (proj1 (Hin i c)) as [_ ?]; [left|done].
Qed.

Lemma insert_ok now db db' : insert now db db' → queue_ok db → queue_ok db'.
Proof.
  intros [fresh c Hnew Ht (i & inst & k & a & who & ex & ->) _] Hok id. cbn [commands command_audit add_audit set_commands].
  rewrite trail_app, trail_one. specialize (Hok id). destruct (decide (fresh = id)) as [<- |Hne].
  - rewrite lookup_insert_eq, decide_True by done. rewrite Hnew in Hok. cbn in Hok. rewrite Hok. cbn. split_and!; [by split_and!|done|].
    apply Forall_singleton. by split_and!.
  - rewrite lookup_insert_ne, decide_False, app_nil_r by done. done.
Qed.

Lemma expire_all_ok now db : queue_ok db → queue_ok (expire_all now db).
Proof.
  intros Hok id. specialize (Hok id). unfold expire_all. cbn [commands command_audit add_audit set_commands].
  rewrite trail_app, trail_map_to_list by done. rewrite lookup_fmap, map_lookup_filter.
  destruct (commands db !! id) as [c|] eqn:Hc; cbn [fmap option_fmap option_map mbind option_bind]; [|by rewrite app_nil_r].
  destruct Hok as (Hrow & Hout & Hdesc). cbn [snd]. case_guard as Ho; cbn; [rewrite Ho|by apply not_true_is_false in Ho as ->; rewrite app_nil_r].
  unfold overdue in Ho. apply andb_true_iff in Ho as [[_ Ho]%andb_true_iff _]. apply orb_true_iff in Ho. rewrite !bool_decide_eq_true in Ho.
  split_and!.
  - destruct Hrow as (Ht & Hrow). split; [done|]. cbn. destruct Ho as [E|E]; rewrite E in Hrow; (split; [by eexists|]); split; apply Hrow.
  - rewrite fmap_app. cbn. exists []. split; [constructor|]. destruct Ho as [E|E]; rewrite E in Hout; cbn in Hout; by rewrite Hout.
  - apply Forall_app. split; [eapply Forall_impl; [exact Hdesc|]; intros a Ha; exact Ha|]. apply Forall_singleton. by split_and!.
Qed.

(** Updating one row, with the entries that go with it. *)
Lemma update_ok db db' id c c' l : queue_ok db → db.(commands) !! id = Some c →
  db'.(commands) = <[id := c']> db.(commands) → db'.(command_audit) = db.(command_audit) ++ l → Forall (λ a, a.(a_command) = id) l →
  (command_ok id (Some c) (trail id db.(command_audit)) → command_ok id (Some c') (trail id db.(command_audit) ++ l)) → queue_ok db'.
Proof.
  intros Hok Hc Ec El Hl Hstep i. rewrite Ec, El, trail_app. pose proof (Hok i) as Hi. destruct (decide (i = id)) as [->|Hne].
  - rewrite Hc in Hi. rewrite lookup_insert_eq. replace (trail id l) with l; [by apply Hstep|].
    clear -Hl. unfold trail. induction Hl as [|a l Ha Hl IH]; [done|]. by rewrite filter_cons, decide_True, <- IH.
  - rewrite lookup_insert_ne by done. replace (trail i l) with (@nil audit); [by rewrite app_nil_r|].
    clear -Hl Hne. unfold trail. induction Hl as [|a l Ha Hl IH]; [done|]. by rewrite filter_cons, decide_False, <- IH by congruence.
Qed.

Lemma held_by_spec token c : held_by token c = true ↔ c.(c_state) = Claimed ∧ c.(c_token) = Some token.
Proof. unfold held_by. by rewrite andb_true_iff, !bool_decide_eq_true. Qed.

Lemma waiting_spec now tenant agent c : waiting now tenant agent c = true ↔
  c.(c_tenant) = tenant ∧ c.(c_agent) = agent ∧ c.(c_state) = Pending ∧ now < c.(c_expires).
Proof.
  unfold waiting. rewrite !andb_true_iff, !bool_decide_eq_true, Z.ltb_lt.
  split; [intros [[[? ?] ?] ?]|intros (? & ? & ? & ?)]; by split_and!.
Qed.

Lemma nullable_error t : MayHoldCredential t = false → t ≠ [] → ∃ r, nullable t = Some r ∧ MayHoldCredential r = false.
Proof. destruct t; [done|]. intros. by eexists. Qed.

Lemma move_ok db db' : move db db' → queue_ok db → queue_ok db'.
Proof.
  clear sha256 uuid_parse decode_explain decode_tuple. intros Hm Hok. destruct Hm as [now|id c now lease token Hc Hw _|id c r now db' Hc Hh _ Hr Ec El|id c r outcome Hc Hs Hr Ho|db' Ec El].
  - by apply expire_all_ok.
  - apply (update_ok db _ id c (claim_row now lease token c) []); [done|done|done|by rewrite app_nil_r|constructor|].
    intros (Hrow & Hout & Hdesc). rewrite app_nil_r. apply waiting_spec in Hw as (_ & _ & Hs & _).
    destruct Hrow as [Ht Hrow]. rewrite Hs in Hrow, Hout. split_and!; [split; [done|]; cbn; naive_solver|done|exact Hdesc].
  - eapply (update_ok db _ id c _ _); [done..|by apply Forall_singleton|]. intros (Hrow & Hout & Hdesc).
    apply held_by_spec in Hh as (Hs & Htok). destruct Hrow as [Ht Hrow]. rewrite Hs in Hrow, Hout. destruct Hrow as (Hcl & _).
    destruct Hr as (_ & Hcase & Hr1 & Hr2).
    split; [split; [done|]|split; [|apply Forall_app; split; [exact Hdesc|]; apply Forall_singleton; by split_and!]].
    + cbn. destruct Hcase as [[E Ee]|[E [Ee Ene]]].
      * rewrite bool_decide_eq_true_2 by done. rewrite Htok, Ee. split_and!; [done|by eexists|by eexists|done|].
        intros x. destruct (r_result r); [done|]. intros [= <-]. exact Hr1.
      * rewrite bool_decide_eq_false_2 by (by destruct E as [-> | ->]). rewrite Htok, Ee. split_and!; [done|by eexists|by eexists|done|].
        by apply nullable_error.
    + cbn [finish c_state]. rewrite fmap_app, Hout. destruct Hcase as [[E Ee]|[E _]].
      * rewrite bool_decide_eq_true_2 by done. cbn. by rewrite E.
      * rewrite bool_decide_eq_false_2 by (by destruct E as [-> | ->]). exists (r_outcome r). split; [destruct E as [-> | ->]; set_solver|done].
  - apply (update_ok db _ id c c [result_audit id c outcome (r_error r)]); [done|done|by rewrite insert_id|done|by apply Forall_singleton|].
    intros (Hrow & Hout & Hdesc). split_and!; [done| |apply Forall_app; split; [done|]; apply Forall_singleton; by split_and!].
    rewrite Hs in Hout |- *. destruct Hout as (late & Hlate & E). exists (late ++ [outcome]). split; [|by rewrite fmap_app, E].
    apply Forall_app. split; [done|]. apply Forall_singleton. destruct Hr as (_ & Hcase & _). set_solver.
  - intros i. rewrite Ec, El. apply Hok.
Qed.

Lemma change_ok db db' : rtc change db db' → queue_ok db → queue_ok db'.
Proof.
  induction 1 as [|db1 db2 db3 [[now Hi]|Hm] _ IH]; [done| |]; intros Hok; apply IH; [by eapply insert_ok|by eapply move_ok].
Qed.

Lemma empty_ok : queue_ok empty_db.
Proof. intros id. cbn. by rewrite lookup_empty. Qed.


(** *** A command only moves forward *)

Definition terminal (s : cstate) : bool := match s with Done | Failed | Expired => true | _ => false end.

(** [c'] is [c] at a later time. *)
Record later (c c' : command) : Prop := {
  later_same : (c.(c_tenant), c.(c_agent), c.(c_instance), c.(c_cluster), c.(c_kind), c.(c_args), c.(c_requested_by), c.(c_created)) =
    (c'.(c_tenant), c'.(c_agent), c'.(c_instance), c'.(c_cluster), c'.(c_kind), c'.(c_args), c'.(c_requested_by), c'.(c_created));
  later_final : terminal c.(c_state) = true → c' = c;
  later_claimed : c.(c_state) = Claimed → c' = c ∨ terminal c'.(c_state) = true ∧ c'.(c_token) = c.(c_token);
}.

Lemma later_refl c : later c c.
Proof. split; auto. Qed.

Lemma later_trans c1 c2 c3 : later c1 c2 → later c2 c3 → later c1 c3.
Proof.
  intros H12 H23. split.
  - by rewrite (later_same _ _ H12), (later_same _ _ H23).
  - intros Ht. pose proof (later_final _ _ H12 Ht) as ->. by apply (later_final _ _ H23).
  - intros Hc. destruct (later_claimed _ _ H12 Hc) as [->|[Ht Etok]]; [by apply (later_claimed _ _ H23)|].
    right. rewrite (later_final _ _ H23 Ht). done.
Qed.

Lemma change_later db db' id c : change db db' → db.(commands) !! id = Some c → ∃ c', db'.(commands) !! id = Some c' ∧ later c c'.
Proof.
  intros [[now [fresh cn Hnew _ _ _]]|Hm] Hc.
  { exists c. split; [|apply later_refl]. cbn. rewrite lookup_insert_ne; [done|congruence]. }
  destruct Hm as [now|id' c0 now lease token Hc0 Hw _|id' c0 r now db' Hc0 Hh _ _ Ec _|id' c0 r outcome _ _ _ _|db' Ec _].
  - unfold expire_all. cbn. rewrite lookup_fmap, Hc. cbn. eexists. split; [done|].
    destruct (overdue now c) eqn:Ho; [|apply later_refl]. unfold overdue in Ho. apply andb_true_iff in Ho as [[_ Ho]%andb_true_iff _].
    apply orb_true_iff in Ho. rewrite !bool_decide_eq_true in Ho. split; [done| |by right]. by destruct Ho as [-> | ->].
  - destruct (decide (id' = id)) as [->|Hne]; [|exists c; split; [cbn; by rewrite lookup_insert_ne|apply later_refl]].
    eexists. split; [cbn; by rewrite lookup_insert_eq|]. assert (c0 = c) as -> by congruence.
    apply waiting_spec in Hw as (_ & _ & Hs & _). split; [done| |]; rewrite Hs; done.
  - rewrite Ec. destruct (decide (id' = id)) as [->|Hne]; [|exists c; split; [by rewrite lookup_insert_ne|apply later_refl]].
    eexists. split; [by rewrite lookup_insert_eq|]. assert (c0 = c) as -> by congruence.
    apply held_by_spec in Hh as (Hs & Htok). split; [done|by rewrite Hs|]. intros _. right. split; [cbn [finish c_state]; by destruct (bool_decide _)|done].
  - exists c. split; [done|apply later_refl].
  - exists c. rewrite Ec. split; [done|apply later_refl].
Qed.

Lemma changes_later db db' id c : rtc change db db' → db.(commands) !! id = Some c → ∃ c', db'.(commands) !! id = Some c' ∧ later c c'.
Proof.
  intros H. revert c. induction H as [|db1 db2 db3 H12 _ IH]; intros c Hc; [exists c; split; [done|apply later_refl]|].
  destruct (change_later _ _ _ _ H12 Hc) as (c2 & Hc2 & L12). destruct (IH c2 Hc2) as (c3 & Hc3 & L23).
  exists c3. split; [done|]. by eapply later_trans.
Qed.

Lemma history_app ops1 ops2 db : run (ops1 ++ ops2) db = run ops2 (run ops1 db).
Proof. apply foldl_app. Qed.

(** A command is never lost and never rewritten: whatever happens later, its tenant,
    agent, instance, kind, arguments, requester and creation time stay; once done, failed
    or expired its row does not change again; and while claimed it keeps the claim's token
    until it ends. *)
Theorem command_moves_forward ops1 ops2 id c : (run ops1 empty_db).(commands) !! id = Some c →
  ∃ c', (run (ops1 ++ ops2) empty_db).(commands) !! id = Some c' ∧ later c c'.
Proof. intros Hc. rewrite history_app. exact (changes_later _ _ _ _ (run_changes ops2 _) Hc). Qed.

(** *** Claims *)

Lemma claim_ok e locked token agent db p db' : claim e locked token agent db = (ClaimOK p, db') →
  ∃ dbi c, rtc move db dbi ∧ dbi.(commands) !! p.(po_command) = Some c ∧ waiting e.(db_now) commandTenant agent c = true ∧
    agentRevoked agent dbi = false ∧ locked p.(po_command) = false ∧
    (∀ id' c', dbi.(commands) !! id' = Some c' → waiting e.(db_now) commandTenant agent c' = true → locked id' = false → c.(c_created) ≤ c'.(c_created)) ∧
    p = mkPoll p.(po_command) c.(c_kind) c.(c_args) c.(c_instance) c.(c_cluster) token (Z.max c.(c_expires) (Add e.(go_now) commandClaimLease)) ∧
    db' = set_commands (<[p.(po_command) := claim_row e.(db_now) (Add e.(go_now) commandClaimLease) token c]> dbi.(commands)) dbi.
Proof.
  unfold claim. pose proof (expireCommands_moves (stmt e 0) (db_now e) db) as Hx.
  destruct (expireCommands (stmt e 0) (db_now e) db) as [err db1]. cbn in Hx. destruct err; [done|].
  destruct (oldest _) as [[id c]|] eqn:Eo; [|by destruct (fails e 1)].
  apply claim_pick in Eo as (Hc & Hw & Ha & Hr & Hl & Hmin). destruct (stmt e 1); [|done]. intros [= <- <-].
  exists db1, c. cbn. by split_and!.
Qed.

Lemma poll_loop_claims turns wait deadline agent db p db' : poll_loop turns wait deadline agent db = (Some (200, Some p), db') →
  ∃ t dbi, t ∈ turns ∧ rtc move db dbi ∧ claim t.(t_call) t.(t_locked) t.(t_token) agent dbi = (ClaimOK p, db').
Proof.
  revert db. induction turns as [|t turns IH]; intros db; cbn [poll_loop]; [done|].
  pose proof (claim_moves (t_call t) (t_locked t) (t_token t) agent db) as Hm.
  destruct (claim _ _ _ _ db) as [[| |q] db1] eqn:Ec; cbn in Hm; [done| |].
  - destruct ((wait =? 0) || _); [done|]. destruct (t_slept t); cbn; [|done]. intros H.
    destruct (IH _ H) as (t' & dbi & Ht & Hi & Hcl). exists t', dbi. split_and!; [by right|by etrans|done].
  - intros [= <- <-]. exists t, db. split_and!; [left|done|done].
Qed.

(** What a poll hands out. The agent authenticated and asked for its own queue; it is
    not revoked at the moment of the claim; the command is one of its own, pending and not
    expired, and no older one that could be taken was passed over; its row is now claimed
    under the token handed out, with a lease of at least two minutes; and no later poll, by
    anyone and whatever happens in between, is handed the same command again. *)
Theorem poll_claim_contract tok au h l rq raw pool e turns ops p db' :
  poll sha256 uuid_parse tok au h l rq raw pool e turns (run ops empty_db) = (Some (200, Some p), db') →
  ∃ agent t dbi c, authenticatedAgent sha256 tok au h l = Some rq ∧ uuid_parse rq = Some agent ∧ t ∈ turns ∧
    rtc move (run ops empty_db) dbi ∧
    dbi.(commands) !! p.(po_command) = Some c ∧ waiting t.(t_call).(db_now) commandTenant agent c = true ∧ agentRevoked agent dbi = false ∧
    (∀ id' c', dbi.(commands) !! id' = Some c' → waiting t.(t_call).(db_now) commandTenant agent c' = true → t.(t_locked) id' = false →
      c.(c_created) ≤ c'.(c_created)) ∧
    (p.(po_kind), p.(po_args), p.(po_instance)) = (c.(c_kind), c.(c_args), c.(c_instance)) ∧ well_typed p.(po_kind) p.(po_args) ∧
    t.(t_call).(go_now) + commandClaimLease ≤ p.(po_expires) ∧
    (∃ c', db'.(commands) !! p.(po_command) = Some c' ∧ c'.(c_state) = Claimed ∧ c'.(c_token) = Some p.(po_token)) ∧
    (∀ ops' tok' au' h' l' rq' raw' pool' e' turns' p' db'',
      poll sha256 uuid_parse tok' au' h' l' rq' raw' pool' e' turns' (run ops' db') = (Some (200, Some p'), db'') → p'.(po_command) ≠ p.(po_command)).
Proof.
  assert (∀ tok au h l rq raw pool e turns db p db', poll sha256 uuid_parse tok au h l rq raw pool e turns db = (Some (200, Some p), db') →
    ∃ agent t dbi, authenticatedAgent sha256 tok au h l = Some rq ∧ uuid_parse rq = Some agent ∧ t ∈ turns ∧ rtc move db dbi ∧
      claim t.(t_call) t.(t_locked) t.(t_token) agent dbi = (ClaimOK p, db')) as Hpoll.
  { clear. intros tok au h l rq raw pool e turns db p db'. unfold poll. destruct (authenticatedAgent _ tok au h l) as [a|]; [|done].
    case_bool_decide as Ea; [subst a|done]. cbn [negb]. destruct (uuid_parse rq) as [agent|]; [|done].
    repeat (case_match; try done). intros (t & dbi & Ht & Hm & Hcl)%poll_loop_claims. by exists agent, t, dbi. }
  intros H. destruct (Hpoll _ _ _ _ _ _ _ _ _ _ _ _ H) as (agent & t & db1 & Hau & Hid & Ht & Hm1 & Hcl).
  apply claim_ok in Hcl as (dbi & c & Hm2 & Hc & Hw & Hr & _ & Hmin & Ep & ->).
  assert (rtc move (run ops empty_db) dbi) as Hm by (by etrans).
  assert (queue_ok dbi) as Hok.
  { eapply change_ok; [|apply empty_ok]. etrans; [apply (run_changes ops)|]. eapply rtc_subrel; [|exact Hm]. by right. }
  assert (well_typed (c_kind c) (c_args c)) as Htyped by (specialize (Hok (po_command p)); rewrite Hc in Hok; apply Hok).
  exists agent, t, dbi, c. split_and!; try done.
  - by rewrite Ep.
  - by rewrite Ep.
  - rewrite Ep. cbn. unfold Add. lia.
  - eexists. cbn. rewrite lookup_insert_eq. split_and!; [done|done|]. by rewrite Ep.
  - intros ops' tok' au' h' l' rq' raw' pool' e' turns' p' db'' H' Eid.
    destruct (Hpoll _ _ _ _ _ _ _ _ _ _ _ _ H') as (agent' & t' & db2 & _ & _ & _ & Hm3 & Hcl').
    apply claim_ok in Hcl' as (dbj & c2 & Hm4 & Hc2 & Hw2 & _). set (db' := set_commands _ dbi) in *.
    assert (rtc change db' dbj) as Hch.
    { assert (rtc move (run ops' db') dbj) as Hmj by (by etrans). etrans; [apply (run_changes ops')|]. eapply rtc_subrel; [|exact Hmj]. by right. }
    destruct (changes_later db' dbj (po_command p) _ Hch ltac:(cbn; apply lookup_insert_eq)) as (c3 & Hc3 & L).
    rewrite Eid in Hc2. assert (c3 = c2) as -> by congruence. apply waiting_spec in Hw2 as (_ & _ & Hs & _).
    destruct (later_claimed _ _ L eq_refl) as [->|[Hterm _]]; [done|]. by rewrite Hs in Hterm.
Qed.

(** *** Results *)

(** Who ends a command. A posted result changes the commands only if it is
    authenticated and valid, the command is claimed under exactly the token it carries, and
    the agent that owns the command is not revoked; then it ends as done or failed with the
    result as withheld, and nothing else changes. A reply of success means that it did; a
    conflict, a refusal or an invalid request means that no command changed. *)
Theorem result_contract tok au pool idp b e db : let res := post_result sha256 decode_explain decode_tuple tok au pool idp b e db in
  (res.2.(commands) = db.(commands) ∧ res.1 ≠ 204) ∨
  ∃ id r c, auth_Validate sha256 tok au = true ∧ idp = Some id ∧ b = Body r ∧ validateResult r = true ∧
    db.(commands) !! id = Some c ∧ c.(c_state) = Claimed ∧ c.(c_token) = Some r.(r_token) ∧ agentRevoked c.(c_agent) db = false ∧
    res.2.(commands) = <[id := finish e.(db_now) (if bool_decide ((withhold r).(r_outcome) = str "ok") then Done else Failed) (withhold r) c]> db.(commands) ∧
    (res.1 = 204 ∨ res.1 = 500).
Proof.
  cbn zeta. unfold post_result. destruct (auth_Validate sha256 tok au) eqn:Hau; cbn; [|by left]. destruct pool; cbn; [|by left].
  destruct idp as [id|]; [|by left]. destruct b as [| |r]; [by left..|]. destruct (validateResult r) eqn:Hv; cbn [negb]; [|by left].
  assert (r_token (withhold r) = r_token r) as Etok by (unfold withhold; by repeat case_match).
  unfold result_tx. destruct (fails e 0); [by left|]. destruct (fails e 1); [by left|].
  destruct (commands db !! id) as [c|] eqn:Hc; [|by destruct (fails e 2); left].
  destruct (agentRevoked (c_agent c) db) eqn:Hrev; [by left|]. destruct (fails e 2); [by left|].
  destruct (held_by (r_token (withhold r)) c) eqn:Hheld.
  - apply held_by_spec in Hheld as (Hs & Ht). rewrite Etok in Ht.
    set (ok := bool_decide (r_outcome (withhold r) = str "ok")). set (db1 := set_commands _ db).
    assert (∀ db2, db2.(commands) = db1.(commands) → let res := if fails e 5 then (500, db) else commit (stmt e 6) 204 db (add_audit [result_audit id c (r_outcome (withhold r)) (r_error (withhold r))] db2) in
      (res.2.(commands) = db.(commands) ∧ res.1 ≠ 204) ∨ res.2.(commands) = db1.(commands) ∧ (res.1 = 204 ∨ res.1 = 500)) as Hend.
    { intros db2 E1. destruct (fails e 5); [by left|]. destruct (stmt e 6) as [|[]]; cbn; [right|right|left]; rewrite ?E1; split; auto. }
    assert (∀ res : Z * DB, (res.2.(commands) = db.(commands) ∧ res.1 ≠ 204) ∨ res.2.(commands) = db1.(commands) ∧ (res.1 = 204 ∨ res.1 = 500) →
      (res.2.(commands) = db.(commands) ∧ res.1 ≠ 204) ∨
      ∃ id0 r0 c0, true = true ∧ Some id = Some id0 ∧ Body r = Body r0 ∧ validateResult r0 = true ∧ db.(commands) !! id0 = Some c0 ∧ c0.(c_state) = Claimed ∧
        c0.(c_token) = Some r0.(r_token) ∧ agentRevoked c0.(c_agent) db = false ∧
        res.2.(commands) = <[id0 := finish e.(db_now) (if bool_decide ((withhold r0).(r_outcome) = str "ok") then Done else Failed) (withhold r0) c0]> db.(commands) ∧
        (res.1 = 204 ∨ res.1 = 500)) as Hwrap.
    { intros res [?|[E ?]]; [by left|]. right. exists id, r, c. by split_and!. }
    destruct ok eqn:Eok; [|by apply Hwrap, Hend].
    destruct (persistCommandArtifact _ _ _ _ _ _ db1) as [db2|] eqn:Ep; [|by left]. apply persist_keeps in Ep as (E1 & _). by apply Hwrap, Hend.
  - destruct (negb (fails e 3) && _); [|by left]. destruct (fails e 5); [by left|]. left. by destruct (stmt e 6) as [|[]].
Qed.

(** *** The length of a queue *)

Definition waiting_set (now : Time) (tenant : text) (agent : UUID) (db : DB) : gmap UUID command :=
  filter (λ p, waiting now tenant agent p.2 = true) db.(commands).

(** Moves and the passing of time only shorten a queue. *)
Lemma waiting_shrinks now now' tenant agent db db' :
  now ≤ now' → (∀ id c', db'.(commands) !! id = Some c' → c'.(c_state) = Pending → db.(commands) !! id = Some c') →
  count_waiting now' tenant agent db' ≤ count_waiting now tenant agent db.
Proof.
  intros Hn H. unfold count_waiting. apply inj_le, map_subseteq_size, map_subseteq_spec. intros id c [Hc Hw]%map_lookup_filter_Some.
  cbn in Hw. apply waiting_spec in Hw as (Ht & Ha & Hs & He). apply map_lookup_filter_Some. split; [by apply H|].
  cbn. apply waiting_spec. split_and!; [done..|lia].
Qed.

Lemma move_pending db db' id c' : move db db' → db'.(commands) !! id = Some c' → c'.(c_state) = Pending → db.(commands) !! id = Some c'.
Proof.
  intros [now|id0 c0 now lease token Hc0 Hw _|id0 c0 r now db1 Hc0 Hh _ _ Ec _|id0 c0 r outcome _ _ _ _|db1 Ec _] Hc Hs.
  - unfold expire_all in Hc. cbn in Hc. rewrite lookup_fmap in Hc. apply fmap_Some in Hc as (c & Hc & ->). by destruct (overdue now c).
  - cbn in Hc. apply lookup_insert_Some in Hc as [[_ <-]|[_ ?]]; [done|done].
  - rewrite Ec in Hc. apply lookup_insert_Some in Hc as [[_ <-]|[_ ?]]; [|done]. cbn in Hs. by destruct (bool_decide _).
  - done.
  - by rewrite <- Ec.
Qed.

Lemma moves_pending db db' id c' : rtc move db db' → db'.(commands) !! id = Some c' → c'.(c_state) = Pending → db.(commands) !! id = Some c'.
Proof. induction 1 as [|db1 db2 db3 H12 _ IH]; [done|]. intros Hc Hs. eapply move_pending; [done| |done]. by apply IH. Qed.

Lemma insert_queue t now db db' tenant agent : insert t db db' → t ≤ now → count_waiting now tenant agent db ≤ commandQueueLimit →
  count_waiting now tenant agent db' ≤ commandQueueLimit.
Proof.
  intros [id c Hnew _ _ Hlt] Ht Hq. unfold count_waiting in *. cbn [commands add_audit set_commands].
  destruct (waiting now tenant agent c) eqn:Hw.
  - rewrite map_filter_insert_True, map_size_insert_None by (done || (apply map_lookup_filter_None; by left)).
    apply waiting_spec in Hw as (<- & <- & _ & _). pose proof (waiting_shrinks t now (c_tenant c) (c_agent c) db db Ht ltac:(done)) as Hs.
    unfold count_waiting in Hs. lia.
  - rewrite map_filter_insert_not'; [done|cbn [snd]; congruence|]. intros c' Hc'. congruence.
Qed.

(** No agent ever has more than twenty commands waiting, over any history in which
    requests are served one at a time, at any time from the last request on. *)
Theorem queue_bounded ops now tenant agent : Forall (λ o, ∀ t, enqueued_at o = Some t → t ≤ now) ops →
  count_waiting now tenant agent (run ops empty_db) ≤ commandQueueLimit.
Proof.
  induction ops as [|o ops IH] using rev_ind; intros Hops; [unfold count_waiting; cbn; by rewrite map_filter_empty, map_size_empty|].
  apply Forall_app in Hops as [Hops [Ho _]%Forall_cons]. specialize (IH Hops). rewrite history_app.
  set (db := run ops empty_db) in *. cbn. destruct (enqueued_at o) as [t|] eqn:Eo.
  - destruct o; try done. injection Eo as <-. cbn [step].
    destruct (enqueue_insert ttl e pool instance b who fresh db) as [-> |Hi]; [done|]. eapply insert_queue; [done|by apply Ho|done].
  - etrans; [|exact IH]. apply waiting_shrinks; [done|]. intros id c' Hc Hs. eapply moves_pending; [by apply step_moves|done|done].
Qed.

(** *** Polls end *)

(** Each turn's check of the deadline comes at least an interval after the one before. *)
Fixpoint spaced (start : Time) (turns : list poll_turn) : Prop :=
  match turns with
  | [] => True
  | t :: turns => start ≤ t.(t_checked) ∧ spaced (t.(t_checked) + commandWaitInterval) turns
  end.

Lemma poll_loop_returns turns wait deadline start agent db : spaced start turns → (1 ≤ length turns)%nat →
  deadline - start ≤ (Z.of_nat (length turns) - 1) * commandWaitInterval → (poll_loop turns wait deadline agent db).1 ≠ None.
Proof.
  revert start db. induction turns as [|t turns IH]; intros start db Hsp Hlen Hd; [cbn in Hlen; lia|]. cbn [poll_loop].
  destruct (claim _ _ _ _ db) as [[| |p] db1]; [done| |done]. destruct Hsp as [Hst Hsp].
  destruct ((wait =? 0) || negb (Before (t_checked t) deadline)) eqn:E; [done|]. destruct (t_slept t); cbn [negb]; [|done].
  apply orb_false_iff in E as [_ E%negb_false_iff%Z.ltb_lt]. change (length (t :: turns)) with (S (length turns)) in Hd.
  rewrite Nat2Z.inj_succ in Hd. unfold commandWaitInterval, Millisecond, Microsecond, Nanosecond in *.
  apply (IH _ _ Hsp); [|lia]. destruct turns; cbn in *; lia.
Qed.

(** C40: A poll answers. However long the agent asks to wait, and whatever the database
    does, the loop ends within 61 turns, since the wait is cut to thirty seconds and each
    turn sleeps half a second. *)
Theorem poll_returns tok au h l rq raw pool e turns db : spaced e.(go_now) turns → (61 ≤ length turns)%nat →
  (poll sha256 uuid_parse tok au h l rq raw pool e turns db).1 ≠ None.
Proof.
  intros Hsp Hlen. unfold poll. destruct (authenticatedAgent _ _ _ _ _) as [a|]; [|done]. case_bool_decide; cbn [negb]; [|done].
  destruct (uuid_parse rq); [|done]. destruct (parseCommandWait raw) as [wait|] eqn:Ew; [|done]. destruct pool; cbn [negb]; [|done].
  destruct (fails e 0); [done|]. destruct (agentRevoked _ db); [done|].
  assert (wait ≤ maxCommandWait) as Hw.
  { unfold parseCommandWait, maxCommandWait, Second, Millisecond, Microsecond, Nanosecond in *. repeat case_match; zbool; simplify_eq; lia. }
  apply (poll_loop_returns turns wait _ (go_now e)); [done|lia|].
  unfold Add, maxCommandWait, commandWaitInterval, Second, Millisecond, Microsecond, Nanosecond in *. lia.
Qed.
End histories.

(** ** Examples *)

Module Example_.
Definition cancel_args : Args := mkArgs None [] false (Some 42) [] [] None.

(** Agent 7 monitors instance 5; one command is requested for it. *)
Definition requested : list op :=
  [OpInstances {[5 := mkInstance 7 1 commandTenant]};
   OpEnqueue (5 * Minute) (calm 1000) true (Some 5) (Body (mkEnqueue KindCancel (Some (Some cancel_args)))) (str "api") 100].

Notation run_ := (run (λ t, t) (λ _, Some 7) (λ _, None) (λ _, None)).

Definition polled (db : DB) : option (Z * option pollResponse) * DB :=
  poll (λ t, t) (λ _, Some 7) (Some (str "t")) (str "Bearer t") (str "a") [] (str "a") None true (calm 2000) [mkTurn (calm 2000) (λ _, false) 9 2000 true] db.

Definition the_command : command :=
  new_command (mkInstance 7 1 commandTenant) 5 KindCancel cancel_args (str "api") 1000 (1000 + 5 * Minute).

Lemma requested_command : (run_ requested empty_db).(commands) !! 100 = Some the_command.
Proof. vm_compute. reflexivity. Qed.

Lemma command_moves_forward_witness :
  ∃ c', (run_ (requested ++ [OpGet (calm (600 * Second)) true (Some 100)]) empty_db).(commands) !! 100 = Some c' ∧ later the_command c'.
Proof. apply command_moves_forward, requested_command. Defined.

Lemma poll_claim_contract_witness : ∃ p, (polled (run_ requested empty_db)).1 = Some (200, Some p) ∧ well_typed p.(po_kind) p.(po_args).
Proof.
  destruct (polled (run_ requested empty_db)) as [o db'] eqn:E. pose proof E as E'. apply (f_equal fst) in E'. vm_compute in E'. subst o.
  eexists. split; [reflexivity|].
  destruct (poll_claim_contract (λ t, t) (λ _, Some 7) (λ _, None) (λ _, None) _ _ _ _ _ _ _ _ _ requested _ db' E) as (? & ? & ? & ? & H). apply H.
Defined.

Lemma queue_bounded_witness : count_waiting 1000 commandTenant 7 (run_ requested empty_db) ≤ commandQueueLimit.
Proof. apply queue_bounded. repeat constructor; intros t [= <-]; cbn; lia. Defined.

(** An agent that waits on an empty queue for longer than the server allows. *)
Definition waits : list poll_turn := (λ k, mkTurn (calm 0) (λ _, false) 9 (Z.of_nat k * commandWaitInterval) true) <$> seq 0 61.

Lemma waits_spaced n k : spaced (Z.of_nat k * commandWaitInterval) ((λ k, mkTurn (calm 0) (λ _, false) 9 (Z.of_nat k * commandWaitInterval) true) <$> seq k n).
Proof.
  revert k. induction n as [|n IH]; intros k; cbn; [done|]. split; [done|]. specialize (IH (S k)).
  by replace (Z.of_nat k * commandWaitInterval + commandWaitInterval) with (Z.of_nat (S k) * commandWaitInterval) by lia.
Qed.

Lemma poll_returns_witness :
  (poll (λ t, t) (λ _, Some 7) (Some (str "t")) (str "Bearer t") (str "a") [] (str "a") (Some (Some Hour)) true (calm 0) waits empty_db).1 ≠ None.
Proof. apply poll_returns; [apply (waits_spaced 61 0)|vm_compute; lia]. Defined.
End Example_.
