(* ===== verification/Ingest.v ===== *)
(** * The ingestion handler (internal/server/ingest.go)

    A push is authenticated, takes one of the slots, its body is read within limits and
    decoded, a revoked agent is turned away, the inventory registers the instances and the
    pipeline stores the envelope without those it refused. The request's parts that the
    HTTP server gives (headers, whether reading the body failed) are fields of [Request];
    decompression and JSON decoding are [BodyCodec]. *)
From S2P Require Import Prelude StateM GoTime GoFloat GoBytes GoText GoJson GoSort Pgtype AlertTypes PgIds Redact Wire Store PipelineRows Pipeline Inventory.
From S2P Require CommandServer.

Definition maxBodyBytes : Z := 32 * 2 ^ 20.
Definition maxDecompressedBytes : Z := 256 * 2 ^ 20.
Definition maxConcurrentIngest : nat := 4.
Definition agentIDRequiredFrom : Z := 3.
Definition maxSampleAge : Duration := 12 * Hour.

(** ** The budget of a decompressed body *)

(** A stream: the bytes left, and whether it ends well or with an error. *)
Record stream := mkStream { content : text; sound : bool }.

(** How a read ends: with bytes only, at the end of the stream, with the stream's own
    error, or past the budget. *)
Inductive read_end := Going | EOF | Corrupt | TooLarge.

(** A read of at most [room] bytes, of which the stream gives [chunk] (at least one while it
    has bytes). *)
Definition stream_read (chunk room : nat) (s : stream) : text * read_end * stream :=
  match s.(content), room with
  | [], _ => ([], if s.(sound) then EOF else Corrupt, s)
  | _, O => ([], Going, s)
  | c, _ => let n := Nat.max 1 (Nat.min chunk room) in (take n c, Going, mkStream (drop n c) s.(sound))
  end.

Record budgetReader := mkBudgetReader { br_r : stream; br_budget : Z }.

Definition budget_Read (chunk room : nat) (b : budgetReader) : text * read_end * budgetReader :=
  if b.(br_budget) <=? 0 then
    let '(got, e, r) := stream_read chunk 1 b.(br_r) in
    let b' := mkBudgetReader r b.(br_budget) in
    match got with
    | [] => ([], e, b')
    | _ => ([], TooLarge, b')
    end
  else
    let room := if b.(br_budget) <? Z.of_nat room then Z.to_nat b.(br_budget) else room in
    let '(got, e, r) := stream_read chunk room b.(br_r) in
    (got, e, mkBudgetReader r (b.(br_budget) - Z.of_nat (length got))).

(** Reads up to the first that ends: the decoder's, then those of the drain. *)
Fixpoint read_on (fuel : nat) (chunks : nat → nat) (room : nat) (b : budgetReader) : option (text * read_end) :=
  match fuel with
  | O => None
  | S fuel =>
      match budget_Read (chunks fuel) room b with
      | (got, Going, b') => r ← read_on fuel chunks room b'; Some (got ++ r.1, r.2)
      | (got, e, _) => Some (got, e)
      end
  end.

Lemma stream_read_some chunk room c ok : (0 < room)%nat → c ≠ [] →
  ∃ n, (1 ≤ n ≤ length c)%nat ∧ (n ≤ room)%nat ∧ stream_read chunk room (mkStream c ok) = (take n c, Going, mkStream (drop n c) ok).
Proof.
  intros Hr Hc. unfold stream_read. cbn. destruct c as [|x c]; [done|]. destruct room as [|room]; [lia|].
  set (k := Nat.max 1 (Nat.min chunk (S room))). exists (Nat.min k (length (x :: c))). split; [unfold k; cbn [length]; lia|]. split; [unfold k; lia|].
  assert (take k (x :: c) = take (Nat.min k (length (x :: c))) (x :: c)) as E by (rewrite <- take_take; f_equal; by rewrite (firstn_all (x :: c))).
  rewrite E. f_equal. f_equal. destruct (decide (k ≤ length (x :: c))%nat) as [Hk|Hk]; [by rewrite Nat.min_l|].
  rewrite Nat.min_r by lia. by rewrite !drop_ge by lia.
Qed.

(** Reading a body to its end, in reads of any size, gives all of it when it fits the
    budget, and the stream's own ending; a body that does not fit gives exactly the budget
    and the error that says so. A read per byte and one more are enough. *)
Theorem budget_is_exact chunks room c ok budget fuel : (0 < room)%nat → 0 ≤ budget → (length c < fuel)%nat →
  read_on fuel chunks room (mkBudgetReader (mkStream c ok) budget) =
    Some (if Z.of_nat (length c) <=? budget then (c, if ok then EOF else Corrupt) else (take (Z.to_nat budget) c, TooLarge)).
Proof.
  intros Hroom. revert c budget. induction fuel as [|fuel IH]; intros c budget Hb Hf; [lia|]. cbn [read_on]. unfold budget_Read. cbn [br_r br_budget].
  destruct c as [|x c].
  { replace (Z.of_nat (length (@nil byte)) <=? budget) with true by (symmetry; apply Z.leb_le; cbn; lia). destruct (budget <=? 0); destruct room; try lia; by destruct ok. }
  destruct (Z.leb_spec budget 0) as [Hz|Hz].
  { assert (budget = 0) as -> by lia. destruct (stream_read_some (chunks fuel) 1 (x :: c) ok) as (n & Hn & _ & ->); [lia|done|].
    destruct n; [lia|]. cbn. done. }
  match goal with |- context [stream_read _ (if ?b then ?x else ?y) _] => set (room' := if b then x else y) end. assert ((0 < room')%nat ∧ Z.of_nat room' ≤ budget) as [Hr1 Hr2].
  { unfold room'. destruct (Z.ltb_spec budget (Z.of_nat room)); lia. }
  destruct (stream_read_some (chunks fuel) room' (x :: c) ok) as (n & Hn & Hnr & ->); [lia|done|].
  assert (length (take n (x :: c)) = n) as Hlen by (rewrite length_take; lia). rewrite Hlen.
  rewrite IH; [|lia|rewrite length_drop; lia]. cbn [mbind option_bind]. rewrite length_drop.
  destruct (Z.leb_spec (Z.of_nat (length (x :: c) - n)) (budget - Z.of_nat n)) as [Hl|Hl];
    destruct (Z.leb_spec (Z.of_nat (length (x :: c))) budget) as [Hl'|Hl']; try lia; cbn [fst snd].
  - by rewrite take_drop.
  - do 2 f_equal. rewrite <- (take_drop n (x :: c)) at 3. rewrite take_app_ge by (rewrite Hlen; lia). rewrite Hlen. do 2 f_equal. lia.
Qed.

(** ** The handler *)

(** [gzip.NewReader] with the stream it gives, and the first JSON value of a text as an
    envelope; [None] for an error. *)
Class BodyCodec := {
  gunzip : text → option stream;
  scan_envelope : text → option Envelope;
}.

Inductive body_read := BodyTooLarge | BodyFailed | BodyRead (b : text).

Record Request := mkRequest {
  rq_authorization : text;
  rq_taken : nat; (* the slots that are taken *)
  rq_body : body_read; (* through a reader of [maxBodyBytes] *)
  rq_gzip : bool;
  rq_transmitted : option Time; (* the header, when it is there and parses *)
}.

Record Response := mkResponse { rs_status : Z; rs_error : string; rs_counts : option (Z * Z) }.

Definition refusal_response (status : Z) (error : string) : Response := mkResponse status error None.

Definition transmittedAt (rq : Request) (sentAt : Time) : Time := default sentAt rq.(rq_transmitted).

Definition set_transmitted (t : Time) (env : Envelope) : Envelope :=
  mkEnvelope env.(env_ProtocolVersion) env.(env_AgentID) env.(env_AgentVersion) env.(env_SentAt) env.(env_Instances) t.
Definition set_env_instances (l : list WInstance) (env : Envelope) : Envelope :=
  mkEnvelope env.(env_ProtocolVersion) env.(env_AgentID) env.(env_AgentVersion) env.(env_SentAt) l env.(env_TransmittedAt).

(** The store refused a NULL or a value. *)
Definition storeRefused (f : failure) : bool :=
  match f with DbFailed (PgError code) => bool_decide (code = "23502") || bool_decide (code = "23514") | _ => false end.

(** The envelope without the instances the inventory refused. *)
Definition filtered (env : Envelope) (res : UpsertResult) : Envelope :=
  if bool_decide (res.(ur_Errors) = ∅) then env
  else set_env_instances (List.filter (λ inst, bool_decide (res.(ur_Errors) !! inst.(inst_InstanceID) = None)) env.(env_Instances)) env.

Section handler.
Context `{FloatOverflow, UnicodeLower, RangeOrder, UuidText, UuidParse, JsonCodec, Jsonb, BodyCodec, ServerEnv}.

(** The envelope of a body, or the answer that refuses the body. The reads of the decoder
    and the drain, whatever their sizes, end as [budget_is_exact] says. *)
Definition decode_body (gz : bool) (body : text) : Response + Envelope :=
  let scan (t : text) (sound : bool) : Response + Envelope :=
    match scan_envelope t with
    | None => inl (refusal_response 400 "bad json")
    | Some env => if sound then inr env else inl (refusal_response 400 "invalid gzip body")
    end in
  if gz then
    match gunzip body with
    | None => inl (refusal_response 400 "invalid gzip body")
    | Some s =>
        match read_on (S (length s.(content))) (λ _, 512%nat) 512 (mkBudgetReader s maxDecompressedBytes) with
        | Some (t, EOF) => scan t true
        | Some (t, Corrupt) => scan t false
        | _ => inl (refusal_response 413 "payload too large")
        end
    end
  else scan body true.

Definition revocation (env : Envelope) : PM bool :=
  revoked ← IsRevoked env.(env_AgentID);
  if revoked : bool then mret true else OwnerRevoked env.(env_Instances).

Definition names_agent (env : Envelope) : bool :=
  match uuid_Parse env.(env_AgentID) with Some a => negb (bool_decide (a = uuid_Nil)) | None => false end.

(** What the pipeline's answer is turned into. *)
Definition store_envelope (env : Envelope) (inv : UpsertResult) : PM Response :=
  r ← attempt (Process (filtered env inv));
  match r with
  | inl Panicked => raise Panicked
  | inl f =>
      if storeRefused f then log [IngestRejected "store_refused"];; mret (refusal_response 400 "store refused the envelope")
      else log [IngestRejected "pipeline_error"];; mret (refusal_response 500 "pipeline error")
  | inr res =>
      let rejected := res.(pr_Rejected) + Z.of_nat (size inv.(ur_Errors)) in
      log [IngestEnvelopes (if rejected =? 0 then "ok" else "partial")];;
      mret (mkResponse 202 "" (Some (res.(pr_Accepted), rejected)))
  end.

(** From the decoded envelope on. *)
Definition handle_envelope (env : Envelope) : PM Response :=
  if (env.(env_ProtocolVersion) <? ProtocolVersionMin) || (ProtocolVersionCurrent <? env.(env_ProtocolVersion))
  then mret (refusal_response 400 "unsupported protocol_version")
  else
    t ← now;
    if maxSampleAge <? Sub t env.(env_SentAt) then mret (refusal_response 400 "samples too old")
    else
      r ← attempt (revocation env);
      match r with
      | inl _ => mret (refusal_response 500 "revocation check failed")
      | inr true => mret (refusal_response 401 "revoked")
      | inr false =>
          t ← now;
          log [AgentClockSkew (clockSkewSeconds t env.(env_TransmittedAt))];;
          if (nonempty env.(env_AgentID) || (agentIDRequiredFrom <=? env.(env_ProtocolVersion))) && negb (names_agent env)
          then mret (refusal_response 400 "missing agent_id")
          else
            inv ← attempt (Upsert env);
            match inv with
            | inl _ => log [IngestRejected "inventory_error"];; mret (refusal_response 500 "inventory error")
            | inr inv => store_envelope env inv
            end
      end.

Definition ingestHandler (sha256 : text → text) (token : option text) (rq : Request) : PM Response :=
  if negb (CommandServer.auth_Validate sha256 token rq.(rq_authorization)) then mret (refusal_response 401 "unauthorized")
  else if (maxConcurrentIngest <=? rq.(rq_taken))%nat then mret (refusal_response 503 "ingest busy")
  else match rq.(rq_body) with
  | BodyTooLarge => mret (refusal_response 413 "payload too large")
  | BodyFailed => mret (refusal_response 400 "read error")
  | BodyRead body =>
      match decode_body rq.(rq_gzip) body with
      | inl resp => (if resp.(rs_status) =? 413 then log [IngestRejected "decompressed_too_large"] else mret ());; mret resp
      | inr env => handle_envelope (set_transmitted (transmittedAt rq env.(env_SentAt)) env)
      end
  end.
End handler.

(** Five bytes against a budget of three, in reads of two. *)
Lemma budget_is_exact_witness :
  read_on 6 (λ _, 2%nat) 2 (mkBudgetReader (mkStream (str "abcde") true) 3) = Some (str "abc", TooLarge).
Proof. rewrite (budget_is_exact (λ _, 2%nat) 2 (str "abcde") true 3 6); [reflexivity|lia|discriminate|cbn; lia]. Defined.
