(* ===== verification/Intake.v ===== *)
(** * What a push may write (internal/server/ingest.go, with pipeline.go and inventory.go)

    First, which statements processing an envelope executes: rows of the instances the
    envelope names, texts and trees without credentials, nothing on the inventory's tables
    but roles and [last_seen]. A property of the store that such statements keep is kept by
    [Process]. Then the ingestion handler, which composes authentication, the body's limits,
    revocation, the inventory and the pipeline, and what holds over any history of pushes. *)
From S2P Require Import Prelude StateM GoTime GoFloat GoBytes GoText GoJson GoSort Pgtype AlertTypes PgIds Redact Wire Store PipelineRows Pipeline Inventory Ingest.
From S2P Require Delta Topology CommandServer.

(** ** The statements of an envelope *)

(** The instance and the cluster a sample is stored for. *)
Definition sample_instance (s : sample) : UUID :=
  match s with
  | SMetric r => r.(mr_InstanceID) | SStatement r => r.(sr_InstanceID) | SASH r => r.(ar_InstanceID) | SReplication r => r.(rr_InstanceID)
  | STable r => r.(tr_InstanceID) | SIndex r => r.(ir_InstanceID) | SBloat r => r.(br_InstanceID)
  end.
Definition sample_cluster (s : sample) : Z :=
  match s with
  | SMetric r => r.(mr_ClusterID) | SStatement r => r.(sr_ClusterID) | SASH r => r.(ar_ClusterID) | SReplication r => r.(rr_ClusterID)
  | STable r => r.(tr_ClusterID) | SIndex r => r.(ir_ClusterID) | SBloat r => r.(br_ClusterID)
  end.

Section issued.
Context `{FloatOverflow, UnicodeLower, RangeOrder, !RangeOrderLaws, UuidText, UuidParse, JsonCodec, !JsonLaws, Jsonb, ServerEnv}.
Context (known : UUID → Z → Prop).

Definition sample_known (s : sample) : Prop := known (sample_instance s) (sample_cluster s).
Definition fact_known (r : ObjectFactRow) : Prop := known r.(of_InstanceID) r.(of_ClusterID).
Definition lock_allowed (r : LockSnapshotRow) : Prop := known r.(ls_InstanceID) r.(ls_ClusterID) ∧ tree_clean r.(ls_Tree).
Definition text_allowed (r : QueryTextRow) : Prop := MayHoldCredential r.(qt_QueryText) = false.

Definition event_allowed (r : EventRow) : Prop := r.(ev_Type) ∉ repeated_types.

(** What an envelope whose instances are [known] may execute. *)
Definition allowed (s : stmt) : Prop :=
  match s with
  | InsertSample x => sample_known x
  | CopyTemp _ l => Forall sample_known l
  | UpsertText r => text_allowed r
  | InsertEvent r => event_allowed r
  | UpsertFact r => fact_known r
  | UpsertLock r => lock_allowed r
  | InsertCluster _ _ _ | SetSource _ _ _ | InsertAgent _ | UpdateInstance _ _ | InsertInstance _ _ | UpsertDatabase _ _ _ _
  | DeleteDatabases _ _ | InsertRepeatable _ _ _ _ => False
  | _ => True
  end.

Context (P : DB → Prop) (HP : ∀ t s d d', allowed s → P d → apply_stmt t s d = inr d' → P d').

(** [m] keeps [P]. *)
Abbreviation keeps_db := (sat (λ w : World, P w.(w_db))).

Lemma db_allowed s : allowed s → keeps_db (exec s) (λ _, True).
Proof. intros Hs. apply (db_exec P). intros t d d'. by apply HP. Qed.

Lemma db_exec_all l : Forall allowed l → keeps_db (exec_all l) (λ _, True).
Proof. induction 1 as [|s l Hs _ IH]; cbn; [by apply sat_ret|]. eapply sat_bind; [by apply db_allowed|by intros _ _]. Qed.

Lemma db_exec_map {A} (f : A → stmt) l : (∀ x, x ∈ l → allowed (f x)) → keeps_db (exec_all (f <$> l)) (λ _, True).
Proof. intros Hf. apply db_exec_all, Forall_fmap, Forall_forall. exact Hf. Qed.

Lemma db_exec_bulk t l : Forall sample_known l → keeps_db (exec_all (writeTypedRows t l)) (λ _, True).
Proof.
  intros Hl. apply db_exec_all. unfold writeTypedRows. destruct (_ <? _)%nat; [by apply Forall_fmap|]. by repeat constructor.
Qed.

(** ** The rows of an instance *)

(** The rows built for [who]. *)
Definition rows_of (who : Who) (r : Rows) : Prop :=
  let mine i c := i = who.(instUUID) ∧ c = who.(cidDB) in
  Forall (λ x, mine x.(mr_InstanceID) x.(mr_ClusterID)) r.(generic) ∧ Forall (λ x, mine x.(ar_InstanceID) x.(ar_ClusterID)) r.(ashes) ∧
  map_Forall (λ _ x, mine x.(sr_InstanceID) x.(sr_ClusterID)) r.(stmtMap) ∧ map_Forall (λ _ x, mine x.(rr_InstanceID) x.(rr_ClusterID)) r.(replMap) ∧
  map_Forall (λ _ x, mine x.(tr_InstanceID) x.(tr_ClusterID)) r.(tableMap) ∧ map_Forall (λ _ x, mine x.(ir_InstanceID) x.(ir_ClusterID)) r.(indexMap) ∧
  map_Forall (λ _ x, mine x.(br_InstanceID) x.(br_ClusterID)) r.(bloatMap).

(** A row that is the old one of its key, or a new one, updated. *)
Lemma map_Forall_default_insert {K V} `{Countable K} (Q : V → Prop) (f : V → V) (m : gmap K V) k new :
  map_Forall (λ _ x, Q x) m → Q new → (∀ x, Q x → Q (f x)) → map_Forall (λ _ x, Q x) (<[k := f (default new (m !! k))]> m).
Proof.
  intros Hm Hn Hf. apply map_Forall_insert_2; [|done]. apply Hf. destruct (m !! k) eqn:E; [by apply (Hm k)|done].
Qed.

Lemma store_metric_rows who r m v s rows : rows_of who rows → rows_of who (store_metric who r m v s rows).
Proof.
  intros (? & ? & ? & ? & ? & ? & ?). unfold store_metric, store_statement. repeat case_bool_decide; try by split_and!.
  - split_and!; try done. cbn. apply Forall_app. by repeat constructor.
  - destruct (ParseInt _) as [q|]; [|by split_and!]. split_and!; try done. cbn.
    apply map_Forall_insert_2; [|done]. set (old := default _ _).
    assert (sr_InstanceID old = instUUID who ∧ sr_ClusterID old = cidDB who) as Ho.
    { unfold old. destruct (stmtMap rows !! _) eqn:E; [|done]. match goal with Hm : map_Forall _ (stmtMap rows) |- _ => exact (Hm _ _ E) end. }
    clearbody old. repeat case_match; done.
  - split_and!; try done. cbn. by apply (map_Forall_default_insert (λ x, rr_InstanceID x = _ ∧ rr_ClusterID x = _) (λ x, applyReplicationMetric x _ _ _)).
  - split_and!; try done. cbn. by apply (map_Forall_default_insert (λ x, tr_InstanceID x = _ ∧ tr_ClusterID x = _) (λ x, applyTableMetric x _ _)).
  - split_and!; try done. cbn. by apply (map_Forall_default_insert (λ x, ir_InstanceID x = _ ∧ ir_ClusterID x = _) (λ x, applyIndexMetric x _ _ _)).
  - split_and!; try done. cbn. by apply (map_Forall_default_insert (λ x, br_InstanceID x = _ ∧ br_ClusterID x = _) (λ x, applyBloatMetric x _ _)).
Qed.

Lemma metrics_loop_rows who r ms : ∀ e rows resets, rows_of who rows → rows_of who (metrics_loop who r ms e rows resets).2.1.2.
Proof.
  induction ms as [|m ms IH]; intros e rows resets Hr; cbn [metrics_loop]; [done|].
  destruct (_ && _); [done|]. case_bool_decide.
  { apply IH. destruct Hr as (? & ? & ? & ? & ? & ? & ?). split_and!; try done. cbn. apply Forall_app. by repeat constructor. }
  case_bool_decide; [by apply IH, store_metric_rows|].
  destruct (Delta.batch_Observe _ _ _) as [[pt ev] [e1 bt]].
  assert (rows_of who (put_series (series_key who r m) bt rows)) as Hp by done.
  destruct ev as [ev|]; [by apply IH|]. destruct pt as [pt|]; [by apply IH, store_metric_rows|by apply IH].
Qed.

(** What an instance has collected is its own, and shows no credential. *)
Definition inst_ok (who : Who) (i : Inst) : Prop :=
  rows_of who i.(ib_rows) ∧ Forall text_allowed i.(ib_texts) ∧ Forall event_allowed i.(ib_events) ∧
  Forall (λ r, r.(of_InstanceID) = who.(instUUID) ∧ r.(of_ClusterID) = who.(cidDB)) i.(ib_facts) ∧
  ∀ r, i.(ib_lock) = Some r → r.(ls_InstanceID) = who.(instUUID) ∧ r.(ls_ClusterID) = who.(cidDB) ∧ tree_clean r.(ls_Tree).

Lemma inst_ok_same who i i' : i'.(ib_rows) = i.(ib_rows) → i'.(ib_texts) = i.(ib_texts) → i'.(ib_events) = i.(ib_events) → i'.(ib_facts) = i.(ib_facts) → i'.(ib_lock) = i.(ib_lock) →
  inst_ok who i → inst_ok who i'.
Proof. unfold inst_ok. by intros -> -> -> -> ->. Qed.

Lemma inst_ok_fact who i datname kind key labels value raw ts :
  inst_ok who i → inst_ok who (ib_add_facts [fact_row who datname kind key labels value raw ts] i).
Proof. intros (? & ? & ? & ? & ?). split_and!; try done. cbn. apply Forall_app. by repeat constructor. Qed.

Lemma noted_ok who r i : inst_ok who i → inst_ok who (note_outcome who r (note_partial r (note_prunes who r (note_skip who r i)))).
Proof.
  intros Hi. assert (inst_ok who (note_skip who r i)) as Hs.
  { unfold note_skip. destruct (nonempty _); [by apply inst_ok_fact|]. by destruct (bool_decide _). }
  unfold note_outcome, note_partial, note_prunes.
  repeat match goal with |- context [if ?b then _ else _] => destruct b end; eapply inst_ok_same; try exact Hs; done.
Qed.

Lemma note_fact_ok who r i f : inst_ok who i → keeps_db (note_fact who r i f) (inst_ok who).
Proof.
  intros Hi. pose proof Hi as (? & ? & ? & ? & ?). unfold note_fact.
  destruct (Fact_Validate f); [eapply sat_bind; [apply (db_log P)|intros _ _; by apply sat_ret]|].
  case_bool_decide; [apply sat_ret; split_and!; try done; intros x [= <-]; split_and!; try done; apply withholdLockTreeQueries_clean|].
  case_bool_decide; apply sat_ret; [done|]. by apply inst_ok_fact.
Qed.

Lemma text_row_ok who inst r q x : text_row who inst r q = Some x → text_allowed x.
Proof.
  unfold text_row, text_allowed. destruct (ParseInt _); [|done]. cbn [mbind option_bind]. intros [= <-]. cbn [qt_QueryText].
  destruct (MayHoldCredential q.2) eqn:E; [apply Withheld_clean|done].
Qed.

Lemma event_ok r : bool_decide (r.(ev_Type) ∈ repeated_types) = false → event_allowed r.
Proof. intros E. by apply bool_decide_eq_false in E. Qed.

Lemma reset_events_ok resets tenant c id : Forall event_allowed (counterResetEvents resets tenant c id).
Proof.
  apply Forall_forall. intros e He. apply list_elem_of_omap in He as (d & _ & He). destruct (filter _ resets) as [|first g]; [done|].
  injection He as <-. by apply event_ok.
Qed.

Lemma topology_event_ok tenant c ev : event_allowed (topology_event tenant c ev).
Proof. apply event_ok. by destruct ev as [[] ? ? ?]. Qed.

Lemma process_result_ok who inst i r : inst_ok who i → keeps_db (process_result who inst i r) (λ x, inst_ok who x.2).
Proof.
  intros Hi. apply (noted_ok who r) in Hi. unfold process_result.
  revert Hi. generalize (note_outcome who r (note_partial r (note_prunes who r (note_skip who r i)))). clear i. intros i Hi.
  eapply (sat_bind _ _ _ (inst_ok who)).
  { unfold note_truncation. destruct (res_Truncated r); [|by apply sat_ret]. eapply (sat_bind _ _ _ (λ _, True)).
    - unfold truncationEventDue. destruct (match _ !! _ with Some _ => _ | None => _ end); [by apply sat_ret|].
      eapply sat_bind; [apply (db_query P)|intros ? _; by apply sat_ret].
    - intros due _. destruct due; [|by apply sat_ret]. apply sat_ret. destruct Hi as (? & ? & ? & ? & ?). split_and!; try done. cbn.
      apply Forall_app. split; [done|]. apply Forall_singleton. by apply event_ok. }
  intros i1 Hi1. eapply sat_bind; [by apply (sat_fold _ _ (inst_ok who)); [|intros; by apply note_fact_ok]|].
  intros i2 Hi2. assert (inst_ok who (ib_add_texts (omap (text_row who inst r) (visit r.(res_QueryTexts))) (note_backups who r i2))) as Hi3.
  { assert (inst_ok who (note_backups who r i2)) as (? & ? & ? & ? & ?) by (unfold note_backups; destruct (_ <? _); [by apply inst_ok_fact|done]).
    split_and!; try done. cbn. apply Forall_app. split; [done|]. apply Forall_forall. intros x Hx.
    apply list_elem_of_omap in Hx as (q & _ & Hq). by eapply text_row_ok. }
  eapply sat_bind; [apply sat_gets|]. intros e _.
  match goal with |- context [metrics_loop ?a ?b ?c ?d ?e ?f] => pose proof (metrics_loop_rows a b c d e f) as Hm; destruct (metrics_loop a b c d e f) as [err [[e' rows] rs]] end.
  eapply sat_bind; [by apply sat_puts|]. intros _ _. apply sat_ret. destruct Hi3 as (Hr & ? & ? & ? & ?). split_and!; try done; [by apply Hm|]. cbn.
  apply Forall_app. split; [done|apply reset_events_ok].
Qed.

Lemma process_results_ok who inst rs : ∀ i, inst_ok who i → keeps_db (process_results who inst i rs) (λ x, inst_ok who x.2).
Proof.
  induction rs as [|r rs IH]; intros i Hi; cbn; [by apply sat_ret|]. eapply sat_bind; [by apply process_result_ok|].
  intros [[e|] i'] Hi'; [by apply sat_ret|by apply IH].
Qed.

Lemma db_resolve_edges b inst cid id l : ∀ c, keeps_db (resolve_edges b inst cid id l c) (λ _, True).
Proof.
  induction l as [|we l IH]; intros c; cbn; [by apply sat_ret|]. destruct (negb _); [by apply sat_ret|].
  destruct (_ && _); [eapply sat_bind; [apply (db_log P)|intros _ _; apply IH]|].
  eapply (sat_bind _ _ _ (λ _, True)).
  - unfold resolveAddr. repeat match goal with |- sat _ (match ?x with _ => _ end) _ => destruct x end; try by apply sat_ret.
    all: eapply (sat_bind _ _ _ (λ _, True)); [destruct (nonempty _); [eapply sat_bind; [apply (db_try_query P)|intros ? _; by apply sat_ret]|by apply sat_ret]|].
    all: intros [x|] _; [by apply sat_ret|]. all: eapply sat_bind; [apply (db_try_query P)|].
    all: intros [[|y [|z t]]|] _; by apply sat_ret.
  - intros [found c'] _. eapply sat_bind; [apply IH|]. intros y _. by apply sat_ret.
Qed.

(** ** The rows of an envelope *)

Definition acc_ok (a : Acc) : Prop :=
  Forall sample_known (SMetric <$> a.(genericRows)) ∧ Forall sample_known (SStatement <$> a.(statementRows)) ∧
  Forall sample_known (SASH <$> a.(ashRows)) ∧ Forall sample_known (SReplication <$> a.(replicationRows)) ∧
  Forall sample_known (STable <$> a.(tableRows)) ∧ Forall sample_known (SIndex <$> a.(indexRows)) ∧ Forall sample_known (SBloat <$> a.(bloatRows)) ∧
  Forall text_allowed a.(queryTextRows) ∧ Forall event_allowed a.(eventRows) ∧ Forall fact_known a.(objectFactRows) ∧ Forall lock_allowed a.(lockSnapshotRows).

Lemma visit_Forall {K V} `{Countable K} (Q : V → Prop) (f : V → sample) (m : gmap K V) :
  map_Forall (λ _ x, Q x) m → (∀ x, Q x → sample_known (f x)) → Forall sample_known (f <$> (visit m).*2).
Proof.
  intros Hm Hf. apply Forall_fmap, Forall_forall. intros x Hx. apply list_elem_of_fmap in Hx as ([k y] & -> & Hy).
  rewrite visit_perm in Hy. apply elem_of_map_to_list in Hy. apply Hf, (Hm k), Hy.
Qed.

Lemma self_rows_of env inst tenant c id t : Forall (λ x, x.(mr_InstanceID) = id ∧ x.(mr_ClusterID) = c) (selfMetricRows env inst tenant c id t).
Proof. unfold selfMetricRows. destruct (inst_Results inst); [constructor|]. apply Forall_fmap, Forall_forall. done. Qed.

Lemma join_ok who inst role i self a : known who.(instUUID) who.(cidDB) → inst_ok who i → acc_ok a →
  Forall (λ x, x.(mr_InstanceID) = who.(instUUID) ∧ x.(mr_ClusterID) = who.(cidDB)) self → acc_ok (join who inst role i self a).
Proof.
  intros Hk ((R1 & R2 & R3 & R4 & R5 & R6 & R7) & Ht & He & Hf & Hl) (A1 & A2 & A3 & A4 & A5 & A6 & A7 & A8 & A9 & A10 & A11) Hs.
  assert (∀ {A} (f : A → sample) (i : A → UUID) (c : A → Z) l, (∀ x, sample_instance (f x) = i x ∧ sample_cluster (f x) = c x) →
    Forall (λ x, i x = who.(instUUID) ∧ c x = who.(cidDB)) l → Forall sample_known (f <$> l)) as Hlist.
  { intros A f g c l Hfg Hall. apply Forall_fmap. eapply Forall_impl; [exact Hall|]. intros x [E1 E2]. unfold sample_known, compose. destruct (Hfg x) as [-> ->].
    by rewrite E1, E2. }
  unfold acc_ok, join. cbn. rewrite !fmap_app, !Forall_app. split_and!; try done.
  - by apply (Hlist _ SMetric mr_InstanceID mr_ClusterID).
  - by apply (Hlist _ SMetric mr_InstanceID mr_ClusterID).
  - eapply (visit_Forall _); [exact R3|]. intros x [E1 E2]. unfold sample_known. cbn. by rewrite E1, E2.
  - by apply (Hlist _ SASH ar_InstanceID ar_ClusterID).
  - eapply (visit_Forall _); [exact R4|]. intros x [E1 E2]. unfold sample_known. cbn. by rewrite E1, E2.
  - eapply (visit_Forall _); [exact R5|]. intros x [E1 E2]. unfold sample_known. cbn. by rewrite E1, E2.
  - eapply (visit_Forall _); [exact R6|]. intros x [E1 E2]. unfold sample_known. cbn. by rewrite E1, E2.
  - eapply (visit_Forall _); [exact R7|]. intros x [E1 E2]. unfold sample_known. cbn. by rewrite E1, E2.
  - eapply Forall_impl; [exact Hf|]. intros x [E1 E2]. unfold fact_known. by rewrite E1, E2.
  - destruct (ib_lock i) as [x|]; [|constructor]. apply Forall_singleton. destruct (Hl x eq_refl) as (E1 & E2 & ?). split; [by rewrite E1, E2|done].
Qed.

Lemma settle_partial_ok who a x : known who.(instUUID) who.(cidDB) → acc_ok a → keeps_db (settle_partial who a x) acc_ok.
Proof.
  intros Hk Ha. unfold settle_partial. destruct (_ && _).
  - eapply sat_bind; [by apply db_exec_all; repeat constructor|]. intros _ _. by apply sat_ret.
  - apply sat_ret. destruct Ha as (? & ? & ? & ? & ? & ? & ? & ? & ? & ? & ?). unfold acc_ok, add_facts. cbn. split_and!; try done.
    apply Forall_app. by repeat constructor.
Qed.

Lemma process_instance_ok b env a inst : (∀ cid id, identity inst = Some (cid, id) → known id (ToDB cid)) → acc_ok a →
  keeps_db (process_instance b env a inst) acc_ok.
Proof.
  intros Hk Ha. unfold process_instance, identity in *. destruct (ParseClusterID _) as [cid|]; [|by apply sat_ret].
  destruct (uuid_Parse _) as [id|]; [|by apply sat_ret]. specialize (Hk cid id eq_refl).
  eapply sat_bind; [apply (db_query P)|]. intros prior _. eapply sat_bind; [apply sat_gets|]. intros mark _.
  eapply sat_bind; [apply db_resolve_edges|]. intros [edges cache] _. eapply (sat_bind _ _ _ (λ _, True)).
  { unfold apply_topology. eapply sat_bind; [apply (db_now P)|]. intros t _. eapply sat_bind; [apply sat_gets|]. intros e _.
    eapply sat_bind; [apply sat_gets|]. intros us _. destruct (Topology.ApplyUndoable _ _ _) as [[[evs e'] [b' w']]|]; [|apply sat_raise].
    eapply sat_bind; [by apply sat_puts|]. intros _ _. by apply sat_ret. }
  intros evs _. eapply sat_bind; [apply process_results_ok; split_and!; try by repeat constructor|].
  { apply Forall_fmap, Forall_forall. intros ev _. apply topology_event_ok. }
  intros [[err|] i] Hi.
  { eapply sat_bind; [by apply sat_puts|]. intros _ _. by apply sat_ret. }
  eapply sat_bind; [apply db_exec_all; constructor; [done|]; apply Forall_fmap, Forall_forall; done|]. intros _ _.
  eapply sat_bind; [apply (db_now P)|]. intros t _. eapply sat_bind.
  { apply db_exec_all, Forall_forall. intros s Hs. apply list_elem_of_bind in Hs as (c & Hs & _). by apply list_elem_of_singleton in Hs as ->. }
  intros _ _. apply sat_fold; [|intros; by apply settle_partial_ok].
  apply join_ok; [done|done|done|apply self_rows_of].
Qed.

Lemma write_rows_ok a : acc_ok a → keeps_db (write_rows a) (λ _, True).
Proof.
  intros (A1 & A2 & A3 & A4 & A5 & A6 & A7 & Ht & He & Hf & Hl). rewrite Forall_forall in He. rewrite Forall_fmap, Forall_forall in A5.
  rewrite Forall_fmap, Forall_forall in A6. rewrite Forall_fmap, Forall_forall in A7. rewrite Forall_forall in Ht. rewrite Forall_forall in Hf. rewrite Forall_forall in Hl. unfold write_rows.
  repeat (eapply sat_bind; [|intros _ _]).
  - by apply db_exec_map.
  - destruct (storedInstances a); apply db_exec_all; by repeat constructor.
  - unfold WriteMetrics. destruct (genericRows a); [by apply db_exec_all|by apply db_exec_bulk].
  - unfold WriteStatements. destruct (statementRows a); [by apply db_exec_all|by apply db_exec_bulk].
  - unfold WriteASH. destruct (ashRows a); [by apply db_exec_all|by apply db_exec_bulk].
  - unfold WriteReplication. destruct (replicationRows a) as [|x l]; [by apply db_exec_all|]. apply db_exec_bulk.
    rewrite Forall_fmap in *. apply Forall_fmap. exact A4.
  - apply db_exec_map. exact Ht.
  - apply db_exec_map. exact He.
  - apply db_exec_map. exact Hf.
  - apply db_exec_all, Forall_forall. intros s Hs. apply list_elem_of_bind in Hs as (p & Hs & _). by apply list_elem_of_singleton in Hs as ->.
  - apply db_exec_all, Forall_forall. intros s Hs. apply list_elem_of_bind in Hs as (r & Hs & Hr).
    apply elem_of_cons in Hs as [->|Hs]; [done|]. apply list_elem_of_singleton in Hs as ->. by apply Hl.
  - apply (sat_fold _ _ (λ _, True)); [done|]. intros _ p _. unfold prune_relations, PruneRelationStats.
    case_bool_decide; [by apply db_exec_all; repeat constructor|apply sat_raise].
  - apply db_exec_map. exact A5.
  - apply db_exec_map. exact A6.
  - apply db_exec_map. exact A7.
Qed.

(** Processing an envelope of known instances keeps every property of the store that the
    allowed statements keep, however the calls are answered. *)
Lemma Process_keeps env : (∀ inst cid id, inst ∈ env.(env_Instances) → identity inst = Some (cid, id) → known id (ToDB cid)) →
  keeps_db (Process env) (λ _, True).
Proof.
  intros Hk. unfold Process. eapply sat_bind.
  { unfold maybeEvict. eapply sat_bind; [apply (db_now P)|]. intros t _. apply sat_puts. intros x Hx. unfold evict. by destruct (_ <? _). }
  intros _ _. eapply sat_bind; [by apply sat_puts|]. intros _ _. eapply (sat_bind _ _ _ (λ _, True)).
  - apply (db_on_error P); [done|]. apply (db_in_transaction P). unfold body. eapply (sat_bind _ _ _ acc_ok).
    + assert (acc_ok new_acc) as Ha by (by repeat constructor). revert Hk Ha. generalize new_acc. generalize (address_book env).
      induction (env_Instances env) as [|inst l IH]; intros b a Hk Ha; cbn; [by apply sat_ret|].
      eapply sat_bind; [apply process_instance_ok; [|done]; intros; eapply Hk; [by left|done]|].
      intros a' Ha'. apply IH; [|done]. intros inst' cid id Hin. apply Hk. by right.
    + intros a Ha. eapply sat_bind; [by apply write_rows_ok|]. intros _ _. by apply sat_ret.
  - intros a _. intros x Hx. rewrite committed_run. split; done.
Qed.
End issued.

(** ** No credential reaches the store *)

Section credentials.
Context `{FloatOverflow, UnicodeLower, RangeOrder, !RangeOrderLaws, UuidText, UuidParse, JsonCodec, !JsonLaws, Jsonb, ServerEnv}.

(** No stored statement text shows a credential, and no lock tree holds one that does. *)
Definition db_clean (d : DB) : Prop :=
  map_Forall (λ _ t, MayHoldCredential t.(t_text) = false) d.(query_texts) ∧ map_Forall (λ _ r, tree_clean r.(ls_Tree)) d.(lock_snapshots).

Lemma apply_stmt_clean t s d d' : allowed (λ _ _, True) s → db_clean d → apply_stmt t s d = inr d' → db_clean d'.
Proof.
  intros Hs [Ht Hl] E.
  assert (d'.(query_texts) = d.(query_texts) → d'.(lock_snapshots) = d.(lock_snapshots) → db_clean d') as Hsame.
  { intros E1 E2. split; by rewrite ?E1, ?E2. }
  destruct s; cbn [apply_stmt] in E; try done; try (repeat case_match; simplify_eq; by apply Hsame).
  - injection E as <-. split; [|done]. cbn. intros k x Hx. apply lookup_partial_alter_Some in Hx as [(<- & Hx)|[_ Hx]]; [|by apply (Ht k)].
    injection Hx as <-. destruct (d.(query_texts) !! _) as [o|] eqn:Eo; [by apply (Ht _ _ Eo)|exact Hs].
  - injection E as <-. split; [done|]. cbn. intros k x [Hx _]%map_lookup_filter_Some. by apply (Hl k).
  - injection E as <-. split; [done|]. cbn. destruct Hs as [_ Hs]. intros k x Hx. apply lookup_partial_alter_Some in Hx as [(<- & Hx)|[_ Hx]]; [|by apply (Hl k)].
    injection Hx as <-. destruct (d.(lock_snapshots) !! _) as [o|] eqn:Eo; [destruct (After _ _); [exact Hs|by apply (Hl _ _ Eo)]|exact Hs].
Qed.

End credentials.

(** ** What every statement of a push keeps *)

(** No instance leaves, changes its cluster or its owner; no cluster leaves, and none that
    was known by its system identifier is known by name again; no agent leaves and no
    revocation ends. *)
Record identity_kept (d d' : DB) : Prop := {
  ik_instances : ∀ id r, d.(instances) !! id = Some r → ∃ r', d'.(instances) !! id = Some r' ∧
    r'.(i_tenant) = r.(i_tenant) ∧ r'.(i_cluster) = r.(i_cluster) ∧ r'.(i_agent) = r.(i_agent);
  ik_clusters : ∀ k s, d.(clusters) !! k = Some s → ∃ s', d'.(clusters) !! k = Some s' ∧ (s = IDSourceSystemIdentifier → s' = s);
  ik_agents : ∀ a x, d.(agents) !! a = Some x → d'.(agents) !! a = Some x;
}.

#[export] Instance identity_kept_preorder : PreOrder identity_kept.
Proof.
  split.
  - intros d. split; eauto 8.
  - intros d1 d2 d3 [I1 C1 A1] [I2 C2 A2]. split.
    + intros id r Hr. destruct (I1 id r Hr) as (r1 & H1 & E1 & E2 & E3). destruct (I2 id r1 H1) as (r2 & H2 & F1 & F2 & F3). exists r2. split_and!; congruence.
    + intros k s Hs. destruct (C1 k s Hs) as (s1 & H1 & E1). destruct (C2 k s1 H1) as (s2 & H2 & E2). exists s2. split; [done|]. intros Hsys.
      pose proof (E1 Hsys). subst s1. by apply E2.
    + eauto.
Qed.

Lemma identity_kept_same d d' : d'.(instances) = d.(instances) → d'.(clusters) = d.(clusters) → d'.(agents) = d.(agents) → identity_kept d d'.
Proof. intros E1 E2 E3. split; rewrite ?E1, ?E2, ?E3; eauto 8. Qed.

Lemma alter_kept (f : InstanceRow → InstanceRow) id d :
  (∀ r, (f r).(i_tenant) = r.(i_tenant) ∧ (f r).(i_cluster) = r.(i_cluster) ∧ (f r).(i_agent) = r.(i_agent)) →
  identity_kept d (set_instances (alter f id d.(instances)) d).
Proof.
  intros Hf. split; [|cbn; eauto..]. cbn. intros j r Hr. destruct (decide (id = j)) as [->|Hj].
  - exists (f r). by rewrite lookup_alter_eq, Hr.
  - exists r. by rewrite lookup_alter_ne.
Qed.

(** What the inventory may execute. *)
Definition attempt_key (typ : string) : string := if bool_decide (typ = "cluster_id_changed") then "attempted_cluster_id" else "attempted_source".

Definition inv_allowed (s : stmt) : Prop :=
  match s with
  | InsertCluster _ _ _ | InsertAgent _ | UpdateInstance _ _ | UpsertDatabase _ _ _ _ | DeleteDatabases _ _ => True
  | SetSource _ _ source => source = IDSourceSystemIdentifier
  | InsertInstance id r => id ≠ uuid_Nil ∧ r.(i_agent) ≠ uuid_Nil
  | InsertEvent r => r.(ev_Type) ∉ repeated_types
  | InsertRepeatable r since key attempted =>
      r.(ev_Type) ∈ repeated_types ∧ since = Add r.(ev_TS) (- repeatedEventWindow) ∧ key = attempt_key r.(ev_Type) ∧ payload_text key r.(ev_Payload) = Some attempted
  | _ => False
  end.

Section statements.
Context `{RangeOrder, !RangeOrderLaws, JsonCodec, Jsonb}.

Lemma stmt_identity known t s d d' : allowed known s ∨ inv_allowed s → apply_stmt t s d = inr d' → identity_kept d d'.
Proof.
  intros Hs E. destruct s; cbn [apply_stmt] in E; try (repeat case_match; simplify_eq; by apply identity_kept_same).
  - injection E as <-. by apply alter_kept.
  - injection E as <-. destruct Hs as [_|[]]. induction ids as [|id ids IH]; cbn; [by apply identity_kept_same|].
    etrans; [exact IH|]. exact (alter_kept (set_last_seen t) id (set_instances (foldr (alter (set_last_seen t)) (instances d) ids) d) ltac:(done)).
  - destruct (negb _); [done|]. injection E as <-. split; [cbn; eauto 8| |cbn; eauto]. cbn. intros k s Hk. unfold insert_new.
    destruct (clusters d !! (tenant, cluster)) eqn:Ec; [by eauto|]. exists s. rewrite lookup_insert_ne; [by eauto|]. intros <-. congruence.
  - destruct (negb _); [done|]. injection E as <-. destruct Hs as [[]|Hs]. cbn in Hs. subst source. split; [cbn; eauto 8| |cbn; eauto].
    cbn. intros k s Hk. destruct (decide ((tenant, cluster) = k)) as [<-|Hne].
    + eexists. rewrite lookup_alter_eq, Hk. by split.
    + exists s. by rewrite lookup_alter_ne.
  - injection E as <-. split; [cbn; eauto 8|cbn; eauto|]. cbn. intros a x Ha. unfold insert_new. destruct (agents d !! agent) eqn:Ea; [done|].
    rewrite lookup_insert_ne; [done|]. intros <-. congruence.
  - injection E as <-. by apply alter_kept.
  - destruct (instances d !! instance) as [old|] eqn:Eo.
    + injection E as <-. split; [|cbn; eauto..]. cbn. intros j x Hj. destruct (decide (instance = j)) as [<-|Hne].
      * rewrite lookup_insert_eq. eexists. split; [done|]. rewrite Eo in Hj. by injection Hj as <-.
      * exists x. by rewrite lookup_insert_ne.
    + destruct (agents d !! i_agent r); [|done]. destruct (clusters d !! (i_tenant r, i_cluster r)); [|done]. injection E as <-. split; [|cbn; eauto..]. cbn. intros j x Hj.
      exists x. rewrite lookup_insert_ne; [done|]. intros <-. congruence.
Qed.
End statements.

(** ** The store over any history of pushes *)

(** The instance is registered under the cluster. *)
Definition at_home (d : DB) (id : UUID) (c : Z) : Prop := ∃ r, d.(instances) !! id = Some r ∧ r.(i_cluster) = c.

Definition attempted (e : EventRow) : option string := payload_text (attempt_key e.(ev_Type)) e.(ev_Payload).

(** Two reports of the same refusal. *)
Definition same_report (e e' : EventRow) : Prop :=
  e.(ev_Type) = e'.(ev_Type) ∧ e.(ev_Type) ∈ repeated_types ∧ e.(ev_TenantID) = e'.(ev_TenantID) ∧ e.(ev_ClusterID) = e'.(ev_ClusterID) ∧
  e.(ev_InstanceID) = e'.(ev_InstanceID) ∧ attempted e = attempted e'.

(** They are a day apart. *)
Definition spaced (l : list EventRow) : Prop :=
  ∀ i j e e', (i < j)%nat → l !! i = Some e → l !! j = Some e' → same_report e e' → e.(ev_TS) + repeatedEventWindow ≤ e'.(ev_TS).

(** What holds of a store that only pushes have written. *)
Record store_ok `{JsonCodec} (d : DB) : Prop := {
  ok_samples : map_Forall (λ _ s, at_home d (sample_instance s) (sample_cluster s)) d.(samples);
  ok_temps : map_Forall (λ _ l, Forall (λ s, at_home d (sample_instance s) (sample_cluster s)) l) d.(temps);
  ok_facts : map_Forall (λ _ r, at_home d r.(of_InstanceID) r.(of_ClusterID)) d.(object_facts);
  ok_locks : map_Forall (λ _ r, at_home d r.(ls_InstanceID) r.(ls_ClusterID)) d.(lock_snapshots);
  ok_owners : map_Forall (λ id r, id ≠ uuid_Nil ∧ r.(i_agent) ≠ uuid_Nil ∧ is_Some (d.(agents) !! r.(i_agent)) ∧
    is_Some (d.(clusters) !! (r.(i_tenant), r.(i_cluster)))) d.(instances);
  ok_databases : map_Forall (λ k _, is_Some (d.(instances) !! k.1)) d.(databases);
  ok_events : spaced d.(events);
  ok_clean : db_clean d;
}.

Lemma at_home_kept d d' id c : identity_kept d d' → at_home d id c → at_home d' id c.
Proof. intros Hk (r & Hr & <-). destruct (ik_instances _ _ Hk id r Hr) as (r' & Hr' & _ & Hc & _). by exists r'. Qed.

Lemma spaced_app l e : spaced l → (∀ e', e' ∈ l → same_report e' e → e'.(ev_TS) + repeatedEventWindow ≤ e.(ev_TS)) → spaced (l ++ [e]).
Proof.
  intros Hl He i j x y Hij Hi Hj Hr. apply lookup_app_Some in Hj as [Hj|[Hlen Hj]].
  - apply lookup_lt_Some in Hj as Hlt. rewrite lookup_app_l in Hi by lia. by apply (Hl i j).
  - apply list_lookup_singleton_Some in Hj as [Hz <-]. assert (i < length l)%nat as Hlt by lia. rewrite lookup_app_l in Hi by done.
    apply He; [|done]. by eapply list_elem_of_lookup_2.
Qed.

Lemma empty_store_ok `{JsonCodec} : store_ok empty_store.
Proof. split; try apply map_Forall_empty; [by intros i j e e' _ Hi|split; apply map_Forall_empty]. Qed.

Section store.
Context `{RangeOrder, !RangeOrderLaws, JsonCodec, !JsonLaws, Jsonb}.

Lemma stmt_allowed_mono (known known' : UUID → Z → Prop) s : (∀ i c, known i c → known' i c) → allowed known s → allowed known' s.
Proof.
  intros Hk. destruct s; cbn; try done.
  - apply Hk.
  - intros Hr. eapply Forall_impl; [exact Hr|]. intros x. apply Hk.
  - apply Hk.
  - intros [? ?]. split; [by apply Hk|done].
Qed.

Lemma step_clean known t s d d' : allowed known s ∨ inv_allowed s → db_clean d → apply_stmt t s d = inr d' → db_clean d'.
Proof.
  intros [Hs|Hs] Hd E; [by eapply (apply_stmt_clean t s); [eapply stmt_allowed_mono; [|exact Hs]|..]|].
  destruct Hd as [Ht Hl]. destruct s; try done; cbn [apply_stmt] in E; repeat case_match; simplify_eq; by split.
Qed.

(** The owners of the rows, when each row is an old one or has its owner. *)
Lemma owners_step d d' : identity_kept d d' → store_ok d →
  (∀ id r, d'.(instances) !! id = Some r → (∃ o, d.(instances) !! id = Some o ∧ o.(i_tenant) = r.(i_tenant) ∧ o.(i_cluster) = r.(i_cluster) ∧ o.(i_agent) = r.(i_agent)) ∨
    (id ≠ uuid_Nil ∧ r.(i_agent) ≠ uuid_Nil ∧ is_Some (d'.(agents) !! r.(i_agent)) ∧ is_Some (d'.(clusters) !! (r.(i_tenant), r.(i_cluster))))) →
  map_Forall (λ id r, id ≠ uuid_Nil ∧ r.(i_agent) ≠ uuid_Nil ∧ is_Some (d'.(agents) !! r.(i_agent)) ∧
    is_Some (d'.(clusters) !! (r.(i_tenant), r.(i_cluster)))) d'.(instances).
Proof.
  intros Hk Hd Hr id r Hi. destruct (Hr id r Hi) as [(o & Ho & E1 & E2 & E3)|Hn]; [|done].
  destruct (ok_owners _ Hd id o Ho) as (? & ? & [x Hx] & [c Hc]). rewrite <- E1, <- E2, <- E3. split_and!; try done.
  - rewrite (ik_agents _ _ Hk _ _ Hx). by eexists.
  - destruct (ik_clusters _ _ Hk _ _ Hc) as (s' & -> & _). by eexists.
Qed.

Lemma rows_step t s d d' id r : apply_stmt t s d = inr d' → inv_allowed s ∨ (∃ known, allowed known s) → d'.(instances) !! id = Some r →
  (∃ o, d.(instances) !! id = Some o ∧ o.(i_tenant) = r.(i_tenant) ∧ o.(i_cluster) = r.(i_cluster) ∧ o.(i_agent) = r.(i_agent)) ∨
  (id ≠ uuid_Nil ∧ r.(i_agent) ≠ uuid_Nil ∧ is_Some (d'.(agents) !! r.(i_agent)) ∧ is_Some (d'.(clusters) !! (r.(i_tenant), r.(i_cluster)))).
Proof.
  intros E Hs Hr.
  assert (d'.(instances) = d.(instances) → ∃ o, d.(instances) !! id = Some o ∧ o.(i_tenant) = r.(i_tenant) ∧ o.(i_cluster) = r.(i_cluster) ∧ o.(i_agent) = r.(i_agent)) as Hsame.
  { intros Ei. exists r. by rewrite <- Ei. }
  assert (∀ f j (m : gmap UUID InstanceRow), (∀ x, (f x).(i_tenant) = x.(i_tenant) ∧ (f x).(i_cluster) = x.(i_cluster) ∧ (f x).(i_agent) = x.(i_agent)) → alter f j m !! id = Some r →
    ∃ o, m !! id = Some o ∧ o.(i_tenant) = r.(i_tenant) ∧ o.(i_cluster) = r.(i_cluster) ∧ o.(i_agent) = r.(i_agent)) as Halter.
  { intros f j m Hf Hl. apply lookup_alter_Some in Hl as [(-> & o & Ho & ->)|[_ Ho]]; [|by eauto]. exists o. destruct (Hf o) as (-> & -> & ->). by split_and!. }
  destruct s; cbn [apply_stmt] in E; try (left; repeat case_match; simplify_eq; by apply Hsame).
  - injection E as <-. left. by apply (Halter (set_role role) instance).
  - injection E as <-. left. cbn in Hr. clear Hs Hsame. revert r Hr Halter. induction ids as [|j ids IH]; intros r Hr Halter; cbn in Hr; [by eauto|].
    destruct (Halter (set_last_seen t) j _ ltac:(done) Hr) as (o & Ho & E1 & E2 & E3). rewrite <- E1, <- E2, <- E3. apply IH; [done|].
    intros f i m Hf Hl. apply lookup_alter_Some in Hl as [(-> & x & Hx & ->)|[_ Hx]]; [|by eauto]. exists x. destruct (Hf x) as (-> & -> & ->). by split_and!.
  - injection E as <-. left. by apply (Halter (refresh_instance r0) instance).
  - destruct Hs as [[Hn Ha]|[known []]]. destruct (instances d !! instance) as [old|] eqn:Eo.
    + injection E as <-. left. cbn in Hr. apply lookup_insert_Some in Hr as [[<- <-]|[_ Hr]]; [exists old; by split_and!|by eauto].
    + destruct (agents d !! i_agent r0) eqn:Ea; [|done]. destruct (clusters d !! (i_tenant r0, i_cluster r0)) eqn:Ec; [|done]. injection E as <-.
      cbn in Hr |- *. apply lookup_insert_Some in Hr as [[<- <-]|[_ Hr]]; [right; cbn; rewrite Ea, Ec; by eauto|left; by eauto].
Qed.

Lemma events_step known t s d d' : allowed known s ∨ inv_allowed s → spaced d.(events) → apply_stmt t s d = inr d' → spaced d'.(events).
Proof.
  intros Hs Hd E. destruct s; cbn [apply_stmt] in E; try (repeat case_match; simplify_eq; exact Hd).
  - injection E as <-. cbn. apply spaced_app; [done|]. intros e' _ (Et & Hin & _). rewrite Et in Hin. destruct Hs as [Hs|Hs]; by destruct Hs.
  - destruct (existsb _ _) eqn:Ex; injection E as <-; [done|]. cbn. apply spaced_app; [done|]. intros e' He (Et & _ & E1 & E2 & E3 & E4).
    destruct Hs as [[]|(Hrep & -> & -> & Hatt)]. apply Z.nlt_ge. intros Hlt. apply not_true_iff_false in Ex. apply Ex.
    apply existsb_exists. exists e'. split; [by apply list_elem_of_In|].
    unfold attempted in E4. rewrite Et in E4. rewrite E1, E2, E3, Et, E4, Hatt, !bool_decide_eq_true_2 by done.
    unfold After, Add. cbn. rewrite andb_true_r. apply Z.ltb_lt. lia.
Qed.

Lemma insert_sample_Forall (Q : sample → Prop) m x : map_Forall (λ _ s, Q s) m → Q x → map_Forall (λ _ s, Q s) (insert_sample m x).
Proof. intros Hm Hx. unfold insert_sample, insert_new. destruct (m !! dedup x); [done|]. by apply map_Forall_insert_2. Qed.

(** The tables whose rows belong to an instance. *)
Lemma homes_step known t s d d' : (∀ i c, known i c → at_home d i c) → allowed known s ∨ inv_allowed s → store_ok d → apply_stmt t s d = inr d' →
  map_Forall (λ _ s, at_home d (sample_instance s) (sample_cluster s)) d'.(samples) ∧
  map_Forall (λ _ l, Forall (λ s, at_home d (sample_instance s) (sample_cluster s)) l) d'.(temps) ∧
  map_Forall (λ _ r, at_home d r.(of_InstanceID) r.(of_ClusterID)) d'.(object_facts) ∧
  map_Forall (λ _ r, at_home d r.(ls_InstanceID) r.(ls_ClusterID)) d'.(lock_snapshots).
Proof.
  intros Hk Hs [S T F L _ _ _ _] E. set (home s := at_home d (sample_instance s) (sample_cluster s)).
  destruct s; cbn [apply_stmt] in E; try (repeat case_match; simplify_eq; by split_and!).
  - destruct (sample_ok s); [|done]. injection E as <-. destruct Hs as [Hs|[]]. split_and!; try done. cbn.
    apply (insert_sample_Forall home); [done|by apply Hk].
  - destruct (temps d !! table) eqn:Et; [done|]. injection E as <-. split_and!; try done. cbn. apply map_Forall_insert_2; [constructor|done].
  - destruct (temps d !! table) as [l|] eqn:Et; [|done]. injection E as <-. destruct Hs as [Hs|[]]. split_and!; try done. cbn.
    apply map_Forall_insert_2; [|done]. apply Forall_app. split; [by apply (T _ _ Et)|]. eapply Forall_impl; [exact Hs|]. intros x. apply Hk.
  - destruct (temps d !! table) as [l|] eqn:Et; [|done]. destruct (forallb _ _); [|done]. injection E as <-. split_and!; try done. cbn.
    pose proof (T _ _ Et) as Hl. cbn in Hl. clear -S Hl. revert S. generalize (samples d). induction Hl as [|x l Hx _ IH]; intros m Hm; cbn; [done|].
    apply IH. by apply (insert_sample_Forall home).
  - injection E as <-. split_and!; try done. cbn. intros k x [_ Hx]%lookup_delete_Some. by apply (T k).
  - injection E as <-. split_and!; try done. cbn. intros k x [Hx _]%map_lookup_filter_Some. by apply (S k).
  - injection E as <-. destruct Hs as [Hs|[]]. split_and!; try done. cbn. apply map_Forall_insert_2; [|done]. unfold upsert_fact.
    destruct (object_facts d !! _) as [o|] eqn:Eo; [exact (F _ _ Eo)|by apply Hk].
  - injection E as <-. split_and!; try done. cbn. intros k x [Hx _]%map_lookup_filter_Some. by apply (F k).
  - injection E as <-. split_and!; try done. cbn. intros k x [Hx _]%map_lookup_filter_Some. by apply (F k).
  - injection E as <-. split_and!; try done. cbn. intros k x [Hx _]%map_lookup_filter_Some. by apply (F k).
  - injection E as <-. split_and!; try done. cbn. intros k x [Hx _]%map_lookup_filter_Some. by apply (L k).
  - injection E as <-. destruct Hs as [[Hs _]|[]]. split_and!; try done. cbn. intros k x Hx.
    apply lookup_partial_alter_Some in Hx as [(<- & Hx)|[_ Hx]]; [|by apply (L k)]. injection Hx as <-.
    destruct (d.(lock_snapshots) !! _) as [o|] eqn:Eo; [destruct (After _ _); [by apply Hk|by apply (L _ _ Eo)]|by apply Hk].
Qed.

Lemma databases_step t s d d' : identity_kept d d' → store_ok d → apply_stmt t s d = inr d' → map_Forall (λ k _, is_Some (d'.(instances) !! k.1)) d'.(databases).
Proof.
  intros Hk Hd E.
  assert (∀ id, is_Some (d.(instances) !! id) → is_Some (d'.(instances) !! id)) as Hi.
  { intros id [r Hr]. destruct (ik_instances _ _ Hk id r Hr) as (r' & -> & _). by eexists. }
  assert (∀ k x, d'.(databases) !! k = Some x → is_Some (d.(databases) !! k) ∨ is_Some (d.(instances) !! k.1)) as Hdb.
  { intros k x Hx. destruct s; cbn [apply_stmt] in E; try (left; repeat case_match; simplify_eq; by eexists).
    - destruct (instances d !! instance) as [r|] eqn:Er; [|done]. injection E as <-. cbn in Hx.
      apply lookup_insert_Some in Hx as [[<- _]|[_ Hx]]; [right; cbn; rewrite Er; by eexists|left; by eexists].
    - injection E as <-. apply map_lookup_filter_Some in Hx as [Hx _]. left. by eexists. }
  intros k x Hx. apply Hi. destruct (Hdb k x Hx) as [[y Hy]|Hr]; [exact (ok_databases _ Hd k y Hy)|done].
Qed.

Lemma store_step known t s d d' : (∀ i c, known i c → at_home d i c) → allowed known s ∨ inv_allowed s → store_ok d → apply_stmt t s d = inr d' →
  store_ok d' ∧ identity_kept d d'.
Proof.
  intros Hk Hs Hd E. pose proof (stmt_identity known t s d d' Hs E) as Hid. split; [|done].
  destruct (homes_step known t s d d' Hk Hs Hd E) as (S' & T' & F' & L').
  assert (∀ i c, at_home d i c → at_home d' i c) as Hh by (intros; by eapply at_home_kept).
  split.
  - intros k x Hx. apply Hh. exact (S' k x Hx).
  - intros k l Hl. eapply Forall_impl; [exact (T' k l Hl)|]. intros x. apply Hh.
  - intros k x Hx. apply Hh. exact (F' k x Hx).
  - intros k x Hx. apply Hh. exact (L' k x Hx).
  - apply (owners_step d); [done|done|]. intros id r Hr. eapply rows_step; [exact E|destruct Hs; [right; by eexists|by left]|done].
  - by eapply databases_step.
  - eapply events_step; [exact Hs|apply Hd|exact E].
  - eapply step_clean; [exact Hs|apply Hd|exact E].
Qed.
End store.

(** ** The inventory's statements *)

Section inventory.
Context `{RangeOrder, UuidText, UuidParse, Jsonb, ServerEnv}.
Context (P : DB → Prop) (HI : ∀ t s d d', inv_allowed s → P d → apply_stmt t s d = inr d' → P d').

Abbreviation keeps_inv := (sat (λ w : World, P w.(w_db))).

Lemma inv_exec s : inv_allowed s → keeps_inv (exec s) (λ _, True).
Proof. intros Hs. apply (db_exec P). intros t d d'. by apply HI. Qed.

Lemma inv_emitRepeatable typ c id p key att : typ ∈ repeated_types → key = attempt_key typ → payload_text key p = Some att →
  keeps_inv (emitRepeatable typ c id p key att) (λ _, True).
Proof. intros Ht Hk Hp. eapply sat_bind; [apply (db_now P)|]. intros ts _. by apply inv_exec. Qed.

Lemma inv_upsertCluster c cstr src id : keeps_inv (upsertCluster c cstr src id) (λ _, True).
Proof.
  eapply sat_bind; [apply (db_query P)|]. intros [existing|] _; [|by apply inv_exec].
  match goal with |- sat _ (if ?b then _ else _) _ => destruct b end; [apply inv_emitRepeatable; [set_solver|done|done]|].
  match goal with |- sat _ (if ?b then _ else _) _ => destruct b eqn:Es end; [|by apply sat_ret].
  - apply andb_true_iff in Es as [_ Es]. apply bool_decide_eq_true in Es. rewrite Es. by apply inv_exec.
Qed.

Lemma inv_checkDuplicate c inst id : keeps_inv (checkDuplicateInstance c inst id) (λ _, True).
Proof.
  eapply sat_bind; [apply sat_gets|]. intros t _. eapply sat_bind; [apply (db_query P)|]. intros [|i ids] _; [by apply sat_ret|].
  eapply sat_bind; [apply (db_now P)|]. intros ts _. apply inv_exec. cbn. unfold repeated_types. set_solver.
Qed.

Lemma inv_register agentID inst cid id known : id ≠ uuid_Nil → (known = false → agentID ≠ uuid_Nil) → keeps_inv (register agentID inst cid id known) (λ _, True).
Proof.
  intros Hn Ha. unfold register. eapply sat_bind; [apply inv_upsertCluster|]. intros _ _. eapply (sat_bind _ _ _ (λ _, True)).
  - destruct known; [by apply inv_exec|]. eapply sat_bind; [apply inv_checkDuplicate|]. intros _ _. eapply sat_bind; [by apply inv_exec|].
    intros _ _. apply inv_exec. by split; [|apply Ha].
  - intros _ _. apply (db_exec_each P). unfold database_stmts. apply Forall_app. split.
    + apply Forall_fmap, Forall_forall. intros db _ t d d'. by apply HI.
    + destruct (inst_Databases inst); [constructor|]. apply Forall_singleton. intros t d d'. by apply HI.
Qed.

Lemma inv_upsertInstance agentID inst : keeps_inv (upsertInstance agentID inst) (λ _, True).
Proof.
  apply (db_in_transaction P). unfold upsertOne. destruct (ParseClusterID _) as [cid|]; [|by apply sat_ret].
  destruct (uuid_Parse _) as [id|]; [|by apply sat_ret]. case_bool_decide as Hn; [by apply sat_ret|].
  eapply sat_bind; [apply (db_query P)|]. intros [existing|] _.
  - destruct (negb _).
    + eapply sat_bind; [apply inv_emitRepeatable; [set_solver|done|done]|]. intros _ _. by apply sat_ret.
    + eapply sat_bind; [by apply inv_register|]. intros _ _. by apply sat_ret.
  - case_bool_decide as Ha; [by apply sat_ret|]. eapply sat_bind; [by apply inv_register|]. intros _ _. by apply sat_ret.
Qed.

Lemma inv_attempt {A} (m : PM A) (Q : A → Prop) : keeps_inv m Q → keeps_inv (attempt m) (λ _, True).
Proof. intros Hm w Hw. unfold attempt. destruct (Hm w Hw) as [Hp _]. by destruct (m w). Qed.

Lemma inv_upsert_step agentID res inst : keeps_inv (upsert_step agentID res inst) (λ _, True).
Proof.
  eapply sat_bind; [eapply inv_attempt, inv_upsertInstance|]. intros [f|[r|]] _; [|by apply sat_ret..].
  destruct (storeFailure f); [apply sat_raise|by apply sat_ret].
Qed.

Lemma inv_Upsert env : keeps_inv (Upsert env) (λ _, True).
Proof. apply (sat_fold _ _ (λ _, True)); [done|]. intros res inst _. apply inv_upsert_step. Qed.
End inventory.

(** ** The handler *)

Section handler.
Context `{FloatOverflow, UnicodeLower, RangeOrder, !RangeOrderLaws, UuidText, UuidParse, JsonCodec, !JsonLaws, Jsonb, BodyCodec, ServerEnv}.

Lemma upsert_step_kept agentID res inst w : identity_kept w.(w_db) (upsert_step agentID res inst w).2.(w_db).
Proof.
  apply (inv_upsert_step (λ d, identity_kept (w_db w) d)); [|reflexivity].
  intros t s d d' Hs Hd E. etrans; [exact Hd|]. by apply (stmt_identity (λ _ _, False) t s); [right|].
Qed.

(** An instance the inventory did not refuse is registered under its cluster. *)
Lemma Upsert_homes agentID l : ∀ res w res' w', fold_in (upsert_step agentID) res l w = (inr res', w') →
  identity_kept w.(w_db) w'.(w_db) ∧ (∀ s, res'.(ur_Errors) !! s = None → res.(ur_Errors) !! s = None) ∧
  ∀ inst cid id, inst ∈ l → res'.(ur_Errors) !! inst.(inst_InstanceID) = None → identity inst = Some (cid, id) → at_home w'.(w_db) id (ToDB cid).
Proof.
  induction l as [|inst l IH]; intros res w res' w' E; cbn in E.
  { injection E as <- <-. split_and!; [done|done|]. by intros ? ? ? ?%elem_of_nil. }
  step_bind E res1 w1 E1. apply IH in E as (Hk & He & Hh). pose proof (upsert_step_kept agentID res inst w) as Hk1. rewrite E1 in Hk1. cbn in Hk1.
  unfold upsert_step, attempt in E1. unfold mbind, EST_bind in E1. pose proof (upsertInstance_spec agentID inst w) as Hspec.
  destruct (upsertInstance agentID inst w) as [[f|[rej|]] w2]; cbn in E1, Hspec.
  - destruct (storeFailure f) as [f'|code]; [done|]. injection E1 as <- <-. split_and!; [by etrans| |].
    + intros s Hs. apply He in Hs. cbn in Hs. by apply lookup_insert_None in Hs as [? _].
    + intros x cid id [->|Hx]%elem_of_cons Hn Hi; [|by eapply Hh]. apply He in Hn. cbn in Hn. by rewrite lookup_insert_eq in Hn.
  - injection E1 as <- <-. split_and!; [by etrans| |].
    + intros s Hs. apply He in Hs. cbn in Hs. by apply lookup_insert_None in Hs as [? _].
    + intros x cid id [->|Hx]%elem_of_cons Hn Hi; [|by eapply Hh]. apply He in Hn. cbn in Hn. by rewrite lookup_insert_eq in Hn.
  - injection E1 as <- <-. split_and!; [by etrans|done|]. intros x cid id [->|Hx]%elem_of_cons Hn Hi; [|by eapply Hh].
    destruct Hspec as (cid' & id' & r & Hr). unfold identity in Hi. rewrite (rg_cluster _ _ _ _ _ _ _ Hr), (rg_id _ _ _ _ _ _ _ Hr) in Hi.
    injection Hi as <- <-. eapply at_home_kept; [exact Hk|]. exists r. split; [apply Hr|apply Hr].
Qed.

(** What a push keeps: the store is well kept, and the identities of [d0] stay. *)
Definition kept (d0 d : DB) : Prop := store_ok d ∧ identity_kept d0 d.

Lemma kept_push d0 known t s d d' : (∀ i c, known i c → at_home d i c) → allowed known s ∨ inv_allowed s → kept d0 d → apply_stmt t s d = inr d' → kept d0 d'.
Proof. intros Hk Hs [Hd Hi] E. destruct (store_step known t s d d' Hk Hs Hd E). split; [done|by etrans]. Qed.

Lemma Process_kept d0 env w : kept d0 w.(w_db) →
  (∀ inst cid id, inst ∈ env.(env_Instances) → identity inst = Some (cid, id) → at_home w.(w_db) id (ToDB cid)) → kept d0 (Process env w).2.(w_db).
Proof.
  intros Hw Hh. set (known i c := ∃ inst cid, inst ∈ env.(env_Instances) ∧ identity inst = Some (cid, i) ∧ c = ToDB cid).
  assert (∀ t s d d', allowed known s → kept d0 d ∧ (∀ i c, known i c → at_home d i c) → apply_stmt t s d = inr d' →
    kept d0 d' ∧ (∀ i c, known i c → at_home d' i c)) as Hstep.
  { intros t s d d' Hs [Hd Hk] E. split; [by eapply (kept_push d0 known); [|left|..]|].
    intros i c Hi. eapply at_home_kept; [by eapply (stmt_identity known); [left|]|by apply Hk]. }
  pose proof (Process_keeps known _ Hstep env) as Hp. apply Hp.
  - intros inst cid id Hin Hi. by exists inst, cid.
  - split; [done|]. intros i c (inst & cid & Hin & Hi & ->). by eapply Hh.
Qed.

Lemma kept_inv d0 : ∀ t s d d', inv_allowed s → kept d0 d → apply_stmt t s d = inr d' → kept d0 d'.
Proof. intros t s d d' Hs. by eapply (kept_push d0 (λ _ _, False)); [|right]. Qed.

Lemma attempt_run {A} (m : PM A) w : attempt m w = (inr (m w).1, (m w).2).
Proof. unfold attempt. by destruct (m w). Qed.

Lemma revocation_db env w : (revocation env w).2.(w_db) = w.(w_db).
Proof.
  assert (sat (λ v : World, v.(w_db) = w.(w_db)) (revocation env) (λ _, True)) as Hr; [|by apply Hr].
  unfold revocation, IsRevoked, OwnerRevoked. eapply (sat_bind _ _ _ (λ _, True)).
  - case_bool_decide; [by apply sat_ret|]. destruct (uuid_Parse _); [apply (db_query (λ d, d = w.(w_db)))|by apply sat_ret].
  - intros [] _; [by apply sat_ret|]. destruct (omap _ _); [by apply sat_ret|apply (db_query (λ d, d = w.(w_db)))].
Qed.

Lemma filtered_spec env res inst : inst ∈ (filtered env res).(env_Instances) →
  inst ∈ env.(env_Instances) ∧ res.(ur_Errors) !! inst.(inst_InstanceID) = None.
Proof.
  unfold filtered. case_bool_decide as He; [intros Hi; split; [done|]; by rewrite He|]. cbn.
  intros Hi. apply list_elem_of_In, List.filter_In in Hi as [Hi Hb]. apply bool_decide_eq_true in Hb. split; [by apply list_elem_of_In|done].
Qed.

Lemma handle_kept d0 env w : kept d0 w.(w_db) → kept d0 (handle_envelope env w).2.(w_db).
Proof.
  intros Hw. unfold handle_envelope. destruct (_ || _); [done|].
  rewrite (bind_ok now _ w (clock w.(w_calls)) (next_call w) eq_refl). destruct (_ <? _); [done|].
  rewrite (bind_ok _ _ _ _ _ (attempt_run (revocation env) (next_call w))).
  pose proof (revocation_db env (next_call w)) as Hr. destruct (revocation env (next_call w)) as [[f|[]] w1]; cbn in Hr |- *; [by rewrite Hr..|].
  rewrite (bind_ok now _ w1 (clock w1.(w_calls)) (next_call w1) eq_refl).
  match goal with |- context [log ?l] => rewrite (bind_ok (log l) _ (next_call w1) () (add_log l (next_call w1)) eq_refl) end.
  set (w2 := add_log _ _). assert (kept d0 w2.(w_db)) as Hw2 by (unfold w2; cbn; by rewrite Hr). clearbody w2. clear Hr w1.
  destruct (_ && _); [done|]. rewrite (bind_ok _ _ _ _ _ (attempt_run (Upsert env) w2)).
  destruct (inv_Upsert (kept d0) (kept_inv d0) env w2 Hw2) as [Hu _].
  destruct (Upsert env w2) as [[f|res] w3] eqn:Eu; cbn in Hu |- *; [done|].
  unfold store_envelope. rewrite (bind_ok _ _ _ _ _ (attempt_run (Process (filtered env res)) w3)).
  assert (kept d0 (Process (filtered env res) w3).2.(w_db)) as Hp.
  { apply Process_kept; [done|]. intros inst cid id Hin Hi. destruct (filtered_spec env res inst Hin) as [Hin' He].
    destruct (Upsert_homes _ _ _ _ _ _ Eu) as (_ & _ & Hh). by eapply Hh. }
  destruct (Process (filtered env res) w3) as [[[e| |]|r] w4]; cbn in Hp |- *; [|done..].
  repeat case_match; done.
Qed.

Lemma ingest_kept sha token rq d0 w : kept d0 w.(w_db) → kept d0 (ingestHandler sha token rq w).2.(w_db).
Proof.
  intros Hw. unfold ingestHandler. destruct (negb _); [done|]. destruct (_ <=? _)%nat; [done|]. destruct (rq_body rq); [done..|].
  destruct (decode_body _ _) as [resp|env]; [by destruct (_ =? _)|by apply handle_kept].
Qed.


(** ** Answers *)

Lemma calm_in_transaction {A} (m : PM A) : calm m → calm (in_transaction m).
Proof.
  intros Hm. unfold in_transaction. apply calm_bind; [apply calm_call|]. intros n. destruct (answer n); [by apply calm_raise|].
  apply calm_bind; [by apply calm_puts|]. intros _. apply calm_bind; [apply calm_gets|]. intros before.
  apply calm_bind; [|intros a; apply calm_bind; [apply calm_commit|intros _; apply calm_ret]].
  intros w. unfold on_error. destruct (Hm w) as [Hc Hp]. by destruct (m w) as [[e|a] w'].
Qed.

Lemma calm_upsertInstance agentID inst : calm (upsertInstance agentID inst).
Proof.
  apply calm_in_transaction. unfold upsertOne, register, upsertCluster, checkDuplicateInstance, emitRepeatable, emitEvent.
  repeat first [apply calm_query | apply calm_exec | apply calm_exec_all | apply calm_now | calm_step].
Qed.

Lemma calm_Upsert env : calm (Upsert env).
Proof.
  apply calm_fold. intros res inst w. unfold upsert_step. rewrite (bind_ok _ _ _ _ _ (attempt_run _ w)).
  destruct (calm_upsertInstance (envelope_agent env) inst w) as [Hc Hp]. destruct (upsertInstance _ inst w) as [[f|[rej|]] w']; cbn in *; [|done..].
  destruct f as [[code|]| |]; cbn; [by destruct (_ || _)|done|done|by destruct Hp].
Qed.

Lemma calm_revocation env : calm (revocation env).
Proof. unfold revocation, IsRevoked, OwnerRevoked. repeat first [apply calm_query | calm_step]. Qed.

(** The tables of what agents report. *)
Definition reported (d : DB) :=
  (d.(samples), d.(temps), d.(object_facts), d.(lock_snapshots), d.(query_texts), d.(topology_edges)).

Lemma Upsert_reported env w : reported (Upsert env w).2.(w_db) = reported w.(w_db).
Proof.
  apply (inv_Upsert (λ d, reported d = reported w.(w_db))); [|done]. intros t s d d' Hs Hd E. rewrite <- Hd.
  destruct s; try done; cbn [apply_stmt] in E; repeat case_match; by simplify_eq.
Qed.

Lemma undos_index us e : Topology.index_ok e → Topology.index_ok (foldr undo_one e us).
Proof. intros He. induction us as [|[[[id c] b] w] us IH]; cbn; [done|]. by apply Topology.revert_index. Qed.

Lemma Process_index env w : Topology.index_ok w.(w_topo) → Topology.index_ok (Process env w).2.(w_topo) ∧ (Process env w).1 ≠ inl Panicked ∧
  (∀ e, (Process env w).1 = inl e → e ≠ DbFailed NoAnswer → (Process env w).2.(w_db) = w.(w_db)).
Proof.
  intros Hi. destruct (Process env w) as [[e|res] w'] eqn:E; cbn.
  - destruct (Process_failed env w e w' Hi E) as (w1 & Hs & -> & Hp & Hdb). split_and!.
    + apply undos_index, Hs.
    + congruence.
    + intros f [= <-] Hne. by destruct Hdb as [?|[? _]].
  - destruct (Process_stored env w res w' Hi E) as (a & w1 & bts & Hs & _ & -> & _). split_and!; [apply Hs|done|done].
Qed.

(** What an answer to a push tells. *)
Definition answered (w : World) (out : (failure + Response) * World) : Prop :=
  ∃ resp, out.1 = inr resp ∧ resp.(rs_status) ∈ [202; 400; 401; 413; 500; 503] ∧
    (resp.(rs_status) = 202 ↔ is_Some resp.(rs_counts)) ∧
    (resp.(rs_status) ≠ 202 → resp.(rs_error) ≠ "pipeline error" → reported out.2.(w_db) = reported w.(w_db)) ∧
    Topology.index_ok out.2.(w_topo).

Lemma answered_refusal w status error w' : status ∈ [400; 401; 413; 500; 503] →
  (error = "pipeline error" ∨ reported w'.(w_db) = reported w.(w_db)) → Topology.index_ok w'.(w_topo) → answered w (inr (refusal_response status error), w').
Proof.
  intros Hs Hr Hi. exists (refusal_response status error). split_and!; [done|by apply list_elem_of_further| | |done].
  - cbn. split; [intros ->|by intros []]. exfalso. revert Hs. rewrite !elem_of_cons, elem_of_nil. lia.
  - cbn. by destruct Hr.
Qed.

Lemma handle_answered env w : Topology.index_ok w.(w_topo) → answered w (handle_envelope env w).
Proof.
  intros Hi. assert (∀ n, n ∈ [400; 401; 500] → n ∈ [400; 401; 413; 500; 503]) as Hst by set_solver.
  unfold handle_envelope. destruct (_ || _); [apply answered_refusal; [set_solver|by right|done]|].
  rewrite (bind_ok now _ w (clock w.(w_calls)) (next_call w) eq_refl). destruct (_ <? _); [apply answered_refusal; [set_solver|by right|done]|].
  rewrite (bind_ok _ _ _ _ _ (attempt_run (revocation env) (next_call w))).
  pose proof (revocation_db env (next_call w)) as Hr. destruct (calm_revocation env (next_call w)) as [Hc _].
  destruct (revocation env (next_call w)) as [r w1]; cbn in Hr, Hc. assert (Topology.index_ok w1.(w_topo)) as Hi1 by (unfold core in Hc; by injection Hc as _ _ -> _ _ _ _).
  destruct r as [f|[]]; cbn; [apply answered_refusal; [set_solver|right; by rewrite Hr|done]..|].
  rewrite (bind_ok now _ w1 (clock w1.(w_calls)) (next_call w1) eq_refl).
  match goal with |- context [log ?l] => rewrite (bind_ok (log l) _ (next_call w1) () (add_log l (next_call w1)) eq_refl) end.
  set (w2 := add_log _ _). assert (w2.(w_db) = w.(w_db) ∧ Topology.index_ok w2.(w_topo)) as [Hd2 Hi2] by done. clearbody w2.
  destruct (_ && _); [apply answered_refusal; [set_solver|right; by rewrite Hd2|done]|].
  rewrite (bind_ok _ _ _ _ _ (attempt_run (Upsert env) w2)). pose proof (Upsert_reported env w2) as Hu. rewrite Hd2 in Hu.
  destruct (calm_Upsert env w2) as [Hc2 _]. destruct (Upsert env w2) as [u w3]; cbn in Hu, Hc2.
  assert (Topology.index_ok w3.(w_topo)) as Hi3 by (unfold core in Hc2; by injection Hc2 as _ _ -> _ _ _ _).
  cbn [fst snd]. destruct u as [f|res]; cbv beta iota; [apply answered_refusal; [set_solver|by right|done]|].
  unfold store_envelope. rewrite (bind_ok _ _ _ _ _ (attempt_run (Process (filtered env res)) w3)).
  destruct (Process_index (filtered env res) w3 Hi3) as (Hi4 & Hp & Hd). destruct (Process (filtered env res) w3) as [[f|r] w4]; cbn in Hi4, Hp, Hd; cbn [fst snd].
  - destruct f as [e| |]; cbv beta iota; [|apply answered_refusal; [set_solver|by left|done]|done].
    destruct (storeRefused (DbFailed e)) eqn:Es; [|apply answered_refusal; [set_solver|by left|done]].
    destruct e as [code|]; [|done]. apply answered_refusal; [set_solver| |done]. right. cbn. by rewrite (Hd _ eq_refl).
  - eexists. split; [done|]. split_and!; [set_solver|cbn; split; [by eexists|done]|done|done].
Qed.

(** Every push is answered, with one of the six statuses the agent knows, and the topology
    engine stays sound. An answer that refuses the push says that nothing of what it
    reports was stored; so does an error before the pipeline. Only a pipeline error, which
    the agent answers by sending again, leaves open whether the envelope was stored. *)
Theorem push_is_answered sha token rq w : Topology.index_ok w.(w_topo) → answered w (ingestHandler sha token rq w).
Proof.
  intros Hi. unfold ingestHandler. destruct (negb _); [apply answered_refusal; [set_solver|by right|done]|].
  destruct (_ <=? _)%nat; [apply answered_refusal; [set_solver|by right|done]|].
  destruct (rq_body rq) as [| |body]; [apply answered_refusal; [set_solver|by right|done]..|].
  destruct (decode_body _ _) as [resp|env] eqn:Ed; [|by apply handle_answered].
  assert (∃ status error, resp = refusal_response status error ∧ status ∈ [400; 413]) as (status & error & -> & Hs).
  { unfold decode_body in Ed. repeat case_match; simplify_eq; eexists _, _; split; try reflexivity; set_solver. }
  cbn. destruct (status =? 413); cbn; apply answered_refusal; try done; [set_solver|by right|set_solver|by right].
Qed.

(** ** Revocation *)

(** The store has revoked the agent the envelope names, or the owner of one of its
    instances. *)
Definition revoked_by (d : DB) (env : Envelope) : Prop :=
  (∃ a, env.(env_AgentID) ≠ "" ∧ uuid_Parse env.(env_AgentID) = Some a ∧ agent_revoked d a = true) ∨
  (∃ inst id, inst ∈ env.(env_Instances) ∧ uuid_Parse inst.(inst_InstanceID) = Some id ∧ owner_revoked d id = true).

Lemma query_run {A} (f : DB → A) w : query f w = (match answer w.(w_calls) with Some e => inl (DbFailed e) | None => inr (f w.(w_db)) end, next_call w).
Proof. unfold query, call, gets, raise, mbind, EST_bind. by destruct (answer (w_calls w)). Qed.

Lemma revocation_holds env w : revoked_by w.(w_db) env → (revocation env w).1 ≠ inr false ∧
  ((∀ n, answer n = None) → (revocation env w).1 = inr true).
Proof.
  intros Hr. unfold revocation, IsRevoked.
  assert (∀ v, v.(w_db) = w.(w_db) → (∃ inst id, inst ∈ env.(env_Instances) ∧ uuid_Parse inst.(inst_InstanceID) = Some id ∧ owner_revoked w.(w_db) id = true) →
    (OwnerRevoked env.(env_Instances) v).1 ≠ inr false ∧ ((∀ n, answer n = None) → (OwnerRevoked env.(env_Instances) v).1 = inr true)) as Hown.
  { intros v Hv (inst & id & Hin & Hp & Ho). unfold OwnerRevoked.
    assert (id ∈ omap (λ inst, uuid_Parse inst.(inst_InstanceID)) env.(env_Instances)) as Hid by (apply list_elem_of_omap; by eauto).
    destruct (omap _ _) as [|x l]; [by apply elem_of_nil in Hid|]. rewrite query_run. cbn [fst].
    replace (existsb (owner_revoked (w_db v)) (x :: l)) with true.
    - destruct (answer _) eqn:Ea; split; try done. intros Hh. by rewrite Hh in Ea.
    - symmetry. apply existsb_exists. exists id. split; [by apply list_elem_of_In|]. by rewrite Hv. }
  case_bool_decide as Hne.
  { rewrite (bind_ok (mret false) _ w false w eq_refl). destruct Hr as [(a & Hn & _)|Hr]; [done|]. by apply Hown. }
  destruct (uuid_Parse (env_AgentID env)) as [a|] eqn:Ep.
  2: { rewrite (bind_ok (mret false) _ w false w eq_refl). destruct Hr as [(a & _ & Ea & _)|Hr]; [congruence|]. by apply Hown. }
  unfold mbind, EST_bind. rewrite query_run. destruct (answer (w_calls w)) as [e|] eqn:Ea; cbn [fst].
  { split; [done|]. intros Hh. by rewrite Hh in Ea. }
  destruct (agent_revoked (w_db w) a) eqn:Er; [done|]. destruct Hr as [(a' & _ & Ea' & Er')|Hr]; [congruence|]. by apply Hown.
Qed.

(** A push that names a revoked agent, or an instance whose owner is revoked, changes
    nothing: neither the store nor the engines. It is never accepted, and when the store
    answers, a current push is told that the agent is revoked. *)
Theorem revoked_push_changes_nothing sha token rq w :
  (∀ body env, rq.(rq_body) = BodyRead body → decode_body rq.(rq_gzip) body = inr env → revoked_by w.(w_db) env) →
  ∃ resp, (ingestHandler sha token rq w).1 = inr resp ∧ resp.(rs_status) ≠ 202 ∧
    (ingestHandler sha token rq w).2.(w_db) = w.(w_db) ∧ core (ingestHandler sha token rq w).2 = core w ∧
    (∀ body env, CommandServer.auth_Validate sha token rq.(rq_authorization) = true → (rq.(rq_taken) < maxConcurrentIngest)%nat →
      rq.(rq_body) = BodyRead body → decode_body rq.(rq_gzip) body = inr env → ProtocolVersionMin ≤ env.(env_ProtocolVersion) ≤ ProtocolVersionCurrent →
      Sub (clock w.(w_calls)) env.(env_SentAt) ≤ maxSampleAge → (∀ n, answer n = None) → resp = refusal_response 401 "revoked").
Proof.
  intros Hrev. unfold ingestHandler. destruct (CommandServer.auth_Validate _ _ _); cbn [negb]; [|eexists; split_and!; [done|done|done|done|by intros]].
  destruct (Nat.leb_spec maxConcurrentIngest rq.(rq_taken)); [eexists; split_and!; [done|done|done|done|by intros; lia]|].
  destruct (rq_body rq) as [| |body]; [eexists; split_and!; [done|done|done|done|by intros]..|].
  destruct (decode_body (rq_gzip rq) body) as [resp|env] eqn:Ed.
  { exists resp. assert (resp.(rs_status) ≠ 202) as Hs by (unfold decode_body in Ed; repeat case_match; by simplify_eq).
    destruct (_ =? _); (split_and!; [done|done|done| |intros ? ? _ _ [= <-]; congruence]); [|done].
    exact (proj1 (calm_log [IngestRejected "decompressed_too_large"] eq_refl w)). }
  specialize (Hrev body env eq_refl Ed). set (env' := set_transmitted _ env). assert (revoked_by w.(w_db) env') as Hr by done. clear Hrev.
  unfold handle_envelope. change (env_ProtocolVersion env') with (env_ProtocolVersion env). change (env_SentAt env') with (env_SentAt env).
  destruct (_ || _) eqn:Ev.
  { eexists; split_and!; [done|done|done|done|]. intros ? ? _ _ [= <-] Ed' Hv. rewrite Ed in Ed'. injection Ed' as <-. apply orb_true_iff in Ev as [Ev|Ev]; zbool; lia. }
  rewrite (bind_ok now _ w (clock w.(w_calls)) (next_call w) eq_refl). destruct (maxSampleAge <? _) eqn:Ea.
  { eexists; split_and!; [done|done|done|done|]. intros ? ? _ _ [= <-] Ed' _ Hs. rewrite Ed in Ed'. injection Ed' as <-. zbool. lia. }
  rewrite (bind_ok _ _ _ _ _ (attempt_run (revocation env') (next_call w))).
  destruct (revocation_holds env' (next_call w) Hr) as [Hn Ht]. pose proof (revocation_db env' (next_call w)) as Hd.
  destruct (calm_revocation env' (next_call w)) as [Hc _]. destruct (revocation env' (next_call w)) as [[f|[]] w1]; cbn in *; [| |done].
  - eexists. split_and!; [done|done|done|done|]. intros ? ? _ _ _ _ _ _ Hh. by specialize (Ht Hh).
  - eexists. split_and!; [done|done|done|done|]. done.
Qed.
End handler.

(** ** Pushes of one agent *)
Module Agent.
#[local] Existing Instances Push.overflow Push.lower Push.ranges Push.uuid_decimal Push.uuid_number Push.same_text Push.sessions Push.sessions_laws.
#[local] Instance healthy_server : ServerEnv := Push.server Push.healthy.

#[local] Instance in_order : RangeOrderLaws.
Proof. split. intros K V ? ? m. reflexivity. Qed.

(** The body that carries the envelope [Push.push], uncompressed. *)
#[local] Instance bodies : BodyCodec := {|
  gunzip := λ t, Some (mkStream t true);
  scan_envelope := λ t, if bool_decide (t = str "push") then Some Push.push else None;
|}.

Definition request : Request := mkRequest (str "Bearer secret") 0 (BodyRead (str "push")) true None.
Definition serve (w : World) : (failure + Response) * World := ingestHandler (λ t, t) (Some (str "secret")) request w.

Lemma first_push : (serve Push.idle).1 = inr (mkResponse 202 "" (Some (1, 0))).
Proof. vm_compute. reflexivity. Qed.



Lemma push_is_answered_witness : answered Push.idle (serve Push.idle).
Proof. apply (push_is_answered (λ t, t) (Some (str "secret")) request Push.idle Topology.NewEngine_index). Defined.

(** The same push when the agent was revoked. *)
Definition revoked_world : World := set_db (set_agents {[1 := Some 5]} empty_store) Push.idle.

Lemma revoked_push_changes_nothing_witness : (serve revoked_world).1 = inr (refusal_response 401 "revoked").
Proof.
  assert (decode_body true (str "push") = inr Push.push) as Ed by (vm_compute; reflexivity).
  destruct (revoked_push_changes_nothing (λ t, t) (Some (str "secret")) request revoked_world) as (resp & E & _ & _ & _ & Hr).
  - intros body env [= <-] E. change (decode_body true (str "push") = inr env) in E. rewrite Ed in E. injection E as <-.
    left. exists 1. split_and!; [discriminate|reflexivity|reflexivity].
  - unfold serve. rewrite E. f_equal. apply (Hr (str "push") Push.push); [reflexivity|unfold maxConcurrentIngest; cbn; lia|reflexivity|exact Ed|split; discriminate|vm_compute; discriminate|reflexivity].
Defined.
End Agent.
