(* ===== verification/Session.v ===== *)
(** * Browser sessions and the credential gate (internal/server/session.go)

    The API is reached with an agent's token or with a session that a sign-in created. The
    handlers run in goroutines of their own: a sign-in is admitted by the limiter, holds a
    slot while its password is compared (and a failed one slept on), then ends. So a sign-in
    is two steps, and everything else one, of a transition system over the session store,
    the limiter and the sign-ins in flight. The decoding of the sign-in body, SHA-256 and the
    random source are parameters; the wait after a failure only delays the second step, and
    the slot a refused sign-in takes for a moment is not seen by others here. *)
From stdpp Require Import pretty.
From S2P Require Import Prelude GoTime GoBytes GoText GoSort PipelineRows CommandServer.

(** ** The session store *)

Record SessionStore := mkSessionStore { sessions : gmap text Time; ttl : Duration }.

Definition NewSessionStore (ttl : Duration) : SessionStore := mkSessionStore ∅ ttl.

Definition sessionReapThreshold : nat := Z.to_nat 1024.
Definition sessionHardCap : nat := Z.to_nat 4096.

(** [base64.RawURLEncoding.EncodeToString]: three bytes as four characters, the rest
    without padding. *)
Definition base64_alphabet : text := str "ABCDEFGHIJKLMNOPQRSTUVWXYZabcdefghijklmnopqrstuvwxyz0123456789-_".
Definition base64_char (z : Z) : byte := default x00 (base64_alphabet !! Z.to_nat (z `mod` 64)).

Fixpoint RawURLEncoding (raw : list byte) : text :=
  match raw with
  | [] => []
  | [a] => let z := Z_of_byte a * 16 in [base64_char (Z.shiftr z 6); base64_char z]
  | [a; b] => let z := (Z_of_byte a * 256 + Z_of_byte b) * 4 in [base64_char (Z.shiftr z 12); base64_char (Z.shiftr z 6); base64_char z]
  | a :: b :: c :: raw =>
      let z := (Z_of_byte a * 256 + Z_of_byte b) * 256 + Z_of_byte c in
      [base64_char (Z.shiftr z 18); base64_char (Z.shiftr z 12); base64_char (Z.shiftr z 6); base64_char z] ++ RawURLEncoding raw
  end.

Definition reap (now : Time) (s : SessionStore) : SessionStore :=
  mkSessionStore (filter (λ x, Before now x.2 = true) s.(sessions)) s.(ttl).

Section sessions.
Context `{RangeOrder}.

Definition sooner (x y : text * Time) : bool := Before x.2 y.2.

#[export] Instance sooner_swo : StrictWeakOrder sooner (λ _, True).
Proof. split; unfold not_after, sooner, Before; intros; lia. Qed.

(** The soonest to expire go first; among those of one instant the order is the map's. *)
Definition enforceCap (s : SessionStore) : SessionStore :=
  if (size s.(sessions) <=? sessionHardCap)%nat then s
  else
    let entries := sort_slice sooner (visit s.(sessions)) in
    mkSessionStore (foldr delete s.(sessions) (take (length entries - sessionHardCap) entries).*1) s.(ttl).

(** [raw] is what the random source gave, [None] for an error; [now] and [later] are the
    clock's two readings. *)
Definition Create (raw : option (list byte)) (now later : Time) (s : SessionStore) : option (text * Time) * SessionStore :=
  match raw with
  | None => (None, s)
  | Some raw =>
      let token := RawURLEncoding raw in
      let expiresAt := Add now s.(ttl) in
      let s := mkSessionStore (<[token := expiresAt]> s.(sessions)) s.(ttl) in
      (Some (token, expiresAt), if (sessionReapThreshold <? size s.(sessions))%nat then enforceCap (reap later s) else s)
  end.

Definition Validate (token : text) (now : Time) (s : SessionStore) : option Time :=
  match s.(sessions) !! token with
  | Some expiresAt => if Before now expiresAt then Some expiresAt else None
  | None => None
  end.

Definition Delete (token : text) (s : SessionStore) : SessionStore := mkSessionStore (delete token s.(sessions)) s.(ttl).

(** ** The limiter *)

Definition sessionLoginMaxAttempts : Z := 5.
Definition sessionLoginWindow : Duration := 15 * Minute.
Definition sessionLoginMaxInFlight : nat := 8.
Definition sessionLoginMaxClients : nat := Z.to_nat 4096.

Record loginBudget := mkBudget { windowStart : Time; count : Z }.
Record loginLimiter := mkLimiter { attempts : gmap text loginBudget; slots : nat }.

Definition newLoginLimiter : loginLimiter := mkLimiter ∅ 0.

(** One pass for the client, other than [keep], whose window started first. *)
Definition older (keep : text) (best : option (text * Time)) (x : text * loginBudget) : option (text * Time) :=
  if bool_decide (x.1 = keep) then best
  else match best with
  | Some b => if Before x.2.(windowStart) b.2 then Some (x.1, x.2.(windowStart)) else best
  | None => Some (x.1, x.2.(windowStart))
  end.
Definition oldest_client (keep : text) (m : gmap text loginBudget) : text := from_option fst [] (foldl (older keep) None (visit m)).

Fixpoint trim_loop (fuel : nat) (keep : text) (m : gmap text loginBudget) : gmap text loginBudget :=
  match fuel with
  | O => m
  | S fuel => if (sessionLoginMaxClients <? size m)%nat then trim_loop fuel keep (delete (oldest_client keep m) m) else m
  end.

Definition trimLocked (now : Time) (keep : text) (m : gmap text loginBudget) : gmap text loginBudget :=
  if (size m <=? sessionLoginMaxClients)%nat then m
  else
    let m := filter (λ x, bool_decide (x.1 = keep) || (Sub now x.2.(windowStart) <? sessionLoginWindow) = true) m in
    trim_loop (size m) keep m.

(** [begin]: the wait of a refusal, or [None] for an attempt that is allowed. *)
Definition current_budget (client : text) (now : Time) (l : loginLimiter) : loginBudget :=
  let budget := default (mkBudget zero_time 0) (l.(attempts) !! client) in
  if sessionLoginWindow <=? Sub now budget.(windowStart) then mkBudget now 0 else budget.

Definition begin (client : text) (now : Time) (l : loginLimiter) : option Duration * loginLimiter :=
  if (sessionLoginMaxInFlight <=? l.(slots))%nat then (Some Second, l)
  else
    let budget := current_budget client now l in
    if sessionLoginMaxAttempts <=? budget.(count) then (Some (Sub (Add budget.(windowStart) sessionLoginWindow) now), l)
    else
      let m := <[client := mkBudget budget.(windowStart) (budget.(count) + 1)]> l.(attempts) in
      (None, mkLimiter (trimLocked now client m) (S l.(slots))).

(** The function [begin] returns: it gives the slot back. *)
Definition done_ (client : text) (succeeded : bool) (l : loginLimiter) : loginLimiter :=
  mkLimiter (if succeeded then delete client l.(attempts) else l.(attempts)) (pred l.(slots)).
End sessions.

(** ** Requests *)

Record UIConfig := mkUIConfig { Enabled : bool; Password : text; SessionTTL : Duration; CookieSecure : text }.

Record Http := mkHttp {
  h_method : text;
  h_path : text;
  h_authorization : text;
  h_cookie : option text; (* the cookie named pglens_session *)
  h_remote : text;
  h_tls : bool;
  h_forwarded_proto : text;
  h_body : text;
}.

Record Cookie := mkCookie { ck_Value : text; ck_MaxAge : Z; ck_Secure : bool }.

(** The status with what a reply sets; [Served] when the request reaches its handler. *)
Inductive reply := Reply (status : Z) (cookie : option Cookie) (retry : option Z) | Served.

Definition sessionExemptPaths : list text :=
  [str "/healthz"; str "/readyz"; str "/metrics"; str "GET /api/v1/session"; str "POST /api/v1/session"].

Definition sessionRequestExempt (rq : Http) : bool :=
  negb (has_prefix (str "/api/") rq.(h_path)) ||
  bool_decide (rq.(h_method) ++ str " " ++ rq.(h_path) ∈ sessionExemptPaths) || bool_decide (rq.(h_path) ∈ sessionExemptPaths).

(** [net.SplitHostPort], the host only. *)
Fixpoint index_of (c : byte) (t : text) : option nat :=
  match t with
  | [] => None
  | d :: t => if bool_decide (c = d) then Some O else S <$> index_of c t
  end.
Definition last_index_of (c : byte) (t : text) : option nat := (λ i, length t - 1 - i)%nat <$> index_of c (reverse t).

Definition SplitHostPort (hostport : text) : option text :=
  match last_index_of ":"%byte hostport with
  | None => None
  | Some i =>
      let clean j k := negb (bool_decide ("["%byte ∈ drop j hostport)) && negb (bool_decide ("]"%byte ∈ drop k hostport)) in
      match hostport with
      | "["%byte :: _ =>
          match index_of "]"%byte hostport with
          | Some e => if bool_decide (S e = i) && clean 1%nat (S e) then Some (take (e - 1) (drop 1 hostport)) else None
          | None => None
          end
      | _ =>
          let host := take i hostport in
          if negb (bool_decide (":"%byte ∈ host)) && clean 0%nat 0%nat then Some host else None
      end
  end.

Definition sessionClientAddress (rq : Http) : text := default rq.(h_remote) (SplitHostPort rq.(h_remote)).

Definition retryAfterSeconds (wait : Duration) : Z := Z.max (Z.quot (wait + Second - 1) Second) 1.

Definition sessionTTL (cfg : UIConfig) (store : option SessionStore) : Duration :=
  if 0 <? cfg.(SessionTTL) then cfg.(SessionTTL)
  else match store with
  | Some s => if 0 <? s.(ttl) then s.(ttl) else 24 * Hour
  | None => 24 * Hour
  end.

(** [strings.EqualFold] with "https": the small s also folds to the long one, U+017F. *)
Definition fold_https (t : text) : bool :=
  bool_decide ((lower_byte <$> t) = str "https") || bool_decide ((lower_byte <$> take 4 t) = str "http" ∧ drop 4 t = [xc5; xbf]).

(** ** The handlers *)

(** The store, the limiter and the sign-ins whose password is being compared, each with its
    request and its client. *)
Record Gate := mkGate { g_store : option SessionStore; g_limiter : loginLimiter; g_inflight : list (Http * text * text) }.

Definition with_store (s : option SessionStore) (g : Gate) : Gate := mkGate s g.(g_limiter) g.(g_inflight).

Inductive act :=
| SignIn (rq : Http) (now : Time) (* POST /api/v1/session arrives *)
| Compared (i : nat) (raw : option (list byte)) (now later : Time) (* the [i]th in flight ends *)
| Status (rq : Http) (now : Time) (* GET /api/v1/session *)
| SignOut (rq : Http) (now : Time) (* DELETE /api/v1/session *)
| Call (rq : Http) (now : Time). (* any other request *)

Section handlers.
Context `{RangeOrder, UnicodeLower} (sha256 : text → text) (decode_login : text → option text).
Variables (cfg : UIConfig) (token : option text).

Definition secureCookie (rq : Http) : bool :=
  let v := ToLower unicode_lower (TrimSpace cfg.(CookieSecure)) in
  if bool_decide (v = str "true") then true
  else if bool_decide (v = str "false") then false
  else rq.(h_tls) || fold_https (TrimSpace rq.(h_forwarded_proto)).

Definition sessionCookie (rq : Http) (value : text) (maxAge : Z) : Cookie := mkCookie value maxAge (secureCookie rq).

(** The live session of a request's cookie. *)
Definition live_session (rq : Http) (now : Time) (store : option SessionStore) : option Time :=
  s ← store; c ← rq.(h_cookie); Validate c now s.

Definition RequireCredential (rq : Http) (now : Time) (store : option SessionStore) : reply :=
  if sessionRequestExempt rq then Served
  else if auth_Validate sha256 token rq.(h_authorization) then Served
  else if cfg.(Enabled) && bool_decide (cfg.(Password) = []) then Reply 503 None None
  else match live_session rq now store with Some _ => Served | None => Reply 401 None None end.

(** A sign-in until its password is compared; [None] when it is let through. *)
Definition sign_in (rq : Http) (now : Time) (g : Gate) : option reply * Gate :=
  match decode_login rq.(h_body) with
  | None => (Some (Reply 400 None None), g)
  | Some password =>
      let client := sessionClientAddress rq in
      match begin client now g.(g_limiter) with
      | (Some wait, l) => (Some (Reply 429 None (Some (retryAfterSeconds wait))), mkGate g.(g_store) l g.(g_inflight))
      | (None, l) => (None, mkGate g.(g_store) l (g.(g_inflight) ++ [(rq, client, password)]))
      end
  end.

Definition matches (password : text) : bool := negb (bool_decide (cfg.(Password) = [])) && secretsEqual sha256 password cfg.(Password).

(** What a sign-in whose password matches does. *)
Definition signed_in (rq : Http) (raw : option (list byte)) (now later : Time) (store : option SessionStore) : reply * option SessionStore :=
  match store with
  | None => (Reply 503 None None, None)
  | Some s =>
      match Create raw now later s with
      | (None, s) => (Reply 500 None None, Some s)
      | (Some (tok, _), s) => (Reply 204 (Some (sessionCookie rq tok (Z.quot (sessionTTL cfg (Some s)) Second))) None, Some s)
      end
  end.

Definition compared (i : nat) (raw : option (list byte)) (now later : Time) (g : Gate) : option reply * Gate :=
  match g.(g_inflight) !! i with
  | None => (None, g)
  | Some (rq, client, password) =>
      let rest := delete i g.(g_inflight) in
      if matches password then
        let '(r, store) := signed_in rq raw now later g.(g_store) in
        (Some r, mkGate store (done_ client true g.(g_limiter)) rest)
      else (Some (Reply 401 None None), mkGate g.(g_store) (done_ client false g.(g_limiter)) rest)
  end.

Definition status (rq : Http) (now : Time) (store : option SessionStore) : reply :=
  match live_session rq now store with Some _ => Reply 200 None None | None => Reply 401 None None end.

Definition sign_out (rq : Http) (store : option SessionStore) : reply * option SessionStore :=
  (Reply 204 (Some (sessionCookie rq [] (-1))) None,
   match store, rq.(h_cookie) with Some s, Some c => Some (Delete c s) | _, _ => store end).

(** One step: the gate before every route, then the handler. *)
Definition serve (g : Gate) (a : act) : option reply * Gate :=
  match a with
  | SignIn rq now => sign_in rq now g
  | Compared i raw now later => compared i raw now later g
  | Status rq now => (Some (status rq now g.(g_store)), g)
  | SignOut rq now =>
      match RequireCredential rq now g.(g_store) with
      | Served => let '(r, s) := sign_out rq g.(g_store) in (Some r, with_store s g)
      | r => (Some r, g)
      end
  | Call rq now => (Some (RequireCredential rq now g.(g_store)), g)
  end.

Definition run (g : Gate) (acts : list act) : Gate := foldl (λ g a, (serve g a).2) g acts.

Definition start (ttl : Duration) : Gate := mkGate (Some (NewSessionStore ttl)) newLoginLimiter [].
End handlers.

(** ** What the store keeps *)

Section store.
Context `{RangeOrder}.

Lemma foldr_delete_sub (m : gmap text Time) ks : foldr delete m ks ⊆ m.
Proof. induction ks as [|k ks IH]; cbn; [done|]. etrans; [apply delete_subseteq|done]. Qed.

Lemma reap_sub now s : (reap now s).(sessions) ⊆ s.(sessions).
Proof. apply map_filter_subseteq. Qed.

Lemma enforceCap_sub s : (enforceCap s).(sessions) ⊆ s.(sessions) ∧ (enforceCap s).(ttl) = s.(ttl).
Proof. unfold enforceCap. destruct (_ <=? _)%nat; [done|]. split; [apply foldr_delete_sub|done]. Qed.

(** A session is dropped only when more than the cap expire no sooner. *)
Lemma enforceCap_keeps `{!RangeOrderLaws} s c (e : Time) : s.(sessions) !! c = Some e → (size (filter (λ x : text * Time, (e ≤ x.2)%Z) s.(sessions)) ≤ sessionHardCap)%nat →
  (enforceCap s).(sessions) !! c = Some e.
Proof.
  intros Hc Hn. unfold enforceCap. destruct (_ <=? _)%nat; [done|]. cbn. set (es := sort_slice _ _). set (n := (length es - sessionHardCap)%nat).
  assert (es ≡ₚ map_to_list s.(sessions)) as Hp by (unfold es; by rewrite sort_slice_perm, visit_perm).
  rewrite lookup_foldr_delete_not_elem_of; [done|]. intros ([c' e'] & Ec & Hin)%list_elem_of_fmap. cbn in Ec. subst c'.
  assert (e' = e) as ->.
  { pose proof Hin as Hin'. apply (subseteq_take _ es) in Hin'. rewrite Hp in Hin'. apply elem_of_map_to_list in Hin'. congruence. }
  assert (Forall (λ x : text * Time, (e ≤ x.2)%Z) (drop n es)) as Hdrop.
  { pose proof (sort_slice_sorted sooner (λ _, True) (visit s.(sessions)) ltac:(by apply Forall_true)) as Hsort. fold es in Hsort.
    rewrite <- (take_drop n es) in Hsort. apply StronglySorted_app in Hsort as (Hall & _). apply Forall_forall. intros x Hx.
    specialize (Hall (c, e) x Hin Hx). unfold not_after, sooner, Before in Hall. cbn in Hall. by apply Z.ltb_ge in Hall. }
  assert (length (filter (λ x : text * Time, (e ≤ x.2)%Z) es) = size (filter (λ x : text * Time, (e ≤ x.2)%Z) s.(sessions))) as Hsize.
  { rewrite Hp, <- length_map_to_list. symmetry. apply Permutation_length, NoDup_Permutation; [apply NoDup_map_to_list|apply NoDup_filter, NoDup_map_to_list|].
    intros [k v]. rewrite elem_of_map_to_list, list_elem_of_filter, elem_of_map_to_list, map_lookup_filter_Some. tauto. }
  rewrite <- (take_drop n es), filter_app, length_app in Hsize.
  assert (length (filter (λ x : text * Time, (e ≤ x.2)%Z) (drop n es)) = length es - n)%nat as Hd.
  { rewrite <- length_drop. clear -Hdrop. induction Hdrop as [|x l Hx _ IH]; [done|]. rewrite filter_cons_True by done. cbn. by rewrite IH. }
  assert (filter (λ x : text * Time, (e ≤ x.2)%Z) (take n es) ≠ []) as Ht.
  { intros E. assert ((c, e) ∈ filter (λ x : text * Time, (e ≤ x.2)%Z) (take n es)) as Hf by (apply list_elem_of_filter; split; [cbn; lia|done]).
    rewrite E in Hf. by apply elem_of_nil in Hf. }
  assert (0 < length (filter (λ x : text * Time, (e ≤ x.2)%Z) (take n es)))%nat by (destruct (filter _ (take n es)); [done|cbn; lia]).
  assert (n = length es - sessionHardCap)%nat by done. assert (0 < n)%nat by (destruct n; [by apply elem_of_nil in Hin|lia]). lia.
Qed.

(** A new session is added and others may go, unless there are few. *)
Lemma Create_spec raw now later s :
  let tok := RawURLEncoding raw in
  let '(r, s') := Create (Some raw) now later s in
  r = Some (tok, Add now s.(ttl)) ∧ s'.(ttl) = s.(ttl) ∧ s'.(sessions) ⊆ <[tok := Add now s.(ttl)]> s.(sessions) ∧
  ((size (<[tok := Add now s.(ttl)]> s.(sessions)) ≤ sessionReapThreshold)%nat → s'.(sessions) = <[tok := Add now s.(ttl)]> s.(sessions)).
Proof.
  cbn [Create]. destruct (sessionReapThreshold <? _)%nat eqn:E.
  - apply Nat.ltb_lt in E. destruct (enforceCap_sub (reap later (mkSessionStore (<[RawURLEncoding raw := Add now s.(ttl)]> s.(sessions)) s.(ttl)))) as [H1 H2].
    split_and!; [done|done| |cbn in *; lia]. etrans; [exact H1|apply (reap_sub later (mkSessionStore _ _))].
  - by split_and!.
Qed.
End store.

(** ** Sessions as the replies grant them *)

Section granted.
Context `{RangeOrderLaws, UnicodeLower} (sha256 : text → text) (decode_login : text → option text).
Variables (cfg : UIConfig) (token : option text) (lifetime : Duration).

Abbreviation step := (serve sha256 decode_login cfg token).

(** The sessions a client may believe in: a sign-in answered with 204 grants its token, a
    sign-out answered with 204 takes it back. *)
Definition answered_204 (r : option reply) : bool := match r with Some (Reply st _ _) => st =? 204 | _ => false end.

Definition grant (g : Gate) (m : gmap text Time) (a : act) : gmap text Time :=
  if answered_204 (step g a).1 then
    match a with
    | Compared _ (Some raw) now _ => <[RawURLEncoding raw := now]> m
    | SignOut rq _ => match rq.(h_cookie) with Some c => delete c m | None => m end
    | _ => m
    end
  else m.

Fixpoint grants (g : Gate) (m : gmap text Time) (acts : list act) : gmap text Time :=
  match acts with
  | [] => m
  | a :: acts => grants (step g a).2 (grant g m a) acts
  end.

(** Every session ever granted, with the time, and the instants at which expired ones were
    looked for. *)
Definition issued (g : Gate) (a : act) : option (text * Time) :=
  match a with
  | Compared _ (Some raw) now _ => if answered_204 (step g a).1 then Some (RawURLEncoding raw, now) else None
  | _ => None
  end.
Fixpoint issues (g : Gate) (acts : list act) : list (text * Time) :=
  match acts with
  | [] => []
  | a :: acts => option_list (issued g a) ++ issues (step g a).2 acts
  end.
Definition cleared_at (a : act) : option Time := match a with Compared _ _ _ later => Some later | _ => None end.

(** How many sessions were granted at [t] or later. *)
Definition newer (t : Time) (log : list (text * Time)) : nat := length (filter (λ x, t ≤ x.2) log).

(** The store holds only sessions that were granted, and holds each of them until it ends
    unless more newer ones were granted than it keeps. *)
Record agrees (g : Gate) (m : gmap text Time) (log : list (text * Time)) (cleared : list Time) (s : SessionStore) : Prop := {
  ag_store : g.(g_store) = Some s;
  ag_ttl : s.(ttl) = lifetime;
  ag_sub : s.(sessions) ⊆ (λ t, Add t lifetime) <$> m;
  ag_log : ∀ c t, m !! c = Some t → (c, t) ∈ log;
  ag_keeps : ∀ c t, m !! c = Some t → Forall (λ l, l < t + lifetime) cleared → (newer t log ≤ sessionHardCap)%nat →
    s.(sessions) !! c = Some (Add t lifetime);
}.

Lemma Require_not_204 rq now store : answered_204 (Some (RequireCredential sha256 cfg token rq now store)) = false.
Proof. unfold RequireCredential. repeat case_match; done. Qed.

Lemma newer_bound (s m : gmap text Time) log t : s ⊆ (λ t, Add t lifetime) <$> m → (∀ c t, m !! c = Some t → (c, t) ∈ log) →
  (size (filter (λ x : text * Time, (t + lifetime ≤ x.2)%Z) s) ≤ newer t log)%nat.
Proof using Type.
  intros Hsub Hlog. rewrite <- length_map_to_list. set (l := map_to_list _). rewrite <- (length_fmap (λ x : text * Time, (x.1, x.2 - lifetime)) l).
  apply submseteq_length, NoDup_submseteq.
  - apply NoDup_fmap_2; [|apply NoDup_map_to_list]. intros [c1 t1] [c2 t2] [= -> E]. f_equal. unfold Time in *. lia.
  - intros x ([c e] & -> & Hin)%list_elem_of_fmap. unfold l in Hin. apply elem_of_map_to_list, map_lookup_filter_Some in Hin as [Hin Hle]. cbn in *.
    eapply lookup_weaken in Hin; [|exact Hsub]. rewrite lookup_fmap in Hin. apply fmap_Some in Hin as (t' & Hm & ->). unfold Add in *.
    replace (t' + lifetime - lifetime) with t' by lia. apply list_elem_of_filter. split; [cbn; lia|by apply Hlog].
Qed.

Lemma newer_app t log l : newer t (log ++ l) = (newer t log + newer t l)%nat.
Proof using Type. unfold newer. by rewrite filter_app, length_app. Qed.

(** A step that grants nothing. *)
Lemma agrees_same g m log cleared s g' l : agrees g m log cleared s → g'.(g_store) = g.(g_store) → agrees g' m log (cleared ++ l) s.
Proof using Type.
  intros [A1 A2 A3 A4 A5] E. split; [congruence|done|done|done|]. intros c t Hm Hcl Hn. apply A5; [done| |done]. by apply Forall_app in Hcl as [? _].
Qed.

Lemma agrees_grant g m log cleared s raw now later g' : agrees g m log cleared s → g'.(g_store) = Some (Create (Some raw) now later s).2 →
  agrees g' (<[RawURLEncoding raw := now]> m) (log ++ [(RawURLEncoding raw, now)]) (cleared ++ [later]) (Create (Some raw) now later s).2.
Proof using All.
  intros [A1 A2 A3 A4 A5] Eg. set (tok := RawURLEncoding raw).
  assert (∀ c t, <[tok := now]> m !! c = Some t → (c, t) ∈ log ++ [(tok, now)]) as Hlog.
  { intros c t Hm. apply elem_of_app. apply lookup_insert_Some in Hm as [[<- <-]|[_ Hm]]; [right; left|left; by apply A4]. }
  assert (<[tok := Add now lifetime]> (sessions s) ⊆ (λ t, Add t lifetime) <$> <[tok := now]> m) as Hsub by (rewrite fmap_insert; by apply insert_mono).
  pose proof (Create_spec raw now later s) as Hc. rewrite A2 in Hc. split; [done|..].
  - destruct (Create (Some raw) now later s). by destruct Hc as (_ & Hc & _).
  - destruct (Create (Some raw) now later s). destruct Hc as (_ & _ & Hc & _). etrans; [exact Hc|done].
  - done.
  - intros c t Hm Hcl Hn. apply Forall_app in Hcl as [Hcl Hlater]. apply Forall_inv in Hlater. rewrite newer_app in Hn.
    assert (<[tok := Add now lifetime]> (sessions s) !! c = Some (Add t lifetime)) as Hin.
    { apply lookup_insert_Some in Hm as [[<- <-]|[Hne Hm]]; [apply lookup_insert_eq|]. rewrite lookup_insert_ne by done. apply A5; [done|done|lia]. }
    cbn [Create snd]. rewrite A2. fold tok. destruct (_ <? _)%nat; [|done].
    assert (sessions (reap later (mkSessionStore (<[tok := Add now lifetime]> (sessions s)) lifetime)) !! c = Some (Add t lifetime)) as Hr.
    { cbn. apply map_lookup_filter_Some. split; [done|]. unfold Before, Add. cbn. by apply Z.ltb_lt. }
    apply enforceCap_keeps; [exact Hr|]. rewrite <- newer_app in Hn. etrans; [|exact Hn].
    apply (newer_bound _ (<[tok := now]> m) _ t); [|exact Hlog]. etrans; [apply reap_sub|exact Hsub].
Qed.

Lemma agrees_step g m log cleared s a : agrees g m log cleared s →
  ∃ s', agrees (step g a).2 (grant g m a) (log ++ option_list (issued g a)) (cleared ++ option_list (cleared_at a)) s'.
Proof using All.
  intros Hag. pose proof (ag_store _ _ _ _ _ Hag) as Hs. destruct a as [rq now|i raw now later|rq now|rq now|rq now]; unfold grant; cbn [serve fst snd issued cleared_at] in *; cbv [option_list option_rect]; rewrite ?(app_nil_r log).
  - exists s. assert (g_store (sign_in decode_login rq now g).2 = g_store g) as E.
    { unfold sign_in. destruct (decode_login _); [|done]. by destruct (begin _ _ _) as [[]]. }
    destruct (answered_204 _); by apply agrees_same with g.
  - unfold compared. destruct (g_inflight g !! i) as [[[rq client] password]|]; [|destruct raw; rewrite ?app_nil_r; exists s; by apply agrees_same with g].
    destruct (matches _ _ _); [|destruct raw; rewrite ?app_nil_r; exists s; by apply agrees_same with g].
    rewrite Hs. unfold signed_in. destruct raw as [raw|]; [|rewrite ?app_nil_r; exists s; by apply agrees_same with g].
    pose proof (Create_spec raw now later s) as Hc. destruct (Create (Some raw) now later s) as [r s'] eqn:Ec. destruct Hc as (-> & _). cbn.
    assert (s' = (Create (Some raw) now later s).2) as -> by (by rewrite Ec). eexists. by apply (agrees_grant g).
  - exists s. rewrite (app_nil_r cleared). destruct (answered_204 _); destruct Hag; by split.
  - rewrite (app_nil_r cleared). pose proof (Require_not_204 rq now (g_store g)) as Hn. destruct (RequireCredential _ _ _ _ _ _) as [st c r|]; cbn [fst snd].
    + rewrite Hn. by exists s.
    + destruct Hag as [A1 A2 A3 A4 A5]. rewrite Hs. cbn. destruct (h_cookie rq) as [c|]; cbn; [|by exists s]. exists (Delete c s). split; [done|done|..]; cbn.
      * rewrite fmap_delete. by apply delete_mono.
      * intros c' t [_ Hm]%lookup_delete_Some. by apply A4.
      * intros c' t [Hne Hm]%lookup_delete_Some Hcl Hnew. rewrite lookup_delete_ne by done. by apply A5.
  - rewrite (app_nil_r cleared), Require_not_204. by exists s.
Qed.

Lemma agrees_run acts : ∀ g m log cleared s, agrees g m log cleared s →
  ∃ s', agrees (run sha256 decode_login cfg token g acts) (grants g m acts) (log ++ issues g acts) (cleared ++ omap cleared_at acts) s'.
Proof using All.
  induction acts as [|a acts IH]; intros g m log cleared s Hg; [exists s; by rewrite !app_nil_r|].
  destruct (agrees_step _ _ _ _ _ a Hg) as [s1 Hs1]. destruct (IH _ _ _ _ _ Hs1) as [s' Hs']. exists s'.
  cbn [issues omap list_omap run foldl grants]. rewrite (app_assoc log). replace (cleared ++ match cleared_at a with Some y => y :: omap cleared_at acts | None => omap cleared_at acts end)
    with ((cleared ++ option_list (cleared_at a)) ++ omap cleared_at acts) by (rewrite <- app_assoc; by destruct (cleared_at a)). exact Hs'.
Qed.

Lemma agrees_start : agrees (start lifetime) ∅ [] [] (NewSessionStore lifetime).
Proof using Type. split; cbn; [done|done|by rewrite fmap_empty|intros c t; by rewrite lookup_empty..]. Qed.

Lemma grants_password acts : cfg.(Password) = [] → ∀ g, grants g ∅ acts = ∅.
Proof.
  intros Hp. induction acts as [|a acts IH]; intros g; [done|]. cbn. assert (grant g ∅ a = ∅) as ->; [|apply IH].
  unfold grant. destruct (answered_204 _) eqn:E; [|done]. destruct a as [|i [raw|] now later| |rq now|]; try done.
  - cbn in E. unfold compared in E. destruct (g_inflight g !! i) as [[[rq client] password]|]; [|done].
    unfold matches in E. by rewrite bool_decide_eq_true_2 in E by done.
  - destruct (h_cookie rq); [apply delete_empty|done].
Qed.

Lemma exempt_api rq : sessionRequestExempt rq = true → has_prefix (str "/api/") rq.(h_path) = true →
  rq.(h_path) = str "/api/v1/session" ∧ rq.(h_method) ∈ [str "GET"; str "POST"].
Proof.
  intros He Hp. unfold sessionRequestExempt in He. rewrite Hp in He. cbn [negb orb] in He. apply orb_true_iff in He as [He|He].
  all: apply bool_decide_eq_true in He; unfold sessionExemptPaths in He; repeat (apply elem_of_cons in He as [He|He]); [..|by apply elem_of_nil in He].
  all: try (by rewrite He in Hp; vm_compute in Hp).
  all: assert ((rq.(h_method) ++ str " " ++ rq.(h_path)) !! length rq.(h_method) = Some " "%byte) as Hl by (by rewrite lookup_app_r, Nat.sub_diag).
  all: assert (rq.(h_path) = drop (S (length rq.(h_method))) (rq.(h_method) ++ str " " ++ rq.(h_path))) as Hpath
    by (change (str " " ++ rq.(h_path)) with (" "%byte :: rq.(h_path)); by rewrite (cons_middle " "%byte), app_assoc, drop_app_length' by (rewrite length_app; cbn; lia)).
  all: assert (rq.(h_method) = take (length rq.(h_method)) (rq.(h_method) ++ str " " ++ rq.(h_path))) as Hmeth by (by rewrite take_app_length).
  all: rewrite He in Hl, Hpath, Hmeth; revert Hl Hpath Hmeth; generalize (length rq.(h_method)); intros n Hl Hpath Hmeth.
  all: do 25 (destruct n as [|n]; [first [done | split; [exact Hpath|rewrite Hmeth; vm_compute; set_solver]]|]); done.
Qed.

Lemma signed_in_matches g i raw now later : answered_204 (step g (Compared i raw now later)).1 = true →
  ∃ rq client password, g.(g_inflight) !! i = Some (rq, client, password) ∧ cfg.(Password) ≠ [] ∧ secretsEqual sha256 password cfg.(Password) = true.
Proof.
  cbn. unfold compared. destruct (g_inflight g !! i) as [[[rq client] password]|]; [|done]. unfold matches.
  destruct (bool_decide (cfg.(Password) = [])) eqn:Ep; cbn [negb andb]; [done|]. destruct (secretsEqual _ _ _) eqn:Es; [|done].
  intros _. exists rq, client, password. apply bool_decide_eq_false in Ep. by split_and!.
Qed.

(** C12: The gate of the API opens for whom it is meant to. Over any history of requests, with
    sign-ins in flight and answered in any order, a request is served only when it carries
    the agents' token or the cookie of a session that a sign-in was granted, whose lifetime
    has not passed and that was not signed out; of the paths under the API only signing in
    and asking for the state of one's session are exempt. A sign-in is granted only for the
    configured password, never when none is configured. And such a session does open the
    gate, as long as the clock did not go back (no earlier sign-in ended at an instant past
    the session's end) and no more than 4096 sessions, itself included, were granted at its
    instant or later: past that the oldest are dropped. *)
Theorem gate_opens_for_granted acts :
  let g := run sha256 decode_login cfg token (start lifetime) acts in
  let m := grants (start lifetime) ∅ acts in
  (∀ rq now, RequireCredential sha256 cfg token rq now g.(g_store) = Served →
    ((has_prefix (str "/api/") rq.(h_path) = false ∨ (rq.(h_path) = str "/api/v1/session" ∧ rq.(h_method) ∈ [str "GET"; str "POST"])) ∨
     auth_Validate sha256 token rq.(h_authorization) = true ∨
     ∃ c (t : Time), rq.(h_cookie) = Some c ∧ m !! c = Some t ∧ now < t + lifetime)) ∧
  (∀ i raw now later, answered_204 (step g (Compared i raw now later)).1 = true →
    ∃ rq client password, g.(g_inflight) !! i = Some (rq, client, password) ∧ cfg.(Password) ≠ [] ∧ secretsEqual sha256 password cfg.(Password) = true) ∧
  (∀ rq (now : Time) c (t : Time), rq.(h_cookie) = Some c → m !! c = Some t → now < t + lifetime →
    Forall (λ l, l < t + lifetime) (omap cleared_at acts) → (newer t (issues (start lifetime) acts) ≤ sessionHardCap)%nat →
    RequireCredential sha256 cfg token rq now g.(g_store) = Served).
Proof.
  intros g m. destruct (agrees_run acts _ _ _ _ _ agrees_start) as (s & [Hs _ Hsub _ Hkeep]). cbn [app] in *. fold g m in Hs, Hsub, Hkeep. split_and!.
  - intros rq now. unfold RequireCredential. destruct (sessionRequestExempt rq) eqn:Ee.
    { intros _. left. destruct (has_prefix (str "/api/") (h_path rq)) eqn:Ep; [right; by apply exempt_api|by left]. }
    destruct (auth_Validate _ _ _); [by intros _; right; left|]. destruct (_ && _); [done|]. unfold live_session. rewrite Hs. cbn.
    destruct (h_cookie rq) as [c|]; [|done]. cbn. unfold Validate. destruct (sessions s !! c) as [e|] eqn:Ec; [|done].
    destruct (Before now e) eqn:Eb; [|done]. intros _. right. right. eapply lookup_weaken in Ec; [|exact Hsub].
    rewrite lookup_fmap in Ec. apply fmap_Some in Ec as (t & Hm & ->). exists c, t. split_and!; [done|exact Hm|]. unfold Before, Add in Eb. lia.
  - intros i raw now later. apply signed_in_matches.
  - intros rq now c t Hc Hm Hn Hcl Hnew. specialize (Hkeep c t Hm Hcl Hnew).
    unfold RequireCredential. destruct (sessionRequestExempt rq); [done|]. destruct (auth_Validate _ _ _); [done|].
    rewrite (bool_decide_eq_false_2 (cfg.(Password) = [])), andb_false_r.
    2: { intros Hp. unfold m in Hm. rewrite grants_password in Hm by done. by rewrite lookup_empty in Hm. }
    unfold live_session. rewrite Hs, Hc. cbn. unfold Validate. rewrite Hkeep.
    unfold Before, Add. by replace (now <? t + lifetime) with true by lia.
Qed.
End granted.

(** ** How much a flood can make the server hold, and how often it can guess *)

Section limits.
Context `{RangeOrderLaws, UnicodeLower} (sha256 : text → text) (decode_login : text → option text).
Variables (cfg : UIConfig) (token : option text).

Abbreviation step := (serve sha256 decode_login cfg token).

Lemma older_found keep (P : text → Prop) (l : list (text * loginBudget)) : ∀ best,
  (∀ b, best = Some b → b.1 ≠ keep ∧ P b.1) → (∀ x, x ∈ l → P x.1) →
  (∀ b, foldl (older keep) best l = Some b → b.1 ≠ keep ∧ P b.1) ∧
  (best ≠ None ∨ (∃ x, x ∈ l ∧ x.1 ≠ keep) → foldl (older keep) best l ≠ None).
Proof using Type.
  induction l as [|x l IH]; intros best Hb Hl; cbn [foldl].
  { split; [done|]. intros [Hn|(x & Hx & _)]; [done|]. by apply elem_of_nil in Hx. }
  assert ((∀ b, older keep best x = Some b → b.1 ≠ keep ∧ P b.1) ∧ (best ≠ None ∨ x.1 ≠ keep → older keep best x ≠ None)) as [Ha1 Ha2].
  { assert (P x.1) by (apply Hl; left). unfold older. case_bool_decide as Ex; [split; [done|by intros []]|].
    destruct best as [b|]; [destruct (Before _ _)|]; split; try done; try (by intros _); intros b' [= <-]; cbn; first [by split|by apply Hb]. }
  destruct (IH (older keep best x) Ha1) as [Ha3 Ha4]; [intros y Hy; apply Hl; by right|]. split; [done|].
  intros Hx. apply Ha4. destruct Hx as [Hx|(y & Hy & Hne)]; [left; by apply Ha2; left|]. apply elem_of_cons in Hy as [->|Hy]; [left; apply Ha2; by right|].
  right. by exists y.
Qed.

Lemma oldest_client_in keep (m : gmap text loginBudget) : (2 ≤ size m)%nat → is_Some (m !! oldest_client keep m) ∧ oldest_client keep m ≠ keep.
Proof using All.
  intros Hs. destruct (older_found keep (λ k, is_Some (m !! k)) (visit m) None) as [H1' H2'].
  - done.
  - intros [k b] Hx. rewrite visit_perm in Hx. apply elem_of_map_to_list in Hx. by exists b.
  - unfold oldest_client. destruct (foldl _ _ _) as [b|] eqn:E; cbn; [by destruct (H1' b)|]. exfalso. apply H2'; [right|done].
    destruct (map_choose (delete keep m)) as (k & b & Hk).
    { intros E0. apply (f_equal size) in E0. rewrite map_size_delete, map_size_empty in E0. revert E0. destruct (m !! keep); unfold id; lia. }
    apply lookup_delete_Some in Hk as [Hne Hk]. exists (k, b). rewrite visit_perm. split; [by apply elem_of_map_to_list|cbn; congruence].
Qed.

Lemma size_delete_le {V} (m : gmap text V) k : (size (delete k m) ≤ size m)%nat.
Proof using Type. rewrite map_size_delete. destruct (m !! k); unfold id; lia. Qed.

Lemma trim_loop_size keep fuel : ∀ m, (size m ≤ fuel + sessionLoginMaxClients)%nat → (size (trim_loop fuel keep m) ≤ sessionLoginMaxClients)%nat.
Proof using All.
  induction fuel as [|fuel IH]; intros m Hm; cbn [trim_loop]; [cbn in Hm; lia|]. destruct (_ <? size m)%nat eqn:E; [|by apply Nat.ltb_ge in E].
  apply Nat.ltb_lt in E. apply IH. destruct (oldest_client_in keep m) as [[b Hb] _]; [unfold sessionLoginMaxClients in *; lia|].
  rewrite map_size_delete_Some by by exists b. lia.
Qed.

Lemma trimLocked_size now keep m : (size (trimLocked now keep m) ≤ sessionLoginMaxClients)%nat.
Proof using All.
  unfold trimLocked. destruct (_ <=? _)%nat eqn:E; [by apply Nat.leb_le in E|]. apply trim_loop_size. lia.
Qed.

Lemma foldr_delete_size {V} (m : gmap text V) ks : NoDup ks → (∀ k, k ∈ ks → is_Some (m !! k)) → size (foldr delete m ks) = (size m - length ks)%nat.
Proof using Type.
  induction ks as [|k ks IH]; intros Hn Hk; cbn; [lia|]. apply NoDup_cons in Hn as [Hnk Hn].
  rewrite map_size_delete_Some, IH; [lia|done|intros; apply Hk; by right|].
  rewrite lookup_foldr_delete_not_elem_of by done. apply Hk. by left.
Qed.

Lemma enforceCap_size s : (size (enforceCap s).(sessions) ≤ sessionHardCap)%nat.
Proof using All.
  unfold enforceCap. destruct (_ <=? _)%nat eqn:E; [by apply Nat.leb_le in E|]. cbn. set (es := sort_slice _ _).
  assert (es ≡ₚ map_to_list s.(sessions)) as Hp by (unfold es; by rewrite sort_slice_perm, visit_perm).
  assert (length es = size s.(sessions)) as Hlen by (by rewrite Hp, length_map_to_list).
  rewrite foldr_delete_size.
  - rewrite length_fmap, length_take, Hlen. lia.
  - apply (sublist_NoDup _ es.*1); [rewrite Hp; apply NoDup_fst_map_to_list|]. apply fmap_sublist, sublist_take.
  - intros k ([k' t] & -> & Hk)%list_elem_of_fmap. apply (subseteq_take _ es) in Hk. rewrite Hp in Hk. apply elem_of_map_to_list in Hk. by exists t.
Qed.

Lemma Create_size raw now later s : (size s.(sessions) ≤ sessionHardCap)%nat → (size (Create raw now later s).2.(sessions) ≤ sessionHardCap)%nat.
Proof using All.
  intros Hs. destruct raw as [raw|]; [|done]. cbn [Create snd]. destruct (_ <? _)%nat eqn:E; [apply enforceCap_size|].
  apply Nat.ltb_ge in E. unfold sessionReapThreshold, sessionHardCap in *. lia.
Qed.

(** What the process holds for its clients. *)
Record bounded (g : Gate) : Prop := {
  bd_slots : g.(g_limiter).(slots) = length g.(g_inflight);
  bd_inflight : (length g.(g_inflight) ≤ sessionLoginMaxInFlight)%nat;
  bd_clients : (size g.(g_limiter).(attempts) ≤ sessionLoginMaxClients)%nat;
  bd_sessions : match g.(g_store) with Some s => (size s.(sessions) ≤ sessionHardCap)%nat | None => True end;
}.

Lemma bounded_step g a : bounded g → bounded (step g a).2.
Proof using All.
  intros Hg. pose proof Hg as [Hsl Hin Hcl Hse]. destruct a as [rq now|i raw now later|rq now|rq now|rq now]; cbn [serve snd]; [| |done| |done].
  - unfold sign_in. destruct (decode_login _); [|done]. unfold begin. destruct (_ <=? _)%nat eqn:Es; cbn [snd]; [by destruct g|]. apply Nat.leb_gt in Es.
    destruct (_ <=? _); cbn [snd]; [by destruct g|]. split; cbn; [|..|apply trimLocked_size|done]; rewrite ?length_app; cbn; lia.
  - unfold compared. destruct (g_inflight g !! i) as [[[rq client] password]|] eqn:Ei; [|done].
    assert (length (delete i g.(g_inflight)) = pred (length g.(g_inflight))) as Hd by (rewrite length_delete by (by rewrite Ei); lia).
    destruct (matches _ _ _).
    + unfold signed_in. destruct (g_store g) as [s|] eqn:Est.
      * pose proof (Create_size raw now later s Hse). destruct (Create raw now later s) as [[[tok e]|] s']; cbn in *;
          (split; cbn; [congruence|lia| |done]); (etrans; [apply size_delete_le|done]).
      * split; cbn; [congruence|lia| |done]. etrans; [apply size_delete_le|done].
    + split; cbn; [congruence|lia|done..].
  - destruct (RequireCredential _ _ _ _ _ _); [done|]. cbn. unfold sign_out. cbn. destruct (g_store g) as [s|] eqn:Est; [|by destruct g].
    destruct (h_cookie rq); [|by destruct g]. split; cbn; [done..|]. etrans; [apply size_delete_le|done].
Qed.

(** However requests arrive, the process holds a bounded amount for them: at most 4096
    sessions, the counts of at most 4096 clients and eight sign-ins in flight, each of them
    with its slot. *)
Theorem flood_is_bounded lifetime acts : bounded (run sha256 decode_login cfg token (start lifetime) acts).
Proof using All.
  assert (bounded (start lifetime)) as Hs by (split; cbn; rewrite ?map_size_empty; unfold sessionLoginMaxInFlight; lia).
  revert Hs. generalize (start lifetime). induction acts as [|a acts IH]; intros g Hg; [done|]. by apply IH, bounded_step.
Qed.

(** *** Guessing *)

Variables (lifetime : Duration) (c : text).

Definition client_of (a : act) : option text := match a with SignIn rq _ => Some (sessionClientAddress rq) | _ => None end.
Definition sign_in_time (a : act) : option Time := match a with SignIn _ now => Some now | _ => None end.

(** The instant of a sign-in of [c] whose password is going to be compared. *)
Definition admitted (g : Gate) (a : act) : option Time :=
  match a, (step g a).1 with
  | SignIn rq now, None => if bool_decide (sessionClientAddress rq = c) then Some now else None
  | _, _ => None
  end.

Fixpoint admissions (g : Gate) (acts : list act) : list Time :=
  match acts with
  | [] => []
  | a :: acts => option_list (admitted g a) ++ admissions (step g a).2 acts
  end.

(** The client guesses wrongly. *)
Definition wrong (acts : list act) : Prop :=
  ∀ rq now password, SignIn rq now ∈ acts → sessionClientAddress rq = c → decode_login rq.(h_body) = Some password → matches sha256 cfg password = false.

Abbreviation after := (run sha256 decode_login cfg token (start lifetime)).

Record guessing (acts : list act) : Prop := {
  gu_clients : ∀ k, is_Some ((after acts).(g_limiter).(attempts) !! k) → k ∈ omap client_of acts;
  gu_inflight : ∀ x, x ∈ (after acts).(g_inflight) → x.1.2 = c → matches sha256 cfg x.2 = false;
  gu_times : ∀ t, t ∈ admissions (start lifetime) acts → t ∈ omap sign_in_time acts;
  gu_budget : match admissions (start lifetime) acts with
    | [] => (after acts).(g_limiter).(attempts) !! c = None
    | (t0 :: _) as ts => ∃ k ws n, 0 ≤ k ∧ 0 ≤ n ≤ sessionLoginMaxAttempts ∧ (after acts).(g_limiter).(attempts) !! c = Some (mkBudget ws n) ∧
        t0 + k * sessionLoginWindow ≤ ws ∧ ws ∈ ts ∧ Z.of_nat (length ts) ≤ sessionLoginMaxAttempts * k + n
    end;
}.

Lemma admissions_app acts a g : admissions g (acts ++ [a]) = admissions g acts ++ option_list (admitted (run sha256 decode_login cfg token g acts) a).
Proof using Type.
  revert g. induction acts as [|b acts IH]; intros g; cbn [admissions app]; [by rewrite app_nil_r|]. rewrite IH, app_assoc. done.
Qed.

Lemma session_run_app acts a g : run sha256 decode_login cfg token g (acts ++ [a]) = (step (run sha256 decode_login cfg token g acts) a).2.
Proof using Type. unfold run. by rewrite foldl_app. Qed.

(** A step that is not a sign-in of [c] that is let through. *)
Lemma guessing_skip acts a : guessing acts → admitted (after acts) a = None →
  (∀ k, is_Some ((step (after acts) a).2.(g_limiter).(attempts) !! k) → k ∈ omap client_of (acts ++ [a])) →
  (∀ x, x ∈ (step (after acts) a).2.(g_inflight) → x.1.2 = c → matches sha256 cfg x.2 = false) →
  (step (after acts) a).2.(g_limiter).(attempts) !! c = (after acts).(g_limiter).(attempts) !! c → guessing (acts ++ [a]).
Proof using Type.
  intros [G1 G2 G3 G4] Ha Hk Hi Hc. split; rewrite ?session_run_app, ?admissions_app, ?Ha, ?app_nil_r; [done|done| |].
  - intros t Ht. rewrite omap_app. apply elem_of_app. left. by apply G3.
  - by rewrite Hc.
Qed.

Definition few_clients (acts : list act) : Prop := (size (list_to_set (omap client_of acts) : gset text) ≤ sessionLoginMaxClients)%nat.
Definition clock_ok (acts : list act) : Prop := StronglySorted Z.le (omap sign_in_time acts) ∧ Forall (λ t, sessionLoginWindow ≤ t) (omap sign_in_time acts).

Lemma trim_nothing now keep acts (m : gmap text loginBudget) :
  few_clients acts → (∀ k, is_Some (m !! k) → k ∈ omap client_of acts) → trimLocked now keep m = m.
Proof using Type.
  intros Hf Hm. unfold trimLocked. replace (size m <=? sessionLoginMaxClients)%nat with true; [done|]. symmetry. apply Nat.leb_le.
  etrans; [|exact Hf]. rewrite <- size_dom. apply subseteq_size. intros k Hk. apply elem_of_list_to_set, Hm. by apply elem_of_dom.
Qed.

Lemma last_window acts a now t : clock_ok (acts ++ [a]) → sign_in_time a = Some now → t ∈ omap sign_in_time acts → t ≤ now.
Proof using Type.
  intros [Hs _] Ha Ht. rewrite omap_app in Hs. cbn in Hs. rewrite Ha in Hs. apply StronglySorted_app in Hs as (Hs & _).
  apply (Hs t now); [done|]. left.
Qed.

Lemma guessing_admits acts rq now password : guessing acts → wrong (acts ++ [SignIn rq now]) → few_clients (acts ++ [SignIn rq now]) →
  clock_ok (acts ++ [SignIn rq now]) → sessionClientAddress rq = c → decode_login rq.(h_body) = Some password →
  (begin c now (after acts).(g_limiter)).1 = None → guessing (acts ++ [SignIn rq now]).
Proof using Type.
  set (a := SignIn rq now). intros [G1 G2 G3 G4] Hw Hf Hclk Hc Hd Hb. set (g := after acts) in *.
  assert (∀ t, t ∈ admissions (start lifetime) acts → t ≤ now) as Hpast by (intros t Ht; eapply last_window; [exact Hclk|done|by apply G3]).
  unfold begin in Hb. destruct (_ <=? _)%nat eqn:Es; [done|]. set (bud := current_budget c now g.(g_limiter)) in *.
  destruct (sessionLoginMaxAttempts <=? bud.(count)) eqn:Ec; [done|]. apply Z.leb_gt in Ec.
  assert (step g a = (None, mkGate g.(g_store) (mkLimiter (<[c := mkBudget bud.(windowStart) (bud.(count) + 1)]> g.(g_limiter).(attempts)) (S g.(g_limiter).(slots)))
    (g.(g_inflight) ++ [(rq, c, password)]))) as Est.
  { unfold a. cbn [serve]. unfold sign_in. rewrite Hd, Hc. unfold begin. rewrite Es. fold bud. replace (sessionLoginMaxAttempts <=? bud.(count)) with false by lia.
    rewrite (trim_nothing _ _ (acts ++ [a])); [done|done|]. intros k [x Hk]. rewrite omap_app. apply elem_of_app.
    apply lookup_insert_Some in Hk as [[<- _]|[_ Hk]]; [right; cbn; rewrite Hc; left|left; apply G1; by exists x]. }
  assert (admitted g a = Some now) as Had.
  { change (admitted g a) with (match (step g a).1 with None => if bool_decide (sessionClientAddress rq = c) then Some now else None | Some _ => None end).
    rewrite Est. cbn. by rewrite bool_decide_eq_true_2. }
  split; rewrite ?session_run_app, ?admissions_app; fold g; rewrite ?Est, ?Had; cbn [snd g_limiter attempts g_inflight option_list].
  - intros k [x Hk]. rewrite omap_app. apply elem_of_app. apply lookup_insert_Some in Hk as [[<- _]|[_ Hk]]; [right; cbn; rewrite Hc; left|left; apply G1; by exists x].
  - intros x Hx Hxc. apply elem_of_app in Hx as [Hx|Hx]; [by apply G2|]. apply list_elem_of_singleton in Hx as ->. eapply Hw; [|exact Hc|exact Hd]. apply elem_of_app. right. left.
  - intros t Ht. rewrite omap_app. apply elem_of_app. apply elem_of_app in Ht as [Ht|Ht]; [left; by apply G3|right; cbn; apply list_elem_of_singleton in Ht as ->; left].
  - rewrite lookup_insert_eq. assert (sessionLoginWindow ≤ now) as Hnow.
    { destruct Hclk as [_ Hclk]. rewrite omap_app in Hclk. apply Forall_app in Hclk as [_ Hclk]. by apply Forall_inv in Hclk. }
    assert (0 < sessionLoginWindow ≤ max_int64) as Hwin by (vm_compute; split; [done|discriminate]).
    unfold bud, current_budget in *. destruct (admissions (start lifetime) acts) as [|t0 ts] eqn:Ets.
    + rewrite G4 in *. cbn [default windowStart count app] in *. assert (sessionLoginWindow <=? Sub now zero_time = true) as -> by (apply Z.leb_le, Sub_ge; [done|unfold zero_time; lia]).
      cbn. exists 0, now, 1. unfold sessionLoginMaxAttempts. split_and!; [lia..|done|lia|left|cbn; lia].
    + destruct G4 as (k & ws & n & Hk & Hn & Hl & Hws & Hin & Hlen). rewrite Hl in *. cbn [default windowStart count app] in *.
      cbn [length] in *. rewrite length_app. cbn [length].
      destruct (sessionLoginWindow <=? Sub now ws) eqn:E.
      * cbn in Ec |- *. rewrite E in *. apply Z.leb_le, Sub_ge in E; [|done]. cbn. exists (k + 1), now, 1. unfold sessionLoginMaxAttempts in *. split_and!; [lia..|done|lia| |cbn; lia]. right. apply elem_of_app. right. left.
      * cbn in Ec |- *. rewrite E in *. cbn in *. exists k, ws, (n + 1). split_and!; [lia..|done|lia| |cbn; lia]. apply elem_of_cons. apply elem_of_cons in Hin as [->|Hin]; [by left|right; apply elem_of_app; by left].
Qed.

Lemma omap_grow (acts : list act) a k : k ∈ omap client_of acts → k ∈ omap client_of (acts ++ [a]).
Proof using Type. rewrite omap_app, elem_of_app. by left. Qed.

Lemma guessing_step acts a : guessing acts → wrong (acts ++ [a]) → few_clients (acts ++ [a]) → clock_ok (acts ++ [a]) → guessing (acts ++ [a]).
Proof using Type.
  intros Hg Hw Hf Hclk. pose proof Hg as [G1 G2 _ _]. set (g := after acts) in *.
  assert (∀ o, step g a = (o, g) → guessing (acts ++ [a]) ∨ o = None) as Hsame.
  { intros o E. destruct o as [r|]; [left|by right]. apply guessing_skip; [done| |fold g; rewrite E; cbn; intros k Hk; by apply omap_grow, G1|fold g; rewrite E; exact G2|fold g; by rewrite E].
    unfold admitted. fold g. destruct a; try done. by rewrite E. }
  destruct a as [rq now|i raw now later|rq now|rq now|rq now].
  - destruct (decode_login rq.(h_body)) as [password|] eqn:Ed.
    2: { destruct (Hsame (Some (Reply 400 None None))) as [|]; [cbn; unfold sign_in; by rewrite Ed|done|done]. }
    destruct (decide (sessionClientAddress rq = c)) as [Hc|Hc].
    + destruct (begin c now g.(g_limiter)) as [[wait|] l] eqn:Eb; [|by eapply guessing_admits; [..|fold g; by rewrite Eb]].
      assert (l = g.(g_limiter)) as ->.
      { unfold begin in Eb. destruct (_ <=? _)%nat; [by injection Eb as _ <-|]. destruct (_ <=? _); [by injection Eb as _ <-|done]. }
      destruct (Hsame (Some (Reply 429 None (Some (retryAfterSeconds wait))))) as [|]; [|done|done]. cbn. unfold sign_in. rewrite Ed, Hc, Eb. by destruct g.
    + set (a := SignIn rq now) in *. set (client := sessionClientAddress rq) in *.
      assert ((step g a).2.(g_limiter).(attempts) !! c = g.(g_limiter).(attempts) !! c ∧
        (∀ k, is_Some ((step g a).2.(g_limiter).(attempts) !! k) → k ∈ omap client_of (acts ++ [a])) ∧
        (∀ x, x ∈ (step g a).2.(g_inflight) → x ∈ g.(g_inflight) ∨ x.1.2 = client)) as (E1 & E2 & E3).
      { unfold a. cbn [serve]. unfold sign_in. rewrite Ed. fold client. unfold begin. destruct (_ <=? _)%nat; [split_and!; cbn; [done|intros k Hk; by apply omap_grow, G1|by left]|].
        destruct (_ <=? _); [split_and!; cbn; [done|intros k Hk; by apply omap_grow, G1|by left]|]. cbn [snd g_limiter attempts g_inflight].
        set (bud := mkBudget _ _). assert (∀ k, is_Some (<[client := bud]> g.(g_limiter).(attempts) !! k) → k ∈ omap client_of (acts ++ [a])) as Hk.
        { intros k [x Hk]. apply lookup_insert_Some in Hk as [[<- _]|[_ Hk]]; [|apply omap_grow, G1; by exists x].
          rewrite omap_app. apply elem_of_app. right. left. }
        rewrite (trim_nothing _ _ (acts ++ [a])) by done. split_and!; [by rewrite lookup_insert_ne|done|].
        intros x Hx. apply elem_of_app in Hx as [Hx|Hx]; [by left|]. apply list_elem_of_singleton in Hx as ->. by right. }
      apply guessing_skip; [done| |done|fold g|done].
      * unfold admitted, a. destruct (step _ _).1; [done|]. by rewrite bool_decide_eq_false_2.
      * intros x Hx Hxc. destruct (E3 x Hx) as [Hx'|Hx']; [by apply G2|congruence].
  - assert (∀ client x, x ∈ (after acts).(g_inflight) → matches sha256 cfg x.2 = true → x.1.2 = client → client ≠ c) as Hother.
    { intros client x Hx Hm <- Hxc. specialize (G2 x Hx Hxc). congruence. }
    apply guessing_skip; [done|done|..]; fold g; cbn [serve]; unfold compared.
    all: destruct (g.(g_inflight) !! i) as [[[rq client] password]|] eqn:Ei; [|by cbn; first [done | intros k Hk; apply omap_grow, G1]].
    all: pose proof (list_elem_of_lookup_2 _ _ _ Ei) as Hin.
    all: destruct (matches sha256 cfg password) eqn:Em; [destruct (signed_in _ _ _ _ _ _) as [r store]|]; cbn.
    + intros k [x Hk]. apply lookup_delete_Some in Hk as [_ Hk]. apply omap_grow, G1. by exists x.
    + intros k Hk. by apply omap_grow, G1.
    + intros x Hx. apply G2. eapply elem_of_sublist; [exact Hx|apply sublist_delete].
    + intros x Hx. apply G2. eapply elem_of_sublist; [exact Hx|apply sublist_delete].
    + apply lookup_delete_ne. by apply (Hother client _ Hin Em).
    + done.
  - by destruct (Hsame _ eq_refl).
  - apply guessing_skip; [done|done|..]; fold g; cbn [serve].
    all: destruct (RequireCredential _ _ _ _ _ _); cbn; first [done | intros k Hk; by apply omap_grow, G1].
  - by destruct (Hsame _ eq_refl).
Qed.

(** C13: Guessing the password is slow. For a client address none of whose sign-ins carries
    the right password (one that does clears the address's count), with a clock that starts
    after the first quarter of an hour and does not go back, and at most 4096 addresses that
    try (past that counts are dropped): however the requests of other clients mix with
    them, and whatever the server answers those, [n] guesses of the address that are
    compared take at least a quarter of an hour for every five but the first five. *)
Theorem guesses_are_slow acts : wrong acts → few_clients acts → clock_ok acts →
  let ts := admissions (start lifetime) acts in
  ∀ t0 t1, head ts = Some t0 → last ts = Some t1 → Z.of_nat (length ts) ≤ sessionLoginMaxAttempts * ((t1 - t0) / sessionLoginWindow + 1).
Proof using Type.
  intros Hw Hf Hclk. assert (guessing acts ∧ ∀ t t1, t ∈ admissions (start lifetime) acts → last (admissions (start lifetime) acts) = Some t1 → t ≤ t1) as [[_ _ _ G] Hle].
  { clear -Hw Hf Hclk. induction acts as [|a acts IH] using rev_ind; [split; [split; cbn|]|].
    1: intros k Hk; rewrite lookup_empty in Hk; by destruct Hk.
    1-2: by intros x ?%elem_of_nil.
    1: apply lookup_empty.
    1: by intros ?? ?%elem_of_nil.
    destruct IH as [Hg Hle].
    - intros rq now password Hin. apply (Hw rq now password). apply elem_of_app. by left.
    - unfold few_clients in *. etrans; [|exact Hf]. apply subseteq_size. rewrite omap_app. set_solver.
    - destruct Hclk as [Hs Ha]. rewrite omap_app in Hs, Ha. split; [by eapply StronglySorted_app_1_l|by apply Forall_app in Ha as []].
    - split; [by apply guessing_step|]. rewrite admissions_app. destruct (admitted _ a) as [now|] eqn:Ead; cbn [option_list]; [|by rewrite app_nil_r].
      assert (sign_in_time a = Some now) as Hnow.
      { unfold admitted in Ead. destruct a; try done. destruct (step _ _).1; [done|]. case_bool_decide; [done|discriminate]. }
      intros t t1 Ht. change (option_list (Some now)) with [now] in *. rewrite last_snoc. intros [= <-]. apply elem_of_app in Ht as [Ht|Ht]; [|apply list_elem_of_singleton in Ht; lia].
      eapply last_window; [exact Hclk|exact Hnow|by apply (gu_times _ Hg)]. }
  intros ts t0 t1 H0' H1'. fold ts in G, Hle. destruct ts as [|t0' ts']; [done|]. injection H0' as ->.
  destruct G as (k & ws & n & Hk & Hn & _ & Hws & Hin & Hlen). specialize (Hle ws t1 Hin H1').
  assert (k ≤ (t1 - t0) / sessionLoginWindow) as Hkk by (apply Z.div_le_lower_bound; [done|lia]).
  unfold sessionLoginMaxAttempts in *. lia.
Qed.
End limits.

(** ** One browser *)
Module Browser.
#[local] Instance ranges : RangeOrder := λ K V _ _ m, map_to_list m.
#[local] Instance ranges_laws : RangeOrderLaws.
Proof. split. reflexivity. Qed.
#[local] Instance lower : UnicodeLower := λ t, t.

Definition ui : UIConfig := mkUIConfig true (str "correct horse") (24 * Hour) (str "auto").
Definition noon : Time := 1000000 * Hour.
Definition post (password : text) : Http := mkHttp (str "POST") (str "/api/v1/session") [] None (str "10.0.0.9:51234") true [] password.
Definition raw : list byte := repeat xff 3.

(** A sign-in, and the request with the cookie it got. *)
Definition visit_once : list act := [SignIn (post (str "correct horse")) noon; Compared 0 (Some raw) noon noon].
Definition get (cookie : text) : Http := mkHttp (str "GET") (str "/api/v1/clusters") [] (Some cookie) (str "10.0.0.9:51235") true [] [].

Abbreviation serve_all := (run (λ t, t) Some ui None (start (24 * Hour))).

Lemma gate_opens_for_granted_witness :
  RequireCredential (λ t, t) ui None (get (str "____")) (noon + Hour) (serve_all visit_once).(g_store) = Served.
Proof.
  destruct (gate_opens_for_granted (λ t, t) Some ui None (24 * Hour) visit_once) as (_ & _ & Hopen).
  apply (Hopen (get (str "____")) (noon + Hour) (str "____") noon).
  - reflexivity.
  - vm_compute. reflexivity.
  - vm_compute. reflexivity.
  - repeat constructor.
  - apply Nat.leb_le. vm_compute. reflexivity.
Defined.

Lemma flood_is_bounded_witness : (length (serve_all visit_once).(g_inflight) ≤ sessionLoginMaxInFlight)%nat.
Proof. apply (flood_is_bounded (λ t, t) Some ui None (24 * Hour) visit_once). Defined.

(** Two wrong guesses in a minute. *)
Definition two_guesses : list act :=
  [SignIn (post (str "horse")) noon; Compared 0 None noon noon; SignIn (post (str "correct")) (noon + Minute); Compared 0 None noon noon].

Lemma guesses_are_slow_witness :
  admissions (λ t, t) Some ui None (str "10.0.0.9") (start (24 * Hour)) two_guesses = [noon; noon + Minute] ∧
  Z.of_nat (length (admissions (λ t, t) Some ui None (str "10.0.0.9") (start (24 * Hour)) two_guesses)) ≤ 5 * (Minute / sessionLoginWindow + 1).
Proof.
  assert (admissions (λ t, t) Some ui None (str "10.0.0.9") (start (24 * Hour)) two_guesses = [noon; noon + Minute]) as E by (vm_compute; reflexivity).
  split; [exact E|].
  pose proof (guesses_are_slow (λ t, t) Some ui None (24 * Hour) (str "10.0.0.9") two_guesses) as Hslow. cbv zeta in Hslow. rewrite E in *.
  apply (Hslow) with (t0 := noon) (t1 := noon + Minute).
  - intros rq now password Hin _ [= <-]. unfold two_guesses in Hin. repeat (apply elem_of_cons in Hin as [Hin|Hin]; [try discriminate Hin; injection Hin as -> _; vm_compute; reflexivity|]).
    destruct (not_elem_of_nil _ Hin).
  - apply Nat.leb_le. vm_compute. reflexivity.
  - split; [repeat constructor; vm_compute; discriminate|repeat constructor; vm_compute; discriminate].
  - reflexivity.
  - reflexivity.
Defined.
End Browser.
