(* ===== verification/Staleness.v ===== *)
(** * The staleness evaluator (internal/server/staleness.go)

    Every fifteen seconds the leader compares each instance's [last_seen] with the clock and
    writes an event pair when an instance goes down or comes back, an event for a cluster
    that has lost its primary, one for a replication slot that stays inactive and one for a
    slot whose WAL is lost, then purges what is past its retention. The store, the calls and
    their failures are those of [Pipeline]; the evaluator's own state is [Stale]. A
    goroutine's Start and Stop are not modelled: an evaluation is a step.

    The sets of emitted slots are Go maps that only hold [true]. *)
From stdpp Require Import pretty.
From S2P Require Import Prelude StateM GoTime GoFloat GoBytes GoText GoJson GoSort Pgtype AlertTypes PgIds Redact Wire Store PipelineRows Pipeline Inventory.

Definition evaluatorInterval : Duration := 15 * Second.
Definition noPrimaryThreshold : Duration := 60 * Second.
Definition slotInactiveThreshold : Duration := 30 * Second.
Definition slotStateWindow : Duration := 5 * Minute.
Definition eventRetention : Duration := 90 * 24 * Hour.
Definition eventPurgeInterval : Duration := Hour.
Definition eventPurgeBatch : nat := Z.to_nat 10000.
Definition queryTextRetention : Duration := 90 * 24 * Hour.
Definition queryTextPurgeInterval : Duration := Hour.
Definition queryTextPurgeBatch : nat := Z.to_nat 10000.
Definition topologyEdgeLiveness : Duration := Hour.

(** store/liveness.go *)
Definition ExpectedPushInterval : Duration := 30 * Second.
Definition InstanceStaleAfter : Duration := 3 * ExpectedPushInterval.

(** ** Check names *)

Definition knownChecks : list string :=
  ["activity"; "agent_self"; "archiver"; "ash"; "bloat_estimate"; "checkpointer"; "database_size"; "database_stats"; "extensions"; "fk_indexes";
   "function_security"; "function_stats"; "host"; "index_stats"; "instance_info"; "io"; "locks"; "logical_replication"; "monitoring_role";
   "partitions"; "postgis_columns"; "recovery"; "replication_receiver"; "replication_slots"; "replication_streaming"; "sequences"; "settings";
   "slru"; "stat_statements"; "table_stats"; "trigger_inventory"; "vacuum_progress"; "wal"; "wal_directory"].

Definition checkOther : string := "other".
Definition checkLabel (check : string) : string := if bool_decide (check ∈ knownChecks) then check else checkOther.

(** ** State *)

(** [threshold] is [InstanceStaleAfter]. *)
Definition isStaleUp (lastSeen now : Time) (threshold : Duration) : bool := negb (After now (Add lastSeen threshold)).

Record Stale := mkStale {
  instanceUp : gmap string bool;
  announcedLoaded : bool;
  clusterPrimarySeen : gmap string Time;
  clusterNoPrimaryEmitted : gmap string bool;
  slotInactiveSince : gmap string Time;
  slotInactiveEmitted : gset string;
  slotLostEmitted : gset string;
  lastEventPurge : Time;
  eventPurgeBacklog : bool;
  lastQueryTextPurge : Time;
  queryTextPurgeBacklog : bool;
  conn : bool; (* a session is pinned *)
  hasLock : bool;
  upGauge : gmap string float64;
  lastSeenGauge : gmap string float64;
}.

Definition NewStaleness : Stale := mkStale ∅ false ∅ ∅ ∅ ∅ ∅ zero_time false zero_time false false false ∅ ∅.

Definition with_up m loaded s := mkStale m loaded s.(clusterPrimarySeen) s.(clusterNoPrimaryEmitted) s.(slotInactiveSince) s.(slotInactiveEmitted) s.(slotLostEmitted)
  s.(lastEventPurge) s.(eventPurgeBacklog) s.(lastQueryTextPurge) s.(queryTextPurgeBacklog) s.(conn) s.(hasLock) s.(upGauge) s.(lastSeenGauge).
Definition with_clusters m e s := mkStale s.(instanceUp) s.(announcedLoaded) m e s.(slotInactiveSince) s.(slotInactiveEmitted) s.(slotLostEmitted)
  s.(lastEventPurge) s.(eventPurgeBacklog) s.(lastQueryTextPurge) s.(queryTextPurgeBacklog) s.(conn) s.(hasLock) s.(upGauge) s.(lastSeenGauge).
Definition with_slots since inactive lost s := mkStale s.(instanceUp) s.(announcedLoaded) s.(clusterPrimarySeen) s.(clusterNoPrimaryEmitted) since inactive lost
  s.(lastEventPurge) s.(eventPurgeBacklog) s.(lastQueryTextPurge) s.(queryTextPurgeBacklog) s.(conn) s.(hasLock) s.(upGauge) s.(lastSeenGauge).
Definition with_event_purge t b s := mkStale s.(instanceUp) s.(announcedLoaded) s.(clusterPrimarySeen) s.(clusterNoPrimaryEmitted) s.(slotInactiveSince) s.(slotInactiveEmitted)
  s.(slotLostEmitted) t b s.(lastQueryTextPurge) s.(queryTextPurgeBacklog) s.(conn) s.(hasLock) s.(upGauge) s.(lastSeenGauge).
Definition with_text_purge t b s := mkStale s.(instanceUp) s.(announcedLoaded) s.(clusterPrimarySeen) s.(clusterNoPrimaryEmitted) s.(slotInactiveSince) s.(slotInactiveEmitted)
  s.(slotLostEmitted) s.(lastEventPurge) s.(eventPurgeBacklog) t b s.(conn) s.(hasLock) s.(upGauge) s.(lastSeenGauge).
Definition with_lock c l s := mkStale s.(instanceUp) s.(announcedLoaded) s.(clusterPrimarySeen) s.(clusterNoPrimaryEmitted) s.(slotInactiveSince) s.(slotInactiveEmitted)
  s.(slotLostEmitted) s.(lastEventPurge) s.(eventPurgeBacklog) s.(lastQueryTextPurge) s.(queryTextPurgeBacklog) c l s.(upGauge) s.(lastSeenGauge).
Definition with_gauges u l s := mkStale s.(instanceUp) s.(announcedLoaded) s.(clusterPrimarySeen) s.(clusterNoPrimaryEmitted) s.(slotInactiveSince) s.(slotInactiveEmitted)
  s.(slotLostEmitted) s.(lastEventPurge) s.(eventPurgeBacklog) s.(lastQueryTextPurge) s.(queryTextPurgeBacklog) s.(conn) s.(hasLock) u l.

(** What else the outside decides at the [n]th call: whether the session is closed, whether
    the lock is free, which of several rows of one instant [DISTINCT ON] keeps, and which of
    the rows that match a [LIMIT] keeps. *)
Class StaleEnv := {
  session_closed : nat → bool;
  lock_granted : nat → bool;
  tie : ∀ {K : Type}, nat → K → nat;
  limit_picks : ∀ {A : Type}, nat → nat → list A → list A;
}.

(** The JSON text of an instant; [None] when its year has more than four digits. *)
Class TimeText := time_text : Time → option string.

(** The evaluator with its store. *)
Record SWorld := mkSWorld { sw_w : World; sw_s : Stale }.
Abbreviation SM := (EST SWorld failure).

Definition lift {A} (m : PM A) : SM A := λ x, let '(r, w) := m x.(sw_w) in (r, mkSWorld w x.(sw_s)).
Definition get_s {A} (f : Stale → A) : SM A := gets (λ x, f x.(sw_s)).
Definition put_s (f : Stale → Stale) : SM unit := puts (λ x, mkSWorld x.(sw_w) (f x.(sw_s))).

(** ** Slots *)

Record slotRow := mkSlotRow { sl_InstanceID : UUID; sl_ClusterID : Z; sl_SlotName : string; sl_Active : bool; sl_WALStatus : string }.

Definition slotLostStatus : string := "lost".

Section slots.
Context `{UuidText}.

Definition slotKey (instanceID : UUID) (slotName : string) : string := uuid_String instanceID +:+ "/" +:+ slotName.
Definition row_key (r : slotRow) : string := slotKey r.(sl_InstanceID) r.(sl_SlotName).
Abbreviation present rows := (λ key, key ∈ row_key <$> rows).

(** One row of [decideSlotLostEmissions]. *)
Definition lost_step (x : gset string * list slotRow) (r : slotRow) : gset string * list slotRow :=
  let '(emitted, out) := x in
  if negb (bool_decide (r.(sl_WALStatus) = slotLostStatus)) then (emitted ∖ {[row_key r]}, out)
  else if bool_decide (row_key r ∈ emitted) then (emitted, out)
  else ({[row_key r]} ∪ emitted, out ++ [r]).

Definition decideSlotLostEmissions (rows : list slotRow) (emitted : gset string) : gset string * list slotRow :=
  foldl lost_step (filter (present rows) emitted, []) rows.

(** One row of [decideSlotInactiveEmissions]. *)
Definition inactive_step (now : Time) (x : gmap string Time * gset string * list slotRow) (r : slotRow) : gmap string Time * gset string * list slotRow :=
  let '(since, emitted, out) := x in
  let key := row_key r in
  if r.(sl_Active) then (delete key since, emitted ∖ {[key]}, out)
  else match since !! key with
  | None => (<[key := now]> since, emitted, out)
  | Some t =>
      if (slotInactiveThreshold <? Sub now t) && negb (bool_decide (key ∈ emitted)) then (since, {[key]} ∪ emitted, out ++ [r])
      else (since, emitted, out)
  end.

Definition decideSlotInactiveEmissions (rows : list slotRow) (now : Time) (since : gmap string Time) (emitted : gset string) :
    gmap string Time * gset string * list slotRow :=
  foldl (inactive_step now) (filter (λ kv, kv.1 ∈ row_key <$> rows) since, filter (present rows) emitted, []) rows.
End slots.

(** ** Events *)

(** A value of an event's payload. *)
Inductive payval := PString (s : string) | PTime (t : Time).

Record staleEvent := mkStaleEvent { typ : string; clusterID : option Z; instanceID : option UUID; payload : list (string * payval) }.

(** The rows of a query: those of a key, the latest first, one kept. *)
Definition latest {A} (ts : A → Time) (pick : nat) (l : list A) : option A :=
  let top := filter (λ a, forallb (λ b, ts b <=? ts a) l = true) l in
  top !! (pick mod length top)%nat.

Definition distinct_on `{Countable K} {A} (key : A → K) (ts : A → Time) (pick : K → nat) (l : list A) : gmap K A :=
  foldr (λ a m, match latest ts (pick (key a)) (filter (λ b, key b = key a) l) with Some b => <[key a := b]> m | None => m end) ∅ l.

(** [ReplicationSourceSQL]; a row without a source holds [NULL]. *)
Definition ReplicationSourceSQL (r : ReplicationRow) : string :=
  if nonempty r.(rr_Source) then r.(rr_Source)
  else if bool_decide (is_Some r.(rr_UpstreamID)) then "receiver"
  else if bool_decide (is_Some (r.(rr_cols) !! "SlotActive")) then "slot"
  else "sender".

(** The state of a slot that a replication row reports. *)
Definition slot_row (since : Time) (x : sample) : option (Time * slotRow) :=
  match x with
  | SReplication r =>
      match r.(rr_cols) !! "SlotActive" with
      | Some (VBool active) =>
          if negb (Before r.(rr_TS) since) && nonempty r.(rr_SlotName) && bool_decide (ReplicationSourceSQL r = "slot")
          then Some (r.(rr_TS), mkSlotRow r.(rr_InstanceID) r.(rr_ClusterID) r.(rr_SlotName) active
            (match r.(rr_cols) !! "SlotWalStatus" with Some (VText s) => s | _ => "" end))
          else None
      | _ => None
      end
  | _ => None
  end.

Definition slot_states `{RangeOrder} (since : Time) (pick : UUID * string → nat) (d : DB) : list slotRow :=
  (λ x, x.2.2) <$> visit (distinct_on (λ x : Time * slotRow, (x.2.(sl_InstanceID), x.2.(sl_SlotName))) fst pick
    (omap (slot_row since) (map_to_list d.(samples)).*2)).

Record instInfo := mkInstInfo { in_id : UUID; in_cluster : Z; in_lastSeen : Time; in_role : Role; in_agent : UUID; in_revoked : bool }.

(** The instances with their owner's revocation, in the order of the query. *)
Definition instance_infos `{RangeOrder} (d : DB) : list instInfo :=
  (λ x, mkInstInfo x.1 x.2.(i_cluster) x.2.(i_last_seen) x.2.(i_role) x.2.(i_agent)
    (match d.(agents) !! x.2.(i_agent) with Some (Some _) => true | _ => false end)) <$> visit d.(instances).

Definition boolToFloat (b : bool) : float64 := if b then float_of_int 1 else fzero.

(** [t.Unix()]. *)
Definition Unix (t : Time) : Z := t / Second - 62135596800.

Section evaluator.
Context `{UuidText, RangeOrder, Jsonb, ServerEnv, StaleEnv, TimeText}.

Definition marshal_payload (p : list (string * payval)) : option (list (string * any)) :=
  mapM (λ kv, match kv.2 with PString s => Some (kv.1, AString s) | PTime t => (λ s, (kv.1, AString s)) <$> time_text t end) p.

Definition insertStaleEvent (ts : Time) (ev : staleEvent) : PM unit :=
  match marshal_payload ev.(payload) with
  | None => raise GoFailed
  | Some p => exec (InsertEvent (mkEventRow defaultTenant ts ev.(typ) ev.(clusterID) ev.(instanceID) p))
  end.

(** Events are written together or not at all. *)
Definition emitEvents (evs : list staleEvent) : PM unit :=
  in_transaction (ts ← now; fold_in (λ _, insertStaleEvent ts) () evs).

Definition emitEvent (typ : string) (clusterID : option Z) (instanceID : option UUID) (payload : list (string * payval)) : PM unit :=
  emitEvents [mkStaleEvent typ clusterID instanceID payload].

Definition transitionEvents (clusterID : Z) (instanceID : UUID) (up : bool) (lastSeen : Time) : list staleEvent :=
  let iid := ("instance_id", PString (uuid_String instanceID)) in
  let ev typ p := mkStaleEvent typ (Some clusterID) (Some instanceID) p in
  if up then [ev "agent_up" [iid]; ev "instance_reachable" [iid]]
  else [ev "agent_down" [iid; ("last_seen", PTime lastSeen)]; ev "instance_unreachable" [iid]].

(** What the events show as announced for each instance. *)
Definition is_agent_event (e : EventRow) : bool := bool_decide (e.(ev_Type) ∈ ["agent_up"; "agent_down"]).

Definition agent_state (e : EventRow) : option (UUID * (Time * bool)) :=
  if is_agent_event e then (λ id, (id, (e.(ev_TS), bool_decide (e.(ev_Type) = "agent_up")))) <$> e.(ev_InstanceID) else None.

Definition announced (pick : UUID → nat) (d : DB) : gmap string bool :=
  foldl (λ m x, <[uuid_String x.1 := x.2.2.2]> m) ∅
    (visit (distinct_on (λ x : UUID * (Time * bool), x.1) (λ x, x.2.1) pick (omap agent_state d.(events)))).

Definition announcedStates : PM (gmap string bool) := n ← gets w_calls; query (announced (tie n)).

(** ** Leadership *)

(** The number of the next call, which the outside answers. *)
Definition session_call (f : nat → bool) : SM bool := n ← lift call; mret (f n).

(** A call on the pinned session, or for one: whether it succeeds. *)
Definition session_ok : SM (option db_err) := n ← lift call; mret (answer n).

Definition releaseLeaderConn : SM unit := put_s (with_lock false false).

Definition try_lock : SM unit :=
  n ← lift call;
  match answer n with
  | Some e => releaseLeaderConn;; raise (DbFailed e)
  | None =>
      had ← get_s hasLock;
      put_s (λ s, with_lock s.(conn) (lock_granted n)
        (with_up s.(instanceUp) (if lock_granted n && negb had then false else s.(announcedLoaded)) s))
  end.

Definition acquire : SM unit :=
  c ← get_s conn;
  if c : bool then mret ()
  else
    e ← session_ok;
    match e with Some e => raise (DbFailed e) | None => put_s (λ s, with_lock true s.(hasLock) s) end.

Definition ensureLeader : SM unit :=
  c ← get_s conn;
  (if c : bool then closed ← session_call session_closed; if closed : bool then releaseLeaderConn else mret () else mret ());;
  s ← get_s id;
  if s.(hasLock) && s.(conn) then
    e ← session_ok;
    match e with
    | None => mret ()
    | Some _ => releaseLeaderConn;; acquire;; try_lock
    end
  else acquire;; try_lock.

(** ** One evaluation *)

Definition set_instance_up (id : UUID) (up : bool) (s : Stale) : Stale :=
  with_up (<[uuid_String id := up]> s.(instanceUp)) s.(announcedLoaded) s.

Definition report_gauges (now : Time) (s : Stale) (x : instInfo) : Stale :=
  with_gauges (<[uuid_String x.(in_id) := boolToFloat (isStaleUp x.(in_lastSeen) now InstanceStaleAfter)]> s.(upGauge))
    (<[uuid_String x.(in_id) := float_of_int (Unix x.(in_lastSeen))]> s.(lastSeenGauge)) s.

(** What a new leader takes as announced for an instance. *)
Definition rebuild (now : Time) (ann : gmap string bool) (m : gmap string bool) (x : instInfo) : gmap string bool :=
  match ann !! uuid_String x.(in_id) with
  | Some up => <[uuid_String x.(in_id) := up]> m
  | None => if Before x.(in_lastSeen) (Add now (- eventRetention)) then <[uuid_String x.(in_id) := false]> m else m
  end.

Definition load_announced (now : Time) (insts : list instInfo) : SM unit :=
  loaded ← get_s announcedLoaded;
  if loaded : bool then mret ()
  else ann ← lift announcedStates; put_s (with_up (foldl (rebuild now ann) ∅ insts) true).

Definition instance_step (now : Time) (x : instInfo) : SM unit :=
  let up := isStaleUp x.(in_lastSeen) now InstanceStaleAfter in
  if x.(in_revoked) then put_s (set_instance_up x.(in_id) up)
  else
    prev ← get_s (λ s, s.(instanceUp) !! uuid_String x.(in_id));
    match prev with
    | Some prevUp =>
        if Bool.eqb prevUp up then mret ()
        else lift (emitEvents (transitionEvents x.(in_cluster) x.(in_id) up x.(in_lastSeen)));; put_s (set_instance_up x.(in_id) up)
    | None =>
        if up then put_s (set_instance_up x.(in_id) up)
        else lift (emitEvents (transitionEvents x.(in_cluster) x.(in_id) up x.(in_lastSeen)));; put_s (set_instance_up x.(in_id) up)
    end.

(** The clusters with an instance in monitoring, each with whether it has a live primary. *)
Definition cluster_primaries (now : Time) (insts : list instInfo) : gmap Z bool :=
  foldl (λ m x, if x.(in_revoked) then m
    else <[x.(in_cluster) := default false (m !! x.(in_cluster)) ||
      (bool_decide (x.(in_role) = RolePrimary) && isStaleUp x.(in_lastSeen) now InstanceStaleAfter)]> m) ∅ insts.

Definition cluster_step (now : Time) (x : Z * bool) : SM unit :=
  let cid := itoa x.1 in
  if x.2 then put_s (λ s, with_clusters (<[cid := now]> s.(clusterPrimarySeen)) (<[cid := false]> s.(clusterNoPrimaryEmitted)) s)
  else
    s ← get_s id;
    match s.(clusterPrimarySeen) !! cid with
    | None => put_s (λ s, with_clusters (<[cid := now]> s.(clusterPrimarySeen)) s.(clusterNoPrimaryEmitted) s)
    | Some lastSeen =>
        if IsZero lastSeen then mret ()
        else if (noPrimaryThreshold <? Sub now lastSeen) && negb (default false (s.(clusterNoPrimaryEmitted) !! cid)) then
          lift (emitEvent "no_primary_in_cluster" (Some x.1) None [("cluster_id", PString cid)]);;
          put_s (λ s, with_clusters s.(clusterPrimarySeen) (<[cid := true]> s.(clusterNoPrimaryEmitted)) s)
        else mret ()
    end.

(** The events of the slots, one by one; [unmark] takes back the marks of those from the
    first failure on. *)
Fixpoint emitSlotEvents (eventType : string) (unmark : list string → Stale → Stale) (ems : list slotRow) : SM unit :=
  match ems with
  | [] => mret ()
  | em :: rest => λ x,
      match lift (emitEvent eventType (Some em.(sl_ClusterID)) (Some em.(sl_InstanceID)) [("slot_name", PString em.(sl_SlotName))]) x with
      | (inr _, x') => emitSlotEvents eventType unmark rest x'
      | (inl e, x') => (inl e, mkSWorld x'.(sw_w) (unmark (row_key <$> ems) x'.(sw_s)))
      end
  end.

Definition unmark_inactive (keys : list string) (s : Stale) : Stale :=
  with_slots s.(slotInactiveSince) (s.(slotInactiveEmitted) ∖ list_to_set keys) s.(slotLostEmitted) s.
Definition unmark_lost (keys : list string) (s : Stale) : Stale :=
  with_slots s.(slotInactiveSince) s.(slotInactiveEmitted) (s.(slotLostEmitted) ∖ list_to_set keys) s.

Definition evaluateSlots (now : Time) : SM unit :=
  n ← lift (gets w_calls);
  rows ← lift (query (slot_states (Add now (- slotStateWindow)) (tie n)));
  s ← get_s id;
  let '(since, emitted, inactive) := decideSlotInactiveEmissions rows now s.(slotInactiveSince) s.(slotInactiveEmitted) in
  put_s (λ s, with_slots since emitted s.(slotLostEmitted) s);;
  emitSlotEvents "slot_inactive" unmark_inactive inactive;;
  s ← get_s id;
  let '(emitted, lost) := decideSlotLostEmissions rows s.(slotLostEmitted) in
  put_s (λ s, with_slots s.(slotInactiveSince) s.(slotInactiveEmitted) emitted s);;
  emitSlotEvents "slot_lost" unmark_lost lost.

(** ** Retention *)

(** One statement outside a transaction, with the rows it affects: one that got no answer
    may have taken effect. *)
Definition pool_exec (f : nat → DB → DB * nat) : PM nat :=
  n ← call;
  match answer n with
  | None => r ← gets (λ w, f n w.(w_db)); puts (set_db r.1);; mret r.2
  | Some e =>
      (match e with NoAnswer => if commit_applied n then puts (λ w, set_db (f n w.(w_db)).1 w) else mret () | PgError _ => mret () end);;
      raise (DbFailed e)
  end.

Definition silent_edges (before : Time) (d : DB) : DB * nat :=
  let keep := filter (λ x, match d.(instances) !! x.2.(te_FromInstance) with Some i => negb (Before i.(i_last_seen) before) | None => true end = true) d.(topology_edges) in
  (set_edges keep d, (size d.(topology_edges) - size keep)%nat).

Definition purgeTopologyEdges (now : Time) : PM unit := pool_exec (λ _, silent_edges (Add now (- topologyEdgeLiveness)));; mret ().

(** The rows a batch removes are named by their place, [event_id] being a serial. *)
Definition old_events (before : Time) (n : nat) (d : DB) : DB * nat :=
  let gone := limit_picks n eventPurgeBatch (filter (λ ie : nat * EventRow, Before ie.2.(ev_TS) before = true) (imap pair d.(events))) in
  (set_events (filter (λ ie : nat * EventRow, ie.1 ∉ gone.*1) (imap pair d.(events))).*2 d, length gone).

Definition old_texts (before : Time) (n : nat) (d : DB) : DB * nat :=
  let gone := limit_picks n queryTextPurgeBatch (map_to_list (filter (λ x, Before x.2.(t_last_seen) before = true) d.(query_texts))) in
  (set_texts (filter (λ x, x.1 ∉ gone.*1) d.(query_texts)) d, length gone).

(** Whether a purge has nothing to do yet. *)
Definition paced (backlog : bool) (last now : Time) (interval : Duration) : bool :=
  negb backlog && negb (IsZero last) && (Sub now last <? interval).

Definition purgeEvents (now : Time) : SM unit :=
  s ← get_s id;
  if paced s.(eventPurgeBacklog) s.(lastEventPurge) now eventPurgeInterval then mret ()
  else
    n ← lift (pool_exec (old_events (Add now (- eventRetention))));
    put_s (with_event_purge now (n =? eventPurgeBatch)%nat).

Definition purgeQueryTexts (now : Time) : SM unit :=
  s ← get_s id;
  if paced s.(queryTextPurgeBacklog) s.(lastQueryTextPurge) now queryTextPurgeInterval then mret ()
  else
    n ← lift (pool_exec (old_texts (Add now (- queryTextRetention))));
    put_s (with_text_purge now (n =? queryTextPurgeBatch)%nat).

(** The two purges are independent: the second runs when the first has failed. *)
Definition purgeRetention (now : Time) : SM unit := λ x,
  let '(r1, x1) := purgeQueryTexts now x in
  let '(r2, x2) := purgeEvents now x1 in
  (match r1 with inl e => inl e | inr _ => r2 end, x2).

Definition Evaluate : SM unit :=
  ensureLeader;;
  leader ← get_s hasLock;
  t ← lift now;
  insts ← lift (query instance_infos);
  put_s (λ s, foldl (report_gauges t) s insts);;
  if negb leader then mret ()
  else
    load_announced t insts;;
    fold_in (λ _, instance_step t) () insts;;
    fold_in (λ _, cluster_step t) () (visit (cluster_primaries t insts));;
    evaluateSlots t;;
    lift (purgeTopologyEdges t);;
    purgeRetention t.
End evaluator.

(** ** Runs *)

Section runs.
Context `{UuidText, RangeOrder, Jsonb, ServerEnv, StaleEnv, TimeText}.

Lemma lift_run {A} (m : PM A) x : lift m x = ((m x.(sw_w)).1, mkSWorld (m x.(sw_w)).2 x.(sw_s)).
Proof. unfold lift. by destruct (m _). Qed.

(** The row an event is stored as. *)
Definition event_row (ts : Time) (ev : staleEvent) : option EventRow :=
  mkEventRow defaultTenant ts ev.(typ) ev.(clusterID) ev.(instanceID) <$> marshal_payload ev.(payload).

Definition add_events (rows : list EventRow) (d : DB) : DB := set_events (d.(events) ++ rows) d.

Lemma add_events_nil d : add_events [] d = d.
Proof. unfold add_events. rewrite app_nil_r. by destruct d. Qed.

Lemma add_events_app a b d : add_events b (add_events a d) = add_events (a ++ b) d.
Proof. unfold add_events. cbn. by rewrite app_assoc. Qed.

Lemma insert_events_inv ts evs : ∀ w u w', fold_in (λ _, insertStaleEvent ts) () evs w = (inr u, w') →
  ∃ rows, Forall2 (λ ev row, event_row ts ev = Some row) evs rows ∧ w'.(w_db) = add_events rows w.(w_db).
Proof.
  induction evs as [|ev evs IH]; intros w u w' E; cbn in E.
  { injection E as _ <-. exists []. split; [done|]. by rewrite add_events_nil. }
  step_bind E y w1 E1. destruct y. unfold insertStaleEvent in E1. destruct (marshal_payload _) as [p|] eqn:Ep; [|done].
  apply exec_ok_inv in E1 as [Ea _]. injection Ea as Ea. apply IH in E as (rows & HF & ->). rewrite <- Ea. fold (add_events [mkEventRow defaultTenant ts ev.(typ) ev.(clusterID) ev.(instanceID) p] w.(w_db)).
  rewrite add_events_app. eexists. split; [|done]. constructor; [|done]. unfold event_row. by rewrite Ep.
Qed.

(** A commit that took effect without the server being told. *)
Definition lost_commit : Prop := ∃ n, answer n = Some NoAnswer ∧ commit_applied n = true.

Lemma in_transaction_failed {A} (m : PM A) w e w' : in_transaction m w = (inl e, w') →
  w'.(w_db) = w.(w_db) ∨ lost_commit ∧ ∃ w1 a w2, w1.(w_db) = w.(w_db) ∧ m w1 = (inr a, w2) ∧ w'.(w_db) = w2.(w_db).
Proof.
  intros E. unfold in_transaction in E. rewrite (bind_ok call _ w (w_calls w) (next_call w) eq_refl) in E.
  destruct (answer (w_calls w)); [left; by injection E as _ <-|].
  rewrite (bind_ok (puts (set_tx_now (db_clock (w_calls w)))) _ (next_call w) () _ eq_refl) in E.
  set (w1 := set_tx_now _ _) in E. rewrite (bind_ok (gets w_db) _ w1 (w_db w) w1 eq_refl) in E.
  destruct (m w1) as [[f|a] w2] eqn:Em.
  { rewrite (bind_fail _ _ _ f (set_db (w_db w) w2)) in E by (unfold on_error; by rewrite Em). left. by injection E as _ <-. }
  rewrite (bind_ok _ _ _ a w2) in E by (unfold on_error; by rewrite Em).
  unfold commit, mbind, EST_bind in E. cbn in E. destruct (answer (w_calls w2)) as [[code|]|] eqn:Ea; cbn in E; [left; by injection E as _ <-| |done].
  destruct (commit_applied (w_calls w2)) eqn:Ec; [|left; by injection E as _ <-].
  right. split; [by exists (w_calls w2)|]. exists w1, a, w2. split_and!; [done..|]. by injection E as _ <-.
Qed.

(** The rows of events stored together. *)
Definition stores (evs : list staleEvent) (d d' : DB) : Prop :=
  ∃ ts rows, Forall2 (λ ev row, event_row ts ev = Some row) evs rows ∧ d' = add_events rows d.

(** Events are stored together or not at all; all of them may be stored when the answer to
    the commit is lost. *)
Lemma emitEvents_inv evs w :
  match emitEvents evs w with
  | (inr _, w') => stores evs w.(w_db) w'.(w_db)
  | (inl _, w') => w'.(w_db) = w.(w_db) ∨ lost_commit ∧ stores evs w.(w_db) w'.(w_db)
  end.
Proof.
  assert (∀ w1 u w2, w1.(w_db) = w.(w_db) → (ts ← now; fold_in (λ _, insertStaleEvent ts) () evs) w1 = (inr u, w2) → stores evs w.(w_db) w2.(w_db)) as Hok.
  { intros w1 u w2 Ed Em. step_bind Em ts w3 E3. apply now_inv in E3 as [Ed3 _].
    apply insert_events_inv in Em as (rows & HF & ->). exists ts, rows. split; [done|]. by rewrite Ed3, Ed. }
  unfold emitEvents. pose proof (in_transaction_inv (ts ← now; fold_in (λ _, insertStaleEvent ts) () evs) w) as Hi.
  destruct (in_transaction _ w) as [[e|u] w'] eqn:E.
  - apply in_transaction_failed in E as [E|[Hl (w1 & a & w2 & Ed & Em & ->)]]; [by left|right]. eauto.
  - destruct Hi as (w1 & w2 & Ed & Em & ->). eauto.
Qed.

Lemma emitEvents_ok evs w : (∀ n, answer n = None) → (∀ t, is_Some (time_text t)) → ∃ w', emitEvents evs w = (inr (), w').
Proof.
  intros Hh Ht. apply in_transaction_ok; [done|]. intros v _. rewrite (bind_ok now _ v (clock v.(w_calls)) (next_call v) eq_refl).
  generalize (clock (w_calls v)) as ts, (next_call v) as v'. clear v. intros ts. induction evs as [|ev evs IH]; intros v; cbn; [by eexists|].
  assert (is_Some (marshal_payload ev.(payload))) as [p Hp].
  { apply mapM_is_Some_2, Forall_forall. intros [k [s|t]] _; cbn; [by eexists|]. by apply fmap_is_Some. }
  assert (∃ v', insertStaleEvent ts ev v = (inr (), v')) as [v' Ev].
  { unfold insertStaleEvent. rewrite Hp. eexists. by apply (exec_ok Hh). }
  rewrite (bind_ok _ _ _ _ _ Ev). apply IH.
Qed.
End runs.

(** ** Transitions of instances *)

Section transitions.
Context `{UuidTextLaws, RangeOrder, Jsonb, ServerEnv, StaleEnv, TimeText}.
Variable now : Time.

Definition up_now (i : instInfo) : bool := isStaleUp i.(in_lastSeen) now InstanceStaleAfter.

(** Whether an instance's state differs from what was announced, so that it is announced. *)
Definition moved (m : gmap string bool) (i : instInfo) : bool :=
  negb i.(in_revoked) && match m !! uuid_String i.(in_id) with Some b => negb (Bool.eqb b (up_now i)) | None => negb (up_now i) end.

Definition record_up (s : Stale) (i : instInfo) : Stale := set_instance_up i.(in_id) (up_now i) s.

(** The rows of an instance's transition. *)
Definition announces (i : instInfo) (rows : list EventRow) : Prop :=
  ∃ ts, Forall2 (λ ev row, event_row ts ev = Some row) (transitionEvents i.(in_cluster) i.(in_id) (up_now i) i.(in_lastSeen)) rows.

(** What a failed write of an instance's transition leaves of the store. *)
Definition untold (i : instInfo) (d d' : DB) : Prop := d' = d ∨ lost_commit ∧ ∃ rows, announces i rows ∧ d' = add_events rows d.

Lemma record_up_same s i : s.(instanceUp) !! uuid_String i.(in_id) = Some (up_now i) → record_up s i = s.
Proof using Type. intros E. unfold record_up, set_instance_up. rewrite insert_id by done. by destruct s. Qed.

Lemma instance_step_inv i x :
  match instance_step now i x with
  | (inr _, x') => x'.(sw_s) = record_up x.(sw_s) i ∧
      if moved x.(sw_s).(instanceUp) i then ∃ rows, announces i rows ∧ x'.(sw_w).(w_db) = add_events rows x.(sw_w).(w_db)
      else x'.(sw_w).(w_db) = x.(sw_w).(w_db)
  | (inl _, x') => moved x.(sw_s).(instanceUp) i = true ∧ x'.(sw_s) = x.(sw_s) ∧ untold i x.(sw_w).(w_db) x'.(sw_w).(w_db)
  end.
Proof using Type.
  unfold instance_step, moved. fold (up_now i). destruct (in_revoked i); [done|]. cbn [negb andb].
  rewrite (bind_ok (get_s _) _ x _ x eq_refl). cbv beta.
  set (emit := (lift (emitEvents _);; put_s _) : SM unit).
  assert (match emit x with
    | (inr _, x') => x'.(sw_s) = record_up x.(sw_s) i ∧ ∃ rows, announces i rows ∧ x'.(sw_w).(w_db) = add_events rows x.(sw_w).(w_db)
    | (inl _, x') => x'.(sw_s) = x.(sw_s) ∧ untold i x.(sw_w).(w_db) x'.(sw_w).(w_db) end) as He.
  { pose proof (emitEvents_inv (transitionEvents i.(in_cluster) i.(in_id) (up_now i) i.(in_lastSeen)) x.(sw_w)) as Hi.
    assert (∀ d', stores (transitionEvents i.(in_cluster) i.(in_id) (up_now i) i.(in_lastSeen)) x.(sw_w).(w_db) d' →
      ∃ rows, announces i rows ∧ d' = add_events rows x.(sw_w).(w_db)) as Hst.
    { intros d' (ts & rows & HF & ->). exists rows. split; [by exists ts|done]. }
    unfold emit, mbind, EST_bind. rewrite lift_run. destruct (emitEvents _ _) as [[e|u] w']; cbn in *; [|by split; [|apply Hst]].
    split; [done|]. destruct Hi as [Hi|[Hl Hi]]; [by left|right]. split; [done|]. by apply Hst. }
  destruct (instanceUp _ !! _) as [b|] eqn:Em.
  - destruct (Bool.eqb b (up_now i)) eqn:Eb; cbn [negb].
    + apply eqb_prop in Eb as ->. by rewrite record_up_same.
    + destruct (emit x) as [[e|u] x']; [by destruct He|done].
  - destruct (up_now i) eqn:Eu; cbn [negb].
    + unfold record_up. by rewrite Eu.
    + destruct (emit x) as [[e|u] x']; [by destruct He|done].
Qed.

Lemma record_up_moved s i j : uuid_String i.(in_id) ≠ uuid_String j.(in_id) → moved (record_up s i).(instanceUp) j = moved s.(instanceUp) j.
Proof using Type. intros Hn. unfold moved, record_up, set_instance_up. cbn. by rewrite lookup_insert_ne. Qed.

Lemma record_up_settles s i : moved (record_up s i).(instanceUp) i = false.
Proof using Type. unfold moved, record_up, set_instance_up. cbn. rewrite lookup_insert_eq, eqb_reflx. cbn. by rewrite andb_false_r. Qed.

Lemma record_ups_moved l : ∀ s j, j.(in_id) ∉ in_id <$> l → moved (foldl record_up s l).(instanceUp) j = moved s.(instanceUp) j.
Proof using All.
  induction l as [|i l IH]; intros s j Hj; [done|]. cbn in *. apply not_elem_of_cons in Hj as [Hne Hj]. rewrite IH by done.
  apply record_up_moved. intros E. apply (inj uuid_String) in E. congruence.
Qed.

Lemma record_ups_settle l : ∀ s, NoDup (in_id <$> l) → ∀ i, i ∈ l → ¬ moved (foldl record_up s l).(instanceUp) i = true.
Proof using All.
  induction l as [|i l IH]; intros s Hn j Hj; [by apply elem_of_nil in Hj|]. cbn in *. apply NoDup_cons in Hn as [Hi Hn]. apply elem_of_cons in Hj as [->|Hj]; [|by apply IH].
  by rewrite record_ups_moved, record_up_settles.
Qed.

(** What a run of the loop over the instances leaves: the instances up to the first failed
    write are recorded and their transitions stored, the rest is as before, but for the
    events of the write that failed, [extra], when its commit took effect. *)
Record loop_outcome (insts : list instInfo) (x : SWorld) (ok : bool) (x' : SWorld) (stored todo : list instInfo) (rows : list (list EventRow)) (extra : list EventRow) : Prop := {
  lo_split : insts = stored ++ todo;
  lo_state : x'.(sw_s) = foldl record_up x.(sw_s) stored;
  lo_store : x'.(sw_w).(w_db) = add_events (concat rows ++ extra) x.(sw_w).(w_db);
  lo_events : Forall2 announces (filter (λ i, moved x.(sw_s).(instanceUp) i = true) stored) rows;
  lo_stop : if ok then todo = [] ∧ extra = [] else ∃ i rest, todo = i :: rest ∧ moved x.(sw_s).(instanceUp) i = true ∧ (extra = [] ∨ lost_commit ∧ announces i extra);
}.

Lemma instance_loop insts : ∀ x, NoDup (in_id <$> insts) →
  ∃ stored todo rows extra, let '(r, x') := fold_in (λ _, instance_step now) () insts x in
    loop_outcome insts x (match r with inr _ => true | inl _ => false end) x' stored todo rows extra.
Proof using All.
  induction insts as [|i insts IH]; intros x Hn.
  { exists [], [], [], []. cbn. split; try done. cbn. by rewrite add_events_nil. }
  apply NoDup_cons in Hn as [Hi Hn]. cbn [fold_in]. pose proof (instance_step_inv i x) as Hstep.
  destruct (instance_step now i x) as [[e|[]] x1] eqn:E1.
  { rewrite (bind_fail _ _ _ _ _ E1). destruct Hstep as (Hm & Hst & [Hd|[Hl (row & Hrow & Hd)]]).
    - exists [], (i :: insts), [], []. split; try done; [cbn; by rewrite add_events_nil|]. exists i, insts. eauto.
    - exists [], (i :: insts), [], row. split; try done. exists i, insts. eauto. }
  rewrite (bind_ok _ _ _ _ _ E1). destruct Hstep as [Hst Hd]. destruct (IH x1 Hn) as (stored & todo & rows & extra & Hl).
  destruct (fold_in _ _ _ x1) as [r x2]. destruct Hl as [-> Hst2 Hd2 Hev Hstop].
  assert (∀ l, l ⊆ stored ++ todo → filter (λ j, moved x1.(sw_s).(instanceUp) j = true) l = filter (λ j, moved x.(sw_s).(instanceUp) j = true) l) as Hsame.
  { intros l Hl. apply filter_congr. intros j Hj. rewrite Hst, record_up_moved; [done|].
    intros E. apply (inj uuid_String) in E. apply Hi. rewrite E. apply list_elem_of_fmap_2, Hl, Hj. }
  rewrite Hsame in Hev by (apply list_subseteq_app_l; reflexivity).
  assert (match r with inr _ => True | inl _ => ∃ j rest, todo = j :: rest ∧ moved x.(sw_s).(instanceUp) j = true ∧ (extra = [] ∨ lost_commit ∧ announces j extra) end) as Hstop'.
  { destruct r; [|done]. destruct Hstop as (j & rest & -> & Hj & Hx). exists j, rest. split_and!; [done| |done]. rewrite <- Hj. symmetry. rewrite Hst. apply record_up_moved.
    intros E. apply (inj uuid_String) in E. apply Hi. rewrite E. apply list_elem_of_fmap_2. set_solver. }
  destruct (moved _ i) eqn:Em in Hd.
  - destruct Hd as (row & Hrow & Hd). exists (i :: stored), todo, (row :: rows), extra. split; [done| |..].
    + cbn. by rewrite Hst2, Hst.
    + cbn. by rewrite Hd2, Hd, add_events_app, app_assoc.
    + rewrite filter_cons_True by done. by constructor.
    + by destruct r.
  - exists (i :: stored), todo, rows, extra. split; [done| |..].
    + cbn. by rewrite Hst2, Hst.
    + by rewrite Hd2, Hd.
    + by rewrite filter_cons_False by (by rewrite Em).
    + by destruct r.
Qed.

Lemma instance_loop_ok insts : (∀ n, answer n = None) → (∀ t, is_Some (time_text t)) → ∀ x, (fold_in (λ _, instance_step now) () insts x).1 = inr ().
Proof using Type.
  intros Hh Ht. induction insts as [|i insts IH]; intros x; [done|]. cbn [fold_in].
  assert (∃ x', instance_step now i x = (inr (), x')) as [x' E]; [|by rewrite (bind_ok _ _ _ _ _ E)].
  unfold instance_step. destruct (in_revoked i); [by eexists|]. rewrite (bind_ok (get_s _) _ x _ x eq_refl).
  set (emit := (lift (emitEvents _);; put_s _) : SM unit).
  assert (∃ x', emit x = (inr (), x')) as Hemit.
  { unfold emit, mbind, EST_bind. rewrite lift_run. edestruct (emitEvents_ok (transitionEvents i.(in_cluster) i.(in_id) (up_now i) i.(in_lastSeen)) x.(sw_w) Hh Ht) as [w' E].
    unfold up_now in E. rewrite E. by eexists. }
  destruct (instanceUp _ !! _) as [b|]; [destruct (Bool.eqb b _); [by eexists|done]|]. destruct (isStaleUp _ _ _); [by eexists|done].
Qed.

(** An evaluation records an instance as announced exactly when the events of its transition
    are known to be stored. Whatever fails, the instances before the failure are recorded
    with both events of each that moved, in order, and the store is otherwise as it was, but
    that a commit whose answer was lost may have stored the events of the instance it failed
    at; a further evaluation at that instant has exactly the transitions that are not
    recorded to write; a revoked agent's instance is never announced. When the store answers,
    every transition is written. *)
Theorem transitions_recorded_as_stored insts x : NoDup (in_id <$> insts) →
  let '(r, x') := fold_in (λ _, instance_step now) () insts x in
  let due s := filter (λ i, moved s.(instanceUp) i = true) insts in
  (∃ stored todo rows extra, loop_outcome insts x (match r with inr _ => true | inl _ => false end) x' stored todo rows extra ∧
    due x'.(sw_s) = filter (λ i, moved x.(sw_s).(instanceUp) i = true) todo) ∧
  (due x'.(sw_s) = [] ↔ r = inr ()) ∧
  ((∀ n, answer n = None) → (∀ t, is_Some (time_text t)) → r = inr ()).
Proof using All.
  intros Hn. pose proof (instance_loop_ok insts) as Hok. destruct (instance_loop insts x Hn) as (stored & todo & rows & extra & Hl).
  destruct (fold_in _ _ _ x) as [r x'] eqn:E. cbv zeta. pose proof Hl as [Hsp Hst _ _ Hstop].
  assert (filter (λ i, moved x'.(sw_s).(instanceUp) i = true) insts = filter (λ i, moved x.(sw_s).(instanceUp) i = true) todo) as Hdue.
  { rewrite Hst. subst insts. rewrite fmap_app in Hn. apply NoDup_app in Hn as (Hn & Hd & _). rewrite filter_app.
    rewrite filter_none by (by apply record_ups_settle). apply filter_congr. intros j Hj. rewrite record_ups_moved; [done|].
    intros Hin. apply (Hd _ Hin). by apply list_elem_of_fmap_2. }
  split; [by exists stored, todo, rows, extra|]. split.
  - rewrite Hdue. destruct r as [e|[]]; [|destruct Hstop as [-> _]; done].
    split; [|done]. destruct Hstop as (i & rest & -> & Hi & _). by rewrite filter_cons_True.
  - intros Hh Ht. specialize (Hok Hh Ht x). by rewrite E in Hok.
Qed.
End transitions.

(** ** Leadership *)

Section leadership.
Context `{UuidText, RangeOrder, Jsonb, ServerEnv, StaleEnv, TimeText}.

(** The calls go on and the session stays as it is. *)
Definition sticky (x x' : SWorld) : Prop :=
  later x.(sw_w) x'.(sw_w) ∧ x'.(sw_s).(conn) = x.(sw_s).(conn) ∧ x'.(sw_s).(hasLock) = x.(sw_s).(hasLock).

#[local] Instance sticky_preorder : PreOrder sticky.
Proof. split; [intros x; by split_and!|]. intros x y z (? & ? & ?) (? & ? & ?). split_and!; [by etrans|congruence..]. Qed.

Lemma sticky_lift {A} (m : PM A) : moves later m → moves sticky (lift m).
Proof. intros Hm x. rewrite lift_run. split_and!; [apply Hm|done..]. Qed.

Lemma sticky_put f : (∀ s, (f s).(conn) = s.(conn) ∧ (f s).(hasLock) = s.(hasLock)) → moves sticky (put_s f).
Proof. intros Hf x. destruct (Hf x.(sw_s)). split_and!; [reflexivity|done..]. Qed.

Lemma later_on_error {A} f (m : PM A) : (∀ w, later w (f w)) → moves later m → moves later (on_error f m).
Proof. intros Hf Hm w. unfold on_error. specialize (Hm w). destruct (m w) as [[e|a] w']; cbn in *; [|done]. etrans; [exact Hm|apply Hf]. Qed.

Lemma later_in_transaction {A} (m : PM A) : moves later m → moves later (in_transaction m).
Proof.
  intros Hm. unfold in_transaction, commit. repeat first [apply later_on_error; [intros ?; unfold later; cbn; lia|exact Hm] | later_step].
Qed.

Lemma later_query {A} (f : DB → A) : moves later (query f).
Proof. unfold query. repeat later_step. Qed.

Lemma later_pool_exec f : moves later (pool_exec f).
Proof. unfold pool_exec. repeat later_step. Qed.

Lemma later_emitEvents evs : moves later (emitEvents evs).
Proof.
  apply later_in_transaction. unfold now. apply (moves_bind later); [repeat later_step|]. intros ts. apply (moves_fold later). intros _ ev.
  unfold insertStaleEvent, exec. repeat later_step.
Qed.

Ltac sticky_step :=
  first
    [ apply sticky_lift; first [apply later_query | apply later_pool_exec | apply later_emitEvents | solve [repeat later_step]]
    | solve [apply sticky_put; by intros]
    | progress unfold get_s
    | peel_moves ].

Lemma sticky_load now insts : moves sticky (load_announced now insts).
Proof. unfold load_announced. repeat sticky_step. Qed.

Lemma sticky_instance now i : moves sticky (instance_step now i).
Proof. unfold instance_step. repeat sticky_step. Qed.

Lemma sticky_cluster now c : moves sticky (cluster_step now c).
Proof. unfold cluster_step, emitEvent. repeat sticky_step. Qed.

Lemma sticky_emitSlots typ unmark ems : (∀ l s, (unmark l s).(conn) = s.(conn) ∧ (unmark l s).(hasLock) = s.(hasLock)) →
  moves sticky (emitSlotEvents typ unmark ems).
Proof.
  intros Hu. induction ems as [|em ems IH]; cbn [emitSlotEvents]; [apply (moves_ret sticky)|]. intros x.
  pose proof (sticky_lift _ (later_emitEvents [mkStaleEvent typ (Some em.(sl_ClusterID)) (Some em.(sl_InstanceID)) [("slot_name", PString em.(sl_SlotName))]]) x) as He.
  fold (emitEvent typ (Some em.(sl_ClusterID)) (Some em.(sl_InstanceID)) [("slot_name", PString em.(sl_SlotName))]) in He.
  destruct (lift _ x) as [[e|u] x']; cbn in *.
  - destruct He as (? & ? & ?). destruct (Hu (row_key em :: (row_key <$> ems)) x'.(sw_s)). split_and!; cbn; [done|congruence..].
  - etrans; [exact He|apply IH].
Qed.

Lemma sticky_slots now : moves sticky (evaluateSlots now).
Proof. unfold evaluateSlots. repeat first [apply sticky_emitSlots; by intros | sticky_step]. Qed.

Lemma sticky_retention now : moves sticky (purgeRetention now).
Proof.
  assert (moves sticky (purgeQueryTexts now)) as H1' by (unfold purgeQueryTexts; repeat sticky_step).
  assert (moves sticky (purgeEvents now)) as H2' by (unfold purgeEvents; repeat sticky_step).
  intros x. unfold purgeRetention. specialize (H1' x). destruct (purgeQueryTexts now x) as [r1 x1]. specialize (H2' x1).
  destruct (purgeEvents now x1) as [r2 x2]. cbn in *. by etrans.
Qed.

Lemma report_gauges_session now s insts :
  (foldl (report_gauges now) s insts).(conn) = s.(conn) ∧ (foldl (report_gauges now) s insts).(hasLock) = s.(hasLock).
Proof. revert s. induction insts as [|i insts IH]; intros s; [done|]. cbn [foldl]. by rewrite !(proj1 (IH _)), !(proj2 (IH _)). Qed.

Lemma sticky_gauges now insts : moves sticky (put_s (λ s, foldl (report_gauges now) s insts)).
Proof. apply sticky_put. intros s. apply report_gauges_session. Qed.

(** The lock is held on the pinned session. *)
Definition leader_ok (s : Stale) : Prop := s.(hasLock) = true → s.(conn) = true.

(** What makes an evaluation the leader's: its session held the lock and has just answered,
    or the lock has just been granted, and then what was announced is read again. *)
Definition leads (x x' : SWorld) (n : nat) : Prop :=
  (x.(sw_w).(w_calls) ≤ n)%nat ∧ answer n = None ∧
  ((x.(sw_s).(hasLock) = true ∧ x'.(sw_s) = x.(sw_s)) ∨ (lock_granted n = true ∧ x'.(sw_s).(announcedLoaded) = false)).

Lemma try_lock_inv x : x.(sw_s).(hasLock) = false → x.(sw_s).(conn) = true →
  let '(r, x') := try_lock x in
  x'.(sw_w) = next_call x.(sw_w) ∧ leader_ok x'.(sw_s) ∧ (x'.(sw_s).(hasLock) = true → leads x x' x.(sw_w).(w_calls)).
Proof.
  intros Hh Hc. unfold try_lock. rewrite (bind_ok (lift call) _ x x.(sw_w).(w_calls) (mkSWorld (next_call x.(sw_w)) x.(sw_s)) eq_refl).
  destruct (answer _) eqn:Ea; [by split_and!|]. unfold get_s, gets, mbind, EST_bind, put_s, puts, leads. cbn. rewrite Hh, andb_true_r.
  split_and!; [done|by rewrite Hc|]. intros ->. split_and!; [lia|done|by right].
Qed.

Lemma take_inv x : x.(sw_s).(hasLock) = false →
  let '(r, x') := (acquire;; try_lock) x in
  x'.(sw_w).(w_db) = x.(sw_w).(w_db) ∧ leader_ok x'.(sw_s) ∧ (x'.(sw_s).(hasLock) = true → ∃ n, leads x x' n ∧ (n < x'.(sw_w).(w_calls))%nat).
Proof.
  intros Hh. destruct (conn x.(sw_s)) eqn:Ec.
  - rewrite (bind_ok acquire _ x () x) by (unfold acquire, get_s, gets, mbind, EST_bind; by rewrite Ec).
    pose proof (try_lock_inv x Hh Ec) as Ht. destruct (try_lock x) as [r x']. destruct Ht as (-> & Hok & Hl). split_and!; [done..|].
    intros Hx. exists x.(sw_w).(w_calls). split; [by apply Hl|cbn; lia].
  - destruct (answer x.(sw_w).(w_calls)) as [e|] eqn:Ea.
    + rewrite (bind_fail acquire _ x (DbFailed e) (mkSWorld (next_call x.(sw_w)) x.(sw_s)))
        by (unfold acquire, session_ok, get_s, gets, lift, call, mbind, EST_bind; rewrite Ec; cbn; by rewrite Ea).
      unfold leader_ok. cbn. rewrite Hh. by split_and!.
    + set (x1 := mkSWorld (next_call x.(sw_w)) (with_lock true x.(sw_s).(hasLock) x.(sw_s))).
      rewrite (bind_ok acquire _ x () x1) by (unfold acquire, session_ok, get_s, gets, lift, call, mbind, EST_bind; rewrite Ec; cbn; by rewrite Ea).
      pose proof (try_lock_inv x1 Hh eq_refl) as Ht. destruct (try_lock x1) as [r x']. destruct Ht as (-> & Hok & Hl). split_and!; [done..|].
      intros Hx. exists (S x.(sw_w).(w_calls)). split; [|cbn; lia]. destruct (Hl Hx) as (? & Hn & Hd). cbn in Hn. split_and!; [lia|done|].
      destruct Hd as [[Hf _]|Hd]; [|by right]. cbn in Hf. congruence.
Qed.

Lemma leads_later x y x' n : later x.(sw_w) y.(sw_w) → y.(sw_s).(hasLock) = false → leads y x' n → leads x x' n.
Proof. unfold later. intros Hl Hh (Hn & Ha & [[Hf _]|Hd]); [congruence|]. split_and!; [lia|done|by right]. Qed.

Lemma ensureLeader_inv x : leader_ok x.(sw_s) →
  let '(r, x') := ensureLeader x in
  x'.(sw_w).(w_db) = x.(sw_w).(w_db) ∧ leader_ok x'.(sw_s) ∧ (x'.(sw_s).(hasLock) = true → ∃ n, leads x x' n ∧ (n < x'.(sw_w).(w_calls))%nat).
Proof.
  intros Hok. unfold ensureLeader. rewrite (bind_ok (get_s conn) _ x _ x eq_refl).
  (* what follows when the session has been given up *)
  assert (∀ y, y.(sw_w).(w_db) = x.(sw_w).(w_db) → later x.(sw_w) y.(sw_w) → y.(sw_s).(hasLock) = false →
    let '(r, x') := (acquire;; try_lock) y in
    x'.(sw_w).(w_db) = x.(sw_w).(w_db) ∧ leader_ok x'.(sw_s) ∧ (x'.(sw_s).(hasLock) = true → ∃ n, leads x x' n ∧ (n < x'.(sw_w).(w_calls))%nat)) as Htake.
  { intros y Hd Hl Hh. pose proof (take_inv y Hh) as Ht. destruct ((acquire;; try_lock) y) as [r x']. destruct Ht as (-> & Ho & He).
    split_and!; [done..|]. intros Hx. destruct (He Hx) as (n & Hn & ?). exists n. split; [by eapply leads_later|done]. }
  destruct (conn x.(sw_s)) eqn:Ec.
  2: { rewrite (bind_ok (mret ()) _ x () x eq_refl), (bind_ok (get_s id) _ x _ x eq_refl). cbn. rewrite Ec, andb_false_r.
    apply Htake; [done|reflexivity|]. apply not_true_iff_false. intros Hh. specialize (Hok Hh). congruence. }
  set (x1 := mkSWorld (next_call x.(sw_w)) x.(sw_s)). destruct (session_closed x.(sw_w).(w_calls)) eqn:Ecl.
  - set (x2 := mkSWorld x1.(sw_w) (with_lock false false x1.(sw_s))).
    rewrite (bind_ok _ _ x () x2) by (unfold session_call, lift, call, mbind, EST_bind; cbn; by rewrite Ecl).
    rewrite (bind_ok (get_s id) _ x2 _ x2 eq_refl). cbn. apply (Htake x2); [done|unfold later; cbn; lia|done].
  - rewrite (bind_ok _ _ x () x1) by (unfold session_call, lift, call, mbind, EST_bind; cbn; by rewrite Ecl).
    rewrite (bind_ok (get_s id) _ x1 _ x1 eq_refl). cbn. destruct (hasLock x.(sw_s)) eqn:Eh; [|apply (Htake x1); [done|unfold later; cbn; lia|done]].
    rewrite Ec. cbn [andb]. set (x2 := mkSWorld (next_call x1.(sw_w)) x1.(sw_s)).
    rewrite (bind_ok session_ok _ x1 _ x2 eq_refl). destruct (answer _) eqn:Ea.
    + rewrite (bind_ok releaseLeaderConn _ x2 () (mkSWorld x2.(sw_w) (with_lock false false x2.(sw_s))) eq_refl).
      apply Htake; [done|unfold later; cbn; lia|done].
    + split_and!; [done..|]. intros _. exists (S x.(sw_w).(w_calls)). split; [|cbn; lia]. split_and!; [cbn; lia|done|by left].
Qed.

(** Only the leader changes the store. An evaluation that changes it holds the lock on a
    session that has answered within that evaluation, or has just been granted the lock, and
    then starts from what the events show as announced. The lock never outlives the session
    it is held on. A replica without the lock still reports the gauges, and returns. *)
Theorem only_leader_writes x : leader_ok x.(sw_s) →
  let '(r, x') := Evaluate x in
  let x1 := (ensureLeader x).2 in
  leader_ok x'.(sw_s) ∧
  (x'.(sw_w).(w_db) ≠ x.(sw_w).(w_db) → ∃ n, leads x x1 n ∧ (n < x'.(sw_w).(w_calls))%nat) ∧
  ((ensureLeader x).1 = inr () → x1.(sw_s).(hasLock) = false → answer (S x1.(sw_w).(w_calls)) = None →
    r = inr () ∧ x'.(sw_s) = foldl (report_gauges (clock x1.(sw_w).(w_calls))) x1.(sw_s) (instance_infos x.(sw_w).(w_db))).
Proof.
  intros Hok. pose proof (ensureLeader_inv x Hok) as Hl. unfold Evaluate.
  destruct (ensureLeader x) as [[e|[]] x1] eqn:E1; cbn [fst snd].
  { rewrite (bind_fail _ _ _ _ _ E1). destruct Hl as (Hd & Hok' & Hn). split_and!; [done| |done]. intros Hne. by destruct Hne. }
  rewrite (bind_ok _ _ _ _ _ E1). destruct Hl as (Hd & Hok1 & Hn). rewrite (bind_ok (get_s hasLock) _ x1 _ x1 eq_refl).
  destruct (hasLock x1.(sw_s)) eqn:Eh.
  - match goal with |- let '(_, _) := ?m x1 in _ => assert (sticky x1 (m x1).2) as (Hla & Hc & Hh); [|destruct (m x1) as [r x']; cbn in Hla, Hc, Hh] end.
    { match goal with |- sticky x1 (?m x1).2 => enough (moves sticky m) as Hm by apply Hm end. cbn [negb].
      repeat first [apply sticky_gauges | apply sticky_load | apply sticky_instance | apply sticky_cluster | apply sticky_slots | apply sticky_retention | sticky_step]. }
    split_and!; [|intros _|done].
    + unfold leader_ok. rewrite Hc, Hh. exact Hok1.
    + destruct (Hn eq_refl) as (n & Hlead & ?). exists n. split; [done|]. unfold later in Hla. lia.
  - cbn [negb]. set (x2 := mkSWorld (next_call x1.(sw_w)) x1.(sw_s)). rewrite (bind_ok (lift now) _ x1 (clock x1.(sw_w).(w_calls)) x2 eq_refl).
    set (x3 := mkSWorld (next_call x2.(sw_w)) x1.(sw_s)). destruct (answer (S x1.(sw_w).(w_calls))) as [e|] eqn:Ea.
    + rewrite (bind_fail _ _ x2 (DbFailed e) x3) by (rewrite lift_run; unfold query, call, mbind, EST_bind; cbn; by rewrite Ea).
      split_and!; [done| |done]. intros Hne. by destruct Hne.
    + rewrite (bind_ok _ _ x2 (instance_infos x1.(sw_w).(w_db)) x3) by (rewrite lift_run; unfold query, call, mbind, EST_bind; cbn; by rewrite Ea).
      rewrite (bind_ok (put_s _) _ x3 () _ eq_refl). cbn. rewrite Hd. split_and!; [|by intros Hne; destruct Hne|done].
      unfold leader_ok. rewrite (proj1 (report_gauges_session _ _ _)), (proj2 (report_gauges_session _ _ _)). exact Hok1.
Qed.
End leadership.

(** ** A silent primary and a live standby *)
Module Fleet.
#[local] Existing Instances UuidBits.uuid_bits UuidBits.uuid_bits_laws Push.ranges Push.same_text.
#[local] Instance healthy_server : ServerEnv := Push.server Push.healthy.
#[local] Instance lock_free : StaleEnv := {|
  session_closed := λ _, false;
  lock_granted := λ _, true;
  tie := λ _ _ _, 0%nat;
  limit_picks := λ _ _ k l, take k l;
|}.
#[local] Instance time_stamp : TimeText := λ _, Some "T".

Definition silent : InstanceRow := mkInstanceRow defaultTenant 42 1 "10.0.0.1" 5432 160004 RolePrimary "monitor" "db1" (Push.noon - Hour) None.
Definition live : InstanceRow := mkInstanceRow defaultTenant 42 1 "10.0.0.2" 5432 160004 RoleStandby "monitor" "db2" Push.noon None.
Definition fleet : DB :=
  set_instances {[5 := silent; 6 := live]} (set_clusters {[(defaultTenant, 42) := IDSourceSystemIdentifier]} (set_agents {[1 := None]} empty_store)).
Definition start : SWorld := mkSWorld (set_db fleet Push.idle) NewStaleness.

Lemma transitions_recorded_as_stored_witness :
  (fold_in (λ _, instance_step Push.noon) () (instance_infos fleet) start).1 = inr () ∧
  length (fold_in (λ _, instance_step Push.noon) () (instance_infos fleet) start).2.(sw_w).(w_db).(events) = 2%nat.
Proof.
  pose proof (transitions_recorded_as_stored Push.noon (instance_infos fleet) start) as Hw.
  destruct (fold_in _ _ (instance_infos fleet) start) as [r x'] eqn:E.
  destruct Hw as (_ & _ & Hok); [apply (bool_decide_eq_true_1 _); vm_compute; reflexivity|]. split.
  - apply Hok; [reflexivity|]. intros t. by eexists.
  - change x' with (r, x').2. rewrite <- E. vm_compute. reflexivity.
Defined.

Lemma only_leader_writes_witness :
  (Evaluate start).2.(sw_w).(w_db) ≠ fleet ∧ ∃ n, leads start (ensureLeader start).2 n.
Proof.
  pose proof (only_leader_writes start) as Hw.
  assert ((Evaluate start).2.(sw_w).(w_db) ≠ fleet) as Hne.
  { intros E. apply (f_equal (λ d, length d.(events))) in E. vm_compute in E. discriminate E. }
  split; [exact Hne|]. destruct (Evaluate start) as [r x']. destruct Hw as (_ & Hw & _); [intros Hl; vm_compute in Hl; discriminate Hl|].
  destruct (Hw Hne) as (n & Hn & _). by exists n.
Defined.
End Fleet.
