(* ===== verification/SlotSpells.v ===== *)
(** * Spells of inactivity of replication slots (evaluateSlots of internal/server/staleness.go)

    The evaluator keeps, for every slot, since when it is inactive and whether that has been
    reported. Here its decisions over a whole history of evaluations are compared with a
    definition on the history: a slot is due when its current spell of inactivity has lasted
    more than thirty seconds and none of the spell's evaluations has stored an event and been
    told so. *)
From S2P Require Import Prelude StateM GoTime GoFloat GoBytes GoText GoJson GoSort Pgtype AlertTypes PgIds Redact Wire Store PipelineRows Pipeline Inventory Staleness.

(** One evaluation: its instant, the slots it read, the slots whose event the store took,
    those of them whose write was answered, and whether it ended well. *)
Record Evaluation := mkEvaluation { ev_now : Time; ev_rows : list slotRow; ev_sent : list string; ev_told : list string; ev_ok : bool }.

Section spells.
Context `{UuidText}.

Definition inactive_at (key : string) (e : Evaluation) : bool :=
  existsb (λ r, bool_decide (row_key r = key) && negb r.(sl_Active)) e.(ev_rows).

(** The evaluations of the current spell, the latest first. *)
Fixpoint spell (key : string) (h : list Evaluation) : list Evaluation :=
  match h with
  | [] => []
  | e :: h => if inactive_at key e then e :: spell key h else []
  end.

Definition reported (key : string) (h : list Evaluation) : bool := existsb (λ e, bool_decide (key ∈ e.(ev_told))) (spell key h).

(** Whether a slot is due at [now], after the history [h]. *)
Definition due (h : list Evaluation) (now : Time) (r : slotRow) : bool :=
  negb r.(sl_Active) &&
  match last (spell (row_key r) h) with Some e => slotInactiveThreshold <? Sub now e.(ev_now) | None => false end &&
  negb (reported (row_key r) h).

(** The evaluator's maps say of the history what the spells say. *)
Definition tracks (h : list Evaluation) (since : gmap string Time) (emitted : gset string) : Prop :=
  ∀ key, since !! key = ev_now <$> last (spell key h) ∧ (key ∈ emitted ↔ reported key h = true).

(** ** One evaluation's decisions *)

Variables (now : Time) (since0 : gmap string Time) (emitted0 : gset string).

Definition due0 (r : slotRow) : bool :=
  negb r.(sl_Active) && match since0 !! row_key r with Some t => (slotInactiveThreshold <? Sub now t) && negb (bool_decide (row_key r ∈ emitted0)) | None => false end.

(** What one pass leaves of a key. *)
Definition passed (rows : list slotRow) (since : gmap string Time) (emitted : gset string) : Prop :=
  (∀ key, key ∉ row_key <$> rows → since !! key = since0 !! key ∧ (key ∈ emitted ↔ key ∈ emitted0)) ∧
  ∀ r, r ∈ rows →
    since !! row_key r = (if r.(sl_Active) then None else Some (default now (since0 !! row_key r))) ∧
    (row_key r ∈ emitted ↔ r.(sl_Active) = false ∧ (row_key r ∈ emitted0 ∨ due0 r = true)).

Lemma inactive_pass rows : NoDup (row_key <$> rows) →
  let '(since, emitted, out) := foldl (inactive_step now) (since0, emitted0, []) rows in
  passed rows since emitted ∧ out = filter (λ r, due0 r = true) rows.
Proof using Type.
  induction rows as [|r rows IH] using rev_ind; intros Hn; [split; [split; [done|by intros ? ?%elem_of_nil]|done]|].
  rewrite fmap_app in Hn. apply NoDup_app in Hn as (Hn & Hd & _). specialize (IH Hn). rewrite foldl_app. cbn [foldl].
  destruct (foldl _ _ rows) as [[since emitted] out]. destruct IH as [[Hout Hin] ->].
  assert (row_key r ∉ row_key <$> rows) as Hr by (intros Hx; apply (Hd _ Hx); cbn; left).
  destruct (Hout _ Hr) as [Hs He]. unfold inactive_step. rewrite filter_app.
  assert (∀ s e, (∀ k, k ≠ row_key r → s !! k = since !! k ∧ (k ∈ e ↔ k ∈ emitted)) →
    s !! row_key r = (if r.(sl_Active) then None else Some (default now (since0 !! row_key r))) →
    (row_key r ∈ e ↔ r.(sl_Active) = false ∧ (row_key r ∈ emitted0 ∨ due0 r = true)) → passed (rows ++ [r]) s e) as Hjoin.
  { intros s e Hother H1 H2. split.
    - intros key Hk. rewrite fmap_app in Hk. apply not_elem_of_app in Hk as [Hk Hk']. cbn in Hk'.
      destruct (Hother key) as [-> ->]; [set_solver|]. by apply Hout.
    - intros r' Hr'. apply elem_of_app in Hr' as [Hr'|Hr'].
      + destruct (Hother (row_key r')) as [-> ->]; [intros E; apply Hr; rewrite <- E; by apply list_elem_of_fmap_2|]. by apply Hin.
      + apply list_elem_of_singleton in Hr' as ->. done. }
  rewrite Hs. destruct (sl_Active r) eqn:Ea.
  { split; [|rewrite filter_cons_False, filter_nil, app_nil_r by (unfold due0; by rewrite Ea); done]. apply Hjoin.
    - intros k Hk. rewrite lookup_delete_ne by done. set_solver.
    - by rewrite lookup_delete_eq, ?Ea.
    - rewrite ?Ea. set_solver. }
  destruct (since0 !! row_key r) as [t|] eqn:Es; [destruct ((slotInactiveThreshold <? _) && _) eqn:Ed|].
  - assert (due0 r = true) as Hdue.
    { unfold due0. rewrite Ea, Es. apply andb_true_iff in Ed as [-> Ed]. cbn. rewrite negb_true_iff in *. rewrite bool_decide_eq_false in *. by rewrite <- He. }
    split; [|by rewrite filter_cons_True by done]. apply Hjoin; [set_solver|by rewrite Hs, ?Ea|]. rewrite ?Ea. set_solver.
  - assert (due0 r = false) as Hdue.
    { unfold due0. rewrite Ea, Es. cbn [negb andb]. rewrite <- Ed. do 2 f_equal. by apply bool_decide_ext. }
    split; [|by rewrite filter_cons_False, filter_nil, app_nil_r by (by rewrite Hdue)]. apply Hjoin; [done|by rewrite Hs, ?Ea|].
    rewrite Hdue, He, ?Ea. naive_solver.
  - assert (due0 r = false) as Hdue by (unfold due0; by rewrite Ea, Es).
    split; [|by rewrite filter_cons_False, filter_nil, app_nil_r by (by rewrite Hdue)]. apply Hjoin.
    + intros k Hk. by rewrite lookup_insert_ne.
    + by rewrite lookup_insert_eq, ?Ea.
    + rewrite Hdue, He, ?Ea. naive_solver.
Qed.
End spells.

Section tracking.
Context `{UuidText}.

Lemma inactive_at_row rows r now sent told ok : NoDup (row_key <$> rows) → r ∈ rows →
  inactive_at (row_key r) (mkEvaluation now rows sent told ok) = negb r.(sl_Active).
Proof using Type.
  intros Hn Hr. apply eq_true_iff_eq. unfold inactive_at. cbn. rewrite existsb_exists. split.
  - intros (r' & Hr'%list_elem_of_In & [Hk%bool_decide_eq_true Ha]%andb_true_iff).
    rewrite <- Ha. do 2 f_equal. symmetry. by apply (NoDup_fmap_inj_on row_key rows).
  - intros Ha. exists r. split; [by apply list_elem_of_In|]. rewrite bool_decide_eq_true_2 by done. done.
Qed.

Lemma inactive_at_absent rows key now sent told ok : key ∉ row_key <$> rows → inactive_at key (mkEvaluation now rows sent told ok) = false.
Proof using Type.
  intros Hk. apply not_true_iff_false. unfold inactive_at. cbn. rewrite existsb_exists. intros (r & Hr%list_elem_of_In & [He%bool_decide_eq_true _]%andb_true_iff).
  apply Hk. rewrite <- He. by apply list_elem_of_fmap_2.
Qed.

Lemma decide_tracks h rows now since emitted : NoDup (row_key <$> rows) → tracks h since emitted →
  let '(since', emitted', out) := decideSlotInactiveEmissions rows now since emitted in
  out = filter (λ r, due h now r = true) rows ∧
  ∀ k sent ok, tracks (mkEvaluation now rows sent (row_key <$> take k out) ok :: h) since' (emitted' ∖ list_to_set (row_key <$> drop k out)).
Proof using Type.
  intros Hn Ht. unfold decideSlotInactiveEmissions. set (since0 := filter _ since). set (emitted0 := filter _ emitted).
  pose proof (inactive_pass now since0 emitted0 rows Hn) as Hp. destruct (foldl _ _ rows) as [[since' emitted'] out]. destruct Hp as [[Hout Hin] ->].
  assert (∀ r, r ∈ rows → since0 !! row_key r = ev_now <$> last (spell (row_key r) h) ∧ (row_key r ∈ emitted0 ↔ reported (row_key r) h = true)) as Hrow.
  { intros r Hr. assert (row_key r ∈ row_key <$> rows) as Hk by (by apply list_elem_of_fmap_2). destruct (Ht (row_key r)) as [Hs He]. split.
    - rewrite <- Hs. unfold since0. rewrite map_lookup_filter. destruct (since !! row_key r) eqn:E; [|done]. cbn. by rewrite option_guard_True.
    - unfold emitted0. rewrite elem_of_filter, <- He. naive_solver. }
  assert (∀ r, r ∈ rows → due0 now since0 emitted0 r = due h now r) as Hdue.
  { intros r Hr. destruct (Hrow r Hr) as [Hs He]. unfold due0, due. rewrite <- andb_assoc. f_equal. rewrite Hs.
    destruct (last _) as [e|]; [|done]. cbn. do 2 f_equal. apply eq_true_iff_eq. by rewrite bool_decide_eq_true. }
  assert (filter (λ r, due0 now since0 emitted0 r = true) rows = filter (λ r, due h now r = true) rows) as Hf.
  { apply filter_congr. intros r Hr. by rewrite Hdue. }
  rewrite Hf. split; [done|]. set (out := filter _ rows). intros k sent ok key. destruct (decide (key ∈ row_key <$> rows)) as [Hk|Hk].
  - apply list_elem_of_fmap in Hk as (r & -> & Hr). destruct (Hin r Hr) as [-> Hem], (Hrow r Hr) as [Hs He]. rewrite Hs.
    assert (row_key r ∈ row_key <$> out ↔ due h now r = true) as Ho.
    { split; [|intros Hd; by apply list_elem_of_fmap_2, list_elem_of_filter].
      intros (r' & E & [Hd Hr']%list_elem_of_filter)%list_elem_of_fmap.
      by rewrite (NoDup_fmap_inj_on row_key rows r r') by done. }
    assert (NoDup (row_key <$> out)) as Hno by (eapply sublist_NoDup; [exact Hn|apply fmap_sublist, sublist_filter]).
    rewrite <- (take_drop k out), fmap_app in Ho, Hno. apply NoDup_app in Hno as (_ & Hdis & _).
    cbn [spell]. unfold reported. cbn [spell]. rewrite inactive_at_row by done. destruct (sl_Active r) eqn:Ea; cbn [negb].
    + split; [done|]. cbn. split; [|done]. rewrite elem_of_difference, Hem. by intros [[] _].
    + split; [rewrite last_cons; by destruct (last _)|].
      cbn [existsb ev_told]. rewrite orb_true_iff, bool_decide_eq_true. fold (reported (row_key r) h). rewrite elem_of_difference, elem_of_list_to_set, Hem, He, (Hdue r Hr).
      rewrite elem_of_app in Ho. specialize (Hdis (row_key r)).
      assert (due h now r = true → reported (row_key r) h ≠ true) as Hex.
      { unfold due. intros [_ Hr']%andb_true_iff. by apply negb_true_iff, not_true_iff_false in Hr'. }
      naive_solver.
  - cbn [spell]. unfold reported. cbn [spell]. rewrite inactive_at_absent by done. destruct (Hout key Hk) as [-> Hem]. cbn. split.
    + unfold since0. rewrite map_lookup_filter. destruct (since !! key); [|done]. cbn. by rewrite option_guard_False.
    + rewrite elem_of_difference, Hem. unfold emitted0. rewrite elem_of_filter. naive_solver.
Qed.
End tracking.

(** ** The evaluator's runs *)

Section runs.
Context `{UuidTextLaws, RangeOrderLaws, Jsonb, ServerEnv, StaleEnv, TimeText}.

Lemma latest_elem {A} (ts : A → Time) pick l a : latest ts pick l = Some a → a ∈ l.
Proof using Type. intros E%list_elem_of_lookup_2. by apply list_elem_of_filter in E as [_ Ha]. Qed.

Lemma distinct_on_key `{Countable K} {A} (key : A → K) ts pick l k a : distinct_on key ts pick l !! k = Some a → key a = k.
Proof using Type.
  unfold distinct_on. generalize l at 1 as all. intros all. induction l as [|b l IH]; cbn; [by rewrite lookup_empty|].
  destruct (latest _ _ _) as [c|] eqn:E; [|done]. rewrite lookup_insert_Some. intros [[<- <-]|[_ Ha]]; [|by apply IH].
  by apply latest_elem, list_elem_of_filter in E as [-> _].
Qed.

Lemma row_key_inj r r' : row_key r = row_key r' → (r.(sl_InstanceID), r.(sl_SlotName)) = (r'.(sl_InstanceID), r'.(sl_SlotName)).
Proof using All.
  intros E. apply split_at_byte in E as [Ei Es]; [|apply uuid_String_slash..]. apply (inj uuid_String) in Ei. congruence.
Qed.

Lemma slot_states_NoDup since pick d : NoDup (row_key <$> slot_states since pick d).
Proof using All.
  unfold slot_states. set (m := distinct_on _ _ _ _).
  assert (NoDup ((λ x : (UUID * string) * (Time * slotRow), (x.2.2.(sl_InstanceID), x.2.2.(sl_SlotName))) <$> visit m)) as Hn.
  { rewrite (visit_perm m). rewrite (list_fmap_ext _ fst); [apply NoDup_fst_map_to_list|].
    intros i [k x] Hx%list_elem_of_lookup_2%elem_of_map_to_list. by apply distinct_on_key in Hx. }
  rewrite <- list_fmap_compose. eapply NoDup_alt. intros i j k Hi Hj.
  rewrite list_lookup_fmap in Hi, Hj. apply fmap_Some in Hi as (x & Hi & Ei), Hj as (y & Hj & Ej).
  rewrite NoDup_alt in Hn. apply (Hn i j (x.2.2.(sl_InstanceID), x.2.2.(sl_SlotName))); rewrite list_lookup_fmap.
  - by rewrite Hi.
  - rewrite Hj. cbn. f_equal. symmetry. apply row_key_inj. cbn in Ei, Ej. congruence.
Qed.

(** The slots whose events of a type were stored between two states of the store. *)
Definition slot_of (typ : string) (e : EventRow) : option string :=
  if bool_decide (e.(ev_Type) = typ) then id ← e.(ev_InstanceID); slotKey id <$> payload_text "slot_name" e.(ev_Payload) else None.
Definition sent_slots (typ : string) (before after : DB) : list string := omap (slot_of typ) (drop (length before.(events)) after.(events)).

Definition slot_event (typ : string) (em : slotRow) : staleEvent :=
  mkStaleEvent typ (Some em.(sl_ClusterID)) (Some em.(sl_InstanceID)) [("slot_name", PString em.(sl_SlotName))].

Lemma slot_of_row typ ts em row typ' : event_row ts (slot_event typ em) = Some row → slot_of typ' row = if bool_decide (typ = typ') then Some (row_key em) else None.
Proof using Type. intros [= <-]. done. Qed.

(** The slots of [ems] whose event was written with an answer, the events being written one
    after the other up to the first that fails. *)
Fixpoint answered (typ : string) (ems : list slotRow) (w : World) : list string :=
  match ems with
  | [] => []
  | em :: ems => match emitEvents [slot_event typ em] w with (inr _, w') => row_key em :: answered typ ems w' | (inl _, _) => [] end
  end.

(** Rows that are the events of [ems]. *)
Definition rows_of (typ : string) (ems : list slotRow) (rows : list EventRow) : Prop :=
  Forall2 (λ em row, ∃ ts, event_row ts (slot_event typ em) = Some row) ems rows.

Lemma stores_one typ em d d' : stores [slot_event typ em] d d' → ∃ rows, rows_of typ [em] rows ∧ d' = add_events rows d.
Proof using Type.
  intros (ts & rows & HF & ->). exists rows. split; [|done]. apply Forall2_cons_inv_l in HF as (row & rows' & Hrow & HF & ->). apply Forall2_nil_inv_l in HF as ->.
  constructor; [by exists ts|constructor].
Qed.

(** The store takes the events of the first [n] slots, [k] of them with an answer: all of
    them, or all but the last, whose answer was lost. *)
Lemma emitSlotEvents_inv typ unmark ems : ∀ x,
  ∃ k n rows, let '(r, x') := emitSlotEvents typ unmark ems x in
    x'.(sw_w).(w_db) = add_events rows x.(sw_w).(w_db) ∧ rows_of typ (take n ems) rows ∧ answered typ ems x.(sw_w) = row_key <$> take k ems ∧
    x'.(sw_s) = (match r with inr _ => id | inl _ => unmark (row_key <$> drop k ems) end) x.(sw_s) ∧
    match r with inr _ => (length ems ≤ k)%nat ∧ n = k | inl _ => n = k ∨ n = S k ∧ (k < length ems)%nat ∧ lost_commit end.
Proof using Type.
  induction ems as [|em ems IH]; intros x; cbn [emitSlotEvents answered].
  { exists 0%nat, 0%nat, []. cbn. rewrite add_events_nil. split_and!; [done|constructor|done..]. }
  pose proof (emitEvents_inv [slot_event typ em] x.(sw_w)) as He. rewrite lift_run. unfold emitEvent. fold (slot_event typ em).
  destruct (emitEvents _ _) as [[e|u] w']; cbn [fst snd].
  { destruct He as [Hd|[Hl (rows & HF & Hd)%stores_one]].
    - exists 0%nat, 0%nat, []. cbn. rewrite add_events_nil. split_and!; [done|constructor|done|done|by left].
    - exists 0%nat, 1%nat, rows. split_and!; [done|done|done|done|]. right. split_and!; [done|cbn; lia|done]. }
  apply stores_one in He as (rows & HF & Hd).
  destruct (IH (mkSWorld w' x.(sw_s))) as (k & n & rows' & Hk). destruct (emitSlotEvents _ _ ems _) as [r x']. destruct Hk as (Hd' & HF' & Ha & Hst & Hl).
  exists (S k), (S n), (rows ++ rows'). cbn [sw_w] in *. split_and!.
  - by rewrite Hd', Hd, add_events_app.
  - cbn [take]. change (em :: take n ems) with ([em] ++ take n ems). by apply Forall2_app.
  - cbn [take]. by rewrite Ha.
  - done.
  - destruct r; cbn [length]; [|lia]. destruct Hl as [->|(-> & ? & ?)]; [by left|right]. split_and!; [done|lia|done].
Qed.

Lemma slot_events_keys typ typ' ems rows : rows_of typ ems rows →
  omap (slot_of typ') rows = if bool_decide (typ = typ') then row_key <$> ems else [].
Proof using Type.
  induction 1 as [|em row ems rows [ts Hr] _ IH]; [by case_bool_decide|]. cbn. rewrite (slot_of_row _ _ _ _ typ' Hr), IH. by case_bool_decide.
Qed.

(** The evaluation that a run of [evaluateSlots] that reads the slots is. *)
Definition slots_read (now : Time) (x : SWorld) : list slotRow :=
  slot_states (Add now (- slotStateWindow)) (tie x.(sw_w).(w_calls)) x.(sw_w).(w_db).

Definition evaluation (now : Time) (x : SWorld) : Evaluation :=
  let '(r, x') := evaluateSlots now x in
  let '(_, _, out) := decideSlotInactiveEmissions (slots_read now x) now x.(sw_s).(slotInactiveSince) x.(sw_s).(slotInactiveEmitted) in
  mkEvaluation now (slots_read now x) (sent_slots "slot_inactive" x.(sw_w).(w_db) x'.(sw_w).(w_db))
    (answered "slot_inactive" out (next_call x.(sw_w))) (match r with inr _ => true | inl _ => false end).

Lemma sent_added typ rows d : sent_slots typ d (add_events rows d) = omap (slot_of typ) rows.
Proof using Type. unfold sent_slots, add_events. cbn. by rewrite drop_app_length. Qed.

Lemma evaluateSlots_unread now x e : answer x.(sw_w).(w_calls) = Some e → (evaluateSlots now x).2.(sw_s) = x.(sw_s).
Proof using Type.
  intros Ha. unfold evaluateSlots. rewrite (bind_ok (lift (gets w_calls)) _ x x.(sw_w).(w_calls) x) by (by destruct x).
  rewrite (bind_fail _ _ x (DbFailed e) (mkSWorld (next_call x.(sw_w)) x.(sw_s))); [done|].
  rewrite lift_run. unfold query, call, mbind, EST_bind. cbn. by rewrite Ha.
Qed.

(** The rows of a run that reads the slots, with the decisions it takes. *)
Lemma evaluateSlots_read now x : answer x.(sw_w).(w_calls) = None →
  let rows := slots_read now x in
  let '(since, emitted, out) := decideSlotInactiveEmissions rows now x.(sw_s).(slotInactiveSince) x.(sw_s).(slotInactiveEmitted) in
  let '(r, x') := evaluateSlots now x in
  ∃ k n, sent_slots "slot_inactive" x.(sw_w).(w_db) x'.(sw_w).(w_db) = row_key <$> take n out ∧
    answered "slot_inactive" out (next_call x.(sw_w)) = row_key <$> take k out ∧
    x'.(sw_s).(slotInactiveSince) = since ∧ x'.(sw_s).(slotInactiveEmitted) = emitted ∖ list_to_set (row_key <$> drop k out) ∧
    (r = inr () → (length out ≤ k)%nat) ∧ (n = k ∨ r ≠ inr () ∧ n = S k ∧ (k < length out)%nat ∧ lost_commit).
Proof using All.
  intros Ha rows. destruct (decideSlotInactiveEmissions _ _ _ _) as [[since emitted] out] eqn:Ed.
  unfold evaluateSlots. rewrite (bind_ok (lift (gets w_calls)) _ x x.(sw_w).(w_calls) x) by (by destruct x).
  set (x1 := mkSWorld (next_call x.(sw_w)) x.(sw_s)).
  rewrite (bind_ok _ _ x rows x1) by (rewrite lift_run; unfold query, call, mbind, EST_bind; cbn; by rewrite Ha).
  rewrite (bind_ok (get_s id) _ x1 x.(sw_s) x1 eq_refl), Ed.
  set (x2 := mkSWorld x1.(sw_w) (with_slots since emitted x.(sw_s).(slotLostEmitted) x.(sw_s))). rewrite (bind_ok (put_s (λ s, with_slots since emitted s.(slotLostEmitted) s)) _ x1 () x2 eq_refl).
  destruct (emitSlotEvents_inv "slot_inactive" unmark_inactive out x2) as (k & n & evs & Hk).
  destruct (emitSlotEvents _ _ out x2) as [[e|u] x3] eqn:E3; destruct Hk as (Hd3 & HF & Han & Hst & Hlen).
  { rewrite (bind_fail _ _ _ _ _ E3). exists k, n. rewrite Hd3, Hst. change (w_db (sw_w x2)) with (w_db (sw_w x)). rewrite sent_added, (slot_events_keys _ _ _ _ HF).
    rewrite bool_decide_eq_true_2 by done. split_and!; [done..|]. destruct Hlen as [->|(? & ? & ?)]; [by left|by right]. }
  destruct Hlen as [Hlen ->].
  rewrite (bind_ok _ _ _ _ _ E3), (bind_ok (get_s id) _ x3 x3.(sw_s) x3 eq_refl). destruct (decideSlotLostEmissions _ _) as [lost_marks lost].
  set (x4 := mkSWorld x3.(sw_w) (with_slots x3.(sw_s).(slotInactiveSince) x3.(sw_s).(slotInactiveEmitted) lost_marks x3.(sw_s))).
  rewrite (bind_ok (put_s (λ s, with_slots s.(slotInactiveSince) s.(slotInactiveEmitted) lost_marks s)) _ x3 () x4 eq_refl).
  destruct (emitSlotEvents_inv "slot_lost" unmark_lost lost x4) as (k' & n' & evs' & Hk').
  destruct (emitSlotEvents _ _ lost x4) as [r x5]. destruct Hk' as (Hd5 & HF' & _ & Hst' & _). exists k, k.
  rewrite Hd5. change (w_db (sw_w x4)) with (w_db (sw_w x3)). rewrite Hd3, add_events_app. change (w_db (sw_w x2)) with (w_db (sw_w x)).
  rewrite sent_added, omap_app, (slot_events_keys _ _ _ _ HF), (slot_events_keys _ _ _ _ HF').
  rewrite bool_decide_eq_true_2, bool_decide_eq_false_2, app_nil_r by done.
  assert (x5.(sw_s).(slotInactiveSince) = since ∧ x5.(sw_s).(slotInactiveEmitted) = emitted) as [-> ->].
  { rewrite Hst'. destruct r; cbn; by rewrite Hst. }
  rewrite drop_ge by done. split_and!; [done..| |done|by left]. cbn. set_solver.
Qed.

(** ** Histories *)

(** The evaluations of a process, the latest first, with the evaluator's state: the store
    may change in any way between two of them, and the rest of the evaluator leaves the
    slots' maps alone. *)
Inductive slot_history : list Evaluation → Stale → Prop :=
| history_start s : s.(slotInactiveSince) = ∅ → s.(slotInactiveEmitted) = ∅ → slot_history [] s
| history_other h s s' : slot_history h s → s'.(slotInactiveSince) = s.(slotInactiveSince) → s'.(slotInactiveEmitted) = s.(slotInactiveEmitted) → slot_history h s'
| history_unread h now x e : slot_history h x.(sw_s) → answer x.(sw_w).(w_calls) = Some e → slot_history h (evaluateSlots now x).2.(sw_s)
| history_read h now x : slot_history h x.(sw_s) → answer x.(sw_w).(w_calls) = None →
    slot_history (evaluation now x :: h) (evaluateSlots now x).2.(sw_s).

(** What one evaluation sends after a history, against the definition of [due]. *)
Definition sends_due (h : list Evaluation) (e : Evaluation) : Prop :=
  let all := row_key <$> filter (λ r, due h e.(ev_now) r = true) e.(ev_rows) in
  e.(ev_sent) `prefix_of` all ∧ (e.(ev_ok) = true → e.(ev_sent) = all) ∧
  (e.(ev_told) = e.(ev_sent) ∨ e.(ev_ok) = false ∧ lost_commit ∧ ∃ key, e.(ev_sent) = e.(ev_told) ++ [key]).

Lemma take_S_last {A} (l : list A) k : (k < length l)%nat → ∃ a, take (S k) l = take k l ++ [a].
Proof using Type. intros [a Ha]%lookup_lt_is_Some_2. exists a. by apply take_S_r. Qed.

Lemma evaluation_step now x h : answer x.(sw_w).(w_calls) = None → tracks h x.(sw_s).(slotInactiveSince) x.(sw_s).(slotInactiveEmitted) →
  sends_due h (evaluation now x) ∧
  tracks (evaluation now x :: h) (evaluateSlots now x).2.(sw_s).(slotInactiveSince) (evaluateSlots now x).2.(sw_s).(slotInactiveEmitted).
Proof using All.
  intros Ha Ht. pose proof (evaluateSlots_read now x Ha) as Hr. cbv zeta in Hr. unfold evaluation. set (rows := slots_read now x) in *.
  pose proof (decide_tracks h rows now _ _ (slot_states_NoDup _ _ _) Ht) as Hdec.
  destruct (decideSlotInactiveEmissions _ _ _ _) as [[since emitted] out]. destruct Hdec as [-> Hdec].
  destruct (evaluateSlots now x) as [r x']. cbn [snd]. destruct Hr as (k & n & -> & -> & -> & -> & Hk & Hn). split; [|apply Hdec].
  unfold sends_due. cbn [ev_sent ev_told ev_now ev_rows ev_ok]. rewrite !fmap_take. split_and!; [apply prefix_take| |].
  - destruct r as [|[]]; [done|]. intros _. destruct Hn as [->|[? _]]; [|done]. apply take_ge. rewrite length_fmap. by apply Hk.
  - destruct Hn as [->|(Hr & -> & Hl & Hc)]; [by left|right]. split_and!; [by destruct r as [|[]]|done|]. apply take_S_last. by rewrite length_fmap.
Qed.

Lemma history_tracks h s : slot_history h s → tracks h s.(slotInactiveSince) s.(slotInactiveEmitted).
Proof using All.
  induction 1 as [s E1 E2|h s s' _ IH E1 E2|h now x e _ IH Ha|h now x _ IH Ha].
  - intros key. rewrite E1, E2. cbn. split; [done|]. set_solver.
  - by rewrite E1, E2.
  - by rewrite (evaluateSlots_unread _ _ _ Ha).
  - by apply evaluation_step.
Qed.

(** C14: Within one process, a spell of inactivity is reported once, lost answers apart. The
    history is the evaluations of one process since its start (the maps are in memory: a
    restart begins a new history), whatever failed in them and whatever happened to the store
    in between. After it, an evaluation whose read of the slots succeeds stores a
    [slot_inactive] event for slots of the rows it read that are due: inactive, inactive in
    every evaluation that read the slots since one more than thirty seconds before, and
    without an event written in that spell that was answered. When the evaluation ends well it
    stores one for each of the due slots, in the order of the rows; when it fails, for the
    first of them. Every event it stores is one whose write was answered, so that its slot
    is not due again in that spell, except possibly the last one of a failed evaluation, when
    a commit took effect whose answer was lost: that slot stays due and is reported again. *)
Theorem spell_reported_once h now x : slot_history h x.(sw_s) → answer x.(sw_w).(w_calls) = None → sends_due h (evaluation now x).
Proof using All. intros Hh Ha. apply evaluation_step; [done|]. by apply history_tracks. Qed.
End runs.

(** ** A slot that stays inactive *)
Module Standby.
#[local] Existing Instances UuidBits.uuid_bits UuidBits.uuid_bits_laws Push.ranges Push.same_text Fleet.healthy_server Fleet.lock_free Fleet.time_stamp.
#[local] Instance ranges_laws : RangeOrderLaws.
Proof. split. reflexivity. Qed.

Definition slot_sample (ts : Time) : sample :=
  SReplication (mkReplicationRow ts defaultTenant 42 5 None "standby" "streaming" "slot" {["SlotActive" := VBool false]}).
Definition store (ts : Time) : DB := set_samples {[dedup (slot_sample ts) := slot_sample ts]} Fleet.fleet.

(** Two evaluations half a minute and a second apart. *)
Definition later_now : Time := Push.noon + 31 * Second.
Definition first_eval : SWorld := mkSWorld (set_db (store Push.noon) Push.idle) NewStaleness.
Definition second_eval : SWorld := mkSWorld (set_db (store later_now) (evaluateSlots Push.noon first_eval).2.(sw_w)) (evaluateSlots Push.noon first_eval).2.(sw_s).

Lemma spell_reported_once_witness :
  sends_due [evaluation Push.noon first_eval] (evaluation later_now second_eval) ∧ (evaluation later_now second_eval).(ev_sent) = [slotKey 5 "standby"].
Proof.
  split; [|vm_compute; reflexivity]. apply spell_reported_once.
  - apply (history_other _ (evaluateSlots Push.noon first_eval).2.(sw_s)); [|vm_compute; reflexivity..].
    apply (history_read [] Push.noon first_eval); [apply history_start|]; vm_compute; reflexivity.
  - vm_compute. reflexivity.
Defined.
End Standby.
