(* ===== verification/CommandAgent.v ===== *)
(** * The agent's command dispatcher (internal/agent/command.go)

    [Dispatcher] polls the server and runs what it is handed: [dispatch] checks that the
    instance is monitored, the arguments, the target's refreshed permissions and the gates
    before an executor runs, and posts one result under the claim's token. Targets and
    executors are parameters; so are the texts of identifiers and quoted strings and the
    size of a result's JSON. The last section runs the dispatcher against the server's
    handlers. *)
From stdpp Require Import pretty.
From S2P Require Import Prelude GoTime GoBytes GoText Pgtype Redact Command CommandServer.

Definition commandPollWait : Duration := 25 * Second.
Definition commandBackoffInitial : Duration := Second.
Definition commandBackoffMax : Duration := 30 * Second.

(** The error of an executor: its text, and whether a [RejectedError] is in its chain. *)
Record exec_error := mkExecError { ee_rejected : bool; ee_text : text }.

Record commandResult := mkCommandResult { cr_token : UUID; cr_outcome : text; cr_result : text; cr_error : text }.

Record polledCommand := mkPolled { pc_command : UUID; pc_kind : Kind; pc_args : Args; pc_instance : UUID; pc_cluster : Z; pc_token : UUID }.

Section dispatcher.
Context {target : Type}.

(** What a target answers when a command is dispatched: whether refreshing its
    capabilities fails ([None] too when it has no such hook), and its tier afterwards. *)
Record target_env := mkTargetEnv { RefreshCapabilities : target → option text; PermTier : target → Z }.

Record commandTarget := mkCommandTarget { ct_target : target; ct_allowExplainAnalyze : bool; ct_allowSignal : bool }.

Definition Executor : Type := target → Args → text + exec_error.

Record Dispatcher := mkDispatcher {
  d_agentID : UUID;
  d_enabled : bool;
  d_targets : gmap UUID commandTarget;
  d_executors : gmap Kind Executor;
}.

Definition NewDispatcher (agentID : UUID) (enabled : bool) : Dispatcher := mkDispatcher agentID enabled ∅ ∅.

Definition AddTarget (instanceID : UUID) (t : target) (allowExplainAnalyze allowSignal : bool) (d : Dispatcher) : Dispatcher :=
  if instanceID =? uuid_Nil then d
  else mkDispatcher d.(d_agentID) d.(d_enabled) (<[instanceID := mkCommandTarget t allowExplainAnalyze allowSignal]> d.(d_targets)) d.(d_executors).

Definition AddExecutor (ex : option (Kind * Executor)) (d : Dispatcher) : Dispatcher :=
  match ex with
  | None => d
  | Some (k, f) => mkDispatcher d.(d_agentID) d.(d_enabled) d.(d_targets) (<[k := f]> d.(d_executors))
  end.

(** ** Run *)

(** How one turn of [Run] goes: what [pollOnce] returns, and after an error whether the
    context was done and whether the sleep was cut short. *)
Inductive poll_end := PollOK | PollErr (done : bool) (slept : bool).

Definition next_backoff (b : Duration) : Duration :=
  if b <? commandBackoffMax then (if commandBackoffMax <? b * 2 then commandBackoffMax else b * 2) else b.

(** The sleeps of [Run], over the turns given. *)
Fixpoint run_loop (turns : list poll_end) (backoff : Duration) : list Duration :=
  match turns with
  | [] => []
  | PollOK :: turns => run_loop turns commandBackoffInitial
  | PollErr done slept :: turns =>
      if done then []
      else backoff :: (if slept then run_loop turns (next_backoff backoff) else [])
  end.

Definition Run (d : Dispatcher) (turns : list poll_end) : list Duration :=
  if negb d.(d_enabled) || (d.(d_agentID) =? uuid_Nil) then [] else run_loop turns commandBackoffInitial.

(** ** Dispatch *)

Context (uuid_string : UUID → text) (quote : text → text) (json_size : commandResult → Z).

(** The messages of [Validate]. *)
Definition args_error_text (k : Kind) (e : args_error) : text :=
  match e with
  | UnknownKind => str "unknown command kind " ++ quote k
  | DatnameTooLong => str "datname is longer than 63 bytes"
  | DatnameNUL => str "datname contains a NUL byte"
  | ExplainRequiresQueryID => str "explain requires queryid"
  | ExplainRejectsPID => str "explain rejects pid"
  | ExplainRejectsRelation => str "explain rejects schema and relation"
  | ExplainRejectsBackendStart => str "explain rejects backend_start"
  | SignalRequiresPID => k ++ str " requires pid"
  | SignalRejectsQueryID => k ++ str " rejects queryid"
  | SignalRejectsAnalyze => k ++ str " rejects analyze"
  | SignalRejectsUnrelated => k ++ str " rejects unrelated arguments"
  | PgstattupleRequiresRelation => str "pgstattuple requires schema and relation"
  | PgstattupleRejectsUnrelated => str "pgstattuple rejects unrelated arguments"
  end.

Definition withheldError : text := "the error text is withheld because it may hold a credential".

Definition commandError (err : exec_error) : text := if MayHoldCredential err.(ee_text) then withheldError else err.(ee_text).

(** [dispatch] up to the post: what was executed, if anything, and the result to post. *)
Definition dispatch (env : target_env) (d : Dispatcher) (p : polledCommand) : option (target * Kind * Args) * commandResult :=
  let refuse outcome err := (None, mkCommandResult p.(pc_token) outcome [] err) in
  match d.(d_targets) !! p.(pc_instance) with
  | None => refuse (str "rejected") (str "agent does not monitor instance " ++ uuid_string p.(pc_instance))
  | Some binding =>
  match Validate p.(pc_args) p.(pc_kind) with
  | Some e => refuse (str "rejected") (args_error_text p.(pc_kind) e)
  | None =>
  match env.(RefreshCapabilities) binding.(ct_target) with
  | Some err => refuse (str "error") (str "capabilities could not be refreshed, so the command was not run: " ++ err)
  | None =>
  match Allowed p.(pc_kind) p.(pc_args) (mkGates (env.(PermTier) binding.(ct_target)) binding.(ct_allowExplainAnalyze) binding.(ct_allowSignal)) with
  | Some reason => refuse (str "rejected") reason
  | None =>
  match d.(d_executors) !! p.(pc_kind) with
  | None => refuse (str "rejected") (str "no executor registered for " ++ p.(pc_kind))
  | Some execute =>
      (Some (binding.(ct_target), p.(pc_kind), p.(pc_args)),
       match execute binding.(ct_target) p.(pc_args) with
       | inl result => mkCommandResult p.(pc_token) (str "ok") result []
       | inr err => mkCommandResult p.(pc_token) (if err.(ee_rejected) then str "rejected" else str "error") [] (commandError err)
       end)
  end end end end end.

(** The body [postResult] sends. *)
Definition post_body (r : commandResult) : commandResult :=
  if MaxResultBytes <? json_size r then
    mkCommandResult r.(cr_token) (str "error") []
      (str "result is " ++ str (pretty (json_size r)) ++ str " bytes, over the " ++ str (pretty MaxResultBytes) ++ str " byte limit")
  else r.

(** [postResult] succeeds on a 2xx answer; [None] is a network error. *)
Definition post_ok (status : option Z) : bool := match status with Some s => (200 <=? s) && (s <? 300) | None => false end.

(** [pollOnce] on the server's answer: [None] is a network error; a 200 carries a command,
    or a body that does not decode. The reply to the result is [posted]. *)
Definition pollOnce (env : target_env) (d : Dispatcher) (answer : option (Z * option polledCommand)) (posted : UUID → commandResult → option Z) :
    bool * option (target * Kind * Args) * option (UUID * commandResult) :=
  match answer with
  | None => (false, None, None)
  | Some (204, _) => (true, None, None)
  | Some (200, Some p) =>
      let '(ran, r) := dispatch env d p in
      let body := post_body r in
      (post_ok (posted p.(pc_command) body), ran, Some (p.(pc_command), body))
  | Some _ => (false, None, None)
  end.

(** ** What the dispatcher promises *)

#[local] Opaque MayHoldCredential.

(** No branch of [Validate] or [Allowed] refuses without a text. *)
Lemma args_error_text_not_empty k e : args_error_text k e ≠ [].
Proof using Type. destruct e; cbn; try done; intros E; by apply app_eq_nil in E as []. Qed.

Lemma allowed_reason_not_empty k a g reason : Allowed k a g = Some reason → reason ≠ [].
Proof using Type. unfold Allowed. intros E. by repeat case_match; simplify_eq. Qed.

(** A branch that runs nothing, with an error that [tac] shows is not empty. *)
Ltac refused tac :=
  split_and!; [done|done|intros _; cbn [cr_outcome cr_result cr_error]; split_and!; [first [by left|by right]|done|tac]|done].

(** A command is executed only on an instance the agent monitors, with valid
    arguments, after the target's permissions were refreshed, when the refreshed tier and
    the configured gates allow it, and by the executor of its kind. Whatever happens, one
    result is posted, under the token of the claim; it reports success exactly when an
    executor ran and succeeded, and then carries what the executor returned; a failure
    carries no result; and no error an executor returned is reported with a text that
    shows a credential. *)
Theorem dispatch_contract env d p : let '(ran, r) := dispatch env d p in
  r.(cr_token) = p.(pc_token) ∧
  (∀ t k a, ran = Some (t, k, a) → k = p.(pc_kind) ∧ a = p.(pc_args) ∧ well_typed k a ∧
    ∃ b f, d.(d_targets) !! p.(pc_instance) = Some b ∧ b.(ct_target) = t ∧ env.(RefreshCapabilities) t = None ∧
      Allowed k a (mkGates (env.(PermTier) t) b.(ct_allowExplainAnalyze) b.(ct_allowSignal)) = None ∧ d.(d_executors) !! k = Some f ∧
      match f t a with
      | inl result => r = mkCommandResult p.(pc_token) (str "ok") result []
      | inr err => r.(cr_outcome) = (if err.(ee_rejected) then str "rejected" else str "error") ∧ r.(cr_result) = [] ∧
          MayHoldCredential r.(cr_error) = false ∧ (MayHoldCredential err.(ee_text) = false → r.(cr_error) = err.(ee_text))
      end) ∧
  (ran = None → (r.(cr_outcome) = str "rejected" ∨ r.(cr_outcome) = str "error") ∧ r.(cr_result) = [] ∧ r.(cr_error) ≠ []) ∧
  (r.(cr_outcome) = str "ok" → is_Some ran ∧ r.(cr_error) = []).
Proof using Type.
  unfold dispatch. cbn zeta.
  destruct (d_targets d !! pc_instance p) as [b|] eqn:Eb; [|refused done].
  destruct (Validate (pc_args p) (pc_kind p)) as [e|] eqn:Ev.
  { refused ltac:(apply args_error_text_not_empty). }
  apply validate_spec in Ev. destruct (RefreshCapabilities env (ct_target b)) as [err|] eqn:Er; [refused done|].
  destruct (Allowed _ _ _) as [reason|] eqn:Ea; [refused ltac:(by eapply allowed_reason_not_empty)|].
  destruct (d_executors d !! pc_kind p) as [f|] eqn:Ef; [|refused done].
  assert (MayHoldCredential withheldError = false) as Hw by apply withheld_texts.
  destruct (f (ct_target b) (pc_args p)) as [res|err] eqn:Ex; (split; [done|]); split.
  - intros t k a [= <- <- <-]. split_and!; [done..|]. exists b, f. split_and!; try done. by rewrite Ex.
  - split; [done|]. intros _. by split.
  - intros t k a [= <- <- <-]. split_and!; [done..|]. exists b, f. split_and!; try done. rewrite Ex. cbn. unfold commandError.
    destruct (MayHoldCredential (ee_text err)) eqn:Em; by split_and!.
  - split; [done|]. cbn. by destruct (ee_rejected err).
Qed.
End dispatcher.

(** ** Waits between failed polls *)

(** The wait after [k] failed polls in a row. *)
Definition backoff_after (k : nat) : Duration := Z.min (2 ^ Z.of_nat k) 30 * Second.

Lemma next_backoff_after k : next_backoff (backoff_after k) = backoff_after (S k).
Proof.
  unfold next_backoff, backoff_after, commandBackoffMax. pose proof (Z.pow_pos_nonneg 2 (Z.of_nat k) ltac:(lia) ltac:(lia)).
  rewrite Nat2Z.inj_succ, Z.pow_succ_r by lia. time_unfold. repeat case_match; zbool; lia.
Qed.

(** The failed polls since the last good one, before each wait. *)
Fixpoint failed_before (turns : list poll_end) (k : nat) : list nat :=
  match turns with
  | [] => []
  | PollOK :: turns => failed_before turns 0
  | PollErr done slept :: turns => if done then [] else k :: (if slept then failed_before turns (S k) else [])
  end.

Lemma run_loop_backoff turns k : run_loop turns (backoff_after k) = backoff_after <$> failed_before turns k.
Proof.
  revert k. induction turns as [|[|[] []] turns IH]; intros k; cbn; [done|apply (IH 0%nat)|done|done| |done].
  by rewrite next_backoff_after, IH.
Qed.

(** The waits of the polling loop: after [k] failures in a row it waits 2^k seconds,
    never more than thirty, and a poll that succeeds starts over; a disabled dispatcher,
    or one without an agent, does not poll. *)
Theorem run_backs_off {target} (d : @Dispatcher target) turns :
  Run d turns = (if d.(d_enabled) && negb (d.(d_agentID) =? uuid_Nil) then backoff_after <$> failed_before turns 0 else []) ∧
  Forall (λ w, Second ≤ w ≤ commandBackoffMax) (Run d turns).
Proof.
  assert (∀ l, Forall (λ w, Second ≤ w ≤ commandBackoffMax) (backoff_after <$> l)) as Hall.
  { intros l. apply Forall_fmap, Forall_true. intros k. cbn. unfold backoff_after, commandBackoffMax.
    pose proof (Z.pow_pos_nonneg 2 (Z.of_nat k) ltac:(lia) ltac:(lia)). time_unfold. lia. }
  unfold Run. change commandBackoffInitial with (backoff_after 0). rewrite run_loop_backoff.
  destruct (d_enabled d), (d_agentID d =? uuid_Nil); cbn [negb orb andb]; split; try done; apply Hall.
Qed.

(** ** From the request to the result *)

Section end_to_end.
Context (sha256 : text → text) (uuid_parse : text → option UUID).
Context (decode_explain : text → option explain_payload) (decode_tuple : text → option tuple_payload).
Context {target : Type} (uuid_string : UUID → text) (quote : text → text) (json_size : commandResult → Z).

(** What the agent decodes from a poll's answer, and the server from a posted result. *)
Definition as_polled (p : pollResponse) : polledCommand := mkPolled p.(po_command) p.(po_kind) p.(po_args) p.(po_instance) p.(po_cluster) p.(po_token).
Definition as_request (r : commandResult) : resultRequest := mkResult r.(cr_token) r.(cr_outcome) r.(cr_result) r.(cr_error).

#[local] Opaque MayHoldCredential.

(** Every result an agent posts, whatever its targets and executors do, is one the
    server takes for valid, so none is lost to a malformed request: as long as the claim's
    token is a token and no executor returns an error without a text. *)
Theorem dispatched_result_valid env (d : @Dispatcher target) p : p.(pc_token) ≠ uuid_Nil →
  (∀ k f t a err, d.(d_executors) !! k = Some f → f t a = inr err → err.(ee_text) ≠ []) →
  validateResult (as_request (post_body json_size (dispatch uuid_string quote env d p).2)) = true.
Proof using Type.
  intros Htok Hexec.
  assert (∀ out err, out = str "rejected" ∨ out = str "error" → err ≠ [] →
    validateResult (as_request (post_body json_size (mkCommandResult (pc_token p) out [] err))) = true) as Hfail.
  { intros out err Ho He. unfold post_body, validateResult. destruct (_ <? _); cbn; rewrite (proj2 (Z.eqb_neq _ _) Htok); [done|].
    destruct err; [done|]. by destruct Ho as [-> | ->]. }
  unfold dispatch. cbn zeta. destruct (d_targets d !! pc_instance p) as [b|]; [|apply Hfail; [by left|done]].
  destruct (Validate (pc_args p) (pc_kind p)) as [e|]; [apply Hfail; [by left|apply args_error_text_not_empty]|].
  destruct (RefreshCapabilities env (ct_target b)) as [err|]; [apply Hfail; [by right|done]|].
  destruct (Allowed _ _ _) as [reason|] eqn:Ea; [apply Hfail; [by left|by eapply allowed_reason_not_empty]|].
  destruct (d_executors d !! pc_kind p) as [f|] eqn:Ef; [|apply Hfail; [by left|done]].
  destruct (f (ct_target b) (pc_args p)) as [res|err] eqn:Ex; cbn [snd].
  - unfold post_body, validateResult. destruct (_ <? _); cbn; by rewrite (proj2 (Z.eqb_neq _ _) Htok).
  - apply Hfail; [destruct (ee_rejected err); auto|]. unfold commandError. destruct (MayHoldCredential _); [done|]. by eapply Hexec.
Qed.

Lemma bearer_ok token : token ≠ [] → auth_Validate sha256 (Some token) (str "Bearer " ++ token) = true.
Proof using Type.
  intros Ht. destruct token as [|c t]; [done|]. unfold auth_Validate, secretsEqual. rewrite (bool_decide_eq_true_2 (7 < _)%nat) by (rewrite length_app; cbn; lia). by rewrite !bool_decide_eq_true_2.
Qed.

(** The poll that follows the request of the only waiting command hands it out. *)
Lemma poll_hands_out db now id c agent token agent_text tok : db.(commands) !! id = Some c → waiting now commandTenant agent c = true →
  (∀ id' c', db.(commands) !! id' = Some c' → waiting now commandTenant agent c' = true → id' = id) → agentRevoked agent db = false →
  token ≠ [] → agent_text ≠ [] → uuid_parse agent_text = Some agent →
  ∃ db', poll sha256 uuid_parse (Some token) (str "Bearer " ++ token) agent_text [] agent_text None true (calm now) [mkTurn (calm now) (λ _, false) tok now true] db =
    (Some (200, Some (mkPoll id c.(c_kind) c.(c_args) c.(c_instance) c.(c_cluster) tok (Z.max c.(c_expires) (Add now commandClaimLease)))), db') ∧
    db'.(commands) !! id = Some (claim_row now (Add now commandClaimLease) tok c) ∧ db'.(agents) = db.(agents).
Proof using Type.
  intros Hc Hw Honly Hrev Ht Ha Hp. unfold poll, authenticatedAgent. rewrite bearer_ok by done. destruct agent_text as [|x xs] eqn:Eat; [done|].
  rewrite <- Eat in *. rewrite bool_decide_eq_true_2 by done. cbn [negb]. rewrite Hp. cbn [parseCommandWait]. rewrite Hrev. cbn [fails calm stmt poll_loop t_call t_locked t_token].
  set (db1 := expire_all now db).
  assert (overdue now c = false) as Ho.
  { apply waiting_spec in Hw as (_ & _ & _ & He). unfold overdue. apply andb_false_iff. right. apply Z.leb_gt. lia. }
  assert (db1.(commands) !! id = Some c) as Hc1 by (unfold db1, expire_all; cbn; rewrite lookup_fmap, Hc; cbn; by rewrite Ho).
  assert (agentRevoked agent db1 = false) as Hrev1 by done.
  unfold claim. cbn [expireCommands calm stmt after db_now go_now]. fold db1.
  destruct (oldest _) as [[id' c']|] eqn:Eo.
  2:{ exfalso. apply oldest_none in Eo. assert ((id, c) ∈ ([] : list (UUID * command))) as Hin; [|by apply elem_of_nil in Hin].
      rewrite <- Eo. apply elem_of_map_to_list, map_lookup_filter_Some. split; [done|]. unfold claimable. cbn [fst snd]. by rewrite Hw, Hrev1. }
  apply claim_pick in Eo as (Hc' & Hw' & _). assert (id' = id) as ->.
  { unfold db1, expire_all in Hc'. cbn in Hc'. rewrite lookup_fmap in Hc'. apply fmap_Some in Hc' as (c0 & Hc0 & ->).
    destruct (overdue now c0) eqn:E0; [by apply waiting_spec in Hw' as (_ & _ & ? & _)|]. by eapply Honly. }
  assert (c' = c) as -> by congruence. eexists. split; [done|]. cbn. split; [apply lookup_insert_eq|done].
Qed.

Lemma get_done db now id c : db.(commands) !! id = Some c → c.(c_state) = Done →
  (get_command (calm now) true (Some id) db).1 = (200, Some (Done, c.(c_result), c.(c_error))).
Proof using Type.
  intros Hc Hs. assert ((expire_all now db).(commands) !! id = Some c) as Hx.
  { unfold expire_all. cbn [commands add_audit set_commands]. rewrite lookup_fmap, Hc. cbn. unfold overdue. rewrite Hs. by rewrite andb_false_r. }
  unfold get_command. cbn [negb expireCommands calm stmt after fails db_now]. rewrite Hx. cbn. by rewrite Hs.
Qed.

(** The result posted under the claim's token ends the command, and a lookup shows it. *)
Lemma result_shown db now id c token res : db.(commands) !! id = Some c → c.(c_state) = Claimed → agentRevoked c.(c_agent) db = false → token ≠ [] →
  (∃ tok, c.(c_token) = Some tok ∧ tok ≠ uuid_Nil) → MayHoldCredential res = false →
  (c.(c_kind) = KindExplain → is_Some (decode_explain res)) → (c.(c_kind) = KindPgstattuple → is_Some (decode_tuple res)) →
  ∃ tok, c.(c_token) = Some tok ∧
  let '(status, db') := post_result sha256 decode_explain decode_tuple (Some token) (str "Bearer " ++ token) true (Some id) (Body (mkResult tok (str "ok") res [])) (calm now) db in
  status = 204 ∧ (get_command (calm now) true (Some id) db').1 = (200, Some (Done, nullable res, None)).
Proof using Type.
  intros Hc Hs Hrev Ht (tok & Htok & Hnil) Hres Hex Htu. exists tok. split; [done|]. unfold post_result. rewrite bearer_ok by done. cbn [negb].
  assert (validateResult (mkResult tok (str "ok") res []) = true) as -> by (unfold validateResult; cbn; by rewrite (proj2 (Z.eqb_neq _ _) Hnil)).
  assert (withhold (mkResult tok (str "ok") res []) = mkResult tok (str "ok") res []) as ->.
  { unfold withhold. cbn [r_outcome r_result r_error non_empty andb]. by rewrite Hres, andb_false_r. }
  unfold result_tx. cbn [fails calm stmt negb r_token r_outcome r_result r_error]. rewrite Hc, Hrev.
  rewrite (proj2 (held_by_spec tok c)) by done. rewrite bool_decide_eq_true_2 by done. cbn zeta iota.
  destruct (persistCommandArtifact decode_explain decode_tuple _ _ _ _ _) as [db2|] eqn:Ep.
  - apply persist_keeps in Ep as (Ec & _). cbn [commit]. split; [done|].
    etrans; [eapply get_done|]; [cbn [commands add_audit]; rewrite Ec; cbn [commands set_commands]; apply lookup_insert_eq|done|done].
  - exfalso. unfold persistCommandArtifact in Ep. cbn zeta in Ep. case_decide as E1; [|case_decide as E2]; [| |done].
    + destruct (Hex E1) as [pl Epl]. rewrite Epl in Ep. by repeat case_match.
    + destruct (Htu E2) as [pl Epl]. rewrite Epl in Ep. destruct (bloat_of pl) as [[? ?] ?]. done.
Qed.

(** C24: A command's round trip when nothing goes wrong. Assumed: every statement of the store
    succeeds and no time passes; the instance is known, its agent is not revoked and has no
    command waiting; the command's identifier is new and its lifetime positive; the agent
    authenticates with the server's token; the arguments are those of the kind; the agent
    monitors the instance, reads its permissions, and they and the agent's own gates allow
    the command; it has an executor of the kind, which succeeds. The result it returns shows
    no credential and with its envelope is not larger than an agent may send, and that of an
    EXPLAIN or of pgstattuple can be decoded. Then the request is accepted, the agent's next
    poll hands it out, it is executed once on that target with exactly the arguments
    requested, the posted result is taken, and it is what the operator reads back. *)
Theorem command_round_trip db now ttl instance i k a who id tok token agent_text env (d : @Dispatcher target) b f res :
  0 < ttl → well_typed k a → db.(instances) !! instance = Some i → i.(i_tenant) = commandTenant → agentRevoked i.(i_agent) db = false →
  count_waiting now commandTenant i.(i_agent) db = 0 → db.(commands) !! id = None → tok ≠ uuid_Nil →
  token ≠ [] → agent_text ≠ [] → uuid_parse agent_text = Some i.(i_agent) →
  d.(d_targets) !! instance = Some b → env.(RefreshCapabilities) b.(ct_target) = None →
  Allowed k a (mkGates (env.(PermTier) b.(ct_target)) b.(ct_allowExplainAnalyze) b.(ct_allowSignal)) = None →
  d.(d_executors) !! k = Some f → f b.(ct_target) a = inl res → MayHoldCredential res = false →
  json_size (mkCommandResult tok (str "ok") res []) ≤ MaxResultBytes →
  (k = KindExplain → is_Some (decode_explain res)) → (k = KindPgstattuple → is_Some (decode_tuple res)) →
  let '(s1, cid, db1) := enqueue ttl (calm now) true (Some instance) (Body (mkEnqueue k (Some (Some a)))) who id db in
  let '(answer, db2) := poll sha256 uuid_parse (Some token) (str "Bearer " ++ token) agent_text [] agent_text None true (calm now)
    [mkTurn (calm now) (λ _, false) tok now true] db1 in
  s1 = 202 ∧ cid = Some id ∧ ∃ p, answer = Some (200, Some p) ∧
  let '(ran, r) := dispatch uuid_string quote env d (as_polled p) in
  ran = Some (b.(ct_target), k, a) ∧
  let '(s3, db3) := post_result sha256 decode_explain decode_tuple (Some token) (str "Bearer " ++ token) true (Some p.(po_command))
    (Body (as_request (post_body json_size r))) (calm now) db2 in
  s3 = 204 ∧ (get_command (calm now) true (Some id) db3).1 = (200, Some (Done, nullable res, None)).
Proof using Type.
  intros Httl Hty Hi Hten Hrev Hcount Hnew Htok Ht Hat Hparse Hb Href Hall Hf Hex Hres Hsize Hde Hdt.
  pose proof (proj2 (validate_spec k a) Hty) as Hval.
  unfold enqueue. cbn [negb rq_args rq_kind calm fails stmt go_now db_now]. rewrite Hval, Hi, Hten, Hcount, Hnew. cbn [Z.leb commandQueueLimit Z.compare].
  set (c := new_command i instance k a who now (Add now ttl)). set (db1 := add_audit _ _).
  assert (db1.(commands) !! id = Some c) as Hc by apply lookup_insert_eq.
  assert (∀ id' c', db1.(commands) !! id' = Some c' → waiting now commandTenant (i_agent i) c' = true → id' = id) as Honly.
  { intros id' c' Hc' Hw'. cbn in Hc'. apply lookup_insert_Some in Hc' as [[-> _]|[_ Hc']]; [done|]. exfalso.
    assert (filter (λ p, waiting now commandTenant (i_agent i) p.2 = true) db.(commands) = ∅) as E by (apply map_size_empty_inv; unfold count_waiting in Hcount; lia).
    assert (filter (λ p, waiting now commandTenant (i_agent i) p.2 = true) db.(commands) !! id' = Some c') as E' by (by apply map_lookup_filter_Some).
    by rewrite E, lookup_empty in E'. }
  destruct (poll_hands_out db1 now id c (i_agent i) token agent_text tok) as (db2 & -> & Hc2 & Hag); try done.
  { apply waiting_spec. split_and!; [done..|]. cbn. unfold Add. lia. }
  split_and!; [done..|]. eexists. split; [done|]. cbn [po_command as_polled].
  unfold dispatch. cbn [pc_instance pc_args pc_kind pc_token as_polled po_instance po_args po_kind po_token c new_command c_kind c_args c_instance].
  rewrite Hb, Hval, Href, Hall, Hf, Hex. split; [done|].
  unfold post_body. rewrite (proj2 (Z.ltb_ge _ _) Hsize). unfold as_request. cbn [cr_token cr_outcome cr_result cr_error].
  destruct (result_shown db2 now id (claim_row now (Add now commandClaimLease) tok c) token res) as (tok' & [= <-] & Hshown); try done.
  - unfold agentRevoked. by rewrite Hag.
  - by exists tok.
Qed.
End end_to_end.

(** ** Examples *)

Module Example_.
Import CommandServer.Example_.

Definition cancel_executor : @Executor unit := λ _ _, inl (str "{true}").

Definition agent : @Dispatcher unit :=
  AddExecutor (Some (KindCancel, cancel_executor)) (AddTarget 5 () false true (NewDispatcher 7 true)).

Definition signal_tier : @target_env unit := mkTargetEnv (λ _, None) (λ _, TierSignal).

Lemma dispatched_result_valid_witness :
  validateResult (as_request (post_body (λ _, 10) (dispatch (λ _, []) (λ t, t) signal_tier agent (mkPolled 100 KindCancel cancel_args 5 1 9)).2)) = true.
Proof.
  apply dispatched_result_valid; [done|]. intros k f t a err Hf. unfold agent in Hf. cbn in Hf.
  apply lookup_insert_Some in Hf as [[_ <-]|[_ Hf]]; [done|by rewrite lookup_empty in Hf].
Defined.

Lemma command_round_trip_witness : let db := mkDB ∅ [] {[5 := mkInstance 7 1 commandTenant]} ∅ [] [] in
  let '(_, _, db1) := enqueue (5 * Minute) (calm 1000) true (Some 5) (Body (mkEnqueue KindCancel (Some (Some cancel_args)))) (str "api") 100 db in
  ∃ p, (poll (λ t, t) (λ _, Some 7) (Some (str "secret token")) (str "Bearer " ++ str "secret token") (str "agent") [] (str "agent") None true (calm 1000)
    [mkTurn (calm 1000) (λ _, false) 9 1000 true] db1).1 = Some (200, Some p).
Proof.
  cbn zeta.
  pose proof (command_round_trip (λ t, t) (λ _, Some 7) (λ _, None) (λ _, None) (λ _, []) (λ t, t) (λ _, 10)
    (mkDB ∅ [] {[5 := mkInstance 7 1 commandTenant]} ∅ [] []) 1000 (5 * Minute) 5 (mkInstance 7 1 commandTenant) KindCancel cancel_args (str "api") 100 9
    (str "secret token") (str "agent") signal_tier agent (mkCommandTarget () false true) cancel_executor (str "{true}")) as H.
  destruct (enqueue _ _ _ _ _ _ _ _) as [[s1 cid] db1]. destruct (poll _ _ _ _ _ _ _ _ _ _ _ db1) as [answer db2].
  destruct H as (_ & _ & p & -> & _); try done; [by constructor; left|]. by exists p.
Defined.
End Example_.
