(* ===== verification/ExplainGuard.v ===== *)
(** * The EXPLAIN guard (internal/agent/explain_guard.go)

    Whether a statement of a monitored database may be planned or executed: the lists of
    functions known to be free of effects, the scanner that finds the calls written in a
    statement or in a plan's expressions, and the three checks that use them. A text is
    scanned from a position on: the functions below take what is left of it and answer how
    many bytes they read. What the catalog queries return is an argument; [ToLower] of a
    text that is not ASCII is a parameter. *)
From S2P Require Import Prelude GoBytes GoText GoSort GoJson.

(** ** Lists *)

Definition sideEffectFreeExtensions : list text :=
  str <$> ["btree_gin"; "btree_gist"; "citext"; "cube"; "earthdistance"; "fuzzystrmatch"; "hstore"; "intarray"; "isn"; "ltree";
    "pg_trgm"; "pgcrypto"; "postgis"; "postgis_sfcgal"; "seg"; "unaccent"; "uuid-ossp"]%string.

Definition extensionFunctionsDenied : list (text * text) :=
  (λ '(e, f), (str e, str f)) <$>
    [("pg_trgm", "set_limit"); ("postgis", "addgeometrycolumn"); ("postgis", "dropgeometrycolumn"); ("postgis", "dropgeometrytable");
     ("postgis", "populate_geometry_columns"); ("postgis", "postgis_extensions_upgrade"); ("postgis", "updategeometrysrid")]%string.

Definition builtinVolatileAllowed : list text :=
  str <$> ["array_sample"; "array_shuffle"; "bernoulli"; "clock_timestamp"; "current_query"; "currval"; "gen_random_uuid"; "lastval";
    "pg_blocking_pids"; "pg_collation_actual_version"; "pg_control_checkpoint"; "pg_control_init"; "pg_control_recovery"; "pg_control_system";
    "pg_current_logfile"; "pg_current_wal_flush_lsn"; "pg_current_wal_insert_lsn"; "pg_current_wal_lsn"; "pg_database_collation_actual_version";
    "pg_database_size"; "pg_get_wait_events"; "pg_get_wal_replay_pause_state"; "pg_indexes_size"; "pg_is_in_recovery"; "pg_is_wal_replay_paused";
    "pg_jit_available"; "pg_last_committed_xact"; "pg_last_wal_receive_lsn"; "pg_last_wal_replay_lsn"; "pg_last_xact_replay_timestamp";
    "pg_lock_status"; "pg_notification_queue_usage"; "pg_partition_ancestors"; "pg_partition_tree"; "pg_relation_size";
    "pg_safe_snapshot_blocking_pids"; "pg_sequence_last_value"; "pg_stat_have_stats"; "pg_table_size"; "pg_tablespace_size";
    "pg_total_relation_size"; "pg_xact_commit_timestamp"; "pg_xact_commit_timestamp_origin"; "pg_xact_status"; "random"; "random_normal";
    "system"; "timeofday"; "txid_status"; "uuidv4"; "uuidv7"]%string.

Definition builtinVolatileAllowedPrefixes : list text := [str "pg_stat_get_"].
Definition builtinDenied : list text := [str "pg_current_xact_id"; str "txid_current"].
Definition refusedPlanNodes : list text := [str "Custom Scan"; str "Foreign Scan"].

(** ** Functions *)

Record funcRef := mkRef { ref_schema : text; ref_name : text }.
#[export] Instance funcRef_eq_dec : EqDecision funcRef.
Proof. solve_decision. Defined.

Record catalogFunction := mkFunction { fn_schema : text; fn_name : text; fn_volatility : text; fn_extension : text; fn_visible : bool }.

Inductive hazard := UnknownExtension | ExtensionDenied | UserDefined | AssignsXid | UnknownVolatile.

Definition builtinVolatileAllowedName (name : text) : bool :=
  bool_decide (name ∈ builtinVolatileAllowed) || existsb (λ prefix, has_prefix prefix name) builtinVolatileAllowedPrefixes.

(** [functionHazard], with [None] for no reason. *)
Definition functionHazard (f : catalogFunction) : option hazard :=
  match f.(fn_extension) with
  | _ :: _ =>
      if negb (bool_decide (f.(fn_extension) ∈ sideEffectFreeExtensions)) then Some UnknownExtension
      else if bool_decide ((f.(fn_extension), f.(fn_name)) ∈ extensionFunctionsDenied) then Some ExtensionDenied
      else None
  | [] =>
      if negb (bool_decide (f.(fn_schema) = str "pg_catalog")) && negb (bool_decide (f.(fn_schema) = str "information_schema")) then Some UserDefined
      else if bool_decide (f.(fn_name) ∈ builtinDenied) then Some AssignsXid
      else if bool_decide (f.(fn_volatility) = str "v") && negb (builtinVolatileAllowedName f.(fn_name)) then Some UnknownVolatile
      else None
  end.

(** The functions a name may resolve to. *)
Definition matches (ref : funcRef) (f : catalogFunction) : bool :=
  bool_decide (f.(fn_name) = ref.(ref_name)) &&
  match ref.(ref_schema) with [] => f.(fn_visible) | s => bool_decide (f.(fn_schema) = s) end.

Inductive ref_hazard := HazardOf (f : catalogFunction) (h : hazard) | NotFound (ref : funcRef).

(** The loop of [refHazard]; [matched] says whether one was found before. *)
Fixpoint ref_hazard_loop (ref : funcRef) (functions : list catalogFunction) (strict matched : bool) : option ref_hazard :=
  match functions with
  | [] => if negb matched && strict then Some (NotFound ref) else None
  | f :: functions =>
      if matches ref f then
        match functionHazard f with Some h => Some (HazardOf f h) | None => ref_hazard_loop ref functions strict true end
      else ref_hazard_loop ref functions strict matched
  end.

Definition refHazard (ref : funcRef) (functions : list catalogFunction) (strict : bool) : option ref_hazard :=
  ref_hazard_loop ref functions strict false.

(** ** Bytes *)

Definition identStart (c : byte) : bool := bool_decide (c = "_"%byte) || is_lower c || is_upper c || (128 <=? Z_of_byte c).
Definition identByte (c : byte) : bool := identStart c || is_digit c || bool_decide (c = "$"%byte).
Definition isSpace (c : byte) : bool := bool_decide (c ∈ [x20; x09; x0a; x0d; x0c]).

(** The number of bytes at the head that satisfy [p]: the loops that move [j] forward. *)
Fixpoint count_while (p : byte → bool) (s : text) : nat :=
  match s with
  | c :: s => if p c then S (count_while p s) else 0
  | [] => 0
  end.

(** [strings.IndexByte] and [strings.Index]. *)
Fixpoint index_byte (c : byte) (s : text) : option nat :=
  match s with
  | [] => None
  | d :: s => if bool_decide (c = d) then Some 0%nat else S <$> index_byte c s
  end.

Fixpoint index_text (sub s : text) : option nat :=
  if has_prefix sub s then Some 0%nat
  else match s with [] => None | _ :: s => S <$> index_text sub s end.

(** ** What is not a call *)

(** [skipStringLiteral], from behind the opening quote. *)
Fixpoint skip_string (escaped : bool) (s : text) : nat :=
  match s with
  | [] => 0
  | c :: s =>
      if bool_decide (c = "\"%byte) then
        match s with
        | d :: s' => if escaped then 2 + skip_string escaped s' else 1 + skip_string escaped s
        | [] => 1
        end
      else if bool_decide (c = "'"%byte) then
        match s with
        | d :: s' => if bool_decide (d = "'"%byte) then 2 + skip_string escaped s' else 1
        | [] => 1
        end
      else 1 + skip_string escaped s
  end.

Definition skipStringLiteral (s : text) (escaped : bool) : nat := match s with [] => 0 | _ :: s => 1 + skip_string escaped s end.

Definition skipLineComment (s : text) : nat := match index_byte x0a s with Some n => S n | None => length s end.

(** The loop of [skipBlockComment]. *)
Fixpoint skip_block (depth : Z) (s : text) : nat :=
  match s with
  | a :: (b :: s') as tail =>
      if bool_decide (a = "/"%byte) && bool_decide (b = "*"%byte) then 2 + skip_block (depth + 1) s'
      else if bool_decide (a = "*"%byte) && bool_decide (b = "/"%byte) then
        if depth - 1 =? 0 then 2 else 2 + skip_block (depth - 1) s'
      else 1 + skip_block depth tail
  | _ => length s
  end.

Definition skipBlockComment (s : text) : nat := skip_block 0 s.

Definition skipDollar (s : text) : nat :=
  match s with
  | [] => 0
  | _ :: t =>
      if match t with c :: _ => is_digit c | [] => false end then 1 + count_while is_digit t
      else
        let k := count_while (λ c, negb (bool_decide (c = "$"%byte)) && identByte c) t in
        match drop k t with
        | c :: body =>
            if bool_decide (c = "$"%byte) then
              let tag := take (k + 2) s in
              match index_text tag body with
              | Some n => k + 2 + n + length tag
              | None => length s
              end
            else 1
        | [] => 1
        end
  end.

(** ** Names *)

Section scanner.
(** [strings.ToLower] of a text with a byte above 127. *)
Context (unicode_lower : text → text).

Local Notation ToLower := (ToLower unicode_lower).

(** The inside of a quoted identifier, from behind the opening quote. *)
Fixpoint quoted_part (s : text) : text * nat :=
  match s with
  | [] => ([], 0%nat)
  | c :: s =>
      if bool_decide (c = x22) then
        match s with
        | d :: s' => if bool_decide (d = x22) then let '(p, n) := quoted_part s' in (c :: p, (2 + n)%nat) else ([], 1%nat)
        | [] => ([], 1%nat)
        end
      else let '(p, n) := quoted_part s in (c :: p, S n)
  end.

(** [readNamePart]: the part, whether it is quoted, and the bytes read. *)
Definition readNamePart (s : text) (deparsed : bool) : option (text * bool * nat) :=
  match s with
  | [] => None
  | c :: t =>
      if bool_decide (c = x22) then let '(p, n) := quoted_part t in Some (p, true, S n)
      else if negb (identStart c) then None
      else
        let n := count_while identByte s in
        Some (if deparsed then take n s else ToLower (take n s), false, n)
  end.

(** The loop of [readQualifiedName]: the parts, whether the last is a keyword, the bytes
    read. The fuel is the number of bytes left. *)
Fixpoint read_parts (fuel : nat) (s : text) (deparsed : bool) : list text * bool * nat :=
  match fuel with
  | O => ([], true, 0%nat)
  | S fuel =>
      match readNamePart s deparsed with
      | None => ([], true, 0%nat)
      | Some (part, quoted, n) =>
          let keyword := deparsed && negb quoted && negb (bool_decide (part = ToLower part)) in
          match drop n s with
          | dot :: (c :: _) as after =>
              if bool_decide (dot = "."%byte) && (bool_decide (c = x22) || identStart c) then
                let '(parts, keyword', m) := read_parts fuel after deparsed in (part :: parts, keyword', (n + 1 + m)%nat)
              else ([part], keyword, n)
          | _ => ([part], keyword, n)
          end
      end
  end.

(** The last two parts. *)
Definition ref_of (parts : list text) : funcRef :=
  match rev parts with
  | [] => mkRef [] []
  | [name] => mkRef [] name
  | name :: schema :: _ => mkRef schema name
  end.

Definition readQualifiedName (s : text) (deparsed : bool) : funcRef * bool * nat :=
  let '(parts, keyword, n) := read_parts (length s) s deparsed in
  (ref_of parts, match parts with [] => true | _ => keyword end, n).

(** ** Type names *)

Definition typeNameWords : list text :=
  str <$> ["day"; "hour"; "minute"; "month"; "precision"; "second"; "time"; "to"; "varying"; "with"; "without"; "year"; "zone"]%string.

(** A bracketed text whose inside holds only bytes of [allowed]. *)
Definition skip_bracketed (open close : byte) (allowed : text) (s : text) : option nat :=
  match s with
  | c :: _ =>
      if bool_decide (c = open) then
        match index_byte close s with
        | Some n => if forallb (λ c, bool_decide (c ∈ allowed)) (take (n - 1) (drop 1 s)) then Some (S n) else None
        | None => None
        end
      else None
  | [] => None
  end.

Definition skipTypeModifier (s : text) : nat := default 0%nat (skip_bracketed "("%byte ")"%byte (str "0123456789, ") s).

(** The array bounds of a type; [false] when the type name ends at what looks like one. *)
Fixpoint skip_bounds (fuel : nat) (s : text) : nat * bool :=
  match fuel, s with
  | S fuel, c :: _ :: _ =>
      if bool_decide (c = "["%byte) then
        match skip_bracketed "["%byte "]"%byte (str "0123456789") s with
        | Some n => let '(m, go) := skip_bounds fuel (drop n s) in ((n + m)%nat, go)
        | None => (0%nat, false)
        end
      else (0%nat, true)
  | _, _ => (0%nat, true)
  end.

(** The loop of [skipTypeName]. *)
Fixpoint skip_type_words (fuel : nat) (s : text) : nat :=
  match fuel with
  | O => 0%nat
  | S fuel =>
      let n := skipTypeModifier s in
      let '(m, go) := skip_bounds (length s) (drop n s) in
      let rest := drop (n + m) s in
      match rest with
      | c :: t =>
          if go && bool_decide (c = " "%byte) then
            let k := count_while identByte t in
            if bool_decide (k = 0%nat) || negb (bool_decide (ToLower (take k t) ∈ typeNameWords)) then (n + m)%nat
            else (n + m + S k + skip_type_words fuel (drop k t))%nat
          else (n + m)%nat
      | [] => (n + m)%nat
      end
  end.

Definition skipTypeName (s : text) : nat :=
  let n := count_while isSpace s in
  let '(_, _, m) := readQualifiedName (drop n s) false in
  (n + m + skip_type_words (length s) (drop (n + m) s))%nat.

(** ** The scanner *)

(** A quote begins an escape string behind an E that does not end a longer word. *)
Definition escape_prefix (before : text) : bool :=
  match before with
  | p :: q => (bool_decide (p = "E"%byte) || bool_decide (p = "e"%byte)) && match q with c :: _ => negb (identByte c) | [] => true end
  | [] => false
  end.

(** One step of the loop of [scanCalls] at [s]; [before] is the text read, last byte
    first. The bytes read, and the call if there is one. *)
Definition scan_step (before s : text) (deparsed : bool) : nat * option funcRef :=
  match s with
  | [] => (0%nat, None)
  | c :: t =>
      let next d := match t with x :: _ => bool_decide (x = d) | [] => false end in
      if bool_decide (c = "'"%byte) then (skipStringLiteral s (escape_prefix before), None)
      else if bool_decide (c = "-"%byte) && next "-"%byte then (skipLineComment s, None)
      else if bool_decide (c = "/"%byte) && next "*"%byte then (skipBlockComment s, None)
      else if bool_decide (c = "$"%byte) then (skipDollar s, None)
      else if bool_decide (c = ":"%byte) && next ":"%byte then ((2 + skipTypeName (drop 2 s))%nat, None)
      else if is_digit c then (count_while (λ x, identByte x || bool_decide (x = "."%byte)) s, None)
      else if bool_decide (c = x22) || identStart c then
        let '(ref, keyword, n) := readQualifiedName s deparsed in
        let rest := drop n s in
        match drop (count_while isSpace rest) rest with
        | x :: _ => (n, if negb keyword && bool_decide (x = "("%byte) then Some ref else None)
        | [] => (n, None)
        end
      else (1%nat, None)
  end.

(** The loop; [None] when the fuel does not suffice. *)
Fixpoint scan_loop (fuel : nat) (before s : text) (deparsed : bool) : option (list funcRef) :=
  match s with
  | [] => Some []
  | _ =>
      match fuel with
      | O => None
      | S fuel =>
          let '(n, call) := scan_step before s deparsed in
          calls ← scan_loop fuel (rev_append (take n s) before) (drop n s) deparsed;
          Some (match call with Some ref => ref :: calls | None => calls end)
      end
  end.

(** Each name once, where it first appears. *)
Fixpoint first_of (seen : list funcRef) (refs : list funcRef) : list funcRef :=
  match refs with
  | [] => []
  | r :: refs => if bool_decide (r ∈ seen) then first_of seen refs else r :: first_of (r :: seen) refs
  end.

Definition scanCalls (s : text) (deparsed : bool) : list funcRef :=
  first_of [] (default [] (scan_loop (length s) [] s deparsed)).

(** ** Plans *)

Inductive plan_event := PlanNode (node : text) | PlanCall (ref : funcRef).

(** The walk of [inspectPlan]: the nodes and calls it adds, in order. *)
Fixpoint walk (v : json) : list plan_event :=
  match v with
  | JArray l => concat (List.map walk l)
  | JObject l =>
      match string_at (str "Node Type") l with Some node => [PlanNode node] | None => [] end
      ++ match string_at (str "Function Name") l, string_at (str "Schema") l with
         | Some name, Some schema => [PlanCall (mkRef schema name)]
         | _, _ => []
         end
      ++ concat (List.map snd (sort_slice (λ a b, text_lt a.1 b.1) (List.map (λ p, (p.1, walk p.2)) l)))
  | JString t => PlanCall <$> scanCalls t true
  | _ => []
  end.

Record planFacts := mkFacts { facts_nodes : list text; facts_calls : list funcRef }.

(** [inspectPlan] of a document that decodes. *)
Definition inspectPlan (plan : json) : planFacts :=
  let events := walk plan in
  mkFacts (omap (λ e, match e with PlanNode n => Some n | _ => None end) events)
          (first_of [] (omap (λ e, match e with PlanCall r => Some r | _ => None end) events)).

(** ** The checks *)

(** What the session answers; [None] is an error of the query or of its decoding. *)
Record session := mkSession {
  q_privileges : option (bool * bool * bool); (* superuser, signal, read_all_data *)
  q_set_role : bool; (* SET LOCAL ROLE succeeds *)
  q_plannable : option (list catalogFunction);
  q_remote : option (list text);
  q_functions : list text → option (list catalogFunction);
  q_hidden : option (list (text * catalogFunction));
  q_plan : text → option (option json); (* of a statement: planning error; a plan that does not decode; the plan *)
}.

Inductive verdict := Accepted | Rejected | QueryFailed.

(** [dropExplainPrivileges]; the second component says whether the role was dropped. *)
Definition dropExplainPrivileges (c : session) (analyze : bool) : verdict * bool :=
  match c.(q_privileges) with
  | None => (QueryFailed, false)
  | Some (superuser, signal, readAllData) =>
      if analyze && superuser then (Rejected, false)
      else if negb signal && negb superuser then (Accepted, false)
      else if negb readAllData then (Rejected, false)
      else if c.(q_set_role) then (Accepted, true) else (QueryFailed, false)
  end.

Definition guardPlanning (c : session) : verdict :=
  match c.(q_plannable) with
  | None => QueryFailed
  | Some functions =>
      if existsb (λ f, match functionHazard f with Some _ => true | None => false end) functions then Rejected
      else match c.(q_remote) with
           | None => QueryFailed
           | Some [] => Accepted
           | Some _ => Rejected
           end
  end.

(** Each name once, sorted. *)
Fixpoint first_names (seen : list text) (refs : list funcRef) : list text :=
  match refs with
  | [] => []
  | r :: refs => if bool_decide (r.(ref_name) ∈ seen) then first_names seen refs else r.(ref_name) :: first_names (r.(ref_name) :: seen) refs
  end.

Definition lookupFunctions (c : session) (refs : list funcRef) : option (list catalogFunction) :=
  c.(q_functions) (sort_slice text_lt (first_names [] refs)).

(** The loops over the calls of the statement and of the plan. *)
Definition check_refs (c : session) (refs : list funcRef) (strict : bool) : verdict :=
  match refs with
  | [] => Accepted
  | _ =>
      match lookupFunctions c refs with
      | None => QueryFailed
      | Some functions =>
          if existsb (λ r, match refHazard r functions strict with Some _ => true | None => false end) refs then Rejected else Accepted
      end
  end.

(** [guardAnalyze] up to the plan: the calls of the statement and the hidden ones. *)
Definition guard_calls (c : session) (statement : text) : verdict :=
  match check_refs c (scanCalls statement false) false with
  | Accepted =>
      match c.(q_hidden) with
      | None => QueryFailed
      | Some hidden => if existsb (λ p, match functionHazard p.2 with Some _ => true | None => false end) hidden then Rejected else Accepted
      end
  | v => v
  end.

(** [guardAnalyze] from the plan on: it has the statement planned and inspects the answer. *)
Definition guard_plan (c : session) (statement : text) : verdict :=
  match c.(q_plan) statement with
  | None => Rejected
  | Some None => QueryFailed
  | Some (Some plan) =>
      let facts := inspectPlan plan in
      if existsb (λ n, bool_decide (n ∈ refusedPlanNodes)) facts.(facts_nodes) then Rejected
      else check_refs c facts.(facts_calls) true
  end.

Definition guardAnalyze (c : session) (statement : text) : verdict :=
  match guard_calls c statement with Accepted => guard_plan c statement | v => v end.

(** ** The scanner ends *)

Lemma count_while_head p c s : p c = true → (1 ≤ count_while p (c :: s))%nat.
Proof. intros H. cbn. rewrite H. lia. Qed.

Lemma identStart_byte c : identStart c = true → identByte c = true.
Proof. unfold identByte. by intros ->. Qed.

Lemma readQualifiedName_advances c s deparsed : bool_decide (c = x22) || identStart c = true → (1 ≤ (readQualifiedName (c :: s) deparsed).2)%nat.
Proof.
  intros H. unfold readQualifiedName. cbn [length read_parts].
  assert (∃ part quoted n, readNamePart (c :: s) deparsed = Some (part, quoted, n) ∧ (1 ≤ n)%nat) as (part & quoted & n & -> & Hn).
  { unfold readNamePart. case_bool_decide as Hq; [destruct (quoted_part s) as [p n]; do 3 eexists; split; [done|lia]|].
    cbn in H. rewrite H. cbn [negb]. do 3 eexists. split; [done|]. by apply count_while_head, identStart_byte. }
  destruct (drop n (c :: s)) as [|dot [|c' after]]; [done..|].
  destruct (bool_decide (dot = _) && _); [|done]. destruct (read_parts _ _ _) as [[parts k] m]. cbn. lia.
Qed.

Lemma scan_step_advances before s deparsed : s ≠ [] → (1 ≤ (scan_step before s deparsed).1)%nat.
Proof.
  destruct s as [|c t]; [done|]. intros _. unfold scan_step.
  repeat match goal with |- context [if ?b then _ else _] => destruct b eqn:? end; cbn [fst].
  - cbn. lia.
  - unfold skipLineComment. destruct (index_byte _ _); cbn; lia.
  - unfold skipBlockComment. destruct t as [|d t]; [by rewrite andb_false_r in *|]. cbn [skip_block].
    apply andb_true_iff in Heqb1 as [-> ->]. cbn. lia.
  - unfold skipDollar. repeat case_match; cbn; lia.
  - lia.
  - apply count_while_head. unfold identByte. match goal with H : is_digit _ = true |- _ => rewrite H end. by rewrite orb_true_r.
  - pose proof (readQualifiedName_advances c t deparsed ltac:(done)) as Ha.
    destruct (readQualifiedName (c :: t) deparsed) as [[ref kw] n]. cbn in Ha. destruct (drop _ _); done.
  - lia.
Qed.

Lemma scan_loop_total fuel before s deparsed : (length s ≤ fuel)%nat → is_Some (scan_loop fuel before s deparsed).
Proof.
  revert before s. induction fuel as [|fuel IH]; intros before s Hlen; (destruct s as [|c t]; [by eexists|]); [cbn in Hlen; lia|].
  cbn [scan_loop]. pose proof (scan_step_advances before (c :: t) deparsed ltac:(done)) as Ha.
  destruct (scan_step before (c :: t) deparsed) as [n call]. cbn [fst] in Ha.
  destruct (IH (rev_append (take n (c :: t)) before) (drop n (c :: t))) as [calls ->]; [rewrite length_drop; cbn in *; lia|]. by eexists.
Qed.

(** With more fuel the answer is the same. *)
Lemma scan_loop_mono fuel fuel' before s deparsed calls : scan_loop fuel before s deparsed = Some calls → (fuel ≤ fuel')%nat →
  scan_loop fuel' before s deparsed = Some calls.
Proof.
  revert fuel' before s calls. induction fuel as [|fuel IH]; intros fuel' before [|c t] calls H Hle; [by destruct fuel'|done|by destruct fuel'|].
  destruct fuel' as [|fuel']; [lia|]. cbn [scan_loop] in *. destruct (scan_step _ _ _) as [n call].
  destruct (scan_loop fuel _ _ _) as [calls'|] eqn:E; [|done]. rewrite (IH fuel' _ _ _ E) by lia. done.
Qed.

Lemma elem_of_first_of r seen refs : r ∈ first_of seen refs ↔ r ∈ refs ∧ r ∉ seen.
Proof.
  revert seen. induction refs as [|x refs IH]; intros seen; cbn; [set_solver|]. case_bool_decide as Hx.
  - rewrite IH. set_solver.
  - rewrite elem_of_cons, IH. destruct (decide (r = x)) as [->|]; set_solver.
Qed.

Lemma first_of_NoDup seen refs : NoDup (first_of seen refs).
Proof.
  revert seen. induction refs as [|x refs IH]; intros seen; cbn; [constructor|]. case_bool_decide as Hx; [done|].
  constructor; [|done]. rewrite elem_of_first_of. set_solver.
Qed.

(** ** Hazards *)

Lemma ref_hazard_loop_none ref fs strict matched : ref_hazard_loop ref fs strict matched = None ↔
  (∀ f, f ∈ fs → matches ref f = true → functionHazard f = None) ∧ (strict = true → matched = true ∨ ∃ f, f ∈ fs ∧ matches ref f = true).
Proof.
  revert matched. induction fs as [|f fs IH]; intros matched; cbn.
  - split.
    + intros E. split; [set_solver|]. intros ->. destruct matched; [by left|done].
    + intros [_ H]. destruct matched; [done|]. destruct strict; [|done]. destruct (H eq_refl) as [?|(f & Hf & _)]; [done|by apply elem_of_nil in Hf].
  - destruct (matches ref f) eqn:Em; [destruct (functionHazard f) as [h|] eqn:Eh|]; [|rewrite IH..].
    + split; [done|]. intros [H _]. rewrite (H f) in Eh; [done|left|done].
    + split; intros [H1 H2]; split; [intros g [-> |Hg]%elem_of_cons; auto|intros Hs; right; exists f; by split; [left|]|intros g Hg; apply H1; by right|by left].
    + split; intros [H1 H2]; split.
      * intros g [-> |Hg]%elem_of_cons; [congruence|auto].
      * intros Hs. destruct (H2 Hs) as [?|(g & Hg & ?)]; [by left|right; exists g; by split; [right|]].
      * intros g Hg. apply H1. by right.
      * intros Hs. destruct (H2 Hs) as [?|(g & [-> |Hg]%elem_of_cons & ?)]; [by left|congruence|right; by exists g].
Qed.

Lemma refHazard_none ref fs strict : refHazard ref fs strict = None ↔
  (∀ f, f ∈ fs → matches ref f = true → functionHazard f = None) ∧ (strict = true → ∃ f, f ∈ fs ∧ matches ref f = true).
Proof. unfold refHazard. rewrite ref_hazard_loop_none. naive_solver. Qed.

Lemma existsb_is_none {A B} (f : A → option B) (l : list A) :
  existsb (λ x, match f x with Some _ => true | None => false end) l = false ↔ ∀ x, x ∈ l → f x = None.
Proof.
  induction l as [|x l IH]; cbn; [set_solver|]. rewrite orb_false_iff, IH. destruct (f x) eqn:E; split.
  - by intros [].
  - intros H. rewrite H in E; [done|left].
  - intros [_ H] y [-> |Hy]%elem_of_cons; auto.
  - intros H. split; [done|]. intros y Hy. apply H. by right.
Qed.

Lemma elem_of_first_names n seen refs : n ∈ first_names seen refs ↔ n ∉ seen ∧ ∃ r, r ∈ refs ∧ r.(ref_name) = n.
Proof.
  revert seen. induction refs as [|x refs IH]; intros seen; cbn; [set_solver|]. case_bool_decide as Hx.
  - rewrite IH. set_solver.
  - rewrite elem_of_cons, IH. destruct (decide (n = ref_name x)) as [->|]; set_solver.
Qed.

Lemma matches_name ref f : matches ref f = true → f.(fn_name) = ref.(ref_name).
Proof. unfold matches. intros [H%bool_decide_eq_true _]%andb_true_iff. done. Qed.

(** ** What the walk sees *)

(** [w] is [v] or a value anywhere inside it. *)
Inductive inside (w : json) : json → Prop :=
  | inside_self : inside w w
  | inside_array l v : v ∈ l → inside w v → inside w (JArray l)
  | inside_object l k v : (k, v) ∈ l → inside w v → inside w (JObject l).

Lemma walk_inside w v e : inside w v → e ∈ walk w → e ∈ walk v.
Proof.
  intros H. induction H as [|l v Hv _ IH|l k v Hv _ IH]; intros He; [done| |]; specialize (IH He); cbn [walk].
  - apply list_elem_of_concat. exists (walk v). split; [done|]. rewrite list_elem_of_In, in_map_iff. exists v. by rewrite <- list_elem_of_In.
  - apply elem_of_app. right. apply elem_of_app. right. apply list_elem_of_concat. exists (walk v). split; [done|].
    rewrite list_elem_of_In, in_map_iff. exists (k, walk v). split; [done|]. rewrite <- list_elem_of_In, elem_of_sort_slice, list_elem_of_In, in_map_iff.
    exists (k, v). by rewrite <- list_elem_of_In.
Qed.

(** The calls a plan shows: those in any of its texts, and the function of a scan. *)
Inductive plan_calls (plan : json) : funcRef → Prop :=
  | calls_text t ref : inside (JString t) plan → ref ∈ scanCalls t true → plan_calls plan ref
  | calls_scan l name schema : inside (JObject l) plan → string_at (str "Function Name") l = Some name → string_at (str "Schema") l = Some schema →
      plan_calls plan (mkRef schema name).

Lemma inspectPlan_calls plan ref : plan_calls plan ref → ref ∈ (inspectPlan plan).(facts_calls).
Proof.
  intros H. unfold inspectPlan. cbn. apply elem_of_first_of. split; [|set_solver]. apply list_elem_of_omap. exists (PlanCall ref). split; [|done].
  destruct H as [t ref Hin Hr|l name schema Hin Hn Hs]; eapply walk_inside; [done| |done|].
  - cbn [walk]. by apply list_elem_of_fmap_2.
  - cbn [walk]. apply elem_of_app. right. apply elem_of_app. left. rewrite Hn, Hs. left.
Qed.

Lemma inspectPlan_nodes plan l node : inside (JObject l) plan → string_at (str "Node Type") l = Some node → node ∈ (inspectPlan plan).(facts_nodes).
Proof.
  intros Hin Hn. cbn. apply list_elem_of_omap. exists (PlanNode node). split; [|done]. eapply walk_inside; [done|]. cbn [walk].
  apply elem_of_app. left. rewrite Hn. left.
Qed.

(** ** The checks are sound *)

Section soundness.
Context (c : session) (catalog : list catalogFunction).

(** What the lookup of [functionLookup] promises: all functions of the names asked for,
    in any schema, and nothing that is not in the catalog. *)
Definition lookup_complete : Prop := ∀ names fs, c.(q_functions) names = Some fs →
  ∀ f, (f ∈ fs → f ∈ catalog) ∧ (f ∈ catalog → f.(fn_name) ∈ names → f ∈ fs).

(** No function the name may resolve to has a hazard. *)
Definition safe_ref (ref : funcRef) : Prop := ∀ f, f ∈ catalog → matches ref f = true → functionHazard f = None.

Lemma check_refs_accepted refs strict : lookup_complete → check_refs c refs strict = Accepted →
  ∀ ref, ref ∈ refs → safe_ref ref ∧ (strict = true → ∃ f, f ∈ catalog ∧ matches ref f = true).
Proof.
  intros Hl H ref Href. unfold check_refs in H. destruct refs as [|r refs']; [by apply elem_of_nil in Href|]. remember (r :: refs') as refs eqn:E. clear E.
  unfold lookupFunctions in H. destruct (q_functions c _) as [fs|] eqn:Ef; [|done].
  destruct (existsb _ refs) eqn:Ex; [done|]. rewrite (existsb_is_none (λ r, refHazard r fs strict)) in Ex.
  specialize (Ex ref Href). apply refHazard_none in Ex as [H1 H2]. split.
  - intros f Hf Hm. apply H1; [|done]. apply (Hl _ _ Ef); [done|]. apply elem_of_sort_slice, elem_of_first_names.
    split; [set_solver|]. exists ref. split; [done|]. symmetry. by apply matches_name.
  - intros Hs. destruct (H2 Hs) as (f & Hf & Hm). exists f. split; [|done]. by apply (Hl _ _ Ef).
Qed.

(** C4: What EXPLAIN ANALYZE has been shown when the guard accepts a statement, given that
    the catalog lookup returns all functions of the names it is asked for. By the guard's
    lists of hazards: no function that a call found by the scan of the statement may
    resolve to has one; no operator, cast, domain or aggregate that the lookup of hidden
    calls returned calls one; the plan PostgreSQL returned for the statement holds no node
    of a refused type, at any depth; and every call the scan finds in any text of that plan,
    and every function a node of it scans, resolves to some function and only to functions
    without a hazard. The scan of the statement misses a call with a comment before its
    parenthesis; such a call is left to the check of the plan. *)
Theorem analyze_guard_sound statement : lookup_complete → guardAnalyze c statement = Accepted →
  (∀ ref, ref ∈ scanCalls statement false → safe_ref ref) ∧
  (∃ hidden, c.(q_hidden) = Some hidden ∧ ∀ o f, (o, f) ∈ hidden → functionHazard f = None) ∧
  ∃ plan, c.(q_plan) statement = Some (Some plan) ∧
    (∀ l node, inside (JObject l) plan → string_at (str "Node Type") l = Some node → node ∉ refusedPlanNodes) ∧
    (∀ ref, plan_calls plan ref → safe_ref ref ∧ ∃ f, f ∈ catalog ∧ matches ref f = true).
Proof.
  intros Hl H. unfold guardAnalyze, guard_calls in H. destruct (check_refs c (scanCalls statement false) false) eqn:E1; [|done..].
  destruct (q_hidden c) as [hidden|] eqn:Eh; [|done]. destruct (existsb _ hidden) eqn:Ex; [done|]. unfold guard_plan in H.
  destruct (q_plan c statement) as [[plan|]|] eqn:Ep; [|done..]. destruct (existsb _ (facts_nodes _)) eqn:En; [done|].
  split_and!.
  - intros ref Hr. by eapply check_refs_accepted in E1 as [? _].
  - exists hidden. split; [done|]. intros o f Hf. rewrite (existsb_is_none (λ p, functionHazard p.2)) in Ex. exact (Ex _ Hf).
  - exists plan. split; [done|]. split.
    + intros l node Hin Hn Hbad. apply not_true_iff_false in En. apply En, existsb_exists. exists node.
      split; [by apply list_elem_of_In, (inspectPlan_nodes plan l)|by apply bool_decide_eq_true].
    + intros ref Hr%inspectPlan_calls. destruct (check_refs_accepted _ _ Hl H ref Hr) as [H1 H2]. auto.
Qed.

(** EXPLAIN is planned exactly when the database defines no function the planner may
    run and no foreign table that estimates remotely: given that the catalog lists only
    functions outside the system schemas that no extension owns, any listed function
    refuses it, and so does any failing lookup. *)
Theorem planning_guard_exact : (∀ fs f, c.(q_plannable) = Some fs → f ∈ fs →
    f.(fn_extension) = [] ∧ f.(fn_schema) ≠ str "pg_catalog" ∧ f.(fn_schema) ≠ str "information_schema") →
  guardPlanning c = Accepted ↔ c.(q_plannable) = Some [] ∧ c.(q_remote) = Some [].
Proof using Type.
  intros Hl. unfold guardPlanning. destruct (q_plannable c) as [[|f fs]|] eqn:E; cbn.
  - destruct (q_remote c) as [[|? ?]|]; split; try done; by intros [_ [=]].
  - destruct (Hl _ f eq_refl) as (He & H1 & H2); [left|]. assert (functionHazard f = Some UserDefined) as ->.
    { unfold functionHazard. rewrite He. by rewrite (bool_decide_eq_false_2 _ H1), (bool_decide_eq_false_2 _ H2). }
    split; [done|]. by intros [[=] _].
  - split; [done|]. by intros [[=] _].
Qed.

(** The session that plans cannot signal other backends, and the one that executes is
    never a superuser's. *)
Lemma privileges_dropped analyze dropped : dropExplainPrivileges c analyze = (Accepted, dropped) →
  ∃ superuser signal readAll, c.(q_privileges) = Some (superuser, signal, readAll) ∧
    (analyze = true → superuser = false) ∧ (dropped = false → superuser = false ∧ signal = false) ∧ (dropped = true → readAll = true).
Proof.
  unfold dropExplainPrivileges. destruct (q_privileges c) as [[[su si] ra]|]; [|done].
  intros H. exists su, si, ra. destruct analyze, su, si, ra, (q_set_role c), dropped; cbn in H; by split_and!.
Qed.
End soundness.

(** ** The scanner reads what was written

    A text is written from items, each followed by a blank: calls, other names, literals,
    comments, parameters, numbers, casts and symbols. The scanner finds the calls, in
    order, and nothing else. *)

Inductive name := Plain (t : text) | Quoted (t : text).

Inductive item :=
  | Call (parts : list name) (gap : text)   (* a name and an opening parenthesis *)
  | Word (parts : list name)                (* a name that is not called *)
  | Keyword (t gap : text)                  (* an upper-case word of a plan and a parenthesis *)
  | Literal (t : text)                      (* '...' *)
  | ELiteral (l : list (bool * byte))       (* E'...', with escaped bytes marked *)
  | Line (t : text)                         (* --... *)
  | Block (l : list (bool + byte))          (* a comment: opened, closed, other bytes *)
  | Dollar (tag t : text)                   (* $tag$...$tag$ *)
  | Param (digits : text)               (* $n *)
  | Number (t : text)
  | Cast (parts : list name)                (* ::type *)
  | Symbol (c : byte).

(** A byte doubled wherever it occurs. *)
Definition doubled (q : byte) (t : text) : text := t ≫= λ c, if bool_decide (c = q) then [c; c] else [c].

Definition write_name (n : name) : text := match n with Plain t => t | Quoted t => x22 :: doubled x22 t ++ [x22] end.

Fixpoint write_parts (l : list name) : text :=
  match l with
  | [] => []
  | [n] => write_name n
  | n :: l => write_name n ++ "."%byte :: write_parts l
  end.

Definition write_escaped (l : list (bool * byte)) : text :=
  l ≫= λ '(esc, c), if (esc : bool) then ["\"%byte; c] else if bool_decide (c = "'"%byte) then [c; c] else [c].

Definition write_block (l : list (bool + byte)) : text :=
  l ≫= λ x, match x with inl true => ["/"%byte; "*"%byte] | inl false => ["*"%byte; "/"%byte] | inr c => [c] end.

Definition write_item (i : item) : text :=
  match i with
  | Call parts gap => write_parts parts ++ gap ++ ["("%byte]
  | Word parts => write_parts parts
  | Keyword t gap => t ++ gap ++ ["("%byte]
  | Literal t => "'"%byte :: doubled "'"%byte t ++ ["'"%byte]
  | ELiteral l => ["E"%byte; "'"%byte] ++ write_escaped l ++ ["'"%byte]
  | Line t => ["-"%byte; "-"%byte] ++ t ++ [x0a]
  | Block l => write_block (inl true :: l ++ [inl false])
  | Dollar tag t => ("$"%byte :: tag ++ ["$"%byte]) ++ t ++ ("$"%byte :: tag ++ ["$"%byte])
  | Param digits => "$"%byte :: digits
  | Number t => t
  | Cast parts => [":"%byte; ":"%byte] ++ write_parts parts
  | Symbol c => [c]
  end.

Fixpoint write (l : list item) : text := match l with [] => [] | i :: l => write_item i ++ " "%byte :: write l end.

Definition name_ok (deparsed : bool) (n : name) : Prop :=
  match n with
  | Plain t => (∃ c s, t = c :: s ∧ identStart c = true ∧ forallb identByte s = true) ∧ (deparsed = true → ToLower t = t)
  | Quoted _ => True
  end.

(** The name looked up: as it is when it is quoted or comes from a plan, in lower case
    otherwise. *)
Definition name_value (deparsed : bool) (n : name) : text :=
  match n with Plain t => if deparsed then t else ToLower t | Quoted t => t end.

(** Two bytes that neither open nor close a comment. *)
Definition pair_free (a b : byte) : Prop := ¬ (a = "/"%byte ∧ b = "*"%byte) ∧ ¬ (a = "*"%byte ∧ b = "/"%byte).

(** A block comment whose nesting closes only at its end, cut into the openings, the
    closings and the bytes between them. *)
Fixpoint block_ok (depth : nat) (l : list (bool + byte)) : Prop :=
  match l with
  | [] => depth = 0%nat
  | inl true :: l => block_ok (S depth) l
  | inl false :: l => match depth with O => False | S d => block_ok d l end
  | inr c :: l => pair_free c (hd "*"%byte (write_block l)) ∧ block_ok depth l
  end.

(** What follows a name that is not called, and a type name. *)
Definition not_called (l : list item) : Prop :=
  match l with Symbol c :: _ => c ≠ "("%byte | _ => True end.

Definition ends_type (l : list item) : Prop :=
  let k := count_while identByte (write l) in k = 0%nat ∨ ToLower (take k (write l)) ∉ typeNameWords.

(** A byte that is no part of a name, a literal or a comment. *)
Definition inert (c : byte) : bool := negb (identByte c) && negb (bool_decide (c ∈ ["'"%byte; x22; "$"%byte])).

Definition item_ok (deparsed : bool) (i : item) (after : list item) : Prop :=
  match i with
  | Call parts gap => parts ≠ [] ∧ Forall (name_ok deparsed) parts ∧ forallb isSpace gap = true
  | Word parts => parts ≠ [] ∧ Forall (name_ok deparsed) parts ∧ not_called after
  | Keyword t gap => deparsed = true ∧ (∃ c s, t = c :: s ∧ identStart c = true ∧ forallb identByte s = true) ∧ ToLower t ≠ t ∧ forallb isSpace gap = true
  | ELiteral l => Forall (λ p, p.1 = false → p.2 ≠ x5c) l
  | Line t => x0a ∉ t
  | Block l => block_ok 0 l
  | Dollar tag t =>
      match tag with c :: _ => is_digit c = false | [] => True end ∧ forallb (λ c, negb (bool_decide (c = "$"%byte)) && identByte c) tag = true ∧
      index_text ("$"%byte :: tag ++ ["$"%byte]) (t ++ "$"%byte :: tag ++ ["$"%byte]) = Some (length t)
  | Param digits => digits ≠ [] ∧ forallb is_digit digits = true
  | Number t => ∃ c s, t = c :: s ∧ is_digit c = true ∧ forallb (λ x, identByte x || bool_decide (x = "."%byte)) s = true
  | Cast parts => parts ≠ [] ∧ Forall (name_ok false) parts ∧ ends_type after
  | Symbol c => inert c && negb (isSpace c) = true
  | _ => True
  end.

Fixpoint items_ok (deparsed : bool) (l : list item) : Prop :=
  match l with [] => True | i :: l => item_ok deparsed i l ∧ items_ok deparsed l end.

(** The calls written. *)
Definition item_calls (deparsed : bool) (i : item) : list funcRef :=
  match i with Call parts _ => [ref_of (name_value deparsed <$> parts)] | _ => [] end.

(** *** Reading with enough fuel *)

Definition scans (deparsed : bool) (before s : text) (calls : list funcRef) : Prop := ∃ fuel, scan_loop fuel before s deparsed = Some calls.

Lemma scans_scanCalls deparsed s calls : scans deparsed [] s calls → scanCalls s deparsed = first_of [] calls.
Proof.
  intros [fuel H]. unfold scanCalls. destruct (scan_loop_total (length s) [] s deparsed) as [calls' E]; [done|].
  rewrite E. cbn. apply (scan_loop_mono _ (fuel `max` length s)) in H; [|lia]. apply (scan_loop_mono _ (fuel `max` length s)) in E; [|lia]. congruence.
Qed.

Lemma scans_nil deparsed before : scans deparsed before [] [].
Proof. by exists 0%nat. Qed.

Lemma scans_app deparsed before a b call calls : a ≠ [] → scan_step before (a ++ b) deparsed = (length a, call) →
  scans deparsed (rev_append a before) b calls → scans deparsed before (a ++ b) (option_list call ++ calls).
Proof.
  intros Ha Hs [fuel H]. exists (S fuel). destruct a as [|c a]; [done|]. cbn [app scan_loop]. change (c :: a ++ b) with ((c :: a) ++ b).
  rewrite Hs, take_app_length, drop_app_length, H. cbn. by destruct call.
Qed.

(** An item starts behind a blank or at the start. *)
Definition fresh (before : text) : Prop := match before with [] => True | c :: _ => c = " "%byte end.

Lemma fresh_no_escape before : fresh before → escape_prefix before = false.
Proof. destruct before as [|c q]; [done|]. cbn. by intros ->. Qed.

Lemma scans_blank deparsed before s calls : (∀ before', fresh before' → scans deparsed before' s calls) → scans deparsed before (" "%byte :: s) calls.
Proof.
  intros H. change (" "%byte :: s) with ([" "%byte] ++ s). change calls with (option_list (@None funcRef) ++ calls). apply scans_app; [done|done|]. by apply H.
Qed.

Lemma count_while_app p a b : forallb p a = true → match b with c :: _ => p c = false | [] => True end → count_while p (a ++ b) = length a.
Proof.
  intros Ha Hb. induction a as [|c a IH]; cbn in *; [destruct b as [|d b]; cbn; [done|by rewrite Hb]|].
  apply andb_true_iff in Ha as [-> Ha]. by rewrite IH.
Qed.

(** *** Names *)

Lemma quoted_part_spec t r : match r with c :: _ => c ≠ x22 | [] => True end →
  quoted_part (doubled x22 t ++ x22 :: r) = (t, S (length (doubled x22 t))).
Proof.
  intros Hr. induction t as [|c t IH]; cbn.
  - rewrite bool_decide_refl. destruct r as [|d r]; [done|]. by rewrite bool_decide_eq_false_2.
  - case_bool_decide as Hc; cbn.
    + subst c. rewrite bool_decide_refl. unfold doubled in IH. by rewrite IH.
    + rewrite bool_decide_eq_false_2 by done. unfold doubled in IH. by rewrite IH.
Qed.

(** What may follow a name. *)
Definition name_ends (r : text) : Prop := match r with c :: _ => identByte c = false ∧ c ≠ x22 | [] => True end.

Lemma readNamePart_spec deparsed n r : name_ok deparsed n → name_ends r →
  ∃ quoted, readNamePart (write_name n ++ r) deparsed = Some (name_value deparsed n, quoted, length (write_name n)) ∧
    deparsed && negb quoted && negb (bool_decide (name_value deparsed n = ToLower (name_value deparsed n))) = false.
Proof.
  intros Hn Hr. destruct n as [t|t]; cbn [write_name].
  - destruct Hn as [(c & s & -> & Hc & Hs) Hlow]. exists false. unfold readNamePart. cbn [app].
    assert (c ≠ x22) as Hq by (intros ->; done). rewrite bool_decide_eq_false_2 by done. rewrite Hc. cbn [negb].
    change (c :: s ++ r) with ((c :: s) ++ r). rewrite count_while_app.
    + rewrite take_app_length. split; [done|]. destruct deparsed; [|done]. cbn [name_value andb negb].
      rewrite bool_decide_eq_true_2; [done|]. symmetry. by apply Hlow.
    + cbn. by rewrite (identStart_byte _ Hc).
    + destruct r as [|d r]; [done|]. apply Hr.
  - exists true. split; [|by rewrite andb_false_r]. unfold readNamePart. cbn [app]. rewrite bool_decide_eq_true_2 by done.
    rewrite <- (assoc_L (++)). cbn [app]. rewrite quoted_part_spec; [cbn; rewrite length_app; cbn; do 3 f_equal; lia|].
    destruct r as [|d r]; [done|]. apply Hr.
Qed.

Lemma write_name_head deparsed n : name_ok deparsed n → ∃ c s, write_name n = c :: s ∧ bool_decide (c = x22) || identStart c = true.
Proof.
  destruct n as [t|t]; cbn; [|by eexists _, _]. intros [(c & s & -> & Hc & _) _]. exists c, s. split; [done|]. rewrite Hc. by rewrite orb_true_r.
Qed.

Lemma write_parts_head deparsed n l : name_ok deparsed n → ∃ c s, write_parts (n :: l) = c :: s ∧ bool_decide (c = x22) || identStart c = true.
Proof.
  intros Hn. destruct (write_name_head deparsed n Hn) as (c & s & E & Hc). destruct l as [|m l]; cbn [write_parts]; rewrite E; eauto.
Qed.

Lemma read_parts_spec deparsed l r fuel : l ≠ [] → Forall (name_ok deparsed) l → name_ends r →
  match r with d :: c :: _ => bool_decide (d = "."%byte) && (bool_decide (c = x22) || identStart c) = false | _ => True end →
  (length (write_parts l ++ r) ≤ fuel)%nat →
  read_parts fuel (write_parts l ++ r) deparsed = (name_value deparsed <$> l, false, length (write_parts l)).
Proof.
  intros Hl Hok Hr Hdot. revert l fuel Hl Hok. induction l as [|n l IH]; intros fuel Hl Hok Hf; [done|].
  apply Forall_cons in Hok as [Hn Hok]. destruct (write_parts_head deparsed n l Hn) as (c0 & s0 & E0 & _).
  destruct fuel as [|fuel]; [rewrite E0 in Hf; cbn in Hf; lia|]. clear c0 s0 E0. cbn [read_parts]. destruct l as [|m l].
  - cbn [write_parts]. destruct (readNamePart_spec deparsed n r Hn Hr) as (quoted & -> & ->). rewrite drop_app_length. cbn [fmap list_fmap].
    destruct r as [|d [|c r]]; [done..|]. by rewrite Hdot.
  - change (write_parts (n :: m :: l)) with (write_name n ++ "."%byte :: write_parts (m :: l)) in *.
    rewrite <- (assoc_L (++)) in Hf |- *. cbn [app] in *.
    destruct (readNamePart_spec deparsed n ("."%byte :: write_parts (m :: l) ++ r) Hn ltac:(by split)) as (quoted & -> & ->).
    rewrite drop_app_length. apply Forall_cons in Hok as Hm. destruct Hm as [Hm _].
    destruct (write_parts_head deparsed m l Hm) as (c & s & Es & Hc). rewrite Es. cbn [app]. rewrite Hc. cbn [andb bool_decide decide].
    change (c :: s ++ r) with ((c :: s) ++ r). rewrite <- Es. rewrite IH; [|done|done|rewrite !length_app in Hf |- *; cbn [length] in Hf; rewrite ?length_app in Hf; lia].
    cbn [fmap list_fmap]. rewrite length_app. cbn [length]. apply (f_equal2 pair); [done|lia].
Qed.

Definition no_dot (r : text) : Prop :=
  match r with d :: c :: _ => bool_decide (d = "."%byte) && (bool_decide (c = x22) || identStart c) = false | _ => True end.

Lemma readQualifiedName_spec deparsed l r : l ≠ [] → Forall (name_ok deparsed) l → name_ends r → no_dot r →
  readQualifiedName (write_parts l ++ r) deparsed = (ref_of (name_value deparsed <$> l), false, length (write_parts l)).
Proof.
  intros Hl Hok Hr Hd. unfold readQualifiedName. rewrite read_parts_spec by done. by destruct l.
Qed.

(** A plain word, whatever its case. *)
Lemma readQualifiedName_word deparsed c s r : identStart c = true → forallb identByte s = true → name_ends r → no_dot r →
  readQualifiedName ((c :: s) ++ r) deparsed =
    (mkRef [] (if deparsed then c :: s else ToLower (c :: s)),
     deparsed && negb (bool_decide ((if deparsed then c :: s else ToLower (c :: s)) = ToLower (if deparsed then c :: s else ToLower (c :: s)))), length (c :: s)).
Proof.
  intros Hc Hs Hr Hd. unfold readQualifiedName. cbn [length app read_parts].
  assert (readNamePart (c :: s ++ r) deparsed = Some (if deparsed then c :: s else ToLower (c :: s), false, length (c :: s))) as ->.
  { unfold readNamePart. rewrite bool_decide_eq_false_2 by (by intros ->). rewrite Hc. cbn [negb]. change (c :: s ++ r) with ((c :: s) ++ r).
    rewrite count_while_app; [by rewrite take_app_length|cbn; by rewrite (identStart_byte _ Hc)|]. destruct r as [|d r]; [done|]. apply Hr. }
  change (c :: s ++ r) with ((c :: s) ++ r). rewrite drop_app_length, andb_true_r.
  destruct r as [|d [|c' r]]; cbn; try done. cbn in Hd. by rewrite Hd.
Qed.

(** *** Steps *)

Lemma name_start_step before c s deparsed : bool_decide (c = x22) || identStart c = true →
  scan_step before (c :: s) deparsed =
    let '(ref, keyword, n) := readQualifiedName (c :: s) deparsed in
    let rest := drop n (c :: s) in
    match drop (count_while isSpace rest) rest with
    | x :: _ => (n, if negb keyword && bool_decide (x = "("%byte) then Some ref else None)
    | [] => (n, None)
    end.
Proof.
  intros H. unfold scan_step. rewrite H.
  assert (c ≠ "'"%byte ∧ c ≠ "-"%byte ∧ c ≠ "/"%byte ∧ c ≠ "$"%byte ∧ c ≠ ":"%byte ∧ is_digit c = false) as (H1 & H2 & H3 & H4 & H5 & H6).
  { revert H. destruct c; vm_compute; intros [=]; done. }
  by rewrite !(bool_decide_eq_false_2 (c = _)), H6 by done.
Qed.

Lemma inert_step before c s deparsed : inert c = true →
  match s with d :: _ => c = d → c ≠ "-"%byte ∧ c ≠ ":"%byte | [] => True end → match s with d :: _ => c = "/"%byte → d ≠ "*"%byte | [] => True end →
  scan_step before (c :: s) deparsed = (1%nat, None).
Proof.
  intros Hi H1 H2. unfold inert in Hi. apply andb_true_iff in Hi as [Hid%negb_true_iff Hin%negb_true_iff%bool_decide_eq_false].
  unfold identByte in Hid. apply orb_false_iff in Hid as [[Hst Hdig]%orb_false_iff _].
  unfold scan_step. rewrite Hst, Hdig. rewrite (bool_decide_eq_false_2 (c = "'"%byte)) by set_solver.
  rewrite (bool_decide_eq_false_2 (c = "$"%byte)) by set_solver. rewrite (bool_decide_eq_false_2 (c = x22)) by set_solver.
  destruct s as [|d s]; [by rewrite !andb_false_r|].
  assert (∀ x : byte, x = "-"%byte ∨ x = ":"%byte → bool_decide (c = x) && bool_decide (d = x) = false) as Hd.
  { intros x Hx. case_bool_decide as E1; [|done]. case_bool_decide as E2; [|done]. subst. destruct (H1 eq_refl). by destruct Hx. }
  rewrite !Hd by auto. case_bool_decide as E1; [|done]. rewrite bool_decide_eq_false_2; [done|by apply H2].
Qed.

Lemma scans_inert deparsed before c d s calls : inert c = true → (c = d → c ≠ "-"%byte ∧ c ≠ ":"%byte) → (c = "/"%byte → d ≠ "*"%byte) →
  scans deparsed (c :: before) (d :: s) calls → scans deparsed before (c :: d :: s) calls.
Proof.
  intros Hi H1 H2 H. change (c :: d :: s) with ([c] ++ d :: s). change calls with (option_list (@None funcRef) ++ calls).
  apply scans_app; [done| |done]. by apply inert_step.
Qed.

Lemma space_facts c : isSpace c = true → inert c = true ∧ identByte c = false ∧ c ≠ x22 ∧ c ≠ "."%byte ∧ c ≠ "-"%byte ∧ c ≠ ":"%byte ∧ c ≠ "/"%byte.
Proof. destruct c; vm_compute; intros [=]; done. Qed.

Lemma scans_gap deparsed before gap d s calls : forallb isSpace gap = true →
  (∀ before', scans deparsed before' (d :: s) calls) → scans deparsed before (gap ++ d :: s) calls.
Proof.
  intros Hg H. revert before. induction gap as [|c gap IH]; intros before; [apply H|]. cbn in Hg. apply andb_true_iff in Hg as [Hc Hg].
  destruct (space_facts c Hc) as (Hi & _ & _ & _ & H1 & H2 & H3). specialize (IH Hg).
  destruct gap as [|e gap]; cbn [app] in *; by apply scans_inert.
Qed.

(** A name and what follows it, before a parenthesis or not. *)
Lemma scans_name deparsed before t r call calls : (∃ c s, t = c :: s ∧ bool_decide (c = x22) || identStart c = true) →
  (∃ ref kw, readQualifiedName (t ++ r) deparsed = (ref, kw, length t) ∧
    call = match drop (count_while isSpace r) r with x :: _ => if negb kw && bool_decide (x = "("%byte) then Some ref else None | [] => None end) →
  scans deparsed (rev_append t before) r calls → scans deparsed before (t ++ r) (option_list call ++ calls).
Proof.
  intros (c & s & -> & Hc) (ref & kw & E & ->) H. apply scans_app; [done| |done]. cbn [app]. rewrite name_start_step by done.
  change (c :: s ++ r) with ((c :: s) ++ r). rewrite E. cbn zeta. rewrite drop_app_length. by destruct (drop (count_while isSpace r) r).
Qed.

Lemma gap_paren gap s : forallb isSpace gap = true → count_while isSpace (gap ++ "("%byte :: s) = length gap ∧
  name_ends (gap ++ "("%byte :: s) ∧ no_dot (gap ++ "("%byte :: s).
Proof.
  intros Hg. split; [by apply count_while_app|]. destruct gap as [|c gap]; cbn [app]; [by destruct s|]. cbn in Hg. apply andb_true_iff in Hg as [Hc _].
  destruct (space_facts c Hc) as (_ & H1 & H2 & H3 & _). split; [done|]. destruct gap as [|d gap]; cbn; by rewrite bool_decide_eq_false_2.
Qed.

(** *** Literals and comments *)

Lemma skip_string_doubled t r : match r with c :: _ => c ≠ "'"%byte | [] => True end →
  skip_string false (doubled "'"%byte t ++ "'"%byte :: r) = S (length (doubled "'"%byte t)).
Proof.
  intros Hr. induction t as [|c t IH].
  - cbn. rewrite bool_decide_refl. destruct r as [|d r]; [done|]. by rewrite (bool_decide_eq_false_2 (d = _)).
  - unfold doubled in *. cbn [mbind list_bind]. case_bool_decide as Hc; cbn [app length].
    + subst c. cbn. by rewrite bool_decide_refl, IH.
    + cbn [skip_string]. rewrite (bool_decide_eq_false_2 (c = "'"%byte)) by done. rewrite IH.
      destruct (bool_decide (c = _)); [|done]. by destruct (mbind _ t).
Qed.

Lemma skip_string_escaped l r : Forall (λ p, p.1 = false → p.2 ≠ x5c) l → match r with c :: _ => c ≠ "'"%byte | [] => True end →
  skip_string true (write_escaped l ++ "'"%byte :: r) = S (length (write_escaped l)).
Proof.
  intros Hl Hr. unfold write_escaped. induction Hl as [|[esc c] l Hc Hl IH].
  - cbn. rewrite bool_decide_refl. destruct r as [|d r]; [done|]. by rewrite (bool_decide_eq_false_2 (d = _)).
  - cbn [mbind list_bind]. destruct esc; cbn [app length].
    + cbn [skip_string]. rewrite bool_decide_refl. by rewrite IH.
    + cbn in Hc. case_bool_decide as Hq; cbn [app length skip_string]; rewrite (bool_decide_eq_false_2 (c = x5c)) by auto.
      * subst c. by rewrite !bool_decide_refl, IH.
      * rewrite (bool_decide_eq_false_2 (c = "'"%byte)) by done. by rewrite IH.
Qed.

Lemma pair_free_spec a b : pair_free a b →
  bool_decide (a = "/"%byte) && bool_decide (b = "*"%byte) = false ∧ bool_decide (a = "*"%byte) && bool_decide (b = "/"%byte) = false.
Proof. intros [H1 H2]. rewrite <- !bool_decide_and. by rewrite !bool_decide_eq_false_2. Qed.

Lemma head_closing l r b s : write_block l ++ "*"%byte :: r = b :: s → b = hd "*"%byte (write_block l).
Proof. destruct (write_block l); cbn; by intros [= <- _]. Qed.

Lemma skip_block_other depth a b s : pair_free a b → skip_block depth (a :: b :: s) = S (skip_block depth (b :: s)).
Proof.
  intros [E1 E2]%pair_free_spec. change (skip_block depth (a :: b :: s)) with
    (if bool_decide (a = "/"%byte) && bool_decide (b = "*"%byte) then S (S (skip_block (depth + 1) s))
     else if bool_decide (a = "*"%byte) && bool_decide (b = "/"%byte) then
       if depth - 1 =? 0 then 2%nat else S (S (skip_block (depth - 1) s))
     else S (skip_block depth (b :: s))).
  by rewrite E1, E2.
Qed.

Lemma skip_block_spec l depth r : block_ok depth l →
  skip_block (Z.of_nat (S depth)) (write_block l ++ "*"%byte :: "/"%byte :: r) = (length (write_block l) + 2)%nat.
Proof.
  revert depth. induction l as [|[[]|c] l IH]; intros depth Hok.
  - cbn in Hok. by subst depth.
  - change (write_block (inl true :: l)) with ("/"%byte :: "*"%byte :: write_block l). cbn [app length skip_block block_ok] in *. rewrite !bool_decide_refl. cbn [andb].
    replace (Z.of_nat (S depth) + 1) with (Z.of_nat (S (S depth))) by lia. by rewrite (IH (S depth)).
  - change (write_block (inl false :: l)) with ("*"%byte :: "/"%byte :: write_block l). cbn [app length skip_block block_ok] in *. destruct depth as [|d]; [done|].
    rewrite !bool_decide_refl, (bool_decide_eq_false_2 ("*"%byte = "/"%byte)) by done.
    cbn [andb]. rewrite (proj2 (Z.eqb_neq _ _)) by lia. replace (Z.of_nat (S (S d)) - 1) with (Z.of_nat (S d)) by lia. by rewrite (IH d).
  - change (write_block (inr c :: l)) with (c :: write_block l). cbn [app length block_ok] in *. destruct Hok as (Hc & Hok). specialize (IH depth Hok).
    destruct (write_block l ++ "*"%byte :: "/"%byte :: r) as [|b s'] eqn:E; [by destruct (write_block l)|].
    rewrite skip_block_other by (by rewrite (head_closing _ _ _ _ E)). by rewrite IH.
Qed.

Lemma index_byte_spec c a b : c ∉ a → index_byte c (a ++ c :: b) = Some (length a).
Proof.
  intros Ha. induction a as [|d a IH]; cbn; [by rewrite bool_decide_refl|]. rewrite bool_decide_eq_false_2 by set_solver.
  rewrite IH by set_solver. done.
Qed.

Lemma has_prefix_app p a b : (length p ≤ length a)%nat → has_prefix p (a ++ b) = has_prefix p a.
Proof.
  revert a. induction p as [|c p IH]; intros a Hl; [done|]. destruct a as [|d a]; [cbn in Hl; lia|]. cbn. rewrite IH; [done|cbn in Hl; lia].
Qed.

Lemma index_text_app sub t r : index_text sub (t ++ sub) = Some (length t) → index_text sub (t ++ sub ++ r) = Some (length t).
Proof.
  intros H. rewrite (assoc_L (++)). revert H. induction t as [|c t IH]; intros H.
  - cbn [app length]. assert (has_prefix sub (sub ++ r) = true) as E by (apply has_prefix_spec; eauto).
    destruct (sub ++ r); cbn [index_text]; by rewrite E.
  - cbn [app index_text] in *. change (c :: (t ++ sub) ++ r) with ((c :: t ++ sub) ++ r). rewrite has_prefix_app by (cbn; rewrite length_app; lia).
    destruct (has_prefix sub (c :: t ++ sub)); [done|]. cbn [length] in *. destruct (index_text sub (t ++ sub)) as [n|] eqn:E; [|done].
    cbn in H. injection H as ->. by rewrite IH.
Qed.

Lemma skipDollar_spec tag t r : match tag with c :: _ => is_digit c = false | [] => True end →
  forallb (λ c, negb (bool_decide (c = "$"%byte)) && identByte c) tag = true →
  index_text ("$"%byte :: tag ++ ["$"%byte]) (t ++ "$"%byte :: tag ++ ["$"%byte]) = Some (length t) →
  skipDollar (("$"%byte :: tag ++ ["$"%byte]) ++ t ++ ("$"%byte :: tag ++ ["$"%byte]) ++ r) =
    length (("$"%byte :: tag ++ ["$"%byte]) ++ t ++ ("$"%byte :: tag ++ ["$"%byte])).
Proof.
  intros Hd Ht Hi. set (mark := "$"%byte :: tag ++ ["$"%byte]) in *.
  assert (mark ++ t ++ mark ++ r = "$"%byte :: tag ++ "$"%byte :: (t ++ mark ++ r)) as E by (unfold mark; cbn; by rewrite <- (assoc_L (++))).
  rewrite E. unfold skipDollar. destruct (match tag ++ "$"%byte :: _ with c :: _ => is_digit c | [] => false end) eqn:Edig.
  { by destruct tag as [|c tag]; cbn in Edig; [|congruence]. }
  rewrite count_while_app by done. rewrite drop_app_length, bool_decide_refl.
  replace (take (length tag + 2) ("$"%byte :: tag ++ "$"%byte :: t ++ mark ++ r)) with mark.
  2:{ rewrite <- E. rewrite take_app_length'; [done|]. unfold mark. cbn. rewrite length_app. cbn. lia. }
  rewrite (index_text_app mark t r Hi). rewrite !length_app. unfold mark at 2. cbn. rewrite length_app. cbn. lia.
Qed.

(** *** Items *)

Lemma ends_before c r : identByte c = false → c ≠ x22 → c ≠ "."%byte → name_ends (c :: r) ∧ no_dot (c :: r).
Proof. intros H1 H2 H3. split; [done|]. destruct r as [|d r]; cbn; [done|]. by rewrite bool_decide_eq_false_2. Qed.

Section items.
Context (deparsed : bool) (after : text) (calls : list funcRef).
Hypothesis after_reads : ∀ before, fresh before → scans deparsed before after calls.

Notation blank := (" "%byte :: after).

Lemma scans_after before : scans deparsed before blank calls.
Proof using after_reads. by apply scans_blank. Qed.

(** An item that one step passes over. *)
Lemma scans_skip before t : t ≠ [] → scan_step before (t ++ blank) deparsed = (length t, None) → scans deparsed before (t ++ blank) calls.
Proof using after_reads.
  intros Ht Hs. change calls with (option_list (@None funcRef) ++ calls). apply scans_app; [done|done|]. apply scans_after.
Qed.

Lemma scans_paren before : scans deparsed before ("("%byte :: blank) calls.
Proof using after_reads. apply scans_inert; [done|done|done|]. apply scans_after. Qed.

Lemma scans_call before parts gap : parts ≠ [] → Forall (name_ok deparsed) parts → forallb isSpace gap = true →
  scans deparsed before (write_parts parts ++ gap ++ "("%byte :: blank) (ref_of (name_value deparsed <$> parts) :: calls).
Proof using after_reads.
  intros Hp Hok Hg. destruct (gap_paren gap blank Hg) as (Hc & He & Hd).
  change (ref_of (name_value deparsed <$> parts) :: calls) with (option_list (Some (ref_of (name_value deparsed <$> parts))) ++ calls).
  apply scans_name.
  - destruct parts as [|n l]; [done|]. apply Forall_cons in Hok as [Hn _]. by eapply write_parts_head.
  - do 2 eexists. split; [by apply readQualifiedName_spec|]. by rewrite Hc, drop_app_length.
  - apply scans_gap; [done|]. intros before'. apply scans_paren.
Qed.

(** A name that is not called: what follows the blank is no parenthesis. *)
Lemma scans_word before t : (∃ c s, t = c :: s ∧ bool_decide (c = x22) || identStart c = true) →
  (∃ ref kw, readQualifiedName (t ++ blank) deparsed = (ref, kw, length t)) →
  match drop (count_while isSpace after) after with x :: _ => x ≠ "("%byte | [] => True end →
  scans deparsed before (t ++ blank) calls.
Proof using after_reads.
  intros Ht (ref & kw & E) Hn. change calls with (option_list (@None funcRef) ++ calls). apply scans_name; [done| |apply scans_after].
  exists ref, kw. split; [done|]. cbn [count_while]. change (isSpace " ") with true. cbn [drop].
  destruct (drop (count_while isSpace after) after) as [|x l]; [done|]. by rewrite bool_decide_eq_false_2, andb_false_r.
Qed.

Lemma scans_literal before t : fresh before → scans deparsed before (("'"%byte :: doubled "'"%byte t ++ ["'"%byte]) ++ blank) calls.
Proof using after_reads.
  intros Hf. apply scans_skip; [done|]. cbn [app]. unfold scan_step. rewrite bool_decide_refl, (fresh_no_escape _ Hf). cbn [skipStringLiteral].
  rewrite <- (assoc_L (++)). cbn [app]. rewrite skip_string_doubled by done. cbn. rewrite length_app. cbn. f_equal. lia.
Qed.

Lemma scans_eliteral before l : fresh before → Forall (λ p, p.1 = false → p.2 ≠ x5c) l →
  scans deparsed before ((["E"%byte; "'"%byte] ++ write_escaped l ++ ["'"%byte]) ++ blank) calls.
Proof using after_reads.
  intros Hf Hl. change ((["E"%byte; "'"%byte] ++ write_escaped l ++ ["'"%byte]) ++ blank) with
    (["E"%byte] ++ ("'"%byte :: write_escaped l ++ ["'"%byte]) ++ blank).
  change calls with (option_list (@None funcRef) ++ calls). apply scans_name; [by eexists _, _| |].
  { do 2 eexists. cbn [app]. destruct (ends_before "'"%byte ((write_escaped l ++ ["'"%byte]) ++ blank)) as [He Hd]; [done..|].
    split; [by apply (readQualifiedName_word deparsed "E"%byte [])|]. cbn [count_while]. change (isSpace "'") with false. cbn [drop]. by rewrite (bool_decide_eq_false_2 ("'"%byte = "("%byte)), andb_false_r by done. }
  cbn [rev_append]. apply scans_skip; [done|]. cbn [app]. unfold scan_step. rewrite bool_decide_refl.
  assert (escape_prefix ("E"%byte :: before) = true) as ->.
  { destruct before as [|c q]; [done|]. cbn in Hf. by subst c. }
  cbn [skipStringLiteral]. rewrite <- (assoc_L (++)). cbn [app]. rewrite skip_string_escaped by done. cbn. rewrite length_app. cbn. f_equal. lia.
Qed.

Lemma scans_line before t : x0a ∉ t → scans deparsed before ((["-"%byte; "-"%byte] ++ t ++ [x0a]) ++ blank) calls.
Proof using after_reads.
  intros Ht. apply scans_skip; [done|]. unfold scan_step. cbn [app]. rewrite (bool_decide_eq_false_2 ("-"%byte = "'"%byte)), !bool_decide_refl by done.
  cbn [andb]. unfold skipLineComment. change ("-"%byte :: "-"%byte :: (t ++ [x0a]) ++ blank) with ((["-"%byte; "-"%byte] ++ t ++ [x0a]) ++ blank).
  assert ((["-"%byte; "-"%byte] ++ t ++ [x0a]) ++ blank = (["-"%byte; "-"%byte] ++ t) ++ x0a :: blank) as -> by (cbn; by rewrite <- (assoc_L (++))).
  rewrite index_byte_spec by (cbn [app]; set_solver). f_equal. cbn. rewrite length_app. cbn. lia.
Qed.

Lemma scans_block before l : block_ok 0 l → scans deparsed before (write_block (inl true :: l ++ [inl false]) ++ blank) calls.
Proof using after_reads.
  intros Hl. assert (write_block (inl true :: l ++ [inl false]) = "/"%byte :: "*"%byte :: write_block l ++ ["*"%byte; "/"%byte]) as ->.
  { unfold write_block. cbn [mbind list_bind app]. rewrite bind_app. done. }
  apply scans_skip; [done|]. cbn [app]. unfold scan_step.
  rewrite (bool_decide_eq_false_2 ("/"%byte = "'"%byte)), (bool_decide_eq_false_2 ("/"%byte = "-"%byte)), !bool_decide_refl by done. cbn [andb].
  unfold skipBlockComment. rewrite <- (assoc_L (++)). cbn [app].
  change (skip_block 0 ("/"%byte :: "*"%byte :: write_block l ++ "*"%byte :: "/"%byte :: blank)) with
    (S (S (skip_block (Z.of_nat 1) (write_block l ++ "*"%byte :: "/"%byte :: blank)))).
  rewrite skip_block_spec by done. cbn. rewrite length_app. cbn. done.
Qed.

Lemma scans_dollar before tag t : item_ok deparsed (Dollar tag t) [] → scans deparsed before (write_item (Dollar tag t) ++ blank) calls.
Proof using after_reads.
  intros (Hd & Ht & Hi). pose proof (skipDollar_spec tag t blank Hd Ht Hi) as E. cbn [write_item]. apply scans_skip; [done|].
  rewrite <- !(assoc_L (++) _ _ blank). change (scan_step before (("$"%byte :: tag ++ ["$"%byte]) ++ ?s) deparsed) with
    (skipDollar (("$"%byte :: tag ++ ["$"%byte]) ++ s), @None funcRef). by rewrite E.
Qed.

Lemma scans_param before digits : digits ≠ [] → forallb is_digit digits = true → scans deparsed before (("$"%byte :: digits) ++ blank) calls.
Proof using after_reads.
  intros Hn Hd. apply scans_skip; [done|]. change (scan_step before (("$"%byte :: digits) ++ blank) deparsed) with
    (skipDollar ("$"%byte :: digits ++ blank), @None funcRef). f_equal. unfold skipDollar.
  destruct digits as [|c digits]; [done|]. cbn in Hd. apply andb_true_iff in Hd as [Hc Hd]. cbn [app]. rewrite Hc.
  change (c :: digits ++ blank) with ((c :: digits) ++ blank). rewrite count_while_app; [done|cbn; by rewrite Hc|done].
Qed.

Lemma scans_number before c s : is_digit c = true → forallb (λ x, identByte x || bool_decide (x = "."%byte)) s = true →
  scans deparsed before ((c :: s) ++ blank) calls.
Proof using after_reads.
  intros Hc Hs. apply scans_skip; [done|]. cbn [app]. unfold scan_step.
  assert (c ≠ "'"%byte ∧ c ≠ "-"%byte ∧ c ≠ "/"%byte ∧ c ≠ "$"%byte ∧ c ≠ ":"%byte) as (H1 & H2 & H3 & H4 & H5) by (revert Hc; destruct c; vm_compute; intros [=]; done).
  rewrite !(bool_decide_eq_false_2 (c = _)), Hc by done. cbn [andb]. f_equal. change (c :: s ++ blank) with ((c :: s) ++ blank).
  rewrite count_while_app; [done| |done]. cbn. rewrite Hs. unfold identByte. by rewrite Hc, orb_true_r.
Qed.

Lemma scans_symbol before c : inert c && negb (isSpace c) = true → scans deparsed before ([c] ++ blank) calls.
Proof using after_reads.
  intros [Hi Hs%negb_true_iff]%andb_true_iff. cbn [app]. apply scans_inert; [done| |done|apply scans_after]. intros ->. done.
Qed.

Lemma scans_keyword before c s gap : deparsed = true → identStart c = true → forallb identByte s = true → ToLower (c :: s) ≠ c :: s → forallb isSpace gap = true →
  scans deparsed before ((c :: s) ++ gap ++ "("%byte :: blank) calls.
Proof using after_reads.
  intros Hdp Hc Hs Hl Hg. destruct (gap_paren gap blank Hg) as (Hcw & He & Hd). change calls with (option_list (@None funcRef) ++ calls). apply scans_name.
  - exists c, s. split; [done|]. by rewrite Hc, orb_true_r.
  - do 2 eexists. split; [by apply readQualifiedName_word|]. rewrite Hdp. cbn [andb]. rewrite bool_decide_eq_false_2 by congruence. cbn [negb andb].
    by destruct (drop _ _).
  - apply scans_gap; [done|]. intros before'. apply scans_paren.
Qed.

Lemma scans_cast before parts : parts ≠ [] → Forall (name_ok false) parts →
  (let k := count_while identByte after in k = 0%nat ∨ ToLower (take k after) ∉ typeNameWords) →
  scans deparsed before (([":"%byte; ":"%byte] ++ write_parts parts) ++ blank) calls.
Proof using after_reads.
  intros Hp Hok Hend. apply scans_skip; [done|]. cbn [app].
  change (scan_step before (":"%byte :: ":"%byte :: write_parts parts ++ blank) deparsed) with
    (S (S (skipTypeName (write_parts parts ++ blank))), @None funcRef). f_equal. cbn [length]. do 2 f_equal.
  unfold skipTypeName. destruct parts as [|n l]; [done|]. assert (name_ok false n) as Hn by (by apply Forall_cons in Hok as [? _]).
  destruct (write_parts_head false n l Hn) as (c & s & Es & Hc).
  assert (count_while isSpace (write_parts (n :: l) ++ blank) = 0%nat) as ->.
  { rewrite Es. cbn. destruct (isSpace c) eqn:Ec; [|done]. destruct (space_facts c Ec) as (_ & H1 & H2 & _).
    rewrite bool_decide_eq_false_2 in Hc by done. cbn in Hc. apply identStart_byte in Hc. congruence. }
  destruct (ends_before " "%byte after) as [He Hd]; [done..|]. cbn [Nat.add]. rewrite drop_0, readQualifiedName_spec by done.
  rewrite drop_app_length. rewrite Es. cbn [app length skip_type_words].
  change (skipTypeModifier blank) with 0%nat. cbn [drop].
  rewrite length_app. cbn [length].
  assert (∀ m, skip_bounds m blank = (0%nat, true)) as Hbm by (intros [|m]; [done|]; by destruct after).
  rewrite Hbm. cbn [Nat.add drop]. rewrite bool_decide_refl. cbn [andb].
  assert (bool_decide (count_while identByte after = 0%nat) || negb (bool_decide (ToLower (take (count_while identByte after) after) ∈ typeNameWords)) = true) as ->.
  { apply orb_true_iff. destruct Hend as [Hk|Hk]; [left; by apply bool_decide_eq_true|right]. by rewrite (bool_decide_eq_false_2 _ Hk). }
  lia.
Qed.
End items.

(** The first byte of an item is no blank, and a parenthesis only as a symbol. *)
Lemma write_item_head deparsed i l : item_ok deparsed i l → ∃ c s, write_item i = c :: s ∧ isSpace c = false ∧ (c = "("%byte → i = Symbol c).
Proof.
  assert (∀ c, bool_decide (c = x22) || identStart c = true → isSpace c = false ∧ c ≠ "("%byte) as Hstart by (intros c; destruct c; vm_compute; intros [=]; done).
  assert (∀ parts d, parts ≠ [] → Forall (name_ok d) parts → ∃ c s, write_parts parts = c :: s ∧ isSpace c = false ∧ c ≠ "("%byte) as Hparts.
  { intros [|n ps] d; [done|]. intros _ [Hn _]%Forall_cons. destruct (write_parts_head d n ps Hn) as (c & s & -> & Hc). eauto. }
  destruct i; cbn [item_ok write_item]; intros Hok.
  - destruct Hok as (Hp & Hok & _). destruct (Hparts _ _ Hp Hok) as (c & s & -> & Hs & Hc). eexists _, _. split; [done|]. naive_solver.
  - destruct Hok as (Hp & Hok & _). destruct (Hparts _ _ Hp Hok) as (c & s & -> & Hs & Hc). eexists _, _. split; [done|]. naive_solver.
  - destruct Hok as (_ & (c & s & -> & Hc & _) & _). destruct (Hstart c ltac:(by rewrite Hc, orb_true_r)) as [Hs Hp].
    eexists _, _. split; [done|]. naive_solver.
  - by eexists _, _.
  - by eexists _, _.
  - by eexists _, _.
  - by eexists _, _.
  - by eexists _, _.
  - by eexists _, _.
  - destruct Hok as (c & s & -> & Hc & _). exists c, s. split; [done|]. revert Hc. destruct c; vm_compute; intros [=]; done.
  - by eexists _, _.
  - exists c, []. split; [done|]. split; [|done]. revert Hok. destruct c; vm_compute; intros [=]; done.
Qed.

Lemma not_called_spec deparsed l : items_ok deparsed l → not_called l →
  match drop (count_while isSpace (write l)) (write l) with x :: _ => x ≠ "("%byte | [] => True end.
Proof.
  destruct l as [|i l]; [done|]. intros [Hi _] Hn. destruct (write_item_head deparsed i l Hi) as (c & s & E & Hs & Hp). cbn [write].
  rewrite E. cbn [app count_while]. rewrite Hs. cbn [drop]. intros ->. rewrite (Hp eq_refl) in Hn. done.
Qed.

(** C29: The scanner finds exactly the calls that are written. For a text of calls, other
    names, string literals with doubled quotes or escapes, dollar-quoted strings, line
    comments, block comments with any bytes and nesting, parameters, numbers, casts and
    symbols, each followed by a blank, where a call is a name with an opening parenthesis
    and at most blanks between them: the result is the calls in the order of their first
    appearance, by the name to look up, which is folded to lower case in a statement, kept
    when it is quoted, and made of the last two parts of a qualified name. Nothing inside a
    literal or a comment is taken for a call, and none hides a call behind it. A name with a
    comment between it and its parenthesis is not a call here, as it is none for the code
    ([Example_.comment_before_paren]). *)
Theorem scan_finds_calls deparsed l : items_ok deparsed l → scanCalls (write l) deparsed = first_of [] (l ≫= item_calls deparsed).
Proof.
  intros Hok. apply scans_scanCalls. cut (∀ before, fresh before → scans deparsed before (write l) (l ≫= item_calls deparsed)); [intros H; by apply H|].
  induction l as [|i l IH]; intros before Hf; [apply scans_nil|]. destruct Hok as [Hi Hl]. specialize (IH Hl). cbn [write mbind list_bind].
  destruct i as [parts gap|parts|t gap|t|es|t|bl|tag t|ds|t|parts|c]; cbn [item_calls app write_item item_ok] in *.
  - destruct Hi as (Hp & Hn & Hg). rewrite <- !(assoc_L (++)). by apply scans_call.
  - destruct Hi as (Hp & Hn & Hc). destruct (ends_before " "%byte (write l)) as [He Hd]; [done..|]. apply scans_word; [done| | |by eapply not_called_spec].
    + destruct parts as [|n ps]; [done|]. apply Forall_cons in Hn as [Hn _]. by eapply write_parts_head.
    + do 2 eexists. by apply readQualifiedName_spec.
  - destruct Hi as (Hd & (c & s & -> & Hc & Hs) & Hlow & Hg). rewrite <- !(assoc_L (++)). by apply scans_keyword.
  - by apply scans_literal.
  - by apply scans_eliteral.
  - by apply scans_line.
  - by apply scans_block.
  - by apply (scans_dollar deparsed (write l) _ IH before tag t).
  - destruct Hi as (Hn & Hd). by apply scans_param.
  - destruct Hi as (c & s & -> & Hc & Hs). by apply scans_number.
  - destruct Hi as (Hp & Hn & He). by apply scans_cast.
  - by apply (scans_symbol deparsed (write l) _ IH before c).
Qed.

(** The scanner reads every text to its end: each step of its loop moves at least one
    byte forward, so the loop makes no more steps than the text has bytes. *)
Theorem scanner_terminates before s deparsed : s ≠ [] →
  (1 ≤ (scan_step before s deparsed).1)%nat ∧ ∀ fuel, (length s ≤ fuel)%nat → is_Some (scan_loop fuel before s deparsed).
Proof. intros Hs. split; [by apply scan_step_advances|]. intros fuel. apply scan_loop_total. Qed.
End scanner.

(** ** Examples *)

Module Example_.
Definition same (t : text) : text := t.

Definition now_fn : catalogFunction := mkFunction (str "pg_catalog") (str "now") (str "s") [] true.
Definition sleep_fn : catalogFunction := mkFunction (str "pg_catalog") (str "pg_sleep") (str "v") [] true.

Definition plan : json :=
  JArray [JObject [(str "Plan", JObject [(str "Node Type", JString (str "Result")); (str "Output", JArray [JString (str "now()")])])]].

Definition quiet : session :=
  mkSession (Some (false, false, false)) true (Some []) (Some [])
    (λ names, Some (filter (λ f, f.(fn_name) ∈ names) [now_fn; sleep_fn])) (Some []) (λ _, Some (Some plan)).

Lemma quiet_lookup : lookup_complete quiet [now_fn; sleep_fn].
Proof.
  intros names fs [= <-] f. split.
  - by intros [_ H]%list_elem_of_filter.
  - intros H1 H2. by apply list_elem_of_filter.
Qed.

Lemma analyze_guard_sound_witness : Forall (safe_ref [now_fn; sleep_fn]) (scanCalls same (str "SELECT now()") false).
Proof.
  apply Forall_forall. apply (analyze_guard_sound same quiet [now_fn; sleep_fn] (str "SELECT now()") quiet_lookup).
  vm_compute. reflexivity.
Defined.

(** A statement that sleeps is refused. *)
Example sleep_refused : guardAnalyze same quiet (str "SELECT pg_sleep(10)") = Rejected.
Proof. vm_compute. reflexivity. Qed.

Lemma planning_guard_exact_witness : guardPlanning quiet = Accepted.
Proof. apply (planning_guard_exact quiet); [|done]. intros fs f [= <-] Hf. by apply elem_of_nil in Hf. Defined.

(** [SELECT PG_Catalog."Now" ( 'it''s f( ' /* g( /* h( */ *g/g*/ ... ]. *)
Definition written : list item :=
  [Word [Plain (str "SELECT")]; Call [Plain (str "PG_Catalog"); Quoted (str "Now")] (str " "); Literal (str "it's f( ");
   Block [inr "g"%byte; inr "("%byte; inl true; inr "h"%byte; inr "("%byte; inl false; inr "*"%byte; inr "g"%byte; inr "/"%byte; inr "g"%byte]; Symbol ")"%byte; Call [Plain (str "now")] []].

Lemma scan_finds_calls_witness : scanCalls same (write written) false = [mkRef (str "pg_catalog") (str "Now"); mkRef [] (str "now")].
Proof.
  rewrite (scan_finds_calls same false written); [vm_compute; reflexivity|].
  repeat first [apply Forall_nil_2|split|constructor]; try done; first [by eexists _, _|by intros [[=] [=]]].
Defined.

Lemma scanner_terminates_witness : is_Some (scan_loop same 4 [] (str "f(1)") false).
Proof. apply (scanner_terminates same [] (str "f(1)") false); [done|vm_compute; lia]. Defined.

(** A comment between a name and its parenthesis hides the call from the scan. *)
Example comment_before_paren : scanCalls same (str "SELECT pg_sleep/**/(10)") false = [].
Proof. vm_compute. reflexivity. Qed.
End Example_.
