(* ===== verification/AdvisorTypes.v ===== *)
(** * Advisor findings, snapshots and rules (internal/advisor: rule.go, registry.go and the
    types of snapshot.go)

    A [Snapshot] is what a rule reads of one instance. A slice or map whose absence the code
    tests is an [option]; a pointer nobody writes through too. The values of an evidence map
    ([map[string]any]) are an inductive type. The registry is a map from the rules'
    identifiers. *)
From stdpp Require Import pretty.
From S2P Require Import Prelude GoTime GoFloat GoSort GoText GoJson Pgtype AlertTypes PgIds.

(** ** Snapshots (snapshot.go) *)

Record Fact := mkFact {
  fact_Key : string;
  fact_Datname : string;
  fact_ValueText : string;
  fact_Value : list (string * any);
  fact_Labels : gmap string string;
  fact_ObservedAt : Time;
}.

Record TableStat := mkTableStat {
  tab_Datname : string;
  tab_Name : string;
  tab_NLiveTup : float64;
  tab_NDeadTup : float64;
  tab_NModSinceAnalyze : float64;
  tab_LastAutovacuum : option Time;
  tab_LastVacuum : option Time;
  tab_RelfrozenXIDAge : float64;
  tab_SeqScanRate : float64;
  tab_IdxScanRate : float64;
}.

Record IndexStat := mkIndexStat {
  idx_Datname : string;
  idx_Name : string;
  idx_TableName : string;
  idx_DefHash : string;
  idx_IndexDef : string;
  idx_IdxScan : float64;
  idx_SizeBytes : float64;
  idx_HistoryDays : float64;
  idx_IsPrimary : bool;
  idx_IsUnique : bool;
  idx_IsValid : bool;
  idx_ScanTracked : bool;
  idx_LastScan : option Time;
  idx_StatsReset : option Time;
}.

Record BloatStat := mkBloatStat {
  blo_Datname : string;
  blo_Name : string;
  blo_RelationName : string;
  blo_Kind : string;
  blo_Method : string;
  blo_Ratio : float64;
  blo_SizeBytes : float64;
}.

Record StatementStat := mkStatementStat {
  stm_Datname : string;
  stm_QueryID : Z;
  stm_MeanExecTimeMs : float64;
  stm_Calls : float64;
  stm_TotalExecTimeMs : float64;
  stm_TempBytes : float64;
  stm_SharedBlksRead : float64;
  stm_SharedBlksHit : float64;
}.

Record HostInfo := mkHostInfo {
  host_Available : bool;
  host_Source : string;
  host_TotalBytes : float64;
  host_CgroupLimitBytes : float64;
}.

Record SiblingInfo := mkSiblingInfo {
  sib_InstanceID : UUID;
  sib_Role : Role;
  sib_Settings : gmap string string;
  sib_SettingContexts : gmap string string;
  sib_IndexHashes : gmap string string;
  sib_IndexScanned : gmap string bool;
  sib_BasebackupSeenAt : option Time;
}.

Record ReplicationInfo := mkReplicationInfo {
  repl_Standbys : Z;
  repl_MaxLagBytes : float64;
  repl_ActivePhysicalSlots : Z;
}.

Record LockTreeNode := mkLockTreeNode {
  node_PID : Z;
  node_BlockedBy : list Z;
  node_WaitDuration : float64;
}.

Record LockTreeSample := mkLockTreeSample {
  tree_SampledAt : Time;
  tree_Nodes : list LockTreeNode;
}.

Record Snapshot := mkSnapshot {
  snap_Now : Time;
  snap_ClusterID : Z;
  snap_InstanceID : UUID;
  snap_Role : Role;
  snap_PGVersion : Z;
  snap_PermTier : Z;
  snap_FirstSeen : Time;
  snap_Metrics : gmap string (gmap string float64);
  snap_Facts : gmap string (gmap string Fact);
  snap_Tables : option (list TableStat);
  snap_Indexes : option (list IndexStat);
  snap_Bloat : option (list BloatStat);
  snap_Statements : option (list StatementStat);
  snap_Host : HostInfo;
  snap_Siblings : option (list SiblingInfo);
  snap_Replication : option ReplicationInfo;
  snap_LockTree : option LockTreeSample;
  snap_SkippedChecks : gmap string string;
  snap_Baseline : option (gmap Z float64); (* MeanExecTimeByQueryID *)
  snap_Settings : option (gmap string string);
  snap_SettingContexts : gmap string string;
}.

Definition Snapshot_Metric (s : Snapshot) (name : string) (labels : gmap string string) : option float64 :=
  values ← s.(snap_Metrics) !! name;
  values !! CanonicalLabels labels.

(** ** Findings (rule.go) *)

Definition ScopeRelation : string := "relation".
Definition StateOpen : string := "open".
Definition StateDegraded : string := "degraded".
Definition StateMuted : string := "muted".

Record Finding := mkFinding {
  RuleID : string;
  Severity : string;
  State : string;
  Scope : string;
  ClusterID : option Z;
  InstanceID : option UUID;
  Datname : string;
  ObjectName : string;
  Title : string;
  Detail : string;
  Remediation : string;
  Evidence : option (list (string * any));
  DegradedReason : string;
}.

Definition formatInt (v : Z) : string := if v =? 0 then "0" else pretty v.

(** [Finding.ID]. *)
Definition ID `{UuidText} (f : Finding) : string :=
  let subject := f.(ObjectName) in
  let subject := if negb (bool_decide (subject = "")) && negb (bool_decide (f.(Datname) = "")) then f.(Datname) +:+ "/" +:+ subject else subject in
  let subject := if decide (subject = "") then f.(Datname) else subject in
  let subject :=
    match f.(InstanceID) with
    | Some i => if decide (subject = "") then uuid_String i else uuid_String i +:+ "/" +:+ subject
    | None => subject
    end in
  let subject :=
    match f.(ClusterID) with
    | Some c => if decide (subject = "") then "cluster:" +:+ formatInt c else subject
    | None => subject
    end in
  f.(RuleID) +:+ "/" +:+ subject.

(** ** Rules (rule.go, registry.go) *)

(** [rule_Evaluate] is [None] when the rule panics. *)
Record Rule := mkRule {
  rule_ID : string;
  rule_Severity : string;
  rule_Scope : string;
  rule_Needs : list string;
  rule_MinTier : Z;
  rule_Evaluate : Snapshot → option (list Finding);
}.

Notation registry := (gmap string Rule).

(** [None] is the panic on a second registration. *)
Definition Register (r : Rule) (reg : registry) : option registry :=
  match reg !! r.(rule_ID) with
  | Some _ => None
  | None => Some (<[r.(rule_ID) := r]> reg)
  end.

Definition rule_less (a b : Rule) : bool := string_lt a.(rule_ID) b.(rule_ID).

(** [All] over the order in which the range over the map visits the rules. *)
Definition All_in (visited : list Rule) : list Rule := sort_slice rule_less visited.

Definition All (reg : registry) : list Rule := All_in (map_to_list reg).*2.

(** The rules of a program's [init] functions, in the order they register. *)
Fixpoint register_all (rs : list Rule) (reg : registry) : option registry :=
  match rs with
  | [] => Some reg
  | r :: rs => reg ← Register r reg; register_all rs reg
  end.

(** ** Whether a rule can answer (engine.go) *)

Definition monitoringRoleFactKind : string := "monitoring_role".

(** [strings.TrimSpace(s) != ""] of a skipped check's reason. *)
Definition skip_reason (s : Snapshot) (need : string) : option string :=
  reason ← s.(snap_SkippedChecks) !! need;
  if all_space (str reason) then None else Some reason.

Definition missingSnapshotInput (s : Snapshot) (need : string) : bool :=
  match skip_reason s need with
  | Some _ => true
  | None =>
      if decide (need = "Statements") then bool_decide (s.(snap_Statements) = None)
      else if decide (need = "Indexes") then bool_decide (s.(snap_Indexes) = None)
      else if decide (need = "Tables") then bool_decide (s.(snap_Tables) = None)
      else if decide (need = "Bloat") then bool_decide (s.(snap_Bloat) = None)
      else if decide (need = "Siblings") then bool_decide (s.(snap_Siblings) = None)
      else if decide (need = "Baseline") then bool_decide (s.(snap_Baseline) = None)
      else if decide (need = "Replication") then bool_decide (s.(snap_Replication) = None)
      else if decide (need = "LockTree") then bool_decide (s.(snap_LockTree) = None)
      else if decide (need = "host") then negb s.(snap_Host).(host_Available)
      else if decide (need = "settings") then bool_decide (s.(snap_Settings) = None)
      else if decide (need = monitoringRoleFactKind) then bool_decide (s.(snap_Facts) !! monitoringRoleFactKind = None)
      else if String.prefix "pg_" need then bool_decide (s.(snap_Metrics) !! need = None)
      else false
  end.

Definition degraded_finding (r : Rule) (title detail reason : string) : Finding :=
  mkFinding r.(rule_ID) r.(rule_Severity) StateDegraded r.(rule_Scope) None None "" "" title detail "" None reason.

(** The first need that is missing decides the answer. *)
Fixpoint check_needs (r : Rule) (s : Snapshot) (needs : list string) : option Finding :=
  match needs with
  | [] => None
  | need :: needs =>
      if missingSnapshotInput s need then
        let reason := default ("missing input: " +:+ need) (skip_reason s need) in
        Some (degraded_finding r "Advisor input unavailable" ("required advisor input is unavailable: " +:+ reason) reason)
      else check_needs r s needs
  end.

(** The findings, and whether the rule panicked. *)
Definition evaluateRule (r : Rule) (s : Snapshot) : list Finding * bool :=
  if s.(snap_PermTier) <? r.(rule_MinTier) then
    ([degraded_finding r "Permission tier unavailable" "advisor rule requires a higher permission tier"
        ("required permission tier " +:+ PermTier_String r.(rule_MinTier))], false)
  else
    match check_needs r s r.(rule_Needs) with
    | Some f => ([f], false)
    | None =>
        match r.(rule_Evaluate) s with
        | Some fs => (fs, false)
        | None => ([degraded_finding r "Advisor rule failed" "rule evaluation panicked" "rule evaluation failed"], true)
        end
    end.

Definition degradedAsWhole (fs : list Finding) : bool :=
  existsb (λ f, bool_decide (f.(State) = StateDegraded) && bool_decide (f.(Datname) = "") && bool_decide (f.(ObjectName) = "")) fs.

(** ** Identifiers of findings *)

(** What follows the instance in the identifier of a finding. *)
Definition subject (f : Finding) : string :=
  if decide (f.(ObjectName) = "") then (if decide (f.(Datname) = "") then "" else "/" +:+ f.(Datname))
  else if decide (f.(Datname) = "") then "/" +:+ f.(ObjectName)
  else "/" +:+ f.(Datname) +:+ "/" +:+ f.(ObjectName).

Section identifiers.
Context `{UuidTextLaws}.

Lemma string_app_not_empty s t : s ≠ "" → s +:+ t ≠ "".
Proof. by destruct s. Qed.

Lemma ID_instance f i : f.(InstanceID) = Some i → ID f = f.(RuleID) +:+ "/" +:+ uuid_String i +:+ subject f.
Proof.
  intros Hi. unfold ID, subject. rewrite Hi.
  pose proof (uuid_String_not_empty i) as Hu.
  destruct (decide (f.(ObjectName) = "")) as [->|Ho], (decide (f.(Datname) = "")) as [->|Hd]; cbn [negb].
  - rewrite !bool_decide_true by done. cbn [negb andb]. rewrite !decide_True by done.
    rewrite string_app_empty. destruct (ClusterID f); [|done]. by rewrite decide_False.
  - rewrite (bool_decide_true ("" = "")), bool_decide_false by done. cbn [negb andb].
    rewrite (decide_True (P := "" = "")), (decide_False (P := Datname f = "")) by done.
    destruct (ClusterID f); [|done]. rewrite decide_False by by apply string_app_not_empty. done.
  - rewrite bool_decide_false, (bool_decide_true ("" = "")) by done. cbn [negb andb].
    rewrite !(decide_False (P := ObjectName f = "")) by done.
    destruct (ClusterID f); [|done]. rewrite decide_False by by apply string_app_not_empty. done.
  - rewrite !bool_decide_false by done. cbn [negb andb].
    rewrite !(decide_False (P := Datname f +:+ _ = "")) by by apply string_app_not_empty.
    destruct (ClusterID f); [|done]. rewrite decide_False by by apply string_app_not_empty. done.
Qed.

Lemma subject_tail f : tail_ok "/"%char (subject f).
Proof. unfold subject. repeat case_decide; [by left|right; by eexists..]. Qed.

(** The identifier tells the rule, the instance and the rest apart. *)
Lemma ID_inj f g i j :
  f.(InstanceID) = Some i → g.(InstanceID) = Some j →
  no_byte "/"%char f.(RuleID) → no_byte "/"%char g.(RuleID) → ID f = ID g →
  f.(RuleID) = g.(RuleID) ∧ i = j ∧ subject f = subject g.
Proof.
  intros Hf Hg Rf Rg. rewrite (ID_instance f i), (ID_instance g j) by done. cbn. intros E.
  apply split_at_byte in E as [ER E]; [|done..]. rewrite ?string_app_nil in E.
  apply split_at_tail with (c := "/"%char) in E as [EI E]; [|apply uuid_String_slash..|apply subject_tail|apply subject_tail].
  apply (inj uuid_String) in EI. done.
Qed.

(** Findings of a database whose name has no slash are told apart by their object too. *)
Lemma subject_inj f g :
  no_byte "/"%char f.(Datname) → no_byte "/"%char g.(Datname) →
  f.(ObjectName) ≠ "" → g.(ObjectName) ≠ "" → f.(Datname) ≠ "" → g.(Datname) ≠ "" →
  subject f = subject g → f.(Datname) = g.(Datname) ∧ f.(ObjectName) = g.(ObjectName).
Proof.
  intros Df Dg Of Og Nf Ng. unfold subject. rewrite !decide_False by done. cbn. intros E.
  injection E as E. by apply split_at_byte in E.
Qed.
End identifiers.

(** ** The registry *)

#[export] Instance rule_less_swo : StrictWeakOrder rule_less (λ _, True).
Proof.
  split; unfold not_after, rule_less.
  - intros x y _ _. apply string_lt_asym.
  - intros x y z _ _ _ H1 H2.
    exact (not_after_trans string_lt (P := λ _, True) (rule_ID x) (rule_ID y) (rule_ID z) I I I H1 H2).
Qed.

Definition registry_ok (reg : registry) : Prop := ∀ k r, reg !! k = Some r → r.(rule_ID) = k.

Lemma Register_ok r reg reg' : registry_ok reg → Register r reg = Some reg' → registry_ok reg'.
Proof.
  unfold Register. intros Hok. destruct (reg !! rule_ID r); [done|]. intros [= <-] k r'.
  destruct (decide (rule_ID r = k)) as [<-|Hk]; [by rewrite lookup_insert_eq; intros [= <-]|].
  rewrite lookup_insert_ne by done. apply Hok.
Qed.

Lemma register_all_ok rs reg reg' : registry_ok reg → register_all rs reg = Some reg' → registry_ok reg'.
Proof.
  revert reg. induction rs as [|r rs IH]; cbn; intros reg Hok; [by intros [= <-]|].
  destruct (Register r reg) eqn:E; cbn; [|done]. intros HE. eapply IH; [|done]. by eapply Register_ok.
Qed.

Lemma elem_of_All reg r : registry_ok reg → r ∈ All reg ↔ reg !! r.(rule_ID) = Some r.
Proof.
  intros Hok. unfold All, All_in. rewrite elem_of_sort_slice, list_elem_of_fmap. split.
  - intros ([k r'] & -> & Hr%elem_of_map_to_list). cbn. by rewrite (Hok k r' Hr).
  - intros Hr. exists (rule_ID r, r). split; [done|]. by apply elem_of_map_to_list.
Qed.

(** The order in which the range over the map visits the rules does not show. *)
Lemma All_any_order reg visited : registry_ok reg → visited ≡ₚ (map_to_list reg).*2 → All_in visited = All reg.
Proof.
  intros Hok Hv. unfold All, All_in. apply (sort_slice_unique rule_less (λ _, True)); [by apply Forall_true| | |].
  - intros x y Hx Hy Hxy Hyx. unfold not_after, rule_less in *.
    assert (rule_ID x = rule_ID y) as E by (destruct (string_trichotomy (rule_ID x) (rule_ID y)) as [H|[H|H]]; congruence).
    assert (∀ r, r ∈ (map_to_list reg).*2 → reg !! rule_ID r = Some r) as Hin.
    { intros r Hr. apply elem_of_All; [done|]. unfold All, All_in. by apply elem_of_sort_slice. }
    apply Hin in Hx, Hy. rewrite E in Hx. congruence.
  - by rewrite sort_slice_perm.
  - apply (sort_slice_sorted rule_less (λ _, True)). by apply Forall_true.
Qed.
