(* ===== verification/Advisor.v ===== *)
(** * The advisor engine (internal/advisor: engine.go, store.go; the mutes of
    internal/server/api_findings.go)

    The findings table is a map from identifiers to rows, and the statements of [PgStore] and
    of the mute handlers are functions on it ([stmt], [apply_stmt]). A pass ([Run]) is written
    in a state monad over the engine's leadership, the tables and the answers still to come:
    how each statement ends (an error may come after the database applied it) and whether the
    program was asked to stop. The loader of snapshots and the rules are parameters. *)
From S2P Require Import Prelude StateM GoTime GoFloat GoSort GoText Pgtype AlertTypes AlertEngine PgIds AdvisorTypes GoJson.

Definition defaultAdvisorInterval : Duration := 15 * Minute.
Definition unseenInstanceGrace : Duration := 24 * Hour.
Definition advisorRetention : Duration := 90 * 24 * Hour.

(** ** The findings table (store.go) *)

Record Row := mkRow {
  row_rule : string;
  row_severity : string;
  row_state : string;
  row_scope : string;
  row_cluster : option Z;
  row_instance : option UUID;
  row_datname : string;
  row_object : string;
  row_title : string;
  row_detail : string;
  row_remediation : string;
  row_evidence : option (list (string * any));
  row_degraded : option string;
  row_first_seen : Time;
  row_last_seen : Time;
  row_resolved_at : option Time;
  row_muted_until : option Time;
  row_mute_reason : option string;
}.

(** [findings] of the tenant, and the [last_seen] of [instances]. *)
Record DB := mkDB {
  findings : gmap string Row;
  instances : gmap UUID Time;
}.

Definition nullIfEmpty (v : string) : option string := if decide (v = "") then None else Some v.

(** What encoding/json refuses of an evidence value: a float that is not finite. *)
Fixpoint any_encodes (a : any) : bool :=
  match a with
  | AFloat x => is_finite x
  | AList l => forallb any_encodes l
  | AMap m => forallb (λ kv, any_encodes kv.2) m
  | _ => true
  end.

Definition evidence_encodes (e : option (list (string * any))) : bool :=
  forallb (λ kv, any_encodes kv.2) (default [] e).

(** The CHECK constraints of the table. *)
Definition row_checks (f : Finding) : bool :=
  bool_decide (f.(Severity) ∈ [SeverityCritical; SeverityWarning; SeverityInfo]) &&
  bool_decide (f.(State) ∈ [StateOpen; StateDegraded; StateMuted; StateResolved]) &&
  bool_decide (f.(Scope) ∈ [ScopeInstance; ScopeCluster; ScopeDatabase; ScopeRelation]).

Definition muted_after (until : option Time) (t : Time) : bool :=
  match until with Some u => t <? u | None => false end.

(** INSERT ... ON CONFLICT DO UPDATE of [UpsertFinding]. *)
Definition upsert_row (f : Finding) (now : Time) (old : option Row) : Row :=
  mkRow f.(RuleID) f.(Severity)
    (match old with Some o => if muted_after o.(row_muted_until) now then StateMuted else f.(State) | None => f.(State) end)
    f.(Scope) f.(ClusterID) f.(InstanceID) f.(Datname) f.(ObjectName) f.(Title) f.(Detail) f.(Remediation) f.(Evidence)
    (nullIfEmpty f.(DegradedReason))
    (match old with Some o => o.(row_first_seen) | None => now end)
    now None
    (o ← old; o.(row_muted_until)) (o ← old; o.(row_mute_reason)).

Definition set_state (st : string) (resolved : option Time) (r : Row) : Row :=
  mkRow r.(row_rule) r.(row_severity) st r.(row_scope) r.(row_cluster) r.(row_instance) r.(row_datname) r.(row_object)
    r.(row_title) r.(row_detail) r.(row_remediation) r.(row_evidence) r.(row_degraded) r.(row_first_seen) r.(row_last_seen)
    resolved r.(row_muted_until) r.(row_mute_reason).
Definition set_mute (st : string) (until : option Time) (reason : option string) (r : Row) : Row :=
  mkRow r.(row_rule) r.(row_severity) st r.(row_scope) r.(row_cluster) r.(row_instance) r.(row_datname) r.(row_object)
    r.(row_title) r.(row_detail) r.(row_remediation) r.(row_evidence) r.(row_degraded) r.(row_first_seen) r.(row_last_seen)
    r.(row_resolved_at) until reason.

Definition active_state (st : string) : bool := bool_decide (st ∈ [StateOpen; StateDegraded; StateMuted]).

Definition resolve (now : Time) (r : Row) : Row := set_state StateResolved (Some now) r.

(** The rows [ResolveAbsent] closes. *)
Definition absent (id : UUID) (ran seen : list string) (k : string) (r : Row) : bool :=
  bool_decide (r.(row_instance) = Some id) && active_state r.(row_state) &&
  bool_decide (r.(row_rule) ∈ ran) && negb (bool_decide (k ∈ seen)).

(** The rows [ResolveUnseen] closes. *)
Definition unseen (seen_at : gmap UUID Time) (before : Time) (r : Row) : bool :=
  active_state r.(row_state) &&
  match r.(row_instance) with
  | Some i => match seen_at !! i with Some t => t <? before | None => true end
  | None => false
  end.

(** The rows [PurgeResolved] deletes. *)
Definition expired (before : Time) (r : Row) : bool :=
  bool_decide (r.(row_state) = StateResolved) &&
  match r.(row_resolved_at) with Some t => t <? before | None => false end.

(** ** Statements *)

Section store.
Context `{UuidText}.

Inductive stmt :=
| SUpsert (f : Finding) (now : Time)
| SResolveAbsent (id : UUID) (ran seen : list string) (now : Time)
| SResolveUnseen (before now : Time)
| SPurge (before : Time)
| SMute (id : string) (until : Time) (reason : string)
| SUnmute (id : string)
| SSeen (i : UUID) (t : Time).

Definition update_rows (p : string → Row → bool) (g : Row → Row) (m : gmap string Row) : gmap string Row :=
  map_imap (λ k r, Some (if p k r then g r else r)) m.

Definition apply_stmt (q : stmt) (db : DB) : DB :=
  match q with
  | SUpsert f now => mkDB (partial_alter (λ old, Some (upsert_row f now old)) (ID f) db.(findings)) db.(instances)
  | SResolveAbsent id ran seen now => mkDB (update_rows (absent id ran seen) (resolve now) db.(findings)) db.(instances)
  | SResolveUnseen before now => mkDB (update_rows (λ _, unseen db.(instances) before) (resolve now) db.(findings)) db.(instances)
  | SPurge before => mkDB (filter (λ kr, expired before kr.2 = false) db.(findings)) db.(instances)
  | SMute id until reason => mkDB (alter (set_mute StateMuted (Some until) (Some reason)) id db.(findings)) db.(instances)
  | SUnmute id =>
      mkDB (alter (λ r, set_mute (match r.(row_resolved_at) with None => StateOpen | Some _ => StateResolved end) None None r) id db.(findings))
        db.(instances)
  | SSeen i t => mkDB db.(findings) (<[i := t]> db.(instances))
  end.

(** ** A pass *)

(** How a statement ends; [Failed true] is an error after it took effect. *)
Inductive outcome := Done | Failed (applied : bool) (e : error).

Inductive adv_error :=
| AdvAcquire (e : error) | AdvTryLock (e : error) | AdvLeader (e : error) | AdvActive (e : error)
| AdvLoad (id : UUID) (e : error) | AdvPersist (id : string) (e : error) | AdvResolve (e : error)
| AdvUnseen (e : error) | AdvPurge (e : error) | AdvCtx (e : error).

(** What ends a pass between two instances: the context, or [Stop]. *)
Inductive stop := GoOn | CtxDone (e : error) | StopRequested.

Record Engine := mkEngine { has_conn : bool; hasLock : bool }.

Definition newEngine : Engine := mkEngine false false.

(** What one pass is told from outside; [no_pool] engines have no lock to ask for. *)
Record answers := mkAnswers {
  now_ : Time;
  no_store : bool;
  override : option (bool * option error); (* leaderOverride *)
  no_pool : bool;
  conn_closed : bool;
  ping_ok : bool;
  acquire : option error;
  try_lock_reply : lock_reply;
  active_outcome : outcome;
  outcomes : list outcome; (* of the later statements, in order; then [Done] *)
  stops : list stop; (* of the checks between instances, in order; then [GoOn] *)
}.

Record amach := mkAMach { a_eng : Engine; a_db : DB; a_out : list outcome; a_stops : list stop }.

Notation AM := (ST amach).

Definition set_lock (conn lock : bool) : AM unit := λ m, ((), mkAMach (mkEngine conn lock) m.(a_db) m.(a_out) m.(a_stops)).
Definition get_engine : AM Engine := λ m, (m.(a_eng), m).

(** Run a statement: the next outcome decides. *)
Definition exec (q : stmt) : AM (option error) := λ m,
  match m.(a_out) with
  | [] => (None, mkAMach m.(a_eng) (apply_stmt q m.(a_db)) [] m.(a_stops))
  | Done :: out => (None, mkAMach m.(a_eng) (apply_stmt q m.(a_db)) out m.(a_stops))
  | Failed applied e :: out => (Some e, mkAMach m.(a_eng) (if applied then apply_stmt q m.(a_db) else m.(a_db)) out m.(a_stops))
  end.

(** A statement the database refuses uses up its outcome and changes nothing. *)
Definition refuse (e : error) : AM (option error) := λ m,
  (Some (match m.(a_out) with Failed _ e' :: _ => e' | _ => e end), mkAMach m.(a_eng) m.(a_db) (drop 1 m.(a_out)) m.(a_stops)).

Definition next_stop : AM stop := λ m,
  match m.(a_stops) with
  | [] => (GoOn, m)
  | s :: ss => (s, mkAMach m.(a_eng) m.(a_db) m.(a_out) ss)
  end.

Definition UpsertFinding (f : Finding) (now : Time) : AM (option error) :=
  if evidence_encodes f.(Evidence) then
    if row_checks f then exec (SUpsert f now) else refuse "violates check constraint"
  else mret (Some "json: unsupported value").

Definition store_ResolveAbsent (id : UUID) (ran seen : list string) (now : Time) : AM (option error) :=
  match ran with
  | [] => mret None
  | _ => exec (SResolveAbsent id ran seen now)
  end.

Definition ActiveInstances (since : Time) (db : DB) : list UUID :=
  sort_slice Z.ltb ((filter (λ it : UUID * Time, since ≤ it.2) (map_to_list db.(instances))).*1).

Section pass.
Context (load : UUID → Time → error + Snapshot) (rules : registry) (env : answers).

Definition releaseLeaderConn : AM unit := set_lock false false.

Definition try_lock : AM (option adv_error) :=
  match env.(try_lock_reply) with
  | LockErr e => releaseLeaderConn;; mret (Some (AdvTryLock e))
  | LockNoRows => set_lock true false;; mret None
  | LockReply locked => set_lock true locked;; mret None
  end.

Definition ensureLeader : AM (option adv_error) :=
  match env.(override) with
  | Some (locked, err) => e ← get_engine; set_lock e.(has_conn) locked;; mret (AdvLeader <$> err)
  | None =>
      if env.(no_pool) then e ← get_engine; set_lock e.(has_conn) true;; mret None
      else
        e ← get_engine;
        (if e.(has_conn) && env.(conn_closed) then releaseLeaderConn else mret ());;
        e ← get_engine;
        alive ← (if e.(hasLock) && e.(has_conn) then
                   if env.(ping_ok) then mret true else releaseLeaderConn;; mret false
                 else mret false);
        if alive : bool then mret None
        else
          e ← get_engine;
          if e.(has_conn) then try_lock
          else
            match env.(acquire) with
            | Some err => mret (Some (AdvAcquire err))
            | None => set_lock true e.(hasLock);; try_lock
            end
  end.

(** What [runInstance] fills in before it stores a finding. *)
Definition complete (r : Rule) (s : Snapshot) (id : UUID) (f : Finding) : Finding :=
  let f := mkFinding
    (if decide (f.(RuleID) = "") then r.(rule_ID) else f.(RuleID))
    (if decide (f.(Severity) = "") then r.(rule_Severity) else f.(Severity))
    f.(State)
    (if decide (f.(Scope) = "") then r.(rule_Scope) else f.(Scope))
    (match f.(ClusterID) with
     | Some c => Some c
     | None => if negb (s.(snap_ClusterID) =? 0) then Some s.(snap_ClusterID) else None
     end)
    (match f.(InstanceID) with Some i => Some i | None => Some s.(snap_InstanceID) end)
    f.(Datname) f.(ObjectName) f.(Title) f.(Detail) f.(Remediation) f.(Evidence) f.(DegradedReason) in
  if decide (ID f = r.(rule_ID) +:+ "/") then
    mkFinding f.(RuleID) f.(Severity) f.(State) f.(Scope) f.(ClusterID) f.(InstanceID) f.(Datname) (uuid_String id)
      f.(Title) f.(Detail) f.(Remediation) f.(Evidence) f.(DegradedReason)
  else f.

(** Store the findings of one rule: the identifiers seen and the errors. *)
Fixpoint store_findings (r : Rule) (s : Snapshot) (id : UUID) (now : Time) (fs : list Finding) : AM (list string * list adv_error) :=
  match fs with
  | [] => mret ([], [])
  | f :: fs =>
      let f := complete r s id f in
      err ← UpsertFinding f now;
      '(seen, errs) ← store_findings r s id now fs;
      mret (ID f :: seen, match err with Some e => AdvPersist (ID f) e :: errs | None => errs end)
  end.

(** Every rule on one snapshot: the rules that gave an answer, what was seen, the errors. *)
Fixpoint rule_loop (s : Snapshot) (id : UUID) (now : Time) (rs : list Rule) : AM (list string * list string * list adv_error) :=
  match rs with
  | [] => mret ([], [], [])
  | r :: rs =>
      let '(fs, panicked) := evaluateRule r s in
      '(seen, errs) ← store_findings r s id now fs;
      '(ran', seen', errs') ← rule_loop s id now rs;
      mret (if panicked || degradedAsWhole fs then ran' else r.(rule_ID) :: ran', seen ++ seen', errs ++ errs')
  end.

Definition runInstance (id : UUID) (now : Time) : AM (list adv_error) :=
  match load id now with
  | inl e => mret [AdvLoad id e]
  | inr s =>
      '(ran, seen, errs) ← rule_loop s id now (All rules);
      err ← store_ResolveAbsent s.(snap_InstanceID) ran seen now;
      mret (errs ++ match err with Some e => [AdvResolve e] | None => [] end)
  end.

(** The instances of a pass; [inl] leaves it. *)
Fixpoint instance_loop (ids : list UUID) (now : Time) (errs : list adv_error) : AM (list adv_error + list adv_error) :=
  match ids with
  | [] => mret (inr errs)
  | id :: ids =>
      es ← runInstance id now;
      let errs := errs ++ es in
      s ← next_stop;
      match s with
      | GoOn => instance_loop ids now errs
      | CtxDone e => mret (inl (errs ++ [AdvCtx e]))
      | StopRequested => mret (inl errs)
      end
  end.

Definition finish_pass (now : Time) (errs : list adv_error) : AM (list adv_error) :=
  err ← exec (SResolveUnseen (Add now (- unseenInstanceGrace)) now);
  let errs := errs ++ match err with Some e => [AdvUnseen e] | None => [] end in
  err ← exec (SPurge (Add now (- advisorRetention)));
  mret (errs ++ match err with Some e => [AdvPurge e] | None => [] end).

Definition Run : AM (list adv_error) :=
  if env.(no_store) then mret []
  else
  err ← ensureLeader;
  match err with
  | Some e => mret [e]
  | None =>
      e ← get_engine;
      if negb e.(hasLock) then mret []
      else
        let now := env.(now_) in
        match env.(active_outcome) with
        | Failed _ e => mret [AdvActive e]
        | Done =>
            m ← get;
            r ← instance_loop (ActiveInstances (Add now (- Hour)) m.(a_db)) now [];
            match r with
            | inl errs => mret errs
            | inr errs => finish_pass now errs
            end
        end
  end.

(** One pass of an engine on the tables: the errors, the engine and the tables after it. *)
Definition run_pass (e : Engine) (db : DB) : list adv_error * Engine * DB :=
  let '(errs, m) := Run (mkAMach e db env.(outcomes) env.(stops)) in
  (errs, m.(a_eng), m.(a_db)).
End pass.

(** ** Mutes (internal/server/api_findings.go)

    A request to a finding's mute: [mute_action] is whether the path names one, [body] what
    the JSON body decodes to (reason and until), [parse] is [time.Parse] with RFC 3339. The
    reply is the status. *)
Definition maxFindingMuteDuration : Duration := 90 * 24 * Hour.

(** An [UPDATE] of one finding: its error, or whether it found the row. *)
Definition update_one (q : stmt) (id : string) (out : outcome) (db : DB) : Z * DB :=
  match out with
  | Failed applied _ => (500, if applied then apply_stmt q db else db)
  | Done => (if decide (is_Some (db.(findings) !! id)) then 200 else 404, apply_stmt q db)
  end.

Definition muteFinding (mute_action has_pool : bool) (body : option (string * string)) (parse : string → option Time)
    (now : Time) (id : string) (out : outcome) (db : DB) : Z * DB :=
  if negb mute_action then (404, db)
  else if negb has_pool then (503, db)
  else
    match body with
    | None => (400, db)
    | Some (reason, until) =>
        if all_space (str reason) || bool_decide (until = "") then (400, db)
        else
          match parse until with
          | None => (400, db)
          | Some until =>
              if negb (After until now) then (400, db)
              else if After until (Add now maxFindingMuteDuration) then (400, db)
              else update_one (SMute id until reason) id out db
          end
    end.

Definition unmuteFinding (mute_action has_pool : bool) (id : string) (out : outcome) (db : DB) : Z * DB :=
  if negb mute_action then (404, db)
  else if negb has_pool then (503, db)
  else
    let '(code, db) := update_one (SUnmute id) id out db in
    (if code =? 200 then 204 else code, db).
End store.

(** ** What a pass does to the tables

    The statements of a pass do not depend on how the earlier ones ended: a pass runs part of
    its plan, and all of it when every statement succeeds and nobody asks it to stop. *)

Section plans.
Context `{UuidText}.

Definition apply_all (qs : list stmt) (db : DB) : DB := foldl (λ db q, apply_stmt q db) db qs.

Lemma apply_all_app qs qs' db : apply_all (qs ++ qs') db = apply_all qs' (apply_all qs db).
Proof. apply foldl_app. Qed.

Definition quiet (m : amach) : Prop := m.(a_out) = [] ∧ m.(a_stops) = [].

Definition performs {A} (c : ST amach A) (plan : list stmt) : Prop := ∀ m,
  (c m).2.(a_eng) = m.(a_eng) ∧
  ∃ qs, qs `sublist_of` plan ∧ (c m).2.(a_db) = apply_all qs m.(a_db) ∧ (quiet m → qs = plan ∧ quiet (c m).2).

Lemma performs_ret {A} (a : A) : performs (mret a) [].
Proof. intros m. split; [done|]. by exists []. Qed.

Lemma performs_bind {A B} (c : ST amach A) (f : A → ST amach B) p1 p2 :
  performs c p1 → (∀ m, performs (f (c m).1) p2) → performs (c ≫= f) (p1 ++ p2).
Proof.
  intros Hc Hf m. rewrite bind_run. destruct (Hc m) as (E1 & q1 & S1 & D1 & Q1).
  destruct (Hf m (c m).2) as (E2 & q2 & S2 & D2 & Q2). split; [congruence|].
  exists (q1 ++ q2). split; [by apply sublist_app|]. split; [by rewrite D2, D1, apply_all_app|].
  intros Hq. destruct (Q1 Hq) as [-> Hq']. by destruct (Q2 Hq') as [-> ?].
Qed.

(** A last step that only computes. *)
Lemma performs_map {A B} (c : ST amach A) (f : A → ST amach B) p :
  performs c p → (∀ m, performs (f (c m).1) []) → performs (c ≫= f) p.
Proof. intros Hc Hf. rewrite <- (app_nil_r p). by apply performs_bind. Qed.

Lemma performs_exec q : performs (exec q) [q].
Proof.
  intros m. unfold exec. destruct m as [e db [|[|[] er] out] ss]; cbn; (split; [done|]).
  - by exists [q].
  - exists [q]. split_and!; [done|done|]. by intros [? _].
  - exists [q]. split_and!; [done|done|]. by intros [? _].
  - exists []. split_and!; [apply sublist_nil_l|done|]. by intros [? _].
Qed.

Lemma performs_refuse er : performs (refuse er) [].
Proof.
  intros m. split; [done|]. exists []. split_and!; [done|done|]. intros [Ho Hs].
  split; [done|]. unfold refuse, quiet. cbn. by rewrite Ho.
Qed.

Definition storable (f : Finding) : bool := evidence_encodes f.(Evidence) && row_checks f.

Lemma performs_Upsert f now : performs (UpsertFinding f now) (if storable f then [SUpsert f now] else []).
Proof.
  unfold UpsertFinding, storable. destruct (evidence_encodes _); cbn; [|apply performs_ret].
  destruct (row_checks f); [apply performs_exec|apply performs_refuse].
Qed.

(** ** The plan of one instance *)

Definition answered (r : Rule) (s : Snapshot) : bool :=
  negb ((evaluateRule r s).2 || degradedAsWhole (evaluateRule r s).1).

Definition ran_of (s : Snapshot) (rs : list Rule) : list string := rule_ID <$> filter (λ r, answered r s = true) rs.

Definition completed (s : Snapshot) (id : UUID) (r : Rule) : list Finding := complete r s id <$> (evaluateRule r s).1.

Definition reports (s : Snapshot) (id : UUID) (rs : list Rule) : list Finding := concat (completed s id <$> rs).

Definition upserts (now : Time) (fs : list Finding) : list stmt := (λ f, SUpsert f now) <$> filter (λ f, storable f = true) fs.

Lemma upserts_app now fs fs' : upserts now (fs ++ fs') = upserts now fs ++ upserts now fs'.
Proof. unfold upserts. by rewrite filter_app, fmap_app. Qed.

Lemma upserts_cons now f fs : upserts now (f :: fs) = (if storable f then [SUpsert f now] else []) ++ upserts now fs.
Proof. unfold upserts. rewrite filter_cons. by destruct (storable f). Qed.

Lemma store_findings_seen r s id now fs m : (store_findings r s id now fs m).1.1 = ID <$> (complete r s id <$> fs).
Proof.
  revert m. induction fs as [|f fs IH]; intros m; [done|]. cbn [store_findings]. rewrite !bind_run.
  specialize (IH (UpsertFinding (complete r s id f) now m).2).
  destruct (store_findings r s id now fs _) as [[seen errs] m']. cbn in *. by rewrite IH.
Qed.

Lemma performs_store_findings r s id now fs : performs (store_findings r s id now fs) (upserts now (complete r s id <$> fs)).
Proof.
  induction fs as [|f fs IH]; [apply performs_ret|]. cbn [store_findings]. rewrite fmap_cons, upserts_cons.
  apply performs_bind; [apply performs_Upsert|]. intros m0. apply performs_map; [exact IH|].
  intros m. destruct (store_findings r s id now fs m).1. apply performs_ret.
Qed.

Lemma ran_of_cons s r rs : ran_of s (r :: rs) = if answered r s then rule_ID r :: ran_of s rs else ran_of s rs.
Proof. unfold ran_of. rewrite filter_cons. by destruct (answered r s). Qed.

Lemma reports_cons s id r rs : reports s id (r :: rs) = completed s id r ++ reports s id rs.
Proof. done. Qed.

Lemma rule_loop_result s id now rs m :
  (rule_loop s id now rs m).1.1 = (ran_of s rs, ID <$> reports s id rs).
Proof.
  revert m. induction rs as [|r rs IH]; intros m; [done|]. cbn [rule_loop].
  rewrite ran_of_cons, reports_cons. unfold answered, completed.
  destruct (evaluateRule r s) as [fs panicked]. cbn [fst snd].
  rewrite bind_run. pose proof (store_findings_seen r s id now fs m) as Hs.
  destruct (store_findings r s id now fs m) as [[seen errs] m1]. cbn in Hs. subst seen. cbn [fst snd].
  rewrite bind_run. specialize (IH m1). destruct (rule_loop s id now rs m1) as [[[ran' seen'] errs'] m2]. cbn in IH.
  injection IH as -> ->. cbn. rewrite fmap_app. f_equal. by destruct (panicked || degradedAsWhole fs).
Qed.

Lemma performs_rule_loop s id now rs : performs (rule_loop s id now rs) (upserts now (reports s id rs)).
Proof.
  induction rs as [|r rs IH]; [apply performs_ret|]. cbn [rule_loop].
  rewrite reports_cons, upserts_app. unfold completed.
  destruct (evaluateRule r s) as [fs panicked]. cbn [fst].
  apply performs_bind; [apply performs_store_findings|]. intros m.
  destruct (store_findings r s id now fs m).1. apply performs_map; [exact IH|].
  intros m'. destruct (rule_loop s id now rs m').1 as [[]]. apply performs_ret.
Qed.

Section pass.
Context (load : UUID → Time → error + Snapshot) (rules : registry).

Definition instance_plan (now : Time) (id : UUID) : list stmt :=
  match load id now with
  | inl _ => []
  | inr s =>
      upserts now (reports s id (All rules)) ++
      match ran_of s (All rules) with
      | [] => []
      | ran => [SResolveAbsent s.(snap_InstanceID) ran (ID <$> reports s id (All rules)) now]
      end
  end.

Lemma performs_runInstance id now : performs (runInstance load rules id now) (instance_plan now id).
Proof.
  unfold runInstance, instance_plan. destruct (load id now) as [e|s]; [apply performs_ret|].
  apply performs_bind; [apply performs_rule_loop|]. intros m.
  pose proof (rule_loop_result s id now (All rules) m) as Hr.
  destruct (rule_loop s id now (All rules) m).1 as [[ran seen] errs]. cbn in Hr. injection Hr as -> ->.
  apply performs_map; [|intros m'; apply performs_ret].
  unfold store_ResolveAbsent. destruct (ran_of s (All rules)); [apply performs_ret|apply performs_exec].
Qed.

Definition active_ids (now : Time) (db : DB) : list UUID := ActiveInstances (Add now (- Hour)) db.

Definition instances_plan (now : Time) (ids : list UUID) : list stmt := concat (instance_plan now <$> ids).

Lemma performs_next_stop : performs next_stop [].
Proof.
  intros m. unfold next_stop. destruct m as [e db out [|s ss]]; cbn; (split; [done|]).
  - by exists [].
  - exists []. split_and!; [done|done|]. by intros [_ ?].
Qed.

Lemma sublist_nil_app {A} (l k : list A) : [] `sublist_of` l ++ k.
Proof. apply sublist_nil_l. Qed.

Lemma performs_instance_loop ids now errs :
  performs (instance_loop load rules ids now errs) (instances_plan now ids) ∧
  ∀ m, quiet m → ∃ es, (instance_loop load rules ids now errs m).1 = inr es.
Proof.
  revert errs. induction ids as [|id ids IH]; intros errs; [by split; [apply performs_ret|eauto]|].
  cbn [instance_loop]. split.
  - intros m. rewrite bind_run. destruct (performs_runInstance id now m) as (E1 & q1 & S1 & D1 & Q1).
    destruct (runInstance load rules id now m) as [es m1]. cbn in *.
    rewrite bind_run. destruct (performs_next_stop m1) as (E2 & q2 & S2 & D2 & Q2).
    apply sublist_nil_r in S2 as ->. cbn in D2.
    destruct (next_stop m1) as [st m2] eqn:Es. cbn in *.
    destruct st; cbn.
    + destruct (IH (errs ++ es)) as [HI _]. destruct (HI m2) as (E3 & q3 & S3 & D3 & Q3).
      split; [congruence|]. exists (q1 ++ q3). unfold instances_plan. cbn. split; [by apply sublist_app|].
      split; [by rewrite D3, D2, D1, apply_all_app|].
      intros Hq. destruct (Q1 Hq) as [-> Hq1]. destruct (Q2 Hq1) as [_ Hq2]. by destruct (Q3 Hq2) as [-> ?].
    + split; [congruence|]. exists q1. split; [by apply sublist_inserts_r|]. split; [congruence|].
      intros Hq. destruct (Q1 Hq) as [_ [_ Hs]]. unfold next_stop in Es. by rewrite Hs in Es.
    + split; [congruence|]. exists q1. split; [by apply sublist_inserts_r|]. split; [congruence|].
      intros Hq. destruct (Q1 Hq) as [_ [_ Hs]]. unfold next_stop in Es. by rewrite Hs in Es.
  - intros m Hq. rewrite bind_run. destruct (performs_runInstance id now m) as (_ & q1 & _ & _ & Q1).
    destruct (Q1 Hq) as [_ Hq1]. destruct (runInstance load rules id now m) as [es m1]. cbn in *.
    rewrite bind_run. assert (next_stop m1 = (GoOn, m1)) as -> by (unfold next_stop; destruct Hq1 as [_ ->]; done). cbn.
    by apply IH.
Qed.

Definition pass_plan (now : Time) (db : DB) : list stmt :=
  instances_plan now (active_ids now db) ++ [SResolveUnseen (Add now (- unseenInstanceGrace)) now; SPurge (Add now (- advisorRetention))].

Lemma performs_finish_pass now errs :
  performs (finish_pass now errs) [SResolveUnseen (Add now (- unseenInstanceGrace)) now; SPurge (Add now (- advisorRetention))].
Proof.
  unfold finish_pass. apply (performs_bind _ _ [_] [_]); [apply performs_exec|]. intros m.
  apply performs_map; [apply performs_exec|]. intros m'. apply performs_ret.
Qed.

(** ** The effect of a pass *)

(** What [ensureLeader] answers, and the engine it leaves. *)
Definition lead (env : answers) (e : Engine) : option adv_error * Engine :=
  let '(err, m) := ensureLeader env (mkAMach e (mkDB ∅ ∅) [] []) in (err, m.(a_eng)).

(** Whether a pass gets to its instances. *)
Definition in_charge (env : answers) (e : Engine) : bool :=
  negb env.(no_store) &&
  match lead env e with (None, e') => e'.(hasLock) | _ => false end &&
  match env.(active_outcome) with Done => true | _ => false end.

Lemma ensureLeader_frame env m :
  ensureLeader env m = ((lead env m.(a_eng)).1, mkAMach (lead env m.(a_eng)).2 m.(a_db) m.(a_out) m.(a_stops)).
Proof.
  destruct m as [[c l] db out ss]. unfold lead, ensureLeader, try_lock, releaseLeaderConn.
  destruct (override env) as [[? ?]|]; [done|]. destruct (no_pool env); [done|].
  destruct c, l, (conn_closed env), (ping_ok env), (acquire env), (try_lock_reply env) as [| |[]]; reflexivity.
Qed.

Lemma run_pass_effect env e db :
  if in_charge env e then
    ∃ qs, qs `sublist_of` pass_plan env.(now_) db ∧ (run_pass load rules env e db).2 = apply_all qs db ∧
      (env.(outcomes) = [] → env.(stops) = [] → qs = pass_plan env.(now_) db)
  else (run_pass load rules env e db).2 = db.
Proof.
  unfold in_charge, run_pass, Run. destruct (no_store env); [done|]. cbn [negb andb].
  rewrite bind_run, ensureLeader_frame. cbn [a_eng a_db a_out a_stops fst snd].
  destruct (lead env e) as [[err|] e']; cbn [fst snd andb]; [done|].
  rewrite bind_run. cbn [get_engine fst snd a_eng]. destruct (hasLock e'); cbn [negb andb]; [|done].
  destruct (active_outcome env); [|done]. rewrite bind_run. cbn [get fst snd a_db].
  rewrite bind_run. set (m := mkAMach e' db (outcomes env) (stops env)).
  destruct (performs_instance_loop (ActiveInstances (Add (now_ env) (- Hour)) db) (now_ env) []) as [HP HR].
  destruct (HP m) as (_ & q1 & S1 & D1 & Q1). specialize (HR m).
  destruct (instance_loop load rules _ (now_ env) [] m) as [r m1]. cbn [fst snd] in *.
  fold (active_ids (now_ env) db) in S1. destruct r as [errs|errs].
  - exists q1. split; [by apply sublist_inserts_r|]. split; [done|]. intros Ho Hs.
    destruct (HR (conj Ho Hs)) as [? ?]. done.
  - destruct (performs_finish_pass (now_ env) errs m1) as (_ & q2 & S2 & D2 & Q2).
    destruct (finish_pass (now_ env) errs m1) as [errs' m2]. cbn [fst snd] in *.
    exists (q1 ++ q2). split; [by apply sublist_app|]. split; [by rewrite D2, D1, apply_all_app|].
    intros Ho Hs. destruct (Q1 (conj Ho Hs)) as [-> Hq]. by destruct (Q2 Hq) as [-> _].
Qed.
End pass.
End plans.

Ltac durations :=
  unfold Add, advisorRetention, unseenInstanceGrace, maxFindingMuteDuration, Hour, Minute, Second, Millisecond, Microsecond, Nanosecond in *.

(** ** The invariant of the findings table *)

Section table.
Context `{UuidTextLaws}.

(** The subject a row is about, as a finding. *)
Definition row_finding (r : Row) : Finding :=
  mkFinding r.(row_rule) r.(row_severity) r.(row_state) r.(row_scope) r.(row_cluster) r.(row_instance) r.(row_datname) r.(row_object)
    r.(row_title) r.(row_detail) r.(row_remediation) r.(row_evidence) (default "" r.(row_degraded)).

Definition state_ok (r : Row) : Prop :=
  (r.(row_state) = StateResolved ∧ is_Some r.(row_resolved_at)) ∨
  (r.(row_state) ∈ [StateOpen; StateDegraded] ∧ r.(row_resolved_at) = None) ∨
  (r.(row_state) = StateMuted ∧ is_Some r.(row_muted_until)).

(** A row is stored under the identifier of what it is about, names its instance, and its
    state agrees with the times it holds. *)
Definition row_ok (k : string) (r : Row) : Prop :=
  k = ID (row_finding r) ∧ is_Some r.(row_instance) ∧ no_byte "/"%char r.(row_rule) ∧ state_ok r.

Definition table_ok (db : DB) : Prop := map_Forall row_ok db.(findings).

(** What the statements of the program have in common. *)
Definition issued (q : stmt) : Prop :=
  match q with
  | SUpsert f _ => is_Some f.(InstanceID) ∧ no_byte "/"%char f.(RuleID) ∧ f.(State) ∈ [StateOpen; StateDegraded]
  | _ => True
  end.

Lemma ID_same f g :
  f.(RuleID) = g.(RuleID) → f.(InstanceID) = g.(InstanceID) → f.(ClusterID) = g.(ClusterID) →
  f.(Datname) = g.(Datname) → f.(ObjectName) = g.(ObjectName) → ID f = ID g.
Proof. unfold ID. by intros -> -> -> -> ->. Qed.

Lemma set_state_ok k st t r : row_ok k r → state_ok (set_state st t r) → row_ok k (set_state st t r).
Proof.
  intros (Hk & Hi & Hr & _) Hs. unfold row_ok. split_and!; [|done..].
  rewrite Hk. by apply ID_same.
Qed.

Lemma set_mute_ok k st u reason r : row_ok k r → state_ok (set_mute st u reason r) → row_ok k (set_mute st u reason r).
Proof.
  intros (Hk & Hi & Hr & _) Hs. unfold row_ok. split_and!; [|done..].
  rewrite Hk. by apply ID_same.
Qed.

Lemma resolve_ok k now r : row_ok k r → row_ok k (resolve now r).
Proof. intros Hr. apply set_state_ok; [done|]. left. by split; [|eexists]. Qed.

Lemma upsert_row_ok f now old :
  issued (SUpsert f now) → (∀ o, old = Some o → row_ok (ID f) o) → row_ok (ID f) (upsert_row f now old).
Proof.
  intros (Hi & Hr & Hs) Hold. unfold row_ok. split_and!; [by apply ID_same|done|done|].
  unfold state_ok, upsert_row; cbn. destruct old as [o|]; cbn; [|by right; left].
  destruct (muted_after _ now) eqn:Em; [|by right; left].
  right; right. split; [done|]. unfold muted_after in Em. by destruct (row_muted_until o); [eexists|].
Qed.

Lemma lookup_update_rows p g m k : update_rows p g m !! k = (λ r, if p k r then g r else r) <$> m !! k.
Proof. unfold update_rows. rewrite map_lookup_imap. by destruct (m !! k). Qed.

Lemma update_rows_ok p g m : (∀ k r, row_ok k r → row_ok k (g r)) → map_Forall row_ok m → map_Forall row_ok (update_rows p g m).
Proof.
  intros Hg Hm k r. rewrite lookup_update_rows, fmap_Some. intros (r0 & Hr0 & ->).
  specialize (Hm k r0 Hr0). destruct (p k r0); auto.
Qed.

Lemma alter_ok g k0 (m : gmap string Row) : (∀ k r, row_ok k r → row_ok k (g r)) → map_Forall row_ok m → map_Forall row_ok (alter g k0 m).
Proof.
  intros Hg Hm k r. destruct (decide (k0 = k)) as [->|Hk].
  - rewrite lookup_alter_eq, fmap_Some. intros (r0 & Hr0 & ->). by apply Hg, Hm.
  - rewrite lookup_alter_ne by done. apply Hm.
Qed.

Lemma apply_stmt_ok q db : issued q → table_ok db → table_ok (apply_stmt q db).
Proof.
  intros Hq Hdb. destruct q; cbn.
  - intros k r. cbn. destruct (decide (ID f = k)) as [<-|Hk].
    + rewrite lookup_partial_alter_eq. intros [= <-]. apply upsert_row_ok; [done|]. intros o Ho. by apply Hdb.
    + rewrite lookup_partial_alter_ne by done. apply Hdb.
  - apply update_rows_ok; [|done]. intros k r. apply resolve_ok.
  - apply update_rows_ok; [|done]. intros k r. apply resolve_ok.
  - intros k r. cbn. intros [Hr _]%map_lookup_filter_Some. by apply Hdb.
  - apply alter_ok; [|done]. intros k r Hr. apply set_mute_ok; [done|]. right; right. by split; [|eexists].
  - apply alter_ok; [|done]. intros k r Hr. apply set_mute_ok; [done|]. unfold state_ok; cbn.
    destruct (row_resolved_at r); [left; by split; [|eexists]|right; left; set_solver].
  - done.
Qed.

(** ** The statements of a pass *)

(** What the engine takes for granted of a registered rule. *)
Class RulesLaws (rules : registry) : Prop := {
  rules_registered : registry_ok rules;
  rules_no_slash k r : rules !! k = Some r → no_byte "/"%char k;
  rules_findings k r s fs f : rules !! k = Some r → rule_Evaluate r s = Some fs → f ∈ fs →
    f.(RuleID) ∈ [""; k] ∧ f.(InstanceID) = None ∧ f.(State) ∈ [StateOpen; StateDegraded];
}.

Context (load : UUID → Time → error + Snapshot) (rules : registry) `{!RulesLaws rules}.
Hypothesis load_own : ∀ i t s, load i t = inr s → s.(snap_InstanceID) = i.

Lemma check_needs_finding r s needs f : check_needs r s needs = Some f →
  f.(RuleID) = r.(rule_ID) ∧ f.(InstanceID) = None ∧ f.(State) = StateDegraded.
Proof. induction needs as [|n ns IH]; cbn; [done|]. destruct (missingSnapshotInput s n); [by intros [= <-]|done]. Qed.

Lemma evaluateRule_findings k r s f : rules !! k = Some r → f ∈ (evaluateRule r s).1 →
  f.(RuleID) ∈ [""; k] ∧ f.(InstanceID) = None ∧ f.(State) ∈ [StateOpen; StateDegraded].
Proof.
  intros Hr. pose proof (rules_registered k r Hr) as Hk. unfold evaluateRule.
  destruct (_ <? _); [by intros ->%list_elem_of_singleton; cbn; rewrite Hk; set_solver|].
  destruct (check_needs r s (rule_Needs r)) eqn:En.
  - intros ->%list_elem_of_singleton. apply check_needs_finding in En as (-> & -> & ->). rewrite Hk. set_solver.
  - destruct (rule_Evaluate r s) as [fs|] eqn:Ee.
    + intros Hf. by eapply rules_findings.
    + intros ->%list_elem_of_singleton. cbn. rewrite Hk. set_solver.
Qed.

Lemma complete_fields r s id f :
  RuleID (complete r s id f) = (if decide (f.(RuleID) = "") then r.(rule_ID) else f.(RuleID)) ∧
  InstanceID (complete r s id f) = (match f.(InstanceID) with Some i => Some i | None => Some s.(snap_InstanceID) end) ∧
  State (complete r s id f) = f.(State).
Proof. unfold complete. by destruct (decide (ID _ = _)). Qed.

Lemma reports_spec i t s f : load i t = inr s → f ∈ reports s i (All rules) →
  is_Some (rules !! f.(RuleID)) ∧ f.(InstanceID) = Some i ∧ f.(State) ∈ [StateOpen; StateDegraded].
Proof.
  intros Hl Hf. apply list_elem_of_concat in Hf as (fs & Hf & Hfs). apply list_elem_of_fmap in Hfs as (r & -> & Hr).
  apply elem_of_All in Hr; [|apply rules_registered].
  apply list_elem_of_fmap in Hf as (f0 & -> & Hf0).
  destruct (evaluateRule_findings _ _ _ _ Hr Hf0) as (H1 & H2 & H3).
  destruct (complete_fields r s i f0) as (-> & -> & ->). rewrite H2, (load_own i t s Hl). split_and!; [|done|done].
  case_decide as Hd; [by eexists|]. assert (f0.(RuleID) = r.(rule_ID)) as -> by set_solver. by eexists.
Qed.

Lemma elem_of_upserts now fs q : q ∈ upserts now fs ↔ ∃ f, q = SUpsert f now ∧ f ∈ fs ∧ storable f = true.
Proof.
  unfold upserts. rewrite list_elem_of_fmap. split.
  - intros (f & -> & Hf). apply list_elem_of_filter in Hf as [? ?]. by exists f.
  - intros (f & -> & ? & ?). exists f. split; [done|]. by apply list_elem_of_filter.
Qed.

(** The statements a pass may run. *)
Inductive pass_stmt (now : Time) (ids : list UUID) : stmt → Prop :=
| ps_upsert i s f : i ∈ ids → load i now = inr s → f ∈ reports s i (All rules) → storable f = true → pass_stmt now ids (SUpsert f now)
| ps_absent i s : i ∈ ids → load i now = inr s →
    pass_stmt now ids (SResolveAbsent i (ran_of s (All rules)) (ID <$> reports s i (All rules)) now)
| ps_unseen : pass_stmt now ids (SResolveUnseen (Add now (- unseenInstanceGrace)) now)
| ps_purge : pass_stmt now ids (SPurge (Add now (- advisorRetention))).

Lemma pass_plan_stmts now db q : q ∈ pass_plan load rules now db → pass_stmt now (active_ids now db) q.
Proof.
  unfold pass_plan. intros [Hq|Hq]%elem_of_app.
  - apply list_elem_of_concat in Hq as (p & Hq & Hp). apply list_elem_of_fmap in Hp as (i & -> & Hi).
    unfold instance_plan in Hq. destruct (load i now) as [|s] eqn:Hl; [by apply elem_of_nil in Hq|].
    apply elem_of_app in Hq as [Hq|Hq].
    + apply elem_of_upserts in Hq as (f & -> & Hf & Hst). by eapply ps_upsert.
    + destruct (ran_of s (All rules)) eqn:Hran; [by apply elem_of_nil in Hq|].
      apply list_elem_of_singleton in Hq as ->. rewrite <- Hran, (load_own i now s Hl). by apply ps_absent.
  - apply elem_of_cons in Hq as [->|Hq]; [constructor|]. apply list_elem_of_singleton in Hq as ->. constructor.
Qed.

Lemma pass_stmt_issued now ids q : pass_stmt now ids q → issued q.
Proof.
  intros [i s f Hi Hl Hf Hst| | |]; try done. destruct (reports_spec i now s f Hl Hf) as ([r Hr] & Hfi & Hfs). cbn.
  split_and!; [by rewrite Hfi; eexists|by eapply rules_no_slash|done].
Qed.

Lemma pass_stmt_instances now ids q db : pass_stmt now ids q → instances (apply_stmt q db) = instances db.
Proof. by intros []. Qed.

(** ** What one statement of a pass does to one row *)

Definition cause_absent (now : Time) (ids : list UUID) (i : UUID) (k : string) (r : Row) : Prop :=
  ∃ s, i ∈ ids ∧ load i now = inr s ∧ r.(row_rule) ∈ ran_of s (All rules) ∧ k ∉ ID <$> reports s i (All rules).

Definition quiet_since (db : DB) (before : Time) (i : UUID) : Prop :=
  match db.(instances) !! i with Some t => t < before | None => True end.

Inductive effect (now : Time) (ids : list UUID) (db : DB) (i : UUID) (k : string) (r : Row) : stmt → option Row → Prop :=
| eff_none q : effect now ids db i k r q (Some r)
| eff_upsert s f : i ∈ ids → load i now = inr s → f ∈ reports s i (All rules) → ID f = k →
    effect now ids db i k r (SUpsert f now) (Some (upsert_row f now (Some r)))
| eff_absent q : active_state r.(row_state) = true → cause_absent now ids i k r →
    effect now ids db i k r q (Some (resolve now r))
| eff_unseen q : active_state r.(row_state) = true → quiet_since db (Add now (- unseenInstanceGrace)) i →
    effect now ids db i k r q (Some (resolve now r))
| eff_purge q : expired (Add now (- advisorRetention)) r = true → effect now ids db i k r q None.

Lemma stmt_effect now ids q db k r i :
  pass_stmt now ids q → row_ok k r → r.(row_instance) = Some i → findings db !! k = Some r →
  effect now ids db i k r q (findings (apply_stmt q db) !! k).
Proof.
  intros Hq (Hk & _ & Hrule & _) Hi Hr. destruct Hq as [j s f Hj Hl Hf Hst|j s Hj Hl| |]; cbn.
  - destruct (decide (ID f = k)) as [Ek|Hne].
    + rewrite <- Ek, lookup_partial_alter_eq, Ek, Hr. destruct (reports_spec j now s f Hl Hf) as ([r0 Hr0] & Hfi & _).
      destruct (ID_inj f (row_finding r) j i) as (_ & -> & _); [done|done|by eapply rules_no_slash|done|congruence|].
      by eapply eff_upsert.
    + rewrite lookup_partial_alter_ne, Hr by done. constructor.
  - rewrite lookup_update_rows, Hr. cbn. destruct (absent j _ _ k r) eqn:Ea; [|constructor].
    unfold absent in Ea. apply andb_prop in Ea as [Ea En]. apply andb_prop in Ea as [Ea Er]. apply andb_prop in Ea as [Ei Ea].
    apply bool_decide_eq_true in Ei, Er. apply negb_true_iff, bool_decide_eq_false in En.
    assert (j = i) as -> by congruence. apply eff_absent; [done|]. by exists s.
  - rewrite lookup_update_rows, Hr. cbn. destruct (unseen _ _ r) eqn:Eu; [|constructor].
    unfold unseen in Eu. rewrite Hi in Eu. apply andb_prop in Eu as [Ea Eu]. apply eff_unseen; [done|].
    unfold quiet_since. destruct (instances db !! i); [by apply Z.ltb_lt|done].
  - rewrite map_lookup_filter, Hr. cbn. case_guard as Hg; cbn; [constructor|].
    apply eff_purge. by apply not_false_iff_true.
Qed.

Lemma effect_row now ids db i k r q r' :
  row_ok k r → r.(row_instance) = Some i → effect now ids db i k r q (Some r') →
  r'.(row_instance) = Some i ∧ r'.(row_rule) = r.(row_rule).
Proof.
  intros (Hk & _ & Hrule & _) Hi Heff. inversion Heff as [|s f Hids Hl Hf Ek| | |]; subst; try done. cbn.
  destruct (reports_spec i now s f Hl Hf) as ([r0 Hr0] & Hfi & _). split; [done|].
  apply (ID_inj f (row_finding r) i i); [done|done|by eapply rules_no_slash|done|congruence].
Qed.

(** Follow one row through the statements of a pass. *)
Lemma apply_all_row (Q : Row → Prop) now ids db0 i k :
  (∀ q r o, Q r → row_ok k r → effect now ids db0 i k r q o → ∃ r', o = Some r' ∧ Q r') →
  ∀ qs db r, Forall (pass_stmt now ids) qs → table_ok db → instances db = instances db0 →
    findings db !! k = Some r → r.(row_instance) = Some i → Q r →
    ∃ r', findings (apply_all qs db) !! k = Some r' ∧ r'.(row_instance) = Some i ∧ r'.(row_rule) = r.(row_rule) ∧ Q r'.
Proof.
  intros HQ qs. induction qs as [|q qs IH]; intros db r Hqs Hok Hins Hr Hi HQr; [by exists r|].
  apply Forall_cons in Hqs as [Hq Hqs]. cbn. pose proof (Hok k r Hr) as Hrow.
  pose proof (stmt_effect now ids q db k r i Hq Hrow Hi Hr) as Heff.
  assert (effect now ids db0 i k r q (findings (apply_stmt q db) !! k)) as Heff0.
  { destruct Heff; try (econstructor; by eauto). apply eff_unseen; [done|]. unfold quiet_since. by rewrite <- Hins. }
  destruct (HQ q r _ HQr Hrow Heff0) as (r1 & Hr1 & HQ1). rewrite Hr1 in Heff0.
  destruct (effect_row _ _ _ _ _ _ _ _ Hrow Hi Heff0) as [Hi1 Hrule1]. rewrite <- Hrule1.
  apply IH; [done| |by rewrite (pass_stmt_instances now ids)|done|done|done].
  apply apply_stmt_ok; [by eapply pass_stmt_issued|done].
Qed.

Definition resolved_in (now : Time) (r : Row) : Prop := r.(row_state) = StateResolved ∧ r.(row_resolved_at) = Some now.

Lemma resolved_not_expired now r : resolved_in now r → expired (Add now (- advisorRetention)) r = false.
Proof.
  intros [E1 E2]. unfold expired. rewrite E2. apply andb_false_intro2. apply Z.ltb_ge.
  durations. lia.
Qed.

Lemma active_not_expired before r : active_state r.(row_state) = true → expired before r = false.
Proof.
  unfold active_state, expired. intros Ha%bool_decide_eq_true. apply andb_false_intro1, bool_decide_eq_false.
  intros E. rewrite E in Ha. set_solver.
Qed.

Lemma upsert_active f now old : f.(State) ∈ [StateOpen; StateDegraded] → active_state (upsert_row f now old).(row_state) = true.
Proof.
  intros Hf. apply bool_decide_eq_true. cbn. destruct old as [o|]; [destruct (muted_after _ now)|]; set_solver.
Qed.

Lemma pass_stmts now db qs : qs `sublist_of` pass_plan load rules now db → Forall (pass_stmt now (active_ids now db)) qs.
Proof.
  intros Hs. apply Forall_forall. intros q Hq. apply pass_plan_stmts. by eapply elem_of_sublist.
Qed.

Lemma active_ids_seen now db i : i ∈ active_ids now db → ¬ quiet_since db (Add now (- unseenInstanceGrace)) i.
Proof.
  unfold active_ids, ActiveInstances. rewrite elem_of_sort_slice, list_elem_of_fmap.
  intros ([j t] & -> & [Ht Hj]%list_elem_of_filter). apply elem_of_map_to_list in Hj.
  unfold quiet_since. cbn [fst snd] in *.
  match goal with |- ¬ match ?x with _ => _ end => replace x with (Some t) by (symmetry; exact Hj) end. durations. lia.
Qed.

Lemma apply_all_keeps now ids qs db : Forall (pass_stmt now ids) qs → table_ok db →
  table_ok (apply_all qs db) ∧ instances (apply_all qs db) = instances db.
Proof.
  revert db. induction qs as [|q qs IH]; intros db Hqs Hok; [done|]. apply Forall_cons in Hqs as [Hq Hqs].
  change (apply_all (q :: qs) db) with (apply_all qs (apply_stmt q db)).
  destruct (IH (apply_stmt q db)) as [? E]; [done|apply apply_stmt_ok; [by eapply pass_stmt_issued|done]|].
  split; [done|]. rewrite E. by eapply pass_stmt_instances.
Qed.

(** ** Theorems *)

Section one_pass.
Context (env : answers) (e : Engine) (db : DB).
Let now : Time := env.(now_).
Let ids : list UUID := active_ids now db.
Let db' : DB := (run_pass load rules env e db).2.
Hypothesis db_ok : table_ok db.

(** Why a pass may close a finding of an instance: the rule gave an answer on the instance's
    snapshot that does not name it, or the instance has not been seen for a day. *)
Definition may_close (i : UUID) (k : string) (rule : string) : Prop :=
  (∃ s, i ∈ ids ∧ load i now = inr s ∧ rule ∈ ran_of s (All rules) ∧ k ∉ ID <$> reports s i (All rules)) ∨
  quiet_since db (Add now (- unseenInstanceGrace)) i.

Lemma tracked_in_pass (Q : Row → Prop) i k r :
  findings db !! k = Some r → r.(row_instance) = Some i → Q r →
  (∀ q r o, Q r → row_ok k r → effect now ids db i k r q o → ∃ r', o = Some r' ∧ Q r') →
  ∃ r', findings db' !! k = Some r' ∧ r'.(row_instance) = Some i ∧ r'.(row_rule) = r.(row_rule) ∧ Q r'.
Proof.
  intros Hr Hi HQ Hstep. pose proof (run_pass_effect load rules env e db) as Heff.
  destruct (in_charge env e); [|by exists r; unfold db'; rewrite Heff].
  destruct Heff as (qs & Hqs & E & _). unfold db'. rewrite E.
  eapply (apply_all_row Q now ids db); [done|by apply pass_stmts|done..].
Qed.

Lemma closed_only_when_answered k r i :
  findings db !! k = Some r → active_state r.(row_state) = true → r.(row_instance) = Some i →
  ∃ r', findings db' !! k = Some r' ∧ r'.(row_instance) = Some i ∧ r'.(row_rule) = r.(row_rule) ∧
    (active_state r'.(row_state) = true ∨ resolved_in now r' ∧ may_close i k r.(row_rule)).
Proof.
  intros Hr Ha Hi.
  destruct (tracked_in_pass (λ r', r'.(row_instance) = Some i ∧ r'.(row_rule) = r.(row_rule) ∧
    (active_state r'.(row_state) = true ∨ resolved_in now r' ∧ may_close i k r.(row_rule))) i k r) as (r' & ? & ? & ? & _ & _ & ?);
    [done|done|by auto| |by exists r'].
  intros q r1 o (Hi1 & Hrule1 & HQ) Hok Heff.
  destruct o as [r2|].
  2: { inversion Heff as [| | | |? Hexp]; subst. destruct HQ as [Hact|[Hres _]].
       - by rewrite active_not_expired in Hexp.
       - by rewrite (resolved_not_expired now) in Hexp. }
  destruct (effect_row _ _ _ _ _ _ _ _ Hok Hi1 Heff) as [Hi2 Hrule2].
  exists r2. split_and!; [done|done|congruence|].
  inversion Heff as [|s f Hin Hl Hf Ek|? Hact Hc|? Hact Hc|]; subst; [done| |right..].
  - left. apply upsert_active. by apply (reports_spec i now s).
  - split; [done|]. left. destruct Hc as (s & ? & ? & ? & ?). exists s. by rewrite <- Hrule1.
  - split; [done|]. by right.
Qed.

Lemma removed_only_when_old k r :
  findings db !! k = Some r → findings db' !! k = None → expired (Add now (- advisorRetention)) r = true.
Proof.
  intros Hr Hnone. apply not_false_iff_true. intros Hexp. destruct (db_ok k r Hr) as (_ & [i Hi] & _ & _).
  destruct (tracked_in_pass (λ r, expired (Add now (- advisorRetention)) r = false) i k r) as (r' & Hr' & _); [done|done|done| |congruence].
  intros q r1 o Hx Hok Heff. inversion Heff as [|s f Hin Hl Hf Ek| | |]; subst; [by eauto| | | |congruence].
  - eexists; split; [done|]. apply active_not_expired, upsert_active. by apply (reports_spec i now s).
  - eexists; split; [done|]. by apply resolved_not_expired.
  - eexists; split; [done|]. by apply resolved_not_expired.
Qed.

(** ** A pass that nothing disturbs *)

Hypothesis undisturbed : in_charge env e = true ∧ env.(outcomes) = [] ∧ env.(stops) = [].

Lemma undisturbed_pass : db' = apply_all (pass_plan load rules now db) db.
Proof.
  destruct undisturbed as (Hc & Ho & Hs). pose proof (run_pass_effect load rules env e db) as Heff. rewrite Hc in Heff.
  destruct Heff as (qs & _ & E & Hq). unfold db'. by rewrite E, (Hq Ho Hs).
Qed.

Lemma plan_split q : q ∈ pass_plan load rules now db → ∃ A B,
  db' = apply_all B (apply_stmt q (apply_all A db)) ∧ Forall (pass_stmt now ids) A ∧ Forall (pass_stmt now ids) B ∧
  pass_stmt now ids q ∧ table_ok (apply_all A db) ∧ instances (apply_all A db) = instances db.
Proof.
  intros Hq. pose proof (pass_stmts now db _ (reflexivity (pass_plan load rules now db))) as Hall. fold ids in Hall.
  pose proof undisturbed_pass as E.
  apply list_elem_of_split in Hq as (A & B & Hp). rewrite Hp in Hall, E.
  apply Forall_app in Hall as [HA [Hq HB]%Forall_cons]. exists A, B.
  rewrite apply_all_app in E. destruct (apply_all_keeps now ids A db HA db_ok). done.
Qed.

Lemma reported_upsert i s f : i ∈ ids → load i now = inr s → f ∈ reports s i (All rules) → storable f = true →
  SUpsert f now ∈ pass_plan load rules now db.
Proof.
  intros Hi Hl Hf Hst. apply elem_of_app. left. apply list_elem_of_concat. exists (instance_plan load rules now i).
  split; [|by apply list_elem_of_fmap_2]. unfold instance_plan. rewrite Hl. apply elem_of_app. left.
  apply elem_of_upserts. by exists f.
Qed.

(** What a rule reports is in the table after the pass. *)
Lemma reported_is_stored i s f : i ∈ ids → load i now = inr s → f ∈ reports s i (All rules) → storable f = true →
  ∃ r, findings db' !! ID f = Some r ∧ r.(row_instance) = Some i ∧ r.(row_last_seen) = now ∧ r.(row_resolved_at) = None ∧
    active_state r.(row_state) = true.
Proof.
  intros Hi Hl Hf Hst. destruct (plan_split (SUpsert f now)) as (A & B & E & _ & HB & Hq & Hok & Hins); [by eapply reported_upsert|].
  destruct (reports_spec i now s f Hl Hf) as (_ & Hfi & Hfs). rewrite E.
  destruct (apply_all_row (λ r, r.(row_last_seen) = now ∧ r.(row_resolved_at) = None ∧ active_state r.(row_state) = true)
    now ids db i (ID f)) with (qs := B) (db := apply_stmt (SUpsert f now) (apply_all A db))
    (r := upsert_row f now (findings (apply_all A db) !! ID f)) as (r & ? & ? & _ & ? & ? & ?).
  - intros q r o (H1 & H2 & H3) Hrow Heff. inversion Heff as [|s' g Hin Hl' Hg Ek|? Ha Hc|? Ha Hc|? Hexp]; subst; [by eauto| | | |].
    + eexists; split; [done|]. split_and!; [done|done|]. apply upsert_active. by apply (reports_spec i now s' g).
    + destruct Hc as (s' & _ & Hl' & _ & []). rewrite Hl in Hl'. injection Hl' as <-. by apply list_elem_of_fmap_2.
    + by apply active_ids_seen in Hc.
    + by rewrite active_not_expired in Hexp.
  - done.
  - apply apply_stmt_ok; [by eapply pass_stmt_issued|done].
  - done.
  - cbn. by rewrite lookup_partial_alter_eq.
  - done.
  - split_and!; [done|done|]. by apply upsert_active.
  - by exists r.
Qed.

(** A row that the pass has a statement for closing, and that nothing reports, is closed. *)
Lemma closed_by q i k r :
  q ∈ pass_plan load rules now db → findings db !! k = Some r → r.(row_instance) = Some i → active_state r.(row_state) = true →
  (∀ s, i ∈ ids → load i now = inr s → k ∉ ID <$> reports s i (All rules)) →
  (∀ db1 r1, instances db1 = instances db → findings db1 !! k = Some r1 → r1.(row_instance) = Some i → r1.(row_rule) = r.(row_rule) →
     active_state r1.(row_state) = true → findings (apply_stmt q db1) !! k = Some (resolve now r1)) →
  ∃ r', findings db' !! k = Some r' ∧ resolved_in now r'.
Proof.
  intros Hq Hr Hi Ha Hno Hclose. destruct (plan_split q Hq) as (A & B & E & HA & HB & Hqs & Hok & Hins).
  assert (∀ q r o, active_state r.(row_state) = true ∨ resolved_in now r → row_ok k r → effect now ids db i k r q o →
    ∃ r', o = Some r' ∧ (active_state r'.(row_state) = true ∨ resolved_in now r') ∧ (resolved_in now r → resolved_in now r')) as Hstep.
  { intros q1 r1 o HQ Hrow Heff. inversion Heff as [|s' g Hin Hl' Hg Ek| | |? Hexp]; subst; [by eauto| |by (eexists; split_and!; [done|right|])..|].
    - destruct (Hno s' Hin Hl'). by apply list_elem_of_fmap_2.
    - destruct HQ as [HQ|HQ]; [by rewrite active_not_expired in Hexp|by rewrite (resolved_not_expired now) in Hexp]. }
  destruct (apply_all_row (λ r, active_state r.(row_state) = true ∨ resolved_in now r) now ids db i k) with (qs := A) (db := db) (r := r)
    as (r1 & Hr1 & Hi1 & Hrule1 & HQ1); [|done|done|done|done|done|by left|].
  { intros q1 r1 o HQ Hrow Heff. destruct (Hstep q1 r1 o HQ Hrow Heff) as (r' & -> & ? & _). by eauto. }
  assert (∃ r2, findings (apply_stmt q (apply_all A db)) !! k = Some r2 ∧ resolved_in now r2 ∧ r2.(row_instance) = Some i)
    as (r2 & Hr2 & HQ2 & Hi2).
  { destruct HQ1 as [HQ1|HQ1]; [by eexists; split; [apply Hclose|]|].
    pose proof (stmt_effect now ids q _ k r1 i Hqs (Hok k r1 Hr1) Hi1 Hr1) as Heff.
    assert (effect now ids db i k r1 q (findings (apply_stmt q (apply_all A db)) !! k)) as Heff0.
    { destruct Heff; try (econstructor; by eauto). apply eff_unseen; [done|]. unfold quiet_since. by rewrite <- Hins. }
    destruct (Hstep q r1 _ (or_intror HQ1) (Hok k r1 Hr1) Heff0) as (r2 & Hr2 & _ & HQ2). rewrite Hr2 in Heff0.
    exists r2. split_and!; [done|by apply HQ2|]. by apply (effect_row _ _ _ _ _ _ _ _ (Hok k r1 Hr1) Hi1 Heff0). }
  rewrite E. destruct (apply_all_row (resolved_in now) now ids db i k) with (qs := B) (db := apply_stmt q (apply_all A db)) (r := r2)
    as (r3 & ? & _ & _ & ?); [|done| | |done|done|done|by exists r3].
  - intros q1 r3 o HQ Hrow Heff. destruct (Hstep q1 r3 o (or_intror HQ) Hrow Heff) as (r' & -> & _ & ?). by eauto.
  - apply apply_stmt_ok; [by eapply pass_stmt_issued|done].
  - rewrite <- Hins. by eapply pass_stmt_instances.
Qed.

Lemma absent_is_closed i s k r :
  i ∈ ids → load i now = inr s → findings db !! k = Some r → r.(row_instance) = Some i → active_state r.(row_state) = true →
  r.(row_rule) ∈ ran_of s (All rules) → k ∉ ID <$> reports s i (All rules) →
  ∃ r', findings db' !! k = Some r' ∧ resolved_in now r'.
Proof.
  intros Hi Hl Hr Hri Ha Hran Hno.
  apply (closed_by (SResolveAbsent i (ran_of s (All rules)) (ID <$> reports s i (All rules)) now) i k r); [|done|done|done| |].
  - apply elem_of_app. left. apply list_elem_of_concat. exists (instance_plan load rules now i).
    split; [|by apply list_elem_of_fmap_2]. unfold instance_plan. rewrite Hl, (load_own i now s Hl). apply elem_of_app. right.
    destruct (ran_of s (All rules)); [by apply elem_of_nil in Hran|]. by apply list_elem_of_singleton.
  - intros s' _ Hl'. rewrite Hl in Hl'. by injection Hl' as <-.
  - intros db1 r1 _ Hr1 Hi1 Hrule1 Ha1. cbn. rewrite lookup_update_rows, Hr1. cbn. unfold absent.
    rewrite Hi1, Hrule1, Ha1, !bool_decide_true, bool_decide_false by done. done.
Qed.

Lemma unseen_is_closed i k r :
  quiet_since db (Add now (- unseenInstanceGrace)) i → findings db !! k = Some r → r.(row_instance) = Some i →
  active_state r.(row_state) = true → ∃ r', findings db' !! k = Some r' ∧ resolved_in now r'.
Proof.
  intros Hu Hr Hri Ha. apply (closed_by (SResolveUnseen (Add now (- unseenInstanceGrace)) now) i k r); [|done|done|done| |].
  - apply elem_of_app. right. constructor.
  - intros s Hi. by apply active_ids_seen in Hi.
  - intros db1 r1 Hins Hr1 Hi1 Hrule1 Ha1. cbn. rewrite lookup_update_rows, Hr1. cbn. unfold unseen.
    rewrite Ha1, Hi1, Hins. cbn. unfold quiet_since in Hu. destruct (instances db !! i); [|done].
    by apply Z.ltb_lt in Hu as ->.
Qed.
End one_pass.

(** ** The table over any history

    Passes of any number of servers, interleaved statement by statement and cut short anywhere,
    with the mutes of operators and the reports of instances. *)
Inductive program_step : DB → DB → Prop :=
| step_pass now ids q db : pass_stmt now ids q → program_step db (apply_stmt q db)
| step_mute act pool body parse now id out db : program_step db (muteFinding act pool body parse now id out db).2
| step_unmute act pool id out db : program_step db (unmuteFinding act pool id out db).2
| step_seen i t db : program_step db (apply_stmt (SSeen i t) db).

Lemma update_one_cases q id out db : (update_one q id out db).2 = db ∨ (update_one q id out db).2 = apply_stmt q db.
Proof. destruct out as [|[]]; auto. Qed.

Lemma program_step_ok db1 db2 : program_step db1 db2 → table_ok db1 → table_ok db2.
Proof.
  intros Hs Hok. destruct Hs as [now ids q db Hq|act pool body parse now id out db|act pool id out db|i t db].
  - apply apply_stmt_ok; [by eapply pass_stmt_issued|done].
  - unfold muteFinding. destruct act, pool; try done. destruct body as [[reason until]|]; [|done]. cbn.
    destruct (_ || _); [done|]. destruct (parse until) as [u|]; [|done]. destruct (negb _); [done|].
    destruct (After u _); [done|]. destruct (update_one_cases (SMute id u reason) id out db) as [-> | ->]; [done|by apply apply_stmt_ok].
  - unfold unmuteFinding. destruct act, pool; try done. cbn.
    destruct (update_one_cases (SUnmute id) id out db) as [E|E]; destruct (update_one _ id out db) as [c db']; cbn [snd] in *; subst;
      [done|by apply (apply_stmt_ok (SUnmute id))].
  - by apply apply_stmt_ok.
Qed.

Lemma stmts_are_steps now ids qs db : Forall (pass_stmt now ids) qs → rtc program_step db (apply_all qs db).
Proof.
  revert db. induction qs as [|q qs IH]; intros db; [done|]. intros [Hq Hqs]%Forall_cons.
  eapply rtc_l; [by eapply step_pass|by apply IH].
Qed.

(** Over any interleaving of the statements of any passes with mutes, unmutes and reports of
    instances, every row of the findings table is stored under the identifier of what it is
    about, names its instance, and its state agrees with its times: resolved rows have their
    time, open and degraded ones have none, muted ones have an end. Every pass, however it ends,
    is such a sequence of statements. *)
Theorem findings_table_invariant ins db :
  rtc program_step (mkDB ∅ ins) db →
  table_ok db ∧ ∀ env e, rtc program_step db (run_pass load rules env e db).2.
Proof.
  intros Hs. split.
  - remember (mkDB ∅ ins) as db0 eqn:E0. assert (table_ok db0) as Hok by (by subst; apply map_Forall_empty). clear E0.
    induction Hs as [|x y z Hxy _ IH]; [done|]. by apply IH, (program_step_ok x).
  - intros env e. pose proof (run_pass_effect load rules env e db) as Heff. destruct (in_charge env e); [|by rewrite Heff].
    destruct Heff as (qs & Hqs & -> & _). eapply stmts_are_steps. by apply pass_stmts.
Qed.

(** A pass closes a finding only on evidence, whatever its statements answer and whenever it
    is stopped: the instance was evaluated, the finding's rule gave an answer, and no rule
    reported the finding, or else the instance has not been seen for a day. A row disappears only
    ninety days after it was resolved, and a server that does not hold the lock changes nothing. *)
Theorem closed_only_on_evidence env e db k r i :
  table_ok db → findings db !! k = Some r → r.(row_instance) = Some i →
  let db' := (run_pass load rules env e db).2 in
  (active_state r.(row_state) = true → ∃ r', findings db' !! k = Some r' ∧ r'.(row_instance) = Some i ∧ r'.(row_rule) = r.(row_rule) ∧
     (active_state r'.(row_state) = true ∨ resolved_in env.(now_) r' ∧ may_close env db i k r.(row_rule))) ∧
  (findings db' !! k = None → expired (Add env.(now_) (- advisorRetention)) r = true) ∧
  (in_charge env e = false → db' = db).
Proof.
  intros Hok Hr Hi db'. split_and!.
  - intros Ha. by apply closed_only_when_answered.
  - by apply removed_only_when_old.
  - intros Hc. pose proof (run_pass_effect load rules env e db) as Heff. by rewrite Hc in Heff.
Qed.

(** A pass whose statements succeed leaves the table right for every instance whose snapshot
    loads, whatever happened to the other instances: what its rules report and the table can
    hold is stored with the time of the pass, what a rule that answered no longer reports is
    resolved, and so are the findings of the instances unseen for a day. *)
Theorem undisturbed_pass_exact env e db :
  table_ok db → in_charge env e = true ∧ env.(outcomes) = [] ∧ env.(stops) = [] →
  let now := env.(now_) in
  let db' := (run_pass load rules env e db).2 in
  (∀ i s, i ∈ active_ids now db → load i now = inr s →
     (∀ f, f ∈ reports s i (All rules) → storable f = true →
        ∃ r, findings db' !! ID f = Some r ∧ r.(row_instance) = Some i ∧ r.(row_last_seen) = now ∧ r.(row_resolved_at) = None ∧
          active_state r.(row_state) = true) ∧
     (∀ k r, findings db !! k = Some r → r.(row_instance) = Some i → active_state r.(row_state) = true →
        r.(row_rule) ∈ ran_of s (All rules) → k ∉ ID <$> reports s i (All rules) →
        ∃ r', findings db' !! k = Some r' ∧ resolved_in now r')) ∧
  (∀ i k r, quiet_since db (Add now (- unseenInstanceGrace)) i → findings db !! k = Some r → r.(row_instance) = Some i →
     active_state r.(row_state) = true → ∃ r', findings db' !! k = Some r' ∧ resolved_in now r').
Proof.
  intros Hok Hu now db'. split.
  - intros i s Hi Hl. split.
    + intros f Hf Hst. by eapply reported_is_stored.
    + intros k r Hr Hri Ha Hran Hno. by eapply absent_is_closed.
  - intros i k r Hq Hr Hri Ha. by eapply unseen_is_closed.
Qed.

(** ** Mutes *)

(** The row is muted until [u], or resolved since [t0]. *)
Definition silenced (t0 u : Time) (r : Row) : Prop :=
  r.(row_muted_until) = Some u ∧
  (r.(row_state) = StateMuted ∨ r.(row_state) = StateResolved ∧ ∃ t, r.(row_resolved_at) = Some t ∧ t0 ≤ t).

(** What may happen while a mute of [id] lasts: passes of any server, and anything that is not
    another mute or unmute of it. *)
Definition meanwhile (t0 u : Time) (id : string) (q : stmt) : Prop :=
  (∃ now ids, t0 ≤ now < u ∧ pass_stmt now ids q) ∨
  (∃ j v reason, q = SMute j v reason ∧ j ≠ id) ∨ (∃ j, q = SUnmute j ∧ j ≠ id) ∨ (∃ i t, q = SSeen i t).

Lemma silenced_stmt t0 u id q db r :
  u ≤ t0 + maxFindingMuteDuration → meanwhile t0 u id q → findings db !! id = Some r → silenced t0 u r →
  ∃ r', findings (apply_stmt q db) !! id = Some r' ∧ silenced t0 u r'.
Proof.
  intros Hu Hq Hr [Hm Hs].
  destruct Hq as [(now & ids & Hnow & Hq)|[(j & v & reason & -> & Hj)|[(j & -> & Hj)|(i & t & ->)]]]; cbn.
  - assert (silenced t0 u (resolve now r)) as Hres by (split; [done|right; cbn; eauto with lia]).
    destruct Hq as [i s f Hi Hl Hf Hst|i s Hi Hl| |]; cbn.
    + destruct (decide (ID f = id)) as [<-|Hne].
      * rewrite lookup_partial_alter_eq, Hr. eexists; split; [done|]. split; [done|]. left. cbn. rewrite Hm. cbn.
        by rewrite (proj2 (Z.ltb_lt now u)) by lia.
      * rewrite lookup_partial_alter_ne by done. by exists r.
    + rewrite lookup_update_rows, Hr. cbn. destruct (absent _ _ _ _ _); by eexists.
    + rewrite lookup_update_rows, Hr. cbn. destruct (unseen _ _ _); by eexists.
    + exists r. split; [|done]. apply map_lookup_filter_Some. split; [done|]. cbn. unfold expired.
      destruct Hs as [->|(-> & t & -> & Ht)]; [done|]. cbn. apply Z.ltb_ge. durations. lia.
  - rewrite lookup_alter_ne by done. by exists r.
  - rewrite lookup_alter_ne by done. by exists r.
  - by exists r.
Qed.

(** A mute holds until it ends: from the accepted request on, whatever the passes of any server
    find meanwhile, the row stays in the table and is muted or resolved, never open or degraded.
    The longest mute is as long as resolved rows are kept, so the purge cannot drop the mute. *)
Theorem mute_holds act pool body parse t0 id out db :
  (muteFinding act pool body parse t0 id out db).1 = 200 →
  ∃ reason text u, body = Some (reason, text) ∧ parse text = Some u ∧ t0 < u ∧
    ∀ qs, Forall (meanwhile t0 u id) qs →
      ∃ r, findings (apply_all qs (muteFinding act pool body parse t0 id out db).2) !! id = Some r ∧
        r.(row_muted_until) = Some u ∧ r.(row_state) ∈ [StateMuted; StateResolved].
Proof.
  unfold muteFinding. destruct act, pool; try done. destruct body as [[reason text]|]; [|done]. cbn [negb].
  destruct (_ || _); [done|]. destruct (parse text) as [u|] eqn:Eu; [|done].
  destruct (After u t0) eqn:Ea; cbn [negb]; [|done]. destruct (After u (Add t0 _)) eqn:Eb; [done|].
  unfold After in *. apply Z.ltb_lt in Ea. apply Z.ltb_ge in Eb.
  destruct out as [|ap er]; cbn [update_one fst snd]; [|done]. case_decide as Hsome; [|done]. intros _.
  exists reason, text, u. split_and!; [done|done|done|]. intros qs Hqs.
  assert (∃ r, findings (apply_stmt (SMute id u reason) db) !! id = Some r ∧ silenced t0 u r) as Hstart.
  { destruct Hsome as [r Hr]. cbn. rewrite lookup_alter_eq, Hr. eexists; split; [done|]. split; [done|by left]. }
  clear Hsome. revert Hstart. generalize (apply_stmt (SMute id u reason) db) as db1. clear db.
  induction qs as [|q qs IH]; intros db1 (r & Hr & Hs).
  - exists r. destruct Hs as [Hm [Hs|[Hs _]]]; rewrite Hs; split_and!; (done || set_solver).
  - apply Forall_cons in Hqs as [Hq Hqs]. apply (IH Hqs (apply_stmt q db1)). by eapply silenced_stmt.
Qed.
End table.

(** ** A small fleet

    One rule, an instance with fsync off, one whose snapshot does not load, and the finding of
    an instance that is not seen any more. *)
Module Example_.

#[local] Existing Instances UuidBits.uuid_bits UuidBits.uuid_bits_laws.

Definition fsync_off : Finding :=
  mkFinding "config.fsync_off" "critical" StateOpen "instance" None None "" "" "fsync is disabled"
    "a power failure can lose committed data" "Enable fsync in production to preserve durability" None "".

Definition fsync_rule : Rule :=
  mkRule "config.fsync_off" "critical" "instance" ["settings"] 0
    (λ s, Some (if decide (default ∅ s.(snap_Settings) !! "fsync" = Some "off") then [fsync_off] else [])).

Definition rules : registry := {["config.fsync_off" := fsync_rule]}.

#[local] Instance rules_laws : RulesLaws rules.
Proof.
  unfold rules. split.
  - intros k r [<- <-]%lookup_singleton_Some. done.
  - intros k r [<- <-]%lookup_singleton_Some. cbn. repeat split; discriminate.
  - intros k r s fs f [<- <-]%lookup_singleton_Some. cbn. intros [= <-]. case_decide; set_solver.
Qed.

Definition snapshot (i : UUID) (fsync : string) : Snapshot :=
  mkSnapshot 0 1 i RolePrimary 160000 0 0 ∅ ∅ None None None None (mkHostInfo false "" fzero fzero) None None None ∅ None
    (Some {["fsync" := fsync]}) ∅.

Definition load (i : UUID) (now : Time) : error + Snapshot :=
  if decide (i = 7) then inr (snapshot 7 "off") else if decide (i = 8) then inr (snapshot 8 "on") else inl "permission denied".

Lemma load_own_ i t s : load i t = inr s → snap_InstanceID s = i.
Proof. unfold load. repeat case_decide; subst; [by intros [= <-]..|done]. Qed.

Definition old_row (i : UUID) : Row :=
  mkRow "config.fsync_off" "critical" StateOpen "instance" (Some 1) (Some i) "" "" "fsync is disabled" "" "" None None 5 5 None None None.

Definition noon : Time := 1000 * Hour.

(** Instances 7, 8 and 9 are active; 5 was last seen long ago; 8 and 5 have an open finding. *)
Definition db : DB :=
  mkDB (list_to_map [("config.fsync_off/p0001", old_row 8); ("config.fsync_off/p101", old_row 5)])
    (list_to_map [(7, noon - Minute); (8, noon - Minute); (9, noon - Minute); (5, noon - 100 * Hour)]).

Definition env : answers := mkAnswers noon false None true false false None LockNoRows Done [] [].

Lemma db_ok : table_ok db.
Proof.
  intros k r Hr. apply elem_of_list_to_map_2 in Hr.
  apply elem_of_cons in Hr as [[= -> ->]|Hr]; [|apply list_elem_of_singleton in Hr as [= -> ->]].
  all: split_and!; [reflexivity|by eexists|repeat split; discriminate|right; left; split; [set_solver|done]].
Qed.

Lemma closed_only_on_evidence_witness :
  let db' := (run_pass load rules env newEngine db).2 in
  (active_state (old_row 8).(row_state) = true →
     ∃ r', findings db' !! "config.fsync_off/p0001" = Some r' ∧ r'.(row_instance) = Some 8 ∧ r'.(row_rule) = (old_row 8).(row_rule) ∧
     (active_state r'.(row_state) = true ∨ resolved_in noon r' ∧ may_close load rules env db 8 "config.fsync_off/p0001" (old_row 8).(row_rule))) ∧
  (findings db' !! "config.fsync_off/p0001" = None → expired (Add noon (- advisorRetention)) (old_row 8) = true) ∧
  (in_charge env newEngine = false → db' = db).
Proof. exact (closed_only_on_evidence load rules load_own_ env newEngine db "config.fsync_off/p0001" (old_row 8) 8 db_ok eq_refl eq_refl). Defined.

(** The pass over the fleet: 7 gets its finding, 8 is resolved, 9 only costs an error. *)
Lemma fleet_pass :
  let '(errs, _, db') := run_pass load rules env newEngine db in
  errs = [AdvLoad 9 "permission denied"] ∧
  row_state <$> findings db' !! "config.fsync_off/p111" = Some StateOpen ∧
  row_state <$> findings db' !! "config.fsync_off/p0001" = Some StateResolved ∧
  row_state <$> findings db' !! "config.fsync_off/p101" = Some StateResolved.
Proof. vm_compute. done. Qed.

Lemma undisturbed_pass_exact_witness :
  ∃ r, findings (run_pass load rules env newEngine db).2 !! "config.fsync_off/p111" = Some r ∧ r.(row_last_seen) = noon.
Proof.
  destruct (undisturbed_pass_exact load rules load_own_ env newEngine db db_ok) as [H _]; [by split_and!|].
  destruct (H 7 (snapshot 7 "off")) as [Hf _]; [|reflexivity|].
  { replace (active_ids (now_ env) db) with [7; 8; 9] by (vm_compute; reflexivity). constructor. }
  destruct (Hf (complete fsync_rule (snapshot 7 "off") 7 fsync_off)) as (r & Hr & _ & Hl & _); [|reflexivity|].
  { replace (reports (snapshot 7 "off") 7 (All rules)) with [complete fsync_rule (snapshot 7 "off") 7 fsync_off] by reflexivity.
    by apply list_elem_of_singleton. }
  assert (ID (complete fsync_rule (snapshot 7 "off") 7 fsync_off) = "config.fsync_off/p111") as E by reflexivity.
  rewrite E in Hr. exists r. split; [exact Hr|exact Hl].
Defined.

Lemma findings_table_invariant_witness :
  table_ok (run_pass load rules env newEngine (mkDB ∅ db.(instances))).2.
Proof.
  apply (findings_table_invariant load rules load_own_ db.(instances)).
  apply (findings_table_invariant load rules load_own_ db.(instances)). constructor.
Defined.

(** Muting the finding of 8 for an hour. *)
Definition in_an_hour (text : string) : option Time := Some (noon + Hour).

Lemma mute_holds_witness :
  let db1 := (muteFinding true true (Some ("known", "13:00")) in_an_hour noon "config.fsync_off/p0001" Done db).2 in
  ∃ r, findings (apply_stmt (SPurge (Add noon (- advisorRetention))) db1) !! "config.fsync_off/p0001" = Some r ∧
    r.(row_state) ∈ [StateMuted; StateResolved].
Proof.
  destruct (mute_holds load rules load_own_ true true (Some ("known", "13:00")) in_an_hour noon "config.fsync_off/p0001" Done db)
    as (reason & text & u & _ & Hu & _ & H); [vm_compute; reflexivity|].
  injection Hu as <-. destruct (H [SPurge (Add noon (- advisorRetention))]) as (r & Hr & _ & Hs).
  { repeat constructor. exists noon, []. split; [|constructor]. vm_compute. split; congruence. }
  exists r. split; [exact Hr|exact Hs].
Defined.
End Example_.
