(* ===== verification/RulesBase.v ===== *)
(** * What the advisor rules share (internal/advisor: rules_*.go, xmin.go)

    The kinds of rules, the findings they build, how they read settings, metrics and facts
    of a snapshot, and how they word sizes, counts and durations. The rules that compare the
    definitions of indexes and the one that follows lock chains return [None] when the source
    panics; the others return their findings through [answers]: what they index, slice or
    dereference they have tested before, and no panic of theirs is modelled. A range over a map goes in the order of [visit].
    Quoting an identifier for SQL is github.com/jackc/pgx's: [Sanitize]. *)
From stdpp Require Import pretty.
From S2P Require Import Prelude GoTime GoFloat GoSort GoBytes GoText GoJson GoFmt Pgtype AlertTypes PgIds AdvisorTypes.

(** [pgx.Identifier.Sanitize]. *)
Class PgxIdentifier := Sanitize : list string → string.

(** A constant [m * 10^e] of the source. *)
Definition dec (m : N) (e : Z) : float64 := float_of_decimal false m e.
Definition fgt (x y : float64) : bool := flt y x.
Definition fge (x y : float64) : bool := fle y x.
Definition NUL : ascii := "000"%char.
Definition nul : string := String NUL "".

(** ** The kinds of rules *)

(** [configRule], [queryAdvisorRule], [relationRule], [databaseRule], [instanceObjectRule]. *)
Definition configRule (id severity : string) (needs : list string) (eval : Snapshot → option (list Finding)) : Rule :=
  mkRule id severity ScopeInstance needs TierReadOnly eval.
Definition queryAdvisorRule (id severity : string) (needs : list string) (eval : Snapshot → option (list Finding)) : Rule :=
  mkRule id severity ScopeInstance needs TierReadOnly eval.
Definition relationRule (id severity : string) (needs : list string) (eval : Snapshot → option (list Finding)) : Rule :=
  mkRule id severity ScopeRelation needs TierReadOnly eval.
Definition databaseRule (r : Rule) : Rule :=
  mkRule r.(rule_ID) r.(rule_Severity) ScopeDatabase r.(rule_Needs) r.(rule_MinTier) r.(rule_Evaluate).
Definition instanceObjectRule (r : Rule) : Rule :=
  mkRule r.(rule_ID) r.(rule_Severity) ScopeInstance r.(rule_Needs) r.(rule_MinTier) r.(rule_Evaluate).

Definition answers (eval : Snapshot → list Finding) (s : Snapshot) : option (list Finding) := Some (eval s).

(** ** Findings *)

Notation evidence := (option (list (string * any))).

Definition configFinding (id sev title detail remediation : string) (ev : evidence) : Finding :=
  mkFinding id sev StateOpen ScopeInstance None None "" "" title detail remediation ev "".
Definition degradedConfig (id sev : string) : Finding :=
  mkFinding id sev StateDegraded ScopeInstance None None "" "" "Host metrics unavailable" "host metrics unavailable for this instance" "" None "host metrics unavailable for this instance".
Definition degradedBackup (id sev : string) : Finding :=
  mkFinding id sev StateDegraded ScopeInstance None None "" "" "Backup history unavailable"
    "the instance has been monitored for less than 7 days and no base backup has been seen yet" "" None "insufficient backup history".
Definition relationFinding (id sev datname name title detail remediation : string) (ev : evidence) : Finding :=
  mkFinding id sev StateOpen ScopeRelation None None datname name title detail remediation ev "".
Definition degradedRelation (id sev datname name reason : string) : Finding :=
  mkFinding id sev StateDegraded ScopeRelation None None datname name "Advisor input unavailable" reason "" None reason.
Definition queryFinding (r sev : string) (q : StatementStat) (title detail remediation : string) (ev : evidence) : Finding :=
  mkFinding r sev StateOpen ScopeInstance None None q.(stm_Datname) ("queryid:" +:+ pretty q.(stm_QueryID)) title detail remediation ev "".
(** The literals of a finding about a database, about an object of the instance, and of one
    that says what is missing. *)
Definition databaseFinding (id sev datname name title detail remediation : string) (ev : evidence) : Finding :=
  mkFinding id sev StateOpen ScopeDatabase None None datname name title detail remediation ev "".
Definition objectFinding (id sev name title detail remediation : string) (ev : evidence) : Finding :=
  mkFinding id sev StateOpen ScopeInstance None None "" name title detail remediation ev "".
Definition degradedInstance (id sev title detail reason : string) : Finding :=
  mkFinding id sev StateDegraded ScopeInstance None None "" "" title detail "" None reason.

(** ** Reading a snapshot *)

Definition statements (s : Snapshot) : list StatementStat := default [] s.(snap_Statements).
Definition tables (s : Snapshot) : list TableStat := default [] s.(snap_Tables).
Definition indexes (s : Snapshot) : list IndexStat := default [] s.(snap_Indexes).
Definition bloats (s : Snapshot) : list BloatStat := default [] s.(snap_Bloat).
Definition siblings (s : Snapshot) : list SiblingInfo := default [] s.(snap_Siblings).
Definition settings (s : Snapshot) : gmap string string := default ∅ s.(snap_Settings).
Definition facts_of (s : Snapshot) (kind : string) : gmap string Fact := default ∅ (s.(snap_Facts) !! kind).
Definition series_of (s : Snapshot) (metric : string) : gmap string float64 := default ∅ (s.(snap_Metrics) !! metric).
Definition flabel (f : Fact) (key : string) : string := label f.(fact_Labels) key.

Definition metricValue (s : Snapshot) (name : string) : option float64 := Snapshot_Metric s name ∅.

(** [settingFloat]: the value and whether it parses. *)
Definition settingFloat (s : Snapshot) (key : string) : float64 * bool :=
  ParseFloat (of_text (TrimSpace (str (label (settings s) key)))).

Section readers.
Context `{UnicodeFold, UnicodePrint, RangeOrder, PgxIdentifier, FloatOverflow}.

Definition boolSetting (s : Snapshot) (key : string) (def : bool) : bool :=
  match settings s !! key with
  | None => def
  | Some v => EqualFold v "on" || EqualFold v "true"
  end.

Definition tempFiles (s : Snapshot) : option float64 :=
  values ← s.(snap_Metrics) !! "pg_temp_files_total";
  Some (foldl (λ sum p, fadd sum p.2) fzero (visit values)).

Definition sortedLabelSets (s : Snapshot) (name : string) : list string := sort_strings (visit (series_of s name)).*1.

(** The pairs of a canonical label set are split at the unit separator. *)
Fixpoint label_in (pairs : list string) (key : string) : string :=
  match pairs with
  | [] => ""
  | p :: pairs =>
      let '(k, v, ok) := Cut p "=" in
      if ok && bool_decide (UnescapeLabel k = key) then UnescapeLabel v else label_in pairs key
  end.
Definition canonicalLabel (canonical key : string) : string := label_in (Split canonical US) key.

(** ** Facts of the latest scrape (rules_catalog.go) *)

Definition catalogBatchSlack : Duration := Minute.
Definition catalogFresh : Duration := 3 * Hour.

Definition newest_by (facts : list Fact) : gmap string Time :=
  foldl (λ newest f, if After f.(fact_ObservedAt) (default zero_time (newest !! f.(fact_Datname)))
    then <[f.(fact_Datname) := f.(fact_ObservedAt)]> newest else newest) ∅ facts.

Definition fact_less : Fact → Fact → bool :=
  lex_by fact_Datname string_lt (lex_by fact_Key string_lt (λ _ _, false)).

Definition fact_current (now : Time) (newest : gmap string Time) (f : Fact) : bool :=
  let latest := default zero_time (newest !! f.(fact_Datname)) in
  negb (Before f.(fact_ObservedAt) (Add latest (- catalogBatchSlack))) &&
  negb (negb (IsZero now) && (catalogFresh <? Sub now latest)).

Definition currentFacts (s : Snapshot) (kind : string) : list Fact :=
  let newest := newest_by (visit (facts_of s kind)).*2 in
  sort_slice fact_less (List.filter (fact_current s.(snap_Now) newest) (visit (facts_of s kind)).*2).

(** [catalogTable]: as shown, and as SQL. *)
Definition catalogTable (f : Fact) : string * string :=
  let schema := flabel f "schemaname" in
  let table := flabel f "relname" in
  (schema +:+ "." +:+ table, Sanitize [schema; table]).

(** ** Wording *)

Definition plural (n : Z) (noun : string) : string :=
  if n =? 1 then "1 " +:+ noun else Sprintf "%d %ss" [AInt n; AString noun].

Fixpoint units (value : float64) (exp room : nat) : float64 * nat :=
  match room with
  | O => (value, exp)
  | S room => if fge value (float_of_int 1024) then units (fdiv value (float_of_int 1024)) (S exp) room else (value, exp)
  end.

Definition formatCatalogBytes (n : Z) : string :=
  if n <? 1024 then Sprintf "%d B" [AInt n]
  else
    let '(value, exp) := units (fdiv (float_of_int n) (float_of_int 1024)) 0 4 in
    Sprintf "%.1f %ciB" [AFloat value; AInt (Z_of_byte (nth exp (str "KMGTP") "0"%byte))].

(** The separators go before the digits whose distance from the end is a multiple of three. *)
Fixpoint separate (prev : option ascii) (digits : string) : string :=
  match digits with
  | "" => ""
  | String c rest =>
      let cut := match prev with Some p => (Z.of_nat (String.length digits) `mod` 3 =? 0) && negb (bool_decide (p = "-"%char)) | None => false end in
      (if cut then "," else "") +:+ String c (separate (Some c) rest)
  end.
Definition formatCatalogCount (n : float64) : string := separate None (FormatFixed n 0).

Definition formatCatalogDuration (d : Duration) : string :=
  if d <? 24 * Hour then plural (to_int64 (Hours d)) "hour" else plural (to_int64 (fdiv (Hours d) (float_of_int 24))) "day".

(** ** The oldest holder of the xmin horizon (xmin.go) *)

Definition recentWindow : Duration := 15 * Minute.
Definition xminHolderFactKind : string := "xmin_horizon".
Definition xminHolderFactKey : string := "oldest".

Definition value_at (v : list (string * any)) (key : string) : option any := snd <$> find (λ p, bool_decide (p.1 = key)) v.
Definition string_value (v : option any) : string := match v with Some (AString s) => s | _ => "" end.
Definition any_value (v : option any) : any := default ANil v.

Definition xminHolderEvidence (s : Snapshot) : option (list (string * any)) :=
  fact ← facts_of s xminHolderFactKind !! xminHolderFactKey;
  if recentWindow <? Sub s.(snap_Now) fact.(fact_ObservedAt) then None
  else
    let kind := string_value (value_at fact.(fact_Value) "holder_kind") in
    if bool_decide (kind = "") then None
    else Some ([("holder_kind", AString kind); ("identity", any_value (value_at fact.(fact_Value) "identity")); ("age_xids", any_value (value_at fact.(fact_Value) "age_xids"))]
      ++ match value_at fact.(fact_Value) "age_seconds" with Some seconds => [("age_seconds", seconds)] | None => [] end).

Definition holder_label (kind : string) : string :=
  if bool_decide (kind = "session") then "session with pid"
  else if bool_decide (kind = "slot") then "replication slot"
  else if bool_decide (kind = "standby") then "standby with application_name"
  else if bool_decide (kind = "prepared") then "prepared transaction with gid"
  else kind.

Definition withHolderDetail (detail : string) (holder : list (string * any)) : string :=
  let label := holder_label (string_value (value_at holder "holder_kind")) in
  Sprintf "%s; the oldest xmin holder is the %s %v, %v transaction IDs old"
    [AString detail; AString label; any_value (value_at holder "identity"); any_value (value_at holder "age_xids")].

Definition set_evidence (ev : evidence) (key : string) (v : any) : evidence :=
  Some (List.filter (λ p, negb (bool_decide (p.1 = key))) (default [] ev) ++ [(key, v)]).

Definition with_holder (holder : list (string * any)) (f : Finding) : Finding :=
  mkFinding f.(RuleID) f.(Severity) f.(State) f.(Scope) f.(ClusterID) f.(InstanceID) f.(Datname) f.(ObjectName) f.(Title)
    (withHolderDetail f.(Detail) holder) f.(Remediation) (set_evidence f.(Evidence) "xmin_holder" (AMap holder)) f.(DegradedReason).

Definition withXminHolder (r : Rule) : Rule :=
  mkRule r.(rule_ID) r.(rule_Severity) r.(rule_Scope) r.(rule_Needs) r.(rule_MinTier) (λ s,
    match r.(rule_Evaluate) s with
    | None => None
    | Some findings => Some (match xminHolderEvidence s with None => findings | Some holder => List.map (with_holder holder) findings end)
    end).
End readers.

Definition databaseFactKey (datname key : string) : string := datname +:+ nul +:+ key.

(** ** The facts of the latest scrape *)

Lemma newest_by_spec facts d : let newest := foldl (λ newest f, if After f.(fact_ObservedAt) (default zero_time (newest !! f.(fact_Datname)))
    then <[f.(fact_Datname) := f.(fact_ObservedAt)]> newest else newest) (∅ : gmap string Time) facts in
  (∀ f, f ∈ facts → f.(fact_Datname) = d → f.(fact_ObservedAt) ≤ default zero_time (newest !! d)) ∧
  (newest !! d = None ∨ ∃ f, f ∈ facts ∧ f.(fact_Datname) = d ∧ newest !! d = Some f.(fact_ObservedAt)).
Proof.
  induction facts as [|f facts IH] using rev_ind; cbn zeta; [split; [by intros f ?%elem_of_nil|by left]|].
  rewrite foldl_app. cbn [foldl]. cbn zeta in IH. set (newest := foldl _ _ facts) in *. destruct IH as [Hmax Hin].
  assert (newest !! d = None ∨ ∃ g, g ∈ facts ++ [f] ∧ fact_Datname g = d ∧ newest !! d = Some (fact_ObservedAt g)) as Hin'.
  { destruct Hin as [Hin|(g & Hg & Hrest)]; [by left|right]. exists g. split; [apply elem_of_app; by left|done]. }
  unfold After. destruct (_ <? fact_ObservedAt f) eqn:E; zbool; [|split; [|done]]; [|intros g [Hg| ->%list_elem_of_singleton]%elem_of_app; [by apply Hmax|intros <-; lia]].
  destruct (decide (fact_Datname f = d)) as [Hd|Hd]; [|rewrite lookup_insert_ne by done; split; [|done]].
  - rewrite Hd in *. rewrite lookup_insert_eq. cbn. split; [|right; exists f; split_and!; [apply elem_of_app; right; left|done|done]].
    intros g [Hg| ->%list_elem_of_singleton]%elem_of_app Hgd; [specialize (Hmax g Hg Hgd); lia|lia].
  - intros g [Hg| ->%list_elem_of_singleton]%elem_of_app; [by apply Hmax|done].
Qed.

Section current.
Context `{RangeOrderLaws}.

Lemma elem_of_visited `{Countable K} {V} (m : gmap K V) v : v ∈ (visit m).*2 ↔ ∃ k, m !! k = Some v.
Proof.
  rewrite (visit_perm m), list_elem_of_fmap. split.
  - intros ([k w] & -> & Hk%elem_of_map_to_list). by exists k.
  - intros (k & Hk). exists (k, v). split; [done|by apply elem_of_map_to_list].
Qed.

(** [f] belongs to the latest scrape of its database, and that scrape is recent. *)
Record of_latest_scrape (s : Snapshot) (kind : string) (f : Fact) : Prop := {
  ls_fact : ∃ k, facts_of s kind !! k = Some f;
  ls_batch k g : facts_of s kind !! k = Some g → g.(fact_Datname) = f.(fact_Datname) → g.(fact_ObservedAt) - catalogBatchSlack ≤ f.(fact_ObservedAt);
  ls_fresh : s.(snap_Now) ≠ 0 → ∃ k g, facts_of s kind !! k = Some g ∧ g.(fact_Datname) = f.(fact_Datname) ∧ Sub s.(snap_Now) g.(fact_ObservedAt) ≤ catalogFresh;
}.

Lemma Sub_antitone t u v : u ≤ v → Sub t v ≤ Sub t u.
Proof. unfold Sub, min_int64, max_int64. lia. Qed.

Lemma elem_of_currentFacts s kind f : (∀ k g, facts_of s kind !! k = Some g → 0 < g.(fact_ObservedAt)) →
  f ∈ currentFacts s kind ↔ of_latest_scrape s kind f.
Proof.
  intros Hpos. unfold currentFacts. rewrite elem_of_sort_slice, list_elem_of_In, filter_In, <- list_elem_of_In, elem_of_visited.
  destruct (newest_by_spec (visit (facts_of s kind)).*2 f.(fact_Datname)) as [Hmax Hin]. fold (newest_by (visit (facts_of s kind)).*2) in Hmax, Hin.
  unfold fact_current. set (latest := default zero_time _) in *. unfold Before, Add, IsZero. rewrite andb_true_iff, !negb_true_iff, Z.ltb_ge, andb_false_iff, negb_false_iff, Z.eqb_eq, Z.ltb_ge.
  assert (∀ k g, facts_of s kind !! k = Some g → fact_Datname g = fact_Datname f → fact_ObservedAt g ≤ latest) as Hle.
  { intros k g Hg Hd. apply Hmax; [apply elem_of_visited; by exists k|done]. }
  assert ((∃ k, facts_of s kind !! k = Some f) → ∃ k g, facts_of s kind !! k = Some g ∧ fact_Datname g = fact_Datname f ∧ latest = fact_ObservedAt g) as Hwho.
  { intros (k & Hk). destruct Hin as [Hn|(g & Hg & Hd & Hn)]; [|apply elem_of_visited in Hg as (k' & Hk'); exists k', g; unfold latest; by rewrite Hn].
    assert (latest = 0) as E by (unfold latest; by rewrite Hn). specialize (Hle k f Hk eq_refl). specialize (Hpos k f Hk). lia. }
  split.
  - intros [Hf [Hb Hfr]]. split; [done| |].
    + intros k g Hg Hd. specialize (Hle k g Hg Hd). lia.
    + intros Hnow. destruct Hfr as [|Hfr]; [done|]. destruct (Hwho Hf) as (k & g & Hg & Hd & E). exists k, g. by rewrite <- E.
  - intros [Hf Hb Hfr]. destruct (Hwho Hf) as (k & g & Hg & Hd & E). split_and!; [done| |].
    + specialize (Hb k g Hg Hd). lia.
    + destruct (decide (s.(snap_Now) = 0)) as [|Hnow]; [by left|right]. destruct (Hfr Hnow) as (k' & g' & Hg' & Hd' & Hfresh).
      etrans; [|exact Hfresh]. apply Sub_antitone. by eapply Hle.
Qed.

(** The facts of a kind are told apart by database and key. *)
Definition facts_keyed (s : Snapshot) (kind : string) : Prop :=
  ∀ k k' f g, facts_of s kind !! k = Some f → facts_of s kind !! k' = Some g → f.(fact_Datname) = g.(fact_Datname) → f.(fact_Key) = g.(fact_Key) → k = k'.
End current.

Lemma currentFacts_nodup `{RangeOrderLaws} s kind : facts_keyed s kind → NoDup (currentFacts s kind).
Proof.
  intros Hkeyed. unfold currentFacts. rewrite sort_slice_perm. apply NoDup_ListNoDup, List.NoDup_filter, NoDup_ListNoDup. rewrite (visit_perm (facts_of s kind)).
  apply NoDup_fmap_2_strong; [|apply NoDup_map_to_list]. intros [k f] [k' g] Hk%elem_of_map_to_list Hk'%elem_of_map_to_list E. cbn in E. subst g.
  by rewrite (Hkeyed k k' f f Hk Hk' eq_refl eq_refl).
Qed.

(** Which facts a catalog rule reads: exactly those of their database's latest scrape, when
    that scrape is recent, in the order of database and key, whatever order the range over
    the map takes. *)
Theorem current_facts_exact (ro ro' : RangeOrder) (L : @RangeOrderLaws ro) (L' : @RangeOrderLaws ro') s kind :
  facts_keyed s kind → (∀ k g, facts_of s kind !! k = Some g → 0 < g.(fact_ObservedAt)) →
  (∀ f, f ∈ @currentFacts ro s kind ↔ of_latest_scrape s kind f) ∧
  StronglySorted (not_after fact_less) (@currentFacts ro s kind) ∧
  @currentFacts ro' s kind = @currentFacts ro s kind.
Proof.
  intros Hkeyed Hpos.
  assert (∀ o (Lo : @RangeOrderLaws o), StronglySorted (not_after fact_less) (@currentFacts o s kind)) as Hsorted
    by (intros o Lo; by apply (sort_slice_sorted fact_less (λ _, True)), Forall_true).
  assert (@currentFacts ro' s kind ≡ₚ @currentFacts ro s kind) as Hperm.
  { apply NoDup_Permutation; [by apply currentFacts_nodup..|]. intros f. by rewrite !elem_of_currentFacts. }
  split_and!; [intros f; by apply elem_of_currentFacts|by apply Hsorted|].
  apply (sort_slice_unique fact_less (λ _, True)); [by apply Forall_true| |by rewrite Hperm; apply sort_slice_perm|by apply Hsorted].
  intros f g Hf Hg H1 H2. destruct (total_not_after_antisym fact_less _ f g H1 H2) as (Ed & Ek & _).
  apply (elem_of_sort_slice fact_less), elem_of_currentFacts in Hf as [(k & Hk) _ _], Hg as [(k' & Hk') _ _]; [|done..].
  rewrite (Hkeyed k k' f g Hk Hk' Ed Ek) in Hk. congruence.
Qed.

Module Facts_.
Definition forwards : RangeOrder := λ K V _ _ m, map_to_list m.
Definition backwards : RangeOrder := λ K V _ _ m, reverse (map_to_list m).
Lemma forwards_laws : @RangeOrderLaws forwards.
Proof. by split. Qed.
Lemma backwards_laws : @RangeOrderLaws backwards.
Proof. split. intros. apply reverse_Permutation. Qed.

Definition fact (db key : string) (t : Time) : Fact := mkFact key db "" [] ∅ t.
Definition noon : Time := 1000 * Hour.
(** Two databases; the trigger "gone" of the first was not in its latest scrape. *)
Definition facts : gmap string Fact :=
  list_to_map (List.map (λ f, (databaseFactKey f.(fact_Datname) f.(fact_Key), f)) [fact "b" "x" noon; fact "a" "t" noon; fact "a" "s" (noon - Second); fact "a" "gone" (noon - Hour)]).
Definition snapshot : Snapshot :=
  mkSnapshot (noon + Minute) 1 8 RolePrimary 160000 0 0 ∅ {["trigger" := facts]} None None None None (mkHostInfo false "" fzero fzero) None None None ∅ None (Some ∅) ∅.

Lemma current_facts_exact_witness :
  List.map fact_Key (@currentFacts backwards snapshot "trigger") = ["s"; "t"; "x"] ∧
  @currentFacts backwards snapshot "trigger" = @currentFacts forwards snapshot "trigger".
Proof.
  split; [vm_compute; reflexivity|].
  assert (∀ k f, facts_of snapshot "trigger" !! k = Some f → k = databaseFactKey f.(fact_Datname) f.(fact_Key) ∧ 0 < f.(fact_ObservedAt)) as Hall.
  { assert (map_Forall (λ k f, k = databaseFactKey f.(fact_Datname) f.(fact_Key) ∧ 0 < f.(fact_ObservedAt)) facts) as Hm by (apply (bool_decide_unpack _); vm_compute; exact I).
    intros k f Hk. exact (Hm k f Hk). }
  refine (proj2 (proj2 (current_facts_exact forwards backwards forwards_laws backwards_laws snapshot "trigger" _ _))).
  - intros k k' f g Hk Hk' Ed Ek. rewrite (proj1 (Hall k f Hk)), (proj1 (Hall k' g Hk')), Ed, Ek. reflexivity.
  - intros k g Hg. exact (proj2 (Hall k g Hg)).
Defined.
End Facts_.
