(* ===== verification/RulesConfig.v ===== *)
(** * The rules about settings, archiving and the monitoring role (internal/advisor:
    rules_config.go, rules_security.go) *)
From S2P Require Import Prelude GoTime GoFloat GoSort GoBytes GoText GoJson GoFmt Pgtype AlertTypes PgIds AdvisorTypes RulesBase.

(** ** Constants *)

Definition maxWorkMemShare : float64 := dec 25 (-2).
Definition minWorkMemBytes : float64 := float_of_int (4 * 1024 * 1024).
Definition minMaintenanceBytes : float64 := float_of_int (256 * 1024 * 1024).
Definition archiveStallSeconds : float64 := float_of_int 3600.
Definition walSegmentBytes : float64 := float_of_int (16 * 1024 * 1024).
Definition backupHistory : Duration := 7 * 24 * Hour.
Definition basebackupMaxAge : Duration := 30 * 24 * Hour.

Definition DriftExcludedSettings : list string :=
  ["data_directory"; "hot_standby"; "listen_addresses"; "port"; "primary_conninfo"; "primary_slot_name"; "synchronous_standby_names"].

Definition SettingDriftExcluded (name context : string) : bool :=
  bool_decide (context = "internal") || bool_decide (name ∈ DriftExcludedSettings).

Section config_rules.
Context `{UnicodeLower, UnicodeFold, UnicodePrint, RangeOrder, FloatOverflow, UuidText}.

(** ** Archiving and backups of a cluster *)

Definition archiveMode (settings : gmap string string) : string :=
  to_lower (of_text (TrimSpace (str (label settings "archive_mode")))).

Definition archivingActive (role : Role) (mode : string) : bool :=
  if bool_decide (mode = "always") then true
  else if bool_decide (mode = "on") then negb (bool_decide (role = RoleStandby))
  else false.

Definition clusterArchiving (s : Snapshot) : bool :=
  archivingActive s.(snap_Role) (archiveMode (settings s)) ||
  existsb (λ sib, archivingActive sib.(sib_Role) (archiveMode sib.(sib_Settings))) (siblings s).

Definition deferToPrimary (s : Snapshot) : bool :=
  bool_decide (s.(snap_Role) = RoleStandby) && existsb (λ sib, bool_decide (sib.(sib_Role) = RolePrimary)) (siblings s).

(** [lastBasebackup]; a time that stays zero is none. *)
Definition lastBasebackup (s : Snapshot) : Time * bool :=
  let last := foldl (λ (last : Time) f, if After f.(fact_ObservedAt) last then f.(fact_ObservedAt) else last) zero_time (visit (facts_of s "backup")).*2 in
  let last := foldl (λ (last : Time) sib, match sib.(sib_BasebackupSeenAt) with
    | Some t => if After t last then t else last
    | None => last
    end) last (siblings s) in
  (last, negb (IsZero last)).

Definition monitoredFor (s : Snapshot) : Duration :=
  if IsZero s.(snap_FirstSeen) || IsZero s.(snap_Now) then 0 else Sub s.(snap_Now) s.(snap_FirstSeen).

Definition usableMemory (s : Snapshot) : option float64 :=
  let h := s.(snap_Host) in
  if negb h.(host_Available) then None
  else if fgt h.(host_CgroupLimitBytes) fzero then Some h.(host_CgroupLimitBytes)
  else if fgt h.(host_TotalBytes) fzero then Some h.(host_TotalBytes) else None.

Definition memoryRule (id sev : string) (eval : float64 → Snapshot → list Finding) : Rule :=
  configRule id sev ["settings"; "host"] (answers (λ s,
    match usableMemory s with
    | None => [degradedConfig id sev]
    | Some m => eval m s
    end)).

Definition metricAbove (id sev metric : string) (threshold : float64) (title remediation : string) : Rule :=
  configRule id sev [metric] (answers (λ s,
    match metricValue s metric with
    | Some v => if fgt v threshold then [configFinding id sev title (Sprintf "%s is %.2f, above %.2f" [AString metric; AFloat v; AFloat threshold]) remediation None] else []
    | None => []
    end)).

(** ** The rules of memory and connections *)

Definition work_mem_oversized : Rule := memoryRule "config.work_mem_oversized" SeverityWarning (λ mem s,
  let '(w, wok) := settingFloat s "work_mem_bytes" in
  let '(c, cok) := settingFloat s "max_connections" in
  if wok && cok && fgt (fmul w c) (fmul maxWorkMemShare mem) then
    [configFinding "config.work_mem_oversized" SeverityWarning "work_mem budget is oversized"
      (Sprintf "work_mem times max_connections is %.1f%% of usable memory" [AFloat (fmul (fdiv (fmul w c) mem) (float_of_int 100))])
      "Reduce work_mem or cap connections to protect memory" None]
  else []).

(** [ruleByPrefix] over the registered rules. *)
Fixpoint ruleByPrefix (all : list Rule) (s : Snapshot) (id : string) : option (list Finding) :=
  match all with
  | [] => Some []
  | r :: all => if bool_decide (r.(rule_ID) = id) then r.(rule_Evaluate) s else ruleByPrefix all s id
  end.

(** [config.work_mem_low], given what [query.temp_bytes_high] answers. *)
Definition work_mem_low_given (spilling : option (list Finding)) (s : Snapshot) : option (list Finding) :=
  let '(w, ok) := settingFloat s "work_mem_bytes" in
  if ok && flt w minWorkMemBytes then
    match spilling with
    | None => None
    | Some [] => Some []
    | Some _ =>
        let ev := files ← tempFiles s; Some [("pg_temp_files_total", AFloat files)] in
        Some [configFinding "config.work_mem_low" SeverityInfo "work_mem is low" "work_mem is below 4 MiB while temporary writes are high" "Review work_mem with concurrent memory usage" ev]
    end
  else Some [].

Definition work_mem_low (all : list Rule) : Rule :=
  configRule "config.work_mem_low" SeverityInfo ["settings"; "query.temp_bytes_high"] (λ s,
    work_mem_low_given (ruleByPrefix all s "query.temp_bytes_high") s).

Definition shared_buffers_low : Rule := memoryRule "config.shared_buffers_low" SeverityWarning (λ mem s,
  let '(v, ok) := settingFloat s "shared_buffers_bytes" in
  if ok && flt v (fmul (dec 15 (-2)) mem) then
    [configFinding "config.shared_buffers_low" SeverityWarning "shared_buffers is low" "shared_buffers is below 15% of usable memory" "Review shared_buffers for the workload" None]
  else []).

Definition shared_buffers_high : Rule := memoryRule "config.shared_buffers_high" SeverityWarning (λ mem s,
  let '(v, ok) := settingFloat s "shared_buffers_bytes" in
  if ok && fgt v (fmul (dec 40 (-2)) mem) then
    [configFinding "config.shared_buffers_high" SeverityWarning "shared_buffers is high" "shared_buffers exceeds 40% of usable memory" "Leave memory for connections and the operating system" None]
  else []).

Definition effective_cache_size_mismatch : Rule := memoryRule "config.effective_cache_size_mismatch" SeverityInfo (λ mem s,
  let '(v, ok) := settingFloat s "effective_cache_size_bytes" in
  if ok && (flt v (fmul (dec 25 (-2)) mem) || fgt v (fmul (dec 15 (-1)) mem)) then
    [configFinding "config.effective_cache_size_mismatch" SeverityInfo "effective_cache_size is mismatched" "effective_cache_size is far outside the expected memory range" "Align the estimate with usable memory and workload" None]
  else []).

Definition maintenance_work_mem_low : Rule := memoryRule "config.maintenance_work_mem_low" SeverityInfo (λ mem s,
  let '(v, ok) := settingFloat s "maintenance_work_mem_bytes" in
  if ok && fgt mem (float_of_int (8 * 1024 * 1024 * 1024)) && flt v minMaintenanceBytes then
    [configFinding "config.maintenance_work_mem_low" SeverityInfo "maintenance_work_mem is low" "maintenance_work_mem is below 256 MiB on a large host" "Review maintenance memory for vacuum and index builds" None]
  else []).

Definition max_connections_high : Rule :=
  configRule "config.max_connections_high" SeverityWarning ["settings"; "pg_connections_used_ratio"] (answers (λ s,
    let '(c, ok) := settingFloat s "max_connections" in
    let u := default fzero (metricValue s "pg_connections_used_ratio") in
    if ok && fgt c (float_of_int 200) && flt u (dec 3 (-1)) then
      [configFinding "config.max_connections_high" SeverityWarning "max_connections is high"
        (Sprintf "max_connections is %.0f and %.0f%% of it is in use" [AFloat c; AFloat (fmul u (float_of_int 100))])
        "Use a pooler or reduce max_connections after workload review" (Some [("max_connections", AFloat c); ("used_ratio", AFloat u)])]
    else [])).

Definition track_io_timing_off : Rule :=
  configRule "config.track_io_timing_off" SeverityInfo ["settings"] (answers (λ s,
    if negb (boolSetting s "track_io_timing" true) then
      [configFinding "config.track_io_timing_off" SeverityInfo "I/O timing is disabled" "track_io_timing is off" "Enable it when I/O diagnosis is required" None]
    else [])).

Definition checkpoints_too_frequent : Rule :=
  metricAbove "config.checkpoints_too_frequent" SeverityWarning "pg_checkpoints_requested_ratio" (dec 20 (-2)) "Checkpoints are too frequent" "Increase max_wal_size after sizing storage".

Definition wal_keep_size_low : Rule :=
  configRule "config.wal_keep_size_low" SeverityWarning ["settings"; "Replication"] (answers (λ s,
    match s.(snap_Replication) with
    | None => []
    | Some r =>
        if (r.(repl_Standbys) =? 0) || (r.(repl_Standbys) <=? r.(repl_ActivePhysicalSlots)) then []
        else
          let '(keep, ok) := settingFloat s "wal_keep_size_bytes" in
          if negb ok then []
          else
            let '(segment, ok) := settingFloat s "wal_segment_size_bytes" in
            let segment := if negb ok || fle segment fzero then walSegmentBytes else segment in
            if fgt r.(repl_MaxLagBytes) keep && fgt r.(repl_MaxLagBytes) segment then
              [configFinding "config.wal_keep_size_low" SeverityWarning "wal_keep_size is low"
                (Sprintf "a standby is %.0f bytes of WAL behind, more than wal_keep_size (%.0f bytes), and %d of %d streaming standbys have no active physical slot"
                  [AFloat r.(repl_MaxLagBytes); AFloat keep; AInt (r.(repl_Standbys) - r.(repl_ActivePhysicalSlots)); AInt r.(repl_Standbys)])
                "Increase wal_keep_size or configure a replication slot"
                (Some [("lag_bytes", AFloat r.(repl_MaxLagBytes)); ("wal_keep_size_bytes", AFloat keep); ("standbys", AInt r.(repl_Standbys)); ("active_physical_slots", AInt r.(repl_ActivePhysicalSlots))])]
            else []
    end)).

Definition fsync_off : Rule :=
  configRule "config.fsync_off" SeverityCritical ["settings"] (answers (λ s,
    if negb (boolSetting s "fsync" true) then
      [configFinding "config.fsync_off" SeverityCritical "fsync is disabled" "a power failure can lose committed data" "Enable fsync in production to preserve durability" None]
    else [])).

Definition full_page_writes_off : Rule :=
  configRule "config.full_page_writes_off" SeverityCritical ["settings"] (answers (λ s,
    if negb (boolSetting s "full_page_writes" true) then
      [configFinding "config.full_page_writes_off" SeverityCritical "full page writes are disabled" "the first post-checkpoint page image is not protected" "Enable full_page_writes unless storage guarantees replacement" None]
    else [])).

(** ** Drift *)

(** The siblings whose value of the setting [k] is another, in their order. *)
Definition drifting (s : Snapshot) (k v : string) : list (string * string) :=
  omap (λ sib, other ← sib.(sib_Settings) !! k;
    if negb (bool_decide (other = v)) && negb (SettingDriftExcluded k (label sib.(sib_SettingContexts) k)) then Some (uuid_String sib.(sib_InstanceID), other) else None) (siblings s).

Definition drift_of (s : Snapshot) (k : string) : option Finding :=
  if SettingDriftExcluded k (label s.(snap_SettingContexts) k) then None
  else
    let v := label (settings s) k in
    match drifting s k v with
    | [] => None
    | others =>
        let names := List.map (λ p, Sprintf "%q on %s" [AString p.2; AString p.1]) others in
        let by_id := map_to_list (list_to_map (reverse others) : gmap string string) in
        Some (mkFinding "config.drift" SeverityWarning StateOpen ScopeInstance None None "" ("setting:" +:+ k) "Configuration drift"
          (Sprintf "setting %s is %q here and %s" [AString k; AString v; AString (Join ", " names)])
          "Reconcile shared settings while retaining intentional per-instance values"
          (Some [("setting", AString k); ("value", AString v); ("sibling_values", AMap (List.map (λ p, (p.1, AString p.2)) by_id))]) "")
    end.

Definition drift : Rule :=
  configRule "config.drift" SeverityWarning ["settings"; "Siblings"] (answers (λ s,
    omap (drift_of s) (sort_strings (visit (settings s)).*1))).

Definition saturation : Rule :=
  metricAbove "conn.saturation" SeverityWarning "pg_connections_used_ratio" (dec 80 (-2)) "Connections are saturated" "Add capacity or use a pooler".

Definition idle_share_high : Rule :=
  configRule "conn.idle_share_high" SeverityInfo ["pg_connections_idle_share"; "pg_connections_used"] (answers (λ s,
    let idle := default fzero (metricValue s "pg_connections_idle_share") in
    let c := default fzero (metricValue s "pg_connections_used") in
    if fgt idle (dec 70 (-2)) && fgt c (float_of_int 100) then
      [configFinding "conn.idle_share_high" SeverityInfo "Idle connection share is high"
        (Sprintf "%.0f%% of %.0f client connections are idle" [AFloat (fmul idle (float_of_int 100)); AFloat c])
        "Use pooling and review client connection lifetimes" (Some [("idle_share", AFloat idle); ("connections", AFloat c)])]
    else [])).

(** ** Archiving and backups *)

Definition archive_disabled : Rule :=
  configRule "archive.disabled" SeverityInfo ["settings"] (answers (λ s,
    let mode := archiveMode (settings s) in
    if bool_decide (mode = "") || deferToPrimary s || clusterArchiving s then []
    else
      [configFinding "archive.disabled" SeverityInfo "Archiving is disabled"
        (Sprintf "no member of the cluster archives WAL (archive_mode is %s here)" [AString mode]) "Confirm an alternate backup strategy"
        (Some [("archive_mode", AString mode)])])).

Definition archive_failing : Rule :=
  configRule "archive.failing" SeverityCritical ["settings"] (answers (λ s,
    if negb (archivingActive s.(snap_Role) (archiveMode (settings s))) then []
    else match metricValue s "pg_archiver_failed_ratio" with
    | None =>
        [degradedInstance "archive.failing" SeverityCritical "Archiver statistics unavailable" "archiving is enabled but no archiver statistics were received"
          "missing input: pg_archiver_failed_ratio"]
    | Some v =>
        if fgt v (dec 999 (-3)) then
          [configFinding "archive.failing" SeverityCritical "Archiving is failing" "the last archive attempt failed after the last success"
            "Repair archive_command and verify WAL retention" (Some [("failed_ratio", AFloat v)])]
        else []
    end)).

Definition archive_limit (s : Snapshot) : float64 :=
  let '(timeout, _) := settingFloat s "archive_timeout_seconds" in
  if fgt timeout fzero && fgt (fmul timeout (float_of_int 10)) archiveStallSeconds then fmul timeout (float_of_int 10) else archiveStallSeconds.

Definition archive_stalled : Rule :=
  configRule "archive.stalled" SeverityCritical ["settings"] (answers (λ s,
    if negb (archivingActive s.(snap_Role) (archiveMode (settings s))) then []
    else match metricValue s "pg_archiver_last_archived_age_seconds" with
    | None => []
    | Some age =>
        let ready := metricValue s "pg_archiver_ready_files" in
        if match ready with Some r => feq r fzero | None => false end then []
        else
          let limit := archive_limit s in
          if fgt age limit then
            match ready with
            | None =>
                [degradedInstance "archive.stalled" SeverityCritical "Archive stall cannot be confirmed"
                  (Sprintf "last archive is %.0f seconds old, but the WAL segments waiting for archive_command are unknown" [AFloat age])
                  "missing input: pg_archiver_ready_files"]
            | Some ready =>
                [configFinding "archive.stalled" SeverityCritical "Archiving is stalled"
                  (Sprintf "last archive is %.0f seconds old and %.0f WAL segments are waiting" [AFloat age; AFloat ready])
                  "Repair archiving before WAL retention is exhausted"
                  (Some [("last_archived_age_seconds", AFloat age); ("limit_seconds", AFloat limit); ("ready_files", AFloat ready)])]
            end
          else []
    end)).

Definition backup_advice : string :=
  "Establish and verify a regular base backup schedule; backups copied outside the replication protocol (file-level tools, storage snapshots) are not visible here".

Definition no_basebackup_seen : Rule :=
  configRule "backup.no_basebackup_seen" SeverityWarning ["settings"] (answers (λ s,
    if deferToPrimary s || negb (clusterArchiving s) then []
    else
      let '(last, ok) := lastBasebackup s in
      if ok then
        let age := Sub s.(snap_Now) last in
        if age <? backupHistory then []
        else
          let days := fdiv (Hours age) (float_of_int 24) in
          [configFinding "backup.no_basebackup_seen" SeverityWarning "No recent base backup"
            (Sprintf "the last base backup seen streaming from the cluster is %.0f days old" [AFloat days]) backup_advice (Some [("age_days", AFloat days)])]
      else if monitoredFor s <? backupHistory then [degradedBackup "backup.no_basebackup_seen" SeverityWarning]
      else
        let days := fdiv (Hours (monitoredFor s)) (float_of_int 24) in
        [configFinding "backup.no_basebackup_seen" SeverityWarning "No recent base backup"
          (Sprintf "no base backup has been seen streaming from the cluster in %.0f days of monitoring" [AFloat days]) backup_advice (Some [("monitored_days", AFloat days)])])).

Definition no_strategy : Rule :=
  configRule "backup.no_strategy" SeverityCritical ["settings"] (answers (λ s,
    if bool_decide (archiveMode (settings s) = "") || deferToPrimary s || clusterArchiving s then []
    else
      let '(last, ok) := lastBasebackup s in
      if ok && (Sub s.(snap_Now) last <=? basebackupMaxAge) then []
      else if monitoredFor s <? backupHistory then [degradedBackup "backup.no_strategy" SeverityCritical]
      else
        [configFinding "backup.no_strategy" SeverityCritical "No visible backup strategy"
          "no member of the cluster archives WAL and no base backup has been seen streaming in the last 30 days"
          "Configure archiving or establish a verified base backup strategy" None])).

(** ** The monitoring role (rules_security.go) *)

Definition monitoringRoleFactKey : string := "self".
Definition monitoringRoleReadOnly : string := "read-only".
Definition monitoringRoleFresh : Duration := Hour.

(** The fact, or the finding that it is missing or stale. *)
Definition monitoringRoleFact (s : Snapshot) (id sev : string) : Fact + Finding :=
  let unseen reason := inr (degradedInstance id sev "Monitoring role not observed" reason reason) in
  match facts_of s monitoringRoleFactKind !! monitoringRoleFactKey with
  | None => unseen "the monitoring_role check has not reported"
  | Some fact =>
      let age := Sub s.(snap_Now) fact.(fact_ObservedAt) in
      if negb (IsZero s.(snap_Now)) && (monitoringRoleFresh <? age) then
        unseen ("the monitoring_role check has not reported for " +:+ Duration_String (Round age Minute))
      else inl fact
  end.

(** [strings.Split(s, "; ")]. *)
Fixpoint split_semicolon (s : string) : list string :=
  match s with
  | "" => [""]
  | String ";" (String " " s) => "" :: split_semicolon s
  | String c s => match split_semicolon s with x :: l => String c x :: l | [] => [String c ""] end
  end.

Definition monitoring_role_can_write : Rule :=
  configRule "security.monitoring_role_can_write" SeverityCritical [monitoringRoleFactKind] (answers (λ s,
    match monitoringRoleFact s "security.monitoring_role_can_write" SeverityCritical with
    | inr degraded => [degraded]
    | inl fact =>
        if bool_decide (fact.(fact_ValueText) = monitoringRoleReadOnly) then []
        else
          let role := flabel fact "role" in
          [configFinding "security.monitoring_role_can_write" SeverityCritical "The monitoring role could write to the database"
            (Sprintf "pglens connects as %s, which %s. pglens only reads, but anyone holding its credentials could change data." [AString role; AString fact.(fact_ValueText)])
            "Run deploy/sql/monitoring_user.sql again as an administrator: it refuses the role and lists the statement that removes each problem."
            (Some [("role", AString role); ("problems", AList (List.map AString (split_semicolon fact.(fact_ValueText))))])]
    end)).

Definition monitoring_role_read_only_off : Rule :=
  configRule "security.monitoring_role_read_only_off" SeverityWarning [monitoringRoleFactKind] (answers (λ s,
    match monitoringRoleFact s "security.monitoring_role_read_only_off" SeverityWarning with
    | inr degraded => [degraded]
    | inl fact =>
        let value := flabel fact "read_only_default" in
        if EqualFold value "on" then []
        else
          let role := flabel fact "role" in
          [configFinding "security.monitoring_role_read_only_off" SeverityWarning "The monitoring role does not default to read-only transactions"
            (Sprintf "default_transaction_read_only is %q for %s in this database. pglens sets it in every session it opens; the role default is the second safeguard." [AString value; AString role])
            "Run deploy/sql/monitoring_user.sql again: it sets the role default and removes database-specific overrides."
            (Some [("role", AString role); ("read_only_default", AString value)])]
    end)).

(** The rules of rules_config.go and of rules_security.go, in the order they register. *)
Definition config_rules (all : list Rule) : list Rule :=
  [work_mem_oversized; work_mem_low all; shared_buffers_low; shared_buffers_high; effective_cache_size_mismatch; maintenance_work_mem_low;
   max_connections_high; track_io_timing_off; checkpoints_too_frequent; wal_keep_size_low; fsync_off; full_page_writes_off; drift; saturation;
   idle_share_high; archive_disabled; archive_failing; archive_stalled; no_basebackup_seen; no_strategy].
Definition security_rules : list Rule := [monitoring_role_can_write; monitoring_role_read_only_off].
End config_rules.
