(* ===== verification/RulesQuery.v ===== *)
(** * The rules about statements, transactions and locks (internal/advisor: rules_query.go,
    rules_lock.go) *)
From stdpp Require Import pretty.
From S2P Require Import Prelude GoTime GoFloat GoSort GoBytes GoText GoJson GoFmt Pgtype AlertTypes PgIds AdvisorTypes RulesBase.

(** ** Constants *)

Definition slowMeanMS : Z := 500.
Definition totalShare : float64 := dec 30 (-2).
Definition regressionFactor : float64 := float_of_int 3.
Definition defaultWorkMemBytes : float64 := float_of_int (4 * 1024 * 1024).
Definition cacheMissShare : float64 := dec 30 (-2).
Definition longTxnSeconds : float64 := float_of_int 900.
Definition idleTxnSeconds : float64 := float_of_int 300.
Definition preparedSeconds : float64 := float_of_int 3600.
Definition rollbackShare : float64 := dec 10 (-2).
Definition wraparoundAge : float64 := float_of_int 1000000000.

Definition hundred : float64 := float_of_int 100.

Section query_rules.
Context `{UnicodePrint, RangeOrder, FloatOverflow}.

(** The findings of a loop over the statements. *)
Definition per_statement (f : StatementStat → option Finding) (s : Snapshot) : list Finding := omap f (statements s).

Definition metricRule (id sev metric : string) (threshold : float64) (title remediation : string) : Rule :=
  queryAdvisorRule id sev [metric] (answers (λ s,
    match metricValue s metric with
    | None => []
    | Some v =>
        if fle v threshold then []
        else [mkFinding id sev StateOpen ScopeInstance None None "" "" title
          (Sprintf "%s is %.2f, above %.2f" [AString metric; AFloat v; AFloat threshold]) remediation
          (Some [("metric", AString metric); ("observed", AFloat v); ("threshold", AFloat threshold)]) ""]
    end)).

Definition slow_mean : Rule := queryAdvisorRule "query.slow_mean" SeverityWarning ["Statements"] (answers (per_statement (λ q,
  if fge q.(stm_Calls) (float_of_int 10) && fgt q.(stm_MeanExecTimeMs) (float_of_int slowMeanMS) then
    Some (queryFinding "query.slow_mean" SeverityWarning q "Slow query" (Sprintf "mean execution time is %.1f ms" [AFloat q.(stm_MeanExecTimeMs)]) "Tune or index the query"
      (Some [("queryid", AInt q.(stm_QueryID)); ("observed_ms", AFloat q.(stm_MeanExecTimeMs)); ("threshold_ms", AInt slowMeanMS)]))
  else None))).

Definition total_time (s : Snapshot) : float64 := foldl (λ total q, fadd total q.(stm_TotalExecTimeMs)) fzero (statements s).

Definition total_time_share : Rule := queryAdvisorRule "query.total_time_share" SeverityWarning ["Statements"] (answers (λ s,
  let total := total_time s in
  per_statement (λ q,
    let share := if fgt total fzero then fdiv q.(stm_TotalExecTimeMs) total else fzero in
    if fgt share totalShare then
      Some (queryFinding "query.total_time_share" SeverityWarning q "Dominant query" (Sprintf "query accounts for %.1f%% of execution time" [AFloat (fmul share hundred)])
        "Optimize the dominant query" (Some [("queryid", AInt q.(stm_QueryID)); ("share", AFloat share); ("threshold", AFloat totalShare)]))
    else None) s)).

Definition regression : Rule := queryAdvisorRule "query.regression" SeverityCritical ["Statements"; "Baseline"] (answers (λ s,
  match s.(snap_Baseline) with
  | None => [degradedInstance "query.regression" SeverityCritical "Query regression unavailable" "seven-day query baseline is unavailable" "insufficient query history"]
  | Some baseline =>
      per_statement (λ q,
        let base := default fzero (baseline !! q.(stm_QueryID)) in
        if fgt base fzero && fge q.(stm_MeanExecTimeMs) (fmul regressionFactor base) && fge q.(stm_MeanExecTimeMs) hundred then
          Some (queryFinding "query.regression" SeverityCritical q "Query regression"
            (Sprintf "mean time %.1f ms is %.1fx baseline" [AFloat q.(stm_MeanExecTimeMs); AFloat (fdiv q.(stm_MeanExecTimeMs) base)])
            "Investigate the query plan regression" (Some [("queryid", AInt q.(stm_QueryID)); ("baseline_ms", AFloat base); ("observed_ms", AFloat q.(stm_MeanExecTimeMs))]))
        else None) s
  end)).

Definition temp_bytes_high : Rule := queryAdvisorRule "query.temp_bytes_high" SeverityWarning ["Statements"] (answers (λ s,
  let '(workMem, ok) := settingFloat s "work_mem_bytes" in
  let workMem := if negb ok || fle workMem fzero then defaultWorkMemBytes else workMem in
  let files := tempFiles s in
  per_statement (λ q,
    if fle q.(stm_Calls) fzero then None
    else
      let avg := fdiv q.(stm_TempBytes) q.(stm_Calls) in
      if fgt avg workMem then
        Some (queryFinding "query.temp_bytes_high" SeverityWarning q "High temporary write volume" (Sprintf "average temporary bytes per call is %.0f" [AFloat avg])
          (Sprintf "Review the query and current work_mem (%.0f bytes)" [AFloat workMem])
          (Some ([("queryid", AInt q.(stm_QueryID)); ("bytes_per_call", AFloat avg); ("work_mem_bytes", AFloat workMem)]
            ++ match files with Some files => [("pg_temp_files_total", AFloat files)] | None => [] end)))
      else None) s)).

Definition cache_miss_high : Rule := queryAdvisorRule "query.cache_miss_high" SeverityInfo ["Statements"] (answers (per_statement (λ q,
  let total := fadd q.(stm_SharedBlksRead) q.(stm_SharedBlksHit) in
  let miss := if fgt total fzero then fdiv q.(stm_SharedBlksRead) total else fzero in
  if fgt q.(stm_Calls) (float_of_int 1000) && fgt miss cacheMissShare then
    Some (queryFinding "query.cache_miss_high" SeverityInfo q "High cache miss ratio" (Sprintf "shared block read ratio is %.1f%%" [AFloat (fmul miss hundred)])
      "Review working-set size and indexing" (Some [("queryid", AInt q.(stm_QueryID)); ("read_ratio", AFloat miss); ("threshold", AFloat cacheMissShare)]))
  else None))).

Definition long_running : Rule :=
  withXminHolder (metricRule "txn.long_running" SeverityWarning "pg_max_xact_age_seconds" longTxnSeconds "Long-running transaction" "Commit, roll back, or investigate the transaction").
Definition idle_in_transaction : Rule :=
  metricRule "txn.idle_in_transaction" SeverityWarning "pg_max_idle_in_transaction_seconds" idleTxnSeconds "Idle transaction" "Close or commit the idle transaction".
Definition prepared_orphan : Rule :=
  metricRule "txn.prepared_orphan" SeverityCritical "pg_oldest_prepared_xact_seconds" preparedSeconds "Orphaned prepared transaction" "Resolve the prepared transaction so vacuum can proceed".

Definition high_rollback_ratio : Rule := queryAdvisorRule "txn.high_rollback_ratio" SeverityInfo ["pg_xact_rollback_ratio"] (answers (λ s,
  omap (λ labels,
    let v := default fzero (series_of s "pg_xact_rollback_ratio" !! labels) in
    if fle v rollbackShare then None
    else
      let db := canonicalLabel labels "database" in
      Some (mkFinding "txn.high_rollback_ratio" SeverityInfo StateOpen ScopeDatabase None None db "" "High rollback ratio"
        (Sprintf "%.1f%% of the transactions of database %q rolled back since its statistics were reset, above %.0f%%" [AFloat (fmul v hundred); AString db; AFloat (fmul rollbackShare hundred)])
        "Investigate transaction failures and retry behavior"
        (Some [("metric", AString "pg_xact_rollback_ratio"); ("database", AString db); ("observed", AFloat v); ("threshold", AFloat rollbackShare)]) ""))
    (sortedLabelSets s "pg_xact_rollback_ratio"))).

Definition wraparound_risk : Rule :=
  metricRule "txn.wraparound_risk" SeverityCritical "pg_max_datfrozenxid_age" wraparoundAge "Transaction ID wraparound risk" "Run maintenance immediately and resolve vacuum starvation".

Definition query_rules : list Rule :=
  [slow_mean; total_time_share; regression; temp_bytes_high; cache_miss_high; long_running; idle_in_transaction; prepared_orphan; high_rollback_ratio; wraparound_risk].

(** ** Locks (rules_lock.go) *)

Definition lockLongWait : Duration := 300 * Second.
Definition lockSampleFresh : Duration := 2 * Minute.

(** [byPID]: the last node of a process identifier. *)
Definition by_pid (nodes : list LockTreeNode) : gmap Z LockTreeNode :=
  foldl (λ m n, <[n.(node_PID) := n]> m) ∅ nodes.

Definition int_lt (a b : Z) : bool := a <? b.
Definition sortedPIDs (pids : list Z) : list Z := sort_slice int_lt pids.

(** The blockers not seen yet join the end of the queue. *)
Fixpoint enqueue (blockers : list Z) (seen : gset Z) (queue : list Z) : gset Z * list Z :=
  match blockers with
  | [] => (seen, queue)
  | b :: blockers => if bool_decide (b ∈ seen) then enqueue blockers seen queue else enqueue blockers ({[b]} ∪ seen) (queue ++ [b])
  end.

Definition blockers_of (m : gmap Z LockTreeNode) (pid : Z) : list Z := default [] (node_BlockedBy <$> m !! pid).

(** A session whose chain ends: outside the sample, or blocked by nobody. *)
Definition is_root (m : gmap Z LockTreeNode) (pid : Z) : bool := bool_decide (blockers_of m pid = []).

(** The breadth-first walk; the outer [None] is fuel that ran out. *)
Fixpoint walk (m : gmap Z LockTreeNode) (waiter : Z) (fuel : nat) (seen : gset Z) (queue : list Z) : option (option Z) :=
  match fuel, queue with
  | _, [] => Some None
  | O, _ => None
  | S fuel, pid :: queue =>
      if negb (bool_decide (pid = waiter)) && is_root m pid then Some (Some pid)
      else let '(seen, queue) := enqueue (sortedPIDs (blockers_of m pid)) seen queue in walk m waiter fuel seen queue
  end.

(** Every session is queued at most once: the waiter and the blockers the sample names. *)
Definition walk_fuel (m : gmap Z LockTreeNode) : nat := S (length (map_to_list m ≫= λ p, p.2.(node_BlockedBy))).

(** [slices.Min] of a list that is not empty. *)
Definition min_pid (pids : list Z) (def : Z) : Z := match pids with [] => def | p :: ps => foldl Z.min p ps end.

Definition lockRootBlocker (sample : LockTreeSample) (waiter : Z) : option Z :=
  let m := by_pid sample.(tree_Nodes) in
  found ← walk m waiter (walk_fuel m) {[waiter]} [waiter];
  Some (match found with Some pid => pid | None => min_pid (blockers_of m waiter) waiter end).

Definition formatLockWait (d : Duration) : string :=
  let whole := to_int64 (Seconds d) in
  if whole <? 60 then plural whole "second" else plural (Z.quot whole 60) "minute" +:+ " " +:+ plural (Z.rem whole 60) "second".

(** The session that waits longest, the lower identifier among equals. *)
Definition longer (best : option LockTreeNode) (n : LockTreeNode) : option LockTreeNode :=
  if bool_decide (n.(node_BlockedBy) = []) || flt n.(node_WaitDuration) (Seconds lockLongWait) then best
  else match best with
  | None => Some n
  | Some w => if fgt n.(node_WaitDuration) w.(node_WaitDuration) || (feq n.(node_WaitDuration) w.(node_WaitDuration) && (n.(node_PID) <? w.(node_PID))) then Some n else best
  end.

Definition lock_finding (waiter : LockTreeNode) (root : Z) : Finding :=
  let wait := to_int64 (fmul waiter.(node_WaitDuration) (float_of_int Second)) in
  mkFinding "lock.long_wait" SeverityWarning StateOpen ScopeInstance None None "" ""
    (Sprintf "Session %d has waited %s for a lock" [AInt waiter.(node_PID); AString (formatLockWait wait)])
    (Sprintf "Session %d has waited %s. Its blocking chain reaches session %d, and the sessions queued behind it wait too, so a wait this long holds up every session in the tree. The lock sample reports waits of %s or more."
      [AInt waiter.(node_PID); AString (formatLockWait wait); AInt root; AString (formatLockWait lockLongWait)])
    (Sprintf "Open the Locks page and look at session %d: its state and transaction age show whether it is idle in transaction or still working. If its transaction can end, ask its owner to end it. If the work can be lost, cancel or terminate it there, and the waiting session proceeds." [AInt root])
    (Some [("waiting_pid", AInt waiter.(node_PID)); ("root_blocker_pid", AInt root); ("wait_seconds", AFloat waiter.(node_WaitDuration))]) "".

Definition long_wait : Rule := instanceObjectRule (relationRule "lock.long_wait" SeverityWarning ["LockTree"] (λ s,
  match s.(snap_LockTree) with
  | None => Some []
  | Some sample =>
      if IsZero sample.(tree_SampledAt) then Some []
      else if negb (IsZero s.(snap_Now)) && (lockSampleFresh <? Sub s.(snap_Now) sample.(tree_SampledAt)) then Some []
      else match foldl longer None sample.(tree_Nodes) with
      | None => Some []
      | Some waiter => root ← lockRootBlocker sample waiter.(node_PID); Some [lock_finding waiter root]
      end
  end)).
End query_rules.
