(* ===== verification/LockChain.v ===== *)
(** * The root of a chain of lock waits (internal/advisor/rules_lock.go)

    [lockRootBlocker] walks the blockers of a session breadth first. The walk keeps a list of
    the sessions it has left behind; what is queued splits into the sessions of the current
    distance and those one further. From that invariant: the walk ends within its fuel, and
    the session it names is a nearest one that nobody blocks. *)
From S2P Require Import Prelude GoTime GoFloat GoSort GoBytes GoText GoJson GoFmt Pgtype AlertTypes PgIds AdvisorTypes RulesBase RulesQuery.

(** ** Queueing *)

Lemma enqueue_spec bs seen queue : ∃ new,
  enqueue bs seen queue = (list_to_set new ∪ seen, queue ++ new) ∧ NoDup new ∧ (∀ x, x ∈ new → x ∉ seen ∧ x ∈ bs) ∧
  (∀ x, x ∈ bs → x ∈ (list_to_set new ∪ seen : gset Z)).
Proof.
  revert seen queue. induction bs as [|b bs IH]; intros seen queue; cbn [enqueue].
  { exists []. split_and!; [rewrite app_nil_r; f_equal; set_solver|constructor|by intros x ?%elem_of_nil|by intros x ?%elem_of_nil]. }
  case_bool_decide as Hb.
  - destruct (IH seen queue) as (new & -> & Hnd & Hnew & Hall). exists new. split_and!; [done|done| |].
    + intros x Hx. destruct (Hnew x Hx). split; [done|by right].
    + intros x [->|Hx]%elem_of_cons; [set_solver|by apply Hall].
  - destruct (IH ({[b]} ∪ seen) (queue ++ [b])) as (new & -> & Hnd & Hnew & Hall). exists (b :: new). split_and!.
    + rewrite <- app_assoc. cbn. f_equal. set_solver.
    + constructor; [|done]. intros Hx. destruct (Hnew b Hx). set_solver.
    + intros x [->|Hx]%elem_of_cons; [split; [done|by left]|]. destruct (Hnew x Hx). split; [set_solver|by right].
    + intros x [->|Hx]%elem_of_cons; [set_solver|]. specialize (Hall x Hx). set_solver.
Qed.

(** ** The lowest blocker *)

Lemma foldl_min_spec ps : ∀ p, let r := foldl Z.min p ps in r ∈ p :: ps ∧ ∀ q, q ∈ p :: ps → r ≤ q.
Proof.
  induction ps as [|p' ps IH]; intros p; cbn; [split; [left|intros q ->%list_elem_of_singleton; lia]|].
  destruct (IH (Z.min p p')) as [Hin Hle]. split.
  - apply elem_of_cons in Hin as [->|Hin]; [|by right; right]. destruct (Z.min_spec p p') as [[_ ->]|[_ ->]]; [left|right; left].
  - intros q [->|[->|Hq]%elem_of_cons]%elem_of_cons; [| |by apply Hle; right]; specialize (Hle (Z.min p p') (list_elem_of_here _ _)); lia.
Qed.

Lemma min_pid_spec l def : l = [] ∧ min_pid l def = def ∨ min_pid l def ∈ l ∧ ∀ q, q ∈ l → min_pid l def ≤ q.
Proof. destruct l as [|p ps]; [by left|right; apply foldl_min_spec]. Qed.

Lemma bsteps_last {A} (R : relation A) n x z : bsteps R (S n) x z → x = z ∨ ∃ y, bsteps R n x y ∧ R y z.
Proof.
  intros Hz. revert n z Hz. enough (∀ k z, bsteps R k x z → ∀ n, k = S n → x = z ∨ ∃ y, bsteps R n x y ∧ R y z) as Hall by (intros n z Hz; by apply (Hall (S n))).
  apply (bsteps_ind_r (λ k z, ∀ n, k = S n → x = z ∨ ∃ y, bsteps R n x y ∧ R y z) x); [by left|].
  intros k y z' Hxy Hyz _ n' [= ->]. right. by exists y.
Qed.

Section chain.
Context (m : gmap Z LockTreeNode) (waiter : Z).

(** [p] waits for a lock that [q] holds or is ahead in the queue for. *)
Definition waits_for (p q : Z) : Prop := q ∈ blockers_of m p.

(** A session other than the waiter that ends the chain. *)
Definition ends_chain (q : Z) : Prop := q ≠ waiter ∧ is_root m q = true.

Definition universe : list Z := waiter :: (map_to_list m ≫= λ p, p.2.(node_BlockedBy)).

Lemma waits_for_universe p q : waits_for p q → q ∈ universe.
Proof.
  unfold waits_for, blockers_of. destruct (m !! p) as [n|] eqn:E; cbn; [|by intros ?%elem_of_nil]. intros Hq.
  right. apply list_elem_of_bind. exists (p, n). split; [done|by apply elem_of_map_to_list].
Qed.

(** The walk at distance [n]: [left] has been taken from the queue, [near] is at distance [n]
    and [far] one further. *)
Record walk_inv (n : nat) (gone near far : list Z) (seen : gset Z) : Prop := {
  wi_seen x : x ∈ seen ↔ x ∈ gone ++ near ++ far;
  wi_nodup : NoDup (gone ++ near ++ far);
  wi_universe x : x ∈ gone ++ near ++ far → x ∈ universe;
  wi_gone x : x ∈ gone → ¬ ends_chain x ∧ ∀ y, waits_for x y → y ∈ seen;
  wi_near x : x ∈ near → bsteps waits_for n waiter x;
  wi_far x : x ∈ far → bsteps waits_for (S n) waiter x ∧ ¬ bsteps waits_for n waiter x;
  wi_within x : bsteps waits_for n waiter x → x ∈ seen;
  wi_closer x k : (k < n)%nat → bsteps waits_for k waiter x → x ∈ gone;
}.

Lemma walk_inv_start : walk_inv 0 [] [waiter] [] {[waiter]}.
Proof.
  split; cbn.
  - intros x. set_solver.
  - apply NoDup_singleton.
  - intros x ->%list_elem_of_singleton. left.
  - by intros x ?%elem_of_nil.
  - intros x ->%list_elem_of_singleton. constructor.
  - by intros x ?%elem_of_nil.
  - intros x Hx. inversion Hx; subst. set_solver.
  - intros x k Hk. lia.
Qed.

(** The next distance. *)
Lemma walk_inv_shift n gone far seen : walk_inv n gone [] far seen → walk_inv (S n) gone far [] seen.
Proof.
  intros [Hs Hn Hu Hg Hne Hf Hw Hc]. cbn [app] in *.
  assert (∀ x, bsteps waits_for n waiter x → x ∈ gone) as Hgone.
  { intros x Hx. pose proof (Hw x Hx) as H1. apply Hs, elem_of_app in H1 as [?|Hx2]; [done|]. by destruct (Hf x Hx2). }
  split; rewrite ?app_nil_r; [done|done|done|done| |by intros x ?%elem_of_nil| |].
  - intros x Hx. by destruct (Hf x Hx).
  - intros x Hx. apply bsteps_last in Hx as [->|(y & Hy & Hyx)]; [apply Hw; apply bsteps_refl|].
    destruct (Hg y (Hgone y Hy)) as [_ Hsucc]. by apply Hsucc.
  - intros x k Hk Hx. apply Hgone. apply (bsteps_weaken k); [lia|done].
Qed.

(** One session taken from the queue. *)
Lemma walk_inv_step n gone x near far seen new :
  walk_inv n gone (x :: near) far seen → ¬ ends_chain x → NoDup new →
  (∀ y, y ∈ new → y ∉ seen ∧ waits_for x y) → (∀ y, waits_for x y → y ∈ list_to_set new ∪ seen) →
  walk_inv n (gone ++ [x]) near (far ++ new) (list_to_set new ∪ seen).
Proof.
  intros [Hs Hn Hu Hg Hne Hf Hw Hc] Hx Hnd Hnew Hall.
  assert ((gone ++ [x]) ++ near ++ far ++ new = (gone ++ (x :: near) ++ far) ++ new) as E by (by rewrite <- !app_assoc).
  split; rewrite ?E.
  - intros y. rewrite elem_of_union, elem_of_list_to_set, elem_of_app, Hs. tauto.
  - apply NoDup_app. split_and!; [done| |done]. intros y Hy Hy2. apply Hs in Hy. by destruct (Hnew y Hy2).
  - intros y [Hy|Hy]%elem_of_app; [by apply Hu|]. destruct (Hnew y Hy). by eapply waits_for_universe.
  - intros y [Hy| ->%list_elem_of_singleton]%elem_of_app; [|by split].
    destruct (Hg y Hy) as [H1 H2]. split; [done|]. intros z Hz. specialize (H2 z Hz). set_solver.
  - intros y Hy. apply Hne. by right.
  - intros y [Hy|Hy]%elem_of_app; [by apply Hf|]. destruct (Hnew y Hy) as [Hy1 Hy2]. split.
    + apply (bsteps_r _ _ x); [apply Hne; left|done].
    + intros Hb. by apply Hw in Hb.
  - intros y Hy. specialize (Hw y Hy). set_solver.
  - intros y k Hk Hy. apply elem_of_app. left. by eapply Hc.
Qed.

(** What the walk finds: a nearest end of a chain, or that there is none. *)
Definition nearest (q : Z) : Prop :=
  ends_chain q ∧ ∃ n, nsteps waits_for n waiter q ∧ ∀ k p, ends_chain p → nsteps waits_for k waiter p → (n ≤ k)%nat.

Lemma walk_inv_reshape n gone near far seen : walk_inv n gone near far seen →
  ∃ n near' far', near ++ far = near' ++ far' ∧ walk_inv n gone near' far' seen ∧ (near' = [] → far' = []).
Proof.
  intros Hinv. destruct near as [|x near]; [|by exists n, (x :: near), far].
  exists (S n), far, []. rewrite app_nil_r. split_and!; [done|by apply walk_inv_shift|done].
Qed.

Lemma walk_inv_done n gone seen : walk_inv n gone [] [] seen → ∀ q, rtc waits_for waiter q → ¬ ends_chain q.
Proof.
  intros [Hs _ _ Hg _ _ Hw _] q Hq. cbn [app] in *. rewrite app_nil_r in *.
  assert (q ∈ gone) as Hgone; [|by apply Hg].
  revert q Hq. apply (rtc_ind_r (λ q, q ∈ gone)); [apply Hs, Hw, bsteps_refl|].
  intros y z _ Hyz Hy. apply Hs. by apply (Hg y).
Qed.

Lemma walk_inv_found n gone x near far seen : walk_inv n gone (x :: near) far seen → ends_chain x → nearest x.
Proof.
  intros [Hs _ _ Hg Hne _ _ Hc] Hx.
  assert (∀ k p, ends_chain p → nsteps waits_for k waiter p → (n ≤ k)%nat) as Hmin.
  { intros k p Hp Hk. destruct (decide (n ≤ k)%nat); [done|]. assert (p ∈ gone) as Hpg by (apply (Hc p k); [lia|by apply bsteps_nsteps; eauto]).
    by destruct (Hg p Hpg). }
  split; [done|]. destruct (proj1 (bsteps_nsteps _ _ _) (Hne x (list_elem_of_here _ _))) as (j & Hj & Hsteps).
  exists j. split; [done|]. intros k p Hp Hk. specialize (Hmin k p Hp Hk). lia.
Qed.

Lemma walk_exact fuel : ∀ n gone near far seen, walk_inv n gone near far seen → (length universe ≤ fuel + length gone)%nat →
  match walk m waiter fuel seen (near ++ far) with
  | Some (Some q) => nearest q
  | Some None => ∀ q, rtc waits_for waiter q → ¬ ends_chain q
  | None => False
  end.
Proof.
  induction fuel as [|fuel IH]; intros n0 gone near0 far0 seen Hinv0 Hfuel;
    destruct (walk_inv_reshape _ _ _ _ _ Hinv0) as (n & near & far & -> & Hinv & Hshape);
    (destruct near as [|x near]; [rewrite (Hshape eq_refl) in *; cbn [app walk]; by eapply walk_inv_done|]).
  - pose proof (NoDup_submseteq _ _ (wi_nodup _ _ _ _ _ Hinv) (wi_universe _ _ _ _ _ Hinv)) as Hle%submseteq_length.
    rewrite !length_app in Hle. cbn [length] in Hle. lia.
  - cbn [app walk]. destruct (negb _ && _) eqn:Eend.
    + eapply walk_inv_found; [done|]. apply andb_true_iff in Eend as [E1 E2]. apply negb_true_iff, bool_decide_eq_false in E1. by split.
    + destruct (enqueue_spec (sortedPIDs (blockers_of m x)) seen (near ++ far)) as (new & -> & Hnd & Hnew & Hall).
      rewrite <- app_assoc. apply (IH n (gone ++ [x])); [|rewrite length_app; cbn [length]; lia].
      apply (walk_inv_step n gone x near far seen new); [done| |done| |].
      * intros [H1 H2]. rewrite bool_decide_false, H2 in Eend by done. done.
      * intros y Hy. destruct (Hnew y Hy) as [H1 H2]. split; [done|]. unfold sortedPIDs in H2. by rewrite elem_of_sort_slice in H2.
      * intros y Hy. apply Hall. unfold sortedPIDs. by rewrite elem_of_sort_slice.
Qed.
End chain.

(** The session named for a waiter: a nearest one that nobody blocks or, when no chain of
    waits ends, the lowest blocker. *)
Definition root_of (m : gmap Z LockTreeNode) (waiter r : Z) : Prop :=
  nearest m waiter r ∨
  (∀ q, rtc (waits_for m) waiter q → ¬ ends_chain m waiter q) ∧
  (blockers_of m waiter = [] ∧ r = waiter ∨ r ∈ blockers_of m waiter ∧ ∀ q, q ∈ blockers_of m waiter → r ≤ q).

Lemma root_blocker_exact sample waiter :
  ∃ r, lockRootBlocker sample waiter = Some r ∧ root_of (by_pid sample.(tree_Nodes)) waiter r.
Proof.
  set (m := by_pid sample.(tree_Nodes)). unfold lockRootBlocker. fold m.
  pose proof (walk_exact m waiter (walk_fuel m) 0 [] [waiter] [] {[waiter]} (walk_inv_start m waiter)) as Hw.
  specialize (Hw ltac:(cbn [length]; unfold universe, walk_fuel; cbn [length]; lia)). rewrite app_nil_r in Hw.
  destruct (walk m waiter (walk_fuel m) {[waiter]} [waiter]) as [[q|]|]; [|cbn|done].
  - exists q. split; [done|by left].
  - eexists. split; [done|]. right. split; [done|]. by apply min_pid_spec.
Qed.

(** ** The session that waits longest *)

Definition waits_long (n : LockTreeNode) : bool :=
  negb (bool_decide (n.(node_BlockedBy) = []) || flt n.(node_WaitDuration) (Seconds lockLongWait)).

(** [w] waits longest of [l], and has the lowest identifier of those that wait as long. *)
Record longest_of (l : list LockTreeNode) (w : LockTreeNode) : Prop := {
  lo_in : w ∈ l;
  lo_long : waits_long w = true;
  lo_most n : n ∈ l → waits_long n = true → flt w.(node_WaitDuration) n.(node_WaitDuration) = false;
  lo_tie n : n ∈ l → waits_long n = true → feq n.(node_WaitDuration) w.(node_WaitDuration) = true → w.(node_PID) ≤ n.(node_PID);
}.

Definition best_of (l : list LockTreeNode) (best : option LockTreeNode) : Prop :=
  match best with None => ∀ n, n ∈ l → waits_long n = false | Some w => longest_of l w end.

Lemma longer_spec l best n : best_of l best → best_of (l ++ [n]) (longer best n).
Proof.
  unfold longer. intros Hbest. destruct (_ || _) eqn:Elong.
  { assert (waits_long n = false) as Hn by (unfold waits_long; by rewrite Elong). destruct best as [w|]; cbn in *.
    - destruct Hbest as [H1 H2 H3 H4]. split; [apply elem_of_app; by left|done| |]; intros x [Hx| ->%list_elem_of_singleton]%elem_of_app; [by apply H3|congruence|by apply H4|congruence].
    - intros x [Hx| ->%list_elem_of_singleton]%elem_of_app; [by apply Hbest|done]. }
  assert (waits_long n = true) as Hn by (unfold waits_long; by rewrite Elong).
  destruct best as [w|]; cbn in *.
  2: { split; [apply elem_of_app; right; left|done| |]; intros x [Hx| ->%list_elem_of_singleton]%elem_of_app; [rewrite (Hbest x Hx); congruence|intros _; apply flt_irrefl|rewrite (Hbest x Hx); congruence|lia]. }
  destruct Hbest as [H1 H2 H3 H4]. unfold fgt. destruct (flt (node_WaitDuration w) (node_WaitDuration n)) eqn:Egt; cbn.
  - split; [apply elem_of_app; right; left|done| |]; intros x [Hx| ->%list_elem_of_singleton]%elem_of_app; [|intros _; apply flt_irrefl| |lia]; intros Hl.
    + specialize (H3 x Hx Hl). destruct (flt (node_WaitDuration n) (node_WaitDuration x)) eqn:E; [|done]. by rewrite (flt_trans _ _ _ Egt E) in H3.
    + intros E. specialize (H3 x Hx Hl). rewrite (feq_flt_r _ _ _ E) in H3. congruence.
  - destruct (feq _ _ && _) eqn:Etie.
    + apply andb_true_iff in Etie as [Eeq Elt]. apply Z.ltb_lt in Elt.
      split; [apply elem_of_app; right; left|done| |]; intros x [Hx| ->%list_elem_of_singleton]%elem_of_app; [|intros _; apply flt_irrefl| |lia]; intros Hl.
      * rewrite (feq_flt_l _ _ _ Eeq). by apply H3.
      * intros E. specialize (H4 x Hx Hl (feq_trans _ _ _ E Eeq)). lia.
    + split; [apply elem_of_app; by left|done| |]; intros x [Hx| ->%list_elem_of_singleton]%elem_of_app; [by apply H3|done|by apply H4|].
      intros _ E. rewrite E in Etie. cbn in Etie. apply Z.ltb_ge in Etie. done.
Qed.

Lemma longest_spec l : best_of l (foldl longer None l).
Proof. induction l as [|n l IH] using rev_ind; [by intros n ?%elem_of_nil|]. rewrite foldl_app. by apply longer_spec. Qed.

(** C36: The rule [lock.long_wait] on a fresh sample: it always answers, reports nothing exactly
    when no blocked session has waited five minutes, and otherwise the session that has waited
    longest, with the lowest identifier among equals, together with the root of its chain: the
    nearest session that nobody blocks, or its lowest blocker when every chain is a cycle. *)
Theorem long_wait_exact `{UnicodePrint, FloatOverflow} s sample :
  s.(snap_LockTree) = Some sample → IsZero sample.(tree_SampledAt) = false → Sub s.(snap_Now) sample.(tree_SampledAt) ≤ lockSampleFresh →
  ∃ fs, rule_Evaluate long_wait s = Some fs ∧
    ((fs = [] ∧ ∀ n, n ∈ sample.(tree_Nodes) → waits_long n = false) ∨
     ∃ w r, fs = [lock_finding w r] ∧ longest_of sample.(tree_Nodes) w ∧ root_of (by_pid sample.(tree_Nodes)) w.(node_PID) r).
Proof.
  intros Et Ez Hfresh. change (rule_Evaluate long_wait s) with (match s.(snap_LockTree) with
    | None => Some []
    | Some sample =>
        if IsZero sample.(tree_SampledAt) then Some []
        else if negb (IsZero s.(snap_Now)) && (lockSampleFresh <? Sub s.(snap_Now) sample.(tree_SampledAt)) then Some []
        else match foldl longer None sample.(tree_Nodes) with
        | None => Some []
        | Some waiter => root ← lockRootBlocker sample waiter.(node_PID); Some [lock_finding waiter root]
        end
    end).
  rewrite Et, Ez. apply Z.ltb_ge in Hfresh. rewrite Hfresh, andb_false_r.
  pose proof (longest_spec sample.(tree_Nodes)) as Hbest. destruct (foldl longer None (tree_Nodes sample)) as [w|]; [|by eexists; split; [|left]].
  destruct (root_blocker_exact sample w.(node_PID)) as (r & -> & Hr). eexists. split; [done|]. right. by exists w, r.
Qed.

Module Chain_.
#[local] Instance prints : UnicodePrint := λ _, true.
#[local] Instance overflow : FloatOverflow := λ _, 0.

(** 40 waits for 20 and 30; 20 waits for 30, which waits for 10. *)
Definition sample : LockTreeSample :=
  mkLockTreeSample (1000 * Hour) [mkLockTreeNode 40 [30; 20] (float_of_int 400); mkLockTreeNode 20 [30] (float_of_int 350); mkLockTreeNode 30 [10] (float_of_int 400)].
Definition snapshot : Snapshot :=
  mkSnapshot (1000 * Hour + Minute) 1 8 RolePrimary 160000 0 0 ∅ ∅ None None None None (mkHostInfo false "" fzero fzero) None None (Some sample) ∅ None (Some ∅) ∅.

Lemma long_wait_exact_witness :
  option_map (List.map Title) (rule_Evaluate long_wait snapshot) = Some ["Session 30 has waited 6 minutes 40 seconds for a lock"] ∧
  ∃ fs, rule_Evaluate long_wait snapshot = Some fs ∧
    ((fs = [] ∧ ∀ n, n ∈ sample.(tree_Nodes) → waits_long n = false) ∨
     ∃ w r, fs = [lock_finding w r] ∧ longest_of sample.(tree_Nodes) w ∧ root_of (by_pid sample.(tree_Nodes)) w.(node_PID) r).
Proof.
  split; [vm_compute; reflexivity|].
  apply (long_wait_exact snapshot sample); [reflexivity|reflexivity|vm_compute; discriminate].
Defined.
End Chain_.
