(* ===== verification/RulesRelation.v ===== *)
(** * The rules about tables and indexes (internal/advisor: rules_relation.go, rules_bloat.go)

    The definition of an index is read as text. [indexMethod] and [indexPredicate] look for a
    keyword in the lowered definition and slice the original one at that offset: [None] is
    the panic when the offset lies beyond its end, which lowering can cause outside ASCII.
    The columns of a definition are cut out of it by offsets too. *)
From S2P Require Import Prelude GoTime GoFloat GoSort GoBytes GoText GoJson GoFmt Pgtype AlertTypes PgIds AdvisorTypes RulesBase.
From S2P Require Import Wire.

(** ** Constants *)

Definition unusedIndexBytes : float64 := float_of_int (10 * 1024 * 1024).
Definition indexBloatBytes : float64 := float_of_int (50 * 1024 * 1024).
Definition tableBloatBytes : float64 := float_of_int (100 * 1024 * 1024).
Definition deadTupleLimit : float64 := float_of_int 10000.
Definition deadTupleRatio : float64 := dec 2 (-1).
Definition autoAnalyzeRatio : float64 := dec 2 (-1).
Definition largeTableRows : float64 := float_of_int 100000.
Definition wraparoundRelationAge : float64 := float_of_int 1000000000.
Definition unusedWindow : Duration := 7 * 24 * Hour.

(** ** Index definitions *)

(** [def[i:]] and [def[b:e]]: [None] is the panic. *)
Definition slice_from (def : text) (i : nat) : option text := if bool_decide (i ≤ length def)%nat then Some (drop i def) else None.

Definition slice (t : text) (b e : nat) : option text := if bool_decide (b ≤ e ≤ length t)%nat then Some (take (e - b) (drop b t)) else None.

Definition TrimSuffix (t suffix : text) : text := if has_prefix (reverse suffix) (reverse t) then take (length t - length suffix) t else t.

Section index_definitions.
Context `{UnicodeLower, UnicodeFold}.

Definition indexMethod (def : string) : option string :=
  match Index (str " using ") (str (to_lower def)) with
  | None => Some ""
  | Some i =>
      rest ← slice_from (str def) (i + String.length " using ");
      Some (match Fields rest with [] => "" | w :: _ => to_lower (of_text (TrimSuffix w (str "("))) end)
  end.

Definition indexPredicate (def : string) : option string :=
  match LastIndex (str " where ") (str (to_lower def)) with
  | None => Some ""
  | Some i => rest ← slice_from (str def) (i + String.length " where "); Some (of_text (TrimSpace rest))
  end.

(** The offset of the parenthesis that closes the first one; [t] is the rest from offset [i]. *)
Fixpoint close_at (depth : Z) (i : nat) (t : text) : option nat :=
  match t with
  | [] => None
  | c :: t =>
      if bool_decide (c = "("%byte) then close_at (depth + 1) (S i) t
      else if bool_decide (c = ")"%byte) then (if depth - 1 =? 0 then Some i else close_at (depth - 1) (S i) t)
      else close_at depth (S i) t
  end.

Definition column (w : text) : string := of_text (TrimSpace w).

(** The parts between the commas that no parenthesis encloses, and where the last one begins;
    [t] is what is left from offset [i]. *)
Fixpoint columns_at (def : text) (depth : Z) (begin i : nat) (t : text) : option (list string * nat) :=
  match t with
  | [] => Some ([], begin)
  | c :: t =>
      if bool_decide (c = "("%byte) then columns_at def (depth + 1) begin (S i) t
      else if bool_decide (c = ")"%byte) then columns_at def (depth - 1) begin (S i) t
      else if bool_decide (c = ","%byte) && (depth =? 0) then
        w ← slice def begin i;
        rest ← columns_at def depth (S i) (S i) t;
        Some (column w :: rest.1, rest.2)
      else columns_at def depth begin (S i) t
  end.

(** The outer [None] is a panic, the inner one the [false] of the source. *)
Definition indexColumns (def : string) : option (option (list string)) :=
  let d := str def in
  match Index (str "(") d with
  | None => Some None
  | Some start =>
      match close_at 0 start (drop start d) with
      | None => Some None
      | Some end_ =>
          if bool_decide (end_ ≤ start + 1)%nat then Some None
          else
            out ← columns_at d 0 (start + 1) (start + 1) (take (end_ - (start + 1)) (drop (start + 1) d));
            w ← slice d out.2 end_;
            Some (Some (out.1 ++ [column w]))
      end
  end.

(** [a[i:]] against [b] from [i] on; [b[i]] panics beyond its end. *)
Fixpoint prefix_at (a b : list string) (i : nat) : option bool :=
  match a with
  | [] => Some true
  | x :: a => y ← b !! i; if EqualFold x y then prefix_at a b (S i) else Some false
  end.
Definition isPrefix (a b : list string) : option bool := if bool_decide (length b ≤ length a)%nat then Some false else prefix_at a b 0.
End index_definitions.

(** ** Scans *)

Definition neverScannedSinceReset (now : Time) (i : IndexStat) : bool :=
  if negb i.(idx_ScanTracked) || bool_decide (i.(idx_LastScan) ≠ None) then false
  else match i.(idx_StatsReset) with None => true | Some t => unusedWindow <=? Sub now t end.

(** Whether a sibling scanned the index, and whether any reported it. *)
Definition standbyScans (s : Snapshot) (key : string) : bool * bool :=
  foldl (λ '(scanned, reported) sib,
    let reported := reported || bool_decide (is_Some (sib.(sib_IndexHashes) !! key)) in
    if default false (sib.(sib_IndexScanned) !! key) then (true, true) else (scanned, reported)) (false, false) (siblings s).

Section relation_rules.
Context `{UnicodeLower, UnicodeFold, UnicodePrint, RangeOrder, FloatOverflow, UuidText}.

(** ** Indexes *)

Definition unused_index (s : Snapshot) (i : IndexStat) : option Finding :=
  let sinceReset := neverScannedSinceReset s.(snap_Now) i in
  if negb sinceReset && flt i.(idx_HistoryDays) (float_of_int 7) then
    Some (degradedRelation "index.unused" SeverityWarning i.(idx_Datname) i.(idx_Name) "index usage history is shorter than 7 days")
  else if negb sinceReset && negb (feq i.(idx_IdxScan) fzero) then None
  else if fle i.(idx_SizeBytes) unusedIndexBytes || i.(idx_IsPrimary) || i.(idx_IsUnique) then None
  else
    let detail := if sinceReset then
        match i.(idx_StatsReset) with
        | None => "no scan of this index since the statistics were reset, at an unknown time"
        | Some t => "no scan of this index since the statistics were reset on " +:+ format_date t
        end
      else Sprintf "no scan of this index was recorded in %.1f days" [AFloat i.(idx_HistoryDays)] in
    let ev := [("peak_scan_rate", AFloat i.(idx_IdxScan)); ("history_days", AFloat i.(idx_HistoryDays)); ("size_bytes", AFloat i.(idx_SizeBytes))]
      ++ (if sinceReset then ("window", AString "since statistics reset") :: match i.(idx_StatsReset) with Some t => [("stats_reset", AString (format_RFC3339 t))] | None => [] end else []) in
    let f := relationFinding "index.unused" SeverityWarning i.(idx_Datname) i.(idx_Name) "Unused index" detail
      "Confirm workload intent, including queries served by standbys, before dropping this candidate" (Some ev) in
    let '(scanned, reported) := standbyScans s (databaseFactKey i.(idx_Datname) i.(idx_Name)) in
    if scanned then None
    else if negb reported then
      Some (mkFinding f.(RuleID) f.(Severity) StateDegraded f.(Scope) None None f.(Datname) f.(ObjectName) f.(Title) f.(Detail) f.(Remediation) f.(Evidence)
        "standby scans unknown: no sibling snapshot")
    else Some f.

Definition index_unused : Rule := relationRule "index.unused" SeverityWarning ["Indexes"] (answers (λ s,
  if bool_decide (s.(snap_Role) = RoleStandby) then [] else omap (unused_index s) (indexes s))).

(** The groups of indexes with one definition, in the order of their first index. *)
Definition group_key (i : IndexStat) : option string :=
  method ← indexMethod i.(idx_IndexDef);
  Some (i.(idx_Datname) +:+ nul +:+ i.(idx_TableName) +:+ nul +:+ method +:+ nul +:+ i.(idx_DefHash)).

Fixpoint duplicate_groups (l : list IndexStat) (groups : gmap string (list IndexStat)) (keys : list string) : option (gmap string (list IndexStat) * list string) :=
  match l with
  | [] => Some (groups, keys)
  | i :: l =>
      if bool_decide (i.(idx_DefHash) = "") then duplicate_groups l groups keys
      else
        match group_key i with
        | None => None
        | Some key =>
            let keys := match groups !! key with Some _ => keys | None => keys ++ [key] end in
            duplicate_groups l (<[key := default [] (groups !! key) ++ [i]]> groups) keys
        end
  end.

Definition duplicate_finding (g : list IndexStat) : option Finding :=
  match g with
  | i :: _ :: _ =>
      let names := sort_strings (List.map idx_Name g) in
      Some (relationFinding "index.duplicate" SeverityWarning i.(idx_Datname) i.(idx_TableName) "Duplicate indexes"
        (Sprintf "indexes %s share a definition" [AString (Join ", " names)]) "Drop the non-primary, non-unique duplicate after validation"
        (Some [("indexes", AList (List.map AString names))]))
  | _ => None
  end.

Definition index_duplicate : Rule := relationRule "index.duplicate" SeverityWarning ["Indexes"] (λ s,
  match duplicate_groups (indexes s) ∅ [] with
  | None => None
  | Some (groups, keys) => Some (omap (λ key, duplicate_finding (default [] (groups !! key))) (sort_strings keys))
  end).

(** Whether index [b] (at place [j]) makes [a] (at place [i], with columns [ac]) redundant. *)
Definition extends (i j : nat) (a b : IndexStat) (ac : list string) : option bool :=
  if bool_decide (i = j) || negb (bool_decide (a.(idx_Datname) = b.(idx_Datname))) || negb (bool_decide (a.(idx_TableName) = b.(idx_TableName))) || a.(idx_IsUnique) then Some false
  else
    method ← indexMethod b.(idx_IndexDef);
    own ← indexMethod a.(idx_IndexDef);
    if negb (bool_decide (own = method)) || (negb (bool_decide (method = "")) && negb (bool_decide (method = "btree"))) then Some false
    else
      pa ← indexPredicate a.(idx_IndexDef);
      pb ← indexPredicate b.(idx_IndexDef);
      if negb (bool_decide (pa = pb)) then Some false
      else bc ← indexColumns b.(idx_IndexDef); match bc with Some bc => isPrefix ac bc | None => Some false end.

Definition redundant_finding (a b : IndexStat) : Finding :=
  relationFinding "index.redundant_prefix" SeverityInfo a.(idx_Datname) a.(idx_Name) "Redundant index prefix"
    (Sprintf "%s is a prefix of %s" [AString a.(idx_Name); AString b.(idx_Name)]) "Review whether the shorter non-unique index can be removed"
    (Some [("prefix", AString a.(idx_Name)); ("extended", AString b.(idx_Name))]).

(** The first index that extends [a]. *)
Fixpoint first_extension (i j : nat) (a : IndexStat) (ac : list string) (l : list IndexStat) : option (option IndexStat) :=
  match l with
  | [] => Some None
  | b :: l =>
      match extends i j a b ac with
      | None => None
      | Some true => Some (Some b)
      | Some false => first_extension i (S j) a ac l
      end
  end.

Fixpoint redundant_from (all : list IndexStat) (i : nat) (l : list IndexStat) : option (list Finding) :=
  match l with
  | [] => Some []
  | a :: l =>
      columns ← indexColumns a.(idx_IndexDef);
      match columns with
      | None => redundant_from all (S i) l
      | Some ac =>
          match first_extension i 0 a ac all with
          | None => None
          | Some b =>
              rest ← redundant_from all (S i) l;
              Some (match b with Some b => redundant_finding a b :: rest | None => rest end)
          end
      end
  end.

Definition index_redundant_prefix : Rule := relationRule "index.redundant_prefix" SeverityInfo ["Indexes"] (λ s, redundant_from (indexes s) 0 (indexes s)).

Definition index_invalid : Rule := relationRule "index.invalid" SeverityCritical ["Indexes"] (answers (λ s,
  omap (λ i, if i.(idx_IsValid) then None
    else Some (relationFinding "index.invalid" SeverityCritical i.(idx_Datname) i.(idx_Name) "Invalid index" "index is not valid and is still maintained on writes"
      "Rebuild or drop the invalid index" (Some [("is_valid", ABool false)]))) (indexes s))).

Definition relationBloat (s : Snapshot) (id sev kind : string) (ratio size : float64) (title : string) : list Finding :=
  omap (λ b, if bool_decide (b.(blo_Kind) = kind) && fgt b.(blo_Ratio) ratio && fgt b.(blo_SizeBytes) size then
    Some (relationFinding id sev b.(blo_Datname) b.(blo_Name) title (Sprintf "bloat ratio is %.1f%%" [AFloat (fmul b.(blo_Ratio) (float_of_int 100))])
      "Schedule maintenance after confirming workload impact" (Some [("bloat_ratio", AFloat b.(blo_Ratio)); ("size_bytes", AFloat b.(blo_SizeBytes)); ("method", AString b.(blo_Method))]))
    else None) (bloats s).

Definition index_bloat_high : Rule := relationRule "index.bloat_high" SeverityWarning ["Bloat"] (answers (λ s,
  relationBloat s "index.bloat_high" SeverityWarning "index" (dec 4 (-1)) indexBloatBytes "Index bloat is high")).

Definition divergence (sib : SiblingInfo) (key own : string) : option Finding :=
  let '(datname, name, _) := Cut key NUL in
  let peer := uuid_String sib.(sib_InstanceID) in
  let report detail ev := Some (relationFinding "index.divergence" SeverityWarning datname (name +:+ "@" +:+ peer) "Index topology diverges" detail
    "Reconcile index definitions after confirming replication state" (Some [(ev, AString peer)])) in
  match sib.(sib_IndexHashes) !! key with
  | None => report (Sprintf "index %s is absent on sibling %s" [AString name; AString peer]) "missing_on"
  | Some other => if bool_decide (other = own) then None else report (Sprintf "index %s has a different definition on sibling %s" [AString name; AString peer]) "differs_on"
  end.

Definition index_divergence : Rule := relationRule "index.divergence" SeverityWarning ["Siblings"] (answers (λ s,
  let own := facts_of s "index_def" in
  let keys := sort_strings (visit own).*1 in
  siblings s ≫= λ sib,
    if bool_decide (size sib.(sib_IndexHashes) = 0%nat) then []
    else omap (λ key, divergence sib key (default "" ((λ f, flabel f "def_hash") <$> own !! key))) keys)).

(** ** Tables *)

Definition per_table (f : TableStat → option Finding) (s : Snapshot) : list Finding := omap f (tables s).

Definition dead_tuples_high : Rule := relationRule "table.dead_tuples_high" SeverityWarning ["Tables"] (answers (per_table (λ t,
  let r := fdiv t.(tab_NDeadTup) t.(tab_NLiveTup) in
  if fgt t.(tab_NLiveTup) fzero && fgt r deadTupleRatio && fge t.(tab_NDeadTup) deadTupleLimit then
    Some (relationFinding "table.dead_tuples_high" SeverityWarning t.(tab_Datname) t.(tab_Name) "Dead tuples are high"
      (Sprintf "dead/live tuple ratio is %.1f%%" [AFloat (fmul r (float_of_int 100))]) "Investigate autovacuum and vacuum this table"
      (Some [("ratio", AFloat r); ("dead_tuples", AFloat t.(tab_NDeadTup))]))
  else None))).

Definition never_autovacuumed : Rule := relationRule "table.never_autovacuumed" SeverityWarning ["Tables"] (answers (λ s,
  if bool_decide (s.(snap_Role) = RoleStandby) then []
  else per_table (λ t,
    if fgt t.(tab_NLiveTup) largeTableRows && bool_decide (t.(tab_LastAutovacuum) = None) && bool_decide (t.(tab_LastVacuum) = None) then
      Some (relationFinding "table.never_autovacuumed" SeverityWarning t.(tab_Datname) t.(tab_Name) "Table never vacuumed" "no vacuum or autovacuum timestamp is available"
        "Check autovacuum coverage for this table" None)
    else None) s)).

Definition autoanalyze_stale : Rule := relationRule "table.autoanalyze_stale" SeverityInfo ["Tables"] (answers (per_table (λ t,
  let r := fdiv t.(tab_NModSinceAnalyze) t.(tab_NLiveTup) in
  if fgt t.(tab_NLiveTup) fzero && fgt r autoAnalyzeRatio then
    Some (relationFinding "table.autoanalyze_stale" SeverityInfo t.(tab_Datname) t.(tab_Name) "Table statistics are stale" "modifications exceed 20% of live tuples"
      "Analyze the table and review autoanalyze settings" (Some [("ratio", AFloat r)]))
  else None))).

Definition table_wraparound_risk : Rule := relationRule "table.wraparound_risk" SeverityCritical ["Tables"] (answers (per_table (λ t,
  if fgt t.(tab_RelfrozenXIDAge) wraparoundRelationAge then
    Some (relationFinding "table.wraparound_risk" SeverityCritical t.(tab_Datname) t.(tab_Name) "Table wraparound risk"
      (Sprintf "relfrozenxid age is %.0f" [AFloat t.(tab_RelfrozenXIDAge)]) "Vacuum this relation immediately" (Some [("age", AFloat t.(tab_RelfrozenXIDAge))]))
  else None))).

Definition table_bloat_high : Rule := relationRule "table.bloat_high" SeverityWarning ["Bloat"] (answers (λ s,
  relationBloat s "table.bloat_high" SeverityWarning "table" (dec 3 (-1)) tableBloatBytes "Table bloat is high")).

Definition seq_scan_heavy : Rule := relationRule "table.seq_scan_heavy" SeverityInfo ["Tables"] (answers (per_table (λ t,
  if fgt t.(tab_NLiveTup) largeTableRows && fgt t.(tab_SeqScanRate) fzero && fle t.(tab_IdxScanRate) (fmul t.(tab_SeqScanRate) (dec 1 (-1))) then
    Some (relationFinding "table.seq_scan_heavy" SeverityInfo t.(tab_Datname) t.(tab_Name) "Heavy sequential scans" "this is a missing-index candidate, not a certainty"
      "Review query predicates and execution plans" (Some [("seq_scan_rate", AFloat t.(tab_SeqScanRate)); ("idx_scan_rate", AFloat t.(tab_IdxScanRate))]))
  else None))).

(** ** Vacuum *)

Definition starved (t : TableStat) : bool := fgt t.(tab_NLiveTup) fzero && fgt (fdiv t.(tab_NDeadTup) t.(tab_NLiveTup)) deadTupleRatio.

Definition vacuum_starvation : Rule := relationRule "vacuum.starvation" SeverityCritical ["Tables"; "pg_vacuum_jobs_running"; "settings"] (answers (λ s,
  let busy := default fzero (metricValue s "pg_vacuum_jobs_running") in
  let '(workers, _) := ParseFloat (label (settings s) "autovacuum_max_workers") in
  let count := Z.of_nat (length (List.filter starved (tables s))) in
  if (10 <? count) && fgt workers fzero && fge busy workers then
    let detail := Sprintf "%d tables exceed the dead tuple threshold while all workers are busy" [AInt count] in
    let ev := [("tables", AInt count); ("jobs", AFloat busy); ("workers", AFloat workers)] in
    let '(detail, ev) := match xminHolderEvidence s with
      | Some holder => (withHolderDetail detail holder, ev ++ [("xmin_holder", AMap holder)])
      | None => (detail, ev)
      end in
    [relationFinding "vacuum.starvation" SeverityCritical "" "vacuum" "Vacuum starvation" detail "Investigate blocked or undersized autovacuum workers" (Some ev)]
  else [])).

Definition vacuum_disabled : Rule := relationRule "vacuum.disabled" SeverityCritical ["settings"] (answers (λ s,
  if EqualFold (label (settings s) "autovacuum") "off" then
    [relationFinding "vacuum.disabled" SeverityCritical "" "cluster" "Autovacuum disabled" "autovacuum is off" "Enable autovacuum to prevent table and transaction ID bloat" None]
  else [])).

Definition relation_rules : list Rule :=
  [index_unused; index_duplicate; index_redundant_prefix; index_invalid; index_bloat_high; index_divergence; dead_tuples_high; never_autovacuumed;
   autoanalyze_stale; table_wraparound_risk; table_bloat_high; seq_scan_heavy; vacuum_starvation; vacuum_disabled].

(** ** Tables whose statistics cannot be read (rules_bloat.go) *)

Definition bloatBlindNamed : nat := 10.
Definition bloatEstimateWindow : Duration := 13 * Hour.

Definition blind_name (entry : any) : option string :=
  match entry with
  | AMap m =>
      let relname := string_value (value_at m "relname") in
      if bool_decide (relname = "") then None else Some (string_value (value_at m "schemaname") +:+ "." +:+ relname)
  | _ => None
  end.

Definition bloatBlindNames (raw : option any) : list string :=
  match raw with Some (AList entries) => take bloatBlindNamed (omap blind_name entries) | _ => [] end.

Definition blind_finding (s : Snapshot) (f : Fact) : option Finding :=
  if bool_decide (f.(fact_Datname) = "") || (negb (IsZero s.(snap_Now)) && (bloatEstimateWindow <? Sub s.(snap_Now) f.(fact_ObservedAt))) then None
  else
    let count := match value_at f.(fact_Value) "count" with Some (AFloat x) => x | _ => fzero end in
    if flt count (float_of_int 1) then None
    else
      let names := bloatBlindNames (value_at f.(fact_Value) "tables") in
      let n := to_int64 count in
      let more := wrap64 (n - Z.of_nat (length names)) in
      let reason := "bloat estimate blind: no readable column statistics for " +:+ Join ", " names +:+ (if 0 <? more then Sprintf " and %d more" [AInt more] else "") in
      Some (mkFinding "bloat.estimate_blind" SeverityInfo StateDegraded ScopeDatabase None None f.(fact_Datname) "table statistics" "Bloat estimate blind"
        (Sprintf "%d tables have column statistics the monitoring role cannot read, so no bloat is estimated for them" [AInt n])
        "Grant the monitoring role SELECT on the columns of these tables and row access that row security does not hide, or accept that they are not estimated"
        (Some [("skipped_tables", AInt n); ("tables", AList (List.map AString names))]) reason).

Definition datname_less (a b : Finding) : bool := string_lt a.(Datname) b.(Datname).

Definition estimate_blind : Rule := mkRule "bloat.estimate_blind" SeverityInfo ScopeDatabase ["Bloat"] TierReadOnly (answers (λ s,
  sort_slice datname_less (omap (blind_finding s) (visit (facts_of s BloatUnreadableFact)).*2))).
End relation_rules.
