(* ===== verification/RulesCatalog.v ===== *)
(** * The rules about catalog objects (internal/advisor: rules_catalog.go)

    Triggers, foreign keys, extensions, PostGIS columns, sequences and partitions, read from
    the facts of each database's latest scrape. A map of slices that the code fills while it
    keeps the order of first appearance is the list of groups, [group_by]. *)
From stdpp Require Import pretty.
From S2P Require Import Prelude GoTime GoFloat GoSort GoBytes GoText GoJson GoFmt Pgtype AlertTypes PgIds AdvisorTypes RulesBase.

(** Elements by their key, in the order in which the keys appear. *)
Fixpoint add_to_group {A} (key : string) (x : A) (groups : list (string * list A)) : list (string * list A) :=
  match groups with
  | [] => [(key, [x])]
  | (k, xs) :: groups => if bool_decide (k = key) then (k, xs ++ [x]) :: groups else (k, xs) :: add_to_group key x groups
  end.
Definition group_by {A} (key : A → string) (l : list A) : list (string * list A) :=
  foldl (λ groups x, add_to_group (key x) x groups) [] l.

Section catalog_rules.
Context `{UnicodePrint, RangeOrder, PgxIdentifier, FloatOverflow, TimeParse}.

(** The findings of a loop over the current facts of a kind. *)
Definition per_fact (kind : string) (f : Fact → option Finding) (s : Snapshot) : list Finding := omap f (currentFacts s kind).

(** ** Triggers *)

Definition triggerFactKind : string := "trigger".

Definition internal_disabled (f : Fact) : bool :=
  bool_decide (flabel f "kind" = "internal") && bool_decide (f.(fact_ValueText) = "disabled").
Definition constraint_key (f : Fact) : string := f.(fact_Datname) +:+ nul +:+ (catalogTable f).1 +:+ nul +:+ flabel f "constraint".

Definition constraint_finding (group : list Fact) : option Finding :=
  match group with
  | [] => None
  | f :: _ =>
      let '(table, tableSQL) := catalogTable f in
      let triggers := List.map (λ f, flabel f "trigger") group in
      let kind := if bool_decide (flabel f "constraint_type" = "") then "constraint" else flabel f "constraint_type" in
      let name := if bool_decide (flabel f "constraint" = "") then Join ", " triggers else flabel f "constraint" in
      Some (relationFinding "trigger.constraint_disabled" SeverityCritical f.(fact_Datname) (table +:+ "." +:+ name)
        (Sprintf "The %s %s is not enforced" [AString kind; AString name])
        (Sprintf "The internal triggers that enforce %s %s on %s in database %s are disabled (%s), as ALTER TABLE ... DISABLE TRIGGER ALL leaves them. Rows that violate the constraint can be written while they stay disabled."
          [AString kind; AString name; AString table; AString f.(fact_Datname); AString (Join ", " triggers)])
        (Sprintf "Run ALTER TABLE %s ENABLE TRIGGER ALL, then look for rows written meanwhile that violate %s: enabling the triggers does not check existing rows." [AString tableSQL; AString name])
        (Some [("constraint", AString (flabel f "constraint")); ("constraint_type", AString (flabel f "constraint_type")); ("table", AString table); ("triggers", AList (List.map AString triggers))]))
  end.

Definition constraint_disabled : Rule := relationRule "trigger.constraint_disabled" SeverityCritical ["trigger_inventory"] (answers (λ s,
  omap (λ g, constraint_finding g.2) (group_by constraint_key (List.filter internal_disabled (currentFacts s triggerFactKind))))).

Definition user_disabled : Rule := relationRule "trigger.user_disabled" SeverityWarning ["trigger_inventory"] (answers (per_fact triggerFactKind (λ f,
  if negb (bool_decide (flabel f "kind" = "user")) || negb (bool_decide (f.(fact_ValueText) = "disabled")) then None
  else
    let '(table, tableSQL) := catalogTable f in
    let trigger := flabel f "trigger" in
    Some (relationFinding "trigger.user_disabled" SeverityWarning f.(fact_Datname) (table +:+ "." +:+ trigger)
      (Sprintf "Trigger %s on %s is disabled" [AString trigger; AString table])
      (Sprintf "Trigger %s (%s %s, %s, function %s) on %s in database %s is disabled: writes to the table no longer run it."
        [AString trigger; AString (flabel f "timing"); AString (flabel f "events"); AString (flabel f "level"); AString (flabel f "function"); AString table; AString f.(fact_Datname)])
      (Sprintf "If the trigger should run, ALTER TABLE %s ENABLE TRIGGER %s. If it is retired, drop it so its state is not mistaken for an accident." [AString tableSQL; AString (Sanitize [trigger])])
      (Some [("table", AString table); ("trigger", AString trigger); ("function", AString (flabel f "function"))]))))).

(** ** Foreign keys *)

Definition fkUnindexedFactKind : string := "fk_unindexed".
Definition fkUnindexedWarnBytes : Z := Z.shiftl 10 20.

Definition fk_unindexed : Rule := relationRule "index.fk_unindexed" SeverityWarning ["fk_indexes"] (answers (per_fact fkUnindexedFactKind (λ f,
  let '(table, tableSQL) := catalogTable f in
  let constraint := flabel f "constraint" in
  let bytes := Atoi (flabel f "table_bytes") in
  let severity := if fkUnindexedWarnBytes <=? bytes then SeverityWarning else SeverityInfo in
  let columnsSQL := if bool_decide (flabel f "columns_sql" = "") then f.(fact_ValueText) else flabel f "columns_sql" in
  Some (relationFinding "index.fk_unindexed" severity f.(fact_Datname) (table +:+ "." +:+ constraint)
    (Sprintf "Foreign key %s on %s has no index" [AString constraint; AString table])
    (Sprintf "No index on %s in database %s leads with (%s), the columns of foreign key %s referencing %s. Every DELETE of a row of %s, and every UPDATE of its key, scans %s (%s) for referencing rows while holding its locks."
      [AString table; AString f.(fact_Datname); AString f.(fact_ValueText); AString constraint; AString (flabel f "referenced"); AString (flabel f "referenced"); AString table; AString (formatCatalogBytes bytes)])
    (Sprintf "If rows of %s are deleted or their keys updated, CREATE INDEX CONCURRENTLY ON %s (%s). If they never are, the index is not needed."
      [AString (flabel f "referenced"); AString tableSQL; AString columnsSQL])
    (Some [("table", AString table); ("constraint", AString constraint); ("columns", AString f.(fact_ValueText)); ("referenced", AString (flabel f "referenced")); ("table_bytes", AInt bytes)]))))).

(** ** Extensions and PostGIS *)

Definition extensionFactKind : string := "extension".
Definition spatialColumnFactKind : string := "spatial_column".
Definition spatialRowsWarn : float64 := float_of_int 10000.
Definition postgisExtensions : list string :=
  ["postgis"; "postgis_raster"; "postgis_topology"; "postgis_sfcgal"; "postgis_tiger_geocoder"; "address_standardizer"; "address_standardizer_data_us"].
Definition upgradable (f : Fact) : bool := bool_decide (flabel f "upgrade" = "available").

Definition extension_upgrade : Rule := databaseRule (relationRule "extension.upgrade_available" SeverityInfo ["extensions"] (answers (per_fact extensionFactKind (λ f,
  if negb (upgradable f) || bool_decide (f.(fact_Key) ∈ postgisExtensions) then None
  else
    Some (databaseFinding "extension.upgrade_available" SeverityInfo f.(fact_Datname) f.(fact_Key)
      (Sprintf "Extension %s can be updated to %s" [AString f.(fact_Key); AString (flabel f "default_version")])
      (Sprintf "Database %s runs extension %s %s; the installed packages carry %s. Until the extension is updated, the database keeps the objects of the older version."
        [AString f.(fact_Datname); AString f.(fact_Key); AString f.(fact_ValueText); AString (flabel f "default_version")])
      (Sprintf "Read the extension's release notes, then, connected to %s as its owner, ALTER EXTENSION %s UPDATE." [AString f.(fact_Datname); AString (Sanitize [f.(fact_Key)])])
      (Some [("extension", AString f.(fact_Key)); ("installed_version", AString f.(fact_ValueText)); ("default_version", AString (flabel f "default_version"))])))))).

Definition postgis_upgrade : Rule := databaseRule (relationRule "postgis.upgrade_available" SeverityWarning ["extensions"] (answers (λ s,
  List.map (λ '(datname, pending),
    let versions := List.map (λ f, Sprintf "%s %s → %s" [AString f.(fact_Key); AString f.(fact_ValueText); AString (flabel f "default_version")]) pending in
    databaseFinding "postgis.upgrade_available" SeverityWarning datname "postgis"
      (Sprintf "PostGIS in database %s is older than its library" [AString datname])
      (Sprintf "The PostGIS packages were updated but the extensions of database %s were not (%s). Its SQL functions still come from the older release while the library is the newer one." [AString datname; AString (Join ", " versions)])
      (Sprintf "Connected to %s as a superuser, SELECT postgis_extensions_upgrade(); after reading the PostGIS upgrade notes." [AString datname])
      (Some [("extensions", AList (List.map AString versions))]))
    (group_by fact_Datname (List.filter (λ f, upgradable f && bool_decide (f.(fact_Key) ∈ postgisExtensions)) (currentFacts s extensionFactKind)))))).

Definition spatial_unindexed : Rule := relationRule "postgis.spatial_unindexed" SeverityWarning ["postgis_columns"] (answers (per_fact spatialColumnFactKind (λ f,
  if negb (bool_decide (flabel f "index_method" = "")) then None
  else
    let '(table, tableSQL) := catalogTable f in
    let column := flabel f "column" in
    let '(rows, _) := ParseFloat (flabel f "rows") in
    let severity := if fgt rows spatialRowsWarn then SeverityWarning else SeverityInfo in
    Some (relationFinding "postgis.spatial_unindexed" severity f.(fact_Datname) (table +:+ "." +:+ column)
      (Sprintf "Spatial column %s.%s has no spatial index" [AString table; AString column])
      (Sprintf "No valid GiST, SP-GiST or BRIN index on %s in database %s starts with %s column %s (about %.0f rows). Bounding-box searches (&&, ST_Intersects, ST_DWithin) on it read the whole table."
        [AString table; AString f.(fact_Datname); AString f.(fact_ValueText); AString column; AFloat rows])
      (Sprintf "If the column is searched spatially, CREATE INDEX CONCURRENTLY ON %s USING gist (%s)." [AString tableSQL; AString (Sanitize [column])])
      (Some [("table", AString table); ("column", AString column); ("type", AString f.(fact_ValueText)); ("rows", AFloat rows)]))))).

Definition srid_unknown : Rule := relationRule "postgis.srid_unknown" SeverityWarning ["postgis_columns"] (answers (per_fact spatialColumnFactKind (λ f,
  if negb (bool_decide (flabel f "srid_known" = "false")) then None
  else
    let '(table, _) := catalogTable f in
    let column := flabel f "column" in
    let reason := if bool_decide (flabel f "srid" = "0") then "is declared without an SRID (0)"
      else Sprintf "is declared with SRID %s, which spatial_ref_sys does not define" [AString (flabel f "srid")] in
    Some (relationFinding "postgis.srid_unknown" SeverityWarning f.(fact_Datname) (table +:+ "." +:+ column)
      (Sprintf "Spatial column %s.%s has no known coordinate system" [AString table; AString column])
      (Sprintf "Column %s of %s in database %s (%s(%s)) %s, so PostGIS cannot transform its values or measure them in real units."
        [AString column; AString table; AString f.(fact_Datname); AString f.(fact_ValueText); AString (flabel f "subtype"); AString reason])
      ("Find the coordinate system the data was captured in and declare it: ALTER TABLE ... ALTER COLUMN ... TYPE " +:+ f.(fact_ValueText) +:+ "(" +:+ flabel f "subtype" +:+
       ", <srid>) USING ST_SetSRID(column, <srid>), or add the missing definition to spatial_ref_sys.")
      (Some [("table", AString table); ("column", AString column); ("srid", AString (flabel f "srid"))]))))).

Definition has_srid (f : Fact) : bool :=
  bool_decide (f.(fact_ValueText) = "geometry") && negb (bool_decide (flabel f "srid" = "")) && negb (bool_decide (flabel f "srid" = "0")).

(** The coordinate systems of a database in the order of their names, with their columns. *)
Definition srid_counts (group : list Fact) : list (string * Z) :=
  let counts := List.map (λ g, (g.1, Z.of_nat (length g.2))) (group_by (λ f, flabel f "srid") group) in
  sort_slice (λ a b, string_lt a.1 b.1) counts.

Definition mixed_finding (datname : string) (group : list Fact) : option Finding :=
  let counts := srid_counts group in
  if bool_decide (length counts < 2)%nat then None
  else
    let parts := List.map (λ '(srid, n), Sprintf "SRID %s (%s)" [AString srid; AString (plural n "column")]) counts in
    Some (databaseFinding "postgis.srid_mixed" SeverityInfo datname "postgis"
      (Sprintf "Geometry columns in database %s use %d coordinate systems" [AString datname; AInt (Z.of_nat (length counts))])
      (Sprintf "The geometry columns of database %s are declared in %s. A spatial join or comparison between columns of different SRIDs fails, or needs ST_Transform on every row." [AString datname; AString (Join ", " parts)])
      "If the columns are compared with each other, store them in one SRID, or keep a transformed, indexed copy of the ones that are joined."
      (Some [("srids", AMap (List.map (λ p, (p.1, AInt p.2)) counts))])).

Definition srid_mixed : Rule := databaseRule (relationRule "postgis.srid_mixed" SeverityInfo ["postgis_columns"] (answers (λ s,
  omap (λ g, mixed_finding g.1 g.2) (group_by fact_Datname (List.filter has_srid (currentFacts s spatialColumnFactKind)))))).

(** ** Sequences *)

Definition sequenceFactKind : string := "sequence".
Definition sequenceWarnRatio : float64 := dec 75 (-2).
Definition sequenceCriticalRatio : float64 := dec 90 (-2).

Definition sequenceName (f : Fact) : string * string :=
  let schema := flabel f "schemaname" in
  let name := flabel f "sequence" in
  (schema +:+ "." +:+ name, Sanitize [schema; name]).

(** The column as shown, the SQL that widens it, and whether there is one. *)
Definition sequenceColumn (f : Fact) : string * string * bool :=
  if bool_decide (flabel f "column" = "") then ("", "", false)
  else
    let schema := flabel f "table_schema" in
    let table := flabel f "table" in
    let column := flabel f "column" in
    (Sprintf "%s.%s.%s (%s)" [AString schema; AString table; AString column; AString (flabel f "column_type")],
     Sprintf "ALTER TABLE %s ALTER COLUMN %s TYPE bigint" [AString (Sanitize [schema; table]); AString (Sanitize [column])], true).

Definition integerTypeBound (typ : string) : string :=
  if bool_decide (typ = "smallint") then pretty (2 ^ 15 - 1)
  else if bool_decide (typ = "integer") then pretty (2 ^ 31 - 1)
  else if bool_decide (typ = "bigint") then pretty max_int64
  else "".

Definition rewrite_warning : string :=
  " This rewrites the table under an ACCESS EXCLUSIVE lock, and the columns that reference it through foreign keys need the same change; on a large table, add a bigint column, fill it in batches and swap it in instead.".

Definition sequenceRemediation (f : Fact) : string :=
  let '(_, seqSQL) := sequenceName f in
  let '(column, widen, linked) := sequenceColumn f in
  let ascending := negb (HasPrefix (flabel f "increment") "-") in
  if bool_decide (flabel f "limit_source" = "column") ||
     (linked && bool_decide (flabel f "limit" = integerTypeBound (flabel f "column_type")) && negb (bool_decide (flabel f "column_type" = "bigint"))) then
    Sprintf "The type of column %s sets the limit: %s." [AString column; AString widen] +:+ rewrite_warning +:+
    (if negb (bool_decide (flabel f "data_type" = "bigint")) then Sprintf " Then ALTER SEQUENCE %s AS bigint." [AString seqSQL] else "")
  else if negb (bool_decide (flabel f "data_type" = "bigint")) then
    Sprintf "The sequence's own type sets the limit. ALTER SEQUENCE %s AS bigint raises it without rewriting any table." [AString seqSQL]
  else if ascending then
    Sprintf "The sequence's MAXVALUE sets the limit. ALTER SEQUENCE %s NO MAXVALUE raises it to the bigint limit without rewriting any table." [AString seqSQL]
  else
    Sprintf "The sequence's MINVALUE sets the limit. ALTER SEQUENCE %s NO MINVALUE lowers it to the bigint limit without rewriting any table." [AString seqSQL].

Definition exhaustion_risk : Rule := relationRule "sequence.exhaustion_risk" SeverityCritical ["sequences"] (answers (per_fact sequenceFactKind (λ f,
  let '(ratio, ok) := ParseFloat (flabel f "used_ratio") in
  if negb ok || negb (bool_decide (flabel f "exhausts" = "true")) || flt ratio sequenceWarnRatio then None
  else
    let severity := if fge ratio sequenceCriticalRatio then SeverityCritical else SeverityWarning in
    let '(name, _) := sequenceName f in
    let target := let '(column, _, ok) := sequenceColumn f in if ok then "inserts into " +:+ column else "inserts that draw from it" in
    Some (relationFinding "sequence.exhaustion_risk" severity f.(fact_Datname) name
      (Sprintf "Sequence %s has used %.0f%% of its range" [AString name; AFloat (fmul ratio (float_of_int 100))])
      (Sprintf "Sequence %s in database %s (%s, increment %s) is at %s; %s values remain before %s. Once they run out, %s fail."
        [AString name; AString f.(fact_Datname); AString (flabel f "data_type"); AString (flabel f "increment"); AString (flabel f "last_value"); AString (flabel f "remaining"); AString (flabel f "limit"); AString target])
      (sequenceRemediation f)
      (Some [("sequence", AString name); ("last_value", AString (flabel f "last_value")); ("limit", AString (flabel f "limit")); ("limit_source", AString (flabel f "limit_source")); ("used_ratio", AFloat ratio); ("remaining", AString (flabel f "remaining"))]))))).

Definition column_narrower : Rule := relationRule "sequence.column_narrower" SeverityWarning ["sequences"] (answers (per_fact sequenceFactKind (λ f,
  if negb (bool_decide (flabel f "limit_source" = "column")) then None
  else
    let '(name, seqSQL) := sequenceName f in
    let '(column, widen, _) := sequenceColumn f in
    Some (relationFinding "sequence.column_narrower" SeverityWarning f.(fact_Datname) name
      (Sprintf "Column %s overflows before sequence %s runs out" [AString column; AString name])
      (Sprintf "Sequence %s in database %s is %s (bounds %s to %s) but feeds column %s: inserts fail once it passes %s, whatever its own limit says."
        [AString name; AString f.(fact_Datname); AString (flabel f "data_type"); AString (flabel f "min"); AString (flabel f "max"); AString column; AString (flabel f "limit")])
      (Sprintf "%s (this rewrites the table under an ACCESS EXCLUSIVE lock), or, if the column is meant to stay as it is, give the sequence the column's bound (ALTER SEQUENCE %s AS %s) so the limit is stated where it applies."
        [AString widen; AString seqSQL; AString (flabel f "column_type")])
      (Some [("sequence", AString name); ("data_type", AString (flabel f "data_type")); ("column", AString column); ("limit", AString (flabel f "limit"))]))))).

Definition value_hidden : Rule := databaseRule (relationRule "sequence.value_hidden" SeverityInfo ["sequences"] (answers (λ s,
  List.map (λ '(datname, group),
    let names := List.map (λ f, (sequenceName f).1) group in
    let n := Z.of_nat (length names) in
    let examples := take 5 names in
    databaseFinding "sequence.value_hidden" SeverityInfo datname "sequences"
      (Sprintf "pglens cannot read the values of %s in database %s" [AString (plural n "sequence"); AString datname])
      (Sprintf "The monitoring role has neither SELECT nor USAGE on %s of database %s (%s), so how close they are to their limit is unknown; only a column narrower than its sequence is still detected."
        [AString (plural n "sequence"); AString datname; AString (Join ", " examples)])
      "Run the agent at tier 1 (pg_read_all_data), or GRANT SELECT ON SEQUENCE ... TO the monitoring role for the sequences to watch. Never grant USAGE: it allows nextval(), which advances the sequence."
      (Some [("hidden", AInt n); ("examples", AList (List.map AString examples))]))
    (group_by fact_Datname (List.filter (λ f, bool_decide (f.(fact_ValueText) = "hidden")) (currentFacts s sequenceFactKind)))))).

(** ** Partitions *)

Definition partitionedTableFactKind : string := "partitioned_table".
Definition partitionHorizon : Duration := 7 * 24 * Hour.
Definition partitionLapsedFor : Duration := 30 * 24 * Hour.
Definition partitionAnalyzeRows : float64 := float_of_int 10000.

Definition default_has_rows : Rule := relationRule "partition.default_has_rows" SeverityWarning ["partitions"] (answers (per_fact partitionedTableFactKind (λ f,
  let '(rows, ok) := ParseFloat (flabel f "default_rows") in
  if negb ok || fle rows fzero then None
  else
    let '(table, tableSQL) := catalogTable f in
    let def := flabel f "default_partition" in
    let defSQL := Sanitize [flabel f "default_schema"; flabel f "default_relname"] in
    Some (relationFinding "partition.default_has_rows" SeverityWarning f.(fact_Datname) table
      (Sprintf "Default partition %s holds about %s rows" [AString def; AString (formatCatalogCount rows)])
      (Sprintf "Rows of %s in database %s that match no partition land in its default partition %s (about %s rows). Creating a partition for a range that has rows there fails until they are moved, and attaching any partition scans the default partition."
        [AString table; AString f.(fact_Datname); AString def; AString (formatCatalogCount rows)])
      (Sprintf "Create the partitions those rows belong to: in one transaction, ALTER TABLE %s DETACH PARTITION %s, create the missing partitions, move the rows with INSERT INTO %s SELECT ... and DELETE, then ATTACH PARTITION %s DEFAULT."
        [AString tableSQL; AString defSQL; AString tableSQL; AString defSQL])
      (Some [("table", AString table); ("default_partition", AString def); ("rows", AFloat rows)]))))).

(** The severity, the title and what happens to the rows beyond the last partition. *)
Definition lapse (table default_partition : string) (ahead : Duration) : string * string * string :=
  let hasDefault := negb (bool_decide (default_partition = "")) in
  if ahead <=? 0 then
    let title := Sprintf "Partitions of %s ended %s ago" [AString table; AString (formatCatalogDuration (- ahead))] in
    if hasDefault then (SeverityWarning, title, "rows since then land in the default partition " +:+ default_partition)
    else (SeverityCritical, title, "inserts of rows since then fail")
  else
    (SeverityWarning, Sprintf "Partitions of %s end in %s" [AString table; AString (formatCatalogDuration ahead)],
     if hasDefault then "rows past that point will land in the default partition " +:+ default_partition else "rows past that point will fail to insert").

Definition future_missing : Rule := relationRule "partition.future_missing" SeverityCritical ["partitions"] (answers (λ s,
  if IsZero s.(snap_Now) then []
  else per_fact partitionedTableFactKind (λ f,
    match parse_RFC3339 (flabel f "covered_until") with
    | None => None
    | Some until =>
        let ahead := Sub until s.(snap_Now) in
        if (partitionHorizon <=? ahead) || (ahead <? - partitionLapsedFor) then None
        else
          let '(table, tableSQL) := catalogTable f in
          let '(severity, title, consequence) := lapse table (flabel f "default_partition") ahead in
          Some (relationFinding "partition.future_missing" severity f.(fact_Datname) table title
            (Sprintf "%s in database %s is partitioned by range (%s), and its partitions reach %s: %s."
              [AString table; AString f.(fact_Datname); AString (flabel f "partition_key"); AString (format_minute until); AString consequence])
            (Sprintf "Create the next partitions ahead of time (CREATE TABLE ... PARTITION OF %s FOR VALUES FROM (...) TO (...)), and schedule their creation, with pg_partman or a cron job, so the table never runs out." [AString tableSQL])
            (Some [("table", AString table); ("covered_until", AString (flabel f "covered_until")); ("default_partition", AString (flabel f "default_partition"))]))
    end) s)).

Definition partition_index_invalid : Rule := relationRule "partition.index_invalid" SeverityWarning ["partitions"] (answers (per_fact partitionedTableFactKind (λ f,
  if bool_decide (flabel f "invalid_indexes" = "") then None
  else
    let indexes := Split (flabel f "invalid_indexes") "," in
    let '(table, _) := catalogTable f in
    let unique := if negb (bool_decide (flabel f "invalid_unique_indexes" = "")) && negb (bool_decide (flabel f "invalid_unique_indexes" = "0"))
      then " A unique index among them does not enforce uniqueness on the partitions that lack it." else "" in
    let n := Z.of_nat (length indexes) in
    let '(noun, verb) := if 1 <? n then ("indexes", "are") else ("index", "is") in
    Some (relationFinding "partition.index_invalid" SeverityWarning f.(fact_Datname) table
      (Sprintf "%d partitioned %s of %s %s not valid" [AInt n; AString noun; AString table; AString verb])
      (Sprintf "Partitioned %s %s of %s in database %s %s not valid: some partitions have no matching index attached, so queries on them cannot use it.%s"
        [AString noun; AString (Join ", " indexes); AString table; AString f.(fact_Datname); AString verb; AString unique])
      "For each partition without the index, CREATE INDEX CONCURRENTLY on the partition, then ALTER INDEX <partitioned index> ATTACH PARTITION <new index>. The partitioned index becomes valid once every partition has one attached."
      (Some [("table", AString table); ("indexes", AList (List.map AString indexes))]))))).

Definition parent_not_analyzed : Rule := relationRule "partition.parent_not_analyzed" SeverityInfo ["partitions"] (answers (per_fact partitionedTableFactKind (λ f,
  let '(rows, _) := ParseFloat (flabel f "rows") in
  if negb (bool_decide (flabel f "analyzed_at" = "")) || flt rows partitionAnalyzeRows then None
  else
    let '(table, tableSQL) := catalogTable f in
    Some (relationFinding "partition.parent_not_analyzed" SeverityInfo f.(fact_Datname) table
      (Sprintf "Partitioned table %s has never been analyzed" [AString table])
      (Sprintf "%s in database %s holds about %s rows in %s partitions, but has no statistics of its own: autovacuum analyzes partitions, never a partitioned table. The planner uses the table's statistics to estimate joins and queries that span partitions."
        [AString table; AString f.(fact_Datname); AString (formatCatalogCount rows); AString (flabel f "partitions")])
      (Sprintf "ANALYZE %s; and again after large changes in its data, for example from a scheduled job." [AString tableSQL])
      (Some [("table", AString table); ("rows", AFloat rows)]))))).

Definition catalog_rules : list Rule :=
  [constraint_disabled; user_disabled; fk_unindexed; extension_upgrade; postgis_upgrade; spatial_unindexed; srid_unknown; srid_mixed;
   exhaustion_risk; column_narrower; value_hidden; default_has_rows; future_missing; partition_index_invalid; parent_not_analyzed].
End catalog_rules.
