(* ===== verification/RulesObject.v ===== *)
(** * The rules about functions, standbys, WAL and logical replication (internal/advisor:
    rules_function.go, rules_internals.go, rules_subscription.go) *)
From S2P Require Import Prelude GoTime GoFloat GoSort GoBytes GoText GoJson GoFmt Pgtype AlertTypes PgIds AdvisorTypes RulesBase RulesCatalog.

Section object_rules.
Context `{UnicodePrint, RangeOrder, PgxIdentifier, FloatOverflow, TimeParse}.

(** ** Functions (rules_function.go) *)

Definition functionTrackingFactKind : string := "function_tracking".
Definition securityDefinerFactKind : string := "security_definer_function".

Definition upperKind (kind : string) : string := if bool_decide (kind = "procedure") then "PROCEDURE" else "FUNCTION".

Definition secdef_finding (f : Fact) : Finding :=
  let kind := if bool_decide (flabel f "kind" = "procedure") then "procedure" else "function" in
  let superuser := bool_decide (flabel f "owner_superuser" = "true") in
  let public := bool_decide (flabel f "public_execute" = "true") in
  let severity := if superuser && public then SeverityCritical else SeverityWarning in
  let owner := (if superuser then "superuser " else "role ") +:+ flabel f "owner" in
  let callers := if public then "Every role can call it: PUBLIC has EXECUTE, as it does on any function by default." else "Only the roles granted EXECUTE can call it." in
  let revoke := if public then Sprintf " Then REVOKE EXECUTE ON %s %s FROM PUBLIC; and grant EXECUTE to the roles that need it." [AString (upperKind kind); AString f.(fact_Key)] else "" in
  relationFinding "function.secdef_no_search_path" severity f.(fact_Datname) f.(fact_Key)
    (Sprintf "SECURITY DEFINER %s %s does not pin search_path" [AString kind; AString f.(fact_Key)])
    (Sprintf "%s in database %s runs with the privileges of its owner, %s, but finds the tables, functions and operators its body names through the caller's search_path. A caller who can create objects in a schema on that path, or a temporary table, can make it use their objects with those privileges. %s"
      [AString f.(fact_Key); AString f.(fact_Datname); AString owner; AString callers])
    (Sprintf "ALTER %s %s SET search_path = %s, pg_temp; with pg_temp last, and schema-qualify the objects its body uses.%s"
      [AString (upperKind kind); AString f.(fact_Key); AString (Sanitize [flabel f "schemaname"]); AString revoke])
    (Some [("function", AString f.(fact_Key)); ("owner", AString (flabel f "owner")); ("owner_superuser", ABool superuser); ("public_execute", ABool public); ("language", AString (flabel f "language"))]).

Definition secdef_no_search_path : Rule := relationRule "function.secdef_no_search_path" SeverityCritical ["function_security"] (answers (per_fact securityDefinerFactKind (λ f,
  if negb (bool_decide (f.(fact_ValueText) = "unpinned")) then None else Some (secdef_finding f)))).

Definition function_untracked : Rule := databaseRule (relationRule "function.untracked" SeverityInfo ["function_stats"] (answers (per_fact functionTrackingFactKind (λ f,
  let pl := Atoi (flabel f "pl_functions") in
  if negb (bool_decide (f.(fact_ValueText) = "none")) || negb (bool_decide (flabel f "tracked" = "0")) || (pl =? 0) then None
  else
    Some (databaseFinding "function.untracked" SeverityInfo f.(fact_Datname) "functions"
      (Sprintf "Function calls are not tracked in database %s" [AString f.(fact_Datname)])
      (Sprintf "track_functions is none for the sessions of database %s, so pg_stat_user_functions is empty: how often its %s in a procedural language (trigger functions among them) run, and how long they take, is unknown."
        [AString f.(fact_Datname); AString (plural pl "function")])
      (Sprintf "ALTER SYSTEM SET track_functions = 'pl'; SELECT pg_reload_conf(); or, for this database only, ALTER DATABASE %s SET track_functions = 'pl';. 'pl' costs little; 'all' also tracks SQL and C functions at a higher cost, and an SQL function the planner inlines is never tracked. pglens never changes the setting." [AString (Sanitize [f.(fact_Datname)])])
      (Some [("track_functions", AString f.(fact_ValueText)); ("pl_functions", AInt pl)])))))).

Definition function_rules : list Rule := [secdef_no_search_path; function_untracked].

(** ** Standbys and WAL (rules_internals.go) *)

Definition recoveryConflictAdvice (reason : string) : option string :=
  if bool_decide (reason = "snapshot") then Some "snapshot: replay removed rows a standby query could still see (VACUUM on the primary). hot_standby_feedback = on keeps them on the primary, at the cost of bloat there."
  else if bool_decide (reason = "lock") then Some "lock: replay took an ACCESS EXCLUSIVE lock (TRUNCATE, DROP, ALTER TABLE, or VACUUM truncating a table's empty tail, which ALTER TABLE ... SET (vacuum_truncate = off) stops)."
  else if bool_decide (reason = "bufferpin") then Some "bufferpin: replay waited for a page a standby query kept pinned."
  else if bool_decide (reason = "deadlock") then Some "deadlock: a standby query and replay waited for each other on a buffer pin."
  else if bool_decide (reason = "tablespace") then Some "tablespace: replay dropped a tablespace that standby queries used for temporary files; point temp_tablespaces elsewhere on the standby."
  else if bool_decide (reason = "active_logicalslot") then Some "active_logicalslot: a logical slot on the standby was invalidated because the primary removed rows its decoding needs; hot_standby_feedback = on with a physical slot between primary and standby prevents it."
  else None.

Definition walDirectoryMultiple : float64 := float_of_int 2.

(** The rates by database and reason, in the order the range meets the series. *)
Definition conflict_rates (s : Snapshot) : gmap string (gmap string float64) :=
  foldl (λ rates '(key, rate),
    let db := canonicalLabel key "database" in
    if fle rate fzero || bool_decide (db = "") then rates
    else <[db := <[canonicalLabel key "reason" := rate]> (default ∅ (rates !! db))]> rates) ∅ (visit (series_of s "pg_recovery_conflicts_total")).

Definition sorted_keys {V} (m : gmap string V) : list string := sort_strings (map_to_list m).*1.

Definition conflict_finding (db : string) (rates : gmap string float64) : Finding :=
  let reasons := sorted_keys rates in
  let rate reason := default fzero (rates !! reason) in
  let counted := List.map (λ reason, Sprintf "%s %.1f/min" [AString reason; AFloat (fmul (rate reason) (float_of_int 60))]) reasons in
  let advice := omap recoveryConflictAdvice reasons in
  databaseFinding "standby.recovery_conflicts" SeverityWarning db "recovery_conflicts"
    (Sprintf "Standby queries on %s are cancelled by WAL replay" [AString db])
    (Sprintf ("Since the previous scrape, replay on this standby cancelled queries of database %s that conflicted with the changes it applied (%s). Each one fails with " +:+ dq +:+ "canceling statement due to conflict with recovery" +:+ dq +:+ ". %s")
      [AString db; AString (Join ", " counted); AString (Join " " advice)])
    "Raise max_standby_streaming_delay (and max_standby_archive_delay) on the standby to let queries finish before replay cancels them, at the cost of the standby falling behind while they run; or remove the cause on the primary, as the detail says per reason."
    (Some [("conflicts_per_second", AMap (List.map (λ reason, (reason, AFloat (rate reason))) reasons))]).

Definition recovery_conflicts : Rule := databaseRule (relationRule "standby.recovery_conflicts" SeverityWarning ["recovery"] (answers (λ s,
  let rates := conflict_rates s in
  List.map (λ db, conflict_finding db (default ∅ (rates !! db))) (sorted_keys rates)))).

Definition replay_paused : Rule := instanceObjectRule (relationRule "standby.replay_paused" SeverityWarning ["recovery"] (answers (λ s,
  match Snapshot_Metric s "pg_recovery_replay_paused" ∅ with
  | None => []
  | Some paused =>
      if flt paused (float_of_int 1) then []
      else [objectFinding "standby.replay_paused" SeverityWarning "wal_replay" "WAL replay is paused on this standby"
        "The standby receives WAL but does not apply it, so its queries see ever older data, and the WAL it has not replayed accumulates in its pg_wal. Replay pauses on pg_wal_replay_pause(), and when recovery reaches a target with recovery_target_action = 'pause'."
        "Once the reason for the pause is over, resume replay as a superuser: SELECT pg_wal_replay_resume();"
        (Some [("replay_paused", ABool true)])]
  end))).

Definition directory_finding (s : Snapshot) (size maxWAL keep : float64) : Finding :=
  let files := default fzero (Snapshot_Metric s "pg_wal_dir_files" ∅) in
  let ready := metricValue s "pg_archiver_ready_files" in
  let archive := match ready with
    | Some ready => if fgt ready fzero then Sprintf " %.0f segments wait for archive_command, which keeps them until it succeeds." [AFloat ready] else ""
    | None => ""
    end in
  objectFinding "wal.directory_large" SeverityWarning "pg_wal"
    (Sprintf "pg_wal holds %s, more than max_wal_size and wal_keep_size explain" [AString (formatCatalogBytes (to_int64 size))])
    (Sprintf "pg_wal holds %s in %.0f files, more than twice max_wal_size (%s) plus wal_keep_size (%s). Something keeps WAL the checkpoints would remove: a replication slot whose consumer is behind or gone, a failing archive_command, or a standby that needs it.%s When the disk fills, the server stops."
      [AString (formatCatalogBytes (to_int64 size)); AFloat files; AString (formatCatalogBytes (to_int64 maxWAL)); AString (formatCatalogBytes (to_int64 keep)); AString archive])
    "Look at the WAL each replication slot retains (pg_replication_slots, the cluster's slots) and drop the slots no consumer uses with pg_drop_replication_slot(); fix archive_command if segments wait for it (pg_stat_archiver.last_failed_wal)."
    (Some ([("wal_dir_bytes", AFloat size); ("max_wal_size_bytes", AFloat maxWAL); ("wal_keep_size_bytes", AFloat keep); ("wal_dir_files", AFloat files)]
      ++ match ready with Some ready => [("archiver_ready_files", AFloat ready)] | None => [] end)).

Definition directory_large : Rule := instanceObjectRule (relationRule "wal.directory_large" SeverityWarning ["wal_directory"; "settings"] (answers (λ s,
  match Snapshot_Metric s "pg_wal_dir_bytes" ∅ with
  | None => []
  | Some size =>
      let '(maxWAL, ok) := settingFloat s "max_wal_size_bytes" in
      if negb ok || fle maxWAL fzero then []
      else
        let '(keep, _) := settingFloat s "wal_keep_size_bytes" in
        if fle size (fadd (fmul walDirectoryMultiple maxWAL) keep) then [] else [directory_finding s size maxWAL keep]
  end))).

Definition internals_rules : list Rule := [recovery_conflicts; replay_paused; directory_large].

(** ** Subscriptions and logical slots (rules_subscription.go) *)

Definition subscriptionFactKind : string := "subscription".
Definition subscriptionSilentFor : Duration := 5 * Minute.
Definition logicalSpillBytesPerSecond : float64 := float_of_int (Z.shiftl 1 20).

Definition subscriptionFinding (id sev : string) (f : Fact) (title detail remediation : string) (ev : evidence) : Finding :=
  mkFinding id sev StateOpen ScopeInstance None None "" ("subscription:" +:+ f.(fact_Key)) title detail remediation ev "".

Definition subscriptionWhere (f : Fact) : string :=
  if bool_decide (flabel f "database" = "") then "Subscription " +:+ f.(fact_Key)
  else Sprintf "Subscription %s (database %s)" [AString f.(fact_Key); AString (flabel f "database")].

Definition formatSilence (d : Duration) : string :=
  if d <? Hour then plural (to_int64 (Minutes d)) "minute" else formatCatalogDuration d.
Definition formatSpill (bytesPerSecond : float64) : string := Sprintf "%.1f MiB" [AFloat (fdiv bytesPerSecond (float_of_int (Z.shiftl 1 20)))].

Definition subscription_disabled : Rule := instanceObjectRule (relationRule "subscription.disabled" SeverityWarning ["logical_replication"] (answers (per_fact subscriptionFactKind (λ f,
  if negb (bool_decide (f.(fact_ValueText) = "disabled")) then None
  else
    let name := Sanitize [f.(fact_Key)] in
    let retains := if bool_decide (flabel f "slot_name" = "") then "It has no slot (slot_name = NONE), so the publisher keeps nothing for it."
      else Sprintf "Its slot %s on the publisher keeps every change it has not confirmed, and the WAL that holds them fills the publisher's disk until the subscription is enabled or the slot dropped." [AString (flabel f "slot_name")] in
    Some (subscriptionFinding "subscription.disabled" SeverityWarning f
      (Sprintf "Subscription %s is disabled" [AString f.(fact_Key)])
      (Sprintf "%s is disabled, so it applies no change from its publications (%s). %s" [AString (subscriptionWhere f); AString (flabel f "publications"); AString retains])
      (Sprintf "Find why it was disabled (with disable_on_error, the subscriber's log names the failed change), fix it, then ALTER SUBSCRIPTION %s ENABLE;. If it is no longer needed, DROP SUBSCRIPTION %s; also drops its slot on the publisher." [AString name; AString name])
      (Some [("subscription", AString f.(fact_Key)); ("slot_name", AString (flabel f "slot_name"))])))))).

Definition no_worker (f : Fact) : Finding :=
  subscriptionFinding "subscription.not_receiving" SeverityWarning f
    (Sprintf "Subscription %s has no apply worker running" [AString f.(fact_Key)])
    (Sprintf "%s is enabled, but no apply worker runs for it, so no change is applied. A worker that fails, on a conflict or a lost connection to the publisher, is restarted after wal_retrieve_retry_interval, and fails again until the cause is fixed." [AString (subscriptionWhere f)])
    (Sprintf "Read the subscriber's log for the apply worker's error. For a conflicting row, fix the row on the subscriber, or skip the transaction with ALTER SUBSCRIPTION %s SKIP (lsn = ...) once its changes are known to be unwanted." [AString (Sanitize [f.(fact_Key)])])
    (Some [("subscription", AString f.(fact_Key)); ("apply_errors", AString (flabel f "apply_errors"))]).

Definition silent_finding (f : Fact) (receipt : Time) (silent : Duration) : Finding :=
  subscriptionFinding "subscription.not_receiving" SeverityWarning f
    (Sprintf "Subscription %s has heard nothing from its publisher for %s" [AString f.(fact_Key); AString (formatSilence silent)])
    (Sprintf "The apply worker of %s last received a message from the publisher at %s. The publisher sends a keepalive at least every half wal_sender_timeout when it has nothing else to send, so the connection is stuck or the publisher's walsender is not running."
      [AString (subscriptionWhere f); AString (format_minute receipt)])
    (Sprintf "Check the publisher's walsender for slot %s (pg_stat_replication) and the network between the two. ALTER SUBSCRIPTION %s DISABLE; then ENABLE; restarts the worker."
      [AString (flabel f "slot_name"); AString (Sanitize [f.(fact_Key)])])
    (Some [("subscription", AString f.(fact_Key)); ("last_msg_receipt_at", AString (flabel f "last_msg_receipt_at"))]).

Definition not_receiving : Rule := instanceObjectRule (relationRule "subscription.not_receiving" SeverityWarning ["logical_replication"] (answers (λ s,
  per_fact subscriptionFactKind (λ f,
    if negb (bool_decide (f.(fact_ValueText) = "enabled")) then None
    else if negb (bool_decide (flabel f "apply_worker" = "true")) then Some (no_worker f)
    else if IsZero s.(snap_Now) then None
    else match parse_RFC3339 (flabel f "last_msg_receipt_at") with
    | None => None
    | Some receipt =>
        let silent := Sub s.(snap_Now) receipt in
        if silent <? subscriptionSilentFor then None else Some (silent_finding f receipt silent)
    end) s))).

Definition subscription_errors : Rule := instanceObjectRule (relationRule "subscription.errors" SeverityWarning ["logical_replication"] (answers (λ s,
  per_fact subscriptionFactKind (λ f,
    let series : gmap string string := {["subscription" := f.(fact_Key)]} in
    let apply := default fzero (Snapshot_Metric s "pg_subscription_apply_errors_total" series) in
    let sync := default fzero (Snapshot_Metric s "pg_subscription_sync_errors_total" series) in
    if fle apply fzero && fle sync fzero then None
    else
      let what := (if fgt apply fzero then ["applying changes"] else []) ++ (if fgt sync fzero then ["copying tables or sequences"] else []) in
      Some (subscriptionFinding "subscription.errors" SeverityWarning f
        (Sprintf "Subscription %s is failing" [AString f.(fact_Key)])
        (Sprintf "The workers of %s failed while %s since the previous scrape (%s apply and %s sync errors in all, since the statistics were last reset); each failure stops the worker until it is restarted."
          [AString (subscriptionWhere f); AString (Join " and " what); AString (flabel f "apply_errors"); AString (flabel f "sync_errors")])
        "Read the subscriber's log for the error: most are a row that conflicts with one already on the subscriber, a missing table or column, or a permission the subscription owner lacks."
        (Some [("subscription", AString f.(fact_Key)); ("apply_errors_per_second", AFloat apply); ("sync_errors_per_second", AFloat sync)]))) s))).

(** [strings.CutPrefix]. *)
Definition CutPrefix (s prefix : string) : option string := if HasPrefix s prefix then Some (TrimPrefix s prefix) else None.

Definition spill_high : Rule := instanceObjectRule (relationRule "logical_slot.spill_high" SeverityInfo ["logical_replication"] (answers (λ s,
  let spills := series_of s "pg_logical_slot_spill_bytes_total" in
  omap (λ labels,
    let rate := default fzero (spills !! labels) in
    match CutPrefix labels "slot_name=" with
    | None => None
    | Some slot =>
        if flt rate logicalSpillBytesPerSecond then None
        else Some (objectFinding "logical_slot.spill_high" SeverityInfo ("slot:" +:+ slot)
          (Sprintf "Logical slot %s spills decoding to disk" [AString slot])
          (Sprintf "Decoding for slot %s writes %s/s of transactions to disk, because they outgrow logical_decoding_work_mem before they commit. Spilled changes are written and read back, which slows replication and adds I/O on this server."
            [AString slot; AString (formatSpill rate)])
          "Raise logical_decoding_work_mem (64MB by default; ALTER SYSTEM SET logical_decoding_work_mem = '256MB'; SELECT pg_reload_conf();), or have the subscription stream large transactions (ALTER SUBSCRIPTION ... SET (streaming = parallel))."
          (Some [("slot_name", AString slot); ("spill_bytes_per_second", AFloat rate)]))
    end) (sorted_keys spills)))).

Definition subscription_rules : list Rule := [subscription_disabled; not_receiving; subscription_errors; spill_high].
End object_rules.
