(* ===== verification/SnapshotLoad.v ===== *)
(** * Loading a snapshot (internal/advisor/snapshot.go)

    Each query's answer is an argument: refused with an error, or rows, one of which may fail
    to scan, and an error at their end. What the SQL selects is not modelled, what the code
    makes of the rows is: the metrics and what is derived from them, the facts with the latest
    batch of settings, relations, statements, siblings, replication and the lock tree. The
    snapshot is filled in place, so an error leaves what was filled before it. *)
From S2P Require Import Prelude GoTime GoFloat GoSort GoBytes GoText GoJson GoFmt Pgtype AlertTypes PgIds AdvisorTypes RulesBase RulesRelation.

(** ** Answers of the database *)

(** An error with the code PostgreSQL gave it, if any. *)
Record dberror := mkDberror { db_code : option string; db_text : string }.

Definition isOptionalSnapshotError (e : dberror) : bool :=
  bool_decide (e.(db_code) = Some "42P01") || bool_decide (e.(db_code) = Some "42703").

(** The rows of a query: [inr] a row that scans; [rows_end] is the error [rows.Err] reports. *)
Record rowset (A : Type) := mkRowset { rows_list : list (dberror + A); rows_end : option dberror }.
Arguments mkRowset {A} _ _.
Arguments rows_list {A} _.
Arguments rows_end {A} _.

Notation query A := (dberror + rowset A)%type.

Record metricRow := mkMetricRow { mr_name : string; mr_labels : text; mr_value : float64; mr_ts : Time }.
Record factRow := mkFactRow {
  fr_kind : string;
  fr_key : string;
  fr_labels : text;
  fr_value : string;
  fr_observed : Time;
  fr_datname : string;
  fr_object : text;
}.
Record tableRow := mkTableRow { tr_schema : string; tr_relation : string; tr_stat : TableStat }.
Record indexRow := mkIndexRow { ir_schema : string; ir_table : string; ir_index : string; ir_stat : IndexStat }.
Record bloatRow := mkBloatRow { br_schema : string; br_relname : string; br_indexname : string; br_stat : BloatStat }.
Record statementRow := mkStatementRow { sr_stat : StatementStat; sr_tempBlocks : float64 }.
Record siblingFactRow := mkSiblingFactRow {
  sf_id : UUID;
  sf_role : option string;
  sf_kind : option string;
  sf_key : option string;
  sf_value : option string;
  sf_hash : option string;
  sf_ctxt : option string;
  sf_lastScan : option string;
  sf_datname : option string;
  sf_observed : option Time;
}.
Record scanRow := mkScanRow { sc_id : UUID; sc_datname : string; sc_schema : string; sc_index : string }.

Record answers_of := mkAnswersOf {
  a_identity : dberror + (Z * string);
  a_version : dberror + (Z * string * Time);
  a_metrics : query metricRow;
  a_checkpoints : dberror + (float64 * float64 * Z);
  a_facts : query factRow;
  a_tables : query tableRow;
  a_indexes : query indexRow;
  a_bloat : query bloatRow;
  a_statements : query statementRow;
  a_baseline : query (Z * float64);
  a_siblings : query siblingFactRow;
  a_scans : query scanRow;
  a_replication : dberror + ReplicationInfo;
  a_locktree : dberror + option (Time * text);
}.

(** What [json.Unmarshal] leaves in a map of strings, in an object, and in a lock tree's
    nodes: process, blockers and the wait, which may be absent. *)
Class SnapshotCodec := {
  labels_of : text → gmap string string;
  object_of : text → list (string * any);
  nodes_of : text → string + list (Z * list Z * option float64);
}.

(** ** Steps that fill a snapshot *)

Definition step : Type := Snapshot → option dberror * Snapshot.

(** [for rows.Next() { Scan; body }]: the state, the error of a scan, or that of [rows.Err]. *)
Fixpoint each_row {A S} (body : A → S → S) (rows : list (dberror + A)) (st : S) : S * option dberror :=
  match rows with
  | [] => (st, None)
  | inl e :: _ => (st, Some e)
  | inr r :: rows => each_row body rows (body r st)
  end.

(** The rows up to the first that fails, and the error. *)
Fixpoint collect {A} (rows : list (dberror + A)) (fin : option dberror) : dberror + list A :=
  match rows with
  | [] => match fin with Some e => inl e | None => inr [] end
  | inl e :: _ => inl e
  | inr r :: rows => match collect rows fin with inl e => inl e | inr rs => inr (r :: rs) end
  end.

(** ** Fields of a snapshot *)

Definition set_identity (cluster : Z) (role : Role) (s : Snapshot) : Snapshot :=
  mkSnapshot s.(snap_Now) cluster s.(snap_InstanceID) role s.(snap_PGVersion) s.(snap_PermTier) s.(snap_FirstSeen) s.(snap_Metrics) s.(snap_Facts) s.(snap_Tables) s.(snap_Indexes) s.(snap_Bloat) s.(snap_Statements) s.(snap_Host) s.(snap_Siblings) s.(snap_Replication) s.(snap_LockTree) s.(snap_SkippedChecks) s.(snap_Baseline) s.(snap_Settings) s.(snap_SettingContexts).
Definition set_version (v tier : Z) (seen : Time) (s : Snapshot) : Snapshot :=
  mkSnapshot s.(snap_Now) s.(snap_ClusterID) s.(snap_InstanceID) s.(snap_Role) v tier seen s.(snap_Metrics) s.(snap_Facts) s.(snap_Tables) s.(snap_Indexes) s.(snap_Bloat) s.(snap_Statements) s.(snap_Host) s.(snap_Siblings) s.(snap_Replication) s.(snap_LockTree) s.(snap_SkippedChecks) s.(snap_Baseline) s.(snap_Settings) s.(snap_SettingContexts).
Definition set_metrics (m : gmap string (gmap string float64)) (s : Snapshot) : Snapshot :=
  mkSnapshot s.(snap_Now) s.(snap_ClusterID) s.(snap_InstanceID) s.(snap_Role) s.(snap_PGVersion) s.(snap_PermTier) s.(snap_FirstSeen) m s.(snap_Facts) s.(snap_Tables) s.(snap_Indexes) s.(snap_Bloat) s.(snap_Statements) s.(snap_Host) s.(snap_Siblings) s.(snap_Replication) s.(snap_LockTree) s.(snap_SkippedChecks) s.(snap_Baseline) s.(snap_Settings) s.(snap_SettingContexts).
Definition set_facts (m : gmap string (gmap string Fact)) (s : Snapshot) : Snapshot :=
  mkSnapshot s.(snap_Now) s.(snap_ClusterID) s.(snap_InstanceID) s.(snap_Role) s.(snap_PGVersion) s.(snap_PermTier) s.(snap_FirstSeen) s.(snap_Metrics) m s.(snap_Tables) s.(snap_Indexes) s.(snap_Bloat) s.(snap_Statements) s.(snap_Host) s.(snap_Siblings) s.(snap_Replication) s.(snap_LockTree) s.(snap_SkippedChecks) s.(snap_Baseline) s.(snap_Settings) s.(snap_SettingContexts).
Definition set_tables (x : option (list TableStat)) (s : Snapshot) : Snapshot :=
  mkSnapshot s.(snap_Now) s.(snap_ClusterID) s.(snap_InstanceID) s.(snap_Role) s.(snap_PGVersion) s.(snap_PermTier) s.(snap_FirstSeen) s.(snap_Metrics) s.(snap_Facts) x s.(snap_Indexes) s.(snap_Bloat) s.(snap_Statements) s.(snap_Host) s.(snap_Siblings) s.(snap_Replication) s.(snap_LockTree) s.(snap_SkippedChecks) s.(snap_Baseline) s.(snap_Settings) s.(snap_SettingContexts).
Definition set_indexes (x : option (list IndexStat)) (s : Snapshot) : Snapshot :=
  mkSnapshot s.(snap_Now) s.(snap_ClusterID) s.(snap_InstanceID) s.(snap_Role) s.(snap_PGVersion) s.(snap_PermTier) s.(snap_FirstSeen) s.(snap_Metrics) s.(snap_Facts) s.(snap_Tables) x s.(snap_Bloat) s.(snap_Statements) s.(snap_Host) s.(snap_Siblings) s.(snap_Replication) s.(snap_LockTree) s.(snap_SkippedChecks) s.(snap_Baseline) s.(snap_Settings) s.(snap_SettingContexts).
Definition set_bloat (x : option (list BloatStat)) (s : Snapshot) : Snapshot :=
  mkSnapshot s.(snap_Now) s.(snap_ClusterID) s.(snap_InstanceID) s.(snap_Role) s.(snap_PGVersion) s.(snap_PermTier) s.(snap_FirstSeen) s.(snap_Metrics) s.(snap_Facts) s.(snap_Tables) s.(snap_Indexes) x s.(snap_Statements) s.(snap_Host) s.(snap_Siblings) s.(snap_Replication) s.(snap_LockTree) s.(snap_SkippedChecks) s.(snap_Baseline) s.(snap_Settings) s.(snap_SettingContexts).
Definition set_statements (x : option (list StatementStat)) (s : Snapshot) : Snapshot :=
  mkSnapshot s.(snap_Now) s.(snap_ClusterID) s.(snap_InstanceID) s.(snap_Role) s.(snap_PGVersion) s.(snap_PermTier) s.(snap_FirstSeen) s.(snap_Metrics) s.(snap_Facts) s.(snap_Tables) s.(snap_Indexes) s.(snap_Bloat) x s.(snap_Host) s.(snap_Siblings) s.(snap_Replication) s.(snap_LockTree) s.(snap_SkippedChecks) s.(snap_Baseline) s.(snap_Settings) s.(snap_SettingContexts).
Definition set_host (x : HostInfo) (s : Snapshot) : Snapshot :=
  mkSnapshot s.(snap_Now) s.(snap_ClusterID) s.(snap_InstanceID) s.(snap_Role) s.(snap_PGVersion) s.(snap_PermTier) s.(snap_FirstSeen) s.(snap_Metrics) s.(snap_Facts) s.(snap_Tables) s.(snap_Indexes) s.(snap_Bloat) s.(snap_Statements) x s.(snap_Siblings) s.(snap_Replication) s.(snap_LockTree) s.(snap_SkippedChecks) s.(snap_Baseline) s.(snap_Settings) s.(snap_SettingContexts).
Definition set_siblings (x : option (list SiblingInfo)) (s : Snapshot) : Snapshot :=
  mkSnapshot s.(snap_Now) s.(snap_ClusterID) s.(snap_InstanceID) s.(snap_Role) s.(snap_PGVersion) s.(snap_PermTier) s.(snap_FirstSeen) s.(snap_Metrics) s.(snap_Facts) s.(snap_Tables) s.(snap_Indexes) s.(snap_Bloat) s.(snap_Statements) s.(snap_Host) x s.(snap_Replication) s.(snap_LockTree) s.(snap_SkippedChecks) s.(snap_Baseline) s.(snap_Settings) s.(snap_SettingContexts).
Definition set_replication (x : option ReplicationInfo) (s : Snapshot) : Snapshot :=
  mkSnapshot s.(snap_Now) s.(snap_ClusterID) s.(snap_InstanceID) s.(snap_Role) s.(snap_PGVersion) s.(snap_PermTier) s.(snap_FirstSeen) s.(snap_Metrics) s.(snap_Facts) s.(snap_Tables) s.(snap_Indexes) s.(snap_Bloat) s.(snap_Statements) s.(snap_Host) s.(snap_Siblings) x s.(snap_LockTree) s.(snap_SkippedChecks) s.(snap_Baseline) s.(snap_Settings) s.(snap_SettingContexts).
Definition set_locktree (x : option LockTreeSample) (s : Snapshot) : Snapshot :=
  mkSnapshot s.(snap_Now) s.(snap_ClusterID) s.(snap_InstanceID) s.(snap_Role) s.(snap_PGVersion) s.(snap_PermTier) s.(snap_FirstSeen) s.(snap_Metrics) s.(snap_Facts) s.(snap_Tables) s.(snap_Indexes) s.(snap_Bloat) s.(snap_Statements) s.(snap_Host) s.(snap_Siblings) s.(snap_Replication) x s.(snap_SkippedChecks) s.(snap_Baseline) s.(snap_Settings) s.(snap_SettingContexts).
Definition set_skipped (x : gmap string string) (s : Snapshot) : Snapshot :=
  mkSnapshot s.(snap_Now) s.(snap_ClusterID) s.(snap_InstanceID) s.(snap_Role) s.(snap_PGVersion) s.(snap_PermTier) s.(snap_FirstSeen) s.(snap_Metrics) s.(snap_Facts) s.(snap_Tables) s.(snap_Indexes) s.(snap_Bloat) s.(snap_Statements) s.(snap_Host) s.(snap_Siblings) s.(snap_Replication) s.(snap_LockTree) x s.(snap_Baseline) s.(snap_Settings) s.(snap_SettingContexts).
Definition set_baseline (x : option (gmap Z float64)) (s : Snapshot) : Snapshot :=
  mkSnapshot s.(snap_Now) s.(snap_ClusterID) s.(snap_InstanceID) s.(snap_Role) s.(snap_PGVersion) s.(snap_PermTier) s.(snap_FirstSeen) s.(snap_Metrics) s.(snap_Facts) s.(snap_Tables) s.(snap_Indexes) s.(snap_Bloat) s.(snap_Statements) s.(snap_Host) s.(snap_Siblings) s.(snap_Replication) s.(snap_LockTree) s.(snap_SkippedChecks) x s.(snap_Settings) s.(snap_SettingContexts).
Definition set_settings (x : option (gmap string string)) (c : gmap string string) (s : Snapshot) : Snapshot :=
  mkSnapshot s.(snap_Now) s.(snap_ClusterID) s.(snap_InstanceID) s.(snap_Role) s.(snap_PGVersion) s.(snap_PermTier) s.(snap_FirstSeen) s.(snap_Metrics) s.(snap_Facts) s.(snap_Tables) s.(snap_Indexes) s.(snap_Bloat) s.(snap_Statements) s.(snap_Host) s.(snap_Siblings) s.(snap_Replication) s.(snap_LockTree) s.(snap_SkippedChecks) s.(snap_Baseline) x c.

(** ** Metrics *)

Record backendSample := mkBackendSample { bs_state : string; bs_value : float64; bs_ts : Time }.

Record metricState := mkMetricState {
  ms_snap : Snapshot;
  ms_total : option float64;
  ms_available : bool;
  ms_source : option float64;
  ms_backends : list backendSample;
  ms_backendsAt : Time;
}.

Definition add_metric (name canonical : string) (value : float64) (s : Snapshot) : Snapshot :=
  set_metrics (<[name := <[canonical := value]> (series_of s name)]> s.(snap_Metrics)) s.
Definition put_setting (key value : string) (s : Snapshot) : Snapshot := set_settings (Some (<[key := value]> (settings s))) s.(snap_SettingContexts) s.

Section load.
Context `{SnapshotCodec, FloatOverflow, UuidText, TimeParse, RangeOrder}.

Definition setting_of_metric (name : string) (labels : gmap string string) (value : float64) (s : Snapshot) : Snapshot :=
  if bool_decide (name = "pg_setting_bytes") || bool_decide (name = "pg_setting_seconds") then
    let setting := label labels "name" in
    if bool_decide (setting = "") then s
    else put_setting (setting +:+ (if bool_decide (name = "pg_setting_seconds") then "_seconds" else "_bytes")) (FormatPlain value) s
  else s.

Definition metric_row (r : metricRow) (st : metricState) : metricState :=
  let labels := if bool_decide (r.(mr_labels) = []) then ∅ else labels_of r.(mr_labels) in
  let canonical := CanonicalLabels labels in
  let bare n := bool_decide (canonical = "") && bool_decide (r.(mr_name) = n) in
  let is_backend := bool_decide (r.(mr_name) = "pg_backends") in
  mkMetricState
    (setting_of_metric r.(mr_name) labels r.(mr_value) (add_metric r.(mr_name) canonical r.(mr_value) st.(ms_snap)))
    (if bare "host_mem_total_bytes" then Some r.(mr_value) else st.(ms_total))
    (bare "host_mem_available_bytes" || st.(ms_available))
    (if bare "host_metrics_source" then Some r.(mr_value) else st.(ms_source))
    (if is_backend then st.(ms_backends) ++ [mkBackendSample (label labels "state") r.(mr_value) r.(mr_ts)] else st.(ms_backends))
    (if is_backend && After r.(mr_ts) st.(ms_backendsAt) then r.(mr_ts) else st.(ms_backendsAt)).

Definition hostSourceName (value : float64) : string :=
  let n := to_int64 value in if n =? 1 then "cgroup_v1" else if n =? 2 then "cgroup_v2" else "host".

Definition host_of (st : metricState) : Snapshot :=
  match st.(ms_total) with
  | Some total =>
      if st.(ms_available) && fgt total fzero then
        let n := to_int64 (default fzero st.(ms_source)) in
        let limit := if bool_decide (is_Some st.(ms_source)) && ((n =? 1) || (n =? 2)) then total else fzero in
        set_host (mkHostInfo true (hostSourceName (default fzero st.(ms_source))) total limit) st.(ms_snap)
      else st.(ms_snap)
  | None => st.(ms_snap)
  end.

(** The sums of the latest activity scrape: idle and all. *)
Definition backend_sums (st : metricState) : float64 * float64 :=
  foldl (λ '(idle, total) b,
    if Equal b.(bs_ts) st.(ms_backendsAt) then ((if bool_decide (b.(bs_state) = "idle") then fadd idle b.(bs_value) else idle), fadd total b.(bs_value))
    else (idle, total)) (fzero, fzero) st.(ms_backends).

Definition with_idle_share (st : metricState) (s : Snapshot) : Snapshot :=
  let '(idle, total) := backend_sums st in
  let share x := set_metrics (<["pg_connections_idle_share" := {["" := x]}]> s.(snap_Metrics)) s in
  if fgt total fzero then share (fdiv idle total)
  else if bool_decide (is_Some (s.(snap_Metrics) !! "pg_connections_used")) then share fzero
  else s.

Definition loadMetrics (q : query metricRow) : step := λ s,
  match q with
  | inl e => (Some e, s)
  | inr rows =>
      match each_row metric_row rows.(rows_list) (mkMetricState s None false None [] zero_time) with
      | (st, Some e) => (Some e, st.(ms_snap))
      | (st, None) => (rows.(rows_end), with_idle_share st (host_of st))
      end
  end.

Definition loadCheckpointRatio (a : dberror + (float64 * float64 * Z)) : step := λ s,
  match a with
  | inl e => (Some e, s)
  | inr (requested, timed, samples) =>
      if samples =? 0 then (None, s)
      else
        let ratio := if fgt (fadd requested timed) fzero then fdiv requested (fadd requested timed) else fzero in
        (None, set_metrics (<["pg_checkpoints_requested_ratio" := {["" := ratio]}]> s.(snap_Metrics)) s)
  end.

(** ** Facts *)

Definition settingBatchSlack : Duration := Minute.

Definition settingUnits (unit : string) : option (string * float64) :=
  if bool_decide (unit = "B") then Some ("_bytes", float_of_int 1)
  else if bool_decide (unit = "8kB") then Some ("_bytes", float_of_int 8192)
  else if bool_decide (unit = "kB") then Some ("_bytes", float_of_int 1024)
  else if bool_decide (unit = "MB") then Some ("_bytes", float_of_int (2 ^ 20))
  else if bool_decide (unit = "GB") then Some ("_bytes", float_of_int (2 ^ 30))
  else if bool_decide (unit = "TB") then Some ("_bytes", float_of_int (2 ^ 40))
  else if bool_decide (unit = "us") then Some ("_seconds", dec 1 (-6))
  else if bool_decide (unit = "ms") then Some ("_seconds", dec 1 (-3))
  else if bool_decide (unit = "s") then Some ("_seconds", float_of_int 1)
  else if bool_decide (unit = "min") then Some ("_seconds", float_of_int 60)
  else if bool_decide (unit = "h") then Some ("_seconds", float_of_int 3600)
  else if bool_decide (unit = "d") then Some ("_seconds", float_of_int 86400)
  else None.

Definition normalizedSetting (name value unit : string) : option (string * string) :=
  '(suffix, scale) ← settingUnits unit;
  let '(v, ok) := ParseFloat (of_text (TrimSpace (str value))) in
  if negb ok || flt v fzero then None else Some (name +:+ suffix, FormatPlain (fmul v scale)).

Definition latestSettingBatch (observed newest : Time) : bool := negb (Before observed (Add newest (- settingBatchSlack))).

Definition fact_map_key (r : factRow) : string :=
  if bool_decide (r.(fr_kind) = "index_def") || negb (bool_decide (r.(fr_datname) = "")) then databaseFactKey r.(fr_datname) r.(fr_key) else r.(fr_key).

Definition fact_labels (r : factRow) : gmap string string := if bool_decide (r.(fr_labels) = []) then ∅ else labels_of r.(fr_labels).
Definition fact_object (r : factRow) : list (string * any) := if bool_decide (r.(fr_object) = []) then [] else object_of r.(fr_object).
Definition is_setting (r : factRow) : bool := bool_decide (r.(fr_kind) = "setting").

Definition newest_setting (rows : list factRow) : Time :=
  foldl (λ (newest : Time) r, if is_setting r && After r.(fr_observed) newest then r.(fr_observed) else newest) zero_time rows.

(** A setting, its context, and its value in bytes or seconds unless a metric gave it. *)
Definition put_setting_fact (r : factRow) (s : Snapshot) : Snapshot :=
  let labels := fact_labels r in
  let s := put_setting r.(fr_key) r.(fr_value) s in
  let context := label labels "context" in
  let s := if bool_decide (context = "") then s else set_settings s.(snap_Settings) (<[r.(fr_key) := context]> s.(snap_SettingContexts)) s in
  match normalizedSetting r.(fr_key) r.(fr_value) (label labels "unit") with
  | Some (key, value) => match settings s !! key with Some _ => s | None => put_setting key value s end
  | None => s
  end.

(** A skipped check under its own name and under the section it fills. *)
Definition put_skip (r : factRow) (s : Snapshot) : Snapshot :=
  let put key s := set_skipped (<[key := r.(fr_value)]> s.(snap_SkippedChecks)) s in
  let s := put r.(fr_key) s in
  if bool_decide (r.(fr_key) = "stat_statements") then put "Statements" s
  else if bool_decide (r.(fr_key) = "table_stats") then put "Tables" s
  else if bool_decide (r.(fr_key) = "index_stats") then put "Indexes" s
  else if bool_decide (r.(fr_key) = "bloat_estimate") then put "Bloat" s
  else s.

Definition fact_of (r : factRow) : Fact := mkFact r.(fr_key) r.(fr_datname) r.(fr_value) (fact_object r) (fact_labels r) r.(fr_observed).

(** A setting of an earlier scrape than the latest. *)
Definition outdated (newest : Time) (r : factRow) : bool := is_setting r && negb (latestSettingBatch r.(fr_observed) newest).

Definition put_fact (newest : Time) (s : Snapshot) (r : factRow) : Snapshot :=
  if outdated newest r then s
  else
    let s := set_facts (<[r.(fr_kind) := <[fact_map_key r := fact_of r]> (facts_of s r.(fr_kind))]> s.(snap_Facts)) s in
    let s := if is_setting r then put_setting_fact r s else s in
    if bool_decide (r.(fr_kind) = "check_skip") then put_skip r s else s.

Definition loadFacts (q : query factRow) : step := λ s,
  match q with
  | inl e => (Some e, s)
  | inr rows =>
      match collect rows.(rows_list) rows.(rows_end) with
      | inl e => (Some e, s)
      | inr facts => (None, foldl (put_fact (newest_setting facts)) s facts)
      end
  end.

(** ** Relations *)

Definition table_of (r : tableRow) : TableStat :=
  let t := r.(tr_stat) in
  mkTableStat t.(tab_Datname) (r.(tr_schema) +:+ "." +:+ r.(tr_relation)) t.(tab_NLiveTup) t.(tab_NDeadTup) t.(tab_NModSinceAnalyze)
    t.(tab_LastAutovacuum) t.(tab_LastVacuum) t.(tab_RelfrozenXIDAge) t.(tab_SeqScanRate) t.(tab_IdxScanRate).

Definition index_of (r : indexRow) : IndexStat :=
  let i := r.(ir_stat) in
  mkIndexStat i.(idx_Datname) (r.(ir_schema) +:+ "." +:+ r.(ir_index)) (r.(ir_schema) +:+ "." +:+ r.(ir_table)) i.(idx_DefHash) "" i.(idx_IdxScan)
    i.(idx_SizeBytes) i.(idx_HistoryDays) i.(idx_IsPrimary) i.(idx_IsUnique) i.(idx_IsValid) false None None.

Definition bloat_stat (r : bloatRow) : BloatStat :=
  let b := r.(br_stat) in
  let table := r.(br_schema) +:+ "." +:+ r.(br_relname) in
  let name := if bool_decide (b.(blo_Kind) = "index") && negb (bool_decide (r.(br_indexname) = "")) then r.(br_schema) +:+ "." +:+ r.(br_indexname) else table in
  mkBloatStat b.(blo_Datname) name table b.(blo_Kind) b.(blo_Method) b.(blo_Ratio) b.(blo_SizeBytes).

Definition add_table (r : tableRow) (s : Snapshot) : Snapshot := set_tables (Some (tables s ++ [table_of r])) s.
Definition add_index (r : indexRow) (s : Snapshot) : Snapshot := set_indexes (Some (indexes s ++ [index_of r])) s.
Definition add_bloat (r : bloatRow) (s : Snapshot) : Snapshot := set_bloat (Some (bloats s ++ [bloat_stat r])) s.

(** The shape of the loaders that fill a section row by row: the section is there, empty,
    once the query is answered. *)
Definition load_section {A} (start : Snapshot → Snapshot) (add : A → Snapshot → Snapshot) (q : query A) : step := λ s,
  match q with
  | inl e => (Some e, s)
  | inr rows =>
      match each_row add rows.(rows_list) (start s) with
      | (s, Some e) => (Some e, s)
      | (s, None) => (rows.(rows_end), s)
      end
  end.

Definition loadTables : query tableRow → step := load_section (set_tables (Some [])) add_table.
Definition loadIndexes : query indexRow → step := load_section (set_indexes (Some [])) add_index.
Definition loadBloat : query bloatRow → step := load_section (set_bloat (Some [])) add_bloat.

Definition parseScanLabel (value : string) : option (option Time) :=
  if bool_decide (value = "") then Some None else t ← parse_RFC3339 value; Some (Some t).

Definition scanLabels (labels : gmap string string) : bool * option Time * option Time :=
  match labels !! "last_idx_scan" with
  | None => (false, None, None)
  | Some last =>
      match parseScanLabel last, parseScanLabel (label labels "stats_reset") with
      | Some lastScan, Some reset => (true, lastScan, reset)
      | _, _ => (false, None, None)
      end
  end.

Definition attach_def (defs : gmap string Fact) (i : IndexStat) : IndexStat :=
  match defs !! databaseFactKey i.(idx_Datname) i.(idx_Name) with
  | None => i
  | Some def =>
      let '(tracked, lastScan, reset) := scanLabels def.(fact_Labels) in
      mkIndexStat i.(idx_Datname) i.(idx_Name) i.(idx_TableName) (flabel def "def_hash") def.(fact_ValueText) i.(idx_IdxScan) i.(idx_SizeBytes) i.(idx_HistoryDays)
        i.(idx_IsPrimary) i.(idx_IsUnique) i.(idx_IsValid) tracked lastScan reset
  end.

Definition attachIndexDefs (s : Snapshot) : Snapshot := set_indexes (List.map (attach_def (facts_of s "index_def")) <$> s.(snap_Indexes)) s.

(** A step whose error is passed over when a relation or a column does not exist. *)
Definition tolerant (f : step) (next : step) : step := λ s,
  match f s with
  | (Some e, s) => if isOptionalSnapshotError e then next s else (Some e, s)
  | (None, s) => next s
  end.

Definition finished : step := λ s, (None, s).

Definition loadRelationSnapshot (a : answers_of) : step :=
  tolerant (loadTables a.(a_tables)) (tolerant (loadIndexes a.(a_indexes)) (λ s, tolerant (loadBloat a.(a_bloat)) finished (attachIndexDefs s))).

(** ** Statements and their baseline *)

Definition pgBlockSize : float64 := float_of_int 8192.

Definition statement_of (r : statementRow) : StatementStat :=
  let q := r.(sr_stat) in
  let mean := if fgt q.(stm_Calls) fzero then fdiv q.(stm_TotalExecTimeMs) q.(stm_Calls) else fzero in
  mkStatementStat q.(stm_Datname) q.(stm_QueryID) mean q.(stm_Calls) q.(stm_TotalExecTimeMs) (fmul r.(sr_tempBlocks) pgBlockSize)
    q.(stm_SharedBlksRead) q.(stm_SharedBlksHit).

Definition add_statement (r : statementRow) (s : Snapshot) : Snapshot := set_statements (Some (statements s ++ [statement_of r])) s.

Definition loadStatements : query statementRow → step := load_section (set_statements (Some [])) add_statement.

Definition means_of (means : list (Z * float64)) : gmap Z float64 := foldl (λ m '(id, mean), <[id := mean]> m) ∅ means.

Definition loadBaseline (q : query (Z * float64)) : step := λ s,
  match q with
  | inl e => (Some e, s)
  | inr rows =>
      match collect rows.(rows_list) rows.(rows_end) with
      | inl e => (Some e, s)
      | inr means => (None, set_baseline (Some (means_of means)) s)
      end
  end.

(** ** Siblings *)

Definition role_of (text : string) : Role :=
  if bool_decide (text = "primary") then RolePrimary else if bool_decide (text = "standby") then RoleStandby else if bool_decide (text = "") then RoleNone else RoleUnknown.

Definition newest_settings (facts : list siblingFactRow) : gmap UUID Time :=
  foldl (λ newest f, match f.(sf_kind), f.(sf_observed) with
    | Some kind, Some t => if bool_decide (kind = "setting") && After t (default zero_time (newest !! f.(sf_id))) then <[f.(sf_id) := t]> newest else newest
    | _, _ => newest
    end) ∅ facts.

Definition new_sibling (f : siblingFactRow) : SiblingInfo :=
  mkSiblingInfo f.(sf_id) (match f.(sf_role) with Some r => role_of r | None => RoleNone end) ∅ ∅ ∅ ∅ None.

Definition sibling_setting (newest : gmap UUID Time) (f : siblingFactRow) (key : string) (b : SiblingInfo) : SiblingInfo :=
  match f.(sf_value) with
  | None => b
  | Some value =>
      if match f.(sf_observed) with Some t => negb (latestSettingBatch t (default zero_time (newest !! f.(sf_id)))) | None => false end then b
      else mkSiblingInfo b.(sib_InstanceID) b.(sib_Role) (<[key := value]> b.(sib_Settings))
        (match f.(sf_ctxt) with Some c => if bool_decide (c = "") then b.(sib_SettingContexts) else <[key := c]> b.(sib_SettingContexts) | None => b.(sib_SettingContexts) end)
        b.(sib_IndexHashes) b.(sib_IndexScanned) b.(sib_BasebackupSeenAt)
  end.

Definition sibling_index (f : siblingFactRow) (key : string) (b : SiblingInfo) : SiblingInfo :=
  let k := databaseFactKey (default "" f.(sf_datname)) key in
  mkSiblingInfo b.(sib_InstanceID) b.(sib_Role) b.(sib_Settings) b.(sib_SettingContexts)
    (match f.(sf_hash) with Some h => <[k := h]> b.(sib_IndexHashes) | None => b.(sib_IndexHashes) end)
    (match f.(sf_lastScan) with Some l => if bool_decide (l = "") then b.(sib_IndexScanned) else <[k := true]> b.(sib_IndexScanned) | None => b.(sib_IndexScanned) end)
    b.(sib_BasebackupSeenAt).

Definition sibling_backup (f : siblingFactRow) (b : SiblingInfo) : SiblingInfo :=
  match f.(sf_observed) with
  | None => b
  | Some t =>
      if match b.(sib_BasebackupSeenAt) with None => true | Some u => After t u end
      then mkSiblingInfo b.(sib_InstanceID) b.(sib_Role) b.(sib_Settings) b.(sib_SettingContexts) b.(sib_IndexHashes) b.(sib_IndexScanned) (Some t)
      else b
  end.

Definition sibling_fact (newest : gmap UUID Time) (f : siblingFactRow) (b : SiblingInfo) : SiblingInfo :=
  match f.(sf_kind), f.(sf_key) with
  | Some kind, Some key =>
      if bool_decide (kind = "setting") then sibling_setting newest f key b
      else if bool_decide (kind = "index_def") then sibling_index f key b
      else if bool_decide (kind = "backup") then sibling_backup f b
      else b
  | _, _ => b
  end.

Definition sibling_row (newest : gmap UUID Time) (byID : gmap UUID SiblingInfo) (f : siblingFactRow) : gmap UUID SiblingInfo :=
  <[f.(sf_id) := sibling_fact newest f (default (new_sibling f) (byID !! f.(sf_id)))]> byID.

Definition mark_scan (r : scanRow) (byID : gmap UUID SiblingInfo) : gmap UUID SiblingInfo :=
  match byID !! r.(sc_id) with
  | None => byID
  | Some b => <[r.(sc_id) := mkSiblingInfo b.(sib_InstanceID) b.(sib_Role) b.(sib_Settings) b.(sib_SettingContexts) b.(sib_IndexHashes)
      (<[databaseFactKey r.(sc_datname) (r.(sc_schema) +:+ "." +:+ r.(sc_index)) := true]> b.(sib_IndexScanned)) b.(sib_BasebackupSeenAt)]> byID
  end.

(** [loadSiblingScans]: the marked siblings, or the error. *)
Definition loadSiblingScans (q : query scanRow) (byID : gmap UUID SiblingInfo) : dberror + gmap UUID SiblingInfo :=
  if bool_decide (byID = ∅) then inr byID
  else match q with
  | inl e => inl e
  | inr rows =>
      match each_row mark_scan rows.(rows_list) byID with
      | (_, Some e) => inl e
      | (byID, None) => match rows.(rows_end) with Some e => inl e | None => inr byID end
      end
  end.

Definition sibling_less (a b : SiblingInfo) : bool := string_lt (uuid_String a.(sib_InstanceID)) (uuid_String b.(sib_InstanceID)).

Definition loadSiblings (q : query siblingFactRow) (scans : query scanRow) : step := λ s,
  match q with
  | inl e => (Some e, s)
  | inr rows =>
      match collect rows.(rows_list) rows.(rows_end) with
      | inl e => (Some e, s)
      | inr facts =>
          match loadSiblingScans scans (foldl (sibling_row (newest_settings facts)) ∅ facts) with
          | inl e => (Some e, s)
          | inr byID => (None, set_siblings (Some (sort_slice sibling_less (visit byID).*2)) s)
          end
      end
  end.

Definition loadReplication (a : dberror + ReplicationInfo) : step := λ s,
  match a with inl e => (Some e, s) | inr info => (None, set_replication (Some info) s) end.

(** ** The lock tree *)

Definition parseLockTree (ts : Time) (raw : text) : string + LockTreeSample :=
  match nodes_of raw with
  | inl e => inl e
  | inr nodes => inr (mkLockTreeSample ts (List.map (λ '(pid, blockers, wait), mkLockTreeNode pid blockers (default fzero wait)) nodes))
  end.

Definition loadLockTree (a : dberror + option (Time * text)) : step := λ s,
  match a with
  | inl e => (Some e, s)
  | inr None => (None, set_locktree (Some (mkLockTreeSample zero_time [])) s)
  | inr (Some (ts, raw)) =>
      match parseLockTree ts raw with
      | inl e => (None, set_skipped (<["LockTree" := "lock tree unreadable: " +:+ e]> s.(snap_SkippedChecks)) s)
      | inr sample => (None, set_locktree (Some sample) s)
      end
  end.

(** ** The whole *)

Definition empty_snapshot (i : UUID) (now : Time) : Snapshot :=
  mkSnapshot now 0 i RoleNone 0 TierReadOnly zero_time ∅ ∅ None None None None (mkHostInfo false "" fzero fzero) None None None ∅ None (Some ∅) ∅.

Definition load_version (a : dberror + (Z * string * Time)) : step := λ s,
  match a with
  | inl e => (Some e, s)
  | inr (v, tier, seen) => (None, set_version v (default s.(snap_PermTier) (ParsePermTier tier)) seen s)
  end.

Definition load_sections (a : answers_of) : step :=
  tolerant (load_version a.(a_version)) (
  tolerant (loadMetrics a.(a_metrics)) (
  tolerant (loadCheckpointRatio a.(a_checkpoints)) (
  tolerant (loadFacts a.(a_facts)) (λ s,
  match loadRelationSnapshot a s with
  | (Some e, s) => (Some e, s)
  | (None, s) =>
      tolerant (loadStatements a.(a_statements)) (
      tolerant (loadBaseline a.(a_baseline)) (
      tolerant (loadSiblings a.(a_siblings) a.(a_scans)) (
      tolerant (loadReplication a.(a_replication)) (
      tolerant (loadLockTree a.(a_locktree)) finished)))) s
  end)))).

Definition LoadSnapshot (a : answers_of) (i : UUID) (now : Time) : dberror + Snapshot :=
  match a.(a_identity) with
  | inl e => inl e
  | inr (cluster, role) =>
      match load_sections a (set_identity cluster (role_of role) (empty_snapshot i now)) with
      | (Some e, _) => inl e
      | (None, s) => inr s
      end
  end.

(** ** What a query's answer gives *)

(** All its rows, or the first error it ends in. *)
Definition result {A} (q : query A) : dberror + list A :=
  match q with inl e => inl e | inr rows => collect rows.(rows_list) rows.(rows_end) end.

Definition error_in {A B} (r : A + B) : option A := match r with inl e => Some e | inr _ => None end.
Definition value_in {A B} (r : A + B) : option B := match r with inl _ => None | inr x => Some x end.

(** The rows up to the first that fails to scan. *)
Fixpoint scanned {A} (rows : list (dberror + A)) : list A :=
  match rows with inr r :: rows => r :: scanned rows | _ => [] end.

(** What a loader that fills its section row by row has read of a query: nothing when it is
    refused, otherwise the rows before an error, which it may yet end in. *)
Definition rows_read {A} (q : query A) : dberror + list A :=
  match q with inl e => inl e | inr rows => inr (scanned rows.(rows_list)) end.

Lemma each_row_collect {A S} (body : A → S → S) rows fin st :
  error_in (collect rows fin) = match (each_row body rows st).2 with Some e => Some e | None => fin end ∧
  (each_row body rows st).1 = foldl (λ st r, body r st) st (scanned rows).
Proof.
  revert st. induction rows as [|[e|r] rows IH]; intros st; cbn; [by destruct fin|done|].
  destruct (IH (body r st)) as [<- <-]. by destruct (collect rows fin).
Qed.

(** A query that ends well has been read to the end. *)
Lemma rows_read_result {A} (q : query A) rs : result q = inr rs → rows_read q = inr rs.
Proof.
  destruct q as [e|rows]; [done|]. cbn. revert rs. induction (rows_list rows) as [|[e|r] l IH]; intros rs; cbn; [by destruct (rows_end rows); intros [= <-]|done|].
  destruct (collect l _) as [e|rs']; [done|]. intros [= <-]. specialize (IH rs' eq_refl). by injection IH as ->.
Qed.

(** ** What a step does

    It ends in [e]; without an error, or with one that is passed over, it has the effect [g]. *)
Definition passes (e : option dberror) : bool := match e with None => true | Some e => isOptionalSnapshotError e end.

Definition ends (f : step) (e : option dberror) (g : Snapshot → Snapshot) : Prop :=
  ∀ s, (f s).1 = e ∧ (passes e = true → (f s).2 = g s).

(** The first error that is not passed over. *)
Fixpoint fatal (es : list (option dberror)) : option dberror :=
  match es with
  | [] => None
  | Some e :: es => if isOptionalSnapshotError e then fatal es else Some e
  | None :: es => fatal es
  end.

Lemma ends_tolerant f next e g es g' : ends f e g → ends next (fatal es) g' → ends (tolerant f next) (fatal (e :: es)) (g' ∘ g).
Proof.
  intros Hf Hn s. destruct (Hf s) as [He Hg]. unfold tolerant. destruct (f s) as [e' s']. cbn in He, Hg. subst e'.
  destruct e as [e|]; cbn in *.
  - destruct (isOptionalSnapshotError e) eqn:Ho; [rewrite Hg by done; apply Hn|]. split; [done|]. cbn. by rewrite Ho.
  - rewrite Hg by done. apply Hn.
Qed.

Lemma ends_finished : ends finished (fatal []) id.
Proof. by intros s. Qed.

(** A step before which the snapshot is changed by [h]. *)
Lemma ends_after f e g h : ends f e g → ends (λ s, f (h s)) e (g ∘ h).
Proof. intros Hf s. apply Hf. Qed.

Lemma ends_load_section {A} start (add : A → Snapshot → Snapshot) q :
  ends (load_section start add q) (error_in (result q)) (match rows_read q with inl _ => id | inr rs => λ s, foldl (λ s r, add r s) (start s) rs end).
Proof.
  intros s. destruct q as [e|rows]; [by split|]. unfold load_section, result, rows_read.
  destruct (each_row_collect add rows.(rows_list) rows.(rows_end) (start s)) as [-> <-]. by destruct (each_row _ _ _) as [s' []].
Qed.

(** A step that decides before it changes anything. *)
Definition decided {A} (r : dberror + A) (g : A → Snapshot → Snapshot) : step := λ s,
  match r with inl e => (Some e, s) | inr x => (None, g x s) end.

Definition effect_of {A} (r : dberror + A) (g : A → Snapshot → Snapshot) : Snapshot → Snapshot := match r with inl _ => id | inr x => g x end.

Lemma ends_decided {A} f (r : dberror + A) g : (∀ s, f s = decided r g s) → ends f (error_in r) (effect_of r g).
Proof. intros Hf s. rewrite Hf. by destruct r. Qed.

(** A section filled row by row holds what the rows say. *)
Lemma fold_section {A B} (get : Snapshot → option (list B)) (put : option (list B) → Snapshot → Snapshot) (mk : A → B) rs s :
  (∀ x s, get (put x s) = x) → (∀ x y s, put x (put y s) = put x s) →
  foldl (λ s r, put (Some (default [] (get s) ++ [mk r])) s) (put (Some []) s) rs = put (Some (List.map mk rs)) s.
Proof.
  intros Hget Hput. enough (∀ l, foldl (λ s r, put (Some (default [] (get s) ++ [mk r])) s) (put (Some l) s) rs = put (Some (l ++ List.map mk rs)) s) as Hl
    by apply (Hl []).
  induction rs as [|r rs IH]; intros l; cbn; [by rewrite app_nil_r|]. rewrite Hget, Hput. cbn. by rewrite IH, <- app_assoc.
Qed.

Lemma ends_section {A B} (get : Snapshot → option (list B)) (put : option (list B) → Snapshot → Snapshot) (mk : A → B) q :
  (∀ x s, get (put x s) = x) → (∀ x y s, put x (put y s) = put x s) →
  ends (load_section (put (Some [])) (λ r s, put (Some (default [] (get s) ++ [mk r])) s) q) (error_in (result q))
    (effect_of (rows_read q) (λ rs, put (Some (List.map mk rs)))).
Proof.
  intros Hget Hput s. destruct (ends_load_section (put (Some [])) (λ r s, put (Some (default [] (get s) ++ [mk r])) s) q s) as [He Hs].
  split; [exact He|]. intros Hn. rewrite Hs by done. destruct (rows_read q) as [e|rs]; [done|]. by apply fold_section.
Qed.

(** The siblings, or the error of one of the two queries. *)
Definition siblings_result (a : answers_of) : dberror + gmap UUID SiblingInfo :=
  match result a.(a_siblings) with
  | inl e => inl e
  | inr facts => loadSiblingScans a.(a_scans) (foldl (sibling_row (newest_settings facts)) ∅ facts)
  end.

Definition metrics_effect (rows : rowset metricRow) (s : Snapshot) : Snapshot := (loadMetrics (inr rows) s).2.

Lemma ends_loadMetrics q : ends (loadMetrics q) (error_in (result q)) (effect_of q metrics_effect).
Proof.
  intros s. destruct q as [e|rows]; [by split|]. unfold effect_of, metrics_effect, loadMetrics, result.
  destruct (each_row_collect metric_row rows.(rows_list) rows.(rows_end) (mkMetricState s None false None [] zero_time)) as [-> _].
  by destruct (each_row _ _ _) as [s' []].
Qed.

(** ** The sections of a load *)

Definition lock_effect (r : option (Time * text)) (s : Snapshot) : Snapshot := (loadLockTree (inr r) s).2.
Definition version_effect (r : Z * string * Time) (s : Snapshot) : Snapshot := (load_version (inr r) s).2.
Definition checkpoint_effect (r : float64 * float64 * Z) (s : Snapshot) : Snapshot := (loadCheckpointRatio (inr r) s).2.
Definition facts_effect (facts : list factRow) (s : Snapshot) : Snapshot := foldl (put_fact (newest_setting facts)) s facts.
Definition siblings_effect (byID : gmap UUID SiblingInfo) : Snapshot → Snapshot := set_siblings (Some (sort_slice sibling_less (visit byID).*2)).

(** The errors in the order the queries are made. *)
Definition load_errors (a : answers_of) : list (option dberror) :=
  [error_in a.(a_version); error_in (result a.(a_metrics)); error_in a.(a_checkpoints); error_in (result a.(a_facts))] ++
  [error_in (result a.(a_tables)); error_in (result a.(a_indexes)); error_in (result a.(a_bloat))] ++
  [error_in (result a.(a_statements)); error_in (result a.(a_baseline)); error_in (siblings_result a); error_in a.(a_replication); error_in a.(a_locktree)].

Definition before_relations (a : answers_of) (s : Snapshot) : Snapshot :=
  effect_of (result a.(a_facts)) facts_effect (effect_of a.(a_checkpoints) checkpoint_effect
    (effect_of a.(a_metrics) metrics_effect (effect_of a.(a_version) version_effect s))).

Definition relations (a : answers_of) (s : Snapshot) : Snapshot :=
  effect_of (rows_read a.(a_bloat)) (λ rs, set_bloat (Some (List.map bloat_stat rs))) (attachIndexDefs (
    effect_of (rows_read a.(a_indexes)) (λ rs, set_indexes (Some (List.map index_of rs)))
      (effect_of (rows_read a.(a_tables)) (λ rs, set_tables (Some (List.map table_of rs))) s))).

Definition after_relations (a : answers_of) (s : Snapshot) : Snapshot :=
  effect_of a.(a_locktree) lock_effect (effect_of a.(a_replication) (λ i, set_replication (Some i)) (
    effect_of (siblings_result a) siblings_effect (effect_of (result a.(a_baseline)) (λ m, set_baseline (Some (means_of m)))
      (effect_of (rows_read a.(a_statements)) (λ rs, set_statements (Some (List.map statement_of rs))) s)))).

Lemma ends_eq f e g g' : ends f e g → (∀ s, g s = g' s) → ends f e g'.
Proof. intros Hf Hg s. rewrite <- Hg. apply Hf. Qed.

Lemma fatal_app es es' : fatal (es ++ es') = match fatal es with Some e => Some e | None => fatal es' end.
Proof. induction es as [|[e|] es IH]; cbn; [done| |done]. by destruct (isOptionalSnapshotError e). Qed.

Lemma ends_relations a :
  ends (loadRelationSnapshot a) (fatal [error_in (result a.(a_tables)); error_in (result a.(a_indexes)); error_in (result a.(a_bloat))]) (relations a).
Proof.
  eapply ends_eq.
  { apply ends_tolerant; [by apply (ends_section snap_Tables set_tables table_of)|].
    apply ends_tolerant; [by apply (ends_section snap_Indexes set_indexes index_of)|].
    apply (ends_after (tolerant (loadBloat (a_bloat a)) finished)).
    apply ends_tolerant; [by apply (ends_section snap_Bloat set_bloat bloat_stat)|apply ends_finished]. }
  by intros s.
Qed.

Lemma ends_after_relations a :
  ends (tolerant (loadStatements a.(a_statements)) (tolerant (loadBaseline a.(a_baseline)) (tolerant (loadSiblings a.(a_siblings) a.(a_scans)) (
    tolerant (loadReplication a.(a_replication)) (tolerant (loadLockTree a.(a_locktree)) finished)))))
    (fatal [error_in (result a.(a_statements)); error_in (result a.(a_baseline)); error_in (siblings_result a); error_in a.(a_replication); error_in a.(a_locktree)])
    (after_relations a).
Proof.
  assert (∀ s, loadBaseline (a_baseline a) s = decided (result (a_baseline a)) (λ m, set_baseline (Some (means_of m))) s) as Hb
    by (intros s; by destruct (a_baseline a)).
  assert (∀ s, loadSiblings (a_siblings a) (a_scans a) s = decided (siblings_result a) siblings_effect s) as Hs.
  { intros s. unfold loadSiblings, siblings_result. destruct (a_siblings a) as [|rows]; [done|]. cbn. by destruct (collect _ _). }
  assert (∀ s, loadReplication (a_replication a) s = decided (a_replication a) (λ i, set_replication (Some i)) s) as Hr by done.
  assert (∀ s, loadLockTree (a_locktree a) s = decided (a_locktree a) lock_effect s) as Hl.
  { intros s. unfold lock_effect. destruct (a_locktree a) as [|[[]|]]; cbn; [done| |done]. by destruct (parseLockTree _ _). }
  eapply ends_eq.
  { apply ends_tolerant; [by apply (ends_section snap_Statements set_statements statement_of)|].
    apply ends_tolerant; [by apply ends_decided, Hb|]. apply ends_tolerant; [by apply ends_decided, Hs|].
    apply ends_tolerant; [by apply ends_decided, Hr|]. apply ends_tolerant; [by apply ends_decided, Hl|apply ends_finished]. }
  by intros s.
Qed.

(** Two steps the first of which ends in the first error that is not passed over. *)
Lemma ends_seq f g es es' u v : ends f (fatal es) u → ends g (fatal es') v →
  ends (λ s, match f s with (Some e, s) => (Some e, s) | (None, s) => g s end) (match fatal es with Some e => Some e | None => fatal es' end) (v ∘ u).
Proof.
  assert (∀ e, fatal es = Some e → isOptionalSnapshotError e = false) as Hnot.
  { intros e. induction es as [|[e'|] es IH]; cbn; [done| |done]. destruct (isOptionalSnapshotError e') eqn:Ho; [done|]. by intros [= <-]. }
  intros Hf Hg s. destruct (Hf s) as [He Hu]. destruct (f s) as [o s']. cbn in He, Hu. subst o. destruct (fatal es) as [e|]; [|by rewrite Hu].
  split; [done|]. cbn. by rewrite (Hnot e).
Qed.

Lemma ends_load_sections a :
  ends (load_sections a) (fatal (load_errors a)) (λ s, after_relations a (relations a (before_relations a s))).
Proof.
  assert (∀ s, load_version (a_version a) s = decided (a_version a) version_effect s) as Hv by (intros s; by destruct (a_version a) as [|[[]]]).
  assert (∀ s, loadCheckpointRatio (a_checkpoints a) s = decided (a_checkpoints a) checkpoint_effect s) as Hc.
  { intros s. unfold checkpoint_effect. destruct (a_checkpoints a) as [|[[requested timed] samples]]; cbn; [done|]. by destruct (samples =? 0). }
  assert (∀ s, loadFacts (a_facts a) s = decided (result (a_facts a)) facts_effect s) as Hf by (intros s; by destruct (a_facts a)).
  eapply ends_eq.
  { unfold load_errors.
    apply ends_tolerant; [by apply ends_decided, Hv|]. apply ends_tolerant; [apply ends_loadMetrics|].
    apply ends_tolerant; [by apply ends_decided, Hc|]. apply ends_tolerant; [by apply ends_decided, Hf|].
    rewrite fatal_app. apply ends_seq; [apply ends_relations|apply ends_after_relations]. }
  by intros s.
Qed.

(** ** Fields the steps leave alone *)

Definition sections (s : Snapshot) :=
  (snap_Now s, snap_InstanceID s, (snap_Tables s, snap_Indexes s, snap_Bloat s), (snap_Statements s, snap_Baseline s, snap_Siblings s), (snap_Replication s, snap_LockTree s)).

Definition keeps {B} (p : Snapshot → B) (g : Snapshot → Snapshot) : Prop := ∀ s, p (g s) = p s.

Lemma keeps_effect {A B} (p : Snapshot → B) (r : dberror + A) g : (∀ x, keeps p (g x)) → keeps p (effect_of r g).
Proof. intros Hg s. destruct r; [done|apply Hg]. Qed.

Lemma keeps_foldl {A B} (p : Snapshot → B) (g : Snapshot → A → Snapshot) l : (∀ x, keeps p (λ s, g s x)) → keeps p (λ s, foldl g s l).
Proof. intros Hg. induction l as [|x l IH]; intros s; cbn; [done|]. rewrite IH. apply Hg. Qed.

Lemma metric_row_keeps {B} (p : Snapshot → B) r st :
  (∀ m, keeps p (set_metrics m)) → (∀ x c, keeps p (set_settings x c)) → p (metric_row r st).(ms_snap) = p st.(ms_snap).
Proof. intros Hm Hs. cbn. unfold setting_of_metric. split_ifs; unfold put_setting, add_metric; by rewrite ?Hs, ?Hm. Qed.

Lemma metrics_effect_keeps {B} (p : Snapshot → B) rs :
  (∀ m, keeps p (set_metrics m)) → (∀ x c, keeps p (set_settings x c)) → (∀ h, keeps p (set_host h)) → keeps p (metrics_effect rs).
Proof.
  intros Hm Hs Hh s. unfold metrics_effect, loadMetrics.
  assert (∀ st, p (each_row metric_row (rows_list rs) st).1.(ms_snap) = p st.(ms_snap)) as Hst.
  { induction (rows_list rs) as [|[e|r] l IH]; intros st; cbn; [done..|]. rewrite IH. by apply metric_row_keeps. }
  specialize (Hst (mkMetricState s None false None [] zero_time)). destruct (each_row _ _ _) as [st [e|]]; cbn in *; [done|].
  transitivity (p (host_of st)).
  - unfold with_idle_share. destruct (backend_sums st). split_ifs; by rewrite ?Hm.
  - unfold host_of. destruct (ms_total st); [|done]. split_ifs; by rewrite ?Hh.
Qed.

Lemma facts_effect_sections facts : keeps sections (facts_effect facts).
Proof.
  unfold facts_effect. apply keeps_foldl. intros r s. unfold put_fact. destruct (outdated _ r); [done|]. unfold put_skip, put_setting_fact.
  destruct (is_setting r); [destruct (normalizedSetting _ _ _) as [[]|]|]; split_ifs; try done; by destruct (settings _ !! _).
Qed.

Lemma before_relations_sections a : keeps sections (before_relations a).
Proof.
  intros s. unfold before_relations. rewrite (keeps_effect sections) by apply facts_effect_sections.
  rewrite (keeps_effect sections). 2: { intros [[requested timed] samples] s'. unfold checkpoint_effect, loadCheckpointRatio. by destruct (samples =? 0). }
  rewrite (keeps_effect sections). 2: { intros rs. by apply metrics_effect_keeps. }
  rewrite (keeps_effect sections); [done|]. by intros [[v tier] seen] s'.
Qed.

(** ** Facts *)

Lemma put_fact_facts newest s r : snap_Facts (put_fact newest s r) =
  if outdated newest r then snap_Facts s else <[fr_kind r := <[fact_map_key r := fact_of r]> (facts_of s (fr_kind r))]> (snap_Facts s).
Proof.
  unfold put_fact. destruct (outdated _ r); [done|]. unfold put_skip, put_setting_fact.
  destruct (is_setting r); [destruct (normalizedSetting _ _ _) as [[]|]|]; split_ifs; try done; by destruct (settings _ !! _).
Qed.

Lemma facts_of_put newest s r kind : facts_of (put_fact newest s r) kind =
  if outdated newest r then facts_of s kind else if decide (fr_kind r = kind) then <[fact_map_key r := fact_of r]> (facts_of s kind) else facts_of s kind.
Proof.
  unfold facts_of at 1. rewrite put_fact_facts. destruct (outdated _ r); [done|]. case_decide; subst.
  - by rewrite lookup_insert_eq.
  - by rewrite lookup_insert_ne.
Qed.

(** A fact of the snapshot is that of a row that is not outdated. *)
Lemma facts_sound newest rs s kind key f : snap_Facts s = ∅ → facts_of (foldl (put_fact newest) s rs) kind !! key = Some f →
  ∃ r, r ∈ rs ∧ outdated newest r = false ∧ fr_kind r = kind ∧ fact_map_key r = key ∧ f = fact_of r.
Proof.
  intros Hs. induction rs as [|r rs IH] using rev_ind; [unfold facts_of; cbn; by rewrite Hs, lookup_empty|].
  rewrite foldl_snoc, facts_of_put. setoid_rewrite elem_of_app. setoid_rewrite list_elem_of_singleton.
  assert (facts_of (foldl (put_fact newest) s rs) kind !! key = Some f →
    ∃ x, (x ∈ rs ∨ x = r) ∧ outdated newest x = false ∧ fr_kind x = kind ∧ fact_map_key x = key ∧ f = fact_of x) as Hold.
  { intros (x & ? & ?)%IH. exists x. by split; [left|]. }
  destruct (outdated newest r) eqn:Hr; [apply Hold|]. case_decide as Hk; [|apply Hold].
  intros [[He <-]|[_ Hf]]%lookup_insert_Some; [|by apply Hold]. exists r. by split; [right|].
Qed.

Lemma facts_complete newest rs s r : r ∈ rs → outdated newest r = false →
  is_Some (facts_of (foldl (put_fact newest) s rs) (fr_kind r) !! fact_map_key r).
Proof.
  intros Hr Ho. induction rs as [|x rs IH] using rev_ind; [by apply not_elem_of_nil in Hr|].
  rewrite foldl_snoc, facts_of_put. apply elem_of_app in Hr as [Hr|Hx%list_elem_of_singleton]; [|subst x].
  - specialize (IH Hr). destruct (outdated newest x); [done|]. case_decide; [|done]. apply lookup_insert_is_Some'. by right.
  - rewrite Ho. rewrite decide_True by done. rewrite lookup_insert_eq. by eexists.
Qed.

Lemma newest_setting_bound rs r : r ∈ rs → is_setting r = true → fr_observed r ≤ newest_setting rs.
Proof.
  intros Hr Hs. unfold newest_setting. induction rs as [|x rs IH] using rev_ind; [by apply not_elem_of_nil in Hr|].
  rewrite foldl_snoc. set (n := foldl _ _ rs) in *. apply elem_of_app in Hr as [Hr|Hx%list_elem_of_singleton]; [|rewrite <- Hx; clear Hx x; rename r into x].
  - specialize (IH Hr). unfold After. destruct (is_setting x); cbn; [|done]. destruct (Z.ltb_spec n (fr_observed x)); lia.
  - rewrite Hs. unfold After. cbn. destruct (Z.ltb_spec n (fr_observed x)); lia.
Qed.

(** No setting of the snapshot is more than a minute older than any other the rows hold. *)
Lemma current_setting rs r r' : outdated (newest_setting rs) r = false → is_setting r = true → r' ∈ rs → is_setting r' = true →
  fr_observed r' ≤ fr_observed r + settingBatchSlack.
Proof.
  unfold outdated, latestSettingBatch, Before, Add. intros Ho Hr Hr' Hs'. rewrite Hr in Ho. cbn in Ho. rewrite negb_involutive in Ho.
  apply Z.ltb_ge in Ho. pose proof (newest_setting_bound rs r' Hr' Hs'). lia.
Qed.

Definition is_current (rs : list factRow) (r : factRow) : Prop :=
  is_setting r = true → ∀ r', r' ∈ rs → is_setting r' = true → fr_observed r' ≤ fr_observed r + settingBatchSlack.

(** What the snapshot holds of the rows of the facts query: current ones, and all of them. *)
Definition facts_exact (rs : list factRow) (s : Snapshot) : Prop :=
  (∀ kind key f, facts_of s kind !! key = Some f → ∃ r, r ∈ rs ∧ is_current rs r ∧ fr_kind r = kind ∧ fact_map_key r = key ∧ f = fact_of r) ∧
  (∀ r, r ∈ rs → is_current rs r → zero_time ≤ fr_observed r → is_Some (facts_of s (fr_kind r) !! fact_map_key r)).

Lemma newest_setting_from rs : newest_setting rs = zero_time ∨ ∃ r, r ∈ rs ∧ is_setting r = true ∧ newest_setting rs = fr_observed r.
Proof.
  unfold newest_setting. induction rs as [|x rs IH] using rev_ind; [by left|]. rewrite foldl_snoc. setoid_rewrite elem_of_app. setoid_rewrite list_elem_of_singleton.
  destruct (is_setting x) eqn:Hx; cbn; [destruct (After _ _)|].
  - right. exists x. by split_and!; [right|..].
  - destruct IH as [IH|(r & ? & ? & ?)]; [by left|]. right. exists r. by split_and!; [left|..].
  - destruct IH as [IH|(r & ? & ? & ?)]; [by left|]. right. exists r. by split_and!; [left|..].
Qed.

Lemma facts_effect_exact rs s : snap_Facts s = ∅ → facts_exact rs (facts_effect rs s).
Proof.
  intros Hs. split.
  - intros kind key f (r & ? & Ho & ? & ? & ?)%facts_sound; [|done]. exists r. split_and!; [done| |done..].
    intros Es r' Hr' Es'. by eapply current_setting.
  - intros r Hr Hc Hz. apply facts_complete; [done|]. unfold outdated. destruct (is_setting r) eqn:Es; [|done]. cbn.
    unfold latestSettingBatch, Before, Add. rewrite negb_involutive. apply Z.ltb_ge.
    destruct (newest_setting_from rs) as [->|(r' & Hr' & Es' & ->)]; [change settingBatchSlack with 60000000000 in *; lia|].
    specialize (Hc Es r' Hr' Es'). lia.
Qed.

(** ** Theorems *)

Lemma before_relations_facts a s : snap_Facts s = ∅ →
  match result a.(a_facts) with inr rs => facts_exact rs (before_relations a s) | inl _ => snap_Facts (before_relations a s) = ∅ end.
Proof.
  intros Hs. unfold before_relations. set (s' := effect_of (a_checkpoints a) _ _). assert (snap_Facts s' = ∅) as Hs'.
  { unfold s'. rewrite (keeps_effect snap_Facts). 2: { intros [[requested timed] samples] s''. unfold checkpoint_effect, loadCheckpointRatio. by destruct (samples =? 0). }
    rewrite (keeps_effect snap_Facts). 2: { intros rs. by apply metrics_effect_keeps. }
    rewrite (keeps_effect snap_Facts); [done|]. by intros [[v tier] seen] s''. }
  destruct (result (a_facts a)); [done|]. by apply facts_effect_exact.
Qed.

Lemma lock_effect_keeps {B} (p : Snapshot → B) x : (∀ t, keeps p (set_locktree t)) → (∀ m, keeps p (set_skipped m)) → keeps p (lock_effect x).
Proof. intros Ht Hm s. unfold lock_effect. destruct x as [[]|]; cbn; [destruct (parseLockTree _ _); cbn|]; by rewrite ?Ht, ?Hm. Qed.

Lemma after_relations_keeps {B} (p : Snapshot → B) a :
  (∀ t, keeps p (set_locktree t)) → (∀ m, keeps p (set_skipped m)) → (∀ x, keeps p (set_replication x)) → (∀ x, keeps p (set_siblings x)) →
  (∀ x, keeps p (set_baseline x)) → (∀ x, keeps p (set_statements x)) → keeps p (after_relations a).
Proof.
  intros Ht Hm Hr Hs Hb Hst s. unfold after_relations.
  rewrite (keeps_effect p) by (intros; by apply lock_effect_keeps).
  rewrite (keeps_effect p) by (intros; apply Hr). rewrite (keeps_effect p) by (intros; apply Hs).
  rewrite (keeps_effect p) by (intros; apply Hb). rewrite (keeps_effect p) by (intros; apply Hst). done.
Qed.

(** The lock tree: the sample stored last, none, or unreadable. *)
Definition lock_sample (r : option (Time * text)) : option LockTreeSample :=
  match r with
  | None => Some (mkLockTreeSample zero_time [])
  | Some (ts, raw) => value_in (parseLockTree ts raw)
  end.

Lemma relations_keeps {B} (p : Snapshot → B) a :
  (∀ x, keeps p (set_bloat x)) → (∀ x, keeps p (set_indexes x)) → (∀ x, keeps p (set_tables x)) → keeps p (relations a).
Proof.
  intros Hb Hi Ht s. unfold relations. rewrite (keeps_effect p) by (intros; apply Hb). unfold attachIndexDefs. rewrite Hi.
  rewrite (keeps_effect p) by (intros; apply Hi). rewrite (keeps_effect p) by (intros; apply Ht). done.
Qed.

(** What a load makes of its answers: the error, or a snapshot. Of the relations and the
    statements it holds the rows read, and the section is missing when the query was refused;
    of the others it holds what the whole answer gives, or nothing. *)
Definition load_outcome (a : answers_of) (i : UUID) (now : Time) (o : dberror + Snapshot) : Prop :=
  match o with
  | inl e => error_in a.(a_identity) = Some e ∨ (∃ x, a.(a_identity) = inr x) ∧ fatal (load_errors a) = Some e
  | inr s => (∃ x, a.(a_identity) = inr x) ∧ fatal (load_errors a) = None ∧
      snap_InstanceID s = i ∧ snap_Now s = now ∧
      snap_Tables s = List.map table_of <$> value_in (rows_read a.(a_tables)) ∧
      snap_Indexes s = (λ rs, List.map (attach_def (facts_of s "index_def")) (List.map index_of rs)) <$> value_in (rows_read a.(a_indexes)) ∧
      snap_Bloat s = List.map bloat_stat <$> value_in (rows_read a.(a_bloat)) ∧
      snap_Statements s = List.map statement_of <$> value_in (rows_read a.(a_statements)) ∧
      snap_Baseline s = means_of <$> value_in (result a.(a_baseline)) ∧
      snap_Siblings s = (λ byID, sort_slice sibling_less (visit byID).*2) <$> value_in (siblings_result a) ∧
      snap_Replication s = value_in a.(a_replication) ∧
      snap_LockTree s = value_in a.(a_locktree) ≫= lock_sample ∧
      match result a.(a_facts) with inr rs => facts_exact rs s | inl _ => snap_Facts s = ∅ end
  end.

Lemma loaded_outcome a i now x : fatal (load_errors a) = None → a.(a_identity) = inr x → ∀ s0, sections s0 = sections (empty_snapshot i now) → snap_Facts s0 = ∅ →
  load_outcome a i now (inr (after_relations a (relations a (before_relations a s0)))).
Proof.
  intros Hf Hx s0 Hs0 HF0. pose proof (before_relations_sections a s0) as Hb. rewrite Hs0 in Hb. pose proof (before_relations_facts a s0 HF0) as HF.
  set (s1 := before_relations a s0) in *. clearbody s1. clear Hs0 HF0 s0. injection Hb as ? ? ? ? ? ? ? ? ? ?.
  assert (snap_Facts (after_relations a (relations a s1)) = snap_Facts s1) as HFs.
  { rewrite (after_relations_keeps snap_Facts) by done. unfold relations. rewrite (keeps_effect snap_Facts) by done.
    change (snap_Facts (attachIndexDefs ?x)) with (snap_Facts x). by rewrite !(keeps_effect snap_Facts) by done. }
  assert (∀ k, facts_of (after_relations a (relations a s1)) k = facts_of s1 k) as HFk by (intros k; unfold facts_of; by rewrite HFs).
  unfold load_outcome. split_and!; [by eexists|done|..].
  - by rewrite (after_relations_keeps snap_InstanceID), relations_keeps.
  - by rewrite (after_relations_keeps snap_Now), relations_keeps.
  - rewrite (after_relations_keeps snap_Tables) by done. unfold relations. rewrite (keeps_effect snap_Tables) by done. cbn.
    rewrite (keeps_effect snap_Tables) by done. by destruct (rows_read (a_tables a)).
  - rewrite HFk, (after_relations_keeps snap_Indexes) by done. unfold relations. rewrite (keeps_effect snap_Indexes) by done. cbn -[facts_of].
    replace (facts_of _ "index_def") with (facts_of s1 "index_def"). 2: { unfold facts_of. by rewrite !(keeps_effect snap_Facts) by done. }
    destruct (rows_read (a_indexes a)); cbn; [|done]. rewrite (keeps_effect snap_Indexes) by done. by replace (snap_Indexes s1) with (@None (list IndexStat)).
  - rewrite (after_relations_keeps snap_Bloat) by done. unfold relations. destruct (rows_read (a_bloat a)); cbn; [|done].
    by rewrite !(keeps_effect snap_Bloat).
  - unfold after_relations. rewrite (keeps_effect snap_Statements) by (intros; by apply lock_effect_keeps). rewrite !(keeps_effect snap_Statements) by done.
    destruct (rows_read (a_statements a)); cbn; [|done]. by rewrite relations_keeps.
  - unfold after_relations. rewrite (keeps_effect snap_Baseline) by (intros; by apply lock_effect_keeps).
    do 2 rewrite (keeps_effect snap_Baseline) by done. destruct (result (a_baseline a)); cbn; [|done].
    by rewrite (keeps_effect snap_Baseline), relations_keeps.
  - unfold after_relations. rewrite (keeps_effect snap_Siblings) by (intros; by apply lock_effect_keeps).
    rewrite (keeps_effect snap_Siblings) by done. destruct (siblings_result a); cbn; [|done]. by rewrite !(keeps_effect snap_Siblings), relations_keeps.
  - unfold after_relations. rewrite (keeps_effect snap_Replication) by (intros; by apply lock_effect_keeps).
    destruct (a_replication a); cbn; [|done]. by rewrite !(keeps_effect snap_Replication), relations_keeps.
  - unfold after_relations. set (s2 := effect_of (a_replication a) _ _).
    assert (snap_LockTree s2 = None) as Hn by (unfold s2; by rewrite !(keeps_effect snap_LockTree), relations_keeps).
    destruct (a_locktree a) as [|[[ts raw]|]]; cbn; [done| |done]. unfold lock_effect. cbn. destruct (parseLockTree ts raw); cbn; done.
  - destruct (result (a_facts a)); [congruence|]. unfold facts_exact. by setoid_rewrite HFk.
Qed.

Lemma load_has_outcome a i now : load_outcome a i now (LoadSnapshot a i now).
Proof.
  unfold LoadSnapshot. destruct (a_identity a) as [e|[cluster role]] eqn:Hi; [left; by rewrite Hi|].
  destruct (ends_load_sections a (set_identity cluster (role_of role) (empty_snapshot i now))) as [He Hs].
  destruct (load_sections a _) as [o s]. cbn [fst snd] in He, Hs. subst o.
  destruct (fatal (load_errors a)) as [e|] eqn:Hf; [change (load_outcome a i now (inl e))|change (load_outcome a i now (inr s))].
  - right. rewrite Hi. split; [by eexists|done].
  - rewrite Hs by done. by eapply loaded_outcome.
Qed.

(** C18: Loading a snapshot fails exactly when the query for the instance fails or another
    query ends in an error, when it is sent, at a row or at the end, other than that a
    relation or a column does not exist, and with the first such error. Otherwise the snapshot
    is that of the instance at that instant. Its tables, indexes, bloat and statements are
    each missing when the query was refused, and else made of the rows read, in order: of all
    of them when the query ended well, and of those before the error when it ended in an
    error that is passed over after it had been accepted, none perhaps. Its baseline,
    siblings, replication state and lock tree are made of a whole answer, or missing when the
    query ended in an error, a lock tree also when it cannot be read. Its facts are those of
    the rows of a query that ended well, of the settings only those at most a minute older
    than every other, and none of these, if not older than the zero time, is left out; when
    the query failed there are none. The rows are what the database gave: the SQL itself, the
    metrics and the checks skipped are not covered. *)
Theorem load_exact a i now : load_outcome a i now (LoadSnapshot a i now) ∧
  ∀ A (q : query A), match result q with inr rs => rows_read q = inr rs | inl _ => True end.
Proof. split; [apply load_has_outcome|]. intros A q. destruct (result q) eqn:E; [done|]. by apply rows_read_result. Qed.
End load.

(** ** A small load

    One table, no index, no permission to see the bloat relation, two settings of which one is
    of an earlier scrape. *)
Module Load_.

#[local] Existing Instances UuidBits.uuid_bits.
#[local] Instance codec : SnapshotCodec := {| labels_of _ := ∅; object_of _ := []; nodes_of _ := inl "not read" |}.
#[local] Instance overflow : FloatOverflow := λ _, 0.
#[local] Instance order : RangeOrder := λ K V _ _ m, map_to_list m.
#[local] Instance parse : TimeParse := λ _, None.

Definition noon : Time := 200 * Hour.
Definition nothing {A} : query A := inr (mkRowset [] None).
Definition undefined_table : dberror := mkDberror (Some "42P01") "relation does not exist".
Definition setting (key value : string) (at_ : Time) : factRow := mkFactRow "setting" key [] value at_ "" [].

Definition orders : tableRow := mkTableRow "public" "orders" (mkTableStat "shop" "" (float_of_int 5) (float_of_int 7) fzero None None fzero fzero fzero).

Definition answers : answers_of :=
  mkAnswersOf (inr (3, "primary")) (inr (160000, "read_only", 5)) nothing (inr (fzero, fzero, 0))
    (inr (mkRowset [inr (setting "fsync" "off" (100 * Hour)); inr (setting "work_mem" "64" (200 * Hour))] None))
    (inr (mkRowset [inr orders] None)) nothing (inl undefined_table) nothing nothing nothing nothing (inr (mkReplicationInfo 0 fzero 0)) (inr None).

Lemma load_exact_witness : ∃ s, LoadSnapshot answers 7 noon = inr s ∧ snap_InstanceID s = 7 ∧
  snap_Tables s = Some [table_of orders] ∧ snap_Indexes s = Some [] ∧ snap_Bloat s = None ∧ snap_Facts s !! "setting" ≠ None.
Proof.
  destruct (load_exact answers 7 noon) as [Hl _].
  destruct (LoadSnapshot answers 7 noon) as [e|s] eqn:E; [destruct Hl as [Hl|[_ Hl]]; vm_compute in Hl; discriminate|].
  destruct Hl as (_ & _ & Hi & _ & Ht & Hx & Hb & _ & _ & _ & _ & _ & Hf). exists s.
  split_and!; [reflexivity|exact Hi|exact Ht|exact Hx|exact Hb|].
  intros Hn. destruct Hf as [_ Hf]. destruct (Hf (setting "work_mem" "64" (200 * Hour))) as [f Hw].
  - apply list_elem_of_here || (right; constructor).
  - intros _ r' Hr' _. apply elem_of_cons in Hr' as [->|Hr']; [|apply list_elem_of_singleton in Hr' as ->]; vm_compute; discriminate.
  - vm_compute; discriminate.
  - unfold facts_of in Hw. cbn in Hw. rewrite Hn in Hw. discriminate.
Defined.

(** The relation is dropped after the query has been accepted: the section is there, empty,
    and the rules that read it find nothing wrong. *)
Definition dropped_late : answers_of :=
  mkAnswersOf (inr (3, "primary")) (inr (160000, "read_only", 5)) nothing (inr (fzero, fzero, 0)) nothing
    (inr (mkRowset [] (Some undefined_table))) nothing nothing nothing nothing nothing nothing (inr (mkReplicationInfo 0 fzero 0)) (inr None).

Lemma late_error_empties : match LoadSnapshot dropped_late 7 noon with inr s => snap_Tables s = Some [] | inl _ => False end.
Proof. vm_compute. reflexivity. Qed.
End Load_.
