(* ===== verification/Rules.v ===== *)
(** * The registered advisor rules (internal/advisor)

    [init_rules] is what the package's [init] functions register, in the order of its files;
    [rules] is the registry they leave. The theorems say that registering cannot panic, what
    every finding of every rule looks like, and when the two rules that compare the
    definitions of indexes panic. *)
From stdpp Require Import pretty.
From S2P Require Import Prelude GoTime GoFloat GoSort GoBytes GoText GoJson GoFmt Pgtype AlertTypes PgIds AdvisorTypes Advisor.
From S2P Require Import RulesBase RulesConfig RulesQuery RulesRelation RulesCatalog RulesObject.
From S2P Require LockChain.

Section registered.
Context `{UnicodeLower, UnicodeFold, UnicodePrint, RangeOrder, PgxIdentifier, FloatOverflow, TimeParse, UuidText}.

(** The [init] functions in the order of the package's files; [all] is what [All] returns
    when a rule asks for another. *)
Definition init_rules (all : list Rule) : list Rule :=
  [estimate_blind] ++ catalog_rules ++ config_rules all ++ function_rules ++ internals_rules ++ [long_wait] ++ query_rules ++ relation_rules ++ security_rules ++ subscription_rules.

(** One rule looks another up when it is evaluated. What it finds does not depend on itself:
    the registry of the rules that look up nothing is enough ([looked_up]). *)
Definition first_round : registry := default ∅ (register_all (init_rules []) ∅).
Definition rules : registry := default ∅ (register_all (init_rules (All first_round)) ∅).

(** ** What a finding looks like *)

Definition severity_rank (s : string) : Z :=
  if bool_decide (s = SeverityCritical) then 3 else if bool_decide (s = SeverityWarning) then 2 else if bool_decide (s = SeverityInfo) then 1 else 0.

(** It carries its rule's identifier and leaves instance and cluster to the engine; a
    degraded one says why, an open one does not; it is at most as severe as its rule. *)
Record labelled (id severity : string) (f : Finding) : Prop := {
  lb_rule : f.(RuleID) = id;
  lb_cluster : f.(ClusterID) = None;
  lb_instance : f.(InstanceID) = None;
  lb_state : (f.(State) = StateOpen ∧ f.(DegradedReason) = "") ∨ (f.(State) = StateDegraded ∧ f.(DegradedReason) ≠ "");
  lb_scope : f.(Scope) ∈ [ScopeInstance; ScopeDatabase; ScopeRelation];
  lb_severity : 1 ≤ severity_rank f.(Severity) ≤ severity_rank severity;
}.

Definition all_labelled (r : Rule) : Prop := ∀ s fs, r.(rule_Evaluate) s = Some fs → Forall (labelled r.(rule_ID) r.(rule_Severity)) fs.

Definition all_of {A} (P : A → Prop) (o : option A) : Prop := match o with Some x => P x | None => True end.

Lemma Forall_omap {A B} (P : B → Prop) (f : A → option B) l : (∀ x, all_of P (f x)) → Forall P (omap f l).
Proof. intros Hf. induction l as [|x l IH]; cbn; [constructor|]. specialize (Hf x). destruct (f x); [by constructor|done]. Qed.

Lemma Forall_map_all {A B} (P : B → Prop) (f : A → B) l : (∀ x, P (f x)) → Forall P (List.map f l).
Proof. intros Hf. induction l; cbn; by constructor. Qed.

Lemma Forall_bind_all {A B} (P : B → Prop) (f : A → list B) l : (∀ x, Forall P (f x)) → Forall P (l ≫= f).
Proof. intros Hf. induction l; cbn; [constructor|]. by apply Forall_app. Qed.

Lemma Forall_sort {A} (P : A → Prop) less l : Forall P l → Forall P (sort_slice less l).
Proof. intros Hl. by rewrite sort_slice_perm. Qed.

Lemma answers_labelled id sev scope needs tier eval :
  (∀ s, Forall (labelled id sev) (eval s)) → all_labelled (mkRule id sev scope needs tier (answers eval)).
Proof. intros Hev s fs [= <-]. apply Hev. Qed.
End registered.

(** Opens the definitions of a rule and of the findings it builds, never their texts. *)
Ltac open_rule := cbv beta iota zeta delta [
  rule_ID rule_Severity rule_Evaluate configRule queryAdvisorRule relationRule databaseRule instanceObjectRule memoryRule metricAbove metricRule answers
  per_statement per_fact per_table fst snd
  blind_finding monitoringRoleFact drift_of unused_index relationBloat divergence constraint_finding mixed_finding secdef_finding lapse
  conflict_finding directory_finding no_worker silent_finding subscriptionFinding lock_finding duplicate_finding redundant_finding
  configFinding degradedConfig degradedBackup relationFinding degradedRelation queryFinding databaseFinding objectFinding degradedInstance].

Ltac split_on x := lazymatch x with match ?y with _ => _ end => split_on y | _ => destruct x end.

Ltac labels :=
  repeat match goal with
    | |- Forall _ [] => constructor
    | |- Forall _ (_ :: _) => constructor
    | |- Forall _ (omap _ _) => apply Forall_omap; intros ?
    | |- Forall _ (List.map _ _) => apply Forall_map_all; intros ?
    | |- Forall _ (sort_slice _ _) => apply Forall_sort
    | |- Forall _ (_ ≫= _) => apply Forall_bind_all; intros ?
    | |- all_of _ None => exact I
    | |- all_of ?P (Some ?x) => change (P x)
    | |- Forall _ (match ?x with _ => _ end) => split_on x; cbv beta iota zeta
    | |- all_of _ (match ?x with _ => _ end) => split_on x; cbv beta iota zeta
    | |- labelled _ _ (match ?x with _ => _ end) => split_on x; cbv beta iota zeta
    end.

(** Each field of a finding that is written out. *)
Ltac labelled_fields :=
  split; [reflexivity|reflexivity|reflexivity
    |first [left; split; reflexivity | right; split; [reflexivity|discriminate]]
    |repeat first [apply list_elem_of_here | apply list_elem_of_further]
    |try match goal with |- context [severity_rank (Severity ?f)] => let x := eval cbv beta iota zeta delta [Severity] in (Severity f) in change (Severity f) with x end;
     repeat match goal with |- context [if ?b then _ else _] => match b with bool_decide _ => fail 1 | _ => destruct b end end; vm_compute; split; discriminate].

Ltac rule_labels :=
  lazymatch goal with |- all_labelled ?r => let r' := eval hnf in r in change (all_labelled r') end;
  refine (answers_labelled _ _ _ _ _ _ _);
  let s := fresh "s" in intros s; open_rule; labels.

Section labels.
Context `{UnicodeLower, UnicodeFold, UnicodePrint, RangeOrder, PgxIdentifier, FloatOverflow, TimeParse, UuidText}.

Lemma estimate_blind_labelled : all_labelled estimate_blind.
Proof. rule_labels. all: labelled_fields. Qed.

Lemma security_labelled : Forall all_labelled security_rules.
Proof. repeat constructor. all: rule_labels. all: labelled_fields. Qed.

Lemma function_labelled : Forall all_labelled function_rules.
Proof. repeat constructor. all: rule_labels. all: labelled_fields. Qed.

Lemma internals_labelled : Forall all_labelled internals_rules.
Proof. repeat constructor. all: rule_labels. all: labelled_fields. Qed.

Lemma subscription_labelled : Forall all_labelled subscription_rules.
Proof. repeat constructor. all: rule_labels. all: labelled_fields. Qed.

Lemma catalog_labelled : Forall all_labelled catalog_rules.
Proof. repeat constructor. all: rule_labels. all: labelled_fields. Qed.

Lemma work_mem_low_labelled all : all_labelled (work_mem_low all).
Proof.
  intros s fs. change (rule_Evaluate (work_mem_low all) s) with (work_mem_low_given (ruleByPrefix all s "query.temp_bytes_high") s).
  unfold work_mem_low_given. destruct (settingFloat _ _) as [w ok]. destruct (_ && _); [|by intros [= <-]; constructor].
  destruct (ruleByPrefix _ _ _) as [[|f spilling]|]; [by intros [= <-]; constructor| |done]. intros [= <-]. constructor; [labelled_fields|constructor].
Qed.

Lemma config_labelled all : Forall all_labelled (config_rules all).
Proof. repeat constructor. all: try apply work_mem_low_labelled. all: rule_labels. all: labelled_fields. Qed.

(** Naming the holder changes the text only. *)
Lemma withXminHolder_labelled r : all_labelled r → all_labelled (withXminHolder r).
Proof.
  intros Hr s fs. cbn [withXminHolder rule_Evaluate rule_ID rule_Severity]. destruct (rule_Evaluate r s) as [l|] eqn:E; [|done].
  intros [= <-]. specialize (Hr s l E). destruct (xminHolderEvidence s); [|done].
  apply Forall_map. eapply Forall_impl; [exact Hr|]. intros f []. by split.
Qed.

Lemma query_labelled : Forall all_labelled query_rules.
Proof. repeat constructor. all: try apply withXminHolder_labelled. all: rule_labels. all: labelled_fields. Qed.

Lemma long_wait_labelled : all_labelled long_wait.
Proof.
  lazymatch goal with |- all_labelled ?r => let r' := eval hnf in r in change (all_labelled r') end.
  intros s fs. open_rule. destruct (snap_LockTree s) as [sample|]; [|by intros [= <-]; constructor].
  destruct (IsZero _); [by intros [= <-]; constructor|]. destruct (_ && _); [by intros [= <-]; constructor|].
  destruct (foldl _ _ _) as [w|]; [|by intros [= <-]; constructor].
  destruct (lockRootBlocker _ _); cbn [mbind option_bind]; [|done]. intros [= <-]. labels. labelled_fields.
Qed.

Lemma redundant_labelled all i l fs : redundant_from all i l = Some fs → Forall (labelled "index.redundant_prefix" SeverityInfo) fs.
Proof.
  revert i fs. induction l as [|a l IH]; intros i fs; cbn [redundant_from]; [by intros [= <-]; constructor|].
  destruct (indexColumns _) as [[ac|]|]; cbn [mbind option_bind]; [|apply IH|done]. destruct (first_extension _ _ _ _ _) as [b|]; [|done].
  destruct (redundant_from _ _ l) as [rest|] eqn:E; cbn [mbind option_bind]; [|done]. intros [= <-]. apply IH in E.
  destruct b; [constructor; [labelled_fields|done]|done].
Qed.

Lemma duplicate_labelled : all_labelled index_duplicate.
Proof.
  lazymatch goal with |- all_labelled ?r => let r' := eval hnf in r in change (all_labelled r') end.
  intros s fs. open_rule. destruct (duplicate_groups _ _ _) as [[groups keys]|]; [|done]. intros [= <-]. labels. labelled_fields.
Qed.

Lemma relation_labelled : Forall all_labelled relation_rules.
Proof.
  repeat constructor. all: try apply duplicate_labelled.
  all: try (intros s fs E; exact (redundant_labelled _ _ _ _ E)).
  all: rule_labels. all: labelled_fields.
Qed.

Lemma init_labelled all : Forall all_labelled (init_rules all).
Proof.
  unfold init_rules. repeat apply Forall_app_2.
  - repeat constructor. apply estimate_blind_labelled.
  - apply catalog_labelled.
  - apply config_labelled.
  - apply function_labelled.
  - apply internals_labelled.
  - repeat constructor. apply long_wait_labelled.
  - apply query_labelled.
  - apply relation_labelled.
  - apply security_labelled.
  - apply subscription_labelled.
Qed.
End labels.

(** ** The registry *)

Lemma register_all_fresh rs : ∀ reg, NoDup (rule_ID <$> rs) → (∀ r, r ∈ rs → reg !! rule_ID r = None) →
  ∃ reg', register_all rs reg = Some reg' ∧ ∀ k r, reg' !! k = Some r ↔ reg !! k = Some r ∨ r ∈ rs ∧ k = rule_ID r.
Proof.
  induction rs as [|r rs IH]; intros reg Hnd Hfresh; cbn [register_all].
  { exists reg. split; [done|]. intros k r. split; [by left|intros [?|[?%elem_of_nil _]]; done]. }
  cbn in Hnd. apply NoDup_cons in Hnd as [Hr Hnd]. unfold Register. rewrite (Hfresh r (list_elem_of_here _ _)). cbn [mbind option_bind].
  destruct (IH (<[rule_ID r := r]> reg)) as (reg' & -> & Hspec); [done| |].
  { intros r' Hr'. rewrite lookup_insert_ne; [by apply Hfresh; right|]. intros E. apply Hr. rewrite E. by apply list_elem_of_fmap_2. }
  exists reg'. split; [done|]. intros k r'. rewrite Hspec, lookup_insert_Some, elem_of_cons. split.
  - intros [[[<- <-]|[_ Hk]]|[Hr' ->]]; [right; split; [by left|done]|by left|right; split; [by right|done]].
  - intros [Hk|[[->|Hr'] ->]]; [left; right|left; by left|by right].
    split; [|done]. intros <-. by rewrite (Hfresh r (list_elem_of_here _ _)) in Hk.
Qed.

Section registry.
Context `{UnicodeLower, UnicodeFold, UnicodePrint, RangeOrder, PgxIdentifier, FloatOverflow, TimeParse, UuidText}.

Lemma init_ids all : NoDup (rule_ID <$> init_rules all).
Proof. apply (bool_decide_unpack _). vm_compute. exact I. Qed.

Lemma init_no_slash all : Forall (λ r, no_byte "/"%char (rule_ID r)) (init_rules all).
Proof.
  assert (Forall (no_byte "/"%char) (rule_ID <$> init_rules all)) as Hall; [|by apply (Forall_fmap rule_ID) in Hall].
  let l := eval vm_compute in (rule_ID <$> init_rules all) in change (Forall (no_byte "/"%char) l).
  repeat constructor. all: discriminate.
Qed.

Lemma registers all : ∃ reg, register_all (init_rules all) ∅ = Some reg ∧ ∀ k r, reg !! k = Some r ↔ r ∈ init_rules all ∧ k = rule_ID r.
Proof.
  destruct (register_all_fresh (init_rules all) ∅ (init_ids all)) as (reg & E & Hreg); [intros r _; apply lookup_empty|].
  exists reg. split; [done|]. intros k r. rewrite Hreg, lookup_empty. split; [intros [Hk|Hk]; [discriminate Hk|exact Hk]|intros Hk; right; exact Hk].
Qed.

Lemma elem_of_rules k r : rules !! k = Some r ↔ r ∈ init_rules (All first_round) ∧ k = rule_ID r.
Proof. unfold rules. destruct (registers (All first_round)) as (reg & -> & Hreg). apply Hreg. Qed.

#[export] Instance rules_laws : RulesLaws rules.
Proof.
  split.
  - intros k r Hr. by apply elem_of_rules in Hr as [_ ->].
  - intros k r [Hr ->]%elem_of_rules. exact (proj1 (Forall_forall _ _) (init_no_slash (All first_round)) r Hr).
  - intros k r s fs f [Hr ->]%elem_of_rules Hev Hf.
    destruct (proj1 (Forall_forall _ _) (proj1 (Forall_forall _ _) (init_labelled (All first_round)) r Hr s fs Hev) f Hf) as [-> _ -> Hst _ _].
    split_and!; [right; left|done|]. destruct Hst as [[-> _]|[-> _]]; [left|right; left].
Qed.

(** Looking a rule up by its identifier finds it. *)
Lemma ruleByPrefix_found all s r : NoDup (rule_ID <$> all) → r ∈ all → ruleByPrefix all s (rule_ID r) = rule_Evaluate r s.
Proof.
  induction all as [|r' all IH]; [by intros _ ?%elem_of_nil|]. cbn. intros [Hr' Hnd]%NoDup_cons [->|Hr]%elem_of_cons; [by rewrite bool_decide_true|].
  rewrite bool_decide_false; [by apply IH|]. intros E. apply Hr'. rewrite E. by apply list_elem_of_fmap_2.
Qed.

Lemma All_ids reg : registry_ok reg → NoDup (rule_ID <$> All reg).
Proof.
  intros Hok. unfold All, All_in. rewrite (sort_slice_perm rule_less). rewrite <- list_fmap_compose.
  replace ((rule_ID ∘ snd) <$> map_to_list reg) with ((map_to_list reg).*1); [apply NoDup_fst_map_to_list|].
  apply list_fmap_ext. intros i [k r] Hi. cbn. apply list_elem_of_lookup_2, elem_of_map_to_list, Hok in Hi. by rewrite Hi.
Qed.

Lemma looked_up_in all reg s : register_all (init_rules all) ∅ = Some reg → ruleByPrefix (All reg) s "query.temp_bytes_high" = rule_Evaluate temp_bytes_high s.
Proof.
  intros E. destruct (registers all) as (reg' & E' & Hreg). assert (reg' = reg) as -> by congruence.
  assert (registry_ok reg) as Hok by (intros k r Hr; by apply Hreg in Hr as [_ ->]).
  apply (ruleByPrefix_found (All reg) s temp_bytes_high); [by apply All_ids|]. apply elem_of_All; [done|]. apply Hreg. split; [|done].
  unfold init_rules, query_rules. rewrite !elem_of_app. do 6 right. left. do 3 right. left.
Qed.

(** What a rule that looks another up finds in the finished registry is what it found in the
    one it was built over. *)
Lemma looked_up s : rule_Evaluate (work_mem_low (All rules)) s = rule_Evaluate (work_mem_low (All first_round)) s.
Proof.
  change (work_mem_low_given (ruleByPrefix (All rules) s "query.temp_bytes_high") s = work_mem_low_given (ruleByPrefix (All first_round) s "query.temp_bytes_high") s).
  rewrite (looked_up_in (All first_round) rules s), (looked_up_in [] first_round s); [done| |].
  - unfold first_round. by destruct (registers []) as (reg & -> & _).
  - unfold rules. by destruct (registers (All first_round)) as (reg & -> & _).
Qed.
End registry.

(** ** Panics *)

Lemma has_prefix_length p t : has_prefix p t = true → (length p ≤ length t)%nat.
Proof. rewrite has_prefix_spec. intros (r & ->). rewrite length_app. lia. Qed.

Lemma index_from_bound sub t : ∀ i j, index_from sub t i = Some j → (j + length sub ≤ i + length t)%nat.
Proof.
  induction t as [|c t IH]; intros i j; cbn [index_from]; destruct (has_prefix sub _) eqn:E; [|done| |]; [intros [= <-]; apply has_prefix_length in E; lia| |]; [intros [= <-]; apply has_prefix_length in E; lia|].
  intros Hj. apply IH in Hj. cbn. lia.
Qed.

Lemma last_index_from_bound sub t : ∀ i best j, last_index_from sub t i best = Some j → best = Some j ∨ (j + length sub ≤ i + length t)%nat.
Proof.
  induction t as [|c t IH]; intros i best j; cbn [last_index_from].
  - destruct (has_prefix sub []) eqn:E; [|by left]. intros [= <-]. right. apply has_prefix_length in E. lia.
  - intros Hj. apply IH in Hj as [Hj|Hj]; [|right; cbn; lia].
    destruct (has_prefix sub (c :: t)) eqn:E; [|by left]. injection Hj as <-. right. apply has_prefix_length in E. lia.
Qed.

Section panics.
Context `{UnicodeLower, UnicodeFold, UnicodePrint, RangeOrder, PgxIdentifier, FloatOverflow, TimeParse, UuidText}.

(** Lowering the definition makes it longer. *)
Definition grows (def : string) : Prop := (length (str def) < length (str (to_lower def)))%nat.

(** The keyword is found in the lowered definition at an offset whose end lies beyond the
    definition itself. *)
Definition overruns (find : text → text → option nat) (keyword def : string) : Prop :=
  ∃ i, find (str keyword) (str (to_lower def)) = Some i ∧ (length (str def) < i + String.length keyword)%nat.

Definition method_overruns : string → Prop := overruns Index " using ".
Definition predicate_overruns : string → Prop := overruns LastIndex " where ".

Lemma str_length s : length (str s) = String.length s.
Proof. unfold str. induction s; cbn; [done|]. by f_equal. Qed.

Lemma slice_from_answers t i : slice_from t i = None ↔ (length t < i)%nat.
Proof. unfold slice_from. case_bool_decide; split; try done; lia. Qed.

Lemma indexMethod_panics def : indexMethod def = None ↔ method_overruns def.
Proof.
  unfold indexMethod, method_overruns, overruns. destruct (Index _ _) as [i|]; [|split; [done|by intros (i & ? & _)]].
  transitivity (slice_from (str def) (i + String.length " using ") = None); [by destruct (slice_from _ _)|]. rewrite slice_from_answers.
  split; [by exists i|by intros (j & [= <-] & ?)].
Qed.

Lemma indexPredicate_panics def : indexPredicate def = None ↔ predicate_overruns def.
Proof.
  unfold indexPredicate, predicate_overruns, overruns. destruct (LastIndex _ _) as [i|]; [|split; [done|by intros (i & ? & _)]].
  transitivity (slice_from (str def) (i + String.length " where ") = None); [by destruct (slice_from _ _)|]. rewrite slice_from_answers.
  split; [by exists i|by intros (j & [= <-] & ?)].
Qed.

Lemma overruns_grows def : method_overruns def ∨ predicate_overruns def → grows def.
Proof.
  unfold grows. intros [(i & Hi & Hl)|(i & Hi & Hl)].
  - apply index_from_bound in Hi. rewrite (str_length " using ") in Hi. lia.
  - apply last_index_from_bound in Hi as [|Hi]; [done|]. rewrite (str_length " where ") in Hi. lia.
Qed.

Lemma grows_wide def : grows def → is_ascii (str def) = false.
Proof.
  intros Hg. destruct (is_ascii (str def)) eqn:Ea; [|done]. exfalso. revert Hg. unfold grows, to_lower, ToLower. rewrite Ea.
  rewrite !str_length, <- (str_length (String.string_of_list_byte _)). unfold str at 1. rewrite String.list_byte_of_string_of_list_byte, length_fmap, str_length. lia.
Qed.

(** ** Cutting out the columns never goes beyond the definition *)

Lemma close_at_bound t : ∀ depth i e, close_at depth i t = Some e → (i ≤ e < i + length t)%nat.
Proof.
  induction t as [|c t IH]; intros depth i e; cbn [close_at]; [done|]. cbn [length].
  case_bool_decide; [intros E%IH; lia|]. case_bool_decide; [|intros E%IH; lia]. destruct (_ =? _); [intros [= <-]; lia|intros E%IH; lia].
Qed.

Lemma columns_at_total def t : ∀ depth begin i, (begin ≤ i)%nat → (i + length t ≤ length def)%nat →
  ∃ out b, columns_at def depth begin i t = Some (out, b) ∧ (b ≤ i + length t)%nat.
Proof.
  induction t as [|c t IH]; intros depth begin i Hb Hl; cbn [columns_at length] in *; [exists [], begin; split; [done|lia]|].
  assert (∀ depth begin, (begin ≤ S i)%nat → ∃ out b, columns_at def depth begin (S i) t = Some (out, b) ∧ (b ≤ i + S (length t))%nat) as Hstep.
  { intros d b Hd. destruct (IH d b (S i)) as (out & b' & -> & ?); [lia..|]. exists out, b'. split; [done|lia]. }
  case_bool_decide; [apply Hstep; lia|]. case_bool_decide; [apply Hstep; lia|]. destruct (_ && _); [|apply Hstep; lia].
  unfold slice. rewrite bool_decide_eq_true_2 by lia. cbn [mbind option_bind]. destruct (Hstep depth (S i) ltac:(done)) as (out & b' & -> & ?). cbn. eauto.
Qed.

Lemma indexColumns_total def : is_Some (indexColumns def).
Proof.
  unfold indexColumns. destruct (Index _ _) as [start|]; [|done]. destruct (close_at _ _ _) as [e|] eqn:E; [|done]. apply close_at_bound in E. rewrite length_drop in E.
  case_bool_decide as He; [done|].
  destruct (columns_at_total (str def) (take (e - (start + 1)) (drop (start + 1) (str def))) 0 (start + 1) (start + 1)) as (out & b & -> & Hb); [done|rewrite length_take, length_drop; lia|].
  rewrite length_take, length_drop in Hb. cbn. unfold slice. rewrite bool_decide_eq_true_2 by lia. done.
Qed.

Lemma prefix_at_total a : ∀ b i, (i + length a ≤ length b)%nat → is_Some (prefix_at a b i).
Proof.
  induction a as [|x a IH]; intros b i Hl; cbn [prefix_at length] in *; [done|]. destruct (lookup_lt_is_Some_2 b i) as [y ->]; [lia|]. cbn.
  destruct (EqualFold x y); [apply IH; lia|done].
Qed.

Lemma isPrefix_total a b : is_Some (isPrefix a b).
Proof. unfold isPrefix. case_bool_decide; [done|]. apply prefix_at_total. lia. Qed.

(** ** The two rules *)

Definition some_overruns (l : list IndexStat) : Prop := ∃ i, i ∈ l ∧ (method_overruns i.(idx_IndexDef) ∨ predicate_overruns i.(idx_IndexDef)).

Lemma some_here i l : method_overruns i.(idx_IndexDef) ∨ predicate_overruns i.(idx_IndexDef) → some_overruns (i :: l).
Proof. intros Hi. exists i. split; [left|done]. Qed.
Lemma some_there i l : some_overruns l → some_overruns (i :: l).
Proof. intros (j & Hj & Hg). exists j. split; [by right|done]. Qed.

Lemma duplicate_groups_panics l : ∀ groups keys, duplicate_groups l groups keys = None ↔ ∃ i, i ∈ l ∧ i.(idx_DefHash) ≠ "" ∧ method_overruns i.(idx_IndexDef).
Proof.
  induction l as [|i l IH]; intros groups keys; cbn [duplicate_groups]; [split; [done|by intros (i & ?%not_elem_of_nil & _)]|].
  setoid_rewrite elem_of_cons. case_bool_decide as Hh; [rewrite IH; naive_solver|].
  unfold group_key. destruct (indexMethod (idx_IndexDef i)) as [m|] eqn:Em; cbn [mbind option_bind].
  - assert (¬ method_overruns (idx_IndexDef i)) as Hn by (rewrite <- indexMethod_panics; congruence). rewrite IH. naive_solver.
  - apply indexMethod_panics in Em. split; [|done]. intros _. exists i. naive_solver.
Qed.

Lemma extends_panics i j a b ac : extends i j a b ac = None → some_overruns [a; b].
Proof.
  unfold extends. destruct (_ || _); [done|].
  destruct (indexMethod (idx_IndexDef b)) eqn:E1; [|intros _; apply some_there, some_here; left; by apply indexMethod_panics].
  destruct (indexMethod (idx_IndexDef a)) eqn:E2; [|intros _; apply some_here; left; by apply indexMethod_panics]. cbn [mbind option_bind]. destruct (_ || _); [done|].
  destruct (indexPredicate (idx_IndexDef a)) eqn:E3; [|intros _; apply some_here; right; by apply indexPredicate_panics].
  destruct (indexPredicate (idx_IndexDef b)) eqn:E4; [|intros _; apply some_there, some_here; right; by apply indexPredicate_panics]. cbn [mbind option_bind].
  destruct (negb _); [done|]. destruct (indexColumns_total (idx_IndexDef b)) as [[bc|] ->]; cbn [mbind option_bind]; [|done].
  by destruct (isPrefix_total ac bc) as [x ->].
Qed.

Lemma first_extension_panics i a ac l : ∀ j, first_extension i j a ac l = None → some_overruns (a :: l).
Proof.
  induction l as [|b l IH]; intros j; cbn [first_extension]; [done|]. destruct (extends i j a b ac) as [[]|] eqn:E; [done| |].
  - intros (x & Hx & ?)%IH. exists x. split; [|done]. set_solver.
  - intros _. apply extends_panics in E as (x & Hx & ?). exists x. split; [|done]. set_solver.
Qed.

Lemma redundant_panics all l : ∀ i, l ⊆ all → redundant_from all i l = None → some_overruns all.
Proof.
  induction l as [|a l IH]; intros i Hsub; cbn [redundant_from]; [done|].
  destruct (indexColumns_total (idx_IndexDef a)) as [[ac|] ->]; cbn [mbind option_bind]; [|apply IH; set_solver].
  destruct (first_extension i 0 a ac all) eqn:E; [|intros _; apply first_extension_panics in E as (x & Hx & ?); exists x; split; [set_solver|done]].
  destruct (redundant_from all (S i) l) eqn:Er; [done|]. intros _. eapply IH; [|exact Er]. set_solver.
Qed.
End panics.

(** ** The theorems *)

Section theorems.
Context `{UnicodeLower, UnicodeFold, UnicodePrint, RangeOrder, PgxIdentifier, FloatOverflow, TimeParse, UuidText}.

(** C37: Starting the program registers every rule without a panic, and the one rule that looks
    another up finds it. The registry is one the engine's theorems apply to, and every finding
    of every rule carries its rule's identifier, leaves instance and cluster to the engine, has
    a reason exactly when it is degraded, a scope the table accepts, and at most its rule's
    severity. *)
Theorem rules_conform :
  register_all (init_rules (All first_round)) ∅ = Some rules ∧
  (∀ s, ruleByPrefix (All rules) s "query.temp_bytes_high" = rule_Evaluate temp_bytes_high s) ∧
  (∀ s, rule_Evaluate (work_mem_low (All rules)) s = rule_Evaluate (work_mem_low (All first_round)) s) ∧
  RulesLaws rules ∧
  ∀ k r s fs f, rules !! k = Some r → rule_Evaluate r s = Some fs → f ∈ fs → labelled k r.(rule_Severity) f.
Proof.
  assert (register_all (init_rules (All first_round)) ∅ = Some rules) as Hreg by (unfold rules; by destruct (registers (All first_round)) as (reg & -> & _)).
  split_and!; [done|intros s; by eapply looked_up_in|apply looked_up|apply rules_laws|].
  intros k r s fs f [Hr ->]%elem_of_rules Hev Hf.
  exact (proj1 (Forall_forall _ _) (proj1 (Forall_forall _ _) (init_labelled (All first_round)) r Hr s fs Hev) f Hf).
Qed.

(** C38: When the two rules that compare the definitions of indexes panic. Each looks for a
    keyword in the lower case of a definition and slices the definition itself behind that
    offset. [index.duplicate] panics exactly when, for some index that has a definition hash,
    the end of the keyword found lies beyond the end of the definition; [index.redundant_prefix]
    only when that is so for the method or for the predicate of some index of the snapshot:
    cutting out the columns and comparing them never goes beyond a definition or a list. A
    definition for which it is so is longer in lower case and not all ASCII. When a rule
    that is evaluated, the permission tier being high enough and the indexes not missing,
    panics, the engine reports it as failed, once, for the whole instance. The other rules
    are not covered. *)
Theorem index_rules_panic_exactly s :
  (rule_Evaluate index_duplicate s = None ↔ ∃ i, i ∈ indexes s ∧ i.(idx_DefHash) ≠ "" ∧ method_overruns i.(idx_IndexDef)) ∧
  (rule_Evaluate index_redundant_prefix s = None → some_overruns (indexes s)) ∧
  (∀ def, method_overruns def ∨ predicate_overruns def → grows def ∧ is_ascii (str def) = false) ∧
  (∀ r, r ∈ [index_duplicate; index_redundant_prefix] → missingSnapshotInput s "Indexes" = false → TierReadOnly ≤ s.(snap_PermTier) → rule_Evaluate r s = None →
     evaluateRule r s = ([degraded_finding r "Advisor rule failed" "rule evaluation panicked" "rule evaluation failed"], true)).
Proof.
  split_and!.
  - unfold index_duplicate. cbn [rule_Evaluate relationRule]. rewrite <- (duplicate_groups_panics (indexes s) ∅ []).
    by destruct (duplicate_groups (indexes s) ∅ []) as [[]|].
  - by apply redundant_panics.
  - intros def Ho. pose proof (overruns_grows def Ho). split; [done|]. by apply grows_wide.
  - intros r Hr Hs Ht E.
    assert (r.(rule_MinTier) = TierReadOnly ∧ r.(rule_Needs) = ["Indexes"]) as [Hm Hn].
    { apply elem_of_cons in Hr as [->|Hr]; [done|]. by apply list_elem_of_singleton in Hr as ->. }
    unfold evaluateRule. rewrite Hm, Hn, (proj2 (Z.ltb_ge _ _)) by done. cbn [check_needs]. by rewrite Hs, E.
Qed.
End theorems.

(** ** Examples *)

Module Wide_.
(** Lowering as Go does it for ASCII and for U+023A, whose lower case takes a byte more. *)
Fixpoint wide_lower (t : text) : text :=
  match t with
  | xc8 :: xba :: t => xe2 :: xb1 :: xa5 :: wide_lower t
  | c :: t => lower_byte c :: wide_lower t
  | [] => []
  end.
#[local] Instance lower : UnicodeLower := wide_lower.
#[local] Instance fold : UnicodeFold := λ s t, bool_decide (wide_lower s = wide_lower t).
#[local] Instance prints : UnicodePrint := λ _, true.
#[local] Instance order : RangeOrder := λ K V _ _ m, map_to_list m.
#[local] Instance pgx : PgxIdentifier := λ l, Join "." (List.map (λ s, dq +:+ s +:+ dq) l).
#[local] Instance overflow : FloatOverflow := λ _, 0.
#[local] Instance dates : TimeParse := λ _, None.
#[local] Instance uuids : UuidText := λ u, "p" +:+ pretty u.

Definition index (name def hash : string) : IndexStat :=
  mkIndexStat "app" name "public.t" hash def fzero (float_of_int 100) (float_of_int 30) false false true false None None.
Definition snapshot (l : list IndexStat) : Snapshot :=
  mkSnapshot (1000 * Hour) 1 8 RolePrimary 160000 0 0 ∅ ∅ None (Some l) None None (mkHostInfo false "" fzero fzero) None None None ∅ None (Some ∅) ∅.

Definition wide : Snapshot := snapshot [index "public.ȺȺȺȺȺȺȺȺȺȺȺȺ" ("CREATE INDEX " +:+ dq +:+ "ȺȺȺȺȺȺȺȺȺȺȺȺ" +:+ dq +:+ " ON public.t USING btree (a)") "h1"].

(** The offset of the keyword in the lowered definition lies beyond the end of the original:
    the rule panics, and the engine reports it as failed for the whole instance. *)
Example wide_letters_panic : evaluateRule index_duplicate wide =
  ([degraded_finding index_duplicate "Advisor rule failed" "rule evaluation panicked" "rule evaluation failed"], true).
Proof. vm_compute. reflexivity. Qed.

Lemma index_rules_panic_exactly_witness :
  evaluateRule index_duplicate wide = ([degraded_finding index_duplicate "Advisor rule failed" "rule evaluation panicked" "rule evaluation failed"], true) ∧
  ∃ i, i ∈ indexes wide ∧ i.(idx_DefHash) ≠ "" ∧ method_overruns i.(idx_IndexDef).
Proof.
  assert (rule_Evaluate index_duplicate wide = None) as E by (vm_compute; reflexivity).
  destruct (index_rules_panic_exactly wide) as (H1 & _ & _ & H4). split; [|by apply H1].
  apply H4; [left|reflexivity|vm_compute; discriminate|exact E].
Defined.

(** Two pairs of duplicates on one table: both findings name the table only, so the second
    overwrites the first in the findings table. *)
Definition pairs : Snapshot := snapshot
  [index "public.a1" "CREATE INDEX a1 ON public.t USING btree (a)" "ha"; index "public.a2" "CREATE INDEX a2 ON public.t USING btree (a)" "ha";
   index "public.b1" "CREATE INDEX b1 ON public.t USING btree (b)" "hb"; index "public.b2" "CREATE INDEX b2 ON public.t USING btree (b)" "hb"].

Example duplicates_share_an_identifier :
  option_map (List.map (λ f, (ID f, Detail f))) (rule_Evaluate index_duplicate pairs) =
  Some [("index.duplicate/app/public.t", "indexes public.a1, public.a2 share a definition"); ("index.duplicate/app/public.t", "indexes public.b1, public.b2 share a definition")].
Proof. vm_compute. reflexivity. Qed.

(** The age of the holder is a JSON number, so the verb shows it in scientific notation. *)
Example holder_age_is_scientific :
  withHolderDetail "pg_max_xact_age_seconds is 1200.00, above 900.00" [("holder_kind", AString "session"); ("identity", AString "4242"); ("age_xids", AFloat (float_of_int 2000123))] =
  "pg_max_xact_age_seconds is 1200.00, above 900.00; the oldest xmin holder is the session with pid 4242, 2.000123e+06 transaction IDs old".
Proof. vm_compute. reflexivity. Qed.
End Wide_.
