(* ===== verification/AdvisorPass.v ===== *)
(** * A pass of the advisor with its own rules and snapshots

    [Advisor] runs any registry on any snapshots. Here the registry is the one the package
    registers ([Rules]) and the snapshots are those the loader makes of the database's answers
    ([SnapshotLoad]), so what one promises the other holds of the program. *)
From stdpp Require Import pretty.
From S2P Require Import Prelude GoTime GoFloat GoSort GoBytes GoText GoFmt Pgtype AlertTypes PgIds AdvisorTypes Advisor.
From S2P Require Import RulesBase RulesRelation SnapshotLoad Rules.

Section pass.
Context `{UnicodeLower, UnicodeFold, UnicodePrint, RangeOrder, PgxIdentifier, FloatOverflow, TimeParse, !UuidText, !UuidTextLaws, SnapshotCodec}.

(** What the database answers the queries of a load. *)
Context (answer : UUID → Time → answers_of).

Definition load (i : UUID) (t : Time) : string + Snapshot :=
  match LoadSnapshot (answer i t) i t with inl e => inl (db_text e) | inr s => inr s end.

(** The error a section is missing for: the query was refused, or, of the sections that are
    made of a whole answer, ended in an error. *)
Definition section_error (a : answers_of) (need : string) : option dberror :=
  if bool_decide (need = "Tables") then error_in (rows_read a.(a_tables))
  else if bool_decide (need = "Indexes") then error_in (rows_read a.(a_indexes))
  else if bool_decide (need = "Bloat") then error_in (rows_read a.(a_bloat))
  else if bool_decide (need = "Statements") then error_in (rows_read a.(a_statements))
  else if bool_decide (need = "Baseline") then error_in (result a.(a_baseline))
  else if bool_decide (need = "Siblings") then error_in (siblings_result a)
  else if bool_decide (need = "Replication") then error_in a.(a_replication)
  else if bool_decide (need = "LockTree") then error_in a.(a_locktree)
  else None.

Lemma load_own i t s : load i t = inr s → snap_InstanceID s = i.
Proof.
  unfold load. pose proof (load_has_outcome (answer i t) i t) as Hl. destruct (LoadSnapshot _ _ _) as [e|s']; [done|].
  intros [= <-]. by destruct Hl as (_ & _ & Hi & _).
Qed.

(** A rule one of whose sections is missing gives no answer. *)
Lemma section_missing i t s need e : load i t = inr s → section_error (answer i t) need = Some e → missingSnapshotInput s need = true.
Proof.
  unfold load. pose proof (load_has_outcome (answer i t) i t) as Hl. destruct (LoadSnapshot _ _ _) as [e'|s']; [done|].
  intros [= <-]. destruct Hl as (_ & _ & _ & _ & Ht & Hx & Hb & Hs & Hm & Hsib & Hr & Hl & _).
  unfold section_error, missingSnapshotInput. rewrite Ht, Hx, Hb, Hs, Hm, Hsib, Hr, Hl.
  destruct (skip_reason s' need); [done|]. intros He.
  repeat (case_bool_decide; [subst need; cbn; match type of He with error_in ?r = _ => by destruct r end|]). done.
Qed.

Lemma check_needs_missing r s needs need : need ∈ needs → missingSnapshotInput s need = true → ∃ f, check_needs r s needs = Some f ∧
  State f = StateDegraded ∧ Datname f = "" ∧ ObjectName f = "".
Proof.
  intros Hn Hm. induction needs as [|n needs IH]; [by apply not_elem_of_nil in Hn|]. cbn.
  destruct (missingSnapshotInput s n) eqn:Hi; [by eexists|]. apply IH. apply elem_of_cons in Hn as [->|Hn]; [congruence|done].
Qed.

Lemma missing_not_answered r s need : need ∈ rule_Needs r → missingSnapshotInput s need = true → answered r s = false.
Proof.
  intros Hn Hm. unfold answered, evaluateRule. destruct (snap_PermTier s <? rule_MinTier r); [done|].
  destruct (check_needs_missing r s (rule_Needs r) need Hn Hm) as (f & -> & Hst & Hd & Ho). unfold degradedAsWhole. cbn. by rewrite Hst, Hd, Ho.
Qed.

Lemma not_ran reg r s : registry_ok reg → r ∈ All reg → answered r s = false → rule_ID r ∉ ran_of s (All reg).
Proof.
  intros Hok Hr Ha. unfold ran_of. rewrite list_elem_of_fmap. intros (r' & Hid & [Ha' Hr']%list_elem_of_filter).
  apply elem_of_All in Hr, Hr'; [|done..]. rewrite <- Hid in Hr'. congruence.
Qed.

Lemma refused_section_keeps reg `{!RulesLaws reg} env e db k r i rule need err :
  table_ok db → findings db !! k = Some r → r.(row_instance) = Some i → active_state r.(row_state) = true →
  reg !! r.(row_rule) = Some rule → need ∈ rule_Needs rule → section_error (answer i env.(now_)) need = Some err →
  ¬ quiet_since db (Add env.(now_) (- unseenInstanceGrace)) i →
  ∃ r', findings (run_pass load reg env e db).2 !! k = Some r' ∧ r'.(row_instance) = Some i ∧ r'.(row_rule) = r.(row_rule) ∧
    active_state r'.(row_state) = true.
Proof.
  intros Hok Hk Hi Ha Hrule Hneed Herr Hq.
  destruct (closed_only_when_answered load reg load_own env e db Hok k r i Hk Ha Hi) as (r' & ? & ? & ? & [?|[_ Hc]]); [by exists r'|].
  destruct Hc as [(s & _ & Hl & Hran & _)|Hc]; [|done]. exfalso.
  pose proof (rules_registered _ _ Hrule) as Hid. rewrite <- Hid in Hran. apply not_ran in Hran; [done|apply rules_registered|..].
  - apply elem_of_All; [apply rules_registered|]. by rewrite Hid.
  - eapply missing_not_answered; [done|]. by eapply section_missing.
Qed.

(** C17: While a section of an instance's snapshot is missing, no pass closes a finding of a
    rule that reads the section, whatever else the pass does and however its statements end.
    A section is missing when its query is refused (tables, indexes, bloat, statements), or
    when it ends in an error at all (baseline, siblings, replication, lock tree); an error
    that comes after the query of one of the first four was accepted is not covered. The row
    is an active one of a registered rule, in a table whose rows are as the advisor writes
    them, and the instance has reported within the grace period: the findings of one that has
    not are resolved whatever the snapshot says. *)
Theorem refused_section_keeps_findings env e db k r i rule need err :
  table_ok db → findings db !! k = Some r → r.(row_instance) = Some i → active_state r.(row_state) = true →
  rules !! r.(row_rule) = Some rule → need ∈ rule_Needs rule → section_error (answer i env.(now_)) need = Some err →
  ¬ quiet_since db (Add env.(now_) (- unseenInstanceGrace)) i →
  ∃ r', findings (run_pass load rules env e db).2 !! k = Some r' ∧ r'.(row_instance) = Some i ∧ r'.(row_rule) = r.(row_rule) ∧
    active_state r'.(row_state) = true.
Proof. exact (refused_section_keeps rules env e db k r i rule need err). Qed.
End pass.

(** ** A database without the bloat relation *)
Module Pass_.
#[local] Existing Instances UuidBits.uuid_bits UuidBits.uuid_bits_laws Load_.codec Load_.overflow Load_.order Load_.parse.
#[local] Instance lower : UnicodeLower := List.map lower_byte.
#[local] Instance fold : UnicodeFold := λ s t, bool_decide (s = t).
#[local] Instance prints : UnicodePrint := λ _, true.
#[local] Instance pgx : PgxIdentifier := Join ".".

Definition answer (i : UUID) (t : Time) : answers_of := Load_.answers.

Definition bloated : Row :=
  mkRow "table.bloat_high" "warning" StateOpen "relation" (Some 1) (Some 8) "shop" "public.orders" "bloat" "" "" None None 5 5 None None None.
Definition key : string := "table.bloat_high/p0001/shop/public.orders".
Definition noon : Time := 1000 * Hour.
Definition db : DB := mkDB {[key := bloated]} {[8 := noon - Minute]}.
Definition env : Advisor.answers := mkAnswers noon false None true false false None AlertEngine.LockNoRows Done [] [].

Lemma bloated_ok : table_ok db.
Proof.
  intros k r Hr. change (({[key := bloated]} : gmap string Row) !! k = Some r) in Hr. apply lookup_singleton_Some in Hr as [<- <-].
  split_and!; [reflexivity|by eexists|repeat split; discriminate|right; left; split; [set_solver|reflexivity]].
Qed.

Lemma table_bloat_high_registered : rules !! "table.bloat_high" = Some table_bloat_high.
Proof. apply elem_of_rules. split; [|reflexivity]. unfold init_rules, relation_rules. rewrite !elem_of_app. do 7 right. left. do 10 right. left. Qed.

Lemma refused_section_keeps_findings_witness :
  ∃ r', findings (run_pass (load answer) rules env newEngine db).2 !! key = Some r' ∧ active_state r'.(row_state) = true.
Proof.
  destruct (refused_section_keeps_findings answer env newEngine db key bloated 8 table_bloat_high "Bloat" Load_.undefined_table)
    as (r' & Hr' & _ & _ & Ha).
  - exact bloated_ok.
  - apply lookup_singleton_eq.
  - reflexivity.
  - reflexivity.
  - exact table_bloat_high_registered.
  - left.
  - reflexivity.
  - intros Hq. vm_compute in Hq. discriminate.
  - exact (ex_intro _ r' (conj Hr' Ha)).
Defined.
End Pass_.
