(* ===== verification/Identity.v ===== *)
(** * Instance identity (internal/identity)

    The fingerprint of a connection string and the file that maps fingerprints to instance
    identifiers. The URL parser, pgx's own resolution of a host, SHA-256 and the JSON of the
    file are parameters; the file system answers each call. The store's mutex makes each
    operation one step. *)
From stdpp Require Import pretty.
From S2P Require Import Prelude GoSort GoBytes GoText GoFmt Pgtype AlertTypes.

(** ** Connection strings (fingerprint.go) *)

(** What the code reads of a [url.URL]: [u_Query] is [u.Query()], [u_User] the user name and
    the password, if there is a userinfo. *)
Record URL := mkURL {
  u_Scheme : string;
  u_User : option (string * option string);
  u_Hostname : string;
  u_Port : string;
  u_Path : string;
  u_Query : gmap string (list string);
}.

Class UrlParse := url_Parse : string → option URL.
(** Host and port of [pgconn.ParseConfig]. *)
Class PgxConfig := pgx_ParseConfig : string → option (string * Z).
(** [hex.EncodeToString] of the SHA-256 digest. *)
Class Digest := sha256_hex : string → string.

Definition Get (values : gmap string (list string)) (key : string) : string :=
  match values !! key with Some (v :: _) => v | _ => "" end.

(** [url.QueryEscape]. *)
Definition unreserved (c : byte) : bool :=
  let n := Z_of_byte c in
  (48 <=? n) && (n <=? 57) || (65 <=? n) && (n <=? 90) || (97 <=? n) && (n <=? 122) || (n =? 45) || (n =? 95) || (n =? 46) || (n =? 126).
Definition upper_hex (z : Z) : string := String.substring (Z.to_nat z) 1 "0123456789ABCDEF".
Definition escape_byte (c : byte) : string :=
  if unreserved c then of_text [c] else if Z_of_byte c =? 32 then "+" else "%" +:+ upper_hex (Z_of_byte c / 16) +:+ upper_hex (Z_of_byte c `mod` 16).
Definition QueryEscape (s : string) : string := foldr (λ c out, escape_byte c +:+ out) "" (str s).

Definition JoinHostPort (host port : string) : string :=
  if Contains host ":" then "[" +:+ host +:+ "]:" +:+ port else host +:+ ":" +:+ port.

Section fingerprint.
Context `{UrlParse, PgxConfig, Digest, UnicodeLower, UnicodePrint, RangeOrder}.

Definition ignored (keepQuerySecrets : bool) (key : string) : bool :=
  bool_decide (to_lower key ∈ ["application_name"; "connect_timeout"; "statement_timeout"; "sslmode"]) ||
  negb keepQuerySecrets && bool_decide (to_lower key ∈ ["password"; "sslpassword"]).

(** A host and a port given in the query move into an authority without a host. *)
Definition from_query (u : URL) : string * string * gmap string (list string) :=
  let values := u.(u_Query) in
  if bool_decide (u.(u_Hostname) = "") then
    let host := Get values "host" in
    let values := delete "host" values in
    let p := Get values "port" in
    (host, if bool_decide (p = "") then u.(u_Port) else p, delete "port" values)
  else (u.(u_Hostname), u.(u_Port), values).

(** The server pgx reaches when the string names none. *)
Definition resolve_host (dsn hostname port : string) : option (string * string) :=
  if bool_decide (hostname = "") then
    '(h, p) ← pgx_ParseConfig dsn; Some (h, if bool_decide (port = "") then pretty p else port)
  else Some (hostname, port).

Definition query_parts (keepQuerySecrets : bool) (values : gmap string (list string)) : list string :=
  let keys := sort_strings (filter (λ k, ignored keepQuerySecrets k = false) (visit values).*1) in
  keys ≫= λ k, List.map (λ v, QueryEscape k +:+ "=" +:+ QueryEscape v) (sort_strings (default [] (values !! k))).

Definition canonical (user hostport dbname query : string) : string :=
  "postgres://" +:+ user +:+ "@" +:+ hostport +:+ "/" +:+ dbname +:+ (if bool_decide (query = "") then "" else "?" +:+ query).

Definition fingerprint (dsn : string) (keepQuerySecrets : bool) : string + string :=
  if bool_decide (dsn = "") then inl "empty dsn"
  else match url_Parse dsn with
  | None => inl "fingerprint: DSN is not a valid URL"
  | Some u =>
      if negb (bool_decide (u.(u_Scheme) = "postgres") || bool_decide (u.(u_Scheme) = "postgresql"))
      then inl ("fingerprint: unsupported scheme " +:+ Quote u.(u_Scheme))
      else
        let user := match u.(u_User) with Some (name, _) => name | None => "" end in
        let '(hostname, port, values) := from_query u in
        match resolve_host dsn hostname port with
        | None => inl "fingerprint: DSN cannot be resolved to a server"
        | Some (hostname, port) =>
            let hostname := if HasPrefix hostname "/" then hostname else to_lower hostname in
            let port := if bool_decide (port = "") then "5432" else port in
            let query := Join "&" (query_parts keepQuerySecrets values) in
            inr (sha256_hex (canonical user (JoinHostPort hostname port) (TrimPrefix u.(u_Path) "/") query))
        end
  end.

Definition Fingerprint (dsn : string) : string + string := fingerprint dsn false.

Definition legacyFingerprint (dsn : string) : string :=
  match fingerprint dsn false with
  | inl _ => ""
  | inr current =>
      match fingerprint dsn true with
      | inl _ => ""
      | inr legacy => if bool_decide (legacy = current) then "" else legacy
      end
  end.
End fingerprint.

(** ** The identity file (identity.go) *)

Record File := mkFile { AgentID : UUID; Instances : gmap string UUID; Version : Z }.

(** The bytes of the file: what [json.MarshalIndent] writes, and what [json.Unmarshal] reads,
    where the map may be absent. *)
Class FileCodec := {
  doc : Type;
  marshal : File → option doc;
  unmarshal : doc → option (UUID * option (gmap string UUID) * Z);
}.

(** The two files of a store: the one at its path and the temporary one beside it. *)
Record disk `{FileCodec} := mkDisk { at_path : option doc; at_tmp : option doc }.
Arguments mkDisk {_} _ _.

(** What the system answers while the file is written. *)
Inductive write_end := Written | TmpFails (torn : bool) | RenameFails.

Section store.
Context `{FileCodec}.

(** The file is replaced by a rename, once the new one is complete. A write that fails may
    leave anything in the temporary file. *)
Definition persistLocked (f : File) (w : write_end) (torn : doc) (d : disk) : option string * disk :=
  match marshal f with
  | None => (Some "identity: marshal", d)
  | Some data =>
      match w with
      | TmpFails some => (Some "identity: write tmp", mkDisk d.(at_path) (if some then Some torn else d.(at_tmp)))
      | RenameFails => (Some "identity: rename", mkDisk d.(at_path) (Some data))
      | Written => (None, mkDisk (Some data) None)
      end
  end.

Record open_answers := mkOpen {
  oa_mkdir_fails : bool;
  oa_stat_fails : bool;    (* with another error than that the file does not exist *)
  oa_read_fails : bool;
  oa_new : UUID;           (* [uuid.New] *)
  oa_write : write_end;
  oa_torn : doc;
}.

Definition Open (a : open_answers) (d : disk) : (string + File) * disk :=
  if a.(oa_mkdir_fails) then (inl "identity: mkdir", d)
  else
    match d.(at_path), a.(oa_stat_fails) with
    | None, false =>
        let f := mkFile a.(oa_new) ∅ 1 in
        match persistLocked f a.(oa_write) a.(oa_torn) d with
        | (Some e, d) => (inl e, d)
        | (None, d) => (inr f, d)
        end
    | None, true => (inl "identity: read", d)
    | Some data, _ =>
        if a.(oa_read_fails) then (inl "identity: read", d)
        else match unmarshal data with
        | None => (inl "identity: corrupt file", d)
        | Some (agent, m, version) =>
            if bool_decide (agent = uuid_Nil) then (inl "identity: corrupt file: missing agent_id", d)
            else (inr (mkFile agent (default ∅ m) version), d)
        end
    end.

Record call := mkCall { c_new : UUID; c_write : write_end; c_torn : doc }.

Definition set_instances (m : gmap string UUID) (f : File) : File := mkFile f.(AgentID) m f.(Version).

(** The identifier and whether it is new, or the error; the file in memory; the disk. *)
Definition instanceID (fp legacy : string) (c : call) (f : File) (d : disk) : (string + UUID * bool) * File * disk :=
  let m := f.(Instances) in
  let known := m !! fp in
  let moved := if bool_decide (legacy = "") then None else m !! legacy in
  match known, moved with
  | Some id, None => (inr (id, false), f, d)
  | _, _ =>
      let id := match known, moved with Some id, _ => id | None, Some id => id | None, None => c.(c_new) end in
      let created := bool_decide (known = None) && bool_decide (moved = None) in
      let m' := <[fp := id]> m in
      let m' := match moved with Some _ => delete legacy m' | None => m' end in
      match persistLocked (set_instances m' f) c.(c_write) c.(c_torn) d with
      | (Some e, d) =>
          let back := match known with None => delete fp m' | Some _ => m' end in
          let back := match moved with Some id => <[legacy := id]> back | None => back end in
          (inl e, set_instances back f, d)
      | (None, d) => (inr (id, created), set_instances m' f, d)
      end
  end.

Definition InstanceID (fp : string) : call → File → disk → (string + UUID * bool) * File * disk := instanceID fp "".

Definition InstanceIDForDSN `{UrlParse, PgxConfig, Digest, UnicodeLower, UnicodePrint, RangeOrder} (dsn : string) (c : call) (f : File) (d : disk) : (string + UUID * bool) * File * disk :=
  match Fingerprint dsn with
  | inl e => (inl ("fingerprint DSN: " +:+ e), f, d)
  | inr fp => instanceID fp (legacyFingerprint dsn) c f d
  end.

(** ** Histories

    An agent that starts, asks for identifiers and is restarted, with any answers of the
    system. What a crash in the middle of a write leaves is what a failed write leaves. *)

Inductive event :=
| Restart (a : open_answers)
| Lookup (fp legacy : string) (c : call).

Record world := mkWorld { memory : option File; files : disk }.

Inductive answer := Opened (r : string + File) | Identified (r : string + UUID * bool) | NotRunning.

Definition step (e : event) (w : world) : answer * world :=
  match e, w.(memory) with
  | Restart a, _ =>
      let '(r, d) := Open a w.(files) in
      (Opened r, mkWorld (match r with inr f => Some f | inl _ => None end) d)
  | Lookup fp legacy c, Some f =>
      let '(r, f, d) := instanceID fp legacy c f w.(files) in
      (Identified r, mkWorld (Some f) d)
  | Lookup _ _ _, None => (NotRunning, w)
  end.

Definition new_id (e : event) : UUID := match e with Restart a => a.(oa_new) | Lookup _ _ c => c.(c_new) end.
Definition legacy_of (e : event) : option string := match e with Restart _ => None | Lookup _ legacy _ => Some legacy end.

(** [uuid.New] gives no identifier twice, and not the nil one; a fingerprint is not its own
    legacy. *)
Definition proper (e : event) : Prop := match e with Restart _ => True | Lookup fp legacy _ => fp ≠ legacy end.

Inductive fresh_step (P : event → Prop) : list UUID * world → list UUID * world → Prop :=
| fresh_event used e w : P e → proper e → new_id e ∉ uuid_Nil :: used → fresh_step P (used, w) (new_id e :: used, (step e w).2).

Definition any (_ : event) : Prop := True.
Definition keeping (fp : string) (e : event) : Prop := legacy_of e ≠ Some fp.

(** The states of an agent first started without a file. *)
Definition reach (used : list UUID) (w : world) : Prop := rtc (fresh_step any) ([], mkWorld None (mkDisk None None)) (used, w).

(** What the file says. *)
Definition stored (d : disk) : option File :=
  data ← d.(at_path);
  '(agent, m, version) ← unmarshal data;
  Some (mkFile agent (default ∅ m) version).

Context (codec : ∀ f data, marshal f = Some data → unmarshal data = Some (AgentID f, Some (Instances f), Version f)).

Lemma persist_cases f w torn d : match persistLocked f w torn d with
  | (Some _, d') => d'.(at_path) = d.(at_path)
  | (None, d') => stored d' = Some f
  end.
Proof.
  unfold persistLocked. destruct (marshal f) as [data|] eqn:Hm; [|done]. destruct w; [|done..].
  unfold stored. cbn. rewrite (codec f data Hm). cbn. by destruct f.
Qed.

(** The map after a lookup that is written. *)
Definition moved_id (legacy : string) (m : gmap string UUID) : option UUID := if bool_decide (legacy = "") then None else m !! legacy.
Definition chosen (fp legacy : string) (new : UUID) (m : gmap string UUID) : UUID :=
  match m !! fp, moved_id legacy m with Some id, _ => id | None, Some id => id | None, None => new end.
Definition recorded (fp legacy : string) (new : UUID) (m : gmap string UUID) : gmap string UUID :=
  let m' := <[fp := chosen fp legacy new m]> m in match moved_id legacy m with Some _ => delete legacy m' | None => m' end.

(** A lookup fails and changes nothing but the temporary file, or answers with the file
    written, if there was anything to write. *)
Lemma instanceID_cases fp legacy c f d : fp ≠ legacy →
  match instanceID fp legacy c f d with
  | (inl _, f', d') => f' = f ∧ at_path d' = at_path d
  | (inr (id, b), f', d') =>
      id = chosen fp legacy c.(c_new) (Instances f) ∧ b = bool_decide (Instances f !! fp = None ∧ moved_id legacy (Instances f) = None) ∧
      f' = set_instances (recorded fp legacy c.(c_new) (Instances f)) f ∧ (stored d' = Some f' ∨ f' = f ∧ d' = d)
  end.
Proof.
  intros Hne. destruct f as [agent m v]. unfold instanceID, recorded, chosen. cbn. fold (moved_id legacy m).
  assert (∀ o, moved_id legacy m = Some o → m !! legacy = Some o) as Hmv by (unfold moved_id; intros o; by case_bool_decide).
  destruct (m !! fp) as [id|] eqn:Hk, (moved_id legacy m) as [mv|] eqn:Hm.
  2: { split_and!; [done|by rewrite bool_decide_eq_false_2 by naive_solver|by rewrite insert_id|by right]. }
  all: match goal with |- context [persistLocked ?f ?w ?t ?d] => pose proof (persist_cases f w t d) as Hp; destruct (persistLocked f w t d) as [[e|] d'] end.
  all: unfold set_instances; cbn.
  - split; [|done]. f_equal. rewrite (insert_id m fp id) by done. apply insert_delete_id. by apply Hmv.
  - split_and!; [done|reflexivity|done|by left].
  - split; [|done]. f_equal. rewrite delete_delete, delete_insert_id by done. apply insert_delete_id. by apply Hmv.
  - split_and!; [done|reflexivity|done|by left].
  - split; [|done]. f_equal. by rewrite delete_insert_id.
  - split_and!; [done|reflexivity|done|by left].
Qed.

Lemma recorded_keeps fp legacy new m k id : k ≠ legacy → m !! k = Some id → recorded fp legacy new m !! k = Some id.
Proof.
  intros Hk Hm. unfold recorded. assert (<[fp:=chosen fp legacy new m]> m !! k = Some id) as Hi.
  { destruct (decide (k = fp)) as [->|]; [|by rewrite lookup_insert_ne]. rewrite lookup_insert_eq. unfold chosen. by rewrite Hm. }
  destruct (moved_id legacy m); [by rewrite lookup_delete_ne|done].
Qed.

Lemma recorded_fp fp legacy new m : fp ≠ legacy → recorded fp legacy new m !! fp = Some (chosen fp legacy new m).
Proof. intros Hne. unfold recorded. destruct (moved_id legacy m); [rewrite lookup_delete_ne by done|]; by rewrite lookup_insert_eq. Qed.

(** No identifier under two fingerprints, all of them given out before. *)
Definition distinct (used : list UUID) (m : gmap string UUID) : Prop :=
  (∀ k id, m !! k = Some id → id ∈ used) ∧ (∀ k k' id, m !! k = Some id → m !! k' = Some id → k = k').

Lemma recorded_from fp legacy new m k id : recorded fp legacy new m !! k = Some id →
  (k ≠ fp ∧ m !! k = Some id ∧ (moved_id legacy m = None ∨ k ≠ legacy)) ∨ (k = fp ∧ id = chosen fp legacy new m).
Proof.
  unfold recorded. destruct (moved_id legacy m) eqn:Hm.
  - intros [Hl [[Hk Hid]|[Hk Hid]]%lookup_insert_Some]%lookup_delete_Some; [by right|left]. by split_and!; [| |right].
  - intros [[Hk Hid]|[Hk Hid]]%lookup_insert_Some; [by right|left]. by split_and!; [| |left].
Qed.

Lemma distinct_recorded used fp legacy new m : distinct used m → new ∉ used → distinct (new :: used) (recorded fp legacy new m).
Proof.
  intros [Hin Hinj] Hnew.
  assert (∀ o, moved_id legacy m = Some o → m !! legacy = Some o) as Hmv by (unfold moved_id; intros o; by case_bool_decide).
  assert (∀ k, k ≠ fp → (moved_id legacy m = None ∨ k ≠ legacy) → m !! k ≠ Some (chosen fp legacy new m)) as Hout.
  { intros k Hk Hl Hc. unfold chosen in Hc. destruct (m !! fp) as [id|] eqn:Hf; [by apply Hk, (Hinj k fp id)|].
    destruct (moved_id legacy m) as [o|]; [|by apply Hnew, (Hin k)]. destruct Hl as [Hl|Hl]; [done|]. by apply Hl, (Hinj k legacy o), Hmv. }
  split.
  - intros k id [(_ & Hk & _)|(-> & ->)]%recorded_from; [right; by eapply Hin|].
    unfold chosen. destruct (m !! fp) as [id|] eqn:Hf; [right; by eapply Hin|]. destruct (moved_id legacy m) as [o|]; [right; by eapply Hin, Hmv|left].
  - intros k k' id [(Hk & Hm & Hl)|(-> & ->)]%recorded_from [(Hk' & Hm' & Hl')|(-> & Hid)]%recorded_from.
    + by eapply Hinj.
    + subst id. by destruct (Hout k Hk Hl).
    + by destruct (Hout k' Hk' Hl').
    + done.
Qed.

(** The file is absent or whole, and what is in memory is what it says. *)
Definition sound (used : list UUID) (w : world) : Prop :=
  (w.(files).(at_path) = None ∨ ∃ f, stored w.(files) = Some f ∧ AgentID f ≠ uuid_Nil ∧ distinct used (Instances f)) ∧
  (∀ f, w.(memory) = Some f → stored w.(files) = Some f).

Lemma distinct_more used new m : distinct used m → distinct (new :: used) m.
Proof. intros [Hin Hinj]. split; [|done]. intros k id Hk. right. by eapply Hin. Qed.

Lemma stored_path d d' : at_path d' = at_path d → stored d' = stored d.
Proof. unfold stored. by intros ->. Qed.

Lemma sound_lookup used fp legacy c w : sound used w → c.(c_new) ∉ used → fp ≠ legacy → sound (c.(c_new) :: used) (step (Lookup fp legacy c) w).2.
Proof.
  intros [Hfile Hmem] Hnew Hne. cbn. destruct w as [mem d]. cbn in *. destruct mem as [f|].
  2: { split; [|done]. cbn. destruct Hfile as [Hn|(f & ? & ? & ?)]; [by left|right]. exists f. split_and!; [done..|by apply distinct_more]. }
  pose proof (Hmem f eq_refl) as Hst. pose proof (instanceID_cases fp legacy c f d Hne) as Hc.
  destruct Hfile as [Hn|(f' & Hf' & Hag & Hd)]; [unfold stored in Hst; by rewrite Hn in Hst|]. assert (f' = f) as -> by congruence.
  destruct (instanceID fp legacy c f d) as [[[e|[id b]] f1] d1]; cbn.
  - destruct Hc as [-> Hp]. split; cbn; [right; exists f|intros ? [= <-]]; rewrite (stored_path d d1) by done; [|done]. split_and!; [done..|by apply distinct_more].
  - destruct Hc as (_ & _ & -> & [Hs|[Hs ->]]).
    + split; cbn; [right; eexists; split; [done|]|by intros ? [= <-]]. split; [done|by apply distinct_recorded].
    + rewrite Hs. split; cbn; [right; exists f|by intros ? [= <-]]. split_and!; [done..|by apply distinct_more].
Qed.

Lemma sound_restart used a w : sound used w → a.(oa_new) ≠ uuid_Nil → sound (a.(oa_new) :: used) (step (Restart a) w).2.
Proof.
  intros [Hfile _] Hnew. destruct w as [mem d]. cbn in *. unfold Open.
  destruct Hfile as [Hn|(f & Hf & Hag & Hd)].
  - destruct (oa_mkdir_fails a); [by split; [left|]|]. rewrite Hn. destruct (oa_stat_fails a); [by split; [left|]|].
    pose proof (persist_cases (mkFile (oa_new a) ∅ 1) (oa_write a) (oa_torn a) d) as Hp.
    destruct (persistLocked _ _ _ _) as [[e|] d1]; cbn; split; cbn; [left; congruence|done| |by intros ? [= <-]].
    right. eexists. split; [done|]. split; [done|]. split; [intros k id Hk|intros k k' id Hk]; cbn in Hk; by rewrite lookup_empty in Hk.
  - assert (sound (oa_new a :: used) (mkWorld None d)) as Hoff.
    { split; [|done]. right. exists f. split_and!; [done..|by apply distinct_more]. }
    destruct (oa_mkdir_fails a); [done|]. pose proof Hf as Hf'. unfold stored in Hf'. destruct (at_path d) as [data|]; [|done]. cbn in Hf'.
    destruct (oa_read_fails a); [done|]. destruct (unmarshal data) as [[[agent m] v]|]; [|done]. cbn in Hf'. injection Hf' as <-. cbn in Hag.
    case_bool_decide; [done|]. destruct Hoff as [Hoff _]. split; [exact Hoff|]. by intros ? [= <-].
Qed.

Lemma fresh_step_sound P x y : fresh_step P x y → sound x.1 x.2 → sound y.1 y.2.
Proof.
  intros [used e w _ Hp [Hnil Hnew]%not_elem_of_cons] Hs. cbn in *. destruct e; [by apply sound_restart|by apply sound_lookup].
Qed.

Lemma fresh_steps_sound P x y : rtc (fresh_step P) x y → sound x.1 x.2 → sound y.1 y.2.
Proof. induction 1; eauto using fresh_step_sound. Qed.

Lemma reach_sound used w : reach used w → sound used w.
Proof. intros Hr. apply (fresh_steps_sound any _ (used, w) Hr). by split; [left|]. Qed.

(** ** What stays *)

Lemma step_file e w f used : sound used w → proper e → stored w.(files) = Some f → ∃ f', stored (step e w).2.(files) = Some f' ∧ AgentID f' = AgentID f ∧
  ∀ k id, legacy_of e ≠ Some k → Instances f !! k = Some id → Instances f' !! k = Some id.
Proof.
  intros [_ Hmem] Hp Hf. destruct w as [mem d]. cbn in *. destruct e as [a|fp legacy c]; cbn.
  - exists f. split; [|done]. unfold Open. destruct (oa_mkdir_fails a); [done|]. pose proof Hf as Hf'. unfold stored in Hf'.
    destruct (at_path d) as [data|]; [|done]. destruct (oa_read_fails a); [done|]. destruct (unmarshal data) as [[[agent m] v]|]; [|done]. by case_bool_decide.
  - destruct mem as [g|]; [|by exists f]. assert (g = f) as -> by (specialize (Hmem g eq_refl); congruence).
    pose proof (instanceID_cases fp legacy c f d Hp) as Hc. destruct (instanceID fp legacy c f d) as [[[e|[id b]] f1] d1]; cbn.
    + destruct Hc as [-> Hpath]. exists f. by rewrite (stored_path d d1).
    + destruct Hc as (_ & _ & Hf1 & [Hs|[-> ->]]); [|by exists f]. exists f1. split; [done|]. rewrite Hf1. split; [done|].
      intros k id' Hk. apply recorded_keeps. congruence.
Qed.

Lemma steps_file P x y f : rtc (fresh_step P) x y → sound x.1 x.2 → stored x.2.(files) = Some f → ∃ f', stored y.2.(files) = Some f' ∧ AgentID f' = AgentID f ∧
  ∀ k id, (∀ e, P e → legacy_of e ≠ Some k) → Instances f !! k = Some id → Instances f' !! k = Some id.
Proof.
  intros Hr. revert f. induction Hr as [x|x y z Hxy _ IH]; intros f Hs Hf; [by exists f|].
  pose proof (fresh_step_sound P x y Hxy Hs) as Hs'. destruct Hxy as [used e w HP Hp Hnew]. cbn in *.
  destruct (step_file e w f used Hs Hp Hf) as (f1 & Hf1 & Ha1 & Hk1). destruct (IH f1 Hs' Hf1) as (f2 & Hf2 & Ha2 & Hk2).
  exists f2. split_and!; [done|congruence|]. intros k id Hk Hid. apply Hk2; [done|]. apply Hk1; [by apply Hk|done].
Qed.

Lemma lookup_answer fp legacy c used w r w1 : sound used w → fp ≠ legacy → step (Lookup fp legacy c) w = (Identified r, w1) →
  ∃ f, w.(memory) = Some f ∧ stored w.(files) = Some f ∧
    match r with
    | inl _ => w1.(memory) = Some f ∧ stored w1.(files) = Some f
    | inr (id, b) => id = chosen fp legacy c.(c_new) (Instances f) ∧ b = bool_decide (Instances f !! fp = None ∧ moved_id legacy (Instances f) = None) ∧
        ∃ f1, w1.(memory) = Some f1 ∧ stored w1.(files) = Some f1 ∧ Instances f1 !! fp = Some id
    end.
Proof.
  intros [_ Hmem] Hne Hstep. destruct w as [[f|] d]; cbn in *; [|done]. specialize (Hmem f eq_refl). exists f. split; [done|]. split; [done|].
  pose proof (instanceID_cases fp legacy c f d Hne) as Hc. destruct (instanceID fp legacy c f d) as [[r' f1] d1]. injection Hstep as -> <-. cbn.
  destruct r as [e|[id b]].
  - destruct Hc as [-> Hp]. by rewrite (stored_path d d1).
  - destruct Hc as (-> & -> & -> & Hs). split_and!; [done..|]. eexists. split; [done|]. split; [|by apply recorded_fp].
    destruct Hs as [Hs|[Hs ->]]; congruence.
Qed.

Lemma open_answer a w f w1 used : sound used w → step (Restart a) w = (Opened (inr f), w1) → a.(oa_new) ≠ uuid_Nil →
  stored w1.(files) = Some f ∧ ∀ g, stored w.(files) = Some g → f = g.
Proof.
  intros Hs Hstep Hnil. pose proof (sound_restart used a w Hs Hnil) as [_ Hm]. rewrite Hstep in Hm. cbn in Hm.
  assert (w1.(memory) = Some f) as Hmem. { cbn in Hstep. destruct (Open a (files w)) as [r d]. injection Hstep as -> <-. done. }
  split; [by apply Hm|]. intros g Hg. destruct (step_file (Restart a) w g used Hs I Hg) as (g' & Hg' & _).
  rewrite Hstep in Hg'. cbn in Hg'. specialize (Hm f Hmem). assert (g' = f) as -> by congruence.
  destruct w as [mem d]. cbn in *. unfold Open in Hstep. destruct (oa_mkdir_fails a); [done|]. unfold stored in Hg. destruct (at_path d) as [data|]; [|done].
  cbn in Hg. destruct (oa_read_fails a); [done|]. destruct (unmarshal data) as [[[agent m] v]|]; [|done]. cbn in Hg. case_bool_decide; [done|]. congruence.
Qed.

Lemma persist_fails f w torn d e d' : persistLocked f w torn d = (Some e, d') → w ≠ Written ∨ ∃ f', marshal f' = None.
Proof. unfold persistLocked. destruct (marshal f) eqn:Hm; [|intros _; right; by exists f]. destruct w; intros [=]; by left. Qed.

Lemma lookup_fails fp legacy c f d e f' d' : instanceID fp legacy c f d = (inl e, f', d') → c.(c_write) ≠ Written ∨ ∃ f', marshal f' = None.
Proof.
  unfold instanceID. destruct (Instances f !! fp), (if bool_decide (legacy = "") then None else Instances f !! legacy); [|done|..].
  all: match goal with |- context [persistLocked ?f ?w ?t ?d] => destruct (persistLocked f w t d) as [[e'|] d1] eqn:Hp end; intros [=]; by eapply persist_fails.
Qed.

(** ** Theorems *)

(** C19: Over any history of starts and lookups, with any failure while the file is written: what
    the agent has in memory is what the file says, and the file is absent or whole; no two
    fingerprints share an identifier; the agent's identifier never changes once an agent has
    started; a fingerprint that was given an identifier is given the same one by every later
    lookup that succeeds, across restarts, as long as it is not replaced as the legacy of
    another; a new fingerprint takes over the identifier of its legacy; and a lookup fails
    only when the file cannot be written. *)
Theorem identity_stable used w : reach used w →
  (∀ f, w.(memory) = Some f → stored w.(files) = Some f) ∧
  (∀ f k k' id, stored w.(files) = Some f → Instances f !! k = Some id → Instances f !! k' = Some id → k = k') ∧
  (∀ a f w1 used2 w2 a' g w3, step (Restart a) w = (Opened (inr f), w1) → new_id (Restart a) ∉ uuid_Nil :: used →
     rtc (fresh_step any) (new_id (Restart a) :: used, w1) (used2, w2) → step (Restart a') w2 = (Opened (inr g), w3) → a'.(oa_new) ≠ uuid_Nil →
     AgentID g = AgentID f) ∧
  (∀ fp legacy c id b w1, step (Lookup fp legacy c) w = (Identified (inr (id, b)), w1) → fp ≠ legacy → c.(c_new) ∉ uuid_Nil :: used →
     ∀ used2 w2 legacy' c' id' b' w3, rtc (fresh_step (keeping fp)) (c.(c_new) :: used, w1) (used2, w2) → fp ≠ legacy' →
       step (Lookup fp legacy' c') w2 = (Identified (inr (id', b')), w3) → id' = id ∧ b' = false) ∧
  (∀ f fp legacy c, w.(memory) = Some f → fp ≠ legacy →
     (∀ id b w1, step (Lookup fp legacy c) w = (Identified (inr (id, b)), w1) → legacy ≠ "" → Instances f !! fp = None → ∀ old, Instances f !! legacy = Some old → id = old) ∧
     (∀ e w1, step (Lookup fp legacy c) w = (Identified (inl e), w1) → c.(c_write) ≠ Written ∨ ∃ f', marshal f' = None)).
Proof.
  intros Hr. pose proof (reach_sound used w Hr) as Hs. split_and!.
  - apply Hs.
  - intros f k k' id Hf. destruct Hs as [[Hn|(g & Hg & _ & [_ Hinj])] _]; [unfold stored in Hf; by rewrite Hn in Hf|]. assert (g = f) as -> by congruence. by apply Hinj.
  - intros a f w1 used2 w2 a' g w3 Ho [Hnil Hnew]%not_elem_of_cons Hlater Ho' Hnil'. destruct (open_answer a w f w1 used Hs Ho Hnil) as [Hf _].
    pose proof (sound_restart used a w Hs Hnil) as Hs1. rewrite Ho in Hs1.
    destruct (steps_file any _ _ f Hlater Hs1 Hf) as (f2 & Hf2 & Ha & _). pose proof (fresh_steps_sound any _ _ Hlater Hs1) as Hs2.
    destruct (open_answer a' w2 g w3 used2 Hs2 Ho' Hnil') as [_ Hsame]. by rewrite (Hsame f2 Hf2).
  - intros fp legacy c id b w1 Hl Hne [Hnil Hnew]%not_elem_of_cons used2 w2 legacy' c' id' b' w3 Hlater Hne' Hl'.
    destruct (lookup_answer fp legacy c used w _ w1 Hs Hne Hl) as (f & _ & _ & _ & _ & f1 & _ & Hf1 & Hid).
    pose proof (sound_lookup used fp legacy c w Hs Hnew Hne) as Hs1. rewrite Hl in Hs1.
    destruct (steps_file (keeping fp) _ _ f1 Hlater Hs1 Hf1) as (f2 & Hf2 & _ & Hk). pose proof (fresh_steps_sound (keeping fp) _ _ Hlater Hs1) as Hs2.
    destruct (lookup_answer fp legacy' c' used2 w2 _ w3 Hs2 Hne' Hl') as (f' & _ & Hf' & -> & -> & _). cbn in Hf2. assert (f' = f2) as -> by congruence.
    specialize (Hk fp id (λ e He, He) Hid). unfold chosen. rewrite Hk. split; [done|]. apply bool_decide_eq_false_2. by intros [? _].
  - intros f fp legacy c Hm Hne. split.
    + intros id b w1 Hl Hlegacy Hfp old Hold. destruct (lookup_answer fp legacy c used w _ w1 Hs Hne Hl) as (f' & Hm' & _ & -> & _). assert (f' = f) as -> by congruence.
      unfold chosen, moved_id. rewrite Hfp, bool_decide_eq_false_2, Hold by done. done.
    + intros e w1 Hl. cbn in Hl. rewrite Hm in Hl. destruct (instanceID fp legacy c f (files w)) as [[r f1] d1] eqn:Hi. injection Hl as -> _.
      by eapply lookup_fails.
Qed.
End store.

(** ** What a fingerprint depends on *)

Section target.
Context `{UrlParse, PgxConfig, Digest, UnicodeLower, UnicodePrint, RangeOrder, !RangeOrderLaws}.

Definition user_name (u : URL) : string := match u.(u_User) with Some (name, _) => name | None => "" end.
Definition shown (keep : bool) (values : gmap string (list string)) : gmap string (list string) := filter (λ p, ignored keep p.1 = false) values.
Definition supported (u : URL) : Prop := u.(u_Scheme) ∈ ["postgres"; "postgresql"].

(** The same server, user and database, by the same settings but for passwords and those that
    do not matter. *)
Record same_target (d1 d2 : string) (u1 u2 : URL) : Prop := {
  st_user : user_name u1 = user_name u2;
  st_host : u_Hostname u1 = u_Hostname u2;
  st_port : u_Port u1 = u_Port u2;
  st_path : u_Path u1 = u_Path u2;
  st_query : shown false (u_Query u1) = shown false (u_Query u2);
  st_default : (from_query u1).1.1 = "" → pgx_ParseConfig d1 = pgx_ParseConfig d2;
}.

Lemma sort_strings_perm l l' : l ≡ₚ l' → sort_strings l = sort_strings l'.
Proof.
  intros Hl. apply (sort_slice_unique string_lt (λ _, True)).
  - by apply Forall_forall.
  - intros x y _ _. apply string_not_after_antisym.
  - unfold sort_strings. by rewrite sort_slice_perm.
  - apply (sort_slice_sorted string_lt (λ _, True)). by apply Forall_forall.
Qed.

Lemma shown_keys keep values : filter (λ k, ignored keep k = false) (visit values).*1 ≡ₚ (map_to_list (shown keep values)).*1.
Proof.
  apply NoDup_Permutation.
  - apply NoDup_filter. rewrite (visit_perm values). apply NoDup_fst_map_to_list.
  - apply NoDup_fst_map_to_list.
  - intros k. rewrite list_elem_of_filter, (visit_perm values), !list_elem_of_fmap. split.
    + intros (Hi & [k' v] & -> & Hv%elem_of_map_to_list). exists (k', v). split; [done|]. apply elem_of_map_to_list. by apply map_lookup_filter_Some.
    + intros ([k' v] & -> & [Hv Hi]%elem_of_map_to_list%map_lookup_filter_Some). split; [done|]. exists (k', v). split; [done|]. by apply elem_of_map_to_list.
Qed.

Lemma query_parts_shown keep values values' : shown keep values = shown keep values' → query_parts keep values = query_parts keep values'.
Proof.
  intros Hs. unfold query_parts. rewrite (sort_strings_perm _ _ (shown_keys keep values)), (sort_strings_perm _ _ (shown_keys keep values')), Hs.
  set (keys := sort_strings _). assert (∀ k, k ∈ keys → values !! k = values' !! k) as Hk.
  { intros k. unfold keys, sort_strings. rewrite elem_of_sort_slice, list_elem_of_fmap. intros ([k' v] & -> & Hv%elem_of_map_to_list). cbn.
    pose proof Hv as Hv'. rewrite <- Hs in Hv. apply map_lookup_filter_Some in Hv as [Hv _], Hv' as [Hv' _]. congruence. }
  clearbody keys. induction keys as [|k keys IH]; cbn; [done|]. rewrite (Hk k) by left. f_equal. apply IH. intros k' Hk'. apply Hk. by right.
Qed.

Lemma shown_delete keep values values' k : shown keep values = shown keep values' → shown keep (delete k values) = shown keep (delete k values').
Proof. unfold shown. intros Hs. by rewrite !map_filter_delete, Hs. Qed.

Lemma Get_shown values values' k : shown false values = shown false values' → ignored false k = false → Get values k = Get values' k.
Proof.
  intros Hs Hi. unfold Get. enough (values !! k = values' !! k) as -> by done.
  apply option_eq. intros v. pose proof (map_lookup_filter_Some (λ p, ignored false p.1 = false) values k v) as Ha.
  pose proof (map_lookup_filter_Some (λ p, ignored false p.1 = false) values' k v) as Hb. unfold shown in Hs. rewrite Hs in Ha. cbn in Ha, Hb. naive_solver.
Qed.

Lemma from_query_same d1 d2 u1 u2 : same_target d1 d2 u1 u2 →
  (from_query u1).1 = (from_query u2).1 ∧ shown false (from_query u1).2 = shown false (from_query u2).2.
Proof.
  intros [_ Hh Hp _ Hq _]. unfold from_query. rewrite <- Hh, Hp. case_bool_decide; [|done]. cbn.
  rewrite (Get_shown _ _ "host" Hq) by reflexivity. rewrite (Get_shown _ _ "port" (shown_delete _ _ _ "host" Hq)) by reflexivity.
  split; [done|]. by apply shown_delete, shown_delete.
Qed.

Lemma fingerprint_known dsn u keep : dsn ≠ "" → url_Parse dsn = Some u → supported u → fingerprint dsn keep =
  match resolve_host dsn (from_query u).1.1 (from_query u).1.2 with
  | None => inl "fingerprint: DSN cannot be resolved to a server"
  | Some (hostname, port) =>
      inr (sha256_hex (canonical (user_name u) (JoinHostPort (if HasPrefix hostname "/" then hostname else to_lower hostname) (if bool_decide (port = "") then "5432" else port))
        (TrimPrefix u.(u_Path) "/") (Join "&" (query_parts keep (from_query u).2))))
  end.
Proof.
  intros Hd Hu Hs. unfold fingerprint. rewrite bool_decide_eq_false_2, Hu by done.
  replace (bool_decide (u_Scheme u = "postgres") || bool_decide (u_Scheme u = "postgresql")) with true.
  - cbn. by destruct (from_query u) as [[hostname port] values].
  - unfold supported in Hs. apply elem_of_cons in Hs as [Hs|Hs%list_elem_of_singleton]; rewrite Hs; reflexivity.
Qed.

Lemma no_secrets_shown (values : gmap string (list string)) : (∀ k, is_Some (values !! k) → to_lower k ∉ ["password"; "sslpassword"]) →
  filter (λ k, ignored true k = false) (visit values).*1 = filter (λ k, ignored false k = false) (visit values).*1.
Proof.
  intros Hn. apply filter_congr. intros k Hk. rewrite (visit_perm values), list_elem_of_fmap in Hk. destruct Hk as ([k' v] & -> & Hv%elem_of_map_to_list).
  unfold ignored. cbn. rewrite (bool_decide_eq_false_2 (to_lower k' ∈ ["password"; "sslpassword"])); [done|]. apply Hn. by eexists.
Qed.

(** Two connection strings for one server, user and database have one fingerprint, whatever
    their passwords, in the authority or in the query, and their other settings that are not
    part of the identity. A string without a password in its query has no legacy fingerprint. *)
Theorem fingerprint_ignores_secrets d1 d2 u1 u2 :
  d1 ≠ "" → d2 ≠ "" → url_Parse d1 = Some u1 → url_Parse d2 = Some u2 → supported u1 → supported u2 → same_target d1 d2 u1 u2 →
  Fingerprint d1 = Fingerprint d2 ∧
  ((∀ k, is_Some (u_Query u1 !! k) → to_lower k ∉ ["password"; "sslpassword"]) → legacyFingerprint d1 = "").
Proof.
  intros Hd1 Hd2 Hu1 Hu2 Hs1 Hs2 Hst. split.
  - destruct (from_query_same d1 d2 u1 u2 Hst) as [Hfq Hsh]. destruct Hst as [Huser _ _ Hpath _ Hdef].
    unfold Fingerprint. rewrite (fingerprint_known d1 u1), (fingerprint_known d2 u2) by done.
    rewrite Huser, Hpath, (query_parts_shown _ _ _ Hsh), <- Hfq. unfold resolve_host. case_bool_decide; [|done]. by rewrite Hdef.
  - intros Hn. unfold legacyFingerprint. rewrite !(fingerprint_known d1 u1) by done. destruct (resolve_host _ _ _) as [[hostname port]|]; [|done].
    unfold query_parts. rewrite no_secrets_shown; [by rewrite bool_decide_eq_true_2|].
    intros k Hk. apply Hn. unfold from_query in Hk. case_bool_decide; [|done]. cbn in Hk. by apply lookup_delete_is_Some in Hk as [_ [_ Hk]%lookup_delete_is_Some].
Qed.
End target.

(** ** Examples *)
Module Agent_.
#[local] Instance json : FileCodec := {| doc := File; marshal f := Some f; unmarshal f := Some (AgentID f, Some (Instances f), Version f) |}.

Lemma json_codec f data : marshal f = Some data → unmarshal data = Some (AgentID f, Some (Instances f), Version f).
Proof. cbn. by intros [= <-]. Qed.

Definition start : world := mkWorld None (mkDisk None None).
Definition torn : doc := mkFile 0 ∅ 0.
Definition boot (new : UUID) : event := Restart (mkOpen false false false new Written torn).
Definition ask (fp legacy : string) (new : UUID) (w : write_end) : event := Lookup fp legacy (mkCall new w torn).

(** Started, asked for [a]; then the disk fails, the agent is restarted, and asked again. *)
Definition running : world := (step (boot 5) start).2.
Definition known : world := (step (ask "a" "" 6 Written) running).2.
Definition again : world := (step (boot 8) (step (ask "b" "" 7 (TmpFails true)) known).2).2.

Lemma not_given (x : UUID) l : existsb (Z.eqb x) l = false → x ∉ l.
Proof. intros Hl Hx. apply not_true_iff_false in Hl. apply Hl, existsb_exists. exists x. split; [by apply list_elem_of_In|apply Z.eqb_refl]. Qed.

Lemma identity_stable_witness : step (ask "a" "" 6 Written) running = (Identified (inr (6, true)), known) ∧
  ∀ id b w3, step (ask "a" "" 9 Written) again = (Identified (inr (id, b)), w3) → id = 6 ∧ b = false.
Proof.
  split; [reflexivity|]. intros id b w3 Hs.
  assert (reach [5] running) as Hr by (apply rtc_once, (fresh_event any [] (boot 5) start I I), not_given; reflexivity).
  destruct (identity_stable json_codec [5] running Hr) as (_ & _ & _ & Hst & _).
  refine (Hst "a" "" (mkCall 6 Written torn) 6 true known eq_refl _ _ [8; 7; 6; 5] again "" (mkCall 9 Written torn) id b w3 _ _ Hs);
    [discriminate|apply not_given; reflexivity| |discriminate].
  eapply rtc_l; [apply (fresh_event (keeping "a") [6; 5] (ask "b" "" 7 (TmpFails true)) known)|apply rtc_once, (fresh_event (keeping "a") [7; 6; 5] (boot 8))].
  all: first [apply not_given; reflexivity|vm_compute; first [discriminate|exact I]].
Defined.

(** Two spellings of one server that differ in the password and the time-out. *)
Definition plain : URL := mkURL "postgres" (Some ("app", Some "secret")) "db.example" "" "/shop" ∅.
Definition rotated : URL := mkURL "postgresql" (Some ("app", None)) "db.example" "" "/shop" (list_to_map [("password", ["other"]); ("connect_timeout", ["3"])]).
#[local] Instance urls : UrlParse := λ dsn, if bool_decide (dsn = "one") then Some plain else Some rotated.
#[local] Instance config : PgxConfig := λ _, None.
#[local] Instance digest : Digest := λ s, s.
#[local] Instance lower : UnicodeLower := List.map lower_byte.
#[local] Instance prints : UnicodePrint := λ _, true.
#[local] Instance order : RangeOrder := λ K V _ _ m, map_to_list m.
#[local] Instance order_laws : RangeOrderLaws.
Proof. split. reflexivity. Qed.

Lemma fingerprint_ignores_secrets_witness : Fingerprint "one" = Fingerprint "two" ∧ legacyFingerprint "one" = "".
Proof.
  assert (same_target "one" "two" plain rotated) as Hst by (split; [reflexivity..|vm_compute; reflexivity|discriminate]).
  destruct (fingerprint_ignores_secrets "one" "two" plain rotated ltac:(discriminate) ltac:(discriminate) eq_refl eq_refl ltac:(left) ltac:(right; left) Hst) as [Hf Hl].
  split; [exact Hf|]. apply Hl. intros k [v Hv]. change ((∅ : gmap string (list string)) !! k = Some v) in Hv. rewrite lookup_empty in Hv. discriminate.
Defined.

Example fingerprint_text : Fingerprint "two" = inr "postgres://app@db.example:5432/shop" ∧
  legacyFingerprint "two" = "postgres://app@db.example:5432/shop?password=other".
Proof. vm_compute. split; reflexivity. Qed.
End Agent_.
