(* ===== verification/Host.v ===== *)
(** * Host and container limits (internal/host)

    The collector's sample of the host, and what the limits of the control group the process
    runs in replace of it. What gopsutil answers is an argument. The files read for one sample
    are those of one state of the file system [fs]: a file that changes between two reads of
    the same sample is not modelled. *)
From S2P Require Import Prelude GoTime GoFloat GoSort GoBytes GoText GoFmt.

(** ** Paths (path/filepath on Unix) *)

Definition path : Type := text.
Definition slash : byte := "/"%byte.

Fixpoint components (p : path) : list text :=
  match p with
  | [] => [[]]
  | c :: p =>
      if decide (c = slash) then [] :: components p
      else match components p with x :: l => (c :: x) :: l | [] => [[c]] end
  end.

Fixpoint join_slash (l : list text) : path :=
  match l with [] => [] | [x] => x | x :: l => x ++ slash :: join_slash l end.

Definition dot : text := str ".".
Definition dotdot : text := str "..".

(** The next component: [l] is the path so far, its last component first. *)
Definition push (rooted : bool) (l : list text) (c : text) : list text :=
  if bool_decide (c = []) || bool_decide (c = dot) then l
  else if bool_decide (c = dotdot) then
    match l with
    | x :: l' => if bool_decide (x = dotdot) then c :: l else l'
    | [] => if rooted then [] else [c]
    end
  else c :: l.

Definition is_rooted (p : path) : bool := match p with c :: _ => bool_decide (c = slash) | [] => false end.

Definition render (rooted : bool) (l : list text) : path :=
  if rooted then slash :: join_slash l else match l with [] => dot | _ => join_slash l end.

Definition Clean (p : path) : path := render (is_rooted p) (reverse (foldl (push (is_rooted p)) [] (components p))).

Fixpoint Join_paths (l : list text) : path :=
  match l with
  | [] => []
  | [] :: l => Join_paths l
  | l => Clean (join_slash l)
  end.

(** The path up to and with its last slash. *)
Fixpoint up_to_slash (p : path) : path :=
  match p with
  | [] => []
  | c :: p => match up_to_slash p with [] => if decide (c = slash) then [c] else [] | q => c :: q end
  end.
Definition Dir (p : path) : path := Clean (up_to_slash p).

(** ** Files *)

Record fs := mkFs {
  fs_read : path → option text; (* [os.ReadFile] *)
  fs_stat : path → bool;        (* [os.Stat] succeeds *)
  fs_isdir : path → bool;       (* and it is a directory *)
}.

Definition at_ (dir : path) (name : string) : path := Join_paths [dir; str name].

Definition readUint (f : fs) (p : path) : option Z := b ← f.(fs_read) p; ParseUint (TrimSpace b).
Definition readInt (f : fs) (p : path) : option Z := b ← f.(fs_read) p; ParseInt (TrimSpace b).

Definition newline : ascii := Ascii.ascii_of_nat 10.

(** The first line of two fields of which the first is the key decides. *)
Fixpoint stat_field (key : text) (lines : list string) : option Z :=
  match lines with
  | [] => None
  | line :: lines =>
      match Fields (str line) with
      | [k; v] => if bool_decide (k = key) then ParseUint v else stat_field key lines
      | _ => stat_field key lines
      end
  end.
Definition readStatField (f : fs) (p : path) (key : string) : option Z := b ← f.(fs_read) p; stat_field (str key) (Split (of_text b) newline).

(** ** Limits *)

Definition cgroupV1Unlimited : Z := 2 ^ 62.

Definition memoryLimit (f : fs) (dir : path) : option Z :=
  limit ← readUint f (at_ dir "memory.max");
  if cgroupV1Unlimited <=? limit then None
  else _ ← readUint f (at_ dir "memory.current"); Some limit.

Definition readCPUQuota (f : fs) (dir : path) : option float64 :=
  b ← f.(fs_read) (at_ dir "cpu.max");
  match Fields b with
  | [q; p] =>
      if bool_decide (q = str "max") then None
      else
        q ← ParseUint q;
        p ← ParseUint p;
        if (p =? 0) || (q =? 0) then None else Some (fdiv (float_of_int q) (float_of_int p))
  | _ => None
  end.

Definition readCPUQuotaV1 (f : fs) (dir : path) : option float64 :=
  quota ← readInt f (at_ dir "cpu.cfs_quota_us");
  period ← readInt f (at_ dir "cpu.cfs_period_us");
  if (quota <=? 0) || (period <=? 0) then None else Some (fdiv (float_of_int quota) (float_of_int period)).

(** [governingDir]: the loop, with the directory and limit found so far. *)
Fixpoint governing {T} (lt : T → T → bool) (limitOf : path → option T) (fuel : nat) (root d : path) (best : option (path * T)) : option (option (path * T)) :=
  match fuel with
  | O => None
  | S fuel =>
      let best := match limitOf d with
        | Some limit => match best with Some (_, tightest) => if lt limit tightest then Some (d, limit) else best | None => Some (d, limit) end
        | None => best
        end in
      if bool_decide (d = root) || negb (has_prefix (root ++ [slash]) d) then Some best
      else governing lt limitOf fuel root (Dir d) best
  end.

(** Each turn leaves a component of the path behind. The empty path when there is no limit. *)
Definition governingDir {T} (lt : T → T → bool) (limitOf : path → option T) (own root : path) : path :=
  match governing lt limitOf (S (length (components own))) root own None with Some (Some (d, _)) => d | _ => [] end.

Fixpoint unified_path (lines : list string) : option text :=
  match lines with
  | [] => None
  | line :: lines =>
      match Split line ":"%char with
      | zero :: controllers :: (_ :: _) as rest =>
          if bool_decide (zero = "0") && bool_decide (controllers = "") then
            let rel := TrimSpace (str (Join ":" (drop 2 (Split line ":"%char)))) in
            if contains dotdot rel then None else Some rel
          else unified_path lines
      | _ => unified_path lines
      end
  end.
Definition unifiedCgroupPath (f : fs) (file : path) : option text := b ← f.(fs_read) file; unified_path (Split (of_text b) newline).

Definition ownCgroupDir (f : fs) (procPath root : path) : path :=
  match unifiedCgroupPath f (Join_paths [procPath; str "self"; str "cgroup"]) with
  | None => root
  | Some own =>
      match unifiedCgroupPath f (Join_paths [procPath; str "1"; str "cgroup"]) with
      | None => root
      | Some pid1 =>
          if bool_decide (pid1 = own) then
            let dir := Join_paths [root; own] in
            if f.(fs_stat) dir && f.(fs_isdir) dir then dir else root
          else root
      end
  end.

Definition cgroupAvailable (f : fs) (limit current : Z) (statPath : path) (inactiveKey : string) : Z :=
  let used := match readStatField f statPath inactiveKey with
    | Some inactive => if inactive <? current then current - inactive else 0
    | None => current
    end in
  if limit <=? used then 0 else limit - used.

(** ** The sample *)

Record Sample := mkSample {
  MemTotalBytes : option Z;
  MemAvailableBytes : option Z;
  SwapTotalBytes : option Z;
  SwapUsedBytes : option Z;
  CPUCount : option Z;
  CPUUsedRatio : option float64;
  Load1 : option float64;
  Load5 : option float64;
  Load15 : option float64;
  DiskTotalBytes : option Z;
  DiskFreeBytes : option Z;
  Source : string;
}.

Definition set_mem (total available : Z) (s : Sample) : Sample :=
  mkSample (Some total) (Some available) s.(SwapTotalBytes) s.(SwapUsedBytes) s.(CPUCount) s.(CPUUsedRatio) s.(Load1) s.(Load5) s.(Load15) s.(DiskTotalBytes) s.(DiskFreeBytes) s.(Source).
Definition set_count (n : Z) (s : Sample) : Sample :=
  mkSample s.(MemTotalBytes) s.(MemAvailableBytes) s.(SwapTotalBytes) s.(SwapUsedBytes) (Some n) s.(CPUUsedRatio) s.(Load1) s.(Load5) s.(Load15) s.(DiskTotalBytes) s.(DiskFreeBytes) s.(Source).
Definition set_ratio (r : option float64) (s : Sample) : Sample :=
  mkSample s.(MemTotalBytes) s.(MemAvailableBytes) s.(SwapTotalBytes) s.(SwapUsedBytes) s.(CPUCount) r s.(Load1) s.(Load5) s.(Load15) s.(DiskTotalBytes) s.(DiskFreeBytes) s.(Source).
Definition set_disk (total free : Z) (s : Sample) : Sample :=
  mkSample s.(MemTotalBytes) s.(MemAvailableBytes) s.(SwapTotalBytes) s.(SwapUsedBytes) s.(CPUCount) s.(CPUUsedRatio) s.(Load1) s.(Load5) s.(Load15) (Some total) (Some free) s.(Source).
Definition set_source (src : string) (s : Sample) : Sample :=
  mkSample s.(MemTotalBytes) s.(MemAvailableBytes) s.(SwapTotalBytes) s.(SwapUsedBytes) s.(CPUCount) s.(CPUUsedRatio) s.(Load1) s.(Load5) s.(Load15) s.(DiskTotalBytes) s.(DiskFreeBytes) src.

(** [math.Ceil] of a float that is not negative, and [math.Min]. *)
Definition Ceil (x : float64) : float64 :=
  match integer_part x with
  | Some n => if flt (float_of_int n) x then float_of_int (n + 1) else x
  | None => x
  end.
Definition Min (x y : float64) : float64 :=
  match x, y with
  | SpecFloat.S754_infinity true, _ | _, SpecFloat.S754_infinity true => SpecFloat.S754_infinity true
  | SpecFloat.S754_nan, _ | _, SpecFloat.S754_nan => fnan
  | SpecFloat.S754_zero sign, SpecFloat.S754_zero _ => if sign then x else y
  | _, _ => if flt x y then x else y
  end.

Section collector.
Context `{FloatOverflow}.

(** Memory and processors under a limit; whether there was any. *)
Definition limit_memory (f : fs) (limit_file current_file stat_file : path) (key : string) (s : Sample) : Sample * bool :=
  match readUint f limit_file with
  | Some limit =>
      if limit <? cgroupV1Unlimited then
        match readUint f current_file with
        | Some current => (set_mem limit (cgroupAvailable f limit current stat_file key) s, true)
        | None => (s, false)
        end
      else (s, false)
  | None => (s, false)
  end.
Definition limit_cpu (quota : option float64) (s : Sample) : Sample * bool :=
  match quota with Some q => (set_count (to_int64 (Ceil q)) s, true) | None => (s, false) end.

Definition applyV2 (f : fs) (memDir cpuDir : path) (s : Sample) : Sample :=
  let '(s, m) := if bool_decide (memDir = []) then (s, false)
    else limit_memory f (at_ memDir "memory.max") (at_ memDir "memory.current") (at_ memDir "memory.stat") "inactive_file" s in
  let '(s, c) := if bool_decide (cpuDir = []) then (s, false) else limit_cpu (readCPUQuota f cpuDir) s in
  if m || c then set_source "cgroup_v2" s else s.

Definition applyV1 (f : fs) (root : path) (s : Sample) : Sample :=
  let '(s, m) := limit_memory f (Join_paths [root; str "memory"; str "memory.limit_in_bytes"]) (Join_paths [root; str "memory"; str "memory.usage_in_bytes"])
    (Join_paths [root; str "memory"; str "memory.stat"]) "total_inactive_file" s in
  let '(s, c) := limit_cpu (readCPUQuotaV1 f (at_ root "cpu")) s in
  if m || c then set_source "cgroup_v1" s else s.

(** ** The share of the quota in use *)

Record cgroupCPUReading := mkReading { usageUsec : Z; read_at : Time }.

Definition applyCPURatio (quota : option float64) (usage : option Z) (now : Time) (prev : option cgroupCPUReading) (s : Sample) : option cgroupCPUReading * Sample :=
  match quota, usage with
  | None, _ => (None, s)
  | Some _, None => (None, set_ratio None s)
  | Some quotaCores, Some usage =>
      let reading := Some (mkReading usage now) in
      match prev with
      | None => (reading, set_ratio None s)
      | Some prev =>
          let elapsed := Sub now prev.(read_at) in
          if (elapsed <=? 0) || (usage <? prev.(usageUsec)) then (reading, set_ratio None s)
          else
            let used := float_of_int (usage - prev.(usageUsec)) in
            let available := fmul (fmul (Seconds elapsed) (float_of_int 1000000)) quotaCores in
            (reading, set_ratio (Some (Min (fdiv used available) (float_of_int 1))) s)
      end
  end.

Definition applyV2CPURatio (f : fs) (dir : path) (now : Time) (prev : option cgroupCPUReading) (s : Sample) : option cgroupCPUReading * Sample :=
  let quota := if bool_decide (dir = []) then None else readCPUQuota f dir in
  applyCPURatio quota (_ ← quota; readStatField f (at_ dir "cpu.stat") "usage_usec") now prev s.

Definition applyV1CPURatio (f : fs) (root : path) (now : Time) (prev : option cgroupCPUReading) (s : Sample) : option cgroupCPUReading * Sample :=
  let dir := at_ root "cpu" in
  let quota := readCPUQuotaV1 f dir in
  let ns := match readUint f (Join_paths [root; str "cpuacct"; str "cpuacct.usage"]) with Some n => Some n | None => readUint f (at_ dir "cpuacct.usage") end in
  applyCPURatio quota (_ ← quota; n ← ns; Some (n / 1000)) now prev s.

Definition cgroup_root (sysPath : path) : path := Join_paths [sysPath; str "fs"; str "cgroup"].

Definition applyCgroup (f : fs) (procPath sysPath : path) (now : Time) (prev : option cgroupCPUReading) (s : Sample) : option cgroupCPUReading * Sample :=
  let root := cgroup_root sysPath in
  if f.(fs_stat) (at_ root "cgroup.controllers") then
    let own := ownCgroupDir f procPath root in
    let memDir := governingDir Z.ltb (memoryLimit f) own root in
    let cpuDir := governingDir flt (readCPUQuota f) own root in
    applyV2CPURatio f cpuDir now prev (applyV2 f memDir cpuDir s)
  else if f.(fs_stat) (Join_paths [root; str "memory"; str "memory.limit_in_bytes"]) then
    applyV1CPURatio f root now prev (applyV1 f root s)
  else (prev, s).

(** ** Collect *)

Record TimesStat := mkTimes { t_User : float64; t_System : float64; t_Idle : float64; t_Nice : float64; t_Iowait : float64; t_Irq : float64; t_Softirq : float64; t_Steal : float64 }.

Definition sum_times (t : TimesStat) : float64 :=
  fadd (fadd (fadd (fadd (fadd (fadd (fadd t.(t_User) t.(t_System)) t.(t_Idle)) t.(t_Nice)) t.(t_Iowait)) t.(t_Irq)) t.(t_Softirq)) t.(t_Steal).

Definition host_ratio (t p : TimesStat) : option float64 :=
  let total := sum_times t in
  let old := sum_times p in
  let active := fadd (fadd (fsub (fsub (fsub total t.(t_Idle)) t.(t_Iowait)) old) p.(t_Idle)) p.(t_Iowait) in
  let elapsed := fsub total old in
  if flt fzero elapsed then Some (fdiv active elapsed) else None.

(** What gopsutil answers. *)
Record psutil := mkPsutil {
  ps_memory : string + Z * Z;
  ps_swap : string + Z * Z;
  ps_counts : string + Z;
  ps_times : string + list TimesStat;
  ps_load : string + float64 * float64 * float64;
  ps_disk : string + Z * Z;
}.

Record Collector := mkCollector { procPath : path; sysPath : path; previous : option TimesStat; cgroupCPU : option cgroupCPUReading }.

Definition NewCollector (proc sys : path) : Collector := mkCollector proc sys None None.

Definition Collect (ps : psutil) (f : fs) (now : Time) (dataDir : path) (c : Collector) : (string + Sample) * Collector :=
  match ps.(ps_memory), ps.(ps_swap), ps.(ps_counts), ps.(ps_times), ps.(ps_load) with
  | inl e, _, _, _, _ => (inl ("read virtual memory: " +:+ e), c)
  | _, inl e, _, _, _ => (inl ("read swap memory: " +:+ e), c)
  | _, _, inl e, _, _ => (inl ("read cpu count: " +:+ e), c)
  | _, _, _, inl e, _ => (inl ("read cpu times: " +:+ e), c)
  | _, _, _, _, inl e => (inl ("read load average: " +:+ e), c)
  | inr (total, available), inr (swap, used), inr counts, inr times, inr (l1, l5, l15) =>
      let s := mkSample (Some total) (Some available) (Some swap) (Some used) (Some counts) None (Some l1) (Some l5) (Some l15) None None "host" in
      let s := match times, c.(previous) with t :: _, Some p => set_ratio (host_ratio t p) s | _, _ => s end in
      let previous := match times with t :: _ => Some t | [] => c.(previous) end in
      let s := if bool_decide (dataDir = []) then s else match ps.(ps_disk) with inr (total, free) => set_disk total free s | inl _ => s end in
      let '(reading, s) := applyCgroup f c.(procPath) c.(sysPath) now c.(cgroupCPU) s in
      (inr s, mkCollector c.(procPath) c.(sysPath) previous reading)
  end.
End collector.

(** ** Lemmas on paths *)

Definition no_slash (c : text) : Prop := slash ∉ c.
(** A component a clean path can have; [plain] ones are not [..]. *)
Definition clean_part (c : text) : Prop := c ≠ [] ∧ c ≠ dot ∧ no_slash c.
Definition plain (c : text) : Prop := clean_part c ∧ c ≠ dotdot.

Lemma components_not_nil p : components p ≠ [].
Proof. destruct p as [|c p]; cbn; [done|]. case_decide; [done|]. by destruct (components p). Qed.

Lemma components_app x y : components (x ++ slash :: y) = components x ++ components y.
Proof.
  induction x as [|c x IH]; cbn.
  - by rewrite decide_True.
  - rewrite IH. case_decide; [done|]. pose proof (components_not_nil x). by destruct (components x).
Qed.

Lemma components_single c : no_slash c → components c = [c].
Proof.
  unfold no_slash. induction c as [|b c IH]; cbn; [done|]. rewrite not_elem_of_cons. intros [Hb Hc]. rewrite decide_False by done. by rewrite IH.
Qed.

Lemma components_no_slash p : Forall no_slash (components p).
Proof.
  unfold no_slash. induction p as [|b p IH]; cbn; [repeat constructor; apply not_elem_of_nil|]. case_decide; [constructor; [apply not_elem_of_nil|done]|].
  destruct (components p) as [|x l]; [by repeat constructor; apply not_elem_of_cons; split; [|apply not_elem_of_nil]|].
  apply Forall_cons in IH as [Hx Hl]. constructor; [|done]. by apply not_elem_of_cons.
Qed.

Lemma join_slash_app x y : x ≠ [] → y ≠ [] → join_slash (x ++ y) = join_slash x ++ slash :: join_slash y.
Proof.
  intros Hx Hy. induction x as [|c x IH]; [done|]. destruct x as [|d x]; [by destruct y|]. change (c ++ slash :: join_slash ((d :: x) ++ y) = (c ++ slash :: join_slash (d :: x)) ++ slash :: join_slash y).
  rewrite IH by done. by rewrite <- app_assoc.
Qed.

Lemma components_join l : l ≠ [] → Forall no_slash l → components (join_slash l) = l.
Proof.
  intros Hl Hs. induction Hs as [|c l Hc Hs IH]; [done|]. destruct l as [|d l]; [by apply components_single|].
  change (components (c ++ slash :: join_slash (d :: l)) = c :: d :: l). by rewrite components_app, components_single, IH.
Qed.

Lemma up_to_slash_last x c : no_slash c → up_to_slash (x ++ slash :: c) = x ++ [slash].
Proof.
  intros Hc. assert (up_to_slash c = []) as Hn.
  { unfold no_slash in Hc. induction c as [|b c IH]; cbn; [done|]. apply not_elem_of_cons in Hc as [Hb Hc]. rewrite IH by done. by rewrite decide_False. }
  induction x as [|b x IH]; cbn; [by rewrite Hn, decide_True|]. rewrite IH. by destruct x.
Qed.

(** ** Stacks of components *)

(** Pushing the components of a clean path again gives it back. *)
Definition settled (r : bool) (l : list text) : Prop := foldl (push r) [] (reverse l) = l ∧ Forall clean_part l.

Lemma push_part r l c : plain c → push r l c = c :: l.
Proof. intros [(? & ? & _) ?]. unfold push. by rewrite !bool_decide_eq_false_2. Qed.

Lemma settled_push r l c : settled r l → no_slash c → settled r (push r l c).
Proof.
  intros [Hl Hc] Hs. unfold push. destruct (bool_decide (c = []) || bool_decide (c = dot)) eqn:He; [done|].
  apply orb_false_iff in He as [H1%bool_decide_eq_false H2%bool_decide_eq_false].
  assert (settled r (c :: l) ∨ c = dotdot) as Hcons.
  { destruct (decide (c = dotdot)); [by right|left]. split; [|by constructor]. rewrite reverse_cons, foldl_snoc, Hl. by apply push_part. }
  case_bool_decide as Hd; [|by destruct Hcons]. subst c. destruct l as [|x l].
  - destruct r; [by split|]. split; [reflexivity|by repeat constructor].
  - case_bool_decide as Hx.
    + subst x. split; [|by constructor]. rewrite reverse_cons, foldl_snoc, Hl. reflexivity.
    + apply Forall_cons in Hc as [Hcx Hcl]. split; [|done]. rewrite reverse_cons, foldl_snoc, push_part in Hl by done. by injection Hl.
Qed.

Lemma settled_fold r cs : ∀ l, settled r l → Forall no_slash cs → settled r (foldl (push r) l cs).
Proof. induction cs as [|c cs IH]; intros l Hl Hs; cbn; [done|]. apply Forall_cons in Hs as [? ?]. by apply IH; [apply settled_push|]. Qed.

Lemma fold_plain r x : ∀ l, Forall plain x → foldl (push r) l x = reverse x ++ l.
Proof.
  induction x as [|c x IH]; intros l Hx; cbn [foldl]; [done|]. apply Forall_cons in Hx as [Hc Hx]. rewrite push_part, IH by done. by rewrite reverse_cons, <- app_assoc.
Qed.

(** The components of a clean path, in order. *)
Definition clean_list (r : bool) (l : list text) : Prop := l ≠ [] ∧ foldl (push r) [] l = reverse l ∧ Forall clean_part l.

Lemma clean_list_of r l : l ≠ [] → settled r l → clean_list r (reverse l).
Proof. intros Hn [Hl Hc]. split; [by destruct l as [|c l]; [|rewrite reverse_cons; destruct (reverse l)]|]. rewrite reverse_involutive. split; [done|by apply Forall_reverse]. Qed.

Lemma clean_list_app r l x : clean_list r l → Forall plain x → clean_list r (l ++ x).
Proof.
  intros (Hn & Hl & Hc) Hx. split; [by destruct l|]. split; [by rewrite foldl_app, Hl, fold_plain, reverse_app|].
  apply Forall_app. split; [done|]. eapply Forall_impl; [done|]. by intros c [? _].
Qed.

Lemma parts_no_slash l : Forall clean_part l → Forall no_slash l.
Proof. intros Hl. eapply Forall_impl; [done|]. by intros c (_ & _ & ?). Qed.

Lemma rendered r l : clean_list r l → is_rooted (render r l) = r ∧ render r l ≠ [] ∧ ∀ st y, foldl (push r) st (components (render r l ++ slash :: y)) = foldl (push r) (foldl (push r) st l) (components y).
Proof.
  intros (Hn & _ & Hc). pose proof (parts_no_slash l Hc) as Hs. destruct r; [cbn|unfold render].
  - split_and!; [by rewrite bool_decide_eq_true_2|done|]. intros st y. rewrite decide_True by done. cbn. by rewrite components_app, components_join, foldl_app.
  - destruct l as [|c l]; [done|]. apply Forall_cons in Hc as [(Hc0 & _ & Hcs) _]. split_and!.
    + destruct c as [|b c]; [done|]. apply not_elem_of_cons in Hcs as [Hb _]. destruct l; apply bool_decide_eq_false_2; congruence.
    + destruct l; [done|]. by destruct c.
    + intros st y. by rewrite components_app, components_join, foldl_app.
Qed.

Lemma rooted_app p y : p ≠ [] → is_rooted (p ++ y) = is_rooted p.
Proof. by destruct p. Qed.

Lemma Clean_render r l y : clean_list r l → Clean (render r l ++ slash :: y) = render r (reverse (foldl (push r) (reverse l) (components y))).
Proof.
  intros Hl. destruct (rendered r l Hl) as (Hr & Hn & Hf). destruct Hl as (_ & Hfold & _). unfold Clean. by rewrite rooted_app, Hr, Hf, Hfold.
Qed.

Lemma render_app r l x : clean_list r l → x ≠ [] → render r (l ++ x) = render r l ++ slash :: join_slash x.
Proof. intros (Hl & _) Hx. destruct r; cbn; [by rewrite join_slash_app|]. destruct l as [|c l]; [done|]. by apply (join_slash_app (c :: l) x). Qed.

Lemma Dir_render r l c : clean_list r l → no_slash c → Dir (render r (l ++ [c])) = render r l.
Proof.
  intros Hl Hc. unfold Dir. rewrite render_app by done. cbn [join_slash]. rewrite up_to_slash_last, Clean_render by done.
  change (foldl (push r) (reverse l) (components [])) with (reverse l). by rewrite reverse_involutive.
Qed.

Lemma Join_render r l y : clean_list r l → Join_paths [render r l; y] = render r (reverse (foldl (push r) (reverse l) (components y))).
Proof. intros Hl. destruct (rendered r l Hl) as (_ & Hn & _). rewrite <- Clean_render by done. cbn. by destruct (render r l). Qed.

Lemma cgroup_parts : Forall plain [str "fs"; str "cgroup"].
Proof.
  rewrite !Forall_cons. split_and!; [..|by apply Forall_nil].
  all: split; [split_and!; [discriminate..|apply (bool_decide_eq_false (slash ∈ _)); reflexivity]|discriminate].
Qed.

Lemma cgroup_root_clean sys : ∃ r l, clean_list r l ∧ cgroup_root sys = render r l.
Proof.
  unfold cgroup_root. assert (∀ r st, settled r st → ∃ l, clean_list r l ∧ reverse (foldl (push r) st [str "fs"; str "cgroup"]) = l) as Hend.
  { intros r st Hst. eexists. split; [|done]. apply clean_list_of; [done|]. apply settled_fold; [done|].
    apply parts_no_slash. eapply Forall_impl; [apply cgroup_parts|]. by intros c [? _]. }
  destruct sys as [|b sys].
  - exists false, [str "fs"; str "cgroup"]. split; [|reflexivity]. split_and!; [done|reflexivity|]. eapply Forall_impl; [apply cgroup_parts|]. by intros c [? _].
  - set (r := is_rooted (b :: sys)). destruct (Hend r (foldl (push r) [] (components (b :: sys)))) as (l & Hl & E).
    { apply settled_fold; [by split|apply components_no_slash]. }
    exists r, l. split; [done|]. change (Join_paths _) with (Clean ((b :: sys) ++ slash :: str "fs/cgroup")). unfold Clean. rewrite rooted_app by done. fold r.
    by rewrite components_app, foldl_app, <- E.
Qed.

Lemma component_inside p : ∀ c, c ∈ components p → ∃ a b, p = a ++ c ++ b.
Proof.
  enough (∀ x l, components p = x :: l → (∃ b, p = x ++ b) ∧ ∀ c, c ∈ l → ∃ a b, p = a ++ c ++ b) as Hall.
  { intros c Hc. destruct (components p) as [|x l] eqn:E; [by apply not_elem_of_nil in Hc|]. destruct (Hall x l eq_refl) as [(b & Hb) Hl].
    apply elem_of_cons in Hc as [->|Hc]; [by exists [], b|by apply Hl]. }
  induction p as [|b p IH]; intros x l Hx; cbn in Hx.
  - injection Hx as <- <-. split; [by exists []|]. by intros c ?%not_elem_of_nil.
  - destruct (components p) as [|y m] eqn:E; [by apply components_not_nil in E|]. destruct (IH y m eq_refl) as [(t & Ht) Hm]. case_decide as Hb.
    + injection Hx as <- <-. split; [by eexists|]. intros c [->|Hc]%elem_of_cons; [exists [b], t; by rewrite Ht|]. destruct (Hm c Hc) as (a & t' & ->). by exists (b :: a), t'.
    + injection Hx as <- <-. split; [exists t; by rewrite Ht|]. intros c Hc. destruct (Hm c Hc) as (a & t' & ->). by exists (b :: a), t'.
Qed.

Lemma rel_plain rel : contains dotdot rel = false → ∃ x, Forall plain x ∧ ∀ r st, foldl (push r) st (components rel) = reverse x ++ st.
Proof.
  intros Hd. assert (Forall (λ c, c ≠ dotdot) (components rel)) as Hn.
  { apply Forall_forall. intros c (a & b & ->)%component_inside ->. by rewrite (proj2 (contains_spec _ _)) in Hd by eauto. }
  pose proof (components_no_slash rel) as Hs. induction (components rel) as [|c l IH]; [by exists []|].
  apply Forall_cons in Hn as [Hc Hn], Hs as [Hcs Hs]. destruct (IH Hn Hs) as (x & Hx & Hf).
  destruct (decide (c = [] ∨ c = dot)) as [He|He].
  - exists x. split; [done|]. intros r st. cbn [foldl]. rewrite Hf. unfold push. destruct He as [->| ->]; reflexivity.
  - exists (c :: x). assert (plain c) as Hp by (unfold plain, clean_part; naive_solver). split; [by constructor|]. intros r st. cbn [foldl]. rewrite push_part, Hf by done. by rewrite reverse_cons, <- app_assoc.
Qed.

Lemma unified_no_dotdot f file rel : unifiedCgroupPath f file = Some rel → contains dotdot rel = false.
Proof.
  unfold unifiedCgroupPath. destruct (fs_read f file) as [b|]; [|done]. cbn. induction (Split (of_text b) newline) as [|line lines IH]; [done|]. cbn [unified_path].
  destruct (Split line ":") as [|zero [|controllers [|y z]]]; [done..|]. destruct (bool_decide (zero = "0") && bool_decide (controllers = "")); [|done].
  destruct (contains dotdot _) eqn:Hc; [done|]. by intros [= <-].
Qed.

Lemma own_clean f proc sys : ∃ r l x, clean_list r l ∧ Forall plain x ∧ cgroup_root sys = render r l ∧ ownCgroupDir f proc (cgroup_root sys) = render r (l ++ x).
Proof.
  destruct (cgroup_root_clean sys) as (r & l & Hl & ->). exists r, l.
  assert (∃ x, clean_list r l ∧ Forall plain x ∧ render r l = render r l ∧ render r l = render r (l ++ x)) as Hroot by (exists []; by rewrite app_nil_r).
  unfold ownCgroupDir. destruct (unifiedCgroupPath f _) as [own|] eqn:Ho; [|done]. destruct (unifiedCgroupPath f (Join_paths [proc; str "1"; str "cgroup"])) as [pid1|]; [|done]. case_bool_decide; [|done].
  destruct (_ && _); [|done]. destruct (rel_plain own) as (x & Hx & Hf); [by eapply unified_no_dotdot|]. exists x. split_and!; [done..|].
  rewrite Join_render, Hf by done. by rewrite reverse_app, !reverse_involutive.
Qed.

(** ** From a directory up to the root *)

Inductive up_to (root : path) : path → list path → Prop :=
| up_here : up_to root root [root]
| up_next d ds : d ≠ root → up_to root (Dir d) ds → up_to root d (d :: ds).

Definition consider {T} (lt : T → T → bool) (limitOf : path → option T) (best : option (path * T)) (d : path) : option (path * T) :=
  match limitOf d with
  | Some limit => match best with Some (_, tightest) => if lt limit tightest then Some (d, limit) else best | None => Some (d, limit) end
  | None => best
  end.

Lemma governing_chain {T} (lt : T → T → bool) (limitOf : path → option T) r l x : clean_list r l → Forall plain x →
  ∃ ds, up_to (render r l) (render r (l ++ x)) ds ∧
    ∀ fuel best, (length x < fuel)%nat → governing lt limitOf fuel (render r l) (render r (l ++ x)) best = Some (foldl (consider lt limitOf) best ds).
Proof.
  intros Hl. induction x as [|c x IH] using rev_ind; intros Hx.
  - rewrite app_nil_r. exists [render r l]. split; [constructor|]. intros [|fuel] best Hf; [by apply Nat.nlt_0_r in Hf|]. cbn [governing]. by rewrite bool_decide_eq_true_2.
  - apply Forall_app in Hx as [Hx [[(Hc0 & _ & Hcs) _] _]%Forall_cons]. destruct (IH Hx) as (ds & Hds & Hgov).
    assert (Dir (render r (l ++ x ++ [c])) = render r (l ++ x)) as Hdir by (rewrite (app_assoc l x); apply Dir_render; [by apply clean_list_app|done]).
    assert (x ++ [c] ≠ []) as Hne by (by destruct x). pose proof (render_app r l (x ++ [c]) Hl Hne) as Hr.
    assert (render r (l ++ x ++ [c]) ≠ render r l) as Hneq.
    { intros E. rewrite Hr in E. apply (f_equal length) in E. rewrite length_app in E. cbn in E. lia. }
    exists (render r (l ++ x ++ [c]) :: ds). split; [constructor; [done|by rewrite Hdir]|].
    intros [|fuel] best Hf; [lia|]. cbn [governing]. rewrite bool_decide_eq_false_2 by done.
    assert (has_prefix (render r l ++ [slash]) (render r (l ++ x ++ [c])) = true) as ->.
    { apply has_prefix_spec. exists (join_slash (x ++ [c])). by rewrite Hr, <- app_assoc. }
    cbn [orb negb]. rewrite Hdir. apply Hgov. rewrite length_app in Hf. cbn in Hf. lia.
Qed.

Section tightest.
Context {T : Type} (lt : T → T → bool) (P : T → Prop) `{!StrictWeakOrder lt P} (limitOf : path → option T).

(** The nearest of the tightest: those before it are looser, those after it are not tighter. *)
Definition tightest (ds : list path) (best : option (path * T)) : Prop :=
  match best with
  | None => ∀ d, d ∈ ds → limitOf d = None
  | Some (d, limit) => ∃ near far, ds = near ++ d :: far ∧ limitOf d = Some limit ∧
      (∀ d' l', d' ∈ near → limitOf d' = Some l' → lt limit l' = true) ∧ (∀ d' l', d' ∈ far → limitOf d' = Some l' → lt l' limit = false)
  end.

Lemma consider_tightest ds : (∀ d l, d ∈ ds → limitOf d = Some l → P l) → tightest ds (foldl (consider lt limitOf) None ds).
Proof using All.
  induction ds as [|d ds IH] using rev_ind; intros HP; [by intros d ?%not_elem_of_nil|]. rewrite foldl_snoc.
  assert (tightest ds (foldl (consider lt limitOf) None ds)) as Hb by (apply IH; intros d' l' Hd'; apply HP, elem_of_app; by left). clear IH.
  unfold consider at 1. destruct (foldl (consider lt limitOf) None ds) as [[b limit]|]; destruct (limitOf d) as [l|] eqn:Hl.
  - destruct Hb as (near & far & -> & Hlim & Hnear & Hfar).
    assert (P limit) as HPl by (apply (HP b); [|done]; rewrite !elem_of_app; left; right; left).
    assert (P l) as HPd by (apply (HP d); [|done]; rewrite elem_of_app; right; by left).
    destruct (lt l limit) eqn:Hlt.
    + exists (near ++ b :: far), []. split_and!; [done..| |by intros d' l' ?%not_elem_of_nil].
      intros d' l' Hd' Hl'. assert (P l') as HP' by (apply (HP d'); [apply elem_of_app; by left|done]). apply not_false_iff_true. intros Hno.
      assert (lt l' limit = false) as Hge.
      { apply elem_of_app in Hd' as [Hd'|[->|Hd']%elem_of_cons]; [exact (less_asym lt limit l' HPl HP' (Hnear d' l' Hd' Hl'))| |by eapply Hfar].
        assert (l' = limit) as -> by congruence. destruct (lt limit limit) eqn:E; [|done]. by rewrite (less_asym lt limit limit) in E. }
      pose proof (not_after_trans lt limit l' l HPl HP' HPd Hge Hno) as Hc. unfold not_after in Hc. congruence.
    + exists near, (far ++ [d]). split_and!; [by rewrite <- app_assoc|done|done|]. intros d' l' [Hd'|Hd'%list_elem_of_singleton]%elem_of_app Hl'; [by eapply Hfar|]. subst d'. congruence.
  - destruct Hb as (near & far & -> & Hlim & Hnear & Hfar). exists near, (far ++ [d]). split_and!; [by rewrite <- app_assoc|done|done|].
    intros d' l' [Hd'|Hd'%list_elem_of_singleton]%elem_of_app Hl'; [by eapply Hfar|]. subst d'. congruence.
  - exists ds, []. split_and!; [done|done| |by intros d' l' ?%not_elem_of_nil]. intros d' l' Hd' Hl'. rewrite (Hb d' Hd') in Hl'. done.
  - intros d' [Hd'|Hd'%list_elem_of_singleton]%elem_of_app; [by apply Hb|by subst d'].
Qed.

(** C20: The directory whose limit governs the process: the loop ends at the root of the
    hierarchy, every directory from the process's own up to it is looked at, and the one taken
    has the tightest limit, the nearest among equals; none is taken exactly when none has a
    limit. *)
Theorem governing_dir_exact f procPath sysPath :
  let root := cgroup_root sysPath in
  let own := ownCgroupDir f procPath root in
  ∃ ds, up_to root own ds ∧
    ((∀ d l, d ∈ ds → limitOf d = Some l → P l) →
     ∃ best, tightest ds best ∧ governingDir lt limitOf own root = match best with Some (d, _) => d | None => [] end).
Proof using All.
  cbn zeta. destruct (own_clean f procPath sysPath) as (r & l & x & Hl & Hx & Hroot & Hown). rewrite Hown, Hroot.
  destruct (governing_chain lt limitOf r l x Hl Hx) as (ds & Hds & Hgov). exists ds. split; [done|]. intros HP.
  exists (foldl (consider lt limitOf) None ds). split; [by apply consider_tightest|]. unfold governingDir. rewrite Hgov; [done|].
  enough (length x ≤ length (components (render r (l ++ x))))%nat by lia.
  pose proof (clean_list_app r l x Hl Hx) as Hlx. destruct Hlx as (Hne & _ & Hparts). pose proof (parts_no_slash _ Hparts) as Hns.
  assert (components (render r (l ++ x)) = (if r then [[]] else []) ++ l ++ x) as ->.
  { destruct r; cbn [render]; [change (components (slash :: ?p)) with ([] :: components p); by rewrite components_join|].
    destruct (l ++ x) as [|c k] eqn:E; [done|]. by rewrite components_join. }
  rewrite !length_app. lia.
Qed.
End tightest.

(** ** Bounds *)

Lemma fmul_sign x y : fsign x = false → fsign y = false → fsign (fmul x y) = false.
Proof.
  destruct x as [s|s| |s m e], y as [s'|s'| |s' m' e']; cbn [fsign]; intros; subst; try done. unfold fmul, SpecFloat.SFmul. cbn [xorb]. apply binary_round_sign.
Qed.

Lemma Min_bounds x : fsign x = false → flt (Min x (float_of_int 1)) fzero = false ∧ flt (float_of_int 1) (Min x (float_of_int 1)) = false.
Proof.
  intros Hs. assert (Min x (float_of_int 1) = x ∧ flt x (float_of_int 1) = true ∨ Min x (float_of_int 1) = float_of_int 1 ∨ Min x (float_of_int 1) = fnan) as Hm.
  { destruct x as [s|s| |s m e]; cbn [fsign] in Hs; subst; [by left|by right; left|by right; right|]. unfold Min.
    change (float_of_int 1) with (SpecFloat.S754_finite false 4503599627370496 (-52)). destruct (flt _ _) eqn:E; [by left|by right; left]. }
  destruct Hm as [[-> Hlt]|[-> | ->]]; [|split; reflexivity..]. split; [|by apply flt_asym]. apply not_negative_flt, sign_not_negative, Hs.
Qed.

Lemma parse_digits_nonneg s : ∀ v n, 0 ≤ v → parse_digits s v = Some n → 0 ≤ n.
Proof.
  induction s as [|c s IH]; intros v n Hv; cbn; [by intros [= <-]|]. destruct (is_digit c) eqn:Hd; [|done]. apply IH.
  unfold is_digit in Hd. apply between_spec in Hd. change (Z_of_byte "0"%byte) with 48 in Hd. lia.
Qed.

Lemma readUint_nonneg f p n : readUint f p = Some n → 0 ≤ n.
Proof.
  unfold readUint, ParseUint. destruct (fs_read f p) as [b|]; cbn; [|done]. destruct (TrimSpace b) as [|c t]; [done|].
  destruct (parse_digits (c :: t) 0) as [v|] eqn:Hp; cbn; [|done]. case_bool_decide; [|done]. intros [= <-]. by eapply parse_digits_nonneg, Hp.
Qed.

Section bounds.
Context `{FloatOverflow}.

Definition mem_ok (s : Sample) : Prop := ∀ t a, MemTotalBytes s = Some t → MemAvailableBytes s = Some a → 0 ≤ a ≤ t.

Lemma available_bounds f limit current p key : 0 ≤ limit → 0 ≤ current → 0 ≤ cgroupAvailable f limit current p key ≤ limit.
Proof.
  intros Hl Hc. unfold cgroupAvailable. set (used := match readStatField f p key with Some _ => _ | None => _ end).
  assert (0 ≤ used) by (unfold used; destruct (readStatField f p key) as [i|]; [destruct (Z.ltb_spec i current); lia|lia]). destruct (Z.leb_spec limit used); lia.
Qed.

Lemma limit_memory_ok f lf cf sf key s : mem_ok s → mem_ok (limit_memory f lf cf sf key s).1 ∧ CPUUsedRatio (limit_memory f lf cf sf key s).1 = CPUUsedRatio s.
Proof.
  intros Hs. unfold limit_memory. destruct (readUint f lf) as [limit|] eqn:Hl; [|done]. destruct (limit <? cgroupV1Unlimited); [|done].
  destruct (readUint f cf) as [current|] eqn:Hc; [|done]. split; [|done]. intros t a [= <-] [= <-]. apply available_bounds; by eapply readUint_nonneg.
Qed.

Lemma limit_cpu_ok q s : mem_ok s → mem_ok (limit_cpu q s).1 ∧ CPUUsedRatio (limit_cpu q s).1 = CPUUsedRatio s.
Proof. intros Hs. by destruct q. Qed.

Lemma applyV2_ok f memDir cpuDir s : mem_ok s → mem_ok (applyV2 f memDir cpuDir s) ∧ CPUUsedRatio (applyV2 f memDir cpuDir s) = CPUUsedRatio s.
Proof.
  intros Hs. unfold applyV2. set (x := if bool_decide (memDir = []) then _ else _). assert (mem_ok x.1 ∧ CPUUsedRatio x.1 = CPUUsedRatio s) as [Hx Hr].
  { unfold x. case_bool_decide; [done|by apply limit_memory_ok]. }
  destruct x as [s1 m]. cbn in Hx, Hr. set (y := if bool_decide (cpuDir = []) then _ else _). assert (mem_ok y.1 ∧ CPUUsedRatio y.1 = CPUUsedRatio s) as [Hy Hr'].
  { unfold y. case_bool_decide; [done|]. destruct (limit_cpu_ok (readCPUQuota f cpuDir) s1 Hx). split; [done|congruence]. }
  destruct y as [s2 c]. by destruct (m || c).
Qed.

Lemma applyV1_ok f root s : mem_ok s → mem_ok (applyV1 f root s) ∧ CPUUsedRatio (applyV1 f root s) = CPUUsedRatio s.
Proof.
  intros Hs. unfold applyV1. match goal with |- context [limit_memory ?a ?b ?c ?d ?e ?g] => pose proof (limit_memory_ok a b c d e g Hs) as [Hx Hr]; destruct (limit_memory a b c d e g) as [s1 m] end.
  cbn in Hx, Hr. destruct (limit_cpu_ok (readCPUQuotaV1 f (at_ root "cpu")) s1 Hx) as [Hy Hr']. destruct (limit_cpu _ s1) as [s2 c]. cbn in Hy, Hr'.
  rewrite Hr in Hr'. by destruct (m || c).
Qed.

(** The quota the collector measures against, if there is one. *)
Definition cpu_quota (f : fs) (proc sys : path) : option float64 :=
  let root := cgroup_root sys in
  if f.(fs_stat) (at_ root "cgroup.controllers") then
    let dir := governingDir flt (readCPUQuota f) (ownCgroupDir f proc root) root in
    if bool_decide (dir = []) then None else readCPUQuota f dir
  else if f.(fs_stat) (Join_paths [root; str "memory"; str "memory.limit_in_bytes"]) then readCPUQuotaV1 f (at_ root "cpu")
  else None.

(** A ratio that is known lies between zero and one, and is measured from an earlier reading
    over some time in which the counter did not go back. *)
Definition measured (now : Time) (prev next : option cgroupCPUReading) (s : Sample) : Prop :=
  match CPUUsedRatio s with
  | None => True
  | Some x => flt x fzero = false ∧ flt (float_of_int 1) x = false ∧
      ∃ p usage, prev = Some p ∧ next = Some (mkReading usage now) ∧ 0 < Sub now p.(read_at) ∧ p.(usageUsec) ≤ usage
  end.

Lemma applyCPURatio_ok quota usage now prev s : (∀ q, quota = Some q → fsign q = false) → mem_ok s →
  let '(next, s') := applyCPURatio quota usage now prev s in
  mem_ok s' ∧ match quota with Some _ => measured now prev next s' | None => CPUUsedRatio s' = CPUUsedRatio s end.
Proof.
  intros Hq Hs. unfold applyCPURatio, measured. destruct quota as [q|]; [|done]. specialize (Hq q eq_refl). destruct usage as [u|]; [|done]. destruct prev as [p|]; [|done].
  destruct ((Sub now (read_at p) <=? 0) || (u <? usageUsec p)) eqn:He; [done|]. apply orb_false_iff in He as [H1%Z.leb_gt H2%Z.ltb_ge]. split; [done|].
  cbn -[Min flt]. destruct (Min_bounds (fdiv (float_of_int (u - usageUsec p)) (fmul (fmul (Seconds (Sub now (read_at p))) (float_of_int 1000000)) q))) as [Hlo Hhi].
  - apply fdiv_sign; [apply float_of_int_sign; lia|]. apply fmul_sign; [|done]. apply fmul_sign; [apply Seconds_sign; lia|reflexivity].
  - split_and!; [done..|]. by exists p, u.
Qed.

Lemma readCPUQuota_sign f dir q : readCPUQuota f dir = Some q → fsign q = false.
Proof.
  unfold readCPUQuota. destruct (fs_read f _) as [b|]; cbn; [|done]. destruct (Fields b) as [|x [|y [|z l]]]; [done..| |done]. case_bool_decide; [done|].
  unfold ParseUint. destruct x as [|x0 x]; [done|]. destruct (parse_digits (x0 :: x) 0) as [v|] eqn:Hv; cbn; [|done]. case_bool_decide; [|done]. cbn.
  destruct y as [|y0 y]; [done|]. destruct (parse_digits (y0 :: y) 0) as [w|] eqn:Hw; cbn; [|done]. case_bool_decide; [|done]. cbn. destruct ((w =? 0) || (v =? 0)); [done|].
  intros [= <-]. apply fdiv_sign; apply float_of_int_sign; by eapply parse_digits_nonneg.
Qed.

Lemma readCPUQuotaV1_sign f dir q : readCPUQuotaV1 f dir = Some q → fsign q = false.
Proof.
  unfold readCPUQuotaV1. destruct (readInt f (at_ dir "cpu.cfs_quota_us")) as [v|]; [|done]. destruct (readInt f (at_ dir "cpu.cfs_period_us")) as [w|]; [|done].
  cbn -[float_of_int]. destruct ((v <=? 0) || (w <=? 0)) eqn:E; [done|].
  apply orb_false_iff in E as [?%Z.leb_gt ?%Z.leb_gt]. intros [= <-]. apply fdiv_sign; apply float_of_int_sign; lia.
Qed.

(** A sample under limits: the memory available is never more than the limit. With a quota the
    share in use is unknown, or between zero and one and measured since the reading before;
    without one the host's own figure stands. *)
Theorem sample_bounds ps f now dataDir c s c' :
  Collect ps f now dataDir c = (inr s, c') → (∀ t a, ps_memory ps = inr (t, a) → 0 ≤ a ≤ t) →
  mem_ok s ∧
  match cpu_quota f c.(procPath) c.(sysPath) with
  | Some _ => measured now c.(cgroupCPU) c'.(cgroupCPU) s
  | None => CPUUsedRatio s = match ps_times ps, c.(previous) with inr (t :: _), Some p => host_ratio t p | _, _ => None end
  end.
Proof.
  unfold Collect. destruct (ps_memory ps) as [|[total available]]; [done|]. destruct (ps_swap ps) as [|[swap used]]; [done|]. destruct (ps_counts ps) as [|counts]; [done|].
  destruct (ps_times ps) as [|times]; [done|]. destruct (ps_load ps) as [|[[l1 l5] l15]]; [done|]. intros Hc Hmem.
  set (s0 := if bool_decide (dataDir = []) then _ else _) in Hc.
  assert (mem_ok s0 ∧ CPUUsedRatio s0 = match times, c.(previous) with t :: _, Some p => host_ratio t p | _, _ => None end) as [Hs0 Hr0].
  { unfold s0. specialize (Hmem total available eq_refl). case_bool_decide; [|destruct (ps_disk ps) as [|[]]]; destruct times, (previous c); by split; [intros t' a' [= <-] [= <-]|]. }
  assert (let '(next, s') := applyCgroup f (procPath c) (sysPath c) now (cgroupCPU c) s0 in mem_ok s' ∧
    match cpu_quota f (procPath c) (sysPath c) with Some _ => measured now (cgroupCPU c) next s' | None => CPUUsedRatio s' = CPUUsedRatio s0 end) as Hcg.
  { unfold applyCgroup, cpu_quota. destruct (fs_stat f _).
    - unfold applyV2CPURatio. set (mem := governingDir Z.ltb _ _ _). set (cpu := governingDir flt _ _ _). destruct (applyV2_ok f mem cpu s0 Hs0) as [H1 H2]. rewrite <- H2.
      apply applyCPURatio_ok; [|done]. case_bool_decide; [done|apply readCPUQuota_sign].
    - destruct (fs_stat f _); [|done]. destruct (applyV1_ok f (cgroup_root (sysPath c)) s0 Hs0) as [H1 H2]. rewrite <- H2.
      apply applyCPURatio_ok; [|done]. apply readCPUQuotaV1_sign. }
  destruct (applyCgroup _ _ _ _ _ _) as [next s']. injection Hc as <- <-. destruct Hcg as [Hm Hq]. split; [done|].
  destruct (cpu_quota _ _ _); [done|]. by rewrite Hq, Hr0.
Qed.
End bounds.

(** ** A container two levels below the root of the hierarchy *)
Module Container_.
#[local] Instance overflow : FloatOverflow := λ _, 0.

Definition files : list (path * string) :=
  [(str "/proc/self/cgroup", "0::/docker/abc"); (str "/proc/1/cgroup", "0::/docker/abc");
   (str "/sys/fs/cgroup/docker/abc/memory.max", "400"); (str "/sys/fs/cgroup/docker/abc/memory.current", "100");
   (str "/sys/fs/cgroup/docker/memory.max", "300"); (str "/sys/fs/cgroup/docker/memory.current", "120"); (str "/sys/fs/cgroup/docker/memory.stat", "inactive_file 50");
   (str "/sys/fs/cgroup/docker/abc/cpu.max", "200000 100000"); (str "/sys/fs/cgroup/docker/abc/cpu.stat", "usage_usec 3000000")].
Definition find (p : path) : option text := snd <$> head (filter (λ x, x.1 = p) ((λ x, (x.1, str x.2)) <$> files)).
Definition disk : fs := mkFs find (λ _, true) (λ _, true).

Definition proc : path := str "/proc".
Definition sys : path := str "/sys".

#[local] Instance by_size : StrictWeakOrder Z.ltb (λ _, True).
Proof. split; unfold not_after; intros; lia. Qed.

Lemma governing_dir_exact_witness :
  let root := cgroup_root sys in
  let own := ownCgroupDir disk proc root in
  ∃ ds, up_to root own ds ∧ ∃ best, tightest Z.ltb (memoryLimit disk) ds best ∧
    governingDir Z.ltb (memoryLimit disk) own root = match best with Some (d, _) => d | None => [] end.
Proof.
  destruct (governing_dir_exact Z.ltb (λ _, True) (memoryLimit disk) disk proc sys) as (ds & Hds & Hbest).
  exists ds. split; [exact Hds|]. apply Hbest. intros. exact I.
Defined.

Example governed_by_parent : governingDir Z.ltb (memoryLimit disk) (ownCgroupDir disk proc (cgroup_root sys)) (cgroup_root sys) = str "/sys/fs/cgroup/docker".
Proof. vm_compute. reflexivity. Qed.

Definition ps : psutil := mkPsutil (inr (1000, 900)) (inr (0, 0)) (inr 16) (inr []) (inr (fzero, fzero, fzero)) (inl "not asked").
Definition before : Collector := mkCollector proc sys None (Some (mkReading 1000000 0)).

(** Two seconds of two processors, of which two seconds of one were used. *)
Lemma sample_bounds_witness : ∃ s c', Collect ps disk (2 * Second) [] before = (inr s, c') ∧ mem_ok s ∧ measured (2 * Second) before.(cgroupCPU) c'.(cgroupCPU) s.
Proof.
  destruct (Collect ps disk (2 * Second) [] before) as [[e|s] c'] eqn:Hc; [vm_compute in Hc; discriminate|]. exists s, c'. split; [reflexivity|].
  destruct (sample_bounds ps disk (2 * Second) [] before s c' Hc) as [Hm Hq]; [intros t a Ht; injection Ht as <- <-; lia|]. split; [exact Hm|].
  replace (cpu_quota disk (procPath before) (sysPath before)) with (Some (float_of_int 2)) in Hq by (vm_compute; reflexivity). exact Hq.
Defined.

Example half_of_the_quota : let '(r, _) := Collect ps disk (2 * Second) [] before in
  match r with
  | inr s => (MemTotalBytes s, MemAvailableBytes s, CPUCount s, CPUUsedRatio s, Source s) = (Some 300, Some 230, Some 2, Some (fdiv (float_of_int 1) (float_of_int 2)), "cgroup_v2")
  | inl _ => False
  end.
Proof. vm_compute. reflexivity. Qed.
End Container_.
