(* ===== verification/AgentConfig.v ===== *)
(** * Configuration (internal/agent/config.go, internal/server/config.go)

    What the agent accepts of its configuration file and environment, with the values it
    derives, and the server's environment. YAML, the URL parser and regular expressions are
    parameters; the file system and the environment are arguments. The message of an error is
    an error of type [cfg_error], with the place it names; the warnings that are only logged
    are left out. *)
From stdpp Require Import pretty.
From S2P Require Import Prelude GoTime GoFloat GoBytes GoText GoFmt Pgtype AlertTypes PgIds Cardinality Session Staleness Identity.

(** ** [time.ParseDuration] *)

Definition digit_value (c : byte) : Z := Z_of_byte c - 48.

(** The digits a text starts with, read as an integer of at most 2{^63}. *)
Fixpoint leadingInt (x : Z) (s : text) : option (Z * text) :=
  match s with
  | c :: s' =>
      if is_digit c then
        if 2 ^ 63 / 10 <? x then None
        else let x := x * 10 + digit_value c in if 2 ^ 63 <? x then None else leadingInt x s'
      else Some (x, s)
  | [] => Some (x, [])
  end.

(** The digits behind the point and their scale; digits beyond the range are dropped. *)
Fixpoint leadingFraction (x : Z) (scale : float64) (overflow : bool) (s : text) : Z * float64 * text :=
  match s with
  | c :: s' =>
      if is_digit c then
        if overflow || ((2 ^ 63 - 1) / 10 <? x) then leadingFraction x scale true s'
        else
          let y := x * 10 + digit_value c in
          if 2 ^ 63 <? y then leadingFraction x scale true s'
          else leadingFraction y (fmul scale (float_of_int 10)) false s'
      else (x, scale, s)
  | [] => (x, scale, [])
  end.

Definition unit_of (u : text) : option Z :=
  if bool_decide (u = str "ns") then Some 1
  else if bool_decide (u = str "us") || bool_decide (u = [xc2; xb5; x73]) || bool_decide (u = [xce; xbc; x73]) then Some Microsecond
  else if bool_decide (u = str "ms") then Some Millisecond
  else if bool_decide (u = str "s") then Some Second
  else if bool_decide (u = str "m") then Some Minute
  else if bool_decide (u = str "h") then Some Hour
  else None.

Definition ends_unit (c : byte) : bool := bool_decide (c = "."%byte) || is_digit c.
Fixpoint unit_text (s : text) : text * text :=
  match s with
  | c :: s' => if ends_unit c then ([], s) else let '(u, r) := unit_text s' in (c :: u, r)
  | [] => ([], [])
  end.

(** One number with its unit: its value and what follows. *)
Definition duration_part (s : text) : option (Z * text) :=
  match s with
  | [] => None
  | c :: _ =>
      if negb (ends_unit c) then None
      else
        '(v, s1) ← leadingInt 0 s;
        let pre := negb (bool_decide (length s1 = length s)) in
        let '(f, scale, s2, post) :=
          match s1 with
          | c :: s1' => if bool_decide (c = "."%byte) then let '(f, scale, s2) := leadingFraction 0 (float_of_int 1) false s1' in (f, scale, s2, negb (bool_decide (length s2 = length s1')))
              else (0, float_of_int 1, s1, false)
          | [] => (0, float_of_int 1, s1, false)
          end in
        if negb pre && negb post then None
        else
          let '(u, s3) := unit_text s2 in
          if bool_decide (u = []) then None
          else
            unit ← unit_of u;
            if 2 ^ 63 / unit <? v then None
            else
              let v := v * unit in
              let v := if 0 <? f then v + default 0 (integer_part (fmul (float_of_int f) (fdiv (float_of_int unit) scale))) else v in
              if (0 <? f) && (2 ^ 63 <? v) then None else Some (v, s3)
  end.

Fixpoint duration_parts (fuel : nat) (d : Z) (s : text) : option Z :=
  match s with
  | [] => Some d
  | _ =>
      match fuel with
      | O => None
      | S fuel => '(v, s') ← duration_part s; let d := uwrap64 (d + v) in if 2 ^ 63 <? d then None else duration_parts fuel d s'
      end
  end.

Definition ParseDuration (text_ : string) : option Duration :=
  let s := str text_ in
  let '(neg, s) := match s with
    | c :: s' => if bool_decide (c = "-"%byte) then (true, s') else if bool_decide (c = "+"%byte) then (false, s') else (false, s)
    | [] => (false, s)
    end in
  if bool_decide (s = str "0") then Some 0
  else if bool_decide (s = []) then None
  else
    d ← duration_parts (length s) 0 s;
    if (neg : bool) then Some (wrap64 (- d)) else if 2 ^ 63 - 1 <? d then None else Some d.

(** ** Sizes *)

(** Raising a text with a byte above 127 needs the tables of Unicode. *)
Class UnicodeUpper := unicode_upper : text → text.
Definition upper_byte (c : byte) : byte := if is_lower c then byte_of_Z (Z_of_byte c - 32) else c.
Definition ToUpper `{UnicodeUpper} (t : text) : text := if is_ascii t then upper_byte <$> t else unicode_upper t.

Definition has_suffix (suffix t : text) : bool := has_prefix (reverse suffix) (reverse t).

Definition size_units : list (text * Z) :=
  [(str "GIB", 2 ^ 30); (str "MIB", 2 ^ 20); (str "KIB", 2 ^ 10); (str "GB", 1000000000); (str "MB", 1000000); (str "KB", 1000); (str "B", 1)].

(** The first unit the text ends in, and what is before it. *)
Fixpoint split_unit (units : list (text * Z)) (upper : text) : text * Z :=
  match units with
  | [] => (upper, 1)
  | (suffix, factor) :: units =>
      if has_suffix suffix upper then (TrimSpace (take (length upper - length suffix) upper), factor) else split_unit units upper
  end.

Definition parseByteSize `{UnicodeUpper} (raw : string) : option Z :=
  let upper := ToUpper (TrimSpace (str raw)) in
  let '(number, factor) := split_unit size_units upper in
  n ← ParseInt number;
  if n <=? 0 then None
  else if max_int64 / factor <? n then None
  else Some (n * factor).

(** ** The agent's configuration *)

Record ServerConfig := mkServerConfig { sv_URL : string; sv_Token : string; sv_TokenFile : string }.
Record BufferConfig := mkBufferConfig { bc_Path : string; bc_MaxSize : string; bc_MaxAge : string }.
Record DatabasesConfig := mkDatabasesConfig { dc_Include : list string; dc_Exclude : list string; dc_Max : Z }.
Record TargetConfig := mkTargetConfig {
  tc_Name : string;
  tc_DSN : string;
  tc_ClusterName : string;
  tc_Databases : DatabasesConfig;
  tc_HostLocal : option bool;
  tc_AllowExplainAnalyze : bool;
  tc_AllowSignal : bool;
}.
Record HostConfig := mkHostConfig { hc_Enabled : option bool; hc_Interval : string; hc_ProcPath : string; hc_SysPath : string }.
Record CheckConfig := mkCheckConfig { cc_Interval : string; cc_TopN : Z; cc_ByApplication : bool; cc_Enabled : option bool }.

Record Config := mkConfig {
  cf_Server : ServerConfig;
  cf_IdentityPath : string;
  cf_PushInterval : string;
  cf_Buffer : BufferConfig;
  cf_Targets : list TargetConfig;
  cf_Checks : gmap string CheckConfig;
  cf_CommandsEnabled : option bool;
  cf_Host : HostConfig;
  parsedPushInterval : Duration;
  parsedBufferMaxSize : Z;
  parsedBufferMaxAge : Duration;
  parsedCheckIntervals : gmap string Duration;
  parsedHostInterval : Duration;
}.

Definition maxTopN : Z := 1000.
Definition maxPushInterval : Duration := 90 * Second.

Definition HostEnabled (c : Config) : bool := default true c.(cf_Host).(hc_Enabled).
Definition CommandsEnabled (c : Config) : bool := default true c.(cf_CommandsEnabled).
Definition GetCheckInterval (c : Config) (name : string) : Duration := default 0 (c.(parsedCheckIntervals) !! name).

Definition HostProcPath (getenv : string → string) (c : Config) : string :=
  if bool_decide (c.(cf_Host).(hc_ProcPath) = "") then (if bool_decide (getenv "HOST_PROC" = "") then "/proc" else getenv "HOST_PROC") else c.(cf_Host).(hc_ProcPath).
Definition HostSysPath (getenv : string → string) (c : Config) : string :=
  if bool_decide (c.(cf_Host).(hc_SysPath) = "") then (if bool_decide (getenv "HOST_SYS" = "") then "/sys" else getenv "HOST_SYS") else c.(cf_Host).(hc_SysPath).

Definition TargetIsLocal `{UrlParse, UnicodeLower} (t : TargetConfig) : bool :=
  match t.(tc_HostLocal) with
  | Some b => b
  | None =>
      match url_Parse t.(tc_DSN) with
      | None => false
      | Some u =>
          let h := if bool_decide (u.(u_Hostname) = "") then Get u.(u_Query) "host" else u.(u_Hostname) in
          HasPrefix h "/" || bool_decide (to_lower h ∈ [""; "localhost"; "127.0.0.1"; "::1"])
      end
  end.

Inductive cfg_error :=
| EUrl | EToken | EIdentityPath | EPushInterval | EBufferPath | EMaxSize | EMaxAge | EHostInterval
| ECheckInterval (name : string) | ETopN (name : string)
| ENoTargets | ETargetName (i : nat) | EDuplicate (i first : nat) | EDsn (i : nat) | EDsnScheme (i : nat) | EMaxDatabases (i : nat)
| EInclude (i : nat) | EExclude (i : nat)
| EReadConfig | EParseConfig | EReadToken.

(** A duration that must be positive. *)
Definition positive (raw : string) : option Duration := d ← ParseDuration raw; if d <=? 0 then None else Some d.

Fixpoint trim_right_slash (t : text) : text :=
  match t with [] => [] | c :: t => match trim_right_slash t with [] => if bool_decide (c = "/"%byte) then [] else [c] | r => c :: r end end.

Section config.
Context `{UrlParse, UnicodeLower, UnicodeUpper, Regexp, RangeOrder}.

Definition compilePatterns (patterns : list string) : option (list regexp) := mapM Compile patterns.

Definition check_push (raw : string) : option Duration :=
  if bool_decide (raw = "") then Some (15 * Second)
  else d ← positive raw; if maxPushInterval <=? d then None else Some d.

(** A setting that may be left out. *)
Definition or_default {A} (raw : string) (def : A) (parse : string → option A) : option A := if bool_decide (raw = "") then Some def else parse raw.

Fixpoint check_checks (checks : list (string * CheckConfig)) (intervals : gmap string Duration) : cfg_error + gmap string Duration :=
  match checks with
  | [] => inr intervals
  | (name, c) :: checks =>
      match (if bool_decide (c.(cc_Interval) = "") then Some intervals else (λ d, <[name := d]> intervals) <$> positive c.(cc_Interval)) with
      | None => inl (ECheckInterval name)
      | Some intervals => if (c.(cc_TopN) <? 0) || (maxTopN <? c.(cc_TopN)) then inl (ETopN name) else check_checks checks intervals
      end
  end.

Fixpoint check_targets (i : nat) (seen : gmap string nat) (targets : list TargetConfig) : option cfg_error :=
  match targets with
  | [] => None
  | t :: targets =>
      if bool_decide (t.(tc_Name) = "") then Some (ETargetName i)
      else match seen !! t.(tc_Name) with
      | Some first => Some (EDuplicate i first)
      | None =>
          if bool_decide (t.(tc_DSN) = "") then Some (EDsn i)
          else if negb (HasPrefix t.(tc_DSN) "postgres://") && negb (HasPrefix t.(tc_DSN) "postgresql://") then Some (EDsnScheme i)
          else if t.(tc_Databases).(dc_Max) <? 0 then Some (EMaxDatabases i)
          else match compilePatterns t.(tc_Databases).(dc_Include), compilePatterns t.(tc_Databases).(dc_Exclude) with
          | None, _ => Some (EInclude i)
          | _, None => Some (EExclude i)
          | Some _, Some _ => check_targets (S i) (<[t.(tc_Name) := i]> seen) targets
          end
      end
  end.

Definition validate (getenv : string → string) (c : Config) : cfg_error + Config :=
  let s := c.(cf_Server) in
  if bool_decide (s.(sv_URL) = "") then inl EUrl
  else if bool_decide (s.(sv_Token) = "") && bool_decide (s.(sv_TokenFile) = "") then inl EToken
  else if bool_decide (c.(cf_IdentityPath) = "") then inl EIdentityPath
  else match check_push c.(cf_PushInterval) with
  | None => inl EPushInterval
  | Some push =>
      if bool_decide (c.(cf_Buffer).(bc_Path) = "") then inl EBufferPath
      else match or_default c.(cf_Buffer).(bc_MaxSize) (512 * 1024 * 1024) parseByteSize with
      | None => inl EMaxSize
      | Some size =>
          match or_default c.(cf_Buffer).(bc_MaxAge) (6 * Hour) positive with
          | None => inl EMaxAge
          | Some age =>
              match or_default c.(cf_Host).(hc_Interval) (30 * Second) positive with
              | None => inl EHostInterval
              | Some host =>
                  match check_checks (visit c.(cf_Checks)) ∅ with
                  | inl e => inl e
                  | inr intervals =>
                      match c.(cf_Targets), check_targets 0 ∅ c.(cf_Targets) with
                      | [], _ => inl ENoTargets
                      | _, Some e => inl e
                      | _, None =>
                          inr (mkConfig (mkServerConfig (of_text (trim_right_slash (str s.(sv_URL)))) s.(sv_Token) s.(sv_TokenFile)) c.(cf_IdentityPath) c.(cf_PushInterval)
                            c.(cf_Buffer) c.(cf_Targets) c.(cf_Checks) c.(cf_CommandsEnabled)
                            (mkHostConfig c.(cf_Host).(hc_Enabled) c.(cf_Host).(hc_Interval) (HostProcPath getenv c) (HostSysPath getenv c)) push size age intervals host)
                      end
                  end
              end
          end
      end
  end.

(** The file, the environment over it, the token's own file, and the validation. *)
Definition override (v old : string) : string := if bool_decide (v = "") then old else v.

Definition LoadConfig (decode : text → option Config) (readFile : string → option text) (getenv : string → string) (path : string) : cfg_error + Config :=
  match readFile path with
  | None => inl EReadConfig
  | Some data =>
      match decode data with
      | None => inl EParseConfig
      | Some c =>
          let s := c.(cf_Server) in
          let s := mkServerConfig (override (getenv "PGLENS_SERVER_URL") s.(sv_URL)) (override (getenv "PGLENS_BOOTSTRAP_TOKEN") s.(sv_Token))
            (override (getenv "PGLENS_BOOTSTRAP_TOKEN_FILE") s.(sv_TokenFile)) in
          let with_server s := mkConfig s c.(cf_IdentityPath) c.(cf_PushInterval) c.(cf_Buffer) c.(cf_Targets) c.(cf_Checks) c.(cf_CommandsEnabled) c.(cf_Host)
            c.(parsedPushInterval) c.(parsedBufferMaxSize) c.(parsedBufferMaxAge) c.(parsedCheckIntervals) c.(parsedHostInterval) in
          if negb (bool_decide (s.(sv_TokenFile) = "")) && bool_decide (s.(sv_Token) = "") then
            match readFile s.(sv_TokenFile) with
            | None => inl EReadToken
            | Some token => validate getenv (with_server (mkServerConfig s.(sv_URL) (of_text (TrimSpace token)) s.(sv_TokenFile)))
            end
          else validate getenv (with_server s)
      end
  end.

Definition defaultExcludes : list string := ["^template\d$"; "^rdsadmin$"; "^azure_.*$"].

(** The include and exclude patterns of a target. *)
Definition DatabaseFilters (t : TargetConfig) : cfg_error + list regexp * list regexp :=
  match compilePatterns t.(tc_Databases).(dc_Include) with
  | None => inl (EInclude 0)
  | Some include =>
      if bool_decide (t.(tc_Databases).(dc_Exclude) = []) then inr (include, omap Compile defaultExcludes)
      else match compilePatterns t.(tc_Databases).(dc_Exclude) with
      | None => inl (EExclude 0)
      | Some exclude => inr (include, exclude)
      end
  end.
End config.

(** ** Durations end *)

Lemma leadingInt_shorter s : ∀ x v r, leadingInt x s = Some (v, r) → (length r ≤ length s)%nat.
Proof.
  induction s as [|c s IH]; intros x v r; cbn -[Z.mul]; [by intros [= <- <-]|]. destruct (is_digit c); [|by intros [= <- <-]].
  destruct (_ <? x); [done|]. destruct (_ <? _); [done|]. intros Hr%IH. lia.
Qed.

Lemma leadingFraction_shorter s : ∀ x scale o, (length (leadingFraction x scale o s).2 ≤ length s)%nat.
Proof.
  induction s as [|c s IH]; intros x scale o; cbn [leadingFraction]; [done|]. destruct (is_digit c); [|done].
  destruct (_ || _); [etrans; [apply IH|cbn; lia]|]. destruct (_ <? _); (etrans; [apply IH|cbn; lia]).
Qed.

Lemma unit_text_length s u r : unit_text s = (u, r) → length s = (length u + length r)%nat.
Proof.
  revert u r. induction s as [|c s IH]; intros u r; cbn; [by intros [= <- <-]|]. destruct (ends_unit c); [by intros [= <- <-]|].
  destruct (unit_text s) as [u' r'] eqn:E. intros [= <- <-]. specialize (IH u' r' eq_refl). cbn. lia.
Qed.

Lemma duration_part_shorter s v r : duration_part s = Some (v, r) → (length r < length s)%nat.
Proof.
  unfold duration_part. destruct s as [|c s]; [done|]. destruct (ends_unit c); [|done]. cbn [negb].
  destruct (leadingInt 0 (c :: s)) as [[n s1]|] eqn:Hi; [|done]. apply leadingInt_shorter in Hi. cbn -[length leadingFraction unit_text float_of_int].
  set (x := match s1 with [] => _ | _ => _ end). assert (length x.1.2 ≤ length s1)%nat as Hx.
  { unfold x. destruct s1 as [|b s1]; [done|]. case_bool_decide; [|done]. pose proof (leadingFraction_shorter s1 0 (float_of_int 1) false) as Hl.
    destruct (leadingFraction 0 (float_of_int 1) false s1) as [[f sc] s2]. change (length s2 ≤ S (length s1))%nat. change (length s2 ≤ length s1)%nat in Hl. lia. }
  destruct x as [[[f sc] s2] post]. cbn [fst snd] in Hx. destruct (_ && _); [done|]. destruct (unit_text s2) as [u s3] eqn:Hu. apply unit_text_length in Hu.
  case_bool_decide as Hn; [done|]. destruct (unit_of u) as [unit|]; [|done]. cbn. destruct (_ <? n); [done|]. destruct (_ && _); [done|]. intros [= _ <-].
  destruct u; [done|]. cbn in Hu, Hi. lia.
Qed.

(** More fuel than bytes changes nothing: the parser reads every text to its end or refuses. *)
Lemma duration_parts_fuel s : ∀ fuel fuel' d, (length s ≤ fuel)%nat → (length s ≤ fuel')%nat → duration_parts fuel d s = duration_parts fuel' d s.
Proof.
  induction s as [s IH] using (induction_ltof1 _ (@length byte)). unfold ltof in IH. intros fuel fuel' d Hf Hf'.
  destruct s as [|c s]; [by destruct fuel, fuel'|]. destruct fuel as [|fuel]; [cbn in Hf; lia|]. destruct fuel' as [|fuel']; [cbn in Hf'; lia|]. cbn [duration_parts].
  destruct (duration_part (c :: s)) as [[v r]|] eqn:Hp; [|done]. apply duration_part_shorter in Hp. cbn in Hp. cbn -[uwrap64]. destruct (2 ^ 63 <? uwrap64 (d + v)); [done|]. apply IH; cbn in *; lia.
Qed.

(** ** Sizes stay in range *)

Lemma split_unit_factor units upper : Forall (λ u, 0 < u.2) units → 0 < (split_unit units upper).2.
Proof. induction 1 as [|[suffix factor] units Hf _ IH]; cbn; [lia|]. by destruct (has_suffix suffix upper). Qed.

Lemma parseByteSize_range `{UnicodeUpper} raw n : parseByteSize raw = Some n → 0 < n ≤ max_int64.
Proof.
  unfold parseByteSize. pose proof (split_unit_factor size_units (ToUpper (TrimSpace (str raw)))) as Hf. destruct (split_unit _ _) as [number factor].
  specialize (Hf ltac:(unfold size_units; rewrite !Forall_cons; split_and!; [done..|by apply Forall_nil])). cbn in Hf.
  destruct (ParseInt number) as [v|]; [|done]. cbn. destruct (Z.leb_spec v 0); [done|]. destruct (Z.ltb_spec (max_int64 / factor) v); [done|]. intros [= <-].
  pose proof (Z.mul_div_le max_int64 factor Hf). nia.
Qed.

(** ** What is accepted *)

Section accepted.
Context `{UrlParse, UnicodeLower, UnicodeUpper, Regexp, RangeOrder, !RangeOrderLaws}.

Definition positive_duration (raw : string) : Prop := ∃ d, ParseDuration raw = Some d ∧ 0 < d.
Definition compiles (patterns : list string) : Prop := Forall (λ p, is_Some (Compile p)) patterns.

Record check_ok (c : CheckConfig) : Prop := {
  ck_interval : c.(cc_Interval) = "" ∨ positive_duration c.(cc_Interval);
  ck_top : 0 ≤ c.(cc_TopN) ≤ maxTopN;
}.

Record target_ok (t : TargetConfig) : Prop := {
  tk_name : t.(tc_Name) ≠ "";
  tk_dsn : t.(tc_DSN) ≠ "";
  tk_scheme : HasPrefix t.(tc_DSN) "postgres://" = true ∨ HasPrefix t.(tc_DSN) "postgresql://" = true;
  tk_max : 0 ≤ t.(tc_Databases).(dc_Max);
  tk_include : compiles t.(tc_Databases).(dc_Include);
  tk_exclude : compiles t.(tc_Databases).(dc_Exclude);
}.

Record accepted (c : Config) : Prop := {
  ac_url : c.(cf_Server).(sv_URL) ≠ "";
  ac_token : c.(cf_Server).(sv_Token) ≠ "" ∨ c.(cf_Server).(sv_TokenFile) ≠ "";
  ac_identity : c.(cf_IdentityPath) ≠ "";
  ac_push : c.(cf_PushInterval) = "" ∨ ∃ d, ParseDuration c.(cf_PushInterval) = Some d ∧ 0 < d < InstanceStaleAfter;
  ac_buffer : c.(cf_Buffer).(bc_Path) ≠ "";
  ac_size : c.(cf_Buffer).(bc_MaxSize) = "" ∨ is_Some (parseByteSize c.(cf_Buffer).(bc_MaxSize));
  ac_age : c.(cf_Buffer).(bc_MaxAge) = "" ∨ positive_duration c.(cf_Buffer).(bc_MaxAge);
  ac_host : c.(cf_Host).(hc_Interval) = "" ∨ positive_duration c.(cf_Host).(hc_Interval);
  ac_checks : map_Forall (λ _, check_ok) c.(cf_Checks);
  ac_some : c.(cf_Targets) ≠ [];
  ac_targets : Forall target_ok c.(cf_Targets);
  ac_names : NoDup (tc_Name <$> c.(cf_Targets));
}.

(** What the rest of the agent takes from the configuration. *)
Record derived (c c' : Config) : Prop := {
  dv_targets : c'.(cf_Targets) = c.(cf_Targets);
  dv_push : 0 < c'.(parsedPushInterval) < InstanceStaleAfter;
  dv_size : 0 < c'.(parsedBufferMaxSize) ≤ max_int64;
  dv_age : 0 < c'.(parsedBufferMaxAge);
  dv_host : 0 < c'.(parsedHostInterval);
  dv_checks name : GetCheckInterval c' name = match cc_Interval <$> c.(cf_Checks) !! name with
    | Some raw => if bool_decide (raw = "") then 0 else default 0 (ParseDuration raw)
    | None => 0
    end;
  dv_paths : c'.(cf_Host).(hc_ProcPath) ≠ "" ∧ c'.(cf_Host).(hc_SysPath) ≠ "";
}.

Lemma positive_Some raw d : positive raw = Some d ↔ ParseDuration raw = Some d ∧ 0 < d.
Proof.
  unfold positive. destruct (ParseDuration raw) as [e|]; cbn; [|naive_solver]. destruct (Z.leb_spec e 0); split; [done|intros [[= ->] ?]; lia|by intros [= ->]|by intros [[= ->] _]].
Qed.

Lemma positive_None raw : positive raw = None → ¬ positive_duration raw.
Proof. intros Hn (d & Hd). apply positive_Some in Hd. congruence. Qed.

Lemma compile_Some patterns l : compilePatterns patterns = Some l → compiles patterns.
Proof. unfold compilePatterns, compiles. intros Hm%mapM_Some. induction Hm; constructor; [by eexists|done]. Qed.
Lemma compile_None patterns : compilePatterns patterns = None → ¬ compiles patterns.
Proof. intros Hn Hc. unfold compilePatterns in Hn. apply eq_None_not_Some in Hn. apply Hn. by apply mapM_is_Some_2. Qed.

Lemma check_targets_exact ts : ∀ i seen, check_targets i seen ts = None ↔
  Forall target_ok ts ∧ NoDup (tc_Name <$> ts) ∧ Forall (λ t, seen !! t.(tc_Name) = None) ts.
Proof.
  induction ts as [|t ts IH]; intros i seen; cbn [check_targets fmap list_fmap].
  { split; [intros _; split_and!; [by apply Forall_nil|apply NoDup_nil_2|by apply Forall_nil]|done]. }
  case_bool_decide as Hn. { split; [done|]. intros ([[] _]%Forall_cons & _). done. }
  destruct (seen !! tc_Name t) as [first|] eqn:Hs. { split; [done|]. intros (_ & _ & [? _]%Forall_cons). congruence. }
  case_bool_decide as Hd. { split; [done|]. intros ([[] _]%Forall_cons & _). done. }
  destruct (negb _ && negb _) eqn:Hp.
  { split; [done|]. apply andb_true_iff in Hp as [Hp1%negb_true_iff Hp2%negb_true_iff]. intros ([[_ _ [?|?] _ _ _] _]%Forall_cons & _); congruence. }
  assert (HasPrefix (tc_DSN t) "postgres://" = true ∨ HasPrefix (tc_DSN t) "postgresql://" = true) as Hscheme.
  { apply andb_false_iff in Hp as [Hp%negb_false_iff|Hp%negb_false_iff]; auto. }
  destruct (Z.ltb_spec (dc_Max (tc_Databases t)) 0) as [Hm|Hm]. { split; [done|]. intros ([[_ _ _ ? _ _] _]%Forall_cons & _). lia. }
  destruct (compilePatterns (dc_Include (tc_Databases t))) as [inc|] eqn:Hi.
  2: { split; [done|]. apply compile_None in Hi. intros ([[_ _ _ _ ? _] _]%Forall_cons & _). done. }
  destruct (compilePatterns (dc_Exclude (tc_Databases t))) as [exc|] eqn:He.
  2: { split; [done|]. apply compile_None in He. intros ([[_ _ _ _ _ ?] _]%Forall_cons & _). done. }
  apply compile_Some in Hi, He. rewrite IH, !Forall_cons, NoDup_cons, list_elem_of_fmap. split.
  - intros (Hok & Hnd & Hseen). rewrite Forall_forall in Hseen. split_and!; [by split|done| |done|done|].
    + intros (t' & E & Ht'). specialize (Hseen t' Ht'). rewrite <- E, lookup_insert_eq in Hseen. done.
    + apply Forall_forall. intros t' Ht'. specialize (Hseen t' Ht'). by apply lookup_insert_None in Hseen as [? _].
  - intros ((_ & Hok) & (Hni & Hnd) & _ & Hseen). split_and!; [done..|]. rewrite Forall_forall in *. intros t' Ht'. apply lookup_insert_None. split; [by apply Hseen|].
    intros E. apply Hni. by exists t'.
Qed.

Lemma check_checks_exact l : ∀ m, NoDup l.*1 → match check_checks l m with
  | inl _ => ¬ Forall (λ p, check_ok p.2) l
  | inr m' => Forall (λ p, check_ok p.2) l ∧ (∀ name, name ∉ l.*1 → m' !! name = m !! name) ∧
      (∀ name c, (name, c) ∈ l → m' !! name = if bool_decide (c.(cc_Interval) = "") then m !! name else ParseDuration c.(cc_Interval))
  end.
Proof.
  induction l as [|[name c] l IH]; intros m Hnd; cbn [check_checks].
  { split_and!; [by apply Forall_nil|done|by intros ??? %not_elem_of_nil]. }
  cbn in Hnd. apply NoDup_cons in Hnd as [Hni Hnd].
  set (o := if bool_decide (cc_Interval c = "") then _ else _).
  assert (match o with None => ¬ (c.(cc_Interval) = "" ∨ positive_duration c.(cc_Interval))
    | Some m1 => (c.(cc_Interval) = "" ∨ positive_duration c.(cc_Interval)) ∧ (∀ k, k ≠ name → m1 !! k = m !! k) ∧
        m1 !! name = if bool_decide (c.(cc_Interval) = "") then m !! name else ParseDuration c.(cc_Interval) end) as Ho.
  { unfold o. case_bool_decide as He; [split_and!; [by left|done|done]|]. destruct (positive (cc_Interval c)) as [d|] eqn:Hp; cbn.
    - apply positive_Some in Hp as [Hp Hd]. split_and!; [right; by exists d|intros k Hk; by rewrite lookup_insert_ne|by rewrite lookup_insert_eq].
    - apply positive_None in Hp. by intros [?|?]. }
  destruct o as [m1|]; [|intros [[Hi _] _]%Forall_cons; by apply Ho]. destruct Ho as (Hint & Hother & Hname).
  destruct (_ || _) eqn:Ht.
  { intros [[_ Htop] _]%Forall_cons. cbn in Htop. apply orb_true_iff in Ht as [?%Z.ltb_lt|?%Z.ltb_lt]; lia. }
  apply orb_false_iff in Ht as [Ht1%Z.ltb_ge Ht2%Z.ltb_ge]. specialize (IH m1 Hnd). destruct (check_checks l m1) as [e|m']; [by intros [_ ?]%Forall_cons|].
  destruct IH as (Hok & Hout & Hin). split_and!.
  - constructor; [by split|done].
  - intros k [Hk Hk']%not_elem_of_cons. by rewrite Hout, Hother.
  - intros k c' [[= -> ->]|Hk]%elem_of_cons; [by rewrite Hout|]. rewrite (Hin k c' Hk). destruct (bool_decide (cc_Interval c' = "")); [|done]. apply Hother. intros ->. apply Hni. apply list_elem_of_fmap. by exists (name, c').
Qed.

Lemma visit_checks (m : gmap string CheckConfig) : NoDup (visit m).*1 ∧ (∀ name c, (name, c) ∈ visit m ↔ m !! name = Some c).
Proof.
  split; [rewrite (visit_perm m); apply NoDup_fst_map_to_list|]. intros name c. rewrite (visit_perm m). apply elem_of_map_to_list.
Qed.

Lemma or_default_exact {A} raw (def : A) parse : match or_default raw def parse with
  | Some x => raw = "" ∧ x = def ∨ raw ≠ "" ∧ parse raw = Some x
  | None => raw ≠ "" ∧ parse raw = None
  end.
Proof. unfold or_default. case_bool_decide; [by left|]. destruct (parse raw); [by right|done]. Qed.

(** A duration that may be left out: its default and its bounds. *)
Lemma duration_default raw def : 0 < def → match or_default raw def positive with
  | Some d => (raw = "" ∨ positive_duration raw) ∧ 0 < d
  | None => ¬ (raw = "" ∨ positive_duration raw)
  end.
Proof.
  intros Hd. pose proof (or_default_exact raw def positive) as Ho. destruct (or_default raw def positive) as [d|].
  - destruct Ho as [[-> ->]|[_ [Hp Hpos]%positive_Some]]; [by split; [left|]|]. split; [|done]. right. by exists d.
  - destruct Ho as [Hne Hp%positive_None]. by intros [?|?].
Qed.

Lemma check_push_exact raw : match check_push raw with
  | Some d => (raw = "" ∨ ∃ d, ParseDuration raw = Some d ∧ 0 < d < InstanceStaleAfter) ∧ 0 < d < InstanceStaleAfter
  | None => ¬ (raw = "" ∨ ∃ d, ParseDuration raw = Some d ∧ 0 < d < InstanceStaleAfter)
  end.
Proof.
  change InstanceStaleAfter with maxPushInterval. unfold check_push. case_bool_decide as Hn; [subst; split; [by left|done]|].
  destruct (positive raw) as [d|] eqn:Hp; cbn -[maxPushInterval].
  - apply positive_Some in Hp as [Hp Hd]. destruct (Z.leb_spec maxPushInterval d).
    + intros [?|(d' & Hd' & ?)]; [done|]. assert (d' = d) as -> by congruence. lia.
    + split; [right; by exists d|lia].
  - apply positive_None in Hp. intros [?|(d' & Hd' & ?)]; [done|]. apply Hp. exists d'. split; [done|lia].
Qed.

Lemma host_paths getenv c : HostProcPath getenv c ≠ "" ∧ HostSysPath getenv c ≠ "".
Proof. unfold HostProcPath, HostSysPath. split; repeat case_bool_decide; done. Qed.

(** C21: The configurations [validate] accepts are exactly these. The server's URL is not the
    empty string (one of slashes only passes, and is empty once they are cut); a token or the
    name of a token file is given (what the file holds is not looked at); the path of the
    identity file and that of the buffer are not empty; the push interval is left out or is a
    duration above zero and below the ninety seconds after which the server takes a target
    for stale; the buffer's size is left out or reads as a positive size that fits 64 bits;
    the buffer's age, the host interval and each check's interval are left out or durations
    above zero; each check's top_n is between zero and its maximum; there is at least one
    target, and each has a name that no other has, a DSN that starts with postgres:// or
    postgresql://, a number of databases that is not negative, and include and exclude
    patterns that compile. Of an accepted one, the push interval used is above zero and below
    ninety seconds, the buffer's size, its age and the host interval are above zero, a check's
    interval is the one given or zero, the paths of the host's files are not empty and the
    targets are those given. The lower and upper case of Unicode, the regular expressions and
    the parser of URLs are arguments. *)
Theorem validate_exact getenv c :
  match validate getenv c with
  | inl _ => ¬ accepted c
  | inr c' => accepted c ∧ derived c c'
  end.
Proof.
  unfold validate. destruct (bool_decide_reflect (sv_URL (cf_Server c) = "")) as [|Hurl]; [by intros []|].
  destruct (bool_decide (sv_Token (cf_Server c) = "") && _) eqn:Htok.
  { apply andb_true_iff in Htok as [H1'%bool_decide_eq_true H2'%bool_decide_eq_true]. by intros [_ [?|?]]. }
  assert (sv_Token (cf_Server c) ≠ "" ∨ sv_TokenFile (cf_Server c) ≠ "") as Ht by (apply andb_false_iff in Htok as [?%bool_decide_eq_false|?%bool_decide_eq_false]; auto).
  destruct (bool_decide_reflect (cf_IdentityPath c = "")) as [|Hid]; [by intros []|].
  pose proof (check_push_exact (cf_PushInterval c)) as Hpush. destruct (check_push _) as [push|]; [|by intros []]. destruct Hpush as [Hpush Hpush'].
  destruct (bool_decide_reflect (bc_Path (cf_Buffer c) = "")) as [|Hbuf]; [by intros []|].
  pose proof (or_default_exact (bc_MaxSize (cf_Buffer c)) (512 * 1024 * 1024) parseByteSize) as Hsize. destruct (or_default (bc_MaxSize _) _ _) as [size|].
  2: { destruct Hsize as [Hne Hn]. intros []. destruct ac_size0 as [?|[? ?]]; congruence. }
  pose proof (duration_default (bc_MaxAge (cf_Buffer c)) (6 * Hour) ltac:(done)) as Hage. destruct (or_default (bc_MaxAge _) _ _) as [age|]; [|by intros []]. destruct Hage as [Hage Hage'].
  pose proof (duration_default (hc_Interval (cf_Host c)) (30 * Second) ltac:(done)) as Hhost. destruct (or_default (hc_Interval _) _ _) as [host|]; [|by intros []]. destruct Hhost as [Hhost Hhost'].
  destruct (visit_checks (cf_Checks c)) as [Hnd Hvis]. pose proof (check_checks_exact (visit (cf_Checks c)) ∅ Hnd) as Hchecks.
  assert (Forall (λ p, check_ok p.2) (visit (cf_Checks c)) ↔ map_Forall (λ _, check_ok) (cf_Checks c)) as Hall.
  { rewrite Forall_forall. split; [intros Hf name k Hk; by apply (Hf (name, k)), Hvis|]. intros Hf [name k] Hk%Hvis. by apply (Hf name). }
  destruct (check_checks _ _) as [e|intervals]; [intros []; by apply Hchecks, Hall|]. destruct Hchecks as (Hck%Hall & Hout & Hin).
  pose proof (check_targets_exact (cf_Targets c) 0 ∅) as Htar. destruct (cf_Targets c) as [|t0 ts] eqn:Ets; [by intros []|].
  destruct (check_targets 0 ∅ (t0 :: ts)) as [e|].
  { intros []. rewrite Ets in *. assert (Some e = None) as [=]. apply Htar. split_and!; [done..|]. apply Forall_forall. intros. apply lookup_empty. }
  destruct (proj1 Htar eq_refl) as (Hok & Hnames & _). split.
  - split; rewrite ?Ets; try done. destruct Hsize as [[? _]|[_ ?]]; [by left|right; by eexists].
  - split; try done.
    + destruct Hsize as [[_ ->]|[_ Hs%parseByteSize_range]]; [done|done].
    + intros name. unfold GetCheckInterval. cbn [parsedCheckIntervals]. destruct (cf_Checks c !! name) as [k|] eqn:Hk; cbn [fmap option_fmap option_map].
      * etrans; [apply (f_equal (default 0)), (Hin name k); by apply Hvis|]. rewrite lookup_empty. destruct (bool_decide (cc_Interval k = "")); reflexivity.
      * etrans; [apply (f_equal (default 0)), Hout|by rewrite lookup_empty]. intros ([n k] & -> & Hm%Hvis)%list_elem_of_fmap. cbn in Hk. congruence.
    + apply host_paths.
Qed.
End accepted.

(** ** The server's environment (internal/server/config.go) *)

Inductive env_error := NoToken | TokenUnreadable | TokenEmpty | BadInterval | SlackUnreadable | BadEnabled | PasswordUnreadable | BadTTL | BadCookie.

Record AlertConfig := mkAlertConfig { al_Interval : Duration; al_SlackURL : string; al_WebhookURL : string }.
Record UIConfig := mkUIConfig { ui_Enabled : bool; ui_Password : string; ui_SessionTTL : Duration; ui_CookieSecure : string }.

Definition is_newline (c : byte) : bool := bool_decide (c = x0d) || bool_decide (c = x0a).
Fixpoint trim_newlines (t : text) : text :=
  match t with [] => [] | c :: t => match trim_newlines t with [] => if is_newline c then [] else [c] | r => c :: r end end.

(** [strconv.ParseBool]. *)
Definition ParseBool (s : string) : option bool :=
  if bool_decide (s ∈ ["1"; "t"; "T"; "TRUE"; "true"; "True"]) then Some true
  else if bool_decide (s ∈ ["0"; "f"; "F"; "FALSE"; "false"; "False"]) then Some false
  else None.

Section server.
Context `{UnicodeLower} (getenv : string → string) (readFile : string → option text).

Definition trimmed (name : string) : string := of_text (TrimSpace (str (getenv name))).

Definition LoadBootstrapToken : env_error + string :=
  let token := of_text (trim_newlines (str (getenv "PGLENS_BOOTSTRAP_TOKEN"))) in
  if negb (bool_decide (token = "")) then inr token
  else
    let path := trimmed "PGLENS_BOOTSTRAP_TOKEN_FILE" in
    if bool_decide (path = "") then inl NoToken
    else match readFile path with
    | None => inl TokenUnreadable
    | Some data =>
        let token := of_text (TrimSpace data) in
        if bool_decide (token = "") then inl TokenEmpty else inr token
    end.

(** A duration, or a whole number of seconds. *)
Definition alert_interval (raw : string) : option Duration :=
  d ← (match ParseDuration raw with Some d => Some d | None => n ← ParseInt (str raw); Some (wrap64 (n * Second)) end);
  if d <=? 0 then None else Some d.

Definition LoadAlertConfig : env_error + AlertConfig :=
  let slack := if bool_decide (getenv "PGLENS_ALERT_SLACK_WEBHOOK_URL" = "") then getenv "PGLENS_SLACK_WEBHOOK_URL" else getenv "PGLENS_ALERT_SLACK_WEBHOOK_URL" in
  let raw := trimmed "PGLENS_ALERT_INTERVAL" in
  match or_default raw (30 * Second) alert_interval with
  | None => inl BadInterval
  | Some interval =>
      let file := if bool_decide (trimmed "PGLENS_ALERT_SLACK_WEBHOOK_URL_FILE" = "") then trimmed "PGLENS_SLACK_WEBHOOK_URL_FILE" else trimmed "PGLENS_ALERT_SLACK_WEBHOOK_URL_FILE" in
      if bool_decide (file = "") then inr (mkAlertConfig interval slack (getenv "PGLENS_WEBHOOK_URL"))
      else match readFile file with
      | None => inl SlackUnreadable
      | Some b => inr (mkAlertConfig interval (of_text (TrimSpace b)) (getenv "PGLENS_WEBHOOK_URL"))
      end
  end.

Definition session_ttl (raw : string) : option Duration :=
  d ← ParseDuration raw; if (d <? 5 * Minute) || (720 * Hour <? d) then None else Some d.
Definition cookie_secure (raw : string) : option string :=
  let secure := to_lower raw in if bool_decide (secure ∈ ["auto"; "true"; "false"]) then Some secure else None.

Definition LoadUIConfig : env_error + UIConfig :=
  match or_default (trimmed "PGLENS_UI_ENABLED") true ParseBool with
  | None => inl BadEnabled
  | Some enabled =>
      let file := trimmed "PGLENS_UI_PASSWORD_FILE" in
      match (if bool_decide (file = "") then Some (getenv "PGLENS_UI_PASSWORD") else (λ b, of_text (TrimSpace b)) <$> readFile file) with
      | None => inl PasswordUnreadable
      | Some password =>
          match or_default (trimmed "PGLENS_UI_SESSION_TTL") (24 * Hour) session_ttl with
          | None => inl BadTTL
          | Some ttl =>
              match or_default (trimmed "PGLENS_UI_COOKIE_SECURE") "auto" cookie_secure with
              | None => inl BadCookie
              | Some secure => inr (mkUIConfig enabled password ttl secure)
              end
          end
      end
  end.

(** Whatever the environment holds, a server that starts has a token that is not empty, an
    interval that is positive, and sessions of five minutes to thirty days. *)
Theorem server_settings_sound :
  (∀ token, LoadBootstrapToken = inr token → token ≠ "") ∧
  (∀ a, LoadAlertConfig = inr a → 0 < a.(al_Interval)) ∧
  (∀ u, LoadUIConfig = inr u → 5 * Minute ≤ u.(ui_SessionTTL) ≤ 720 * Hour ∧ u.(ui_CookieSecure) ∈ ["auto"; "true"; "false"]).
Proof.
  split_and!.
  - intros token. unfold LoadBootstrapToken. case_bool_decide as Ht; cbn [negb]; [|by intros [= <-]]. case_bool_decide; [done|]. destruct (readFile _) as [data|]; [|done].
    case_bool_decide; [done|]. by intros [= <-].
  - intros a. unfold LoadAlertConfig. pose proof (or_default_exact (trimmed "PGLENS_ALERT_INTERVAL") (30 * Second) alert_interval) as Ho.
    destruct (or_default _ _ _) as [d|]; [|done]. assert (0 < d) as Hd.
    { destruct Ho as [[_ ->]|[_ Ho]]; [done|]. unfold alert_interval in Ho.
      apply bind_Some in Ho as (e & _ & Ho). destruct (Z.leb_spec e 0); [done|]. by injection Ho as <-. }
    destruct (bool_decide _); [by intros [= <-]|]. destruct (readFile _); [by intros [= <-]|done].
  - intros u. unfold LoadUIConfig. destruct (or_default (trimmed "PGLENS_UI_ENABLED") _ _) as [enabled|]; [|done].
    destruct (if bool_decide _ then Some _ else _) as [password|]; [|done].
    pose proof (or_default_exact (trimmed "PGLENS_UI_SESSION_TTL") (24 * Hour) session_ttl) as Ho. destruct (or_default (trimmed "PGLENS_UI_SESSION_TTL") _ _) as [ttl|]; [|done].
    pose proof (or_default_exact (trimmed "PGLENS_UI_COOKIE_SECURE") "auto" cookie_secure) as Hc. destruct (or_default (trimmed "PGLENS_UI_COOKIE_SECURE") _ _) as [secure|]; [|done].
    intros [= <-]. cbn [ui_SessionTTL ui_CookieSecure]. split.
    + destruct Ho as [[_ ->]|[_ Ho]]; [done|]. unfold session_ttl in Ho. apply bind_Some in Ho as (d & _ & Ho). destruct (_ || _) eqn:E; [done|]. injection Ho as <-. apply orb_false_iff in E as [?%Z.ltb_ge ?%Z.ltb_ge]. done.
    + destruct Hc as [[_ ->]|[_ Hc]]; [left|]. unfold cookie_secure in Hc. case_bool_decide; [|done]. by injection Hc as <-.
Qed.
End server.

(** ** Examples *)
Module Config_.
#[local] Instance urls : UrlParse := λ _, None.
#[local] Instance lower : UnicodeLower := λ t, t.
#[local] Instance upper : UnicodeUpper := λ t, t.
#[local] Instance patterns : Regexp := {| regexp := string; Compile p := if bool_decide (p = "(") then None else Some p; MatchString r s := bool_decide (r = s) |}.
#[local] Instance order : RangeOrder := λ K V _ _ m, map_to_list m.
#[local] Instance order_laws : RangeOrderLaws.
Proof. split. reflexivity. Qed.

Example durations_read : List.map ParseDuration ["1h30m"; "1.5s"; "-0.25ms"; "+2us"; "0"; ".5m"; "100"; ""; "s"; "1x"; "9223372036854775808ns"; "-9223372036854775808ns"] =
  [Some (90 * Minute); Some 1500000000; Some (-250000); Some 2000; Some 0; Some (30 * Second); None; None; None; None; None; Some min_int64].
Proof. vm_compute. reflexivity. Qed.

Example sizes_read : List.map parseByteSize ["512MiB"; " 10 kb "; "7"; "1GB"; "0B"; "MiB"; "9223372036854775807"; "9007199254740993KiB"; "1.5GiB"] =
  [Some 536870912; Some 10000; Some 7; Some 1000000000; None; None; Some max_int64; None; None].
Proof. vm_compute. reflexivity. Qed.

Definition target (name dsn : string) : TargetConfig := mkTargetConfig name dsn "" (mkDatabasesConfig [] [] 0) None false false.
Definition config (url token token_file : string) (targets : list TargetConfig) : Config :=
  mkConfig (mkServerConfig url token token_file) "/var/lib/id" "30s" (mkBufferConfig "/var/lib/buffer" "1GiB" "") targets
    {["ash" := mkCheckConfig "1s" 50 false None]} None (mkHostConfig None "" "" "") 0 0 0 ∅ 0.
Definition no_env (_ : string) : string := "".

Definition shop : Config := config "https://lens/" "secret" "" [target "shop" "postgres://db/shop"].

Lemma validate_exact_witness : ∃ c', validate no_env shop = inr c' ∧ accepted shop ∧ derived shop c'.
Proof.
  pose proof (validate_exact no_env shop) as Hv. destruct (validate no_env shop) as [e|c'] eqn:E; [vm_compute in E; discriminate|]. exists c'. split; [reflexivity|exact Hv].
Defined.

(** A token file that holds only white space is accepted, and the token is empty. *)
Example empty_token_accepted :
  match LoadConfig (λ _, Some (config "https://lens" "" "/run/token" [target "shop" "postgres://db/shop"])) (λ p, if bool_decide (p = "/run/token") then Some (str "  ") else Some []) no_env "agent.yaml" with
  | inr c => sv_Token (cf_Server c) = ""
  | inl _ => False
  end.
Proof. vm_compute. reflexivity. Qed.

(** A URL of slashes only passes the test that one is given, and is empty once they are cut. *)
Example slashes_accepted : match validate no_env (config "//" "secret" "" [target "shop" "postgres://db/shop"]) with inr c => sv_URL (cf_Server c) = "" | inl _ => False end.
Proof. vm_compute. reflexivity. Qed.
End Config_.
