(* ===== verification/Conn.v ===== *)
(** * Target connections (internal/agent/conn.go)

    One [Manager] per target: which databases the agent collects from, the pool of each of
    them, and what it remembers of the server. What PostgreSQL and pgxpool answer are arguments
    of the operations. [m.mu] and [cache.mu] are held for the parts that change the state, so
    each part is one step: picking a pool, the answer of Acquire, lowering [pending] and the
    session's limits are steps of their own, between which any other caller may move. The
    options, the DSN's own database and the target's name never change and are arguments. *)
From S2P Require Import Prelude GoTime GoSort Pgtype PgIds Wire AlertTypes AgentConfig.

(** An error, and whether PostgreSQL refused for want of a privilege. *)
Record db_error := mkDbError { err_text : string; err_privilege : bool }.

Record dbRow := mkDbRow { row_name : string; row_xactCommit : Z }.

Section options.
Context `{Regexp}.

Record ConnOptions := mkConnOptions {
  MaxConnsPerInstance : Z;
  MaxDatabases : Z;
  IdleTimeout : Duration;
  Include : list regexp;
  Exclude : list regexp;
  ClusterName : string;
}.

Definition maxConnsPerDatabase : Z := 2.

(** [regexp.MustCompile] of constant patterns. *)
Definition DefaultConnOptions : ConnOptions :=
  mkConnOptions 4 10 (5 * Minute) [] (omap Compile defaultExcludes) "".

(** cmd/pglens-agent/run.go *)
Definition connOptionsFromConfig (tc : TargetConfig) : cfg_error + ConnOptions :=
  let opts := DefaultConnOptions in
  let max := if 0 <? tc.(tc_Databases).(dc_Max) then tc.(tc_Databases).(dc_Max) else opts.(MaxDatabases) in
  match DatabaseFilters tc with
  | inl e => inl e
  | inr (include, exclude) => inr (mkConnOptions opts.(MaxConnsPerInstance) max opts.(IdleTimeout) include exclude tc.(tc_ClusterName))
  end.

Definition perDatabaseMaxConns (opts : ConnOptions) : Z :=
  if (0 <? opts.(MaxConnsPerInstance)) && (opts.(MaxConnsPerInstance) <? maxConnsPerDatabase) then opts.(MaxConnsPerInstance) else maxConnsPerDatabase.

(** ** The selection of databases *)

Definition excluded (opts : ConnOptions) (name : string) : bool := existsb (λ ex, MatchString ex name) opts.(Exclude).
Definition included (opts : ConnOptions) (name : string) : bool :=
  bool_decide (opts.(Include) = []) || existsb (λ inc, MatchString inc name) opts.(Include).

Definition busier : dbRow → dbRow → bool := lex_by row_xactCommit Z.gtb (lex_by row_name string_lt (λ _ _, false)).

Definition selectDatabases (dbs : list dbRow) (opts : ConnOptions) : list WDatabase :=
  let filtered := filter (λ db, excluded opts db.(row_name) = false) dbs in
  let filtered := filter (λ db, included opts db.(row_name) = true) filtered in
  let filtered := sort_slice busier filtered in
  if Z.of_nat (length filtered) <=? opts.(MaxDatabases) then (λ db, mkWDatabase db.(row_name) true "") <$> filtered
  else imap (λ i db, if Z.of_nat i <? opts.(MaxDatabases) then mkWDatabase db.(row_name) true "" else mkWDatabase db.(row_name) false "db_budget") filtered.

Record DatabaseCandidate := mkDatabaseCandidate { Name : string; XactCommit : Z }.

Definition SelectDatabases (candidates : list DatabaseCandidate) (opts : ConnOptions) : list WDatabase :=
  selectDatabases ((λ c, mkDbRow c.(Name) c.(XactCommit)) <$> candidates) opts.
End options.

(** ** The manager *)

(** A pool of one database: the connections it may open, for how long an idle one stays, and
    what it tells the server at the start of a session. *)
Record pool := mkPool {
  p_id : nat;
  p_Database : string;
  p_MaxConns : Z;
  p_MaxConnIdleTime : option Duration; (* pgxpool's own when absent *)
  p_application_name : string;
}.

#[export] Instance pool_eq_dec : EqDecision pool.
Proof. solve_decision. Defined.

(** [scheduled] is [None] before the first discovery. *)
Record Manager := mkManager {
  dbs : gmap string pool;
  dbtc : gmap string Time;
  pending : gmap string nat;
  statementsDB : string;
  monitored : gset string;
  scheduled : option (gset string);
}.

Definition NewManager : Manager := mkManager ∅ ∅ ∅ "" ∅ None.

Definition set_pools (d : gmap string pool) (t : gmap string Time) (m : Manager) : Manager :=
  mkManager d t m.(pending) m.(statementsDB) m.(monitored) m.(scheduled).
Definition set_pending (p : gmap string nat) (m : Manager) : Manager :=
  mkManager m.(dbs) m.(dbtc) p m.(statementsDB) m.(monitored) m.(scheduled).
Definition set_statements (d : string) (m : Manager) : Manager :=
  mkManager m.(dbs) m.(dbtc) m.(pending) d m.(monitored) m.(scheduled).
Definition set_selected (mon : gset string) (sch : option (gset string)) (m : Manager) : Manager :=
  mkManager m.(dbs) m.(dbtc) m.(pending) m.(statementsDB) mon sch.

Definition SetScheduledDatabases (names : gset string) (m : Manager) : Manager := set_selected m.(monitored) (Some names) m.

Inductive refusal := NotScheduled (datname : string) | NotMonitored (datname : string) | Failed (e : string).

Inductive create_error := ParseError (e : string) | PoolError (e : string).

Section manager.
Context `{Regexp, RangeOrder} (opts : ConnOptions) (ownDB : string).

Definition selected_names (l : list WDatabase) : gset string := list_to_set (db_Name <$> filter (λ db, db.(db_Monitored) = true) l).

(** [rows] is what the query of pg_database answers, or the error of a call. *)
Definition Discover (rows : string + list dbRow) (m : Manager) : (string + list WDatabase) * Manager :=
  match rows with
  | inl e => (inl e, m)
  | inr rows =>
      let selected := selectDatabases rows opts in
      let latest := selected_names selected in
      (inr selected, set_selected latest (Some (default latest m.(scheduled))) m)
  end.

Definition isMonitored (datname : string) (m : Manager) : bool := bool_decide (datname = ownDB) || bool_decide (datname ∈ m.(monitored)).

Definition isScheduled (datname : string) (m : Manager) : bool :=
  bool_decide (datname = ownDB) || bool_decide (datname = m.(statementsDB)) || bool_decide (datname ∈ default ∅ m.(scheduled)).

Definition MonitorsDatabase : string → Manager → bool := isScheduled.

Definition requireMonitored (datname : string) (rows : string + list dbRow) (m : Manager) : option refusal * Manager :=
  if isMonitored datname m then (None, m)
  else match Discover rows m with
  | (inl e, m) => (Some (Failed ("discover databases: " +:+ e)), m)
  | (inr _, m) => (if isMonitored datname m then None else Some (NotMonitored datname), m)
  end.

(** *** ForDatabase, up to the end of its first critical section

    [acquired] is [Stat().AcquiredConns()] of a pool. [None] is the panic on a nil pool. *)
Definition in_use (acquired : pool → nat) (m : Manager) (name : string) : option bool :=
  if bool_decide (default 0%nat (m.(pending) !! name) = 0%nat) then (λ p, negb (bool_decide (acquired p = 0%nat))) <$> m.(dbs) !! name
  else Some true.

Fixpoint oldest_of (acquired : pool → nat) (m : Manager) (l : list (string * Time)) (oldest : string * Time) : option (string * Time) :=
  match l with
  | [] => Some oldest
  | (name, t) :: l =>
      busy ← in_use acquired m name;
      let oldest := if busy : bool then oldest else if bool_decide (oldest.1 = "") || (t <? oldest.2) then (name, t) else oldest in
      oldest_of acquired m l oldest
  end.

Fixpoint evict (fuel : nat) (acquired : pool → nat) (m : Manager) (closing : list pool) : option (Manager * list pool) :=
  if Z.of_nat (size m.(dbs)) <? opts.(MaxDatabases) then Some (m, closing)
  else match fuel with
  | O => None
  | S fuel =>
      oldest ← oldest_of acquired m (visit m.(dbtc)) ("", 0);
      if bool_decide (oldest.1 = "") then Some (m, closing)
      else
        evicted ← m.(dbs) !! oldest.1;
        evict fuel acquired (set_pools (delete oldest.1 m.(dbs)) (delete oldest.1 m.(dbtc)) m) (closing ++ [evicted])
  end.

Definition new_pool (id : nat) (datname : string) : pool :=
  mkPool id datname (perDatabaseMaxConns opts) (if 0 <? opts.(IdleTimeout) then Some opts.(IdleTimeout) else None) ("pglens/" +:+ datname).

(** The pool and the manager, with the pools evicted. [id] names the pool that may be made,
    [create] is the error of making it. A round of the loop takes a pool away. *)
Definition pick (acquired : pool → nat) (id : nat) (create : option create_error) (now : Time) (datname : string) (m : Manager) :
    option ((create_error + pool) * Manager * list pool) :=
  let touch p d m := (inr p, set_pending (<[datname := S (default 0%nat (m.(pending) !! datname))]> m.(pending)) (set_pools d (<[datname := now]> m.(dbtc)) m)) in
  match m.(dbs) !! datname with
  | Some p => Some (touch p m.(dbs) m, [])
  | None =>
      '(m, closing) ← evict (S (size m.(dbs))) acquired m [];
      match create with
      | Some e => Some (inl e, m, closing)
      | None => let p := new_pool id datname in Some (touch p (<[datname := p]> m.(dbs)) m, closing)
      end
  end.

(** The second critical section. *)
Definition settle (datname : string) (m : Manager) : Manager :=
  let n := Nat.pred (default 0%nat (m.(pending) !! datname)) in
  set_pending (if bool_decide (n = 0%nat) then delete datname m.(pending) else <[datname := n]> m.(pending)) m.

(** *** ConnFor and ScheduledConnFor, up to the connection: the shared one, or a pool's *)
Definition ConnFor (datname : string) (rows : string + list dbRow) (m : Manager) : (refusal + bool) * Manager :=
  if bool_decide (datname = "") then (inr true, m)
  else match requireMonitored datname rows m with
  | (Some r, m) => (inl r, m)
  | (None, m) => (inr false, m)
  end.

Definition ScheduledConnFor (datname : string) (m : Manager) : refusal + bool :=
  if bool_decide (datname = "") then inr true
  else if isScheduled datname m then inr false else inl (NotScheduled datname).

(** *** LocateStatements

    [has] is what the maintenance database has, [answer] what each other one answers: the error
    of connecting or asking, or whether it has the view. *)
Fixpoint locate (answer : string → string + bool) (found : bool) (where_ : string) (unchecked : option string) (l : list WDatabase) : bool * string * option string :=
  match l with
  | [] => (found, where_, unchecked)
  | db :: l =>
      if found then (found, where_, unchecked)
      else if negb db.(db_Monitored) then locate answer found where_ unchecked l
      else match answer db.(db_Name) with
      | inl e => locate answer found where_ (Some e) l
      | inr true => locate answer true db.(db_Name) unchecked l
      | inr false => locate answer found where_ unchecked l
      end
  end.

Definition LocateStatements (has : bool) (answer : string → string + bool) (l : list WDatabase) (m : Manager) : (bool * option string) * Manager :=
  let '(found, where_, unchecked) := locate answer has "" None l in
  let m := if found || bool_decide (unchecked = None) then set_statements where_ m else m in
  if found then (true, None, m) else (false, unchecked, m).
End manager.

(** ** What is remembered of the server *)

Record cache := mkCache {
  initialized : bool;
  c_pgVersion : Z;
  c_role : Role;
  c_clusterID : ClusterID;
  c_idSource : string;
  c_permTier : Z;
  c_extensions : gset string;
}.

Definition no_cache : cache := mkCache false 0 RoleNone 0 "" 0 ∅.

Definition queryClusterIdentity (system_identifier : db_error + Z) (fallbackName : string) : string + ClusterID * string :=
  match system_identifier with
  | inr id => inr (id, IDSourceSystemIdentifier)
  | inl e => if e.(err_privilege) then inr (ManualClusterID fallbackName, IDSourceManual) else inl ("query system identifier: " +:+ e.(err_text))
  end.

(** The answers of its three queries; the error of the last with its own text. *)
Record grants := mkGrants { g_read_all : string + bool; g_signal : string + bool; g_exts : string + list string }.

Definition queryCapabilities (g : grants) : string + Z * gset string :=
  match g.(g_read_all) with
  | inl e => inl ("query pg_read_all_data membership: " +:+ e)
  | inr hasReadAllData =>
      let tier := if hasReadAllData then TierExplain else TierReadOnly in
      match g.(g_signal) with
      | inl e => inl ("query pg_signal_backend membership: " +:+ e)
      | inr hasSignalBackend =>
          let tier := if hasSignalBackend then TierSignal else tier in
          match g.(g_exts) with inl e => inl e | inr names => inr (tier, list_to_set names) end
      end
  end.

Definition fallbackClusterName `{Regexp} (opts : ConnOptions) (name : string) : string := if bool_decide (opts.(ClusterName) = "") then name else opts.(ClusterName).

(** What the calls of [ensureCache] answer; [i_local] is the error of the identity file. *)
Record init_answers := mkInitAnswers {
  i_shared : option string;
  i_version : string + Z;
  i_recovery : string + bool;
  i_system : db_error + Z;
  i_grants : grants;
  i_local : option string;
}.

Section remembered.
Context `{Regexp} (opts : ConnOptions) (name : string).

(** Nothing is written before every call has answered. *)
Definition ensureCache (a : init_answers) (c : cache) : option string * cache :=
  if c.(initialized) then (None, c)
  else match a.(i_shared) with
  | Some e => (Some e, c)
  | None =>
      match a.(i_version) with
      | inl e => (Some ("query version: " +:+ e), c)
      | inr versionNum =>
          match a.(i_recovery) with
          | inl e => (Some ("query role: " +:+ e), c)
          | inr inRecovery =>
              match queryClusterIdentity a.(i_system) (fallbackClusterName opts name) with
              | inl e => (Some e, c)
              | inr (clusterID, idSource) =>
                  let '(permTier, extensions) := match queryCapabilities a.(i_grants) with inl _ => (TierReadOnly, ∅) | inr r => r end in
                  match a.(i_local) with
                  | Some e => (Some e, c)
                  | None => (None, mkCache true versionNum (RoleFromRecovery inRecovery) clusterID idSource permTier extensions)
                  end
              end
          end
      end
  end.

Definition refreshCapabilities (g : grants) (c : cache) : option string * cache :=
  match queryCapabilities g with
  | inl e => (Some ("refresh capabilities: " +:+ e), c)
  | inr (tier, extensions) => (None, mkCache c.(initialized) c.(c_pgVersion) c.(c_role) c.(c_clusterID) c.(c_idSource) tier extensions)
  end.

Definition RefreshCapabilities (a : init_answers) (shared : option string) (g : grants) (c : cache) : option string * cache :=
  match ensureCache a c with
  | (Some e, c) => (Some e, c)
  | (None, c) => match shared with Some e => (Some e, c) | None => refreshCapabilities g c end
  end.

Definition RefreshRole (recovery : string + bool) (c : cache) : option string * cache :=
  match recovery with
  | inl e => (Some e, c)
  | inr inRecovery => (None, mkCache c.(initialized) c.(c_pgVersion) (RoleFromRecovery inRecovery) c.(c_clusterID) c.(c_idSource) c.(c_permTier) c.(c_extensions))
  end.

(** An accessor fills the cache first, and answers [unknown] when it cannot. *)
Definition accessor {A} (unknown : A) (field : cache → A) (a : init_answers) (c : cache) : A * cache :=
  match ensureCache a c with (Some _, c) => (unknown, c) | (None, c) => (field c, c) end.

Definition Manager_ClusterID := accessor 0 c_clusterID.
Definition ClusterIDSource := accessor IDSourceManual (λ c, if bool_decide (c.(c_idSource) = "") then IDSourceSystemIdentifier else c.(c_idSource)).
Definition Manager_Role := accessor RoleUnknown c_role.
Definition Manager_PGVersion := accessor 0 c_pgVersion.
Definition Manager_PermTier := accessor TierReadOnly c_permTier.
Definition HasExtension (ext : string) := accessor false (λ c, bool_decide (ext ∈ c.(c_extensions))).
End remembered.

(** ** Callers

    A caller of [ForDatabase] after it picked a pool: waiting in Acquire, with its answer but
    still counted in [pending], setting the session's limits, holding the connection, or done. *)
Inductive caller :=
| Waiting (datname : string) (p : pool)
| Answered (datname : string) (p : pool) (ok : bool)
| Limiting (p : pool)
| Holding (p : pool)
| Over.

(** [closed_pools] are the evicted ones. *)
Record world := mkWorld {
  mgr : Manager;
  callers : list caller;
  next_id : nat;
  closed_pools : list pool;
  crashed : bool;
}.

Definition start : world := mkWorld NewManager [] 0 [] false.

Definition holds (p : pool) (c : caller) : Prop :=
  match c with Answered _ q true | Limiting q | Holding q => q = p | _ => False end.
Definition waits (name : string) (c : caller) : Prop :=
  match c with Waiting d _ | Answered d _ _ => d = name | _ => False end.

#[export] Instance holds_dec p c : Decision (holds p c).
Proof. destruct c as [| ? ? [] | | |]; cbn; apply _. Defined.
#[export] Instance waits_dec name c : Decision (waits name c).
Proof. destruct c; cbn; apply _. Defined.

(** [Stat().AcquiredConns()]. *)
Definition acquired (w : world) (p : pool) : nat := length (filter (holds p) w.(callers)).

Definition set_mgr (m : Manager) (w : world) : world := mkWorld m w.(callers) w.(next_id) w.(closed_pools) w.(crashed).
Definition set_caller (i : nat) (c : caller) (w : world) : world := mkWorld w.(mgr) (<[i := c]> w.(callers)) w.(next_id) w.(closed_pools) w.(crashed).

Inductive label :=
| LDiscover (rows : string + list dbRow)
| LSetScheduled (names : gset string)
| LLocate (has : bool) (answer : string → string + bool) (l : list WDatabase)
| LCommand (datname : string) (rows : string + list dbRow) (create : option create_error) (now : Time)
| LCheck (datname : string) (create : option create_error) (now : Time)
| LLookup (datname : string) (create : option create_error) (now : Time)
| LAcquire (i : nat) (ok : bool)
| LSettle (i : nat)
| LLimits (i : nat) (ok : bool)
| LRelease (i : nat).

Section histories.
Context `{Regexp, RangeOrder} (opts : ConnOptions) (ownDB : string).

Definition open_ (create : option create_error) (now : Time) (datname : string) (w : world) : world :=
  match pick opts (acquired w) w.(next_id) create now datname w.(mgr) with
  | None => mkWorld w.(mgr) w.(callers) w.(next_id) w.(closed_pools) true
  | Some (inl _, m, closing) => mkWorld m w.(callers) (S w.(next_id)) (w.(closed_pools) ++ closing) w.(crashed)
  | Some (inr p, m, closing) => mkWorld m (w.(callers) ++ [Waiting datname p]) (S w.(next_id)) (w.(closed_pools) ++ closing) w.(crashed)
  end.

(** [None] when the caller is not at that point. *)
Definition step (l : label) (w : world) : option world :=
  match l with
  | LDiscover rows => Some (set_mgr (Discover opts rows w.(mgr)).2 w)
  | LSetScheduled names => Some (set_mgr (SetScheduledDatabases names w.(mgr)) w)
  | LLocate has answer l => Some (set_mgr (LocateStatements has answer l w.(mgr)).2 w)
  | LCommand datname rows create now =>
      let '(r, m) := ConnFor opts ownDB datname rows w.(mgr) in
      let w := set_mgr m w in
      Some (match r with inr false => open_ create now datname w | _ => w end)
  | LCheck datname create now => Some (match ScheduledConnFor ownDB datname w.(mgr) with inr false => open_ create now datname w | _ => w end)
  | LLookup datname create now => Some (open_ create now datname w)
  | LAcquire i ok => match w.(callers) !! i with Some (Waiting d p) => Some (set_caller i (Answered d p ok) w) | _ => None end
  | LSettle i =>
      match w.(callers) !! i with
      | Some (Answered d p ok) => Some (set_caller i (if ok then Limiting p else Over) (set_mgr (settle d w.(mgr)) w))
      | _ => None
      end
  | LLimits i ok => match w.(callers) !! i with Some (Limiting p) => Some (set_caller i (if ok then Holding p else Over) w) | _ => None end
  | LRelease i => match w.(callers) !! i with Some (Holding p) => Some (set_caller i Over w) | _ => None end
  end.

(** The databases the options allow. *)
Definition eligible (name : string) : Prop := excluded opts name = false ∧ included opts name = true.

(** What the manager's callers give it: databases that a discovery listed. *)
Definition lawful (l : label) : Prop :=
  match l with
  | LSetScheduled names => ∀ d, d ∈ names → eligible d
  | LLocate _ _ l => ∀ db, db ∈ l → eligible db.(db_Name)
  | LLookup datname _ _ => datname ≠ "" ∧ eligible datname
  | _ => True
  end.

Inductive reach : world → Prop :=
| reach_start : reach start
| reach_step l w w' : reach w → lawful l → step l w = Some w' → reach w'.

(** *** Eviction *)

(** No caller waits for the pool of [name] or holds a connection of it. *)
Definition unused (acq : pool → nat) (m : Manager) (name : string) : Prop :=
  default 0%nat (m.(pending) !! name) = 0%nat ∧ ∃ p, m.(dbs) !! name = Some p ∧ acq p = 0%nat.

Lemma in_use_spec acq m name : is_Some (m.(dbs) !! name) → ∃ b, in_use acq m name = Some b ∧ (b = false ↔ unused acq m name).
Proof.
  intros [p Hp]. unfold in_use, unused. rewrite Hp. case_bool_decide as Hn; cbn.
  - eexists. split; [done|]. case_bool_decide as Ha; cbn; split; try done; [by eauto|]. intros (_ & q & [= <-] & ?). congruence.
  - exists true. split; [done|]. split; [done|]. by intros [].
Qed.

Lemma oldest_of_spec acq m l acc : (∀ x, x ∈ l → is_Some (m.(dbs) !! x.1) ∧ x.1 ≠ "") →
  ∃ o, oldest_of acq m l acc = Some o ∧ (o = acc ∨ o.1 ∈ l.*1 ∧ unused acq m o.1) ∧
    (o.1 = "" → acc.1 = "" ∧ ∀ x, x ∈ l → ¬ unused acq m x.1).
Proof.
  revert acc. induction l as [|[name t] l IH]; intros acc Hl.
  { exists acc. split_and!; [done|by left|]. intros ->. split; [done|]. by intros x ?%not_elem_of_nil. }
  destruct (Hl (name, t)) as [Hs Hne]; [left|]. cbn in Hs, Hne. destruct (in_use_spec acq m name Hs) as (b & Hb & Hu).
  cbn [oldest_of]. rewrite Hb. cbn [mbind option_bind].
  set (acc' := if b then acc else _). destruct (IH acc') as (o & Ho & Hwhere & Hnone); [intros x Hx; apply Hl; by right|].
  exists o. split; [done|].
  assert (acc' = acc ∨ acc' = (name, t) ∧ b = false) as Hacc by (unfold acc'; destruct b; [by left|]; destruct (_ || _); auto).
  split.
  - destruct Hwhere as [->|[? ?]]; [|right; split; [by right|done]].
    destruct Hacc as [->|[-> ->]]; [by left|]. right. split; [left|]. by apply Hu.
  - intros Hempty. destruct (Hnone Hempty) as [Ha Hrest]. destruct Hacc as [Hacc|[-> ->]]; [|done]. rewrite Hacc in Ha. split; [done|].
    intros x [->|Hx]%elem_of_cons; [|by apply Hrest]. cbn. intros ->%Hu. unfold acc' in Hacc. rewrite Ha in Hacc. cbn in Hacc. by rewrite <- Hacc in Ha.
Qed.

Definition keys_ok (m : Manager) : Prop := ∀ k, (is_Some (m.(dbs) !! k) ↔ is_Some (m.(dbtc) !! k)) ∧ (is_Some (m.(dbs) !! k) → k ≠ "").

Record evicts (acq : pool → nat) (m m' : Manager) (gone : list pool) : Prop := {
  ev_keys : keys_ok m';
  ev_same : m' = set_pools m'.(dbs) m'.(dbtc) m;
  ev_sub : m'.(dbs) ⊆ m.(dbs);
  ev_gone p : p ∈ gone → ∃ k, m.(dbs) !! k = Some p ∧ m'.(dbs) !! k = None ∧ unused acq m k;
  ev_kept k p : m.(dbs) !! k = Some p → m'.(dbs) !! k = Some p ∨ unused acq m k;
}.

Lemma evicts_refl acq m : keys_ok m → evicts acq m m [].
Proof. intros Hk. split; [done|by destruct m|done|by intros p ?%not_elem_of_nil|by left]. Qed.

Lemma unused_sub acq m d t k : d ⊆ m.(dbs) → unused acq (set_pools d t m) k → unused acq m k.
Proof. intros Hs (Hp & p & Hd & Ha). split; [done|]. exists p. split; [by eapply lookup_weaken|done]. Qed.

Lemma evict_spec `{!RangeOrderLaws} fuel acq m closing : keys_ok m → (size m.(dbs) < fuel)%nat →
  ∃ m' gone, evict opts fuel acq m closing = Some (m', closing ++ gone) ∧ evicts acq m m' gone ∧
    (Z.of_nat (size m'.(dbs)) < opts.(MaxDatabases) ∨ ∀ k, is_Some (m'.(dbs) !! k) → ¬ unused acq m' k).
Proof.
  revert m closing. induction fuel as [|fuel IH]; intros m closing Hk Hf; [lia|]. cbn [evict].
  destruct (Z.ltb_spec (Z.of_nat (size (dbs m))) (MaxDatabases opts)) as [Hlt|Hge].
  { exists m, []. rewrite app_nil_r. split_and!; [done|by apply evicts_refl|by left]. }
  assert (∀ x, x ∈ visit (dbtc m) → is_Some (dbs m !! x.1) ∧ x.1 ≠ "") as Hv.
  { intros [k t]. rewrite (visit_perm (dbtc m)). intros Hx%elem_of_map_to_list. assert (is_Some (dbs m !! k)) by (apply Hk; by eexists). split; [done|by apply Hk]. }
  destruct (oldest_of_spec acq m (visit (dbtc m)) ("", 0) Hv) as (o & -> & Hwhere & Hnone). cbn [mbind option_bind].
  case_bool_decide as Ho.
  { exists m, []. rewrite app_nil_r. split_and!; [done|by apply evicts_refl|]. right. intros k Hs.
    apply Hk in Hs as [t Ht]. apply (proj2 (Hnone Ho) (k, t)). rewrite (visit_perm (dbtc m)). by apply elem_of_map_to_list. }
  destruct Hwhere as [->|[_ Hu]]; [done|]. destruct Hu as (Hpend & p & Hp & Ha). rewrite Hp. cbn [mbind option_bind].
  set (m1 := set_pools _ _ m).
  destruct (IH m1 (closing ++ [p])) as (m' & gone & -> & Hev & Hfull).
  { intros k. unfold m1. cbn. destruct (decide (k = o.1)) as [->|Hne]; [rewrite !lookup_delete_eq; by split; [split; intros []|intros []]|]. rewrite !lookup_delete_ne by done. apply Hk. }
  { unfold m1. cbn. rewrite map_size_delete, Hp. cbn. assert (size (dbs m) ≠ 0%nat); [|lia]. intros Hz%map_size_empty_iff. by rewrite Hz, lookup_empty in Hp. }
  exists m', (p :: gone). rewrite <- app_assoc. split; [done|]. split; [|done]. destruct Hev as [E1 E2 E3 E4 E5].
  assert (dbs m1 ⊆ dbs m) as Hs1 by apply delete_subseteq. split.
  - done.
  - rewrite E2. unfold m1. by destruct m.
  - by transitivity (dbs m1).
  - intros q [->|Hq]%elem_of_cons.
    + exists o.1. split_and!; [done| |split; [done|by exists p]]. destruct (dbs m' !! o.1) as [q|] eqn:Hq; [|done]. apply (lookup_weaken _ _ _ _ Hq) in E3. unfold m1 in E3. cbn in E3. by rewrite lookup_delete_eq in E3.
    + destruct (E4 q Hq) as (k & Hk1 & Hk2 & Hk3). exists k. split_and!; [by eapply lookup_weaken|done|by eapply (unused_sub _ _ _ _ _ Hs1)].
  - intros k q Hq. destruct (decide (k = o.1)) as [->|Hne].
    + right. split; [done|by exists p].
    + destruct (E5 k q) as [?|?]; [unfold m1; cbn; by rewrite lookup_delete_ne|by left|right; by eapply (unused_sub _ _ _ _ _ Hs1)].
Qed.

(** *** The invariant *)

Record inv (w : world) : Prop := {
  iv_crash : w.(crashed) = false;
  iv_keys : keys_ok w.(mgr);
  iv_pool k p : w.(mgr).(dbs) !! k = Some p → p.(p_Database) = k ∧ (p.(p_id) < w.(next_id))%nat ∧ (k = ownDB ∨ eligible k);
  iv_pending k : default 0%nat (w.(mgr).(pending) !! k) = length (filter (waits k) w.(callers));
  iv_waits c d p : c ∈ w.(callers) → c = Waiting d p ∨ (∃ ok, c = Answered d p ok) → w.(mgr).(dbs) !! d = Some p;
  iv_holds c p : c ∈ w.(callers) → holds p c → w.(mgr).(dbs) !! p.(p_Database) = Some p;
  iv_closed p : p ∈ w.(closed_pools) → (p.(p_id) < w.(next_id))%nat ∧ ∀ k, w.(mgr).(dbs) !! k ≠ Some p;
  iv_sets d : d ∈ w.(mgr).(monitored) ∨ d ∈ default ∅ w.(mgr).(scheduled) ∨ d = w.(mgr).(statementsDB) ∧ d ≠ "" → eligible d;
}.

Lemma inv_start : inv start.
Proof. split; try done. - by intros k; split; [split; intros []|intros []]. - by intros c d p ?%not_elem_of_nil. - by intros c p ?%not_elem_of_nil. - by intros p ?%not_elem_of_nil. - intros d [?%not_elem_of_empty|[?%not_elem_of_empty|[? ?]]]; done. Qed.

(** A part that leaves the pools and the callers as they are. *)
Lemma inv_sets w m : inv w → m.(dbs) = w.(mgr).(dbs) → m.(dbtc) = w.(mgr).(dbtc) → m.(pending) = w.(mgr).(pending) →
  (∀ d, d ∈ m.(monitored) ∨ d ∈ default ∅ m.(scheduled) ∨ d = m.(statementsDB) ∧ d ≠ "" → eligible d) → inv (set_mgr m w).
Proof. intros [] E1 E2 E3 Hs. split; cbn; rewrite ?E1, ?E3; try done. unfold keys_ok. by rewrite E1, E2. Qed.

Lemma select_eligible rows db : db ∈ selectDatabases rows opts → eligible db.(db_Name).
Proof.
  intros Hdb. assert (∃ r, db_Name db = row_name r ∧ r ∈ filter (λ d, included opts (row_name d) = true) (filter (λ d, excluded opts (row_name d) = false) rows)) as (r & -> & Hr).
  { unfold selectDatabases in Hdb. destruct (_ <=? _) in Hdb.
    - apply list_elem_of_fmap in Hdb as (r & -> & Hr). exists r. split; [done|]. by apply elem_of_sort_slice in Hr.
    - apply elem_of_lookup_imap in Hdb as (i & r & -> & Hr%list_elem_of_lookup_2). exists r. split; [by destruct (_ <? _)|]. by apply elem_of_sort_slice in Hr. }
  apply list_elem_of_filter in Hr as [? [? _]%list_elem_of_filter]. done.
Qed.

Lemma discover_sets rows w : inv w → inv (set_mgr (Discover opts rows w.(mgr)).2 w).
Proof.
  intros Hw. destruct rows as [e|rows]; [by apply inv_sets; try done; apply Hw|]. apply inv_sets; [done..|]. cbn.
  assert (∀ d, d ∈ selected_names (selectDatabases rows opts) → eligible d) as Hsel.
  { intros d. unfold selected_names. rewrite elem_of_list_to_set, list_elem_of_fmap. intros (db & -> & [_ Hdb]%list_elem_of_filter). by eapply select_eligible. }
  intros d [Hd|[Hd|Hd]]; [by apply Hsel| |by apply Hw; auto]. destruct (scheduled (mgr w)) eqn:E; cbn in Hd; [|by apply Hsel]. apply Hw. right; left. by rewrite E.
Qed.

Lemma locate_where answer l found where_ unchecked : (where_ = "" ∨ eligible where_) → (∀ db, db ∈ l → eligible db.(db_Name)) →
  let '(_, w, _) := locate answer found where_ unchecked l in w = "" ∨ eligible w.
Proof.
  revert found where_ unchecked. induction l as [|db l IH]; intros found where_ unchecked Hw Hl; [done|]. cbn. destruct found; [done|].
  assert (∀ db, db ∈ l → eligible db.(db_Name)) by (intros; apply Hl; by right).
  destruct (negb _); [by apply IH|]. destruct (answer _) as [|[]]; apply IH; try done. right. apply Hl. left.
Qed.

Lemma locate_sets has answer l w : inv w → (∀ db, db ∈ l → eligible db.(db_Name)) → inv (set_mgr (LocateStatements has answer l w.(mgr)).2 w).
Proof.
  intros Hw Hl. unfold LocateStatements. pose proof (locate_where answer l has "" None (or_introl eq_refl) Hl) as Hwhere.
  destruct (locate _ _ _ _ _) as [[found where_] unchecked]. set (m := if _ || _ then _ else _).
  assert (inv (set_mgr m w)); [|by destruct found]. unfold m. destruct (_ || _); [|by apply inv_sets; try done; apply Hw].
  apply inv_sets; [done..|]. cbn. intros d [?|[?|[-> ?]]]; [apply Hw; auto..|]. by destruct Hwhere.
Qed.

(** *** Opening *)

Lemma filter_pos {A} (P : A → Prop) `{!∀ x, Decision (P x)} (l : list A) x : x ∈ l → P x → length (filter P l) ≠ 0%nat.
Proof. intros Hx HP Hn%length_zero_iff_nil. apply (not_elem_of_nil x). rewrite <- Hn. by apply list_elem_of_filter. Qed.

Lemma inv_evict w m gone : inv w → evicts (acquired w) w.(mgr) m gone →
  inv (mkWorld m w.(callers) w.(next_id) (w.(closed_pools) ++ gone) w.(crashed)).
Proof.
  intros Hw [Ekeys Esame Esub Egone Ekept]. split; cbn.
  - apply Hw.
  - done.
  - intros k p Hp. destruct (iv_pool w Hw k p) as (? & ? & ?); [by eapply lookup_weaken|]. split_and!; [done|lia|done].
  - rewrite Esame. cbn. apply Hw.
  - intros c d p Hc Hd. destruct (Ekept d p) as [?|[Hz _]]; [by eapply (iv_waits w Hw)|done|]. rewrite (iv_pending w Hw) in Hz.
    exfalso. eapply filter_pos; [exact Hc| |exact Hz]. destruct Hd as [->|[ok ->]]; done.
  - intros c p Hc Hh. pose proof (iv_holds w Hw c p Hc Hh) as Hp. destruct (Ekept _ p Hp) as [?|(_ & q & Hq & Hz)]; [done|].
    assert (q = p) as -> by congruence. exfalso. by eapply (filter_pos (holds p)).
  - intros p [Hp|Hp]%elem_of_app.
    + destruct (iv_closed w Hw p Hp) as [Hid Hno]. split; [lia|]. intros k Hk. apply (Hno k). by eapply lookup_weaken.
    + destruct (Egone p Hp) as (k & Hk & Hk' & _). destruct (iv_pool w Hw k p Hk) as (Hdb & Hid & _). split; [lia|]. intros k' Hk''.
      destruct (iv_pool w Hw k' p) as (Hdb' & _); [by eapply lookup_weaken|]. assert (k' = k) as -> by congruence. congruence.
  - intros d Hd. apply Hw. rewrite Esame in Hd. done.
Qed.

Lemma inv_bump w : inv w → inv (mkWorld w.(mgr) w.(callers) (S w.(next_id)) w.(closed_pools) w.(crashed)).
Proof.
  intros Hw. split; cbn; try apply Hw.
  - intros k p Hp. destruct (iv_pool w Hw k p Hp) as (? & ? & ?). split_and!; [done|lia|done].
  - intros p Hp. destruct (iv_closed w Hw p Hp) as [? ?]. split; [lia|done].
Qed.

Lemma inv_touch w datname p now : inv w → datname ≠ "" →
  w.(mgr).(dbs) !! datname = Some p ∨ w.(mgr).(dbs) !! datname = None ∧ p = new_pool opts w.(next_id) datname ∧ (datname = ownDB ∨ eligible datname) →
  inv (mkWorld (set_pending (<[datname := S (default 0%nat (w.(mgr).(pending) !! datname))]> w.(mgr).(pending))
      (set_pools (<[datname := p]> w.(mgr).(dbs)) (<[datname := now]> w.(mgr).(dbtc)) w.(mgr)))
    (w.(callers) ++ [Waiting datname p]) (S w.(next_id)) w.(closed_pools) w.(crashed)).
Proof.
  intros Hw Hne Hp. split; cbn.
  - apply Hw.
  - intros k. cbn. destruct (decide (k = datname)) as [->|?]; [rewrite !lookup_insert_eq; by split|]. rewrite !lookup_insert_ne by done. apply Hw.
  - intros k q. destruct (decide (k = datname)) as [->|?].
    + rewrite lookup_insert_eq. intros [= ->]. destruct Hp as [Hp|(_ & -> & Hel)]; [destruct (iv_pool w Hw datname q Hp) as (? & ? & ?); split_and!; [done|lia|done]|]. cbn. split_and!; [done|lia|done].
    + rewrite lookup_insert_ne by done. intros Hq. destruct (iv_pool w Hw k q Hq) as (? & ? & ?). split_and!; [done|lia|done].
  - intros k. rewrite filter_app, length_app, <- (iv_pending w Hw k), filter_cons, filter_nil. cbn. destruct (decide (datname = k)) as [->|?].
    + rewrite lookup_insert_eq. cbn. lia.
    + rewrite lookup_insert_ne by done. cbn. lia.
  - intros c d q [Hc| ->%list_elem_of_singleton]%elem_of_app Hd.
    + pose proof (iv_waits w Hw c d q Hc Hd) as Hq. destruct (decide (d = datname)) as [->|?]; [|by rewrite lookup_insert_ne]. rewrite lookup_insert_eq. destruct Hp as [?|[? _]]; congruence.
    + destruct Hd as [[= -> ->]|[? [=]]]. by rewrite lookup_insert_eq.
  - intros c q [Hc| ->%list_elem_of_singleton]%elem_of_app Hh; [|done]. pose proof (iv_holds w Hw c q Hc Hh) as Hq.
    destruct (decide (p_Database q = datname)) as [Hd|?]; [|by rewrite lookup_insert_ne]. rewrite Hd in Hq. rewrite Hd, lookup_insert_eq. destruct Hp as [?|[? _]]; congruence.
  - intros q Hq. destruct (iv_closed w Hw q Hq) as [Hid Hno]. split; [lia|]. intros k Hk. destruct (decide (k = datname)) as [->|?]; [|rewrite lookup_insert_ne in Hk by done; by apply (Hno k)].
    rewrite lookup_insert_eq in Hk. injection Hk as ->. destruct Hp as [Hp|(_ & -> & _)]; [by apply (Hno datname)|]. cbn in Hid. lia.
  - apply Hw.
Qed.

Context `{!RangeOrderLaws}.

Lemma inv_open create now datname w : inv w → datname ≠ "" → datname = ownDB ∨ eligible datname → inv (open_ create now datname w).
Proof.
  intros Hw Hne Hel. unfold open_, pick. destruct (dbs (mgr w) !! datname) as [p|] eqn:Hp.
  { pose proof (inv_touch w datname p now Hw Hne (or_introl Hp)) as Ht. rewrite (insert_id (dbs (mgr w))) in Ht by done. by rewrite app_nil_r. }
  destruct (evict_spec (S (size (dbs (mgr w)))) (acquired w) (mgr w) [] (iv_keys w Hw) ltac:(lia)) as (m & gone & -> & Hev & _). cbn [mbind option_bind app].
  pose proof (inv_evict w m gone Hw Hev) as He. destruct create as [e|]; [by apply inv_bump in He|]. destruct Hev as [_ _ Hsub _ _].
  assert (dbs m !! datname = None) as Hn by (eapply lookup_weaken_None; [exact Hp|exact Hsub]).
  eapply (inv_touch (mkWorld m w.(callers) w.(next_id) (w.(closed_pools) ++ gone) w.(crashed)) datname); [exact He|done|by right].
Qed.

(** *** The callers' own steps *)

Lemma filter_insert_length {A} (P : A → Prop) `{!∀ x, Decision (P x)} (l : list A) i c c' : l !! i = Some c →
  (length (filter P (<[i := c']> l)) + (if decide (P c) then 1 else 0) = length (filter P l) + (if decide (P c') then 1 else 0))%nat.
Proof.
  revert i. induction l as [|x l IH]; intros [|i]; [done..| |]; cbn [lookup list_lookup].
  - intros [= ->]. change (<[0%nat := c']> (c :: l)) with (c' :: l). rewrite !filter_cons. destruct (decide (P c)), (decide (P c')); cbn; lia.
  - intros Hi. specialize (IH i Hi). change (<[S i := c']> (x :: l)) with (x :: <[i := c']> l). rewrite !filter_cons. destruct (decide (P x)); cbn; lia.
Qed.

Lemma inv_caller w m i c c' : inv w → w.(callers) !! i = Some c → m = set_pending m.(pending) w.(mgr) →
  (∀ k, default 0%nat (m.(pending) !! k) + (if decide (waits k c) then 1 else 0) = default 0%nat (w.(mgr).(pending) !! k) + (if decide (waits k c') then 1 else 0))%nat →
  (∀ d p, c' = Waiting d p ∨ (∃ ok, c' = Answered d p ok) → w.(mgr).(dbs) !! d = Some p) →
  (∀ p, holds p c' → w.(mgr).(dbs) !! p.(p_Database) = Some p) → inv (set_caller i c' (set_mgr m w)).
Proof.
  intros Hw Hi Hm Hpend Hd Hh.
  assert (∀ x, x ∈ <[i := c']> (callers w) → x = c' ∨ x ∈ callers w) as Hin.
  { intros x [j Hj]%list_elem_of_lookup. destruct (decide (j = i)) as [->|?].
    - rewrite list_lookup_insert_eq in Hj by by eapply lookup_lt_Some. injection Hj as <-. by left.
    - rewrite list_lookup_insert_ne in Hj by done. right. by eapply list_elem_of_lookup_2. }
  split; cbn.
  - apply Hw.
  - rewrite Hm. apply Hw.
  - rewrite Hm. apply Hw.
  - intros k. pose proof (filter_insert_length (waits k) (callers w) i c c' Hi) as Hl. specialize (Hpend k). pose proof (iv_pending w Hw k). lia.
  - rewrite Hm. intros x d p [->|Hx]%Hin; [apply Hd|by apply (iv_waits w Hw)].
  - rewrite Hm. intros x p [->|Hx]%Hin; [apply Hh|by apply (iv_holds w Hw)].
  - rewrite Hm. apply Hw.
  - rewrite Hm. apply Hw.
Qed.

Lemma insert_mgr w : set_mgr w.(mgr) w = w.
Proof. by destruct w. Qed.

Lemma settle_pending d m k : (default 0%nat ((settle d m).(pending) !! k) = if decide (k = d) then Nat.pred (default 0%nat (m.(pending) !! k)) else default 0%nat (m.(pending) !! k))%nat.
Proof.
  unfold settle. case_bool_decide as E; cbn; destruct (decide (k = d)) as [->|?].
  - by rewrite lookup_delete_eq.
  - by rewrite lookup_delete_ne.
  - by rewrite lookup_insert_eq.
  - by rewrite lookup_insert_ne.
Qed.

Lemma waits_pending w i c d : inv w → w.(callers) !! i = Some c → waits d c → default 0%nat (w.(mgr).(pending) !! d) ≠ 0%nat.
Proof. intros Hw Hi Hc. rewrite (iv_pending w Hw). eapply filter_pos; [by eapply list_elem_of_lookup_2|done]. Qed.

Lemma inv_step l w w' : inv w → lawful l → step l w = Some w' → inv w'.
Proof.
  intros Hw Hl. destruct l as [rows|names|has answer dl|datname rows create now|datname create now|datname create now|i ok|i|i ok|i]; cbn [step lawful] in *.
  - intros [= <-]. by apply discover_sets.
  - intros [= <-]. apply inv_sets; [done..|]. cbn. intros d [?|[?|?]]; [by apply Hw; auto|by apply Hl|by apply Hw; auto].
  - intros [= <-]. by apply locate_sets.
  - unfold ConnFor, requireMonitored. case_bool_decide as Hne; [intros [= <-]; by destruct w|].
    assert (∀ u, inv u → isMonitored ownDB datname (mgr u) = true → inv (open_ create now datname u)) as Hopen.
    { intros u Hu Hmon. apply inv_open; [done..|]. apply orb_true_iff in Hmon as [?%bool_decide_eq_true|?%bool_decide_eq_true]; [by left|right]. apply Hu. by left. }
    destruct (isMonitored ownDB datname (mgr w)) eqn:Hmon; [intros [= <-]; destruct w; by apply Hopen|].
    pose proof (discover_sets rows w Hw) as Hd. destruct (Discover opts rows (mgr w)) as [[e|sel] m] eqn:E; cbn in Hd.
    + by intros [= <-].
    + destruct (isMonitored ownDB datname m) eqn:Hm; intros [= <-]; [by apply Hopen|done].
  - unfold ScheduledConnFor. case_bool_decide as Hne; [by intros [= <-]|]. destruct (isScheduled ownDB datname (mgr w)) eqn:Hs; [|by intros [= <-]].
    intros [= <-]. apply inv_open; [done..|]. apply orb_true_iff in Hs as [[?%bool_decide_eq_true|Hst%bool_decide_eq_true]%orb_true_iff|?%bool_decide_eq_true]; [by left|right; apply Hw; auto..].
  - intros [= <-]. destruct Hl. by apply inv_open; auto.
  - destruct (callers w !! i) as [[d p| | | |]|] eqn:Hi; try done. intros [= <-].
    pose proof (iv_waits w Hw _ d p (list_elem_of_lookup_2 _ _ _ Hi) (or_introl eq_refl)) as Hp. rewrite <- (insert_mgr w). eapply inv_caller; [done..|by destruct (mgr w)| | |].
    + done.
    + by intros d' p' [|[? [= <- <- <-]]].
    + intros q Hq. destruct ok; [|done]. cbn in Hq. subst q. by rewrite (proj1 (iv_pool w Hw d p Hp)).
  - destruct (callers w !! i) as [[|d p ok| | |]|] eqn:Hi; try done. intros [= <-].
    pose proof (iv_waits w Hw _ d p (list_elem_of_lookup_2 _ _ _ Hi) (or_intror (ex_intro _ ok eq_refl))) as Hp.
    pose proof (waits_pending w i _ d Hw Hi eq_refl) as Hpos. eapply inv_caller; [done..| | | |].
    + by destruct w as [[]].
    + intros k. rewrite settle_pending. destruct (decide (waits k (Answered d p ok))) as [Hk|Hk]; cbn in Hk; [subst k; rewrite decide_True by done|rewrite decide_False by done]; destruct (decide (waits _ (if ok then _ else _))) as [Hk'|_]; [by destruct ok|lia|by destruct ok|lia].
    + by destruct ok; intros d' p' [|[? ?]].
    + intros q Hq. destruct ok; [|done]. cbn in Hq. subst q. by rewrite (proj1 (iv_pool w Hw d p Hp)).
  - destruct (callers w !! i) as [[| |p| |]|] eqn:Hi; try done. intros [= <-].
    pose proof (iv_holds w Hw _ p (list_elem_of_lookup_2 _ _ _ Hi) eq_refl) as Hp. rewrite <- (insert_mgr w). eapply inv_caller; [done..|by destruct (mgr w)| | |].
    + by destruct ok.
    + by destruct ok; intros d' p' [|[? ?]].
    + intros q Hq. destruct ok; [|done]. cbn in Hq. by subst q.
  - destruct (callers w !! i) as [[| | |p|]|] eqn:Hi; try done. intros [= <-].
    rewrite <- (insert_mgr w). eapply inv_caller; [done..|by destruct (mgr w)|done|by intros d' p' [|[? ?]]|done].
Qed.

(** *** Pools *)

Lemma reach_inv w : reach w → inv w.
Proof. induction 1 as [|l w w' _ IH Hl Hs]; [apply inv_start|by eapply inv_step]. Qed.

(** A caller that waits for a pool or has a connection of it. *)
Definition uses (p : pool) (c : caller) : Prop :=
  match c with Waiting _ q | Answered _ q _ | Limiting q | Holding q => q = p | Over => False end.

Lemma uses_open w p c : inv w → c ∈ w.(callers) → uses p c → ∃ k, w.(mgr).(dbs) !! k = Some p.
Proof.
  intros Hw Hc Hu. destruct c as [d q|d q ok|q|q|]; cbn in Hu; subst; [eexists; by eapply (iv_waits w Hw); eauto..| | |done];
    eexists; by eapply (iv_holds w Hw).
Qed.

Lemma not_unused w k p : inv w → w.(mgr).(dbs) !! k = Some p → ¬ unused (acquired w) w.(mgr) k → ∃ c, c ∈ w.(callers) ∧ uses p c.
Proof.
  intros Hw Hp Hu. destruct (decide (length (filter (waits k) (callers w)) = 0%nat)) as [Hz|Hz].
  - destruct (decide (acquired w p = 0%nat)) as [Ha|Ha].
    + exfalso. apply Hu. split; [by rewrite (iv_pending w Hw)|by exists p].
    + destruct (filter (holds p) (callers w)) as [|c l] eqn:E; [by unfold acquired in Ha; rewrite E in Ha|].
      assert (c ∈ filter (holds p) (callers w)) as [Hh Hc]%list_elem_of_filter by (rewrite E; left). exists c. split; [done|]. by destruct c as [|? ? []| | |].
  - destruct (filter (waits k) (callers w)) as [|c l] eqn:E; [done|].
    assert (c ∈ filter (waits k) (callers w)) as [Hk Hc]%list_elem_of_filter by (rewrite E; left). exists c. split; [done|].
    destruct c as [d q|d q ok| | |]; cbn in Hk; try done; subst d; cbn; assert (dbs (mgr w) !! k = Some q) by (eapply (iv_waits w Hw); eauto); congruence.
Qed.

Lemma open_bound w now d : inv w → w.(mgr).(dbs) !! d = None →
  let w' := open_ None now d w in
  Z.of_nat (size w'.(mgr).(dbs)) ≤ Z.max 1 opts.(MaxDatabases) ∨
  ∀ k p, w'.(mgr).(dbs) !! k = Some p → k ≠ d → ∃ c, c ∈ w.(callers) ∧ uses p c.
Proof.
  intros Hw Hd. unfold open_, pick. rewrite Hd.
  destruct (evict_spec (S (size (dbs (mgr w)))) (acquired w) (mgr w) [] (iv_keys w Hw) ltac:(lia)) as (m & gone & -> & Hev & Hb). cbn -[Z.max].
  pose proof (inv_evict w m gone Hw Hev) as He. destruct Hev as [_ Hsame Hsub _ _]. destruct Hb as [Hb|Hb]; [left|right].
  - rewrite map_size_insert_None by by eapply lookup_weaken_None. lia.
  - intros k p Hk Hne. rewrite lookup_insert_ne in Hk by done. apply (not_unused _ k p He Hk). cbn. apply Hb. by eexists.
Qed.

(** C32: Over any history of discoveries, schedules, commands and checks, with callers waiting for,
    holding and returning connections in any order: no lookup of a pool panics; every pool is
    one of its own database, which is the DSN's or one that the options allow, in particular
    none that an exclude pattern matches; no pool is closed that a caller waits for or holds a
    connection of; and a pool is opened beyond the limit only when every other is in use. *)
Theorem pools_safe w : reach w →
  w.(crashed) = false ∧
  (∀ k p, w.(mgr).(dbs) !! k = Some p → p.(p_Database) = k ∧ (k = ownDB ∨ eligible k)) ∧
  (∀ p c, p ∈ w.(closed_pools) → c ∈ w.(callers) → ¬ uses p c) ∧
  (∀ now d, w.(mgr).(dbs) !! d = None →
     let w' := open_ None now d w in
     Z.of_nat (size w'.(mgr).(dbs)) ≤ Z.max 1 opts.(MaxDatabases) ∨
     ∀ k p, w'.(mgr).(dbs) !! k = Some p → k ≠ d → ∃ c, c ∈ w.(callers) ∧ uses p c).
Proof.
  intros Hw%reach_inv. split_and!.
  - apply Hw.
  - intros k p Hp. destruct (iv_pool w Hw k p Hp) as (? & _ & ?). done.
  - intros p c Hp Hc Hu. destruct (uses_open w p c Hw Hc Hu) as [k Hk]. by apply (proj2 (iv_closed w Hw p Hp) k).
  - intros now d Hd. by apply open_bound.
Qed.
End histories.

(** ** The selection *)

Section selection.
Context `{Regexp} (opts : ConnOptions).

(** The rows the patterns let through, busiest first. *)
Definition ranked_rows (rows : list dbRow) : list dbRow :=
  sort_slice busier (filter (λ db, included opts db.(row_name) = true) (filter (λ db, excluded opts db.(row_name) = false) rows)).

Definition verdict (i : nat) (db : dbRow) : WDatabase :=
  if Z.of_nat i <? opts.(MaxDatabases) then mkWDatabase db.(row_name) true "" else mkWDatabase db.(row_name) false "db_budget".

Lemma select_ranked rows : selectDatabases rows opts = imap verdict (ranked_rows rows).
Proof.
  unfold selectDatabases. fold (ranked_rows rows). destruct (Z.leb_spec (Z.of_nat (length (ranked_rows rows))) (MaxDatabases opts)) as [Hle|]; [|done].
  rewrite <- imap_const. apply imap_ext. intros i db Hi%lookup_lt_Some. unfold verdict. destruct (Z.ltb_spec (Z.of_nat i) (MaxDatabases opts)); [done|lia].
Qed.

Lemma elem_of_ranked rows r : r ∈ ranked_rows rows ↔ r ∈ rows ∧ eligible opts r.(row_name).
Proof. unfold ranked_rows, eligible. rewrite elem_of_sort_slice, !list_elem_of_filter. tauto. Qed.

Lemma ranked_sorted rows : StronglySorted (not_after busier) (ranked_rows rows).
Proof. apply (sort_slice_sorted busier (λ _, True)). by apply Forall_true. Qed.

Lemma sorted_lookup {A} (R : A → A → Prop) l i j a b : StronglySorted R l → (i < j)%nat → l !! i = Some a → l !! j = Some b → R a b.
Proof.
  intros Hs. revert i j. induction Hs as [|x l _ IH Hx]; intros i j Hij; [done|]. destruct j as [|j]; [lia|]. destruct i as [|i]; cbn.
  - intros [= <-] Hb%list_elem_of_lookup_2. by eapply Forall_forall in Hb.
  - apply IH. lia.
Qed.

Lemma names_inj rows x y : NoDup (row_name <$> rows) → x ∈ rows → y ∈ rows → row_name x = row_name y → x = y.
Proof.
  intros Hn [i Hi]%list_elem_of_lookup [j Hj]%list_elem_of_lookup E. assert (i = j) as ->; [|congruence].
  eapply NoDup_lookup; [exact Hn|by rewrite list_lookup_fmap, Hi|by rewrite list_lookup_fmap, Hj, E].
Qed.

(** Of the databases PostgreSQL lists, in whatever order, the ones the patterns let through are
    reported, each once, busiest first; those within the budget are monitored and the others
    carry its reason. *)
Theorem selection_exact rows : NoDup (row_name <$> rows) →
  let l := selectDatabases rows opts in
  (∀ n, n ∈ db_Name <$> l ↔ n ∈ row_name <$> rows ∧ eligible opts n) ∧
  (∀ i db, l !! i = Some db → ∃ r, r ∈ rows ∧ db = verdict i r) ∧
  (∀ i j a b, (i < j)%nat → db_Name <$> l !! i = Some (row_name a) → db_Name <$> l !! j = Some (row_name b) → a ∈ rows → b ∈ rows → busier a b = true) ∧
  (∀ rows', rows' ≡ₚ rows → selectDatabases rows' opts = l).
Proof.
  intros Hnd. cbn zeta. rewrite select_ranked.
  assert (∀ i n, db_Name <$> imap verdict (ranked_rows rows) !! i = Some n ↔ row_name <$> ranked_rows rows !! i = Some n) as Hname.
  { intros i n. rewrite list_lookup_imap. destruct (ranked_rows rows !! i); [|done]. cbn. unfold verdict. by destruct (_ <? _). }
  split_and!.
  - intros n. transitivity (∃ i, db_Name <$> imap verdict (ranked_rows rows) !! i = Some n).
    { rewrite list_elem_of_lookup. by setoid_rewrite list_lookup_fmap. }
    setoid_rewrite Hname. rewrite list_elem_of_fmap. split.
    + intros [i Hi]. destruct (ranked_rows rows !! i) as [r|] eqn:E; [|done]. injection Hi as <-. apply list_elem_of_lookup_2, elem_of_ranked in E as [? ?]. split; [by exists r|done].
    + intros [(r & -> & Hr) He]. assert (r ∈ ranked_rows rows) as [i Hi]%list_elem_of_lookup by by apply elem_of_ranked. exists i. by rewrite Hi.
  - intros i db. rewrite list_lookup_imap. destruct (ranked_rows rows !! i) as [r|] eqn:E; [|done]. intros [= <-]. exists r. split; [|done]. apply list_elem_of_lookup_2, elem_of_ranked in E as [? _]. done.
  - intros i j a b Hij Ha Hb Har Hbr. rewrite Hname in Ha, Hb. destruct (ranked_rows rows !! i) as [ra|] eqn:Ei; [|done]. destruct (ranked_rows rows !! j) as [rb|] eqn:Ej; [|done].
    injection Ha as Ha. injection Hb as Hb. assert (ra ∈ rows) by by apply list_elem_of_lookup_2, elem_of_ranked in Ei as [? _]. assert (rb ∈ rows) by by apply list_elem_of_lookup_2, elem_of_ranked in Ej as [? _].
    assert (ra = a) as -> by by eapply names_inj. assert (rb = b) as -> by by eapply names_inj.
    pose proof (sorted_lookup (not_after busier) (ranked_rows rows) i j a b (ranked_sorted rows) Hij Ei Ej) as Hs. unfold not_after in Hs.
    destruct (tot_cases (less:=busier) a b) as [?|[(_ & E & _)|?]]; [done| |congruence].
    exfalso. assert (i = j); [|lia]. assert (a = b) as -> by by eapply names_inj. eapply NoDup_lookup; [|exact Ei|exact Ej].
    unfold ranked_rows. rewrite sort_slice_perm. by do 2 apply NoDup_filter; apply NoDup_fmap_1 in Hnd.
  - intros rows' Hp. rewrite select_ranked. f_equal. unfold ranked_rows. apply (sort_slice_unique busier (λ _, True)); [by apply Forall_true| | |].
    + intros x y [_ [_ Hx]%list_elem_of_filter]%list_elem_of_filter [_ [_ Hy]%list_elem_of_filter]%list_elem_of_filter Hxy Hyx. destruct (total_not_after_antisym busier _ x y Hxy Hyx) as (_ & E & _). by eapply names_inj.
    + rewrite sort_slice_perm. by rewrite Hp.
    + apply ranked_sorted.
Qed.
End selection.

(** ** What is remembered *)

Inductive cache_op :=
| OAccess (a : init_answers)
| ORefreshCapabilities (a : init_answers) (shared : option string) (g : grants)
| ORefreshRole (recovery : string + bool).

Section memory.
Context `{Regexp} (opts : ConnOptions) (name : string).

Definition cache_step (c : cache) (op : cache_op) : cache :=
  match op with
  | OAccess a => (ensureCache opts name a c).2
  | ORefreshCapabilities a shared g => (RefreshCapabilities opts name a shared g c).2
  | ORefreshRole recovery => (RefreshRole recovery c).2
  end.

(** What a first read would establish: the version and the identity of the cluster. *)
Definition first_read (op : cache_op) : option (Z * (ClusterID * string)) :=
  match op with
  | OAccess a | ORefreshCapabilities a _ _ =>
      match a.(i_shared), a.(i_version), a.(i_recovery), queryClusterIdentity a.(i_system) (fallbackClusterName opts name), a.(i_local) with
      | None, inr v, inr _, inr id, None => Some (v, id)
      | _, _, _, _, _ => None
      end
  | ORefreshRole _ => None
  end.

Definition capabilities_read (op : cache_op) : option (Z * gset string) :=
  match op with ORefreshCapabilities _ None g => match queryCapabilities g with inr r => Some r | inl _ => None end | _ => None end.
Definition role_read (op : cache_op) : option Role :=
  match op with ORefreshRole (inr b) => Some (RoleFromRecovery b) | _ => None end.

Definition identity (c : cache) : Z * (ClusterID * string) := (c.(c_pgVersion), (c.(c_clusterID), c.(c_idSource))).
Definition capabilities (c : cache) : Z * gset string := (c.(c_permTier), c.(c_extensions)).

Lemma known_step c op : c.(initialized) = true →
  let c' := cache_step c op in
  c'.(initialized) = true ∧ identity c' = identity c ∧
  capabilities c' = default (capabilities c) (capabilities_read op) ∧ c'.(c_role) = default c.(c_role) (role_read op).
Proof.
  intros Hi. destruct op as [a|a shared g|[e|b]]; cbn; unfold RefreshCapabilities, ensureCache; rewrite ?Hi; [done| |done..].
  destruct shared; [done|]. unfold refreshCapabilities. by destruct (queryCapabilities g) as [|[]].
Qed.

Lemma unknown_step c op : c.(initialized) = false →
  let c' := cache_step c op in
  match first_read op with Some id => c'.(initialized) = true ∧ identity c' = id | None => c'.(initialized) = false end.
Proof.
  intros Hi. destruct op as [a|a shared g|[e|b]]; cbn; try done; unfold RefreshCapabilities, ensureCache; rewrite Hi.
  all: destruct (i_shared a); [done|]; destruct (i_version a); [done|]; destruct (i_recovery a); [done|].
  all: destruct (queryClusterIdentity _ _) as [|[]]; [done|]; destruct (match queryCapabilities (i_grants a) with inl _ => _ | inr r => r end); destruct (i_local a); try done.
  cbn. destruct shared; [done|]. unfold refreshCapabilities. by destruct (queryCapabilities g) as [|[]].
Qed.

Lemma last_default {A} (x : A) o l : default (default x o) (last l) = default x (last (match o with Some y => y :: l | None => l end)).
Proof. destruct o; [|done]. rewrite last_cons. by destruct (last l). Qed.

Lemma known_run ops c : c.(initialized) = true →
  let c' := foldl cache_step c ops in
  c'.(initialized) = true ∧ identity c' = identity c ∧
  capabilities c' = default (capabilities c) (last (omap capabilities_read ops)) ∧ c'.(c_role) = default c.(c_role) (last (omap role_read ops)).
Proof.
  revert c. induction ops as [|op ops IH]; intros c Hi; [done|]. destruct (known_step c op Hi) as (Hi' & Hid & Hc & Hr).
  destruct (IH _ Hi') as (? & Hid' & Hc' & Hr'). cbn [foldl omap list_omap]. split_and!; [done|congruence| |].
  - by rewrite Hc', Hc, last_default.
  - by rewrite Hr', Hr, last_default.
Qed.

(** Whatever is asked and however PostgreSQL answers, the cache is unset until one operation
    reads everything a target's identity needs. From then on the version and the cluster's
    identifier are what that operation read, for the life of the process: a later denial or
    grant never moves the target to another cluster. The permissions and the role are those of
    the last read that succeeded; a failed one changes nothing. *)
Theorem identity_decided_once ops :
  let c := foldl cache_step no_cache ops in
  (c.(initialized) = true ↔ omap first_read ops ≠ []) ∧
  (∀ id, head (omap first_read ops) = Some id → identity c = id) ∧
  (c.(initialized) = true → ∀ later, let c' := foldl cache_step c later in
     c'.(initialized) = true ∧ identity c' = identity c ∧
     capabilities c' = default (capabilities c) (last (omap capabilities_read later)) ∧
     c'.(c_role) = default c.(c_role) (last (omap role_read later))).
Proof.
  cbn zeta. assert (no_cache.(initialized) = false) as Hn by done. revert Hn. generalize no_cache as c0. induction ops as [|op ops IH]; intros c0 Hn.
  - cbn. rewrite Hn. split_and!; [split; [done|by intros []]|done|done].
  - cbn [foldl omap list_omap]. pose proof (unknown_step c0 op Hn) as Hs. destruct (first_read op) as [id|].
    + destruct Hs as [Hi Hid]. destruct (known_run ops _ Hi) as (Hi' & Hid' & _). split; [by rewrite Hi'|]. split; [cbn; intros ? [= <-]; congruence|intros _ later; by apply known_run].
    + by apply IH.
Qed.
End memory.

(** ** Examples *)
Module Target_.
#[local] Instance literal : Regexp := {| regexp := string; Compile := Some; MatchString := String.eqb |}.
#[local] Instance in_order : RangeOrder := λ K V _ _ m, map_to_list m.
#[local] Instance in_order_laws : RangeOrderLaws.
Proof. by split. Qed.

Definition options : ConnOptions := mkConnOptions 4 2 (5 * Minute) [] ["rdsadmin"] "".
Definition rows : list dbRow := [mkDbRow "app" 10; mkDbRow "shop" 40; mkDbRow "rdsadmin" 90; mkDbRow "idle" 10].

Definition exec : list label → world → option world := fix exec ls w :=
  match ls with [] => Some w | l :: ls => w' ← step options "postgres" l w; exec ls w' end.

Lemma exec_reach ls w w' : Forall (lawful options) ls → reach options "postgres" w → exec ls w = Some w' → reach options "postgres" w'.
Proof.
  intros Hl. revert w. induction Hl as [|l ls Hl _ IH]; intros w Hw; cbn; [by intros [= <-]|].
  destruct (step options "postgres" l w) as [w1|] eqn:E; [|done]. cbn. apply IH. by eapply reach_step.
Qed.

(** Two pools are in use when a third database is asked for; then one is idle. A command for
    the excluded database is refused. *)
Definition history : list label :=
  [LDiscover (inr rows); LCheck "shop" None 1; LCheck "app" None 2; LAcquire 0 true; LSettle 0; LLimits 0 true;
   LCheck "postgres" None 3; LCommand "rdsadmin" (inr rows) None 4; LRelease 0; LCommand "idle" (inr (mkDbRow "idle" 99 :: take 3 rows)) None 5].

Definition final : world := default start (exec history start).

Lemma history_runs : exec history start = Some final.
Proof. unfold final. destruct (exec history start) as [w|] eqn:E; [done|]. vm_compute in E. discriminate E. Qed.

Example shop_evicted : (map_to_list final.(mgr).(dbs)).*1 = ["idle"; "app"; "postgres"] ∧ p_Database <$> final.(closed_pools) = ["shop"].
Proof. vm_compute. auto. Qed.

Lemma pools_safe_witness : final.(crashed) = false ∧ final.(closed_pools) ≠ [] ∧ (∀ p c, p ∈ final.(closed_pools) → c ∈ final.(callers) → ¬ uses p c).
Proof.
  assert (reach options "postgres" final) as Hr by (apply (exec_reach history start final); [unfold history; rewrite !Forall_cons; by split_and!; [..|apply Forall_nil]|constructor|apply history_runs]).
  destruct (pools_safe options "postgres" final Hr) as (H1 & _ & H3 & _). split; [exact H1|]. split; [by vm_compute|exact H3].
Defined.

Lemma selection_exact_witness : NoDup (row_name <$> rows) ∧ (∀ rows', rows' ≡ₚ rows → selectDatabases rows' options =
  [mkWDatabase "shop" true ""; mkWDatabase "app" true ""; mkWDatabase "idle" false "db_budget"]).
Proof.
  assert (NoDup (row_name <$> rows)) as Hn by by apply (bool_decide_unpack _). split; [exact Hn|].
  destruct (selection_exact options rows Hn) as (_ & _ & _ & Hp). intros rows' Hr. rewrite (Hp rows' Hr). reflexivity.
Defined.

Definition read_all : init_answers := mkInitAnswers None (inr 160004) (inr false) (inr 7001) (mkGrants (inr true) (inr false) (inr [])) None.
Definition denied : init_answers := mkInitAnswers None (inr 160004) (inr false) (inl (mkDbError "permission denied" true)) (mkGrants (inr true) (inr false) (inr [])) None.

Lemma identity_decided_once_witness :
  let c := foldl (cache_step options "main") no_cache [ORefreshRole (inr true); OAccess denied] in
  c.(initialized) = true ∧ c.(c_idSource) = IDSourceManual ∧ identity (foldl (cache_step options "main") c [OAccess read_all; ORefreshRole (inr false)]) = identity c.
Proof.
  split; [reflexivity|]. split; [reflexivity|].
  destruct (identity_decided_once options "main" [ORefreshRole (inr true); OAccess denied]) as (_ & _ & H). apply (H eq_refl [OAccess read_all; ORefreshRole (inr false)]).
Defined.
End Target_.
