(* ===== verification/Scheduler.v ===== *)
(** * The check scheduler (internal/agent/scheduler.go)

    One goroutine per entry waits for ticks and starts scrapes; a scrape runs in a goroutine of
    its own, holds a worker slot and delivers one result. The goroutines, the channels and the
    wait groups are a labelled transition system: [step] is what each of them may do next, and
    an execution ([exec]) is any sequence of labels. The steps that touch what other goroutines
    see are separate; taking a worker slot, raising the busy flag and launching the scrape are
    one step, since only the loop itself reads the flag and the loop's exit is what [run] waits
    for. A check's answer, the clock and the consumer of the results are labels. *)
From S2P Require Import Prelude GoTime Breaker.

(** ** Entries *)

Record ScheduleEntry := mkScheduleEntry { TargetName : string; CheckName : string; Database : string }.

#[export] Instance ScheduleEntry_eq_dec : EqDecision ScheduleEntry.
Proof. solve_decision. Defined.

#[export] Instance ScheduleEntry_countable : Countable ScheduleEntry.
Proof.
  apply (inj_countable' (λ k, (TargetName k, CheckName k, Database k)) (λ '(t, c, d), mkScheduleEntry t c d)). by intros [].
Defined.

(** [breakerKey] has the same three parts. *)
Definition breakerKey : Type := ScheduleEntry.

(** The target's own name, the check's name and default interval, and what [AddEntry] adds.
    The breaker is the one of [entry_key] in the scheduler's map. *)
Record schedEntry := mkSchedEntry {
  entry_key : breakerKey;
  entry_interval : Duration;
  entry_jitter : Duration;
}.

Record ScheduleOptions := mkScheduleOptions {
  MaxWorkers : Z;
  NoJitter : bool;
  ShutdownTimeout : Duration;
}.

Definition DefaultScheduleOptions (gomaxprocs : Z) : ScheduleOptions :=
  mkScheduleOptions (if 8 <? gomaxprocs then 8 else gomaxprocs) false (10 * Second).

Inductive loop_pc := Jitter | Select | Acquire | LoopDone.

(** The defers of a scrape run after its send: clear the flag, release the slot, leave
    [scrapeWG], leave [wg]. *)
Inductive run_pc := NotStarted | WaitLoops | WaitScrapes | Closing | Leaving | RunDone.

Section scheduler.
Context {Result : Type}. (* check.Result *)

(** What a scrape delivers: its error or its result. *)
Record EntryResult := mkEntryResult { Entry : ScheduleEntry; Outcome : string + Result }.

Inductive scrape_pc := Scraping | Sending (r : EntryResult) | Clearing | Releasing | LeavingScrapes | LeavingAll | Gone.

Record Scheduler := mkScheduler {
  maxWorkers : nat;
  noJitter : bool;
  entries : list schedEntry;
  breakers : gmap breakerKey Breaker;
  running : bool;
  cancelled : bool;
  loops : list loop_pc; (* one per entry, once running *)
  busy : list bool;
  scrapes : list (nat * scrape_pc); (* every scrape started, with its entry *)
  workerSem : nat; (* slots taken *)
  scrapeWG : nat;
  wg : nat;
  results : list EntryResult; (* in the channel's buffer *)
  closed : bool;
  run_at : run_pc;
  panicked : bool;
}.

Definition results_cap : nat := 100.

Definition NewScheduler (opts : ScheduleOptions) : Scheduler :=
  mkScheduler (Z.to_nat opts.(MaxWorkers)) opts.(NoJitter) [] ∅ false false [] [] [] 0 0 0 [] false NotStarted false.

(** ** AddEntry

    [None] is the panic after [Start]. [rnd] is [rand.Int63n]. *)
Definition AddEntryWithInterval (rnd : Z → Z) (key : breakerKey) (defaultInterval : Duration) (interval : Duration)
    (s : Scheduler) : option Scheduler :=
  if s.(running) then None
  else
    let breakers := match s.(breakers) !! key with Some _ => s.(breakers) | None => <[key := NewBreaker]> s.(breakers) end in
    let interval := if interval <=? 0 then defaultInterval else interval in
    let jitter := if negb s.(noJitter) && (0 <? interval) then rnd interval else 0 in
    Some (mkScheduler s.(maxWorkers) s.(noJitter) (s.(entries) ++ [mkSchedEntry key interval jitter]) breakers
      s.(running) s.(cancelled) s.(loops) s.(busy) s.(scrapes) s.(workerSem) s.(scrapeWG) s.(wg) s.(results) s.(closed) s.(run_at) s.(panicked)).

(** ** Updates of one field *)

Definition set_loop (i : nat) (pc : loop_pc) (s : Scheduler) : Scheduler :=
  mkScheduler s.(maxWorkers) s.(noJitter) s.(entries) s.(breakers) s.(running) s.(cancelled) (<[i := pc]> s.(loops)) s.(busy)
    s.(scrapes) s.(workerSem) s.(scrapeWG) s.(wg) s.(results) s.(closed) s.(run_at) s.(panicked).
Definition set_scrape (j i : nat) (pc : scrape_pc) (s : Scheduler) : Scheduler :=
  mkScheduler s.(maxWorkers) s.(noJitter) s.(entries) s.(breakers) s.(running) s.(cancelled) s.(loops) s.(busy)
    (<[j := (i, pc)]> s.(scrapes)) s.(workerSem) s.(scrapeWG) s.(wg) s.(results) s.(closed) s.(run_at) s.(panicked).
Definition set_run (pc : run_pc) (s : Scheduler) : Scheduler :=
  mkScheduler s.(maxWorkers) s.(noJitter) s.(entries) s.(breakers) s.(running) s.(cancelled) s.(loops) s.(busy)
    s.(scrapes) s.(workerSem) s.(scrapeWG) s.(wg) s.(results) s.(closed) pc s.(panicked).
Definition set_results (rs : list EntryResult) (s : Scheduler) : Scheduler :=
  mkScheduler s.(maxWorkers) s.(noJitter) s.(entries) s.(breakers) s.(running) s.(cancelled) s.(loops) s.(busy)
    s.(scrapes) s.(workerSem) s.(scrapeWG) s.(wg) rs s.(closed) s.(run_at) s.(panicked).
Definition set_breaker (k : breakerKey) (b : Breaker) (s : Scheduler) : Scheduler :=
  mkScheduler s.(maxWorkers) s.(noJitter) s.(entries) (<[k := b]> s.(breakers)) s.(running) s.(cancelled) s.(loops) s.(busy)
    s.(scrapes) s.(workerSem) s.(scrapeWG) s.(wg) s.(results) s.(closed) s.(run_at) s.(panicked).
Definition set_busy (i : nat) (b : bool) (s : Scheduler) : Scheduler :=
  mkScheduler s.(maxWorkers) s.(noJitter) s.(entries) s.(breakers) s.(running) s.(cancelled) s.(loops) (<[i := b]> s.(busy))
    s.(scrapes) s.(workerSem) s.(scrapeWG) s.(wg) s.(results) s.(closed) s.(run_at) s.(panicked).
Definition set_counts (sem swg w : nat) (s : Scheduler) : Scheduler :=
  mkScheduler s.(maxWorkers) s.(noJitter) s.(entries) s.(breakers) s.(running) s.(cancelled) s.(loops) s.(busy)
    s.(scrapes) sem swg w s.(results) s.(closed) s.(run_at) s.(panicked).
Definition set_closed (b : bool) (s : Scheduler) : Scheduler :=
  mkScheduler s.(maxWorkers) s.(noJitter) s.(entries) s.(breakers) s.(running) s.(cancelled) s.(loops) s.(busy)
    s.(scrapes) s.(workerSem) s.(scrapeWG) s.(wg) s.(results) b s.(run_at) s.(panicked).
Definition set_panicked (s : Scheduler) : Scheduler :=
  mkScheduler s.(maxWorkers) s.(noJitter) s.(entries) s.(breakers) s.(running) s.(cancelled) s.(loops) s.(busy)
    s.(scrapes) s.(workerSem) s.(scrapeWG) s.(wg) s.(results) s.(closed) s.(run_at) true.

(** ** The steps *)

Inductive label :=
| LStart                                 (* Start *)
| LStop                                  (* Stop, or the caller's context *)
| LJitterOver (i : nat)                  (* runEntry: the jitter sleep ended *)
| LTick (i : nat) (now : Time)           (* runEntry: a tick *)
| LLoopLeave (i : nat)                   (* runEntry: ctx.Done in the sleep, the select or the wait for a slot *)
| LAcquire (i : nat)                     (* runEntry: a worker slot, and the scrape's goroutine *)
| LScrapeOk (j i : nat) (r : Result)     (* scrapeEntry: the check answered *)
| LScrapeErr (j i : nat) (e : string) (now : Time) (* scrapeEntry: the check failed, recordError *)
| LSend (j i : nat)                      (* the send on results *)
| LSendDone (j i : nat)                  (* ctx.Done instead of the send *)
| LClear (j i : nat)                     (* defer busy.Store(false) *)
| LRelease (j i : nat)                   (* defer receive from workerSem *)
| LLeaveScrapes (j i : nat)              (* defer scrapeWG.Done *)
| LLeaveAll (j i : nat)                  (* defer wg.Done *)
| LLoopsOver                             (* run: the loops' WaitGroup *)
| LScrapesOver                           (* run: scrapeWG.Wait *)
| LClose                                 (* run: defer close(results) *)
| LRunLeave                              (* run: defer wg.Done *)
| LConsume.                              (* the receiver of Results *)

Definition start_loop (e : schedEntry) : loop_pc := if 0 <? e.(entry_jitter) then Jitter else Select.

Definition start (s : Scheduler) : Scheduler :=
  mkScheduler s.(maxWorkers) s.(noJitter) s.(entries) s.(breakers) true s.(cancelled) (start_loop <$> s.(entries))
    (replicate (length s.(entries)) false) s.(scrapes) s.(workerSem) s.(scrapeWG) (S s.(wg)) s.(results) s.(closed)
    (match s.(entries) with [] => Closing | _ => WaitLoops end) s.(panicked).

Definition launch (i : nat) (s : Scheduler) : Scheduler :=
  mkScheduler s.(maxWorkers) s.(noJitter) s.(entries) s.(breakers) s.(running) s.(cancelled) (<[i := Select]> s.(loops))
    (<[i := true]> s.(busy)) (s.(scrapes) ++ [(i, Scraping)]) (S s.(workerSem)) (S s.(scrapeWG)) (S s.(wg)) s.(results)
    s.(closed) s.(run_at) s.(panicked).

Definition cancel (s : Scheduler) : Scheduler :=
  mkScheduler s.(maxWorkers) s.(noJitter) s.(entries) s.(breakers) s.(running) true s.(loops) s.(busy)
    s.(scrapes) s.(workerSem) s.(scrapeWG) s.(wg) s.(results) s.(closed) s.(run_at) s.(panicked).

(** What a tick does: skipped while the entry's scrape runs or its breaker is open. *)
Definition tick (i : nat) (now : Time) (s : Scheduler) : option Scheduler :=
  e ← s.(entries) !! i;
  b ← s.(busy) !! i;
  br ← s.(breakers) !! e.(entry_key);
  Some (if b : bool then s else if Allow br now then set_loop i Acquire s else s).

(** The scrape [j] of entry [i], when it is about to do [pc]. *)
Definition at_pc (j i : nat) (s : Scheduler) : option scrape_pc :=
  '(i', pc) ← s.(scrapes) !! j;
  if decide (i' = i) then Some pc else None.

Definition scraped (j i : nat) (o : outcome) (out : string + Result) (s : Scheduler) : option Scheduler :=
  e ← s.(entries) !! i;
  br ← s.(breakers) !! e.(entry_key);
  Some (set_scrape j i (Sending (mkEntryResult e.(entry_key) out)) (set_breaker e.(entry_key) (record br o) s)).

Definition step (l : label) (s : Scheduler) : option Scheduler :=
  match l with
  | LStart => if s.(running) then Some s (* an error *) else Some (start s)
  | LStop => if s.(running) then Some (cancel s) else Some s
  | LJitterOver i =>
      match s.(loops) !! i with Some Jitter => Some (set_loop i Select s) | _ => None end
  | LTick i now =>
      match s.(loops) !! i with Some Select => tick i now s | _ => None end
  | LLoopLeave i =>
      match s.(loops) !! i with
      | Some LoopDone | None => None
      | Some _ => if s.(cancelled) then Some (set_loop i LoopDone s) else None
      end
  | LAcquire i =>
      match s.(loops) !! i with
      | Some Acquire => if decide (s.(workerSem) < s.(maxWorkers))%nat then Some (launch i s) else None
      | _ => None
      end
  | LScrapeOk j i r =>
      match at_pc j i s with Some Scraping => scraped j i Succeeded (inr r) s | _ => None end
  | LScrapeErr j i e now =>
      match at_pc j i s with Some Scraping => scraped j i (Failed now) (inl ("check failed: scrape error: " +:+ e)) s | _ => None end
  | LSend j i =>
      match at_pc j i s with
      | Some (Sending r) =>
          if s.(closed) then Some (set_panicked s)
          else if decide (length s.(results) < results_cap)%nat then
            Some (set_scrape j i Clearing (set_results (s.(results) ++ [r]) s))
          else None
      | _ => None
      end
  | LSendDone j i =>
      match at_pc j i s with
      | Some (Sending _) => if s.(cancelled) then Some (set_scrape j i Clearing s) else None
      | _ => None
      end
  | LClear j i => match at_pc j i s with Some Clearing => Some (set_scrape j i Releasing (set_busy i false s)) | _ => None end
  | LRelease j i =>
      match at_pc j i s with
      | Some Releasing => Some (set_scrape j i LeavingScrapes (set_counts (pred s.(workerSem)) s.(scrapeWG) s.(wg) s))
      | _ => None
      end
  | LLeaveScrapes j i =>
      match at_pc j i s with
      | Some LeavingScrapes => Some (set_scrape j i LeavingAll (set_counts s.(workerSem) (pred s.(scrapeWG)) s.(wg) s))
      | _ => None
      end
  | LLeaveAll j i =>
      match at_pc j i s with
      | Some LeavingAll => Some (set_scrape j i Gone (set_counts s.(workerSem) s.(scrapeWG) (pred s.(wg)) s))
      | _ => None
      end
  | LLoopsOver =>
      match s.(run_at) with
      | WaitLoops => if forallb (λ pc, match pc with LoopDone => true | _ => false end) s.(loops) then Some (set_run WaitScrapes s) else None
      | _ => None
      end
  | LScrapesOver =>
      match s.(run_at) with WaitScrapes => if decide (s.(scrapeWG) = 0)%nat then Some (set_run Closing s) else None | _ => None end
  | LClose =>
      match s.(run_at) with
      | Closing => if s.(closed) then Some (set_panicked s) else Some (set_run Leaving (set_closed true s))
      | _ => None
      end
  | LRunLeave =>
      match s.(run_at) with
      | Leaving => Some (set_run RunDone (set_counts s.(workerSem) s.(scrapeWG) (pred s.(wg)) s))
      | _ => None
      end
  | LConsume => match s.(results) with [] => None | _ :: rs => Some (set_results rs s) end
  end.

Fixpoint exec (tr : list label) (s : Scheduler) : option Scheduler :=
  match tr with
  | [] => Some s
  | l :: tr => s ← step l s; exec tr s
  end.

(** What [Stop] waits for, besides its timeout. *)
Definition stopped (s : Scheduler) : bool := bool_decide (s.(wg) = 0%nat).
End scheduler.

(** ** Counting *)

Definition countb {A} (p : A → bool) (l : list A) : nat := length (filter (λ x, p x = true) l).

#[global] Arguments countb : simpl never.

Lemma countb_app {A} (p : A → bool) l l' : countb p (l ++ l') = (countb p l + countb p l')%nat.
Proof. unfold countb. by rewrite filter_app, length_app. Qed.

Lemma countb_one {A} (p : A → bool) x : countb p [x] = if p x then 1%nat else 0%nat.
Proof. unfold countb. rewrite filter_cons. by destruct (p x). Qed.

Lemma countb_cons {A} (p : A → bool) x l : countb p (x :: l) = ((if p x then 1 else 0) + countb p l)%nat.
Proof. change (x :: l) with ([x] ++ l). by rewrite countb_app, countb_one. Qed.

Lemma countb_insert {A} (p : A → bool) l j x y : l !! j = Some x →
  (countb p (<[j := y]> l) + (if p x then 1 else 0) = countb p l + (if p y then 1 else 0))%nat.
Proof.
  revert j. induction l as [|z l IH]; intros [|j] Hj; cbn in Hj; simplify_eq.
  - change (<[0%nat := y]> (x :: l)) with (y :: l). rewrite !countb_cons. lia.
  - change (<[S j := y]> (z :: l)) with (z :: <[j := y]> l). rewrite !countb_cons. specialize (IH j Hj). lia.
Qed.

Lemma countb_pos {A} (p : A → bool) l j x : l !! j = Some x → p x = true → (0 < countb p l)%nat.
Proof.
  intros Hj Hp. unfold countb. apply list_elem_of_lookup_2 in Hj.
  assert (x ∈ filter (λ x, p x = true) l) as Hin by (by apply list_elem_of_filter).
  apply Nat.neq_0_lt_0. intros E%nil_length_inv. rewrite E in Hin. by apply elem_of_nil in Hin.
Qed.

(** ** The invariant *)

Section invariant.
Context {Result : Type}.
Notation Scheduler := (@Scheduler Result).
Notation scrape_pc := (@scrape_pc Result).
Notation label := (@label Result).
Implicit Types s : Scheduler.

Definition in_scrape (pc : scrape_pc) : bool := match pc with Scraping | Sending _ | Clearing => true | _ => false end.
Definition owns (i : nat) (x : nat * scrape_pc) : bool := bool_decide (x.1 = i) && in_scrape x.2.
Definition has_slot (x : nat * scrape_pc) : bool := in_scrape x.2 || match x.2 with Releasing => true | _ => false end.
Definition awaited (x : nat * scrape_pc) : bool := has_slot x || match x.2 with LeavingScrapes => true | _ => false end.
Definition alive (x : nat * scrape_pc) : bool := awaited x || match x.2 with LeavingAll => true | _ => false end.

Definition loops_over (pc : run_pc) : bool := match pc with WaitScrapes | Closing | Leaving | RunDone => true | _ => false end.
Definition scrapes_over (pc : run_pc) : bool := match pc with Closing | Leaving | RunDone => true | _ => false end.
Definition is_closed (pc : run_pc) : bool := match pc with Leaving | RunDone => true | _ => false end.
Definition run_alive (pc : run_pc) : bool := match pc with NotStarted | RunDone => false | _ => true end.

Record inv (s : Scheduler) : Prop := mkInv {
  inv_idle : s.(running) = false → s.(loops) = [] ∧ s.(busy) = [] ∧ s.(scrapes) = [] ∧ s.(run_at) = NotStarted ∧ s.(cancelled) = false;
  inv_started : s.(running) = true → length s.(loops) = length s.(entries) ∧ length s.(busy) = length s.(entries) ∧ s.(run_at) ≠ NotStarted;
  inv_keys : ∀ i e, s.(entries) !! i = Some e → is_Some (s.(breakers) !! e.(entry_key));
  inv_sem : s.(workerSem) = countb has_slot s.(scrapes) ∧ (s.(workerSem) ≤ s.(maxWorkers))%nat;
  inv_scrapeWG : s.(scrapeWG) = countb awaited s.(scrapes);
  inv_wg : s.(wg) = (countb alive s.(scrapes) + if run_alive s.(run_at) then 1 else 0)%nat;
  inv_busy : ∀ i b, s.(busy) !! i = Some b → countb (owns i) s.(scrapes) = if b : bool then 1%nat else 0%nat;
  inv_index : ∀ j i pc, s.(scrapes) !! j = Some (i, pc) → is_Some (s.(entries) !! i);
  inv_loops : loops_over s.(run_at) = true → Forall (λ pc, pc = LoopDone) s.(loops);
  inv_scrapes : scrapes_over s.(run_at) = true → s.(scrapeWG) = 0%nat;
  inv_closed : s.(closed) = is_closed s.(run_at);
  inv_acquire : ∀ i, s.(loops) !! i = Some Acquire → s.(busy) !! i = Some false;
  inv_results : (length s.(results) ≤ results_cap)%nat;
  inv_no_panic : s.(panicked) = false;
}.

Lemma NewScheduler_inv opts : inv (NewScheduler opts).
Proof. constructor; cbn; try done; try (unfold results_cap; lia). split; [done|lia]. Qed.

Lemma AddEntry_inv rnd key d iv s s' : inv s → AddEntryWithInterval rnd key d iv s = Some s' → inv s'.
Proof.
  intros Hi. unfold AddEntryWithInterval. destruct (running s) eqn:Er; [done|]. intros [= <-].
  pose proof (inv_idle s Hi Er) as (El & Eb & Es & Ea & Ec).
  constructor; cbn; try apply Hi.
  - done.
  - congruence.
  - assert (∀ k, is_Some (breakers s !! k) → is_Some (match breakers s !! key with Some _ => breakers s | None => <[key := NewBreaker]> (breakers s) end !! k)) as Hold.
    { intros k [b Hb]. destruct (breakers s !! key) eqn:Ek; [by eexists|].
      destruct (decide (key = k)) as [->|Hne]; [congruence|]. rewrite lookup_insert_ne by done. by eexists. }
    intros i e He. apply lookup_app_Some in He as [He|[_ He]].
    + apply Hold. by eapply (inv_keys s).
    + apply list_lookup_singleton_Some in He as [_ <-]. cbn. destruct (breakers s !! key) eqn:Ek; [by eexists|].
      rewrite lookup_insert_eq. by eexists.
  - intros j i pc. by rewrite Es.
Qed.

(** *** One scrape goes on to its next step *)

Lemma at_pc_lookup j i s pc : at_pc j i s = Some pc → s.(scrapes) !! j = Some (i, pc).
Proof.
  unfold at_pc. destruct (scrapes s !! j) as [[i' pc']|]; cbn; [|done]. case_decide; [|done]. intros [= ->]. by subst.
Qed.

Lemma owned_busy j i s pc : inv s → s.(scrapes) !! j = Some (i, pc) → in_scrape pc = true → s.(busy) !! i = Some true.
Proof.
  intros Hi Hj Hp. destruct (inv_index s Hi j i pc Hj) as [e He].
  destruct (running s) eqn:Er.
  2: { apply (inv_idle s Hi) in Er as (_ & _ & Es & _). by rewrite Es in Hj. }
  apply (inv_started s Hi) in Er as (_ & Eb & _).
  assert (i < length (busy s))%nat as Hlt by (rewrite Eb; by apply lookup_lt_is_Some; eexists).
  apply lookup_lt_is_Some in Hlt as [b Hb]. pose proof (inv_busy s Hi i b Hb) as Hc.
  pose proof (countb_pos (owns i) _ _ _ Hj) as Hpos. unfold owns in Hpos at 1. cbn in Hpos.
  rewrite bool_decide_true, Hp in Hpos by done. destruct b; [done|]. lia.
Qed.

(** The counts after the scrape [j] moves from [pc] to [pc']. *)
Lemma counts_move s j i pc pc' : s.(scrapes) !! j = Some (i, pc) →
  let l := <[j := (i, pc')]> s.(scrapes) in
  (countb has_slot l + (if has_slot (i, pc) then 1 else 0) = countb has_slot s.(scrapes) + (if has_slot (i, pc') then 1 else 0) ∧
   countb awaited l + (if awaited (i, pc) then 1 else 0) = countb awaited s.(scrapes) + (if awaited (i, pc') then 1 else 0) ∧
   countb alive l + (if alive (i, pc) then 1 else 0) = countb alive s.(scrapes) + (if alive (i, pc') then 1 else 0) ∧
   ∀ i', countb (owns i') l + (if owns i' (i, pc) then 1 else 0) = countb (owns i') s.(scrapes) + (if owns i' (i, pc') then 1 else 0))%nat.
Proof. intros Hj. split_and!; [| | |intros i']; by apply countb_insert. Qed.

Lemma index_move s j i pc pc' : inv s → s.(scrapes) !! j = Some (i, pc) →
  ∀ j' i' pc1, <[j := (i, pc')]> s.(scrapes) !! j' = Some (i', pc1) → is_Some (s.(entries) !! i').
Proof.
  intros Hi Hj j' i' pc1 H. apply list_lookup_insert_Some in H as [(<- & [= <- <-] & _)|[_ H]]; by eapply (inv_index s).
Qed.

Definition one (b : bool) : nat := if b then 1 else 0.

(** What a scrape's step must respect for the invariant to survive it. *)
Record moves (s s' : Scheduler) (j i : nat) (pc pc' : scrape_pc) : Prop := mkMoves {
  mv_at : s.(scrapes) !! j = Some (i, pc);
  mv_to : s'.(scrapes) = <[j := (i, pc')]> s.(scrapes);
  mv_rest : s'.(maxWorkers) = s.(maxWorkers) ∧ s'.(entries) = s.(entries) ∧ s'.(running) = s.(running) ∧ s'.(cancelled) = s.(cancelled) ∧
    s'.(loops) = s.(loops) ∧ s'.(closed) = s.(closed) ∧ s'.(run_at) = s.(run_at) ∧ s'.(panicked) = s.(panicked);
  mv_breakers : ∀ k, is_Some (s.(breakers) !! k) → is_Some (s'.(breakers) !! k);
  mv_sem : (s'.(workerSem) + one (has_slot (i, pc)) = s.(workerSem) + one (has_slot (i, pc')))%nat;
  mv_swg : (s'.(scrapeWG) + one (awaited (i, pc)) = s.(scrapeWG) + one (awaited (i, pc')))%nat;
  mv_wg : (s'.(wg) + one (alive (i, pc)) = s.(wg) + one (alive (i, pc')))%nat;
  mv_less : (one (has_slot (i, pc')) ≤ one (has_slot (i, pc)))%nat ∧ (one (awaited (i, pc')) ≤ one (awaited (i, pc)))%nat;
  mv_busy : in_scrape pc = in_scrape pc' ∧ s'.(busy) = s.(busy) ∨ in_scrape pc = true ∧ in_scrape pc' = false ∧ s'.(busy) = <[i := false]> s.(busy);
  mv_results : (length s'.(results) ≤ results_cap)%nat;
}.

Lemma inv_move s s' j i pc pc' : inv s → moves s s' j i pc pc' → inv s'.
Proof.
  intros Hi [Hj Hto (Em & Ee & Er & Ec & El & Ecl & Era & Ep) Hbr Hsem Hswg Hwg [Hl1 Hl2] Hbusy Hres].
  pose proof (counts_move s j i pc pc' Hj) as (C1 & C2 & C3 & C4). cbv zeta in *. rewrite <- Hto in C1, C2, C3, C4.
  fold (one (has_slot (i, pc))) (one (has_slot (i, pc'))) in C1. fold (one (awaited (i, pc))) (one (awaited (i, pc'))) in C2.
  fold (one (alive (i, pc))) (one (alive (i, pc'))) in C3.
  pose proof (inv_sem s Hi) as [S1 S2]. pose proof (inv_scrapeWG s Hi) as S3. pose proof (inv_wg s Hi) as S4.
  constructor; rewrite ?Em, ?Ee, ?Er, ?Ec, ?El, ?Ecl, ?Era, ?Ep.
  - intros Hr. apply (inv_idle s Hi) in Hr as (_ & _ & Es & _). by rewrite Es in Hj.
  - intros Hr. destruct (inv_started s Hi Hr) as (? & Hb & ?). split_and!; [done| |done].
    destruct Hbusy as [[_ ->]|(_ & _ & ->)]; [done|by rewrite length_insert].
  - intros i' e' He'. by eapply Hbr, (inv_keys s).
  - lia.
  - lia.
  - lia.
  - intros i' b Hb. specialize (C4 i'). unfold owns at 2 4 in C4. cbn [fst snd] in C4.
    destruct Hbusy as [[Hp Eb]|(Hp & Hp' & Eb)]; rewrite Eb in Hb.
    + rewrite Hp in C4. pose proof (inv_busy s Hi i' b Hb). lia.
    + apply list_lookup_insert_Some in Hb as [(<- & <- & _)|[Hne Hb]].
      * pose proof (inv_busy s Hi i true (owned_busy j i s pc Hi Hj Hp)) as Hone. cbn in Hone |- *.
        rewrite Hp, Hp', bool_decide_true in C4 by done. cbn in C4. lia.
      * pose proof (inv_busy s Hi i' b Hb). rewrite (bool_decide_false (i = i')) in C4 by done. cbn in C4. lia.
  - intros j' i' pc1 H1. rewrite Hto in H1. by eapply (index_move s).
  - apply Hi.
  - intros Hx. apply (inv_scrapes s Hi) in Hx. lia.
  - apply Hi.
  - intros i' Ha. apply (inv_acquire s Hi) in Ha. destruct Hbusy as [[_ ->]|(Hp & _ & ->)]; [done|].
    rewrite list_lookup_insert_ne; [done|]. intros ->. by rewrite (owned_busy j i' s pc Hi Hj Hp) in Ha.
  - done.
  - apply Hi.
Qed.

(** A scrape that may still send keeps the channel open. *)
Lemma sending_open s j i r : inv s → s.(scrapes) !! j = Some (i, Sending r) → s.(closed) = false.
Proof.
  intros Hi Hj. rewrite (inv_closed s Hi). destruct (is_closed (run_at s)) eqn:Ec; [|done].
  assert (scrapes_over (run_at s) = true) as Hs by (by destruct (run_at s)).
  apply (inv_scrapes s Hi) in Hs. rewrite (inv_scrapeWG s Hi) in Hs.
  pose proof (countb_pos awaited _ _ _ Hj eq_refl). lia.
Qed.

Lemma scraped_move s s' j i o out : inv s → s.(scrapes) !! j = Some (i, Scraping) → scraped j i o out s = Some s' →
  ∃ r, moves s s' j i Scraping (Sending r).
Proof.
  intros Hi Hj. unfold scraped. destruct (entries s !! i) as [e|]; cbn; [|done].
  destruct (breakers s !! entry_key e) as [br|]; cbn; [|done]. intros [= <-]. eexists. constructor; cbn; try done; try lia.
  - intros k Hk. destruct (decide (entry_key e = k)) as [<-|Hne]; [rewrite lookup_insert_eq; by eexists|by rewrite lookup_insert_ne].
  - by left.
  - apply Hi.
Qed.

Lemma inv_set_loop i pc s : inv s → (pc = Acquire → s.(busy) !! i = Some false) → s.(loops) !! i ≠ Some LoopDone →
  inv (set_loop i pc s).
Proof.
  intros Hi Hacq Hnd. constructor; cbn; try apply Hi.
  - intros Hr. destruct (inv_idle s Hi Hr) as (-> & ? & ? & ? & ?). done.
  - intros Hr. rewrite length_insert. by apply Hi.
  - intros Hr. pose proof (inv_loops s Hi Hr) as Hf. rewrite list_insert_ge; [done|].
    destruct (decide (i < length (loops s))%nat) as [Hlt|]; [|lia]. apply lookup_lt_is_Some in Hlt as [x Hx].
    pose proof (Forall_lookup_1 _ _ _ _ Hf Hx) as ->. done.
  - intros i' H. apply list_lookup_insert_Some in H as [(<- & -> & _)|[_ H]]; [by apply Hacq|by apply (inv_acquire s)].
Qed.

Lemma inv_set_run pc s : inv s → s.(running) = true → pc ≠ NotStarted → is_closed pc = is_closed s.(run_at) → run_alive pc = run_alive s.(run_at) →
  (loops_over pc = true → Forall (λ pc, pc = LoopDone) s.(loops)) → (scrapes_over pc = true → s.(scrapeWG) = 0%nat) →
  inv (set_run pc s).
Proof.
  intros Hi Hr Hn Hc Ha Hl Hs. constructor; cbn; try apply Hi; try done.
  - congruence.
  - intros _. by destruct (inv_started s Hi Hr) as (? & ? & _).
  - by rewrite Ha, (inv_wg s Hi).
  - by rewrite (inv_closed s Hi).
Qed.

Lemma start_inv s : inv s → s.(running) = false → inv (start s).
Proof.
  intros Hi Hr. destruct (inv_idle s Hi Hr) as (El & Eb & Es & Ea & Ec).
  pose proof (inv_wg s Hi) as Hw. pose proof (inv_closed s Hi) as Hcl. pose proof (inv_scrapeWG s Hi) as Hs.
  rewrite Es, Ea in Hw. rewrite Ea in Hcl. rewrite Es in Hs. cbn in Hw, Hs, Hcl.
  constructor; cbn; try apply Hi; try done.
  - intros _. rewrite length_fmap, length_replicate. by destruct (entries s).
  - rewrite Es, Hw. cbn. by destruct (entries s).
  - intros i b Hb. apply lookup_replicate in Hb as [-> _]. by rewrite Es.
  - intros H. destruct (entries s); [constructor|done].
  - by destruct (entries s).
  - intros i H. apply list_lookup_fmap_Some in H as (e & H & He). unfold start_loop in H. by destruct (0 <? _).
Qed.

Lemma launch_inv i s : inv s → s.(loops) !! i = Some Acquire → (s.(workerSem) < s.(maxWorkers))%nat → inv (launch i s).
Proof.
  intros Hi Hl Hw. pose proof (inv_acquire s Hi i Hl) as Hb.
  assert (running s = true) as Hr.
  { destruct (running s) eqn:Er; [done|]. destruct (inv_idle s Hi Er) as (El & _). by rewrite El in Hl. }
  destruct (inv_started s Hi Hr) as (Ell & Elb & Hns). pose proof (inv_sem s Hi) as [S1 S2].
  assert (loops_over (run_at s) = false) as Hlo.
  { destruct (loops_over (run_at s)) eqn:E; [|done]. pose proof (Forall_lookup_1 _ _ _ _ (inv_loops s Hi E) Hl). done. }
  constructor; cbn; try apply Hi; try (rewrite countb_app, countb_one; cbn).
  - congruence.
  - intros _. by rewrite !length_insert.
  - lia.
  - rewrite (inv_scrapeWG s Hi). lia.
  - rewrite (inv_wg s Hi). lia.
  - intros i' b H. rewrite countb_app, countb_one. unfold owns at 2. cbn.
    apply list_lookup_insert_Some in H as [(<- & <- & _)|[Hne H]].
    + rewrite (inv_busy s Hi i false Hb), bool_decide_true by done. done.
    + rewrite (inv_busy s Hi i' b H), bool_decide_false by done. cbn. lia.
  - intros j i' pc H. apply lookup_app_Some in H as [H|[_ H]]; [by eapply (inv_index s)|].
    apply list_lookup_singleton_Some in H as [_ [= <- <-]]. apply lookup_lt_is_Some. rewrite <- Ell. apply lookup_lt_is_Some. by eexists.
  - by rewrite Hlo.
  - intros H. exfalso. by destruct (run_at s).
  - intros i' H. apply list_lookup_insert_Some in H as [(_ & ? & _)|[Hne H]]; [done|].
    apply (inv_acquire s Hi) in H. by rewrite (list_lookup_insert_ne (busy s)).
Qed.

Lemma started_running s : inv s → s.(run_at) ≠ NotStarted → s.(running) = true.
Proof. intros Hi Hr. destruct (running s) eqn:E; [done|]. by destruct (inv_idle s Hi E) as (_ & _ & _ & ? & _). Qed.

(** The labels of the loops, of the scrapes and of [run]. *)
Definition loop_label (l : label) : bool :=
  match l with LStart | LStop | LJitterOver _ | LTick _ _ | LLoopLeave _ | LAcquire _ | LConsume => true | _ => false end.
Definition run_label (l : label) : bool := match l with LLoopsOver | LScrapesOver | LClose | LRunLeave => true | _ => false end.

Lemma loop_step_inv l s s' : loop_label l = true → inv s → step l s = Some s' → inv s'.
Proof.
  intros Hl Hi. destruct l as [| |i|i now|i|i| | | | | | | | | | | | |]; try done; cbn [step].
  - destruct (running s) eqn:Er; intros [= <-]; [done|by apply start_inv].
  - destruct (running s) eqn:Er; intros [= <-]; [|done]. constructor; cbn; try apply Hi. congruence.
  - destruct (loops s !! i) as [[]|] eqn:El; intros [= <-]. apply inv_set_loop; [done|done|congruence].
  - destruct (loops s !! i) as [[]|] eqn:El; try done. unfold tick. destruct (entries s !! i) as [e|]; cbn; [|done].
    destruct (busy s !! i) as [b|] eqn:Eb; cbn; [|done]. destruct (breakers s !! _) as [br|]; cbn; [|done]. intros [= <-].
    destruct b; [done|]. destruct (Allow br now); [|done]. apply inv_set_loop; [done|done|congruence].
  - destruct (loops s !! i) as [pc|] eqn:El; [|done]. destruct pc; try done; (destruct (cancelled s); [|done]); intros [= <-];
      (apply inv_set_loop; [done|done|congruence]).
  - destruct (loops s !! i) as [[]|] eqn:El; try done. case_decide; [|done]. intros [= <-]. by apply launch_inv.
  - destruct (results s) as [|r rs] eqn:Ers; [done|]. intros [= <-]. constructor; cbn; try apply Hi.
    pose proof (inv_results s Hi) as Hx. rewrite Ers in Hx. cbn in Hx. lia.
Qed.

(** A scrape's step leaves a panic aside only if the channel is closed. *)
Ltac scrape_at Ep := match goal with |- context [at_pc ?j ?i ?s] => destruct (at_pc j i s) as [[]|] eqn:Ep end; try done; apply at_pc_lookup in Ep.

Lemma scrape_step_inv l s s' : loop_label l = false → run_label l = false → inv s → step l s = Some s' → inv s'.
Proof.
  intros Hl Hr Hi. pose proof (inv_sem s Hi) as [Hsem _]. pose proof (inv_scrapeWG s Hi). pose proof (inv_wg s Hi). pose proof (inv_results s Hi).
  destruct l as [| | | | | |j i r|j i er now|j i|j i|j i|j i|j i|j i| | | | |]; try done; clear Hl Hr; cbn [step]; scrape_at Ep.
  - intros Hx. destruct (scraped_move s s' j i _ _ Hi Ep Hx) as [r' Hm]. by eapply inv_move.
  - intros Hx. destruct (scraped_move s s' j i _ _ Hi Ep Hx) as [r' Hm]. by eapply inv_move.
  - rewrite (sending_open s j i r Hi Ep). case_decide as Hlen; [|done]. intros [= <-]. apply (inv_move s _ j i (Sending r) Clearing Hi).
    constructor; cbn; try done; try lia; [by left|]. rewrite length_app. cbn. lia.
  - destruct (cancelled s) eqn:Ecc; [|done]. intros [= <-]. apply (inv_move s _ j i (Sending r) Clearing Hi).
    constructor; cbn; try done; try lia. by left.
  - intros [= <-]. apply (inv_move s _ j i Clearing Releasing Hi). constructor; cbn; try done; try lia. by right.
  - intros [= <-]. pose proof (countb_pos has_slot _ _ _ Ep eq_refl).
    apply (inv_move s _ j i Releasing LeavingScrapes Hi). constructor; cbn; try done; try lia. by left.
  - intros [= <-]. pose proof (countb_pos awaited _ _ _ Ep eq_refl).
    apply (inv_move s _ j i LeavingScrapes LeavingAll Hi). constructor; cbn; try done; try lia. by left.
  - intros [= <-]. pose proof (countb_pos alive _ _ _ Ep eq_refl).
    apply (inv_move s _ j i LeavingAll Gone Hi). constructor; cbn; try done; try lia. by left.
Qed.

Lemma all_loops_done (l : list loop_pc) : forallb (λ pc, match pc with LoopDone => true | _ => false end) l = true ↔ Forall (λ pc, pc = LoopDone) l.
Proof. induction l as [|pc l IH]; cbn; [done|]. rewrite andb_true_iff, Forall_cons, IH. by destruct pc; naive_solver. Qed.

Lemma run_step_inv l s s' : run_label l = true → inv s → step l s = Some s' → inv s'.
Proof.
  intros Hl Hi. pose proof (inv_wg s Hi) as Hw. pose proof (inv_closed s Hi) as Ecl. pose proof (inv_loops s Hi) as Hlo.
  pose proof (inv_scrapes s Hi) as Hso.
  assert (run_at s ≠ NotStarted → running s = true ∧ length (loops s) = length (entries s) ∧ length (busy s) = length (entries s)) as Hst.
  { intros Hn. pose proof (started_running s Hi Hn) as Hr. by destruct (inv_started s Hi Hr) as (? & ? & _). }
  destruct l; try done; clear Hl; cbn [step]; destruct (run_at s) eqn:Er; try done; (destruct Hst as (Hr & Hl1 & Hl2); [done|]).
  - destruct (forallb _ _) eqn:Ef; [|done]. intros [= <-]. apply inv_set_run; rewrite ?Er; try done. intros _. by apply all_loops_done.
  - case_decide; [|done]. intros [= <-]. apply inv_set_run; by rewrite ?Er.
  - rewrite Ecl. cbn. intros [= <-]. cbn in Hw. constructor; cbn; try apply Hi; try done; (congruence || lia).
  - intros [= <-]. cbn in Hw. constructor; cbn; try apply Hi; try done; (congruence || lia).
Qed.

Lemma step_inv l s s' : inv s → step l s = Some s' → inv s'.
Proof.
  intros Hi. destruct (loop_label l) eqn:El; [by apply loop_step_inv|].
  destruct (run_label l) eqn:Er; [by apply run_step_inv|by apply scrape_step_inv].
Qed.

Lemma exec_inv tr s s' : inv s → exec tr s = Some s' → inv s'.
Proof.
  revert s. induction tr as [|l tr IH]; intros s Hi; cbn; [by intros [= <-]|].
  destruct (step l s) as [s1|] eqn:E; cbn; [|done]. apply IH. by eapply step_inv.
Qed.

(** ** Building and running a scheduler *)

(** The entries of a schedule, added before [Start]: key, default interval, override. *)
Fixpoint add_all (rnd : Z → Z) (es : list (breakerKey * Duration * Duration)) (s : Scheduler) : option Scheduler :=
  match es with
  | [] => Some s
  | (key, d, iv) :: es => s ← AddEntryWithInterval rnd key d iv s; add_all rnd es s
  end.

Lemma add_all_inv rnd es s s' : inv s → add_all rnd es s = Some s' → inv s'.
Proof.
  revert s. induction es as [|[[key d] iv] es IH]; intros s Hi; cbn [add_all]; [by intros [= <-]|].
  destruct (AddEntryWithInterval rnd key d iv s) as [s1|] eqn:E; cbn; [|done]. apply IH. by eapply AddEntry_inv.
Qed.

Lemma exec_snoc tr l s : exec (tr ++ [l]) s = (s' ← exec tr s; step l s').
Proof.
  revert s. induction tr as [|l' tr IH]; intros s; cbn; [by destruct (step l s)|].
  destruct (step l' s); cbn; [apply IH|done].
Qed.

Lemma owns_at_most_one s i : inv s → (countb (owns i) s.(scrapes) ≤ 1)%nat.
Proof.
  intros Hi. destruct (busy s !! i) as [b|] eqn:Eb; [pose proof (inv_busy s Hi i b Eb); destruct b; lia|].
  assert (countb (owns i) (scrapes s) = 0%nat) as ->; [|lia]. unfold countb.
  apply length_zero_iff_nil. destruct (filter _ (scrapes s)) as [|[i' pc] l] eqn:Ef; [done|]. exfalso.
  assert ((i', pc) ∈ filter (λ x, owns i x = true) (scrapes s)) as Hin by (rewrite Ef; constructor).
  apply list_elem_of_filter in Hin as [Ho Hin]. apply list_elem_of_lookup in Hin as [j Hj].
  unfold owns in Ho. cbn in Ho. apply andb_prop in Ho as [Hi' Hp]. apply bool_decide_eq_true in Hi' as ->.
  by rewrite (owned_busy j i s pc Hi Hj Hp) in Eb.
Qed.

(** Two scrapes of one entry are not both under way. *)
Lemma owner_unique s i j j' pc pc' :
  inv s → s.(scrapes) !! j = Some (i, pc) → s.(scrapes) !! j' = Some (i, pc') → in_scrape pc = true → in_scrape pc' = true → j = j'.
Proof.
  intros Hi Hj Hj' Hp Hp'. destruct (decide (j = j')) as [|Hne]; [done|]. exfalso.
  pose proof (owns_at_most_one s i Hi) as Hle.
  assert (∀ pc0, owns i (i, pc0) = in_scrape pc0) as Ho by (intros pc0; unfold owns; cbn; by rewrite bool_decide_true).
  pose proof (countb_insert (owns i) (scrapes s) j (i, pc) (i, Gone) Hj) as Hc. rewrite !Ho, Hp in Hc. cbn in Hc.
  pose proof (countb_pos (owns i) (<[j := (i, Gone)]> (scrapes s)) j' (i, pc')) as Hpos. rewrite list_lookup_insert_ne in Hpos by done.
  specialize (Hpos Hj'). rewrite Ho in Hpos. specialize (Hpos Hp'). lia.
Qed.

(** ** Results in order *)

(** The scrapes of entry [i] whose results an execution sent, oldest first; scrapes are
    numbered in the order they start. *)
Definition sends (i : nat) (tr : list label) : list nat :=
  omap (λ l, match l with LSend j i' => if decide (i' = i) then Some j else None | _ => None end) tr.

Definition unsent (pc : scrape_pc) : bool := match pc with Scraping | Sending _ => true | _ => false end.

(** What was sent comes before every scrape that has not sent yet. *)
Definition sent_before (i : nat) (ns : list nat) (s : Scheduler) : Prop :=
  StronglySorted lt ns ∧ (∀ n, n ∈ ns → (n < length s.(scrapes))%nat) ∧
  ∀ n j pc, n ∈ ns → s.(scrapes) !! j = Some (i, pc) → unsent pc = true → (n < j)%nat.

Lemma unsent_in_scrape pc : unsent pc = true → in_scrape pc = true.
Proof. by destruct pc. Qed.

(** A step that starts no scrape and lets none become unsent again. *)
Lemma sent_before_keep i ns s s' : sent_before i ns s →
  (∀ j i' pc', s'.(scrapes) !! j = Some (i', pc') → unsent pc' = true → ∃ pc, s.(scrapes) !! j = Some (i', pc) ∧ unsent pc = true) →
  length s.(scrapes) = length s'.(scrapes) → sent_before i ns s'.
Proof.
  intros (H1 & H2 & H3) Hs Hl. split_and!; [done|by rewrite <- Hl|]. intros n j pc Hn Hj Hp.
  destruct (Hs j i pc Hj Hp) as (pc0 & Hj0 & Hp0). by eapply H3.
Qed.

Lemma sent_before_move i ns s s' j i' pc pc' : sent_before i ns s → s.(scrapes) !! j = Some (i', pc) →
  s'.(scrapes) = <[j := (i', pc')]> s.(scrapes) → (unsent pc' = true → unsent pc = true) → sent_before i ns s'.
Proof.
  intros Hb Hj Hto Hu. apply (sent_before_keep i ns s s' Hb); [|by rewrite Hto, length_insert].
  intros j0 i0 pc0. rewrite Hto. intros [(<- & [= <- <-] & _)|[_ H]]%list_lookup_insert_Some Hp; [|by eauto].
  exists pc. auto.
Qed.

Lemma StronglySorted_snoc {A} (R : A → A → Prop) l x : StronglySorted R l → (∀ y, y ∈ l → R y x) → StronglySorted R (l ++ [x]).
Proof.
  induction 1 as [|y l Hl IH Hy]; intros Hx; cbn; [repeat constructor|]. constructor.
  - apply IH. intros z Hz. apply Hx. by constructor.
  - apply Forall_app. split; [done|]. constructor; [|done]. apply Hx. constructor.
Qed.

(** What each step does to the scrapes and to the breakers. *)
Lemma step_scrapes l s s' : inv s → step l s = Some s' →
  match l with
  | LAcquire i => s'.(scrapes) = s.(scrapes) ++ [(i, Scraping)] ∧ s'.(breakers) = s.(breakers)
  | LScrapeOk j i _ | LScrapeErr j i _ _ => ∃ r e br,
      s.(scrapes) !! j = Some (i, Scraping) ∧ s'.(scrapes) = <[j := (i, Sending r)]> s.(scrapes) ∧
      s.(entries) !! i = Some e ∧ s.(breakers) !! e.(entry_key) = Some br ∧
      s'.(breakers) = <[e.(entry_key) := record br (match l with LScrapeErr _ _ _ now => Failed now | _ => Succeeded end)]> s.(breakers)
  | LSend j i => ∃ r, s.(scrapes) !! j = Some (i, Sending r) ∧ s'.(scrapes) = <[j := (i, Clearing)]> s.(scrapes) ∧ s'.(breakers) = s.(breakers)
  | LSendDone j i | LClear j i | LRelease j i | LLeaveScrapes j i | LLeaveAll j i => ∃ pc pc',
      s.(scrapes) !! j = Some (i, pc) ∧ s'.(scrapes) = <[j := (i, pc')]> s.(scrapes) ∧ unsent pc' = false ∧ s'.(breakers) = s.(breakers)
  | _ => s'.(scrapes) = s.(scrapes) ∧ s'.(breakers) = s.(breakers)
  end ∧ (s.(entries) = s'.(entries)).
Proof.
  intros Hi. destruct l as [| |i|i now|i|i|j i r|j i er now|j i|j i|j i|j i|j i|j i| | | | |]; cbn [step].
  - destruct (running s); by intros [= <-].
  - destruct (running s); by intros [= <-].
  - destruct (loops s !! i) as [[]|]; by intros [= <-].
  - destruct (loops s !! i) as [[]|]; try done. unfold tick. destruct (entries s !! i); cbn; [|done].
    destruct (busy s !! i) as [b|]; cbn; [|done]. destruct (breakers s !! _) as [br|]; cbn; [|done]. intros [= <-].
    destruct b, (Allow br now); done.
  - destruct (loops s !! i) as [[]|]; try done; (destruct (cancelled s); [|done]); by intros [= <-].
  - destruct (loops s !! i) as [[]|]; try done. case_decide; [|done]. by intros [= <-].
  - scrape_at Ep. unfold scraped. destruct (entries s !! i) as [e|] eqn:Ee; cbn; [|done].
    destruct (breakers s !! entry_key e) as [br|] eqn:Eb; cbn; [|done]. intros [= <-]. split; [|done]. by eexists _, e, br.
  - scrape_at Ep. unfold scraped. destruct (entries s !! i) as [e|] eqn:Ee; cbn; [|done].
    destruct (breakers s !! entry_key e) as [br|] eqn:Eb; cbn; [|done]. intros [= <-]. split; [|done]. by eexists _, e, br.
  - scrape_at Ep. rewrite (sending_open s j i r Hi Ep). case_decide; [|done]. intros [= <-]. split; [|done]. by exists r.
  - scrape_at Ep. destruct (cancelled s); [|done]. intros [= <-]. split; [|done]. by eexists _, Clearing.
  - scrape_at Ep. intros [= <-]. split; [|done]. by eexists _, Releasing.
  - scrape_at Ep. intros [= <-]. split; [|done]. by eexists _, LeavingScrapes.
  - scrape_at Ep. intros [= <-]. split; [|done]. by eexists _, LeavingAll.
  - scrape_at Ep. intros [= <-]. split; [|done]. by eexists _, Gone.
  - destruct (run_at s); try done. destruct (forallb _ _); [|done]. by intros [= <-].
  - destruct (run_at s); try done. case_decide; [|done]. by intros [= <-].
  - destruct (run_at s); try done. destruct (closed s); by intros [= <-].
  - destruct (run_at s); try done. by intros [= <-].
  - destruct (results s); [done|]. by intros [= <-].
Qed.

Lemma sends_snoc i tr l : sends i (tr ++ [l]) = sends i tr ++ sends i [l].
Proof. unfold sends. apply omap_app. Qed.

Lemma sent_before_step i tr l s s' : inv s → step l s = Some s' → sent_before i (sends i tr) s → sent_before i (sends i (tr ++ [l])) s'.
Proof.
  intros Hi Hst Hb. destruct (step_scrapes l s s' Hi Hst) as [Hs _]. rewrite sends_snoc.
  destruct l as [| |i0|i0 now|i0|i0|j i0 r|j i0 er now|j i0|j i0|j i0|j i0|j i0|j i0| | | | |]; cbn [sends omap list_omap] in *;
    rewrite ?app_nil_r; try (destruct Hs as [Hs _]; apply (sent_before_keep i _ s s' Hb); rewrite Hs; [by eauto|done]);
    try (destruct Hs as (pc & pc' & Hj & Hto & Hu & _); apply (sent_before_move i _ s s' j i0 pc pc' Hb Hj Hto); congruence);
    try (destruct Hs as (r0 & e & br & Hj & Hto & _); by apply (sent_before_move i _ s s' j i0 _ _ Hb Hj Hto)).
  - destruct Hs as [Hs _]. destruct Hb as (H1 & H2 & H3). split_and!; [done| |].
    + intros n Hn. rewrite Hs, length_app. apply H2 in Hn. lia.
    + intros n j pc Hn Hj Hp. rewrite Hs in Hj. apply lookup_app_Some in Hj as [Hj|[Hge _]]; [by eapply H3|]. apply H2 in Hn. lia.
  - destruct Hs as (r & Hj & Hto & _). case_decide as Heq; cbn [app].
    2: { rewrite app_nil_r. by apply (sent_before_move i _ s s' j i0 _ Clearing Hb Hj Hto). }
    subst i0. pose proof (sent_before_move i _ s s' j i _ Clearing Hb Hj Hto ltac:(done)) as (H1 & H2 & H3).
    destruct Hb as (_ & _ & Hlt). split_and!.
    + apply StronglySorted_snoc; [done|]. intros n Hn. by eapply Hlt.
    + intros n [Hn| ->%list_elem_of_singleton]%elem_of_app; [by apply H2|]. rewrite Hto, length_insert. by eapply lookup_lt_Some.
    + intros n j' pc [Hn| ->%list_elem_of_singleton]%elem_of_app Hj' Hp; [by eapply H3|]. exfalso.
      rewrite Hto in Hj'. apply list_lookup_insert_Some in Hj' as [(_ & [= <-] & _)|[Hne Hj']]; [done|].
      apply Hne. eapply owner_unique; [done|exact Hj|exact Hj'|done|by apply unsent_in_scrape].
Qed.

(** *** Theorems *)

(** C22: However ticks, scrapes, the consumer and shutdown interleave: no scrape of an entry starts
    while another one of it is under way, at most [maxWorkers] scrapes hold a worker, the results
    of an entry are delivered in the order their scrapes started, the channel holds at most its
    hundred results, and nothing is sent on it or closes it once it is closed. *)
Theorem scheduler_safety rnd opts es tr s0 s :
  add_all rnd es (NewScheduler opts) = Some s0 → exec tr s0 = Some s →
  s.(panicked) = false ∧
  (∀ i, (countb (owns i) s.(scrapes) ≤ 1)%nat) ∧
  (countb has_slot s.(scrapes) ≤ s.(maxWorkers))%nat ∧
  (∀ i, StronglySorted lt (sends i tr)) ∧
  (length s.(results) ≤ results_cap)%nat ∧
  (s.(closed) = true → ∀ j i pc, s.(scrapes) !! j = Some (i, pc) → unsent pc = false).
Proof.
  intros Hadd Hex. assert (inv s0) as H0 by (eapply add_all_inv; [apply NewScheduler_inv|done]).
  assert (inv s ∧ ∀ i, sent_before i (sends i tr) s) as [Hi Hb].
  { revert s Hex. induction tr as [|l tr IH] using rev_ind; intros s Hex.
    { cbn in Hex. injection Hex as <-. split; [done|]. intros i. split_and!; [constructor|set_solver|set_solver]. }
    rewrite exec_snoc in Hex. destruct (exec tr s0) as [s1|]; cbn in Hex; [|done].
    destruct (IH s1 eq_refl) as [Hi Hb]. split; [by eapply step_inv|]. intros i. by eapply sent_before_step. }
  pose proof (inv_sem s Hi) as [Hs1 Hs2]. split_and!.
  - apply Hi.
  - intros i. by apply owns_at_most_one.
  - lia.
  - intros i. apply Hb.
  - apply Hi.
  - intros Hc j i pc Hj. destruct (unsent pc) eqn:Hu; [|done]. exfalso. rewrite (inv_closed s Hi) in Hc.
    assert (scrapes_over (run_at s) = true) as Hso by (by destruct (run_at s)).
    apply (inv_scrapes s Hi) in Hso. rewrite (inv_scrapeWG s Hi) in Hso.
    pose proof (countb_pos awaited _ _ _ Hj) as Hp. destruct pc; try done; specialize (Hp eq_refl); lia.
Qed.

(** ** The breakers over an execution *)

(** How the scrapes under one key ended, oldest first. *)
Definition outcomes_of (es : list schedEntry) (k : breakerKey) (tr : list label) : list outcome :=
  omap (λ l,
    match l with
    | LScrapeOk _ i _ => if decide (entry_key <$> es !! i = Some k) then Some Succeeded else None
    | LScrapeErr _ i _ now => if decide (entry_key <$> es !! i = Some k) then Some (Failed now) else None
    | _ => None
    end) tr.

Lemma outcomes_snoc es k tr l : outcomes_of es k (tr ++ [l]) = outcomes_of es k tr ++ outcomes_of es k [l].
Proof. unfold outcomes_of. apply omap_app. Qed.

Lemma length_outcomes es k tr : (length (outcomes_of es k tr) ≤ length tr)%nat.
Proof.
  unfold outcomes_of. induction tr as [|l tr IH]; [done|]. cbn. destruct (match l with LScrapeOk _ _ _ => _ | _ => _ end); cbn; lia.
Qed.

Lemma run_snoc b os o : run b (os ++ [o]) = record (run b os) o.
Proof. unfold run. by rewrite foldl_app. Qed.

Lemma step_breakers l s s' k b : inv s → step l s = Some s' → s.(breakers) !! k = Some b →
  s'.(breakers) !! k = Some (run b (outcomes_of s.(entries) k [l])).
Proof.
  intros Hi Hst Hb. destruct (step_scrapes l s s' Hi Hst) as [Hs _].
  destruct l; cbn [outcomes_of omap list_omap]; try (destruct Hs as [_ ->]; exact Hb);
    try (destruct Hs as (? & ? & _ & _ & _ & ->); exact Hb).
  - destruct Hs as (r' & e & br & _ & _ & He & Hbr & ->). rewrite He. cbn. case_decide as Hk.
    + injection Hk as <-. rewrite lookup_insert_eq. rewrite Hb in Hbr. by injection Hbr as <-.
    + rewrite lookup_insert_ne; [done|]. intros <-. done.
  - destruct Hs as (r' & e0 & br & _ & _ & He & Hbr & ->). rewrite He. cbn. case_decide as Hk.
    + injection Hk as <-. rewrite lookup_insert_eq. rewrite Hb in Hbr. by injection Hbr as <-.
    + rewrite lookup_insert_ne; [done|]. intros <-. done.
  - destruct Hs as (r & _ & _ & ->). exact Hb.
Qed.

Lemma exec_breakers tr s0 s k : inv s0 → exec tr s0 = Some s → s0.(breakers) !! k = Some NewBreaker →
  s.(breakers) !! k = Some (run NewBreaker (outcomes_of s0.(entries) k tr)) ∧ s.(entries) = s0.(entries) ∧ inv s.
Proof.
  intros H0 Hex Hk. revert s Hex. induction tr as [|l tr IH] using rev_ind; intros s Hex.
  { cbn in Hex. by injection Hex as <-. }
  rewrite exec_snoc in Hex. destruct (exec tr s0) as [s1|]; cbn in Hex; [|done].
  destruct (IH s1 eq_refl) as (Hb & He & Hi). destruct (step_scrapes l s1 s Hi Hex) as [_ He'].
  split_and!; [|congruence|by eapply step_inv].
  rewrite (step_breakers l s1 s k _ Hi Hex Hb), outcomes_snoc, He. unfold run. by rewrite foldl_app.
Qed.

Definition fresh_breakers (s : Scheduler) : Prop := ∀ k b, s.(breakers) !! k = Some b → b = NewBreaker.

Lemma add_all_fresh rnd es s s' : fresh_breakers s → add_all rnd es s = Some s' → fresh_breakers s'.
Proof.
  revert s. induction es as [|[[key d] iv] es IH]; intros s Hf; cbn [add_all]; [by intros [= <-]|].
  destruct (AddEntryWithInterval rnd key d iv s) as [s1|] eqn:E; cbn; [|done]. apply IH.
  unfold AddEntryWithInterval in E. destruct (running s); [done|]. injection E as <-. intros k b. cbn.
  destruct (breakers s !! key) eqn:Ek; [apply Hf|]. intros [[_ <-]|[_ Hb]]%lookup_insert_Some; [done|by eapply Hf].
Qed.

(** An entry is scraped at a tick exactly when its previous scrape is over and its own breaker
    lets it: fewer than three failures of its key since the last success, or the last of them
    as long ago as the backoff of their number, a minute doubled for each beyond the third and
    at most fifteen. The scrapes of other entries have no part in it. *)
Theorem entry_backs_off rnd opts es tr s0 s i e b now s' :
  add_all rnd es (NewScheduler opts) = Some s0 → exec tr s0 = Some s → Z.of_nat (length tr) ≤ max_int64 →
  s0.(entries) !! i = Some e → s.(loops) !! i = Some Select → s.(busy) !! i = Some b → step (LTick i now) s = Some s' →
  let '(n, last) := trailing (outcomes_of s0.(entries) e.(entry_key) tr) 0 zero_time in
  s'.(loops) !! i = Some Acquire ↔ b = false ∧ (n < 3 ∨ Z.min (15 * Minute) (Minute * 2 ^ (n - 3)) ≤ Sub now last).
Proof.
  intros Hadd Hex Hlen He Hl Hb Hst. assert (inv s0) as H0 by (eapply add_all_inv; [apply NewScheduler_inv|done]).
  destruct (inv_keys s0 H0 i e He) as [br Hbr].
  assert (br = NewBreaker) as -> by (eapply add_all_fresh; [|exact Hadd|exact Hbr]; by intros k b0).
  destruct (exec_breakers tr s0 s (entry_key e) H0 Hex Hbr) as (Hk & Hes & Hi).
  set (os := outcomes_of (entries s0) (entry_key e) tr) in *.
  assert (breaker_inv (run NewBreaker os) (trailing os 0 zero_time).1 (trailing os 0 zero_time).2) as (_ & Hn & Hclosed & Hopen).
  { apply run_inv; [|by split_and!; cbn; lia]. pose proof (length_outcomes (entries s0) (entry_key e) tr). fold os in H. lia. }
  destruct (trailing os 0 zero_time) as [n last]. cbn [fst snd] in *.
  cbn [step] in Hst. rewrite Hl in Hst. unfold tick in Hst. rewrite Hes, He in Hst. cbn in Hst. rewrite Hb, Hk in Hst. cbn in Hst.
  injection Hst as <-. destruct b; [rewrite Hl; naive_solver|].
  assert (Allow (run NewBreaker os) now = true ↔ n < 3 ∨ Z.min (15 * Minute) (Minute * 2 ^ (n - 3)) ≤ Sub now last) as <-.
  { unfold Allow. destruct (Z.lt_ge_cases n 3) as [Hlt|Hge].
    - rewrite (Hclosed Hlt). cbn. naive_solver.
    - destruct (Hopen Hge) as (-> & -> & ->). cbn. rewrite Z.leb_le, calculateBackoff_eq, Z.max_r by lia.
      split; [by right|]. intros [?|?]; [lia|done]. }
  destruct (Allow _ now); cbn.
  - rewrite list_lookup_insert_eq by (by eapply lookup_lt_Some). naive_solver.
  - rewrite Hl. naive_solver.
Qed.

(** ** Shutdown *)

(** What the goroutines do after the cancellation, without new ticks or slots and without a
    consumer; a check under way returns, with its result or with an error. *)
Definition shutdown_label (l : label) : bool :=
  match l with
  | LLoopLeave _ | LScrapeOk _ _ _ | LScrapeErr _ _ _ _ | LSendDone _ _ | LClear _ _ | LRelease _ _ | LLeaveScrapes _ _ | LLeaveAll _ _
  | LLoopsOver | LScrapesOver | LClose | LRunLeave => true
  | _ => false
  end.

Definition loop_work (pc : loop_pc) : nat := match pc with LoopDone => 0 | _ => 1 end.
Definition scrape_work (x : nat * scrape_pc) : nat :=
  match x.2 with Scraping => 6 | Sending _ => 5 | Clearing => 4 | Releasing => 3 | LeavingScrapes => 2 | LeavingAll => 1 | Gone => 0 end.
Definition run_work (pc : run_pc) : nat := match pc with NotStarted | RunDone => 0 | WaitLoops => 4 | WaitScrapes => 3 | Closing => 2 | Leaving => 1 end.
Definition total_work {A} (f : A → nat) (l : list A) : nat := sum_list_with f l.
#[local] Arguments total_work : simpl never.

(** The steps left. *)
Definition work (s : Scheduler) : nat := total_work loop_work s.(loops) + total_work scrape_work s.(scrapes) + run_work s.(run_at).

Lemma total_work_insert {A} (f : A → nat) l i x y : l !! i = Some x → (total_work f (<[i := y]> l) + f x = total_work f l + f y)%nat.
Proof.
  unfold total_work. revert i. induction l as [|z l IH]; intros [|i] Hi; cbn in Hi; simplify_eq.
  - change (<[0%nat := y]> (x :: l)) with (y :: l). cbn [sum_list_with]. lia.
  - change (<[S i := y]> (z :: l)) with (z :: <[i := y]> l). specialize (IH i Hi). cbn [sum_list_with]. lia.
Qed.

Lemma total_work_0 {A} (f : A → nat) l : total_work f l ≠ 0%nat → ∃ i x, l !! i = Some x ∧ f x ≠ 0%nat.
Proof.
  unfold total_work. induction l as [|z l IH]; cbn; [done|]. intros H. destruct (decide (f z = 0%nat)) as [Hz|Hz].
  - destruct IH as (i & x & Hi & Hx); [lia|]. by exists (S i), x.
  - by exists 0%nat, z.
Qed.

Lemma total_work_all {A} (f : A → nat) l i x : total_work f l = 0%nat → l !! i = Some x → f x = 0%nat.
Proof.
  unfold total_work. revert i. induction l as [|z l IH]; intros [|i]; cbn; [done|done| |].
  - intros H [= <-]. lia.
  - intros H Hi. apply (IH i); [lia|done].
Qed.

Ltac work_done Ep :=
  match type of Ep with
  | ?l !! ?j = _ =>
      match goal with
      | |- context [@insert _ _ _ _ j ?y l] => pose proof (total_work_insert scrape_work l j _ y Ep) as Hwork; cbn in Hwork; split_and!; [lia|done|done]
      end
  end.

(** Every shutdown step does some of the work. *)
Lemma shutdown_step l s s' : inv s → shutdown_label l = true → step l s = Some s' →
  work s = S (work s') ∧ s'.(cancelled) = s.(cancelled) ∧ s'.(running) = s.(running).
Proof.
  intros Hi Hl. destruct l as [| |i|i now|i|i|j i r|j i er now|j i|j i|j i|j i|j i|j i| | | | |]; try done; cbn [step]; clear Hl; unfold work.
  - destruct (loops s !! i) as [pc|] eqn:El; [|done]. destruct pc; try done; (destruct (cancelled s) eqn:Ec; [|done]); intros [= <-]; cbn;
      (pose proof (total_work_insert loop_work (loops s) i _ LoopDone El) as H; cbn in H; split_and!; [lia|done|done]).
  - scrape_at Ep. intros Hx. unfold scraped in Hx. destruct (entries s !! i) as [e|]; cbn in Hx; [|done].
    destruct (breakers s !! _) as [br|]; cbn in Hx; [|done]. injection Hx as <-. cbn.
    work_done Ep.
  - scrape_at Ep. intros Hx. unfold scraped in Hx. destruct (entries s !! i) as [e|]; cbn in Hx; [|done].
    destruct (breakers s !! _) as [br|]; cbn in Hx; [|done]. injection Hx as <-. cbn.
    work_done Ep.
  - scrape_at Ep. destruct (cancelled s) eqn:Ec; [|done]. intros [= <-]. cbn.
    work_done Ep.
  - scrape_at Ep. intros [= <-]. cbn. work_done Ep.
  - scrape_at Ep. intros [= <-]. cbn. work_done Ep.
  - scrape_at Ep. intros [= <-]. cbn. work_done Ep.
  - scrape_at Ep. intros [= <-]. cbn. work_done Ep.
  - destruct (run_at s) eqn:Er; try done. destruct (forallb _ _); [|done]. intros [= <-]. cbn. split_and!; [lia|done|done].
  - destruct (run_at s) eqn:Er; try done. case_decide; [|done]. intros [= <-]. cbn. split_and!; [lia|done|done].
  - destruct (run_at s) eqn:Er; try done. rewrite (inv_closed s Hi), Er. intros [= <-]. cbn. split_and!; [lia|done|done].
  - destruct (run_at s) eqn:Er; try done. intros [= <-]. cbn. split_and!; [lia|done|done].
Qed.

Lemma at_pc_of s j i pc : s.(scrapes) !! j = Some (i, pc) → at_pc j i s = Some pc.
Proof. intros H. unfold at_pc. rewrite H. cbn. by rewrite decide_True. Qed.

(** While work is left, some shutdown step is enabled. *)
Lemma shutdown_enabled s : inv s → s.(cancelled) = true → work s ≠ 0%nat → ∃ l s', shutdown_label l = true ∧ step l s = Some s'.
Proof.
  intros Hi Hc Hw. unfold work in Hw.
  destruct (decide (total_work loop_work (loops s) = 0%nat)) as [Hl|Hl].
  2: { apply total_work_0 in Hl as (i & pc & Hpc & Hx). exists (LLoopLeave i). cbn [step]. rewrite Hpc, Hc. by destruct pc; eauto. }
  destruct (decide (total_work scrape_work (scrapes s) = 0%nat)) as [Hs|Hs].
  2: { apply total_work_0 in Hs as (j & [i pc] & Hpc & Hx). pose proof (inv_index s Hi j i pc Hpc) as [e He].
       pose proof (inv_keys s Hi i e He) as [br Hbr]. pose proof (at_pc_of s j i pc Hpc) as Ha. destruct pc; try done.
       - exists (LScrapeErr j i "" 0). cbn [step]. rewrite Ha. unfold scraped. rewrite He. cbn. rewrite Hbr. cbn. by eauto.
       - exists (LSendDone j i). cbn [step]. rewrite Ha, Hc. by eauto.
       - exists (LClear j i). cbn [step]. rewrite Ha. by eauto.
       - exists (LRelease j i). cbn [step]. rewrite Ha. by eauto.
       - exists (LLeaveScrapes j i). cbn [step]. rewrite Ha. by eauto.
       - exists (LLeaveAll j i). cbn [step]. rewrite Ha. by eauto. }
  destruct (run_at s) eqn:Er; cbn in Hw; try lia.
  - exists LLoopsOver. cbn [step]. rewrite Er. assert (forallb (λ pc, match pc with LoopDone => true | _ => false end) (loops s) = true) as ->; [|by eauto].
    apply all_loops_done, Forall_lookup. intros i pc Hpc. pose proof (total_work_all loop_work _ i pc Hl Hpc). by destruct pc.
  - exists LScrapesOver. cbn [step]. rewrite Er. rewrite decide_True; [by eauto|]. rewrite (inv_scrapeWG s Hi).
    apply length_zero_iff_nil. destruct (filter _ (scrapes s)) as [|x l] eqn:Ef; [done|]. exfalso.
    assert (x ∈ filter (λ x, awaited x = true) (scrapes s)) as Hin by (rewrite Ef; constructor).
    apply list_elem_of_filter in Hin as [Ha Hin]. apply list_elem_of_lookup in Hin as [j Hj].
    pose proof (total_work_all scrape_work _ j x Hs Hj) as Hz. destruct x as [i []]; done.
  - exists LClose. cbn [step]. rewrite Er, (inv_closed s Hi), Er. by eauto.
  - exists LRunLeave. cbn [step]. rewrite Er. by eauto.
Qed.

Lemma no_work_left s : inv s → s.(running) = true → work s = 0%nat → s.(closed) = true ∧ stopped s = true.
Proof.
  intros Hi Hr Hw. unfold work in Hw. destruct (inv_started s Hi Hr) as (_ & _ & Hn).
  assert (run_at s = RunDone) as Er by (destruct (run_at s); cbn in Hw; try lia; done).
  rewrite (inv_closed s Hi), Er. split; [done|]. unfold stopped. apply bool_decide_eq_true. rewrite (inv_wg s Hi), Er. cbn.
  rewrite Nat.add_0_r. apply length_zero_iff_nil. destruct (filter _ (scrapes s)) as [|x l] eqn:Ef; [done|]. exfalso.
  assert (x ∈ filter (λ x, alive x = true) (scrapes s)) as Hin by (rewrite Ef; constructor).
  apply list_elem_of_filter in Hin as [Ha Hin]. apply list_elem_of_lookup in Hin as [j Hj].
  pose proof (total_work_all scrape_work (scrapes s) j x ltac:(lia) Hj) as Hz. destruct x as [i []]; done.
Qed.

Lemma shutdown_run n s : inv s → s.(running) = true → s.(cancelled) = true → work s = n →
  (∃ tr s', Forall (λ l, shutdown_label l = true) tr ∧ exec tr s = Some s' ∧ s'.(closed) = true ∧ stopped s' = true) ∧
  (∀ tr s', Forall (λ l, shutdown_label l = true) tr → exec tr s = Some s' → (length tr ≤ n)%nat).
Proof.
  revert s. induction n as [|n IH]; intros s Hi Hr Hc Hw.
  - split; [exists [], s; destruct (no_work_left s Hi Hr Hw); done|].
    intros [|l tr] s' Hs Hex; cbn in *; [lia|]. apply Forall_cons in Hs as [Hl _].
    destruct (step l s) as [s1|] eqn:E; [|done]. destruct (shutdown_step l s s1 Hi Hl E) as (? & _). lia.
  - split.
    + destruct (shutdown_enabled s Hi Hc) as (l & s1 & Hl & Hst); [lia|].
      destruct (shutdown_step l s s1 Hi Hl Hst) as (H1 & H2 & H3).
      destruct (IH s1) as [(tr & s' & Hs & Hex & ? & ?) _]; [by eapply step_inv|congruence|congruence|lia|].
      exists (l :: tr), s'. cbn. rewrite Hst. split_and!; [by constructor|done..].
    + intros [|l tr] s' Hs Hex; cbn in *; [lia|]. apply Forall_cons in Hs as [Hl Hs].
      destruct (step l s) as [s1|] eqn:E; cbn in Hex; [|done]. destruct (shutdown_step l s s1 Hi Hl E) as (H1 & H2 & H3).
      apply le_n_S. destruct (IH s1) as [_ Hb]; [by eapply step_inv|congruence|congruence|lia|]. by eapply Hb.
Qed.

(** C39: Whatever the scheduler is doing when it is cancelled, and with nobody reading its results, its
    goroutines can finish: once the checks under way have returned, a bounded number of steps
    closes the channel and empties the wait group [Stop] waits for, and every sequence of such
    steps is bounded by the work left. *)
Theorem shutdown_drains rnd opts es tr s0 s :
  add_all rnd es (NewScheduler opts) = Some s0 → exec tr s0 = Some s → s.(running) = true → s.(cancelled) = true →
  (∃ tr' s', Forall (λ l, shutdown_label l = true) tr' ∧ exec tr' s = Some s' ∧ s'.(closed) = true ∧ stopped s' = true) ∧
  (∀ tr' s', Forall (λ l, shutdown_label l = true) tr' → exec tr' s = Some s' → (length tr' ≤ work s)%nat).
Proof.
  intros Hadd Hex Hr Hc. apply (shutdown_run (work s)); [|done|done|done].
  eapply exec_inv; [|exact Hex]. eapply add_all_inv; [apply NewScheduler_inv|exact Hadd].
Qed.
End invariant.

(** ** A small schedule *)
Module Example_.

Definition key1 : breakerKey := mkScheduleEntry "pg" "locks" "".
Definition key2 : breakerKey := mkScheduleEntry "pg" "stat_statements" "app".

(** One worker, no jitter, two entries. *)
Definition opts : ScheduleOptions := mkScheduleOptions 1 true (10 * Second).
Definition schedule : list (breakerKey * Duration * Duration) := [(key1, 10 * Second, 0); (key2, Minute, 30 * Second)].
Definition s0 : Scheduler := default (NewScheduler opts) (add_all (Result := unit) (const 0) schedule (NewScheduler opts)).

(** A scrape of the first entry fails from its start to its last defer. *)
Definition failing (j : nat) (t : Time) : list (label (Result := unit)) :=
  [LTick 0 t; LAcquire 0; LTick 0 (t + 1); LScrapeErr j 0 "timeout" t; LSend j 0; LClear j 0; LRelease j 0; LLeaveScrapes j 0; LLeaveAll j 0].

(** Three failures of the first entry, then a scrape of the second one under way and waited for. *)
Definition tr : list label :=
  [LStart] ++ failing 0 (100 * Second) ++ failing 1 (110 * Second) ++ failing 2 (120 * Second) ++ [LTick 1 (125 * Second); LAcquire 1].

Definition s : Scheduler := default s0 (exec tr s0).

Lemma schedule_added : add_all (Result := unit) (const 0) schedule (NewScheduler opts) = Some s0.
Proof. reflexivity. Qed.

Lemma tr_runs : exec tr s0 = Some s.
Proof. vm_compute. reflexivity. Qed.

Lemma scheduler_safety_witness : s.(panicked) = false ∧ StronglySorted lt (sends 0 tr).
Proof.
  destruct (scheduler_safety (const 0) opts schedule tr s0 s schedule_added tr_runs) as (Hp & _ & _ & Hs & _).
  split; [exact Hp|apply Hs].
Defined.

Lemma sends_in_order : sends 0 tr = [0; 1; 2]%nat.
Proof. reflexivity. Qed.

(** The first entry waits a minute after its third failure. *)
Lemma entry_backs_off_witness :
  ∃ s', step (LTick 0 (130 * Second)) s = Some s' ∧ s'.(loops) !! 0%nat ≠ Some Acquire.
Proof.
  destruct (step (LTick 0 (130 * Second)) s) as [s'|] eqn:E; [|vm_compute in E; discriminate E].
  exists s'. split; [reflexivity|].
  assert (exists e, s0.(entries) !! 0%nat = Some e ∧ e.(entry_key) = key1) as (e & He & Hk) by (eexists; split; vm_compute; reflexivity).
  pose proof (entry_backs_off (const 0) opts schedule tr s0 s 0 e false (130 * Second) s' schedule_added tr_runs
    ltac:(vm_compute; discriminate) He ltac:(vm_compute; reflexivity) ltac:(vm_compute; reflexivity) E) as H.
  rewrite Hk in H. vm_compute in H. intros Ha. apply H in Ha as [_ [Ha|Ha]]; [discriminate Ha|]. by apply Ha.
Defined.

(** Stopping while the second entry's check runs and nobody reads the results. *)
Lemma shutdown_drains_witness : ∃ tr' s', exec tr' (cancel s) = Some s' ∧ s'.(closed) = true ∧ stopped s' = true.
Proof.
  assert (exec (tr ++ [LStop]) s0 = Some (cancel s)) as Hs by (rewrite exec_snoc, tr_runs; reflexivity).
  destruct (shutdown_drains (const 0) opts schedule (tr ++ [LStop]) s0 (cancel s) schedule_added Hs) as [(tr' & s' & _ & H1 & H2 & H3) _];
    [vm_compute; reflexivity|reflexivity|].
  exists tr', s'. split; [exact H1|]. split; [exact H2|exact H3].
Defined.
End Example_.
