(* ===== verification/Executors.v ===== *)
(** * The executors of commands (internal/agent/exec_explain.go, exec_signal.go, exec_pgstattuple.go)

    What an agent does to a monitored database on request: it explains a statement that
    pg_stat_statements recorded, signals a backend, or measures a table. What is sent on the
    connection is a trace of events, in order, with the ROLLBACK of the deferred call; what
    PostgreSQL answers is an argument. The checks of the statement and the database are
    [ExplainGuard]'s. A refusal carries its reason and not the text made of it. *)
From S2P Require Import Prelude GoTime GoFloat GoBytes GoText GoJson Pgtype Redact Command CommandAgent ExplainGuard.
From S2P Require AgentConfig Identity.

(** ** Statements *)

Definition blank (c : byte) : bool := bool_decide (c ∈ [x20; x09; x0d; x0a]).

Fixpoint trim_left (s : text) : text := match s with c :: s' => if blank c then trim_left s' else s | [] => [] end.

(** [strings.TrimRight(statement, " \t\r\n;")]. *)
Fixpoint trim_right (s : text) : text :=
  match s with
  | [] => []
  | c :: s => match trim_right s with [] => if blank c || bool_decide (c = ";"%byte) then [] else [c] | t => c :: t end
  end.

Definition singleStatement (statement : text) : option text :=
  let trimmed := trim_right statement in
  if bool_decide (trimmed = []) || contains [";"%byte] trimmed then None else Some trimmed.

(** The pattern [\$[0-9]+] matches somewhere. *)
Fixpoint hasParameterPlaceholders (s : text) : bool :=
  match s with
  | c :: s => bool_decide (c = "$"%byte) && match s with d :: _ => is_digit d | [] => false end || hasParameterPlaceholders s
  | [] => false
  end.

Definition readOnlyExplainKeyword (keyword : text) : bool := bool_decide (keyword ∈ [str "SELECT"; str "VALUES"; str "WITH"; str "TABLE"]).
Definition allowedExplainKeyword (keyword : text) : bool :=
  bool_decide (keyword ∈ [str "SELECT"; str "INSERT"; str "UPDATE"; str "DELETE"; str "MERGE"; str "VALUES"; str "WITH"; str "TABLE"]).

(** [blockCommentEnd], from the nesting reached. *)
Fixpoint comment_end (depth : Z) (s : text) : option nat :=
  match s with
  | a :: ((b :: s') as tail) =>
      if bool_decide (a = "/"%byte) && bool_decide (b = "*"%byte) then (λ n, 2 + n)%nat <$> comment_end (depth + 1) s'
      else if bool_decide (a = "*"%byte) && bool_decide (b = "/"%byte) then
        if depth - 1 =? 0 then Some 2%nat else (λ n, 2 + n)%nat <$> comment_end (depth - 1) s'
      else S <$> comment_end depth tail
  | _ => None
  end.

Definition blockCommentEnd : text → option nat := comment_end 0.

(** [strings.IndexAny(statement, "\r\n")]. *)
Fixpoint line_end (s : text) : option nat :=
  match s with [] => None | c :: s => if bool_decide (c ∈ [x0d; x0a]) then Some 0%nat else S <$> line_end s end.

Definition is_letter (c : byte) : bool := is_upper c || is_lower c.

(** A turn of the loop leaves at least two bytes behind. *)
Fixpoint first_keyword (fuel : nat) (statement : text) : option text :=
  match fuel with
  | O => None
  | S fuel =>
      let statement := trim_left statement in
      if has_prefix (str "--") statement then
        match line_end statement with Some n => first_keyword fuel (drop (S n) statement) | None => Some [] end
      else if has_prefix (str "/*") statement then
        match blockCommentEnd statement with Some n => first_keyword fuel (drop n statement) | None => Some [] end
      else Some (AgentConfig.upper_byte <$> take (count_while is_letter statement) statement)
  end.

Definition firstSQLKeyword (statement : text) : text := default [] (first_keyword (S (length statement)) statement).

(** ** Plan hashes *)

Definition structuralPlanKeys : list text :=
  str <$> ["Plan"; "Plans"; "Node Type"; "Parent Relationship"; "Parallel Aware"; "Async Capable"; "Join Type"; "Partial Mode"; "Strategy";
    "Scan Direction"; "Command"; "Operation"; "Relation Name"; "Schema"; "Alias"; "Index Name"; "Function Name"; "CTE Name"; "Subplan Name";
    "Filter"; "Index Cond"; "Recheck Cond"; "Hash Cond"; "Merge Cond"; "Join Filter"; "One-Time Filter"; "Sort Key"; "Group Key"; "Output";
    "Workers Planned"; "Inner Unique"].

Fixpoint structuralPlanFields (v : json) : json :=
  match v with
  | JArray l => JArray (List.map structuralPlanFields l)
  | JObject l => JObject (List.flat_map (λ p, if bool_decide (p.1 ∈ structuralPlanKeys) then [(p.1, structuralPlanFields p.2)] else []) l)
  | v => v
  end.

Definition planHash `{JsonCodec, Identity.Digest} (plan : text) : option string :=
  value ← json_Unmarshal plan;
  canonical ← json_Marshal (structuralPlanFields value);
  Some (Identity.sha256_hex (String.string_of_list_byte canonical)).

(** ** Explaining *)

Inductive event :=
| EBegin                                           (* BEGIN READ ONLY *)
| ETimeout (seconds : Z)                           (* SET LOCAL statement_timeout *)
| ESearchPath                                      (* SET LOCAL search_path TO DEFAULT *)
| EGuardPlanning
| EDropPrivileges
| EGuardCalls (statement : text)                   (* the lookups of guardAnalyze before the plan *)
| EInspect (statement : text)                      (* guardAnalyze's own EXPLAIN, and the lookup of what its plan calls *)
| EExplain (analyze generic : bool) (statement : text)
| ECurrentDatabase
| EExtensionSchema
| EResolve (schema relation : text)
| EScan (oid : Z)
| ERollback.

Inductive refusal :=
| QueryIDRequired | QueryIDUnknown | NoStatements | NotSingle | StatementCredential | KeywordUnsafe (keyword : text)
| AnalyzeWrites (keyword : text) | AnalyzeParameters | GenericPlanNeeds16 | GuardRefused | NeedsPrivilege (keyword : text) | CannotExplain
| PlanCredential | ExtensionMissing | NotATable (relkind : text)
| PIDRequired | PIDAbsent | NotAClient | OwnBackend | OtherSession | SessionGone.

Inductive outcome (A : Type) := Done (a : A) | Refused (r : refusal) | Broke (e : exec_error).
Arguments Done {A} _. Arguments Refused {A} _. Arguments Broke {A} _.

(** A run so far: how it stands, and what was sent. *)
Definition run (A : Type) : Type := outcome A * list event.

#[export] Instance run_ret : MRet run := λ A a, (Done a, []).
#[export] Instance run_bind : MBind run := λ A B f m,
  match m with
  | (Done a, ev) => let '(r, ev') := f a in (r, ev ++ ev')
  | (Refused r, ev) => (Refused r, ev)
  | (Broke e, ev) => (Broke e, ev)
  end.

Definition refuse {A} (r : refusal) : run A := (Refused r, []).
Definition refuse_if (b : bool) (r : refusal) : run unit := if b then refuse r else mret tt.
Definition send (e : event) (err : option exec_error) : run unit := (match err with None => Done tt | Some x => Broke x end, [e]).
Definition ask {A} (e : event) (answer : exec_error + A) : run A := (match answer with inl x => Broke x | inr a => Done a end, [e]).
Definition guard (e : event) (v : verdict) (err : exec_error) : run unit :=
  (match v with Accepted => Done tt | Rejected => Refused GuardRefused | QueryFailed => Broke err end, [e]).
(** The deferred ROLLBACK. *)
Definition rolled_back {A} (m : run A) : run A := (m.1, m.2 ++ [ERollback]).

(** What a read of the recorded text answers. *)
Inductive recorded := Recorded (t : text) | NoRows | UndefinedTable | ReadFailed (e : exec_error).

Record explain_env := mkExplainEnv {
  x_conn : option exec_error;
  x_read : recorded;                    (* on the command's connection *)
  x_source : option exec_error;         (* StatementsConn *)
  x_read_source : recorded;             (* on the database with the view *)
  x_major : Z;
  x_begin : option exec_error;
  x_timeout : option exec_error;
  x_search_path : option exec_error;
  x_session : session;
  x_guard_error : exec_error;
  x_plan : (exec_error * bool) + text;  (* whether the error is a missing privilege *)
  x_hash_error : exec_error;
  x_database : exec_error + text;
}.

Definition lookupStatement (env : explain_env) (datname : text) : recorded :=
  match env.(x_read) with
  | UndefinedTable =>
      if bool_decide (datname = []) then UndefinedTable
      else match env.(x_source) with Some e => ReadFailed e | None => env.(x_read_source) end
  | r => r
  end.

Record plan_result := mkPlanResult { pr_plan : text; pr_hash : string; pr_datname : text }.

Section explain.
Context `{JsonCodec, Identity.Digest} (unicode_lower : text → text). (* strings.ToLower *)

Definition recorded_statement (r : recorded) : run text :=
  match r with Recorded t => mret t | NoRows => refuse QueryIDUnknown | UndefinedTable => refuse NoStatements | ReadFailed e => (Broke e, []) end.

(** The EXPLAIN and what is made of its answer. *)
Definition explain_plan (env : explain_env) (analyze generic : bool) (keyword statement : text) : run plan_result :=
  plan ← (match env.(x_plan) with
    | inr plan => Done plan
    | inl (e, privilege) =>
        if negb (readOnlyExplainKeyword keyword) && privilege then Refused (NeedsPrivilege keyword)
        else if negb analyze then Refused CannotExplain else Broke e
    end, [EExplain analyze generic statement]) : run text;
  _ ← refuse_if (MayHoldCredential plan) PlanCredential;
  hash ← (match planHash plan with Some h => Done h | None => Broke env.(x_hash_error) end, []) : run string;
  datname ← ask ECurrentDatabase env.(x_database);
  mret (mkPlanResult plan hash datname).

(** From the transaction on. *)
Definition explain_body (env : explain_env) (analyze generic : bool) (keyword statement : text) : run plan_result :=
  _ ← send (ETimeout (if analyze then 30 else 15)) env.(x_timeout);
  _ ← send ESearchPath env.(x_search_path);
  _ ← guard EGuardPlanning (guardPlanning env.(x_session)) env.(x_guard_error);
  _ ← guard EDropPrivileges (dropExplainPrivileges env.(x_session) analyze).1 env.(x_guard_error);
  _ ← (if analyze then
         _ ← guard (EGuardCalls statement) (guard_calls unicode_lower env.(x_session) statement) env.(x_guard_error);
         guard (EInspect statement) (guard_plan unicode_lower env.(x_session) statement) env.(x_guard_error)
       else mret tt);
  explain_plan env analyze generic keyword statement.

Definition Explain_Execute (env : explain_env) (args : Args) : run plan_result :=
  _ ← refuse_if (bool_decide (args.(QueryID) = None)) QueryIDRequired;
  _ ← (match env.(x_conn) with None => Done tt | Some e => Broke e end, []) : run unit;
  text ← recorded_statement (lookupStatement env args.(Datname));
  statement ← (match singleStatement text with Some s => mret s | None => refuse NotSingle end) : run (list byte);
  _ ← refuse_if (MayHoldCredential statement) StatementCredential;
  let keyword := firstSQLKeyword statement in
  _ ← refuse_if (negb (allowedExplainKeyword keyword)) (KeywordUnsafe keyword);
  let hasParams := hasParameterPlaceholders statement in
  _ ← refuse_if (args.(Analyze) && negb (readOnlyExplainKeyword keyword)) (AnalyzeWrites keyword);
  _ ← refuse_if (args.(Analyze) && hasParams) AnalyzeParameters;
  let generic := negb args.(Analyze) && hasParams in
  _ ← refuse_if (generic && (env.(x_major) <? 16)) GenericPlanNeeds16;
  _ ← send EBegin env.(x_begin);
  rolled_back (explain_body env args.(Analyze) generic keyword statement).
End explain.

(** ** Measuring a table *)

Record figures := mkFigures {
  fg_TableLen : Z; fg_TupleCount : Z; fg_TupleLen : Z; fg_DeadTupleCount : Z; fg_DeadTupleLen : Z; fg_FreeSpace : Z; fg_FreePercent : float64;
}.

Record tuple_env := mkTupleEnv {
  t_conn : option exec_error;
  t_begin : option exec_error;
  t_timeout : option exec_error;
  t_schema : recorded;                       (* ExtensionSchema: the schema, or why not *)
  t_class : exec_error + Z * text;           (* the relation's OID and kind *)
  t_scan : exec_error + text * figures;      (* the database and the figures *)
}.

Record tuple_result := mkTupleResult { tr_datname : text; tr_schema : text; tr_relation : text; tr_figures : figures }.

Definition Pgstattuple_Execute (env : tuple_env) (args : Args) : run tuple_result :=
  _ ← (match env.(t_conn) with None => Done tt | Some e => Broke e end, []) : run unit;
  _ ← send EBegin env.(t_begin);
  rolled_back (
    _ ← send (ETimeout 50) env.(t_timeout);
    _ ← (match env.(t_schema) with
      | Recorded _ => Done tt
      | NoRows | UndefinedTable => Refused ExtensionMissing
      | ReadFailed e => Broke e
      end, [EExtensionSchema]) : run unit;
    oid_kind ← ask (EResolve args.(Schema) args.(Relation)) env.(t_class);
    _ ← refuse_if (negb (bool_decide (oid_kind.2 = str "r"))) (NotATable oid_kind.2);
    scan ← ask (EScan oid_kind.1) env.(t_scan);
    mret (mkTupleResult scan.1 args.(Schema) args.(Relation) scan.2)).

(** ** Signals *)

(** A row of pg_stat_activity. *)
Record backend := mkBackend { b_pid : Z; b_type : text; b_application : text; b_user : option text; b_start : option Time }.

Definition isPglensApplication (name : text) : bool :=
  bool_decide (name = str "pglens") || has_prefix (str "pglens/") name || has_prefix (str "pglens-agent/") name.

(** [s_before] is pg_stat_activity when the backend is checked, [s_now] when the statement
    that signals runs. That statement may fail before it ran or after, when its answer is
    lost. [s_delivered] is what pg_cancel_backend or pg_terminate_backend returns for a row. *)
Record signal_env := mkSignalEnv {
  s_conn : option exec_error;
  s_read : option exec_error;
  s_before : list backend;
  s_signal : option (exec_error * bool); (* the error, and whether the server ran the statement *)
  s_now : list backend;
  s_current_user : text;
  s_own_pid : Z;
  s_delivered : backend → bool;
}.

Record signal_result := mkSignalResult { sr_PID : Z; sr_Signalled : bool; sr_ApplicationName : text; sr_Username : text }.

(** The rows the statement selects: for these it calls the function. *)
Definition signalVerifiedBackend (env : signal_env) (pid : Z) (started : option Time) : list backend :=
  filter (λ b, b.(b_pid) = pid ∧ (b.(b_start) = started ∧ started ≠ None) ∧ b.(b_type) = str "client backend" ∧ b.(b_user) ≠ Some env.(s_current_user) ∧
    pid ≠ env.(s_own_pid) ∧ isPglensApplication b.(b_application) = false) env.(s_now).

(** [UnixMicro] *)
Definition micro (t : Time) : Z := t / 1000.

(** The answer, and the backends the function was called for. *)
Definition Signal_Execute (env : signal_env) (args : Args) : outcome signal_result * list backend :=
  match args.(PID) with
  | None => (Refused PIDRequired, [])
  | Some pid =>
  match env.(s_conn) with
  | Some e => (Broke e, [])
  | None =>
  match env.(s_read) with
  | Some e => (Broke e, [])
  | None =>
  match find (λ b, b.(b_pid) =? pid) env.(s_before) with
  | None => (Refused PIDAbsent, [])
  | Some b =>
      if negb (bool_decide (b.(b_type) = str "client backend")) then (Refused NotAClient, [])
      else if (pid =? env.(s_own_pid)) || bool_decide (b.(b_user) = Some env.(s_current_user)) || isPglensApplication b.(b_application) then (Refused OwnBackend, [])
      else if match args.(BackendStart), b.(b_start) with None, _ => false | Some _, None => true | Some want, Some t => negb (micro t =? micro want) end
      then (Refused OtherSession, [])
      else match env.(s_signal) with
      | Some (e, ran) => (Broke e, if ran : bool then signalVerifiedBackend env pid b.(b_start) else [])
      | None =>
          match signalVerifiedBackend env pid b.(b_start) with
          | [] => (Refused SessionGone, [])
          | row :: rows => (Done (mkSignalResult pid (env.(s_delivered) row) b.(b_application) (default [] b.(b_user))), row :: rows)
          end
      end
  end end end end.

(** ** Theorems: explaining *)

#[local] Arguments refuse_if : simpl never.
#[local] Arguments MayHoldCredential : simpl never.
#[local] Arguments firstSQLKeyword : simpl never.
#[local] Arguments explain_body : simpl never.
#[local] Arguments explain_plan : simpl never.
#[local] Arguments rolled_back : simpl never.

Lemma refuse_if_cases (b : bool) r : b = true ∧ refuse_if b r = (Refused r, []) ∨ b = false ∧ refuse_if b r = (Done tt, []).
Proof. destruct b; auto. Qed.

(** A run that ended before anything was sent. *)
Ltac refused := left; by split.

Section guarded.
Context `{JsonCodec, Identity.Digest} (unicode_lower : text → text) (env : explain_env).

(** Everything an undisturbed run sends between BEGIN and ROLLBACK, in order. *)
Definition setup (analyze : bool) (statement : text) : list event :=
  [ETimeout (if analyze then 30 else 15); ESearchPath; EGuardPlanning; EDropPrivileges] ++
  (if analyze then [EGuardCalls statement; EInspect statement] else []).
Definition conversation (analyze generic : bool) (statement : text) : list event :=
  setup analyze statement ++ [EExplain analyze generic statement; ECurrentDatabase].
#[local] Arguments setup : simpl never.

(** What must have answered before the statement is planned, by the guard or for the
    result, and before it is executed or the result's plan is made. *)
Definition may_plan (analyze : bool) (statement : text) : Prop :=
  guardPlanning env.(x_session) = Accepted ∧ (dropExplainPrivileges env.(x_session) analyze).1 = Accepted ∧
  (analyze = true → guard_calls unicode_lower env.(x_session) statement = Accepted).
Definition may_explain (analyze : bool) (statement : text) : Prop :=
  may_plan analyze statement ∧ (analyze = true → guardAnalyze unicode_lower env.(x_session) statement = Accepted).

Definition done_ok (r : outcome plan_result) : Prop := ∀ p, r = Done p →
  env.(x_plan) = inr p.(pr_plan) ∧ MayHoldCredential p.(pr_plan) = false ∧ planHash p.(pr_plan) = Some p.(pr_hash) ∧ env.(x_database) = inr p.(pr_datname).

(** What was sent in the transaction, and under which answers. *)
Definition body_ok (analyze generic : bool) (statement : text) (r : outcome plan_result) (sent : list event) : Prop :=
  sent `prefix_of` conversation analyze generic statement ∧
  (EInspect statement ∈ sent → may_plan analyze statement) ∧
  (∀ e, e ∈ sent → match e with EExplain _ _ _ => may_explain analyze statement | _ => True end) ∧
  ((∃ p, r = Done p) → sent = conversation analyze generic statement) ∧ done_ok r.

(** A run that stopped before the statement was planned. *)
Lemma body_early (analyze : bool) generic statement (r : outcome plan_result) n : (n ≤ if analyze then 5 else 4)%nat → (∀ p, r ≠ Done p) →
  body_ok analyze generic statement r (take n (setup analyze statement)).
Proof.
  intros Hn Hr. split; [apply prefix_app_r, prefix_take|].
  assert (Forall (λ e, match e with EExplain _ _ _ | EInspect _ => False | _ => True end) (take n (setup analyze statement))) as Hq.
  { rewrite <- (Nat.min_l n (if analyze then 5 else 4)%nat), <- take_take by done. apply Forall_take. unfold setup. destruct analyze; by repeat constructor. }
  rewrite Forall_forall in Hq.
  split_and!; [intros He; by apply Hq in He|intros e He; specialize (Hq e He); by destruct e|intros [p Hp]; by apply Hr in Hp|intros p Hp; by apply Hr in Hp].
Qed.

(** A run that got as far as the guard's own plan, or past it. *)
Lemma body_late analyze generic statement (r : outcome plan_result) n : may_plan analyze statement → (n ≤ 2)%nat → (0 < n → may_explain analyze statement)%nat →
  ((∃ p, r = Done p) → n = 2%nat) → done_ok r →
  body_ok analyze generic statement r (setup analyze statement ++ take n [EExplain analyze generic statement; ECurrentDatabase]).
Proof.
  intros Hp Hn He Hd Hr. split; [apply prefix_app, prefix_take|]. split; [done|]. split_and!; [|by intros ->%Hd|done].
  intros e Hin. destruct e; try done. apply He. apply elem_of_app in Hin as [Hin|Hin]; [|destruct n; [by apply elem_of_nil in Hin|lia]].
  exfalso. destruct analyze; unfold setup in Hin; cbn in Hin; rewrite !elem_of_cons, elem_of_nil in Hin; naive_solver.
Qed.

Lemma body_spec analyze generic keyword statement :
  let '(r, sent) := explain_body unicode_lower env analyze generic keyword statement in body_ok analyze generic statement r sent.
Proof.
  assert (∀ (r : outcome plan_result) n, (n ≤ 4)%nat → (∀ p, r ≠ Done p) → body_ok analyze generic statement r (take n (setup analyze statement))) as Hearly.
  { intros r n Hn. apply body_early. destruct analyze; lia. }
  unfold explain_body, send, guard. destruct (x_timeout env); cbn; [by apply (Hearly _ 1%nat); [lia|]|]. destruct (x_search_path env); cbn; [by apply (Hearly _ 2%nat); [lia|]|].
  destruct (guardPlanning (x_session env)) eqn:Hp; cbn; [|by apply (Hearly _ 3%nat); [lia|]..].
  destruct (dropExplainPrivileges (x_session env) analyze) as [v dropped] eqn:Hd; cbn. destruct v; cbn; [|by apply (Hearly _ 4%nat); [lia|]..].
  clear Hearly.
  assert (may_explain analyze statement → let '(r, sent) := explain_plan env analyze generic keyword statement in
    body_ok analyze generic statement r (setup analyze statement ++ sent)) as Hrest.
  { intros Ha. unfold explain_plan. destruct (x_plan env) as [[e privilege]|plan] eqn:Hx.
    { destruct (negb (readOnlyExplainKeyword keyword) && privilege), (negb analyze); cbn; (apply (body_late analyze generic statement _ 1%nat); [apply Ha|lia|done|by intros [p ?]|by intros p]). }
    cbn. destruct (refuse_if_cases (MayHoldCredential plan) PlanCredential) as [[Hc ->]|[Hc ->]]; cbn.
    { apply (body_late analyze generic statement _ 1%nat); [apply Ha|lia|done|by intros [p ?]|by intros p]. }
    destruct (planHash plan) as [hash|] eqn:Hh; cbn.
    2: { apply (body_late analyze generic statement _ 1%nat); [apply Ha|lia|done|by intros [p ?]|by intros p]. }
    destruct (x_database env) as [e|datname] eqn:Hdb; cbn; (apply (body_late analyze generic statement _ 2%nat); [apply Ha|lia|done|done|]); intros p; [done|]. intros [= <-]. done. }
  destruct analyze.
  - cbn [mbind run_bind]. destruct (guard_calls unicode_lower (x_session env) statement) eqn:Hg; cbn; [|by apply (body_early true _ _ _ 5%nat); [lia|]..].
    assert (may_plan true statement) as Hplan by (split; [done|]; split; [by rewrite Hd|done]).
    destruct (guard_plan unicode_lower (x_session env) statement) eqn:Hg2; cbn; [|by apply (body_late true _ _ _ 0%nat); [done|lia|lia|intros [p ?]|intros p]..].
    destruct (explain_plan _ _ _ _ _) as [r sent]. apply Hrest. split; [done|]. intros _. unfold guardAnalyze. by rewrite Hg.
  - cbn. destruct (explain_plan _ _ _ _ _) as [r sent]. apply Hrest. split; [|done]. split; [done|]. split; [by rewrite Hd|done].
Qed.

End guarded.

(** ** Theorems: the first keyword *)

(** What may stand before a statement: blanks, line comments and nested block comments. *)
Inductive lead := LBlank (c : byte) | LLine (t : text) (ending : byte) | LBlock (l : list (bool + byte)).

Definition write_lead (x : lead) : text :=
  match x with
  | LBlank c => [c]
  | LLine t e => "-"%byte :: "-"%byte :: t ++ [e]
  | LBlock l => "/"%byte :: "*"%byte :: write_block l ++ ["*"%byte; "/"%byte]
  end.

Definition lead_ok (x : lead) : Prop :=
  match x with
  | LBlank c => blank c = true
  | LLine t e => Forall (λ c, c ≠ x0d ∧ c ≠ x0a) t ∧ e ∈ [x0d; x0a]
  | LBlock l => block_ok 0 l
  end.

Lemma line_end_spec t e r : Forall (λ c, c ≠ x0d ∧ c ≠ x0a) t → e ∈ [x0d; x0a] → line_end (t ++ e :: r) = Some (length t).
Proof.
  intros Ht He. induction Ht as [|c t [H1 H2] _ IH]; cbn; [by rewrite bool_decide_eq_true_2|].
  rewrite bool_decide_eq_false_2, IH; [done|]. rewrite !elem_of_cons, elem_of_nil. tauto.
Qed.

Lemma comment_end_other depth a b s : pair_free a b → comment_end depth (a :: b :: s) = S <$> comment_end depth (b :: s).
Proof.
  intros [E1 E2]%pair_free_spec. change (comment_end depth (a :: b :: s)) with
    (if bool_decide (a = "/"%byte) && bool_decide (b = "*"%byte) then (λ n, 2 + n)%nat <$> comment_end (depth + 1) s
     else if bool_decide (a = "*"%byte) && bool_decide (b = "/"%byte) then
       if depth - 1 =? 0 then Some 2%nat else (λ n, 2 + n)%nat <$> comment_end (depth - 1) s
     else S <$> comment_end depth (b :: s)).
  by rewrite E1, E2.
Qed.

Lemma comment_end_spec l depth r : block_ok depth l →
  comment_end (Z.of_nat (S depth)) (write_block l ++ "*"%byte :: "/"%byte :: r) = Some (length (write_block l) + 2)%nat.
Proof.
  revert depth. induction l as [|[[]|c] l IH]; intros depth Hok.
  - cbn in Hok. subst depth. done.
  - change (write_block (inl true :: l)) with ("/"%byte :: "*"%byte :: write_block l). cbn [app comment_end block_ok] in *. rewrite !bool_decide_refl. cbn [andb].
    replace (Z.of_nat (S depth) + 1) with (Z.of_nat (S (S depth))) by lia. by rewrite (IH (S depth) Hok).
  - change (write_block (inl false :: l)) with ("*"%byte :: "/"%byte :: write_block l). cbn [app comment_end block_ok] in *. destruct depth as [|d]; [done|].
    rewrite !bool_decide_refl, (bool_decide_eq_false_2 ("*"%byte = "/"%byte)) by done. cbn [andb].
    destruct (Z.eqb_spec (Z.of_nat (S (S d)) - 1) 0); [lia|]. replace (Z.of_nat (S (S d)) - 1) with (Z.of_nat (S d)) by lia. by rewrite (IH d Hok).
  - change (write_block (inr c :: l)) with (c :: write_block l). cbn [block_ok] in Hok. destruct Hok as (Hc & Hok). specialize (IH depth Hok). cbn [app].
    destruct (write_block l ++ "*"%byte :: "/"%byte :: r) as [|b s] eqn:E; [by destruct (write_block l)|].
    rewrite comment_end_other by (by rewrite (head_closing _ _ _ _ E)). by rewrite IH.
Qed.

Lemma first_keyword_lead fuel x s : lead_ok x →
  first_keyword (S fuel) (write_lead x ++ s) = first_keyword (match x with LBlank _ => S fuel | _ => fuel end) s.
Proof.
  intros Hok. destruct x as [c|t e|l]; cbn [lead_ok write_lead] in *.
  - cbn [app first_keyword trim_left]. by rewrite Hok.
  - destruct Hok as [Ht He].
    assert (("-"%byte :: "-"%byte :: t ++ [e]) ++ s = (["-"%byte; "-"%byte] ++ t) ++ e :: s) as -> by (cbn; by rewrite <- app_assoc).
    assert (trim_left ((["-"%byte; "-"%byte] ++ t) ++ e :: s) = (["-"%byte; "-"%byte] ++ t) ++ e :: s) as Htrim by done.
    change (first_keyword (S fuel) ?x) with (let statement := trim_left x in
      if has_prefix (str "--") statement then match line_end statement with Some n => first_keyword fuel (drop (S n) statement) | None => Some [] end
      else if has_prefix (str "/*") statement then match blockCommentEnd statement with Some n => first_keyword fuel (drop n statement) | None => Some [] end
      else Some (AgentConfig.upper_byte <$> take (count_while is_letter statement) statement)).
    cbv zeta. rewrite Htrim, (line_end_spec _ e s); [|by repeat (apply Forall_cons; split; [done|])|done].
    assert (has_prefix (str "--") ((["-"%byte; "-"%byte] ++ t) ++ e :: s) = true) as -> by done.
    f_equal. rewrite drop_app_ge by lia. by replace (S (length (["-"%byte; "-"%byte] ++ t)) - length (["-"%byte; "-"%byte] ++ t))%nat with 1%nat by lia.
  -
    assert (("/"%byte :: "*"%byte :: write_block l ++ ["*"%byte; "/"%byte]) ++ s = "/"%byte :: "*"%byte :: write_block l ++ "*"%byte :: "/"%byte :: s) as -> by (cbn; by rewrite <- app_assoc).
    set (r := write_block l ++ "*"%byte :: "/"%byte :: s).
    change (first_keyword (S fuel) ("/"%byte :: "*"%byte :: r)) with
      (match (λ n, 2 + n)%nat <$> comment_end (Z.of_nat 1) r with Some n => first_keyword fuel (drop n ("/"%byte :: "*"%byte :: r)) | None => Some [] end).
    unfold r. rewrite comment_end_spec by done. cbn [fmap option_fmap option_map]. f_equal. cbn [Nat.add drop].
    rewrite drop_app_ge by lia. by replace (length (write_block l) + 2 - length (write_block l))%nat with 2%nat by lia.
Qed.

Lemma letter_start c : is_letter c = true → blank c = false ∧ "-"%byte ≠ c ∧ "/"%byte ≠ c.
Proof. destruct c; try done; intros _; by vm_compute. Qed.

Lemma trim_left_letter c s : blank c = false → trim_left (c :: s) = c :: s.
Proof. cbn. by intros ->. Qed.

(** C7: After any blanks (spaces, tabs, line feeds, carriage returns) and comments, line
    comments up to the line feed or carriage return that ends them and block comments with
    any bytes and any nesting, the keyword the gates look at is the letters that follow, in
    upper case. *)
Theorem first_keyword_exact leads keyword rest :
  Forall lead_ok leads → keyword ≠ [] → forallb is_letter keyword = true → match rest with c :: _ => is_letter c = false | [] => True end →
  firstSQLKeyword ((leads ≫= write_lead) ++ keyword ++ rest) = AgentConfig.upper_byte <$> keyword.
Proof.
  intros Hl Hne Hk Hr. unfold firstSQLKeyword.
  enough (∀ fuel, (length leads < fuel)%nat → first_keyword fuel ((leads ≫= write_lead) ++ keyword ++ rest) = Some (AgentConfig.upper_byte <$> keyword)) as Hf.
  { rewrite Hf; [done|]. assert (length leads ≤ length (leads ≫= write_lead))%nat; [|rewrite length_app; lia].
    clear -Hl. induction leads as [|x leads IH]; [done|]. rewrite bind_cons, length_app. apply Forall_cons in Hl as [_ Hl]. specialize (IH Hl). destruct x; cbn; lia. }
  revert Hl. induction leads as [|x leads IH]; intros Hl fuel Hf.
  - destruct fuel as [|fuel]; [cbn in Hf; lia|]. cbn [mbind list_bind app].
    destruct keyword as [|c keyword]; [done|]. assert (is_letter c = true) as Hc by (cbn in Hk; by apply andb_true_iff in Hk as [? _]).
    destruct (letter_start c Hc) as (Hb & Hd & Hs). cbn [first_keyword app]. rewrite (trim_left_letter c _ Hb).
    assert (has_prefix (str "--") (c :: keyword ++ rest) = false) as -> by (cbn; by rewrite bool_decide_eq_false_2).
    assert (has_prefix (str "/*") (c :: keyword ++ rest) = false) as -> by (cbn; by rewrite bool_decide_eq_false_2).
    change (c :: keyword ++ rest) with ((c :: keyword) ++ rest). rewrite count_while_app by done. by rewrite take_app_length.
  - apply Forall_cons in Hl as [Hx Hl]. destruct fuel as [|fuel]; [cbn in Hf; lia|]. cbn in Hf. rewrite bind_cons, <- app_assoc, first_keyword_lead by done.
    apply IH; [done|]. destruct x; lia.
Qed.

(** ** Theorems: plan hashes *)

(** One figure of a plan, at any depth, is taken away: read from right to left, it is added. *)
Inductive without_figure : json → json → Prop :=
| wf_here l1 k v l2 : k ∉ structuralPlanKeys → without_figure (JObject (l1 ++ (k, v) :: l2)) (JObject (l1 ++ l2))
| wf_field l1 k v v' l2 : without_figure v v' → without_figure (JObject (l1 ++ (k, v) :: l2)) (JObject (l1 ++ (k, v') :: l2))
| wf_item l1 v v' l2 : without_figure v v' → without_figure (JArray (l1 ++ v :: l2)) (JArray (l1 ++ v' :: l2)).

Lemma figure_structural v v' : without_figure v v' → structuralPlanFields v = structuralPlanFields v'.
Proof.
  induction 1 as [l1 k v l2 Hk|l1 k v v' l2 _ IH|l1 v v' l2 _ IH]; cbn [structuralPlanFields].
  - rewrite !flat_map_app. cbn [flat_map fst]. by rewrite bool_decide_eq_false_2.
  - rewrite !flat_map_app. cbn [flat_map fst snd]. by rewrite IH.
  - rewrite !map_app. cbn [List.map]. by rewrite IH.
Qed.

(** The hash moves with the plan's shape only: adding, removing or changing costs, row counts,
    timings, buffers and whatever else is no structural key, anywhere in the plan, keeps it. *)
Theorem plan_hash_ignores_figures `{JsonCodec, Identity.Digest} plan plan' v v' :
  json_Unmarshal plan = Some v → json_Unmarshal plan' = Some v' → rtsc without_figure v v' → planHash plan = planHash plan'.
Proof.
  intros Hp Hp' Hs. unfold planHash. rewrite Hp, Hp'. cbn [mbind option_bind].
  assert (structuralPlanFields v = structuralPlanFields v') as ->; [|done].
  clear Hp Hp'. induction Hs as [v|v w v' [Hw|Hw] _ IH]; [done| |]; rewrite <- IH; [|symmetry]; by apply figure_structural.
Qed.

(** ** Theorems: measuring *)

(** A relation is scanned only in a read-only transaction that is rolled back, by the
    identifier its name had when its kind was read, and only when it is an ordinary table. *)
Theorem pgstattuple_scans_tables env args :
  let '(r, trace) := Pgstattuple_Execute env args in
  (Forall (λ e, match e with EScan _ => False | _ => True end) trace ∧ ∀ x, r ≠ Done x) ∨
  ∃ oid, env.(t_class) = inr (oid, str "r") ∧ trace = [EBegin; ETimeout 50; EExtensionSchema; EResolve args.(Schema) args.(Relation); EScan oid; ERollback] ∧
    ∀ x, r = Done x → env.(t_scan) = inr (x.(tr_datname), x.(tr_figures)).
Proof.
  unfold Pgstattuple_Execute, send. destruct (t_conn env); cbn; [left; by split; [apply Forall_nil|]|].
  destruct (t_begin env); cbn; [left; by split; [rewrite Forall_cons; split; [done|apply Forall_nil]|]|]. unfold rolled_back.
  destruct (t_timeout env); cbn; [left; by split; [rewrite !Forall_cons, Forall_nil|]|].
  destruct (t_schema env); cbn; [|left; by split; [rewrite !Forall_cons, Forall_nil|]..].
  destruct (t_class env) as [e|[oid kind]] eqn:Hc; cbn; [left; by split; [rewrite !Forall_cons, Forall_nil|]|].
  match goal with |- context [refuse_if ?b ?r] => destruct (refuse_if_cases b r) as [[_ ->]|[Hk%negb_false_iff%bool_decide_eq_true ->]] end; cbn.
  { left. by split; [rewrite !Forall_cons, Forall_nil|]. }
  subst kind. right. exists oid. destruct (t_scan env) as [e|[d f]]; cbn; (split_and!; [done..|]); [done|]. by intros x [= <-].
Qed.

(** ** Theorems: signals *)

Lemma sublist_fmap {A B} (f : A → B) l k : l `sublist_of` k → f <$> l `sublist_of` f <$> k.
Proof. induction 1; cbn; by constructor. Qed.

(** C6: However the table of sessions changes between the check and the statement that
    signals, and however that statement ends, pg_cancel_backend or pg_terminate_backend is
    called only for a session of the table that has the requested number, started when the
    session that was checked did and when the caller says it did, serves a client, and is
    none of pglens's own. A refusal means that it was called for none; an answer, that it
    was called for the session with this number, and what it returned; after an error of
    the statement itself, and of nothing else, it is open. The function takes the number:
    a number that is given to a new session within the statement is not covered. *)
Theorem signal_only_verified env args :
  let '(r, called) := Signal_Execute env args in
  (∀ b, b ∈ called → b ∈ env.(s_now) ∧ args.(PID) = Some b.(b_pid) ∧ b.(b_type) = str "client backend" ∧ b.(b_user) ≠ Some env.(s_current_user) ∧
     b.(b_pid) ≠ env.(s_own_pid) ∧ isPglensApplication b.(b_application) = false ∧
     (∃ t checked, b.(b_start) = Some t ∧ checked ∈ env.(s_before) ∧ checked.(b_pid) = b.(b_pid) ∧ checked.(b_start) = Some t ∧
        ∀ want, args.(BackendStart) = Some want → micro t = micro want)) ∧
  match r with
  | Refused _ => called = []
  | Broke e => called = [] ∨ env.(s_signal) = Some (e, true)
  | Done x => ∃ b rest, called = b :: rest ∧ x.(sr_PID) = b.(b_pid) ∧ x.(sr_Signalled) = env.(s_delivered) b ∧
                        (NoDup (b_pid <$> env.(s_now)) → rest = [])
  end.
Proof.
  assert (∀ P : backend → Prop, ∀ b, b ∈ [] → P b) as Hnone by (by intros P b ?%not_elem_of_nil).
  unfold Signal_Execute. destruct (PID args) as [pid|] eqn:Hpid; [|by split; [apply Hnone|]]. destruct (s_conn env); [by split; [apply Hnone|left]|]. destruct (s_read env); [by split; [apply Hnone|left]|].
  destruct (find _ (s_before env)) as [b|] eqn:Hb; [|by split; [apply Hnone|]]. apply find_some in Hb as [Hin%list_elem_of_In Hbp%Z.eqb_eq].
  destruct (negb _); [by split; [apply Hnone|]|]. destruct (_ || _); [by split; [apply Hnone|]|].
  destruct (match BackendStart args with Some _ => _ | None => false end) eqn:Hstart; [by split; [apply Hnone|]|].
  assert (∀ x, x ∈ signalVerifiedBackend env pid (b_start b) → x ∈ s_now env ∧ Some pid = Some (b_pid x) ∧ b_type x = str "client backend" ∧
    b_user x ≠ Some (s_current_user env) ∧ b_pid x ≠ s_own_pid env ∧ isPglensApplication (b_application x) = false ∧
    ∃ t checked, b_start x = Some t ∧ checked ∈ s_before env ∧ b_pid checked = b_pid x ∧ b_start checked = Some t ∧
      ∀ want, BackendStart args = Some want → micro t = micro want) as Hrows.
  { intros x Hx. apply list_elem_of_filter in Hx as [(Hp & [Hs Hn] & Ht & Hu & Ho & Ha) Hx].
    split_and!; [done|by rewrite Hp|done|done|by rewrite Hp|done|]. destruct (b_start b) as [t|] eqn:Ebs; [|done]. exists t, b. split_and!; [done|done|congruence|done|].
    intros want Hw. rewrite Hw in Hstart. by apply negb_false_iff, Z.eqb_eq in Hstart. }
  destruct (s_signal env) as [[e [|]]|]; [by split; [|right]|by split; [apply Hnone|left]|].
  destruct (signalVerifiedBackend env pid (b_start b)) as [|row rows] eqn:E; [by split; [apply Hnone|]|]. split; [done|]. exists row, rows.
  destruct (Hrows row ltac:(left)) as (_ & [= ->] & _). split_and!; [done..|]. intros Hnd. destruct rows as [|row' rows]; [done|]. exfalso.
  destruct (Hrows row' ltac:(right; left)) as (_ & [= Ep] & _). unfold signalVerifiedBackend in E.
  assert ((row :: row' :: rows) `sublist_of` s_now env) as Hsub by (rewrite <- E; apply sublist_filter).
  apply (sublist_fmap b_pid) in Hsub. pose proof (sublist_NoDup _ _ Hnd Hsub) as Hnd'. clear Hnd. rename Hnd' into Hnd. cbn in Hnd. rewrite Ep in Hnd. apply NoDup_cons in Hnd as [Hnd _]. apply Hnd. left.
Qed.

(** ** Examples *)
Module Run_.
(** A comment that nests does not end early, so the statement behind it is not taken for a read. *)
Lemma first_keyword_exact_witness : firstSQLKeyword (str "/* /* * / */ SELECT 1 **/ -- y
Delete FROM t") = str "DELETE".
Proof.
  assert (str "/* /* * / */ SELECT 1 **/ -- y
Delete FROM t" = ([LBlock ([inr x20; inl true] ++ (inr <$> str " * / ") ++ [inl false] ++ (inr <$> str " SELECT 1 *")); LBlank x20; LLine (str " y") x0a] ≫= write_lead) ++ str "Delete" ++ str " FROM t") as -> by reflexivity.
  apply (first_keyword_exact [LBlock ([inr x20; inl true] ++ (inr <$> str " * / ") ++ [inl false] ++ (inr <$> str " SELECT 1 *")); LBlank x20; LLine (str " y") x0a] (str "Delete") (str " FROM t")).
  - rewrite !Forall_cons, Forall_nil. split_and!; [cbn; repeat split; by intros [[=] [=]]|done|split; [change (str " y") with [x20; "y"%byte]; rewrite !Forall_cons, Forall_nil; by split_and!|right; left]|done].
  - done.
  - done.
  - done.
Defined.

Definition session_a : backend := mkBackend 42 (str "client backend") (str "psql") (Some (str "app")) (Some 5000).
Definition session_b : backend := mkBackend 42 (str "client backend") (str "psql") (Some (str "app")) (Some 9000).
Definition cancel_request : Args := mkArgs None [] false (Some 42) [] [] (Some 5999).

(** The number went to a new session after the check: it is left alone. *)
Example reused_pid_left_alone :
  Signal_Execute (mkSignalEnv None None [session_a] None [session_b] (str "pglens") 7 (λ _, true)) cancel_request = (Refused SessionGone, []) ∧
  (Signal_Execute (mkSignalEnv None None [session_a] None [session_a] (str "pglens") 7 (λ _, true)) cancel_request).2 = [session_a].
Proof. vm_compute. auto. Qed.

#[local] Instance one_document : JsonCodec := {| json_Valid _ := true; json_Decode _ := None;
  json_Unmarshal t := if bool_decide (t = []) then Some (JObject [(str "Node Type", JString (str "Seq Scan"))])
                      else Some (JObject [(str "Node Type", JString (str "Seq Scan")); (str "Total Cost", JNumber t)]);
  json_Marshal v := match v with JObject l => Some (l ≫= fst) | _ => None end |}.
#[local] Instance plain_digest : Identity.Digest := λ s, s.

Lemma plan_hash_ignores_figures_witness : planHash (str "12.5") = planHash [] ∧ planHash [] = Some "Node Type".
Proof.
  split; [|vm_compute; reflexivity].
  apply (plan_hash_ignores_figures (str "12.5") [] (JObject [(str "Node Type", JString (str "Seq Scan")); (str "Total Cost", JNumber (str "12.5"))]) (JObject [(str "Node Type", JString (str "Seq Scan"))])); [reflexivity..|].
  apply rtsc_lr. apply (wf_here [(str "Node Type", JString (str "Seq Scan"))] (str "Total Cost") (JNumber (str "12.5")) []). by apply (bool_decide_unpack _).
Defined.

Definition quiet_db : session := ExplainGuard.Example_.quiet.

(** A statement that writes is refused before anything is sent. *)
Example write_is_not_analyzed :
  Explain_Execute (λ t, t) (mkExplainEnv None (Recorded (str "DELETE FROM t;")) None NoRows 17 None None None quiet_db (mkExecError false []) (inr (str "12.5")) (mkExecError false []) (inr (str "shop")))
    (mkArgs (Some 1) (str "shop") true None [] [] None) = (Refused (AnalyzeWrites (str "DELETE")), []).
Proof. vm_compute. reflexivity. Qed.
End Run_.
