(* ===== verification/ScheduleSet.v ===== *)
(** * The agent's schedule (cmd/pglens-agent/schedule.go, internal/check)

    What each target's checks are gated on is read again every half minute; when it changed,
    a new scheduler replaces the running one. The schedulers are those of [Scheduler], which go
    on taking their own steps, before and after they are stopped; a build is one step, as are
    the two critical sections of a reconcile, between which a stop may come. What a target
    answers is an argument of a read. *)
From stdpp Require Import pretty.
From S2P Require Import Prelude GoTime GoFloat GoBytes GoText GoJson GoSort Pgtype Wire AlertTypes AgentConfig.
From S2P Require Scheduler.

(** ** Checks (internal/check/check.go, registry.go) *)

Definition ScopeInstance : string := "instance".
Definition ScopeDatabase : string := "database".
Definition ScopeCluster : string := "cluster".

Record Requirements := mkRequirements {
  rq_Roles : list Role;
  rq_MinPG : Z;
  rq_MaxPG : Z;
  rq_Extensions : list string;
  rq_PermTier : Z;
  rq_Scope : string;
}.

Definition Role_String (r : Role) : string :=
  match r with RoleNone => "" | RolePrimary => "primary" | RoleStandby => "standby" | RoleUnknown => "unknown" end.

Definition PGVersion_String (v : Z) : string := pretty (Major v) +:+ "." +:+ pretty (Minor v).

(** Reading a map of bools. *)
Definition has (exts : gmap string bool) (name : string) : bool := default false (exts !! name).

(** Whether the check runs, and why not. *)
Definition Supports (r : Requirements) (role : Role) (v tier : Z) (exts : gmap string bool) : bool * string :=
  if negb (bool_decide (r.(rq_Roles) = [])) && negb (bool_decide (role ∈ r.(rq_Roles))) then (false, "role " +:+ Role_String role +:+ " not allowed")
  else if negb (r.(rq_MinPG) =? 0) && (v <? r.(rq_MinPG)) then (false, "requires PG >= " +:+ PGVersion_String r.(rq_MinPG) +:+ ", got " +:+ PGVersion_String v)
  else if negb (r.(rq_MaxPG) =? 0) && (r.(rq_MaxPG) <? v) then (false, "requires PG <= " +:+ PGVersion_String r.(rq_MaxPG) +:+ ", got " +:+ PGVersion_String v)
  else if tier <? r.(rq_PermTier) then (false, "requires " +:+ PermTier_String r.(rq_PermTier) +:+ ", got " +:+ PermTier_String tier)
  else match head (filter (λ ext, has exts ext = false) r.(rq_Extensions)) with
  | Some ext => (false, "missing extension " +:+ ext)
  | None => (true, "")
  end.

(** What the schedule asks of a check; its scrape is a label of [Scheduler]. *)
Record Check_ := mkCheck { ck_Name : string; ck_Requires : Requirements; ck_DefaultInterval : Duration }.

(** [None] is the panic on a name that is taken. *)
Definition Register (c : Check_) (registry : gmap string Check_) : option (gmap string Check_) :=
  match registry !! c.(ck_Name) with Some _ => None | None => Some (<[c.(ck_Name) := c]> registry) end.

Definition All `{RangeOrder} (registry : gmap string Check_) : list Check_ :=
  sort_slice (λ a b, string_lt a.(ck_Name) b.(ck_Name)) (visit registry).*2.

Record CMetric := mkCMetric { cm_Name : string; cm_Labels : gmap string string; cm_Value : float64; cm_Kind : string }.
Record CFact := mkCFact { cfa_Kind : string; cfa_Key : string; cfa_Labels : gmap string string; cfa_ValueText : string; cfa_ValueJSON : text }.

(** [check.Result] *)
Record CResult := mkCResult {
  cr_Metrics : list CMetric;
  cr_Facts : list CFact;
  cr_StatsReset : option Time;
  cr_Truncated : bool;
  cr_Partial : bool;
  cr_QueryTexts : gmap Z text;
}.

(** ** Gates *)

Definition pg_stat_statements : string := "pg_stat_statements".

Record targetGate := mkTargetGate {
  tg_role : Role;
  tg_version : Z;
  tg_tier : Z;
  tg_exts : gmap string bool;
  tg_databases : gset string;
  tg_discovered : list WDatabase;
  tg_statementsUnknown : bool;
}.

(** [%v] of a map of bools: its keys in order. *)
Definition exts_text (exts : gmap string bool) : string :=
  "map[" +:+ String.concat " " ((λ k, k +:+ ":" +:+ (if has exts k then "true" else "false")) <$> sort_strings (map_to_list exts).*1) +:+ "]".

Definition key (g : targetGate) : string :=
  Role_String g.(tg_role) +:+ "/" +:+ pretty g.(tg_version) +:+ "/" +:+ PermTier_String g.(tg_tier) +:+ "/" +:+ exts_text g.(tg_exts).

(** *** keepDatabases *)

Definition listed (discovered : list WDatabase) : gset string := list_to_set (db_Name <$> discovered).
Definition slots (discovered : list WDatabase) : nat := length (filter (λ db, db.(db_Monitored) = true) discovered).

Fixpoint fill (n : nat) (discovered : list WDatabase) (next : gset string) : gset string :=
  match discovered with
  | [] => next
  | db :: discovered =>
      if bool_decide (n ≤ size next)%nat then next
      else fill n discovered (if db.(db_Monitored) then {[db.(db_Name)]} ∪ next else next)
  end.

Definition keepDatabases (last : gset string) (discovered : list WDatabase) : gset string :=
  fill (slots discovered) discovered (filter (λ name, name ∈ listed discovered) last).

Definition sameDatabases (a b : gset string) : bool :=
  if negb (bool_decide (size a = size b)) then false else bool_decide (set_Forall (λ name, name ∈ b) a).

(** *** Reading a target

    [rg_expired] is [ctx.Err] after the discovery; [rg_locate] answers [LocateStatements]. *)
Record readings := mkReadings {
  rg_discover : string + list WDatabase;
  rg_expired : bool;
  rg_version : Z;
  rg_role : Role;
  rg_tier : Z;
  rg_locate : list WDatabase → bool * option string;
}.

(** The databases looked at for the view: those the schedule holds after this read. *)
Definition held_after (scheduled : option (gset string)) (usable : bool) (dbs : list WDatabase) : gset string :=
  match scheduled with
  | Some s => if usable then keepDatabases s dbs else s
  | None => keepDatabases ∅ dbs
  end.

Definition lookup_list (held : gset string) (dbs : list WDatabase) : list WDatabase :=
  (λ db, mkWDatabase db.(db_Name) (bool_decide (db.(db_Name) ∈ held)) db.(db_SkipReason)) <$> dbs.

Definition readTargetGate (r : readings) (scheduled : option (gset string)) : targetGate * bool :=
  if r.(rg_expired) then (mkTargetGate RoleUnknown 0 TierReadOnly ∅ ∅ [] false, false)
  else
    let version := r.(rg_version) in
    let role := if version =? 0 then RoleUnknown else r.(rg_role) in
    let tier := if version =? 0 then TierReadOnly else r.(rg_tier) in
    match r.(rg_discover) with
    | inl _ => (mkTargetGate role version tier {[pg_stat_statements := false]} ∅ [] false, false)
    | inr dbs =>
        let usable := negb (version =? 0) && negb (bool_decide (role = RoleUnknown)) in
        let '(found, unknown) := r.(rg_locate) (lookup_list (held_after scheduled usable dbs) dbs) in
        (mkTargetGate role version tier {[pg_stat_statements := found]} (list_to_set (db_Name <$> filter (λ db, db.(db_Monitored) = true) dbs)) dbs
          (negb (bool_decide (unknown = None))), usable)
    end.

Definition nextGate (last : option targetGate) (read : targetGate) (readOK : bool) : targetGate * bool :=
  match last with
  | None => (read, true)
  | Some last =>
      if negb readOK then (last, false)
      else
        let exts := if read.(tg_statementsUnknown) then <[pg_stat_statements := has last.(tg_exts) pg_stat_statements]> read.(tg_exts) else read.(tg_exts) in
        let next := mkTargetGate read.(tg_role) read.(tg_version) read.(tg_tier) exts (keepDatabases last.(tg_databases) read.(tg_discovered))
          read.(tg_discovered) read.(tg_statementsUnknown) in
        (next, negb (bool_decide (key next = key last)) || negb (sameDatabases next.(tg_databases) last.(tg_databases)))
  end.

(** [reads] has what each target answers, by its name. The goroutines' order does not show. *)
Fixpoint readGates (reads : string → readings) (prev : gmap string targetGate) (managers : list string)
    (next : gmap string targetGate) (changed : list string) : gmap string targetGate * list string :=
  match managers with
  | [] => (next, changed)
  | name :: managers =>
      let last := prev !! name in
      let '(read, ok) := readTargetGate (reads name) (tg_databases <$> last) in
      let '(g, differs) := nextGate last read ok in
      readGates reads prev managers (<[name := g]> next) (if differs then changed ++ [name] else changed)
  end.

(** ** Building a schedule *)

Definition results_of (pending : gmap string (list Result)) (target : string) : list Result := default [] (pending !! target).

Definition dropSkips (pending : gmap string (list Result)) : gmap string (list Result) :=
  omap (λ results, let kept := filter (λ r, r.(res_SkipReason) = "") results in if bool_decide (kept = []) then None else Some kept) pending.

Definition skip_result (check : string) (now : Time) (reason : string) : Result := mkResult check now "" None false false "" reason [] [] ∅.

#[local] Abbreviation Scheduler := (@Scheduler.Scheduler CResult).

Section build.
Context `{RangeOrder} (rnd : Z → Z) (cfg : Config) (registry : gmap string Check_).

Definition range_set (s : gset string) : list string := (visit (gset_to_gmap true s)).*1.

Fixpoint add_databases (target : string) (c : Check_) (names : list string) (sched : Scheduler) : option Scheduler :=
  match names with
  | [] => Some sched
  | name :: names =>
      sched ← Scheduler.AddEntryWithInterval rnd (Scheduler.mkScheduleEntry target c.(ck_Name) name) c.(ck_DefaultInterval) (GetCheckInterval cfg c.(ck_Name)) sched;
      add_databases target c names sched
  end.

(** [None] is the panic of [AddEntryWithInterval] on a scheduler that runs. *)
Fixpoint addScheduleEntries (target : string) (g : targetGate) (now : Time) (checks : list Check_) (sched : Scheduler) (pending : gmap string (list Result)) :
    option (Scheduler * gmap string (list Result)) :=
  match checks with
  | [] => Some (sched, pending)
  | c :: checks =>
      let '(ok, reason) := Supports c.(ck_Requires) g.(tg_role) g.(tg_version) g.(tg_tier) g.(tg_exts) in
      if negb ok then addScheduleEntries target g now checks sched (<[target := results_of pending target ++ [skip_result c.(ck_Name) now reason]]> pending)
      else
        sched ← add_databases target c (if bool_decide (c.(ck_Requires).(rq_Scope) = ScopeDatabase) then range_set g.(tg_databases) else [""]) sched;
        addScheduleEntries target g now checks sched pending
  end.

Definition no_gate : targetGate := mkTargetGate RoleNone 0 0 ∅ ∅ [] false.

Fixpoint add_targets (gates : gmap string targetGate) (now : Time) (managers : list string) (sched : Scheduler) (pending : gmap string (list Result)) :
    option (Scheduler * gmap string (list Result)) :=
  match managers with
  | [] => Some (sched, pending)
  | name :: managers =>
      '(sched, pending) ← addScheduleEntries name (default no_gate (gates !! name)) now (All registry) sched pending;
      add_targets gates now managers sched pending
  end.
End build.

(** ** The schedule set *)

(** [reading] is a reconcile between its two critical sections, with the gates it started from.
    [schedulers] are all that were built, [mgr_scheduled] what [SetScheduledDatabases] gave
    each manager. *)
Record scheduleSet := mkScheduleSet {
  pending : gmap string (list Result);
  scheduledDBs : gmap string (gset string);
  mgr_scheduled : gmap string (gset string);
  schedulers : list Scheduler;
  current : option nat;
  gates : gmap string targetGate;
  stopped : bool;
  reading : option (gmap string targetGate);
  crashed : bool;
}.

Definition newScheduleSet (pending : gmap string (list Result)) (scheduledDBs : gmap string (gset string)) : scheduleSet :=
  mkScheduleSet pending scheduledDBs ∅ [] None ∅ false None false.

Definition set_pending (p : gmap string (list Result)) (s : scheduleSet) : scheduleSet :=
  mkScheduleSet p s.(scheduledDBs) s.(mgr_scheduled) s.(schedulers) s.(current) s.(gates) s.(stopped) s.(reading) s.(crashed).
Definition set_schedulers (l : list Scheduler) (s : scheduleSet) : scheduleSet :=
  mkScheduleSet s.(pending) s.(scheduledDBs) s.(mgr_scheduled) l s.(current) s.(gates) s.(stopped) s.(reading) s.(crashed).
Definition set_reading (r : option (gmap string targetGate)) (s : scheduleSet) : scheduleSet :=
  mkScheduleSet s.(pending) s.(scheduledDBs) s.(mgr_scheduled) s.(schedulers) s.(current) s.(gates) s.(stopped) r s.(crashed).
Definition set_gates (g : gmap string targetGate) (s : scheduleSet) : scheduleSet :=
  mkScheduleSet s.(pending) s.(scheduledDBs) s.(mgr_scheduled) s.(schedulers) s.(current) g s.(stopped) s.(reading) s.(crashed).
Definition set_stopped (b : bool) (s : scheduleSet) : scheduleSet :=
  mkScheduleSet s.(pending) s.(scheduledDBs) s.(mgr_scheduled) s.(schedulers) s.(current) s.(gates) b s.(reading) s.(crashed).

(** [Stop] cancels a scheduler that was started; it goes on until its scrapes are over. *)
Definition stopCurrentLocked (s : scheduleSet) : scheduleSet :=
  match s.(current) with
  | Some i => set_schedulers (alter (λ sc, default sc (Scheduler.step Scheduler.LStop sc)) i s.(schedulers)) s
  | None => s
  end.

Section set.
Context `{RangeOrder, JsonCodec} (rnd : Z → Z) (gomaxprocs : Z) (cfg : Config) (registry : gmap string Check_) (managers : list string).

Definition databases_of (g : gmap string targetGate) (name : string) : gset string := (default no_gate (g !! name)).(tg_databases).
Definition record_databases (g : gmap string targetGate) (m : gmap string (gset string)) : gmap string (gset string) :=
  foldl (λ m name, <[name := databases_of g name]> m) m managers.

Definition buildLocked (now : Time) (s : scheduleSet) : scheduleSet :=
  match add_targets rnd cfg registry s.(gates) now managers (Scheduler.NewScheduler (Scheduler.DefaultScheduleOptions gomaxprocs)) (dropSkips s.(pending)) with
  | None => mkScheduleSet s.(pending) s.(scheduledDBs) s.(mgr_scheduled) s.(schedulers) s.(current) s.(gates) s.(stopped) s.(reading) true
  | Some (sched, pending) =>
      let scheduledDBs := record_databases s.(gates) s.(scheduledDBs) in
      let mgr_scheduled := record_databases s.(gates) s.(mgr_scheduled) in
      (* [Start] fails only on a scheduler that runs *)
      if sched.(Scheduler.running) then mkScheduleSet pending scheduledDBs mgr_scheduled s.(schedulers) s.(current) s.(gates) s.(stopped) s.(reading) s.(crashed)
      else mkScheduleSet pending scheduledDBs mgr_scheduled (s.(schedulers) ++ [Scheduler.start sched]) (Some (length s.(schedulers)))
        s.(gates) s.(stopped) s.(reading) s.(crashed)
  end.

Definition start (reads : string → readings) (now : Time) (s : scheduleSet) : scheduleSet :=
  let '(gates, _) := readGates reads ∅ managers ∅ [] in
  buildLocked now (set_gates gates s).

(** [reconcile]: up to the reads, and after them. *)
Definition reconcile_begin (s : scheduleSet) : scheduleSet :=
  if s.(stopped) then s else set_reading (Some s.(gates)) s.

Definition reconcile_end (reads : string → readings) (now : Time) (prev : gmap string targetGate) (s : scheduleSet) : scheduleSet :=
  let s := set_reading None s in
  let '(gates, changed) := readGates reads prev managers ∅ [] in
  if bool_decide (changed = []) then s
  else if s.(stopped) then s
  else buildLocked now (set_gates gates (stopCurrentLocked s)).

Definition stop (s : scheduleSet) : scheduleSet := stopCurrentLocked (set_stopped true s).

(** ** forwardResults *)

Definition wire_facts (l : list CFact) : list WFact :=
  filter (λ f, Fact_Validate f = None) ((λ f, mkWFact f.(cfa_Kind) f.(cfa_Key) f.(cfa_Labels) f.(cfa_ValueText) f.(cfa_ValueJSON)) <$> l).

(** [strconv.FormatInt] of each identifier. *)
Definition wire_texts (m : gmap Z text) : gmap string text := list_to_map ((λ x, (pretty x.1, x.2)) <$> map_to_list m).

Definition wire_result (now : Time) (res : @Scheduler.EntryResult CResult) : Result :=
  let e := res.(Scheduler.Entry) in
  match res.(Scheduler.Outcome) with
  | inl err => mkResult e.(Scheduler.CheckName) now e.(Scheduler.Database) None false false err "" [] [] ∅
  | inr r =>
      mkResult e.(Scheduler.CheckName) now e.(Scheduler.Database) r.(cr_StatsReset) r.(cr_Truncated) r.(cr_Partial) "" ""
        ((λ m, mkMetric m.(cm_Name) m.(cm_Labels) m.(cm_Value) m.(cm_Kind)) <$> r.(cr_Metrics)) (wire_facts r.(cr_Facts)) (wire_texts r.(cr_QueryTexts))
  end.

Definition append (target : string) (r : Result) (pending : gmap string (list Result)) : gmap string (list Result) :=
  <[target := results_of pending target ++ [r]]> pending.

(** One turn of the loop: the next result of a scheduler. *)
Definition forward (i : nat) (now : Time) (s : scheduleSet) : option scheduleSet :=
  sc ← s.(schedulers) !! i;
  res ← head sc.(Scheduler.results);
  sc' ← Scheduler.step Scheduler.LConsume sc;
  Some (set_pending (append res.(Scheduler.Entry).(Scheduler.TargetName) (wire_result now res) s.(pending)) (set_schedulers (<[i := sc']> s.(schedulers)) s)).
End set.

(** ** Theorems: the databases kept *)

Definition monitored_names (l : list WDatabase) : gset string := list_to_set (db_Name <$> filter (λ db, db.(db_Monitored) = true) l).

Lemma elem_of_monitored l d : d ∈ monitored_names l ↔ ∃ db, db ∈ l ∧ db.(db_Monitored) = true ∧ db.(db_Name) = d.
Proof.
  unfold monitored_names. rewrite elem_of_list_to_set, list_elem_of_fmap. split.
  - intros (db & -> & [? ?]%list_elem_of_filter). eauto.
  - intros (db & ? & ? & <-). exists db. by rewrite list_elem_of_filter.
Qed.

Lemma monitored_listed l : monitored_names l ⊆ listed l.
Proof. intros d (db & Hdb & _ & <-)%elem_of_monitored. unfold listed. rewrite elem_of_list_to_set, list_elem_of_fmap. eauto. Qed.

Lemma monitored_size l : NoDup (db_Name <$> l) → size (monitored_names l) = slots l.
Proof.
  intros Hn. unfold monitored_names, slots. rewrite size_list_to_set, length_fmap; [done|]. eapply sublist_NoDup; [exact Hn|].
  apply fmap_sublist, sublist_filter.
Qed.

Lemma size_union_subseteq (x y : gset string) : (size (x ∪ y) ≤ size x + size y)%nat.
Proof. rewrite size_union_alt. pose proof (subseteq_size (y ∖ x) y ltac:(set_solver)). lia. Qed.

Lemma fill_spec n l next : let r := fill n l next in
  next ⊆ r ∧ r ⊆ next ∪ monitored_names l ∧ (size r ≤ Nat.max n (size next))%nat ∧ ((n ≤ size r)%nat ∨ monitored_names l ⊆ r).
Proof.
  revert next. induction l as [|db l IH]; intros next; cbn [fill].
  { split_and!; [done|by apply union_subseteq_l|lia|right; by apply empty_subseteq]. }
  case_bool_decide as Hn; [split_and!; [done|by apply union_subseteq_l|lia|by left]|].
  set (new := if db_Monitored db then {[db_Name db]} else ∅ : gset string).
  assert (monitored_names (db :: l) = new ∪ monitored_names l ∧ (if db_Monitored db then {[db_Name db]} ∪ next else next) = new ∪ next ∧ (size new ≤ 1)%nat) as (-> & -> & Hone).
  { unfold monitored_names, new. rewrite filter_cons. destruct (db_Monitored db) eqn:E; [rewrite decide_True, size_singleton by done; done|].
    rewrite decide_False, !union_empty_l_L, size_empty by done. auto. }
  specialize (IH (new ∪ next)). cbn zeta in IH. revert IH. generalize (fill n l (new ∪ next)) as r, (monitored_names l) as ms. intros r ms (H1 & H2 & H3 & H4).
  assert (size (new ∪ next) ≤ S (size next))%nat by (pose proof (size_union_subseteq new next); lia). clear Hone. clearbody new.
  split_and!; [set_solver +H1|set_solver +H2|lia|]. destruct H4 as [H4|H4]; [by left|right; set_solver +H1 H4].
Qed.

Lemma fill_order n l next i j a b : l !! i = Some a → l !! j = Some b → (i ≤ j)%nat → db_Monitored a = true →
  db_Name b ∉ next → NoDup (db_Name <$> l) → db_Name b ∈ fill n l next → db_Name a ∈ fill n l next.
Proof.
  revert i j next. induction l as [|db l IH]; intros i j next Ha Hb Hij Hm Hnext Hnd Hin; [done|]. cbn [fill fmap list_fmap] in *. apply NoDup_cons in Hnd as [Hdb Hnd].
  case_bool_decide; [done|]. set (next' := if db_Monitored db then _ else _) in *.
  destruct i as [|i]; cbn in Ha.
  { injection Ha as ->. destruct (fill_spec n l next') as [Hs _]. apply Hs. unfold next'. rewrite Hm. set_solver. }
  destruct j as [|j]; [lia|]. cbn in Hb. eapply (IH i j next'); [done..|lia|done| |done|done].
  assert (db_Name b ≠ db_Name db). { intros E. apply Hdb. rewrite <- E. apply list_elem_of_fmap_2. by eapply list_elem_of_lookup_2. }
  unfold next'. destruct (db_Monitored db); set_solver.
Qed.

Lemma keep_eq last discovered : keepDatabases last discovered = fill (slots discovered) discovered (last ∩ listed discovered).
Proof. unfold keepDatabases. f_equal. apply set_eq. intros x. rewrite elem_of_filter, elem_of_intersection. tauto. Qed.

(** C34: The databases a target's checks run for after a read: every scheduled one that is still
    listed stays, nothing that is not listed is taken, a new one is one the budget monitors and
    no busier monitored one is left out for it, and there are as many as the budget has slots,
    or as were kept. A later read that lists the same databases with as many slots, in whatever
    ranking, changes nothing. *)
Theorem keep_databases_exact last discovered : NoDup (db_Name <$> discovered) →
  let next := keepDatabases last discovered in
  (∀ d, d ∈ last → d ∈ listed discovered → d ∈ next) ∧
  (∀ d, d ∈ next → d ∈ listed discovered ∧ (d ∈ last ∨ d ∈ monitored_names discovered)) ∧
  (∀ i j a b, discovered !! i = Some a → discovered !! j = Some b → (i ≤ j)%nat → db_Monitored a = true → db_Name b ∈ next → db_Name b ∉ last → db_Name a ∈ next) ∧
  size next = Nat.max (size (last ∩ listed discovered)) (slots discovered) ∧
  (∀ discovered', listed discovered' = listed discovered → slots discovered' = slots discovered → keepDatabases next discovered' = next).
Proof.
  intros Hnd. cbn zeta. rewrite (keep_eq last discovered).
  pose proof (fill_spec (slots discovered) discovered (last ∩ listed discovered)) as (H1 & H2 & H3 & H4). pose proof (monitored_listed discovered) as Hml.
  assert (size (fill (slots discovered) discovered (last ∩ listed discovered)) = Nat.max (size (last ∩ listed discovered)) (slots discovered)) as Hsize.
  { pose proof (subseteq_size _ _ H1). destruct H4 as [?|H4]; [lia|]. pose proof (subseteq_size _ _ H4) as Hs. rewrite (monitored_size _ Hnd) in Hs. lia. }
  split_and!.
  - intros d Hd Hl. apply H1. set_solver.
  - intros d Hd%H2. set_solver.
  - intros i j a b Ha Hb Hij Hm Hin Hlast. eapply fill_order; [done..| |done|done]. set_solver.
  - done.
  - intros discovered' El Es. rewrite keep_eq. set (next := fill (slots discovered) discovered _).
    assert (next ∩ listed discovered' = next) as ->.
    { apply set_eq. intros x. rewrite elem_of_intersection, El. split; [tauto|]. intros Hx. split; [done|]. apply H2 in Hx. set_solver. }
    rewrite Es. destruct discovered' as [|db l]; [done|]. cbn [fill]. rewrite bool_decide_eq_true_2; [done|]. unfold next. rewrite Hsize. lia.
Qed.

(** ** When a schedule is rebuilt *)

Fixpoint slash_free (s : string) : bool :=
  match s with EmptyString => true | String c s => negb (bool_decide (c = "/"%char)) && slash_free s end.

Lemma split_slash a a' x x' : slash_free a = true → slash_free a' = true → a +:+ "/" +:+ x = a' +:+ "/" +:+ x' → a = a' ∧ x = x'.
Proof.
  revert a'. induction a as [|c a IH]; intros [|c' a']; cbn; rewrite ?andb_true_iff, ?negb_true_iff, ?bool_decide_eq_false.
  - intros _ _ E. by injection E.
  - intros _ [Hc _] E. injection E as E _. congruence.
  - intros [Hc _] _ E. injection E as E _. congruence.
  - intros [_ Ha] [_ Ha'] E. injection E as -> E. destruct (IH a' Ha Ha' E) as [-> ->]. done.
Qed.

Lemma digit_not_slash x : (x < 10)%N → bool_decide (pretty_N_char x = "/"%char) = false.
Proof. intros Hx. assert (∀ y, (y < 10)%nat → bool_decide (pretty_N_char (N.of_nat y) = "/"%char) = false) as H. { intros y Hy. do 10 (destruct y as [|y]; [done|]). lia. } rewrite <- (N2Nat.id x). apply H. lia. Qed.

Lemma pretty_go_slash x : ∀ s, slash_free s = true → slash_free (pretty_N_go x s) = true.
Proof.
  induction x as [x IH] using (well_founded_induction N.lt_wf_0); intros s Hs. destruct (decide (x = 0)%N) as [->|Hx]; [by rewrite pretty_N_go_0|].
  rewrite pretty_N_go_step by lia. apply IH; [apply N.div_lt; lia|]. cbn [slash_free]. rewrite digit_not_slash by (apply N.mod_lt; lia). done.
Qed.

Lemma pretty_Z_slash (z : Z) : slash_free (pretty z) = true.
Proof.
  assert (∀ n : N, slash_free (pretty n) = true) as Hn by (intros n; unfold pretty, pretty_N; case_decide; [done|by apply pretty_go_slash]).
  destruct z; [done|apply Hn|]. cbn. apply Hn.
Qed.

(** What a read gives: one of the four tiers, and at most the one extension looked for. *)
Record gate_ok (g : targetGate) : Prop := {
  gk_tier : g.(tg_tier) ∈ [TierReadOnly; TierExplain; TierSignal; TierExtension];
  gk_exts : g.(tg_exts) = ∅ ∨ ∃ b, g.(tg_exts) = {[pg_stat_statements := b]};
}.

Lemma exts_text_inj e e' : (e = ∅ ∨ ∃ b, e = {[pg_stat_statements := b]}) → (e' = ∅ ∨ ∃ b, e' = {[pg_stat_statements := b]}) → exts_text e = exts_text e' → e = e'.
Proof.
  assert (exts_text ∅ = "map[]") as H0 by by vm_compute. assert (∀ b, exts_text {[pg_stat_statements := b]} = "map[pg_stat_statements:" +:+ (if b : bool then "true]" else "false]")) as Hb by (intros []; by vm_compute).
  intros [->|[b ->]] [->|[b' ->]]; rewrite ?H0, ?Hb; [done|done|done|]. by destruct b, b'.
Qed.

Lemma key_inj g g' : gate_ok g → gate_ok g' → key g = key g' →
  g.(tg_role) = g'.(tg_role) ∧ g.(tg_version) = g'.(tg_version) ∧ g.(tg_tier) = g'.(tg_tier) ∧ g.(tg_exts) = g'.(tg_exts).
Proof.
  assert (∀ t, t ∈ [TierReadOnly; TierExplain; TierSignal; TierExtension] → slash_free (PermTier_String t) = true ∧ ParsePermTier (PermTier_String t) = Some t) as Htier.
  { intros t. rewrite !elem_of_cons, elem_of_nil. intros [->|[->|[->|[->|[]]]]]; done. }
  intros [Ht He] [Ht' He'] E. destruct (Htier _ Ht) as [Hs Hp], (Htier _ Ht') as [Hs' Hp']. unfold key in E.
  apply split_slash in E as [Hr E]; [|by destruct (tg_role g)|by destruct (tg_role g')]. apply split_slash in E as [Hv E]; [|apply pretty_Z_slash..].
  apply split_slash in E as [Htt E]; [|done..]. split_and!.
  - by destruct (tg_role g), (tg_role g').
  - by apply (inj pretty).
  - rewrite Htt in Hp. congruence.
  - by apply exts_text_inj.
Qed.

Lemma rebuild_exact_gate last read : gate_ok last → gate_ok read → gate_ok (nextGate (Some last) read true).1.
Proof.
  intros _ [Ht He]. split; [done|]. cbn. destruct (tg_statementsUnknown read); [|done]. right. eexists. destruct He as [->|[b ->]]; [done|]. by rewrite insert_singleton_eq.
Qed.

(** A target that could be read is scheduled against what was read, with the databases kept and,
    when the view could not be looked for everywhere, the last answer about it. The schedule is
    rebuilt exactly when this changes the role, the version, the tier, the extension or the
    databases; when it is not, every check has the verdict it had. *)
Theorem rebuild_exact last read : gate_ok last → gate_ok read →
  let '(g, rebuild) := nextGate (Some last) read true in
  gate_ok g ∧
  (rebuild = false ↔ (g.(tg_role), g.(tg_version), g.(tg_tier), g.(tg_exts), g.(tg_databases)) = (last.(tg_role), last.(tg_version), last.(tg_tier), last.(tg_exts), last.(tg_databases))) ∧
  (rebuild = false → ∀ r, Supports r g.(tg_role) g.(tg_version) g.(tg_tier) g.(tg_exts) = Supports r last.(tg_role) last.(tg_version) last.(tg_tier) last.(tg_exts)).
Proof.
  intros Hl Hr. pose proof (rebuild_exact_gate last read Hl Hr) as Hg. unfold nextGate in *. cbn [negb fst] in *. set (g := mkTargetGate _ _ _ _ _ _ _) in *.
  clearbody g. assert (negb (bool_decide (key g = key last)) || negb (sameDatabases (tg_databases g) (tg_databases last)) = false ↔
    (tg_role g, tg_version g, tg_tier g, tg_exts g, tg_databases g) = (tg_role last, tg_version last, tg_tier last, tg_exts last, tg_databases last)) as Hiff.
  { rewrite orb_false_iff, !negb_false_iff, bool_decide_eq_true. split.
    - intros [(-> & -> & -> & ->)%key_inj Hd]; [|done..]. f_equal. unfold sameDatabases in Hd. destruct (bool_decide_reflect (size (tg_databases g) = size (tg_databases last))) as [Hs|]; [|done].
      cbn in Hd. apply bool_decide_eq_true in Hd. apply set_subseteq_size_eq; [exact Hd|lia].
    - intros [= E1 E2 E3 E4 E5]. unfold key. rewrite E1, E2, E3, E4, E5. split; [done|]. unfold sameDatabases. rewrite bool_decide_eq_true_2 by done. cbn. apply bool_decide_eq_true. by intros x Hx. }
  split; [done|]. split; [done|]. intros Hn r. apply Hiff in Hn as [= -> -> -> -> _]. done.
Qed.

(** ** Schedulers as they are built *)

Lemma inner_step (l : @Scheduler.label CResult) (s s' : Scheduler) :
  Scheduler.step l s = Some s' → l ≠ Scheduler.LStart → l ≠ Scheduler.LStop →
  s'.(Scheduler.running) = s.(Scheduler.running) ∧ s'.(Scheduler.cancelled) = s.(Scheduler.cancelled) ∧ s'.(Scheduler.entries) = s.(Scheduler.entries).
Proof.
  intros Hs H1 H2. destruct l; cbn in Hs; try done; unfold Scheduler.tick, Scheduler.scraped in Hs; repeat case_match; simplify_option_eq; repeat case_match; done.
Qed.

Section building.
Context `{RangeOrder} (rnd : Z → Z) (gomaxprocs : Z) (cfg : Config) (registry : gmap string Check_) (managers : list string).

Definition keys (s : Scheduler) : list Scheduler.ScheduleEntry := Scheduler.entry_key <$> s.(Scheduler.entries).
Definition fresh (s : Scheduler) : Prop := s.(Scheduler.running) = false ∧ s.(Scheduler.cancelled) = false.

Definition runs (g : targetGate) (c : Check_) : bool := (Supports c.(ck_Requires) g.(tg_role) g.(tg_version) g.(tg_tier) g.(tg_exts)).1.

(** The entries of a check for a gate, and the skips. *)
Definition entries_for (g : targetGate) (name : string) (c : Check_) : list Scheduler.ScheduleEntry :=
  if runs g c then Scheduler.mkScheduleEntry name c.(ck_Name) <$> (if bool_decide (c.(ck_Requires).(rq_Scope) = ScopeDatabase) then range_set g.(tg_databases) else [""]) else [].
Definition skips_for (g : targetGate) (now : Time) (c : Check_) : list Result :=
  if runs g c then [] else [skip_result c.(ck_Name) now (Supports c.(ck_Requires) g.(tg_role) g.(tg_version) g.(tg_tier) g.(tg_exts)).2].

Definition gate_of (g : gmap string targetGate) (name : string) : targetGate := default no_gate (g !! name).
Definition expected (g : gmap string targetGate) : list Scheduler.ScheduleEntry := managers ≫= λ name, All registry ≫= entries_for (gate_of g name) name.

Lemma add_databases_spec target c names s : fresh s → ∃ s', add_databases rnd cfg target c names s = Some s' ∧ fresh s' ∧
  keys s' = keys s ++ (Scheduler.mkScheduleEntry target c.(ck_Name) <$> names).
Proof.
  revert s. induction names as [|name names IH]; intros s Hf; cbn [add_databases].
  { exists s. cbn. by rewrite app_nil_r. }
  unfold Scheduler.AddEntryWithInterval at 1. rewrite (proj1 Hf). cbn [mbind option_bind]. set (s1 := Scheduler.mkScheduler _ _ _ _ _ _ _ _ _ _ _ _ _ _ _ _).
  destruct (IH s1) as (s' & -> & Hf' & Hk); [by destruct Hf; split|]. exists s'. split_and!; [done|done|]. rewrite Hk. unfold s1, keys. cbn. by rewrite fmap_app, <- app_assoc.
Qed.

Lemma add_entries_spec target g now checks s p : fresh s → ∃ s' p', addScheduleEntries rnd cfg target g now checks s p = Some (s', p') ∧ fresh s' ∧
  keys s' = keys s ++ (checks ≫= entries_for g target) ∧
  results_of p' target = results_of p target ++ (checks ≫= skips_for g now) ∧ ∀ t, t ≠ target → p' !! t = p !! t.
Proof.
  revert s p. induction checks as [|c checks IH]; intros s p Hf; cbn [addScheduleEntries].
  { exists s, p. cbn. by rewrite !app_nil_r. }
  rewrite !bind_cons. unfold entries_for at 1, skips_for at 1, runs. destruct (Supports _ _ _ _ _) as [[] reason]; cbn [fst snd negb].
  - match goal with |- context [add_databases _ _ _ _ ?l] => destruct (add_databases_spec target c l s Hf) as (s1 & -> & Hf1 & Hk1) end.
    cbn [mbind option_bind]. destruct (IH s1 p Hf1) as (s' & p' & -> & Hf' & Hk' & Hp' & Ho'). exists s', p'. split_and!; [done|done| |done..].
    by rewrite Hk', Hk1, <- app_assoc.
  - destruct (IH s (<[target := results_of p target ++ [skip_result c.(ck_Name) now reason]]> p) Hf) as (s' & p' & -> & Hf' & Hk' & Hp' & Ho).
    exists s', p'. split_and!; [done|done|done| |].
    + rewrite Hp'. unfold results_of at 1. rewrite lookup_insert_eq. cbn. by rewrite <- app_assoc.
    + intros t Ht. rewrite Ho by done. by rewrite lookup_insert_ne.
Qed.

Lemma add_targets_spec g now ms s p : fresh s → NoDup ms → ∃ s' p', add_targets rnd cfg registry g now ms s p = Some (s', p') ∧ fresh s' ∧
  keys s' = keys s ++ (ms ≫= λ name, All registry ≫= entries_for (gate_of g name) name) ∧
  (∀ name, name ∈ ms → results_of p' name = results_of p name ++ (All registry ≫= skips_for (gate_of g name) now)) ∧ ∀ t, t ∉ ms → p' !! t = p !! t.
Proof.
  intros Hf Hnd. revert s p Hf. induction Hnd as [|name ms Hname _ IH]; intros s p Hf; cbn [add_targets].
  { exists s, p. cbn. rewrite app_nil_r. split_and!; [done..| |done]. by intros name ?%not_elem_of_nil. }
  fold (gate_of g name). destruct (add_entries_spec name (gate_of g name) now (All registry) s p Hf) as (s1 & p1 & -> & Hf1 & Hk1 & Hp1 & Ho1). cbn [mbind option_bind].
  destruct (IH s1 p1 Hf1) as (s' & p' & -> & Hf' & Hk' & Hp' & Ho'). exists s', p'. rewrite bind_cons. split_and!; [done|done| | |].
  - by rewrite Hk', Hk1, <- app_assoc.
  - intros n [->|Hn]%elem_of_cons.
    + unfold results_of at 1. rewrite Ho' by done. exact Hp1.
    + rewrite Hp' by done. unfold results_of at 1. rewrite Ho1; [done|]. by intros ->.
  - intros t [Ht Hms]%not_elem_of_cons. rewrite Ho' by done. by apply Ho1.
Qed.

Lemma record_spec (g : gmap string targetGate) ms (m : gmap string (gset string)) name : name ∈ ms →
  foldl (λ m name, <[name := databases_of g name]> m) m ms !! name = Some (databases_of g name).
Proof.
  induction ms as [|n ms IH] using rev_ind; [by intros ?%not_elem_of_nil|]. rewrite foldl_app, elem_of_app, list_elem_of_singleton. cbn.
  destruct (decide (name = n)) as [->|Hne]; [by rewrite lookup_insert_eq|]. rewrite lookup_insert_ne by done. intros [?|?]; [by apply IH|done].
Qed.

(** What a build leaves: a scheduler more, which runs and has the entries of the gates; the
    skips of the old gates give way to those of the new ones, and no other result is touched. *)
Record builds (now : Time) (s s' : scheduleSet) : Prop := {
  bd_crash : s'.(crashed) = s.(crashed);
  bd_gates : s'.(gates) = s.(gates);
  bd_stopped : s'.(stopped) = s.(stopped);
  bd_reading : s'.(reading) = s.(reading);
  bd_current : s'.(current) = Some (length s.(schedulers));
  bd_new : ∃ sc, s'.(schedulers) = s.(schedulers) ++ [sc] ∧ sc.(Scheduler.running) = true ∧ sc.(Scheduler.cancelled) = false ∧ keys sc = expected s.(gates);
  bd_dbs name : name ∈ managers → s'.(scheduledDBs) !! name = Some (databases_of s.(gates) name) ∧ s'.(mgr_scheduled) !! name = Some (databases_of s.(gates) name);
  bd_pending name : name ∈ managers → results_of s'.(pending) name =
    filter (λ r, r.(res_SkipReason) = "") (results_of s.(pending) name) ++ (All registry ≫= skips_for (gate_of s.(gates) name) now);
}.

Lemma dropSkips_results p name : results_of (dropSkips p) name = filter (λ r, r.(res_SkipReason) = "") (results_of p name).
Proof. unfold results_of, dropSkips. rewrite lookup_omap. destruct (p !! name) as [l|]; [|done]. cbn. by case_bool_decide as E. Qed.

Lemma build_spec now s : NoDup managers → builds now s (buildLocked rnd gomaxprocs cfg registry managers now s).
Proof.
  intros Hnd. unfold buildLocked. set (new := Scheduler.NewScheduler _).
  destruct (add_targets_spec (gates s) now managers new (dropSkips (pending s)) (conj eq_refl eq_refl) Hnd) as (sc & p & -> & [Hr Hc] & Hk & Hp & _).
  rewrite Hr. split; [done..| | |].
  - exists (Scheduler.start sc). done.
  - intros name Hn. split; by apply record_spec.
  - intros name Hn. cbn. by rewrite Hp, dropSkips_results.
Qed.
End building.

(** ** Histories

    A reconcile begins, and ends with what the targets answered; a stop; a step of one of the
    schedulers; the delivery of a result; and what the rest of the agent does to [pending], the
    flush, the host's samples and the sampler. [reconcileMu] lets one reconcile run at a time. *)
Inductive label :=
| WBegin
| WEnd (reads : string → readings) (now : Time)
| WStop
| WInner (i : nat) (l : @Scheduler.label CResult)
| WForward (i : nat) (now : Time)
| WOthers (p : gmap string (list Result)).

(** The steps that are not the schedule set's own. *)
Definition inner (l : @Scheduler.label CResult) : bool := match l with Scheduler.LStart | Scheduler.LStop | Scheduler.LConsume => false | _ => true end.

Section histories.
Context `{RangeOrder, JsonCodec} (rnd : Z → Z) (gomaxprocs : Z) (cfg : Config) (registry : gmap string Check_) (managers : list string).

Definition step (l : label) (s : scheduleSet) : option scheduleSet :=
  match l with
  | WBegin => match s.(reading) with None => Some (reconcile_begin s) | Some _ => None end
  | WEnd reads now => prev ← s.(reading); Some (reconcile_end rnd gomaxprocs cfg registry managers reads now prev s)
  | WStop => Some (stop s)
  | WInner i l => if inner l then sc ← s.(schedulers) !! i; sc' ← Scheduler.step l sc; Some (set_schedulers (<[i := sc']> s.(schedulers)) s) else None
  | WForward i now => forward i now s
  | WOthers p => Some (set_pending p s)
  end.

(** [E] is what is known of the databases that discoveries list. *)
Context (E : string → Prop).

Definition reads_ok (reads : string → readings) : Prop := ∀ name, name ∈ managers →
  (reads name).(rg_tier) ∈ [TierReadOnly; TierExplain; TierSignal; TierExtension] ∧
  ∀ dbs db, (reads name).(rg_discover) = inr dbs → db ∈ dbs → E db.(db_Name).
Definition label_ok (l : label) : Prop := match l with WEnd reads _ => reads_ok reads | _ => True end.

Inductive reach : scheduleSet → Prop :=
| reach_start p reads now : reads_ok reads → reach (start rnd gomaxprocs cfg registry managers reads now (newScheduleSet p ∅))
| reach_step l s s' : reach s → label_ok l → step l s = Some s' → reach s'.

Record gates_ok (g : gmap string targetGate) : Prop := {
  go_known name : name ∈ managers → is_Some (g !! name);
  go_gate name t : g !! name = Some t → gate_ok t ∧ ∀ d, d ∈ t.(tg_databases) → E d;
}.

Lemma readTargetGate_ok r scheduled : r.(rg_tier) ∈ [TierReadOnly; TierExplain; TierSignal; TierExtension] → (∀ dbs db, r.(rg_discover) = inr dbs → db ∈ dbs → E db.(db_Name)) →
  let '(g, _) := readTargetGate r scheduled in gate_ok g ∧ (∀ d, d ∈ g.(tg_databases) → E d) ∧ ∀ db, db ∈ g.(tg_discovered) → E db.(db_Name).
Proof.
  intros Ht Hd. assert (TierReadOnly ∈ [TierReadOnly; TierExplain; TierSignal; TierExtension]) as Hro by left.
  unfold readTargetGate. destruct (rg_expired r).
  { split; [split; [done|by left]|]. split; [by intros d ?%not_elem_of_empty|by intros d ?%not_elem_of_nil]. }
  assert ((if rg_version r =? 0 then TierReadOnly else rg_tier r) ∈ [TierReadOnly; TierExplain; TierSignal; TierExtension]) by by destruct (_ =? _).
  destruct (rg_discover r) as [e|dbs] eqn:Ed.
  { split; [split; [done|right; by eexists]|]. split; [by intros d ?%not_elem_of_empty|by intros d ?%not_elem_of_nil]. }
  destruct (rg_locate r _) as [found unknown]. split; [split; [done|right; by eexists]|]. split.
  - cbn. intros d (db & Hdb & _ & <-)%elem_of_monitored. by eapply Hd.
  - intros db. cbn. by apply Hd.
Qed.

Lemma nextGate_ok last read ok : gate_ok read → (∀ d, d ∈ read.(tg_databases) → E d) → (∀ db, db ∈ read.(tg_discovered) → E db.(db_Name)) →
  (∀ g, last = Some g → gate_ok g ∧ ∀ d, d ∈ g.(tg_databases) → E d) →
  let '(g, _) := nextGate last read ok in gate_ok g ∧ ∀ d, d ∈ g.(tg_databases) → E d.
Proof.
  intros Hr Hd Hl Hlast. destruct last as [last|]; [|done]. destruct (Hlast last eq_refl) as [Hg HE]. destruct ok; [|done].
  pose proof (rebuild_exact_gate last read Hg Hr) as Hok. cbn in Hok |- *. split; [exact Hok|]. intros d. rewrite keep_eq.
  destruct (fill_spec (slots (tg_discovered read)) (tg_discovered read) (tg_databases last ∩ listed (tg_discovered read))) as (_ & Hs & _). intros [Hin|Hin]%Hs%elem_of_union; [apply HE; set_solver +Hin|].
  apply elem_of_monitored in Hin as (db & Hdb & _ & <-). by apply Hl.
Qed.

Lemma readGates_ok reads prev ms next changed : reads_ok reads → ms ⊆ managers → gates_ok prev ∨ prev = ∅ →
  (∀ name t, next !! name = Some t → gate_ok t ∧ ∀ d, d ∈ t.(tg_databases) → E d) →
  let '(g, _) := readGates reads prev ms next changed in
  (∀ name, name ∈ ms ∨ is_Some (next !! name) → is_Some (g !! name)) ∧ (∀ name t, g !! name = Some t → gate_ok t ∧ ∀ d, d ∈ t.(tg_databases) → E d).
Proof.
  intros Hreads Hms Hprev. revert next changed. induction ms as [|name ms IH]; intros next changed Hnext; cbn [readGates].
  { split; [|done]. by intros n [?%not_elem_of_nil|?]. }
  destruct (Hreads name) as [Ht Hd]; [apply Hms; left|]. pose proof (readTargetGate_ok (reads name) (tg_databases <$> prev !! name) Ht Hd) as Hread.
  destruct (readTargetGate _ _) as [read ok]. destruct Hread as (Hg & HE & HL).
  pose proof (nextGate_ok (prev !! name) read ok Hg HE HL) as Hnx. destruct (nextGate (prev !! name) read ok) as [g differs].
  assert (gate_ok g ∧ ∀ d, d ∈ tg_databases g → E d) as Hg'. { apply Hnx. intros t Hp. destruct Hprev as [Hprev| ->]; [by apply (go_gate prev Hprev name)|done]. }
  specialize (IH ltac:(set_solver) (<[name := g]> next) (if differs then changed ++ [name] else changed)).
  destruct (readGates _ _ _ _ _) as [out ch]. destruct IH as [H1 H2].
  { intros n t. destruct (decide (n = name)) as [->|?]; [rewrite lookup_insert_eq; by intros [= <-]|]. rewrite lookup_insert_ne by done. apply Hnext. }
  split; [|done]. intros n [[->|Hn]%elem_of_cons|Hn]; [apply H1; right; by rewrite lookup_insert_eq|apply H1; by left|apply H1; right].
  destruct (decide (n = name)) as [->|?]; [by rewrite lookup_insert_eq|by rewrite lookup_insert_ne].
Qed.

Record inv (s : scheduleSet) : Prop := {
  si_crash : s.(crashed) = false;
  si_gates : gates_ok s.(gates);
  si_reading prev : s.(reading) = Some prev → prev = s.(gates);
  si_one i sc : s.(schedulers) !! i = Some sc → sc.(Scheduler.running) = true ∧
    (sc.(Scheduler.cancelled) = false → s.(stopped) = false ∧ s.(current) = Some i ∧ keys sc = expected registry managers s.(gates));
  si_current : s.(stopped) = false → ∃ i sc, s.(current) = Some i ∧ s.(schedulers) !! i = Some sc ∧ sc.(Scheduler.cancelled) = false;
  si_dbs name : name ∈ managers → s.(scheduledDBs) !! name = Some (databases_of s.(gates) name) ∧ s.(mgr_scheduled) !! name = Some (databases_of s.(gates) name);
}.

Lemma inv_build now s : NoDup managers → s.(crashed) = false → gates_ok s.(gates) → s.(reading) = None → s.(stopped) = false →
  (∀ i sc, s.(schedulers) !! i = Some sc → sc.(Scheduler.running) = true ∧ sc.(Scheduler.cancelled) = true) →
  inv (buildLocked rnd gomaxprocs cfg registry managers now s).
Proof.
  intros Hnd Hc Hg Hr Hst Hall. destruct (build_spec rnd gomaxprocs cfg registry managers now s Hnd) as [B1 B2 B3 B4 B5 (sc & B6 & Br & Bc & Bk) B7 _].
  set (s' := buildLocked _ _ _ _ _ _ _) in *. clearbody s'. split; rewrite ?B1, ?B2, ?B3, ?B4, ?B5; try done.
  - by rewrite Hr.
  - intros i sc'. rewrite B6. intros [Hi|[Hlen Hi]]%lookup_app_Some.
    + destruct (Hall i sc' Hi) as [? Hca]. split; [done|]. congruence.
    + apply list_lookup_singleton_Some in Hi as [Hz ->]. split; [done|]. intros _. split_and!; [done|f_equal; lia|done].
  - intros _. exists (length (schedulers s)), sc. split_and!; [done| |done]. by rewrite B6, list_lookup_middle.
Qed.

Lemma stop_current_all s : inv s → ∀ i sc, (stopCurrentLocked s).(schedulers) !! i = Some sc → sc.(Scheduler.running) = true ∧ sc.(Scheduler.cancelled) = true.
Proof.
  intros Hs i sc. unfold stopCurrentLocked. destruct (current s) as [c|] eqn:Hc.
  - cbn. destruct (decide (i = c)) as [->|Hne].
    + rewrite list_lookup_alter_eq. destruct (schedulers s !! c) as [sc0|] eqn:Hi; [|done]. intros [= <-]. destruct (si_one s Hs c sc0 Hi) as [Hr _]. by rewrite Hr.
    + rewrite list_lookup_alter_ne by done. intros Hi. destruct (si_one s Hs i sc Hi) as [Hr Hn]. split; [done|]. destruct (Scheduler.cancelled sc); [done|]. destruct (Hn eq_refl) as (_ & ? & _). congruence.
  - intros Hi. destruct (si_one s Hs i sc Hi) as [Hr Hn]. split; [done|]. destruct (Scheduler.cancelled sc); [done|]. destruct (Hn eq_refl) as (_ & ? & _). congruence.
Qed.

Lemma stop_current_same s : let s' := stopCurrentLocked s in
  s'.(crashed) = s.(crashed) ∧ s'.(gates) = s.(gates) ∧ s'.(reading) = s.(reading) ∧ s'.(stopped) = s.(stopped) ∧ s'.(current) = s.(current) ∧
  s'.(scheduledDBs) = s.(scheduledDBs) ∧ s'.(mgr_scheduled) = s.(mgr_scheduled) ∧ length s'.(schedulers) = length s.(schedulers).
Proof. unfold stopCurrentLocked. destruct (current s) eqn:E0; cbn; rewrite ?length_alter; done. Qed.

Context (Hnd : NoDup managers).

Lemma schedule_inv_start p reads now : reads_ok reads → inv (start rnd gomaxprocs cfg registry managers reads now (newScheduleSet p ∅)).
Proof using Hnd.
  intros Hr. unfold start. pose proof (readGates_ok reads ∅ managers ∅ [] Hr ltac:(done) (or_intror eq_refl) ltac:(done)) as Hg.
  destruct (readGates reads ∅ managers ∅ []) as [g ch]. destruct Hg as [H1 H2]. apply inv_build; try done. split; [intros name Hn; apply H1; by left|done].
Qed.

(** A change of one scheduler that leaves its entries and its context, and of [pending]. *)
Lemma inv_inner s i sc sc' p : inv s → s.(schedulers) !! i = Some sc →
  sc'.(Scheduler.running) = sc.(Scheduler.running) ∧ sc'.(Scheduler.cancelled) = sc.(Scheduler.cancelled) ∧ sc'.(Scheduler.entries) = sc.(Scheduler.entries) →
  inv (set_pending p (set_schedulers (<[i := sc']> s.(schedulers)) s)).
Proof.
  intros Hs Hi (Er & Ec & Ee). assert (keys sc' = keys sc) as Ek by (unfold keys; by rewrite Ee). split; cbn; try apply Hs.
  - intros j x. destruct (decide (j = i)) as [->|?].
    + rewrite list_lookup_insert_eq by by eapply lookup_lt_Some. intros [= <-]. rewrite Er, Ec, Ek. by apply (si_one s Hs).
    + rewrite list_lookup_insert_ne by done. apply (si_one s Hs).
  - intros Hst. destruct (si_current s Hs Hst) as (j & x & Hj & Hx & Hc). destruct (decide (j = i)) as [->|?].
    + exists i, sc'. split_and!; [done|by rewrite list_lookup_insert_eq by by eapply lookup_lt_Some|]. rewrite Ec. congruence.
    + exists j, x. split_and!; [done|by rewrite list_lookup_insert_ne|done].
Qed.

Lemma inv_reading s r : inv s → (∀ prev, r = Some prev → prev = s.(gates)) → inv (set_reading r s).
Proof. intros Hs Hr. split; cbn; try apply Hs. done. Qed.

Lemma inv_stop s : inv s → inv (stop s).
Proof.
  intros Hs. unfold stop. destruct (stop_current_same (set_stopped true s)) as (E1 & E2 & E3 & E4 & E5 & E6 & E7 & _).
  assert (∀ i sc, schedulers (stopCurrentLocked (set_stopped true s)) !! i = Some sc → Scheduler.running sc = true ∧ Scheduler.cancelled sc = true) as Hall.
  { intros i sc. pose proof (stop_current_all s Hs i sc) as Ha. unfold stopCurrentLocked in *. cbn in *. by destruct (current s). }
  set (s' := stopCurrentLocked _) in *. clearbody s'. split; rewrite ?E1, ?E2, ?E3, ?E4, ?E6, ?E7; cbn; try apply Hs; try done.
  intros i sc Hi. destruct (Hall i sc Hi). split; [done|]. congruence.
Qed.

Lemma schedule_inv_step l s s' : inv s → label_ok l → step l s = Some s' → inv s'.
Proof using Hnd.
  intros Hs Hl. destruct l as [|reads now| |i l|i now|p].
  - cbn. destruct (reading s) eqn:Hrd; [done|]. intros [= <-]. unfold reconcile_begin. destruct (stopped s); [done|]. apply inv_reading; [done|]. by intros prev [= <-].
  - cbn. destruct (reading s) as [prev|] eqn:Hrd; [|done]. cbn. intros [= <-]. pose proof (si_reading s Hs prev Hrd) as ->.
    assert (inv (set_reading None s)) as Hs0 by by apply inv_reading. unfold reconcile_end.
    pose proof (readGates_ok reads (gates s) managers ∅ [] Hl ltac:(done) (or_introl (si_gates s Hs)) ltac:(done)) as Hg.
    destruct (readGates reads (gates s) managers ∅ []) as [g ch]. destruct Hg as [Hg1 Hg2]. case_bool_decide; [done|]. destruct (stopped (set_reading None s)) eqn:Hst; [done|].
    destruct (stop_current_same (set_reading None s)) as (E1 & E2 & E3 & E4 & E5 & E6 & E7 & _). pose proof (stop_current_all _ Hs0) as Hall.
    apply inv_build; cbn; rewrite ?E1, ?E3, ?E4; try done; [apply Hs|]. split; [intros name Hn; apply Hg1; by left|done].
  - intros [= <-]. by apply inv_stop.
  - intros Hstep. assert (∃ sc sc', schedulers s !! i = Some sc ∧ Scheduler.step l sc = Some sc' ∧ l ≠ Scheduler.LStart ∧ l ≠ Scheduler.LStop ∧ s' = set_schedulers (<[i := sc']> (schedulers s)) s) as (sc & sc' & Hi & Hsc & Hn1 & Hn2 & ->).
    { cbn [step] in Hstep. destruct (inner l) eqn:Hin; [|done]. apply bind_Some in Hstep as (sc & Hi & (sc' & Hsc & [= <-])%bind_Some). exists sc, sc'. split_and!; [done|done| | |done]; by intros ->. }
    assert (set_schedulers (<[i := sc']> (schedulers s)) s = set_pending (pending s) (set_schedulers (<[i := sc']> (schedulers s)) s)) as -> by done.
    eapply inv_inner; [done..|]. by eapply inner_step.
  - cbn [step]. unfold forward. destruct (schedulers s !! i) as [sc|] eqn:Hi; [|done]. cbn -[Scheduler.step]. destruct (head _); [|done]. cbn -[Scheduler.step].
    destruct (Scheduler.step Scheduler.LConsume sc) as [sc'|] eqn:Hsc; [|done]. cbn -[Scheduler.step]. intros [= <-]. eapply inv_inner; [done..|]. by eapply inner_step.
  - intros [= <-]. split; cbn; apply Hs.
Qed.

Lemma schedule_reach_inv s : reach s → inv s.
Proof using Hnd. induction 1 as [p reads now Hr|l s s' _ IH Hl Hs]; [by apply schedule_inv_start|by eapply schedule_inv_step]. Qed.

Lemma step_after_stop l s s' : s.(stopped) = true → step l s = Some s' → s'.(stopped) = true ∧ length s'.(schedulers) = length s.(schedulers).
Proof.
  intros Hst. destruct l as [|reads now| |i l|i now|p]; cbn [step].
  - destruct (reading s); [done|]. unfold reconcile_begin. rewrite Hst. by intros [= <-].
  - destruct (reading s) as [prev|]; [|done]. cbn. unfold reconcile_end. destruct (readGates _ _ _ _ _) as [g ch]. cbn. case_bool_decide; [by intros [= <-]|]. rewrite Hst. by intros [= <-].
  - intros [= <-]. unfold stop. destruct (stop_current_same (set_stopped true s)) as (_ & _ & _ & -> & _ & _ & _ & ->). done.
  - destruct (inner l); [|done]. intros (sc & _ & (sc' & _ & [= <-])%bind_Some)%bind_Some. cbn. by rewrite length_insert.
  - unfold forward. destruct (schedulers s !! i) as [sc|]; [|done]. cbn -[Scheduler.step]. destruct (head _); [|done]. cbn -[Scheduler.step].
    destruct (Scheduler.step Scheduler.LConsume sc) as [sc'|]; [|done]. intros [= <-]. cbn. by rewrite length_insert.
  - by intros [= <-].
Qed.

(** C31: However reconciles, stops, scrapes and deliveries interleave: at most one scheduler takes
    new work, the current one, and it has an entry for exactly the checks each target's gate
    supports, once per scheduled database for those that run in a database. One does until
    [stop]; after it none does, and none is built again. The databases that the flush reports
    and the ones a manager opens are those of the running schedule, and all of them were listed
    by a discovery. *)
Theorem schedule_in_step s : reach s →
  s.(crashed) = false ∧
  (∀ i sc, s.(schedulers) !! i = Some sc → sc.(Scheduler.cancelled) = false →
     s.(stopped) = false ∧ s.(current) = Some i ∧ keys sc = expected registry managers s.(gates)) ∧
  (s.(stopped) = false → ∃ i sc, s.(current) = Some i ∧ s.(schedulers) !! i = Some sc ∧ sc.(Scheduler.cancelled) = false) ∧
  (∀ name, name ∈ managers → s.(scheduledDBs) !! name = s.(mgr_scheduled) !! name ∧
     ∃ g, s.(gates) !! name = Some g ∧ s.(scheduledDBs) !! name = Some g.(tg_databases) ∧ gate_ok g ∧ ∀ d, d ∈ g.(tg_databases) → E d) ∧
  (∀ l s', s.(stopped) = true → step l s = Some s' → s'.(stopped) = true ∧ length s'.(schedulers) = length s.(schedulers)).
Proof using Hnd.
  intros Hs%schedule_reach_inv. split_and!.
  - apply Hs.
  - intros i sc Hi Hc. by apply (si_one s Hs i sc Hi).
  - apply Hs.
  - intros name Hn. destruct (si_dbs s Hs name Hn) as [-> ->]. split; [done|]. destruct (go_known _ (si_gates s Hs) name Hn) as [g Hg]. exists g.
    unfold databases_of. rewrite Hg. split_and!; [done..|by apply (go_gate _ (si_gates s Hs) name)|by apply (go_gate _ (si_gates s Hs) name)].
  - intros l s'. apply step_after_stop.
Qed.
End histories.

(** ** Examples *)
Module Reconcile_.
#[local] Instance in_order : RangeOrder := λ K V _ _ m, map_to_list m.
#[local] Instance no_json : JsonCodec := {| json_Valid _ := true; json_Decode _ := None; json_Unmarshal _ := None; json_Marshal _ := None |}.

Definition dbs1 : list WDatabase := [mkWDatabase "shop" true ""; mkWDatabase "app" true ""; mkWDatabase "old" false "db_budget"].
Definition dbs2 : list WDatabase := [mkWDatabase "old" true ""; mkWDatabase "shop" true ""; mkWDatabase "app" false "db_budget"].

(** A swap in the ranking leaves the schedule alone; a database that is gone gives its slot to
    the busiest one that waits. *)
Lemma keep_databases_exact_witness : NoDup (db_Name <$> dbs1) ∧ keepDatabases (keepDatabases ∅ dbs1) dbs2 = keepDatabases ∅ dbs1 ∧
  keepDatabases {["shop"; "gone"]} dbs1 = {["shop"; "app"]}.
Proof.
  assert (NoDup (db_Name <$> dbs1)) as Hn by by apply (bool_decide_unpack _). split; [exact Hn|].
  destruct (keep_databases_exact ∅ dbs1 Hn) as (_ & _ & _ & _ & Hs). split; [|by apply (bool_decide_unpack _); vm_compute].
  apply Hs; by apply (bool_decide_unpack _); vm_compute.
Defined.

Definition primary : targetGate := mkTargetGate RolePrimary 160004 TierExplain {[pg_stat_statements := true]} {["shop"; "app"]} dbs1 false.
Definition unsure : targetGate := mkTargetGate RolePrimary 160004 TierExplain {[pg_stat_statements := false]} ∅ dbs2 true.

Lemma primary_ok : gate_ok primary.
Proof. split; [right; left|right; by exists true]. Qed.

Lemma unsure_ok : gate_ok unsure.
Proof. split; [right; left|right; by exists false]. Qed.

Lemma rebuild_exact_witness : gate_ok primary ∧ gate_ok unsure ∧ (nextGate (Some primary) unsure true).2 = false ∧
  (∀ r, Supports r RolePrimary 160004 TierExplain (nextGate (Some primary) unsure true).1.(tg_exts) = Supports r RolePrimary 160004 TierExplain {[pg_stat_statements := true]}).
Proof.
  split; [exact primary_ok|]. split; [exact unsure_ok|]. assert ((nextGate (Some primary) unsure true).2 = false) as Hb by (vm_compute; reflexivity). split; [exact Hb|].
  intros r. pose proof (rebuild_exact primary unsure primary_ok unsure_ok) as Hx. destruct (nextGate (Some primary) unsure true) as [g b]. cbn in Hb. subst b.
  destruct Hx as (_ & Hiff & _). cbn. by injection (proj1 Hiff eq_refl) as _ _ _ -> _.
Defined.

Definition registry : gmap string Check_ :=
  {["tables" := mkCheck "tables" (mkRequirements [RolePrimary] 0 0 [] 0 ScopeDatabase) (60 * Second);
    "wal" := mkCheck "wal" (mkRequirements [] 150000 0 [] 0 ScopeInstance) (10 * Second)]}.
Definition config : Config := mkConfig (mkServerConfig "" "" "") "" "" (mkBufferConfig "" "" "") [] ∅ None (mkHostConfig None "" "" "") 0 0 0 ∅ 0.

Definition reads (role : Role) (_ : string) : readings := mkReadings (inr dbs1) false 160004 role TierExplain (λ _, (false, None)).
Definition begun : scheduleSet := start (λ _, 0) 4 config registry ["main"] (reads RoleStandby) 0 (newScheduleSet ∅ ∅).
Definition promoted : scheduleSet := reconcile_end (λ _, 0) 4 config registry ["main"] (reads RolePrimary) 30 begun.(gates) (set_reading (Some begun.(gates)) begun).

Lemma reads_fine role : reads_ok ["main"] (λ d, d ≠ "rdsadmin") (reads role).
Proof. intros name _. split; [right; left|]. intros l db [= <-] Hdb. unfold dbs1 in Hdb. rewrite !elem_of_cons, elem_of_nil in Hdb. destruct Hdb as [->|[->|[->|[]]]]; done. Qed.

Lemma promoted_reached : reach (λ _, 0) 4 config registry ["main"] (λ d, d ≠ "rdsadmin") promoted.
Proof.
  apply (reach_step _ _ _ _ _ _ (WEnd (reads RolePrimary) 30) (set_reading (Some (gates begun)) begun)); [|apply reads_fine|reflexivity].
  apply (reach_step _ _ _ _ _ _ WBegin begun); [apply reach_start, reads_fine|done|reflexivity].
Qed.

Example skipped_on_a_standby : (λ r, (r.(res_Check), r.(res_SkipReason))) <$> results_of begun.(pending) "main" = [("tables", "role standby not allowed")] ∧ results_of promoted.(pending) "main" = [].
Proof. vm_compute. auto. Qed.

(** The standby is promoted: the schedule that skipped a check is stopped, and the new one has
    it for each database. *)
Lemma schedule_in_step_witness : length promoted.(schedulers) = 2%nat ∧ promoted.(crashed) = false ∧
  (∀ i sc, promoted.(schedulers) !! i = Some sc → sc.(Scheduler.cancelled) = false → promoted.(current) = Some i) ∧
  ∃ i sc, promoted.(schedulers) !! i = Some sc ∧ keys sc = [Scheduler.mkScheduleEntry "main" "tables" "shop"; Scheduler.mkScheduleEntry "main" "tables" "app"; Scheduler.mkScheduleEntry "main" "wal" ""].
Proof.
  assert (NoDup ["main"]) as Hnd by apply NoDup_singleton.
  destruct (schedule_in_step (λ _, 0) 4 config registry ["main"] (λ d, d ≠ "rdsadmin") Hnd promoted promoted_reached) as (H1 & H2 & H3 & _).
  split; [vm_compute; reflexivity|]. split; [exact H1|]. split; [intros i sc Hi Hc; by apply (H2 i sc Hi Hc)|].
  destruct H3 as (i & sc & _ & Hi & Hc); [vm_compute; reflexivity|]. exists i, sc. split; [exact Hi|]. destruct (H2 i sc Hi Hc) as (_ & _ & ->). vm_compute. reflexivity.
Defined.
End Reconcile_.
