(* ===== verification/AgentRun.v ===== *)
(** * The agent's push cycle (cmd/pglens-agent/run.go)

    Every push interval the results collected since the last one are taken, and each target
    that can be reached and identified becomes an instance of one envelope. [pending] is shared
    with the schedule, the host's samples and the sampler: what they do to it while the targets
    are asked, results added and a new schedule's [dropSkips], is an argument of the flush.
    What a target answers is one too. *)
From S2P Require Import Prelude GoTime GoFloat GoBytes GoText GoSort Pgtype PgIds Wire AlertTypes AgentConfig ScheduleSet.
From S2P Require Identity Host Conn.

Definition clockSkewWarnThreshold : Duration := 60 * Second.

(** ** Results of the agent's own *)

(** [rate] is what the pusher answers; absent without a pusher. *)
Definition agentSelfResult (rate : option float64) (now : Time) : Result :=
  mkResult "agent_self" now "" None false false "" ""
    (match rate with Some v => [mkMetric "pglens_samples_dropped_rate" ∅ v "gauge"] | None => [] end) [] ∅.

Definition gauge (name : string) (v : option float64) : list WMetric := match v with Some v => [mkMetric name ∅ v "gauge"] | None => [] end.
Definition gauge_int (name : string) (v : option Z) : list WMetric := gauge name (float_of_int <$> v).

Definition disk_free_ratio (s : Host.Sample) : option float64 :=
  match s.(Host.DiskTotalBytes), s.(Host.DiskFreeBytes) with
  | Some total, Some free => if 0 <? total then Some (fdiv (float_of_int free) (float_of_int total)) else None
  | _, _ => None
  end.

Definition source_code (source : string) : float64 :=
  if decide (source = "cgroup_v1") then float_of_int 1 else if decide (source = "cgroup_v2") then float_of_int 2 else fzero.

Definition hostWireResult (s : Host.Sample) (now : Time) : Result :=
  mkResult "host" now "" None false false "" ""
    (gauge_int "host_mem_total_bytes" s.(Host.MemTotalBytes) ++ gauge_int "host_mem_available_bytes" s.(Host.MemAvailableBytes) ++
     gauge_int "host_swap_total_bytes" s.(Host.SwapTotalBytes) ++ gauge_int "host_swap_used_bytes" s.(Host.SwapUsedBytes) ++
     gauge_int "host_cpu_count" s.(Host.CPUCount) ++ gauge "host_cpu_used_ratio" s.(Host.CPUUsedRatio) ++
     gauge "host_load1" s.(Host.Load1) ++ gauge "host_load5" s.(Host.Load5) ++ gauge "host_load15" s.(Host.Load15) ++
     gauge_int "host_disk_total_bytes" s.(Host.DiskTotalBytes) ++ gauge_int "host_disk_free_bytes" s.(Host.DiskFreeBytes) ++
     gauge "host_disk_free_ratio" (disk_free_ratio s) ++ gauge "host_metrics_source" (Some (source_code s.(Host.Source)))) [] ∅.

(** A sample goes to every local target. *)
Definition host_collect `{Identity.UrlParse, UnicodeLower} (cfg : Config) (s : string + Host.Sample) (now : Time) (pending : gmap string (list Result)) : gmap string (list Result) :=
  match s with
  | inl _ => pending
  | inr s => foldl (λ p tc, if TargetIsLocal tc then append tc.(tc_Name) (hostWireResult s now) p else p) pending cfg.(cf_Targets)
  end.

(** ** Skips that wait *)

Definition skipped (r : Result) : bool := nonempty r.(res_SkipReason).

Fixpoint requeue (queued : gset string) (batch kept : list Result) : list Result :=
  match batch with
  | [] => kept
  | r :: batch =>
      if negb (skipped r) || bool_decide (r.(res_Check) ∈ queued) then requeue queued batch kept
      else requeue ({[r.(res_Check)]} ∪ queued) batch (kept ++ [r])
  end.

Definition queued_checks (l : list Result) : gset string := list_to_set (res_Check <$> filter (λ r, skipped r = true) l).

Definition requeueSkips (target : string) (batch : list Result) (pending : gmap string (list Result)) : gmap string (list Result) :=
  let here := results_of pending target in
  let kept := requeue (queued_checks here) batch here in
  if bool_decide (kept = []) then pending else <[target := kept]> pending.

(** ** Replication edges *)

Record edgeState := mkEdgeState { es_host : string; es_port : Z; es_connected : bool }.

Definition zero_edge : edgeState := mkEdgeState "" 0 false.

Section edges.
Context `{FloatOverflow}.

Definition read_metric (state : edgeState) (m : WMetric) : edgeState :=
  if decide (m.(m_Name) = "replication_receiver_status") then
    let connected := feq m.(m_Value) (float_of_int 1) in
    let host := default "" (m.(m_Labels) !! "sender_host") in
    if bool_decide (host = "") then mkEdgeState state.(es_host) state.(es_port) connected
    else mkEdgeState host (if nonempty state.(es_host) && negb (bool_decide (state.(es_host) = host)) then 0 else state.(es_port)) connected
  else if decide (m.(m_Name) = "replication_receiver_sender_port") then
    if flt fzero m.(m_Value) then mkEdgeState state.(es_host) (to_int64 m.(m_Value)) state.(es_connected) else state
  else state.

Definition read_result (state : edgeState) (r : Result) : edgeState :=
  if decide (r.(res_Check) = "replication_receiver") then foldl read_metric state r.(res_Metrics) else state.

Definition edge_of (from : string) (state : edgeState) : list WEdge :=
  if bool_decide (state.(es_host) = "") then []
  else [mkWEdge from state.(es_host) state.(es_port) "streaming" (if state.(es_connected) then "high" else "low")].

Definition build (name from : string) (role : Role) (results : list Result) (e : gmap string edgeState) : list WEdge * gmap string edgeState :=
  if negb (bool_decide (role = RoleStandby)) then ([], delete name e)
  else
    let state := foldl read_result (default zero_edge (e !! name)) results in
    (edge_of from state, <[name := state]> e).
End edges.

(** ** The databases reported *)

Definition count_db (f : WDatabase → bool) (dbs : list WDatabase) : nat := length (filter (λ db, f db = true) dbs).

Definition reportScheduled (dbs : list WDatabase) (scheduled : gset string) : list WDatabase :=
  let full := bool_decide (count_db db_Monitored dbs ≤ count_db (λ db, bool_decide (db.(db_Name) ∈ scheduled)) dbs)%nat in
  (λ db, if bool_decide (db.(db_Name) ∈ scheduled) then mkWDatabase db.(db_Name) true ""
         else if db.(db_Monitored) then mkWDatabase db.(db_Name) false (if full then "db_budget" else "discovered_after_start")
         else db) <$> dbs.

(** ** The flush *)

(** What the rest of the agent does to [pending] under its mutex: a result is added, and the
    skips are dropped when a schedule is built. *)
Inductive act := Added (target : string) (r : Result) | SkipsDropped.

Definition do_act (pending : gmap string (list Result)) (a : act) : gmap string (list Result) :=
  match a with Added target r => append target r pending | SkipsDropped => dropSkips pending end.

Definition do_acts (l : list act) (pending : gmap string (list Result)) : gmap string (list Result) := foldl do_act pending l.

(** What a target answers, in the order it is asked. *)
Record target_answers := mkTargetAnswers {
  ta_refresh : option string;      (* RefreshRole *)
  ta_ClusterID : ClusterID;
  ta_InstanceID : UUID;
  ta_discover : string + list WDatabase;
  ta_Role : Role;
  ta_ClusterIDSource : string;
  ta_Addr : string;
  ta_Port : Z;
  ta_PGVersion : Z;
  ta_PermTier : Z;
}.

Record flush_state := mkFlushState {
  fl_pending : gmap string (list Result);
  fl_edges : gmap string edgeState;
  fl_self : option Result;
  fl_instances : list WInstance;
}.

Section flush.
Context `{FloatOverflow, UuidText}.
Context (answers : string → target_answers) (rate : option float64) (sentAt : Time) (ashEnabled : gmap string bool).
(** What the rest of the agent does to [pending] before the flush comes to a target. *)
Context (others : string → list act).
Context (scheduled : gmap string (gset string)) (batch : gmap string (list Result)).

Definition live (name : string) : bool :=
  let a := answers name in
  bool_decide (a.(ta_refresh) = None) && negb (a.(ta_ClusterID) =? 0) && negb (bool_decide (a.(ta_InstanceID) = uuid_Nil)).

Definition instance (name : string) (results : list Result) (edges : list WEdge) : WInstance :=
  let a := answers name in
  mkWInstance (uuid_String a.(ta_InstanceID)) name (ClusterID_String a.(ta_ClusterID)) a.(ta_ClusterIDSource) a.(ta_Addr) a.(ta_Port) a.(ta_PGVersion)
    (Role_String a.(ta_Role)) (PermTier_String a.(ta_PermTier)) []
    (reportScheduled (match a.(ta_discover) with inr dbs => dbs | inl _ => [] end) (default ∅ (scheduled !! name)))
    results edges (Some (has ashEnabled name)).

Definition flush_target (st : flush_state) (name : string) : flush_state :=
  let a := answers name in
  let results := results_of batch name in
  let pending := do_acts (others name) st.(fl_pending) in
  if negb (live name) then mkFlushState (requeueSkips name results pending) st.(fl_edges) st.(fl_self) st.(fl_instances)
  else
    let '(edges, states) := build name (uuid_String a.(ta_InstanceID)) a.(ta_Role) results st.(fl_edges) in
    if bool_decide (results = []) then mkFlushState pending states st.(fl_self) (st.(fl_instances) ++ [instance name results edges])
    else
      let self := match st.(fl_self) with Some r => r | None => agentSelfResult rate sentAt end in
      mkFlushState pending states (Some self) (st.(fl_instances) ++ [instance name (results ++ [self]) edges]).
End flush.

(** The envelope queued, if any, what is pending and the edges remembered. *)
Definition flushEnvelope `{FloatOverflow, UuidText} (managers : list string) (answers : string → target_answers) (agentID : UUID) (version : string)
    (rate : option float64) (sentAt : Time) (ashEnabled : gmap string bool) (others : string → list act)
    (scheduledDBs : gmap string (gset string)) (pending : gmap string (list Result)) (edges : gmap string edgeState) :
    option Envelope * gmap string (list Result) * gmap string edgeState :=
  let st := foldl (flush_target answers rate sentAt ashEnabled others scheduledDBs pending) (mkFlushState ∅ edges None []) managers in
  let env := mkEnvelope ProtocolVersionCurrent (if bool_decide (managers = []) || bool_decide (agentID = uuid_Nil) then "" else uuid_String agentID)
    version sentAt st.(fl_instances) zero_time in
  (if bool_decide (st.(fl_instances) = []) then None else Some env, st.(fl_pending), st.(fl_edges)).

(** ** Theorems: edges *)

Section edge_histories.
Context `{FloatOverflow}.

(** How the readings of a standby fall on push cycles does not show: two cycles leave the state,
    and the second reports the edges, of one cycle with all the results. A cycle without a
    reading repeats the edges of the one before it, and a target that is not a standby has none
    and is forgotten. *)
Theorem edges_batch_free name from r1 r2 e :
  let '(edges1, e1) := build name from RoleStandby r1 e in
  build name from RoleStandby r2 e1 = build name from RoleStandby (r1 ++ r2) e ∧
  ((∀ r, r ∈ r2 → r.(res_Check) ≠ "replication_receiver") → (build name from RoleStandby r2 e1).1 = edges1) ∧
  (∀ role r, role ≠ RoleStandby → (build name from role r e1).1 = [] ∧
     build name from RoleStandby r2 (build name from role r e1).2 = build name from RoleStandby r2 (delete name e)).
Proof.
  unfold build. cbn [bool_decide negb]. rewrite bool_decide_eq_true_2 by done. cbn [negb]. rewrite lookup_insert_eq. cbn [default fst]. split_and!.
  - by rewrite foldl_app, insert_insert_eq.
  - intros Hn. f_equal. generalize (foldl read_result (default zero_edge (e !! name)) r1). induction r2 as [|r r2 IH]; intros st; [done|]. cbn [foldl].
    unfold read_result at 2. rewrite decide_False by (apply Hn; left). apply IH. intros x Hx. apply Hn. by right.
  - intros role r Hrole. rewrite bool_decide_eq_false_2 by done. cbn [negb fst snd]. split; [done|]. by rewrite delete_insert_eq, !lookup_delete_eq.
Qed.
End edge_histories.

(** ** Theorems: skips *)

Definition has_skip (check : string) (l : list Result) : Prop := ∃ r, r ∈ l ∧ skipped r = true ∧ r.(res_Check) = check.

Lemma requeue_spec queued batch kept : (∀ c, c ∈ queued → has_skip c kept) →
  let out := requeue queued batch kept in
  kept `prefix_of` out ∧ (∀ r, r ∈ out → r ∈ kept ∨ r ∈ batch ∧ skipped r = true) ∧ (∀ r, r ∈ batch → skipped r = true → has_skip r.(res_Check) out).
Proof.
  revert queued kept. induction batch as [|r batch IH]; intros queued kept Hq; cbn [requeue].
  { split_and!; [done|by left|by intros r ?%not_elem_of_nil]. }
  destruct (negb (skipped r) || bool_decide (res_Check r ∈ queued)) eqn:Hc.
  - destruct (IH queued kept Hq) as (H1 & H2 & H3). split_and!; [done|intros x Hx; destruct (H2 x Hx) as [?|[? ?]]; [by left|right; split; [by right|done]]|].
    intros x [->|Hx]%elem_of_cons Hs; [|by apply H3]. rewrite Hs in Hc. cbn in Hc. apply bool_decide_eq_true in Hc.
    destruct (Hq _ Hc) as (y & Hy & Hys & Hyc). exists y. split_and!; [|done|done]. destruct H1 as [l ->]. apply elem_of_app. by left.
  - apply orb_false_iff in Hc as [Hs%negb_false_iff _]. destruct (IH ({[res_Check r]} ∪ queued) (kept ++ [r])) as (H1 & H2 & H3).
    { intros c [ ->%elem_of_singleton|Hc]%elem_of_union; [exists r; split_and!; [apply elem_of_app; right; left|done|done]|].
      destruct (Hq c Hc) as (y & Hy & ? & ?). exists y. split_and!; [apply elem_of_app; by left|done|done]. }
    split_and!; [etrans; [|exact H1]; by apply prefix_app_r|..].
    + intros x Hx. destruct (H2 x Hx) as [[?| ->%list_elem_of_singleton]%elem_of_app|[? ?]]; [by left|right; split; [left|done]|right; split; [by right|done]].
    + intros x [->|Hx]%elem_of_cons Hxs; [|by apply H3]. exists r. split_and!; [|done|done]. destruct H1 as [l ->]. apply elem_of_app. left. apply elem_of_app. right. left.
Qed.

Lemma requeueSkips_spec target batch p : let p' := requeueSkips target batch p in
  (∀ t, t ≠ target → p' !! t = p !! t) ∧ results_of p target `prefix_of` results_of p' target ∧
  (∀ r, r ∈ results_of p' target → r ∈ results_of p target ∨ r ∈ batch ∧ skipped r = true) ∧
  (∀ r, r ∈ batch → skipped r = true → has_skip r.(res_Check) (results_of p' target)).
Proof.
  cbn zeta. unfold requeueSkips. destruct (requeue_spec (queued_checks (results_of p target)) batch (results_of p target)) as (H1 & H2 & H3).
  { intros c. unfold queued_checks. rewrite elem_of_list_to_set, list_elem_of_fmap. intros (r & -> & [Hs Hr]%list_elem_of_filter). by exists r. }
  set (out := requeue _ _ _) in *. clearbody out.
  assert (results_of (if bool_decide (out = []) then p else <[target := out]> p) target = out) as Hout.
  { case_bool_decide as Hn; [|unfold results_of; by rewrite lookup_insert_eq]. rewrite Hn in *. by apply prefix_nil_inv in H1. }
  rewrite Hout. split_and!; [|done..]. intros t Ht. case_bool_decide; [done|]. by rewrite lookup_insert_ne.
Qed.

(** ** Theorems: the flush *)

Section flushes.
Context `{FloatOverflow, UuidText}.
Context (answers : string → target_answers) (rate : option float64) (sentAt : Time) (ashEnabled : gmap string bool).
Context (others : string → list act).
Context (scheduled : gmap string (gset string)) (batch : gmap string (list Result)).

Definition sent (name : string) : list Result :=
  let results := results_of batch name in if bool_decide (results = []) then [] else results ++ [agentSelfResult rate sentAt].

Definition made (e : gmap string edgeState) (name : string) : option WInstance :=
  if live answers name then
    Some (instance answers ashEnabled scheduled name (sent name) (build name (uuid_String (answers name).(ta_InstanceID)) (answers name).(ta_Role) (results_of batch name) e).1)
  else None.

Lemma build_local name from role r e e' : e !! name = e' !! name → (build name from role r e).1 = (build name from role r e').1.
Proof. unfold build. intros ->. by destruct (negb _). Qed.

Lemma build_other name from role r e t : t ≠ name → (build name from role r e).2 !! t = e !! t.
Proof. intros Ht. unfold build. destruct (negb _); cbn; [by rewrite lookup_delete_ne|by rewrite lookup_insert_ne]. Qed.

#[local] Abbreviation target := (flush_target answers rate sentAt ashEnabled others scheduled batch).

Lemma target_spec st name : st.(fl_self) ∈ [None; Some (agentSelfResult rate sentAt)] →
  let st' := target st name in
  st'.(fl_self) ∈ [None; Some (agentSelfResult rate sentAt)] ∧
  st'.(fl_instances) = st.(fl_instances) ++ match made st.(fl_edges) name with Some i => [i] | None => [] end ∧
  (∀ t, t ≠ name → st'.(fl_edges) !! t = st.(fl_edges) !! t) ∧
  st'.(fl_pending) = (let p := do_acts (others name) st.(fl_pending) in if live answers name then p else requeueSkips name (results_of batch name) p).
Proof.
  intros Hself. unfold flush_target, made, sent. destruct (live answers name); cbn [negb].
  2: { split_and!; [done|by rewrite app_nil_r|done|done]. }
  set (b := build _ _ _ _ _). pose proof (build_other name (uuid_String (answers name).(ta_InstanceID)) (answers name).(ta_Role) (results_of batch name) st.(fl_edges)) as Hb. fold b in Hb.
  destruct b as [edges states]. cbn [fst snd] in *. case_bool_decide as Hr; [rewrite Hr; by split_and!|].
  assert (match fl_self st with Some r => r | None => agentSelfResult rate sentAt end = agentSelfResult rate sentAt) as ->.
  { rewrite !elem_of_cons, elem_of_nil in Hself. by destruct Hself as [->|[->|[]]]. }
  split_and!; [right; left|done|done|done].
Qed.

Lemma targets_spec ms st : NoDup ms → st.(fl_self) ∈ [None; Some (agentSelfResult rate sentAt)] →
  (foldl target st ms).(fl_instances) = st.(fl_instances) ++ omap (made st.(fl_edges)) ms.
Proof.
  intros Hnd. revert st. induction Hnd as [|name ms Hname _ IH]; intros st Hself; [by rewrite app_nil_r|].
  destruct (target_spec st name Hself) as (Hs & Hi & He & _). cbn [foldl]. rewrite IH by done. rewrite Hi, <- app_assoc. f_equal. cbn [omap list_omap].
  assert (omap (made (fl_edges (target st name))) ms = omap (made (fl_edges st)) ms) as ->.
  { apply list_omap_ext, Forall2_same_length_lookup; split; [done|]. intros i x y Hx Hy. assert (x = y) as <- by congruence. unfold made. destruct (live answers x); [|done]. do 2 f_equal.
    apply build_local, He. intros ->. apply Hname. by eapply list_elem_of_lookup_2. }
  by destruct (made (fl_edges st) name).
Qed.

Lemma do_acts_snoc l a p : do_acts (l ++ [a]) p = do_act (do_acts l p) a.
Proof. apply foldl_snoc. Qed.

Lemma do_act_results p a t r : r ∈ results_of (do_act p a) t ↔
  match a with Added t' r' => r ∈ results_of p t ∨ t' = t ∧ r' = r | SkipsDropped => r ∈ results_of p t ∧ skipped r = false end.
Proof.
  destruct a as [t' r'|]; cbn [do_act].
  - unfold append, results_of at 1. destruct (decide (t' = t)) as [->|Hne].
    + rewrite lookup_insert_eq. cbn. rewrite elem_of_app, list_elem_of_singleton. naive_solver.
    + rewrite lookup_insert_ne by done. unfold results_of. naive_solver.
  - rewrite dropSkips_results, list_elem_of_filter. unfold skipped, nonempty. rewrite negb_false_iff, bool_decide_eq_true. naive_solver.
Qed.

(** What is pending after a run of acts was there or was added. *)
Lemma do_acts_sound l p t r : r ∈ results_of (do_acts l p) t → r ∈ results_of p t ∨ Added t r ∈ l.
Proof.
  induction l as [|a l IH] using rev_ind; [by left|]. rewrite do_acts_snoc, do_act_results, elem_of_app, list_elem_of_singleton.
  destruct a as [t' r'|]; [intros [Hr|[-> ->]]; [|naive_solver]|intros [Hr _]]; destruct (IH Hr); naive_solver.
Qed.

(** A result stays, a skip as long as none are dropped. *)
Lemma do_acts_stay l p t r : r ∈ results_of p t → skipped r = false ∨ SkipsDropped ∉ l → r ∈ results_of (do_acts l p) t.
Proof.
  induction l as [|a l IH] using rev_ind; [done|]. intros Hr Hs. rewrite do_acts_snoc, do_act_results.
  assert (skipped r = false ∨ SkipsDropped ∉ l) as Hs' by (rewrite not_elem_of_app in Hs; naive_solver). specialize (IH Hr Hs').
  destruct a; [by left|]. split; [done|]. destruct Hs as [?|Hs]; [done|]. rewrite not_elem_of_app, list_elem_of_singleton in Hs. naive_solver.
Qed.

Lemma do_acts_added l p t r : Added t r ∈ l → skipped r = false → r ∈ results_of (do_acts l p) t.
Proof.
  intros (l1 & l2 & ->)%list_elem_of_split Hs. unfold do_acts. rewrite foldl_app. cbn [foldl]. apply (do_acts_stay l2); [|by left].
  apply (do_act_results _ (Added t r)). by right.
Qed.

Lemma requeue_stays name p t r : r ∈ results_of p t → r ∈ results_of (requeueSkips name (results_of batch name) p) t.
Proof.
  intros Hr. destruct (requeueSkips_spec name (results_of batch name) p) as (H1 & [l H2] & _). destruct (decide (t = name)) as [->|Ht].
  - rewrite H2. apply elem_of_app. by left.
  - unfold results_of. by rewrite H1.
Qed.

(** [pending] after the targets. *)
Lemma pending_stays ms st t r : st.(fl_self) ∈ [None; Some (agentSelfResult rate sentAt)] → r ∈ results_of st.(fl_pending) t →
  skipped r = false ∨ (∀ n, n ∈ ms → SkipsDropped ∉ others n) → r ∈ results_of (foldl target st ms).(fl_pending) t.
Proof.
  revert st. induction ms as [|name ms IH]; intros st Hself Hr Hs; [done|]. cbn [foldl]. destruct (target_spec st name Hself) as (Hs' & _ & _ & Hp).
  apply IH; [done| |destruct Hs as [?|Hs]; [by left|right; intros n Hn; apply Hs; by right]]. rewrite Hp. cbn zeta.
  assert (r ∈ results_of (do_acts (others name) (fl_pending st)) t) as Hr'.
  { apply do_acts_stay; [done|]. destruct Hs as [?|Hs]; [by left|right]. apply Hs. left. }
  destruct (live answers name); [done|]. by apply requeue_stays.
Qed.

Lemma added_stays ms st n t r : st.(fl_self) ∈ [None; Some (agentSelfResult rate sentAt)] → n ∈ ms → Added t r ∈ others n → skipped r = false →
  r ∈ results_of (foldl target st ms).(fl_pending) t.
Proof.
  revert st. induction ms as [|name ms IH]; intros st Hself Hn Ha Hs; [by apply not_elem_of_nil in Hn|]. cbn [foldl]. destruct (target_spec st name Hself) as (Hs' & _ & _ & Hp).
  apply elem_of_cons in Hn as [->|Hn]; [|by apply IH]. apply pending_stays; [done| |by left]. rewrite Hp. cbn zeta.
  pose proof (do_acts_added (others name) (fl_pending st) t r Ha Hs). destruct (live answers name); [done|]. by apply requeue_stays.
Qed.

Lemma skips_wait ms1 ms2 st name : st.(fl_self) ∈ [None; Some (agentSelfResult rate sentAt)] → live answers name = false → (∀ n, n ∈ ms2 → SkipsDropped ∉ others n) →
  ∀ r, r ∈ results_of batch name → skipped r = true → has_skip r.(res_Check) (results_of (foldl target st (ms1 ++ name :: ms2)).(fl_pending) name).
Proof.
  intros Hself Hl Hd r Hr Hs. rewrite foldl_app. cbn [foldl].
  assert ((foldl target st ms1).(fl_self) ∈ [None; Some (agentSelfResult rate sentAt)]) as Hself1.
  { revert st Hself. induction ms1 as [|n ms IH]; intros st Hself; [done|]. cbn [foldl]. by apply IH, target_spec. }
  destruct (target_spec (foldl target st ms1) name Hself1) as (Hself2 & _ & _ & Hp). cbn zeta in Hp. rewrite Hl in Hp.
  destruct (requeueSkips_spec name (results_of batch name) (do_acts (others name) (fl_pending (foldl target st ms1)))) as (_ & _ & _ & H4).
  destruct (H4 r Hr Hs) as (y & Hy & ? & ?). rewrite <- Hp in Hy. exists y. split_and!; [|done|done]. apply pending_stays; [done|done|by right].
Qed.

Lemma only_skips_wait ms st : st.(fl_self) ∈ [None; Some (agentSelfResult rate sentAt)] →
  ∀ t r, r ∈ results_of (foldl target st ms).(fl_pending) t → r ∈ results_of st.(fl_pending) t ∨ (∃ n, n ∈ ms ∧ Added t r ∈ others n) ∨
    t ∈ ms ∧ live answers t = false ∧ r ∈ results_of batch t ∧ skipped r = true.
Proof.
  revert st. induction ms as [|name ms IH]; intros st Hself t r; [by left|]. cbn [foldl]. destruct (target_spec st name Hself) as (Hs & _ & _ & Hp).
  setoid_rewrite elem_of_cons. intros [Hr|[(n & ? & ?)|(? & ? & ? & ?)]]%IH; [|right; left; naive_solver|naive_solver|done]. rewrite Hp in Hr. cbn zeta in Hr.
  assert (r ∈ results_of (do_acts (others name) (fl_pending st)) t ∨ t = name ∧ live answers t = false ∧ r ∈ results_of batch t ∧ skipped r = true) as [Ho|?]; [|..|naive_solver].
  - destruct (live answers name) eqn:Hl; [by left|].
    destruct (requeueSkips_spec name (results_of batch name) (do_acts (others name) (fl_pending st))) as (H1 & _ & H3 & _). destruct (decide (t = name)) as [->|Ht].
    + destruct (H3 r Hr) as [?|[? ?]]; [by left|by right].
    + left. unfold results_of in Hr. by rewrite H1 in Hr.
  - apply do_acts_sound in Ho as [?|?]; [by left|]. right. left. exists name. naive_solver.
Qed.
End flushes.

Lemma report_names dbs names : db_Name <$> reportScheduled dbs names = db_Name <$> dbs.
Proof. unfold reportScheduled. rewrite <- list_fmap_compose. apply list_fmap_ext. intros i db _. cbn. case_bool_decide; [done|]. by destruct (db_Monitored db). Qed.

Lemma report_monitored dbs names db : db ∈ reportScheduled dbs names → db.(db_Monitored) = true ↔ db.(db_Name) ∈ names.
Proof.
  unfold reportScheduled. intros (d & -> & _)%list_elem_of_fmap. case_bool_decide as Hd; [done|]. destruct (db_Monitored d) eqn:Hm; cbn; [by split|]. rewrite Hm. by split.
Qed.

(** C33: One push cycle, with configured targets of distinct names. Every target that can be
    reached and identified is an instance of the envelope, in the configured order and once,
    whether or not it has results, so the server sees it alive; the others are left out, and
    without any instance nothing is queued. An instance carries all the results collected for
    its target before the flush, with the agent's own reading after them when there are some;
    it lists the databases discovered (none when that failed) and calls one monitored exactly
    when the schedule running at the start of the flush has it. While the targets are asked,
    the rest of the agent may add any results to [pending] and drop the skips in it, in any
    order. A skip of a target that is left out then waits in [pending], under its own result
    or a newer one of the same check, unless the skips are dropped, for a new schedule, before
    one of the targets that come after it. Nothing else collected before the flush stays
    pending: what is there was added during the flush, or is such a skip. And no result added
    during the flush is lost, skips that are dropped apart. *)
Theorem flush_exact `{FloatOverflow, UuidText} managers answers agentID version rate sentAt ashEnabled others scheduledDBs pending edges :
  NoDup managers →
  let '(env, pending', _) := flushEnvelope managers answers agentID version rate sentAt ashEnabled others scheduledDBs pending edges in
  let made := made answers rate sentAt ashEnabled scheduledDBs pending edges in
  (default [] (env_Instances <$> env) = omap made managers) ∧
  (env = None ↔ ∀ name, name ∈ managers → live answers name = false) ∧
  (∀ name i, made name = Some i → live answers name = true ∧ i.(inst_TargetName) = name ∧ i.(inst_Results) = sent rate sentAt pending name ∧
     db_Name <$> i.(inst_Databases) = db_Name <$> match (answers name).(ta_discover) with inr dbs => dbs | inl _ => [] end ∧
     ∀ db, db ∈ i.(inst_Databases) → db.(db_Monitored) = true ↔ db.(db_Name) ∈ default ∅ (scheduledDBs !! name)) ∧
  (∀ before name after r, managers = before ++ name :: after → live answers name = false → (∀ n, n ∈ after → SkipsDropped ∉ others n) →
     r ∈ results_of pending name → skipped r = true → has_skip r.(res_Check) (results_of pending' name)) ∧
  (∀ t r, r ∈ results_of pending' t → (∃ n, n ∈ managers ∧ Added t r ∈ others n) ∨ t ∈ managers ∧ live answers t = false ∧ r ∈ results_of pending t ∧ skipped r = true) ∧
  (∀ n t r, n ∈ managers → Added t r ∈ others n → skipped r = false → r ∈ results_of pending' t).
Proof.
  intros Hnd. unfold flushEnvelope. set (st0 := mkFlushState ∅ edges None []).
  assert (st0.(fl_self) ∈ [None; Some (agentSelfResult rate sentAt)]) as Hst by left.
  pose proof (targets_spec answers rate sentAt ashEnabled others scheduledDBs pending managers st0 Hnd Hst) as Hi. cbn [fl_instances fl_edges st0 app] in Hi.
  set (st := foldl _ st0 managers) in *. set (m := made _ _ _ _ _ _ _) in *. cbn zeta. rewrite Hi.
  assert (omap m managers = [] ↔ ∀ name, name ∈ managers → live answers name = false) as Hnone.
  { split.
    - intros Hn name Hin. destruct (live answers name) eqn:Hl; [|done]. assert (∃ i, m name = Some i) as [i Hm] by (unfold m, made; rewrite Hl; eauto).
      exfalso. apply (not_elem_of_nil i). rewrite <- Hn. apply list_elem_of_omap. eauto.
    - intros Hn. destruct (omap m managers) as [|i l] eqn:Eo; [done|]. assert (i ∈ omap m managers) as (name & Hin & Hm)%list_elem_of_omap by (rewrite Eo; left).
      unfold m, made in Hm. by rewrite (Hn name Hin) in Hm. }
  split_and!.
  - case_bool_decide as E; [by rewrite E|done].
  - rewrite <- Hnone. case_bool_decide; by split.
  - intros name i. unfold m, made. destruct (live answers name); [|done]. intros [= <-]. cbn. split_and!; [done..|apply report_names|intros db; apply report_monitored].
  - intros before name after r E Hl Hd Hr Hs. subst managers. by apply (skips_wait answers rate sentAt ashEnabled others scheduledDBs pending before after st0 name Hst Hl Hd r).
  - intros t r Hr. destruct (only_skips_wait answers rate sentAt ashEnabled others scheduledDBs pending managers st0 Hst t r Hr) as [Hr'|?]; [|done].
    cbn in Hr'. unfold results_of in Hr'. rewrite lookup_empty in Hr'. by apply not_elem_of_nil in Hr'.
  - intros n t r Hn Ha Hs. by apply (added_stays answers rate sentAt ashEnabled others scheduledDBs pending managers st0 n t r Hst Hn Ha Hs).
Qed.

(** ** The schedule and the managers

    What the schedule set gives a manager is what the manager's own theorem asks for: the
    databases it sets, and those it has looked at for the view, pass the target's patterns. *)
Theorem schedule_respects_filters `{Regexp, RangeOrder, GoJson.JsonCodec} rnd gomaxprocs cfg registry managers opts s name :
  NoDup managers → reach rnd gomaxprocs cfg registry managers (Conn.eligible opts) s → name ∈ managers →
  (∃ names, s.(mgr_scheduled) !! name = Some names ∧ Conn.lawful opts (Conn.LSetScheduled names)) ∧
  (∀ rows has answer usable held, let dbs := Conn.selectDatabases rows opts in
     Conn.lawful opts (Conn.LLocate has answer (lookup_list (held_after held usable dbs) dbs)) ∧
     ∀ db, db ∈ lookup_list (held_after held usable dbs) dbs → Conn.eligible opts db.(db_Name)).
Proof.
  intros Hnd Hr Hn. pose proof (schedule_reach_inv rnd gomaxprocs cfg registry managers (Conn.eligible opts) Hnd s Hr) as Hs. split.
  - destruct (si_dbs _ _ _ _ Hs name Hn) as [_ Hm]. destruct (go_known _ _ _ (si_gates _ _ _ _ Hs) name Hn) as [g Hg]. eexists. split; [exact Hm|].
    unfold databases_of. rewrite Hg. cbn. apply (go_gate _ _ _ (si_gates _ _ _ _ Hs) name g Hg).
  - intros rows has0 answer usable held. cbn zeta. assert (∀ db, db ∈ lookup_list (held_after held usable (Conn.selectDatabases rows opts)) (Conn.selectDatabases rows opts) → Conn.eligible opts (db_Name db)) as Hl; [|done].
    intros db (d & -> & Hd)%list_elem_of_fmap. cbn. by eapply Conn.select_eligible.
Qed.

(** ** Examples *)
Module Cycle_.
#[local] Instance overflow : FloatOverflow := λ _, 0.
#[local] Instance plain_ids : UuidText := λ u, pretty.pretty u.

Definition ok (check : string) : Result := mkResult check 1 "" None false false "" "" [] [] ∅.
Definition pending0 : gmap string (list Result) := {["main" := [ok "wal"]; "spare" := [ok "wal"; skip_result "tables" 1 "role standby not allowed"]]}.
Definition answers (name : string) : target_answers :=
  mkTargetAnswers (if decide (name = "spare") then Some "connection refused" else None) 7 9
    (inr [mkWDatabase "shop" true ""; mkWDatabase "new" true ""; mkWDatabase "old" false "db_budget"]) RolePrimary "system_identifier" "db" 5432 160004 1.

(** A result of the main target comes in while the spare is asked, after a new schedule has
    dropped the skips. *)
Definition meanwhile (name : string) : list act := if decide (name = "spare") then [SkipsDropped; Added "main" (ok "activity")] else [].

(** The spare cannot be reached: it is left out, and only its skip waits. *)
Lemma flush_exact_witness :
  let '(env, pending', _) := flushEnvelope ["main"; "spare"] answers 3 "1.0" None 5 ∅ meanwhile {["main" := {["shop"; "old"]}]} pending0 ∅ in
  (λ i, (i.(inst_TargetName), res_Check <$> i.(inst_Results), i.(inst_Databases))) <$> default [] (env_Instances <$> env) =
    [("main", ["wal"; "agent_self"], [mkWDatabase "shop" true ""; mkWDatabase "new" false "db_budget"; mkWDatabase "old" true ""])] ∧
  has_skip "tables" (results_of pending' "spare") ∧ ok "activity" ∈ results_of pending' "main".
Proof.
  assert (NoDup ["main"; "spare"]) as Hnd by by apply (bool_decide_unpack _).
  pose proof (flush_exact ["main"; "spare"] answers 3 "1.0" None 5 ∅ meanwhile {["main" := {["shop"; "old"]}]} pending0 ∅ Hnd) as Hx.
  destruct (flushEnvelope ["main"; "spare"] answers 3 "1.0" None 5 ∅ meanwhile {["main" := {["shop"; "old"]}]} pending0 ∅) as [[env pending'] e].
  destruct Hx as (H1 & _ & _ & H4 & _ & H6). split_and!; [rewrite H1; vm_compute; reflexivity|..].
  - apply (H4 ["main"] "spare" [] (skip_result "tables" 1 "role standby not allowed")); [reflexivity|reflexivity|by intros n ?%not_elem_of_nil|right; left|reflexivity].
  - apply (H6 "spare"); [right; left|right; left|reflexivity].
Defined.

Definition receiver (host : string) (status port : Z) : Result :=
  mkResult "replication_receiver" 1 "" None false false "" ""
    [mkMetric "replication_receiver_status" {["sender_host" := host]} (float_of_int status) "gauge"; mkMetric "replication_receiver_sender_port" ∅ (float_of_int port) "gauge"] [] ∅.

(** A receiver that goes away leaves an edge of low confidence to the host it had. *)
Example receiver_lost :
  let '(e1, s1) := build "main" "9" RoleStandby [receiver "pg-a" 1 5433] ∅ in
  let '(e2, s2) := build "main" "9" RoleStandby [receiver "" 0 0] s1 in
  let '(e3, s3) := build "main" "9" RolePrimary [] s2 in
  e1 = [mkWEdge "9" "pg-a" 5433 "streaming" "high"] ∧ e2 = [mkWEdge "9" "pg-a" 5433 "streaming" "low"] ∧ e3 = [] ∧ s3 = ∅.
Proof. vm_compute. auto. Qed.
End Cycle_.
